(* ===== verification/_CoqProject ===== *)
-Q . S2P
Prelude.v
Temporal.v
Text.v
Decimal.v
Btree.v
Json.v
JsonCodec.v
State.v
Consistency.v
Protocol.v
QuintProtocol.v
ProtocolSync.v
Scheduler.v
QuintScheduler.v
QuintLiveness.v
Clock.v
Client.v
SqliteStore.v
Connectivity.v
Transport.v
Lifecycle.v
QuintLifecycle.v
Lease.v
Runner.v
Session.v
DesktopSqlite.v
Resource.v
Itf.v
AdapterStream.v
Float64.v
RetryDelay.v
Regex.v
Schema.v
JsonSchema.v
Observability.v
Dial.v
Socket.v
BundleId.v
Publication.v
PublicationSafety.v
Path.v
Manifest.v
Workspace.v
Plan.v
Replay.v
QueueReplay.v
QueueExample.v
SchedulerReplay.v
LifecycleReplay.v
Capture.v
Command.v
Corpus.v
App.v
Init.v
Rpc.v
Report.v
