(* ===== verification/Prelude.v ===== *)
(** * A verification library for the opto-sync clients

    opto-sync is a local-first synchronization stack.  An application writes to
    a local store; a durable queue keeps its mutations; a driver pushes them to
    a server and pulls the changes of others; schedulers, leases and transports
    decide when and over what this happens.  The library models the Rust
    implementation ([src/clients/rust], [src/clients/rust-connectivity],
    [src/clients/desktop-rust]), its model-checking tool ([src/tools/fmctl]), and
    the executable Quint specifications with the programs that replay their
    traces against the implementation ([src/formal] and the examples), and proves
    what makes them correct.

    ** How the parts interact

    A write is stamped by the hybrid logical clock and queued.  A cycle of the
    driver pushes the pending prefix of the queue, confirms what the server
    acknowledged, and pulls pages of changes until there are no more; rows and
    queue are persisted at each step, by separate stores or in one transaction.
    The scheduler decides when cycles run; on the desktop the runner also holds
    a durable lease that the SQLite coordinator implements, and a session orders
    login, logout and cycles.  The driver talks to the server through a
    transport: requests are correlated over a WebSocket or a TCP connection.
    Reads merge the remote rows with the overlays of unconfirmed writes under
    consistency policies.

    The repository checks the queue, the scheduler and the lifecycle against
    Quint specifications: the tool reads a manifest, plans and runs the model
    checker, collects its traces, and asks a replay program per language to drive
    the implementation along them; the program's answer, the outcome and the
    reports of a run are published as an immutable bundle.  Sampling traces is
    what the repository can do; here the refinement is proved for every run, and
    the programs' answers are shown to be what the tool accepts.

    ** Files

    Foundations.
    - Prelude: results, [let?], machine-width bounds, shared list lemmas and
      automation (the tactics [crack], [bsimp] and the rewrite base [bools]).
    - Text, Decimal, Regex: byte strings, trimming and splitting; integer
      printing and parsing; regular expressions over UTF-8.
    - Btree, Json, JsonCodec, JsonSchema: B-tree maps, decoded JSON, the laws of
      the text codec with a lawful instance, and JSON Schema validity.
    - State: state passing with errors.  Float64: IEEE doubles and durations.

    The client ([clients/rust/src]).
    - Consistency (consistency.rs): [reconcile_read_model] and the policies.
      The read model is that of a specification by last writers
      ([reconcile_read_model_correct]); a queued intent is frozen.
    - Protocol (protocol.rs): the queue, a record with one function per method.
      Every queue the methods can reach passes the validation the loader runs
      ([reachable_queue_validates], [validate_queue_ok]); acknowledgement
      confirms exactly the acknowledged prefix ([acknowledge_correct]); merging
      with a concurrently saved queue loses nothing
      ([merge_concurrent_durable_correct]).
    - ProtocolSync (protocol_sync.rs): the cycle against the type classes
      [ProtocolTransport], [ProtocolSyncCallbacks], [ProtocolQueuePersistence]
      and [AtomicProtocolSyncStore].  Whatever these answer, changes are applied
      once and in server order ([sync_cycle_applied_in_order]), memory agrees
      with the disk at every exit ([sync_cycle_memory_is_disk]), and a cycle of
      a server that makes progress ends ([sync_cycle_completes]).
    - SqliteStore (sqlite.rs): the five tables, every operation a transaction
      any statement of which may fail.  With payloads that serde_json reads back
      the tables stay consistent ([store_stays_consistent]), and the store meets
      the class's laws, so the cycle's theorems hold over it
      ([sync_cycle_on_sqlite]); without, the stored queue is lost
      ([unreadable_queue_stays]).
    - RetryDelay (protocol_sync.rs): the jittered backoff, with its bounds.
    - Scheduler (protocol_scheduler.rs): every event handler; the safety
      predicate is an invariant ([scheduler_always_safe]) and no wake is lost
      ([scheduler_no_lost_wake]).
    - Clock (clock.rs), Client (lib.rs): stamps increase across restarts and
      survive formatting ([clock_monotone], [hlc_roundtrip]); a client reads its
      own writes, whatever it does next ([local_view_reads_own_writes]).
    - Transport, Socket, Dial (transport.rs, transport/tcp.rs, transport/ws.rs):
      the request map, the connection threads and framing, and where a token is
      sent.  Requests get their own responses ([responses_correlated],
      [request_gets_its_response]) or the failure that came first, the thread's
      own or another's ([connection_answers_all]);
      frames survive TCP ([ndjson_roundtrip]); the server reads the token that
      was given ([dialed_token]) over the hops the policy allows
      ([cleartext_ipv4_policy], and [public_hosts_get_the_token] for the hosts
      it lets through).
    - Schema (schema.rs): the ingest envelope; the hand-written matchers accept
      the languages they document ([recognisers_match]).
    - Observability (observability.rs, telemetry.rs): records conform to the
      published JSON Schema ([telemetry_record_conforms]).

    Connectivity (rust-connectivity/src/lib.rs): the watcher's locked steps, and
    what their interleavings can do.

    The desktop host ([clients/desktop-rust]).
    - Lifecycle (lib.rs, fenced-lifecycle/src/lib.rs), Lease, Runner (lib.rs),
      Session (session_lifecycle.rs), DesktopSqlite (sqlite.rs): the lease
      contract is a class with laws; the in-memory store and the SQLite
      coordinator are its instances.  Grants of the in-memory store have strictly
      increasing fences and do not overlap ([fences_strictly_increase]), a stale holder writes nothing
      ([fenced_write_correct]), wakes are not lost ([wakes_not_lost]), and
      a run of the runner is one of its specification ([run_once_refines]).

    Executable specifications and conformance ([formal], the examples).
    - Temporal: infinite behaviours, strong fairness, [leads_to].
    - QuintProtocol, QuintScheduler, QuintLifecycle (formal/*.qnt): state, actions
      and invariants of the three models.  The invariants hold in every reachable
      state ([reachable_safe], [scheduler_runs_are_safe]); the lifecycle machine
      and its model are the same transition system ([machine_is_the_model]).
    - QuintLiveness: the temporal claims of the specifications, under exactly the
      fairness they assume ([protocol_progress], [scheduler_progress];
      [lifecycle_progress] is in QuintLifecycle).
    - QueueReplay (formal/rust-itf-replay/src/main.rs), QueueExample
      (rust/examples/quint_itf_replay.rs), SchedulerReplay
      (rust/examples/scheduler_itf_replay.rs), LifecycleReplay
      (desktop-rust/examples/lifecycle_itf_replay.rs): the drivers.  Every run of
      a model replays on the implementation ([every_run_replays],
      [every_scheduler_run_replays], [every_lifecycle_run_replays]); the answers
      pass the tool's checks ([adapter_answers_are_accepted],
      [lifecycle_answers_are_accepted]); the example accepts what the adapter
      accepts ([example_is_weaker]).

    The tool ([tools/fmctl/src]).
    - Path: [std::path] on Unix.  Manifest, Workspace (manifest.rs, error.rs): the
      manifest's data and shape checks, and loading; what is loaded is confined to
      the workspace, and exactly the manifests that satisfy the specification load
      ([load_correct]).
    - Resource (resource.rs): resource profiles, with overflow-checked bounds.
    - Plan (plan.rs): argument lists, environments, trace patterns and replay
      requests.  The directories and outputs of a plan are inside the workspace
      ([plan_confined]); the limits of a valid manifest resolve
      ([valid_manifest_resolves]).
    - Capture, Command (runner.rs): the output budget that readers share by
      compare-and-swap ([capture_shares_limit]), and the execution of a plan with
      time-outs and atomically written artifacts ([execute_plan_correct]).
    - Corpus, App (lib.rs): trace corpora, validation, the verdict of an operation
      ([reported_success_correct]) and the doctor's probes.  Init (lib.rs): a new
      project destroys no file of the workspace ([init_keeps_files]).
    - Replay (adapter.rs): the answers of replay programs
      ([replay_response_accepted]).
    - Itf, AdapterStream (adapter_stream_v1.rs): canonical JSON, where equal
      values have one form ([canonical_form]), and the transcript validator,
      which accepts exactly the well-formed sessions ([transcript_accepted]).
    - Rpc (rpc.rs): bounded lines and the serial JSON-RPC loop ([frames_correct],
      [answers_in_order]).
    - Report (report.rs, execution_report.rs): the report files, which tell of
      paths the last components and of arguments the number
      ([reports_are_public]), and read back ([junit_roundtrip]).
    - BundleId, Publication, PublicationSafety (report_publish.rs,
      report_publish_leased.rs): publishers and cleaners as a transition system of
      system calls that may fail, stop or be interleaved.  In orderly runs a
      published bundle is complete and never changes
      ([bundles_complete_and_immutable]), what a dead publisher leaves is
      recovered ([abandoned_state_recovered]); [cleanup_races] shows what other
      runs can do.

    ** Conventions

    Machine integers are [N] with their bounds written out ([u64_max],
    [checked_add_u64], ...).  A method that mutates its receiver returns the
    new state beside its result, so errors keep the effects made before them.
    A panic is [None] or the outcome [Unwound].  Code that is not in the
    repository (SQLite, serde_json and serde's derived codecs, sockets,
    tungstenite, clocks, entropy, the application's callbacks) is a class or a
    section parameter; laws it is assumed to obey are named classes with an
    instance ([SerdeJsonLaws], [AtomicStoreLaws], ...).  serde_json's parser is
    assumed to read back only what it documents: values within its recursion limit,
    doubles left out ([readable], [MAX_NESTING]).  Concurrency is by
    interleaving the sections each lock makes atomic, or, in Publication, single
    system calls.  A file system that is only read is the class [FileSystem];
    what a child process did is a record of answers ([ChildRun]).  Quint's
    integers are never negative in these models and are [N]; a disabled action is
    [None].  Error texts are constructors.

    ** Fuel

    The cycle's loops are bounded by the page and batch limits of the source's
    own options, which a server that keeps making progress does not exhaust
    ([sync_cycle_completes]).  The wait and cycle loops of the coordinated
    runner have fuel; [wake_and_run_terminates] gives the amount that is never
    used up.  The TCP reader has a unit of fuel per byte and one more, and
    always ends ([ndjson_roundtrip]).  Digit printing has a unit per bit of the
    number; trimming, counting matches, lossy decoding and unescaping one per
    byte.  The server of Rpc has one per byte of its input and one more, which
    is enough because a line takes at least one ([frames_correct]).  Everything
    else is structural.

    ** Not modelled

    Sockets, threads and their spawning, file and process I/O, the text of most
    [Display] impls, the browser connectivity adapter, option structs and their
    constructors.  Of fmctl: the decoding of TOML and its default values, the
    command-line programs, the checks on the ancestors and permissions of a report
    root, the cleanup of bundles without leases, lock implementations per
    operating system.  The child-process binary of the desktop client, the clients
    and bindings in other languages, generated code, scripts and tests are other
    artifacts.

    ** Next

    A [ProtocolTransport] instance built from Transport and Socket, to run the
    cycle's theorems over a connection; the report root's permission checks. *)

From Stdlib Require Export Bool List Ascii ZArith NArith Lia Sorted.
From stdpp Require Export base option list strings gmap numbers sorting.

#[export] Set Warnings "-clear-no-such-hyp".

#[global] Open Scope N_scope.

(** ** Results of fallible code (Rust's [Result]) *)

Inductive result (A E : Type) : Type :=
| Ok (a : A)
| Err (e : E).
Arguments Ok {A E} a.
Arguments Err {A E} e.

Declare Scope opto_scope.
Delimit Scope opto_scope with opto.
#[global] Open Scope opto_scope.

(** [let? x := m in k] is Rust's [let x = m?; k]. *)
Notation "'let?' x := m 'in' k" :=
  (match m with Ok x => k | Err e => Err e end)
  (at level 10, x pattern, m at level 100, k at level 200,
   format "'[v' 'let?'  x  :=  m  'in' '/' k ']'") : opto_scope.

(** Boolean equality of a type with decidable equality (Rust's [==]). *)
Notation "x == y" := (bool_decide (x = y)) (at level 70, no associativity) : opto_scope.

Definition is_ok {A E} (r : result A E) : bool :=
  match r with Ok _ => true | Err _ => false end.

Definition is_err {A E} (r : result A E) : bool := negb (is_ok r).

Definition ok {A E} (r : result A E) : option A :=
  match r with Ok a => Some a | Err _ => None end.

Definition map_err {A E F} (f : E → F) (r : result A E) : result A F :=
  match r with Ok a => Ok a | Err e => Err (f e) end.

Definition ok_or {A E} (o : option A) (e : E) : result A E :=
  match o with Some a => Ok a | None => Err e end.

Definition is_some {A} (o : option A) : bool :=
  match o with Some _ => true | None => false end.

(** [Option::is_some_and] and [Option::is_none_or]. *)
Definition is_some_and {A} (o : option A) (p : A → bool) : bool :=
  match o with Some a => p a | None => false end.

Definition is_none_or {A} (o : option A) (p : A → bool) : bool :=
  match o with Some a => p a | None => true end.

#[export] Instance result_eq_dec {A E} `{EqDecision A, EqDecision E} : EqDecision (result A E).
Proof. solve_decision. Defined.

(** ** Machine integers *)

Definition u64_max : N := 18446744073709551615.
Definition i64_max : N := 9223372036854775807.
Definition u32_max : N := 4294967295.

Definition checked_add_u64 (a b : N) : option N :=
  if a + b <=? u64_max then Some (a + b) else None.

Definition saturating_add_u64 (a b : N) : N := N.min u64_max (a + b).

(** ** Stable sorting (Rust's [sort_by]): an element goes after its equals *)

Fixpoint insert_by {A} (cmp : A → A → comparison) (x : A) (l : list A) : list A :=
  match l with
  | [] => [x]
  | y :: l' => match cmp x y with Lt => x :: l | _ => y :: insert_by cmp x l' end
  end.

Definition sort_by {A} (cmp : A → A → comparison) (l : list A) : list A :=
  fold_left (λ acc x, insert_by cmp x acc) l [].

(** ** Automation *)

Create Rewrite HintDb bools.
#[export] Hint Rewrite
  andb_true_iff orb_true_iff negb_true_iff andb_false_iff orb_false_iff negb_false_iff
  N.leb_le N.ltb_lt N.eqb_eq N.leb_gt N.ltb_ge N.eqb_neq
  Z.leb_le Z.ltb_lt Z.eqb_eq Z.leb_gt Z.ltb_ge Z.eqb_neq
  Nat.leb_le Nat.ltb_lt Nat.eqb_eq Nat.leb_gt Nat.ltb_ge Nat.eqb_neq
  bool_decide_eq_true bool_decide_eq_false : bools.

(** [bsimp] turns the boolean guards of the code into propositions. *)
Ltac bsimp := repeat (progress (autorewrite with bools in *; destruct_and?)).

(** [break_match] splits on the scrutinee of a match in a hypothesis or the goal,
    keeping its equation. *)
Ltac break_match_in H :=
  match type of H with
  | context [match ?x with _ => _ end] => destruct x eqn:?
  end.
Ltac break_match :=
  match goal with
  | H : context [match ?x with _ => _ end] |- _ => destruct x eqn:?
  | |- context [match ?x with _ => _ end] => destruct x eqn:?
  end.

(** [crack] finishes the routine cases: split every match, simplify, contradict. *)
Ltac crack := repeat (break_match; simplify_eq/=); simplify_eq/=; try done.

(** ** Generic lemmas *)

Section Lists.
Context {A B : Type}.
Implicit Types (l : list A) (p : A → bool).

Lemma forallb_Forall p l : forallb p l = true ↔ Forall (λ x, p x = true) l.
Proof.
  induction l as [|x l IH]; simpl; [by split|].
  by rewrite andb_true_iff, Forall_cons, IH.
Qed.

Lemma forallb_app p l1 l2 : forallb p (l1 ++ l2) = forallb p l1 && forallb p l2.
Proof. induction l1 as [|x l1 IH]; simpl; [done|]. by rewrite IH, andb_assoc. Qed.

Lemma flat_map_nil {C} (f : A → list C) l : flat_map f l = [] ↔ Forall (λ x, f x = []) l.
Proof. induction l as [|x l IH]; simpl; [by split|]. by rewrite app_nil, Forall_cons, IH. Qed.

(** Bool-valued filter, the form Rust's [iter().filter] takes. *)
Lemma Forall_filter_bool p (P : A → Prop) l :
  Forall P l → Forall P (List.filter p l).
Proof.
  induction 1; simpl; [constructor|]. destruct (p x); [by constructor|done].
Qed.

Lemma In_elem (x : A) l : In x l ↔ x ∈ l.
Proof. symmetry. apply list_elem_of_In. Qed.

(** Two implications between boolean tests that fail together give equality. *)
Lemma bool_eq_iff (a b : bool) : (a = true ↔ b = true) → a = b.
Proof. destruct a, b; naive_solver. Qed.
End Lists.

(** Lists sorted by a numeric key: keys are unique, and a prefix is exactly the
    elements up to its last key. *)
Section Keyed.
Context {A : Type} (f : A → N).
Implicit Types (l k : list A).

Lemma sorted_key_cons x l :
  StronglySorted N.lt (List.map f (x :: l)) ↔
  Forall (λ y, f x < f y) l ∧ StronglySorted N.lt (List.map f l).
Proof.
  simpl. split.
  - intros [Hs Hf]%StronglySorted_inv. by rewrite Forall_map in Hf.
  - intros [Hf Hs]. constructor; [done|]. by rewrite Forall_map.
Qed.

Lemma sorted_key_filter p l :
  StronglySorted N.lt (List.map f l) → StronglySorted N.lt (List.map f (List.filter p l)).
Proof.
  induction l as [|x l IH]; [done|]. rewrite sorted_key_cons. intros [Hf Hs].
  cbn [List.filter]. destruct (p x); [|auto]. rewrite sorted_key_cons.
  auto using Forall_filter_bool.
Qed.

(** Sorted lists with the same elements are the same. *)
Lemma sorted_key_ext l : ∀ k, StronglySorted N.lt (List.map f l) → StronglySorted N.lt (List.map f k) →
  (∀ x, x ∈ l ↔ x ∈ k) → l = k.
Proof.
  induction l as [|x l IH]; intros [|y k]; [done| | |].
  { intros _ _ Heq. exfalso. eapply not_elem_of_nil, Heq, elem_of_cons. by left. }
  { intros _ _ Heq. exfalso. eapply not_elem_of_nil, Heq, elem_of_cons. by left. }
  rewrite !sorted_key_cons, !Forall_forall. intros [Hx Hl] [Hy Hk] Heq.
  assert (x = y) as <-.
  { destruct (proj1 (elem_of_cons _ _ _) (proj1 (Heq x) (proj2 (elem_of_cons _ _ _) (or_introl eq_refl)))) as [?|Hin];
      [done|].
    destruct (proj1 (elem_of_cons _ _ _) (proj2 (Heq y) (proj2 (elem_of_cons _ _ _) (or_introl eq_refl)))) as [?|Hin'];
      [done|].
    specialize (Hx _ Hin'). specialize (Hy _ Hin). lia. }
  f_equal. apply IH; [done..|]. intros z. specialize (Heq z). rewrite !elem_of_cons in Heq. split; intros Hz.
  - destruct (proj1 Heq (or_intror Hz)) as [->|?]; [|done]. specialize (Hx _ Hz). lia.
  - destruct (proj2 Heq (or_intror Hz)) as [->|?]; [|done]. specialize (Hy _ Hz). lia.
Qed.

Lemma sorted_key_snoc l x :
  StronglySorted N.lt (List.map f l) → Forall (λ y, f y < f x) l →
  StronglySorted N.lt (List.map f (l ++ [x])).
Proof.
  induction l as [|y l IH]; [repeat constructor|]. rewrite sorted_key_cons, Forall_cons.
  intros [Hf Hs] [Hy Hl]. cbn [app]. rewrite sorted_key_cons, Forall_app, Forall_singleton. auto.
Qed.

Lemma sorted_key_NoDup l : StronglySorted N.lt (List.map f l) → NoDup (List.map f l).
Proof.
  induction l as [|x l IH]; [constructor|]. rewrite sorted_key_cons. intros [Hf Hs].
  cbn [List.map]. constructor; [|auto]. intros (y & Hy & Hin)%list_elem_of_fmap.
  rewrite Forall_forall in Hf. apply Hf in Hin. lia.
Qed.

Lemma sorted_key_inj l x y :
  StronglySorted N.lt (List.map f l) → x ∈ l → y ∈ l → f x = f y → x = y.
Proof.
  induction l as [|z l IH]; [by intros _ ?%not_elem_of_nil|]. rewrite sorted_key_cons, !elem_of_cons.
  rewrite Forall_forall. intros [Hf Hs] [->|Hx] [->|Hy] E; try done; auto.
  - apply Hf in Hy. lia.
  - apply Hf in Hx. lia.
Qed.

Lemma filter_none p l : Forall (λ x, p x = false) l → List.filter p l = [].
Proof. induction 1 as [|x l Hx _ IH]; simpl; [done|]. by rewrite Hx. Qed.

Lemma filter_all p l : Forall (λ x, p x = true) l → List.filter p l = l.
Proof. induction 1 as [|x l Hx _ IH]; simpl; [done|]. by rewrite Hx, IH. Qed.

Lemma sorted_prefix n l x :
  StronglySorted N.lt (List.map f l) → last (take n l) = Some x →
  List.filter (λ y, f y <=? f x) l = take n l ∧
  List.filter (λ y, negb (f y <=? f x)) l = drop n l.
Proof.
  revert n. induction l as [|y l IH]; intros n; [by destruct n|].
  rewrite sorted_key_cons. intros [Hf Hs] Hl. destruct n as [|n]; [done|].
  cbn [take drop List.filter] in *. destruct (take n l) as [|z k] eqn:Ht.
  - injection Hl as ->. rewrite N.leb_refl. cbn [negb].
    assert (Forall (λ z, (f z <=? f x) = false) l) as Hno.
    { eapply Forall_impl; [exact Hf|]. simpl. intros z Hz. bsimp. lia. }
    rewrite filter_none by done.
    rewrite filter_all by (eapply Forall_impl; [exact Hno|]; simpl; by intros z ->).
    destruct n; [done|]. by destruct l.
  - rewrite last_cons_cons, <- Ht in Hl. destruct (IH n Hs Hl) as [-> ->].
    assert (x ∈ l) as Hx by (apply last_Some_elem_of in Hl; apply elem_of_take in Hl as (i & ? & _); by eapply list_elem_of_lookup_2).
    rewrite Forall_forall in Hf. apply Hf in Hx.
    replace (f y <=? f x) with true by (symmetry; bsimp; lia). simpl. by rewrite Ht.
Qed.
End Keyed.

(** The head of a sorted list below its second element suffices. *)
Lemma sorted_cons2 (a b : N) l :
  StronglySorted N.lt (a :: b :: l) ↔ a < b ∧ StronglySorted N.lt (b :: l).
Proof.
  split.
  - intros [Hs Hf]%StronglySorted_inv. by apply Forall_cons in Hf as [Hf _].
  - intros [Hab Hs]. constructor; [done|]. apply Forall_cons. split; [done|].
    apply StronglySorted_inv in Hs as [_ Hs]. eapply Forall_impl; [exact Hs|]. simpl. lia.
Qed.

Section Filters.
Context {A : Type}.
Implicit Types (l : list A) (p q : A → bool).

Lemma filter_ext_Forall p q l : Forall (λ x, p x = q x) l → List.filter p l = List.filter q l.
Proof. induction 1 as [|x l Hx _ IH]; simpl; [done|]. by rewrite Hx, IH. Qed.

Lemma filter_comm p q l : List.filter p (List.filter q l) = List.filter q (List.filter p l).
Proof.
  induction l as [|x l IH]; simpl; [done|].
  destruct (p x) eqn:Hp, (q x) eqn:Hq; simpl; rewrite ?Hp, ?Hq, IH; done.
Qed.

Lemma find_app_none p l k :
  Forall (λ x, p x = false) l → List.find p (l ++ k) = List.find p k.
Proof. induction 1 as [|x l Hx _ IH]; simpl; [done|]. by rewrite Hx. Qed.

Lemma elem_of_filter_bool p l x : x ∈ List.filter p l ↔ x ∈ l ∧ p x = true.
Proof. rewrite <- !In_elem, filter_In. done. Qed.
End Filters.

Section Results.
Context {A E : Type}.
Implicit Types (r : result A E).

Lemma is_ok_Ok r : is_ok r = true → ∃ a, r = Ok a.
Proof. destruct r; [by eexists|done]. Qed.

Lemma ok_Some r a : ok r = Some a ↔ r = Ok a.
Proof. destruct r; simpl; split; congruence. Qed.

Lemma ok_None r : ok r = None ↔ ∃ e, r = Err e.
Proof. destruct r; simpl; naive_solver. Qed.
End Results.

Section Sorting.
Context {A : Type} (cmp : A → A → comparison).
Let le x y := cmp x y ≠ Gt.

Lemma insert_by_perm x l : insert_by cmp x l ≡ₚ x :: l.
Proof.
  induction l as [|y l IH]; simpl; [done|].
  destruct (cmp x y); [rewrite IH; apply Permutation_swap|done|rewrite IH; apply Permutation_swap].
Qed.

Lemma fold_insert_perm l acc : fold_left (λ acc x, insert_by cmp x acc) l acc ≡ₚ l ++ acc.
Proof.
  revert acc. induction l as [|x l IH]; intros acc; simpl; [done|].
  rewrite IH, insert_by_perm. by rewrite Permutation_middle.
Qed.

Lemma sort_by_perm l : sort_by cmp l ≡ₚ l.
Proof. unfold sort_by. by rewrite fold_insert_perm, app_nil_r. Qed.

Context (Hanti : ∀ x y, cmp y x = CompOpp (cmp x y)).
Context (Htrans : ∀ x y z, le x y → le y z → le x z).

Lemma insert_by_sorted x l : StronglySorted le l → StronglySorted le (insert_by cmp x l).
Proof.
  induction 1 as [|y l Hl IH Hall]; simpl; [repeat constructor|].
  assert (cmp x y ≠ Lt → le y x) as Hyx.
  { intros Ho. unfold le. rewrite Hanti. by destruct (cmp x y). }
  assert (le y x → StronglySorted le (y :: insert_by cmp x l)) as Hins.
  { intros Hle. constructor; [done|]. rewrite (insert_by_perm x l). by constructor. }
  destruct (cmp x y) eqn:E; [by apply Hins, Hyx| |by apply Hins, Hyx].
  assert (le x y) by (unfold le; by rewrite E).
  constructor; [by constructor|]. constructor; [done|].
  eapply Forall_impl; [exact Hall|]. intros z Hz. by eapply Htrans.
Qed.

Lemma sort_by_sorted l : StronglySorted le (sort_by cmp l).
Proof.
  unfold sort_by. assert (StronglySorted le []) as H by constructor.
  revert H. generalize (@nil A). induction l as [|x l IH]; simpl; [done|].
  intros acc Hacc. by apply IH, insert_by_sorted.
Qed.

Lemma insert_by_last x l : Forall (λ y, le y x) l → insert_by cmp x l = l ++ [x].
Proof.
  induction 1 as [|y l Hy Hl IH]; simpl; [done|]. rewrite IH.
  destruct (cmp x y) eqn:E; try done. unfold le in Hy. by rewrite Hanti, E in Hy.
Qed.

(** Sorting a sorted list changes nothing. *)
Lemma sort_by_id l : StronglySorted le l → sort_by cmp l = l.
Proof.
  unfold sort_by. change (StronglySorted le ([] ++ l) → fold_left (λ acc x, insert_by cmp x acc) l [] = [] ++ l).
  generalize (@nil A) as acc. induction l as [|x l IH]; intros acc Hs; simpl; [by rewrite app_nil_r|].
  assert (Forall (λ y, le y x) acc) as Hacc.
  { clear IH. induction acc as [|y acc IHa]; [constructor|].
    apply StronglySorted_inv in Hs as [Hs Hy]. constructor; [|by apply IHa].
    rewrite Forall_app, Forall_cons in Hy. naive_solver. }
  rewrite (insert_by_last _ _ Hacc), IH, <- app_assoc; [done|].
  by rewrite <- app_assoc.
Qed.
End Sorting.
