(* ===== verification/Temporal.v ===== *)
(** * Temporal: claims about infinite behaviours

    The temporal operators of the Quint specifications ([leadsTo], [strongFair])
    over the infinite behaviours of a transition system whose actions are named,
    and the two ways their progress claims are proved: a fair action that stays
    enabled is taken, and an action that lowers a measure is taken finitely often.
    Progress of an infinite behaviour is not decidable, so the lemmas use
    excluded middle. *)

From Stdlib Require Import Classical_Prop.
From S2P Require Import Prelude.

Definition eventually_never (R : nat → Prop) : Prop := ∃ n, ∀ j, (n ≤ j)%nat → ¬ R j.

Lemma not_recurring (R : nat → Prop) : ¬ eventually_never R → ∀ i, ∃ j, (i ≤ j)%nat ∧ R j.
Proof.
  intros H i. destruct (classic (∃ j, (i ≤ j)%nat ∧ R j)) as [?|Hno]; [done|]. exfalso. apply H. exists i.
  intros j Hj HR. apply Hno. by exists j.
Qed.

Lemma eventually_never_or (R1 R2 : nat → Prop) : eventually_never R1 → eventually_never R2 →
  eventually_never (λ j, R1 j ∨ R2 j).
Proof. intros [n1 H1] [n2 H2]. exists (max n1 n2). intros j Hj [?|?]; [apply (H1 j)|apply (H2 j)]; (lia || done). Qed.

Lemma eventually_never_impl (R1 R2 : nat → Prop) n : eventually_never R1 → (∀ j, (n ≤ j)%nat → R2 j → R1 j) → eventually_never R2.
Proof. intros [n1 H1] H. exists (max n1 n). intros j Hj HR. apply (H1 j); [lia|]. apply H; [lia|done]. Qed.

Lemma eventually_never_next (R : nat → Prop) : eventually_never R → eventually_never (λ j, R (S j)).
Proof. intros [n H]. exists n. intros j Hj. apply H. lia. Qed.

(** An event that lowers a measure that never grows happens finitely often. *)
Lemma lowered_finitely (f : nat → nat) (R : nat → Prop) n :
  (∀ j, (n ≤ j)%nat → (f (S j) ≤ f j)%nat) → (∀ j, (n ≤ j)%nat → R j → (f (S j) < f j)%nat) → eventually_never R.
Proof.
  intros Hle Hlt. remember (f n) as m eqn:Hm. revert n Hm Hle Hlt. induction (lt_wf m) as [m _ IH]. intros n Hm Hle Hlt.
  destruct (classic (∃ j, (n ≤ j)%nat ∧ R j)) as [(j & Hj & HR)|Hno].
  - assert ((f j ≤ f n)%nat) as Hjn by (clear HR; induction Hj as [|j Hj IHj]; [done|]; pose proof (Hle j Hj); lia).
    apply (IH (f (S j))) with (n := S j); [pose proof (Hlt j Hj HR); lia|done|..]; intros k Hk; [apply Hle|apply Hlt]; lia.
  - exists n. intros j Hj HR. apply Hno. by exists j.
Qed.

Section Behaviours.
Context {State Action : Type}.
Context (performs : Action → State → State → Prop).

(** An infinite behaviour; [step] is any of the actions. *)
Definition behaviour (init : State) (σ : nat → State) : Prop :=
  σ 0%nat = init ∧ ∀ i, ∃ a, performs a (σ i) (σ (S i)).

(** One of the actions is taken, and changes the state. *)
Definition taken (A : Action → Prop) (s s' : State) : Prop := s' ≠ s ∧ ∃ a, A a ∧ performs a s s'.

(** [any { A }.strongFair(Set(s))]: what is enabled again and again is taken again and again. *)
Definition strong_fair (A : Action → Prop) (σ : nat → State) : Prop :=
  (∀ i, ∃ j s', (i ≤ j)%nat ∧ taken A (σ j) s') → ∀ i, ∃ j, (i ≤ j)%nat ∧ taken A (σ j) (σ (S j)).

(** [P.leadsTo(Q)] *)
Definition leads_to (σ : nat → State) (P Q : State → Prop) : Prop :=
  ∀ i, P (σ i) → ∃ j, (i ≤ j)%nat ∧ Q (σ j).

(** An invariant of the steps holds along a behaviour. *)
Lemma behaviour_invariant (I : State → Prop) init σ : behaviour init σ → I init →
  (∀ a s s', performs a s s' → I s → I s') → ∀ i, I (σ i).
Proof.
  intros [H0 Hstep] Hi Hs i. induction i as [|i IH]; [by rewrite H0|]. destruct (Hstep i) as [a Ha]. by apply (Hs a (σ i)).
Qed.

(** What is fair and eventually no longer taken is eventually disabled. *)
Lemma fair_disabled A σ : strong_fair A σ → eventually_never (λ j, taken A (σ j) (σ (S j))) →
  eventually_never (λ j, ∃ s', taken A (σ j) s').
Proof.
  intros Hfair [n Hn]. destruct (classic (eventually_never (λ j, ∃ s', taken A (σ j) s'))) as [?|Hno]; [done|]. exfalso.
  destruct (Hfair) with (i := n) as (j & Hj & Ht); [|by apply (Hn j)].
  intros i. destruct (not_recurring _ Hno i) as (j & Hj & s' & Ht). by exists j, s'.
Qed.

(** A fair action that is enabled while [P] holds and ends it makes [P] end. *)
Lemma fair_ends A σ (P : State → Prop) : strong_fair A σ →
  (∀ i, P (σ i) → ∃ s', taken A (σ i) s') → (∀ i s', P (σ i) → taken A (σ i) s' → ¬ P s') →
  leads_to σ P (λ s, ¬ P s).
Proof.
  intros Hfair Hen Hend i Hi. destruct (classic (∃ j, (i ≤ j)%nat ∧ ¬ P (σ j))) as [?|Hno]; [done|].
  assert (∀ j, (i ≤ j)%nat → P (σ j)) as Hall by (intros j Hj; apply NNPP; intros HP; apply Hno; by exists j).
  destruct (Hfair) with (i := i) as (j & Hj & Ht).
  - intros k. destruct (Hen (max i k)) as [s' Hs']; [apply Hall; lia|]. exists (max i k), s'. split; [lia|done].
  - exists (S j). split; [lia|]. apply (Hend j); [by apply Hall|done].
Qed.

(** *** Finite runs as behaviours

    A run that ends where the system may stay is continued by staying there. *)

Fixpoint chain (s : State) (states : list State) : Prop :=
  match states with
  | [] => True
  | s' :: states => (∃ a, performs a s s') ∧ chain s' states
  end.

Definition final (s : State) (states : list State) : State := default s (last states).

Definition staying (init : State) (states : list State) (i : nat) : State :=
  default (final init states) ((init :: states) !! i).

Lemma chain_lookup states : ∀ s i x y, chain s states → (s :: states) !! i = Some x → (s :: states) !! S i = Some y →
  ∃ a, performs a x y.
Proof.
  induction states as [|s' states IH]; intros s i x y Hc Hx Hy; [done|]. destruct Hc as [Ha Hc]. destruct i as [|i].
  - cbn in Hx, Hy. by injection Hx as <-; injection Hy as <-.
  - by apply (IH s' i).
Qed.

Lemma staying_late init states i : (length states ≤ i)%nat → staying init states i = final init states.
Proof.
  intros Hi. unfold staying. destruct (decide (length states < i)%nat) as [Hlt|].
  - by rewrite lookup_ge_None_2 by (simpl; lia).
  - assert (i = length states) as -> by lia. unfold final. destruct states as [|s states]; [done|].
    rewrite last_lookup. change ((init :: s :: states) !! length (s :: states)) with ((s :: states) !! length states).
    change (pred (length (s :: states))) with (length states). by destruct ((s :: states) !! length states).
Qed.

Lemma staying_behaviour init states : chain init states → (∃ a, performs a (final init states) (final init states)) →
  behaviour init (staying init states).
Proof.
  intros Hc Hstay. split; [done|]. intros i. destruct (decide (length states ≤ i)%nat) as [Hi|Hi].
  - by rewrite !staying_late by lia.
  - destruct (lookup_lt_is_Some_2 (init :: states) i) as [x Hx]; [simpl; lia|].
    destruct (lookup_lt_is_Some_2 (init :: states) (S i)) as [y Hy]; [simpl; lia|].
    unfold staying. rewrite Hx, Hy. by apply (chain_lookup states init i).
Qed.

(** What is disabled where the run ends is treated fairly. *)
Lemma staying_fair A init states : (∀ s', ¬ taken A (final init states) s') → strong_fair A (staying init states).
Proof.
  intros Hno Hen. exfalso. destruct (Hen (length states)) as (j & s' & Hj & Ht). rewrite staying_late in Ht by done.
  by apply (Hno s').
Qed.
End Behaviours.
