(* ===== verification/Text.v ===== *)
(** * Text: the byte-string primitives of Rust the components share

    A Rust [String] is a UTF-8 byte string; it is modelled by [string], whose
    characters are the bytes.  [len] is the byte length, [chars_count] the
    number of scalar values of a valid UTF-8 string (its bytes that are not
    continuation bytes), and comparison is bytewise, as in Rust. *)

From S2P Require Import Prelude.

Definition bytes (s : string) : list ascii := String.list_ascii_of_string s.

Definition of_bytes (l : list ascii) : string := String.string_of_list_ascii l.

Definition byte_val (c : ascii) : N := N_of_ascii c.

Definition in_range (lo hi : N) (c : ascii) : bool :=
  (lo <=? byte_val c) && (byte_val c <=? hi).

Definition is_ascii_digit : ascii → bool := in_range 48 57.
Definition is_ascii_uppercase : ascii → bool := in_range 65 90.
Definition is_ascii_lowercase : ascii → bool := in_range 97 122.

Definition is_ascii_alphabetic (c : ascii) : bool :=
  is_ascii_uppercase c || is_ascii_lowercase c.

Definition is_ascii_alphanumeric (c : ascii) : bool :=
  is_ascii_alphabetic c || is_ascii_digit c.

(** [is_ascii_whitespace] *)
Definition is_ascii_whitespace (c : ascii) : bool := in_range 9 10 c || in_range 12 13 c || in_range 32 32 c.

Definition newline : ascii := ascii_of_N 10.
Definition carriage_return : ascii := ascii_of_N 13.

(** A digit or one of [b'a'..=b'f']. *)
Definition is_lower_hex (c : ascii) : bool := is_ascii_digit c || in_range 97 102 c.

(** The [Debug] text of a string that has nothing to escape. *)
Definition quoted (s : string) : string :=
  of_bytes ([ascii_of_N 34] ++ bytes s ++ [ascii_of_N 34]).

Definition len (s : string) : N := N.of_nat (String.length s).

Definition is_empty (s : string) : bool :=
  match s with EmptyString => true | String _ _ => false end.

Definition all_bytes (p : ascii → bool) (s : string) : bool := forallb p (bytes s).

Definition starts_with (c : ascii) (s : string) : bool :=
  match s with String d _ => d == c | EmptyString => false end.

Definition contains (c : ascii) (s : string) : bool := existsb (λ d, d == c) (bytes s).

Definition is_continuation_byte : ascii → bool := in_range 128 191.

Definition chars_count (s : string) : N :=
  N.of_nat (length (List.filter (λ c, negb (is_continuation_byte c)) (bytes s))).

(** Bytewise lexicographic order, Rust's [Ord] of [str]. *)
Fixpoint bytes_cmp (a b : list ascii) : comparison :=
  match a, b with
  | [], [] => Eq
  | [], _ :: _ => Lt
  | _ :: _, [] => Gt
  | x :: a', y :: b' =>
      match N.compare (byte_val x) (byte_val y) with
      | Eq => bytes_cmp a' b'
      | o => o
      end
  end.

Definition str_cmp (a b : string) : comparison := bytes_cmp (bytes a) (bytes b).

Definition str_lt (a b : string) : bool :=
  match str_cmp a b with Lt => true | _ => false end.

(** ** Lemmas *)

Lemma of_bytes_bytes s : of_bytes (bytes s) = s.
Proof. apply String.string_of_list_ascii_of_string. Qed.

Lemma bytes_of_bytes l : bytes (of_bytes l) = l.
Proof. apply String.list_ascii_of_string_of_list_ascii. Qed.

Lemma bytes_inj s t : bytes s = bytes t → s = t.
Proof. intros H. by rewrite <- (of_bytes_bytes s), H, of_bytes_bytes. Qed.

Lemma bytes_app s t : bytes (s +:+ t) = bytes s ++ bytes t.
Proof. induction s as [|c s IH]; simpl; [done|]. unfold bytes in *. simpl. by rewrite IH. Qed.

Lemma length_bytes s : length (bytes s) = String.length s.
Proof. induction s; simpl; [done|]. by f_equal. Qed.

Lemma is_empty_true s : is_empty s = true ↔ s = EmptyString.
Proof. by destruct s. Qed.

Lemma is_empty_false s : is_empty s = false ↔ s ≠ EmptyString.
Proof. by destruct s. Qed.

Lemma byte_val_inj x y : byte_val x = byte_val y → x = y.
Proof.
  intros H. apply (f_equal ascii_of_N) in H. unfold byte_val in H.
  by rewrite !ascii_N_embedding in H.
Qed.

Lemma in_range_spec lo hi c : in_range lo hi c = true ↔ lo ≤ byte_val c ≤ hi.
Proof. unfold in_range. by rewrite andb_true_iff, !N.leb_le. Qed.

Lemma contains_app c s t : contains c (s +:+ t) = contains c s || contains c t.
Proof. unfold contains. by rewrite bytes_app, existsb_app. Qed.

Lemma bytes_cmp_refl a : bytes_cmp a a = Eq.
Proof. induction a as [|x a IH]; simpl; [done|]. by rewrite N.compare_refl. Qed.

Lemma bytes_cmp_eq a b : bytes_cmp a b = Eq ↔ a = b.
Proof.
  split; [|intros ->; apply bytes_cmp_refl].
  revert b; induction a as [|x a IH]; intros [|y b]; simpl; try done.
  destruct (N.compare_spec (byte_val x) (byte_val y)) as [E| |]; try done.
  intros H. apply byte_val_inj in E. by rewrite E, (IH _ H).
Qed.

Lemma bytes_cmp_antisym a b : bytes_cmp b a = CompOpp (bytes_cmp a b).
Proof.
  revert b; induction a as [|x a IH]; intros [|y b]; simpl; try done.
  rewrite (N.compare_antisym (byte_val x)).
  destruct (byte_val x ?= byte_val y); simpl; auto.
Qed.

Lemma bytes_cmp_trans o a b c :
  bytes_cmp a b = o → bytes_cmp b c = o → bytes_cmp a c = o.
Proof.
  revert b c; induction a as [|x a IH]; intros [|y b] [|z c]; simpl; intros H1 H2;
    try congruence.
  destruct (N.compare_spec (byte_val x) (byte_val y));
    destruct (N.compare_spec (byte_val y) (byte_val z));
    destruct (N.compare_spec (byte_val x) (byte_val z));
    try (subst; congruence || lia); eauto.
  all: exfalso; congruence || lia.
Qed.

(** Comparison of equal-length prefixes decides first. *)
Lemma bytes_cmp_app a1 a2 b1 b2 :
  length a1 = length b1 →
  bytes_cmp (a1 ++ a2) (b1 ++ b2) =
    match bytes_cmp a1 b1 with Eq => bytes_cmp a2 b2 | o => o end.
Proof.
  revert b1; induction a1 as [|x a1 IH]; intros [|y b1]; simpl; try done.
  intros [= H]. destruct (byte_val x ?= byte_val y); auto.
Qed.

Lemma str_cmp_eq a b : str_cmp a b = Eq ↔ a = b.
Proof.
  unfold str_cmp. rewrite bytes_cmp_eq. split; [apply bytes_inj|by intros ->].
Qed.

Lemma str_cmp_antisym a b : str_cmp b a = CompOpp (str_cmp a b).
Proof. apply bytes_cmp_antisym. Qed.

Lemma str_cmp_trans o a b c : str_cmp a b = o → str_cmp b c = o → str_cmp a c = o.
Proof. apply bytes_cmp_trans. Qed.

(** ** Splitting at a byte and padding *)

Fixpoint split_bytes (c : ascii) (l : list ascii) : option (list ascii * list ascii) :=
  match l with
  | [] => None
  | x :: l' =>
      if x == c then Some ([], l')
      else match split_bytes c l' with
           | Some (a, b) => Some (x :: a, b)
           | None => None
           end
  end.

(** [split_once]: the text before and after the first [c]. *)
Definition split_once (c : ascii) (s : string) : option (string * string) :=
  match split_bytes c (bytes s) with
  | Some (a, b) => Some (of_bytes a, of_bytes b)
  | None => None
  end.

(** [{:c>w}]: fill on the left up to a width. *)
Definition pad_left (c : ascii) (w : nat) (s : string) : string :=
  of_bytes (replicate (w - length (bytes s)) c ++ bytes s).

Lemma split_bytes_app c a b : existsb (λ d, d == c) a = false → split_bytes c (a ++ c :: b) = Some (a, b).
Proof.
  induction a as [|x a IH]; simpl; [by rewrite bool_decide_eq_true_2|].
  rewrite orb_false_iff. intros [-> Ha]. by rewrite IH.
Qed.

Lemma split_bytes_Some c l a b : split_bytes c l = Some (a, b) →
  l = a ++ c :: b ∧ existsb (λ d, d == c) a = false.
Proof.
  revert a. induction l as [|x l IH]; intros a; simpl; [done|]. case_bool_decide as Hx.
  - intros [= <- <-]. by rewrite Hx.
  - destruct (split_bytes c l) as [[a' b']|]; [|done]. intros [= <- <-].
    destruct (IH a' eq_refl) as [-> Ha]. simpl. by rewrite Ha, bool_decide_eq_false_2.
Qed.

Lemma split_once_app c a b : contains c a = false →
  split_once c (a +:+ String c b) = Some (a, b).
Proof.
  intros Ha. unfold split_once. rewrite bytes_app. change (bytes (String c b)) with (c :: bytes b).
  rewrite split_bytes_app by done. by rewrite !of_bytes_bytes.
Qed.

Lemma split_once_Some c s a b : split_once c s = Some (a, b) →
  s = a +:+ String c b ∧ contains c a = false.
Proof.
  unfold split_once. destruct (split_bytes c (bytes s)) as [[x y]|] eqn:E; [|done].
  intros [= <- <-]. apply split_bytes_Some in E as [E Hx]. unfold contains. rewrite bytes_of_bytes.
  split; [|done]. apply bytes_inj. rewrite bytes_app, bytes_of_bytes, E.
  change (bytes (String c (of_bytes y))) with (c :: bytes (of_bytes y)). by rewrite bytes_of_bytes.
Qed.

Lemma bytes_pad_left c w s :
  bytes (pad_left c w s) = replicate (w - length (bytes s)) c ++ bytes s.
Proof. unfold pad_left. by rewrite bytes_of_bytes. Qed.

(** [split(c)]: every piece between separators, empty ones included. *)
Fixpoint split_list (c : ascii) (l : list ascii) : list (list ascii) :=
  match l with
  | [] => [[]]
  | x :: l' =>
      if x == c then [] :: split_list c l'
      else match split_list c l' with
           | piece :: pieces => (x :: piece) :: pieces
           | [] => [[x]]
           end
  end.

Lemma split_list_sep c l1 l2 : existsb (λ d, d == c) l1 = false →
  split_list c (l1 ++ c :: l2) = l1 :: split_list c l2.
Proof.
  induction l1 as [|x l1 IH]; simpl; [by rewrite bool_decide_eq_true_2|].
  rewrite orb_false_iff. intros [-> H1]. by rewrite IH.
Qed.

Lemma split_list_last c l : existsb (λ d, d == c) l = false → split_list c l = [l].
Proof.
  induction l as [|x l IH]; simpl; [done|]. rewrite orb_false_iff. intros [-> Hl]. by rewrite IH.
Qed.

Lemma split_list_inv c l : ∃ p ps, split_list c l = p :: ps ∧
  existsb (λ d, d == c) p = false ∧
  (ps = [] ∧ l = p ∨ ∃ l', l = p ++ c :: l' ∧ split_list c l' = ps).
Proof.
  induction l as [|x l (p & ps & E & Hp & Hl)]; simpl; [by exists [], []; auto|].
  case_bool_decide as Hx.
  - exists [], (split_list c l). split; [done|]. split; [done|]. right. exists l. by subst.
  - rewrite E. exists (x :: p), ps. split; [done|]. simpl. rewrite bool_decide_eq_false_2 by done.
    split; [done|]. destruct Hl as [[-> ->]|(l' & -> & Hl')]; [by left|right; by exists l'].
Qed.

Lemma split_list_app c l r : split_list c (l ++ c :: r) = split_list c l ++ split_list c r.
Proof.
  induction l as [|a l IH]; simpl; [by rewrite bool_decide_true|]. rewrite IH. destruct (a == c); [done|].
  destruct (split_list_inv c l) as (p & ps & -> & _). done.
Qed.

Definition split (c : ascii) (s : string) : list string := List.map of_bytes (split_list c (bytes s)).

(** ** Trimming

    [str::trim] drops code points with the Unicode property White_Space, which
    UTF-8 encodes in one, two or three bytes. *)

Definition ws1 (a : ascii) : bool := in_range 9 13 a || in_range 32 32 a.
Definition ws2 (a b : ascii) : bool := in_range 194 194 a && (in_range 133 133 b || in_range 160 160 b).
Definition ws3 (a b c : ascii) : bool :=
  (in_range 225 225 a && in_range 154 154 b && in_range 128 128 c)
  || (in_range 226 226 a && in_range 128 128 b
      && (in_range 128 138 c || in_range 168 169 c || in_range 175 175 c))
  || (in_range 226 226 a && in_range 129 129 b && in_range 159 159 c)
  || (in_range 227 227 a && in_range 128 128 b && in_range 128 128 c).

(** One white-space code point off the front, and off the back of a text read backwards. *)
Definition strip_front (l : list ascii) : option (list ascii) :=
  match l with
  | a :: l1 =>
      if ws1 a then Some l1
      else match l1 with
           | b :: l2 =>
               if ws2 a b then Some l2
               else match l2 with c :: l3 => if ws3 a b c then Some l3 else None | [] => None end
           | [] => None
           end
  | [] => None
  end.

Definition strip_back (l : list ascii) : option (list ascii) :=
  match l with
  | c :: l1 =>
      if ws1 c then Some l1
      else match l1 with
           | b :: l2 =>
               if ws2 b c then Some l2
               else match l2 with a :: l3 => if ws3 a b c then Some l3 else None | [] => None end
           | [] => None
           end
  | [] => None
  end.

Fixpoint strip_all (strip : list ascii → option (list ascii)) (fuel : nat) (l : list ascii) : list ascii :=
  match fuel with
  | O => l
  | S fuel => match strip l with Some l' => strip_all strip fuel l' | None => l end
  end.

Definition trim (s : string) : string :=
  let front := strip_all strip_front (length (bytes s)) (bytes s) in
  of_bytes (rev (strip_all strip_back (length front) (rev front))).

Example trim_examples :
  (trim " a b	 ", is_empty (trim (of_bytes (List.map ascii_of_N [226; 128; 131; 32; 194; 160]))),
   split "," "id, uuid,,")
  = ("a b", true, ["id"; " uuid"; ""; ""]).
Proof. vm_compute. reflexivity. Qed.

(** ** Prefixes, suffixes and the pieces at either end *)

Definition to_ascii_lowercase_byte (a : ascii) : ascii :=
  if is_ascii_uppercase a then ascii_of_N (byte_val a + 32) else a.

Definition to_ascii_lowercase (l : list ascii) : list ascii := List.map to_ascii_lowercase_byte l.

Fixpoint strip_prefix (p l : list ascii) : option (list ascii) :=
  match p, l with
  | [], _ => Some l
  | a :: p, b :: l => if a == b then strip_prefix p l else None
  | _ :: _, [] => None
  end.

Definition has_prefix (p : string) (l : list ascii) : bool := is_some (strip_prefix (bytes p) l).

Definition has_suffix (p : string) (l : list ascii) : bool := is_some (strip_prefix (rev (bytes p)) (rev l)).

Fixpoint trim_start (p : ascii → bool) (l : list ascii) : list ascii :=
  match l with a :: l' => if p a then trim_start p l' else l | [] => [] end.

Definition trim_matches (p : ascii → bool) (l : list ascii) : list ascii :=
  rev (trim_start p (rev (trim_start p l))).

(** [split(p).next()]: up to the first separator. *)
Fixpoint before (p : ascii → bool) (l : list ascii) : list ascii :=
  match l with a :: l => if p a then [] else a :: before p l | [] => [] end.

(** [rsplit(p).next()]: after the last separator. *)
Definition after_last (p : ascii → bool) (l : list ascii) : list ascii := rev (before p (rev l)).

Definition is_byte (a b : ascii) : bool := b == a.

(** [rsplit_once(c)]: the text before and after the last [c]. *)
Definition rsplit_bytes (c : ascii) (l : list ascii) : option (list ascii * list ascii) :=
  match split_bytes c (rev l) with Some (a, b) => Some (rev b, rev a) | None => None end.

Definition eq_ignore_ascii_case (a b : list ascii) : bool := to_ascii_lowercase a == to_ascii_lowercase b.

Lemma is_byte_spec a b : is_byte a b = true ↔ b = a.
Proof. unfold is_byte. apply bool_decide_eq_true. Qed.

Lemma before_app p l1 l2 : existsb p l1 = false → before p (l1 ++ l2) = l1 ++ before p l2.
Proof. induction l1 as [|a l1 IH]; simpl; [done|]. intros [-> H]%orb_false_iff. by rewrite IH. Qed.

Lemma before_none p l : existsb p l = false → before p l = l.
Proof. intros H. rewrite <- (app_nil_r l) at 1. rewrite before_app by done. apply app_nil_r. Qed.

Lemma existsb_false_impl (p q : ascii → bool) l : forallb p l = true → (∀ x, p x = true → q x = false) → existsb q l = false.
Proof.
  intros Hl H. apply not_true_iff_false. intros (x & Hx & Hq)%existsb_exists. rewrite forallb_forall in Hl.
  apply Hl, H in Hx. congruence.
Qed.

Lemma after_last_none p l : existsb p l = false → after_last p l = l.
Proof.
  intros H. unfold after_last. rewrite before_none; [apply rev_involutive|].
  apply not_true_iff_false. intros (x & Hx%in_rev & Hp)%existsb_exists.
  assert (existsb p l = true) by (apply existsb_exists; eauto). congruence.
Qed.

Lemma before_sep p l1 x l2 : existsb p l1 = false → p x = true → before p (l1 ++ x :: l2) = l1.
Proof. intros H Hx. rewrite before_app by done. simpl. rewrite Hx. apply app_nil_r. Qed.

Lemma lowercase_id l : forallb (λ x, negb (is_ascii_uppercase x)) l = true → to_ascii_lowercase l = l.
Proof.
  unfold to_ascii_lowercase. induction l as [|x l IH]; [done|]. cbn [forallb List.map].
  intros [Hx%negb_true_iff Hl]%andb_true_iff. unfold to_ascii_lowercase_byte at 1. by rewrite Hx, IH.
Qed.

Lemma prefix_head p q x l : q ≠ x → strip_prefix (q :: p) (x :: l) = None.
Proof. intros H. simpl. by rewrite bool_decide_false. Qed.

Lemma byte_val_lt a : byte_val a < 256.
Proof. unfold byte_val. pose proof (N_ascii_bounded a). lia. Qed.

Lemma existsb_rev {A} (p : A → bool) l : existsb p (rev l) = existsb p l.
Proof.
  apply bool_eq_iff. rewrite !existsb_exists. by setoid_rewrite <- in_rev.
Qed.

Lemma rsplit_bytes_app c a b : existsb (λ d, d == c) b = false → rsplit_bytes c (a ++ c :: b) = Some (a, b).
Proof.
  intros Hb. unfold rsplit_bytes. rewrite rev_app_distr. simpl. rewrite <- app_assoc. cbn [app].
  rewrite split_bytes_app by by rewrite existsb_rev. by rewrite !rev_involutive.
Qed.

Lemma strip_prefix_app p l : strip_prefix p (p ++ l) = Some l.
Proof. induction p as [|a p IH]; simpl; [done|]. by rewrite bool_decide_true. Qed.

Lemma strip_prefix_Some p l r : strip_prefix p l = Some r → l = p ++ r.
Proof.
  revert l. induction p as [|a p IH]; intros l; simpl; [by intros [= ->]|].
  destruct l as [|b l]; [done|]. case_bool_decide as E; [|done]. intros H. by rewrite E, (IH _ H).
Qed.

Lemma lowercase_length l : length (to_ascii_lowercase l) = length l.
Proof. apply length_map. Qed.

(** [char::is_control] of some character: U+0000 to U+001F, U+007F, and U+0080
    to U+009F, which UTF-8 encodes after the lead byte 0xC2. *)
Fixpoint has_control (l : list ascii) : bool :=
  match l with
  | [] => false
  | a :: l' =>
      in_range 0 31 a || in_range 127 127 a
      || match l' with b :: _ => in_range 194 194 a && in_range 128 159 b | [] => false end
      || has_control l'
  end.

(** ** UTF-8 validity, as [str::from_utf8] has it *)

Definition cont : ascii → bool := is_continuation_byte.

(** One well-formed code point off the front. *)
Definition utf8_step (l : list ascii) : option (list ascii) :=
  match l with
  | a :: l1 =>
      if in_range 0 127 a then Some l1
      else match l1 with
      | b :: l2 =>
          if in_range 194 223 a && cont b then Some l2
          else match l2 with
          | c :: l3 =>
              if ((in_range 224 224 a && in_range 160 191 b)
                  || ((in_range 225 236 a || in_range 238 239 a) && cont b)
                  || (in_range 237 237 a && in_range 128 159 b)) && cont c
              then Some l3
              else match l3 with
              | d :: l4 =>
                  if ((in_range 240 240 a && in_range 144 191 b) || (in_range 241 243 a && cont b)
                      || (in_range 244 244 a && in_range 128 143 b)) && cont c && cont d
                  then Some l4 else None
              | [] => None
              end
          | [] => None
          end
      | [] => None
      end
  | [] => None
  end.

Fixpoint utf8_go (fuel : nat) (l : list ascii) : bool :=
  match l, fuel with
  | [], _ => true
  | _, O => false
  | _, S fuel => match utf8_step l with Some l => utf8_go fuel l | None => false end
  end.
Definition utf8 (l : list ascii) : bool := utf8_go (length l) l.

Lemma utf8_step_app l l' r : utf8_step l = Some l' → utf8_step (l ++ r) = Some (l' ++ r) ∧ (length l' < length l)%nat.
Proof.
  unfold utf8_step. destruct l as [|a [|b [|c [|d l]]]]; simpl; [done|..];
    repeat (case_match; simplify_eq/=); try done; intros; simplify_eq/=; split; (done || lia).
Qed.

Lemma utf8_go_more n : ∀ m l, utf8_go n l = true → (n ≤ m)%nat → utf8_go m l = true.
Proof.
  induction n as [|n IH]; intros m l H Hm.
  - destruct l; [by destruct m|done].
  - destruct m as [|m]; [lia|]. destruct l as [|a l]; [done|]. cbn [utf8_go] in *.
    destruct (utf8_step (a :: l)) as [l'|]; [|done]. apply IH; [done|lia].
Qed.

Lemma utf8_go_app n : ∀ m l r, utf8_go n l = true → utf8 r = true → (length l + length r ≤ m)%nat →
  utf8_go m (l ++ r) = true.
Proof.
  induction n as [|n IH]; intros m l r H Hr Hm.
  - destruct l; [|done]. simpl in *. by apply (utf8_go_more (length r)).
  - destruct l as [|a l]; [simpl in *; by apply (utf8_go_more (length r))|].
    destruct m as [|m]; [simpl in Hm; lia|]. cbn [utf8_go app] in *.
    destruct (utf8_step (a :: l)) as [l'|] eqn:E; [|done]. apply (utf8_step_app _ _ r) in E as [E Hl].
    cbn [app] in E. rewrite E. apply IH; [done|done|simpl in *; lia].
Qed.

Lemma utf8_app l r : utf8 l = true → utf8 r = true → utf8 (l ++ r) = true.
Proof. intros Hl Hr. unfold utf8. apply (utf8_go_app (length l)); [done|done|]. by rewrite length_app. Qed.
