(* ===== verification/Decimal.v ===== *)
(** * Decimal: canonical decimal strings and fixed-radix numerals

    Mutation ids, checkpoints, revisions, fences and wake generations travel as
    canonical decimal strings.  This file models the integer printing and
    parsing of the Rust standard library the clients use ([to_string],
    [parse::<u64>], [from_str_radix]) and the guard "canonical decimal" that
    every component writes around it, and proves the facts the components
    share: printing and parsing are inverse on canonical strings, and the order
    "length, then bytes" is the numeric order. *)

From S2P Require Import Prelude Text.

Definition digit_val (c : ascii) : N := byte_val c - 48.

Definition hex_val (c : ascii) : N :=
  if is_ascii_digit c then byte_val c - 48 else byte_val c - 87.

(** The value of a numeral, most significant character first. *)
Definition from_radix (b : N) (val : ascii → N) (l : list ascii) : N :=
  fold_left (λ acc c, acc * b + val c) l 0.

Definition decimal_of (s : string) : N := from_radix 10 digit_val (bytes s).

(** [str::parse::<u64>]: an optional leading [+], at least one digit, digits
    only, and a value that fits. *)
Definition parse_u64 (s : string) : option N :=
  let ds := match bytes s with "+"%char :: r => r | l => l end in
  match ds with
  | [] => None
  | _ =>
      if forallb is_ascii_digit ds && (from_radix 10 digit_val ds <=? u64_max)
      then Some (from_radix 10 digit_val ds) else None
  end.

(** [str::parse::<u32>] *)
Definition parse_u32 (s : string) : option N :=
  match parse_u64 s with Some n => if n <=? u32_max then Some n else None | None => None end.

(** [str::parse::<i64>]: as above with an optional sign. *)
Definition parse_i64 (s : string) : option Z :=
  let '(neg, ds) :=
    match bytes s with
    | "+"%char :: r => (false, r)
    | "-"%char :: r => (true, r)
    | l => (false, l)
    end in
  match ds with
  | [] => None
  | _ =>
      let v := from_radix 10 digit_val ds in
      if forallb is_ascii_digit ds && (v <=? (if neg then i64_max + 1 else i64_max))
      then Some (if neg then (- Z.of_N v)%Z else Z.of_N v) else None
  end.

(** Integer [to_string]. *)
Definition digit_char (d : N) : ascii := ascii_of_N (48 + d).

Fixpoint to_dec_go (fuel : nat) (n : N) (acc : list ascii) : list ascii :=
  match fuel with
  | O => acc
  | S f =>
      let acc' := digit_char (n mod 10) :: acc in
      if n <? 10 then acc' else to_dec_go f (n / 10) acc'
  end.

Definition to_dec (n : N) : string := of_bytes (to_dec_go (S (N.size_nat n)) n []).

(** The guard every client writes: non-empty, no leading zero, digits only. *)
Definition canonical_decimal (value : string) : bool :=
  negb (is_empty value
        || (1 <? len value) && starts_with "0" value
        || negb (all_bytes is_ascii_digit value)).

(** What a canonical decimal denotes as a [u64]. *)
Definition decimal_u64 (value : string) : option N :=
  if canonical_decimal value then parse_u64 value else None.

(** ** Numerals *)

Section Radix.
Context (b : N) (val : ascii → N) (p : ascii → bool).
Context (Hb : 1 ≤ b) (Hval : ∀ c, p c = true → val c < b).

Lemma from_radix_acc l acc :
  fold_left (λ acc c, acc * b + val c) l acc =
    acc * b ^ N.of_nat (length l) + from_radix b val l.
Proof.
  unfold from_radix. revert acc. induction l as [|c l IH]; intros acc; simpl.
  { rewrite N.pow_0_r. lia. }
  rewrite IH, (IH (0 * b + val c)).
  replace (N.of_nat (S (length l))) with (N.succ (N.of_nat (length l))) by lia.
  rewrite N.pow_succ_r'. lia.
Qed.

Lemma from_radix_cons c l :
  from_radix b val (c :: l) = val c * b ^ N.of_nat (length l) + from_radix b val l.
Proof. unfold from_radix at 1. simpl. rewrite from_radix_acc. f_equal. Qed.

Lemma from_radix_snoc c l :
  from_radix b val (l ++ [c]) = from_radix b val l * b + val c.
Proof. unfold from_radix. by rewrite fold_left_app. Qed.

Lemma from_radix_bound l :
  forallb p l = true → from_radix b val l < b ^ N.of_nat (length l).
Proof.
  induction l as [|c l IH]; simpl; [intros _; unfold from_radix; simpl; lia|].
  rewrite andb_true_iff. intros [Hc Hl]. rewrite from_radix_cons.
  replace (N.of_nat (S (length l))) with (N.succ (N.of_nat (length l))) by lia.
  rewrite N.pow_succ_r'. specialize (Hval c Hc). specialize (IH Hl).
  assert (val c + 1 ≤ b) by lia. nia.
Qed.

(** A non-zero leading digit bounds the value from below. *)
Lemma from_radix_lower c l :
  val c ≠ 0 → b ^ N.of_nat (length l) ≤ from_radix b val (c :: l).
Proof. intros H. rewrite from_radix_cons. nia. Qed.

Context (Hmono : ∀ x y, p x = true → p y = true →
  N.compare (byte_val x) (byte_val y) = N.compare (val x) (val y)).

(** Equal-width numerals: byte order is numeric order. *)
Lemma from_radix_cmp l1 l2 :
  length l1 = length l2 → forallb p l1 = true → forallb p l2 = true →
  bytes_cmp l1 l2 = N.compare (from_radix b val l1) (from_radix b val l2).
Proof.
  revert l2; induction l1 as [|x l1 IH]; intros [|y l2]; simpl; try done.
  rewrite !andb_true_iff. intros [= Hl] [Hx H1] [Hy H2].
  rewrite Hmono by done. rewrite (IH _ Hl H1 H2), !from_radix_cons, Hl.
  pose proof (from_radix_bound _ H1) as B1. pose proof (from_radix_bound _ H2) as B2.
  rewrite Hl in B1. set (w := b ^ N.of_nat (length l2)) in *.
  destruct (N.compare_spec (val x) (val y)) as [->| |];
    [destruct (N.compare_spec (from_radix b val l1) (from_radix b val l2))|..];
    symmetry; (rewrite N.compare_eq_iff || rewrite N.compare_lt_iff || rewrite N.compare_gt_iff); nia.
Qed.
End Radix.

(** ** Decimal digits *)

Lemma digit_val_lt c : is_ascii_digit c = true → digit_val c < 10.
Proof. unfold is_ascii_digit, digit_val. rewrite in_range_spec. lia. Qed.

Lemma digit_val_mono x y :
  is_ascii_digit x = true → is_ascii_digit y = true →
  N.compare (byte_val x) (byte_val y) = N.compare (digit_val x) (digit_val y).
Proof.
  unfold is_ascii_digit, digit_val. rewrite !in_range_spec. intros Hx Hy.
  destruct (N.compare_spec (byte_val x) (byte_val y)); symmetry;
    (rewrite N.compare_eq_iff || rewrite N.compare_lt_iff || rewrite N.compare_gt_iff); lia.
Qed.

Lemma byte_val_digit_char d : d < 10 → byte_val (digit_char d) = 48 + d.
Proof. intros H. unfold byte_val, digit_char. rewrite N_ascii_embedding; lia. Qed.

Lemma digit_char_digit d : d < 10 → is_ascii_digit (digit_char d) = true.
Proof. intros H. apply in_range_spec. rewrite byte_val_digit_char by done. lia. Qed.

Lemma digit_val_char d : d < 10 → digit_val (digit_char d) = d.
Proof. intros H. unfold digit_val. rewrite byte_val_digit_char by done. lia. Qed.

Lemma decimal_cmp l1 l2 :
  length l1 = length l2 → forallb is_ascii_digit l1 = true → forallb is_ascii_digit l2 = true →
  bytes_cmp l1 l2 = N.compare (from_radix 10 digit_val l1) (from_radix 10 digit_val l2).
Proof. apply from_radix_cmp; [lia|apply digit_val_lt|apply digit_val_mono]. Qed.

(** ** Printing *)

Lemma to_dec_go_spec fuel n acc :
  n < 2 ^ N.of_nat fuel → fuel ≠ O →
  ∃ ds, to_dec_go fuel n acc = ds ++ acc ∧ forallb is_ascii_digit ds = true ∧
        from_radix 10 digit_val ds = n ∧
        ((n < 10 ∧ length ds = 1%nat) ∨ (10 ≤ n ∧ ∃ c ds', ds = c :: ds' ∧ digit_val c ≠ 0)).
Proof.
  revert n acc. induction fuel as [|fuel IH]; [done|]. intros n acc Hn _.
  assert (n mod 10 < 10) by (apply N.mod_lt; lia).
  simpl. destruct (N.ltb_spec n 10).
  - exists [digit_char (n mod 10)]. simpl. rewrite digit_char_digit by done.
    split_and!; [done..| |left; done].
    unfold from_radix; simpl. rewrite digit_val_char by done. rewrite N.mod_small; lia.
  - replace (N.of_nat (S fuel)) with (N.succ (N.of_nat fuel)) in Hn by lia.
    rewrite N.pow_succ_r' in Hn.
    assert (n = 10 * (n / 10) + n mod 10) as Hdiv by (apply N.div_mod; lia).
    destruct (IH (n / 10) (digit_char (n mod 10) :: acc)) as (ds & Hgo & Hds & Hv & Hhd).
    { generalize dependent (2 ^ N.of_nat fuel); intros w; clear -Hdiv H; revert Hdiv.
      generalize (n / 10) (n mod 10); lia. }
    { intros ->. simpl in Hn. lia. }
    exists (ds ++ [digit_char (n mod 10)]).
    rewrite Hgo, <- app_assoc. split; [done|].
    rewrite forallb_app, Hds. simpl. rewrite digit_char_digit by done. split; [done|].
    rewrite from_radix_snoc, Hv, digit_val_char by done. split; [lia|]. right. split; [done|].
    destruct Hhd as [[Hs Hl]|(_ & c & ds' & -> & Hc)]; [|by eauto].
    destruct ds as [|c [|]]; simplify_eq/=. exists c, [digit_char (n mod 10)].
    split; [done|]. unfold from_radix in Hv. simpl in Hv. lia.
Qed.

Lemma size_nat_size n : N.of_nat (N.size_nat n) = N.size n.
Proof.
  destruct n as [|p]; [done|]. simpl. induction p; simpl in *; lia.
Qed.

Lemma to_dec_spec n :
  forallb is_ascii_digit (bytes (to_dec n)) = true ∧ decimal_of (to_dec n) = n ∧
  ((n < 10 ∧ length (bytes (to_dec n)) = 1%nat) ∨
   (10 ≤ n ∧ ∃ c ds, bytes (to_dec n) = c :: ds ∧ digit_val c ≠ 0)).
Proof.
  destruct (to_dec_go_spec (S (N.size_nat n)) n []) as (ds & Hgo & H); [|done|].
  - replace (N.of_nat (S (N.size_nat n))) with (N.succ (N.of_nat (N.size_nat n))) by lia.
    pose proof (N.size_gt n) as H.
    rewrite N.pow_succ_r'. rewrite size_nat_size. lia.
  - unfold decimal_of, to_dec. rewrite bytes_of_bytes, Hgo, app_nil_r. done.
Qed.

Lemma decimal_of_to_dec n : decimal_of (to_dec n) = n.
Proof. apply to_dec_spec. Qed.

(** ** Canonical decimals *)

(** A canonical decimal is ["0"] or a digit string whose first digit is not 0. *)
Lemma canonical_decimal_spec s :
  canonical_decimal s = true ↔
    forallb is_ascii_digit (bytes s) = true ∧
    ∃ c l, bytes s = c :: l ∧ (l = [] ∨ digit_val c ≠ 0).
Proof.
  unfold canonical_decimal, all_bytes, len. destruct s as [|c s]; simpl.
  { split; [done|]. intros (_ & c & l & H & _). done. }
  change (bytes (String c s)) with (c :: bytes s). simpl.
  rewrite negb_true_iff, orb_false_iff, negb_false_iff. split.
  - intros [Hz Hd]. split; [done|]. exists c, (bytes s). split; [done|].
    bsimp. destruct s as [|c' s]; [by left|right]. simpl in Hz.
    intros Hc. destruct Hz as [Hz|Hz]; [lia|]. apply Hz.
    unfold is_ascii_digit in *. rewrite in_range_spec in *. unfold digit_val in Hc.
    apply byte_val_inj. change (byte_val "0") with 48. lia.
  - intros [Hd (c' & l & [= <- <-] & Hl)]. split; [|done]. bsimp.
    destruct Hl as [Hl|Hl].
    + left. destruct s; simpl; [lia|done].
    + right. intros ->. done.
Qed.

Lemma canonical_to_dec n : canonical_decimal (to_dec n) = true.
Proof.
  apply canonical_decimal_spec. destruct (to_dec_spec n) as (Hd & _ & H). split; [done|].
  destruct H as [[_ Hl]|(_ & c & ds & -> & Hc)]; [|by eauto].
  destruct (bytes (to_dec n)) as [|c [|]]; simplify_eq/=. eauto.
Qed.

Lemma canonical_length_lt s t :
  canonical_decimal s = true → canonical_decimal t = true →
  (length (bytes s) < length (bytes t))%nat → decimal_of s < decimal_of t.
Proof.
  rewrite !canonical_decimal_spec.
  intros [Hs (d & k & Hsd & _)] [_ (c & l & Ht & Hc)] Hlen.
  unfold decimal_of. rewrite Ht in *. simpl in Hlen.
  destruct Hc as [->|Hc].
  { rewrite Hsd in Hlen. simpl in Hlen. lia. }
  pose proof (from_radix_bound 10 digit_val is_ascii_digit ltac:(lia) digit_val_lt _ Hs).
  pose proof (from_radix_lower 10 digit_val ltac:(lia) c l Hc).
  pose proof (N.pow_le_mono_r 10 (N.of_nat (length (bytes s))) (N.of_nat (length l))). lia.
Qed.

(** Comparing canonical decimals by length, then bytewise, compares the numbers
    they denote, at any magnitude. *)
Lemma canonical_cmp s t :
  canonical_decimal s = true → canonical_decimal t = true →
  match Nat.compare (length (bytes s)) (length (bytes t)) with
  | Eq => bytes_cmp (bytes s) (bytes t)
  | o => o
  end = N.compare (decimal_of s) (decimal_of t).
Proof.
  intros Hs Ht. destruct (Nat.compare_spec (length (bytes s)) (length (bytes t))) as [E|L|G].
  - apply canonical_decimal_spec in Hs, Ht. apply decimal_cmp; naive_solver.
  - symmetry. apply N.compare_lt_iff. by apply canonical_length_lt.
  - symmetry. apply N.compare_gt_iff. by apply canonical_length_lt.
Qed.

Lemma decimal_of_inj s t :
  canonical_decimal s = true → canonical_decimal t = true →
  decimal_of s = decimal_of t → s = t.
Proof.
  intros Hs Ht E. pose proof (canonical_cmp s t Hs Ht) as H. rewrite E, N.compare_refl in H.
  destruct (Nat.compare _ _); try done. by apply bytes_inj, bytes_cmp_eq.
Qed.

Lemma to_dec_decimal_of s : canonical_decimal s = true → to_dec (decimal_of s) = s.
Proof.
  intros Hs. apply decimal_of_inj; [apply canonical_to_dec|done|apply decimal_of_to_dec].
Qed.

#[export] Instance to_dec_inj : Inj (=) (=) to_dec.
Proof. intros n m H. by rewrite <- (decimal_of_to_dec n), H, decimal_of_to_dec. Qed.

Lemma dec_digits n : forallb is_ascii_digit (bytes (to_dec n)) = true.
Proof. apply to_dec_spec. Qed.

Lemma dec_not c n : is_ascii_digit c = false → existsb (λ d, d == c) (bytes (to_dec n)) = false.
Proof.
  intros Hc. apply not_true_iff_false. intros (d & Hd & ->%bool_decide_eq_true)%existsb_exists.
  pose proof (dec_digits n) as H. rewrite forallb_forall in H. apply H in Hd. congruence.
Qed.

Lemma dec_nonempty n : ∃ x l, bytes (to_dec n) = x :: l ∧ is_ascii_digit x = true.
Proof.
  pose proof (dec_digits n) as H. destruct (to_dec_spec n) as (_ & _ & [[_ E]|(_ & x & l & E & _)]).
  - destruct (bytes (to_dec n)) as [|x l]; [done|]. exists x, l. cbn [forallb] in H. by apply andb_true_iff in H as [? _].
  - rewrite E in *. exists x, l. cbn [forallb] in H. by apply andb_true_iff in H as [? _].
Qed.

(** ** Parsing *)

Lemma parse_u64_digits s :
  canonical_decimal s = true →
  parse_u64 s = if decimal_of s <=? u64_max then Some (decimal_of s) else None.
Proof.
  rewrite canonical_decimal_spec. intros (Hd & c & l & Hb & _).
  unfold parse_u64, decimal_of. rewrite Hb in *.
  assert (c ≠ "+"%char) by (intros ->; done).
  replace (match c :: l with "+"%char :: r => r | l => l end) with (c :: l)
    by (by destruct c as [[] [] [] [] [] [] [] []]).
  by rewrite Hd.
Qed.

Lemma parse_u64_to_dec n : n ≤ u64_max → parse_u64 (to_dec n) = Some n.
Proof.
  intros Hn. rewrite parse_u64_digits by apply canonical_to_dec. rewrite decimal_of_to_dec.
  by rewrite (proj2 (N.leb_le _ _) Hn).
Qed.

Lemma parse_u32_to_dec n : n ≤ u32_max → parse_u32 (to_dec n) = Some n.
Proof.
  intros Hn. unfold parse_u32. rewrite parse_u64_to_dec by (unfold u32_max, u64_max in *; lia).
  by rewrite (proj2 (N.leb_le _ _) Hn).
Qed.

Lemma parse_i64_canonical s :
  canonical_decimal s = true →
  parse_i64 s = if decimal_of s <=? i64_max then Some (Z.of_N (decimal_of s)) else None.
Proof.
  rewrite canonical_decimal_spec. intros (Hd & c & l & Hb & _).
  unfold parse_i64, decimal_of. rewrite Hb in *.
  assert (c ≠ "+"%char ∧ c ≠ "-"%char) as [Hp Hm] by (split; intros ->; done).
  replace (match c :: l with
           | "+"%char :: r => (false, r)
           | "-"%char :: r => (true, r)
           | l => (false, l)
           end) with (false, c :: l)
    by (by destruct c as [[] [] [] [] [] [] [] []]).
  by rewrite Hd.
Qed.

Lemma decimal_u64_Some s n :
  decimal_u64 s = Some n ↔ canonical_decimal s = true ∧ decimal_of s = n ∧ n ≤ u64_max.
Proof.
  unfold decimal_u64. destruct (canonical_decimal s) eqn:Hs; [|naive_solver].
  rewrite parse_u64_digits by done. destruct (N.leb_spec (decimal_of s) u64_max); naive_solver lia.
Qed.

(** Printing and parsing are inverse: on every [u64] ... *)
Lemma decimal_u64_to_dec n : n ≤ u64_max → decimal_u64 (to_dec n) = Some n.
Proof.
  intros H. apply decimal_u64_Some. auto using canonical_to_dec, decimal_of_to_dec.
Qed.

(** ... and on every string the guard accepts. *)
Lemma decimal_u64_canonical s n : decimal_u64 s = Some n → s = to_dec n.
Proof. intros (H & <- & _)%decimal_u64_Some. by rewrite to_dec_decimal_of. Qed.

Lemma decimal_u64_inj s t n : decimal_u64 s = Some n → decimal_u64 t = Some n → s = t.
Proof. intros ->%decimal_u64_canonical ->%decimal_u64_canonical. done. Qed.

(** ** Fixed-width numerals *)

Definition hex_char (d : N) : ascii := if d <? 10 then digit_char d else ascii_of_N (87 + d).

(** The [w] lowest digits of [n] in base [b], most significant first. *)
Fixpoint fixed_digits (b : N) (digit : N → ascii) (w : nat) (n : N) (acc : list ascii) : list ascii :=
  match w with
  | O => acc
  | S w' => fixed_digits b digit w' (n / b) (digit (n mod b) :: acc)
  end.

(** [{:04x}] of a value of at most four hexadecimal digits. *)
Definition hex4 (n : N) : string := of_bytes (fixed_digits 16 hex_char 4 n []).

(** [u32::from_str_radix(_, 16)] of lower-case hexadecimal digits. *)
Definition parse_lower_hex_u32 (s : string) : option N :=
  match bytes s with
  | [] => None
  | ds =>
      if forallb is_lower_hex ds && (from_radix 16 hex_val ds <=? u32_max)
      then Some (from_radix 16 hex_val ds) else None
  end.

Section Fixed.
Context (b : N) (val : ascii → N) (p : ascii → bool) (digit : N → ascii).
Context (Hb : 1 < b) (Hdigit : ∀ d, d < b → p (digit d) = true ∧ val (digit d) = d).

Lemma fixed_digits_spec w n acc :
  n < b ^ N.of_nat w →
  ∃ ds, fixed_digits b digit w n acc = ds ++ acc ∧ length ds = w ∧ forallb p ds = true ∧
        from_radix b val ds = n.
Proof.
  revert n acc. induction w as [|w IH]; intros n acc Hn.
  { exists []. simpl in *. split_and!; try done. unfold from_radix. simpl. lia. }
  replace (N.of_nat (S w)) with (N.succ (N.of_nat w)) in Hn by lia. rewrite N.pow_succ_r' in Hn.
  assert (n mod b < b) as Hmod by (apply N.mod_lt; lia).
  assert (n = b * (n / b) + n mod b) as Hdiv by (apply N.div_mod; lia).
  destruct (IH (n / b) (digit (n mod b) :: acc)) as (ds & Hgo & Hl & Hp & Hv).
  { apply N.Div0.div_lt_upper_bound. done. }
  exists (ds ++ [digit (n mod b)]). simpl. rewrite Hgo, <- app_assoc. split; [done|].
  destruct (Hdigit _ Hmod) as [Hd1 Hd2].
  rewrite length_app, forallb_app, Hp. simpl. rewrite Hd1. split; [lia|]. split; [done|].
  rewrite (from_radix_snoc b val), Hv, Hd2. lia.
Qed.
End Fixed.

Lemma byte_val_ascii n : n < 256 → byte_val (ascii_of_N n) = n.
Proof. intros. unfold byte_val. by rewrite N_ascii_embedding. Qed.

Lemma hex_char_spec d : d < 16 → is_lower_hex (hex_char d) = true ∧ hex_val (hex_char d) = d.
Proof.
  intros Hd. unfold hex_char, is_lower_hex, hex_val. destruct (N.ltb_spec d 10).
  - rewrite digit_char_digit by done. split; [done|]. by apply digit_val_char.
  - assert (is_ascii_digit (ascii_of_N (87 + d)) = false) as Hno.
    { unfold is_ascii_digit, in_range. rewrite byte_val_ascii by lia. bsimp. lia. }
    rewrite Hno. unfold in_range. rewrite byte_val_ascii by lia. split; [simpl; bsimp; lia|lia].
Qed.

Lemma hex_val_lt c : is_lower_hex c = true → hex_val c < 16.
Proof.
  unfold is_lower_hex, hex_val, is_ascii_digit. rewrite orb_true_iff, !in_range_spec.
  destruct (in_range 48 57 c) eqn:E; [rewrite in_range_spec in E; lia|].
  intros [H|H]; [|lia]. apply in_range_spec in H. congruence.
Qed.

Lemma hex_val_mono x y : is_lower_hex x = true → is_lower_hex y = true →
  N.compare (byte_val x) (byte_val y) = N.compare (hex_val x) (hex_val y).
Proof.
  unfold is_lower_hex, hex_val, is_ascii_digit. rewrite !orb_true_iff.
  destruct (in_range 48 57 x) eqn:Ex, (in_range 48 57 y) eqn:Ey; rewrite ?in_range_spec in *;
    intros; destruct_or?; try done;
    destruct (N.compare_spec (byte_val x) (byte_val y)); symmetry;
    (rewrite N.compare_eq_iff || rewrite N.compare_lt_iff || rewrite N.compare_gt_iff); lia.
Qed.

Lemma hex4_spec n : n < 65536 →
  length (bytes (hex4 n)) = 4%nat ∧ forallb is_lower_hex (bytes (hex4 n)) = true ∧
  from_radix 16 hex_val (bytes (hex4 n)) = n.
Proof.
  intros Hn. unfold hex4. rewrite bytes_of_bytes.
  destruct (fixed_digits_spec 16 hex_val is_lower_hex hex_char ltac:(lia) hex_char_spec 4 n [])
    as (ds & -> & Hl & Hp & Hv); [done|]. by rewrite app_nil_r.
Qed.

(** Padding with zeros keeps the value. *)
Lemma from_radix_zeros k l : from_radix 10 digit_val (replicate k "0"%char ++ l) = from_radix 10 digit_val l.
Proof.
  induction k as [|k IH]; [done|]. simpl. rewrite (from_radix_cons 10 digit_val ltac:(lia)), IH.
  change (digit_val "0") with 0. lia.
Qed.

Lemma to_dec_length w n : n < 10 ^ N.of_nat w → (1 ≤ w → length (bytes (to_dec n)) ≤ w)%nat.
Proof.
  intros Hn Hw. destruct (to_dec_spec n) as (Hd & Hv & [[_ ->]|(_ & c & ds & E & Hc)]); [done|].
  unfold decimal_of in Hv. rewrite E in *. pose proof (from_radix_lower 10 digit_val ltac:(lia) c ds Hc).
  rewrite Hv in *. simpl.
  destruct (Nat.le_gt_cases w (length ds)) as [Hle|]; [|lia].
  pose proof (N.pow_le_mono_r 10 (N.of_nat w) (N.of_nat (length ds)) ltac:(lia) ltac:(lia)). lia.
Qed.

Lemma pad_decimal_spec w n : (1 ≤ w)%nat → n < 10 ^ N.of_nat w →
  length (bytes (pad_left "0" w (to_dec n))) = w ∧
  forallb is_ascii_digit (bytes (pad_left "0" w (to_dec n))) = true ∧
  decimal_of (pad_left "0" w (to_dec n)) = n.
Proof.
  intros Hw Hn. pose proof (to_dec_length w n Hn Hw) as Hl. unfold decimal_of.
  rewrite bytes_pad_left, length_app, length_replicate, forallb_app, from_radix_zeros.
  destruct (to_dec_spec n) as (Hd & Hv & _). split; [lia|]. split; [|done]. rewrite Hd, andb_true_r.
  apply forallb_Forall, Forall_replicate. done.
Qed.
