(* ===== verification/Btree.v ===== *)
(** * Btree: Rust's [BTreeMap<String, V>] as a key-sorted association list

    The clients keep JSON objects, the read model and the recorded policies in
    B-tree maps, whose iteration order (ascending keys) is observable.  The
    model is the list of entries in iteration order. *)

From S2P Require Import Prelude Text.

Definition bmap (V : Type) : Type := list (string * V).

Section Ops.
Context {V : Type}.
Implicit Types (m : bmap V) (k : string) (v : V).

Fixpoint bt_get k m : option V :=
  match m with
  | [] => None
  | (k', v) :: m' => if k == k' then Some v else bt_get k m'
  end.

Fixpoint bt_insert k v m : bmap V :=
  match m with
  | [] => [(k, v)]
  | (k', v') :: m' =>
      match str_cmp k k' with
      | Lt => (k, v) :: m
      | Eq => (k, v) :: m'
      | Gt => (k', v') :: bt_insert k v m'
      end
  end.

Fixpoint bt_remove k m : bmap V :=
  match m with
  | [] => []
  | (k', v') :: m' => if k == k' then m' else (k', v') :: bt_remove k m'
  end.

Definition bt_keys m : list string := List.map fst m.
Definition bt_values m : list V := List.map snd m.
Definition bt_contains k m : bool := is_some (bt_get k m).

(** [entry(k).or_insert_with(v)] *)
Definition bt_or_insert k v m : bmap V :=
  match bt_get k m with Some _ => m | None => bt_insert k v m end.

(** Collecting an iterator of entries: later entries replace earlier ones. *)
Definition bt_of_list (l : list (string * V)) : bmap V :=
  fold_left (λ m kv, bt_insert kv.1 kv.2 m) l [].

Definition entry_lt (a b : string * V) : Prop := str_cmp a.1 b.1 = Lt.
Definition bt_sorted m : Prop := StronglySorted entry_lt m.
End Ops.

(** ** Lemmas *)

Section Lemmas.
Context {V : Type}.
Implicit Types (m : bmap V) (k : string) (v : V).

Lemma str_cmp_refl k : str_cmp k k = Eq.
Proof. by apply str_cmp_eq. Qed.

Lemma bt_get_insert_eq k v m : bt_get k (bt_insert k v m) = Some v.
Proof.
  induction m as [|[k' v'] m IH]; simpl; [by rewrite bool_decide_true|].
  destruct (str_cmp k k') eqn:E; simpl; try by rewrite bool_decide_true.
  rewrite bool_decide_false; [done|]. intros ->. by rewrite str_cmp_refl in E.
Qed.

Lemma bt_get_insert_ne k k' v m : k ≠ k' → bt_get k' (bt_insert k v m) = bt_get k' m.
Proof.
  intros Hne. induction m as [|[q w] m IH]; simpl.
  { by rewrite bool_decide_false by done. }
  destruct (str_cmp k q) eqn:E; simpl.
  - apply str_cmp_eq in E as ->. by rewrite !bool_decide_false by done.
  - by rewrite (bool_decide_false (k' = k)) by done.
  - by rewrite IH.
Qed.

Lemma bt_get_insert k k' v m :
  bt_get k' (bt_insert k v m) = if k == k' then Some v else bt_get k' m.
Proof.
  case_bool_decide as E; [subst; apply bt_get_insert_eq|by apply bt_get_insert_ne].
Qed.

Lemma Forall_bt_insert (P : string * V → Prop) k v m :
  P (k, v) → Forall P m → Forall P (bt_insert k v m).
Proof.
  intros HP. induction 1 as [|[k' v'] m Hx Hm IH]; simpl; [by constructor|].
  destruct (str_cmp k k'); by repeat constructor.
Qed.

Lemma bt_sorted_insert k v m : bt_sorted m → bt_sorted (bt_insert k v m).
Proof.
  unfold bt_sorted. induction 1 as [|[k' v'] m Hm IH Hall]; simpl.
  { repeat constructor. }
  destruct (str_cmp k k') eqn:E.
  - apply str_cmp_eq in E as ->. by constructor.
  - constructor; [by constructor|]. constructor; [done|].
    eapply Forall_impl; [exact Hall|]. intros [q w] Hq. unfold entry_lt in *. simpl in *.
    by eapply str_cmp_trans.
  - constructor; [done|]. apply Forall_bt_insert; [|done].
    unfold entry_lt. simpl. by rewrite str_cmp_antisym, E.
Qed.

Lemma bt_sorted_of_list (l : list (string * V)) : bt_sorted (bt_of_list l).
Proof.
  unfold bt_of_list. assert (bt_sorted (@nil (string * V))) as H by constructor.
  revert H. generalize (@nil (string * V)). induction l as [|[k v] l IH]; simpl; [done|].
  intros m Hm. by apply IH, bt_sorted_insert.
Qed.

Lemma bt_get_Some_In k v m : bt_get k m = Some v → In (k, v) m.
Proof.
  induction m as [|[k' v'] m IH]; simpl; [done|].
  case_bool_decide as E; [intros [= <-]; subst; by left|by right; apply IH].
Qed.

Lemma bt_sorted_head k v m k' v' :
  bt_sorted ((k, v) :: m) → In (k', v') m → str_cmp k k' = Lt.
Proof.
  intros H%StronglySorted_inv Hin. destruct H as [_ H].
  rewrite List.Forall_forall in H. by apply (H (k', v')).
Qed.

Lemma bt_sorted_tail kv m : bt_sorted (kv :: m) → bt_sorted m.
Proof. by intros [H _]%StronglySorted_inv. Qed.

Lemma bt_In_get k v m : bt_sorted m → In (k, v) m → bt_get k m = Some v.
Proof.
  induction m as [|[k' v'] m IH]; [done|]. intros Hs [[= -> ->]|Hin]; simpl.
  { by rewrite bool_decide_true. }
  rewrite bool_decide_false; [apply IH; [by eapply bt_sorted_tail|done]|].
  intros ->. pose proof (bt_sorted_head _ _ _ _ _ Hs Hin) as H.
  by rewrite str_cmp_refl in H.
Qed.

Lemma bt_get_remove_ne k k' m : k ≠ k' → bt_get k' (bt_remove k m) = bt_get k' m.
Proof.
  intros Hne. induction m as [|[q w] m IH]; simpl; [done|].
  destruct (decide (k = q)) as [<-|Hq].
  - rewrite bool_decide_true by done. by rewrite (bool_decide_false (k' = k)) by done.
  - rewrite (bool_decide_false (k = q)) by done. simpl. by rewrite IH.
Qed.

Lemma bt_get_remove_eq k m : bt_sorted m → bt_get k (bt_remove k m) = None.
Proof.
  induction m as [|[q w] m IH]; simpl; [done|]. intros Hs.
  case_bool_decide as E; simplify_eq/=.
  - destruct (bt_get q m) eqn:G; [|done]. apply bt_get_Some_In in G.
    pose proof (bt_sorted_head _ _ _ _ _ Hs G) as H. by rewrite str_cmp_refl in H.
  - rewrite bool_decide_false by done. apply IH. by eapply bt_sorted_tail.
Qed.

(** A B-tree map is determined by its lookups. *)
Lemma bt_ext m1 m2 :
  bt_sorted m1 → bt_sorted m2 → (∀ k, bt_get k m1 = bt_get k m2) → m1 = m2.
Proof.
  intros H1. revert m2. induction H1 as [|[k v] m1 Hm IH Hall]; intros [|[k' v'] m2] H2 E.
  - done.
  - specialize (E k'). simpl in E. by rewrite bool_decide_true in E.
  - specialize (E k). simpl in E. by rewrite bool_decide_true in E.
  - assert (bt_sorted ((k, v) :: m1)) as H1 by (by constructor).
    destruct (decide (k = k')) as [<-|Hne].
    + pose proof (E k) as Ek. simpl in Ek. rewrite bool_decide_true in Ek by done.
      simplify_eq. f_equal.
      apply IH; [by eapply bt_sorted_tail|]. intros q.
      destruct (decide (q = k)) as [->|Hq].
      * transitivity (@None V); [|symmetry].
        -- destruct (bt_get k m1) eqn:G; [|done]. apply bt_get_Some_In in G.
           pose proof (bt_sorted_head _ _ _ _ _ H1 G) as H. by rewrite str_cmp_refl in H.
        -- destruct (bt_get k m2) eqn:G; [|done]. apply bt_get_Some_In in G.
           pose proof (bt_sorted_head _ _ _ _ _ H2 G) as H. by rewrite str_cmp_refl in H.
      * specialize (E q). simpl in E. by rewrite !bool_decide_false in E by done.
    + exfalso. pose proof (E k) as Ek. pose proof (E k') as Ek'. simpl in Ek, Ek'.
      rewrite bool_decide_true in Ek by done. rewrite bool_decide_false in Ek by done.
      rewrite bool_decide_false in Ek' by done. rewrite bool_decide_true in Ek' by done.
      symmetry in Ek. apply bt_get_Some_In in Ek, Ek'.
      pose proof (bt_sorted_head _ _ _ _ _ H1 Ek') as L1.
      pose proof (bt_sorted_head _ _ _ _ _ H2 Ek) as L2.
      rewrite str_cmp_antisym, L1 in L2. done.
Qed.

(** Rebuilding a sorted map from its entries changes nothing. *)
Lemma bt_of_list_acc (l acc : bmap V) k :
  bt_sorted l →
  bt_get k (fold_left (λ m kv, bt_insert kv.1 kv.2 m) l acc) =
    match bt_get k l with Some v => Some v | None => bt_get k acc end.
Proof.
  revert acc. induction l as [|[q v] l IH]; intros acc Hs; simpl; [done|].
  rewrite IH by (by eapply bt_sorted_tail). rewrite bt_get_insert.
  destruct (decide (k = q)) as [->|Hne].
  - rewrite !bool_decide_true by done. destruct (bt_get q l) eqn:G; [|done].
    apply bt_get_Some_In in G. pose proof (bt_sorted_head _ _ _ _ _ Hs G) as H.
    by rewrite str_cmp_refl in H.
  - by rewrite !bool_decide_false by done.
Qed.

Lemma bt_of_list_get (m : bmap V) k : bt_sorted m → bt_get k (bt_of_list m) = bt_get k m.
Proof.
  intros H. unfold bt_of_list. rewrite bt_of_list_acc by done. by destruct (bt_get k m).
Qed.
End Lemmas.
