(* ===== verification/Json.v ===== *)
(** * Json: decoded JSON values and the serde_json boundary

    [json] is the decoded value type the clients pattern match on
    ([serde_json::Value]).  An object is a B-tree map, so its entries are kept
    in ascending key order.  A number is an unsigned integer, a negative
    integer, or a finite double given by its exact value [m * 2^e] (the two
    zeros are one value, as [==] has them).

    Text encoding and decoding is third-party code; it is the interface
    [SerdeJson], a parameter of every definition that uses it. *)

From S2P Require Import Prelude Text Btree.

Inductive number :=
| NPosInt (n : N)
| NNegInt (z : Z)
| NFloat (m : Z) (e : Z).

#[warnings="-register-all"]
Inductive json :=
| JNull
| JBool (b : bool)
| JNumber (n : number)
| JString (s : string)
| JArray (l : list json)
| JObject (m : bmap json).

Class SerdeJson := {
  (** [serde_json::to_string] of a value; [None] is its [Err]. *)
  to_text : json → option string;
  (** [serde_json::from_str]; [None] is its [Err]. *)
  from_text : string → option json
}.

(** ** Accessors of the value type *)

Definition as_object (v : json) : option (bmap json) :=
  match v with JObject m => Some m | _ => None end.
Definition is_object (v : json) : bool := is_some (as_object v).
Definition as_str (v : json) : option string :=
  match v with JString s => Some s | _ => None end.
Definition as_bool (v : json) : option bool :=
  match v with JBool b => Some b | _ => None end.
Definition as_u64_num (n : number) : option N :=
  match n with NPosInt k => Some k | _ => None end.
Definition as_u64 (v : json) : option N :=
  match v with JNumber n => as_u64_num n | _ => None end.

(** A number as the decoder builds it: an integer of 64 bits, or a double whose
    mantissa is odd unless it is zero, so that a double has one form. *)
Definition number_wf (n : number) : Prop :=
  match n with
  | NPosInt k => k ≤ u64_max
  | NNegInt z => (- 2 ^ 63 ≤ z < 0)%Z
  | NFloat m e => (m = 0 ∧ e = 0 ∨ Z.odd m = true)%Z ∧ (Z.abs m < 2 ^ 53)%Z ∧ (-1074 ≤ e ≤ 1023)%Z
  end.

(** A value as the decoder builds it: every object is a key-sorted map. *)
Fixpoint json_wf (v : json) : Prop :=
  match v with
  | JNumber n => number_wf n
  | JArray l => foldr (λ x P, json_wf x ∧ P) True l
  | JObject m => bt_sorted m ∧ foldr (λ kv P, json_wf kv.2 ∧ P) True m
  | _ => True
  end.

(** How deep arrays and objects are nested. *)
Fixpoint nesting (v : json) : nat :=
  match v with
  | JArray l => S (foldr (λ x n, Nat.max (nesting x) n) 0%nat l)
  | JObject m => S (foldr (λ kv n, Nat.max (nesting kv.2) n) 0%nat m)
  | _ => 0%nat
  end.

(** A value without doubles. *)
Fixpoint exact (v : json) : bool :=
  match v with
  | JNumber (NFloat _ _) => false
  | JArray l => forallb exact l
  | JObject m => forallb (λ kv, exact kv.2) m
  | _ => true
  end.

(** A value that serde_json reads back from its text: the parser refuses text that
    is nested too deep, and by default does not restore every double. *)
Definition readable (depth : nat) (v : json) : Prop := json_wf v ∧ exact v = true ∧ (nesting v ≤ depth)%nat.

(** ** Induction and decidable equality through the nesting *)

Section Induction.
Context (P : json → Prop).
Context (Hnull : P JNull) (Hbool : ∀ b, P (JBool b)) (Hnum : ∀ n, P (JNumber n)).
Context (Hstr : ∀ s, P (JString s)).
Context (Harr : ∀ l, Forall P l → P (JArray l)).
Context (Hobj : ∀ m, Forall (λ kv, P kv.2) m → P (JObject m)).

Fixpoint json_nested_ind (v : json) : P v :=
  match v with
  | JNull => Hnull
  | JBool b => Hbool b
  | JNumber n => Hnum n
  | JString s => Hstr s
  | JArray l =>
      Harr l ((fix go l : Forall P l :=
        match l with
        | [] => Forall_nil_2 _
        | x :: l' => Forall_cons_2 P x l' (json_nested_ind x) (go l')
        end) l)
  | JObject m =>
      Hobj m ((fix go (m : bmap json) : Forall (λ kv, P kv.2) m :=
        match m with
        | [] => Forall_nil_2 _
        | (k, x) :: m' =>
            Forall_cons_2 (λ kv, P kv.2) (k, x) m' (json_nested_ind x) (go m')
        end) m)
  end.
End Induction.

#[export] Instance number_eq_dec : EqDecision number.
Proof. solve_decision. Defined.

#[export] Instance json_eq_dec : EqDecision json.
Proof.
  refine (fix go (x y : json) {struct x} : Decision (x = y) :=
    match x, y with
    | JNull, JNull => left eq_refl
    | JBool a, JBool b => cast_if (decide (a = b))
    | JNumber a, JNumber b => cast_if (decide (a = b))
    | JString a, JString b => cast_if (decide (a = b))
    | JArray a, JArray b =>
        cast_if ((fix gol (l l' : list json) {struct l} : Decision (l = l') :=
          match l, l' with
          | [], [] => left eq_refl
          | u :: k, u' :: k' => cast_if_and (go u u') (gol k k')
          | _, _ => right _
          end) a b)
    | JObject a, JObject b =>
        cast_if ((fix gom (l l' : bmap json) {struct l} : Decision (l = l') :=
          match l, l' with
          | [], [] => left eq_refl
          | (q, u) :: k, (q', u') :: k' =>
              cast_if_and3 (decide (q = q')) (go u u') (gom k k')
          | _, _ => right _
          end) a b)
    | _, _ => right _
    end); clear go; congruence.
Defined.

(** ** Well-formedness and nesting, through the nesting *)

Lemma wf_array l : json_wf (JArray l) ↔ Forall json_wf l.
Proof. cbn [json_wf]. induction l as [|x l IH]; cbn [foldr]; [by split|]. by rewrite Forall_cons, IH. Qed.

Lemma wf_object m : json_wf (JObject m) ↔ bt_sorted m ∧ Forall (λ kv, json_wf kv.2) m.
Proof.
  cbn [json_wf]. apply and_iff_compat_l. induction m as [|x m IH]; cbn [foldr]; [by split|]. by rewrite Forall_cons, IH.
Qed.

Lemma nesting_array n l : (nesting (JArray l) ≤ S n)%nat ↔ Forall (λ x, (nesting x ≤ n)%nat) l.
Proof.
  cbn [nesting]. rewrite <- Nat.succ_le_mono. induction l as [|x l IH]; cbn [foldr]; [by split; [|lia]|].
  by rewrite Forall_cons, Nat.max_lub_iff, IH.
Qed.

Lemma nesting_object n m : (nesting (JObject m) ≤ S n)%nat ↔ Forall (λ kv, (nesting kv.2 ≤ n)%nat) m.
Proof.
  cbn [nesting]. rewrite <- Nat.succ_le_mono. induction m as [|x m IH]; cbn [foldr]; [by split; [|lia]|].
  by rewrite Forall_cons, Nat.max_lub_iff, IH.
Qed.

Lemma readable_array n l : readable (S n) (JArray l) ↔ Forall (readable n) l.
Proof. unfold readable. rewrite wf_array, nesting_array. cbn [exact]. rewrite forallb_Forall, <- !Forall_and. done. Qed.

Lemma readable_object n m : readable (S n) (JObject m) ↔ bt_sorted m ∧ Forall (λ kv, readable n kv.2) m.
Proof.
  unfold readable. rewrite wf_object, nesting_object. cbn [exact]. rewrite forallb_Forall.
  rewrite (Forall_and (λ kv, json_wf kv.2)), (Forall_and (λ kv, exact kv.2 = true)). tauto.
Qed.

Lemma readable_mono n n' v : readable n v → (n ≤ n')%nat → readable n' v.
Proof. unfold readable. intuition lia. Qed.
