(* ===== verification/JsonCodec.v ===== *)
(** * JsonCodec: laws of the JSON text boundary, and a lawful instance

    The clients rely on documented facts of [serde_json]: every value prints,
    different values print differently, what was printed is parsed back if its
    nesting stays under the recursion limit and it has no doubles (the feature
    [float_roundtrip] is off), and null prints as [null].  They are the class
    [SerdeJsonLaws].  [reference_codec] is a concrete instance (a
    numbering of the values, printed in decimal) with which closed examples
    evaluate; it stands for no particular text syntax. *)

From S2P Require Import Prelude Text Decimal Btree Json.
From stdpp Require Import countable.

(** The parser counts down from 128 and refuses at zero. *)
Definition MAX_NESTING : nat := 127.

Class SerdeJsonLaws `{SerdeJson} : Prop := {
  to_text_total v : is_Some (to_text v);
  to_text_inj v w : json_wf v → json_wf w → to_text v = to_text w → v = w;
  from_to_text v t : readable MAX_NESTING v → to_text v = Some t → from_text t = Some v;
  to_text_null : to_text JNull = Some "null"
}.

(** ** The reference instance *)

Definition number_code (n : number) : N + Z + Z * Z :=
  match n with NPosInt k => inl (inl k) | NNegInt z => inl (inr z) | NFloat m e => inr (m, e) end.
Definition number_decode (c : N + Z + Z * Z) : number :=
  match c with inl (inl k) => NPosInt k | inl (inr z) => NNegInt z | inr (m, e) => NFloat m e end.

#[export] Instance number_countable : Countable number.
Proof. refine (inj_countable' number_code number_decode _). by intros []. Defined.

Definition leaf : Type := bool + number + string.

Fixpoint json_tree (v : json) : gen_tree leaf :=
  match v with
  | JNull => GenNode 0 []
  | JBool b => GenLeaf (inl (inl b))
  | JNumber n => GenLeaf (inl (inr n))
  | JString s => GenLeaf (inr s)
  | JArray l => GenNode 1 (List.map json_tree l)
  | JObject m => GenNode 2 (List.map (λ kv, GenNode 3 [GenLeaf (inr kv.1); json_tree kv.2]) m)
  end.

Fixpoint tree_json (t : gen_tree leaf) : json :=
  match t with
  | GenLeaf (inl (inl b)) => JBool b
  | GenLeaf (inl (inr n)) => JNumber n
  | GenLeaf (inr s) => JString s
  | GenNode 1 l => JArray (List.map tree_json l)
  | GenNode 2 l =>
      JObject (List.map (λ e, match e with
                              | GenNode _ [GenLeaf (inr k); x] => (k, tree_json x)
                              | _ => ("", JNull)
                              end) l)
  | GenNode _ _ => JNull
  end.

Lemma tree_json_tree v : tree_json (json_tree v) = v.
Proof.
  induction v as [| | | |l IH|m IH] using json_nested_ind; simpl; try done; f_equal;
    rewrite List.map_map.
  - induction IH as [|x l Hx _ IHl]; simpl; [done|]. by rewrite Hx, IHl.
  - induction IH as [|[k x] m Hx _ IHm]; simpl in *; [done|]. by rewrite Hx, IHm.
Qed.

#[export] Instance json_countable : Countable json.
Proof. refine (inj_countable' json_tree tree_json tree_json_tree). Defined.

Definition reference_codec : SerdeJson := {|
  to_text v := match v with JNull => Some "null" | _ => Some (to_dec (Npos (encode v))) end;
  from_text s :=
    if s == "null" then Some JNull
    else match decimal_of s with Npos p => decode p | N0 => None end
|}.

Lemma reference_codec_round_trip v t :
  to_text (SerdeJson := reference_codec) v = Some t → from_text (SerdeJson := reference_codec) t = Some v.
Proof.
  assert (∀ n, to_dec n ≠ "null") as Hnum.
  { intros n E. pose proof (canonical_to_dec n) as H. by rewrite E in H. }
  assert (∀ v, from_text (SerdeJson := reference_codec) (to_dec (Npos (encode v))) = Some v) as H.
  { intros w. simpl. rewrite bool_decide_false by done. by rewrite decimal_of_to_dec, decode_encode. }
  destruct v; intros [= <-]; (done || apply H).
Qed.

Lemma reference_codec_laws : @SerdeJsonLaws reference_codec.
Proof.
  split; [by intros []; simpl; eauto| | |done].
  - intros v w _ _ E. assert (is_Some (to_text (SerdeJson := reference_codec) v)) as [t Ht] by (by destruct v; simpl; eauto).
    pose proof (reference_codec_round_trip v t Ht) as Hv. rewrite E in Ht. apply reference_codec_round_trip in Ht. congruence.
  - intros v t _. apply reference_codec_round_trip.
Qed.
