(* ===== verification/State.v ===== *)
(** * State: stateful code that can fail

    Rust methods that mutate their environment and return early with [?] are
    functions from an environment to the environment they leave behind and their
    result.  An error keeps the effects made before it, as in the source. *)

From S2P Require Import Prelude.

Definition M (S E A : Type) : Type := S → S * result A E.

(** How a call that does not return a value stops: with an error the caller
    handles, or by unwinding (a Rust panic). *)
Inductive stop (E : Type) : Type :=
| Raised (e : E)
| Unwound.
Arguments Raised {E} e.
Arguments Unwound {E}.

Section Monad.
Context {S E : Type}.

Definition ret {A} (a : A) : M S E A := λ s, (s, Ok a).
Definition fail {A} (e : E) : M S E A := λ s, (s, Err e).
Definition bind {A B} (m : M S E A) (f : A → M S E B) : M S E B :=
  λ s, match m s with
       | (s', Ok a) => f a s'
       | (s', Err e) => (s', Err e)
       end.
Definition gets {A} (f : S → A) : M S E A := λ s, (s, Ok (f s)).
Definition modify (f : S → S) : M S E unit := λ s, (f s, Ok ()).
Definition lift {A} (r : result A E) : M S E A := λ s, (s, r).

(** What holds of a run: [Q] of a success and [R] of a failure. *)
Definition run_spec {A} (m : M S E A) (Q : A → S → Prop) (R : E → S → Prop) (s : S) : Prop :=
  match m s with
  | (s', Ok a) => Q a s'
  | (s', Err e) => R e s'
  end.

Lemma run_spec_bind {A B} (m : M S E A) (f : A → M S E B) Q R s :
  run_spec m (λ a s', run_spec (f a) Q R s') R s → run_spec (bind m f) Q R s.
Proof. unfold run_spec, bind. by destruct (m s) as [s' [a|e]]. Qed.

Lemma bind_ok {A B} (m : M S E A) (f : A → M S E B) s s' b :
  bind m f s = (s', Ok b) → ∃ s1 a, m s = (s1, Ok a) ∧ f a s1 = (s', Ok b).
Proof. unfold bind. destruct (m s) as [s1 [a|e]]; [eauto|done]. Qed.

Lemma bind_run {A B} (m : M S E A) (f : A → M S E B) s s1 a :
  m s = (s1, Ok a) → bind m f s = f a s1.
Proof. unfold bind. by intros ->. Qed.

Lemma run_spec_modify {A} (f : S → S) (k : M S E A) Q R s :
  run_spec k Q R (f s) → run_spec (bind (modify f) (λ _, k)) Q R s.
Proof. done. Qed.

Lemma run_spec_impl {A} (m : M S E A) (Q Q' : A → S → Prop) (R R' : E → S → Prop) s :
  run_spec m Q R s → (∀ a s', Q a s' → Q' a s') → (∀ e s', R e s' → R' e s') → run_spec m Q' R' s.
Proof. unfold run_spec. destruct (m s) as [s' [a|e]]; auto. Qed.
End Monad.

Notation "x ←? m ; k" := (bind m (λ x, k))
  (at level 20, m at level 100, k at level 200, only parsing) : opto_scope.
Notation "m ;;? k" := (bind m (λ _, k)) (at level 100, right associativity, only parsing) : opto_scope.

(** [run_ok H] takes a successful run apart into its steps. *)
Ltac run_ok H :=
  lazymatch type of H with
  | bind _ _ _ = (_, Ok _) =>
      let s := fresh "s" in let a := fresh "a" in let H1 := fresh "Hrun" in
      apply bind_ok in H as (s & a & H1 & H); run_ok H1; run_ok H
  | _ => idtac
  end.
