(* ===== verification/Consistency.v ===== *)
(** * Consistency: policy identity, frozen intent and read reconciliation

    Models [clients/rust/src/consistency.rs]. *)

From S2P Require Import Prelude Text Decimal Btree Json JsonCodec.

Definition REMOTE_ACKNOWLEDGED : string := "opto.consistency.remote-acknowledged.v1".
Definition WRITE_THROUGH_LOCAL_FIRST : string := "opto.consistency.write-through-local-first.v1".
Definition QUEUED_LOCAL_FIRST : string := "opto.consistency.queued-local-first.v1".

Definition POLICY_IDS : list string :=
  [REMOTE_ACKNOWLEDGED; WRITE_THROUGH_LOCAL_FIRST; QUEUED_LOCAL_FIRST].

Inductive ConsistencyError :=
| UnknownPolicy (identifier : string)
| FrozenIntent (message : string).

Inductive ConsistencyPolicy :=
| RemoteAcknowledged
| WriteThroughLocalFirst
| QueuedLocalFirst.

#[export] Instance ConsistencyPolicy_eq_dec : EqDecision ConsistencyPolicy.
Proof. solve_decision. Defined.

Definition policy_as_str (p : ConsistencyPolicy) : string :=
  match p with
  | RemoteAcknowledged => REMOTE_ACKNOWLEDGED
  | WriteThroughLocalFirst => WRITE_THROUGH_LOCAL_FIRST
  | QueuedLocalFirst => QUEUED_LOCAL_FIRST
  end.

(** One of a list of string patterns. *)
Definition one_of (s : string) (l : list string) : bool := existsb (λ t, s == t) l.

Definition canonicalize_consistency_policy (identifier : string)
  : result ConsistencyPolicy ConsistencyError :=
  if one_of identifier [REMOTE_ACKNOWLEDGED; "remote-acknowledged"; "strict";
                        "remote-confirmed"; "await-server"]
  then Ok RemoteAcknowledged
  else if one_of identifier [WRITE_THROUGH_LOCAL_FIRST; "write-through-local-first";
                             "local-then-remote"; "local-first"]
  then Ok WriteThroughLocalFirst
  else if one_of identifier [QUEUED_LOCAL_FIRST; "queued-local-first"; "local-durable";
                             "background"]
  then Ok QueuedLocalFirst
  else Err (UnknownPolicy identifier).

Definition policy_ids : list string := POLICY_IDS.

Record MutationIntent := {
  mi_client_id : string;
  mi_mutation_id : string;
  mi_table : string;
  mi_record_id : string;
  mi_operation : string;
  mi_payload : option json;
  mi_base_revision : option string;
  mi_resurrect : bool;
  mi_consistency_policy : string
}.

Record ConsistencyOutcome := {
  co_status : string;
  co_consistency_policy : ConsistencyPolicy;
  co_covered_mutation_ids : list string;
  co_message : option string
}.

Record ProtocolIdentity := { pi_client_id : string; pi_mutation_id : string }.

Record BaseRow := {
  br_table : string;
  br_record_id : string;
  br_revision : string;
  br_operation : string;
  br_payload : option json;
  br_identity : option ProtocolIdentity;
  br_arrival_seq : option N
}.

Record OverlayEntry := {
  oe_mutation_id : string;
  oe_client_id : string;
  oe_table : string;
  oe_record_id : string;
  oe_operation : string;
  oe_payload : option json;
  oe_revision : option string;
  oe_consistency_policy : string;
  oe_status : string;
  oe_transformed_payload : option json
}.

Record ProjectedRow := {
  pr_table : string;
  pr_record_id : string;
  pr_revision : string;
  pr_operation : string;
  pr_payload : option json;
  pr_provenance : string
}.

Record ReadReconciliationInput := {
  local_base : list BaseRow;
  overlay : list OverlayEntry;
  remote : list BaseRow;
  acknowledged_mutation_ids : list string
}.

(** [sort_value]: every object is rebuilt with its entries sorted by key. *)
Fixpoint sort_value (v : json) : json :=
  match v with
  | JArray items => JArray (List.map sort_value items)
  | JObject m => JObject (bt_of_list (List.map (λ kv, (kv.1, sort_value kv.2)) m))
  | other => other
  end.

(** [stable_json]; [None] is the panic of its [expect]. *)
Definition stable_json `{SerdeJson} (value : option json) : option string :=
  match value with
  | None | Some JNull => Some "null"
  | Some other => to_text (sort_value other)
  end.

(** Structural part of the freeze test, in the order the conjunction evaluates. *)
Definition same_intent_fields (existing proposed : MutationIntent)
    (existing_policy proposed_policy : ConsistencyPolicy) : bool :=
  (mi_client_id existing == mi_client_id proposed)
  && (mi_mutation_id existing == mi_mutation_id proposed)
  && (mi_table existing == mi_table proposed)
  && (mi_record_id existing == mi_record_id proposed)
  && (mi_operation existing == mi_operation proposed)
  && (default "" (mi_base_revision existing) == default "" (mi_base_revision proposed))
  && bool_decide (mi_resurrect existing = mi_resurrect proposed)
  && (existing_policy == proposed_policy).

(** [assert_queued_intent_frozen]; the outer [None] is a panic. *)
Definition assert_queued_intent_frozen `{SerdeJson} (existing proposed : MutationIntent)
  : option (result unit ConsistencyError) :=
  match canonicalize_consistency_policy (mi_consistency_policy existing) with
  | Err e => Some (Err e)
  | Ok existing_policy =>
    match canonicalize_consistency_policy (mi_consistency_policy proposed) with
    | Err e => Some (Err e)
    | Ok proposed_policy =>
      let frozen := Err (FrozenIntent ("queued mutation " +:+ mi_client_id existing +:+ "/"
                          +:+ mi_mutation_id existing
                          +:+ " cannot change identity or content")) in
      if same_intent_fields existing proposed existing_policy proposed_policy then
        e ← stable_json (mi_payload existing);
        p ← stable_json (mi_payload proposed);
        Some (if e == p then Ok () else frozen)
      else Some frozen
    end
  end.

Definition outcome_for_network (policy network : string) (covered : list string)
  : result ConsistencyOutcome ConsistencyError :=
  let? consistency_policy := canonicalize_consistency_policy policy in
  let out st ids msg :=
    {| co_status := st; co_consistency_policy := consistency_policy;
       co_covered_mutation_ids := ids; co_message := msg |} in
  if network == "cancelled" then Ok (out "cancelled" [] None)
  else if consistency_policy == QueuedLocalFirst then Ok (out "pending" [] None)
  else if network == "not-attempted" then Ok (out "pending" [] None)
  else if network == "response-lost" then
    Ok (out "ambiguous" [] (Some "committed-but-response-lost"))
  else if network == "rejected" then Ok (out "rejected" covered None)
  else if network == "transformed" then Ok (out "transformed" covered None)
  else Ok (out "confirmed" covered None).

(** ** Read reconciliation *)

Definition normalize_decimal (value : string) : string :=
  if (value == "0")
     || negb (is_empty value) && negb (starts_with "0" value) && all_bytes is_ascii_digit value
  then value else "0".

Definition compare_decimal (left right : string) : comparison :=
  let a := normalize_decimal left in
  let b := normalize_decimal right in
  match N.compare (len a) (len b) with Eq => str_cmp a b | o => o end.

Definition NUL : string := of_bytes [ascii_of_N 0].

Definition record_key (table record_id : string) : string := table +:+ NUL +:+ record_id.

Definition to_projected (row : BaseRow) (provenance : string) : ProjectedRow :=
  {| pr_table := br_table row; pr_record_id := br_record_id row;
     pr_revision := br_revision row; pr_operation := br_operation row;
     pr_payload := br_payload row; pr_provenance := provenance |}.

Definition identity_key (row : BaseRow) : string :=
  match br_identity row with Some i => pi_mutation_id i | None => "" end.

Definition remote_pick (winner candidate : BaseRow) : BaseRow :=
  match compare_decimal (br_revision candidate) (br_revision winner) with
  | Gt => candidate
  | Lt => winner
  | Eq => if str_lt (identity_key candidate) (identity_key winner) then candidate else winner
  end.

(** [rows.iter().reduce(...)]; [None] is the panic on an empty group. *)
Definition select_remote_winner (rows : list BaseRow) : option BaseRow :=
  match rows with
  | [] => None
  | r :: rs => Some (fold_left remote_pick rs r)
  end.

Definition row_cmp (left right : ProjectedRow) : comparison :=
  match str_cmp (pr_table left) (pr_table right) with
  | Eq => str_cmp (pr_record_id left) (pr_record_id right)
  | o => o
  end.

Definition load_base (rows : list BaseRow) : bmap ProjectedRow :=
  fold_left (λ w row, bt_insert (record_key (br_table row) (br_record_id row))
                        (to_projected row "authoritative") w) rows [].

Definition group_remote (rows : list BaseRow) : bmap (list BaseRow) :=
  fold_left (λ g row,
    let k := record_key (br_table row) (br_record_id row) in
    bt_insert k (default [] (bt_get k g) ++ [row]) g) rows [].

(** The remote loop body: take the winner when the row is absent or older. *)
Definition apply_remote_group (working : bmap ProjectedRow) (entry : string * list BaseRow)
  : option (bmap ProjectedRow) :=
  let '(key, group) := entry in
  remote ← select_remote_winner group;
  Some (match bt_get key working with
        | None => bt_insert key (to_projected remote "authoritative") working
        | Some local =>
            match compare_decimal (br_revision remote) (pr_revision local) with
            | Gt => bt_insert key (to_projected remote "authoritative") working
            | _ => working
            end
        end).

(** The overlay loop body, with [continue] as the unchanged map. *)
Definition apply_overlay_entry (acknowledged : list string) (working : bmap ProjectedRow)
    (entry : OverlayEntry) : result (bmap ProjectedRow) ConsistencyError :=
  if one_of (oe_mutation_id entry) acknowledged then Ok working else
  let? policy := canonicalize_consistency_policy (oe_consistency_policy entry) in
  if (oe_status entry == "pending") && (policy == RemoteAcknowledged) then Ok working else
  let key := record_key (oe_table entry) (oe_record_id entry) in
  let payload :=
    if oe_status entry == "transformed"
    then match oe_transformed_payload entry with Some p => Some p | None => oe_payload entry end
    else oe_payload entry in
  let revision :=
    match oe_revision entry with
    | Some r => r
    | None => match bt_get key working with Some row => pr_revision row | None => "0" end
    end in
  Ok (bt_insert key
        {| pr_table := oe_table entry; pr_record_id := oe_record_id entry;
           pr_revision := revision; pr_operation := oe_operation entry;
           pr_payload := payload; pr_provenance := oe_status entry |} working).

Fixpoint apply_overlays (acknowledged : list string) (working : bmap ProjectedRow)
    (entries : list OverlayEntry) : result (bmap ProjectedRow) ConsistencyError :=
  match entries with
  | [] => Ok working
  | e :: es =>
      let? w := apply_overlay_entry acknowledged working e in
      apply_overlays acknowledged w es
  end.

Fixpoint apply_remote_groups (working : bmap ProjectedRow) (groups : bmap (list BaseRow))
  : option (bmap ProjectedRow) :=
  match groups with
  | [] => Some working
  | g :: gs => w ← apply_remote_group working g; apply_remote_groups w gs
  end.

(** [reconcile_read_model]; the outer [None] is a panic. *)
Definition reconcile_read_model (input : ReadReconciliationInput)
  : option (result (list ProjectedRow) ConsistencyError) :=
  let base := load_base (local_base input) in
  working ← match remote input with
            | [] => Some base
            | rows => apply_remote_groups base (group_remote rows)
            end;
  Some (let? final := apply_overlays (acknowledged_mutation_ids input) working (overlay input) in
        Ok (sort_by row_cmp (bt_values final))).

Definition META_INTENT_POLICY_PREFIX : string := "intent.policy.".
Definition intent_policy_meta_key (mutation_id : string) : string :=
  META_INTENT_POLICY_PREFIX +:+ mutation_id.

(** ** Abstract specification of the read model

    What one record of the merged view is, stated per key and without any map:
    the last local row, replaced by the remote winner when that is newer, then
    overlaid by the visible overlay entries of that record in order. *)

Definition row_key (row : BaseRow) : string := record_key (br_table row) (br_record_id row).
Definition overlay_key (e : OverlayEntry) : string := record_key (oe_table e) (oe_record_id e).

Definition spec_base (k : string) (rows : list BaseRow) : option ProjectedRow :=
  fold_left (λ acc row, if row_key row == k then Some (to_projected row "authoritative") else acc)
    rows None.

Definition newer (remote : BaseRow) (local : ProjectedRow) : bool :=
  match compare_decimal (br_revision remote) (pr_revision local) with Gt => true | _ => false end.

Definition spec_remote (base : option ProjectedRow) (winner : option BaseRow)
  : option ProjectedRow :=
  match winner, base with
  | None, _ => base
  | Some r, None => Some (to_projected r "authoritative")
  | Some r, Some l => if newer r l then Some (to_projected r "authoritative") else Some l
  end.

(** An overlay entry shows unless it is acknowledged or still awaits a remote
    acknowledgement its policy requires. *)
Definition visible (acknowledged : list string) (e : OverlayEntry) : bool :=
  negb (one_of (oe_mutation_id e) acknowledged)
  && negb ((oe_status e == "pending")
           && match canonicalize_consistency_policy (oe_consistency_policy e) with
              | Ok p => p == RemoteAcknowledged
              | Err _ => false
              end).

Definition overlay_row (below : option ProjectedRow) (e : OverlayEntry) : ProjectedRow :=
  {| pr_table := oe_table e; pr_record_id := oe_record_id e;
     pr_revision := match oe_revision e with
                    | Some r => r
                    | None => match below with Some row => pr_revision row | None => "0" end
                    end;
     pr_operation := oe_operation e;
     pr_payload := if oe_status e == "transformed"
                   then match oe_transformed_payload e with
                        | Some p => Some p | None => oe_payload e end
                   else oe_payload e;
     pr_provenance := oe_status e |}.

Definition spec_overlay (acknowledged : list string) (k : string)
    (below : option ProjectedRow) (entries : list OverlayEntry) : option ProjectedRow :=
  fold_left (λ acc e, if visible acknowledged e && (overlay_key e == k)
                      then Some (overlay_row acc e) else acc) entries below.

Definition spec_record (input : ReadReconciliationInput) (k : string) : option ProjectedRow :=
  spec_overlay (acknowledged_mutation_ids input) k
    (spec_remote (spec_base k (local_base input))
       (select_remote_winner (List.filter (λ r, row_key r == k) (remote input))))
    (overlay input).

(** An overlay entry the code refuses: not acknowledged and of unknown policy. *)
Definition refused (acknowledged : list string) (e : OverlayEntry) : bool :=
  negb (one_of (oe_mutation_id e) acknowledged)
  && is_err (canonicalize_consistency_policy (oe_consistency_policy e)).

Definition projected_key (row : ProjectedRow) : string :=
  record_key (pr_table row) (pr_record_id row).

(** The working map is sorted and every row sits under its own key. *)
Definition working_ok (w : bmap ProjectedRow) : Prop :=
  bt_sorted w ∧ Forall (λ kr, kr.1 = projected_key kr.2) w.

(** The remote rows of one record, if any. *)
Definition key_group (k : string) (rows : list BaseRow) : option (list BaseRow) :=
  match List.filter (λ r, row_key r == k) rows with [] => None | g => Some g end.

(** The number a revision denotes; what is not a canonical decimal counts as 0. *)
Definition decimal_value (s : string) : N := if canonical_decimal s then decimal_of s else 0.

(** [w] is at least as new as [r], and [r] does not precede it among equals. *)
Definition dominates (w r : BaseRow) : Prop :=
  decimal_value (br_revision r) ≤ decimal_value (br_revision w) ∧
  (decimal_value (br_revision r) = decimal_value (br_revision w) →
   str_lt (identity_key r) (identity_key w) = false).

(** A payload is compared as [null] when absent. *)
Definition payload_or_null (p : option json) : json := default JNull p.

(** Two intents with the same content: every field equal, an absent base
    revision read as empty, an absent payload as null, and policies equal up to
    their aliases. *)
Definition same_intent (existing proposed : MutationIntent) : Prop :=
  mi_client_id existing = mi_client_id proposed ∧
  mi_mutation_id existing = mi_mutation_id proposed ∧
  mi_table existing = mi_table proposed ∧
  mi_record_id existing = mi_record_id proposed ∧
  mi_operation existing = mi_operation proposed ∧
  default "" (mi_base_revision existing) = default "" (mi_base_revision proposed) ∧
  mi_resurrect existing = mi_resurrect proposed ∧
  (∃ p, canonicalize_consistency_policy (mi_consistency_policy existing) = Ok p ∧
        canonicalize_consistency_policy (mi_consistency_policy proposed) = Ok p) ∧
  payload_or_null (mi_payload existing) = payload_or_null (mi_payload proposed).

(** ** Lemmas: the working map computes the specification *)

Lemma working_ok_insert k row w :
  k = projected_key row → working_ok w → working_ok (bt_insert k row w).
Proof.
  intros Hk [Hs Hf]. split; [by apply bt_sorted_insert|]. by apply Forall_bt_insert.
Qed.

Lemma load_base_spec rows :
  working_ok (load_base rows) ∧ ∀ k, bt_get k (load_base rows) = spec_base k rows.
Proof.
  unfold load_base, spec_base.
  cut (∀ w, working_ok w →
    let w' := fold_left (λ w row, bt_insert (row_key row) (to_projected row "authoritative") w) rows w in
    working_ok w' ∧ ∀ k, bt_get k w' =
      fold_left (λ acc row, if row_key row == k then Some (to_projected row "authoritative") else acc)
        rows (bt_get k w)).
  { intros H. apply (H []). by repeat constructor. }
  induction rows as [|row rows IH]; intros w Hw; simpl; [done|].
  destruct (IH _ (working_ok_insert (row_key row) (to_projected row "authoritative") w eq_refl Hw))
    as [Hok Hget].
  split; [done|]. intros k. rewrite Hget. f_equal. apply bt_get_insert.
Qed.

Lemma group_remote_spec rows :
  bt_sorted (group_remote rows) ∧ ∀ k, bt_get k (group_remote rows) = key_group k rows.
Proof.
  unfold group_remote. change rows with ([] ++ rows) at 2.
  cut (∀ pre g, bt_sorted g → (∀ k, bt_get k g = key_group k pre) →
    let g' := fold_left (λ g row, bt_insert (row_key row)
                (default [] (bt_get (row_key row) g) ++ [row]) g) rows g in
    bt_sorted g' ∧ ∀ k, bt_get k g' = key_group k (pre ++ rows)).
  { intros H. apply (H [] []); [constructor|done]. }
  induction rows as [|row rows IH]; intros pre g Hs Hg; simpl; [by rewrite app_nil_r|].
  specialize (IH (pre ++ [row])). rewrite <- app_assoc in IH. apply IH.
  { by apply bt_sorted_insert. }
  intros k. rewrite bt_get_insert, !Hg. unfold key_group. rewrite List.filter_app. simpl.
  case_bool_decide as E.
  - subst k. destruct (List.filter _ pre); done.
  - by rewrite app_nil_r.
Qed.

Lemma winner_in_group rows w : select_remote_winner rows = Some w → In w rows.
Proof.
  destruct rows as [|r rs]; simpl; [done|]. intros [= <-].
  revert r; induction rs as [|c rs IH]; intros r; simpl; [by left|].
  assert (remote_pick r c = r ∨ remote_pick r c = c) as [-> | ->]
    by (unfold remote_pick; repeat case_match; tauto).
  - destruct (IH r); tauto.
  - destruct (IH c); tauto.
Qed.

Lemma key_group_In k rows g r : key_group k rows = Some g → In r g → row_key r = k.
Proof.
  unfold key_group. destruct (List.filter _ rows) as [|x l] eqn:E; [done|].
  intros [= <-] Hin. rewrite <- E in Hin. apply List.filter_In in Hin as [_ H].
  by apply bool_decide_eq_true in H.
Qed.

Lemma apply_remote_group_spec w k g :
  working_ok w → g ≠ [] → (∀ r, In r g → row_key r = k) →
  ∃ w', apply_remote_group w (k, g) = Some w' ∧ working_ok w' ∧
    ∀ q, bt_get q w' = if k == q then spec_remote (bt_get q w) (select_remote_winner g)
                       else bt_get q w.
Proof.
  intros Hw Hne Hk. unfold apply_remote_group.
  destruct (select_remote_winner g) as [r|] eqn:Hr; [simpl|by destruct g].
  pose proof (Hk r (winner_in_group _ _ Hr)) as Hkey.
  assert (∀ q, bt_get q (bt_insert k (to_projected r "authoritative") w) =
               if k == q then Some (to_projected r "authoritative") else bt_get q w) as Hins
    by (intros; apply bt_get_insert).
  assert (working_ok (bt_insert k (to_projected r "authoritative") w)) as Hok
    by (by apply working_ok_insert).
  destruct (bt_get k w) as [l|] eqn:Hl.
  - unfold spec_remote, newer. destruct (compare_decimal _ _) eqn:E; eexists; (split; [done|]); split; try done;
      intros q; rewrite ?Hins; case_bool_decide as Eq; try done; subst q; by rewrite Hl, E.
  - eexists; split; [done|]. split; [done|]. intros q. rewrite Hins.
    case_bool_decide as Eq; [subst q; by rewrite Hl|done].
Qed.

Lemma apply_remote_groups_spec groups w :
  working_ok w → bt_sorted groups →
  Forall (λ kg, kg.2 ≠ [] ∧ ∀ r, In r kg.2 → row_key r = kg.1) groups →
  ∃ w', apply_remote_groups w groups = Some w' ∧ working_ok w' ∧
    ∀ q, bt_get q w' = spec_remote (bt_get q w)
                         (match bt_get q groups with Some g => select_remote_winner g | None => None end).
Proof.
  revert w. induction groups as [|[k g] groups IH]; intros w Hw Hs Hf;
    cbn [apply_remote_groups].
  { eexists; split; [done|]. split; [done|]. by intros q. }
  apply Forall_cons in Hf as [[Hne Hk] Hf].
  destruct (apply_remote_group_spec w k g Hw Hne Hk) as (w1 & -> & Hw1 & Hq1).
  cbn [mbind option_bind].
  destruct (IH w1 Hw1 (bt_sorted_tail _ _ Hs) Hf) as (w2 & -> & Hw2 & Hq2).
  exists w2. split; [done|]. split; [done|]. intros q. rewrite Hq2, Hq1. simpl.
  destruct (decide (q = k)) as [->|Hqk].
  - rewrite !bool_decide_true by done.
    destruct (bt_get k groups) eqn:G; [|done]. apply bt_get_Some_In in G.
    pose proof (bt_sorted_head _ _ _ _ _ Hs G) as H. by rewrite str_cmp_refl in H.
  - rewrite (bool_decide_false (q = k)) by done. by rewrite bool_decide_false by done.
Qed.

(** The remote phase of the code, empty or not, is [spec_remote] at every key. *)
Lemma remote_phase_spec input :
  ∃ w, match remote input with
       | [] => Some (load_base (local_base input))
       | rows => apply_remote_groups (load_base (local_base input)) (group_remote rows)
       end = Some w ∧ working_ok w ∧
    ∀ k, bt_get k w = spec_remote (spec_base k (local_base input))
           (select_remote_winner (List.filter (λ r, row_key r == k) (remote input))).
Proof.
  destruct (load_base_spec (local_base input)) as [Hb Hbg].
  destruct (remote input) as [|r rows] eqn:E.
  { eexists; split; [done|]. split; [done|]. intros k. by rewrite Hbg. }
  rewrite <- E. destruct (group_remote_spec (remote input)) as [Hgs Hgg].
  destruct (apply_remote_groups_spec (group_remote (remote input)) _ Hb Hgs) as (w & -> & Hw & Hq).
  { apply List.Forall_forall. intros [k g] Hin. simpl.
    apply (bt_In_get _ _ _ Hgs) in Hin. rewrite Hgg in Hin. split.
    - unfold key_group in Hin. destruct (List.filter _ _); naive_solver.
    - intros x. by eapply key_group_In. }
  exists w. split; [done|]. split; [done|]. intros k. rewrite Hq, Hbg, Hgg. f_equal.
  unfold key_group. by destruct (List.filter _ (remote input)).
Qed.

Lemma apply_overlay_entry_spec ack w e :
  working_ok w → refused ack e = false →
  ∃ w', apply_overlay_entry ack w e = Ok w' ∧ working_ok w' ∧
    ∀ k, bt_get k w' = if visible ack e && (overlay_key e == k)
                       then Some (overlay_row (bt_get k w) e) else bt_get k w.
Proof.
  intros Hw. unfold refused, apply_overlay_entry, visible.
  destruct (one_of (oe_mutation_id e) ack); simpl; [by eauto|].
  destruct (canonicalize_consistency_policy (oe_consistency_policy e)) as [p|]; [|done]. intros _.
  destruct ((oe_status e == "pending") && (p == RemoteAcknowledged)); simpl; [by eauto|].
  eexists; split; [done|]. split; [by apply working_ok_insert|].
  intros k. rewrite bt_get_insert. fold (overlay_key e).
  case_bool_decide as E; [by subst k|done].
Qed.

Lemma apply_overlays_spec ack entries w :
  working_ok w → existsb (refused ack) entries = false →
  ∃ w', apply_overlays ack w entries = Ok w' ∧ working_ok w' ∧
    ∀ k, bt_get k w' = spec_overlay ack k (bt_get k w) entries.
Proof.
  unfold spec_overlay. revert w. induction entries as [|e es IH]; intros w Hw; simpl.
  { intros _. by eauto. }
  rewrite orb_false_iff. intros [He Hes].
  destruct (apply_overlay_entry_spec ack w e Hw He) as (w1 & -> & Hw1 & Hq1).
  destruct (IH w1 Hw1 Hes) as (w2 & -> & Hw2 & Hq2).
  exists w2. split; [done|]. split; [done|]. intros k. by rewrite Hq2, Hq1.
Qed.

Lemma apply_overlays_refused ack entries w :
  existsb (refused ack) entries = true →
  ∃ p, apply_overlays ack w entries = Err (UnknownPolicy p).
Proof.
  revert w. induction entries as [|e es IH]; intros w; simpl; [done|].
  rewrite orb_true_iff. destruct (refused ack e) eqn:He.
  - intros _. unfold refused in He. unfold apply_overlay_entry.
    destruct (one_of _ _); [done|]. simpl in He.
    unfold canonicalize_consistency_policy in *. repeat (case_match; try done). eauto.
  - intros [?|Hes]; [done|]. unfold apply_overlay_entry. unfold refused in He.
    destruct (one_of _ _); [by apply IH|]. simpl in He.
    destruct (canonicalize_consistency_policy _); [|done].
    destruct (_ && _); by apply IH.
Qed.

Lemma record_key_In w row : working_ok w → In row (bt_values w) ↔ bt_get (projected_key row) w = Some row.
Proof.
  intros [Hs Hf]. unfold bt_values. rewrite in_map_iff. split.
  - intros ([k r] & [= ->] & Hin). pose proof Hin as Hin'.
    rewrite List.Forall_forall in Hf. apply Hf in Hin'. simpl in Hin'. subst k.
    by apply bt_In_get.
  - intros H. apply bt_get_Some_In in H. by exists (projected_key row, row).
Qed.

(** ** Lemmas: decimal revisions *)

Lemma normalize_canonical s :
  normalize_decimal s = if canonical_decimal s then s else "0".
Proof.
  unfold normalize_decimal, canonical_decimal.
  case_bool_decide as E0; [by subst s|]. simpl.
  destruct s as [|c s]; [done|]. unfold len.
  destruct (starts_with "0" (String c s)) eqn:Hz; simpl; rewrite ?andb_false_r; simpl;
    [|by destruct (all_bytes _ _)].
  destruct s as [|c' s]; simpl.
  - simpl in Hz. apply bool_decide_eq_true in Hz as ->. done.
  - replace (1 <? N.of_nat (S (S (String.length s)))) with true; [done|].
    symmetry. apply N.ltb_lt. lia.
Qed.

Lemma normalize_is_canonical s : canonical_decimal (normalize_decimal s) = true.
Proof. rewrite normalize_canonical. by destruct (canonical_decimal s) eqn:E. Qed.

Lemma decimal_of_normalize s : decimal_of (normalize_decimal s) = decimal_value s.
Proof. rewrite normalize_canonical. unfold decimal_value. by destruct (canonical_decimal s). Qed.

Lemma compare_decimal_value l r :
  compare_decimal l r = N.compare (decimal_value l) (decimal_value r).
Proof.
  unfold compare_decimal.
  rewrite <- !decimal_of_normalize, <- canonical_cmp by apply normalize_is_canonical.
  unfold len, str_cmp. rewrite !length_bytes. by rewrite N2Nat.inj_compare, !Nat2N.id.
Qed.

Lemma remote_pick_cases w c :
  (remote_pick w c = w ∧ decimal_value (br_revision c) ≤ decimal_value (br_revision w) ∧
     (decimal_value (br_revision c) = decimal_value (br_revision w) →
      str_lt (identity_key c) (identity_key w) = false)) ∨
  (remote_pick w c = c ∧ decimal_value (br_revision w) ≤ decimal_value (br_revision c) ∧
     (decimal_value (br_revision c) = decimal_value (br_revision w) →
      str_lt (identity_key c) (identity_key w) = true)).
Proof.
  unfold remote_pick. rewrite compare_decimal_value.
  destruct (N.compare_spec (decimal_value (br_revision c)) (decimal_value (br_revision w))).
  - destruct (str_lt _ _) eqn:E; [right|left]; split_and!; (done || lia).
  - left. split_and!; (done || lia).
  - right. split_and!; (done || lia).
Qed.

Lemma str_lt_spec a b : str_lt a b = true ↔ str_cmp a b = Lt.
Proof. unfold str_lt. by destruct (str_cmp a b). Qed.

(** "Not below in the tie order" composes: needed to carry the winner along. *)
Lemma str_lt_not_trans a b c : str_lt b a = true → str_lt c a = false → str_lt c b = true → False.
Proof.
  rewrite !str_lt_spec. intros H1 H2 H3. pose proof (str_cmp_trans Lt _ _ _ H3 H1) as H.
  unfold str_lt in H2. by rewrite H in H2.
Qed.

Lemma dominates_refl w : dominates w w.
Proof. split; [lia|]. intros _. unfold str_lt. by rewrite str_cmp_refl. Qed.

Lemma remote_pick_dominates w c :
  dominates (remote_pick w c) c ∧ ∀ r, dominates w r → dominates (remote_pick w c) r.
Proof.
  destruct (remote_pick_cases w c) as [(-> & Hle & Ht)|(-> & Hle & Ht)]; split; try done.
  - apply dominates_refl.
  - intros r [Hr Hrt]. split; [lia|]. intros E.
    destruct (str_lt (identity_key r) (identity_key c)) eqn:Hlt; [exfalso|done].
    eapply str_lt_not_trans; [apply Ht; lia|apply Hrt; lia|done].
Qed.

Lemma fold_pick_dominates rs w :
  dominates (fold_left remote_pick rs w) w ∧
  Forall (dominates (fold_left remote_pick rs w)) rs.
Proof.
  cut (∀ r, dominates w r → dominates (fold_left remote_pick rs w) r ∧
            Forall (dominates (fold_left remote_pick rs w)) rs).
  { intros H. apply H, dominates_refl. }
  revert w. induction rs as [|c rs IH]; intros w r Hr; simpl; [done|].
  destruct (remote_pick_dominates w c) as [Hc Hw].
  destruct (IH _ _ Hc) as [Hc' Hall]. split; [by apply IH, Hw|by constructor].
Qed.

(** ** Lemmas: payload normal forms *)

Lemma sort_value_wf v : json_wf v → sort_value v = v.
Proof.
  induction v as [| | | |l IH|m IH] using json_nested_ind; try done; simpl.
  - intros H. f_equal. induction IH as [|x l Hx _ IHl]; simpl in *; [done|].
    destruct H as [Hx' H]. by rewrite Hx, IHl.
  - intros [Hs H]. f_equal.
    assert (List.map (λ kv, (kv.1, sort_value kv.2)) m = m) as ->.
    { clear Hs. induction IH as [|[k x] m Hx _ IHm]; simpl in *; [done|].
      destruct H as [Hx' H]. by rewrite Hx, IHm. }
    clear IH H. apply bt_ext; [apply bt_sorted_of_list|done|]. intros k.
    apply bt_of_list_get; done.
Qed.

Lemma stable_json_null `{SerdeJsonLaws} p :
  json_wf (payload_or_null p) → payload_or_null p ≠ JNull →
  stable_json p = to_text (payload_or_null p).
Proof.
  intros Hwf Hn. destruct p as [v|]; [|done]. simpl in *.
  rewrite <- (sort_value_wf v) at 2 by done. by destruct v.
Qed.

Lemma stable_json_eq `{SerdeJsonLaws} p q :
  json_wf (payload_or_null p) → json_wf (payload_or_null q) →
  stable_json p = stable_json q ↔ payload_or_null p = payload_or_null q.
Proof.
  intros Hp Hq.
  assert (∀ r, json_wf (payload_or_null r) → stable_json r = to_text (payload_or_null r)) as E.
  { intros r Hr. destruct (decide (payload_or_null r = JNull)) as [Hn|Hn].
    - rewrite Hn, to_text_null. destruct r as [[]|]; by simplify_eq/=.
    - by apply stable_json_null. }
  rewrite !E by done. split; [by apply to_text_inj|by intros ->].
Qed.

Lemma stable_json_total `{SerdeJsonLaws} p : json_wf (payload_or_null p) → is_Some (stable_json p).
Proof.
  intros Hwf. unfold stable_json. destruct p as [[]|]; eauto using to_text_total.
Qed.

(** ** Lemmas: the rows come out strictly sorted *)

Lemma row_cmp_antisym a b : row_cmp b a = CompOpp (row_cmp a b).
Proof.
  unfold row_cmp. rewrite (str_cmp_antisym (pr_table a)), (str_cmp_antisym (pr_record_id a)).
  by destruct (str_cmp (pr_table a) (pr_table b)).
Qed.

Lemma row_cmp_trans a b c : row_cmp a b ≠ Gt → row_cmp b c ≠ Gt → row_cmp a c ≠ Gt.
Proof.
  unfold row_cmp. intros H1 H2.
  destruct (str_cmp (pr_table a) (pr_table b)) eqn:E1; try done;
    destruct (str_cmp (pr_table b) (pr_table c)) eqn:E2; try done.
  - rewrite (str_cmp_trans _ _ _ _ E1 E2).
    destruct (str_cmp (pr_record_id a) (pr_record_id b)) eqn:F1; try done;
      destruct (str_cmp (pr_record_id b) (pr_record_id c)) eqn:F2; try done.
    + by rewrite (str_cmp_trans _ _ _ _ F1 F2).
    + apply str_cmp_eq in F1 as ->. by rewrite F2.
    + apply str_cmp_eq in F2 as <-. by rewrite F1.
    + by rewrite (str_cmp_trans _ _ _ _ F1 F2).
  - apply str_cmp_eq in E1 as ->. by rewrite E2.
  - apply str_cmp_eq in E2 as <-. by rewrite E1.
  - by rewrite (str_cmp_trans _ _ _ _ E1 E2).
Qed.

Lemma row_cmp_Eq a b : row_cmp a b = Eq → projected_key a = projected_key b.
Proof.
  unfold row_cmp, projected_key. destruct (str_cmp (pr_table a) (pr_table b)) eqn:E; try done.
  apply str_cmp_eq in E as ->. intros ->%str_cmp_eq. done.
Qed.

Lemma working_keys_NoDup w : working_ok w → NoDup (List.map projected_key (bt_values w)).
Proof.
  intros [Hs Hf]. unfold bt_values. rewrite List.map_map.
  induction w as [|[k r] w IH]; simpl; [constructor|].
  apply Forall_cons in Hf as [Hk Hf]. simpl in Hk. constructor.
  - rewrite <- In_elem, in_map_iff. intros ([k' r'] & E & Hin). simpl in E.
    rewrite List.Forall_forall in Hf. pose proof (Hf _ Hin) as Hk'. simpl in Hk'.
    pose proof (bt_sorted_head _ _ _ _ _ Hs Hin) as H.
    rewrite Hk, Hk', E, str_cmp_refl in H. done.
  - apply IH; [by eapply bt_sorted_tail|done].
Qed.

Lemma sorted_rows w :
  working_ok w → StronglySorted (λ a b, row_cmp a b = Lt) (sort_by row_cmp (bt_values w)).
Proof.
  intros Hw. pose proof (working_keys_NoDup w Hw) as Hnd.
  rewrite <- (sort_by_perm row_cmp (bt_values w)) in Hnd.
  pose proof (sort_by_sorted row_cmp row_cmp_antisym row_cmp_trans (bt_values w)) as Hs.
  induction Hs as [|r l Hl IH Hall]; [constructor|].
  simpl in Hnd. apply NoDup_cons in Hnd as [Hni Hnd]. constructor; [by apply IH|].
  rewrite List.Forall_forall in *. intros r' Hin. specialize (Hall r' Hin). simpl in Hall.
  destruct (row_cmp r r') eqn:E; try done. exfalso. apply Hni.
  rewrite (row_cmp_Eq _ _ E), <- In_elem. by apply in_map.
Qed.

Lemma In_sorted_rows w row :
  working_ok w →
  In row (sort_by row_cmp (bt_values w)) ↔ bt_get (projected_key row) w = Some row.
Proof.
  intros Hw. rewrite <- record_key_In by done. rewrite !In_elem.
  by rewrite (sort_by_perm row_cmp (bt_values w)).
Qed.

(** ** Closed examples used by the witnesses *)

Definition example_intent (policy : string) (payload : option json) (base : option string)
  : MutationIntent :=
  {| mi_client_id := "device-a"; mi_mutation_id := "7"; mi_table := "docs"; mi_record_id := "r1";
     mi_operation := "upsert"; mi_payload := payload; mi_base_revision := base;
     mi_resurrect := false; mi_consistency_policy := policy |}.

Definition example_row (id revision writer : string) : BaseRow :=
  {| br_table := "docs"; br_record_id := id; br_revision := revision; br_operation := "upsert";
     br_payload := None;
     br_identity := Some {| pi_client_id := "c"; pi_mutation_id := writer |};
     br_arrival_seq := None |}.

(** ** Properties *)

(** C5: for every input, [reconcile_read_model] never panics.  It fails exactly
    when a non-acknowledged overlay entry carries an unknown policy; otherwise
    the rows it returns are strictly sorted by (table, record id), and a row is
    returned exactly when it is what [spec_record] prescribes for its record. *)
Theorem reconcile_read_model_correct input :
  match reconcile_read_model input with
  | None => False
  | Some (Err e) =>
      existsb (refused (acknowledged_mutation_ids input)) (overlay input) = true ∧
      ∃ p, e = UnknownPolicy p
  | Some (Ok rows) =>
      existsb (refused (acknowledged_mutation_ids input)) (overlay input) = false ∧
      StronglySorted (λ a b, row_cmp a b = Lt) rows ∧
      ∀ row, In row rows ↔ spec_record input (projected_key row) = Some row
  end.
Proof.
  unfold reconcile_read_model. destruct (remote_phase_spec input) as (w & Hw & Hok & Hget).
  destruct (existsb _ (overlay input)) eqn:Hr.
  - rewrite Hw. simpl.
    destruct (apply_overlays_refused _ _ w Hr) as [p ->]. by eauto.
  - rewrite Hw. simpl. destruct (apply_overlays_spec _ _ w Hok Hr) as (f & -> & Hf & Hq).
    split; [done|]. split; [by apply sorted_rows|]. intros row.
    by rewrite (In_sorted_rows f row Hf), Hq, Hget.
Qed.

(** Among the remote rows of one record the code elects one of them that no
    other row exceeds: its revision is numerically maximal (malformed revisions
    count as 0) and no row of equal revision has a smaller mutation id. *)
Theorem select_remote_winner_maximal rows w :
  select_remote_winner rows = Some w → In w rows ∧ ∀ r, In r rows → dominates w r.
Proof.
  intros H. split; [by apply winner_in_group|].
  destruct rows as [|r0 rs]; [done|]. injection H as <-.
  destruct (fold_pick_dominates rs r0) as [H0 Hall]. rewrite List.Forall_forall in Hall.
  intros r [<-|Hin]; auto.
Qed.

Lemma select_remote_winner_maximal_witness :
  dominates (example_row "r1" "10" "3") (example_row "r1" "10" "4").
Proof.
  apply (select_remote_winner_maximal
    [example_row "r1" "9" "1"; example_row "r1" "10" "4"; example_row "r1" "10" "3"]);
    [reflexivity|right; left; reflexivity].
Defined.

(** Revisions are compared as numbers: on any two strings the length-then-bytes
    comparison of the code is the order of the naturals they denote, whatever
    their magnitude, a malformed string counting as 0. *)
Theorem compare_decimal_numeric left right :
  compare_decimal left right = N.compare (decimal_value left) (decimal_value right).
Proof. apply compare_decimal_value. Qed.

(** The payload comparison by canonical text is the comparison of payloads. *)
Lemma assert_frozen_iff `{SerdeJsonLaws} existing proposed :
  json_wf (payload_or_null (mi_payload existing)) →
  json_wf (payload_or_null (mi_payload proposed)) →
  is_Some (assert_queued_intent_frozen existing proposed) ∧
  (assert_queued_intent_frozen existing proposed = Some (Ok ()) ↔ same_intent existing proposed).
Proof.
  intros He Hp. pose proof (stable_json_eq _ _ He Hp) as Heq.
  unfold assert_queued_intent_frozen, same_intent.
  destruct (canonicalize_consistency_policy (mi_consistency_policy existing)) as [pe|];
    [|split; [by eauto|naive_solver]].
  destruct (canonicalize_consistency_policy (mi_consistency_policy proposed)) as [pp|];
    [|split; [by eauto|naive_solver]].
  destruct (stable_json_total _ He) as [te Hte]. destruct (stable_json_total _ Hp) as [tp Htp].
  rewrite Hte, Htp in *. simpl.
  destruct (same_intent_fields existing proposed pe pp) eqn:Hf.
  - split; [by eauto|]. unfold same_intent_fields in Hf. bsimp.
    case_bool_decide; naive_solver.
  - split; [by eauto|]. split; [done|]. intros Hs. exfalso.
    enough (same_intent_fields existing proposed pe pp = true) by congruence.
    unfold same_intent_fields. bsimp. naive_solver.
Qed.

(** A queued intent is frozen.  For decoded payloads the check never panics
    and accepts a proposal exactly when every field is unchanged, policies being
    compared up to their aliases and payloads as JSON values. *)
Theorem frozen_intent_iff `{SerdeJsonLaws} existing proposed :
  json_wf (payload_or_null (mi_payload existing)) →
  json_wf (payload_or_null (mi_payload proposed)) →
  is_Some (assert_queued_intent_frozen existing proposed) ∧
  (assert_queued_intent_frozen existing proposed = Some (Ok ()) ↔ same_intent existing proposed).
Proof. apply assert_frozen_iff. Qed.

Lemma frozen_intent_iff_witness :
  @assert_queued_intent_frozen reference_codec
    (example_intent "local-first" (Some (JObject [("a", JNull)])) None)
    (example_intent WRITE_THROUGH_LOCAL_FIRST (Some (JObject [("a", JNull)])) (Some "")) = Some (Ok ()).
Proof.
  apply (@frozen_intent_iff reference_codec reference_codec_laws);
    [repeat constructor|repeat constructor|].
  repeat split. exists WriteThroughLocalFirst. split; reflexivity.
Defined.

(** No policy claims remote coverage it does not have.  An outcome covers
    mutation ids only when it is confirmed, rejected or transformed, and then
    the policy is not queued-local-first and the network result was neither a
    cancellation, nor no attempt, nor a lost response. *)
Theorem outcome_covers_only_settled policy network covered o :
  outcome_for_network policy network covered = Ok o →
  (co_status o = "confirmed" ∨ co_status o = "rejected" ∨ co_status o = "transformed") ∧
    co_covered_mutation_ids o = covered ∧ co_consistency_policy o ≠ QueuedLocalFirst ∧
    network ≠ "cancelled" ∧ network ≠ "not-attempted" ∧ network ≠ "response-lost"
  ∨ (co_status o = "pending" ∨ co_status o = "cancelled" ∨ co_status o = "ambiguous") ∧
    co_covered_mutation_ids o = [].
Proof.
  unfold outcome_for_network. destruct (canonicalize_consistency_policy policy); [|done].
  repeat case_bool_decide; intros [= <-]; simpl; naive_solver.
Qed.

Lemma outcome_covers_only_settled_witness :
  ∃ o, outcome_for_network "strict" "response-lost" ["1"] = Ok o ∧ co_covered_mutation_ids o = [].
Proof.
  eexists; split; [reflexivity|].
  destruct (outcome_covers_only_settled "strict" "response-lost" ["1"] _ eq_refl)
    as [(_ & _ & _ & _ & _ & H)|[_ H]]; [exfalso; apply H; reflexivity|exact H].
Defined.
