(* ===== verification/Protocol.v ===== *)
(** * Protocol: protocol v1 types and the durable mutation queue

    Models [clients/rust/src/protocol.rs].  A method that takes [&mut self]
    returns the new queue beside its result, so what an error path leaves behind
    is part of the model. *)

From S2P Require Import Prelude Text Decimal Btree Json JsonCodec Consistency.

Definition MAX_I64 : N := 9223372036854775807.
Definition DEFAULT_MAX_PENDING_MUTATIONS : N := 10000.
Definition DEFAULT_MAX_QUEUED_PAYLOAD_BYTES : N := 255 * 1024.

Definition valid_push_limit (limit : N) : bool := (1 <=? limit) && (limit <=? 100).
Definition can_allocate_mutation_id (next : N) : bool := (1 <=? next) && (next <=? MAX_I64).
Definition watermark_is_valid (watermark next : N) : bool := watermark <? next.

Inductive ProtocolError :=
| EmptyClientId | InvalidLimit | InvalidQueueLimit | InvalidPayload | InvalidTarget
| InvalidQueueState | QueueFull | PayloadTooLarge | MutationIdExhausted | WrongClient
| InvalidAcknowledgement | InvalidDecimal | InvalidSnapshot | WatermarkAhead.

#[export] Instance ProtocolError_eq_dec : EqDecision ProtocolError.
Proof. solve_decision. Defined.

Inductive Operation := Upsert | Delete.
#[export] Instance Operation_eq_dec : EqDecision Operation.
Proof. solve_decision. Defined.

Inductive LocalProtocolStatus := Pending | Confirmed.
#[export] Instance LocalProtocolStatus_eq_dec : EqDecision LocalProtocolStatus.
Proof. solve_decision. Defined.

Record ProtocolMutation := {
  mutation_id : string;
  operation : Operation;
  table : string;
  record_id : string;
  payload : option json;
  base_revision : option string;
  resurrect : bool;
  status : LocalProtocolStatus
}.
#[export] Instance ProtocolMutation_eq_dec : EqDecision ProtocolMutation.
Proof. solve_decision. Defined.

Record PushRequest := {
  req_protocol_version : N;
  req_client_id : string;
  req_mutations : list ProtocolMutation
}.

Inductive ResultStatus := Applied | Duplicate | Rejected.
#[export] Instance ResultStatus_eq_dec : EqDecision ResultStatus.
Proof. solve_decision. Defined.

Record MutationResult := {
  res_mutation_id : string;
  res_status : ResultStatus;
  res_original_status : option ResultStatus;
  res_checkpoint : option string;
  res_revision : option string;
  res_code : option string;
  res_message : option string
}.

Record PushResponse := {
  resp_protocol_version : N;
  resp_client_id : string;
  resp_last_mutation_id : string;
  resp_checkpoint : string;
  resp_results : list MutationResult
}.

Record ChangeSource := { src_client_id : string; src_mutation_id : string }.

Record Change := {
  ch_checkpoint : string;
  ch_table : string;
  ch_record_id : string;
  ch_operation : Operation;
  ch_record : option json;
  ch_revision : string;
  ch_source : option ChangeSource
}.

Record PullResponse := {
  pull_protocol_version : N;
  pull_checkpoint : string;
  pull_has_more : bool;
  pull_changes : list Change
}.

Record SnapshotRecord := {
  snap_table : string;
  snap_record_id : string;
  snap_record : json;
  snap_revision : string
}.

Record SnapshotResponse := {
  snap_protocol_version : N;
  snap_checkpoint : string;
  snap_records : list SnapshotRecord
}.

Inductive SnapshotInstallError (E : Type) :=
| SnapshotProtocol (e : ProtocolError)
| SnapshotReplace (e : E).
Arguments SnapshotProtocol {E} e.
Arguments SnapshotReplace {E} e.

Record ProtocolQueue := {
  client_id : string;
  next_mutation_id : N;
  checkpoint : string;
  mutations : list ProtocolMutation;
  max_pending_mutations : N;
  max_queued_payload_bytes : N;
  consistency_policies : bmap string
}.
#[export] Instance ProtocolQueue_eq_dec : EqDecision ProtocolQueue.
Proof. solve_decision. Defined.

(** Field assignments. *)
Definition set_status (s : LocalProtocolStatus) (m : ProtocolMutation) : ProtocolMutation :=
  {| mutation_id := mutation_id m; operation := operation m; table := table m;
     record_id := record_id m; payload := payload m; base_revision := base_revision m;
     resurrect := resurrect m; status := s |}.
Definition set_mutation_id (id : string) (m : ProtocolMutation) : ProtocolMutation :=
  {| mutation_id := id; operation := operation m; table := table m;
     record_id := record_id m; payload := payload m; base_revision := base_revision m;
     resurrect := resurrect m; status := status m |}.
Definition set_mutations (ms : list ProtocolMutation) (q : ProtocolQueue) : ProtocolQueue :=
  {| client_id := client_id q; next_mutation_id := next_mutation_id q;
     checkpoint := checkpoint q; mutations := ms;
     max_pending_mutations := max_pending_mutations q;
     max_queued_payload_bytes := max_queued_payload_bytes q;
     consistency_policies := consistency_policies q |}.
Definition set_next_mutation_id (n : N) (q : ProtocolQueue) : ProtocolQueue :=
  {| client_id := client_id q; next_mutation_id := n;
     checkpoint := checkpoint q; mutations := mutations q;
     max_pending_mutations := max_pending_mutations q;
     max_queued_payload_bytes := max_queued_payload_bytes q;
     consistency_policies := consistency_policies q |}.
Definition assign_checkpoint (c : string) (q : ProtocolQueue) : ProtocolQueue :=
  {| client_id := client_id q; next_mutation_id := next_mutation_id q;
     checkpoint := c; mutations := mutations q;
     max_pending_mutations := max_pending_mutations q;
     max_queued_payload_bytes := max_queued_payload_bytes q;
     consistency_policies := consistency_policies q |}.
Definition set_policies (p : bmap string) (q : ProtocolQueue) : ProtocolQueue :=
  {| client_id := client_id q; next_mutation_id := next_mutation_id q;
     checkpoint := checkpoint q; mutations := mutations q;
     max_pending_mutations := max_pending_mutations q;
     max_queued_payload_bytes := max_queued_payload_bytes q;
     consistency_policies := p |}.

(** ** Identifiers and decimals *)

Definition scope_byte (b : ascii) : bool :=
  is_ascii_alphanumeric b || (b == "."%char) || (b == "_"%char) || (b == ":"%char) || (b == "-"%char).

Definition valid_scope_id (value : string) : bool :=
  match bytes value with
  | [] => false
  | first :: rest =>
      (len value <=? 128) && is_ascii_alphanumeric first && forallb scope_byte rest
  end.

Definition valid_record_id (value : string) : bool :=
  negb (is_empty value) && (chars_count value <=? 512).

Definition parse_decimal (value : string) : result N ProtocolError :=
  if is_empty value
     || (1 <? len value) && starts_with "0" value
     || negb (all_bytes is_ascii_digit value)
  then Err InvalidDecimal
  else ok_or (parse_u64 value) InvalidDecimal.

(** ** Queue operations *)

Definition with_limits (cid : string) (max_pending max_bytes : N)
  : result ProtocolQueue ProtocolError :=
  if is_empty cid then Err EmptyClientId
  else if negb (valid_scope_id cid) then Err InvalidTarget
  else if (max_pending =? 0) || (max_bytes <? 2) then Err InvalidQueueLimit
  else Ok {| client_id := cid; next_mutation_id := 1; checkpoint := "0"; mutations := [];
             max_pending_mutations := max_pending; max_queued_payload_bytes := max_bytes;
             consistency_policies := [] |}.

Definition new (cid : string) : result ProtocolQueue ProtocolError :=
  with_limits cid DEFAULT_MAX_PENDING_MUTATIONS DEFAULT_MAX_QUEUED_PAYLOAD_BYTES.

Definition is_pending (m : ProtocolMutation) : bool := status m == Pending.
Definition is_confirmed (m : ProtocolMutation) : bool := status m == Confirmed.

Definition all (q : ProtocolQueue) : list ProtocolMutation := mutations q.
Definition pending (q : ProtocolQueue) : list ProtocolMutation :=
  List.filter is_pending (mutations q).

Definition count {A} (l : list A) : N := N.of_nat (length l).

Definition valid_snapshot_record (entry : SnapshotRecord) : bool :=
  valid_scope_id (snap_table entry)
  && valid_record_id (snap_record_id entry)
  && is_object (snap_record entry)
  && match parse_decimal (snap_revision entry) with Ok r => 0 <? r | Err _ => false end.

(** [install_snapshot]; the callback acts on a store [w]. *)
Definition install_snapshot {W E : Type} (q : ProtocolQueue) (snapshot : SnapshotResponse)
    (replace_authoritative : list SnapshotRecord → W → W * result unit E) (w : W)
  : ProtocolQueue * W * result unit (SnapshotInstallError E) :=
  if negb (snap_protocol_version snapshot =? 1)
     || is_err (parse_decimal (snap_checkpoint snapshot))
     || negb (forallb valid_snapshot_record (snap_records snapshot))
  then (q, w, Err (SnapshotProtocol InvalidSnapshot))
  else match replace_authoritative (snap_records snapshot) w with
       | (w', Err e) => (q, w', Err (SnapshotReplace e))
       | (w', Ok _) => (assign_checkpoint (snap_checkpoint snapshot) q, w', Ok ())
       end.

(** The private [queue]: limits first, then the id, then the append. *)
Definition queue (q : ProtocolQueue) (mutation : ProtocolMutation) (payload_bytes : N)
  : ProtocolQueue * result string ProtocolError :=
  if max_queued_payload_bytes q <? payload_bytes then (q, Err PayloadTooLarge)
  else if max_pending_mutations q <=? count (pending q) then (q, Err QueueFull)
  else if negb (can_allocate_mutation_id (next_mutation_id q)) then (q, Err MutationIdExhausted)
  else
    let id := to_dec (next_mutation_id q) in
    match checked_add_u64 (next_mutation_id q) 1 with
    | None => (q, Err MutationIdExhausted)
    | Some next =>
        (set_policies (bt_or_insert id WRITE_THROUGH_LOCAL_FIRST (consistency_policies q))
           (set_mutations (mutations q ++ [set_mutation_id id mutation])
              (set_next_mutation_id next q)), Ok id)
    end.

Section Codec.
Context `{SerdeJson}.

Definition queue_upsert (q : ProtocolQueue) (tbl rid : string) (value : json)
    (base : option string) (resurrect : bool) : ProtocolQueue * result string ProtocolError :=
  if negb (valid_scope_id tbl) || negb (valid_record_id rid) then (q, Err InvalidTarget)
  else if negb (is_object value) then (q, Err InvalidPayload)
  else match to_text value with
       | None => (q, Err InvalidPayload)
       | Some text =>
           queue q {| mutation_id := ""; operation := Upsert; table := tbl; record_id := rid;
                      payload := Some value; base_revision := base;
                      resurrect := resurrect; status := Pending |} (len text)
       end.

Definition queue_delete (q : ProtocolQueue) (tbl rid : string) (base : option string)
  : ProtocolQueue * result string ProtocolError :=
  if negb (valid_scope_id tbl) || negb (valid_record_id rid) then (q, Err InvalidTarget)
  else queue q {| mutation_id := ""; operation := Delete; table := tbl; record_id := rid;
                  payload := None; base_revision := base; resurrect := false;
                  status := Pending |} 2.

Definition record_policy (policy : ConsistencyPolicy)
    (r : ProtocolQueue * result string ProtocolError)
  : ProtocolQueue * result string ProtocolError :=
  match r with
  | (q, Ok id) =>
      (set_policies (bt_insert id (policy_as_str policy) (consistency_policies q)) q, Ok id)
  | (q, Err e) => (q, Err e)
  end.

Definition queue_upsert_with_consistency (q : ProtocolQueue) (tbl rid : string) (value : json)
    (base : option string) (resurrect : bool) (policy : ConsistencyPolicy)
  : ProtocolQueue * result string ProtocolError :=
  record_policy policy (queue_upsert q tbl rid value base resurrect).

Definition queue_delete_with_consistency (q : ProtocolQueue) (tbl rid : string)
    (base : option string) (policy : ConsistencyPolicy)
  : ProtocolQueue * result string ProtocolError :=
  record_policy policy (queue_delete q tbl rid base).

Definition consistency_policy (q : ProtocolQueue) (id : string) : option string :=
  bt_get id (consistency_policies q).

Definition operation_name (o : Operation) : string :=
  match o with Upsert => "upsert" | Delete => "delete" end.

Definition find_mutation (id : string) (ms : list ProtocolMutation) : option ProtocolMutation :=
  List.find (λ m, mutation_id m == id) ms.

(** [rebind_consistency]; the outer [None] is a panic. *)
Definition rebind_consistency (q : ProtocolQueue) (id : string) (proposed : MutationIntent)
  : option (result unit ConsistencyError) :=
  match find_mutation id (mutations q) with
  | None => Some (Err (FrozenIntent ("queued mutation " +:+ id +:+ " is missing")))
  | Some row =>
      let existing :=
        {| mi_client_id := client_id q; mi_mutation_id := mutation_id row;
           mi_table := table row; mi_record_id := record_id row;
           mi_operation := operation_name (operation row);
           mi_payload := payload row; mi_base_revision := base_revision row;
           mi_resurrect := resurrect row;
           mi_consistency_policy :=
             default WRITE_THROUGH_LOCAL_FIRST (consistency_policy q id) |} in
      match canonicalize_consistency_policy (mi_consistency_policy existing) with
      | Err e => Some (Err e)
      | Ok _ => assert_queued_intent_frozen existing proposed
      end
  end.
End Codec.

Definition prune_confirmed (q : ProtocolQueue) (retain : N) : ProtocolQueue * N :=
  let confirmed := List.filter is_confirmed (mutations q) in
  let drop_count := count confirmed - retain in
  let drop_ids := take (N.to_nat drop_count) (List.map mutation_id confirmed) in
  let kept := List.filter (λ m, negb (one_of (mutation_id m) drop_ids)) (mutations q) in
  (set_mutations kept q, count (mutations q) - count kept).

Definition push_request (q : ProtocolQueue) (limit : N) : result PushRequest ProtocolError :=
  if negb (valid_push_limit limit) then Err InvalidLimit
  else Ok {| req_protocol_version := 1; req_client_id := client_id q;
             req_mutations := take (N.to_nat limit) (pending q) |}.

(** The per-mutation test of [acknowledge]'s [any]. *)
Definition bad_result (sent : ProtocolMutation) (r : MutationResult) : bool :=
  negb (mutation_id sent == res_mutation_id r)
  || is_some_and (res_checkpoint r) (λ v, is_err (parse_decimal v))
  || is_some_and (res_revision r) (λ v,
       match parse_decimal v with Err _ => true | Ok n => n =? 0 end)
  || (res_original_status r == Some Duplicate)
  || (res_status r == Duplicate) && negb (is_some (res_original_status r))
  || negb (res_status r == Duplicate) && is_some (res_original_status r).

Definition bad_acknowledgement (q : ProtocolQueue) (response : PushResponse) (request : PushRequest)
  : bool :=
  negb (req_protocol_version request =? 1)
  || (count (req_mutations request) =? 0)
  || (100 <? count (req_mutations request))
  || negb (req_mutations request == take (length (req_mutations request)) (pending q))
  || negb (resp_protocol_version response =? 1)
  || negb (count (resp_results response) =? count (req_mutations request))
  || match last (req_mutations request) with
     | Some m => negb (resp_last_mutation_id response == mutation_id m)
     | None => true
     end
  || is_err (parse_decimal (resp_checkpoint response))
  || existsb (λ sr, bad_result sr.1 sr.2) (combine (req_mutations request) (resp_results response)).

(** The [try_fold] over [iter_mut]: what was confirmed before an error stays. *)
Fixpoint confirm_through (watermark changed : N) (ms : list ProtocolMutation)
  : list ProtocolMutation * result N ProtocolError :=
  match ms with
  | [] => ([], Ok changed)
  | m :: ms' =>
      match parse_decimal (mutation_id m) with
      | Err e => (m :: ms', Err e)
      | Ok id =>
          if (id <=? watermark) && is_pending m then
            let '(l, r) := confirm_through watermark (changed + 1) ms' in
            (set_status Confirmed m :: l, r)
          else
            let '(l, r) := confirm_through watermark changed ms' in (m :: l, r)
      end
  end.

Definition acknowledge (q : ProtocolQueue) (response : PushResponse) (request : PushRequest)
  : ProtocolQueue * result N ProtocolError :=
  if negb (req_client_id request == client_id q) || negb (resp_client_id response == client_id q)
  then (q, Err WrongClient)
  else if bad_acknowledgement q response request then (q, Err InvalidAcknowledgement)
  else match parse_decimal (resp_last_mutation_id response) with
       | Err e => (q, Err e)
       | Ok watermark =>
           if negb (watermark_is_valid watermark (next_mutation_id q)) then (q, Err WatermarkAhead)
           else let '(ms, r) := confirm_through watermark 0 (mutations q) in
                (set_mutations ms q, r)
       end.

Definition set_checkpoint (q : ProtocolQueue) (c : string)
  : ProtocolQueue * result unit ProtocolError :=
  match parse_decimal c with
  | Err e => (q, Err e)
  | Ok _ => (assign_checkpoint c q, Ok ())
  end.

(** ** Durable validation *)

Section Validate.
Context `{SerdeJson}.

(** The identity and target guards of one step of [validate]'s [try_fold]. *)
Definition bad_row (q : ProtocolQueue) (prior_id id : N) (m : ProtocolMutation) : bool :=
  (id =? 0) || (id <=? prior_id) || (next_mutation_id q <=? id)
  || negb (valid_scope_id (table m)) || negb (valid_record_id (record_id m))
  || is_some_and (base_revision m) (λ r, is_err (parse_decimal r)).

Definition valid_content (q : ProtocolQueue) (m : ProtocolMutation) : bool :=
  match operation m with
  | Upsert =>
      match payload m with
      | Some value =>
          is_object value
          && match to_text value with
             | Some text => len text <=? max_queued_payload_bytes q
             | None => false
             end
      | None => false
      end
  | Delete => negb (is_some (payload m) || resurrect m)
  end.

Fixpoint validate_rows (q : ProtocolQueue) (prior_id pending : N) (ms : list ProtocolMutation)
  : result (N * N) ProtocolError :=
  match ms with
  | [] => Ok (prior_id, pending)
  | m :: ms' =>
      match parse_decimal (mutation_id m) with
      | Err _ => Err InvalidQueueState
      | Ok id =>
          if bad_row q prior_id id m then Err InvalidQueueState
          else if negb (valid_content q m) then Err InvalidQueueState
          else validate_rows q id (if is_pending m then pending + 1 else pending) ms'
      end
  end.

Definition validate (q : ProtocolQueue) : result unit ProtocolError :=
  if negb (valid_scope_id (client_id q))
     || (max_pending_mutations q =? 0)
     || (max_queued_payload_bytes q <? 2)
     || is_err (parse_decimal (checkpoint q))
     || (next_mutation_id q =? 0)
     || (MAX_I64 + 1 <? next_mutation_id q)
  then Err InvalidQueueState
  else
    let? (_, pending) := validate_rows q 0 0 (mutations q) in
    if max_pending_mutations q <? pending then Err InvalidQueueState else Ok ().

(** ** Merging a concurrently committed queue *)

Definition same_immutable_mutation (left right : ProtocolMutation) : bool :=
  (mutation_id left == mutation_id right)
  && (operation left == operation right)
  && (table left == table right)
  && (record_id left == record_id right)
  && (payload left == payload right)
  && (base_revision left == base_revision right)
  && Bool.eqb (resurrect left) (resurrect right).

(** The first loop: rows this clone already holds; an error keeps the rows
    already updated. *)
Fixpoint merge_known (durable ms : list ProtocolMutation)
  : list ProtocolMutation * result unit ProtocolError :=
  match ms with
  | [] => ([], Ok ())
  | m :: ms' =>
      match find_mutation (mutation_id m) durable with
      | None => (m :: ms', Err InvalidQueueState)
      | Some d =>
          if negb (same_immutable_mutation m d) then (m :: ms', Err InvalidQueueState)
          else
            let m' := if is_confirmed d then set_status Confirmed m else m in
            let '(l, r) := merge_known durable ms' in (m' :: l, r)
      end
  end.

(** The second loop: rows appended by the other connection. *)
Fixpoint merge_appended (original_next : N) (mine durable : list ProtocolMutation)
  : list ProtocolMutation * result unit ProtocolError :=
  match durable with
  | [] => (mine, Ok ())
  | d :: durable' =>
      if existsb (λ m, mutation_id m == mutation_id d) mine
      then merge_appended original_next mine durable'
      else match parse_decimal (mutation_id d) with
           | Err e => (mine, Err e)
           | Ok id =>
               if original_next <=? id then merge_appended original_next (mine ++ [d]) durable'
               else if is_pending d then (mine, Err InvalidQueueState)
               else merge_appended original_next mine durable'
           end
  end.

(** [sort_by_key] with the [expect]ed key; [None] is its panic. *)
Fixpoint mutation_keys (ms : list ProtocolMutation) : option (list (N * ProtocolMutation)) :=
  match ms with
  | [] => Some []
  | m :: ms' =>
      match parse_decimal (mutation_id m) with
      | Err _ => None
      | Ok id => match mutation_keys ms' with Some l => Some ((id, m) :: l) | None => None end
      end
  end.

Definition sort_by_mutation_id (ms : list ProtocolMutation) : option (list ProtocolMutation) :=
  match mutation_keys ms with
  | Some keyed => Some (List.map snd (sort_by (λ a b, fst a ?= fst b) keyed))
  | None => if Nat.leb (length ms) 1 then Some ms else None
  end.

(** [merge_concurrent_durable]; the outer [None] is a panic. *)
Definition merge_concurrent_durable (q durable : ProtocolQueue)
  : option (ProtocolQueue * result unit ProtocolError) :=
  match validate q with
  | Err e => Some (q, Err e)
  | Ok _ =>
  match validate durable with
  | Err e => Some (q, Err e)
  | Ok _ =>
  if negb (client_id q == client_id durable)
     || negb (max_pending_mutations q =? max_pending_mutations durable)
     || negb (max_queued_payload_bytes q =? max_queued_payload_bytes durable)
     || (next_mutation_id durable <? next_mutation_id q)
  then Some (q, Err InvalidQueueState)
  else
    match merge_known (mutations durable) (mutations q) with
    | (ms, Err e) => Some (set_mutations ms q, Err e)
    | (ms, Ok _) =>
    match merge_appended (next_mutation_id q) ms (mutations durable) with
    | (ms, Err e) => Some (set_mutations ms q, Err e)
    | (ms, Ok _) =>
    match sort_by_mutation_id ms with
    | None => None
    | Some ms =>
        let q := set_next_mutation_id (next_mutation_id durable) (set_mutations ms q) in
        match parse_decimal (checkpoint durable), parse_decimal (checkpoint q) with
        | Ok theirs, Ok ours =>
            let q := if ours <? theirs then assign_checkpoint (checkpoint durable) q else q in
            Some (q, validate q)
        | Err e, _ => Some (q, Err e)
        | Ok _, Err e => Some (q, Err e)
        end
    end
    end
    end
  end
  end.
End Validate.

(** ** Specification: well-formed queues *)

Definition row_id (m : ProtocolMutation) : N := decimal_of (mutation_id m).

(** A canonical decimal that fits a [u64]. *)
Definition decimal_ok (s : string) : Prop := ∃ n, n ≤ u64_max ∧ s = to_dec n.

Definition content_ok `{SerdeJson} (limit : N) (m : ProtocolMutation) : Prop :=
  match operation m with
  | Upsert => ∃ fields text, payload m = Some (JObject fields) ∧
      to_text (JObject fields) = Some text ∧ len text ≤ limit
  | Delete => payload m = None ∧ resurrect m = false
  end.

Record row_ok `{SerdeJson} (next limit : N) (m : ProtocolMutation) : Prop := {
  row_ok_id : mutation_id m = to_dec (row_id m);
  row_ok_lo : 1 ≤ row_id m;
  row_ok_hi : row_id m < next;
  row_ok_table : valid_scope_id (table m) = true;
  row_ok_record : valid_record_id (record_id m) = true;
  row_ok_base : ∀ r, base_revision m = Some r → decimal_ok r;
  row_ok_content : content_ok limit m
}.

(** What a queue promises: bounded ids below the allocator, strictly increasing,
    every row well-formed, and no more pending rows than the limit. *)
Record queue_ok `{SerdeJson} (q : ProtocolQueue) : Prop := {
  ok_client : valid_scope_id (client_id q) = true;
  ok_max_pending : 1 ≤ max_pending_mutations q;
  ok_max_bytes : 2 ≤ max_queued_payload_bytes q;
  ok_checkpoint : decimal_ok (checkpoint q);
  ok_next : 1 ≤ next_mutation_id q ≤ MAX_I64 + 1;
  ok_rows : Forall (row_ok (next_mutation_id q) (max_queued_payload_bytes q)) (mutations q);
  ok_sorted : StronglySorted N.lt (List.map row_id (mutations q));
  ok_pending : count (pending q) ≤ max_pending_mutations q
}.

(** What a server's answer to one mutation, and to a batch, must look like. *)
Definition result_ok (sent : ProtocolMutation) (r : MutationResult) : Prop :=
  res_mutation_id r = mutation_id sent ∧
  (∀ c, res_checkpoint r = Some c → decimal_ok c) ∧
  (∀ v, res_revision r = Some v → ∃ n, 1 ≤ n ≤ u64_max ∧ v = to_dec n) ∧
  res_original_status r ≠ Some Duplicate ∧
  (res_status r = Duplicate ↔ is_Some (res_original_status r)).

(** The request is the oldest pending rows of [q] and the response answers it. *)
Record acknowledges (q : ProtocolQueue) (response : PushResponse) (request : PushRequest) : Prop := {
  ack_client : req_client_id request = client_id q ∧ resp_client_id response = client_id q;
  ack_version : req_protocol_version request = 1 ∧ resp_protocol_version response = 1;
  ack_size : 1 ≤ count (req_mutations request) ≤ 100;
  ack_batch : req_mutations request = take (length (req_mutations request)) (pending q);
  ack_last : ∃ m, last (req_mutations request) = Some m ∧
                  resp_last_mutation_id response = mutation_id m;
  ack_checkpoint : decimal_ok (resp_checkpoint response);
  ack_results : Forall2 result_ok (req_mutations request) (resp_results response)
}.

(** Equal up to the local status. *)
Definition same_row (m d : ProtocolMutation) : Prop := set_status Pending m = set_status Pending d.

(** When a clone [q] can absorb the durable queue [d]: both well-formed and of one
    client, every row [q] holds is still durable and unchanged, and every pending
    durable row below [q]'s allocator is one [q] holds. *)
Record mergeable `{SerdeJson} (q d : ProtocolQueue) : Prop := {
  mg_mine : queue_ok q;
  mg_durable : queue_ok d;
  mg_client : client_id q = client_id d;
  mg_pending : max_pending_mutations q = max_pending_mutations d;
  mg_bytes : max_queued_payload_bytes q = max_queued_payload_bytes d;
  mg_next : next_mutation_id q ≤ next_mutation_id d;
  mg_known : ∀ m, m ∈ mutations q → ∃ x, x ∈ mutations d ∧ same_row m x;
  mg_unpruned : ∀ x, x ∈ mutations d → status x = Pending → row_id x < next_mutation_id q →
                  ∃ m, m ∈ mutations q ∧ mutation_id m = mutation_id x
}.

(** A row of the clone after the merge: confirmed as soon as either side says so. *)
Definition merge_row (durable : list ProtocolMutation) (m : ProtocolMutation) : ProtocolMutation :=
  match find_mutation (mutation_id m) durable with
  | Some x => if is_confirmed x then set_status Confirmed m else m
  | None => m
  end.

(** Confirming every pending row through a watermark. *)
Definition confirm_upto (watermark : N) (m : ProtocolMutation) : ProtocolMutation :=
  if (row_id m <=? watermark) && is_pending m then set_status Confirmed m else m.

(** The rows after a merge: the clone's own, then those appended since. *)
Definition merged_rows (q d : ProtocolQueue) : list ProtocolMutation :=
  List.map (merge_row (mutations d)) (mutations q) ++
  List.filter (λ x, next_mutation_id q <=? row_id x) (mutations d).

(** The queue a merge produces. *)
Definition merged (q d : ProtocolQueue) : ProtocolQueue :=
  let q' := set_next_mutation_id (next_mutation_id d) (set_mutations (merged_rows q d) q) in
  if decimal_of (checkpoint q) <? decimal_of (checkpoint d)
  then assign_checkpoint (checkpoint d) q' else q'.

(** The public operations as steps between queue states.  Queueing takes base
    revisions that are canonical decimals, as a server hands them out. *)
Definition base_ok (base : option string) : Prop := ∀ r, base = Some r → decimal_ok r.

Inductive queue_step `{SerdeJson} : ProtocolQueue → ProtocolQueue → Prop :=
| step_upsert q q' tbl rid v base res r :
    base_ok base → queue_upsert q tbl rid v base res = (q', r) → queue_step q q'
| step_upsert_policy q q' tbl rid v base res p r :
    base_ok base → queue_upsert_with_consistency q tbl rid v base res p = (q', r) → queue_step q q'
| step_delete q q' tbl rid base r :
    base_ok base → queue_delete q tbl rid base = (q', r) → queue_step q q'
| step_delete_policy q q' tbl rid base p r :
    base_ok base → queue_delete_with_consistency q tbl rid base p = (q', r) → queue_step q q'
| step_prune q retain : queue_step q (prune_confirmed q retain).1
| step_acknowledge q q' response request r :
    acknowledge q response request = (q', r) → queue_step q q'
| step_checkpoint q q' c r : set_checkpoint q c = (q', r) → queue_step q q'
| step_snapshot W E q q' snapshot (f : list SnapshotRecord → W → W * result unit E) w w' r :
    install_snapshot q snapshot f w = (q', w', r) → queue_step q q'
| step_merge q q' d : merge_concurrent_durable q d = Some (q', Ok ()) → queue_step q q'.

(** ** Lemmas *)

Lemma parse_decimal_u64 s : parse_decimal s = ok_or (decimal_u64 s) InvalidDecimal.
Proof.
  unfold parse_decimal, decimal_u64, canonical_decimal.
  destruct (is_empty s || (1 <? len s) && starts_with "0" s || negb (all_bytes is_ascii_digit s));
    done.
Qed.

Lemma parse_decimal_Ok s n : parse_decimal s = Ok n ↔ n ≤ u64_max ∧ s = to_dec n.
Proof.
  rewrite parse_decimal_u64. split.
  - destruct (decimal_u64 s) as [k|] eqn:E; simpl; [|done]. intros [= <-].
    split; [|by apply decimal_u64_canonical]. apply decimal_u64_Some in E. naive_solver.
  - intros [Hn ->]. by rewrite decimal_u64_to_dec.
Qed.

Lemma parse_decimal_Err s e : parse_decimal s = Err e → e = InvalidDecimal.
Proof. rewrite parse_decimal_u64. destruct (decimal_u64 s); simpl; congruence. Qed.

Lemma parse_decimal_to_dec n : n ≤ u64_max → parse_decimal (to_dec n) = Ok n.
Proof. intros. by apply parse_decimal_Ok. Qed.

Lemma parse_decimal_ok_iff s : is_err (parse_decimal s) = false ↔ decimal_ok s.
Proof.
  unfold decimal_ok. split.
  - destruct (parse_decimal s) eqn:E; [|done]. apply parse_decimal_Ok in E. eauto.
  - intros (n & Hn). by apply parse_decimal_Ok in Hn as ->.
Qed.

Lemma i64_u64 : MAX_I64 + 1 ≤ u64_max.
Proof. vm_compute. congruence. Qed.

Lemma count_app {A} (l k : list A) : count (l ++ k) = count l + count k.
Proof. unfold count. rewrite length_app. lia. Qed.

Lemma valid_content_iff `{SerdeJson} q m :
  valid_content q m = true ↔ content_ok (max_queued_payload_bytes q) m.
Proof.
  unfold valid_content, content_ok. destruct (operation m).
  - split.
    + destruct (payload m) as [v|]; [|done]. intros [Ho Ht]%andb_true_iff.
      destruct v; try done. destruct (to_text _) eqn:E; [|done]. bsimp. eauto.
    + intros (f & t & -> & Ht & Hl). simpl. rewrite Ht. by bsimp.
  - destruct (payload m), (resurrect m); simpl; naive_solver.
Qed.

(** One step of [validate]: the identity parses and no guard fires. *)
Lemma row_checks_iff `{SerdeJson} q prior m : next_mutation_id q ≤ MAX_I64 + 1 →
  (∃ id, parse_decimal (mutation_id m) = Ok id ∧ bad_row q prior id m = false ∧
         valid_content q m = true) ↔
  row_ok (next_mutation_id q) (max_queued_payload_bytes q) m ∧ prior < row_id m.
Proof.
  intros Hn. pose proof i64_u64. setoid_rewrite valid_content_iff. split.
  - intros (id & [Hid Hm]%parse_decimal_Ok & Hb & Hc).
    assert (row_id m = id) as Hr by (unfold row_id; by rewrite Hm, decimal_of_to_dec).
    unfold bad_row in Hb. bsimp. split; [|lia]. split; rewrite ?Hr; try done; try lia.
    intros r Hbr. rewrite Hbr in *. simpl in *. by apply parse_decimal_ok_iff.
  - intros [[Hid Hlo Hhi Ht Hrec Hb Hc] Hp]. exists (row_id m).
    split; [|split; [|done]].
    + rewrite Hid at 1. apply parse_decimal_to_dec. lia.
    + unfold bad_row. rewrite Ht, Hrec. destruct (base_revision m) as [r|]; simpl; bsimp.
      * repeat split; try lia. apply parse_decimal_ok_iff. auto.
      * repeat split; try lia.
Qed.

Lemma validate_rows_iff `{SerdeJson} q ms prior p : next_mutation_id q ≤ MAX_I64 + 1 →
  match validate_rows q prior p ms with
  | Ok (_, n) => Some n
  | Err _ => None
  end = Some (p + count (List.filter is_pending ms)) ∧
  Forall (row_ok (next_mutation_id q) (max_queued_payload_bytes q)) ms ∧
  StronglySorted N.lt (prior :: List.map row_id ms)
  ∨ validate_rows q prior p ms = Err InvalidQueueState ∧
    ¬ (Forall (row_ok (next_mutation_id q) (max_queued_payload_bytes q)) ms ∧
       StronglySorted N.lt (prior :: List.map row_id ms)).
Proof.
  intros Hn. revert prior p. induction ms as [|m ms IH]; intros prior p; simpl.
  { left. rewrite N.add_0_r. by repeat constructor. }
  rewrite sorted_cons2, Forall_cons. pose proof (row_checks_iff q prior m Hn) as Hrow.
  destruct (parse_decimal (mutation_id m)) as [id|] eqn:Hid; [|right; naive_solver].
  assert (bad_row q prior id m = true ∨ valid_content q m = false →
          ¬ ((row_ok (next_mutation_id q) (max_queued_payload_bytes q) m ∧
              Forall (row_ok (next_mutation_id q) (max_queued_payload_bytes q)) ms) ∧
             prior < row_id m ∧ StronglySorted N.lt (row_id m :: List.map row_id ms))) as Hno.
  { intros Hbc ((? & _) & ? & _). destruct (proj2 Hrow) as (k & [= <-] & ? & ?); [done|].
    destruct Hbc; congruence. }
  destruct (bad_row q prior id m) eqn:Hb; [right; split; [done|auto]|].
  destruct (valid_content q m) eqn:Hc; [|right; split; [done|auto]]. simpl.
  destruct (proj1 Hrow) as [Hok Hlt]; [eauto|].
  assert (id = row_id m) as ->.
  { unfold row_id. apply parse_decimal_Ok in Hid as [_ ->]. by rewrite decimal_of_to_dec. }
  destruct (IH (row_id m) (if is_pending m then p + 1 else p)) as [(H1 & H2 & H3)|[H1 H2]].
  - left. split; [|done]. rewrite H1. unfold count. destruct (is_pending m); simpl; f_equal; lia.
  - right. naive_solver.
Qed.

Lemma Sorted_N0 (l : list N) :
  Forall (λ n, 1 ≤ n) l → StronglySorted N.lt l → StronglySorted N.lt (0 :: l).
Proof. intros H Hs. constructor; [done|]. eapply Forall_impl; [exact H|]. simpl. lia. Qed.

Lemma validate_iff `{SerdeJson} q : validate q = Ok () ↔ queue_ok q.
Proof.
  unfold validate. split.
  - destruct (_ || _) eqn:Hg; [done|].
    apply orb_false_iff in Hg as [Hg Hnext]. bsimp.
    destruct (validate_rows_iff q (mutations q) 0 0) as [(Hn & Hr & Hs)|[-> _]]; [lia| |done].
    destruct (validate_rows q 0 0 (mutations q)) as [[? n]|]; [|done].
    simplify_eq/=. fold (pending q).
    destruct (N.ltb_spec (max_pending_mutations q) (0 + count (pending q))); [done|]. intros _.
    split; try done; try lia; [by apply parse_decimal_ok_iff|].
    by apply StronglySorted_inv in Hs as [Hs _].
  - intros [Hc Hp Hb Hk Hn Hr Hs Hpend]. apply parse_decimal_ok_iff in Hk.
    rewrite Hc, Hk.
    destruct (validate_rows_iff q (mutations q) 0 0) as [(Hv & _)|[_ Hno]]; [lia| |].
    + destruct (validate_rows q 0 0 (mutations q)) as [[? n]|]; [|done]. simplify_eq/=.
      destruct (_ || _) eqn:Hg; [bsimp; destruct_or?; bsimp; try done; lia|].
      fold (pending q). destruct (N.ltb_spec (max_pending_mutations q) (0 + count (pending q))); [lia|done].
    + exfalso. apply Hno. split; [done|]. apply Sorted_N0; [|done].
      apply Forall_map. eapply Forall_impl; [exact Hr|]. intros m Hm. apply Hm.
Qed.

(** *** Preservation, operation by operation *)

Section Preservation.
Context `{SerdeJson}.
Implicit Types (q d : ProtocolQueue) (m : ProtocolMutation) (ms : list ProtocolMutation).

Lemma row_ok_mono next next' limit m :
  next ≤ next' → row_ok next limit m → row_ok next' limit m.
Proof. intros ? []. split; try done. lia. Qed.

Lemma row_ok_set_status next limit s m : row_ok next limit (set_status s m) ↔ row_ok next limit m.
Proof. split; intros []; by split. Qed.

Lemma row_parse q m : queue_ok q → m ∈ mutations q →
  parse_decimal (mutation_id m) = Ok (row_id m).
Proof.
  intros [_ _ _ _ Hn Hr _ _] Hm. rewrite Forall_forall in Hr. destruct (Hr m Hm) as [Hid _ Hhi].
  rewrite Hid at 1. apply parse_decimal_to_dec. pose proof i64_u64. lia.
Qed.

Lemma row_id_to_dec n m : mutation_id m = to_dec n → row_id m = n.
Proof. intros E. unfold row_id. by rewrite E, decimal_of_to_dec. Qed.

(** Replacing the rows keeps the queue well-formed when ids stay sorted and the
    pending count does not exceed the limit. *)
Lemma set_mutations_ok q ms :
  queue_ok q → Forall (row_ok (next_mutation_id q) (max_queued_payload_bytes q)) ms →
  StronglySorted N.lt (List.map row_id ms) →
  count (List.filter is_pending ms) ≤ max_pending_mutations q →
  queue_ok (set_mutations ms q).
Proof. intros []. by split. Qed.

Lemma assign_checkpoint_ok q c : queue_ok q → decimal_ok c → queue_ok (assign_checkpoint c q).
Proof. intros []. by split. Qed.

Lemma set_policies_ok q p : queue_ok (set_policies p q) ↔ queue_ok q.
Proof. split; intros []; by split. Qed.

Lemma with_limits_ok cid p b q : with_limits cid p b = Ok q → queue_ok q.
Proof.
  unfold with_limits. crack. intros [= <-]. bsimp.
  split; simpl; try done; try lia; [|by constructor..|by apply N.le_0_l].
  exists 0. split; [by apply N.leb_le|reflexivity].
Qed.

(** *** Queueing *)

Lemma queue_ok_inv q m b q' id : queue q m b = (q', Ok id) →
  id = to_dec (next_mutation_id q) ∧ b ≤ max_queued_payload_bytes q ∧
  count (pending q) < max_pending_mutations q ∧
  1 ≤ next_mutation_id q ≤ MAX_I64 ∧
  q' = set_policies (bt_or_insert id WRITE_THROUGH_LOCAL_FIRST (consistency_policies q))
         (set_mutations (mutations q ++ [set_mutation_id id m])
            (set_next_mutation_id (next_mutation_id q + 1) q)).
Proof.
  unfold queue, checked_add_u64, can_allocate_mutation_id. crack. intros [= <- <-]. bsimp.
  repeat split; try done; lia.
Qed.

Lemma queue_err_inv q m b q' e : queue q m b = (q', Err e) →
  q' = q ∧ (e = PayloadTooLarge ∧ max_queued_payload_bytes q < b ∨
            e = QueueFull ∧ max_pending_mutations q ≤ count (pending q) ∨
            e = MutationIdExhausted ∧ can_allocate_mutation_id (next_mutation_id q) = false).
Proof.
  unfold queue, checked_add_u64. crack; intros [= <- <-]; split; try done; bsimp; eauto.
  exfalso. unfold can_allocate_mutation_id in *. pose proof i64_u64. bsimp. lia.
Qed.

(** A queue that allocates for [m] stays well-formed exactly when the stored row
    is well-formed. *)
Lemma queue_preserves q m b q' id : queue_ok q → queue q m b = (q', Ok id) →
  status m = Pending →
  valid_scope_id (table m) = true → valid_record_id (record_id m) = true →
  content_ok (max_queued_payload_bytes q) m →
  queue_ok q' ↔ ∀ r, base_revision m = Some r → decimal_ok r.
Proof.
  intros Hq Hqueue Hst Ht Hrid Hc. apply queue_ok_inv in Hqueue as (-> & _ & Hcnt & Hn & ->).
  rewrite set_policies_ok. set (m' := set_mutation_id _ m).
  assert (row_id m' = next_mutation_id q) as Hid by (by apply row_id_to_dec).
  split.
  - intros [_ _ _ _ _ Hr _ _]. simpl in Hr. apply Forall_app in Hr as [_ Hr].
    rewrite Forall_singleton in Hr. exact (row_ok_base _ _ _ Hr).
  - intros Hb. destruct Hq as [? ? ? ? ? Hr Hs Hp]. split; simpl; try done; try lia.
    + apply Forall_app. split.
      * eapply Forall_impl; [exact Hr|]. intros x. apply row_ok_mono. lia.
      * apply Forall_singleton. split; try done; rewrite Hid; simpl; try lia. done.
    + apply sorted_key_snoc; [done|]. rewrite Hid. eapply Forall_impl; [exact Hr|].
      intros x Hx. apply Hx.
    + unfold pending in *. simpl. rewrite List.filter_app, count_app. cbn [List.filter].
      replace (is_pending m') with true; [unfold count at 2; simpl; lia|].
      symmetry. by apply bool_decide_eq_true.
Qed.

(** *** Acknowledging *)

Lemma confirm_through_eq q w c ms : Forall (λ m, parse_decimal (mutation_id m) = Ok (row_id m)) ms →
  confirm_through w c ms =
    (List.map (confirm_upto w) ms,
     Ok (c + count (List.filter (λ m, row_id m <=? w) (List.filter is_pending ms)))).
Proof.
  intros Hp. revert c. induction Hp as [|m ms Hm _ IH]; intros c; simpl.
  { by rewrite N.add_0_r. }
  rewrite Hm. unfold confirm_upto at 1.
  destruct (is_pending m) eqn:Hpm, (row_id m <=? w) eqn:Hw; simpl; rewrite IH, ?Hw;
    try done.
  do 2 f_equal. unfold count. simpl. lia.
Qed.

Lemma pending_confirm_upto w ms :
  List.filter is_pending (List.map (confirm_upto w) ms) =
  List.filter (λ m, negb (row_id m <=? w)) (List.filter is_pending ms).
Proof.
  induction ms as [|m ms IH]; [done|]. cbn [List.map List.filter].
  unfold confirm_upto at 1. destruct (is_pending m) eqn:Hp, (row_id m <=? w) eqn:Hw; simpl;
    rewrite ?Hp, ?Hw; simpl; rewrite IH; try done.
  unfold confirm_upto. by rewrite Hw, Hp.
Qed.

Lemma row_ids_confirm_upto w ms : List.map row_id (List.map (confirm_upto w) ms) = List.map row_id ms.
Proof.
  rewrite List.map_map. apply List.map_ext. intros m. unfold confirm_upto. by destruct (_ && _).
Qed.

Lemma queue_parses q : queue_ok q →
  Forall (λ m, parse_decimal (mutation_id m) = Ok (row_id m)) (mutations q).
Proof. intros Hq. apply Forall_forall. intros m. by apply row_parse. Qed.

Lemma pending_sorted q : queue_ok q → StronglySorted N.lt (List.map row_id (pending q)).
Proof. intros Hq. apply sorted_key_filter, Hq. Qed.

(** Confirming through the last id of the first [k] pending rows confirms those. *)
Lemma confirm_prefix q k m : queue_ok q → last (take k (pending q)) = Some m →
  confirm_through (row_id m) 0 (mutations q) =
    (List.map (confirm_upto (row_id m)) (mutations q), Ok (count (take k (pending q)))) ∧
  List.filter is_pending (List.map (confirm_upto (row_id m)) (mutations q)) = drop k (pending q).
Proof.
  intros Hq Hl. destruct (sorted_prefix row_id k (pending q) m (pending_sorted q Hq) Hl) as [H1 H2].
  rewrite (confirm_through_eq q) by (by apply queue_parses). rewrite pending_confirm_upto.
  unfold pending in *. rewrite H1, H2. done.
Qed.

Lemma count_filter {A} (p : A → bool) (l : list A) : count (List.filter p l) ≤ count l.
Proof. unfold count. induction l as [|x l IH]; simpl; [lia|]. destruct (p x); simpl; lia. Qed.

Lemma confirm_upto_ok q w : queue_ok q →
  queue_ok (set_mutations (List.map (confirm_upto w) (mutations q)) q).
Proof.
  intros Hq. pose proof Hq as [_ _ _ _ _ Hr Hs Hp]. apply set_mutations_ok; [done| | |].
  - apply Forall_map. eapply Forall_impl; [exact Hr|]. intros m Hm. unfold confirm_upto.
    destruct (_ && _); [by apply row_ok_set_status|done].
  - by rewrite row_ids_confirm_upto.
  - rewrite pending_confirm_upto. pose proof (count_filter (λ m, negb (row_id m <=? w)) (pending q)).
    unfold pending in *. lia.
Qed.

Lemma bad_result_iff m r : bad_result m r = false ↔ result_ok m r.
Proof.
  unfold bad_result, result_ok.
  assert (is_some_and (res_checkpoint r) (λ v, is_err (parse_decimal v)) = false ↔
          ∀ c, res_checkpoint r = Some c → decimal_ok c) as <-.
  { destruct (res_checkpoint r) as [c|]; simpl; [|naive_solver].
    rewrite parse_decimal_ok_iff. naive_solver. }
  assert (is_some_and (res_revision r) (λ v, match parse_decimal v with Err _ => true | Ok n => n =? 0 end)
            = false ↔
          ∀ v, res_revision r = Some v → ∃ n, 1 ≤ n ≤ u64_max ∧ v = to_dec n) as <-.
  { destruct (res_revision r) as [v|]; simpl; [|naive_solver]. split.
    - intros Hn ? [= <-]. destruct (parse_decimal v) as [n|] eqn:E; [|done].
      apply parse_decimal_Ok in E as [? ->]. exists n. bsimp. split; [lia|done].
    - intros Hv. destruct (Hv v eq_refl) as (n & Hn & ->).
      rewrite parse_decimal_to_dec by lia. bsimp. lia. }
  rewrite !orb_false_iff, !andb_false_iff, !negb_false_iff, !bool_decide_eq_true, !bool_decide_eq_false.
  unfold is_Some. destruct (res_original_status r), (res_status r); simpl; naive_solver.
Qed.

Lemma bad_results_iff l k : length k = length l →
  existsb (λ sr, bad_result sr.1 sr.2) (combine l k) = false ↔ Forall2 result_ok l k.
Proof.
  revert k. induction l as [|m l IH]; intros [|r k] Hlen; simplify_eq/=; [split; [constructor|done]|].
  rewrite orb_false_iff, bad_result_iff, IH, Forall2_cons by done. done.
Qed.

Lemma acknowledges_iff q response request :
  (negb (req_client_id request == client_id q) || negb (resp_client_id response == client_id q)
   = false ∧ bad_acknowledgement q response request = false) ↔ acknowledges q response request.
Proof.
  unfold bad_acknowledgement.
  assert (match last (req_mutations request) with
          | Some m => negb (resp_last_mutation_id response == mutation_id m)
          | None => true
          end = false ↔ ∃ m, last (req_mutations request) = Some m ∧
                             resp_last_mutation_id response = mutation_id m) as Hlast.
  { destruct (last (req_mutations request)) as [m|]; [|naive_solver].
    rewrite negb_false_iff, bool_decide_eq_true. naive_solver. }
  rewrite !orb_false_iff, Hlast, parse_decimal_ok_iff, !negb_false_iff, !bool_decide_eq_true,
    !N.eqb_eq, N.eqb_neq, N.ltb_ge. clear Hlast. split.
  - intros (? & ((((((((? & ?) & ?) & ?) & ?) & Hlen) & ?) & ?) & Hres)).
    split; try done; try lia. apply bad_results_iff, Hres.
    unfold count in Hlen. lia.
  - intros [? [] ? ? ? ? Hres]. pose proof (Forall2_length _ _ _ Hres) as Hlen.
    rewrite bad_results_iff by done. unfold count in *. rewrite Hlen in *.
    repeat split; try tauto; try done; lia.
Qed.

(** A batch whose shape matches the queue is confirmed whole. *)
Lemma acknowledge_accepts q response request :
  queue_ok q → acknowledges q response request →
  ∃ m, last (req_mutations request) = Some m ∧
    acknowledge q response request =
      (set_mutations (List.map (confirm_upto (row_id m)) (mutations q)) q,
       Ok (count (req_mutations request))) ∧
    List.filter is_pending (List.map (confirm_upto (row_id m)) (mutations q)) =
      drop (length (req_mutations request)) (pending q).
Proof.
  intros Hq Ha. unfold acknowledge. pose proof Ha as [-> ->]%acknowledges_iff.
  destruct Ha as [_ _ _ Hreq (m & Hl & ->) _ _].
  exists m. split; [done|]. rewrite Hreq in Hl.
  assert (m ∈ mutations q) as Hm.
  { apply last_Some_elem_of, elem_of_take in Hl as (i & Hi & _).
    apply list_elem_of_lookup_2, In_elem, filter_In in Hi as [Hi _]. by apply In_elem. }
  rewrite (row_parse q m Hq Hm).
  assert (row_id m < next_mutation_id q) as Hlt.
  { destruct Hq as [_ _ _ _ _ Hr _ _]. rewrite Forall_forall in Hr. apply Hr, Hm. }
  unfold watermark_is_valid. rewrite (proj2 (N.ltb_lt _ _) Hlt). cbn [negb].
  destruct (confirm_prefix q _ m Hq Hl) as [-> Hdrop]. split; [by rewrite <- Hreq|done].
Qed.

(** The rows confirmed through the last id of the batch are the batch. *)
Lemma confirm_upto_batch q response request m : queue_ok q → acknowledges q response request →
  last (req_mutations request) = Some m →
  Forall2 (λ x x', x' = x ∧ x ∉ req_mutations request
                   ∨ x' = set_status Confirmed x ∧ x ∈ req_mutations request)
    (mutations q) (List.map (confirm_upto (row_id m)) (mutations q)).
Proof.
  intros Hq Ha Hl. pose proof (ack_batch _ _ _ Ha) as Hreq. rewrite Hreq in Hl.
  destruct (sorted_prefix row_id _ _ m (pending_sorted q Hq) Hl) as [Hpre _].
  rewrite <- Hreq in Hpre. apply Forall2_fmap_r, Forall_Forall2_diag, Forall_forall.
  intros x Hx. unfold compose. rewrite <- Hpre, elem_of_filter_bool. unfold pending. rewrite elem_of_filter_bool.
  unfold confirm_upto. destruct (row_id x <=? row_id m), (is_pending x); simpl; naive_solver.
Qed.

(** The rejection branches change nothing. *)
Lemma acknowledge_cases q response request :
  acknowledges q response request ∨
  ¬ acknowledges q response request ∧
  ∃ e, acknowledge q response request = (q, Err e) ∧ (e = WrongClient ∨ e = InvalidAcknowledgement).
Proof.
  rewrite <- acknowledges_iff. unfold acknowledge.
  destruct (_ || _); [naive_solver|].
  destruct (bad_acknowledgement _ _ _); [naive_solver|by left].
Qed.

(** *** Pruning *)

Lemma one_of_true s l : one_of s l = true ↔ s ∈ l.
Proof.
  unfold one_of. rewrite existsb_exists. setoid_rewrite bool_decide_eq_true.
  setoid_rewrite In_elem. naive_solver.
Qed.

Lemma filter_take_drop (f : ProtocolMutation → string) k ms : NoDup (List.map f ms) →
  List.filter (λ m, negb (one_of (f m) (take k (List.map f ms)))) ms = drop k ms.
Proof.
  revert k. induction ms as [|m ms IH]; intros k Hnd; [by destruct k|].
  apply NoDup_cons in Hnd as [Hm Hnd]. destruct k as [|k].
  { apply filter_all, Forall_forall. done. }
  cbn [List.map take drop List.filter].
  rewrite (proj2 (one_of_true (f m) (f m :: _))) by (apply elem_of_cons; by left). cbn [negb].
  rewrite <- (IH k) by done. apply filter_ext_Forall, Forall_forall. intros x Hx.
  f_equal. unfold one_of. simpl. rewrite bool_decide_eq_false_2; [done|].
  intros E. apply Hm. rewrite <- E. by apply list_elem_of_fmap_2.
Qed.

Lemma mutation_ids_NoDup q : queue_ok q → NoDup (List.map mutation_id (mutations q)).
Proof.
  intros [_ _ _ _ _ Hr Hs _]. apply sorted_key_NoDup in Hs.
  replace (List.map mutation_id (mutations q)) with (List.map to_dec (List.map row_id (mutations q))).
  { by apply NoDup_fmap_2; [apply _|]. }
  rewrite List.map_map. clear Hs. induction Hr as [|m ms Hm _ IH]; simpl; [done|].
  rewrite IH. f_equal. symmetry. apply Hm.
Qed.

Lemma mutation_id_inj q m n : queue_ok q → m ∈ mutations q → n ∈ mutations q →
  mutation_id m = mutation_id n → m = n.
Proof.
  intros Hq Hm Hn E. eapply sorted_key_inj; [apply Hq|done|done|]. unfold row_id. by rewrite E.
Qed.

Lemma is_confirmed_negb m : is_confirmed m = negb (is_pending m).
Proof. unfold is_confirmed, is_pending. by destruct (status m). Qed.

Lemma count_confirmed ms : count ms = count (List.filter is_pending ms) + count (List.filter is_confirmed ms).
Proof.
  unfold count. induction ms as [|m ms IH]; [done|]. cbn [List.filter].
  rewrite is_confirmed_negb. destruct (is_pending m); simpl in *; lia.
Qed.

Lemma prune_rows q retain : queue_ok q →
  let confirmed := List.filter is_confirmed (mutations q) in
  let k := N.to_nat (count confirmed - retain) in
  let '(q', n) := prune_confirmed q retain in
  q' = set_mutations (mutations q') q ∧
  List.filter is_pending (mutations q') = pending q ∧
  List.filter is_confirmed (mutations q') = drop k confirmed ∧
  n = count confirmed - retain ∧
  (∃ p, mutations q' = List.filter p (mutations q)).
Proof.
  intros Hq. unfold prune_confirmed. cbn zeta. cbn [mutations set_mutations].
  set (confirmed := List.filter is_confirmed (mutations q)).
  set (k := N.to_nat (count confirmed - retain)).
  set (kept := List.filter _ (mutations q)).
  assert (List.filter is_confirmed kept = drop k confirmed) as Hc.
  { unfold kept. rewrite filter_comm. fold confirmed. apply filter_take_drop.
    pose proof (mutation_ids_NoDup q Hq) as Hnd. unfold confirmed. clear -Hnd.
    induction (mutations q) as [|m ms IH]; [done|]. apply NoDup_cons in Hnd as [Hm Hnd].
    cbn [List.filter]. destruct (is_confirmed m); [|auto]. simpl. constructor; [|auto].
    intros (x & Hx & Hin)%list_elem_of_fmap. apply Hm. rewrite Hx.
    apply elem_of_filter_bool in Hin as [Hin _]. by apply list_elem_of_fmap_2. }
  assert (List.filter is_pending kept = pending q) as Hp.
  { unfold kept. rewrite filter_comm. apply filter_all, Forall_forall. intros m Hm.
    apply elem_of_filter_bool in Hm as [Hm Hpm]. apply negb_true_iff, not_true_iff_false.
    rewrite one_of_true. intros Hin. apply elem_of_take in Hin as (i & Hi & _).
    apply list_elem_of_lookup_2, list_elem_of_fmap in Hi as (x & Hx & Hin).
    apply elem_of_filter_bool in Hin as [Hin Hcx].
    assert (m = x) as -> by (by eapply mutation_id_inj).
    by rewrite is_confirmed_negb, Hpm in Hcx. }
  repeat split; try done; [|by eexists].
  pose proof (count_confirmed (mutations q)) as H1. pose proof (count_confirmed kept) as H2.
  rewrite Hc, Hp in H2. unfold pending in H2. fold confirmed in H1.
  unfold count in *. rewrite length_drop in H2. lia.
Qed.

Lemma prune_preserves q retain : queue_ok q → queue_ok (prune_confirmed q retain).1.
Proof.
  intros Hq. pose proof (prune_rows q retain Hq) as Hp. cbn zeta in Hp.
  destruct (prune_confirmed q retain) as [q' n]. destruct Hp as (Heq & Hp & _ & _ & (p & Hf)).
  cbn [fst]. rewrite Heq. apply set_mutations_ok; [done| | |].
  - rewrite Hf. apply Forall_filter_bool, Hq.
  - rewrite Hf. apply sorted_key_filter, Hq.
  - rewrite Hp. apply Hq.
Qed.

(** *** Merging *)

Lemma same_immutable_iff m x : same_immutable_mutation m x = true ↔ same_row m x.
Proof.
  unfold same_immutable_mutation, same_row, set_status.
  rewrite !andb_true_iff, !bool_decide_eq_true, Bool.eqb_true_iff.
  destruct m, x; simpl. split; [intros; destruct_and?; congruence|].
  intros E. injection E. intros. subst. tauto.
Qed.

Lemma find_mutation_elem id ms x : find_mutation id ms = Some x → x ∈ ms ∧ mutation_id x = id.
Proof.
  unfold find_mutation. intros [Hin Hid]%find_some. apply bool_decide_eq_true in Hid.
  by rewrite <- In_elem.
Qed.

Lemma find_mutation_Some q x : queue_ok q → x ∈ mutations q →
  find_mutation (mutation_id x) (mutations q) = Some x.
Proof.
  intros Hq Hx. destruct (find_mutation (mutation_id x) (mutations q)) as [y|] eqn:E.
  - apply find_mutation_elem in E as [Hy E]. f_equal. by apply (mutation_id_inj q).
  - exfalso. unfold find_mutation in E. eapply find_none in E; [|by apply In_elem].
    by apply bool_decide_eq_false in E.
Qed.

Lemma same_row_id m x : same_row m x → mutation_id m = mutation_id x.
Proof. unfold same_row, set_status. congruence. Qed.

Lemma merge_known_spec d ms : queue_ok d →
  merge_known (mutations d) ms = (List.map (merge_row (mutations d)) ms, Ok ()) ∧
    (∀ m, m ∈ ms → ∃ x, x ∈ mutations d ∧ same_row m x)
  ∨ (merge_known (mutations d) ms).2 = Err InvalidQueueState ∧
    ¬ (∀ m, m ∈ ms → ∃ x, x ∈ mutations d ∧ same_row m x).
Proof.
  intros Hd. induction ms as [|m ms IH]; [left; split; [done|by intros m ?%not_elem_of_nil]|].
  cbn [merge_known List.map]. unfold merge_row at 1.
  destruct (find_mutation (mutation_id m) (mutations d)) as [x|] eqn:Hf.
  - pose proof (find_mutation_elem _ _ _ Hf) as [Hx _].
    destruct (same_immutable_mutation m x) eqn:Hs; cbn [negb].
    + apply same_immutable_iff in Hs. destruct IH as [[-> IH]|[Hr IH]]; [left|right].
      * split; [done|]. intros y [->|Hy]%elem_of_cons; eauto.
      * destruct (merge_known (mutations d) ms). split; [done|]. intros Hall. apply IH.
        intros y Hy. apply Hall, elem_of_cons. by right.
    + right. split; [done|]. intros Hall.
      destruct (Hall m) as (y & Hy & Hmy); [apply elem_of_cons; by left|].
      rewrite (same_row_id _ _ Hmy), (find_mutation_Some d y Hd Hy) in Hf. injection Hf as ->.
      apply same_immutable_iff in Hmy. congruence.
  - right. split; [done|]. intros Hall.
    destruct (Hall m) as (y & Hy & Hmy); [apply elem_of_cons; by left|].
    by rewrite (same_row_id _ _ Hmy), (find_mutation_Some d y Hd Hy) in Hf.
Qed.

Lemma has_id_true id ms :
  existsb (λ m, mutation_id m == id) ms = true ↔ ∃ m, m ∈ ms ∧ mutation_id m = id.
Proof.
  rewrite existsb_exists. setoid_rewrite In_elem. setoid_rewrite bool_decide_eq_true. done.
Qed.

(** With distinct durable ids, appending takes the unknown rows at or beyond the
    clone's allocator and refuses an unknown pending row below it. *)
Lemma merge_appended_spec next mine ds :
  Forall (λ m, parse_decimal (mutation_id m) = Ok (row_id m)) ds →
  NoDup (List.map mutation_id ds) →
  (∀ x m, x ∈ ds → m ∈ mine → mutation_id m = mutation_id x → row_id x < next) →
  merge_appended next mine ds = (mine ++ List.filter (λ x, next <=? row_id x) ds, Ok ()) ∧
    (∀ x, x ∈ ds → status x = Pending → row_id x < next → ∃ m, m ∈ mine ∧ mutation_id m = mutation_id x)
  ∨ (merge_appended next mine ds).2 = Err InvalidQueueState ∧
    ¬ (∀ x, x ∈ ds → status x = Pending → row_id x < next → ∃ m, m ∈ mine ∧ mutation_id m = mutation_id x).
Proof.
  revert mine. induction ds as [|d ds IH]; intros mine Hp Hnd Hlt.
  { left. simpl. rewrite app_nil_r. split; [done|]. by intros x ?%not_elem_of_nil. }
  apply Forall_cons in Hp as [Hd Hp]. apply NoDup_cons in Hnd as [Hdn Hnd].
  cbn [merge_appended List.filter]. rewrite Hd.
  assert (∀ x m, x ∈ ds → m ∈ mine → mutation_id m = mutation_id x → row_id x < next) as Hlt'.
  { intros x m Hx. apply Hlt, elem_of_cons. by right. }
  destruct (existsb _ mine) eqn:Hk.
  - apply has_id_true in Hk as (m & Hm & Hid).
    assert (row_id d < next) by (eapply Hlt; [apply elem_of_cons; by left|done|done]).
    replace (next <=? row_id d) with false by (symmetry; bsimp; lia).
    destruct (IH mine Hp Hnd Hlt') as [[-> Hall]|[He Hall]]; [left|right]; split; try done.
    + intros x [->|Hx]%elem_of_cons; eauto.
    + contradict Hall. intros x Hx. apply Hall, elem_of_cons. by right.
  - assert (¬ ∃ m, m ∈ mine ∧ mutation_id m = mutation_id d) as Hno.
    { rewrite <- has_id_true. by rewrite Hk. }
    destruct (N.leb_spec next (row_id d)) as [Hge|Hl].
    + assert (∀ x m, x ∈ ds → m ∈ mine ++ [d] → mutation_id m = mutation_id x → row_id x < next) as Hlt2.
      { intros x m Hx [Hm|Hm]%elem_of_app E; [eauto|]. apply list_elem_of_singleton in Hm as ->.
        destruct Hdn. rewrite E. by apply list_elem_of_fmap_2. }
      destruct (IH (mine ++ [d]) Hp Hnd Hlt2) as [[-> Hall]|[He Hall]]; [left|right].
      * rewrite <- app_assoc. split; [done|]. intros x [->|Hx]%elem_of_cons Hst Hxl; [lia|].
        destruct (Hall x Hx Hst Hxl) as (m & [Hm| ->%list_elem_of_singleton]%elem_of_app & E); [eauto|].
        destruct Hdn. rewrite E. by apply list_elem_of_fmap_2.
      * split; [done|]. contradict Hall. intros x Hx Hst Hxl.
        destruct (Hall x) as (m & Hm & E); [apply elem_of_cons; by right|done|done|].
        exists m. rewrite elem_of_app. auto.
    + unfold is_pending. case_bool_decide as Hst.
      * right. split; [done|]. contradict Hno. apply Hno; [apply elem_of_cons; by left|done|done].
      * destruct (IH mine Hp Hnd Hlt') as [[-> Hall]|[He Hall]]; [left|right]; split; try done.
        -- intros x [->|Hx]%elem_of_cons; [done|eauto].
        -- contradict Hall. intros x Hx. apply Hall, elem_of_cons. by right.
Qed.

Lemma mutation_keys_eq ms : Forall (λ m, parse_decimal (mutation_id m) = Ok (row_id m)) ms →
  mutation_keys ms = Some (List.map (λ m, (row_id m, m)) ms).
Proof. induction 1 as [|m ms Hm _ IH]; simpl; [done|]. by rewrite Hm, IH. Qed.

(** Rows already in id order are not moved. *)
Lemma sort_by_mutation_id_sorted ms :
  Forall (λ m, parse_decimal (mutation_id m) = Ok (row_id m)) ms →
  StronglySorted N.lt (List.map row_id ms) → sort_by_mutation_id ms = Some ms.
Proof.
  intros Hp Hs. unfold sort_by_mutation_id. rewrite mutation_keys_eq by done. f_equal.
  rewrite sort_by_id.
  - rewrite List.map_map. apply List.map_id.
  - intros x y. apply N.compare_antisym.
  - clear Hp. induction ms as [|m ms IH]; [constructor|].
    apply sorted_key_cons in Hs as [Hf Hs]. constructor; [auto|].
    apply Forall_map. eapply Forall_impl; [exact Hf|]. simpl. intros x Hx.
    rewrite N.compare_gt_iff. lia.
Qed.

Lemma merge_row_id ds m : mutation_id (merge_row ds m) = mutation_id m.
Proof. unfold merge_row. destruct (find_mutation _ _); [|done]. by destruct (is_confirmed _). Qed.

Lemma merge_row_row_id ds m : row_id (merge_row ds m) = row_id m.
Proof. unfold row_id. by rewrite merge_row_id. Qed.

Lemma row_ok_merge_row next limit ds m : row_ok next limit m → row_ok next limit (merge_row ds m).
Proof.
  unfold merge_row. destruct (find_mutation _ _); [|done]. destruct (is_confirmed _); [|done].
  by rewrite row_ok_set_status.
Qed.

Lemma merge_row_pending q d m : mergeable q d → m ∈ mutations q →
  is_pending (merge_row (mutations d) m) = true →
  ∃ x, x ∈ pending d ∧ row_id x = row_id m.
Proof.
  intros Hm Hin. destruct (mg_known _ _ Hm m Hin) as (x & Hx & Hs).
  unfold merge_row. rewrite (same_row_id _ _ Hs).
  rewrite (find_mutation_Some d x (mg_durable _ _ Hm) Hx), is_confirmed_negb.
  destruct (is_pending x) eqn:Hp; simpl; [|done]. intros _. exists x.
  split; [by apply elem_of_filter_bool|]. unfold row_id. by rewrite (same_row_id _ _ Hs).
Qed.

Lemma merged_rows_sorted q d : mergeable q d → StronglySorted N.lt (List.map row_id (merged_rows q d)).
Proof.
  intros Hm. destruct Hm as [[_ _ _ _ _ Hr Hs _] [_ _ _ _ _ _ Hds _] _ _ _ _ _ _].
  unfold merged_rows. rewrite List.map_app. apply StronglySorted_app.
  split; [|split].
  - intros a b (m & -> & Hma)%list_elem_of_fmap (x & -> & Hx)%list_elem_of_fmap.
    apply list_elem_of_fmap in Hma as (m' & -> & Hma). rewrite merge_row_row_id.
    apply elem_of_filter_bool in Hx as [_ Hx]. rewrite Forall_forall in Hr.
    pose proof (row_ok_hi _ _ _ (Hr m' Hma)). bsimp. lia.
  - rewrite List.map_map, (List.map_ext _ row_id); [done|]. apply merge_row_row_id.
  - by apply sorted_key_filter.
Qed.

Lemma merged_rows_ok q d : mergeable q d →
  Forall (row_ok (next_mutation_id d) (max_queued_payload_bytes q)) (merged_rows q d).
Proof.
  intros [[_ _ _ _ _ Hr _ _] [_ _ _ _ _ Hdr _ _] _ _ Hb Hn _ _]. unfold merged_rows.
  apply Forall_app. split.
  - apply Forall_map. eapply Forall_impl; [exact Hr|]. intros m Hm.
    apply row_ok_merge_row. by eapply row_ok_mono.
  - apply Forall_filter_bool. by rewrite Hb.
Qed.

Lemma merged_rows_parse q d : mergeable q d →
  Forall (λ m, parse_decimal (mutation_id m) = Ok (row_id m)) (merged_rows q d).
Proof.
  intros Hm. eapply Forall_impl; [by apply merged_rows_ok|]. intros m [Hid _ Hhi]. simpl.
  rewrite Hid at 1. apply parse_decimal_to_dec.
  pose proof i64_u64. pose proof (ok_next _ (mg_durable _ _ Hm)). lia.
Qed.

Lemma merged_pending_le q d : mergeable q d →
  count (List.filter is_pending (merged_rows q d)) ≤ count (pending d).
Proof.
  intros Hm. unfold count. enough (length (List.filter is_pending (merged_rows q d)) <= length (pending d))%nat by lia.
  rewrite <- (List.length_map row_id), <- (List.length_map row_id (pending d)).
  apply submseteq_length, NoDup_submseteq.
  { by apply sorted_key_NoDup, sorted_key_filter, merged_rows_sorted. }
  intros i (m & -> & [Hin Hp]%elem_of_filter_bool)%list_elem_of_fmap.
  apply elem_of_app in Hin as [Hin|Hin].
  - apply list_elem_of_fmap in Hin as (m' & -> & Hin).
    destruct (merge_row_pending q d m' Hm Hin Hp) as (x & Hx & E).
    rewrite merge_row_row_id, <- E. by apply list_elem_of_fmap_2.
  - apply elem_of_filter_bool in Hin as [Hin _]. apply list_elem_of_fmap_2.
    by apply elem_of_filter_bool.
Qed.

Lemma merged_ok q d : mergeable q d → queue_ok (merged q d).
Proof.
  intros Hm. pose proof (merged_rows_ok q d Hm) as Hr. pose proof (merged_rows_sorted q d Hm) as Hs.
  pose proof (merged_pending_le q d Hm) as Hp.
  destruct Hm as [[] [] ? Hmp ? ? _ _]. unfold merged.
  destruct (_ <? _); split; simpl; try done; unfold pending in *; simpl; lia.
Qed.

Lemma parse_checkpoint q : queue_ok q → parse_decimal (checkpoint q) = Ok (decimal_of (checkpoint q)).
Proof.
  intros [_ _ _ (n & Hn & ->) _ _ _ _]. rewrite decimal_of_to_dec. by apply parse_decimal_to_dec.
Qed.

Lemma validate_Err q e : validate q = Err e → e = InvalidQueueState.
Proof.
  unfold validate. destruct (_ || _); [by intros [= <-]|].
  enough (∀ prior p ms, validate_rows q prior p ms = Err e → e = InvalidQueueState) as Hrows.
  { destruct (validate_rows q 0 0 (mutations q)) as [[? n]|] eqn:E; [|intros [= ->]; eauto].
    destruct (_ <? _); [by intros [= <-]|done]. }
  intros prior p ms. revert prior p. induction ms as [|m ms IH]; intros prior p; simpl; [done|].
  crack; try congruence; eauto.
Qed.

Lemma merge_row_below q ds x m : queue_ok q →
  m ∈ List.map (merge_row ds) (mutations q) → mutation_id m = mutation_id x →
  row_id x < next_mutation_id q.
Proof.
  intros Hq (m' & -> & Hm')%list_elem_of_fmap E. rewrite merge_row_id in E.
  replace (row_id x) with (row_id m') by (unfold row_id; by rewrite E).
  destruct Hq as [_ _ _ _ _ Hqr _ _]. rewrite Forall_forall in Hqr. apply Hqr, Hm'.
Qed.

Lemma merge_accepts q d : mergeable q d →
  merge_concurrent_durable q d = Some (merged q d, Ok ()).
Proof.
  intros Hm. pose proof (merged_ok q d Hm) as Hok. pose proof (merged_rows_sorted q d Hm) as Hs.
  pose proof Hm as [Hq Hd Hc Hmp Hmb Hn Hk Hu]. unfold merge_concurrent_durable.
  rewrite (proj2 (validate_iff q) Hq), (proj2 (validate_iff d) Hd), Hc, Hmp, Hmb.
  rewrite bool_decide_eq_true_2, !N.eqb_refl, (proj2 (N.ltb_ge _ _) Hn) by done. cbn [negb orb].
  destruct (merge_known_spec d (mutations q) Hd) as [[-> _]|[_ []]]; [|done].
  destruct (merge_appended_spec (next_mutation_id q) (List.map (merge_row (mutations d)) (mutations q))
              (mutations d)) as [[-> _]|[_ Hno]].
  - by apply queue_parses.
  - by apply mutation_ids_NoDup.
  - intros x m _. by apply merge_row_below.
  - fold (merged_rows q d). rewrite sort_by_mutation_id_sorted by (try done; by apply merged_rows_parse).
    cbn [checkpoint set_next_mutation_id set_mutations].
    rewrite (parse_checkpoint d Hd), (parse_checkpoint q Hq). fold (merged q d).
    by rewrite (proj2 (validate_iff _) Hok).
  - destruct Hno. intros x Hx Hst Hlt. destruct (Hu x Hx Hst Hlt) as (m & Hmin & E).
    exists (merge_row (mutations d) m). rewrite merge_row_id. split; [|done].
    by apply list_elem_of_fmap_2.
Qed.

Lemma merge_cases q d :
  mergeable q d ∨
  ¬ mergeable q d ∧ ∃ q', merge_concurrent_durable q d = Some (q', Err InvalidQueueState).
Proof.
  unfold merge_concurrent_durable.
  destruct (validate q) as [[]|] eqn:Hq.
  2:{ right. split; [intros Hm|apply validate_Err in Hq as ->; eauto].
      apply mg_mine, validate_iff in Hm. congruence. }
  destruct (validate d) as [[]|] eqn:Hd.
  2:{ right. split; [intros Hm|apply validate_Err in Hd as ->; eauto].
      apply mg_durable, validate_iff in Hm. congruence. }
  apply validate_iff in Hq, Hd. destruct (_ || _) eqn:Hg.
  { right. split; [|eauto]. intros []. bsimp. destruct_or?; bsimp; try done; lia. }
  bsimp. destruct (merge_known_spec d (mutations q) Hd) as [[-> Hk]|[He Hno]].
  2:{ right. split; [by intros []|].
      destruct (merge_known _ _) as [ms r]. simpl in He. subst r. eauto. }
  destruct (merge_appended_spec (next_mutation_id q) (List.map (merge_row (mutations d)) (mutations q))
              (mutations d)) as [[_ Hu]|[He Hno]].
  - by apply queue_parses.
  - by apply mutation_ids_NoDup.
  - intros x m _. by apply merge_row_below.
  - left. split; try done. intros x Hx Hst Hlt.
    destruct (Hu x Hx Hst Hlt) as (m & (m' & -> & Hm')%list_elem_of_fmap & E).
    rewrite merge_row_id in E. eauto.
  - right. split; [intros Hm; apply Hno|].
    + intros x Hx Hst Hlt. destruct (mg_unpruned _ _ Hm x Hx Hst Hlt) as (m & Hmin & E).
      exists (merge_row (mutations d) m). rewrite merge_row_id. split; [|done].
      by apply list_elem_of_fmap_2.
    + destruct (merge_appended _ _ _) as [ms r]. simpl in He. subst r. eauto.
Qed.

(** *** Every operation preserves well-formedness *)

Lemma queue_upsert_inv q tbl rid v base res q' id :
  queue_upsert q tbl rid v base res = (q', Ok id) →
  valid_scope_id tbl = true ∧ valid_record_id rid = true ∧
  ∃ text, is_object v = true ∧ to_text v = Some text ∧
    queue q {| mutation_id := ""; operation := Upsert; table := tbl; record_id := rid;
               payload := Some v; base_revision := base; resurrect := res;
               status := Pending |} (len text) = (q', Ok id).
Proof.
  unfold queue_upsert. destruct (_ || _) eqn:Ht; [done|]. destruct (is_object v); [|done].
  destruct (to_text v) as [text|]; [|done]. cbn [negb]. bsimp. eauto 8.
Qed.

Lemma queue_upsert_Err q tbl rid v base res q' e :
  queue_upsert q tbl rid v base res = (q', Err e) → q' = q.
Proof.
  unfold queue_upsert. destruct (_ || _); [by intros [= <-]|].
  destruct (is_object v); [|by intros [= <-]]. destruct (to_text v); [|by intros [= <-]].
  by intros [-> _]%queue_err_inv.
Qed.

Lemma queue_upsert_ok_iff q tbl rid v base res q' id : queue_ok q →
  queue_upsert q tbl rid v base res = (q', Ok id) → queue_ok q' ↔ base_ok base.
Proof.
  intros Hq (Ht & Hr & text & Ho & Htext & Hqueue)%queue_upsert_inv.
  eapply (queue_preserves _ _ _ _ _ Hq Hqueue); try done.
  destruct v as [| | | | |fields]; try done. exists fields, text.
  split; [done|split; [done|]]. by apply queue_ok_inv in Hqueue as (_ & ? & _).
Qed.

Lemma queue_delete_inv q tbl rid base q' id :
  queue_delete q tbl rid base = (q', Ok id) →
  valid_scope_id tbl = true ∧ valid_record_id rid = true ∧
  queue q {| mutation_id := ""; operation := Delete; table := tbl; record_id := rid;
             payload := None; base_revision := base; resurrect := false;
             status := Pending |} 2 = (q', Ok id).
Proof. unfold queue_delete. destruct (_ || _) eqn:Ht; [done|]. bsimp. eauto 8. Qed.

Lemma queue_delete_Err q tbl rid base q' e : queue_delete q tbl rid base = (q', Err e) → q' = q.
Proof.
  unfold queue_delete. destruct (_ || _); [by intros [= <-]|]. by intros [-> _]%queue_err_inv.
Qed.

Lemma queue_delete_ok_iff q tbl rid base q' id : queue_ok q →
  queue_delete q tbl rid base = (q', Ok id) → queue_ok q' ↔ base_ok base.
Proof.
  intros Hq (Ht & Hr & Hqueue)%queue_delete_inv.
  by eapply (queue_preserves _ _ _ _ _ Hq Hqueue).
Qed.

Lemma record_policy_ok p r q' x : record_policy p r = (q', x) → queue_ok r.1 → queue_ok q'.
Proof.
  destruct r as [q [id|e]]; simpl; intros [= <- <-]; [|done]. by rewrite set_policies_ok.
Qed.

Lemma queue_upsert_preserves q tbl rid v base res : base_ok base → queue_ok q →
  queue_ok (queue_upsert q tbl rid v base res).1.
Proof.
  intros Hb Hq. destruct (queue_upsert q tbl rid v base res) as [q' [id|e]] eqn:E; simpl.
  - by eapply queue_upsert_ok_iff.
  - by apply queue_upsert_Err in E as ->.
Qed.

Lemma queue_delete_preserves q tbl rid base : base_ok base → queue_ok q →
  queue_ok (queue_delete q tbl rid base).1.
Proof.
  intros Hb Hq. destruct (queue_delete q tbl rid base) as [q' [id|e]] eqn:E; simpl.
  - by eapply queue_delete_ok_iff.
  - by apply queue_delete_Err in E as ->.
Qed.

Lemma acknowledge_preserves q response request : queue_ok q →
  queue_ok (acknowledge q response request).1.
Proof.
  intros Hq. destruct (acknowledge_cases q response request) as [Ha|(_ & e & -> & _)]; [|done].
  destruct (acknowledge_accepts q _ _ Hq Ha) as (m & _ & -> & _). by apply confirm_upto_ok.
Qed.

Lemma set_checkpoint_preserves q c : queue_ok q → queue_ok (set_checkpoint q c).1.
Proof.
  intros Hq. unfold set_checkpoint. destruct (parse_decimal c) eqn:E; [|done].
  apply assign_checkpoint_ok; [done|]. apply parse_decimal_ok_iff. by rewrite E.
Qed.

Lemma install_snapshot_preserves {W E} q s (f : list SnapshotRecord → W → W * result unit E) w :
  queue_ok q → queue_ok (install_snapshot q s f w).1.1.
Proof.
  intros Hq. unfold install_snapshot. destruct (_ || _) eqn:Hb; [done|]. bsimp.
  destruct (f _ _) as [w' [|]]; [|done]. by apply assign_checkpoint_ok, parse_decimal_ok_iff.
Qed.

Lemma merge_Ok_inv q d q' : merge_concurrent_durable q d = Some (q', Ok ()) →
  mergeable q d ∧ q' = merged q d.
Proof.
  intros E. destruct (merge_cases q d) as [Hm|(_ & ? & E')]; [|congruence].
  rewrite merge_accepts in E by done. split; congruence.
Qed.

Lemma queue_step_preserves q q' : queue_step q q' → queue_ok q → queue_ok q'.
Proof.
  intros Hs Hq. destruct Hs as
    [q q' tbl rid v base res r Hb E|q q' tbl rid v base res p r Hb E|q q' tbl rid base r Hb E
    |q q' tbl rid base p r Hb E|q retain|q q' resp req r E|q q' c r E|W X q q' s f w w' r E|q q' d E].
  - by pose proof (queue_upsert_preserves q tbl rid v base res Hb Hq) as Ho; rewrite E in Ho.
  - eapply record_policy_ok; [exact E|]. by apply queue_upsert_preserves.
  - by pose proof (queue_delete_preserves q tbl rid base Hb Hq) as Ho; rewrite E in Ho.
  - eapply record_policy_ok; [exact E|]. by apply queue_delete_preserves.
  - by apply prune_preserves.
  - by pose proof (acknowledge_preserves q resp req Hq) as Ho; rewrite E in Ho.
  - by pose proof (set_checkpoint_preserves q c Hq) as Ho; rewrite E in Ho.
  - by pose proof (install_snapshot_preserves q s f w Hq) as Ho; rewrite E in Ho.
  - apply merge_Ok_inv in E as [Hm ->]. by apply merged_ok.
Qed.

Lemma merged_known q d m : mergeable q d → m ∈ mutations q →
  ∃ m' x, m' ∈ mutations (merged q d) ∧ x ∈ mutations d ∧ same_row m m' ∧ same_row m x ∧
    (status m' = Confirmed ↔ status m = Confirmed ∨ status x = Confirmed).
Proof.
  intros Hm Hin. destruct (mg_known _ _ Hm m Hin) as (x & Hx & Hs).
  exists (merge_row (mutations d) m), x. split; [|split; [done|]].
  { unfold merged. destruct (_ <? _); simpl; apply elem_of_app; left; by apply list_elem_of_fmap_2. }
  unfold merge_row. rewrite (same_row_id _ _ Hs), (find_mutation_Some d x (mg_durable _ _ Hm) Hx).
  unfold is_confirmed. case_bool_decide; simpl; split; try done; split; try done; tauto.
Qed.

Lemma merged_appended q d x : mergeable q d → x ∈ mutations d →
  status x = Pending ∨ next_mutation_id q ≤ row_id x →
  ∃ m', m' ∈ mutations (merged q d) ∧ same_row x m'.
Proof.
  intros Hm Hx Hor. destruct (N.lt_ge_cases (row_id x) (next_mutation_id q)) as [Hlt|Hge].
  - destruct (mg_unpruned _ _ Hm x Hx) as (m & Hmin & E); [destruct Hor; [done|lia]|done|].
    destruct (merged_known q d m Hm Hmin) as (m' & y & Hm' & Hy & Hs & Hsy & _).
    exists m'. split; [done|].
    assert (y = x) as <-.
    { apply (mutation_id_inj d); [apply Hm|done..|]. by rewrite <- (same_row_id _ _ Hsy). }
    unfold same_row in *. congruence.
  - exists x. split; [|done]. unfold merged.
    destruct (_ <? _); simpl; apply elem_of_app; right; apply elem_of_filter_bool;
      (split; [done|by apply N.leb_le]).
Qed.

Lemma merged_checkpoint q d :
  decimal_of (checkpoint (merged q d)) = N.max (decimal_of (checkpoint q)) (decimal_of (checkpoint d)).
Proof. unfold merged. destruct (N.ltb_spec (decimal_of (checkpoint q)) (decimal_of (checkpoint d))); simpl; lia. Qed.
End Preservation.

(** ** Closed examples *)

Definition example_queue : ProtocolQueue :=
  {| client_id := "c1"; next_mutation_id := 3; checkpoint := "7";
     mutations :=
       [{| mutation_id := "1"; operation := Upsert; table := "t"; record_id := "a";
           payload := Some (JObject []); base_revision := Some "4"; resurrect := false;
           status := Confirmed |};
        {| mutation_id := "2"; operation := Delete; table := "t"; record_id := "b";
           payload := None; base_revision := None; resurrect := false; status := Pending |}];
     max_pending_mutations := 5; max_queued_payload_bytes := 1000; consistency_policies := [] |}.

Definition example_request : PushRequest :=
  {| req_protocol_version := 1; req_client_id := "c1"; req_mutations := pending example_queue |}.

Definition example_response : PushResponse :=
  {| resp_protocol_version := 1; resp_client_id := "c1"; resp_last_mutation_id := "2";
     resp_checkpoint := "9";
     resp_results := [{| res_mutation_id := "2"; res_status := Rejected; res_original_status := None;
                         res_checkpoint := None; res_revision := Some "5"; res_code := None;
                         res_message := None |}] |}.

Lemma example_queue_ok : @queue_ok reference_codec example_queue.
Proof. apply validate_iff. vm_compute. reflexivity. Qed.

(** A base revision is stored unchecked: the mutation is accepted, and the queue no
    longer passes its own durable validation. *)
Example unchecked_base_revision :
  @validate reference_codec example_queue = Ok () ∧
  (queue_delete example_queue "t" "r" (Some "rev-1")).2 = Ok "3" ∧
  @validate reference_codec (queue_delete example_queue "t" "r" (Some "rev-1")).1
    = Err InvalidQueueState.
Proof. repeat split; vm_compute; reflexivity. Qed.

(** A merge imports a concurrently queued row without its consistency policy. *)
Example merge_forgets_policy :
  let durable := (queue_delete_with_consistency example_queue "t" "r" None RemoteAcknowledged).1 in
  let merged := @merge_concurrent_durable reference_codec example_queue durable in
  consistency_policy durable "3" = Some REMOTE_ACKNOWLEDGED ∧
  (r ← merged; consistency_policy r.1 "3") = None ∧
  option_map snd merged = Some (Ok ()) ∧
  option_map (λ r, List.map mutation_id (all r.1)) merged = Some ["1"; "2"; "3"].
Proof. repeat split; vm_compute; reflexivity. Qed.

(** ** Properties *)

(** Durable validation is exactly queue well-formedness.  [validate] accepts
    a queue if and only if its identity, limits, checkpoint and allocator are in
    range, its mutation ids are canonical, strictly increasing and below the
    allocator, every row is well-formed, and the pending rows fit the limit. *)
Theorem validate_queue_ok `{SerdeJson} q : validate q = Ok () ↔ queue_ok q.
Proof. apply validate_iff. Qed.

(** C7: every state a client can drive the queue to is one it can reload.  From
    a freshly created queue, any sequence of queueing, acknowledging, pruning,
    checkpointing, snapshot installation and merging, failed calls included,
    leads to a queue that passes durable validation, when base revisions are the
    canonical decimals servers hand out. *)
Theorem reachable_queue_validates `{SerdeJson} cid max_pending max_bytes q0 q :
  with_limits cid max_pending max_bytes = Ok q0 → rtc queue_step q0 q → validate q = Ok ().
Proof.
  intros H0%with_limits_ok Hsteps. apply validate_iff.
  induction Hsteps as [|x y z Hxy _ IH]; [done|]. apply IH. by eapply queue_step_preserves.
Qed.

Lemma reachable_queue_validates_witness :
  ∃ q, @validate reference_codec q = Ok () ∧ count (pending q) = 1.
Proof.
  destruct (new "c1") as [q0|] eqn:E; [|vm_compute in E; discriminate].
  exists (queue_delete q0 "t" "r" (Some "12")).1. split.
  - apply (reachable_queue_validates "c1" 10000 261120 q0); [exact E|].
    apply rtc_once. apply (step_delete _ _ "t" "r" (Some "12") (queue_delete q0 "t" "r" (Some "12")).2);
      [|apply surjective_pairing].
    intros r [= <-]. exists 12. split; [vm_compute; discriminate|reflexivity].
  - vm_compute in E. injection E as <-. vm_compute. reflexivity.
Defined.

(** Queueing an upsert allocates the next id and appends exactly one pending
    row, or refuses without changing the queue.  An accepted mutation leaves the
    queue well-formed exactly when its base revision is absent or a canonical
    decimal: the code does not check it here, though reloading does. *)
Theorem queue_upsert_correct `{SerdeJson} q tbl rid v base res : queue_ok q →
  match queue_upsert q tbl rid v base res with
  | (q', Ok id) =>
      id = to_dec (next_mutation_id q) ∧ next_mutation_id q' = next_mutation_id q + 1 ∧
      mutations q' = mutations q ++
        [{| mutation_id := id; operation := Upsert; table := tbl; record_id := rid;
            payload := Some v; base_revision := base; resurrect := res; status := Pending |}] ∧
      is_Some (consistency_policy q' id) ∧
      (queue_ok q' ↔ base_ok base)
  | (q', Err e) =>
      q' = q ∧
      (e = InvalidTarget ∧ (valid_scope_id tbl = false ∨ valid_record_id rid = false) ∨
       e = InvalidPayload ∧ (is_object v = false ∨ to_text v = None) ∨
       e = PayloadTooLarge ∧ (∃ text, to_text v = Some text ∧ max_queued_payload_bytes q < len text) ∨
       e = QueueFull ∧ max_pending_mutations q ≤ count (pending q) ∨
       e = MutationIdExhausted ∧ next_mutation_id q = MAX_I64 + 1)
  end.
Proof.
  intros Hq. destruct (queue_upsert q tbl rid v base res) as [q' [id|e]] eqn:E.
  - pose proof (queue_upsert_ok_iff _ _ _ _ _ _ _ _ Hq E) as Hiff.
    apply queue_upsert_inv in E as (_ & _ & text & _ & _ & E).
    apply queue_ok_inv in E as (-> & _ & _ & _ & ->).
    split; [done|split; [done|split; [done|split; [|exact Hiff]]]].
    unfold consistency_policy, bt_or_insert. simpl.
    destruct (bt_get _ (consistency_policies q)) eqn:Hg; [by rewrite Hg|].
    rewrite bt_get_insert_eq. eauto.
  - pose proof (queue_upsert_Err _ _ _ _ _ _ _ _ E) as ->. split; [done|].
    unfold queue_upsert in E. destruct (_ || _) eqn:Ht.
    { injection E as <-. left. bsimp. destruct_or?; bsimp; auto. }
    destruct (is_object v) eqn:Ho; [|injection E as <-; right; left; auto].
    destruct (to_text v) as [text|] eqn:Htext; [|injection E as <-; right; left; auto].
    apply queue_err_inv in E as (_ & [[-> ?]|[[-> ?]|[-> Hx]]]); do 2 right; [left; eauto|right; left; auto|].
    right. right. split; [done|]. unfold can_allocate_mutation_id in Hx.
    pose proof (ok_next _ Hq). bsimp. destruct Hx; lia.
Qed.

Lemma queue_upsert_correct_witness :
  ∃ id, (queue_upsert (H := reference_codec) example_queue "t" "r" (JObject []) None false).2 = Ok id
    ∧ id = to_dec 3.
Proof.
  pose proof (@queue_upsert_correct reference_codec example_queue "t" "r" (JObject []) None false
                example_queue_ok) as Hc.
  destruct (@queue_upsert _ _ _ _ _ _ _) as [q' [id|e]] eqn:E; [|vm_compute in E; discriminate].
  exists id. split; [reflexivity|apply Hc].
Defined.

(** C2: an acknowledgement confirms exactly the batch it answers.  When the
    request is the oldest pending rows and the response answers each of them, the
    call returns the batch size, turns those rows Confirmed (rejections included)
    and touches nothing else; any other response changes nothing. *)
Theorem acknowledge_correct `{SerdeJson} q response request : queue_ok q →
  match acknowledge q response request with
  | (q', Ok n) =>
      acknowledges q response request ∧
      n = count (req_mutations request) ∧
      pending q' = drop (length (req_mutations request)) (pending q) ∧
      Forall2 (λ m m', m' = m ∧ m ∉ req_mutations request
                       ∨ m' = set_status Confirmed m ∧ (m ∈ req_mutations request))
        (mutations q) (mutations q') ∧
      q' = set_mutations (mutations q') q ∧ queue_ok q'
  | (q', Err e) =>
      ¬ acknowledges q response request ∧ q' = q ∧ (e = WrongClient ∨ e = InvalidAcknowledgement)
  end.
Proof.
  intros Hq. destruct (acknowledge_cases q response request) as [Ha|(Hn & e & -> & He)]; [|done].
  destruct (acknowledge_accepts q _ _ Hq Ha) as (m & Hl & -> & Hp).
  split; [done|]. split; [done|]. split; [done|]. split; [|split; [done|by apply confirm_upto_ok]].
  exact (confirm_upto_batch q response request m Hq Ha Hl).
Qed.

Lemma acknowledge_correct_witness :
  acknowledges example_queue example_response example_request ∧
  queue_ok (H := reference_codec) (acknowledge example_queue example_response example_request).1.
Proof.
  pose proof (@acknowledge_correct reference_codec example_queue example_response example_request
                example_queue_ok) as Hc.
  destruct (acknowledge _ _ _) as [q' [n|e]] eqn:E; [|vm_compute in E; discriminate].
  split; apply Hc.
Defined.

(** Pushing makes progress.  Whatever batch [push_request] takes from a
    well-formed queue with pending work, a response that answers it is accepted
    and removes that many rows from the head of the pending queue. *)
Theorem push_then_acknowledge `{SerdeJson} q limit request response : queue_ok q →
  push_request q limit = Ok request → pending q ≠ [] →
  resp_protocol_version response = 1 → resp_client_id response = client_id q →
  decimal_ok (resp_checkpoint response) →
  Some (resp_last_mutation_id response) = option_map mutation_id (last (req_mutations request)) →
  Forall2 result_ok (req_mutations request) (resp_results response) →
  1 ≤ count (req_mutations request) ≤ limit ∧
  (acknowledge q response request).2 = Ok (count (req_mutations request)) ∧
  pending q = req_mutations request ++ pending (acknowledge q response request).1.
Proof.
  intros Hq Hreq Hne Hv Hc Hk Hlast Hres.
  unfold push_request in Hreq. destruct (valid_push_limit limit) eqn:Hlim; [|done].
  unfold valid_push_limit in Hlim. bsimp. injection Hreq as <-. cbn [req_mutations] in *.
  assert (1 ≤ count (take (N.to_nat limit) (pending q)) ≤ limit) as Hsize.
  { unfold count. rewrite length_take. destruct (pending q); [done|]. simpl. lia. }
  assert (acknowledges q response {| req_protocol_version := 1; req_client_id := client_id q;
            req_mutations := take (N.to_nat limit) (pending q) |}) as Ha.
  { split; cbn [req_mutations req_client_id req_protocol_version]; try done; [lia| |].
    - rewrite length_take. destruct (Nat.min_spec (N.to_nat limit) (length (pending q))) as [[? ->]|[? ->]];
        [done|]. by rewrite firstn_all, take_ge.
    - destruct (last _) as [m|]; [|done]. injection Hlast as ->. eauto. }
  split; [done|]. destruct (acknowledge_accepts q _ _ Hq Ha) as (m & _ & -> & Hp). split; [done|].
  unfold pending at 3. cbn [fst mutations set_mutations req_mutations] in *. rewrite Hp, length_take.
  destruct (Nat.min_spec (N.to_nat limit) (length (pending q))) as [[? ->]|[? ->]].
  - by rewrite take_drop.
  - by rewrite take_ge, drop_all, app_nil_r by done.
Qed.

Lemma push_then_acknowledge_witness :
  (acknowledge example_queue example_response example_request).2 = Ok 1.
Proof.
  refine (proj1 (proj2 (@push_then_acknowledge reference_codec example_queue 100 example_request
    example_response example_queue_ok _ _ _ _ _ _ _))); try reflexivity; try discriminate.
  - exists 9. split; [vm_compute; discriminate|reflexivity].
  - constructor; [|constructor]. repeat split; try discriminate.
    + intros v [= <-]. exists 5. repeat split; vm_compute; discriminate.
    + intros [? [=]].
Defined.

(** Pruning drops the oldest confirmed rows beyond [retain] and nothing else:
    the pending rows and the newest confirmed rows stay, in order, the returned
    number is the number of rows dropped, and the queue stays well-formed. *)
Theorem prune_confirmed_correct `{SerdeJson} q retain : queue_ok q →
  let confirmed := List.filter is_confirmed (mutations q) in
  let dropped := (prune_confirmed q retain).2 in
  let q' := (prune_confirmed q retain).1 in
  dropped = count confirmed - retain ∧
  pending q' = pending q ∧
  List.filter is_confirmed (mutations q') = drop (N.to_nat dropped) confirmed ∧
  (∃ p, mutations q' = List.filter p (mutations q)) ∧
  queue_ok q'.
Proof.
  intros Hq. pose proof (prune_rows q retain Hq) as Hp. pose proof (prune_preserves q retain Hq) as Hok.
  cbn zeta in *. destruct (prune_confirmed q retain) as [q' n].
  destruct Hp as (_ & Hp & Hc & -> & Hf). auto.
Qed.

Lemma prune_confirmed_correct_witness :
  (prune_confirmed example_queue 0).2 = 1 ∧
  pending (prune_confirmed example_queue 0).1 = pending example_queue.
Proof.
  destruct (@prune_confirmed_correct reference_codec example_queue 0 example_queue_ok)
    as (H1 & H2 & _).
  split; [exact H1|exact H2].
Defined.

(** C6: merging a concurrently committed queue is safe.  The merge never panics
    and succeeds exactly on compatible queues.  Then every row of the clone stays,
    confirmed as soon as either side confirmed it, every pending durable row and
    every row appended since is present, the larger checkpoint wins, and the
    result is well-formed, so the final validation cannot fail.  The consistency
    policies stay the clone's own: those of imported rows are not taken over. *)
Theorem merge_concurrent_durable_correct `{SerdeJson} q d :
  match merge_concurrent_durable q d with
  | None => False
  | Some (q', Ok _) =>
      mergeable q d ∧ queue_ok q' ∧
      next_mutation_id q' = next_mutation_id d ∧ consistency_policies q' = consistency_policies q ∧
      decimal_of (checkpoint q') = N.max (decimal_of (checkpoint q)) (decimal_of (checkpoint d)) ∧
      (∀ m, m ∈ mutations q → ∃ m' x, m' ∈ mutations q' ∧ x ∈ mutations d ∧
         same_row m m' ∧ same_row m x ∧
         (status m' = Confirmed ↔ status m = Confirmed ∨ status x = Confirmed)) ∧
      (∀ x, x ∈ mutations d → status x = Pending ∨ next_mutation_id q ≤ row_id x →
         ∃ m', m' ∈ mutations q' ∧ same_row x m')
  | Some (_, Err e) => ¬ mergeable q d ∧ e = InvalidQueueState
  end.
Proof.
  destruct (merge_cases q d) as [Hm|(Hn & q' & ->)]; [|done]. rewrite merge_accepts by done.
  split; [done|]. split; [by apply merged_ok|].
  split; [by unfold merged; destruct (_ <? _)|]. split; [by unfold merged; destruct (_ <? _)|].
  split; [apply merged_checkpoint|]. split; intros; [by apply merged_known|by apply merged_appended].
Qed.

(** A reset snapshot replaces the authoritative store before the checkpoint
    moves.  An invalid snapshot never reaches the store, a failed replacement
    leaves the queue unchanged, and success changes the checkpoint only, so every
    pending mutation is kept. *)
Theorem install_snapshot_correct {W E} q s (f : list SnapshotRecord → W → W * result unit E) w :
  match install_snapshot q s f w with
  | (q', w', Err (SnapshotProtocol e)) => q' = q ∧ w' = w ∧ e = InvalidSnapshot
  | (q', w', Err (SnapshotReplace e)) => q' = q ∧ f (snap_records s) w = (w', Err e)
  | (q', w', Ok _) =>
      f (snap_records s) w = (w', Ok ()) ∧ q' = assign_checkpoint (snap_checkpoint s) q ∧
      mutations q' = mutations q ∧ decimal_ok (checkpoint q') ∧
      Forall (λ r, valid_scope_id (snap_table r) = true ∧ valid_record_id (snap_record_id r) = true ∧
                   is_object (snap_record r) = true) (snap_records s)
  end.
Proof.
  unfold install_snapshot. destruct (_ || _) eqn:Hb; [done|]. bsimp.
  destruct (f (snap_records s) w) as [w' [[]|e]]; [|done].
  repeat split; try done; [by apply parse_decimal_ok_iff|].
  apply forallb_Forall in H0. eapply Forall_impl; [exact H0|]. intros r Hr.
  unfold valid_snapshot_record in Hr. bsimp. auto.
Qed.

(** A queued mutation keeps the policy and content it was queued with.  After
    an upsert queued with a consistency policy, rebinding succeeds for a proposal
    exactly when the proposal is the same intent. *)
Theorem rebind_after_queue `{SerdeJsonLaws} q tbl rid v base res policy q' id proposed :
  queue_ok q →
  queue_upsert_with_consistency q tbl rid v base res policy = (q', Ok id) →
  json_wf v → json_wf (payload_or_null (mi_payload proposed)) →
  rebind_consistency q' id proposed = Some (Ok ()) ↔
  same_intent {| mi_client_id := client_id q; mi_mutation_id := id; mi_table := tbl;
                 mi_record_id := rid; mi_operation := "upsert"; mi_payload := Some v;
                 mi_base_revision := base; mi_resurrect := res;
                 mi_consistency_policy := policy_as_str policy |} proposed.
Proof.
  intros Hq E Hv Hp. unfold queue_upsert_with_consistency in E.
  destruct (queue_upsert q tbl rid v base res) as [q1 [id'|e]] eqn:Hu; [|done].
  apply queue_upsert_inv in Hu as (_ & _ & text & _ & _ & Hu).
  apply queue_ok_inv in Hu as (-> & _ & _ & _ & ->). injection E as <- <-.
  unfold rebind_consistency. cbn [mutations set_policies set_mutations set_next_mutation_id].
  assert (∀ x, find_mutation (to_dec (next_mutation_id q)) (mutations q ++ [x])
               = find_mutation (to_dec (next_mutation_id q)) [x]) as Hfind.
  { intros x. unfold find_mutation. apply find_app_none, Forall_forall. intros m Hm.
    apply bool_decide_eq_false. intros Hid. destruct Hq as [_ _ _ _ _ Hr _ _].
    rewrite Forall_forall in Hr. pose proof (row_ok_hi _ _ _ (Hr m Hm)).
    apply row_id_to_dec in Hid. lia. }
  rewrite Hfind. unfold find_mutation. simpl. rewrite bool_decide_eq_true_2 by done.
  unfold consistency_policy. simpl. rewrite bt_get_insert_eq. simpl.
  destruct policy; cbn [policy_as_str canonicalize_consistency_policy one_of existsb];
    (apply assert_frozen_iff; [exact Hv|exact Hp]).
Qed.

Lemma rebind_after_queue_witness :
  ∃ q', (@queue_upsert_with_consistency reference_codec example_queue "t" "r" (JObject []) None false
           QueuedLocalFirst) = (q', Ok "3") ∧
  @rebind_consistency reference_codec q' "3"
    {| mi_client_id := "c1"; mi_mutation_id := "3"; mi_table := "t"; mi_record_id := "r";
       mi_operation := "upsert"; mi_payload := Some (JObject []); mi_base_revision := Some "";
       mi_resurrect := false; mi_consistency_policy := "queued-local-first" |} = Some (Ok ()).
Proof.
  eexists. split; [vm_compute; reflexivity|].
  eapply (@rebind_after_queue reference_codec reference_codec_laws example_queue "t" "r" (JObject [])
            None false QueuedLocalFirst);
    [exact example_queue_ok|vm_compute; reflexivity|repeat constructor|repeat constructor|].
  repeat split. exists QueuedLocalFirst. split; vm_compute; reflexivity.
Defined.
