(* ===== verification/QuintProtocol.v ===== *)
(** * QuintProtocol: the executable specification of the protocol

    [src/formal/opto_sync_protocol.qnt], the Quint model of one client and its
    server that the traces of the conformance suite are drawn from: the state,
    every action with its guards, and the invariant [protocol_safety].  Quint's
    integers are never negative here and are [N]; a disabled action is [None].

    [reachable_safe] proves the invariant of every reachable state, for which
    the repository relies on exhausting the state space with a model checker. *)

From S2P Require Import Prelude.

Module Quint.

Inductive ResetPhase := Idle | Replacing.
#[export] Instance ResetPhase_eq_dec : EqDecision ResetPhase.
Proof. solve_decision. Defined.

Definition NO_ID : N := 0.
Definition IDS : gset N := {[1; 2; 3]}.
Definition MAX_ID : N := 3.

Record State := {
  next_id : N;
  pending : gset N;
  in_flight : N;
  ledger : gset N;
  applied : gset N;
  rejected : gset N;
  effect_count : gmap N N;
  server_watermark : N;
  server_checkpoint : N;
  response_present : bool;
  response_mutation_id : N;
  response_watermark : N;
  response_checkpoint : N;
  response_valid_for_in_flight : bool;
  acknowledged : gset N;
  local_checkpoint : N;
  retention_floor : N;
  reset_phase : ResetPhase;
  reset_pending_before : gset N;
  reset_checkpoint_before : N;
  saw_lost_response : bool;
  saw_duplicate_reply : bool;
  saw_reset_crash : bool
}.
#[global] Instance State_eq_dec : EqDecision State.
Proof. solve_decision. Defined.

(** ** Updates [{ ...s, ... }], by the part of the state they name *)

Definition with_client (next : N) (queued : gset N) (flying : N) (acked : gset N) (s : State) : State :=
  {| next_id := next; pending := queued; in_flight := flying; ledger := ledger s; applied := applied s;
     rejected := rejected s; effect_count := effect_count s; server_watermark := server_watermark s;
     server_checkpoint := server_checkpoint s; response_present := response_present s;
     response_mutation_id := response_mutation_id s; response_watermark := response_watermark s;
     response_checkpoint := response_checkpoint s;
     response_valid_for_in_flight := response_valid_for_in_flight s; acknowledged := acked;
     local_checkpoint := local_checkpoint s; retention_floor := retention_floor s;
     reset_phase := reset_phase s; reset_pending_before := reset_pending_before s;
     reset_checkpoint_before := reset_checkpoint_before s; saw_lost_response := saw_lost_response s;
     saw_duplicate_reply := saw_duplicate_reply s; saw_reset_crash := saw_reset_crash s |}.

Definition with_in_flight (id : N) (s : State) : State :=
  with_client (next_id s) (pending s) id (acknowledged s) s.

(** A commit of [id]: the ledger, the outcome, the watermark and the checkpoint. *)
Definition with_server (id : N) (app rej : gset N) (effects : gmap N N) (s : State) : State :=
  {| next_id := next_id s; pending := pending s; in_flight := in_flight s; ledger := ledger s ∪ {[id]};
     applied := app; rejected := rej; effect_count := effects; server_watermark := id;
     server_checkpoint := server_checkpoint s + 1; response_present := response_present s;
     response_mutation_id := response_mutation_id s; response_watermark := response_watermark s;
     response_checkpoint := response_checkpoint s;
     response_valid_for_in_flight := response_valid_for_in_flight s; acknowledged := acknowledged s;
     local_checkpoint := local_checkpoint s; retention_floor := retention_floor s;
     reset_phase := reset_phase s; reset_pending_before := reset_pending_before s;
     reset_checkpoint_before := reset_checkpoint_before s; saw_lost_response := saw_lost_response s;
     saw_duplicate_reply := saw_duplicate_reply s; saw_reset_crash := saw_reset_crash s |}.

Definition with_response (present : bool) (id watermark checkpoint : N) (valid : bool) (s : State) : State :=
  {| next_id := next_id s; pending := pending s; in_flight := in_flight s; ledger := ledger s;
     applied := applied s; rejected := rejected s; effect_count := effect_count s;
     server_watermark := server_watermark s; server_checkpoint := server_checkpoint s;
     response_present := present; response_mutation_id := id; response_watermark := watermark;
     response_checkpoint := checkpoint; response_valid_for_in_flight := valid;
     acknowledged := acknowledged s; local_checkpoint := local_checkpoint s;
     retention_floor := retention_floor s; reset_phase := reset_phase s;
     reset_pending_before := reset_pending_before s; reset_checkpoint_before := reset_checkpoint_before s;
     saw_lost_response := saw_lost_response s; saw_duplicate_reply := saw_duplicate_reply s;
     saw_reset_crash := saw_reset_crash s |}.

(** The cleared response fields. *)
Definition without_response (s : State) : State := with_response false NO_ID 0 0 false s.

Definition with_replica (checkpoint floor : N) (phase : ResetPhase) (queued : gset N) (before : N) (s : State) : State :=
  {| next_id := next_id s; pending := pending s; in_flight := in_flight s; ledger := ledger s;
     applied := applied s; rejected := rejected s; effect_count := effect_count s;
     server_watermark := server_watermark s; server_checkpoint := server_checkpoint s;
     response_present := response_present s; response_mutation_id := response_mutation_id s;
     response_watermark := response_watermark s; response_checkpoint := response_checkpoint s;
     response_valid_for_in_flight := response_valid_for_in_flight s; acknowledged := acknowledged s;
     local_checkpoint := checkpoint; retention_floor := floor; reset_phase := phase;
     reset_pending_before := queued; reset_checkpoint_before := before;
     saw_lost_response := saw_lost_response s; saw_duplicate_reply := saw_duplicate_reply s;
     saw_reset_crash := saw_reset_crash s |}.

Definition with_seen (lost duplicate crash : bool) (s : State) : State :=
  {| next_id := next_id s; pending := pending s; in_flight := in_flight s; ledger := ledger s;
     applied := applied s; rejected := rejected s; effect_count := effect_count s;
     server_watermark := server_watermark s; server_checkpoint := server_checkpoint s;
     response_present := response_present s; response_mutation_id := response_mutation_id s;
     response_watermark := response_watermark s; response_checkpoint := response_checkpoint s;
     response_valid_for_in_flight := response_valid_for_in_flight s; acknowledged := acknowledged s;
     local_checkpoint := local_checkpoint s; retention_floor := retention_floor s;
     reset_phase := reset_phase s; reset_pending_before := reset_pending_before s;
     reset_checkpoint_before := reset_checkpoint_before s; saw_lost_response := lost;
     saw_duplicate_reply := duplicate; saw_reset_crash := crash |}.

(** ** Actions *)

Definition init : State :=
  {| next_id := 1; pending := ∅; in_flight := NO_ID; ledger := ∅; applied := ∅; rejected := ∅;
     effect_count := {[1 := 0; 2 := 0; 3 := 0]}; server_watermark := 0; server_checkpoint := 0;
     response_present := false; response_mutation_id := NO_ID; response_watermark := 0;
     response_checkpoint := 0; response_valid_for_in_flight := false; acknowledged := ∅;
     local_checkpoint := 0; retention_floor := 0; reset_phase := Idle; reset_pending_before := ∅;
     reset_checkpoint_before := 0; saw_lost_response := false; saw_duplicate_reply := false;
     saw_reset_crash := false |}.

(** [all { guards, s' = next }] *)
Definition all_of (guards : bool) (next : State) : option State := if guards then Some next else None.

Definition has (id : N) (ids : gset N) : bool := bool_decide (id ∈ ids).

Definition is_idle (s : State) : bool := reset_phase s == Idle.
Definition is_replacing (s : State) : bool := reset_phase s == Replacing.

Definition is_oldest_pending (s : State) (id : N) : bool :=
  has id (pending s) && bool_decide (set_Forall (λ other, id ≤ other) (pending s)).

Definition enqueue (s : State) : option State :=
  all_of (is_idle s && (next_id s <=? MAX_ID))
    (with_client (next_id s + 1) (pending s ∪ {[next_id s]}) (in_flight s) (acknowledged s) s).

Definition send (id : N) (s : State) : option State :=
  all_of (is_idle s && (in_flight s =? NO_ID) && negb (response_present s) && is_oldest_pending s id
          && (has id (ledger s) || (id =? server_watermark s + 1)))
    (with_in_flight id s).

Definition apply_new (id : N) (s : State) : option State :=
  all_of (is_idle s && (in_flight s =? id) && negb (response_present s) && (id =? server_watermark s + 1)
          && negb (has id (ledger s)))
    (with_response true id id (server_checkpoint s + 1) true
      (with_server id (applied s ∪ {[id]}) (rejected s) (alter (λ count, count + 1) id (effect_count s)) s)).

Definition reject_new (id : N) (s : State) : option State :=
  all_of (is_idle s && (in_flight s =? id) && negb (response_present s) && (id =? server_watermark s + 1)
          && negb (has id (ledger s)))
    (with_response true id id (server_checkpoint s + 1) true
      (with_server id (applied s) (rejected s ∪ {[id]}) (effect_count s) s)).

Definition reply_duplicate (id : N) (s : State) : option State :=
  all_of (is_idle s && (in_flight s =? id) && negb (response_present s) && has id (ledger s))
    (with_seen (saw_lost_response s) true (saw_reset_crash s)
      (with_response true id id (server_checkpoint s) true s)).

Definition inject_mismatched_response (id : N) (s : State) : option State :=
  all_of (is_idle s && negb (in_flight s =? NO_ID) && negb (response_present s) && negb (id =? in_flight s)
          && has id IDS)
    (with_response true id id (server_checkpoint s) false s).

Definition lose_committed_response (id : N) (s : State) : option State :=
  all_of (is_idle s && (in_flight s =? id) && response_present s && response_valid_for_in_flight s
          && (response_mutation_id s =? id) && has id (ledger s))
    (with_seen true (saw_duplicate_reply s) (saw_reset_crash s) (without_response (with_in_flight NO_ID s))).

Definition lose_uncommitted_request (id : N) (s : State) : option State :=
  all_of (is_idle s && (in_flight s =? id) && negb (response_present s) && negb (has id (ledger s)))
    (with_in_flight NO_ID s).

Definition discard_malformed_response (s : State) : option State :=
  all_of (is_idle s && response_present s && negb (response_valid_for_in_flight s))
    (without_response (with_in_flight NO_ID s)).

Definition acknowledge (id : N) (s : State) : option State :=
  all_of (is_idle s && (in_flight s =? id) && response_present s && response_valid_for_in_flight s
          && (response_mutation_id s =? id) && (response_watermark s =? id) && has id (ledger s)
          && has id (pending s))
    (without_response
      (with_client (next_id s) (filter (λ other, other ≠ id) (pending s)) NO_ID (acknowledged s ∪ {[id]}) s)).

Definition pull (s : State) : option State :=
  all_of (is_idle s && (retention_floor s <=? local_checkpoint s))
    (with_replica (server_checkpoint s) (retention_floor s) (reset_phase s) (reset_pending_before s)
      (reset_checkpoint_before s) s).

Definition compact (s : State) : option State :=
  all_of (is_idle s && (retention_floor s <? server_checkpoint s))
    (with_replica (local_checkpoint s) (server_checkpoint s) (reset_phase s) (reset_pending_before s)
      (reset_checkpoint_before s) s).

Definition begin_reset (s : State) : option State :=
  all_of (is_idle s && (local_checkpoint s <? retention_floor s))
    (with_replica (local_checkpoint s) (retention_floor s) Replacing (pending s) (local_checkpoint s) s).

Definition crash_during_reset (s : State) : option State :=
  all_of (is_replacing s)
    (with_seen (saw_lost_response s) (saw_duplicate_reply s) true
      (with_replica (local_checkpoint s) (retention_floor s) Idle (reset_pending_before s)
        (reset_checkpoint_before s) s)).

Definition finish_reset (s : State) : option State :=
  all_of (is_replacing s)
    (with_replica (server_checkpoint s) (retention_floor s) Idle (reset_pending_before s)
      (reset_checkpoint_before s) s).

Inductive Action :=
| IdleAction | Compact | Enqueue | Send | ApplyNew | RejectNew | ReplyDuplicate
| InjectMismatchedResponse | LoseCommittedResponse | LoseUncommittedRequest
| DiscardMalformedResponse | Acknowledge | Pull | BeginReset | CrashDuringReset | FinishReset.

(** One branch of [any]; [nondet id] is drawn before the branch is chosen. *)
Definition attempt (a : Action) (id : N) (s : State) : option State :=
  match a with
  | IdleAction => Some s
  | Enqueue => enqueue s
  | Send => send id s
  | ApplyNew => apply_new id s
  | RejectNew => reject_new id s
  | ReplyDuplicate => reply_duplicate id s
  | InjectMismatchedResponse => inject_mismatched_response id s
  | LoseCommittedResponse => lose_committed_response id s
  | LoseUncommittedRequest => lose_uncommitted_request id s
  | DiscardMalformedResponse => discard_malformed_response s
  | Acknowledge => acknowledge id s
  | Pull => pull s
  | Compact => compact s
  | BeginReset => begin_reset s
  | CrashDuringReset => crash_during_reset s
  | FinishReset => finish_reset s
  end.

Inductive step : State → Action → N → State → Prop :=
| step_any s a id s' : id ∈ IDS → attempt a id s = Some s' → step s a id s'.

(** The states of a run, each with the action and the identity that led to it. *)
Inductive run : State → list (Action * N * State) → Prop :=
| run_stop s : run s []
| run_step s a id s' rest : step s a id s' → run s' rest → run s ((a, id, s') :: rest).

(** ** The invariant *)

Definition identity_bounds (s : State) : Prop :=
  1 ≤ next_id s ≤ MAX_ID + 1 ∧ server_watermark s ≤ MAX_ID ∧ in_flight s ≤ MAX_ID ∧
  (∀ id, id ∈ pending s → id ∈ IDS ∧ id < next_id s) ∧
  (∀ id, id ∈ acknowledged s → id ∈ IDS ∧ id < next_id s).

Definition client_queue_is_a_partition (s : State) : Prop :=
  ∀ id, id ∈ IDS →
    id < next_id s ∧ (id ∈ pending s ∧ (id ∉ acknowledged s) ∨ id ∈ acknowledged s ∧ (id ∉ pending s)) ∨
    next_id s ≤ id ∧ (id ∉ pending s) ∧ (id ∉ acknowledged s).

Definition ledger_is_contiguous (s : State) : Prop :=
  ledger s = filter (λ id, id ≤ server_watermark s) IDS.

Definition outcomes_partition_ledger (s : State) : Prop :=
  (∀ id, id ∈ applied s → id ∈ ledger s) ∧ (∀ id, id ∈ rejected s → id ∈ ledger s) ∧
  (∀ id, id ∈ ledger s → id ∈ applied s ∨ id ∈ rejected s) ∧ (∀ id, id ∈ applied s → id ∉ rejected s).

Definition effects_are_exactly_once (s : State) : Prop :=
  ∀ id, id ∈ IDS → effect_count s !! id = Some (if has id (applied s) then 1 else 0).

Definition acknowledgement_is_safe (s : State) : Prop :=
  (∀ id, id ∈ acknowledged s → id ∈ ledger s) ∧ (∀ id, id ∈ acknowledged s → id ∉ pending s).

Definition checkpoints_are_ordered (s : State) : Prop :=
  server_checkpoint s = N.of_nat (size (ledger s)) ∧ server_checkpoint s = server_watermark s ∧
  local_checkpoint s ≤ server_checkpoint s ∧ retention_floor s ≤ server_checkpoint s.

Definition reset_is_atomic (s : State) : Prop :=
  reset_phase s = Replacing →
  pending s = reset_pending_before s ∧ local_checkpoint s = reset_checkpoint_before s.

Definition in_flight_is_queued (s : State) : Prop :=
  in_flight s ≠ NO_ID →
  in_flight s ∈ IDS ∧ in_flight s ∈ pending s ∧
  (in_flight s ∈ ledger s ∨ in_flight s = server_watermark s + 1).

Definition response_is_bounded (s : State) : Prop :=
  if response_present s then
    response_mutation_id s ∈ IDS ∧ 1 ≤ response_watermark s ≤ MAX_ID ∧
    response_checkpoint s ≤ server_checkpoint s ∧
    (response_valid_for_in_flight s = true →
     in_flight s = response_mutation_id s ∧ response_watermark s = response_mutation_id s ∧
     response_mutation_id s ∈ ledger s)
  else
    response_mutation_id s = NO_ID ∧ response_watermark s = 0 ∧ response_checkpoint s = 0 ∧
    response_valid_for_in_flight s = false.

Record protocol_safety (s : State) : Prop := {
  safe_bounds : identity_bounds s;
  safe_partition : client_queue_is_a_partition s;
  safe_ledger : ledger_is_contiguous s;
  safe_outcomes : outcomes_partition_ledger s;
  safe_effects : effects_are_exactly_once s;
  safe_acknowledged : acknowledgement_is_safe s;
  safe_checkpoints : checkpoints_are_ordered s;
  safe_reset : reset_is_atomic s;
  safe_in_flight : in_flight_is_queued s;
  safe_response : response_is_bounded s
}.

(** ** Lemmas *)

Lemma elem_of_IDS id : id ∈ IDS ↔ 1 ≤ id ≤ MAX_ID.
Proof. unfold IDS, MAX_ID. rewrite !elem_of_union, !elem_of_singleton. lia. Qed.

Lemma has_true id ids : has id ids = true ↔ id ∈ ids.
Proof. apply bool_decide_eq_true. Qed.

Lemma has_false id ids : has id ids = false ↔ id ∉ ids.
Proof. apply bool_decide_eq_false. Qed.

Lemma all_of_Some c n s : all_of c n = Some s ↔ c = true ∧ s = n.
Proof. unfold all_of. destruct c; naive_solver. Qed.

Lemma oldest_spec s id : is_oldest_pending s id = true ↔ id ∈ pending s ∧ ∀ other, other ∈ pending s → id ≤ other.
Proof. unfold is_oldest_pending. by rewrite andb_true_iff, has_true, bool_decide_eq_true. Qed.

(** [guards H] turns an enabled action into its guards and its next state. *)
Ltac guards H :=
  unfold attempt, enqueue, send, apply_new, reject_new, reply_duplicate, inject_mismatched_response,
    lose_committed_response, lose_uncommitted_request, discard_malformed_response, acknowledge, pull, compact,
    begin_reset, crash_during_reset, finish_reset in H;
  first [injection H as <- | apply all_of_Some in H as [H ->]];
  unfold is_idle, is_replacing in H; rewrite ?andb_true_iff, ?orb_true_iff, ?negb_true_iff, ?has_true, ?has_false,
    ?N.eqb_eq, ?N.eqb_neq, ?N.leb_le, ?N.ltb_lt, ?oldest_spec, ?bool_decide_eq_true in H; destruct_and?.

(** Membership in the sets of the next state. *)
Ltac sets := rewrite ?elem_of_union, ?elem_of_singleton, ?elem_of_filter in *.

Lemma step_bounds s a id s' : id ∈ IDS → attempt a id s = Some s' → protocol_safety s → identity_bounds s'.
Proof.
  unfold identity_bounds. intros Hid H [(Hn & Hw & Hf & Hp & Ha) _ _ _ _ _ _ _ Hq Hr].
  unfold identity_bounds in *. setoid_rewrite elem_of_IDS. setoid_rewrite elem_of_IDS in Hp. setoid_rewrite elem_of_IDS in Ha.
  apply elem_of_IDS in Hid. unfold in_flight_is_queued, NO_ID in Hq. rewrite elem_of_IDS in Hq.
  destruct a; guards H; simpl; unfold NO_ID in *; try done;
    (split; [lia|split; [lia|split; [lia|split; intros x Hx]]]); sets;
    first [by apply Hp|by apply Ha|naive_solver lia].
Qed.

Lemma step_partition a id s s' : attempt a id s = Some s' → protocol_safety s → client_queue_is_a_partition s'.
Proof.
  unfold client_queue_is_a_partition. intros H [(Hn & _ & _ & Hpb & Hab) Hp _ _ _ _ _ _ _ _] x Hx. specialize (Hp x Hx).
  assert ((next_id s ∉ pending s) ∧ (next_id s ∉ acknowledged s)) as [Hnp Hna]
    by (split; [intros Hin%Hpb|intros Hin%Hab]; lia).
  destruct a; guards H; simpl; sets; try exact Hp; destruct (decide (x = id)), (decide (x = next_id s)); naive_solver lia.
Qed.

Lemma step_ledger a id s s' : id ∈ IDS → attempt a id s = Some s' → protocol_safety s → ledger_is_contiguous s'.
Proof.
  unfold ledger_is_contiguous. intros Hid H [_ _ Hl _ _ _ _ _ _ _].
  destruct a; guards H; simpl; try exact Hl; apply set_eq; intros x; rewrite Hl; sets; rewrite !elem_of_IDS in *; naive_solver lia.
Qed.

Lemma step_outcomes a id s s' : attempt a id s = Some s' → protocol_safety s → outcomes_partition_ledger s'.
Proof.
  unfold outcomes_partition_ledger. intros H [_ _ _ (Ha & Hr & Hl & Hd) _ _ _ _ _ _].
  destruct a; guards H; simpl; try done; (split; [|split; [|split]]); intros x Hx; sets; naive_solver.
Qed.

Lemma step_effects a id s s' : attempt a id s = Some s' → protocol_safety s → effects_are_exactly_once s'.
Proof.
  unfold effects_are_exactly_once. intros H [_ _ _ (Ha & _) He _ _ _ _ _] x Hx. specialize (He x Hx).
  destruct a; guards H; simpl; try exact He. destruct (decide (x = id)) as [->|Hne].
  - assert (id ∉ applied s) as Hi by auto. apply has_false in Hi. rewrite lookup_alter_eq, He, Hi.
    unfold has. by rewrite bool_decide_eq_true_2 by set_solver.
  - rewrite lookup_alter_ne by done. rewrite He. f_equal.
    assert (has x (applied s) = has x (applied s ∪ {[id]})) as <-; [|done]. apply bool_decide_ext. set_solver.
Qed.

Lemma step_acknowledged a id s s' : attempt a id s = Some s' → protocol_safety s → acknowledgement_is_safe s'.
Proof.
  unfold acknowledgement_is_safe. intros H [(_ & _ & _ & _ & Hb) _ _ _ _ (Ha & Hp) _ _ _ _].
  destruct a; guards H; simpl; try done; split; intros x Hx; sets; try naive_solver.
  intros [?| ->]; [by eapply Hp|]. apply Hb in Hx as [_ ?]. lia.
Qed.

Lemma size_prefix n : n ≤ MAX_ID → N.of_nat (size (filter (λ id, id ≤ n) IDS)) = n.
Proof.
  unfold MAX_ID. intros Hn. assert (n = 0 ∨ n = 1 ∨ n = 2 ∨ n = 3) as [->|[->|[->| ->]]] by lia; reflexivity.
Qed.

Lemma step_checkpoints a id s s' : id ∈ IDS → attempt a id s = Some s' → protocol_safety s → checkpoints_are_ordered s'.
Proof.
  unfold checkpoints_are_ordered. intros Hid H Hs. pose proof (step_ledger _ _ _ _ Hid H Hs) as Hl'.
  pose proof (step_bounds _ _ _ _ Hid H Hs) as (_ & Hw' & _). unfold ledger_is_contiguous in Hl'. rewrite Hl', size_prefix by done.
  destruct Hs as [_ _ _ _ _ _ (Hc & Hcw & Hlo & Hfl) _ _ _]. clear Hl' Hw'.
  destruct a; guards H; simpl; repeat split; lia.
Qed.

Lemma step_reset a id s s' : attempt a id s = Some s' → protocol_safety s → reset_is_atomic s'.
Proof.
  unfold reset_is_atomic. intros H [_ _ _ _ _ _ _ Hr _ _].
  destruct a; guards H; simpl; intros Hx; first [by apply Hr|congruence|done].
Qed.

Lemma step_in_flight a id s s' : id ∈ IDS → attempt a id s = Some s' → protocol_safety s → in_flight_is_queued s'.
Proof.
  unfold in_flight_is_queued, NO_ID. intros Hid H [_ _ _ _ _ _ _ _ Hq _].
  destruct a; guards H; simpl; intros Hx; first [by apply Hq|by destruct Hx|by repeat split|specialize (Hq Hx)];
    destruct Hq as (Hi & Hp & Hl); sets; intuition congruence.
Qed.

Lemma step_response a id s s' : id ∈ IDS → attempt a id s = Some s' → protocol_safety s → response_is_bounded s'.
Proof.
  unfold response_is_bounded. intros Hid H [_ _ _ _ _ _ (_ & Hcw & _) _ _ Hr]. pose proof (proj1 (elem_of_IDS id) Hid).
  destruct a; guards H; simpl; try exact Hr; try done; try (repeat split; first [done|lia|set_solver]);
    unfold response_is_bounded in Hr; by destruct (response_present s).
Qed.

Lemma step_safe s a id s' : step s a id s' → protocol_safety s → protocol_safety s'.
Proof.
  destruct 1 as [s a id s' Hid H]. intros Hs. split.
  - by eapply step_bounds.
  - by eapply step_partition.
  - by eapply step_ledger.
  - by eapply step_outcomes.
  - by eapply step_effects.
  - by eapply step_acknowledged.
  - by eapply step_checkpoints.
  - by eapply step_reset.
  - by eapply step_in_flight.
  - by eapply step_response.
Qed.

Lemma init_safe : protocol_safety init.
Proof.
  split; unfold identity_bounds, client_queue_is_a_partition, ledger_is_contiguous, outcomes_partition_ledger,
    effects_are_exactly_once, acknowledgement_is_safe, checkpoints_are_ordered, reset_is_atomic, in_flight_is_queued,
    response_is_bounded, MAX_ID; simpl; try (repeat split; first [done|lia|set_solver]); try done.
  intros id Hid. right. apply elem_of_IDS in Hid. split; [lia|set_solver].
Qed.

(** *** Along a run *)

Lemma run_safe s t : run s t → protocol_safety s → Forall (λ x, protocol_safety x.2) t.
Proof. induction 1 as [|s a id s' t Hs _ IH]; intros H; constructor; [|apply IH]; by eapply step_safe. Qed.

(** The request in flight stays the oldest: identities are queued in order. *)
Definition oldest_in_flight (s : State) : Prop := in_flight s ≠ NO_ID → is_oldest_pending s (in_flight s) = true.

Lemma step_oldest s a id s' : step s a id s' → protocol_safety s → oldest_in_flight s → oldest_in_flight s'.
Proof.
  unfold oldest_in_flight, NO_ID. setoid_rewrite oldest_spec. destruct 1 as [s a id s' Hid H].
  intros [(_ & _ & _ & Hb & _) _ _ _ _ _ _ _ _ _] Ho.
  destruct a; guards H; simpl; intros Hx; first [by apply Ho|by destruct Hx|done|idtac].
  destruct (Ho Hx) as [Hin Hle]. split; [by sets; left|]. intros x. sets. intros [?| ->]; [auto|].
  destruct (Hb _ Hin) as [_ ?]. lia.
Qed.
End Quint.

(** ** Properties *)

(** C9: the executable specification is safe in every state of every run: the
    identities of the client are bounded and partitioned into queued and
    acknowledged, the server's ledger is a contiguous prefix, an applied mutation
    took effect exactly once and a rejected one never, only what the ledger holds
    was acknowledged, checkpoints are ordered, a reset is atomic, and a request in
    flight and its response belong to a queued mutation. *)
Theorem reachable_safe (t : list (Quint.Action * N * Quint.State)) :
  Quint.run Quint.init t → Forall (λ x, Quint.protocol_safety x.2) t.
Proof. intros H. eapply Quint.run_safe; [exact H|apply Quint.init_safe]. Qed.

(** Runs are found by evaluation. *)
Fixpoint run_of (s : Quint.State) (moves : list (Quint.Action * N)) : option (list (Quint.Action * N * Quint.State)) :=
  match moves with
  | [] => Some []
  | (a, id) :: moves =>
      if bool_decide (id ∈ Quint.IDS) then
        match Quint.attempt a id s with
        | Some s' => match run_of s' moves with Some rest => Some ((a, id, s') :: rest) | None => None end
        | None => None
        end
      else None
  end.

Lemma run_of_run moves : ∀ s t, run_of s moves = Some t → Quint.run s t.
Proof.
  induction moves as [|[a id] moves IH]; intros s t; cbn [run_of]; [intros [= <-]; constructor|].
  case_bool_decide as Hid; [|done]. destruct (Quint.attempt a id s) as [s'|] eqn:E; [|done].
  destruct (run_of s' moves) as [rest|] eqn:Er; [|done]. intros [= <-]. constructor; [by constructor|by apply IH].
Qed.

(** A run with every action: lost requests and responses, a retry, a malformed
    response, a rejection, a compaction, a crashed and a finished reset. *)
Definition demo_moves : list (Quint.Action * N) :=
  [(Quint.Enqueue, 1); (Quint.Send, 1); (Quint.LoseUncommittedRequest, 1); (Quint.Send, 1); (Quint.ApplyNew, 1);
   (Quint.LoseCommittedResponse, 1); (Quint.Send, 1); (Quint.Enqueue, 3); (Quint.ReplyDuplicate, 1);
   (Quint.Acknowledge, 1); (Quint.Send, 2); (Quint.InjectMismatchedResponse, 3);
   (Quint.DiscardMalformedResponse, 1); (Quint.Send, 2); (Quint.RejectNew, 2); (Quint.Acknowledge, 2);
   (Quint.Compact, 1); (Quint.BeginReset, 1); (Quint.CrashDuringReset, 1); (Quint.BeginReset, 1);
   (Quint.FinishReset, 2); (Quint.IdleAction, 1); (Quint.Pull, 1)].

Definition demo_run : list (Quint.Action * N * Quint.State) := default [] (run_of Quint.init demo_moves).

Lemma demo_run_runs : Quint.run Quint.init demo_run ∧ length demo_run = 23%nat.
Proof.
  assert (is_some (run_of Quint.init demo_moves) = true) as H by (vm_compute; reflexivity).
  split; [|vm_compute; reflexivity]. apply (run_of_run demo_moves). unfold demo_run. by destruct (run_of _ _).
Qed.

Lemma reachable_safe_witness :
  Forall (λ x, Quint.protocol_safety x.2) demo_run ∧
  Quint.acknowledged (default Quint.init (last (List.map snd demo_run))) = {[1; 2]}.
Proof. split; [|vm_compute; reflexivity]. apply reachable_safe. apply demo_run_runs. Defined.
