(* ===== verification/ProtocolSync.v ===== *)
(** * ProtocolSync: the pull / push / pull synchronization cycle

    Models [clients/rust/src/protocol_sync.rs].  The transport, the application's
    callbacks and the durable store are the traits of the source: type classes
    whose operations act on a world of their own.  A cycle is a function on the
    environment (queue, worlds, counters). *)

From S2P Require Import Prelude Text Decimal Btree Json JsonCodec Consistency Protocol State.

Record ResetRequired := {
  rr_protocol_version : N;
  rr_error : string;
  rr_snapshot_url : option string
}.

Inductive PullResult :=
| Changes (page : PullResponse)
| Reset (reset : ResetRequired).

(** A [Duration] is its number of nanoseconds. *)
Record TransportFailure (E : Type) := {
  tf_source : E;
  tf_retryable : bool;
  tf_retry_after : option N
}.

Class ProtocolTransport (T E : Type) := {
  tr_push : PushRequest → T → T * result PushResponse (TransportFailure E);
  tr_pull : string → N → T → T * result PullResult (TransportFailure E);
  tr_snapshot : ResetRequired → T → T * result SnapshotResponse (TransportFailure E)
}.

Class ProtocolSyncCallbacks (C E : Type) := {
  cb_apply_changes : list Change → C → C * result unit E;
  cb_replace_authoritative : list SnapshotRecord → C → C * result unit E
}.

Class ProtocolQueuePersistence (P E : Type) := {
  ps_persist : ProtocolQueue → P → P * result unit E
}.

(** A store that commits rows and queue together may rewrite the queue it is
    given ([&mut ProtocolQueue]). *)
Class AtomicProtocolSyncStore (S E : Type) := {
  st_persist_queue : ProtocolQueue → S → S * ProtocolQueue * result unit E;
  st_persist_acknowledgement :
    ProtocolQueue → PushRequest → PushResponse → S → S * ProtocolQueue * result unit E;
  st_apply_changes_and_persist :
    list Change → ProtocolQueue → S → S * ProtocolQueue * result unit E;
  st_replace_authoritative_and_persist :
    list SnapshotRecord → ProtocolQueue → S → S * ProtocolQueue * result unit E
}.

Inductive ProtocolSyncError (T A P : Type) :=
| SyncTransport (e : TransportFailure T)
| SyncApplication (e : A)
| SyncPersistence (e : P)
| SyncProtocol (e : ProtocolError)
| SyncInvalidResponse (message : string).
Arguments SyncTransport {T A P} e.
Arguments SyncApplication {T A P} e.
Arguments SyncPersistence {T A P} e.
Arguments SyncProtocol {T A P} e.
Arguments SyncInvalidResponse {T A P} message.

Record ProtocolSyncOptions := {
  push_limit : N;
  pull_limit : N;
  max_push_batches_per_cycle : N;
  max_pull_pages_per_phase : N
}.

Definition default_sync_options : ProtocolSyncOptions :=
  {| push_limit := 100; pull_limit := 100; max_push_batches_per_cycle := 10;
     max_pull_pages_per_phase := 100 |}.

(** [ProtocolSyncOptions::validate], which [ProtocolSyncDriver::new] runs. *)
Definition validate_options (o : ProtocolSyncOptions) : result ProtocolSyncOptions ProtocolError :=
  if negb ((1 <=? push_limit o) && (push_limit o <=? 100))
     || negb ((1 <=? pull_limit o) && (pull_limit o <=? 1000))
     || (max_push_batches_per_cycle o =? 0)
     || (max_pull_pages_per_phase o =? 0)
  then Err InvalidLimit else Ok o.

Record ProtocolSyncCycleResult := {
  cy_pushed_mutations : N;
  cy_acknowledged_mutations : N;
  cy_pulled_changes : N;
  cy_installed_snapshots : N;
  cy_checkpoint : string;
  cy_has_more_pending : bool
}.

Definition empty_result (checkpoint : string) : ProtocolSyncCycleResult :=
  {| cy_pushed_mutations := 0; cy_acknowledged_mutations := 0; cy_pulled_changes := 0;
     cy_installed_snapshots := 0; cy_checkpoint := checkpoint; cy_has_more_pending := false |}.

Definition add_pushed (sent acknowledged : N) (r : ProtocolSyncCycleResult) : ProtocolSyncCycleResult :=
  {| cy_pushed_mutations := cy_pushed_mutations r + sent;
     cy_acknowledged_mutations := cy_acknowledged_mutations r + acknowledged;
     cy_pulled_changes := cy_pulled_changes r;
     cy_installed_snapshots := cy_installed_snapshots r;
     cy_checkpoint := cy_checkpoint r; cy_has_more_pending := cy_has_more_pending r |}.
Definition add_pulled (n : N) (r : ProtocolSyncCycleResult) : ProtocolSyncCycleResult :=
  {| cy_pushed_mutations := cy_pushed_mutations r;
     cy_acknowledged_mutations := cy_acknowledged_mutations r;
     cy_pulled_changes := cy_pulled_changes r + n;
     cy_installed_snapshots := cy_installed_snapshots r;
     cy_checkpoint := cy_checkpoint r; cy_has_more_pending := cy_has_more_pending r |}.
Definition add_snapshot (r : ProtocolSyncCycleResult) : ProtocolSyncCycleResult :=
  {| cy_pushed_mutations := cy_pushed_mutations r;
     cy_acknowledged_mutations := cy_acknowledged_mutations r;
     cy_pulled_changes := cy_pulled_changes r;
     cy_installed_snapshots := cy_installed_snapshots r + 1;
     cy_checkpoint := cy_checkpoint r; cy_has_more_pending := cy_has_more_pending r |}.
Definition set_has_more (b : bool) (r : ProtocolSyncCycleResult) : ProtocolSyncCycleResult :=
  {| cy_pushed_mutations := cy_pushed_mutations r;
     cy_acknowledged_mutations := cy_acknowledged_mutations r;
     cy_pulled_changes := cy_pulled_changes r;
     cy_installed_snapshots := cy_installed_snapshots r;
     cy_checkpoint := cy_checkpoint r; cy_has_more_pending := b |}.
Definition set_result_checkpoint (c : string) (r : ProtocolSyncCycleResult) : ProtocolSyncCycleResult :=
  {| cy_pushed_mutations := cy_pushed_mutations r;
     cy_acknowledged_mutations := cy_acknowledged_mutations r;
     cy_pulled_changes := cy_pulled_changes r;
     cy_installed_snapshots := cy_installed_snapshots r;
     cy_checkpoint := c; cy_has_more_pending := cy_has_more_pending r |}.

(** ** Response validation *)

Definition invalid_snapshot_record (r : SnapshotRecord) : bool :=
  is_empty (snap_table r) || is_empty (snap_record_id r) || negb (is_object (snap_record r))
  || is_none_or (decimal_u64 (snap_revision r)) (λ n, n =? 0).

Definition validate_snapshot (snapshot : SnapshotResponse) (prior_checkpoint : string)
  : result unit string :=
  match decimal_u64 (snap_checkpoint snapshot) with
  | None => Err "invalid protocol snapshot response"
  | Some checkpoint =>
      match decimal_u64 prior_checkpoint with
      | None => Err "invalid local protocol checkpoint"
      | Some prior =>
          if negb (snap_protocol_version snapshot =? 1) || (checkpoint <? prior)
             || existsb invalid_snapshot_record (snap_records snapshot)
          then Err "invalid protocol snapshot response" else Ok ()
      end
  end.

Definition invalid_change (last page_checkpoint checkpoint : N) (c : Change) : bool :=
  (checkpoint <=? last) || (page_checkpoint <? checkpoint)
  || is_empty (ch_table c) || is_empty (ch_record_id c)
  || is_none_or (decimal_u64 (ch_revision c)) (λ n, n =? 0)
  || match ch_operation c with
     | Upsert => is_none_or (ch_record c) (λ r, negb (is_object r))
     | Delete => is_some (ch_record c)
     end
  || is_some_and (ch_source c) (λ s,
       is_empty (src_client_id s) || is_none_or (decimal_u64 (src_mutation_id s)) (λ n, n =? 0)).

Fixpoint validate_changes (last page_checkpoint : N) (changes : list Change) : result unit string :=
  match changes with
  | [] => Ok ()
  | c :: cs =>
      match decimal_u64 (ch_checkpoint c) with
      | None => Err "invalid protocol pull change"
      | Some checkpoint =>
          if invalid_change last page_checkpoint checkpoint c
          then Err "invalid protocol pull change"
          else validate_changes checkpoint page_checkpoint cs
      end
  end.

Definition validate_pull_page (page : PullResponse) (prior_checkpoint : string)
  : result unit string :=
  match decimal_u64 (pull_checkpoint page) with
  | None => Err "invalid protocol pull response"
  | Some page_checkpoint =>
      match decimal_u64 prior_checkpoint with
      | None => Err "invalid local protocol checkpoint"
      | Some last =>
          if negb (pull_protocol_version page =? 1) || (page_checkpoint <? last)
          then Err "invalid protocol pull response"
          else validate_changes last page_checkpoint (pull_changes page)
      end
  end.

Definition invalid_reset (r : ResetRequired) : bool :=
  negb (rr_protocol_version r =? 1) || negb (rr_error r == "RESET_REQUIRED").

(** ** The driver over separate callbacks and persistence *)

Section Driver.
Context {T C P ET EC EP : Type}.
Context `{!ProtocolTransport T ET, !ProtocolSyncCallbacks C EC, !ProtocolQueuePersistence P EP}.

Record env := {
  e_queue : ProtocolQueue;
  e_transport : T;
  e_callbacks : C;
  e_persistence : P;
  e_result : ProtocolSyncCycleResult
}.

Definition SyncM := M env (ProtocolSyncError ET EC EP).

Definition set_queue (q : ProtocolQueue) (s : env) : env :=
  {| e_queue := q; e_transport := e_transport s; e_callbacks := e_callbacks s;
     e_persistence := e_persistence s; e_result := e_result s |}.
Definition set_transport (t : T) (s : env) : env :=
  {| e_queue := e_queue s; e_transport := t; e_callbacks := e_callbacks s;
     e_persistence := e_persistence s; e_result := e_result s |}.
Definition set_callbacks (c : C) (s : env) : env :=
  {| e_queue := e_queue s; e_transport := e_transport s; e_callbacks := c;
     e_persistence := e_persistence s; e_result := e_result s |}.
Definition set_persistence (p : P) (s : env) : env :=
  {| e_queue := e_queue s; e_transport := e_transport s; e_callbacks := e_callbacks s;
     e_persistence := p; e_result := e_result s |}.
Definition set_result (f : ProtocolSyncCycleResult → ProtocolSyncCycleResult) (s : env) : env :=
  {| e_queue := e_queue s; e_transport := e_transport s; e_callbacks := e_callbacks s;
     e_persistence := e_persistence s; e_result := f (e_result s) |}.

(** The calls of the cycle, with their [map_err]. *)
Definition call_push (request : PushRequest) : SyncM PushResponse := λ s,
  let '(t, r) := tr_push request (e_transport s) in (set_transport t s, map_err SyncTransport r).
Definition call_pull (checkpoint : string) (limit : N) : SyncM PullResult := λ s,
  let '(t, r) := tr_pull checkpoint limit (e_transport s) in
  (set_transport t s, map_err SyncTransport r).
Definition call_snapshot (reset : ResetRequired) : SyncM SnapshotResponse := λ s,
  let '(t, r) := tr_snapshot reset (e_transport s) in (set_transport t s, map_err SyncTransport r).
Definition call_apply_changes (changes : list Change) : SyncM unit := λ s,
  let '(c, r) := cb_apply_changes changes (e_callbacks s) in
  (set_callbacks c s, map_err SyncApplication r).
Definition call_install_snapshot (snapshot : SnapshotResponse) : SyncM unit := λ s,
  match install_snapshot (e_queue s) snapshot cb_replace_authoritative (e_callbacks s) with
  | (q, c, Ok _) => (set_queue q (set_callbacks c s), Ok ())
  | (q, c, Err (SnapshotProtocol e)) => (set_queue q (set_callbacks c s), Err (SyncProtocol e))
  | (q, c, Err (SnapshotReplace e)) => (set_queue q (set_callbacks c s), Err (SyncApplication e))
  end.
Definition call_set_checkpoint (c : string) : SyncM unit := λ s,
  let '(q, r) := set_checkpoint (e_queue s) c in (set_queue q s, map_err SyncProtocol r).
Definition call_acknowledge (response : PushResponse) (request : PushRequest) : SyncM N := λ s,
  let '(q, r) := acknowledge (e_queue s) response request in (set_queue q s, map_err SyncProtocol r).

(** [if let Err(error) = persistence.persist(queue) { *queue = prior; return Err }]. *)
Definition persist_or_restore (prior : ProtocolQueue) : SyncM unit := λ s,
  match ps_persist (e_queue s) (e_persistence s) with
  | (p, Ok _) => (set_persistence p s, Ok ())
  | (p, Err e) => (set_queue prior (set_persistence p s), Err (SyncPersistence e))
  end.

(** One iteration of the pull loop; [true] asks for the next page. *)
Definition pull_page (o : ProtocolSyncOptions) : SyncM bool :=
  prior_checkpoint ←? gets (λ s, checkpoint (e_queue s));
  answer ←? call_pull prior_checkpoint (pull_limit o);
  match answer with
  | Reset reset =>
      if invalid_reset reset then fail (SyncInvalidResponse "invalid protocol reset response") else
      snapshot ←? call_snapshot reset;
      lift (map_err SyncInvalidResponse (validate_snapshot snapshot prior_checkpoint)) ;;?
      prior ←? gets e_queue;
      call_install_snapshot snapshot ;;?
      persist_or_restore prior ;;?
      modify (set_result add_snapshot) ;;?
      ret true
  | Changes page =>
      lift (map_err SyncInvalidResponse (validate_pull_page page prior_checkpoint)) ;;?
      (if count (pull_changes page) =? 0 then ret ()
       else call_apply_changes (pull_changes page) ;;?
            modify (set_result (add_pulled (count (pull_changes page))))) ;;?
      prior ←? gets e_queue;
      call_set_checkpoint (pull_checkpoint page) ;;?
      persist_or_restore prior ;;?
      if negb (pull_has_more page) then ret false
      else if pull_checkpoint page == prior_checkpoint
      then fail (SyncInvalidResponse "pull response hasMore without checkpoint progress")
      else ret true
  end.

Fixpoint pull_loop (o : ProtocolSyncOptions) (pages : nat) : SyncM unit :=
  match pages with
  | O => fail (SyncInvalidResponse "pull page safety limit exceeded")
  | S pages => more ←? pull_page o; if more : bool then pull_loop o pages else ret ()
  end.

Definition pull_to_current (o : ProtocolSyncOptions) : SyncM unit :=
  pull_loop o (N.to_nat (max_pull_pages_per_phase o)).

(** One iteration of the push loop; [false] is its [break]. *)
Definition push_batch (o : ProtocolSyncOptions) : SyncM bool :=
  queue ←? gets e_queue;
  request ←? lift (map_err SyncProtocol (push_request queue (push_limit o)));
  if count (req_mutations request) =? 0 then ret false else
  response ←? call_push request;
  prior ←? gets e_queue;
  acknowledged ←? call_acknowledge response request;
  persist_or_restore prior ;;?
  modify (set_result (add_pushed (count (req_mutations request)) acknowledged)) ;;?
  ret true.

Fixpoint push_loop (o : ProtocolSyncOptions) (batches : nat) : SyncM unit :=
  match batches with
  | O => ret ()
  | S batches => more ←? push_batch o; if more : bool then push_loop o batches else ret ()
  end.

(** [sync_cycle], from an environment whose counters it resets. *)
Definition sync_cycle (o : ProtocolSyncOptions) : SyncM ProtocolSyncCycleResult :=
  modify (λ s, set_result (λ _, empty_result (checkpoint (e_queue s))) s) ;;?
  pull_to_current o ;;?
  push_loop o (N.to_nat (max_push_batches_per_cycle o)) ;;?
  modify (λ s, set_result (set_has_more (negb (count (pending (e_queue s)) =? 0))) s) ;;?
  pull_to_current o ;;?
  modify (λ s, set_result (set_result_checkpoint (checkpoint (e_queue s))) s) ;;?
  gets e_result.
End Driver.
Arguments env : clear implicits.

(** ** The driver over one transactional store *)

Section AtomicDriver.
Context {T S ET ES : Type}.
Context `{!ProtocolTransport T ET, !AtomicProtocolSyncStore S ES}.

Record aenv := {
  a_queue : ProtocolQueue;
  a_transport : T;
  a_store : S;
  a_result : ProtocolSyncCycleResult
}.

Definition AtomicM := M aenv (ProtocolSyncError ET ES ES).

Definition aset_queue (q : ProtocolQueue) (s : aenv) : aenv :=
  {| a_queue := q; a_transport := a_transport s; a_store := a_store s; a_result := a_result s |}.
Definition aset_transport (t : T) (s : aenv) : aenv :=
  {| a_queue := a_queue s; a_transport := t; a_store := a_store s; a_result := a_result s |}.
Definition aset_store (st : S) (s : aenv) : aenv :=
  {| a_queue := a_queue s; a_transport := a_transport s; a_store := st; a_result := a_result s |}.
Definition aset_result (f : ProtocolSyncCycleResult → ProtocolSyncCycleResult) (s : aenv) : aenv :=
  {| a_queue := a_queue s; a_transport := a_transport s; a_store := a_store s;
     a_result := f (a_result s) |}.

Definition acall_push (request : PushRequest) : AtomicM PushResponse := λ s,
  let '(t, r) := tr_push request (a_transport s) in (aset_transport t s, map_err SyncTransport r).
Definition acall_pull (checkpoint : string) (limit : N) : AtomicM PullResult := λ s,
  let '(t, r) := tr_pull checkpoint limit (a_transport s) in
  (aset_transport t s, map_err SyncTransport r).
Definition acall_snapshot (reset : ResetRequired) : AtomicM SnapshotResponse := λ s,
  let '(t, r) := tr_snapshot reset (a_transport s) in (aset_transport t s, map_err SyncTransport r).
Definition acall_set_checkpoint (c : string) : AtomicM unit := λ s,
  let '(q, r) := set_checkpoint (a_queue s) c in (aset_queue q s, map_err SyncProtocol r).
Definition acall_acknowledge (response : PushResponse) (request : PushRequest) : AtomicM N := λ s,
  let '(q, r) := acknowledge (a_queue s) response request in (aset_queue q s, map_err SyncProtocol r).

(** [if let Err(error) = store.<op>(.., queue) { *queue = prior; return Err }]. *)
Definition commit_or_restore (prior : ProtocolQueue) (wrap : ES → ProtocolSyncError ET ES ES)
    (op : ProtocolQueue → S → S * ProtocolQueue * result unit ES) : AtomicM unit := λ s,
  match op (a_queue s) (a_store s) with
  | (st, q, Ok _) => (aset_queue q (aset_store st s), Ok ())
  | (st, _, Err e) => (aset_queue prior (aset_store st s), Err (wrap e))
  end.

Definition pull_page_atomic (o : ProtocolSyncOptions) : AtomicM bool :=
  prior_checkpoint ←? gets (λ s, checkpoint (a_queue s));
  answer ←? acall_pull prior_checkpoint (pull_limit o);
  match answer with
  | Reset reset =>
      if invalid_reset reset then fail (SyncInvalidResponse "invalid protocol reset response") else
      snapshot ←? acall_snapshot reset;
      lift (map_err SyncInvalidResponse (validate_snapshot snapshot prior_checkpoint)) ;;?
      prior ←? gets a_queue;
      acall_set_checkpoint (snap_checkpoint snapshot) ;;?
      commit_or_restore prior SyncApplication
        (st_replace_authoritative_and_persist (snap_records snapshot)) ;;?
      modify (aset_result add_snapshot) ;;?
      ret true
  | Changes page =>
      lift (map_err SyncInvalidResponse (validate_pull_page page prior_checkpoint)) ;;?
      prior ←? gets a_queue;
      acall_set_checkpoint (pull_checkpoint page) ;;?
      commit_or_restore prior SyncApplication (st_apply_changes_and_persist (pull_changes page)) ;;?
      modify (aset_result (add_pulled (count (pull_changes page)))) ;;?
      if negb (pull_has_more page) then ret false
      else if pull_checkpoint page == prior_checkpoint
      then fail (SyncInvalidResponse "pull response hasMore without checkpoint progress")
      else ret true
  end.

Fixpoint pull_loop_atomic (o : ProtocolSyncOptions) (pages : nat) : AtomicM unit :=
  match pages with
  | O => fail (SyncInvalidResponse "pull page safety limit exceeded")
  | Datatypes.S pages =>
      more ←? pull_page_atomic o; if more : bool then pull_loop_atomic o pages else ret ()
  end.

Definition pull_to_current_atomic (o : ProtocolSyncOptions) : AtomicM unit :=
  pull_loop_atomic o (N.to_nat (max_pull_pages_per_phase o)).

Definition push_batch_atomic (o : ProtocolSyncOptions) : AtomicM bool :=
  queue ←? gets a_queue;
  request ←? lift (map_err SyncProtocol (push_request queue (push_limit o)));
  if count (req_mutations request) =? 0 then ret false else
  response ←? acall_push request;
  prior ←? gets a_queue;
  acknowledged ←? acall_acknowledge response request;
  commit_or_restore prior SyncPersistence
    (λ q st, st_persist_acknowledgement q request response st) ;;?
  modify (aset_result (add_pushed (count (req_mutations request)) acknowledged)) ;;?
  ret true.

Fixpoint push_loop_atomic (o : ProtocolSyncOptions) (batches : nat) : AtomicM unit :=
  match batches with
  | O => ret ()
  | Datatypes.S batches =>
      more ←? push_batch_atomic o; if more : bool then push_loop_atomic o batches else ret ()
  end.

Definition sync_cycle_atomic (o : ProtocolSyncOptions) : AtomicM ProtocolSyncCycleResult :=
  modify (λ s, aset_result (λ _, empty_result (checkpoint (a_queue s))) s) ;;?
  pull_to_current_atomic o ;;?
  push_loop_atomic o (N.to_nat (max_push_batches_per_cycle o)) ;;?
  modify (λ s, aset_result (set_has_more (negb (count (pending (a_queue s)) =? 0))) s) ;;?
  pull_to_current_atomic o ;;?
  modify (λ s, aset_result (set_result_checkpoint (checkpoint (a_queue s))) s) ;;?
  gets a_result.
End AtomicDriver.
Arguments aenv : clear implicits.

(** ** Specification *)

(** The checkpoint a queue, or a change, stands at. *)
Definition queue_ck (q : ProtocolQueue) : N := decimal_of (checkpoint q).
Definition change_ck (c : Change) : N := decimal_of (ch_checkpoint c).

Definition positive_decimal (s : string) : Prop := ∃ n, 1 ≤ n ≤ u64_max ∧ s = to_dec n.

Record change_ok (c : Change) : Prop := {
  co_checkpoint : decimal_ok (ch_checkpoint c);
  co_table : ch_table c ≠ "";
  co_record_id : ch_record_id c ≠ "";
  co_revision : positive_decimal (ch_revision c);
  co_record : match ch_operation c with
              | Upsert => ∃ fields, ch_record c = Some (JObject fields)
              | Delete => ch_record c = None
              end;
  co_source : ∀ s, ch_source c = Some s →
    src_client_id s ≠ "" ∧ positive_decimal (src_mutation_id s)
}.

(** A page continues the checkpoint [prior]: its changes are strictly ordered
    after it and none lies beyond the page's own checkpoint. *)
Record page_ok (prior : string) (page : PullResponse) : Prop := {
  po_version : pull_protocol_version page = 1;
  po_prior : decimal_ok prior;
  po_checkpoint : decimal_ok (pull_checkpoint page);
  po_forward : decimal_of prior ≤ decimal_of (pull_checkpoint page);
  po_changes : Forall change_ok (pull_changes page);
  po_order : StronglySorted N.lt (decimal_of prior :: List.map change_ck (pull_changes page));
  po_bound : Forall (λ c, change_ck c ≤ decimal_of (pull_checkpoint page)) (pull_changes page)
}.

Definition snapshot_record_ok (r : SnapshotRecord) : Prop :=
  snap_table r ≠ "" ∧ snap_record_id r ≠ "" ∧ is_object (snap_record r) = true ∧
  positive_decimal (snap_revision r).

Record snapshot_ok (prior : string) (s : SnapshotResponse) : Prop := {
  sn_version : snap_protocol_version s = 1;
  sn_prior : decimal_ok prior;
  sn_checkpoint : decimal_ok (snap_checkpoint s);
  sn_forward : decimal_of prior ≤ decimal_of (snap_checkpoint s);
  sn_records : Forall snapshot_record_ok (snap_records s)
}.

(** The promises of the application's side: [durable] is the queue on disk, and
    [applied] the log of the changes whose application succeeded. *)
Class PersistenceLaws (P EP : Type) `{ProtocolQueuePersistence P EP} (durable : P → ProtocolQueue) := {
  persist_ok q p p' : ps_persist q p = (p', Ok ()) → durable p' = q;
  persist_err q p p' e : ps_persist q p = (p', Err e) → durable p' = durable p
}.

Class CallbackLaws (C EC : Type) `{ProtocolSyncCallbacks C EC} (applied : C → list Change) := {
  apply_ok changes c c' : cb_apply_changes changes c = (c', Ok ()) → applied c' = applied c ++ changes;
  apply_err changes c c' e : cb_apply_changes changes c = (c', Err e) → applied c' = applied c;
  replace_applied records c c' r : cb_replace_authoritative records c = (c', r) → applied c' = applied c
}.

(** ** Lemmas: response validation *)

Lemma decimal_u64_iff s n : decimal_u64 s = Some n ↔ n ≤ u64_max ∧ s = to_dec n.
Proof.
  split; [|by intros [? ->]; apply decimal_u64_to_dec].
  intros E. pose proof (decimal_u64_canonical _ _ E). apply decimal_u64_Some in E. naive_solver.
Qed.

Lemma decimal_ok_u64 s : decimal_ok s ↔ decimal_u64 s = Some (decimal_of s).
Proof.
  rewrite decimal_u64_iff. unfold decimal_ok. split.
  - intros (n & Hn & ->). by rewrite decimal_of_to_dec.
  - intros [H1 H2]. eauto.
Qed.

Lemma positive_decimal_iff s :
  is_none_or (decimal_u64 s) (λ n, n =? 0) = false ↔ positive_decimal s.
Proof.
  unfold positive_decimal. split.
  - destruct (decimal_u64 s) as [n|] eqn:E; simpl; [|done]. intros Hn.
    apply decimal_u64_iff in E as [? ->]. exists n. bsimp. split; [lia|done].
  - intros (n & Hn & ->). rewrite decimal_u64_to_dec by lia. simpl. bsimp. lia.
Qed.

Lemma is_object_iff v : is_object v = true ↔ ∃ fields, v = JObject fields.
Proof. destruct v; simpl; naive_solver. Qed.

Lemma invalid_change_iff last hi c : decimal_ok (ch_checkpoint c) →
  invalid_change last hi (change_ck c) c = false ↔
  change_ok c ∧ last < change_ck c ∧ change_ck c ≤ hi.
Proof.
  intros Hk. unfold invalid_change.
  assert (match ch_operation c with
          | Upsert => is_none_or (ch_record c) (λ r, negb (is_object r))
          | Delete => is_some (ch_record c)
          end = false ↔ match ch_operation c with
                        | Upsert => ∃ fields, ch_record c = Some (JObject fields)
                        | Delete => ch_record c = None
                        end) as Hop.
  { destruct (ch_operation c), (ch_record c) as [v|]; simpl; try naive_solver.
    rewrite negb_false_iff, is_object_iff. naive_solver. }
  assert (is_some_and (ch_source c) (λ s, is_empty (src_client_id s) ||
            is_none_or (decimal_u64 (src_mutation_id s)) (λ n, n =? 0)) = false ↔
          ∀ s, ch_source c = Some s → src_client_id s ≠ "" ∧ positive_decimal (src_mutation_id s)) as Hs.
  { destruct (ch_source c) as [s|]; simpl; [|naive_solver].
    rewrite orb_false_iff, is_empty_false, positive_decimal_iff. naive_solver. }
  rewrite !orb_false_iff, Hop, Hs, positive_decimal_iff, !is_empty_false, N.leb_gt, N.ltb_ge.
  split; [intros; destruct_and?; split; [by split|done]|intros [[] []]; tauto].
Qed.

Lemma validate_changes_iff changes last hi :
  validate_changes last hi changes = Ok () ↔
  Forall change_ok changes ∧ StronglySorted N.lt (last :: List.map change_ck changes) ∧
  Forall (λ c, change_ck c ≤ hi) changes.
Proof.
  revert last. induction changes as [|c cs IH]; intros last; cbn [validate_changes List.map].
  { split; [repeat constructor|done]. }
  rewrite !Forall_cons, sorted_cons2.
  destruct (decimal_u64 (ch_checkpoint c)) as [k|] eqn:E.
  - assert (decimal_ok (ch_checkpoint c)) as Hk by (apply decimal_u64_iff in E; eexists; eauto).
    pose proof (proj1 (decimal_ok_u64 _) Hk) as E2. rewrite E in E2. injection E2 as ->.
    pose proof (invalid_change_iff last hi c Hk) as Hc. fold (change_ck c).
    destruct (invalid_change last hi (change_ck c) c).
    + split; [done|]. intros. exfalso. assert (true = false) by (apply Hc; tauto). done.
    + rewrite IH. destruct (proj1 Hc eq_refl) as (? & ? & ?). tauto.
  - split; [done|]. intros [[Hc _] _]. destruct Hc as [Hk _ _ _ _ _].
    apply decimal_ok_u64 in Hk. congruence.
Qed.

Lemma validate_pull_page_ok page prior : validate_pull_page page prior = Ok () ↔ page_ok prior page.
Proof.
  unfold validate_pull_page. destruct (decimal_u64 (pull_checkpoint page)) as [k|] eqn:Ek.
  2:{ split; [done|]. intros [_ _ Hk _ _ _ _]. apply decimal_ok_u64 in Hk. congruence. }
  destruct (decimal_u64 prior) as [p|] eqn:Ep.
  2:{ split; [done|]. intros [_ Hk _ _ _ _ _]. apply decimal_ok_u64 in Hk. congruence. }
  apply decimal_u64_iff in Ek as [Hk Ek], Ep as [Hp Ep].
  assert (decimal_of (pull_checkpoint page) = k) as Hk2 by (by rewrite Ek, decimal_of_to_dec).
  assert (decimal_of prior = p) as Hp2 by (by rewrite Ep, decimal_of_to_dec).
  rewrite <- Hk2, <- Hp2 in *. destruct (_ || _) eqn:Hg.
  - split; [done|]. intros []. bsimp. destruct_or?; bsimp; [done|lia].
  - bsimp. rewrite validate_changes_iff. split.
    + intros (? & ? & ?). split; try done; eexists; eauto.
    + intros []. done.
Qed.

Lemma validate_snapshot_ok s prior : validate_snapshot s prior = Ok () ↔ snapshot_ok prior s.
Proof.
  unfold validate_snapshot. destruct (decimal_u64 (snap_checkpoint s)) as [k|] eqn:Ek.
  2:{ split; [done|]. intros [_ _ Hk _ _]. apply decimal_ok_u64 in Hk. congruence. }
  destruct (decimal_u64 prior) as [p|] eqn:Ep.
  2:{ split; [done|]. intros [_ Hk _ _ _]. apply decimal_ok_u64 in Hk. congruence. }
  apply decimal_u64_iff in Ek as [Hk Ek], Ep as [Hp Ep].
  assert (decimal_of (snap_checkpoint s) = k) as Hk2 by (by rewrite Ek, decimal_of_to_dec).
  assert (decimal_of prior = p) as Hp2 by (by rewrite Ep, decimal_of_to_dec).
  rewrite <- Hk2, <- Hp2 in *.
  assert (existsb invalid_snapshot_record (snap_records s) = false ↔
          Forall snapshot_record_ok (snap_records s)) as Hrec.
  { induction (snap_records s) as [|r rs IH]; simpl; [split; [constructor|done]|].
    rewrite orb_false_iff, IH, Forall_cons. unfold invalid_snapshot_record, snapshot_record_ok.
    rewrite !orb_false_iff, !is_empty_false, negb_false_iff, positive_decimal_iff. tauto. }
  destruct (_ || _) eqn:Hg.
  - split; [done|]. intros [? ? ? ? Hr]. apply Hrec in Hr. bsimp.
    destruct_or?; bsimp; [done|lia|congruence].
  - bsimp. split; [intros _|done]. split; try done; try (by eexists; eauto). by apply Hrec.
Qed.

(** ** Lemmas: one iteration of each loop *)

Section DriverLemmas.
Context {T C P ET EC EP : Type}.
Context `{!ProtocolTransport T ET, !ProtocolSyncCallbacks C EC, !ProtocolQueuePersistence P EP}.
(** The application's side is untouched. *)
Definition same_local (s s' : env T C P) : Prop :=
  e_queue s' = e_queue s ∧ e_callbacks s' = e_callbacks s ∧ e_persistence s' = e_persistence s.

(** What one pull iteration can do to queue, callbacks and disk. *)
Inductive page_outcome (s s' : env T C P) : result bool (ProtocolSyncError ET EC EP) → Prop :=
| po_refused e : same_local s s' → page_outcome s s' (Err e)
| po_not_applied changes e :
    cb_apply_changes changes (e_callbacks s) = (e_callbacks s', Err e) →
    e_queue s' = e_queue s → e_persistence s' = e_persistence s →
    page_outcome s s' (Err (SyncApplication e))
| po_not_replaced records e :
    cb_replace_authoritative records (e_callbacks s) = (e_callbacks s', Err e) →
    e_queue s' = e_queue s → e_persistence s' = e_persistence s →
    page_outcome s s' (Err (SyncApplication e))
| po_page page r :
    page_ok (checkpoint (e_queue s)) page →
    (pull_changes page = [] ∧ e_callbacks s' = e_callbacks s ∨
     cb_apply_changes (pull_changes page) (e_callbacks s) = (e_callbacks s', Ok ())) →
    committed s s' (pull_checkpoint page) r (Ok (pull_has_more page)) →
    page_outcome s s' r
| po_snapshot snapshot r :
    snapshot_ok (checkpoint (e_queue s)) snapshot →
    cb_replace_authoritative (snap_records snapshot) (e_callbacks s) = (e_callbacks s', Ok ()) →
    committed s s' (snap_checkpoint snapshot) r (Ok true) →
    page_outcome s s' r
(** The checkpoint moved and was persisted, or neither. *)
with committed (s s' : env T C P) : string → result bool (ProtocolSyncError ET EC EP) →
    result bool (ProtocolSyncError ET EC EP) → Prop :=
| cm_persisted c r ok :
    e_queue s' = assign_checkpoint c (e_queue s) →
    ps_persist (assign_checkpoint c (e_queue s)) (e_persistence s) = (e_persistence s', Ok ()) →
    (r = ok ∨ ∃ m, r = Err (SyncInvalidResponse m)) →
    committed s s' c r ok
| cm_restored c e ok :
    e_queue s' = e_queue s →
    ps_persist (assign_checkpoint c (e_queue s)) (e_persistence s) = (e_persistence s', Err e) →
    committed s s' c (Err (SyncPersistence e)) ok.

Lemma commit_spec (s : env T C P) c (k : SyncM bool) ok :
  (∀ s1, ∃ s2 r, k s1 = (s2, r) ∧ same_local s1 s2 ∧ (r = ok ∨ ∃ m, r = Err (SyncInvalidResponse m))) →
  ∀ s1, e_queue s1 = assign_checkpoint c (e_queue s) → e_persistence s1 = e_persistence s →
  ∃ s2 r, bind (persist_or_restore (e_queue s)) (λ _, k) s1 = (s2, r) ∧
    e_callbacks s2 = e_callbacks s1 ∧ committed s s2 c r ok.
Proof.
  intros Hk s1 Hq Hp. unfold bind, persist_or_restore. rewrite Hq, Hp.
  destruct (ps_persist (assign_checkpoint c (e_queue s)) (e_persistence s)) as [p [[]|e]] eqn:E.
  - destruct (Hk (set_persistence p s1)) as (s2 & r & -> & (H1 & H2 & H3) & Hr).
    exists s2, r. split; [done|]. split; [done|]. apply cm_persisted; [|by rewrite H3|done].
    by rewrite H1.
  - exists (set_queue (e_queue s) (set_persistence p s1)), (Err (SyncPersistence e)).
    split; [done|]. split; [done|]. by apply cm_restored.
Qed.

Lemma set_checkpoint_Ok q c : decimal_ok c → set_checkpoint q c = (assign_checkpoint c q, Ok ()).
Proof.
  intros (n & Hn & ->). unfold set_checkpoint. by rewrite parse_decimal_to_dec.
Qed.

Lemma install_snapshot_calls q sn (c : C) :
  match install_snapshot q sn cb_replace_authoritative c with
  | (q', c', Ok _) => q' = assign_checkpoint (snap_checkpoint sn) q ∧
      cb_replace_authoritative (snap_records sn) c = (c', Ok ())
  | (q', c', Err (SnapshotProtocol _)) => q' = q ∧ c' = c
  | (q', c', Err (SnapshotReplace e)) => q' = q ∧
      cb_replace_authoritative (snap_records sn) c = (c', Err e)
  end.
Proof.
  unfold install_snapshot. destruct (_ || _); [done|].
  by destruct (cb_replace_authoritative (snap_records sn) c) as [c' [[]|e]].
Qed.

Lemma reset_outcome (o : ProtocolSyncOptions) sn (s : env T C P) :
  snapshot_ok (checkpoint (e_queue s)) sn →
  let '(s', r) := bind (gets e_queue) (λ prior, call_install_snapshot sn ;;?
      persist_or_restore prior ;;? modify (set_result add_snapshot) ;;? ret true) s in
  page_outcome s s' r.
Proof.
  intros Hsn. unfold gets. cbn [bind]. unfold bind at 1. unfold bind at 1. unfold call_install_snapshot.
  pose proof (install_snapshot_calls (e_queue s) sn (e_callbacks s)) as Hi.
  destruct (install_snapshot _ _ _ _) as [[q' c'] [[]|[e|e]]]; cbn beta iota in Hi.
  - destruct Hi as [-> Hcb].
    set (s1 := set_queue _ _).
    destruct (commit_spec s (snap_checkpoint sn)
                (modify (set_result add_snapshot) ;;? ret true) (Ok true)) with (s1 := s1)
      as (s2 & r & E & Hc & Hcm); [|done|done|].
    + intros s2. do 2 eexists. split; [reflexivity|]. split; [done|by left].
    + unfold bind at 1 in E. rewrite E. eapply po_snapshot; [done| |done]. by rewrite Hc.
  - destruct Hi as [-> ->]. apply po_refused. by destruct s.
  - destruct Hi as [-> Hcb]. by eapply po_not_replaced.
Qed.

Lemma changes_outcome (o : ProtocolSyncOptions) page (s : env T C P) :
  page_ok (checkpoint (e_queue s)) page →
  let '(s', r) :=
    bind (if count (pull_changes page) =? 0 then ret ()
          else call_apply_changes (pull_changes page) ;;?
               modify (set_result (add_pulled (count (pull_changes page))))) (λ _,
      prior ←? gets e_queue;
      call_set_checkpoint (pull_checkpoint page) ;;?
      persist_or_restore prior ;;?
      if negb (pull_has_more page) then ret false
      else if pull_checkpoint page == checkpoint (e_queue s)
      then fail (SyncInvalidResponse "pull response hasMore without checkpoint progress")
      else ret true) s in
  page_outcome s s' r.
Proof.
  intros Hp. match goal with |- context [bind _ ?f s] => set (tail := f) end.
  assert (∀ s1 : env T C P, e_queue s1 = e_queue s → e_persistence s1 = e_persistence s →
            ∃ s2 r, tail () s1 = (s2, r) ∧ e_callbacks s2 = e_callbacks s1 ∧
              committed s s2 (pull_checkpoint page) r (Ok (pull_has_more page))) as Htail.
  { intros s1 Hq1 Hp1. unfold tail, gets. unfold bind at 1. unfold bind at 1.
    unfold call_set_checkpoint. rewrite Hq1, (set_checkpoint_Ok _ _ (po_checkpoint _ _ Hp)).
    cbn [map_err]. eapply (commit_spec s) with (s1 := set_queue _ s1); [|done|done].
    intros s2. destruct (pull_has_more page); [|do 2 eexists; split; [reflexivity|]; split; [done|by left]].
    cbn [negb]. case_bool_decide; (do 2 eexists; split; [reflexivity|]; split; [done|eauto]). }
  clearbody tail. unfold bind at 1. destruct (N.eqb_spec (count (pull_changes page)) 0) as [H0|H0].
  - cbn [ret]. destruct (Htail s eq_refl eq_refl) as (s2 & r & E & Hc & Hcm). unfold ret. rewrite E.
    eapply po_page; [done| |done]. left. split; [|done]. unfold count in H0.
    destruct (pull_changes page); [done|simpl in H0; lia].
  - unfold bind at 1. unfold call_apply_changes.
    destruct (cb_apply_changes (pull_changes page) (e_callbacks s)) as [c' [[]|e]] eqn:E; cbn [map_err].
    + unfold modify. destruct (Htail (set_result (add_pulled (count (pull_changes page)))
        (set_callbacks c' s)) eq_refl eq_refl) as (s2 & r & E2 & Hc & Hcm).
      rewrite E2. eapply po_page; [done| |done]. right. by rewrite Hc.
    + by eapply po_not_applied.
Qed.

(** Only the local part of the starting environment matters. *)
Lemma page_outcome_transport t (s s' : env T C P) r :
  page_outcome (set_transport t s) s' r → page_outcome s s' r.
Proof.
  destruct 1 as [e Hs|chs e Hc Hq Hp|recs e Hc Hq Hp|page r Hp Hc Hm|sn r Hsn Hc Hm].
  - by apply po_refused.
  - by eapply po_not_applied.
  - by eapply po_not_replaced.
  - eapply po_page; [done|done|]. destruct Hm; [by eapply cm_persisted|by eapply cm_restored].
  - eapply po_snapshot; [done|done|]. destruct Hm; [by eapply cm_persisted|by eapply cm_restored].
Qed.

Lemma pull_page_outcome o (s : env T C P) :
  let '(s', r) := pull_page o s in page_outcome s s' r.
Proof.
  unfold pull_page, gets, lift. unfold bind at 1. unfold bind at 1. unfold call_pull.
  destruct (tr_pull _ _ _) as [t [[page|reset]|e]]; cbn [map_err].
  - unfold bind at 1. destruct (validate_pull_page page (checkpoint (e_queue s))) as [[]|m] eqn:Hv;
      cbn [map_err]; [|by apply po_refused].
    apply validate_pull_page_ok in Hv.
    pose proof (changes_outcome o page (set_transport t s) Hv) as Ho. cbn [e_queue set_transport] in Ho.
    destruct (bind _ _ _) as [s' r]. by apply (page_outcome_transport t).
  - destruct (invalid_reset reset); [by apply po_refused|]. unfold bind at 1. unfold call_snapshot.
    destruct (tr_snapshot _ _) as [t' [sn|e]]; cbn [map_err]; [|by apply po_refused].
    unfold bind at 1. destruct (validate_snapshot sn (checkpoint (e_queue s))) as [[]|m] eqn:Hv;
      cbn [map_err]; [|by apply po_refused].
    apply validate_snapshot_ok in Hv.
    pose proof (reset_outcome o sn (set_transport t' (set_transport t s)) Hv) as Ho.
    destruct (bind _ _ _) as [s' r]. by do 2 eapply page_outcome_transport.
  - by apply po_refused.
Qed.

(** What one push iteration can do. *)
Inductive batch_outcome (o : ProtocolSyncOptions) (s s' : env T C P)
  : result bool (ProtocolSyncError ET EC EP) → Prop :=
| bo_done : s' = s → pending (e_queue s) = [] → batch_outcome o s s' (Ok false)
| bo_refused e : same_local s s' → batch_outcome o s s' (Err e)
| bo_restored q e :
    e_queue s' = e_queue s → e_callbacks s' = e_callbacks s →
    ps_persist q (e_persistence s) = (e_persistence s', Err e) →
    batch_outcome o s s' (Err (SyncPersistence e))
| bo_pushed response request :
    push_request (e_queue s) (push_limit o) = Ok request →
    acknowledges (e_queue s) response request →
    acknowledge (e_queue s) response request = (e_queue s', Ok (count (req_mutations request))) →
    e_callbacks s' = e_callbacks s →
    ps_persist (e_queue s') (e_persistence s) = (e_persistence s', Ok ()) →
    e_result s' = add_pushed (count (req_mutations request)) (count (req_mutations request)) (e_result s) →
    batch_outcome o s s' (Ok true).

Lemma push_batch_outcome `{SerdeJson} o (s : env T C P) : queue_ok (e_queue s) →
  let '(s', r) := push_batch o s in batch_outcome o s s' r.
Proof.
  intros Hq. unfold push_batch, gets, lift. unfold bind at 1. unfold bind at 1.
  destruct (push_request (e_queue s) (push_limit o)) as [req|e] eqn:Hreq; cbn [map_err];
    [|by apply bo_refused].
  destruct (N.eqb_spec (count (req_mutations req)) 0) as [H0|H0].
  { apply bo_done; [done|]. unfold push_request in Hreq. destruct (valid_push_limit _) eqn:Hl; [|done].
    injection Hreq as <-. unfold valid_push_limit, count in *. cbn [req_mutations] in H0. bsimp.
    destruct (pending (e_queue s)); [done|].
    destruct (N.to_nat (push_limit o)) eqn:?; [lia|simpl in H0; lia]. }
  unfold bind at 1. unfold call_push. destruct (tr_push _ _) as [t [resp|e]]; cbn [map_err];
    [|by apply bo_refused].
  unfold bind at 1. unfold bind at 1. unfold call_acknowledge. cbn [e_queue set_transport].
  destruct (acknowledge_cases (e_queue s) resp req) as [Ha|(_ & e & -> & _)]; cbn [map_err];
    [|apply bo_refused; by destruct s].
  destruct (acknowledge_accepts _ _ _ Hq Ha) as (m & _ & Eack & _). rewrite Eack. cbn [map_err].
  unfold bind at 1. unfold persist_or_restore. cbn [e_queue set_queue e_persistence set_transport].
  destruct (ps_persist _ _) as [p [[]|e]] eqn:Ep.
  - unfold bind at 1, modify, ret. by eapply bo_pushed.
  - by eapply bo_restored.
Qed.

(** *** Rules for the loops and the cycle *)

Section Rules.
Context `{SerdeJson}.

Let inv (s : env T C P) := queue_ok (e_queue s).

Lemma page_outcome_checkpoint (s s' : env T C P) r : page_outcome s s' r →
  e_queue s' = e_queue s ∨ ∃ c, e_queue s' = assign_checkpoint c (e_queue s) ∧ decimal_ok c ∧
    queue_ck (e_queue s) ≤ decimal_of c.
Proof.
  destruct 1 as [e [Hs _]|chs e Hc Hq Hp|recs e Hc Hq Hp|page r Hp Hc Hm|sn r Hsn Hc Hm]; auto.
  - destruct Hp as [_ _ Hck Hf _ _ _]. destruct Hm; [right; eauto|by left].
  - destruct Hsn as [_ _ Hck Hf _]. destruct Hm; [right; eauto|by left].
Qed.

Lemma page_outcome_inv s s' r : page_outcome s s' r → inv s → inv s'.
Proof.
  unfold inv. intros Ho Hs. destruct (page_outcome_checkpoint _ _ _ Ho) as [->|(c & -> & Hc & _)];
    [done|by apply assign_checkpoint_ok].
Qed.

Lemma batch_outcome_inv o s s' r : batch_outcome o s s' r → inv s → inv s'.
Proof.
  unfold inv. destruct 1 as [-> _|e [Hs _]|q e Hq _ _|resp req Hr Ha Hack _ _ _]; intros Hs'; try congruence.
  pose proof (acknowledge_preserves (e_queue s) resp req Hs') as Hp. by rewrite Hack in Hp.
Qed.

(** [Q] describes what has happened while the cycle goes on, [R] where it may stop. *)
Context (o : ProtocolSyncOptions) (Q R : env T C P → env T C P → Prop).
Context (Qrefl : ∀ s, Q s s) (Qtrans : ∀ a b c, Q a b → Q b c → Q a c).
Context (Qlocal : ∀ a b c, Q a b → same_local b c → Q a c).
Context (QR : ∀ a b, Q a b → R a b) (Rtrans : ∀ a b c, Q a b → R b c → R a c).
Context (Qpage : ∀ s s' b, inv s → page_outcome s s' (Ok b) → Q s s').
Context (Rpage : ∀ s s' e, inv s → page_outcome s s' (Err e) → R s s').
Context (Qbatch : ∀ s s' b, inv s → batch_outcome o s s' (Ok b) → Q s s').
Context (Rbatch : ∀ s s' e, inv s → batch_outcome o s s' (Err e) → R s s').

Let ended {A} (s : env T C P) : A → env T C P → Prop := λ _ s', Q s s' ∧ inv s'.
Let stopped (s : env T C P) : ProtocolSyncError ET EC EP → env T C P → Prop := λ _ s', R s s' ∧ inv s'.

Lemma ended_step {A} (m : M (env T C P) (ProtocolSyncError ET EC EP) A) s s1 : Q s s1 →
  run_spec m (ended s1) (stopped s1) s1 → run_spec m (ended s) (stopped s) s1.
Proof.
  intros Hs Hm. eapply run_spec_impl; [exact Hm| |]; unfold ended, stopped; naive_solver.
Qed.

Lemma pull_loop_rule n s : inv s → run_spec (pull_loop o n) (ended s) (stopped s) s.
Proof.
  revert s. induction n as [|n IH]; intros s Hs; cbn [pull_loop].
  { split; auto. }
  apply run_spec_bind. pose proof (pull_page_outcome o s) as Ho. unfold run_spec.
  destruct (pull_page o s) as [s1 [[]|e]]; pose proof (page_outcome_inv _ _ _ Ho Hs) as Hs1.
  - eapply ended_step; [by eapply Qpage|by apply IH].
  - split; [by eapply Qpage|done].
  - split; [by eapply Rpage|done].
Qed.

Lemma push_loop_rule n s : inv s → run_spec (push_loop o n) (ended s) (stopped s) s.
Proof.
  revert s. induction n as [|n IH]; intros s Hs; cbn [push_loop].
  { split; auto. }
  apply run_spec_bind. pose proof (push_batch_outcome o s Hs) as Ho. unfold run_spec.
  destruct (push_batch o s) as [s1 [[]|e]]; pose proof (batch_outcome_inv _ _ _ _ Ho Hs) as Hs1.
  - eapply ended_step; [by eapply Qbatch|by apply IH].
  - split; [by eapply Qbatch|done].
  - split; [by eapply Rbatch|done].
Qed.

Lemma cycle_rule s : inv s → run_spec (sync_cycle o) (ended s) (stopped s) s.
Proof.
  intros Hs. unfold sync_cycle. apply run_spec_modify. eapply (ended_step _ s); [by eapply Qlocal|].
  apply run_spec_bind. eapply run_spec_impl; [by apply pull_loop_rule| |done].
  intros [] s1 [H1 Hs1]. eapply ended_step; [exact H1|].
  apply run_spec_bind. eapply run_spec_impl; [by apply push_loop_rule| |done].
  intros [] s2 [H2 Hs2]. eapply ended_step; [exact H2|]. apply run_spec_modify.
  eapply (ended_step _ s2); [by eapply Qlocal|].
  apply run_spec_bind. eapply run_spec_impl; [by apply pull_loop_rule| |done].
  intros [] s3 [H3 Hs3]. eapply ended_step; [exact H3|]. apply run_spec_modify.
  unfold gets, run_spec. split; [by eapply Qlocal|done].
Qed.
End Rules.
End DriverLemmas.

(** *** What a cycle may do to the queue *)

(** The queue after some synchronization: the same rows with more of the oldest
    ones confirmed, and a checkpoint that did not move back. *)
Record kept (q q' : ProtocolQueue) : Prop := {
  kept_client : client_id q' = client_id q;
  kept_next : next_mutation_id q' = next_mutation_id q;
  kept_policies : consistency_policies q' = consistency_policies q;
  kept_rows : List.map (set_status Pending) (mutations q') =
              List.map (set_status Pending) (mutations q);
  kept_pending : ∃ k, pending q' = drop k (pending q);
  kept_checkpoint : queue_ck q ≤ queue_ck q'
}.

Lemma kept_refl q : kept q q.
Proof. split; try done. by exists 0%nat. Qed.

Lemma kept_trans q1 q2 q3 : kept q1 q2 → kept q2 q3 → kept q1 q3.
Proof.
  intros [? ? ? ? [k1 H1] ?] [? ? ? ? [k2 H2] ?]. split; try congruence; [|lia].
  exists (k1 + k2)%nat. by rewrite H2, H1, drop_drop.
Qed.

Lemma kept_assign_checkpoint c q : queue_ck q ≤ decimal_of c → kept q (assign_checkpoint c q).
Proof. intros. split; try done. by exists 0%nat. Qed.

Lemma kept_acknowledge `{SerdeJson} q resp req : queue_ok q → acknowledges q resp req →
  kept q (acknowledge q resp req).1 ∧
  pending (acknowledge q resp req).1 = drop (length (req_mutations req)) (pending q).
Proof.
  intros Hq Ha. destruct (acknowledge_accepts q _ _ Hq Ha) as (m & _ & -> & Hp).
  split; [|done]. split; try done; [|by eexists].
  cbn [fst mutations set_mutations]. rewrite List.map_map. apply List.map_ext. intros x.
  unfold confirm_upto. by destruct (_ && _).
Qed.

Section Cycle.
Context `{SerdeJson} {T C P ET EC EP : Type}.
Context `{!ProtocolTransport T ET, !ProtocolSyncCallbacks C EC, !ProtocolQueuePersistence P EP}.
Implicit Types (s : env T C P) (r : result bool (ProtocolSyncError ET EC EP)).

Lemma page_outcome_kept s s' r : page_outcome s s' r → kept (e_queue s) (e_queue s').
Proof.
  intros Ho. destruct (page_outcome_checkpoint _ _ _ Ho) as [->|(c & -> & _ & Hc)];
    [apply kept_refl|by apply kept_assign_checkpoint].
Qed.

Lemma batch_outcome_kept o s s' r : queue_ok (e_queue s) → batch_outcome o s s' r →
  kept (e_queue s) (e_queue s').
Proof.
  intros Hq. destruct 1 as [-> _|e [-> _]|q e -> _ _|resp req Hr Ha Hack _ _ _]; try apply kept_refl.
  pose proof (proj1 (kept_acknowledge _ resp req Hq Ha)) as Hk. by rewrite Hack in Hk.
Qed.

Lemma cycle_kept o s : queue_ok (e_queue s) →
  run_spec (sync_cycle o) (λ _ s', kept (e_queue s) (e_queue s') ∧ queue_ok (e_queue s'))
    (λ _ s', kept (e_queue s) (e_queue s') ∧ queue_ok (e_queue s')) s.
Proof.
  intros Hq. eapply (cycle_rule o (λ s s', kept (e_queue s) (e_queue s'))
    (λ s s', kept (e_queue s) (e_queue s'))); try done.
  - intros. apply kept_refl.
  - intros ???. apply kept_trans.
  - intros a b c Hab [-> _]. done.
  - intros ???. apply kept_trans.
  - intros. by eapply page_outcome_kept.
  - intros. by eapply page_outcome_kept.
  - intros. by eapply batch_outcome_kept.
  - intros. by eapply batch_outcome_kept.
Qed.

(** *** Disk and memory *)

Definition in_sync (durable : P → ProtocolQueue) (s : env T C P) : Prop :=
  durable (e_persistence s) = e_queue s.

Lemma page_outcome_in_sync durable `{!PersistenceLaws P EP durable} s s' r :
  page_outcome s s' r → in_sync durable s → in_sync durable s'.
Proof.
  assert (∀ c r ok, committed s s' c r ok → in_sync durable s → in_sync durable s') as Hc.
  { unfold in_sync. destruct 1 as [c r' ok Hq Hp _|c e ok Hq Hp]; intros Hs.
    - rewrite Hq. by eapply persist_ok.
    - rewrite Hq, <- Hs. by eapply persist_err. }
  destruct 1 as [e (Hq & _ & Hp)|chs e _ Hq Hp|recs e _ Hq Hp|page r' _ _ Hm|sn r' _ _ Hm];
    unfold in_sync in *; try congruence; intros Hs; by eapply Hc.
Qed.

Lemma batch_outcome_in_sync durable `{!PersistenceLaws P EP durable} o s s' r :
  batch_outcome o s s' r → in_sync durable s → in_sync durable s'.
Proof.
  unfold in_sync. destruct 1 as [-> _|e (Hq & _ & Hp)|q e Hq _ Hp|resp req _ _ _ _ Hp _]; intros Hs.
  - done.
  - congruence.
  - rewrite Hq, <- Hs. by eapply persist_err.
  - by eapply persist_ok.
Qed.

Lemma cycle_in_sync durable `{!PersistenceLaws P EP durable} o s :
  queue_ok (e_queue s) → in_sync durable s → in_sync durable (sync_cycle o s).1.
Proof.
  intros Hq Hs.
  assert (run_spec (sync_cycle o) (λ _ s', (in_sync durable s → in_sync durable s') ∧ queue_ok (e_queue s'))
            (λ _ s', (in_sync durable s → in_sync durable s') ∧ queue_ok (e_queue s')) s) as Hr.
  { eapply (cycle_rule o (λ s s', in_sync durable s → in_sync durable s')
      (λ s s', in_sync durable s → in_sync durable s')); try done; try (intros; by auto).
    - intros a b c Hab (Hq' & _ & Hp'). unfold in_sync in *. rewrite Hq', Hp'. done.
    - intros. by eapply page_outcome_in_sync.
    - intros. by eapply page_outcome_in_sync.
    - intros. by eapply batch_outcome_in_sync.
    - intros. by eapply batch_outcome_in_sync. }
  unfold run_spec in Hr. destruct (sync_cycle o s) as [s' [res|e]]; naive_solver.
Qed.

(** *** What the application sees *)

(** The changes applied between two environments start after the first
    checkpoint and are strictly ordered. *)
Definition applied_after (applied : C → list Change) (s s' : env T C P) (new : list Change) : Prop :=
  applied (e_callbacks s') = applied (e_callbacks s) ++ new ∧
  StronglySorted N.lt (queue_ck (e_queue s) :: List.map change_ck new).

Definition applied_through applied s s' : Prop :=
  queue_ck (e_queue s) ≤ queue_ck (e_queue s') ∧
  ∃ new, applied_after applied s s' new ∧ Forall (λ c, change_ck c ≤ queue_ck (e_queue s')) new.

Lemma sorted_join (lo mid : N) (l k : list N) :
  StronglySorted N.lt (lo :: l) → Forall (λ n, n ≤ mid) l → lo ≤ mid →
  StronglySorted N.lt (mid :: k) → StronglySorted N.lt (lo :: l ++ k).
Proof.
  intros Hl Hm Hlo [Hk Hkm]%StronglySorted_inv. rewrite Forall_forall in *.
  change (lo :: l ++ k) with ((lo :: l) ++ k). apply StronglySorted_app. split; [|done].
  intros a b [->|Ha]%elem_of_cons Hb; apply Hkm in Hb; [lia|]. apply Hm in Ha. lia.
Qed.

Lemma applied_join applied s1 s2 s3 new :
  applied_through applied s1 s2 → applied_after applied s2 s3 new →
  ∃ new', applied_after applied s1 s3 (new' ++ new) ∧
          Forall (λ c, change_ck c ≤ queue_ck (e_queue s2)) new'.
Proof.
  intros (Hck & new1 & (H1 & Hs1) & Hb) (H2 & Hs2). exists new1. split; [|done]. split.
  - by rewrite H2, H1, app_assoc.
  - rewrite List.map_app. eapply sorted_join; try done. by apply Forall_map.
Qed.

Lemma applied_none applied s s' :
  applied (e_callbacks s') = applied (e_callbacks s) → queue_ck (e_queue s) ≤ queue_ck (e_queue s') →
  applied_through applied s s'.
Proof.
  intros Ha Hck. split; [done|]. exists []. split; [|done]. split; [by rewrite app_nil_r|].
  repeat constructor.
Qed.

Lemma page_outcome_applied applied `{!CallbackLaws C EC applied} s s' r : page_outcome s s' r →
  match r with
  | Ok _ => applied_through applied s s'
  | Err _ => ∃ new, applied_after applied s s' new
  end.
Proof.
  assert (∀ s', applied_through applied s s' → ∃ new, applied_after applied s s' new) as Hweak
    by (intros ? (_ & new & ? & _); eauto).
  intros Ho. pose proof (kept_checkpoint _ _ (page_outcome_kept _ _ _ Ho)) as Hck.
  destruct Ho as [e (Hq & Hc & _)|chs e Hc Hq _|recs e Hc Hq _|page r' Hp Hc Hm|sn r' _ Hc Hm].
  - apply Hweak, applied_none; [by rewrite Hc|done].
  - apply Hweak, applied_none; [by eapply apply_err|done].
  - apply Hweak, applied_none; [by eapply replace_applied|done].
  - assert (applied_after applied s s' (pull_changes page)) as Ha.
    { split; [|apply Hp]. destruct Hc as [[Hn ->]|Hc]; [by rewrite Hn, app_nil_r|by eapply apply_ok]. }
    assert (e_queue s' = assign_checkpoint (pull_checkpoint page) (e_queue s) →
            applied_through applied s s') as Hthrough.
    { intros Hq. split; [done|]. eexists. split; [exact Ha|]. rewrite Hq. apply Hp. }
    inversion Hm as [ck r'' ok Hq _ Hr|ck e ok Hq _]; subst; [destruct Hr as [->|[m ->]]|]; eauto.
  - assert (applied_through applied s s') as Hn by (apply applied_none; [by eapply replace_applied|done]).
    destruct r'; auto.
Qed.

Lemma batch_outcome_applied applied o s s' r : queue_ok (e_queue s) → batch_outcome o s s' r →
  applied_through applied s s'.
Proof.
  intros Hq Ho. apply applied_none; [|by eapply kept_checkpoint, batch_outcome_kept].
  destruct Ho as [-> _|e (_ & -> & _)|q e _ -> _|resp req _ _ _ -> _ _]; done.
Qed.

Lemma cycle_applied applied `{!CallbackLaws C EC applied} o s : queue_ok (e_queue s) →
  run_spec (sync_cycle o) (λ _ s', applied_through applied s s')
    (λ _ s', ∃ new, applied_after applied s s' new) s.
Proof.
  intros Hq. eapply run_spec_impl.
  - eapply (cycle_rule o (applied_through applied) (λ s s', ∃ new, applied_after applied s s' new)); try done.
    + intros. by apply applied_none.
    + intros a b c Hab (Hck & new & Hbc & Hb).
      destruct (applied_join applied _ _ _ _ Hab Hbc) as (new' & Hac & Hb').
      split; [destruct Hab; lia|]. eexists. split; [exact Hac|].
      apply Forall_app. split; [|done]. eapply Forall_impl; [exact Hb'|]. simpl. lia.
    + intros a b c (Hck & new & (H1 & H2) & Hb) (Hq' & Hc' & _). unfold applied_through, applied_after.
      rewrite Hq', Hc'. eauto.
    + intros a b (_ & new & ? & _). eauto.
    + intros a b c Hab (new & Hbc). destruct (applied_join applied _ _ _ _ Hab Hbc) as (? & ? & _). eauto.
    + intros ? ? ? _ Ho. by apply (page_outcome_applied applied) in Ho.
    + intros ? ? ? _ Ho. by apply (page_outcome_applied applied) in Ho.
    + intros. by eapply batch_outcome_applied.
    + intros ? ? ? Hi Ho. destruct (batch_outcome_applied applied _ _ _ _ Hi Ho) as (_ & new & ? & _). eauto.
  - by intros ? ? [? _].
  - by intros ? ? [? _].
Qed.

(** *** Counters and progress *)

(** The counters a pull does not touch. *)
Definition result_core (r : ProtocolSyncCycleResult) : N * N * bool :=
  (cy_pushed_mutations r, cy_acknowledged_mutations r, cy_has_more_pending r).

(** The server's last answer said there is nothing more. *)
Definition server_done (o : ProtocolSyncOptions) s : Prop :=
  ∃ ck t page, tr_pull ck (pull_limit o) t = (e_transport s, Ok (Changes page)) ∧
    pull_has_more page = false ∧ checkpoint (e_queue s) = pull_checkpoint page.

Lemma pull_page_effects o s :
  result_core (e_result (pull_page o s).1) = result_core (e_result s) ∧
  ((pull_page o s).2 = Ok false → server_done o (pull_page o s).1).
Proof.
  unfold pull_page, bind, gets, lift, fail, ret, modify, call_pull, call_snapshot, call_apply_changes,
    call_install_snapshot, call_set_checkpoint, set_checkpoint, persist_or_restore.
  destruct (tr_pull _ _ _) as [t [[page|reset]|e]] eqn:Hpull; simpl; [| |done].
  - destruct (validate_pull_page _ _) as [[]|]; simpl; [|done].
    assert (∀ s1 : env T C P, e_transport s1 = t → result_core (e_result s1) = result_core (e_result s) →
      ∀ s2, e_transport s2 = e_transport s1 → result_core (e_result s2) = result_core (e_result s1) →
      checkpoint (e_queue s2) = pull_checkpoint page → pull_has_more page = false →
      result_core (e_result s2) = result_core (e_result s) ∧ server_done o s2) as Hdone.
    { intros s1 Ht1 Hr1 s2 Ht2 Hr2 Hck Hm. split; [congruence|].
      exists (checkpoint (e_queue s)), (e_transport s), page. rewrite Ht2, Ht1. done. }
    destruct (count (pull_changes page) =? 0); simpl.
    + destruct (parse_decimal _); simpl; [|done]. destruct (ps_persist _ _) as [p [[]|]]; simpl; [|done].
      destruct (pull_has_more page) eqn:Hm; simpl; [case_bool_decide; done|].
      split; [done|]. intros _. by eapply (Hdone (set_transport t s)).
    + destruct (cb_apply_changes _ _) as [c' [[]|]]; simpl; [|done].
      destruct (parse_decimal _); simpl; [|done]. destruct (ps_persist _ _) as [p [[]|]]; simpl; [|done].
      destruct (pull_has_more page) eqn:Hm; simpl; [case_bool_decide; done|].
      split; [done|]. intros _. by eapply (Hdone (set_transport t s)).
  - destruct (invalid_reset reset); simpl; [done|].
    destruct (tr_snapshot _ _) as [t' [sn|]]; simpl; [|done].
    destruct (validate_snapshot _ _) as [[]|]; simpl; [|done].
    destruct (install_snapshot _ _ _ _) as [[q' c'] [[]|[]]]; simpl; try done.
    destruct (ps_persist _ _) as [p [[]|]]; simpl; done.
Qed.

Lemma pull_loop_effects o n s :
  result_core (e_result (pull_loop o n s).1) = result_core (e_result s) ∧
  ((pull_loop o n s).2 = Ok () → server_done o (pull_loop o n s).1).
Proof.
  revert s. induction n as [|n IH]; intros s; cbn [pull_loop]; [done|].
  unfold bind. destruct (pull_page_effects o s) as [Hr Hd].
  destruct (pull_page o s) as [s1 [[]|e]]; simpl in *; [|auto|done].
  destruct (IH s1) as [IH1 IH2]. split; [by rewrite IH1|done].
Qed.

Lemma pull_loop_pending o n s : queue_ok (e_queue s) →
  queue_ok (e_queue (pull_loop o n s).1) ∧ pending (e_queue (pull_loop o n s).1) = pending (e_queue s).
Proof.
  intros Hq.
  assert (run_spec (pull_loop o n)
    (λ _ s', pending (e_queue s') = pending (e_queue s) ∧ queue_ok (e_queue s'))
    (λ _ s', pending (e_queue s') = pending (e_queue s) ∧ queue_ok (e_queue s')) s) as Hr.
  { eapply (pull_loop_rule o (λ s s', pending (e_queue s') = pending (e_queue s))
      (λ s s', pending (e_queue s') = pending (e_queue s))); try done; try congruence.
    - intros s1 s2 b _ Ho. by destruct (page_outcome_checkpoint _ _ _ Ho) as [->|(c & -> & _)].
    - intros s1 s2 b _ Ho. by destruct (page_outcome_checkpoint _ _ _ Ho) as [->|(c & -> & _)]. }
  unfold run_spec in Hr. destruct (pull_loop o n s) as [s' [[]|e]]; naive_solver.
Qed.

(** [n] batches push the first [limit * n] pending rows. *)
Lemma push_loop_count o n s s' : queue_ok (e_queue s) → push_loop (EC := EC) o n s = (s', Ok ()) →
  let k := N.min (count (pending (e_queue s))) (push_limit o * N.of_nat n) in
  queue_ok (e_queue s') ∧
  pending (e_queue s') = drop (N.to_nat k) (pending (e_queue s)) ∧
  cy_pushed_mutations (e_result s') = cy_pushed_mutations (e_result s) + k ∧
  cy_acknowledged_mutations (e_result s') = cy_acknowledged_mutations (e_result s) + k.
Proof.
  revert s. induction n as [|n IH]; intros s Hq; cbn [push_loop].
  { intros [= <-]. cbn zeta. rewrite N.mul_0_r, N.min_0_r, !N.add_0_r. done. }
  unfold bind. pose proof (push_batch_outcome (EC := EC) o s Hq) as Ho.
  destruct (push_batch o s) as [s1 [[]|e]]; [| |done].
  - intros Hl. pose proof (batch_outcome_inv _ _ _ _ Ho Hq) as Hq1. cbn beta in Hq1.
    apply (IH s1 Hq1) in Hl as (Hq' & Hp & Hpush & Hack). cbn zeta in *. split; [done|].
    inversion Ho as [| | |resp req Hreq Ha Hackn _ _ Hres]; subst.
    pose proof (proj2 (kept_acknowledge _ resp req Hq Ha)) as Hpend. rewrite Hackn in Hpend. cbn [fst] in Hpend.
    unfold push_request in Hreq. destruct (valid_push_limit _); [|done]. injection Hreq as <-.
    cbn [req_mutations] in *. rewrite Hres in Hpush, Hack. cbn [add_pushed cy_pushed_mutations cy_acknowledged_mutations] in *.
    rewrite length_take in Hpend. unfold count in *. rewrite length_take in Hpush, Hack.
    rewrite Hpend in *. rewrite length_drop in *. rewrite drop_drop in Hp.
    rewrite Hp, Hpush, Hack. split; [f_equal; lia|lia].
  - intros [= <-]. inversion Ho as [-> Hnone| | |]; subst. cbn zeta. rewrite Hnone.
    change (count []) with 0. rewrite N.min_0_l, !N.add_0_r. done.
Qed.

(** A successful cycle, phase by phase. *)
Lemma sync_cycle_inv o s s' res : sync_cycle o s = (s', Ok res) →
  ∃ s1 s2 s3,
    pull_to_current o (set_result (λ _, empty_result (checkpoint (e_queue s))) s) = (s1, Ok ()) ∧
    push_loop (EC := EC) o (N.to_nat (max_push_batches_per_cycle o)) s1 = (s2, Ok ()) ∧
    pull_to_current o
      (set_result (set_has_more (negb (count (pending (e_queue s2)) =? 0))) s2) = (s3, Ok ()) ∧
    s' = set_result (set_result_checkpoint (checkpoint (e_queue s3))) s3 ∧ res = e_result s'.
Proof.
  unfold sync_cycle, bind, modify, gets.
  destruct (pull_to_current o _) as [s1 [[]|]]; [|done].
  destruct (push_loop o _ s1) as [s2 [[]|]] eqn:E2; [|done].
  destruct (pull_to_current o _) as [s3 [[]|]] eqn:E3; [|done].
  intros [= <- <-]. eauto 10.
Qed.

Lemma cycle_counts o s s' res : queue_ok (e_queue s) → sync_cycle o s = (s', Ok res) →
  let k := N.min (count (pending (e_queue s))) (push_limit o * max_push_batches_per_cycle o) in
  pending (e_queue s') = drop (N.to_nat k) (pending (e_queue s)) ∧
  cy_pushed_mutations res = k ∧ cy_acknowledged_mutations res = k ∧
  cy_has_more_pending res = negb (count (pending (e_queue s')) =? 0) ∧
  cy_checkpoint res = checkpoint (e_queue s') ∧ server_done o s'.
Proof.
  intros Hq (s1 & s2 & s3 & E1 & E2 & E3 & -> & ->)%sync_cycle_inv. unfold pull_to_current in *.
  set (s0 := set_result _ s) in E1. assert (queue_ok (e_queue s0)) as Hq0 by done.
  destruct (pull_loop_pending o (N.to_nat (max_pull_pages_per_phase o)) s0 Hq0) as [Hq1 Hp1].
  destruct (pull_loop_effects o (N.to_nat (max_pull_pages_per_phase o)) s0) as [Hr1 _].
  rewrite E1 in Hq1, Hp1, Hr1. cbn [fst] in *. injection Hr1 as Hpu1 Hac1 _.
  destruct (push_loop_count _ _ _ _ Hq1 E2) as (Hq2 & Hp2 & Hpu2 & Hac2).
  rewrite Nnat.N2Nat.id, Hp1 in *.
  set (s2' := set_result (set_has_more _) s2) in E3. assert (queue_ok (e_queue s2')) as Hq2' by done.
  destruct (pull_loop_pending o (N.to_nat (max_pull_pages_per_phase o)) s2' Hq2') as [Hq3 Hp3].
  destruct (pull_loop_effects o (N.to_nat (max_pull_pages_per_phase o)) s2') as [Hr3 Hd3].
  rewrite E3 in Hq3, Hp3, Hr3, Hd3. cbn [fst snd] in *. specialize (Hd3 eq_refl).
  injection Hr3 as Hpu3 Hac3 Hm3. cbn. cbn in Hpu1, Hac1, Hp3.
  rewrite Hpu3, Hac3, Hm3, Hp3, Hp2, Hpu2, Hac2, Hpu1, Hac1. repeat split; try done; lia.
Qed.

(** *** A cooperative environment *)

(** A server that answers every request, needs at most [left t] more pages to
    bring any client up to date, and an application that never fails. *)
Record cooperative (o : ProtocolSyncOptions) (left : T → nat) : Prop := {
  cp_pull ck t : decimal_ok ck → ∃ t' page,
    tr_pull ck (pull_limit o) t = (t', Ok (Changes page)) ∧ page_ok ck page ∧
    (pull_has_more page = true → left t' < left t ∧ pull_checkpoint page ≠ ck)%nat;
  cp_push q request t : queue_ok q → push_request q (push_limit o) = Ok request → pending q ≠ [] →
    ∃ t' response, tr_push request t = (t', Ok response) ∧ acknowledges q response request;
  cp_apply changes c : ∃ c', cb_apply_changes changes c = (c', Ok ());
  cp_persist q p : ∃ p', ps_persist q p = (p', Ok ());
  cp_pages t : (left t < N.to_nat (max_pull_pages_per_phase o))%nat
}.

Lemma cooperative_pull_page o left s : cooperative o left → queue_ok (e_queue s) →
  ∃ s' more, pull_page o s = (s', Ok more) ∧ queue_ok (e_queue s') ∧
    (more = true → left (e_transport s') < left (e_transport s))%nat.
Proof.
  intros Hc Hq. pose proof (pull_page_outcome o s) as Ho.
  destruct (cp_pull _ _ Hc (checkpoint (e_queue s)) (e_transport s)) as (t & page & Ht & Hp & Hm);
    [apply Hq|].
  revert Ho. unfold pull_page, bind, gets, lift, fail, ret, modify, call_pull, call_apply_changes,
    call_set_checkpoint, persist_or_restore. rewrite Ht. cbn [map_err].
  rewrite (proj2 (validate_pull_page_ok _ _) Hp). cbn [map_err].
  destruct (cp_apply _ _ Hc (pull_changes page) (e_callbacks s)) as (c' & Hcb).
  destruct (cp_persist _ _ Hc (assign_checkpoint (pull_checkpoint page) (e_queue s)) (e_persistence s)) as (p' & Hps).
  destruct (count (pull_changes page) =? 0); simpl; rewrite ?Hcb; simpl;
    rewrite (set_checkpoint_Ok _ _ (po_checkpoint _ _ Hp)); simpl; rewrite Hps; simpl;
    (destruct (pull_has_more page) eqn:Hmore; simpl;
     [destruct (Hm eq_refl) as [Hl Hne]; rewrite bool_decide_eq_false_2 by done|]);
    intros Ho; do 2 eexists; (split; [reflexivity|]);
    (split; [by apply (page_outcome_inv _ _ _ Ho)|done]).
Qed.

Lemma cooperative_pull_loop o left n s : cooperative o left → queue_ok (e_queue s) →
  (left (e_transport s) < n)%nat → ∃ s', pull_loop (EC := EC) (EP := EP) o n s = (s', Ok ()).
Proof.
  intros Hc. revert s. induction n as [|n IH]; intros s Hq Hn; [lia|]. cbn [pull_loop].
  destruct (cooperative_pull_page o left s Hc Hq) as (s1 & [] & E & Hq1 & Hl); unfold bind; rewrite E.
  - apply IH; [done|]. specialize (Hl eq_refl). lia.
  - by eexists.
Qed.

Lemma cooperative_push_loop o left n s : cooperative o left → validate_options o = Ok o →
  queue_ok (e_queue s) → ∃ s', push_loop (EC := EC) (EP := EP) o n s = (s', Ok ()) ∧ queue_ok (e_queue s').
Proof.
  intros Hc Ho. revert s. induction n as [|n IH]; intros s Hq; cbn [push_loop]; [by eexists|].
  pose proof (push_batch_outcome (EC := EC) o s Hq) as Hout. revert Hout.
  unfold push_batch, bind, gets, lift, ret, modify, call_push, call_acknowledge, persist_or_restore.
  destruct (push_request (e_queue s) (push_limit o)) as [req|e] eqn:Hreq.
  2:{ exfalso. unfold push_request in Hreq. unfold validate_options in Ho. unfold valid_push_limit in Hreq.
      destruct ((1 <=? push_limit o) && (push_limit o <=? 100)); done. }
  cbn [map_err]. destruct (N.eqb_spec (count (req_mutations req)) 0) as [H0|H0].
  { intros _. by eexists. }
  assert (pending (e_queue s) ≠ []) as Hne.
  { intros E. unfold push_request in Hreq. destruct (valid_push_limit _); [|done].
    injection Hreq as <-. apply H0. cbn [req_mutations]. by rewrite E, take_nil. }
  destruct (cp_push _ _ Hc _ _ (e_transport s) Hq Hreq Hne) as (t & resp & -> & Ha). simpl.
  destruct (acknowledge_accepts _ _ _ Hq Ha) as (m & _ & -> & _). simpl.
  destruct (cp_persist _ _ Hc (set_mutations (List.map (confirm_upto (row_id m)) (mutations (e_queue s)))
    (e_queue s)) (e_persistence s)) as (p & ->). simpl. intros _. apply IH. by apply confirm_upto_ok.
Qed.
End Cycle.

(** ** The transactional driver *)

(** How a store is called: with the queue the caller holds, one step on. *)
Inductive store_call {S ES : Type} `{AtomicProtocolSyncStore S ES} (prior : ProtocolQueue) :
  ProtocolQueue → (ProtocolQueue → S → S * ProtocolQueue * result unit ES) → Prop :=
| call_queue : store_call prior prior st_persist_queue
| call_acknowledgement q request response n :
    acknowledge prior response request = (q, Ok n) →
    store_call prior q (λ q st, st_persist_acknowledgement q request response st)
| call_changes c changes :
    decimal_ok c → queue_ck prior ≤ decimal_of c →
    store_call prior (assign_checkpoint c prior) (st_apply_changes_and_persist changes)
| call_records c records :
    decimal_ok c → queue_ck prior ≤ decimal_of c →
    store_call prior (assign_checkpoint c prior) (st_replace_authoritative_and_persist records).

(** What a transactional store promises.  [holds st q] is its consistency with
    a well-formed queue in memory: a commit restores it for the queue handed
    back, which is not behind, and a failure keeps it for the queue before. *)
Class AtomicStoreLaws `{SerdeJson} (S ES : Type) `{AtomicProtocolSyncStore S ES}
    (holds : S → ProtocolQueue → Prop) := {
  holds_ok st q : holds st q → queue_ok q;
  commit_law prior q op st st' q' r :
    holds st prior → store_call prior q op → op q st = (st', q', r) →
    match r with
    | Ok _ => holds st' q' ∧ queue_ck q ≤ queue_ck q'
    | Err _ => holds st' prior
    end
}.

Section AtomicLemmas.
Context `{SerdeJson} {T S ET ES : Type}.
Context `{!ProtocolTransport T ET, !AtomicProtocolSyncStore S ES}.
Context (holds : S → ProtocolQueue → Prop) `{!AtomicStoreLaws S ES holds}.
Implicit Types (s : aenv T S) (o : ProtocolSyncOptions).

(** Memory and disk agree, and the checkpoint only moves forward. *)
Definition atomic_ok s : Prop := holds (a_store s) (a_queue s).

Definition always {A} (m : M (aenv T S) (ProtocolSyncError ET ES ES) A) : Prop :=
  ∀ s, atomic_ok s →
  let '(s', _) := m s in atomic_ok s' ∧ queue_ck (a_queue s) ≤ queue_ck (a_queue s').

Lemma always_bind {A B} (m : M _ _ A) (f : A → M _ _ B) :
  always m → (∀ a, always (f a)) → always (bind m f).
Proof.
  intros Hm Hf s Hs. unfold bind. specialize (Hm s Hs). destruct (m s) as [s1 [a|e]]; [|done].
  destruct Hm as [Hs1 Hck]. specialize (Hf a s1 Hs1). destruct (f a s1) as [s2 r].
  destruct Hf as [Hs2 Hck2]. split; [done|lia].
Qed.

Lemma always_same {A} (m : M _ _ A) :
  (∀ s, a_queue (m s).1 = a_queue s ∧ a_store (m s).1 = a_store s) → always m.
Proof.
  intros Hm s Hs. specialize (Hm s). destruct (m s) as [s' r]. cbn [fst] in Hm.
  unfold atomic_ok in *. destruct Hm as [-> ->]. done.
Qed.

(** A change of the queue in memory that the store commits or that is undone. *)
Lemma always_commit_at {A} s (change : M _ _ A) wrap op
    (k : A → M (aenv T S) (ProtocolSyncError ET ES ES) bool) :
  a_store (change s).1 = a_store s →
  match change s with
  | (s', Ok _) => store_call (a_queue s) (a_queue s') op ∧ queue_ck (a_queue s) ≤ queue_ck (a_queue s')
  | (s', Err _) => a_queue s' = a_queue s
  end →
  atomic_ok s → (∀ a, always (k a)) →
  let '(s', _) :=
    bind (gets a_queue) (λ prior, bind change (λ a, bind (commit_or_restore prior wrap op) (λ _, k a))) s in
  atomic_ok s' ∧ queue_ck (a_queue s) ≤ queue_ck (a_queue s').
Proof.
  intros Hst1 Hc Hs Hk. unfold gets. unfold bind at 1. unfold bind at 1.
  destruct (change s) as [s1 [a|e]]; cbn [fst] in *.
  2:{ unfold atomic_ok. rewrite Hc, Hst1. done. }
  destruct Hc as [Hcall Hck1]. unfold bind at 1, commit_or_restore.
  destruct (op (a_queue s1) (a_store s1)) as [[st' q'] r] eqn:E. rewrite Hst1 in E.
  pose proof (commit_law _ _ _ _ _ _ _ Hs Hcall E) as Hl. destruct r as [[]|e]; [|done].
  destruct Hl as (Hl & Hck'). set (s2 := aset_queue q' (aset_store st' s1)).
  assert (atomic_ok s2) as Hs2 by done. specialize (Hk a s2 Hs2). destruct (k a s2) as [s3 r].
  destruct Hk as [H3 Hck3]. split; [done|]. cbn in Hck3. lia.
Qed.

Lemma atomic_queue_ok s : atomic_ok s → queue_ok (a_queue s).
Proof. apply holds_ok. Qed.

Lemma acall_set_checkpoint_spec c s : decimal_ok c → queue_ck (a_queue s) ≤ decimal_of c →
  acall_set_checkpoint (ET := ET) (ES := ES) c s = (aset_queue (assign_checkpoint c (a_queue s)) s, Ok ()).
Proof. intros Hc Hck. unfold acall_set_checkpoint. by rewrite (set_checkpoint_Ok _ _ Hc). Qed.

Lemma acall_acknowledge_spec response request s : queue_ok (a_queue s) →
  a_store (acall_acknowledge (ET := ET) (ES := ES) response request s).1 = a_store s ∧
  match acall_acknowledge (ET := ET) (ES := ES) response request s with
  | (s', Ok _) =>
      store_call (a_queue s) (a_queue s') (λ q st, st_persist_acknowledgement q request response st)
      ∧ queue_ck (a_queue s) ≤ queue_ck (a_queue s')
  | (s', Err _) => a_queue s' = a_queue s
  end.
Proof.
  intros Hq. unfold acall_acknowledge.
  destruct (acknowledge_cases (a_queue s) response request) as [Ha|(_ & e & -> & _)]; [|by destruct s].
  destruct (acknowledge_accepts _ _ _ Hq Ha) as (m & _ & E & _). rewrite E. cbn. split; [done|].
  split; [by eapply call_acknowledgement|done].
Qed.

Lemma pull_page_atomic_always o : always (pull_page_atomic o).
Proof.
  intros s Hs. unfold pull_page_atomic. unfold gets at 1. unfold bind at 1. unfold bind at 1.
  unfold acall_pull. destruct (tr_pull _ _ _) as [t [[page|reset]|e]]; cbn [map_err]; [| |done].
  - unfold lift. unfold bind at 1. destruct (validate_pull_page _ _) as [[]|] eqn:Hv; cbn [map_err]; [|done].
    apply validate_pull_page_ok in Hv.
    assert (decimal_ok (pull_checkpoint page) ∧ queue_ck (a_queue s) ≤ decimal_of (pull_checkpoint page)) as [Hc Hck]
      by (split; apply Hv).
    pose proof (acall_set_checkpoint_spec _ (aset_transport t s) Hc Hck) as Hset.
    apply (always_commit_at (aset_transport t s) (acall_set_checkpoint (pull_checkpoint page))); rewrite ?Hset; [done| |done|].
    + split; [by apply call_changes|done].
    + intros _. apply always_bind; [by apply always_same|]. intros _.
      destruct (negb _); [by apply always_same|]. by case_bool_decide; apply always_same.
  - destruct (invalid_reset reset); [done|]. unfold bind at 1. unfold acall_snapshot.
    destruct (tr_snapshot _ _) as [t' [sn|e]]; cbn [map_err]; [|done].
    unfold lift. unfold bind at 1. destruct (validate_snapshot _ _) as [[]|] eqn:Hv; cbn [map_err]; [|done].
    apply validate_snapshot_ok in Hv.
    assert (decimal_ok (snap_checkpoint sn) ∧ queue_ck (a_queue s) ≤ decimal_of (snap_checkpoint sn)) as [Hc Hck]
      by (split; apply Hv).
    pose proof (acall_set_checkpoint_spec _ (aset_transport t' (aset_transport t s)) Hc Hck) as Hset.
    apply (always_commit_at (aset_transport t' (aset_transport t s))
             (acall_set_checkpoint (snap_checkpoint sn))); rewrite ?Hset; [done| |done|].
    + split; [by apply call_records|done].
    + intros _. apply always_bind; [by apply always_same|]. intros _. by apply always_same.
Qed.

Lemma push_batch_atomic_always o : always (push_batch_atomic o).
Proof.
  intros s Hs. unfold push_batch_atomic. unfold gets at 1. unfold bind at 1. unfold lift. unfold bind at 1.
  destruct (push_request _ _) as [req|]; cbn [map_err]; [|done].
  destruct (_ =? 0); [done|]. unfold bind at 1. unfold acall_push.
  destruct (tr_push _ _) as [t [resp|e]]; cbn [map_err]; [|done].
  destruct (acall_acknowledge_spec resp req (aset_transport t s) (atomic_queue_ok s Hs)) as [Hst Hc].
  apply (always_commit_at (aset_transport t s) (acall_acknowledge resp req)); [done|exact Hc|done|].
  intros n. apply always_bind; [by apply always_same|]. intros _. by apply always_same.
Qed.

Lemma pull_loop_atomic_always o n : always (pull_loop_atomic o n).
Proof.
  induction n as [|n IH]; cbn [pull_loop_atomic]; [by apply always_same|].
  apply always_bind; [apply pull_page_atomic_always|]. intros []; [done|by apply always_same].
Qed.

Lemma push_loop_atomic_always o n : always (push_loop_atomic o n).
Proof.
  induction n as [|n IH]; cbn [push_loop_atomic]; [by apply always_same|].
  apply always_bind; [apply push_batch_atomic_always|]. intros []; [done|by apply always_same].
Qed.

Lemma sync_cycle_atomic_always o : always (sync_cycle_atomic o).
Proof.
  unfold sync_cycle_atomic.
  repeat (apply always_bind; [first [by apply always_same|apply pull_loop_atomic_always
    |apply push_loop_atomic_always]|intros _]).
  by apply always_same.
Qed.
End AtomicLemmas.

(** ** Closed examples: an in-memory server, application and disk *)

Definition example_answer (request : PushRequest) : PushResponse :=
  {| resp_protocol_version := 1; resp_client_id := req_client_id request;
     resp_last_mutation_id := match last (req_mutations request) with
                              | Some m => mutation_id m | None => "0" end;
     resp_checkpoint := "0";
     resp_results := List.map (λ m, {| res_mutation_id := mutation_id m; res_status := Applied;
       res_original_status := None; res_checkpoint := None; res_revision := None;
       res_code := None; res_message := None |}) (req_mutations request) |}.

(** A server with nothing to send. *)
#[local] Instance example_transport : ProtocolTransport unit string := {
  tr_push request t := (t, Ok (example_answer request));
  tr_pull ck limit t := (t, Ok (Changes {| pull_protocol_version := 1; pull_checkpoint := ck;
                                          pull_has_more := false; pull_changes := [] |}));
  tr_snapshot reset t := (t, Ok {| snap_protocol_version := 1; snap_checkpoint := "0";
                                   snap_records := [] |})
}.
#[local] Instance example_callbacks : ProtocolSyncCallbacks (list Change) string := {
  cb_apply_changes changes log := (log ++ changes, Ok ());
  cb_replace_authoritative records log := (log, Ok ())
}.
#[local] Instance example_persistence : ProtocolQueuePersistence ProtocolQueue string := {
  ps_persist q disk := (q, Ok ())
}.
#[local] Instance example_store : AtomicProtocolSyncStore ProtocolQueue string := {
  st_persist_queue q disk := (q, q, Ok ());
  st_persist_acknowledgement q request response disk := (q, q, Ok ());
  st_apply_changes_and_persist changes q disk := (q, q, Ok ());
  st_replace_authoritative_and_persist records q disk := (q, q, Ok ())
}.

Lemma example_persistence_laws : PersistenceLaws ProtocolQueue string (λ disk, disk).
Proof. split; simpl; congruence. Qed.

Lemma example_callback_laws : CallbackLaws (list Change) string (λ log, log).
Proof. split; simpl; congruence. Qed.

Lemma example_store_laws :
  AtomicStoreLaws (H := reference_codec) ProtocolQueue string
    (λ disk q, disk = q ∧ queue_ok (H := reference_codec) q).
Proof.
  split; [by intros st q [_ ?]|]. intros prior q op st st' q' r [-> Hq] Hcall E.
  assert (op = λ q _, (q, q, Ok ())) as -> by by destruct Hcall.
  injection E as <- <- <-. split; [|done]. split; [done|].
  destruct Hcall as [|q request response n Ha|c changes Hc _|c records Hc _]; [done| |by apply assign_checkpoint_ok..].
  pose proof (acknowledge_preserves (H := reference_codec) prior response request Hq) as Hp. by rewrite Ha in Hp.
Qed.

Definition example_env : env unit (list Change) ProtocolQueue :=
  {| e_queue := example_queue; e_transport := (); e_callbacks := []; e_persistence := example_queue;
     e_result := empty_result "0" |}.

(** Three changes on two pages, after the checkpoint 7. *)
Definition example_change (ck record_id : string) : Change :=
  {| ch_checkpoint := ck; ch_table := "notes"; ch_record_id := record_id; ch_operation := Upsert;
     ch_record := Some (JObject []); ch_revision := ck; ch_source := None |}.
Definition example_changes : list Change := [example_change "8" "a"; example_change "9" "b"; example_change "11" "a"].

(** The pages after a checkpoint; the state counts the pulls. *)
#[local] Instance example_feed : ProtocolTransport nat string := {
  tr_push request t := (t, Ok (example_answer request));
  tr_pull ck limit t :=
    (S t, Ok (Changes {| pull_protocol_version := 1;
                         pull_checkpoint := match t with O => "9" | _ => "12" end;
                         pull_has_more := match t with O => true | _ => false end;
                         pull_changes := match t with O => take 2 example_changes | S O => drop 2 example_changes | _ => [] end |}));
  tr_snapshot reset t := (t, Ok {| snap_protocol_version := 1; snap_checkpoint := "0"; snap_records := [] |})
}.

Definition feed_env : env nat (list Change) ProtocolQueue :=
  {| e_queue := example_queue; e_transport := 0%nat; e_callbacks := []; e_persistence := example_queue;
     e_result := empty_result "0" |}.

Lemma example_answer_acknowledges q limit request :
  queue_ok (H := reference_codec) q → push_request q limit = Ok request → pending q ≠ [] →
  acknowledges q (example_answer request) request.
Proof.
  intros Hq Hr Hne. unfold push_request in Hr. destruct (valid_push_limit limit) eqn:Hl; [|done].
  injection Hr as <-. unfold valid_push_limit in Hl. bsimp.
  assert (1 ≤ count (take (N.to_nat limit) (pending q)) ≤ limit) as Hsize.
  { unfold count. rewrite length_take. destruct (pending q); [done|]. simpl. lia. }
  split; cbn [req_client_id req_protocol_version req_mutations example_answer resp_client_id
    resp_protocol_version resp_last_mutation_id resp_checkpoint resp_results]; try done; [lia| | | |].
  - rewrite length_take. destruct (Nat.min_spec (N.to_nat limit) (length (pending q))) as [[? ->]|[? ->]];
      [done|]. by rewrite firstn_all, take_ge.
  - destruct (last _) as [m|] eqn:E; [eauto|]. apply last_None in E. rewrite E in Hsize.
    unfold count in Hsize. simpl in Hsize. lia.
  - exists 0. split; [vm_compute; discriminate|done].
  - apply Forall2_fmap_r, Forall_Forall2_diag, Forall_forall. intros m _. repeat split; try done.
    by intros [].
Qed.

Lemma example_cooperative : cooperative (H := reference_codec) (T := unit) (C := list Change)
  (P := ProtocolQueue) default_sync_options (λ _, 0%nat).
Proof.
  split.
  - intros ck t Hck. do 2 eexists. split; [reflexivity|]. split; [|done].
    split; try done. repeat constructor.
  - intros q request t Hq Hr Hne. do 2 eexists. split; [reflexivity|]. by eapply example_answer_acknowledges.
  - intros changes c. by eexists.
  - intros q p. by eexists.
  - intros t. vm_compute. lia.
Qed.

(** ** Properties *)

(** C10: memory never runs ahead of disk.  Whatever the server, the application
    and the disk do, and however a cycle ends, the queue in memory afterwards is
    the queue last persisted, when it was so before. *)
Theorem sync_cycle_memory_is_disk `{SerdeJson} {T C P ET EC EP}
    `{!ProtocolTransport T ET, !ProtocolSyncCallbacks C EC, !ProtocolQueuePersistence P EP}
    (durable : P → ProtocolQueue) `{!PersistenceLaws P EP durable} o (s : env T C P) :
  queue_ok (e_queue s) → durable (e_persistence s) = e_queue s →
  durable (e_persistence (sync_cycle o s).1) = e_queue (sync_cycle o s).1.
Proof. intros Hq Hs. exact (cycle_in_sync durable o s Hq Hs). Qed.

Lemma sync_cycle_memory_is_disk_witness :
  ∃ q, e_persistence (sync_cycle default_sync_options example_env).1 = q ∧ pending q = [].
Proof.
  eexists. split.
  - exact (sync_cycle_memory_is_disk (H := reference_codec) (λ disk, disk)
      (PersistenceLaws0 := example_persistence_laws) default_sync_options example_env
      example_queue_ok eq_refl).
  - vm_compute. reflexivity.
Defined.

(** A cycle keeps every queued mutation.  However it ends, the queue is still
    well-formed, its rows are the same up to confirmation, only a prefix of the
    pending rows left the pending queue, and the checkpoint did not move back. *)
Theorem sync_cycle_keeps_queue `{SerdeJson} {T C P ET EC EP}
    `{!ProtocolTransport T ET, !ProtocolSyncCallbacks C EC, !ProtocolQueuePersistence P EP}
    o (s : env T C P) : queue_ok (e_queue s) →
  queue_ok (e_queue (sync_cycle o s).1) ∧ kept (e_queue s) (e_queue (sync_cycle o s).1).
Proof.
  intros Hq. pose proof (cycle_kept o s Hq) as Hr. unfold run_spec in Hr.
  destruct (sync_cycle o s) as [s' [res|e]]; by destruct Hr.
Qed.

Lemma sync_cycle_keeps_queue_witness :
  queue_ok (H := reference_codec) (e_queue (sync_cycle default_sync_options example_env).1).
Proof.
  exact (proj1 (sync_cycle_keeps_queue (H := reference_codec) default_sync_options example_env
    example_queue_ok)).
Defined.

(** C1: the application sees each change once and in order.  The changes a cycle
    applied lie strictly after the checkpoint it started from, in strictly
    increasing order; when the cycle succeeds none lies beyond the checkpoint it
    stored. *)
Theorem sync_cycle_applied_in_order `{SerdeJson} {T C P ET EC EP}
    `{!ProtocolTransport T ET, !ProtocolSyncCallbacks C EC, !ProtocolQueuePersistence P EP}
    (applied : C → list Change) `{!CallbackLaws C EC applied} o (s : env T C P) :
  queue_ok (e_queue s) →
  ∃ new, applied (e_callbacks (sync_cycle o s).1) = applied (e_callbacks s) ++ new ∧
    StronglySorted N.lt (queue_ck (e_queue s) :: List.map change_ck new) ∧
    (is_ok (sync_cycle o s).2 = true →
     Forall (λ c, change_ck c ≤ queue_ck (e_queue (sync_cycle o s).1)) new).
Proof.
  intros Hq. pose proof (cycle_applied applied o s Hq) as Hr. unfold run_spec in Hr.
  destruct (sync_cycle o s) as [s' [res|e]].
  - destruct Hr as (_ & new & (? & ?) & ?). eauto.
  - destruct Hr as (new & (? & ?)). exists new. split; [done|]. split; [done|]. by intros [=].
Qed.

Lemma sync_cycle_applied_in_order_witness :
  ∃ new, e_callbacks (sync_cycle default_sync_options feed_env).1 = new ∧
    new = example_changes ∧ StronglySorted N.lt (7 :: List.map change_ck new) ∧
    queue_ck (e_queue (sync_cycle default_sync_options feed_env).1) = 12 ∧
    Forall (λ c, change_ck c ≤ queue_ck (e_queue (sync_cycle default_sync_options feed_env).1)) new.
Proof.
  destruct (sync_cycle_applied_in_order (H := reference_codec) (λ log, log)
    (CallbackLaws0 := example_callback_laws) default_sync_options feed_env example_queue_ok)
    as (new & H1 & H2 & H3).
  change (e_callbacks feed_env) with (@nil Change) in H1. cbn [app] in H1.
  exists new. split; [exact H1|]. split; [rewrite <- H1; vm_compute; reflexivity|].
  split; [exact H2|]. split; [vm_compute; reflexivity|]. apply H3. vm_compute. reflexivity.
Defined.

(** What a successful cycle reports is what it did.  It pushed and had
    acknowledged exactly the oldest [push_limit * max_push_batches] pending rows,
    or all of them; [has_more_pending] says whether any is left; the checkpoint
    is the stored one, and the server's last page said it was the end. *)
Theorem sync_cycle_report `{SerdeJson} {T C P ET EC EP}
    `{!ProtocolTransport T ET, !ProtocolSyncCallbacks C EC, !ProtocolQueuePersistence P EP}
    o (s s' : env T C P) res : queue_ok (e_queue s) → sync_cycle o s = (s', Ok res) →
  let k := N.min (count (pending (e_queue s))) (push_limit o * max_push_batches_per_cycle o) in
  pending (e_queue s') = drop (N.to_nat k) (pending (e_queue s)) ∧
  cy_pushed_mutations res = k ∧ cy_acknowledged_mutations res = k ∧
  cy_has_more_pending res = negb (count (pending (e_queue s')) =? 0) ∧
  cy_checkpoint res = checkpoint (e_queue s') ∧ server_done o s'.
Proof. apply cycle_counts. Qed.

Lemma sync_cycle_report_witness :
  ∃ s' res, sync_cycle default_sync_options example_env = (s', Ok res) ∧
    cy_pushed_mutations res = 1 ∧ cy_has_more_pending res = false.
Proof.
  destruct (sync_cycle default_sync_options example_env) as [s' [res|e]] eqn:E;
    [|exfalso; vm_compute in E; discriminate].
  exists s', res. split; [reflexivity|].
  destruct (sync_cycle_report (H := reference_codec) default_sync_options example_env s' res example_queue_ok E) as (Hp & Hk & _ & Hm & _).
  rewrite Hm, Hp, Hk. split; vm_compute; reflexivity.
Defined.

(** C12: a cycle completes.  Against a server that answers and an application that
    does not fail, with fewer pages outstanding than the page limit, a cycle with
    valid options returns a result. *)
Theorem sync_cycle_completes `{SerdeJson} {T C P ET EC EP}
    `{!ProtocolTransport T ET, !ProtocolSyncCallbacks C EC, !ProtocolQueuePersistence P EP}
    o (pages_left : T → nat) (s : env T C P) :
  cooperative (C := C) (P := P) (EC := EC) (EP := EP) o pages_left →
  validate_options o = Ok o → queue_ok (e_queue s) →
  ∃ s' res, sync_cycle o s = (s', Ok res).
Proof.
  intros Hc Ho Hq. unfold sync_cycle, bind, modify, gets, pull_to_current.
  set (s0 := set_result _ s). assert (queue_ok (e_queue s0)) as Hq0 by done.
  destruct (cooperative_pull_loop o pages_left _ s0 Hc Hq0 (cp_pages _ _ Hc _)) as (s1 & E1).
  pose proof (proj1 (pull_loop_pending o (N.to_nat (max_pull_pages_per_phase o)) s0 Hq0)) as Hq1.
  rewrite E1 in *. cbn [fst] in Hq1.
  destruct (cooperative_push_loop o pages_left (N.to_nat (max_push_batches_per_cycle o)) s1 Hc Ho Hq1)
    as (s2 & -> & Hq2).
  set (s2' := set_result _ s2). assert (queue_ok (e_queue s2')) as Hq2' by done.
  destruct (cooperative_pull_loop o pages_left _ s2' Hc Hq2' (cp_pages _ _ Hc _)) as (s3 & ->).
  by do 2 eexists.
Qed.

Lemma sync_cycle_completes_witness :
  ∃ s' res, sync_cycle default_sync_options example_env = (s', Ok res).
Proof.
  exact (sync_cycle_completes (H := reference_codec) default_sync_options (λ _, 0%nat) example_env
    example_cooperative eq_refl example_queue_ok).
Defined.

(** A pull page is accepted exactly when it continues the local checkpoint:
    version 1, canonical decimals, changes well-formed, strictly ordered after
    the local checkpoint and not beyond the page's. *)
Theorem validate_pull_page_correct page prior :
  validate_pull_page page prior = Ok () ↔ page_ok prior page.
Proof. apply validate_pull_page_ok. Qed.

(** A transactional cycle keeps memory and disk equal.  With a store that
    commits rows and queue together, the queue in memory is one the store holds
    and the checkpoint has not moved back, however the cycle ends. *)
Theorem sync_cycle_atomic_correct `{SerdeJson} {T S ET ES}
    `{!ProtocolTransport T ET, !AtomicProtocolSyncStore S ES}
    (holds : S → ProtocolQueue → Prop) `{!AtomicStoreLaws S ES holds} o (s : aenv T S) :
  holds (a_store s) (a_queue s) →
  let s' := (sync_cycle_atomic o s).1 in
  holds (a_store s') (a_queue s') ∧ queue_ck (a_queue s) ≤ queue_ck (a_queue s').
Proof.
  intros Hs. pose proof (sync_cycle_atomic_always holds o s Hs) as Ha. cbn zeta.
  by destruct (sync_cycle_atomic o s) as [s' r].
Qed.

Lemma sync_cycle_atomic_correct_witness :
  ∃ s' : aenv unit ProtocolQueue,
    (sync_cycle_atomic default_sync_options {| a_queue := example_queue; a_transport := ();
       a_store := example_queue; a_result := empty_result "0" |}).1 = s' ∧
    a_store s' = a_queue s' ∧ pending (a_queue s') = [].
Proof.
  eexists. split; [reflexivity|]. split.
  - exact (proj1 (proj1 (sync_cycle_atomic_correct (H := reference_codec) _
      (AtomicStoreLaws0 := example_store_laws) default_sync_options
      {| a_queue := example_queue; a_transport := (); a_store := example_queue;
         a_result := empty_result "0" |} (conj eq_refl example_queue_ok)))).
  - vm_compute. reflexivity.
Defined.
