(* ===== verification/Scheduler.v ===== *)
(** * Scheduler: the state machine around sync cycles

    Models [clients/rust/src/protocol_scheduler.rs]: timer generations, single
    flight, offline suppression, wake coalescing, retry phases and the rejection
    of stale callbacks.  [apply] keeps the state on rejection. *)

From S2P Require Import Prelude.

Inductive Phase := Stopped | Idle | Syncing | Offline | Backoff | Error.
#[export] Instance Phase_eq_dec : EqDecision Phase.
Proof. solve_decision. Defined.

Inductive ResetPhase := NoReset | SnapshotRequested | SnapshotInstalled.
#[export] Instance ResetPhase_eq_dec : EqDecision ResetPhase.
Proof. solve_decision. Defined.

Record SchedulerState := {
  phase : Phase;
  online : bool;
  generation : N;
  timer_pending : bool;
  timer_generation : N;
  stale_timer_pending : bool;
  cycle_pending : bool;
  cycle_generation : N;
  network_active : bool;
  wake_pending : bool;
  consecutive_failures : N;
  reset_phase : ResetPhase;
  pages_seen : N
}.

Definition initial : SchedulerState :=
  {| phase := Stopped; online := true; generation := 0; timer_pending := false;
     timer_generation := 0; stale_timer_pending := false; cycle_pending := false;
     cycle_generation := 0; network_active := false; wake_pending := false;
     consecutive_failures := 0; reset_phase := NoReset; pages_seen := 0 |}.

Inductive Event :=
| Start | Stop | Hint | GoOffline | GoOnline | TimerFire | TimerJoin | StaleTimerFire
| PageMore | BeginReset | FinishReset | CycleSuccess | CycleSuccessMore
| CycleRetryableFailure | CyclePermanentFailure | MalformedResponse
| StaleCycleSuccess | StaleCycleFailure | IdleEvent.
#[export] Instance Event_eq_dec : EqDecision Event.
Proof. solve_decision. Defined.

Record TransitionError := { te_event : Event; te_phase : Phase }.

Definition MAX_CONSECUTIVE_FAILURES : N := 31.
Definition MAX_PAGES_PER_REFINEMENT_TRACE : N := 2.

Definition u8_max : N := 255.
Definition saturating_add_u8 (a b : N) : N := N.min u8_max (a + b).

Definition current_timer_enabled (s : SchedulerState) : bool :=
  negb (phase s == Stopped) && online s && timer_pending s
  && (timer_generation s =? generation s).

Definition current_cycle_enabled (s : SchedulerState) : bool :=
  (phase s == Syncing) && network_active s && cycle_pending s
  && (cycle_generation s =? generation s).

Definition settle_enabled (s : SchedulerState) : bool :=
  current_cycle_enabled s && negb (reset_phase s == SnapshotRequested).

Definition settle_success (s : SchedulerState) (has_more : bool) : SchedulerState :=
  {| phase := Idle; online := online s; generation := generation s;
     timer_pending := has_more || wake_pending s; timer_generation := generation s;
     stale_timer_pending := stale_timer_pending s; cycle_pending := false;
     cycle_generation := cycle_generation s; network_active := false; wake_pending := false;
     consecutive_failures := 0; reset_phase := NoReset; pages_seen := 0 |}.

Definition state_is_safe (s : SchedulerState) : bool :=
  let network_owned :=
    negb (network_active s)
    || ((phase s == Syncing) && online s && cycle_pending s && (cycle_generation s =? generation s)) in
  let inactive_boundaries :=
    negb (network_active s) || (negb (phase s == Stopped) && negb (phase s == Offline)) in
  let reset_ordered := (reset_phase s == NoReset) || current_cycle_enabled s in
  let timer_owned := negb (timer_pending s) || current_timer_enabled s in
  network_owned && inactive_boundaries && reset_ordered && timer_owned.

(** The match of [apply]: [None] is [enabled = false], [Some next] the mutated
    clone. *)
Definition on_start (s : SchedulerState) : option SchedulerState :=
  if negb (phase s == Stopped) then None
  else match checked_add_u64 (generation s) 1 with
       | Some g =>
           Some {| phase := if online s then Idle else Offline; online := online s; generation := g;
                   timer_pending := online s; timer_generation := g;
                   stale_timer_pending := stale_timer_pending s;
                   cycle_pending := cycle_pending s; cycle_generation := cycle_generation s;
                   network_active := network_active s; wake_pending := false;
                   consecutive_failures := 0; reset_phase := NoReset; pages_seen := 0 |}
       | None => None
       end.

Definition on_stop (s : SchedulerState) : option SchedulerState :=
  if phase s == Stopped then None
  else match checked_add_u64 (generation s) 1 with
       | Some g =>
           Some {| phase := Stopped; online := online s; generation := g;
                   timer_pending := false; timer_generation := timer_generation s;
                   stale_timer_pending := stale_timer_pending s || timer_pending s;
                   cycle_pending := cycle_pending s; cycle_generation := cycle_generation s;
                   network_active := false; wake_pending := false;
                   consecutive_failures := consecutive_failures s;
                   reset_phase := NoReset; pages_seen := 0 |}
       | None => None
       end.

Definition on_hint (s : SchedulerState) : option SchedulerState :=
  if (phase s == Stopped) || negb (online s) then None
  else
    let phase' := if phase s == Offline then Idle else phase s in
    if cycle_pending s then
      Some {| phase := phase'; online := online s; generation := generation s;
              timer_pending := timer_pending s; timer_generation := timer_generation s;
              stale_timer_pending := stale_timer_pending s;
              cycle_pending := cycle_pending s; cycle_generation := cycle_generation s;
              network_active := network_active s; wake_pending := true;
              consecutive_failures := consecutive_failures s;
              reset_phase := reset_phase s; pages_seen := pages_seen s |}
    else
      Some {| phase := phase'; online := online s; generation := generation s;
              timer_pending := true; timer_generation := generation s;
              stale_timer_pending := stale_timer_pending s || timer_pending s;
              cycle_pending := cycle_pending s; cycle_generation := cycle_generation s;
              network_active := network_active s; wake_pending := wake_pending s;
              consecutive_failures := consecutive_failures s;
              reset_phase := reset_phase s; pages_seen := pages_seen s |}.

Definition on_go_offline (s : SchedulerState) : option SchedulerState :=
  if (phase s == Stopped) || negb (online s) then None
  else match checked_add_u64 (generation s) 1 with
       | Some g =>
           Some {| phase := Offline; online := false; generation := g;
                   timer_pending := false; timer_generation := timer_generation s;
                   stale_timer_pending := stale_timer_pending s || timer_pending s;
                   cycle_pending := cycle_pending s; cycle_generation := cycle_generation s;
                   network_active := false; wake_pending := false;
                   consecutive_failures := consecutive_failures s;
                   reset_phase := NoReset; pages_seen := 0 |}
       | None => None
       end.

Definition on_go_online (s : SchedulerState) : option SchedulerState :=
  if negb (phase s == Offline) || online s then None
  else
    Some {| phase := Idle; online := true; generation := generation s;
            timer_pending := negb (cycle_pending s); timer_generation := generation s;
            stale_timer_pending := stale_timer_pending s;
            cycle_pending := cycle_pending s; cycle_generation := cycle_generation s;
            network_active := network_active s; wake_pending := cycle_pending s;
            consecutive_failures := consecutive_failures s;
            reset_phase := reset_phase s; pages_seen := pages_seen s |}.

Definition on_timer_fire (s : SchedulerState) : option SchedulerState :=
  if negb (current_timer_enabled s) || cycle_pending s then None
  else
    Some {| phase := Syncing; online := online s; generation := generation s;
            timer_pending := false; timer_generation := timer_generation s;
            stale_timer_pending := stale_timer_pending s;
            cycle_pending := true; cycle_generation := generation s;
            network_active := true; wake_pending := false;
            consecutive_failures := consecutive_failures s;
            reset_phase := NoReset; pages_seen := 0 |}.

Definition on_timer_join (s : SchedulerState) : option SchedulerState :=
  if negb (current_timer_enabled s) || negb (cycle_pending s) then None
  else
    Some {| phase := phase s; online := online s; generation := generation s;
            timer_pending := false; timer_generation := timer_generation s;
            stale_timer_pending := stale_timer_pending s;
            cycle_pending := cycle_pending s; cycle_generation := cycle_generation s;
            network_active := network_active s; wake_pending := true;
            consecutive_failures := consecutive_failures s;
            reset_phase := reset_phase s; pages_seen := pages_seen s |}.

Definition on_stale_timer_fire (s : SchedulerState) : option SchedulerState :=
  if negb (stale_timer_pending s) then None
  else
    Some {| phase := phase s; online := online s; generation := generation s;
            timer_pending := timer_pending s; timer_generation := timer_generation s;
            stale_timer_pending := false;
            cycle_pending := cycle_pending s; cycle_generation := cycle_generation s;
            network_active := network_active s; wake_pending := wake_pending s;
            consecutive_failures := consecutive_failures s;
            reset_phase := reset_phase s; pages_seen := pages_seen s |}.

Definition with_cycle_progress (rp : ResetPhase) (pages : N) (s : SchedulerState) : SchedulerState :=
  {| phase := phase s; online := online s; generation := generation s;
     timer_pending := timer_pending s; timer_generation := timer_generation s;
     stale_timer_pending := stale_timer_pending s;
     cycle_pending := cycle_pending s; cycle_generation := cycle_generation s;
     network_active := network_active s; wake_pending := wake_pending s;
     consecutive_failures := consecutive_failures s; reset_phase := rp; pages_seen := pages |}.

Definition on_page_more (s : SchedulerState) : option SchedulerState :=
  if negb (current_cycle_enabled s) || (reset_phase s == SnapshotRequested)
     || (MAX_PAGES_PER_REFINEMENT_TRACE <=? pages_seen s)
  then None else Some (with_cycle_progress (reset_phase s) (pages_seen s + 1) s).

Definition on_begin_reset (s : SchedulerState) : option SchedulerState :=
  if negb (current_cycle_enabled s) || negb (reset_phase s == NoReset)
  then None else Some (with_cycle_progress SnapshotRequested (pages_seen s) s).

Definition on_finish_reset (s : SchedulerState) : option SchedulerState :=
  if negb (current_cycle_enabled s) || negb (reset_phase s == SnapshotRequested)
  then None else Some (with_cycle_progress SnapshotInstalled (pages_seen s) s).

Definition on_cycle_success (has_more : bool) (s : SchedulerState) : option SchedulerState :=
  if negb (settle_enabled s) then None else Some (settle_success s has_more).

Definition on_retryable_failure (s : SchedulerState) : option SchedulerState :=
  if negb (current_cycle_enabled s) then None
  else
    Some {| phase := Backoff; online := online s; generation := generation s;
            timer_pending := true; timer_generation := generation s;
            stale_timer_pending := stale_timer_pending s;
            cycle_pending := false; cycle_generation := cycle_generation s;
            network_active := false; wake_pending := false;
            consecutive_failures :=
              N.min (saturating_add_u8 (consecutive_failures s) 1) MAX_CONSECUTIVE_FAILURES;
            reset_phase := NoReset; pages_seen := 0 |}.

Definition on_permanent_failure (s : SchedulerState) : option SchedulerState :=
  if negb (current_cycle_enabled s) then None
  else
    Some {| phase := Error; online := online s; generation := generation s;
            timer_pending := false; timer_generation := timer_generation s;
            stale_timer_pending := stale_timer_pending s;
            cycle_pending := false; cycle_generation := cycle_generation s;
            network_active := false; wake_pending := false;
            consecutive_failures := consecutive_failures s;
            reset_phase := NoReset; pages_seen := 0 |}.

Definition on_stale_cycle (s : SchedulerState) : option SchedulerState :=
  if negb (cycle_pending s) || (cycle_generation s =? generation s) then None
  else
    Some {| phase := phase s; online := online s; generation := generation s;
            timer_pending := if phase s == Idle then true else timer_pending s;
            timer_generation := if phase s == Idle then generation s else timer_generation s;
            stale_timer_pending := stale_timer_pending s;
            cycle_pending := false; cycle_generation := cycle_generation s;
            network_active := network_active s; wake_pending := false;
            consecutive_failures := consecutive_failures s;
            reset_phase := reset_phase s; pages_seen := pages_seen s |}.

Definition enabled_next (e : Event) (s : SchedulerState) : option SchedulerState :=
  match e with
  | IdleEvent => Some s
  | Start => on_start s
  | Stop => on_stop s
  | Hint => on_hint s
  | GoOffline => on_go_offline s
  | GoOnline => on_go_online s
  | TimerFire => on_timer_fire s
  | TimerJoin => on_timer_join s
  | StaleTimerFire => on_stale_timer_fire s
  | PageMore => on_page_more s
  | BeginReset => on_begin_reset s
  | FinishReset => on_finish_reset s
  | CycleSuccess => on_cycle_success false s
  | CycleSuccessMore => on_cycle_success true s
  | CycleRetryableFailure => on_retryable_failure s
  | CyclePermanentFailure | MalformedResponse => on_permanent_failure s
  | StaleCycleSuccess | StaleCycleFailure => on_stale_cycle s
  end.

Definition apply (s : SchedulerState) (e : Event)
  : SchedulerState * result SchedulerState TransitionError :=
  match enabled_next e s with
  | Some next =>
      if state_is_safe next then (next, Ok next)
      else (s, Err {| te_event := e; te_phase := phase s |})
  | None => (s, Err {| te_event := e; te_phase := phase s |})
  end.

(** ** Specification *)

(** What holds of every state the scheduler can be in. *)
Record inv (s : SchedulerState) : Prop := {
  i_online : online s = match phase s with
                        | Stopped => online s
                        | Offline => false
                        | _ => true
                        end;
  i_network : network_active s = (phase s == Syncing);
  i_syncing : phase s = Syncing →
    cycle_pending s = true ∧ cycle_generation s = generation s ∧ timer_pending s = false;
  i_current : cycle_pending s = true → cycle_generation s = generation s → phase s = Syncing;
  i_cycle_generation : cycle_generation s ≤ generation s;
  i_backoff : phase s = Backoff → timer_pending s = true ∧ cycle_pending s = false;
  i_error : phase s = Error → cycle_pending s = false;
  i_wake : wake_pending s = true →
    cycle_pending s = true ∧ phase s ≠ Stopped ∧ phase s ≠ Offline;
  i_timer : timer_pending s = true →
    timer_generation s = generation s ∧ phase s ≠ Stopped ∧ phase s ≠ Offline;
  i_reset : reset_phase s ≠ NoReset → phase s = Syncing;
  i_bounds : consecutive_failures s ≤ 31 ∧ pages_seen s ≤ 2 ∧ generation s ≤ u64_max
}.

(** Accepted events, one step each; [run] feeds a list and skips the rejected. *)
Inductive step : SchedulerState → Event → SchedulerState → Prop :=
| step_accepted s e s' : apply s e = (s', Ok s') → step s e s'.

Definition feed (s : SchedulerState) (e : Event) : SchedulerState := (apply s e).1.
Definition run (s : SchedulerState) (es : list Event) : SchedulerState := fold_left feed es s.

(** ** Lemmas *)

(** [state_is_safe], clause by clause. *)
Lemma state_is_safe_iff s :
  state_is_safe s = true ↔
  (network_active s = true → phase s = Syncing ∧ online s = true ∧ cycle_pending s = true ∧
     cycle_generation s = generation s) ∧
  (reset_phase s ≠ NoReset → phase s = Syncing ∧ network_active s = true ∧ cycle_pending s = true ∧
     cycle_generation s = generation s) ∧
  (timer_pending s = true → phase s ≠ Stopped ∧ online s = true ∧ timer_generation s = generation s).
Proof.
  unfold state_is_safe, current_cycle_enabled, current_timer_enabled.
  rewrite !andb_true_iff, !orb_true_iff, !andb_true_iff, !negb_true_iff, !bool_decide_eq_true,
    !bool_decide_eq_false, !N.eqb_eq.
  assert (∀ b : bool, b = true ∨ b = false) as Hb by (intros []; auto). split.
  - intros [[[Hn Hi] Hr] Ht]. split; [|split]; intros E.
    + destruct Hn as [Hn|Hn]; [congruence|tauto].
    + destruct Hr as [Hr|Hr]; [done|tauto].
    + destruct Ht as [Ht|Ht]; [congruence|tauto].
  - intros (Hn & Hr & Ht). split; [split; [split|]|].
    + destruct (Hb (network_active s)) as [E|E]; [|auto]. right. specialize (Hn E). tauto.
    + destruct (Hb (network_active s)) as [E|E]; [|auto]. right. destruct (Hn E) as [-> _]. done.
    + destruct (decide (reset_phase s = NoReset)) as [E|E]; [auto|]. right. specialize (Hr E). tauto.
    + destruct (Hb (timer_pending s)) as [E|E]; [|auto]. right. specialize (Ht E). tauto.
Qed.

Lemma inv_safe s : inv s → state_is_safe s = true.
Proof.
  intros [Hon Hnet Hsync _ _ _ _ _ Htim Hres _]. apply state_is_safe_iff.
  assert (phase s = Syncing → online s = true ∧ network_active s = true) as Hs.
  { intros E. rewrite E in *. split; [done|]. by rewrite Hnet, bool_decide_eq_true_2. }
  split; [|split].
  - rewrite Hnet. intros E%bool_decide_eq_true. destruct (Hs E), (Hsync E) as (? & ? & _). done.
  - intros E%Hres. destruct (Hs E), (Hsync E) as (? & ? & _). done.
  - intros E. destruct (Htim E) as (? & ? & ?). split; [done|]. split; [|done].
    by destruct (phase s).
Qed.

Lemma inv_initial : inv initial.
Proof. split; simpl; try done; try lia. Qed.

(** Each handler preserves the invariant; the guards, as propositions, decide
    every field. *)
Ltac handler :=
  intros [Hon Hnet Hsync Hcur Hgen Hback Herr Hwake Htim Hres [Hf [Hp Hg]]];
  unfold enabled_next, on_start, on_stop, on_hint, on_go_offline, on_go_online, on_timer_fire,
    on_timer_join, on_stale_timer_fire, on_page_more, on_begin_reset, on_finish_reset,
    on_cycle_success, on_retryable_failure, on_permanent_failure, on_stale_cycle, settle_enabled,
    settle_success, current_timer_enabled, current_cycle_enabled, with_cycle_progress,
    checked_add_u64, saturating_add_u8, MAX_CONSECUTIVE_FAILURES, MAX_PAGES_PER_REFINEMENT_TRACE,
    u8_max in *.

Lemma step_inv e s s' : inv s → enabled_next e s = Some s' → inv s'.
Proof.
  handler. destruct e; crack; intros [= <-]; bsimp; split; simpl; try done; try lia;
    try (intuition congruence); match goal with E : phase s = _ |- _ => rewrite E end; done.
Qed.

(** In a reachable state the guard on the next state never fires. *)
Lemma apply_inv s e : inv s →
  apply s e = match enabled_next e s with
              | Some next => (next, Ok next)
              | None => (s, Err {| te_event := e; te_phase := phase s |})
              end.
Proof.
  intros Hs. unfold apply. destruct (enabled_next e s) as [next|] eqn:E; [|done].
  by rewrite (inv_safe next) by (by eapply step_inv).
Qed.

Lemma feed_inv s e : inv s → inv (feed s e).
Proof.
  intros Hs. unfold feed. rewrite apply_inv by done.
  destruct (enabled_next e s) eqn:E; [by eapply step_inv|done].
Qed.

Lemma run_inv es s : inv s → inv (run s es).
Proof. revert s. induction es as [|e es IH]; intros s Hs; [done|]. by apply IH, feed_inv. Qed.

(** *** Wake-ups *)

(** A sync is owed when a timer is armed or the running cycle will arm one. *)
Definition owed (s : SchedulerState) : bool := timer_pending s || wake_pending s.

(** The events that serve or deliberately drop what is owed. *)
Definition discharges (e : Event) : bool :=
  match e with
  | TimerFire | Stop | GoOffline | CyclePermanentFailure | MalformedResponse => true
  | _ => false
  end.

Lemma enabled_owed e s s' : inv s → enabled_next e s = Some s' → discharges e = false →
  owed s = true → owed s' = true.
Proof.
  handler. unfold owed. destruct e; crack; intros [= <-] _ Ho; simpl in *; bsimp; try done;
    try (destruct Ho; tauto); try tauto; try (destruct Ho; [|tauto]; intuition congruence).
  all: left; destruct Ho as [Ho|Ho]; [done|]; destruct (phase s); intuition congruence.
Qed.

(** *** Cycles *)

Definition starts_cycle (e : Event) : bool := e == TimerFire.
Definition ends_cycle (e : Event) : bool :=
  match e with
  | CycleSuccess | CycleSuccessMore | CycleRetryableFailure | CyclePermanentFailure
  | MalformedResponse | StaleCycleSuccess | StaleCycleFailure => true
  | _ => false
  end.

(** The results and progress reports of the cycle of the current generation. *)
Definition current_cycle_event (e : Event) : bool :=
  match e with
  | PageMore | BeginReset | FinishReset | CycleSuccess | CycleSuccessMore
  | CycleRetryableFailure | CyclePermanentFailure | MalformedResponse => true
  | _ => false
  end.

Definition b2n (b : bool) : N := if b then 1 else 0.

Lemma enabled_cycle e s s' : enabled_next e s = Some s' →
  b2n (starts_cycle e) + b2n (cycle_pending s) = b2n (ends_cycle e) + b2n (cycle_pending s').
Proof.
  unfold enabled_next, on_start, on_stop, on_hint, on_go_offline, on_go_online, on_timer_fire,
    on_timer_join, on_stale_timer_fire, on_page_more, on_begin_reset, on_finish_reset,
    on_cycle_success, on_retryable_failure, on_permanent_failure, on_stale_cycle, settle_enabled,
    current_cycle_enabled.
  destruct e; crack; intros [= <-]; simpl; bsimp;
    repeat match goal with H : cycle_pending s = _ |- _ => rewrite H; clear H end; done.
Qed.

Lemma enabled_current_cycle e s : current_cycle_event e = true → is_Some (enabled_next e s) →
  cycle_pending s = true ∧ cycle_generation s = generation s.
Proof.
  intros He [s' E]. unfold enabled_next, on_page_more, on_begin_reset, on_finish_reset,
    on_cycle_success, on_retryable_failure, on_permanent_failure, settle_enabled,
    current_cycle_enabled in E.
  destruct e; try done; crack; bsimp; done.
Qed.

(** No event other than a fresh [TimerFire] revives a cycle of an old generation. *)
Definition no_current_cycle (s : SchedulerState) : Prop :=
  cycle_pending s = true → cycle_generation s < generation s.

Lemma enabled_no_current e s s' : enabled_next e s = Some s' → e ≠ TimerFire →
  no_current_cycle s → no_current_cycle s'.
Proof.
  unfold no_current_cycle, enabled_next, on_start, on_stop, on_hint, on_go_offline, on_go_online,
    on_timer_join, on_stale_timer_fire, on_page_more, on_begin_reset, on_finish_reset,
    on_cycle_success, on_retryable_failure, on_permanent_failure, on_stale_cycle, checked_add_u64.
  destruct e; crack; intros [= <-]; simpl; intros _ Hs Hp; try done; specialize (Hs Hp); bsimp; lia.
Qed.

(** The events of a run that were accepted, in order. *)
Fixpoint accepted (s : SchedulerState) (es : list Event) : list Event :=
  match es with
  | [] => []
  | e :: es' => if is_ok (apply s e).2 then e :: accepted (feed s e) es' else accepted (feed s e) es'
  end.

Definition number (p : Event → bool) (es : list Event) : N :=
  N.of_nat (length (List.filter p es)).

Lemma run_cycles es s : inv s →
  number starts_cycle (accepted s es) + b2n (cycle_pending s) =
  number ends_cycle (accepted s es) + b2n (cycle_pending (run s es)).
Proof.
  revert s. induction es as [|e es IH]; intros s Hs; [done|].
  specialize (IH (feed s e) (feed_inv s e Hs)). cbn [accepted run fold_left].
  fold (run (feed s e) es). revert IH. unfold feed. rewrite apply_inv by done.
  destruct (enabled_next e s) as [s'|] eqn:E; cbn [fst snd is_ok]; intros IH; [|exact IH].
  apply enabled_cycle in E. unfold number in *. cbn [List.filter].
  destruct (starts_cycle e), (ends_cycle e); cbn [length b2n] in *; lia.
Qed.

Lemma run_no_current es s : inv s → no_current_cycle s →
  Forall (λ e, e ≠ TimerFire) (accepted s es) → no_current_cycle (run s es).
Proof.
  revert s. induction es as [|e es IH]; intros s Hs Hn; [done|]. cbn [accepted run fold_left].
  fold (run (feed s e) es). pose proof (feed_inv s e Hs) as Hs'. revert Hs'. unfold feed.
  rewrite apply_inv by done.
  destruct (enabled_next e s) as [s'|] eqn:E; cbn [fst snd is_ok]; intros Hs'.
  - intros [He Hf]%Forall_cons. apply IH; [done| |done]. by eapply enabled_no_current.
  - apply IH; done.
Qed.

(** ** Properties *)

(** C13: the scheduler is safe in every reachable state, and its guard is free.
    After any sequence of events the state satisfies the invariant, hence the
    code's own safety predicate, and an event is rejected only because it is not
    enabled: the fail-closed check on the next state never fires. *)
Theorem scheduler_always_safe es e :
  let s := run initial es in
  inv s ∧ state_is_safe s = true ∧
  (is_err (apply s e).2 = true ↔ enabled_next e s = None) ∧
  (is_err (apply s e).2 = true → (apply s e).1 = s).
Proof.
  cbn zeta. pose proof (run_inv es initial inv_initial) as Hs.
  split; [done|]. split; [by apply inv_safe|]. rewrite (apply_inv _ e Hs).
  by destruct (enabled_next e (run initial es)).
Qed.

(** Single flight.  Along any sequence of events, the cycles started exceed
    the cycles ended by one while a cycle is pending and by none otherwise, so at
    most one cycle is ever outstanding. *)
Theorem scheduler_single_flight es :
  number starts_cycle (accepted initial es) =
  number ends_cycle (accepted initial es) + (if cycle_pending (run initial es) then 1 else 0).
Proof.
  pose proof (run_cycles es initial inv_initial) as H. simpl in H. rewrite N.add_0_r in H. exact H.
Qed.

(** C14: no wake-up is lost.  After an accepted hint a sync is owed, and an owed
    sync stays owed until a cycle starts, the scheduler stops or goes offline, or
    a cycle fails for good. *)
Theorem scheduler_no_lost_wake es e :
  let s := run initial es in
  (is_ok (apply s Hint).2 = true → owed (feed s Hint) = true) ∧
  (owed s = true → discharges e = false → owed (feed s e) = true).
Proof.
  cbn zeta. pose proof (run_inv es initial inv_initial) as Hs. unfold feed. split.
  - rewrite apply_inv by done. unfold enabled_next, on_hint, owed.
    destruct (_ || _); [done|]. destruct (cycle_pending _); intros _; simpl; [by rewrite orb_true_r|done].
  - intros Ho Hd. rewrite apply_inv by done.
    destruct (enabled_next e _) eqn:E; [by eapply enabled_owed|done].
Qed.

(** Results of a cycle of an old generation are never taken for current.
    Once a stop or an offline transition was accepted, every progress report or
    result of a current cycle is rejected until a timer fires again. *)
Theorem scheduler_stale_rejected before halt after e :
  halt = Stop ∨ halt = GoOffline →
  is_ok (apply (run initial before) halt).2 = true →
  Forall (λ x, x ≠ TimerFire) (accepted (feed (run initial before) halt) after) →
  current_cycle_event e = true →
  is_err (apply (run (feed (run initial before) halt) after) e).2 = true.
Proof.
  intros Hhalt Hok Hafter He. pose proof (run_inv before initial inv_initial) as Hs.
  pose proof (feed_inv _ halt Hs) as Hs1. pose proof (run_inv after _ Hs1) as Hs2.
  rewrite apply_inv by done. destruct (enabled_next e _) eqn:E; [|done]. exfalso.
  assert (no_current_cycle (feed (run initial before) halt)) as Hn.
  { unfold feed. rewrite apply_inv in * by done. intros _.
    destruct (enabled_next halt _) as [s'|] eqn:Eh; [|done]. cbn [fst].
    pose proof (i_cycle_generation _ Hs) as Hg.
    destruct Hhalt as [-> | ->]; simpl in Eh; unfold on_stop, on_go_offline, checked_add_u64 in Eh;
      crack; bsimp; simpl; lia. }
  pose proof (run_no_current _ _ Hs1 Hn Hafter) as Hn2.
  destruct (enabled_current_cycle e (run (feed (run initial before) halt) after) He) as [Hp Hg]; [by eexists|].
  specialize (Hn2 Hp). lia.
Qed.

Lemma scheduler_stale_rejected_witness :
  is_err (apply (run (feed (run initial [Start; TimerFire]) Stop) [StaleCycleSuccess; Start]) CycleSuccess).2
  = true.
Proof.
  apply (scheduler_stale_rejected [Start; TimerFire] Stop [StaleCycleSuccess; Start] CycleSuccess).
  - left. reflexivity.
  - vm_compute. reflexivity.
  - vm_compute. repeat constructor; discriminate.
  - reflexivity.
Defined.
