(* ===== verification/QuintScheduler.v ===== *)
(** * QuintScheduler: the executable specification of the scheduler

    [src/formal/protocol_sync_scheduler.qnt], the Quint model that the scheduler's
    conformance traces are drawn from: the state, every action with its guards,
    and the invariant [scheduler_safety].  Generations are bounded so that a model
    checker can exhaust the states; the [saw_*] fields, which only record that
    something happened, are the function [seen]. *)

From S2P Require Import Prelude.

Module QuintSched.

Inductive Phase := Stopped | Idle | Syncing | Offline | Backoff | Error.
#[global] Instance Phase_eq_dec : EqDecision Phase.
Proof. solve_decision. Defined.

Inductive ResetPhase := NoReset | SnapshotRequested | SnapshotInstalled.
#[global] Instance ResetPhase_eq_dec : EqDecision ResetPhase.
Proof. solve_decision. Defined.

(** The fields [saw_*]. *)
Inductive Witness :=
| StopDuringCycle | TrailingWake | OfflineDuringCycle | OnlineRecovery | RetryableFailure | PermanentFailure
| ResetSeen | MalformedSeen | PagingRerun | StaleCycle | StaleTimer.
#[global] Instance Witness_eq_dec : EqDecision Witness.
Proof. solve_decision. Defined.

Record State := {
  phase : Phase;
  online : bool;
  generation : N;
  timer_pending : bool;
  timer_generation : N;
  stale_timer_pending : bool;
  cycle_pending : bool;
  cycle_generation : N;
  network_active : bool;
  wake_pending : bool;
  consecutive_failures : N;
  reset_phase : ResetPhase;
  pages_seen : N;
  seen : Witness → bool
}.

Definition max_generation : N := 4.
Definition max_failures : N := 31.
Definition max_pages : N := 2.

Definition init : State :=
  {| phase := Stopped; online := true; generation := 0; timer_pending := false; timer_generation := 0;
     stale_timer_pending := false; cycle_pending := false; cycle_generation := 0; network_active := false;
     wake_pending := false; consecutive_failures := 0; reset_phase := NoReset; pages_seen := 0;
     seen := λ _, false |}.

(** [saw_w: s.saw_w or c] *)
Definition see (w : Witness) (c : bool) (s : State) : Witness → bool :=
  λ x, seen s x || (x == w) && c.

(** [all { guards, s' = next }] *)
Definition all_of (guards : bool) (next : State) : option State := if guards then Some next else None.

(** The guards of the actions of the running cycle. *)
Definition current_cycle (s : State) : bool :=
  (phase s == Syncing) && network_active s && cycle_pending s && (cycle_generation s =? generation s).

Definition start (s : State) : option State :=
  all_of ((phase s == Stopped) && (generation s <? max_generation))
    {| phase := if online s then Idle else Offline; online := online s; generation := generation s + 1;
       timer_pending := online s; timer_generation := generation s + 1;
       stale_timer_pending := stale_timer_pending s; cycle_pending := cycle_pending s;
       cycle_generation := cycle_generation s; network_active := network_active s; wake_pending := false;
       consecutive_failures := 0; reset_phase := NoReset; pages_seen := 0; seen := seen s |}.

Definition stop (s : State) : option State :=
  all_of (negb (phase s == Stopped) && (generation s <? max_generation))
    {| phase := Stopped; online := online s; generation := generation s + 1; timer_pending := false;
       timer_generation := timer_generation s; stale_timer_pending := stale_timer_pending s || timer_pending s;
       cycle_pending := cycle_pending s; cycle_generation := cycle_generation s; network_active := false;
       wake_pending := false; consecutive_failures := consecutive_failures s; reset_phase := NoReset;
       pages_seen := 0; seen := see StopDuringCycle (cycle_pending s) s |}.

Definition hint (s : State) : option State :=
  all_of (negb (phase s == Stopped) && online s)
    {| phase := if phase s == Offline then Idle else phase s; online := online s; generation := generation s;
       timer_pending := if cycle_pending s then timer_pending s else true;
       timer_generation := if cycle_pending s then timer_generation s else generation s;
       stale_timer_pending := stale_timer_pending s || timer_pending s && negb (cycle_pending s);
       cycle_pending := cycle_pending s; cycle_generation := cycle_generation s;
       network_active := network_active s; wake_pending := cycle_pending s || wake_pending s;
       consecutive_failures := consecutive_failures s; reset_phase := reset_phase s; pages_seen := pages_seen s;
       seen := see TrailingWake (cycle_pending s) s |}.

Definition go_offline (s : State) : option State :=
  all_of (negb (phase s == Stopped) && online s && (generation s <? max_generation))
    {| phase := Offline; online := false; generation := generation s + 1; timer_pending := false;
       timer_generation := timer_generation s; stale_timer_pending := stale_timer_pending s || timer_pending s;
       cycle_pending := cycle_pending s; cycle_generation := cycle_generation s; network_active := false;
       wake_pending := false; consecutive_failures := consecutive_failures s; reset_phase := NoReset;
       pages_seen := 0; seen := see OfflineDuringCycle (cycle_pending s) s |}.

Definition go_online (s : State) : option State :=
  all_of ((phase s == Offline) && negb (online s))
    {| phase := Idle; online := true; generation := generation s; timer_pending := negb (cycle_pending s);
       timer_generation := generation s; stale_timer_pending := stale_timer_pending s;
       cycle_pending := cycle_pending s; cycle_generation := cycle_generation s;
       network_active := network_active s; wake_pending := cycle_pending s;
       consecutive_failures := consecutive_failures s; reset_phase := reset_phase s; pages_seen := pages_seen s;
       seen := see OnlineRecovery true s |}.

Definition timer_fire (s : State) : option State :=
  all_of (negb (phase s == Stopped) && online s && timer_pending s && (timer_generation s =? generation s) && negb (cycle_pending s))
    {| phase := Syncing; online := online s; generation := generation s; timer_pending := false;
       timer_generation := timer_generation s; stale_timer_pending := stale_timer_pending s;
       cycle_pending := true; cycle_generation := generation s; network_active := true; wake_pending := false;
       consecutive_failures := consecutive_failures s; reset_phase := NoReset; pages_seen := 0; seen := seen s |}.

Definition timer_join (s : State) : option State :=
  all_of (negb (phase s == Stopped) && online s && timer_pending s && (timer_generation s =? generation s) && cycle_pending s)
    {| phase := phase s; online := online s; generation := generation s; timer_pending := false;
       timer_generation := timer_generation s; stale_timer_pending := stale_timer_pending s;
       cycle_pending := cycle_pending s; cycle_generation := cycle_generation s;
       network_active := network_active s; wake_pending := true; consecutive_failures := consecutive_failures s;
       reset_phase := reset_phase s; pages_seen := pages_seen s; seen := see TrailingWake true s |}.

Definition stale_timer_fire (s : State) : option State :=
  all_of (stale_timer_pending s)
    {| phase := phase s; online := online s; generation := generation s; timer_pending := timer_pending s;
       timer_generation := timer_generation s; stale_timer_pending := false; cycle_pending := cycle_pending s;
       cycle_generation := cycle_generation s; network_active := network_active s; wake_pending := wake_pending s;
       consecutive_failures := consecutive_failures s; reset_phase := reset_phase s; pages_seen := pages_seen s;
       seen := see StaleTimer true s |}.

Definition page_more (s : State) : option State :=
  all_of (current_cycle s && negb (reset_phase s == SnapshotRequested) && (pages_seen s <? max_pages))
    {| phase := phase s; online := online s; generation := generation s; timer_pending := timer_pending s;
       timer_generation := timer_generation s; stale_timer_pending := stale_timer_pending s;
       cycle_pending := cycle_pending s; cycle_generation := cycle_generation s;
       network_active := network_active s; wake_pending := wake_pending s;
       consecutive_failures := consecutive_failures s; reset_phase := reset_phase s;
       pages_seen := pages_seen s + 1; seen := seen s |}.

Definition begin_reset (s : State) : option State :=
  all_of (current_cycle s && (reset_phase s == NoReset))
    {| phase := phase s; online := online s; generation := generation s; timer_pending := timer_pending s;
       timer_generation := timer_generation s; stale_timer_pending := stale_timer_pending s;
       cycle_pending := cycle_pending s; cycle_generation := cycle_generation s;
       network_active := network_active s; wake_pending := wake_pending s;
       consecutive_failures := consecutive_failures s; reset_phase := SnapshotRequested;
       pages_seen := pages_seen s; seen := see ResetSeen true s |}.

Definition finish_reset (s : State) : option State :=
  all_of (current_cycle s && (reset_phase s == SnapshotRequested))
    {| phase := phase s; online := online s; generation := generation s; timer_pending := timer_pending s;
       timer_generation := timer_generation s; stale_timer_pending := stale_timer_pending s;
       cycle_pending := cycle_pending s; cycle_generation := cycle_generation s;
       network_active := network_active s; wake_pending := wake_pending s;
       consecutive_failures := consecutive_failures s; reset_phase := SnapshotInstalled;
       pages_seen := pages_seen s; seen := seen s |}.

Definition cycle_success (s : State) : option State :=
  all_of (current_cycle s && negb (reset_phase s == SnapshotRequested))
    {| phase := Idle; online := online s; generation := generation s; timer_pending := wake_pending s;
       timer_generation := generation s; stale_timer_pending := stale_timer_pending s; cycle_pending := false;
       cycle_generation := cycle_generation s; network_active := false; wake_pending := false;
       consecutive_failures := 0; reset_phase := NoReset; pages_seen := 0; seen := seen s |}.

Definition cycle_success_more (s : State) : option State :=
  all_of (current_cycle s && negb (reset_phase s == SnapshotRequested))
    {| phase := Idle; online := online s; generation := generation s; timer_pending := true;
       timer_generation := generation s; stale_timer_pending := stale_timer_pending s; cycle_pending := false;
       cycle_generation := cycle_generation s; network_active := false; wake_pending := false;
       consecutive_failures := 0; reset_phase := NoReset; pages_seen := 0; seen := see PagingRerun true s |}.

Definition cycle_retryable_failure (s : State) : option State :=
  all_of (current_cycle s)
    {| phase := Backoff; online := online s; generation := generation s; timer_pending := true;
       timer_generation := generation s; stale_timer_pending := stale_timer_pending s; cycle_pending := false;
       cycle_generation := cycle_generation s; network_active := false; wake_pending := false;
       consecutive_failures := if consecutive_failures s <? max_failures then consecutive_failures s + 1 else max_failures;
       reset_phase := NoReset; pages_seen := 0; seen := see RetryableFailure true s |}.

Definition cycle_permanent_failure (s : State) : option State :=
  all_of (current_cycle s)
    {| phase := Error; online := online s; generation := generation s; timer_pending := false;
       timer_generation := timer_generation s; stale_timer_pending := stale_timer_pending s;
       cycle_pending := false; cycle_generation := cycle_generation s; network_active := false;
       wake_pending := false; consecutive_failures := consecutive_failures s; reset_phase := NoReset;
       pages_seen := 0; seen := see PermanentFailure true s |}.

Definition malformed_response (s : State) : option State :=
  all_of (current_cycle s)
    {| phase := Error; online := online s; generation := generation s; timer_pending := false;
       timer_generation := timer_generation s; stale_timer_pending := stale_timer_pending s;
       cycle_pending := false; cycle_generation := cycle_generation s; network_active := false;
       wake_pending := false; consecutive_failures := consecutive_failures s; reset_phase := NoReset;
       pages_seen := 0; seen := see MalformedSeen true s |}.

Definition stale_cycle_success (s : State) : option State :=
  all_of (cycle_pending s && negb (cycle_generation s =? generation s))
    {| phase := phase s; online := online s; generation := generation s;
       timer_pending := if phase s == Idle then true else timer_pending s;
       timer_generation := if phase s == Idle then generation s else timer_generation s;
       stale_timer_pending := stale_timer_pending s; cycle_pending := false;
       cycle_generation := cycle_generation s; network_active := network_active s; wake_pending := false;
       consecutive_failures := consecutive_failures s; reset_phase := reset_phase s; pages_seen := pages_seen s;
       seen := see StaleCycle true s |}.

Definition stale_cycle_failure (s : State) : option State :=
  all_of (cycle_pending s && negb (cycle_generation s =? generation s))
    {| phase := phase s; online := online s; generation := generation s;
       timer_pending := if phase s == Idle then true else timer_pending s;
       timer_generation := if phase s == Idle then generation s else timer_generation s;
       stale_timer_pending := stale_timer_pending s; cycle_pending := false;
       cycle_generation := cycle_generation s; network_active := network_active s; wake_pending := false;
       consecutive_failures := consecutive_failures s; reset_phase := reset_phase s; pages_seen := pages_seen s;
       seen := see StaleCycle true s |}.

Inductive Action :=
| Start | Stop | Hint | GoOffline | GoOnline | TimerFire | TimerJoin | StaleTimerFire | PageMore
| BeginReset | FinishReset | CycleSuccess | CycleSuccessMore | CycleRetryableFailure
| CyclePermanentFailure | MalformedResponse | StaleCycleSuccess | StaleCycleFailure | IdleAction.

Definition attempt (a : Action) (s : State) : option State :=
  match a with
  | Start => start s
  | Stop => stop s
  | Hint => hint s
  | GoOffline => go_offline s
  | GoOnline => go_online s
  | TimerFire => timer_fire s
  | TimerJoin => timer_join s
  | StaleTimerFire => stale_timer_fire s
  | PageMore => page_more s
  | BeginReset => begin_reset s
  | FinishReset => finish_reset s
  | CycleSuccess => cycle_success s
  | CycleSuccessMore => cycle_success_more s
  | CycleRetryableFailure => cycle_retryable_failure s
  | CyclePermanentFailure => cycle_permanent_failure s
  | MalformedResponse => malformed_response s
  | StaleCycleSuccess => stale_cycle_success s
  | StaleCycleFailure => stale_cycle_failure s
  | IdleAction => Some s
  end.

(** The states of a run, each with the action that led to it. *)
Inductive run : State → list (Action * State) → Prop :=
| run_stop s : run s []
| run_step s a s' rest : attempt a s = Some s' → run s' rest → run s ((a, s') :: rest).

(** ** The invariant *)

Record scheduler_safety (s : State) : Prop := {
  phase_owns_network : network_active s = true →
    phase s = Syncing ∧ online s = true ∧ cycle_pending s = true ∧ cycle_generation s = generation s;
  stopped_and_offline_start_no_work :
    (phase s = Stopped → network_active s = false) ∧ (phase s = Offline → network_active s = false);
  failure_count_is_bounded : consecutive_failures s ≤ max_failures;
  reset_is_ordered : reset_phase s ≠ NoReset →
    phase s = Syncing ∧ network_active s = true ∧ cycle_pending s = true ∧ cycle_generation s = generation s;
  current_timer_is_owned : timer_pending s = true →
    phase s ≠ Stopped ∧ online s = true ∧ timer_generation s = generation s
}.

(** ** Lemmas *)

(** What is preserved with it: [Idle] is online and [Offline] is not. *)
Definition phases_know_network (s : State) : Prop :=
  (phase s = Idle → online s = true) ∧ (phase s = Offline → online s = false).

Lemma all_of_Ok c n s : all_of c n = Some s ↔ c = true ∧ s = n.
Proof. unfold all_of. destruct c; naive_solver. Qed.

Lemma current_cycle_owns s : current_cycle s = true →
  phase s = Syncing ∧ network_active s = true ∧ cycle_pending s = true ∧ cycle_generation s = generation s.
Proof. unfold current_cycle. intros H. bsimp. tauto. Qed.

Lemma init_scheduler_safe : scheduler_safety init ∧ phases_know_network init.
Proof. split; [constructor|split]; cbn; try done. Qed.

Lemma step_scheduler_safe a s s' : attempt a s = Some s' →
  scheduler_safety s ∧ phases_know_network s → scheduler_safety s' ∧ phases_know_network s'.
Proof.
  intros H [[Hnet [Hstop Hoff] Hfail Hreset Htimer] [Hidle Honline]].
  destruct a; cbn [attempt] in H; [..|injection H as <-; done].
  all: unfold start, stop, hint, go_offline, go_online, timer_fire, timer_join, stale_timer_fire, page_more, begin_reset,
    finish_reset, cycle_success, cycle_success_more, cycle_retryable_failure, cycle_permanent_failure, malformed_response,
    stale_cycle_success, stale_cycle_failure in H; apply all_of_Ok in H as [Hg ->]; bsimp.
  all: try match goal with Hc : current_cycle ?x = true |- _ => destruct (current_cycle_owns _ Hc) as (? & ? & ? & ?) end.
  all: unfold max_failures in *; split; [constructor|split]; cbn.
  all: destruct s as [p o g t tg st cp cg na w f r n se]; cbn in *;
    destruct p, o, cp, na; cbn in *; try discriminate; try solve [intuition (congruence || lia)].
  unfold max_failures. destruct (N.ltb_spec f 31); lia.
Qed.

Lemma run_scheduler_safe s t : run s t → scheduler_safety s ∧ phases_know_network s →
  Forall (λ x, scheduler_safety x.2) t.
Proof.
  induction 1 as [|s a s' rest H _ IH]; intros Hs; constructor.
  - by apply (step_scheduler_safe _ _ _ H) in Hs as [? _].
  - by apply IH, (step_scheduler_safe _ _ _ H).
Qed.

(** A run is found by evaluation. *)
Fixpoint run_of (s : State) (moves : list Action) : option (list (Action * State)) :=
  match moves with
  | [] => Some []
  | a :: moves =>
      match attempt a s with
      | Some s' => match run_of s' moves with Some rest => Some ((a, s') :: rest) | None => None end
      | None => None
      end
  end.

Lemma run_of_valid moves : ∀ s t, run_of s moves = Some t → run s t.
Proof.
  induction moves as [|a moves IH]; intros s t; cbn; [intros [= <-]; constructor|].
  destruct (attempt a s) as [s'|] eqn:E; [|done]. destruct (run_of s' moves) as [rest|] eqn:E2; [|done].
  intros [= <-]. econstructor; [exact E|]. by apply IH.
Qed.

(** A run that takes every action. *)
Definition demo_moves : list Action :=
  [IdleAction; Start; TimerFire; PageMore; PageMore; Hint; CycleSuccess; TimerFire; BeginReset; FinishReset; CycleSuccessMore;
   TimerFire; CycleRetryableFailure; TimerFire; Hint; CycleSuccess; Hint; Stop; StaleTimerFire; Start; TimerFire; GoOffline;
   GoOnline; StaleCycleSuccess; TimerFire; CyclePermanentFailure; Hint; TimerFire; MalformedResponse].

Definition demo_run : list (Action * State) := default [] (run_of init demo_moves).

Lemma demo_run_valid : run init demo_run ∧ length demo_run = 29%nat.
Proof.
  assert (is_some (run_of init demo_moves) = true) as H by (vm_compute; reflexivity).
  split; [|vm_compute; reflexivity]. apply (run_of_valid demo_moves). unfold demo_run. by destruct (run_of _ _).
Qed.
End QuintSched.

(** ** Properties *)

(** The executable specification of the scheduler is safe in every state of
    every run: only a syncing phase that is online uses the network, for the
    cycle of the current generation; nothing runs while stopped or offline; the
    count of failures is bounded; a snapshot reset belongs to the running cycle;
    and a pending timer belongs to the current generation. *)
Theorem scheduler_runs_are_safe (t : list (QuintSched.Action * QuintSched.State)) :
  QuintSched.run QuintSched.init t → Forall (λ x, QuintSched.scheduler_safety x.2) t.
Proof. intros H. eapply QuintSched.run_scheduler_safe; [exact H|apply QuintSched.init_scheduler_safe]. Qed.

Lemma scheduler_runs_are_safe_witness :
  Forall (λ x, QuintSched.scheduler_safety x.2) QuintSched.demo_run ∧
  QuintSched.phase (default QuintSched.init (last (List.map snd QuintSched.demo_run))) = QuintSched.Error.
Proof. split; [|vm_compute; reflexivity]. apply scheduler_runs_are_safe. apply QuintSched.demo_run_valid. Defined.
