(* ===== verification/QuintLiveness.v ===== *)
(** * QuintLiveness: progress of the executable specifications

    The temporal claims of [src/formal/opto_sync_protocol.qnt] and of
    [src/formal/protocol_sync_scheduler.qnt], proved for every infinite behaviour
    under the strong fairness the specifications assume.  Nothing bounds how often
    requests are lost, responses are forged, resets crash, history is compacted,
    timers are cancelled or cycles fail.

    [protocol_progress]: the queue drains and the replica catches up.
    [scheduler_progress]: timers fire, cycles settle and a backoff ends. *)

From Stdlib Require Import Classical_Prop.
From S2P Require Import Prelude Temporal QuintProtocol QuintScheduler.

(** ** The protocol *)

Module ProtocolProgress.
Import Quint.

Definition performs (a : Action * N) (s s' : State) : Prop := a.2 ∈ IDS ∧ attempt a.1 a.2 s = Some s'.

(** The actions of a family, for any identity. *)
Definition by_action (l : list Action) (a : Action * N) : Prop := a.1 ∈ l.

Definition send_oldest : Action * N → Prop := by_action [Send].
Definition resolve_in_flight : Action * N → Prop := by_action [ApplyNew; RejectNew; ReplyDuplicate].
Definition accept_valid_response : Action * N → Prop := by_action [Acknowledge].

Record protocol_progress_is_fair (σ : nat → State) : Prop := {
  fair_enqueue : strong_fair performs (by_action [Enqueue]) σ;
  fair_send : strong_fair performs send_oldest σ;
  fair_resolve : strong_fair performs resolve_in_flight σ;
  fair_accept : strong_fair performs accept_valid_response σ;
  fair_discard : strong_fair performs (by_action [DiscardMalformedResponse]) σ;
  fair_pull : strong_fair performs (by_action [Pull]) σ;
  fair_begin : strong_fair performs (by_action [BeginReset]) σ;
  fair_finish : strong_fair performs (by_action [FinishReset]) σ
}.

(** *** Enabled actions *)

Lemma by_one a x : by_action [a] x ↔ x.1 = a.
Proof. unfold by_action. by rewrite list_elem_of_singleton. Qed.

Lemma taken_one a s s' : taken performs (by_action [a]) s s' ↔ s' ≠ s ∧ ∃ id, id ∈ IDS ∧ attempt a id s = Some s'.
Proof.
  unfold taken, performs. setoid_rewrite by_one. split.
  - intros (Hne & [b id] & E & Hid & H). cbn in *. subst b. split; [done|by exists id].
  - intros (Hne & id & Hid & H). split; [done|]. by exists (a, id).
Qed.

(** An enabled action whose next state is seen to differ. *)
Lemma enabled {B} (f : State → B) (A : Action * N → Prop) a id s s' :
  A (a, id) → id ∈ IDS → attempt a id s = Some s' → f s' ≠ f s → ∃ s', taken performs A s s'.
Proof. intros HA Hid H Hf. exists s'. split; [congruence|]. by exists (a, id). Qed.

Lemma one_id : 1 ∈ IDS.
Proof. apply elem_of_IDS. unfold MAX_ID. lia. Qed.

Lemma accept_enabled s : protocol_safety s → reset_phase s = Idle → response_valid_for_in_flight s = true →
  ∃ s', taken performs accept_valid_response s s'.
Proof.
  intros Hs Hi Hv. pose proof (safe_response _ Hs) as Hr. pose proof (safe_in_flight _ Hs) as Hq.
  unfold response_is_bounded, in_flight_is_queued, NO_ID in *. destruct (response_present s) eqn:Ep; [|by rewrite Hv in Hr; destruct_and?].
  destruct Hr as (Hid & _ & _ & Hr). destruct (Hr Hv) as (Hf & Hw & Hl).
  destruct Hq as (_ & Hp & _); [rewrite Hf; apply elem_of_IDS in Hid; lia|].
  eapply (enabled response_present _ Acknowledge (in_flight s)); [by apply by_one|by rewrite Hf| |].
  - cbn. unfold acknowledge, all_of, is_idle. rewrite Hi, Ep, Hv, Hw, <- Hf, !N.eqb_refl, (proj2 (has_true _ _) Hp).
    rewrite Hf, (proj2 (has_true _ _) Hl). reflexivity.
  - cbn. by rewrite Ep.
Qed.

Lemma resolve_enabled s : protocol_safety s → reset_phase s = Idle → in_flight s ≠ NO_ID → response_present s = false →
  ∃ s', taken performs resolve_in_flight s s'.
Proof.
  intros Hs Hi Hf Hp. destruct (safe_in_flight _ Hs Hf) as (Hid & _ & Hl).
  destruct (decide (in_flight s ∈ ledger s)) as [Hin|Hout].
  - eapply (enabled response_present _ ReplyDuplicate (in_flight s)); [unfold resolve_in_flight, by_action; set_solver|done| |].
    + cbn. unfold reply_duplicate, all_of, is_idle. by rewrite Hi, Hp, N.eqb_refl, (proj2 (has_true _ _) Hin).
    + cbn. by rewrite Hp.
  - destruct Hl as [?|Hl]; [done|].
    eapply (enabled response_present _ ApplyNew (in_flight s)); [unfold resolve_in_flight, by_action; set_solver|done| |].
    + cbn. unfold apply_new, all_of, is_idle. rewrite Hi, Hp, N.eqb_refl, (proj2 (has_false _ _) Hout).
      rewrite (proj2 (N.eqb_eq _ _) Hl). reflexivity.
    + cbn. by rewrite Hp.
Qed.

(** A queue that is not empty has an oldest identity. *)
Lemma oldest_exists s : protocol_safety s → pending s ≠ ∅ → ∃ id, id ∈ IDS ∧ is_oldest_pending s id = true.
Proof.
  intros Hs Hne. destruct (safe_bounds _ Hs) as (_ & _ & _ & Hb & _).
  destruct (minimal_exists_elem_of_L N.le (pending s) Hne) as (id & Hid & Hmin). exists id. split; [by apply Hb|].
  apply oldest_spec. split; [done|]. intros other Ho. destruct (N.le_gt_cases id other) as [?|Hlt]; [done|].
  apply Hmin; [done|lia].
Qed.

Lemma oldest_next s id : protocol_safety s → is_oldest_pending s id = true →
  has id (ledger s) || (id =? server_watermark s + 1) = true.
Proof.
  intros Hs [Hid Hle]%oldest_spec. destruct (safe_bounds _ Hs) as (_ & _ & _ & Hb & _). destruct (Hb _ Hid) as [Hi Hn].
  pose proof (safe_ledger _ Hs) as Hl. unfold ledger_is_contiguous in Hl. apply orb_true_iff.
  rewrite has_true, N.eqb_eq, Hl, elem_of_filter. destruct (N.le_gt_cases id (server_watermark s)) as [?|Hgt]; [by left|right].
  destruct (decide (id = server_watermark s + 1)) as [?|Hne]; [done|]. exfalso.
  assert (server_watermark s + 1 ∈ IDS) as Hw by (rewrite elem_of_IDS in *; lia).
  destruct (safe_partition _ Hs _ Hw) as [(_ & [[Hp _]|[Ha _]])|(? & _)]; [apply Hle in Hp; lia| |lia].
  apply (proj1 (safe_acknowledged _ Hs)) in Ha. rewrite Hl, elem_of_filter in Ha. lia.
Qed.

Lemma send_enabled s : protocol_safety s → reset_phase s = Idle → in_flight s = NO_ID → response_present s = false →
  pending s ≠ ∅ → ∃ s', taken performs send_oldest s s'.
Proof.
  intros Hs Hi Hf Hp Hne. destruct (oldest_exists s Hs Hne) as (id & Hid & Ho).
  eapply (enabled in_flight _ Send id); [by apply by_one|done| |].
  - cbn. unfold send, all_of, is_idle. rewrite Hi, Hf, Hp, Ho, (oldest_next s id Hs Ho). reflexivity.
  - cbn. rewrite Hf. apply elem_of_IDS in Hid. unfold NO_ID. lia.
Qed.

Lemma discard_enabled s : reset_phase s = Idle → response_present s = true → response_valid_for_in_flight s = false →
  ∃ s', taken performs (by_action [DiscardMalformedResponse]) s s'.
Proof.
  intros Hi Hp Hv. eapply (enabled response_present _ DiscardMalformedResponse 1); [by apply by_one|apply one_id| |].
  - cbn. unfold discard_malformed_response, all_of, is_idle. by rewrite Hi, Hp, Hv.
  - cbn. by rewrite Hp.
Qed.

Lemma finish_enabled s : reset_phase s = Replacing → ∃ s', taken performs (by_action [FinishReset]) s s'.
Proof.
  intros Hr. eapply (enabled reset_phase _ FinishReset 1); [by apply by_one|apply one_id| |].
  - cbn. unfold finish_reset, all_of, is_replacing. by rewrite Hr.
  - cbn. by rewrite Hr.
Qed.

Lemma pull_enabled s : reset_phase s = Idle → retention_floor s ≤ local_checkpoint s → local_checkpoint s ≠ server_checkpoint s →
  ∃ s', taken performs (by_action [Pull]) s s'.
Proof.
  intros Hi Hle Hne. eapply (enabled local_checkpoint _ Pull 1); [by apply by_one|apply one_id| |].
  - cbn. unfold pull, all_of, is_idle. by rewrite Hi, (proj2 (N.leb_le _ _) Hle).
  - cbn. congruence.
Qed.

Lemma begin_enabled s : reset_phase s = Idle → local_checkpoint s < retention_floor s →
  ∃ s', taken performs (by_action [BeginReset]) s s'.
Proof.
  intros Hi Hlt. eapply (enabled reset_phase _ BeginReset 1); [by apply by_one|apply one_id| |].
  - cbn. unfold begin_reset, all_of, is_idle. by rewrite Hi, (proj2 (N.ltb_lt _ _) Hlt).
  - cbn. by rewrite Hi.
Qed.

(** *** Along a behaviour *)

Section Behaviour.
Context (σ : nat → State) (model : behaviour performs init σ) (fair : protocol_progress_is_fair σ).

Lemma always_safe i : protocol_safety (σ i).
Proof.
  revert i. apply (behaviour_invariant performs protocol_safety init σ model); [apply init_safe|].
  intros [a id] s s' [Hid Ha] Hs. by eapply step_safe; [constructor|].
Qed.

(** What is settled stays settled, so acknowledgements end. *)
Lemma acknowledged_grows s s' a : performs a s s' → acknowledged s ⊆ acknowledged s'.
Proof. destruct a as [a id]. intros [_ H]. cbn in H. destruct a; guards H; simpl; set_solver. Qed.

Lemma accepts_end : eventually_never (λ j, taken performs accept_valid_response (σ j) (σ (S j))).
Proof.
  apply (lowered_finitely (λ j, size (IDS ∖ acknowledged (σ j))) _ 0).
  - intros j _. destruct (proj2 model j) as [a Ha]. apply acknowledged_grows in Ha. apply subseteq_size. set_solver.
  - intros j _ (_ & id & Hid & H)%taken_one. pose proof (always_safe j) as Hs. apply subset_size.
    guards H. match goal with E : ?id ∈ pending (σ j) |- _ => pose proof (λ Ha, proj2 (safe_acknowledged _ Hs) _ Ha E) as Hout end.
    cbn. split; [set_solver|]. intros Hsub. specialize (Hsub id). rewrite !elem_of_difference, elem_of_union in Hsub. set_solver.
Qed.

Lemma valid_ends : eventually_never (λ j, reset_phase (σ j) = Idle ∧ response_valid_for_in_flight (σ j) = true).
Proof.
  apply (eventually_never_impl _ _ 0 (fair_disabled _ _ _ (fair_accept _ fair) accepts_end)).
  intros j _ [Hi Hv]. apply accept_enabled; [apply always_safe|done|done].
Qed.

Lemma waiting_ends : eventually_never (λ j, reset_phase (σ j) = Idle ∧ in_flight (σ j) ≠ NO_ID ∧ response_present (σ j) = false).
Proof.
  assert (eventually_never (λ j, taken performs resolve_in_flight (σ j) (σ (S j)))) as Hend.
  { apply (eventually_never_impl _ _ 0 (eventually_never_next _ valid_ends)). intros j _ (_ & [a id] & Ha & _ & H).
    unfold resolve_in_flight, by_action in Ha. rewrite !elem_of_cons, elem_of_nil in Ha. cbn in Ha, H.
    destruct Ha as [->|[->|[->|[]]]]; guards H; by split. }
  apply (eventually_never_impl _ _ 0 (fair_disabled _ _ _ (fair_resolve _ fair) Hend)).
  intros j _ (Hi & Hf & Hp). apply resolve_enabled; [apply always_safe|done..].
Qed.

Lemma replacing_ends : eventually_never (λ j, reset_phase (σ j) = Idle) → eventually_never (λ j, reset_phase (σ j) = Replacing).
Proof.
  intros Hidle. assert (eventually_never (λ j, taken performs (by_action [FinishReset]) (σ j) (σ (S j)))) as Hend.
  { apply (eventually_never_impl _ _ 0 (eventually_never_next _ Hidle)). intros j _ (_ & id & _ & H)%taken_one.
    by guards H. }
  apply (eventually_never_impl _ _ 0 (fair_disabled _ _ _ (fair_finish _ fair) Hend)). intros j _. apply finish_enabled.
Qed.

Lemma some_phase_recurs : eventually_never (λ j, reset_phase (σ j) = Idle) → eventually_never (λ j, reset_phase (σ j) = Replacing) → False.
Proof.
  intros H1 H2. destruct (eventually_never_or _ _ H1 H2) as [n H]. apply (H n); [done|]. destruct (reset_phase (σ n)); [by left|by right].
Qed.

Lemma queue_drains : leads_to σ (λ s, pending s ≠ ∅) (λ s, pending s = ∅).
Proof.
  intros i _. destruct (classic (∃ j, (i ≤ j)%nat ∧ pending (σ j) = ∅)) as [?|Hno]; [done|]. exfalso.
  assert (eventually_never (λ j, taken performs send_oldest (σ j) (σ (S j)))) as Hsend.
  { apply (eventually_never_impl _ _ 0 (eventually_never_next _ waiting_ends)). intros j _ (_ & id & Hid & H)%taken_one.
    apply elem_of_IDS in Hid. guards H. cbn. unfold NO_ID. split_and!; [done|lia|done]. }
  assert (eventually_never (λ j, reset_phase (σ j) = Idle ∧ response_present (σ j) = false)) as Hsilent.
  { apply (eventually_never_impl _ _ i (eventually_never_or _ _ waiting_ends (fair_disabled _ _ _ (fair_send _ fair) Hsend))).
    intros j Hj [Hi Hp]. destruct (decide (in_flight (σ j) = NO_ID)) as [Hf|Hf]; [right|by left].
    apply send_enabled; [apply always_safe|done..|]. intros E. apply Hno. by exists j. }
  assert (eventually_never (λ j, taken performs (by_action [DiscardMalformedResponse]) (σ j) (σ (S j)))) as Hdiscard.
  { apply (eventually_never_impl _ _ 0 (eventually_never_next _ Hsilent)). intros j _ (_ & id & _ & H)%taken_one.
    guards H. by split. }
  assert (eventually_never (λ j, reset_phase (σ j) = Idle)) as Hidle.
  { apply (eventually_never_impl _ _ 0 (eventually_never_or _ _ (eventually_never_or _ _ valid_ends Hsilent)
      (fair_disabled _ _ _ (fair_discard _ fair) Hdiscard))). intros j _ Hi.
    destruct (response_present (σ j)) eqn:Ep; [|by left; right]. destruct (response_valid_for_in_flight (σ j)) eqn:Ev; [by left; left|].
    right. by apply discard_enabled. }
  exact (some_phase_recurs Hidle (replacing_ends Hidle)).
Qed.

Lemma replica_catches_up :
  leads_to σ (λ s, local_checkpoint s < server_checkpoint s) (λ s, server_checkpoint s = local_checkpoint s).
Proof.
  intros i _. destruct (classic (∃ j, (i ≤ j)%nat ∧ server_checkpoint (σ j) = local_checkpoint (σ j))) as [?|Hno]; [done|]. exfalso.
  assert (∀ j, (i ≤ j)%nat → server_checkpoint (σ (S j)) ≠ local_checkpoint (σ (S j))) as Hne
    by (intros j Hj E; apply Hno; exists (S j); split; [lia|done]).
  assert (∀ a, a = Pull ∨ a = FinishReset → eventually_never (λ j, taken performs (by_action [a]) (σ j) (σ (S j)))) as Hend.
  { intros a Ha. exists i. intros j Hj (_ & id & _ & H)%taken_one. apply (Hne j Hj).
    destruct Ha as [-> | ->]; by guards H. }
  assert (eventually_never (λ j, reset_phase (σ j) = Replacing)) as Hrep.
  { apply (eventually_never_impl _ _ 0 (fair_disabled _ _ _ (fair_finish _ fair) (Hend FinishReset ltac:(by right)))).
    intros j _. apply finish_enabled. }
  assert (eventually_never (λ j, taken performs (by_action [BeginReset]) (σ j) (σ (S j)))) as Hbegin.
  { apply (eventually_never_impl _ _ 0 (eventually_never_next _ Hrep)). intros j _ (_ & id & _ & H)%taken_one.
    by guards H. }
  apply some_phase_recurs; [|done].
  apply (eventually_never_impl _ _ i (eventually_never_or _ _ (fair_disabled _ _ _ (fair_pull _ fair) (Hend Pull ltac:(by left)))
    (fair_disabled _ _ _ (fair_begin _ fair) Hbegin))). intros j Hj Hi.
  destruct (N.le_gt_cases (retention_floor (σ j)) (local_checkpoint (σ j))) as [Hle|Hlt].
  - left. apply pull_enabled; [done..|]. intros E. apply Hno. by exists j.
  - right. by apply begin_enabled.
Qed.
End Behaviour.
End ProtocolProgress.

(** ** The scheduler *)

Module SchedulerProgress.
Import QuintSched.

Definition performs (a : Action) (s s' : State) : Prop := attempt a s = Some s'.

Definition settle_current_cycle (a : Action) : Prop :=
  a ∈ [CycleSuccess; CycleSuccessMore; CycleRetryableFailure; CyclePermanentFailure; MalformedResponse].

Definition fire_current_timer (a : Action) : Prop := a ∈ [TimerFire; TimerJoin].

Record scheduler_environment_is_fair (σ : nat → State) : Prop := {
  fair_fire : strong_fair performs fire_current_timer σ;
  fair_settle : strong_fair performs settle_current_cycle σ;
  fair_finish_reset : strong_fair performs (eq FinishReset) σ
}.

Lemma changes_enabled {B} (f : State → B) (A : Action → Prop) a s s' :
  A a → attempt a s = Some s' → f s' ≠ f s → ∃ s', taken performs A s s'.
Proof. intros HA H Hf. exists s'. split; [congruence|]. by exists a. Qed.

(** A backoff waits for its timer, and has no cycle. *)
Definition backoff_waits (s : State) : Prop := phase s = Backoff → timer_pending s = true ∧ cycle_pending s = false.

Lemma step_backoff a s s' : attempt a s = Some s' → scheduler_safety s → backoff_waits s → backoff_waits s'.
Proof.
  unfold backoff_waits. intros H [Hnet _ _ _ _] Hb.
  destruct a; cbn [attempt] in H; [..|by injection H as <-].
  all: unfold start, stop, hint, go_offline, go_online, timer_fire, timer_join, stale_timer_fire, page_more, begin_reset,
    finish_reset, cycle_success, cycle_success_more, cycle_retryable_failure, cycle_permanent_failure, malformed_response,
    stale_cycle_success, stale_cycle_failure in H; apply all_of_Ok in H as [Hg ->]; bsimp.
  all: try match goal with Hc : current_cycle ?x = true |- _ => destruct (current_cycle_owns _ Hc) as (? & ? & ? & ?) end; cbn.
  all: destruct (phase s) eqn:Ep; cbn; intros Hp; try discriminate Hp; try discriminate; try (by apply Hb); try (by destruct (online s));
    destruct (Hb eq_refl) as [Ht Hcyc]; rewrite ?Ht, ?Hcyc in *; try done; congruence.
Qed.

Section Behaviour.
Context (σ : nat → State) (model : behaviour performs init σ) (fair : scheduler_environment_is_fair σ).

Lemma always_good i : (scheduler_safety (σ i) ∧ phases_know_network (σ i)) ∧ backoff_waits (σ i).
Proof.
  revert i. apply (behaviour_invariant performs (λ s, (scheduler_safety s ∧ phases_know_network s) ∧ backoff_waits s) init σ model).
  - split; [apply init_scheduler_safe|by intros ?].
  - intros a s s' Ha [Hs Hb]. split; [by apply (step_scheduler_safe a s)|]. apply (step_backoff a s); [done|apply Hs|done].
Qed.

(** A pending timer can fire, or join the cycle that is running. *)
Lemma timer_enabled i : timer_pending (σ i) = true → ∃ s', taken performs fire_current_timer (σ i) s'.
Proof.
  intros Ht. destruct (always_good i) as [[Hs _] _]. destruct (current_timer_is_owned _ Hs Ht) as (Hp & Ho & Hg).
  apply (bool_decide_eq_false_2 (phase (σ i) = Stopped)) in Hp.
  destruct (cycle_pending (σ i)) eqn:Ec.
  - eapply (changes_enabled timer_pending _ TimerJoin); [unfold fire_current_timer; set_solver| |].
    + cbn. unfold timer_join, all_of. by rewrite Hp, Ho, Ht, Hg, N.eqb_refl, Ec.
    + cbn. by rewrite Ht.
  - eapply (changes_enabled timer_pending _ TimerFire); [unfold fire_current_timer; set_solver| |].
    + cbn. unfold timer_fire, all_of. by rewrite Hp, Ho, Ht, Hg, N.eqb_refl, Ec.
    + cbn. by rewrite Ht.
Qed.

Lemma timers_fire : leads_to σ (λ s, timer_pending s = true ∧ online s = true) (λ s, timer_pending s = false).
Proof.
  intros i [Ht _]. destruct (fair_ends performs fire_current_timer σ (λ s, timer_pending s = true) (fair_fire _ fair)) with (i := i)
    as (j & Hj & Hp); [apply timer_enabled| |done|].
  - intros k s' _ (_ & a & Ha & H). unfold fire_current_timer in Ha. rewrite !elem_of_cons, elem_of_nil in Ha.
    destruct Ha as [->|[->|[]]]; apply all_of_Ok in H as [_ ->]; done.
  - exists j. split; [done|]. by apply not_true_is_false.
Qed.

Lemma cycles_settle : leads_to σ (λ s, network_active s = true) (λ s, network_active s = false).
Proof.
  intros i Hn. destruct (fair_ends performs settle_current_cycle σ (λ s, network_active s = true) (fair_settle _ fair)) with (i := i)
    as (j & Hj & Hp); [| |done|].
  - intros k Hk. destruct (always_good k) as [[Hs _] _]. destruct (phase_owns_network _ Hs Hk) as (Hp & _ & Hc & Hg).
    eapply (changes_enabled network_active _ MalformedResponse); [unfold settle_current_cycle; set_solver| |].
    + cbn. unfold malformed_response, all_of, current_cycle. by rewrite Hp, Hk, Hc, Hg, N.eqb_refl.
    + cbn. by rewrite Hk.
  - intros k s' _ (_ & a & Ha & H). unfold settle_current_cycle in Ha. rewrite !elem_of_cons, elem_of_nil in Ha.
    destruct Ha as [->|[->|[->|[->|[->|[]]]]]]; apply all_of_Ok in H as [_ ->]; done.
  - exists j. split; [done|]. by apply not_true_is_false.
Qed.

Lemma backoffs_end : leads_to σ (λ s, phase s = Backoff) (λ s, phase s ≠ Backoff).
Proof.
  apply (fair_ends performs fire_current_timer σ (λ s, phase s = Backoff) (fair_fire _ fair)).
  - intros i Hp. apply timer_enabled. by apply (always_good i).
  - intros i s' Hp (_ & a & Ha & H). destruct (proj2 (always_good i) Hp) as [_ Hc].
    unfold fire_current_timer in Ha. rewrite !elem_of_cons, elem_of_nil in Ha. destruct Ha as [->|[->|[]]].
    + by apply all_of_Ok in H as [_ ->].
    + apply all_of_Ok in H as [Hg _]. rewrite Hc, andb_false_r in Hg. done.
Qed.
End Behaviour.
End SchedulerProgress.

(** ** Properties *)

(** C8: the liveness claims of the protocol's specification hold: in every
    infinite behaviour that is strongly fair to the specification's eight
    progress actions, however often requests and responses are lost or forged,
    history is compacted and resets crash, a queue that is not empty eventually
    is, and a replica behind the server eventually catches up. *)
Theorem protocol_progress (σ : nat → Quint.State) (model : behaviour ProtocolProgress.performs Quint.init σ)
  (fair : ProtocolProgress.protocol_progress_is_fair σ) :
  leads_to σ (λ s, Quint.pending s ≠ ∅) (λ s, Quint.pending s = ∅) ∧
  leads_to σ (λ s, Quint.local_checkpoint s < Quint.server_checkpoint s)
    (λ s, Quint.server_checkpoint s = Quint.local_checkpoint s).
Proof. split; [by apply ProtocolProgress.queue_drains|by apply ProtocolProgress.replica_catches_up]. Qed.

(** C16: the liveness claims of the scheduler's specification hold: in every
    infinite behaviour that is fair to due timers and to the settling of the
    running cycle, whatever starts, stops, hints and network changes intervene, a
    pending timer is eventually consumed or cancelled, an active cycle eventually
    leaves the network, and a backoff eventually ends. *)
Theorem scheduler_progress (σ : nat → QuintSched.State) (model : behaviour SchedulerProgress.performs QuintSched.init σ)
  (fair : SchedulerProgress.scheduler_environment_is_fair σ) :
  leads_to σ (λ s, QuintSched.timer_pending s = true ∧ QuintSched.online s = true) (λ s, QuintSched.timer_pending s = false) ∧
  leads_to σ (λ s, QuintSched.network_active s = true) (λ s, QuintSched.network_active s = false) ∧
  leads_to σ (λ s, QuintSched.phase s = QuintSched.Backoff) (λ s, QuintSched.phase s ≠ QuintSched.Backoff).
Proof.
  split; [by apply SchedulerProgress.timers_fire|]. split; [by apply SchedulerProgress.cycles_settle|by apply SchedulerProgress.backoffs_end].
Qed.

(** ** Witnesses: runs that end where nothing fair is enabled *)

Module Demo.

Lemma protocol_chain s t : Quint.run s t → chain ProtocolProgress.performs s (List.map snd t).
Proof.
  induction 1 as [|s a id s' rest Hs _ IH]; cbn; [done|]. split; [|done]. destruct Hs as [s a id s' Hid H]. by exists (a, id).
Qed.

Lemma scheduler_chain s t : QuintSched.run s t → chain SchedulerProgress.performs s (List.map snd t).
Proof. induction 1 as [|s a s' rest H _ IH]; cbn; [done|]. split; [by exists a|done]. Qed.

(** Three mutations: lost, duplicated, forged and rejected on the way, and a
    crashed reset; at the end the queue is empty and the replica has caught up. *)
Definition protocol_moves : list (Quint.Action * N) :=
  demo_moves ++ [(Quint.Enqueue, 1); (Quint.Send, 3); (Quint.ApplyNew, 3); (Quint.Acknowledge, 3); (Quint.Pull, 1)].

Definition protocol_run : list (Quint.Action * N * Quint.State) := default [] (run_of Quint.init protocol_moves).
Definition protocol_states : list Quint.State := List.map snd protocol_run.
Definition protocol_end : Quint.State := final Quint.init protocol_states.

Lemma protocol_run_valid : Quint.run Quint.init protocol_run ∧ length protocol_run = 28%nat.
Proof.
  assert (is_some (run_of Quint.init protocol_moves) = true) as H by (vm_compute; reflexivity).
  split; [|vm_compute; reflexivity]. apply (run_of_run protocol_moves). unfold protocol_run. by destruct (run_of _ _).
Qed.

Lemma protocol_run_behaves : behaviour ProtocolProgress.performs Quint.init (staying Quint.init protocol_states).
Proof.
  apply staying_behaviour; [apply protocol_chain, protocol_run_valid|]. exists (Quint.IdleAction, 1). split; [|done].
  apply ProtocolProgress.one_id.
Qed.

Definition quiet (a : Quint.Action) : bool :=
  forallb (λ id, match Quint.attempt a id protocol_end with Some s' => bool_decide (s' = protocol_end) | None => true end) [1; 2; 3].

Lemma quiet_fair l : forallb quiet l = true →
  strong_fair ProtocolProgress.performs (ProtocolProgress.by_action l) (staying Quint.init protocol_states).
Proof.
  intros Hl. apply staying_fair. intros s' (Hne & [a id] & Ha & Hid & H). unfold ProtocolProgress.by_action in Ha.
  change (Quint.attempt a id protocol_end = Some s') in H. change (s' ≠ protocol_end) in Hne. cbn [fst snd] in Ha, Hid.
  rewrite forallb_forall in Hl. specialize (Hl a (proj2 (In_elem _ _) Ha)). unfold quiet in Hl. rewrite forallb_forall in Hl.
  specialize (Hl id). apply Quint.elem_of_IDS in Hid. unfold Quint.MAX_ID in Hid.
  rewrite H in Hl. apply Hne. apply (bool_decide_eq_true (s' = protocol_end)), Hl.
  assert (id = 1 ∨ id = 2 ∨ id = 3) as [->|[->| ->]] by lia; cbn; tauto.
Qed.

Definition scheduler_states : list QuintSched.State := List.map snd QuintSched.demo_run.

Lemma scheduler_run_behaves : behaviour SchedulerProgress.performs QuintSched.init (staying QuintSched.init scheduler_states).
Proof. apply staying_behaviour; [apply scheduler_chain, QuintSched.demo_run_valid|]. by exists QuintSched.IdleAction. Qed.

Lemma disabled_fair (A : QuintSched.Action → Prop) :
  (∀ a, A a → QuintSched.attempt a (final QuintSched.init scheduler_states) = None) →
  strong_fair SchedulerProgress.performs A (staying QuintSched.init scheduler_states).
Proof.
  intros HA. apply staying_fair. intros s' (_ & a & Ha & H). unfold SchedulerProgress.performs in H. by rewrite HA in H.
Qed.
End Demo.

(** After the first mutation is queued its queue is not empty, and it drains. *)
Lemma protocol_progress_witness :
  ∃ j, (1 ≤ j)%nat ∧ Quint.pending (staying Quint.init Demo.protocol_states j) = ∅.
Proof.
  apply (proj1 (protocol_progress (staying Quint.init Demo.protocol_states) Demo.protocol_run_behaves
    ltac:(constructor; apply Demo.quiet_fair; vm_compute; reflexivity)) 1%nat).
  apply (bool_decide_eq_true (Quint.pending (staying Quint.init Demo.protocol_states 1) ≠ ∅)). vm_compute. reflexivity.
Defined.

(** The backoff after the 13th action ends. *)
Lemma scheduler_progress_witness :
  ∃ j, (13 ≤ j)%nat ∧ QuintSched.phase (staying QuintSched.init Demo.scheduler_states j) ≠ QuintSched.Backoff.
Proof.
  apply (proj2 (proj2 (scheduler_progress (staying QuintSched.init Demo.scheduler_states) Demo.scheduler_run_behaves
    ltac:(constructor; apply Demo.disabled_fair; intros a Ha;
          [unfold SchedulerProgress.fire_current_timer in Ha|unfold SchedulerProgress.settle_current_cycle in Ha|subst; reflexivity];
          rewrite !elem_of_cons, elem_of_nil in Ha; destruct_or?; (done || subst; reflexivity)))) 13%nat).
  reflexivity.
Defined.
