(* ===== verification/Clock.v ===== *)
(** * Clock: the hybrid logical clock

    Models [clients/rust/src/clock.rs].  [now_fn] is a reading of the wall clock,
    passed to each call; the persistence is a type class.  [None] is a panic (an
    [assert!] of [format_hlc]). *)

From S2P Require Import Prelude Text Decimal.

Definition MILLIS_DIGITS : nat := 13.
Definition MAX_COUNTER : N := 65535.
Definition MAX_MILLIS : N := 9999999999999.
Definition DEFAULT_MAX_DRIFT_MS : N := 60000.

Record HlcParts := { millis : N; counter : N; node_id : string }.
#[export] Instance HlcParts_eq_dec : EqDecision HlcParts.
Proof. solve_decision. Defined.

Inductive ClockError :=
| InvalidNodeId (id : string)
| Drift (remote : string) (drift_ms max_drift_ms : N).

Definition valid_node_id (id : string) : bool := negb (is_empty id) && negb (contains "-" id).

Definition format_hlc (parts : HlcParts) : option string :=
  if (millis parts <=? MAX_MILLIS) && (counter parts <=? MAX_COUNTER) && valid_node_id (node_id parts)
  then Some (pad_left "0" MILLIS_DIGITS (to_dec (millis parts)) +:+
             String "-" (hex4 (counter parts) +:+ String "-" (node_id parts)))
  else None.

Definition parse_hlc (timestamp : string) : option HlcParts :=
  match split_once "-" timestamp with
  | None => None
  | Some (m, rest) =>
      match split_once "-" rest with
      | None => None
      | Some (c, node) =>
          if negb (len m =? 13) || negb (all_bytes is_ascii_digit m) then None
          else if negb (len c =? 4) || negb (all_bytes is_lower_hex c) then None
          else if is_empty node || contains "-" node then None
          else match parse_u64 m, parse_lower_hex_u32 c with
               | Some m, Some c => Some {| millis := m; counter := c; node_id := node |}
               | _, _ => None
               end
      end
  end.

Definition compare_hlc (a b : string) : comparison := str_cmp a b.

(** [random_node_id], from the bytes the entropy source filled in. *)
Definition random_node_id (entropy : list ascii) : string :=
  of_bytes (flat_map (λ b, [hex_char (byte_val b / 16); hex_char (byte_val b mod 16)]) entropy).

Definition compose_node_id (device_id : string) (instance_suffix : option string)
    (entropy : list ascii) : string :=
  match instance_suffix with
  | Some s => device_id +:+ "." +:+ s
  | None => device_id +:+ "." +:+ random_node_id entropy
  end.

Class ClockPersistence (P : Type) := {
  cp_load : P → option string;
  cp_save : string → P → P
}.

(** Non-durable persistence. *)
#[export] Instance NoPersistence : ClockPersistence unit := {
  cp_load p := None;
  cp_save ts p := p
}.

Section Clock.
Context {P : Type} `{!ClockPersistence P}.

Record clock := {
  ck_node_id : string;
  ck_millis : N;
  ck_counter : N;
  ck_max_drift_ms : N;
  ck_persistence : P
}.

Definition with_max_drift (node : string) (persistence : P) (max_drift : N) : result clock ClockError :=
  if is_empty node || contains "-" node then Err (InvalidNodeId node)
  else
    let '(m, c) := match match cp_load persistence with Some ts => parse_hlc ts | None => None end with
                   | Some p => (millis p, counter p)
                   | None => (0, 0)
                   end in
    Ok {| ck_node_id := node; ck_millis := m; ck_counter := c; ck_max_drift_ms := max_drift;
          ck_persistence := persistence |}.

Definition new (node : string) (persistence : P) : result clock ClockError :=
  with_max_drift node persistence DEFAULT_MAX_DRIFT_MS.

Definition peek (k : clock) : HlcParts :=
  {| millis := ck_millis k; counter := ck_counter k; node_id := ck_node_id k |}.

Definition set_time (m c : N) (k : clock) : clock :=
  {| ck_node_id := ck_node_id k; ck_millis := m; ck_counter := c;
     ck_max_drift_ms := ck_max_drift_ms k; ck_persistence := ck_persistence k |}.
Definition set_persistence (p : P) (k : clock) : clock :=
  {| ck_node_id := ck_node_id k; ck_millis := ck_millis k; ck_counter := ck_counter k;
     ck_max_drift_ms := ck_max_drift_ms k; ck_persistence := p |}.

(** [let ts = format_hlc(&self.peek()); self.persistence.save(&ts); ts]. *)
Definition save_peek (k : clock) : option (clock * string) :=
  match format_hlc (peek k) with
  | Some ts => Some (set_persistence (cp_save ts (ck_persistence k)) k, ts)
  | None => None
  end.

Definition advance (k : clock) (physical : N) : clock :=
  if ck_millis k <? physical then set_time physical 0 k
  else if MAX_COUNTER <? ck_counter k + 1 then set_time (ck_millis k + 1) 0 k
  else set_time (ck_millis k) (ck_counter k + 1) k.

Definition next (k : clock) (physical : N) : option (clock * string) := save_peek (advance k physical).

Definition observe (k : clock) (now : N) (remote : string) : option (clock * result unit ClockError) :=
  match parse_hlc remote with
  | None => Some (k, Ok ())
  | Some parsed =>
      if (now <? millis parsed) && (ck_max_drift_ms k <? millis parsed - now)
      then Some (k, Err (Drift remote (millis parsed - now) (ck_max_drift_ms k)))
      else
        let adopt (k' : clock) :=
          match save_peek k' with Some (k'', _) => Some (k'', Ok ()) | None => None end in
        if ck_millis k <? millis parsed then adopt (set_time (millis parsed) (counter parsed) k)
        else if (millis parsed =? ck_millis k) && (ck_counter k <? counter parsed)
        then adopt (set_time (ck_millis k) (counter parsed) k)
        else Some (k, Ok ())
  end.
End Clock.
Arguments clock : clear implicits.

(** ** Specification *)

Record parts_ok (p : HlcParts) : Prop := {
  pk_millis : millis p ≤ MAX_MILLIS;
  pk_counter : counter p ≤ MAX_COUNTER;
  pk_node : valid_node_id (node_id p) = true
}.

(** Chronological order: time, then counter, then node. *)
Definition parts_cmp (a b : HlcParts) : comparison :=
  match millis a ?= millis b with
  | Eq => match counter a ?= counter b with
          | Eq => str_cmp (node_id a) (node_id b)
          | o => o
          end
  | o => o
  end.

Definition clock_ok {P} (k : clock P) : Prop := parts_ok (peek k).

(** The position of a clock on the time line, and its order. *)
Definition before (m1 c1 m2 c2 : N) : Prop := m1 < m2 ∨ m1 = m2 ∧ c1 < c2.
Definition before_eq (m1 c1 m2 c2 : N) : Prop := m1 < m2 ∨ m1 = m2 ∧ c1 ≤ c2.

(** ** Lemmas: the wire format *)

Lemma digits_no_dash s : forallb is_ascii_digit (bytes s) = true → contains "-" s = false.
Proof.
  intros H. unfold contains. apply not_true_iff_false. rewrite existsb_exists.
  intros (c & Hin & Hc). apply bool_decide_eq_true in Hc as ->.
  rewrite forallb_forall in H. by apply H in Hin.
Qed.

Lemma hex_no_dash s : forallb is_lower_hex (bytes s) = true → contains "-" s = false.
Proof.
  intros H. unfold contains. apply not_true_iff_false. rewrite existsb_exists.
  intros (c & Hin & Hc). apply bool_decide_eq_true in Hc as ->.
  rewrite forallb_forall in H. by apply H in Hin.
Qed.

Lemma len_length s : len s = N.of_nat (length (bytes s)).
Proof. unfold len. by rewrite length_bytes. Qed.

Lemma parse_u64_all_digits s : bytes s ≠ [] → forallb is_ascii_digit (bytes s) = true →
  decimal_of s ≤ u64_max → parse_u64 s = Some (decimal_of s).
Proof.
  intros Hne Hd Hv. unfold parse_u64, decimal_of in *. destruct (bytes s) as [|c l]; [done|].
  assert (c ≠ "+"%char) by (intros ->; done).
  replace (match c :: l with "+"%char :: r => r | l => l end) with (c :: l)
    by (by destruct c as [[] [] [] [] [] [] [] []]).
  rewrite Hd. apply N.leb_le in Hv. by rewrite Hv.
Qed.

Lemma millis_field m : m ≤ MAX_MILLIS →
  let s := pad_left "0" MILLIS_DIGITS (to_dec m) in
  len s = 13 ∧ forallb is_ascii_digit (bytes s) = true ∧ decimal_of s = m ∧ parse_u64 s = Some m.
Proof.
  intros Hm. cbn zeta.
  assert (m < 10 ^ N.of_nat 13) as Hlt by (unfold MAX_MILLIS in Hm; change (10 ^ N.of_nat 13) with 10000000000000; lia).
  destruct (pad_decimal_spec 13 m ltac:(lia) Hlt) as (Hl & Hd & Hv). fold MILLIS_DIGITS in *.
  rewrite len_length, Hl. split; [done|]. split; [done|]. split; [done|].
  rewrite parse_u64_all_digits, Hv; [done| |done|].
  - intros E. by rewrite E in Hl.
  - rewrite Hv. unfold MAX_MILLIS, u64_max in *. lia.
Qed.

Lemma counter_field c : c ≤ MAX_COUNTER →
  len (hex4 c) = 4 ∧ forallb is_lower_hex (bytes (hex4 c)) = true ∧
  from_radix 16 hex_val (bytes (hex4 c)) = c ∧ parse_lower_hex_u32 (hex4 c) = Some c.
Proof.
  unfold MAX_COUNTER. intros Hc. destruct (hex4_spec c) as (Hl & Hd & Hv); [lia|].
  rewrite len_length, Hl. split; [done|]. split; [done|]. split; [done|].
  unfold parse_lower_hex_u32. destruct (bytes (hex4 c)) as [|a l]; [done|].
  rewrite Hd, Hv. unfold u32_max. cbn [andb].
  by rewrite (proj2 (N.leb_le c 4294967295)) by lia.
Qed.

Lemma valid_node_id_iff id : valid_node_id id = true ↔ is_empty id = false ∧ contains "-" id = false.
Proof. unfold valid_node_id. by rewrite andb_true_iff, !negb_true_iff. Qed.

Lemma format_hlc_ok p : parts_ok p → ∃ ts, format_hlc p = Some ts.
Proof.
  intros [Hm Hc Hn]. unfold format_hlc. apply N.leb_le in Hm, Hc. rewrite Hm, Hc, Hn. eauto.
Qed.

Lemma format_hlc_Some p ts : format_hlc p = Some ts → parts_ok p ∧
  ts = pad_left "0" MILLIS_DIGITS (to_dec (millis p)) +:+
       String "-" (hex4 (counter p) +:+ String "-" (node_id p)).
Proof.
  unfold format_hlc. destruct (_ && _) eqn:E; [|done]. intros [= <-]. bsimp. by repeat split.
Qed.

Lemma parse_format p ts : format_hlc p = Some ts → parse_hlc ts = Some p.
Proof.
  intros [[Hm Hc Hn] ->]%format_hlc_Some. destruct (millis_field _ Hm) as (Hml & Hmd & _ & Hmp).
  destruct (counter_field _ Hc) as (Hcl & Hcd & _ & Hcp). apply valid_node_id_iff in Hn as [Hn1 Hn2].
  unfold parse_hlc. rewrite split_once_app by (by apply digits_no_dash).
  rewrite split_once_app by (by apply hex_no_dash).
  unfold all_bytes. rewrite Hml, Hmd, Hcl, Hcd, Hn1, Hn2, Hmp, Hcp. simpl. by destruct p.
Qed.

Lemma parse_hlc_ok ts p : parse_hlc ts = Some p → format_hlc p = Some ts.
Proof.
  unfold parse_hlc. destruct (split_once "-" ts) as [[m rest]|] eqn:E1; [|done].
  apply split_once_Some in E1 as [-> _]. destruct (split_once "-" rest) as [[c node]|] eqn:E2; [|done].
  apply split_once_Some in E2 as [-> _].
  destruct (negb (len m =? 13) || _) eqn:Hm; [done|]. destruct (negb (len c =? 4) || _) eqn:Hc; [done|].
  destruct (is_empty node || _) eqn:Hn; [done|].
  destruct (parse_u64 m) as [mv|] eqn:Pm; [|done]. destruct (parse_lower_hex_u32 c) as [cv|] eqn:Pc; [|done].
  intros [= <-]. unfold all_bytes in *. rewrite len_length in *. bsimp.
  match goal with H : N.of_nat (length (bytes m)) = 13 |- _ => rename H into Hml end.
  match goal with H : N.of_nat (length (bytes c)) = 4 |- _ => rename H into Hcl end.
  match goal with H : forallb is_ascii_digit (bytes m) = true |- _ => rename H into Hmd end.
  match goal with H : forallb is_lower_hex (bytes c) = true |- _ => rename H into Hcd end.
  assert (mv = decimal_of m ∧ decimal_of m ≤ MAX_MILLIS) as [-> Hmax].
  { pose proof (from_radix_bound 10 digit_val is_ascii_digit ltac:(lia) digit_val_lt _ Hmd) as Hb.
    rewrite Hml in Hb. change (10 ^ 13) with 10000000000000 in Hb. fold (decimal_of m) in Hb.
    rewrite parse_u64_all_digits in Pm; [|intros E; by rewrite E in Hml|done|unfold u64_max; lia].
    unfold MAX_MILLIS. split; [congruence|lia]. }
  assert (cv = from_radix 16 hex_val (bytes c) ∧ cv ≤ MAX_COUNTER) as [Hcv Hcmax].
  { pose proof (from_radix_bound 16 hex_val is_lower_hex ltac:(lia) hex_val_lt _ Hcd) as Hb.
    rewrite Hcl in Hb. change (16 ^ 4) with 65536 in Hb. unfold parse_lower_hex_u32 in Pc.
    unfold MAX_COUNTER. destruct (bytes c) as [|a l] eqn:E; [done|].
    rewrite Hcd in Pc. cbn [andb] in Pc. destruct (_ <=? u32_max); [|done]. injection Pc as <-. split; [done|lia]. }
  unfold format_hlc. cbn [millis counter node_id]. unfold valid_node_id.
  rewrite (proj2 (N.leb_le _ _) Hmax), (proj2 (N.leb_le _ _) Hcmax).
  assert (negb (is_empty node) && negb (contains "-" node) = true) as -> by (by bsimp). cbn [andb].
  repeat f_equal.
  - destruct (millis_field _ Hmax) as (Hl & Hd & Hv & _). apply bytes_inj, bytes_cmp_eq.
    rewrite len_length in Hl. rewrite decimal_cmp by (try done; lia).
    unfold decimal_of in Hv at 1. rewrite Hv. apply N.compare_refl.
  - destruct (counter_field _ Hcmax) as (Hl & Hd & Hv & _). apply bytes_inj, bytes_cmp_eq.
    rewrite len_length in Hl.
    rewrite (from_radix_cmp 16 hex_val is_lower_hex ltac:(lia) hex_val_lt hex_val_mono) by (try done; lia).
    rewrite Hv, Hcv. apply N.compare_refl.
Qed.

(** Fixed width makes byte order chronological order. *)
Lemma compare_format a b ta tb : format_hlc a = Some ta → format_hlc b = Some tb →
  compare_hlc ta tb = parts_cmp a b.
Proof.
  intros [[Ham Hac _] ->]%format_hlc_Some [[Hbm Hbc _] ->]%format_hlc_Some.
  destruct (millis_field _ Ham) as (Hal & Had & Hav & _). destruct (millis_field _ Hbm) as (Hbl & Hbd & Hbv & _).
  destruct (counter_field _ Hac) as (Hacl & Hacd & Hacv & _).
  destruct (counter_field _ Hbc) as (Hbcl & Hbcd & Hbcv & _).
  rewrite len_length in *. unfold compare_hlc, str_cmp, parts_cmp.
  set (ma := pad_left _ _ (to_dec (millis a))) in *. set (mb := pad_left _ _ (to_dec (millis b))) in *.
  rewrite !bytes_app.
  rewrite bytes_cmp_app by lia. rewrite decimal_cmp by (try done; lia).
  unfold decimal_of in Hav, Hbv. rewrite Hav, Hbv. destruct (millis a ?= millis b); try done.
  assert (∀ s, bytes (String "-" s) = "-"%char :: bytes s) as Hdash by done.
  rewrite !Hdash, !bytes_app, !Hdash. cbn [bytes_cmp]. rewrite N.compare_refl.
  rewrite bytes_cmp_app by lia.
  rewrite (from_radix_cmp 16 hex_val is_lower_hex ltac:(lia) hex_val_lt hex_val_mono) by (try done; lia).
  rewrite Hacv, Hbcv. destruct (counter a ?= counter b); try done.
Qed.

Lemma before_parts_cmp a b :
  before (millis a) (counter a) (millis b) (counter b) → parts_cmp a b = Lt.
Proof.
  unfold before, parts_cmp. intros [Hlt|[-> Hlt]].
  - by rewrite (proj2 (N.compare_lt_iff _ _) Hlt).
  - rewrite N.compare_refl. by rewrite (proj2 (N.compare_lt_iff _ _) Hlt).
Qed.

(** *** The clock *)

Section ClockLemmas.
Context {P : Type} `{!ClockPersistence P}.
Implicit Types (k : clock P).

Lemma save_peek_Some k k' ts : save_peek k = Some (k', ts) →
  clock_ok k ∧ parse_hlc ts = Some (peek k) ∧ peek k' = peek k ∧
  ck_max_drift_ms k' = ck_max_drift_ms k ∧ ck_persistence k' = cp_save ts (ck_persistence k).
Proof.
  unfold save_peek. destruct (format_hlc (peek k)) as [t|] eqn:E; [|done]. intros [= <- <-].
  split; [|split; [|done]]; [by apply format_hlc_Some in E as [? _]|by apply parse_format].
Qed.

Lemma save_peek_ok k : clock_ok k → ∃ k' ts, save_peek k = Some (k', ts).
Proof. intros [ts E]%format_hlc_ok. unfold save_peek. rewrite E. eauto. Qed.

Lemma advance_before k physical :
  ck_counter k ≤ MAX_COUNTER →
  before (ck_millis k) (ck_counter k) (ck_millis (advance k physical)) (ck_counter (advance k physical)) ∧
  physical ≤ ck_millis (advance k physical) ∧ ck_counter (advance k physical) ≤ MAX_COUNTER ∧
  ck_node_id (advance k physical) = ck_node_id k.
Proof.
  unfold advance, before. intros Hc. destruct (N.ltb_spec (ck_millis k) physical); simpl.
  { split; [lia|split; [lia|split; [unfold MAX_COUNTER; lia|done]]]. }
  destruct (N.ltb_spec MAX_COUNTER (ck_counter k + 1)); simpl; (split; [lia|split; [lia|split; [|done]]]);
    unfold MAX_COUNTER in *; lia.
Qed.

Lemma next_Some k physical k' ts : clock_ok k → next k physical = Some (k', ts) →
  clock_ok k' ∧ parse_hlc ts = Some (peek k') ∧
  before (ck_millis k) (ck_counter k) (ck_millis k') (ck_counter k') ∧
  physical ≤ ck_millis k' ∧ ck_node_id k' = ck_node_id k ∧
  ck_persistence k' = cp_save ts (ck_persistence k).
Proof.
  intros Hk (Hok & Hp & Hpeek & _ & Hpers)%save_peek_Some.
  destruct (advance_before k physical (pk_counter _ Hk)) as (Hb & Hph & _ & Hn).
  unfold clock_ok in *. rewrite Hpeek. split; [done|]. split; [done|].
  injection Hpeek as -> -> ->. rewrite Hpers. split; [done|]. split; [done|]. split; [done|].
  unfold advance. by destruct (_ <? _); [|destruct (_ <? _)].
Qed.

Lemma next_total k physical : clock_ok k → physical ≤ MAX_MILLIS → ck_millis k < MAX_MILLIS →
  ∃ k' ts, next k physical = Some (k', ts).
Proof.
  intros Hk Hph Hm. apply save_peek_ok.
  destruct (advance_before k physical (pk_counter _ Hk)) as (_ & _ & Hc & Hn). split; [|done|].
  - unfold advance. destruct (_ <? _); [done|]. destruct (_ <? _); simpl; lia.
  - simpl. rewrite Hn. apply Hk.
Qed.

Lemma observe_cases k now remote : clock_ok k →
  (parse_hlc remote = None ∧ observe k now remote = Some (k, Ok ())) ∨
  (∃ p, parse_hlc remote = Some p ∧ now + ck_max_drift_ms k < millis p ∧
     observe k now remote = Some (k, Err (Drift remote (millis p - now) (ck_max_drift_ms k)))) ∨
  (∃ p k', parse_hlc remote = Some p ∧ millis p ≤ now + ck_max_drift_ms k ∧
     observe k now remote = Some (k', Ok ()) ∧ clock_ok k' ∧
     ck_node_id k' = ck_node_id k ∧ ck_max_drift_ms k' = ck_max_drift_ms k ∧
     before_eq (ck_millis k) (ck_counter k) (ck_millis k') (ck_counter k') ∧
     before_eq (millis p) (counter p) (ck_millis k') (ck_counter k') ∧
     (ck_millis k' = ck_millis k ∧ ck_counter k' = ck_counter k ∨
      ck_millis k' = millis p ∧ ck_counter k' = counter p)).
Proof.
  intros Hk. unfold observe. destruct (parse_hlc remote) as [p|] eqn:Hp; [right|by left].
  destruct ((now <? millis p) && (ck_max_drift_ms k <? millis p - now)) eqn:Hd.
  { left. exists p. split; [done|]. split; [bsimp; lia|done]. }
  right. assert (millis p ≤ now + ck_max_drift_ms k) as Hdrift.
  { apply andb_false_iff in Hd. destruct Hd; bsimp; lia. }
  apply parse_hlc_ok, format_hlc_Some in Hp as [[Hpm Hpc _] _].
  assert (∀ m c, m ≤ MAX_MILLIS → c ≤ MAX_COUNTER → ∃ k' ts, save_peek (set_time m c k) = Some (k', ts) ∧
    clock_ok k' ∧ peek k' = peek (set_time m c k) ∧ ck_max_drift_ms k' = ck_max_drift_ms k) as Hadopt.
  { intros m c Hm Hc. assert (clock_ok (set_time m c k)) as Hs by (split; [done..|apply Hk]).
    destruct (save_peek_ok _ Hs) as (k' & ts & E). exists k', ts. split; [done|].
    apply save_peek_Some in E as (? & _ & E & Hmd & _). unfold clock_ok. by rewrite E. }
  unfold before_eq. destruct (N.ltb_spec (ck_millis k) (millis p)) as [Hlt|Hge].
  { destruct (Hadopt _ _ Hpm Hpc) as (k' & ts & -> & Hok & Hpk & Hmd). exists p, k'.
    injection Hpk as E1 E2 E3. rewrite E1, E2, E3. split_and!; try done; try lia. }
  destruct ((millis p =? ck_millis k) && (ck_counter k <? counter p)) eqn:Hc; bsimp.
  { destruct (Hadopt (ck_millis k) _ (pk_millis _ Hk) Hpc) as (k' & ts & -> & Hok & Hpk & Hmd). exists p, k'.
    injection Hpk as E1 E2 E3. rewrite E1, E2, E3. split_and!; try done; try lia. }
  exists p, k. split_and!; try done; try lia; auto.
Qed.

(** *** Histories *)

(** The calls a client makes, with the wall clock read at each. *)
Inductive call :=
| CallNext (physical : N)
| CallObserve (now : N) (remote : string).

(** What happened: a timestamp was issued, or a remote one was adopted. *)
Inductive event :=
| Issued (ts : string)
| Observed (remote : string).

Definition event_ts (e : event) : string := match e with Issued t | Observed t => t end.

Fixpoint history k (calls : list call) : option (clock P * list event) :=
  match calls with
  | [] => Some (k, [])
  | CallNext physical :: calls =>
      '(k, ts) ← next k physical;
      '(k, es) ← history k calls;
      Some (k, Issued ts :: es)
  | CallObserve now remote :: calls =>
      '(k, r) ← observe k now remote;
      '(k, es) ← history k calls;
      Some (k, if is_ok r && is_some (parse_hlc remote) then Observed remote :: es else es)
  end.

(** An issued timestamp comes after everything before it. *)
Definition after_all (e e' : event) : Prop :=
  match e' with Issued t => compare_hlc (event_ts e) t = Lt | Observed _ => True end.

Lemma before_eq_trans m1 c1 m2 c2 m3 c3 :
  before_eq m1 c1 m2 c2 → before_eq m2 c2 m3 c3 → before_eq m1 c1 m3 c3.
Proof. unfold before_eq. lia. Qed.

Lemma before_eq_lt_trans m1 c1 m2 c2 m3 c3 :
  before_eq m1 c1 m2 c2 → before m2 c2 m3 c3 → before m1 c1 m3 c3.
Proof. unfold before_eq, before. lia. Qed.

Lemma before_weaken m1 c1 m2 c2 : before m1 c1 m2 c2 → before_eq m1 c1 m2 c2.
Proof. unfold before_eq, before. lia. Qed.

(** Everything issued from a clock on is after any position the clock has reached. *)
Lemma history_after k calls k' es p ts : clock_ok k → history k calls = Some (k', es) →
  parse_hlc ts = Some p → before_eq (millis p) (counter p) (ck_millis k) (ck_counter k) →
  Forall (λ e, match e with Issued t => compare_hlc ts t = Lt | Observed _ => True end) es.
Proof.
  intros Hk. revert k Hk k' es. induction calls as [|[physical|now remote] calls IH]; intros k Hk k' es;
    cbn [history].
  { intros [= _ <-]. constructor. }
  - destruct (next k physical) as [[k1 t]|] eqn:E1; simpl; [|done].
    destruct (history k1 calls) as [[k2 es']|] eqn:E2; simpl; [|done]. intros [= <- <-] Hp Hle.
    destruct (next_Some _ _ _ _ Hk E1) as (Hk1 & Ht & Hb & _). constructor.
    + erewrite compare_format; [|by apply parse_hlc_ok..]. apply before_parts_cmp.
      by eapply before_eq_lt_trans.
    + eapply IH; [done|exact E2|done|]. eapply before_eq_trans; [exact Hle|by apply before_weaken].
  - destruct (observe_cases k now remote Hk) as [(E & ->)|[(q & E & _ & ->)|(q & k1 & E & _ & -> & Hk1 & _ & _ & Hb & _)]];
      simpl; rewrite ?E.
    + destruct (history k calls) as [[k2 es']|] eqn:E2; simpl; [|done]. intros [= <- <-]. by eapply IH.
    + destruct (history k calls) as [[k2 es']|] eqn:E2; simpl; [|done]. intros [= <- <-]. by eapply IH.
    + destruct (history k1 calls) as [[k2 es']|] eqn:E2; simpl; [|done]. intros [= <- <-] Hp Hle.
      constructor; [done|]. eapply IH; [done|exact E2|done|]. by eapply before_eq_trans.
Qed.

Lemma history_sorted k calls k' es : clock_ok k → history k calls = Some (k', es) →
  StronglySorted after_all es.
Proof.
  intros Hk. revert k Hk k' es. induction calls as [|[physical|now remote] calls IH]; intros k Hk k' es;
    cbn [history].
  { intros [= _ <-]. constructor. }
  - destruct (next k physical) as [[k1 t]|] eqn:E1; simpl; [|done].
    destruct (history k1 calls) as [[k2 es']|] eqn:E2; simpl; [|done]. intros [= <- <-].
    destruct (next_Some _ _ _ _ Hk E1) as (Hk1 & Ht & Hb & _). constructor; [by eapply IH|].
    eapply history_after; [done|exact E2|exact Ht|]. right. split; [done|]. simpl. lia.
  - destruct (observe_cases k now remote Hk) as [(E & ->)|[(q & E & _ & ->)|(q & k1 & E & _ & -> & Hk1 & _ & _ & _ & Hb & _)]];
      simpl; rewrite ?E.
    + destruct (history k calls) as [[k2 es']|] eqn:E2; simpl; [|done]. intros [= <- <-]. by eapply IH.
    + destruct (history k calls) as [[k2 es']|] eqn:E2; simpl; [|done]. intros [= <- <-]. by eapply IH.
    + destruct (history k1 calls) as [[k2 es']|] eqn:E2; simpl; [|done]. intros [= <- <-].
      constructor; [by eapply IH|]. eapply history_after; [done|exact E2|exact E|done].
Qed.
End ClockLemmas.

(** ** Properties *)

(** The wire format is a bijection between valid parts and the strings
    [parse_hlc] accepts: formatting then parsing gives the parts back, and every
    accepted string is the formatting of its parts. *)
Theorem hlc_roundtrip parts timestamp :
  (parse_hlc timestamp = Some parts ↔ format_hlc parts = Some timestamp) ∧
  (is_Some (format_hlc parts) ↔ parts_ok parts).
Proof.
  split.
  - split; [apply parse_hlc_ok|apply parse_format].
  - split; [intros [ts [? _]%format_hlc_Some]; done|]. intros [ts E]%format_hlc_ok. eauto.
Qed.

(** String comparison of timestamps is chronological: by time, then counter,
    then node id.  It is therefore a total order on valid timestamps. *)
Theorem hlc_order a b ta tb : format_hlc a = Some ta → format_hlc b = Some tb →
  compare_hlc ta tb = parts_cmp a b ∧ (compare_hlc ta tb = Eq ↔ a = b).
Proof.
  intros Ha Hb. split; [by apply compare_format|]. unfold compare_hlc. rewrite str_cmp_eq. split.
  - intros ->. apply parse_format in Ha, Hb. congruence.
  - intros ->. congruence.
Qed.

Lemma hlc_order_witness :
  compare_hlc "0000000000001-ffff-b" "0000000000002-0000-a" = Lt.
Proof.
  rewrite (proj1 (hlc_order {| millis := 1; counter := 65535; node_id := "b" |}
                   {| millis := 2; counter := 0; node_id := "a" |}
                   "0000000000001-ffff-b" "0000000000002-0000-a" eq_refl eq_refl)).
  reflexivity.
Defined.

(** C20: a clock never goes back.  In any history of calls, whatever the wall clock
    reads, each issued timestamp is greater than every timestamp issued or
    adopted before it. *)
Theorem clock_monotone {P} `{!ClockPersistence P} (k : clock P) calls k' es :
  clock_ok k → history k calls = Some (k', es) → StronglySorted after_all es.
Proof. apply history_sorted. Qed.

Lemma clock_monotone_witness :
  ∃ k' es, history {| ck_node_id := "n"; ck_millis := 0; ck_counter := 0; ck_max_drift_ms := 100;
                      ck_persistence := () |}
             [CallNext 50; CallObserve 50 "0000000000120-0003-m"; CallNext 20; CallNext 200] = Some (k', es) ∧
    es = [Issued "0000000000050-0000-n"; Observed "0000000000120-0003-m";
          Issued "0000000000120-0004-n"; Issued "0000000000200-0000-n"] ∧
    StronglySorted after_all es.
Proof.
  eexists _, _. split; [vm_compute; reflexivity|]. split; [reflexivity|].
  eapply (clock_monotone {| ck_node_id := "n"; ck_millis := 0; ck_counter := 0; ck_max_drift_ms := 100;
    ck_persistence := () |}
    [CallNext 50; CallObserve 50 "0000000000120-0003-m"; CallNext 20; CallNext 200]);
    [|vm_compute; reflexivity].
  split; [vm_compute; discriminate|vm_compute; discriminate|reflexivity].
Defined.

(** Trust in remote clocks is bounded.  A timestamp is refused exactly when it
    lies more than the drift bound ahead of the wall clock, and then the clock is
    untouched; otherwise the clock moves to the later of the two positions, so an
    observation can carry it at most the bound ahead. *)
Theorem observe_bounded {P} `{!ClockPersistence P} (k : clock P) now remote p :
  clock_ok k → parse_hlc remote = Some p →
  match observe k now remote with
  | None => False
  | Some (k', Err e) => now + ck_max_drift_ms k < millis p ∧ k' = k ∧
      e = Drift remote (millis p - now) (ck_max_drift_ms k)
  | Some (k', Ok _) =>
      millis p ≤ now + ck_max_drift_ms k ∧
      ck_millis k' = N.max (ck_millis k) (millis p) ∧
      ck_millis k' ≤ N.max (ck_millis k) (now + ck_max_drift_ms k) ∧
      (ck_millis k' = ck_millis k ∧ ck_counter k' = ck_counter k ∨
       ck_millis k' = millis p ∧ ck_counter k' = counter p) ∧
      before_eq (ck_millis k) (ck_counter k) (ck_millis k') (ck_counter k') ∧
      before_eq (millis p) (counter p) (ck_millis k') (ck_counter k')
  end.
Proof.
  intros Hk Hp.
  destruct (observe_cases k now remote Hk)
    as [(E & _)|[(q & E & Hd & ->)|(q & k1 & E & Hd & -> & _ & _ & _ & H1 & H2 & H3)]];
    rewrite Hp in E; try done; injection E as <-; [done|].
  unfold before_eq in *. split; [done|]. split; [lia|]. split; [lia|]. done.
Qed.

Lemma observe_bounded_witness :
  match observe {| ck_node_id := "n"; ck_millis := 5; ck_counter := 0; ck_max_drift_ms := 10;
                   ck_persistence := () |} 3 "0000000000014-0000-m" with
  | Some (k', Err _) => ck_millis k' = 5
  | _ => False
  end.
Proof.
  pose proof (observe_bounded {| ck_node_id := "n"; ck_millis := 5; ck_counter := 0;
    ck_max_drift_ms := 10; ck_persistence := () |} 3 "0000000000014-0000-m"
    {| millis := 14; counter := 0; node_id := "m" |}
    ltac:(split; [vm_compute; discriminate|vm_compute; discriminate|reflexivity])
    ltac:(vm_compute; reflexivity)) as H.
  destruct (observe _ _ _) as [[k' [u|e]]|] eqn:E;
    [exfalso; vm_compute in E; discriminate|by destruct H as (_ & -> & _)|done].
Defined.

(** A restart does not reissue.  With a persistence that reloads what it
    saved, a clock rebuilt after a timestamp was issued resumes at that
    timestamp, so everything it issues is greater. *)
Theorem clock_restart {P} `{!ClockPersistence P} (k : clock P) physical k' ts node drift :
  (∀ t p, cp_load (cp_save t p) = Some t) →
  clock_ok k → valid_node_id node = true → next k physical = Some (k', ts) →
  ∃ k2, with_max_drift node (ck_persistence k') drift = Ok k2 ∧
    ck_millis k2 = ck_millis k' ∧ ck_counter k2 = ck_counter k' ∧
    ∀ physical2 k3 ts2, next k2 physical2 = Some (k3, ts2) → compare_hlc ts ts2 = Lt.
Proof.
  intros Hlaw Hk Hn Hnext. destruct (next_Some _ _ _ _ Hk Hnext) as (Hk' & Hts & _ & _ & _ & Hpers).
  apply valid_node_id_iff in Hn as [Hn1 Hn2]. unfold with_max_drift.
  rewrite Hn1, Hn2, Hpers, Hlaw, Hts. cbn [orb]. eexists. split; [done|]. split; [done|]. split; [done|].
  intros physical2 k3 ts2 Hnext2.
  assert (clock_ok {| ck_node_id := node; ck_millis := millis (peek k'); ck_counter := counter (peek k');
            ck_max_drift_ms := drift; ck_persistence := cp_save ts (ck_persistence k) |}) as Hk2.
  { split; [apply Hk'|apply Hk'|]. apply valid_node_id_iff. done. }
  destruct (next_Some _ _ _ _ Hk2 Hnext2) as (_ & Hts2 & Hb & _).
  erewrite compare_format; [|by apply parse_hlc_ok..]. by apply before_parts_cmp.
Qed.

#[local] Instance example_clock_store : ClockPersistence (option string) := {
  cp_load p := p;
  cp_save ts p := Some ts
}.

Lemma clock_restart_witness :
  ∃ k2, with_max_drift "n2" (Some "0000000000050-0000-n") 10 = Ok k2 ∧ ck_millis k2 = 50.
Proof.
  destruct (clock_restart (P := option string)
    {| ck_node_id := "n"; ck_millis := 0; ck_counter := 0; ck_max_drift_ms := 10; ck_persistence := None |} 50
    {| ck_node_id := "n"; ck_millis := 50; ck_counter := 0; ck_max_drift_ms := 10;
       ck_persistence := Some "0000000000050-0000-n" |} "0000000000050-0000-n" "n2" 10)
    as (k2 & H1 & H2 & _).
  - intros t p. reflexivity.
  - split; [vm_compute; discriminate|vm_compute; discriminate|reflexivity].
  - vm_compute. reflexivity.
  - vm_compute. reflexivity.
  - exists k2. split; [exact H1|exact H2].
Defined.

(** The clock does not panic before the year 2286: while the wall clock and
    the stored time are below the largest 13-digit millisecond, a valid clock
    issues a timestamp. *)
Theorem next_does_not_panic {P} `{!ClockPersistence P} (k : clock P) physical :
  clock_ok k → physical ≤ MAX_MILLIS → ck_millis k < MAX_MILLIS →
  ∃ k' ts, next k physical = Some (k', ts) ∧ clock_ok k' ∧ physical ≤ ck_millis k'.
Proof.
  intros Hk Hph Hm. destruct (next_total k physical Hk Hph Hm) as (k' & ts & E).
  destruct (next_Some _ _ _ _ Hk E) as (? & _ & _ & ? & _). eauto.
Qed.

Lemma next_does_not_panic_witness :
  ∃ k' ts, next {| ck_node_id := "n"; ck_millis := 7; ck_counter := 65535; ck_max_drift_ms := 0;
                   ck_persistence := () |} 3 = Some (k', ts) ∧ ts = "0000000000008-0000-n".
Proof.
  destruct (next_does_not_panic {| ck_node_id := "n"; ck_millis := 7; ck_counter := 65535;
    ck_max_drift_ms := 0; ck_persistence := () |} 3) as (k' & ts & E & _).
  - split; [vm_compute; discriminate|vm_compute; discriminate|reflexivity].
  - vm_compute. discriminate.
  - vm_compute. reflexivity.
  - exists k', ts. split; [exact E|]. vm_compute in E. injection E as _ <-. reflexivity.
Defined.
