(* ===== verification/Client.v ===== *)
(** * Client: optimistic writes and reconciliation

    Models the client of [clients/rust/src/lib.rs]: the reconciliation options,
    rebasing pending writes, the mutation store and its in-memory
    implementation, and stamping writes from the hybrid logical clock.  The
    merge engine ([syncer_rs]) and serde_json's text codec and JSON Pointer
    lookup are not in the repository and are interfaces. *)

From S2P Require Import Prelude Text Decimal Btree Json JsonCodec State Clock.

(** ** The merge engine *)

Record MergeOptions (A : Type) := {
  mo_array_strategy : option A;
  mo_max_depth : option N;
  mo_detect_circular_refs : bool;
  mo_resolve_by_timestamp : bool;
  mo_lww_keys : option string;
  mo_fww_keys : option string;
  mo_array_match_keys : option string
}.
Arguments Build_MergeOptions {A} _ _ _ _ _ _ _.
Arguments mo_array_strategy {A} _.
Arguments mo_max_depth {A} _.
Arguments mo_detect_circular_refs {A} _.
Arguments mo_resolve_by_timestamp {A} _.
Arguments mo_lww_keys {A} _.
Arguments mo_fww_keys {A} _.
Arguments mo_array_match_keys {A} _.

Class MergeEngine := {
  ArrayStrategy : Type;
  MergeByKey : ArrayStrategy;
  (** [try_merge_json_with_options base incoming options]. *)
  try_merge : string → string → MergeOptions ArrayStrategy → option string
}.

Section Reconcile.
Context `{MergeEngine}.

Record ReconcileOptions := {
  array_strategy : ArrayStrategy;
  array_match_keys : string;
  resolve_by_timestamp : bool;
  detect_circular_refs : bool;
  lww_keys : string;
  fww_keys : string;
  max_depth : N
}.

Definition default_options : ReconcileOptions :=
  {| array_strategy := MergeByKey; array_match_keys := "id"; resolve_by_timestamp := true;
     detect_circular_refs := false; lww_keys := "updatedAt,syncedAt"; fww_keys := ""; max_depth := 0 |}.

Definition to_merge_options (o : ReconcileOptions) : MergeOptions ArrayStrategy :=
  {| mo_array_strategy := Some (array_strategy o); mo_max_depth := Some (max_depth o);
     mo_detect_circular_refs := detect_circular_refs o;
     mo_resolve_by_timestamp := resolve_by_timestamp o; mo_lww_keys := Some (lww_keys o);
     mo_fww_keys := if is_empty (fww_keys o) then None else Some (fww_keys o);
     mo_array_match_keys := Some (array_match_keys o) |}.

Inductive ReconcileError := InvalidJsonInput.

Definition reconcile (base_json incoming_json : string) (opts : ReconcileOptions) : result string ReconcileError :=
  ok_or (try_merge base_json incoming_json (to_merge_options opts)) InvalidJsonInput.

Definition without_timestamps (o : ReconcileOptions) : ReconcileOptions :=
  {| array_strategy := array_strategy o; array_match_keys := array_match_keys o;
     resolve_by_timestamp := false; detect_circular_refs := detect_circular_refs o;
     lww_keys := lww_keys o; fww_keys := fww_keys o; max_depth := max_depth o |}.

Fixpoint rebase_view (overlay : ReconcileOptions) (view : string) (pending : list string)
  : result string ReconcileError :=
  match pending with
  | [] => Ok view
  | payload :: pending =>
      let? view := reconcile view payload overlay in
      rebase_view overlay view pending
  end.

Definition rebase_pending (server_json : string) (pending : list string) (opts : ReconcileOptions)
    (gate_overlay_by_timestamp : bool) : result string ReconcileError :=
  let overlay := if negb gate_overlay_by_timestamp then without_timestamps opts else opts in
  rebase_view overlay server_json pending.
End Reconcile.

(** ** The mutation store *)

Inductive MutationStatus := Pending | Synced | Failed.
#[export] Instance MutationStatus_eq_dec : EqDecision MutationStatus.
Proof. solve_decision. Defined.

Record Mutation := { mu_id : N; mu_payload : string; mu_status : MutationStatus }.
#[export] Instance Mutation_eq_dec : EqDecision Mutation.
Proof. solve_decision. Defined.

(** The trait; [None] is a panic of the implementation. *)
Class MutationStore (St : Type) := {
  store_queue : string → St → option (St * N);
  store_pending : St → list Mutation;
  store_mark_synced : N → St → St * bool;
  store_mark_failed : N → St → St * bool
}.

Module InMemory.
Record Store := { next_id : N; mutations : list Mutation }.
Definition new : Store := {| next_id := 0; mutations := [] |}.
Definition all (s : Store) : list Mutation := mutations s.

(** [iter_mut().find(..)]: the first mutation with the id. *)
Fixpoint set_first (id : N) (status : MutationStatus) (l : list Mutation) : option (list Mutation) :=
  match l with
  | [] => None
  | m :: l' =>
      if mu_id m =? id then Some ({| mu_id := mu_id m; mu_payload := mu_payload m; mu_status := status |} :: l')
      else match set_first id status l' with Some l'' => Some (m :: l'') | None => None end
  end.

Definition set_status (id : N) (status : MutationStatus) (s : Store) : Store * bool :=
  match set_first id status (mutations s) with
  | Some l => ({| next_id := next_id s; mutations := l |}, true)
  | None => (s, false)
  end.

(** [next_id += 1] panics on overflow (overflow checks on). *)
Definition queue (payload : string) (s : Store) : option (Store * N) :=
  match checked_add_u64 (next_id s) 1 with
  | None => None
  | Some next =>
      Some ({| next_id := next;
               mutations := mutations s ++ [{| mu_id := next_id s; mu_payload := payload; mu_status := Pending |}] |},
            next_id s)
  end.

Definition pending (s : Store) : list Mutation :=
  List.filter (λ m, mu_status m == Pending) (mutations s).

#[export] Instance in_memory : MutationStore Store :=
  {| store_queue := queue; store_pending := pending;
     store_mark_synced id := set_status id Synced; store_mark_failed id := set_status id Failed |}.
End InMemory.

(** ** The client *)

Inductive ClientError :=
| InvalidJson
| NotAJsonObject
| EClock (e : ClockError).

(** The system clock: a hybrid logical clock and how many readings of the wall
    clock it has taken. *)
Record SystemClock (P : Type) := { hlc : clock P; readings : nat }.
Arguments hlc {P} _.
Arguments readings {P} _.
Arguments Build_SystemClock {P} _ _.

Record Client `{MergeEngine} (St P : Type) := {
  cl_store : St;
  cl_options : ReconcileOptions;
  cl_clock : option (SystemClock P)
}.
Arguments cl_store {_ St P} _.
Arguments cl_options {_ St P} _.
Arguments cl_clock {_ St P} _.
Arguments Build_Client {_ St P} _ _ _.

Section Observe.
Context {P : Type} `{!ClockPersistence P}.
(** The wall clock: its n-th reading.  [serde_json::Value::pointer]. *)
Context (wall : nat → N) (pointer : json → string → option json).

Definition observe_ts (ts : string) : M (SystemClock P) (stop ClientError) unit :=
  λ c, match observe (hlc c) (wall (readings c)) ts with
       | None => (c, Err Unwound)
       | Some (k, r) => (Build_SystemClock k (S (readings c)), map_err (λ e, Raised (EClock e)) r)
       end.

(** What a selector finds at a node. *)
Definition selected (node : json) (map : bmap json) (selector : string) : option json :=
  match bytes selector with
  | "#"%char :: pointed => pointer node (of_bytes pointed)
  | _ => bt_get selector map
  end.

Fixpoint observe_selectors (node : json) (map : bmap json) (keys : list string)
  : M (SystemClock P) (stop ClientError) unit :=
  match keys with
  | [] => ret ()
  | selector :: keys =>
      match selected node map selector with
      | Some (JString ts) => observe_ts ts ;;? observe_selectors node map keys
      | _ => observe_selectors node map keys
      end
  end.

Fixpoint observe_tree (keys : list string) (node : json) : M (SystemClock P) (stop ClientError) unit :=
  match node with
  | JArray items =>
      (fix each (items : list json) : M (SystemClock P) (stop ClientError) unit :=
         match items with
         | [] => ret ()
         | item :: items => observe_tree keys item ;;? each items
         end) items
  | JObject map =>
      observe_selectors node map keys ;;?
      (fix each (map : bmap json) : M (SystemClock P) (stop ClientError) unit :=
         match map with
         | [] => ret ()
         | (_, value) :: map => observe_tree keys value ;;? each map
         end) map
  | _ => ret ()
  end.
End Observe.

Section ClientOps.
Context `{MergeEngine} {St P : Type} `{MutationStore St} `{!ClockPersistence P} `{SerdeJson}.
Context (wall : nat → N) (pointer : json → string → option json).

Definition with_clock {P'} (c : Client St P') (k : SystemClock P) : Client St P :=
  Build_Client (cl_store c) (cl_options c) (Some k).
Definition without_clock (c : Client St P) : Client St P := Build_Client (cl_store c) (cl_options c) None.
Definition client_id (c : Client St P) : option string := (λ k, ck_node_id (hlc k)) <$> cl_clock c.

(** On the client's clock, the rest of the client unchanged. *)
Definition on_clock {A} (f : M (SystemClock P) (stop ClientError) A) (k : SystemClock P)
  : M (Client St P) (stop ClientError) A :=
  λ c, let '(k', r) := f k in (Build_Client (cl_store c) (cl_options c) (Some k'), r).

Definition clock_next : M (SystemClock P) (stop ClientError) string :=
  λ c, match next (hlc c) (wall (readings c)) with
       | None => (c, Err Unwound)
       | Some (k, ts) => (Build_SystemClock k (S (readings c)), Ok ts)
       end.

Definition store_payload (payload : json) : M (Client St P) (stop ClientError) N :=
  λ c, match to_text payload with
       | None => (c, Err Unwound)
       | Some text =>
           match store_queue text (cl_store c) with
           | None => (c, Err Unwound)
           | Some (st, id) => (Build_Client st (cl_options c) (cl_clock c), Ok id)
           end
       end.

Definition queue_mutation_value (payload : json) : M (Client St P) (stop ClientError) N :=
  match payload with
  | JObject obj =>
      k ←? gets cl_clock;
      match k with
      | Some k =>
          if negb (bt_contains "updatedAt" obj) then
            ts ←? on_clock clock_next k;
            store_payload (JObject (bt_insert "updatedAt" (JString ts) obj))
          else store_payload payload
      | None => store_payload payload
      end
  | _ => fail (Raised NotAJsonObject)
  end.

Definition queue_mutation (payload : string) : M (Client St P) (stop ClientError) N :=
  match from_text payload with
  | None => fail (Raised InvalidJson)
  | Some value => queue_mutation_value value
  end.

Definition lww_key_list (o : ReconcileOptions) : list string :=
  List.filter (λ k, negb (is_empty k)) (List.map trim (split "," (lww_keys o))).

Definition observe_incoming (payload : string) : M (Client St P) (stop ClientError) unit :=
  match from_text payload with
  | None => fail (Raised InvalidJson)
  | Some value =>
      c ←? gets id;
      match cl_clock c with
      | None => ret ()
      | Some k => on_clock (observe_tree wall pointer (lww_key_list (cl_options c)) value) k
      end
  end.

Definition local_view (c : Client St P) (server_json : string) : result string ReconcileError :=
  rebase_pending server_json (List.map mu_payload (store_pending (cl_store c))) (cl_options c) false.

Definition reconcile_incoming (c : Client St P) (local incoming : string) : result string ReconcileError :=
  reconcile local incoming (cl_options c).
End ClientOps.

(** [new] and [with_options], from the bytes the entropy source gives for the
    device id and for the instance suffix. *)
Section Make.
Context `{MergeEngine} {St : Type}.

Definition with_options (store : St) (options : ReconcileOptions) (entropy entropy' : list ascii) : Client St unit :=
  Build_Client store options
    ((λ k, Build_SystemClock k 0) <$>
       ok (Clock.new (compose_node_id (random_node_id entropy) None entropy') ())).

Definition new_client (store : St) (entropy entropy' : list ascii) : Client St unit :=
  with_options store default_options entropy entropy'.
End Make.

(** ** Specification *)

(** The string values the selectors find, at every depth, in document order. *)
Section Strings.
Context (pointer : json → string → option json).

Definition selected_strings (node : json) (map : bmap json) (keys : list string) : list string :=
  omap (λ k, match selected pointer node map k with Some (JString ts) => Some ts | _ => None end) keys.

Fixpoint lww_strings (keys : list string) (node : json) : list string :=
  match node with
  | JArray items => flat_map (lww_strings keys) items
  | JObject map => selected_strings node map keys ++ flat_map (λ kv, lww_strings keys kv.2) map
  | _ => []
  end.
End Strings.

(** What an application does with a client: through [store_mut] it also queues
    texts and marks mutations. *)
Inductive ClientCall :=
| CallQueue (payload : string)
| CallQueueValue (payload : json)
| CallStore (payload : string)
| CallObserve (document : string)
| CallMark (id : N) (synced : bool).

Definition settles (id : N) (call : ClientCall) : bool :=
  match call with CallMark id' _ => id' =? id | _ => false end.

Section Calls.
Context `{MergeEngine} {St P : Type} `{MutationStore St} `{!ClockPersistence P} `{SerdeJson}.
Context (wall : nat → N) (pointer : json → string → option json).

Definition client_call (call : ClientCall) (c : Client St P) : Client St P :=
  let on_store st := Build_Client st (cl_options c) (cl_clock c) in
  match call with
  | CallQueue payload => (queue_mutation wall payload c).1
  | CallQueueValue payload => (queue_mutation_value wall payload c).1
  | CallStore payload => match store_queue payload (cl_store c) with Some (st, _) => on_store st | None => c end
  | CallObserve document => (observe_incoming wall pointer document c).1
  | CallMark id synced => on_store (if synced then store_mark_synced id (cl_store c) else store_mark_failed id (cl_store c)).1
  end.

Fixpoint client_calls (calls : list ClientCall) (c : Client St P) : Client St P :=
  match calls with [] => c | call :: calls => client_calls calls (client_call call c) end.
End Calls.

(** What is fixed about a mutation when it is queued. *)
Definition mu_queued (m : Mutation) : N * string := (mu_id m, mu_payload m).

(** What the pending mutations among some contribute to a view. *)
Definition pending_payloads (l : list Mutation) : list string :=
  List.map mu_payload (List.filter (λ m, mu_status m == Pending) l).

(** What the mutation store's documentation promises. *)
Class MutationStoreLaws (St : Type) `{MutationStore St} := {
  store_ok : St → Prop;
  (** Every mutation ever queued, oldest first. *)
  store_all : St → list Mutation;
  law_queue : ∀ payload s s' id, store_ok s → store_queue payload s = Some (s', id) →
    store_ok s' ∧ Forall (λ m, mu_id m ≠ id) (store_all s)
    ∧ store_all s' = store_all s ++ [{| mu_id := id; mu_payload := payload; mu_status := Pending |}];
  law_pending : ∀ s, store_ok s → store_pending s = List.filter (λ m, mu_status m == Pending) (store_all s);
  law_mark_synced : ∀ id s, store_ok s →
    let '(s', found) := store_mark_synced id s in
    store_ok s' ∧ found = existsb (λ m, mu_id m =? id) (store_all s)
    ∧ store_all s' = List.map (λ m, if mu_id m =? id
        then {| mu_id := mu_id m; mu_payload := mu_payload m; mu_status := Synced |} else m) (store_all s);
  law_mark_failed : ∀ id s, store_ok s →
    let '(s', found) := store_mark_failed id s in
    store_ok s' ∧ found = existsb (λ m, mu_id m =? id) (store_all s)
    ∧ store_all s' = List.map (λ m, if mu_id m =? id
        then {| mu_id := mu_id m; mu_payload := mu_payload m; mu_status := Failed |} else m) (store_all s)
}.

(** ** Lemmas: marking *)

(** The marking of one mutation, and of the others. *)
Definition with_status (id : N) (status : MutationStatus) (m : Mutation) : Mutation :=
  if mu_id m =? id then {| mu_id := mu_id m; mu_payload := mu_payload m; mu_status := status |} else m.

Lemma map_with_status_queued id status l : List.map mu_queued (List.map (with_status id status) l) = List.map mu_queued l.
Proof. rewrite List.map_map. apply List.map_ext. intros m. unfold with_status. by destruct (mu_id m =? id). Qed.

Lemma map_with_status_ids id status l : List.map mu_id (List.map (with_status id status) l) = List.map mu_id l.
Proof. rewrite List.map_map. apply List.map_ext. intros m. unfold with_status. by destruct (mu_id m =? id). Qed.

(** ** Lemmas: the in-memory store keeps the contract *)

Module InMemoryLaws.
Import InMemory.

Definition mem_ok (s : Store) : Prop :=
  NoDup (List.map mu_id (mutations s)) ∧ Forall (λ m, mu_id m < next_id s) (mutations s).

Lemma with_status_absent id status l : existsb (λ m, mu_id m =? id) l = false → List.map (with_status id status) l = l.
Proof.
  induction l as [|m l IH]; cbn [existsb List.map]; [done|]. rewrite orb_false_iff. intros [Hm Hl].
  rewrite (IH Hl). unfold with_status. by rewrite Hm.
Qed.

Lemma existsb_id id l : existsb (λ m, mu_id m =? id) l = true ↔ id ∈ List.map mu_id l.
Proof.
  rewrite existsb_exists. rewrite <- In_elem, in_map_iff. split.
  - intros (m & Hin & He). bsimp. eauto.
  - intros (m & <- & Hin). exists m. bsimp. done.
Qed.

Lemma set_first_spec id status l : NoDup (List.map mu_id l) →
  set_first id status l = if existsb (λ m, mu_id m =? id) l then Some (List.map (with_status id status) l) else None.
Proof.
  induction l as [|m l IH]; cbn [set_first existsb List.map]; [done|]. intros [Hm Hl]%NoDup_cons.
  unfold with_status at 1. destruct (mu_id m =? id) eqn:E; cbn [orb].
  - do 2 f_equal. symmetry. apply with_status_absent. apply not_true_iff_false. rewrite existsb_id.
    apply N.eqb_eq in E as <-. done.
  - rewrite (IH Hl). by destruct (existsb _ l).
Qed.

Lemma set_status_law id status s : mem_ok s →
  let '(s', found) := set_status id status s in
  mem_ok s' ∧ found = existsb (λ m, mu_id m =? id) (mutations s)
  ∧ mutations s' = List.map (with_status id status) (mutations s).
Proof.
  intros [Hnd Hlt]. unfold set_status. rewrite (set_first_spec _ _ _ Hnd).
  destruct (existsb _ (mutations s)) eqn:E.
  - split; [|done]. split; cbn [mutations next_id]; [by rewrite map_with_status_ids|].
    apply Forall_map. eapply Forall_impl; [exact Hlt|]. cbn. intros m Hm.
    unfold with_status. by destruct (mu_id m =? id).
  - split; [done|]. split; [done|]. by rewrite with_status_absent.
Qed.

Lemma queue_law payload s s' id : mem_ok s → queue payload s = Some (s', id) →
  mem_ok s' ∧ Forall (λ m, mu_id m ≠ id) (mutations s)
  ∧ mutations s' = mutations s ++ [{| mu_id := id; mu_payload := payload; mu_status := Pending |}].
Proof.
  intros [Hnd Hlt]. unfold queue, checked_add_u64. destruct (_ <=? u64_max); [|done]. intros [= <- <-].
  assert (Hfresh : Forall (λ m, mu_id m ≠ next_id s) (mutations s))
    by (eapply Forall_impl; [exact Hlt|]; cbn; lia).
  split; [|done]. split; cbn [mutations next_id].
  - rewrite List.map_app. apply NoDup_app. split; [done|]. split; [|apply NoDup_singleton].
    intros x Hx Hin. apply list_elem_of_singleton in Hin as ->.
    apply In_elem, in_map_iff in Hx as (m & Hm & Hin). rewrite Forall_forall in Hfresh.
    by apply (Hfresh m); [apply In_elem|].
  - apply Forall_app. split; [|repeat constructor; cbn; lia]. eapply Forall_impl; [exact Hlt|]. cbn. lia.
Qed.

#[export] Instance in_memory_laws : MutationStoreLaws Store :=
  {| store_ok := mem_ok; store_all := mutations; law_queue := queue_law; law_pending s _ := eq_refl;
     law_mark_synced id s := set_status_law id Synced s; law_mark_failed id s := set_status_law id Failed s |}.
End InMemoryLaws.

(** ** Lemmas: observing a document *)

Section ObserveLemmas.
Context {P : Type} `{!ClockPersistence P}.
Context (wall : nat → N) (pointer : json → string → option json).
Implicit Types c : SystemClock P.

Fixpoint observe_list (l : list string) : M (SystemClock P) (stop ClientError) unit :=
  match l with
  | [] => ret ()
  | ts :: l => observe_ts wall ts ;;? observe_list l
  end.

Lemma observe_list_app l l' c : observe_list (l ++ l') c = (observe_list l ;;? observe_list l') c.
Proof.
  revert c. induction l as [|ts l IH]; intros c; [done|]. cbn [observe_list app]. unfold bind in *.
  destruct (observe_ts wall ts c) as [c' [u|e]]; [apply IH|done].
Qed.

Lemma observe_selectors_list node map keys c :
  observe_selectors wall pointer node map keys c = observe_list (selected_strings pointer node map keys) c.
Proof.
  revert c. induction keys as [|k keys IH]; intros c; [done|]. cbn [observe_selectors selected_strings omap list_omap].
  fold (selected_strings pointer node map keys).
  destruct (selected pointer node map k) as [[| | |ts| |]|]; try apply IH.
  cbn [observe_list]. unfold bind. destruct (observe_ts wall ts c) as [c' [u|e]]; [apply IH|done].
Qed.

(** Walking the document is observing its strings in order. *)
Lemma observe_tree_list keys node : ∀ c,
  observe_tree wall pointer keys node c = observe_list (lww_strings pointer keys node) c.
Proof.
  induction node as [|b|n|s|items IH|map IH] using json_nested_ind; intros c; try done; cbn [observe_tree lww_strings].
  - revert c. induction IH as [|item items Hi _ IHl]; intros c; [done|]. cbn [flat_map].
    rewrite observe_list_app. unfold bind. rewrite Hi.
    destruct (observe_list _ c) as [c' [u|e]]; [apply IHl|done].
  - rewrite observe_list_app. unfold bind at 1. rewrite observe_selectors_list. unfold bind at 2.
    destruct (observe_list _ c) as [c' [u|e]]; [|done]. clear c. revert c'.
    induction IH as [|[k v] map Hi _ IHl]; intros c; [done|]. cbn [flat_map snd] in *.
    rewrite observe_list_app. unfold bind. rewrite Hi.
    destruct (observe_list _ c) as [c'' [u'|e]]; [apply IHl|done].
Qed.

(** After observing, the clock is at or past everything observed. *)
Lemma observe_list_ok l : ∀ c c', clock_ok (hlc c) → observe_list l c = (c', Ok ()) →
  clock_ok (hlc c')
  ∧ before_eq (ck_millis (hlc c)) (ck_counter (hlc c)) (ck_millis (hlc c')) (ck_counter (hlc c'))
  ∧ Forall (λ s, ∀ p, parse_hlc s = Some p →
              before_eq (millis p) (counter p) (ck_millis (hlc c')) (ck_counter (hlc c'))) l.
Proof.
  induction l as [|ts l IH]; intros c c' Hok; cbn [observe_list].
  - intros [= <-]. split; [done|]. split; [unfold before_eq; lia|constructor].
  - intros H. apply bind_ok in H as (c1 & u & H1 & H). unfold observe_ts in H1.
    destruct (observe_cases (hlc c) (wall (readings c)) ts Hok)
      as [(E & Ho)|[(q & E & _ & Ho)|(q & k1 & E & _ & Ho & Hk1 & _ & _ & Hb1 & Hb2 & _)]];
      rewrite Ho in H1; cbn in H1; [|done|]; injection H1 as <- <-;
      apply IH in H as (Hc' & Hb & Hall); try done; cbn [hlc] in *.
    + split; [done|]. split; [done|]. constructor; [|done]. intros p Hp. congruence.
    + split; [done|]. split; [by eapply before_eq_trans|]. constructor; [|done].
      intros p Hp. rewrite E in Hp. injection Hp as <-. by eapply before_eq_trans.
Qed.
End ObserveLemmas.

(** ** Lemmas: queueing *)

Section ClientLemmas.
Context `{MergeEngine} {St P : Type} `{MutationStoreLaws St} `{!ClockPersistence P} `{SerdeJson}.
Context (wall : nat → N) (pointer : json → string → option json).
Implicit Types c : Client St P.

Lemma store_payload_ok payload c c' id : store_ok (cl_store c) → store_payload payload c = (c', Ok id) →
  ∃ text, to_text payload = Some text ∧ store_ok (cl_store c') ∧ Forall (λ m, mu_id m ≠ id) (store_all (cl_store c))
    ∧ store_all (cl_store c') =
        store_all (cl_store c) ++ [{| mu_id := id; mu_payload := text; mu_status := Pending |}]
    ∧ cl_options c' = cl_options c ∧ cl_clock c' = cl_clock c.
Proof.
  intros Hok. unfold store_payload. destruct (to_text payload) as [text|]; [|done].
  destruct (store_queue text (cl_store c)) as [[st i]|] eqn:Hq; [|done]. intros [= <- <-].
  destruct (law_queue _ _ _ _ Hok Hq) as (Hok' & Hfresh & Hall). by exists text.
Qed.

(** What was written: the payload's object, stamped when it had no stamp. *)
Definition stamped (obj obj' : bmap json) c c' : Prop :=
  match cl_clock c with
  | Some k =>
      if bt_contains "updatedAt" obj then obj' = obj ∧ cl_clock c' = Some k
      else ∃ k' ts, next (hlc k) (wall (readings k)) = Some (k', ts)
             ∧ obj' = bt_insert "updatedAt" (JString ts) obj
             ∧ cl_clock c' = Some (Build_SystemClock k' (S (readings k)))
  | None => obj' = obj ∧ cl_clock c' = None
  end.

Lemma queue_mutation_ok payload c c' id : store_ok (cl_store c) →
  queue_mutation wall payload c = (c', Ok id) →
  ∃ obj obj' text, from_text payload = Some (JObject obj) ∧ stamped obj obj' c c' ∧ to_text (JObject obj') = Some text
    ∧ store_ok (cl_store c') ∧ Forall (λ m, mu_id m ≠ id) (store_all (cl_store c))
    ∧ store_all (cl_store c') =
        store_all (cl_store c) ++ [{| mu_id := id; mu_payload := text; mu_status := Pending |}]
    ∧ cl_options c' = cl_options c.
Proof.
  intros Hok. unfold queue_mutation. destruct (from_text payload) as [[| | | | |obj]|] eqn:Hp; try done.
  unfold queue_mutation_value, bind at 1, gets, stamped. destruct (cl_clock c) as [k|] eqn:Hk.
  - destruct (bt_contains "updatedAt" obj) eqn:Hu; cbn [negb].
    + intros Hs. destruct (store_payload_ok _ _ _ _ Hok Hs) as (text & Ht & Hok' & Hf & Ha & Ho & Hc).
      exists obj, obj, text. by rewrite Hu, Hc.
    + intros Hs. apply bind_ok in Hs as (c1 & ts & Hn & Hs). unfold on_clock, clock_next in Hn.
      destruct (next (hlc k) (wall (readings k))) as [[k' t]|] eqn:Hnext; [|done]. injection Hn as <- <-.
      destruct (store_payload_ok _ (Build_Client (cl_store c) (cl_options c) (Some (Build_SystemClock k' (S (readings k))))) _ _ Hok Hs)
        as (text & Ht & Hok' & Hf & Ha & Ho & Hc).
      exists obj, (bt_insert "updatedAt" (JString t) obj), text. rewrite Hu. split_and!; try done. by exists k', t.
  - intros Hs. destruct (store_payload_ok _ _ _ _ Hok Hs) as (text & Ht & Hok' & Hf & Ha & Ho & Hc).
    exists obj, obj, text. by rewrite Hc.
Qed.

Lemma stamped_keys obj obj' c c' : stamped obj obj' c c' →
  ∀ k, k ≠ "updatedAt" ∨ is_Some (bt_get "updatedAt" obj) → bt_get k obj' = bt_get k obj.
Proof.
  intros Hst k Hk. unfold stamped in Hst. destruct (cl_clock c) as [sk|]; [|by destruct Hst as [-> _]].
  unfold bt_contains in Hst. destruct (bt_get "updatedAt" obj) eqn:Hu; cbn in Hst; [by destruct Hst as [-> _]|].
  destruct Hst as (k' & ts & _ & -> & _). destruct Hk as [Hk|[v Hv]]; [|done]. by rewrite bt_get_insert_ne.
Qed.

Lemma rebase_view_app o l x k : ∀ view,
  rebase_view o view (l ++ x :: k) = let? v := rebase_view o view l in let? v := reconcile v x o in rebase_view o v k.
Proof.
  induction l as [|y l IH]; intros view; cbn [rebase_view app]; [done|].
  destruct (reconcile view y o) as [v|e]; [apply IH|done].
Qed.

Lemma rebase_view_join o l k : ∀ view,
  rebase_view o view (l ++ k) = let? v := rebase_view o view l in rebase_view o v k.
Proof.
  induction l as [|y l IH]; intros view; cbn [rebase_view app]; [done|].
  destruct (reconcile view y o) as [v|e]; [apply IH|done].
Qed.

(** *** Later calls *)

Lemma with_status_written id id' text status :
  with_status id status {| mu_id := id'; mu_payload := text; mu_status := Pending |}
  = {| mu_id := id'; mu_payload := text; mu_status := if id' =? id then status else Pending |}.
Proof. unfold with_status. cbn. by destruct (id' =? id). Qed.

Lemma with_status_others id status l : Forall (λ m, mu_id m ≠ id) l → List.map (with_status id status) l = l.
Proof.
  induction 1 as [|m l Hm _ IH]; [done|]. cbn. rewrite IH. unfold with_status. apply N.eqb_neq in Hm. by rewrite Hm.
Qed.

Lemma ids_ne id l : Forall (λ m, mu_id m ≠ id) l ↔ id ∉ List.map mu_id l.
Proof.
  induction l as [|m l IH]; cbn; [split; [by intros _ ?%elem_of_nil|constructor]|].
  rewrite Forall_cons, not_elem_of_cons, IH. naive_solver.
Qed.

Lemma mark_law (synced : bool) id (s : St) : store_ok s →
  let '(s', found) := if synced then store_mark_synced id s else store_mark_failed id s in
  store_ok s' ∧ found = existsb (λ m, mu_id m =? id) (store_all s)
  ∧ store_all s' = List.map (with_status id (if synced then Synced else Failed)) (store_all s).
Proof. intros Hs. destruct synced; [exact (law_mark_synced id s Hs)|exact (law_mark_failed id s Hs)]. Qed.

(** Queueing appends to the store or leaves it, whatever comes of it. *)
Lemma queue_value_store v c : let c' := (queue_mutation_value wall v c).1 in
  cl_options c' = cl_options c ∧
  (cl_store c' = cl_store c ∨ ∃ text id, store_queue text (cl_store c) = Some (cl_store c', id)).
Proof.
  assert (∀ v c, let c' := (store_payload v c).1 in cl_options c' = cl_options c ∧
    (cl_store c' = cl_store c ∨ ∃ text id, store_queue text (cl_store c) = Some (cl_store c', id))) as Hs.
  { intros w k. unfold store_payload. destruct (to_text w) as [text|]; [|by split; [|left]].
    destruct (store_queue text (cl_store k)) as [[st id]|] eqn:E; [|by split; [|left]]. split; [done|right; eauto]. }
  unfold queue_mutation_value. destruct v as [| | | | |obj]; try by (split; [|left]).
  unfold bind, gets. destruct (cl_clock c) as [k|]; [|apply Hs]. destruct (negb _); [|apply Hs].
  unfold on_clock, clock_next. destruct (next (hlc k) (wall (readings k))) as [[k' ts]|]; [|by split; [|left]].
  apply (Hs (JObject (bt_insert "updatedAt" (JString ts) obj)) (Build_Client (cl_store c) (cl_options c) (Some (Build_SystemClock k' (S (readings k)))))).
Qed.

Lemma client_call_store call c : let c' := client_call wall pointer call c in
  cl_options c' = cl_options c ∧
  (cl_store c' = cl_store c ∨ (∃ text id, store_queue text (cl_store c) = Some (cl_store c', id))
   ∨ ∃ id synced, call = CallMark id synced
       ∧ cl_store c' = (if synced then store_mark_synced id (cl_store c) else store_mark_failed id (cl_store c)).1).
Proof.
  destruct call as [payload|v|payload|document|id synced]; cbn [client_call].
  - unfold queue_mutation. destruct (from_text payload) as [v|]; [|by split; [|left]].
    destruct (queue_value_store v c) as [? [?|?]]; eauto.
  - destruct (queue_value_store v c) as [? [?|?]]; eauto.
  - destruct (store_queue payload (cl_store c)) as [[st id]|] eqn:E; [|by split; [|left]]. split; [done|]. right. left. eauto.
  - unfold observe_incoming. destruct (from_text document) as [v|]; [|by split; [|left]].
    unfold bind, gets. cbn [id]. destruct (cl_clock c) as [k|]; [|by split; [|left]].
    unfold on_clock. destruct (observe_tree _ _ _ _ _) as [k' r]. by split; [|left].
  - split; [done|]. right. right. by exists id, synced.
Qed.

(** The store after a write and later calls: what was queued before it, the write,
    what was queued since. *)
Definition written (id : N) (text : string) (olds : list (N * string)) (s : St) (before after : list Mutation) : Prop :=
  store_ok s ∧ store_all s = before ++ {| mu_id := id; mu_payload := text; mu_status := Pending |} :: after
  ∧ List.map mu_queued before = olds ∧ id ∉ List.map mu_id (before ++ after).

Lemma client_call_written id text olds call c before after : settles id call = false →
  written id text olds (cl_store c) before after →
  ∃ before' after', written id text olds (cl_store (client_call wall pointer call c)) before' after'.
Proof.
  intros Hset (Hok & Hall & Hids & Hne). destruct (client_call_store call c) as [_ [E|[(t & id' & E)|(id' & synced & -> & E)]]].
  - rewrite E. by exists before, after.
  - destruct (law_queue _ _ _ _ Hok E) as (Hok' & Hfresh & Hall'). exists before. eexists.
    split; [done|]. split; [rewrite Hall', Hall, <- app_assoc; cbn [app]; reflexivity|]. split; [done|].
    rewrite app_assoc, List.map_app, not_elem_of_app. split; [done|]. cbn. rewrite list_elem_of_singleton.
    rewrite Hall in Hfresh. apply Forall_app in Hfresh as [_ [Hx _]%Forall_cons]. done.
  - pose proof (mark_law synced id' (cl_store c) Hok) as Hm. rewrite E. cbn [settles] in Hset.
    destruct (if synced then store_mark_synced _ _ else store_mark_failed _ _) as [st found]. destruct Hm as (Hok' & _ & Hall'). cbn [fst].
    exists (List.map (with_status id' (if synced then Synced else Failed)) before),
           (List.map (with_status id' (if synced then Synced else Failed)) after).
    split; [done|]. rewrite Hall', Hall, List.map_app. cbn [List.map].
    rewrite N.eqb_sym in Hset. rewrite (with_status_written id' id text), Hset. split; [done|]. split; [by rewrite map_with_status_queued|]. rewrite <- List.map_app, map_with_status_ids. done.
Qed.

Lemma client_calls_written id text olds calls : forallb (λ call, negb (settles id call)) calls = true → ∀ c before after,
  written id text olds (cl_store c) before after →
  cl_options (client_calls wall pointer calls c) = cl_options c ∧
  ∃ before' after', written id text olds (cl_store (client_calls wall pointer calls c)) before' after'.
Proof.
  induction calls as [|call calls IH]; cbn [forallb client_calls]; [eauto|].
  intros [Hc%negb_true_iff Hcs]%andb_true_iff c before after Hw.
  destruct (client_call_written _ _ _ _ _ _ _ Hc Hw) as (b & a & Hw').
  destruct (IH Hcs _ _ _ Hw') as [Ho Hex]. split; [|done]. rewrite Ho. apply client_call_store.
Qed.

(** The local views of such a store. *)
Lemma written_view id text olds c before after server : written id text olds (cl_store c) before after →
  let overlay := without_timestamps (cl_options c) in
  local_view c server
  = (let? v := rebase_view overlay server (pending_payloads before) in
     let? v := reconcile v text overlay in rebase_view overlay v (pending_payloads after)) ∧
  ∀ synced, local_view (client_call wall pointer (CallMark id synced) c) server
  = let? v := rebase_view overlay server (pending_payloads before) in rebase_view overlay v (pending_payloads after).
Proof.
  intros (Hok & Hall & _ & Hne). cbv zeta. unfold local_view, rebase_pending. cbn [negb]. split.
  - rewrite (law_pending _ Hok), Hall, List.filter_app, List.map_app. cbn [List.filter mu_status List.map mu_payload].
    rewrite (bool_decide_true (Pending = Pending)) by done. apply rebase_view_app.
  - intros synced. pose proof (mark_law synced id (cl_store c) Hok) as Hm. cbn [client_call cl_store cl_options].
    destruct (if synced then store_mark_synced _ _ else store_mark_failed _ _) as [st found]. destruct Hm as (Hok' & _ & Hall'). cbn [fst].
    rewrite (law_pending _ Hok'), Hall', Hall, List.map_app. cbn [List.map]. rewrite (with_status_written id id text), N.eqb_refl.
    rewrite List.map_app, not_elem_of_app in Hne. destruct Hne as [Hb%ids_ne Ha%ids_ne]. rewrite !with_status_others by done.
    rewrite List.filter_app, List.map_app. cbn [List.filter mu_status].
    rewrite bool_decide_false by by destruct synced. apply rebase_view_join.
Qed.

Lemma observe_incoming_ok payload c c' k :
  cl_clock c = Some k → clock_ok (hlc k) → observe_incoming wall pointer payload c = (c', Ok ()) →
  ∃ value k', from_text payload = Some value ∧ cl_clock c' = Some k' ∧ clock_ok (hlc k')
    ∧ cl_store c' = cl_store c ∧ cl_options c' = cl_options c
    ∧ Forall (λ s, ∀ p, parse_hlc s = Some p →
                before_eq (millis p) (counter p) (ck_millis (hlc k')) (ck_counter (hlc k')))
        (lww_strings pointer (lww_key_list (cl_options c)) value).
Proof.
  intros Hk Hok. unfold observe_incoming. destruct (from_text payload) as [value|]; [|done].
  unfold bind, gets. cbn [id]. rewrite Hk. unfold on_clock. rewrite observe_tree_list.
  destruct (observe_list wall _ k) as [k' r] eqn:Ho. intros [= <- ->].
  destruct (observe_list_ok wall _ _ _ Hok Ho) as (Hok' & _ & Hall). by exists value, k'.
Qed.
End ClientLemmas.

(** ** Closed examples *)

Import InMemory InMemoryLaws.

(** An engine that shows what it was asked: base, incoming and whether it
    resolves by timestamp. *)
#[local] Instance trace_engine : MergeEngine :=
  {| ArrayStrategy := unit; MergeByKey := ();
     try_merge base incoming o :=
       Some (base +:+ (if mo_resolve_by_timestamp o then "+" else "*") +:+ incoming) |}.

#[local] Existing Instance reference_codec.
#[local] Existing Instance reference_codec_laws.

Definition demo_text (v : json) : string := default "" (to_text v).
Definition demo_wall (n : nat) : N := 1000 + N.of_nat n.
Definition no_pointer (node : json) (path : string) : option json := None.
Definition demo_client : Client Store unit :=
  with_clock (new_client InMemory.new [] [])
    (Build_SystemClock {| ck_node_id := "d"; ck_millis := 0; ck_counter := 0; ck_max_drift_ms := 60000;
                          ck_persistence := () |} 0).

(** A nested remote stamp ahead of the wall clock. *)
Definition demo_incoming : json :=
  JObject [("rows", JArray [JObject [("updatedAt", JString "0000000002000-0000-s")]]); ("syncedAt", JNumber (NPosInt 5))].
Definition demo_write : json := JObject [("title", JString "draft")].

Definition demo_observed : Client Store unit :=
  (observe_incoming demo_wall no_pointer (demo_text demo_incoming) demo_client).1.
Definition demo_queued : Client Store unit :=
  (queue_mutation demo_wall (demo_text demo_write) demo_observed).1.

Definition demo_stamped : json :=
  JObject [("title", JString "draft"); ("updatedAt", JString "0000000002000-0001-d")].

Example demo_queue :
  (List.map (λ m, (mu_id m, from_text (mu_payload m), mu_status m)) (store_pending (cl_store demo_queued)),
   (queue_mutation demo_wall (demo_text (JArray [])) demo_observed).2,
   local_view demo_queued "server")
  = ([(0, Some demo_stamped, Pending)], Err (Raised NotAJsonObject),
     Ok ("server*" +:+ demo_text demo_stamped)).
Proof. vm_compute. reflexivity. Qed.

(** ** Properties *)

(** C33: a client reads its own writes.  A write that was queued is stored once,
    as the payload's object with at most an [updatedAt] added to it.  Whatever is
    then queued, observed or marked, as long as the write itself is not marked,
    every local view is the server's document with the pending writes queued
    before it merged in, then the write, never gated by timestamps, then the
    pending writes queued after it; once the write is marked, as synced or as
    failed, the views are those without it. *)
Theorem local_view_reads_own_writes `{MergeEngine} {St P} `{MutationStoreLaws St} `{!ClockPersistence P} `{SerdeJson}
    (wall : nat → N) pointer (c c1 : Client St P) payload id calls :
  store_ok (cl_store c) → queue_mutation wall payload c = (c1, Ok id) →
  forallb (λ call, negb (settles id call)) calls = true →
  let c2 := client_calls wall pointer calls c1 in
  let overlay := without_timestamps (cl_options c) in
  ∃ obj obj' text before after, from_text payload = Some (JObject obj) ∧ to_text (JObject obj') = Some text
    ∧ (∀ k, k ≠ "updatedAt" ∨ is_Some (bt_get "updatedAt" obj) → bt_get k obj' = bt_get k obj)
    ∧ store_all (cl_store c2) = before ++ {| mu_id := id; mu_payload := text; mu_status := Pending |} :: after
    ∧ List.map mu_queued before = List.map mu_queued (store_all (cl_store c)) ∧ (id ∉ List.map mu_id (before ++ after))
    ∧ (∀ server, local_view c2 server
         = (let? v := rebase_view overlay server (pending_payloads before) in
            (let? v := reconcile v text overlay in rebase_view overlay v (pending_payloads after))))
    ∧ (∀ synced server, local_view (client_call wall pointer (CallMark id synced) c2) server
         = (let? v := rebase_view overlay server (pending_payloads before) in
            rebase_view overlay v (pending_payloads after))).
Proof.
  intros Hok Hq Hcalls. destruct (queue_mutation_ok wall payload c c1 id Hok Hq)
    as (obj & obj' & text & Hp & Hst & Ht & Hok' & Hfresh & Hall & Hopt).
  assert (written id text (List.map mu_queued (store_all (cl_store c))) (cl_store c1) (store_all (cl_store c)) []) as Hw.
  { split; [done|]. split; [done|]. split; [done|]. rewrite app_nil_r. by apply ids_ne. }
  destruct (client_calls_written wall pointer _ _ _ _ Hcalls _ _ _ Hw) as (Ho & before & after & Hw').
  cbv zeta. exists obj, obj', text, before, after. split; [done|]. split; [done|]. split; [by eapply stamped_keys|].
  pose proof Hw' as (_ & ? & ? & ?). split; [done|]. split; [done|]. split; [done|]. rewrite <- Hopt, <- Ho.
  split; [|intros synced]; intros server; by apply (written_view wall pointer _ _ _ _ _ _ server Hw').
Qed.

(** A later write, a failed one and an observed document. *)
Definition demo_later : list ClientCall := [CallQueue (demo_text demo_write); CallMark 7 false; CallObserve (demo_text demo_incoming)].

Lemma local_view_reads_own_writes_witness :
  let c2 := client_calls demo_wall no_pointer demo_later demo_queued in
  List.map mu_id (store_all (cl_store c2)) = [0; 1] ∧
  ∃ text after, to_text demo_stamped = Some text ∧
    (∀ server, local_view c2 server
       = let? v := reconcile server text (without_timestamps (cl_options demo_observed)) in
         rebase_view (without_timestamps (cl_options demo_observed)) v (pending_payloads after)) ∧
    List.map mu_id after = [1].
Proof.
  cbv zeta.
  assert (List.map mu_id (store_all (cl_store (client_calls demo_wall no_pointer demo_later demo_queued))) = [0; 1]) as Hall2
    by (vm_compute; reflexivity).
  split; [exact Hall2|].
  destruct (local_view_reads_own_writes demo_wall no_pointer demo_observed demo_queued (demo_text demo_write) 0 demo_later)
    as (obj & obj' & text & before & after & _ & _ & _ & Hall & Hids & _ & Hview & _).
  - split; constructor.
  - vm_compute. reflexivity.
  - vm_compute. reflexivity.
  - assert (store_all (cl_store demo_observed) = []) as E0 by (vm_compute; reflexivity).
    rewrite E0 in Hids. apply map_eq_nil in Hids as ->. exists text, after.
    assert (List.map mu_payload (store_all (cl_store (client_calls demo_wall no_pointer demo_later demo_queued))) =
            text :: List.map mu_payload after) as Hpay by (rewrite Hall; reflexivity).
    assert (List.map mu_id (store_all (cl_store (client_calls demo_wall no_pointer demo_later demo_queued))) =
            0 :: List.map mu_id after) as Hid by (rewrite Hall; reflexivity).
    rewrite Hall2 in Hid. injection Hid as Hid. split; [|split; [exact Hview|congruence]].
    apply (f_equal head) in Hpay. cbn [head] in Hpay. rewrite <- Hpay. vm_compute. reflexivity.
Defined.

(** Causality.  After a document was observed without a refusal, the stamp
    of the next unstamped write comes after every valid timestamp the
    last-write-wins selectors find in that document, at any depth. *)
Theorem observed_then_stamped_after `{MergeEngine} {St P} `{MutationStoreLaws St} `{!ClockPersistence P} `{SerdeJson}
    (wall : nat → N) pointer (c c1 c2 : Client St P) k document payload obj id :
  cl_clock c = Some k → clock_ok (hlc k) → store_ok (cl_store c) →
  observe_incoming wall pointer document c = (c1, Ok ()) →
  from_text payload = Some (JObject obj) → bt_contains "updatedAt" obj = false →
  queue_mutation wall payload c1 = (c2, Ok id) →
  ∃ value ts text, from_text document = Some value
    ∧ to_text (JObject (bt_insert "updatedAt" (JString ts) obj)) = Some text
    ∧ store_all (cl_store c2)
      = store_all (cl_store c) ++ [{| mu_id := id; mu_payload := text; mu_status := Pending |}]
    ∧ Forall (λ s, is_some (parse_hlc s) = true → compare_hlc s ts = Lt)
        (lww_strings pointer (lww_key_list (cl_options c)) value).
Proof.
  intros Hk Hclock Hok Hobs Hp Hu Hq.
  destruct (observe_incoming_ok wall pointer document c c1 k Hk Hclock Hobs)
    as (value & k1 & Hv & Hk1 & Hclock1 & Hst & _ & Hall).
  rewrite <- Hst in Hok. destruct (queue_mutation_ok wall payload c1 c2 id Hok Hq)
    as (obj1 & obj' & text & Hp1 & Hstamp & Ht & _ & _ & Hadd & _).
  rewrite Hp in Hp1. injection Hp1 as <-. unfold stamped in Hstamp. rewrite Hk1, Hu in Hstamp.
  destruct Hstamp as (k2 & ts & Hnext & -> & _).
  exists value, ts, text. rewrite <- Hst. split_and!; try done.
  destruct (next_Some _ _ _ _ Hclock1 Hnext) as (_ & Hts & Hb & _).
  eapply Forall_impl; [exact Hall|]. cbn. intros s Hs. destruct (parse_hlc s) as [p|] eqn:Hp'; [|done]. intros _.
  erewrite compare_format; [|by apply parse_hlc_ok..]. apply before_parts_cmp.
  eapply before_eq_lt_trans; [by apply Hs|exact Hb].
Qed.

Lemma observed_then_stamped_after_witness :
  ∃ value ts text, from_text (demo_text demo_incoming) = Some value
    ∧ to_text (JObject (bt_insert "updatedAt" (JString ts) [("title", JString "draft")])) = Some text
    ∧ store_all (cl_store demo_queued)
      = store_all (cl_store demo_client) ++ [{| mu_id := 0; mu_payload := text; mu_status := Pending |}]
    ∧ Forall (λ s, is_some (parse_hlc s) = true → compare_hlc s ts = Lt)
        (lww_strings no_pointer (lww_key_list (cl_options demo_client)) value).
Proof.
  apply (observed_then_stamped_after demo_wall no_pointer demo_client demo_observed demo_queued
    (Build_SystemClock {| ck_node_id := "d"; ck_millis := 0; ck_counter := 0; ck_max_drift_ms := 60000;
                          ck_persistence := () |} 0)
    (demo_text demo_incoming) (demo_text demo_write) [("title", JString "draft")] 0).
  - reflexivity.
  - split; [vm_compute; discriminate|vm_compute; discriminate|reflexivity].
  - split; constructor.
  - vm_compute. reflexivity.
  - vm_compute. reflexivity.
  - reflexivity.
  - vm_compute. reflexivity.
Defined.
