(* ===== verification/SqliteStore.v ===== *)
(** * SqliteStore: SQLite durability of the protocol client

    Models [clients/rust/src/sqlite.rs].  The five tables are a record, an
    Immediate transaction runs to its commit or leaves them as they were, and
    the tables' constraints (primary keys, CHECK clauses) fail the statement.
    SQLite is not in the repository: which transactions fail, and where, is a
    parameter, as are its [json_valid] and serde's derived encoding of the
    queue.  The application's own tables ride along in the transactions. *)

From S2P Require Import Prelude Text Decimal Btree Json JsonCodec State Client Consistency Protocol ProtocolSync.

Definition SCHEMA_VERSION : Z := 1.

Inductive SqliteStoreError (SqlError : Type) :=
| Sqlite (e : SqlError)
| Json
| Protocol (e : ProtocolError)
| Application (message : string)
| ClientMismatch (expected actual : string)
| UnsupportedSchema (version : Z)
| InvalidRecord (message : string).
Arguments Sqlite {SqlError} e.
Arguments Json {SqlError}.
Arguments Protocol {SqlError} e.
Arguments Application {SqlError} message.
Arguments ClientMismatch {SqlError} expected actual.
Arguments UnsupportedSchema {SqlError} version.
Arguments InvalidRecord {SqlError} message.

Record SqliteRecord := {
  sr_table : string;
  sr_record_id : string;
  sr_record : json;
  sr_revision : option string
}.

(** serde's derived encoding of a queue. *)
Class QueueCodec := {
  queue_to_text : ProtocolQueue → option string;
  queue_from_text : string → option ProtocolQueue
}.

(** ** Sets of record keys, in ascending order *)

Definition Key : Type := string * string.
Definition key_cmp (a b : Key) : comparison :=
  match str_cmp a.1 b.1 with Eq => str_cmp a.2 b.2 | o => o end.

Fixpoint key_insert (k : Key) (ks : list Key) : list Key :=
  match ks with
  | [] => [k]
  | k' :: ks' =>
      match key_cmp k k' with
      | Lt => k :: ks
      | Eq => ks
      | Gt => k' :: key_insert k ks'
      end
  end.

Definition key_extend (ks new : list Key) : list Key := fold_left (λ ks k, key_insert k ks) new ks.

(** ** The tables *)

Record Overlay := {
  ov_table : string;
  ov_record_id : string;
  ov_operation : string;
  ov_payload : option string;
  ov_checkpoint : string
}.
#[export] Instance Overlay_eq_dec : EqDecision Overlay.
Proof. solve_decision. Defined.

(** [schema] and [queue_json] are the single rows of their tables; overlays are
    in [mutation_id] order. *)
Record Tables (App : Type) := {
  schema : option string;
  queue_json : option string;
  authoritative : gmap Key (string * string);
  local : gmap Key string;
  overlays : list (Z * Overlay);
  application : App
}.
Arguments Build_Tables {App} _ _ _ _ _ _.
Arguments schema {App} _.
Arguments queue_json {App} _.
Arguments authoritative {App} _.
Arguments local {App} _.
Arguments overlays {App} _.
Arguments application {App} _.

(** Where a transaction meets a failing statement: beginning it, or after. *)
Inductive Fault (SqlError : Type) :=
| AtBegin (e : SqlError)
| Later (e : SqlError).
Arguments AtBegin {SqlError} e.
Arguments Later {SqlError} e.

Section Store.
Context `{MergeEngine} `{SerdeJson} `{QueueCodec} {App SqlError : Type}.
Context (json_valid : string → bool) (constraint_failed no_rows : SqlError).
(** What happens to the n-th transaction of a connection. *)
Context (faults : nat → option (Fault SqlError)).
Implicit Types (db : Tables App) (q : ProtocolQueue) (k : Key).

Definition Err_t : Type := stop (SqliteStoreError SqlError).
Definition Sql : Type → Type := M (Tables App) Err_t.

Definition set_schema (v : string) db : Tables App :=
  Build_Tables (Some v) (queue_json db) (authoritative db) (local db) (overlays db) (application db).
Definition set_queue_json (t : string) db : Tables App :=
  Build_Tables (schema db) (Some t) (authoritative db) (local db) (overlays db) (application db).
Definition set_authoritative (m : gmap Key (string * string)) db : Tables App :=
  Build_Tables (schema db) (queue_json db) m (local db) (overlays db) (application db).
Definition set_local (m : gmap Key string) db : Tables App :=
  Build_Tables (schema db) (queue_json db) (authoritative db) m (overlays db) (application db).
Definition set_overlays (l : list (Z * Overlay)) db : Tables App :=
  Build_Tables (schema db) (queue_json db) (authoritative db) (local db) l (application db).

Definition raise {A} (e : SqliteStoreError SqlError) : Sql A := fail (Raised e).
Definition invalid {A} (message : string) : Sql A := raise (InvalidRecord message).

(** A CHECK clause. *)
Definition check (b : bool) : Sql unit := if b then ret () else raise (Sqlite constraint_failed).

(** ** The queue row *)

Definition load_queue_from : Sql ProtocolQueue :=
  row ←? gets queue_json;
  match row with
  | None => raise (Sqlite no_rows)
  | Some text =>
      match queue_from_text text with
      | None => raise Json
      | Some q => match validate q with Err e => raise (Protocol e) | Ok _ => ret q end
      end
  end.

Definition persist_queue_in q : Sql unit :=
  match validate q with
  | Err e => raise (Protocol e)
  | Ok _ =>
      match queue_to_text q with
      | None => raise Json
      | Some text =>
          row ←? gets queue_json;
          match row with
          | None => invalid "protocol queue singleton is missing"
          | Some _ => check (json_valid text) ;;? modify (set_queue_json text)
          end
      end
  end.

(** ** Records *)

Definition view_options : ReconcileOptions := without_timestamps Client.default_options.

Definition write_local_record k (record_json : string) : Sql unit :=
  check (json_valid record_json) ;;?
  modify (λ db, set_local (<[k := record_json]> (local db)) db).

Definition delete_local_record k : Sql unit :=
  modify (λ db, set_local (delete k (local db)) db).

Definition overlay_local_record k (payload : json) : Sql unit :=
  base ←? gets (λ db, local db !! k);
  match to_text payload with
  | None => raise Json
  | Some incoming =>
      match reconcile (default "{}" base) incoming view_options with
      | Err _ => invalid "optimistic record merge failed"
      | Ok merged => write_local_record k merged
      end
  end.

Definition change_key (c : Change) : Key := (ch_table c, ch_record_id c).
Definition mutation_key (m : ProtocolMutation) : Key := (table m, record_id m).
Definition overlay_row_key (o : Overlay) : Key := (ov_table o, ov_record_id o).

Definition apply_authoritative_change (c : Change) : Sql unit :=
  match ch_operation c with
  | Upsert =>
      match ch_record c with
      | Some record =>
          if is_object record then
            match to_text record with
            | None => raise Json
            | Some text =>
                check (json_valid text) ;;?
                modify (λ db, set_authoritative (<[change_key c := (text, ch_revision c)]> (authoritative db)) db)
            end
          else invalid "upsert change must contain an object record"
      | None => invalid "upsert change must contain an object record"
      end
  | Delete =>
      if is_some (ch_record c) then invalid "delete change must not contain a record"
      else modify (λ db, set_authoritative (delete (change_key c) (authoritative db)) db)
  end.

(** ** The local view of a record *)

Definition apply_overlay (view : option string) (operation : string) (payload : option string)
  : result (option string) (SqliteStoreError SqlError) :=
  if (operation == "delete") && negb (is_some payload) then Ok None
  else if operation == "upsert" then
    match payload with
    | None => Err (InvalidRecord "upsert overlay is missing its payload")
    | Some payload =>
        match reconcile (default "{}" view) payload view_options with
        | Err _ => Err (InvalidRecord "record overlay failed")
        | Ok merged => Ok (Some merged)
        end
    end
  else Err (InvalidRecord "durable accepted overlay is invalid").

Fixpoint apply_accepted (view : option string) (os : list Overlay)
  : result (option string) (SqliteStoreError SqlError) :=
  match os with
  | [] => Ok view
  | o :: os => let? view := apply_overlay view (ov_operation o) (ov_payload o) in apply_accepted view os
  end.

Fixpoint apply_pending (view : option string) (ms : list ProtocolMutation)
  : result (option string) (SqliteStoreError SqlError) :=
  match ms with
  | [] => Ok view
  | m :: ms =>
      match operation m with
      | Delete => apply_pending None ms
      | Upsert =>
          match payload m with
          | None => Err (InvalidRecord "pending upsert is missing its payload")
          | Some v =>
              match to_text v with
              | None => Err Json
              | Some incoming =>
                  let? view := apply_overlay view "upsert" (Some incoming) in apply_pending view ms
              end
          end
      end
  end.

Definition overlays_at k (l : list (Z * Overlay)) : list Overlay :=
  List.filter (λ o, overlay_row_key o == k) (List.map snd l).
Definition pending_at k q : list ProtocolMutation :=
  List.filter (λ m, mutation_key m == k) (pending q).

Definition rebuild_local_record q k : Sql unit :=
  base ←? gets (λ db, fst <$> authoritative db !! k);
  accepted ←? gets (λ db, overlays_at k (overlays db));
  view ←? lift (map_err Raised
            (let? view := apply_accepted base accepted in apply_pending view (pending_at k q)));
  match view with
  | Some record => write_local_record k record
  | None => delete_local_record k
  end.

Fixpoint rebuild_records q (ks : list Key) : Sql unit :=
  match ks with
  | [] => ret ()
  | k :: ks => rebuild_local_record q k ;;? rebuild_records q ks
  end.

Definition rebuild_all_local q : Sql unit :=
  keys ←? gets (λ db, key_extend (key_extend (key_extend [] (List.map fst (map_to_list (authoritative db))))
                                    (List.map mutation_key (pending q)))
                        (List.map (λ r, overlay_row_key r.2) (overlays db)));
  modify (set_local ∅) ;;?
  rebuild_records q keys.

(** ** Accepted overlays *)

Fixpoint covered_overlays (through : N) (rows : list (Z * Overlay))
  : result (list Z * list Key) (SqliteStoreError SqlError) :=
  match rows with
  | [] => Ok ([], [])
  | (id, o) :: rows =>
      match parse_u64 (ov_checkpoint o) with
      | None => Err (InvalidRecord "durable acknowledgement checkpoint is invalid")
      | Some acknowledged_at =>
          let? (ids, keys) := covered_overlays through rows in
          Ok (if acknowledged_at <=? through then (id :: ids, overlay_row_key o :: keys) else (ids, keys))
      end
  end.

Definition clear_accepted_overlays_through (checkpoint : string) : Sql (list Key) :=
  match parse_u64 checkpoint with
  | None => invalid "pull checkpoint is not a canonical decimal"
  | Some through =>
      rows ←? gets overlays;
      covered ←? lift (map_err Raised (covered_overlays through rows));
      modify (set_overlays (List.filter (λ r, negb (bool_decide (r.1 ∈ covered.1))) rows)) ;;?
      ret (key_extend [] covered.2)
  end.

Definition is_canonical_decimal (value : string) : bool :=
  negb (is_empty value) && ((value == "0") || negb (starts_with "0" value))
  && all_bytes is_ascii_digit value && is_some (parse_u64 value).

(** INSERT .. ON CONFLICT(mutation_id) DO UPDATE. *)
Fixpoint put_overlay (id : Z) (o : Overlay) (l : list (Z * Overlay)) : list (Z * Overlay) :=
  match l with
  | [] => [(id, o)]
  | (id', o') :: l' =>
      match (id ?= id')%Z with
      | Lt => (id, o) :: l
      | Eq => (id, o) :: l'
      | Gt => (id', o') :: put_overlay id o l'
      end
  end.

Definition was_accepted (r : MutationResult) : bool :=
  (res_status r == Applied) || ((res_status r == Duplicate) && (res_original_status r == Some Applied)).

Definition overlay_checks (id : Z) (o : Overlay) : bool :=
  (0 <? id)%Z &&
  match ov_payload o with
  | Some t => (ov_operation o == "upsert") && json_valid t
  | None => ov_operation o == "delete"
  end.

Definition accepted_payload (sent : ProtocolMutation)
  : result (string * option string) (SqliteStoreError SqlError) :=
  match operation sent with
  | Upsert =>
      match payload sent with
      | None => Err (InvalidRecord "accepted upsert is missing its payload")
      | Some v => match to_text v with Some t => Ok ("upsert", Some t) | None => Err Json end
      end
  | Delete => Ok ("delete", None)
  end.

Definition accept_overlay (sent : ProtocolMutation) (r : MutationResult) : Sql unit :=
  match res_checkpoint r with
  | None => invalid "accepted mutation result is missing its checkpoint"
  | Some ck =>
      if negb (is_canonical_decimal ck) then invalid "accepted mutation checkpoint is not a canonical decimal"
      else
        match parse_i64 (mutation_id sent) with
        | None => invalid "accepted mutation id does not fit SQLite INTEGER"
        | Some id =>
            content ←? lift (map_err Raised (accepted_payload sent));
            let o := {| ov_table := table sent; ov_record_id := record_id sent; ov_operation := content.1;
                        ov_payload := content.2; ov_checkpoint := ck |} in
            check (overlay_checks id o) ;;?
            modify (λ db, set_overlays (put_overlay id o (overlays db)) db)
        end
  end.

(** The loop of [persist_acknowledgement] over the answered mutations. *)
Fixpoint accept_results (touched : list Key) (answered : list (ProtocolMutation * MutationResult))
  : Sql (list Key) :=
  match answered with
  | [] => ret touched
  | (sent, r) :: answered =>
      (if was_accepted r then accept_overlay sent r else ret ()) ;;?
      accept_results (key_insert (mutation_key sent) touched) answered
  end.

(** ** Transactions *)

(** A connection: the tables it is open on and the transactions it has begun. *)
Record Connection := { tables : Tables App; begun : nat }.

(** An Immediate transaction with a value the caller keeps ([&mut
    ProtocolQueue]): an error drops the transaction, which rolls back, but what
    was done to the caller's value stays. *)
Definition transaction {Q A} (body : M (Tables App * Q) Err_t A) (x : Q) (c : Connection)
  : Connection * Q * result A Err_t :=
  let stay := {| tables := tables c; begun := S (begun c) |} in
  match faults (begun c) with
  | Some (AtBegin e) => (stay, x, Err (Raised (Sqlite e)))
  | fault =>
      match body (tables c, x), fault with
      | ((_, x'), _), Some (Later e) => (stay, x', Err (Raised (Sqlite e)))
      | ((_, x'), Err e), _ => (stay, x', Err e)
      | ((db', x'), Ok a), _ => ({| tables := db'; begun := S (begun c) |}, x', Ok a)
      end
  end.

Definition on_tables {Q A} (f : Sql A) : M (Tables App * Q) Err_t A :=
  λ s, let '(db, r) := f s.1 in ((db, s.2), r).

Definition sql_transaction {A} (body : Sql A) (c : Connection) : Connection * result A Err_t :=
  let '(c, _, r) := transaction (on_tables body) () c in (c, r).

(** ** Opening *)

Definition initialize (cid : string) (max_pending max_bytes : N) : Sql unit :=
  db ←? gets id;
  match schema db with
  | None => modify (set_schema "1")
  | Some _ => ret ()
  end ;;?
  version ←? gets schema;
  match version with
  | None => raise (Sqlite no_rows)
  | Some text =>
      match parse_i64 text with
      | None => raise (UnsupportedSchema (-1))
      | Some v =>
          if negb (v =? SCHEMA_VERSION)%Z then raise (UnsupportedSchema v)
          else
            match with_limits cid max_pending max_bytes with
            | Err e => raise (Protocol e)
            | Ok initial =>
                match queue_to_text initial with
                | None => raise Json
                | Some text =>
                    db ←? gets id;
                    (if is_some (queue_json db) || negb (json_valid text) then ret ()
                     else modify (set_queue_json text)) ;;?
                    q ←? load_queue_from;
                    if client_id q == cid then ret ()
                    else raise (ClientMismatch cid (client_id q))
                end
            end
      end
  end.

Definition open_with_limits (cid : string) (max_pending max_bytes : N) (db : Tables App)
  : Connection * result unit Err_t :=
  sql_transaction (initialize cid max_pending max_bytes) {| tables := db; begun := 0 |}.

Definition open_store (cid : string) (db : Tables App) : Connection * result unit Err_t :=
  open_with_limits cid DEFAULT_MAX_PENDING_MUTATIONS DEFAULT_MAX_QUEUED_PAYLOAD_BYTES db.

(** ** Queueing *)

(** A queue operation inside a transaction. *)
Definition on_queue {A} (op : ProtocolQueue → ProtocolQueue * result A ProtocolError) q : Sql (ProtocolQueue * A) :=
  match op q with
  | (_, Err e) => raise (Protocol e)
  | (q', Ok a) => ret (q', a)
  end.

Definition queue_upsert_in (tbl rid : string) (payload : json) (base : option string) (resurrect : bool)
    (apply_optimistic : string → json → Sql unit) : Sql string :=
  q ←? load_queue_from;
  queued ←? on_queue (λ q, queue_upsert q tbl rid payload base resurrect) q;
  apply_optimistic queued.2 payload ;;?
  persist_queue_in queued.1 ;;?
  ret queued.2.

Definition queue_upsert_with tbl rid payload base resurrect apply_optimistic : Connection → Connection * result string Err_t :=
  sql_transaction (queue_upsert_in tbl rid payload base resurrect apply_optimistic).

Definition queue_delete_in (tbl rid : string) (base : option string) (apply_optimistic : string → Sql unit)
  : Sql string :=
  q ←? load_queue_from;
  queued ←? on_queue (λ q, queue_delete q tbl rid base) q;
  apply_optimistic queued.2 ;;?
  persist_queue_in queued.1 ;;?
  ret queued.2.

Definition queue_delete_with tbl rid base apply_optimistic : Connection → Connection * result string Err_t :=
  sql_transaction (queue_delete_in tbl rid base apply_optimistic).

Definition queue_upsert_record (tbl rid : string) (payload : json) (base : option string) (resurrect : bool)
  : Connection → Connection * result string Err_t :=
  queue_upsert_with tbl rid payload base resurrect (λ _ payload, overlay_local_record (tbl, rid) payload).

Definition queue_delete_record (tbl rid : string) (base : option string)
  : Connection → Connection * result string Err_t :=
  queue_delete_with tbl rid base (λ _, delete_local_record (tbl, rid)).

(** ** Reading *)

Definition load_queue : Sql ProtocolQueue := load_queue_from.

Definition read_record (has_revision : bool) (tbl rid : string) : Sql (option SqliteRecord) :=
  row ←? gets (λ db, if has_revision then (λ r, (r.1, Some r.2)) <$> authoritative db !! (tbl, rid)
                     else (λ r, (r, None)) <$> local db !! (tbl, rid));
  match row with
  | None => ret None
  | Some (text, revision) =>
      match from_text text with
      | None => raise Json
      | Some record =>
          ret (Some {| sr_table := tbl; sr_record_id := rid; sr_record := record; sr_revision := revision |})
      end
  end.

Definition local_record (tbl rid : string) : Sql (option SqliteRecord) := read_record false tbl rid.
Definition authoritative_record (tbl rid : string) : Sql (option SqliteRecord) := read_record true tbl rid.

(** ** The transactional store of the sync driver *)

(** [queue.merge_concurrent_durable(&load_queue_from(&transaction)?)?] *)
Definition merge_durable : M (Tables App * ProtocolQueue) Err_t ProtocolQueue :=
  durable ←? on_tables load_queue_from;
  λ s, match merge_concurrent_durable s.2 durable with
       | None => (s, Err Unwound)
       | Some (q, Err e) => ((s.1, q), Err (Raised (Protocol e)))
       | Some (q, Ok _) => ((s.1, q), Ok q)
       end.

Definition persist_queue q (c : Connection) : Connection * ProtocolQueue * result unit Err_t :=
  transaction (q ←? merge_durable; on_tables (persist_queue_in q)) q c.

Definition acknowledgement_in (request : PushRequest) (response : PushResponse) q : Sql unit :=
  touched ←? accept_results [] (combine (req_mutations request) (resp_results response));
  cleared ←? clear_accepted_overlays_through (checkpoint q);
  rebuild_records q (key_extend touched cleared) ;;?
  persist_queue_in q.

Definition persist_acknowledgement q (request : PushRequest) (response : PushResponse) (c : Connection)
  : Connection * ProtocolQueue * result unit Err_t :=
  transaction (q ←? merge_durable; on_tables (acknowledgement_in request response q)) q c.

Fixpoint apply_changes (touched : list Key) (changes : list Change) : Sql (list Key) :=
  match changes with
  | [] => ret touched
  | c :: changes =>
      apply_authoritative_change c ;;?
      apply_changes (key_insert (change_key c) touched) changes
  end.

Definition changes_in (changes : list Change) q : Sql unit :=
  cleared ←? clear_accepted_overlays_through (checkpoint q);
  touched ←? apply_changes cleared changes;
  rebuild_records q touched ;;?
  persist_queue_in q.

Definition apply_changes_and_persist (changes : list Change) q (c : Connection)
  : Connection * ProtocolQueue * result unit Err_t :=
  transaction (q ←? merge_durable; on_tables (changes_in changes q)) q c.

Definition snapshot_key (r : SnapshotRecord) : Key := (snap_table r, snap_record_id r).

(** A plain INSERT: the primary key must be new. *)
Fixpoint insert_snapshot (records : list SnapshotRecord) : Sql unit :=
  match records with
  | [] => ret ()
  | r :: records =>
      if negb (is_object (snap_record r)) then invalid "snapshot record must be a JSON object"
      else
        match to_text (snap_record r) with
        | None => raise Json
        | Some text =>
            rows ←? gets authoritative;
            check (negb (is_some (rows !! snapshot_key r)) && json_valid text) ;;?
            modify (set_authoritative (<[snapshot_key r := (text, snap_revision r)]> rows)) ;;?
            insert_snapshot records
        end
  end.

Definition snapshot_in (records : list SnapshotRecord) q : Sql unit :=
  clear_accepted_overlays_through (checkpoint q) ;;?
  modify (set_authoritative ∅) ;;?
  insert_snapshot records ;;?
  rebuild_all_local q ;;?
  persist_queue_in q.

Definition replace_authoritative_and_persist (records : list SnapshotRecord) q (c : Connection)
  : Connection * ProtocolQueue * result unit Err_t :=
  transaction (q ←? merge_durable; on_tables (snapshot_in records q)) q c.
End Store.
Arguments Connection : clear implicits.
Arguments tables {App} _.
Arguments begun {App} _.

(** ** Specification *)

(** The queue's text nests a payload in the queue, its mutations and the mutation. *)
Definition wire_payload (v : json) : Prop := readable (MAX_NESTING - 3) v.

(** A queue of the source's types whose payloads serde_json reads back. *)
Record wire_queue (q : ProtocolQueue) : Prop := {
  wq_limits : max_pending_mutations q ≤ u64_max ∧ max_queued_payload_bytes q ≤ u64_max;
  wq_policies : bt_sorted (consistency_policies q);
  wq_payloads : Forall (λ m, ∀ v, payload m = Some v → wire_payload v) (mutations q)
}.

(** serde prints every queue, and reads back what it printed of a well-formed one
    whose payloads it can read back. *)
Class SqliteLaws `{SerdeJson} `{QueueCodec} : Prop := {
  queue_text_total q : is_Some (queue_to_text q);
  queue_round_trip q t : queue_ok q → wire_queue q → queue_to_text q = Some t → queue_from_text t = Some q
}.

Section Spec.
Context `{MergeEngine} `{SerdeJson} `{QueueCodec} {App SqlError : Type}.
Implicit Types (db : Tables App) (q : ProtocolQueue) (k : Key).

(** The application's own tables. *)
Definition set_application (a : App) db : Tables App :=
  Build_Tables (schema db) (queue_json db) (authoritative db) (local db) (overlays db) a.

(** A database before the store is first opened on it. *)
Definition empty_tables (a : App) : Tables App := Build_Tables None None ∅ ∅ [] a.

(** What a record shows: its authoritative row under the accepted overlays in
    id order under the pending mutations in queue order. *)
Definition record_view db q k : result (option string) (SqliteStoreError SqlError) :=
  let? view := apply_accepted (fst <$> authoritative db !! k) (overlays_at k (overlays db)) in
  apply_pending view (pending_at k q).

(** An overlay is on the record of the mutation it came from. *)
Definition overlay_ok q (r : Z * Overlay) : Prop :=
  (0 < r.1 < Z.of_N (next_mutation_id q))%Z ∧
  ∀ m, m ∈ mutations q → Z.of_N (row_id m) = r.1 → mutation_key m = overlay_row_key r.2.

Definition overlays_ok q (l : list (Z * Overlay)) : Prop :=
  StronglySorted Z.lt (List.map fst l) ∧ Forall (overlay_ok q) l.

Record store_ok db q : Prop := {
  so_schema : schema db = Some "1";
  so_queue : ∃ t, queue_json db = Some t ∧ queue_from_text t = Some q;
  so_valid : queue_ok q;
  so_overlays : overlays_ok q (overlays db);
  so_view : ∀ k, record_view db q k = Ok (local db !! k);
  so_wire : wire_queue q
}.

(** The overlay an accepted answer leaves. *)
Record overlay_of (sent : ProtocolMutation) (r : MutationResult) (o : Overlay) : Prop := {
  oo_key : overlay_row_key o = mutation_key sent;
  oo_checkpoint : res_checkpoint r = Some (ov_checkpoint o);
  oo_content : @accepted_payload _ SqlError sent = Ok (ov_operation o, ov_payload o)
}.

(** The queue has pulled past the acknowledgement of the overlay. *)
Definition covered q (o : Overlay) : Prop :=
  ∃ a t, parse_u64 (ov_checkpoint o) = Some a ∧ parse_u64 (checkpoint q) = Some t ∧ a ≤ t.

(** The clone [q] does not confirm a mutation of [k] that the disk still holds
    as pending. *)
Definition no_news q d k : Prop :=
  ∀ m, m ∈ mutations q → mutation_key m = k → status m = Confirmed →
  ∃ x, x ∈ mutations d ∧ mutation_id x = mutation_id m ∧ status x = Confirmed.
End Spec.

(** ** Lemmas *)

(** *** Sets of keys *)

Lemma key_cmp_eq a b : key_cmp a b = Eq ↔ a = b.
Proof.
  unfold key_cmp. destruct a as [a1 a2], b as [b1 b2]. cbn [fst snd]. destruct (str_cmp a1 b1) eqn:E1.
  - apply str_cmp_eq in E1 as ->. rewrite (str_cmp_eq a2 b2). split; [by intros ->|by intros [= ->]].
  - split; [done|]. intros [= -> ->]. by rewrite str_cmp_refl in E1.
  - split; [done|]. intros [= -> ->]. by rewrite str_cmp_refl in E1.
Qed.

Lemma elem_of_key_insert k k' ks : k' ∈ key_insert k ks ↔ k' = k ∨ k' ∈ ks.
Proof.
  induction ks as [|x ks IH]; cbn; [by rewrite list_elem_of_singleton, elem_of_nil; intuition|].
  destruct (key_cmp k x) eqn:E; rewrite ?elem_of_cons, ?IH; [apply key_cmp_eq in E as ->|..]; tauto.
Qed.

Lemma elem_of_key_extend k new : ∀ ks, k ∈ key_extend ks new ↔ k ∈ ks ∨ k ∈ new.
Proof.
  induction new as [|x new IH]; intros ks; cbn; [by rewrite elem_of_nil; intuition|].
  fold (key_extend (key_insert x ks) new). rewrite IH, elem_of_key_insert, elem_of_cons. tauto.
Qed.

Section Lemmas.
Context `{MergeEngine} `{SerdeJson} `{QueueCodec} {App SqlError : Type}.
Context (json_valid : string → bool) (constraint_failed no_rows : SqlError).
Implicit Types (db : Tables App) (q : ProtocolQueue) (k : Key).

#[local] Abbreviation Sql := (@Sql App SqlError).

(** *** Statements *)

Lemma check_ok b db db' x : @check App _ constraint_failed b db = (db', Ok x) → b = true ∧ db' = db.
Proof. unfold check. destruct b; by intros [= <-]. Qed.

Lemma load_ok db db' q : load_queue_from (SqlError := SqlError) no_rows db = (db', Ok q) →
  db' = db ∧ ∃ t, queue_json db = Some t ∧ queue_from_text t = Some q ∧ queue_ok q.
Proof.
  unfold load_queue_from, bind, gets. destruct (queue_json db) as [t|]; [|done].
  destruct (queue_from_text t) as [q'|] eqn:Ht; [|done]. destruct (validate q') as [[]|e] eqn:Hv; [|done].
  intros [= <- <-]. split; [done|]. exists t. by rewrite <- validate_iff.
Qed.

Lemma load_accepts db t q : queue_json db = Some t → queue_from_text t = Some q → queue_ok q →
  load_queue_from (SqlError := SqlError) no_rows db = (db, Ok q).
Proof.
  intros Hj Ht Hq%validate_iff. unfold load_queue_from, bind, gets. by rewrite Hj, Ht, Hq.
Qed.

Lemma persist_ok q db db' : persist_queue_in json_valid constraint_failed q db = (db', Ok ()) →
  queue_ok q ∧ ∃ t, queue_to_text q = Some t ∧ json_valid t = true ∧ is_Some (queue_json db)
                    ∧ db' = set_queue_json t db.
Proof.
  unfold persist_queue_in. destruct (validate q) as [[]|e] eqn:Hv; [|done]. apply validate_iff in Hv.
  destruct (queue_to_text q) as [t|]; [|done]. intros Hrun. run_ok Hrun.
  injection Hrun0 as <- <-. destruct (queue_json db) as [t0|] eqn:Hj; [|done]. run_ok Hrun.
  apply check_ok in Hrun0 as [Hjv ->]. injection Hrun as <-.
  split; [done|]. exists t. split; [done|]. split; [done|]. by split; [eauto|].
Qed.

Lemma write_local_ok k r db db' : write_local_record json_valid constraint_failed k r db = (db', Ok ()) →
  db' = set_local (<[k := r]> (local db)) db.
Proof. unfold write_local_record. intros Hrun. run_ok Hrun. apply check_ok in Hrun0 as [_ ->]. by injection Hrun as <-. Qed.

Lemma overlays_ok_filter q p l : overlays_ok q l → overlays_ok q (List.filter p l).
Proof.
  intros [Hs Hall]. split; [|by apply Forall_filter_bool]. clear Hall. induction l as [|[i o] l IH]; [done|].
  cbn in Hs. apply StronglySorted_inv in Hs as [Hs Hlt]. cbn [List.filter]. specialize (IH Hs).
  destruct (p (i, o)); [|done]. cbn. constructor; [done|]. rewrite Forall_forall in *.
  intros z (r & -> & [Hr _]%elem_of_filter_bool)%list_elem_of_fmap. apply Hlt. by apply (list_elem_of_fmap_2 fst).
Qed.

(** *** Rebuilding the local view *)

Lemma rebuild_local_ok q k db db' : rebuild_local_record json_valid constraint_failed q k db = (db', Ok ()) →
  ∃ m, db' = set_local m db ∧ record_view (SqlError := SqlError) db q k = Ok (m !! k)
       ∧ ∀ k', k' ≠ k → m !! k' = local db !! k'.
Proof.
  unfold rebuild_local_record, record_view. intros Hrun. run_ok Hrun.
  injection Hrun0 as <- <-. injection Hrun1 as <- <-. cbn in Hrun2. injection Hrun2 as <- Hview.
  destruct (apply_accepted _ _) as [v|e]; [|done]. cbn in *.
  destruct (apply_pending v (pending_at k q)) as [view|e]; [|done]. injection Hview as ->.
  destruct a1 as [r|].
  - apply write_local_ok in Hrun as ->. eexists. split; [done|].
    split; [by rewrite lookup_insert_eq|]. intros k' Hne. by rewrite lookup_insert_ne.
  - injection Hrun as <-. eexists. split; [done|].
    split; [by rewrite lookup_delete_eq|]. intros k' Hne. by rewrite lookup_delete_ne.
Qed.

Lemma rebuild_records_ok q ks : ∀ db db', rebuild_records json_valid constraint_failed q ks db = (db', Ok ()) →
  ∃ m, db' = set_local m db
       ∧ (∀ k, k ∈ ks → record_view (SqlError := SqlError) db q k = Ok (m !! k))
       ∧ ∀ k, k ∉ ks → m !! k = local db !! k.
Proof.
  induction ks as [|k ks IH]; intros db db' Hrun; cbn in Hrun.
  { injection Hrun as <-. exists (local db). split; [by destruct db|]. split; [|done]. by intros k ?%elem_of_nil. }
  run_ok Hrun. destruct a. apply rebuild_local_ok in Hrun0 as (m1 & -> & Hk & Hother).
  apply IH in Hrun as (m & -> & Hin & Hout). exists m. split; [done|]. split.
  - intros k' Hk'. destruct (decide (k' ∈ ks)) as [Hin'|Hno]; [by apply (Hin k')|].
    apply elem_of_cons in Hk' as [->|]; [|done]. rewrite Hk. f_equal. by rewrite (Hout k).
  - intros k' [Hne Hno]%not_elem_of_cons. rewrite (Hout k') by done. by apply Hother.
Qed.

(** *** Overlays *)

Lemma overlays_at_cons k r l :
  overlays_at k (r :: l) = if overlay_row_key r.2 == k then r.2 :: overlays_at k l else overlays_at k l.
Proof. done. Qed.

Lemma overlays_at_filter k (p : Z * Overlay → bool) l :
  (∀ r, r ∈ l → p r = false → overlay_row_key r.2 ≠ k) →
  overlays_at k (List.filter p l) = overlays_at k l.
Proof.
  induction l as [|r l IH]; intros Hp; [done|]. cbn [List.filter]. rewrite (overlays_at_cons k r l).
  assert (overlays_at k (List.filter p l) = overlays_at k l) as <-
    by (apply IH; intros r' Hr'; apply Hp, elem_of_cons; by right).
  destruct (p r) eqn:E; [done|]. rewrite bool_decide_false; [done|]. apply Hp; [apply elem_of_cons; by left|done].
Qed.

Lemma covered_ok through rows : ∀ ids keys,
  covered_overlays (SqlError := SqlError) through rows = Ok (ids, keys) →
  ∀ id, (id ∈ ids → ∃ o a, (id, o) ∈ rows ∧ overlay_row_key o ∈ keys
                            ∧ parse_u64 (ov_checkpoint o) = Some a ∧ a ≤ through).
Proof.
  induction rows as [|[id o] rows IH]; intros ids keys; cbn; [by intros [= <- <-] ? ?%elem_of_nil|].
  destruct (parse_u64 (ov_checkpoint o)) as [a|] eqn:Ha; [|done].
  destruct (covered_overlays through rows) as [[ids' keys']|e]; [|done]. cbn.
  destruct (N.leb_spec a through) as [Hle|Hgt]; intros [= <- <-] id'.
  - intros [->|Hin]%elem_of_cons.
    + exists o, a. split; [apply elem_of_cons; by left|]. split; [apply elem_of_cons; by left|done].
    + destruct (IH _ _ eq_refl id' Hin) as (o' & a' & Hx1 & Hx2 & Hx3).
      exists o', a'. split; [apply elem_of_cons; by right|]. split; [apply elem_of_cons; by right|done].
  - intros Hin. destruct (IH _ _ eq_refl id' Hin) as (o' & a' & Hx1 & Hx2 & Hx3).
    exists o', a'. split; [apply elem_of_cons; by right|done].
Qed.

Lemma sorted_fst_inj (l : list (Z * Overlay)) id o o' : StronglySorted Z.lt (List.map fst l) →
  (id, o) ∈ l → (id, o') ∈ l → o = o'.
Proof.
  induction l as [|[i x] l IH]; cbn; [by intros _ ?%elem_of_nil|]. intros Hs. inversion_clear Hs as [|? ? Hs' Hall].
  rewrite Forall_forall in Hall.
  intros [E1|Hx1]%elem_of_cons [E2|Hx2]%elem_of_cons; simplify_eq; [done| | |by eapply IH];
    (assert (i < i)%Z; [|lia]); apply Hall.
  - by apply (list_elem_of_fmap_2 fst) in Hx2.
  - by apply (list_elem_of_fmap_2 fst) in Hx1.
Qed.

(** What [clear_accepted_overlays_through] removes. *)
Lemma clear_ok ck db db' keys :
  StronglySorted Z.lt (List.map fst (overlays db)) →
  clear_accepted_overlays_through (App := App) (SqlError := SqlError) ck db = (db', Ok keys) →
  ∃ l, db' = set_overlays l db
       ∧ (∃ p, l = List.filter p (overlays db))
       ∧ (∀ k, k ∉ keys → overlays_at k l = overlays_at k (overlays db))
       ∧ ∀ q r, checkpoint q = ck → r ∈ overlays db → r ∈ l ∨ covered q r.2.
Proof.
  intros Hs. unfold clear_accepted_overlays_through. destruct (parse_u64 ck) as [t|] eqn:Hck; [|done].
  intros Hrun. run_ok Hrun. injection Hrun0 as <- <-. cbn in Hrun1. injection Hrun1 as <- Hc.
  destruct (covered_overlays t (overlays db)) as [[ids ks]|e] eqn:Hcov; [|done]. injection Hc as <-.
  injection Hrun2 as <- <-. injection Hrun as <- <-. cbn [fst snd].
  pose proof (covered_ok _ _ _ _ Hcov) as Hids.
  assert (∀ r, r ∈ overlays db → r.1 ∈ ids →
            overlay_row_key r.2 ∈ ks ∧ ∃ a, parse_u64 (ov_checkpoint r.2) = Some a ∧ a ≤ t) as Hrem.
  { intros [id o] Hr Hin. destruct (Hids id Hin) as (o' & a & Ho' & Hk & Ha & Hle).
    rewrite (sorted_fst_inj _ id o o' Hs Hr Ho'). cbn. eauto. }
  eexists. split; [done|]. split; [by eexists|]. split.
  - intros k Hk. apply overlays_at_filter. intros r Hr Hp%negb_false_iff%bool_decide_eq_true Hkey.
    apply Hk. rewrite elem_of_key_extend. right. rewrite <- Hkey. by apply Hrem.
  - intros q r Hq Hr. destruct (decide (r.1 ∈ ids)) as [Hin|Hno].
    + right. destruct (Hrem r Hr Hin) as (_ & a & Ha & Hle). exists a, t. rewrite Hq. eauto.
    + left. apply elem_of_filter_bool. by rewrite bool_decide_false.
Qed.

Lemma put_overlay_In id o l r : r ∈ put_overlay id o l → r = (id, o) ∨ r ∈ l.
Proof.
  induction l as [|[i x] l IH]; cbn; [by intros ->%list_elem_of_singleton; left|].
  destruct (id ?= i)%Z; rewrite ?elem_of_cons; tauto.
Qed.

Lemma put_overlay_new id o l : (id, o) ∈ put_overlay id o l.
Proof.
  induction l as [|[i x] l IH]; cbn; [by apply list_elem_of_singleton|].
  destruct (id ?= i)%Z; rewrite elem_of_cons; tauto.
Qed.

Lemma put_overlay_keeps id o l r : r ∈ l → r.1 ≠ id → r ∈ put_overlay id o l.
Proof.
  induction l as [|[i x] l IH]; cbn; [by intros ?%elem_of_nil|]. intros Hr Hne.
  apply elem_of_cons in Hr as [->|Hr]; destruct (Z.compare_spec id i); subst; rewrite ?elem_of_cons; try done; tauto.
Qed.

Lemma put_overlay_sorted id o l : StronglySorted Z.lt (List.map fst l) →
  StronglySorted Z.lt (List.map fst (put_overlay id o l)).
Proof.
  induction l as [|[i x] l IH]; cbn; [by repeat constructor|]. intros Hs.
  pose proof Hs as [Hs' Hall]%StronglySorted_inv. destruct (Z.compare_spec id i) as [->|Hlt|Hgt]; cbn.
  - by constructor.
  - constructor; [done|]. constructor; [done|]. eapply Forall_impl; [exact Hall|]. cbn. lia.
  - constructor; [by apply IH|]. apply Forall_forall. intros z (r & -> & Hr)%list_elem_of_fmap.
    apply put_overlay_In in Hr as [->|Hr]; [cbn; lia|]. rewrite Forall_forall in Hall. apply Hall.
    by apply (list_elem_of_fmap_2 fst).
Qed.

Lemma put_overlay_at id o l k : overlay_row_key o ≠ k →
  (∀ o', (id, o') ∈ l → overlay_row_key o' ≠ k) → overlays_at k (put_overlay id o l) = overlays_at k l.
Proof.
  intros Ho. induction l as [|[i x] l IH]; intros Hl; cbn [put_overlay].
  - rewrite overlays_at_cons, bool_decide_false by done. done.
  - destruct (Z.compare_spec id i) as [->|Hlt|Hgt]; rewrite !overlays_at_cons; cbn [snd].
    + rewrite !bool_decide_false; [done| |done]. apply Hl, elem_of_cons. by left.
    + by rewrite (bool_decide_false (overlay_row_key o = k)).
    + rewrite IH; [done|]. intros o' Ho'. apply Hl, elem_of_cons. by right.
Qed.

Lemma accept_overlay_ok sent r db db' : accept_overlay json_valid constraint_failed sent r db = (db', Ok ()) →
  ∃ id o, db' = set_overlays (put_overlay id o (overlays db)) db ∧ parse_i64 (mutation_id sent) = Some id
          ∧ overlay_of (SqlError := SqlError) sent r o.
Proof.
  unfold accept_overlay. destruct (res_checkpoint r) as [ck|] eqn:Hck; [|done].
  destruct (negb _); [done|]. destruct (parse_i64 (mutation_id sent)) as [id|]; [|done]. intros Hrun. run_ok Hrun.
  cbn in Hrun0. injection Hrun0 as <- Hc. destruct (accepted_payload sent) as [[op pl]|e] eqn:Hp; [|done].
  injection Hc as <-. destruct a0. apply check_ok in Hrun1 as [_ ->]. injection Hrun as <-.
  exists id. eexists. split; [done|]. split; [done|]. split; [done|exact Hck|exact Hp].
Qed.

(** The mutations a batch answers, as rows of the queue. *)
Definition batch_of q (ms : list ProtocolMutation) : Prop :=
  Forall (λ sent, ∃ m, m ∈ mutations q ∧ mutation_id m = mutation_id sent ∧ mutation_key m = mutation_key sent) ms.

Lemma batch_row q sent id : queue_ok q →
  (∃ m, m ∈ mutations q ∧ mutation_id m = mutation_id sent ∧ mutation_key m = mutation_key sent) →
  parse_i64 (mutation_id sent) = Some id →
  id = Z.of_N (row_id sent) ∧ (0 < id < Z.of_N (next_mutation_id q))%Z
  ∧ ∀ m, m ∈ mutations q → row_id m = row_id sent → mutation_key m = mutation_key sent.
Proof.
  intros Hq (m & Hm & Hid & Hkey) Hp. assert (row_id m = row_id sent) as Hrow by (unfold row_id; by rewrite Hid).
  pose proof (ok_rows _ Hq) as Hrows. rewrite Forall_forall in Hrows. destruct (Hrows m Hm) as [Heq Hlo Hhi _ _ _ _].
  rewrite <- Hid, Heq, Hrow, parse_i64_canonical in Hp by apply canonical_to_dec.
  rewrite decimal_of_to_dec in Hp. destruct (_ <=? _); [|done]. injection Hp as <-.
  split; [done|]. split; [lia|]. intros m' Hm' Hrow'. rewrite <- Hkey. f_equal.
  apply (mutation_id_inj q); [done..|].
  rewrite (row_ok_id _ _ _ (Hrows m' Hm')), Heq. by rewrite Hrow', Hrow.
Qed.

Lemma put_overlays_ok q sent r id o l : queue_ok q →
  (∃ m, m ∈ mutations q ∧ mutation_id m = mutation_id sent ∧ mutation_key m = mutation_key sent) →
  parse_i64 (mutation_id sent) = Some id → overlay_of (SqlError := SqlError) sent r o → overlays_ok q l →
  overlays_ok q (put_overlay id o l) ∧ ∀ k, k ≠ mutation_key sent → overlays_at k (put_overlay id o l) = overlays_at k l.
Proof.
  intros Hq Hm Hp Hof [Hs Hall]. destruct (batch_row q sent id Hq Hm Hp) as (-> & Hlt & Hrow).
  pose proof (oo_key _ _ _ Hof) as Hkey. split; [split; [by apply put_overlay_sorted|]|].
  - apply Forall_forall. intros x [->|Hx]%put_overlay_In; [|rewrite Forall_forall in Hall; by apply Hall].
    split; [done|]. cbn [fst snd]. intros m' Hm' E. rewrite Hkey. apply Hrow; [done|lia].
  - intros k Hne. apply put_overlay_at; [by rewrite Hkey; intros <-|].
    intros o' Ho' Hk. rewrite Forall_forall in Hall. destruct (Hall _ Ho') as [_ Hold]. cbn in Hold.
    destruct Hm as (m & Hm & Hid & Hmk). apply Hne. rewrite <- Hk, <- Hmk. symmetry. apply Hold; [done|].
    unfold row_id. by rewrite Hid.
Qed.

(** The loop over the answers: overlays stay well-formed, only touched records
    change theirs, no overlay is dropped, and every accepted answer leaves one. *)
Lemma accept_results_ok q answered : queue_ok q → batch_of q (List.map fst answered) →
  ∀ touched db db' touched', overlays_ok q (overlays db) →
  accept_results json_valid constraint_failed touched answered db = (db', Ok touched') →
  ∃ l, db' = set_overlays l db ∧ overlays_ok q l
    ∧ (∀ k, k ∈ touched' ↔ k ∈ touched ∨ ∃ a, a ∈ answered ∧ mutation_key a.1 = k)
    ∧ (∀ k, k ∉ touched' → overlays_at k l = overlays_at k (overlays db))
    ∧ (∀ id o, (id, o) ∈ overlays db → (∀ a, a ∈ answered → id ≠ Z.of_N (row_id a.1)) → (id, o) ∈ l)
    ∧ (NoDup (List.map (λ a, row_id a.1) answered) →
       ∀ sent r, (sent, r) ∈ answered → was_accepted r = true →
       ∃ o, (Z.of_N (row_id sent), o) ∈ l ∧ overlay_of (SqlError := SqlError) sent r o).
Proof.
  intros Hq. induction answered as [|[sent r] answered IH]; intros Hb touched db db' touched' Hok; cbn [accept_results].
  { intros [= <- <-]. exists (overlays db). split; [by destruct db|]. split; [done|]. split.
    - intros k. split; [by left|]. by intros [?|(a & Ha%elem_of_nil & _)].
    - split; [done|]. split; [done|]. by intros _ ? ? ?%elem_of_nil. }
  apply Forall_cons in Hb as [Hsent Hb]. intros Hrun. run_ok Hrun. destruct a.
  assert (∃ l1, s = set_overlays l1 db ∧ overlays_ok q l1
    ∧ (∀ k, k ≠ mutation_key sent → overlays_at k l1 = overlays_at k (overlays db))
    ∧ (∀ id o, (id, o) ∈ overlays db → id ≠ Z.of_N (row_id sent) → (id, o) ∈ l1)
    ∧ (was_accepted r = true → ∃ o, (Z.of_N (row_id sent), o) ∈ l1 ∧ overlay_of (SqlError := SqlError) sent r o))
    as (l1 & -> & Hok1 & Hat1 & Hkeep1 & Hnew1).
  { destruct (was_accepted r).
    - apply accept_overlay_ok in Hrun0 as (id & o & -> & Hp & Hof).
      destruct (put_overlays_ok q sent r id o (overlays db) Hq Hsent Hp Hof Hok) as [Hok1 Hat].
      destruct (batch_row q sent id Hq Hsent Hp) as (-> & _).
      eexists. split; [done|]. split; [done|]. split; [done|]. split.
      + intros id' o' Hin Hne. by apply put_overlay_keeps.
      + intros _. exists o. split; [apply put_overlay_new|done].
    - injection Hrun0 as <-. exists (overlays db). split; [by destruct db|]. by split. }
  destruct (IH Hb _ (set_overlays l1 db) _ _ Hok1 Hrun) as (l & -> & Hok2 & Hmem & Hat & Hkeep & Hnew).
  exists l. split; [done|]. split; [done|]. split; [|split; [|split]].
  - intros k. rewrite Hmem, elem_of_key_insert. setoid_rewrite elem_of_cons. split.
    + intros [[->|?]|(a & ? & ?)]; [right; exists (sent, r); by split; [left|]|by left|right; exists a; by split; [right|]].
    + intros [?|(a & [->|?] & ?)]; [by left; right|left; by left|right; by exists a].
  - intros k Hk. rewrite (Hat k Hk). apply Hat1. intros ->. apply Hk, Hmem. left. apply elem_of_key_insert. by left.
  - intros id o Hin Hne. apply Hkeep.
    + apply Hkeep1; [done|]. apply (Hne (sent, r)), elem_of_cons. by left.
    + intros a Ha. apply Hne, elem_of_cons. by right.
  - intros [Hnotin Hnd]%NoDup_cons sent' r' [[= -> ->]|Hin]%elem_of_cons Hacc; [|by apply (Hnew Hnd sent' r')].
    destruct (Hnew1 Hacc) as (o & Ho & Hof). exists o. split; [|done]. apply Hkeep; [done|].
    intros a Ha E. apply Hnotin. apply list_elem_of_fmap. exists a. split; [|done]. cbn. lia.
Qed.

(** *** Authoritative rows *)

Lemma apply_changes_ok changes : ∀ touched db db' touched',
  apply_changes (App := App) (SqlError := SqlError) json_valid constraint_failed touched changes db = (db', Ok touched') →
  ∃ m, db' = set_authoritative m db
    ∧ (∀ k, k ∈ touched → k ∈ touched')
    ∧ ∀ k, k ∉ touched' → m !! k = authoritative db !! k.
Proof.
  induction changes as [|c changes IH]; intros touched db db' touched'; cbn [apply_changes].
  { intros [= <- <-]. exists (authoritative db). by split; [destruct db|]. }
  intros Hrun. run_ok Hrun. destruct a.
  assert (∃ m, s = set_authoritative m db ∧ ∀ k, k ≠ change_key c → m !! k = authoritative db !! k) as (m1 & -> & Hm1).
  { revert Hrun0. unfold apply_authoritative_change. destruct (ch_operation c).
    - destruct (ch_record c) as [rec|]; [|done]. destruct (is_object rec); [|done].
      destruct (to_text rec) as [t|]; [|done]. intros Hr. run_ok Hr. apply check_ok in Hrun0 as [_ ->].
      injection Hr as <-. eexists. split; [done|]. intros k Hne. by rewrite lookup_insert_ne.
    - destruct (is_some _); [done|]. intros [= <-]. eexists. split; [done|].
      intros k Hne. by rewrite lookup_delete_ne. }
  destruct (IH _ _ _ _ Hrun) as (m & -> & Hin & Hout). exists m. split; [done|]. split.
  - intros k Hk. apply Hin, elem_of_key_insert. by right.
  - intros k Hk. rewrite (Hout k Hk). apply Hm1. intros ->. apply Hk, Hin, elem_of_key_insert. by left.
Qed.

Lemma insert_snapshot_ok records : ∀ db db',
  insert_snapshot (App := App) (SqlError := SqlError) json_valid constraint_failed records db = (db', Ok ()) →
  ∃ m, db' = set_authoritative m db.
Proof.
  induction records as [|r records IH]; intros db db'; cbn [insert_snapshot].
  { intros [= <-]. exists (authoritative db). by destruct db. }
  destruct (negb _); [done|]. destruct (to_text _); [|done]. intros Hrun. run_ok Hrun.
  injection Hrun0 as <- <-. destruct a0. apply check_ok in Hrun1 as [_ ->]. injection Hrun2 as <- <-.
  destruct (IH _ _ Hrun) as (m & ->). by exists m.
Qed.

(** *** Merging with the durable queue *)

Lemma merge_row_status q d m : mergeable q d → m ∈ mutations q →
  ∃ x, x ∈ mutations d ∧ same_row m x ∧ merge_row (mutations d) m = if is_confirmed x then set_status Confirmed m else m.
Proof.
  intros Hm Hin. destruct (mg_known _ _ Hm m Hin) as (x & Hx & Hs). exists x. split; [done|]. split; [done|].
  unfold merge_row. by rewrite (same_row_id _ _ Hs), (find_mutation_Some d x (mg_durable _ _ Hm) Hx).
Qed.

Lemma mutations_merged q d : mutations (merged q d) = merged_rows q d.
Proof. unfold merged. by destruct (_ <? _). Qed.

Lemma same_row_key m x : same_row m x → mutation_key m = mutation_key x.
Proof. unfold same_row, set_status, mutation_key. congruence. Qed.

(** Every row of the merged queue is a durable one, up to its status. *)
Lemma merged_row_durable q d m : mergeable q d → m ∈ mutations (merged q d) →
  ∃ x, x ∈ mutations d ∧ mutation_id x = mutation_id m ∧ mutation_key x = mutation_key m.
Proof.
  intros Hm. rewrite mutations_merged. intros [(m0 & -> & Hm0)%list_elem_of_fmap|Hd]%elem_of_app.
  - destruct (merge_row_status q d m0 Hm Hm0) as (x & Hx & Hs & ->). exists x. split; [done|].
    rewrite <- (same_row_id _ _ Hs), <- (same_row_key _ _ Hs). by destruct (is_confirmed x).
  - apply elem_of_filter_bool in Hd as [Hd _]. eauto.
Qed.

Lemma overlays_ok_merged q d l : mergeable q d → overlays_ok d l → overlays_ok (merged q d) l.
Proof.
  intros Hm [Hs Hall]. split; [done|]. eapply Forall_impl; [exact Hall|]. intros r [Hlt Hkey].
  split; [unfold merged; by destruct (_ <? _)|]. intros m Hin E.
  destruct (merged_row_durable q d m Hm Hin) as (x & Hx & Hid & <-). apply Hkey; [done|].
  rewrite <- E. unfold row_id. by rewrite Hid.
Qed.

Lemma pending_status m : is_pending m = true → status m = Pending.
Proof. apply bool_decide_eq_true. Qed.

Lemma same_row_pending m x : same_row m x → status m = Pending → status x = Pending → m = x.
Proof. unfold same_row, set_status. destruct m, x. cbn. congruence. Qed.

(** What the operations do to the queue keeps its payloads readable. *)
Lemma wire_merged q d : mergeable q d → wire_queue q → wire_queue d → wire_queue (merged q d).
Proof.
  intros Hm [Hl Hp Hq] [_ _ Hd]. split; [unfold merged; by destruct (_ <? _)..|].
  rewrite mutations_merged. apply Forall_app. split.
  - apply Forall_map. eapply Forall_impl; [exact Hq|]. intros m Hv v. unfold merge_row.
    destruct (find_mutation _ _) as [x|]; [destruct (is_confirmed x)|]; apply Hv.
  - by apply Forall_filter_bool.
Qed.

Lemma wire_confirmed w q : wire_queue q → wire_queue (set_mutations (List.map (confirm_upto w) (mutations q)) q).
Proof.
  intros [Hl Hp Hq]. split; [done..|]. apply Forall_map. eapply Forall_impl; [exact Hq|]. intros m Hv v.
  unfold confirm_upto. destruct (_ && _); apply Hv.
Qed.

Lemma wire_acknowledge q0 q response request n : queue_ok q0 → acknowledge q0 response request = (q, Ok n) →
  wire_queue q0 → wire_queue q.
Proof.
  intros Hq Ha Hw. destruct (acknowledge_cases q0 response request) as [Hack|(_ & e & E & _)]; [|congruence].
  destruct (acknowledge_accepts q0 response request Hq Hack) as (m & _ & E & _).
  rewrite E in Ha. injection Ha as <- _. by apply wire_confirmed.
Qed.

Lemma wire_queued q m b q' id : queue q m b = (q', Ok id) → (∀ v, payload m = Some v → wire_payload v) →
  wire_queue q → wire_queue q'.
Proof.
  intros (_ & _ & _ & _ & ->)%queue_ok_inv Hm [Hl Hp Hq]. split; [done| |apply Forall_app; split; [done|by apply Forall_singleton]].
  unfold bt_or_insert. cbn. destruct (bt_get _ _); [done|]. by apply bt_sorted_insert.
Qed.

Lemma wire_with_limits cid p b q : with_limits cid p b = Ok q → p ≤ u64_max → b ≤ u64_max → wire_queue q.
Proof. intros Hi Hp Hb. unfold with_limits in Hi. repeat case_match; simplify_eq. split; [done|constructor..]. Qed.

(** A clone without news about [k] merges to the durable pending mutations of
    [k]. *)
Lemma pending_at_merged q d k : mergeable q d → no_news q d k → pending_at k (merged q d) = pending_at k d.
Proof.
  intros Hm Hno. pose proof (mg_durable _ _ Hm) as Hd.
  apply (sorted_key_ext row_id).
  - apply sorted_key_filter, pending_sorted, merged_ok, Hm.
  - by apply sorted_key_filter, pending_sorted.
  - intros y. unfold pending_at, pending. rewrite !elem_of_filter_bool, mutations_merged, !bool_decide_eq_true.
    unfold merged_rows. rewrite elem_of_app, elem_of_filter_bool, list_elem_of_fmap. split.
    + intros [[[(m & -> & Hin)|[Hy _]] Hp] Hk]; [|done].
      destruct (merge_row_status q d m Hm Hin) as (x & Hx & Hs & E). rewrite E in *.
      rewrite is_confirmed_negb in *. destruct (is_pending x) eqn:Hpx; cbn [negb] in *; [|done].
      rewrite (same_row_pending m x Hs) by (by apply pending_status).
      split; [done|]. by rewrite <- (same_row_key _ _ Hs).
    + intros [[Hy Hp] Hk]. split; [|done]. split; [|done].
      destruct (N.lt_ge_cases (row_id y) (next_mutation_id q)) as [Hlt|Hge]; [left|right].
      2:{ split; [done|]. by apply N.leb_le. }
      destruct (mg_unpruned _ _ Hm y Hy (pending_status _ Hp) Hlt) as (m & Hin & Hid).
      destruct (merge_row_status q d m Hm Hin) as (x & Hx & Hs & E).
      assert (x = y) as -> by (apply (mutation_id_inj d); [done..|]; by rewrite <- (same_row_id _ _ Hs)).
      exists m. split; [|done]. rewrite E, is_confirmed_negb, Hp. cbn [negb].
      destruct (status m) eqn:Hst; [symmetry; by apply same_row_pending; [done..|apply pending_status]|].
      destruct (Hno m Hin) as (x & Hx' & Hid' & Hst'); [by rewrite (same_row_key _ _ Hs)|done|].
      assert (x = y) as -> by (apply (mutation_id_inj d); [done..|]; by rewrite Hid').
      by rewrite (pending_status _ Hp) in Hst'.
Qed.

(** *** Transactions *)

Context (faults : nat → option (Fault SqlError)).

(** A transaction commits what its body did or leaves the tables alone. *)
Lemma transaction_cases {Q A} (body : M (Tables App * Q) (stop (SqliteStoreError SqlError)) A) x c :
  let '(c', x', r) := transaction faults body x c in
  match r with
  | Ok a => body (tables c, x) = ((tables c', x'), Ok a)
  | Err _ => tables c' = tables c
  end.
Proof.
  unfold transaction. destruct (faults (begun c)) as [[e|e]|]; [done|..];
    by destruct (body (tables c, x)) as [[db' x'] [a|e']].
Qed.

Lemma sql_transaction_cases {A} (body : Sql A) c :
  let '(c', r) := sql_transaction faults body c in
  match r with
  | Ok a => body (tables c) = (tables c', Ok a)
  | Err _ => tables c' = tables c
  end.
Proof.
  unfold sql_transaction. pose proof (transaction_cases (on_tables body) () c) as Hc.
  destruct (transaction _ _ _ _) as [[c' x'] r]. destruct r as [a|e]; [|done].
  unfold on_tables in Hc. cbn in Hc. destruct (body (tables c)) as [db r]. by injection Hc as -> _ ->.
Qed.

Lemma store_load db d : store_ok (SqlError := SqlError) db d → load_queue_from (SqlError := SqlError) no_rows db = (db, Ok d).
Proof. intros [_ (t & Hj & Ht) Hq _ _ _]. by eapply load_accepts. Qed.

(** Merging in the durable queue, then the body of the transaction. *)
Lemma merge_then db d q db' q' (f : ProtocolQueue → Sql unit) :
  store_ok (SqlError := SqlError) db d →
  (q ←? merge_durable no_rows; on_tables (f q)) (db, q) = ((db', q'), Ok ()) →
  mergeable q d ∧ q' = merged q d ∧ f q' db = (db', Ok ()).
Proof.
  intros Hok. unfold merge_durable, on_tables, bind at 1 2. cbn [fst snd].
  rewrite (store_load db d Hok). cbn [fst snd].
  destruct (merge_concurrent_durable q d) as [[q1 [[]|e]]|] eqn:E; [|done..].
  apply merge_Ok_inv in E as [Hm ->]. cbn [fst snd]. destruct (f (merged q d) db) as [db1 r] eqn:Hf.
  intros [= <- <- ->]. done.
Qed.

Lemma view_set_local m db q k : record_view (SqlError := SqlError) (set_local m db) q k = record_view db q k.
Proof. done. Qed.

(** Rebuilding every record whose inputs changed restores the view. *)
Lemma rebuilt db db1 d q ks db2 : store_ok (SqlError := SqlError) db d → local db1 = local db →
  (∀ k, k ∉ ks → authoritative db1 !! k = authoritative db !! k
                 ∧ overlays_at k (overlays db1) = overlays_at k (overlays db) ∧ pending_at k q = pending_at k d) →
  rebuild_records json_valid constraint_failed q ks db1 = (db2, Ok ()) →
  ∃ m, db2 = set_local m db1 ∧ ∀ k, record_view (SqlError := SqlError) db2 q k = Ok (local db2 !! k).
Proof.
  intros Hok Hl Hsame (m & -> & Hin & Hout)%rebuild_records_ok. exists m. split; [done|].
  intros k. rewrite view_set_local. cbn [local set_local].
  destruct (decide (k ∈ ks)) as [Hk|Hk]; [by apply Hin|]. rewrite (Hout k Hk), Hl.
  rewrite <- (so_view _ _ Hok k). unfold record_view. destruct (Hsame k Hk) as (-> & -> & ->). done.
Qed.

Context `{!SqliteLaws}.

Lemma persisted q db db' : persist_queue_in json_valid constraint_failed q db = (db', Ok ()) →
  schema db = Some "1" → overlays_ok q (overlays db) → wire_queue q →
  (∀ k, record_view (SqlError := SqlError) db q k = Ok (local db !! k)) → store_ok (SqlError := SqlError) db' q.
Proof.
  intros (Hq & t & Ht & Hv & _ & ->)%persist_ok Hs Ho Hw Hview. split; [done| |done|done|done|done].
  exists t. split; [done|]. by apply queue_round_trip.
Qed.

(** *** Each operation keeps the store consistent *)

Lemma persist_queue_keeps db d q db' q' : store_ok (SqlError := SqlError) db d → wire_queue q → (∀ k, no_news q d k) →
  (q ←? merge_durable no_rows; on_tables (persist_queue_in json_valid constraint_failed q)) (db, q) = ((db', q'), Ok ()) →
  store_ok (SqlError := SqlError) db' q'.
Proof.
  intros Hok Hw Hno Hrun. destruct (merge_then _ _ _ _ _ _ Hok Hrun) as (Hm & -> & Hp).
  apply (persisted _ _ _ Hp); [apply Hok|apply overlays_ok_merged; [done|apply Hok]|apply wire_merged; [done..|apply Hok]|].
  intros k. rewrite <- (so_view _ _ Hok k). unfold record_view. by rewrite pending_at_merged.
Qed.

Lemma changes_keeps db d q changes db' q' : store_ok (SqlError := SqlError) db d → wire_queue q → (∀ k, no_news q d k) →
  (q ←? merge_durable no_rows; on_tables (changes_in json_valid constraint_failed changes q)) (db, q) = ((db', q'), Ok ()) →
  store_ok (SqlError := SqlError) db' q'.
Proof.
  intros Hok Hw Hno Hrun. destruct (merge_then _ _ _ _ _ _ Hok Hrun) as (Hm & -> & Hp). clear Hrun.
  unfold changes_in in Hp. run_ok Hp. destruct a1.
  destruct (so_overlays _ _ Hok) as [Hsort _].
  apply (clear_ok _ _ _ _ Hsort) in Hrun as (l & -> & Hsub & Hat & _).
  apply apply_changes_ok in Hrun0 as (m & -> & Hin & Hout).
  pose proof (rebuilt db (set_authoritative m (set_overlays l db)) d (merged q d) a0 s1 Hok eq_refl) as Hr.
  destruct Hr as (ml & -> & Hview); [|done|].
  - intros k Hk. cbn [authoritative set_authoritative overlays set_overlays] in *. split; [by apply Hout|].
    split; [|by apply pending_at_merged]. apply Hat. intros Hin'. by apply Hk, Hin.
  - apply (persisted _ _ _ Hp); [apply Hok| |apply wire_merged; [done..|apply Hok]|done].
    cbn [overlays set_local set_authoritative set_overlays]. apply overlays_ok_merged; [done|]. destruct Hsub as [p ->]. apply overlays_ok_filter, Hok.
Qed.

Lemma acknowledged_rows q0 q response request n : queue_ok q0 → acknowledge q0 response request = (q, Ok n) →
  acknowledges q0 response request
  ∧ Forall2 (λ x x', x' = x ∧ x ∉ req_mutations request ∨ x' = set_status Confirmed x ∧ x ∈ req_mutations request)
      (mutations q0) (mutations q)
  ∧ checkpoint q = checkpoint q0.
Proof.
  intros Hq Ha. destruct (acknowledge_cases q0 response request) as [Hack|(_ & e & E & _)]; [|congruence].
  split; [done|]. destruct (acknowledge_accepts q0 response request Hq Hack) as (m & Hl & E & _).
  rewrite E in Ha. injection Ha as <- _. split; [|done]. cbn. by eapply confirm_upto_batch.
Qed.

Lemma ack_no_news q0 q d response request n k : queue_ok q0 → acknowledge q0 response request = (q, Ok n) →
  no_news q0 d k → (∀ sent, sent ∈ req_mutations request → mutation_key sent ≠ k) → no_news q d k.
Proof.
  intros Hq Ha Hno Hk m' Hm' Hkey Hst. destruct (acknowledged_rows _ _ _ _ _ Hq Ha) as (_ & Hrows & _).
  apply list_elem_of_lookup in Hm' as [i Hi]. destruct (Forall2_lookup_r _ _ _ _ _ Hrows Hi) as (x & Hx & Hor).
  apply list_elem_of_lookup_2 in Hx. destruct Hor as [[-> _]|[-> Hin]]; [by apply (Hno x)|].
  by destruct (Hk x Hin).
Qed.

Lemma ack_batch_of q0 q d response request n : queue_ok q0 → acknowledge q0 response request = (q, Ok n) →
  mergeable q d → batch_of (merged q d) (req_mutations request).
Proof.
  intros Hq Ha Hm. destruct (acknowledged_rows _ _ _ _ _ Hq Ha) as (Hack & Hrows & _).
  apply Forall_forall. intros sent Hsent. pose proof Hsent as Hin. rewrite (ack_batch _ _ _ Hack) in Hin.
  apply elem_of_take in Hin as (i & Hi & _). apply list_elem_of_lookup_2, elem_of_filter_bool in Hi as [Hi _].
  apply list_elem_of_lookup in Hi as [j Hj]. destruct (Forall2_lookup_l _ _ _ _ _ Hrows Hj) as (x' & Hx' & Hor).
  apply list_elem_of_lookup_2 in Hx'. destruct Hor as [[_ Hno]|[-> _]]; [done|].
  destruct (merged_known q d _ Hm Hx') as (m' & _ & Hm' & _ & Hs & _).
  exists m'. split; [done|]. rewrite <- (same_row_id _ _ Hs), <- (same_row_key _ _ Hs). done.
Qed.

Lemma ack_NoDup q0 q response request n : queue_ok q0 → acknowledge q0 response request = (q, Ok n) →
  NoDup (List.map (λ a, row_id a.1) (combine (req_mutations request) (resp_results response)))
  ∧ List.map fst (combine (req_mutations request) (resp_results response)) = req_mutations request.
Proof.
  intros Hq Ha. destruct (acknowledged_rows _ _ _ _ _ Hq Ha) as (Hack & _ & _).
  pose proof (Forall2_length _ _ _ (ack_results _ _ _ Hack)) as Hlen.
  assert (List.map fst (combine (req_mutations request) (resp_results response)) = req_mutations request) as Hfst.
  { clear Hack Ha. revert Hlen. generalize (resp_results response). induction (req_mutations request) as [|m ms IH];
      intros [|r rs]; cbn; try done. intros [= Hlen]. f_equal. by apply IH. }
  split; [|done]. rewrite <- (List.map_map fst row_id), Hfst, (ack_batch _ _ _ Hack), <- firstn_map.
  pose proof (sorted_key_NoDup row_id _ (pending_sorted q0 Hq)) as Hnd.
  rewrite <- (take_drop (length (req_mutations request))) in Hnd. by apply NoDup_app in Hnd as [? _].
Qed.

Lemma ack_keeps db d q0 q request response n db' q' :
  store_ok (SqlError := SqlError) db d → queue_ok q0 → wire_queue q0 → (∀ k, no_news q0 d k) →
  acknowledge q0 response request = (q, Ok n) →
  (q ←? merge_durable no_rows; on_tables (acknowledgement_in json_valid constraint_failed request response q)) (db, q)
    = ((db', q'), Ok ()) →
  q' = merged q d ∧ store_ok (SqlError := SqlError) db' q'
  ∧ authoritative db' = authoritative db ∧ application db' = application db
  ∧ (∀ id o, (id, o) ∈ overlays db → (∀ sent, sent ∈ req_mutations request → id ≠ Z.of_N (row_id sent)) →
       (id, o) ∈ overlays db' ∨ covered q' o)
  ∧ (∀ sent r, (sent, r) ∈ combine (req_mutations request) (resp_results response) → was_accepted r = true →
       ∃ o, overlay_of (SqlError := SqlError) sent r o
            ∧ ((Z.of_N (row_id sent), o) ∈ overlays db' ∨ covered q' o)).
Proof.
  intros Hok Hq0 Hw Hno Ha Hrun. destruct (merge_then _ _ _ _ _ _ Hok Hrun) as (Hm & -> & Hp). clear Hrun.
  split; [done|]. unfold acknowledgement_in in Hp. run_ok Hp. destruct a1.
  destruct (ack_NoDup _ _ _ _ _ Hq0 Ha) as [Hnd Hfst].
  pose proof (merged_ok _ _ Hm) as Hqm.
  pose proof (ack_batch_of _ _ _ _ _ _ Hq0 Ha Hm) as Hbatch. rewrite <- Hfst in Hbatch.
  destruct (accept_results_ok (merged q d) _ Hqm Hbatch [] db s a) as (l & -> & Hol & Hmem & Hat & Hkeep & Hnew);
    [apply overlays_ok_merged; [done|apply Hok]|exact Hrun|]. clear Hrun.
  apply (clear_ok _ (set_overlays l db)) in Hrun0 as (l2 & -> & (p & ->) & Hat2 & Hkeep2); [|apply Hol].
  set (db1 := set_overlays (List.filter p _) _) in *.
  assert (∀ k, k ∉ key_extend a a0 → authoritative db1 !! k = authoritative db !! k
            ∧ overlays_at k (overlays db1) = overlays_at k (overlays db)
            ∧ pending_at k (merged q d) = pending_at k d) as Hsame.
  { intros k Hk. rewrite elem_of_key_extend in Hk. split; [done|]. split.
    - cbn [overlays db1 set_overlays] in *. unfold db1. cbn [overlays set_overlays].
      rewrite Hat2 by tauto. apply Hat. tauto.
    - apply pending_at_merged; [done|]. eapply (ack_no_news q0); [done..|]. intros sent Hsent Hkey.
      apply Hk. left. apply Hmem. right. rewrite <- Hfst in Hsent.
      apply list_elem_of_fmap in Hsent as (b & -> & Hb). eauto. }
  destruct (rebuilt db db1 d (merged q d) _ s1 Hok eq_refl Hsame Hrun1) as (ml & -> & Hview).
  assert (overlays_ok (merged q d) (List.filter p l)) as Hol2 by by apply overlays_ok_filter.
  split; [apply (persisted _ _ _ Hp); [apply Hok|done| |done]|].
  { apply wire_merged; [done|exact (wire_acknowledge _ _ _ _ _ Hq0 Ha Hw)|apply Hok]. }
  apply persist_ok in Hp as (_ & t & _ & _ & _ & ->). split; [done|]. split; [done|].
  assert (∀ r, r ∈ l → r ∈ List.filter p l ∨ covered (merged q d) r.2) as Hk2 by (intros r; by apply Hkeep2).
  split.
  - intros id o Hin Hids. apply (Hk2 (id, o)), Hkeep; [done|]. intros b Hb. apply Hids. rewrite <- Hfst.
    by apply (list_elem_of_fmap_2 fst).
  - intros sent r Hin Hacc. destruct (Hnew Hnd sent r Hin Hacc) as (o & Ho & Hof).
    exists o. split; [done|]. by apply (Hk2 (_, o)).
Qed.

Lemma snapshot_keeps db d q records db' q' : store_ok (SqlError := SqlError) db d → wire_queue q →
  (q ←? merge_durable no_rows; on_tables (snapshot_in json_valid constraint_failed records q)) (db, q) = ((db', q'), Ok ()) →
  store_ok (SqlError := SqlError) db' q'.
Proof.
  intros Hok Hw Hrun. destruct (merge_then _ _ _ _ _ _ Hok Hrun) as (Hm & -> & Hp). clear Hrun.
  unfold snapshot_in in Hp. run_ok Hp. destruct a1, a2. injection Hrun0 as <- <-.
  apply clear_ok in Hrun as (l & -> & (p & ->) & _ & _); [|apply Hok].
  apply insert_snapshot_ok in Hrun1 as (m & ->). unfold rebuild_all_local in Hrun2. run_ok Hrun2.
  injection Hrun as <- <-. destruct a1. injection Hrun0 as <-.
  apply rebuild_records_ok in Hrun2 as (ml & -> & Hin & Hout).
  apply (persisted _ _ _ Hp); [apply Hok| |apply wire_merged; [done..|apply Hok]|].
  - apply overlays_ok_filter, overlays_ok_merged; [done|apply Hok].
  - intros k. rewrite view_set_local. cbn [local set_local]. destruct (decide (k ∈ key_extend (key_extend (key_extend []
      (List.map fst (map_to_list m))) (List.map mutation_key (pending (merged q d))))
      (List.map (λ r, overlay_row_key r.2) (List.filter p (overlays db))))) as [Hk|Hk]; [by apply Hin|].
    rewrite (Hout k Hk). rewrite !elem_of_key_extend in Hk. cbn [local set_local]. rewrite lookup_empty.
    unfold record_view. cbn [authoritative set_local set_authoritative overlays set_overlays].
    assert (m !! k = None) as ->.
    { apply eq_None_not_Some. intros [v Hv]. apply Hk. left. left. right.
      apply elem_of_map_to_list in Hv. by apply (list_elem_of_fmap_2 fst) in Hv. }
    assert (overlays_at k (List.filter p (overlays db)) = []) as ->.
    { apply filter_none, Forall_forall. intros o Ho. apply bool_decide_eq_false. intros <-. apply Hk. right.
      apply list_elem_of_fmap in Ho as (r & -> & Hr). by apply (list_elem_of_fmap_2 (λ r, overlay_row_key r.2)). }
    assert (pending_at k (merged q d) = []) as ->.
    { apply filter_none, Forall_forall. intros x Hx. apply bool_decide_eq_false. intros <-. apply Hk. left. right.
      by apply list_elem_of_fmap_2. }
    done.
Qed.

(** *** Queueing *)

Lemma apply_pending_app ms m : ∀ view,
  apply_pending (SqlError := SqlError) view (ms ++ [m])
  = let? v := apply_pending view ms in apply_pending v [m].
Proof.
  induction ms as [|x ms IH]; intros view; [done|]. cbn [app apply_pending].
  destruct (operation x); [|apply IH]. destruct (payload x); [|done]. destruct (to_text _); [|done].
  destruct (apply_overlay _ _ _); [|done]. apply IH.
Qed.

(** A queue that appends a pending mutation. *)
Lemma view_append db d d' m k : mutations d' = mutations d ++ [m] → status m = Pending →
  record_view (SqlError := SqlError) db d' k
  = if mutation_key m == k then let? v := record_view db d k in apply_pending v [m] else record_view db d k.
Proof.
  intros Hms Hst. unfold record_view, pending_at, pending. rewrite Hms, !List.filter_app. cbn [List.filter].
  unfold is_pending at 2. rewrite Hst, bool_decide_true by done. cbn [List.filter].
  destruct (apply_accepted _ _) as [v|e]; cbn; [|by destruct (mutation_key m == k)].
  destruct (mutation_key m == k); [apply apply_pending_app|by rewrite app_nil_r].
Qed.

Lemma overlays_ok_append d d' m l : mutations d' = mutations d ++ [m] → row_id m = next_mutation_id d →
  next_mutation_id d' = next_mutation_id d + 1 → overlays_ok d l → overlays_ok d' l.
Proof.
  intros Hms Hid Hnext [Hs Hall]. split; [done|]. eapply Forall_impl; [exact Hall|]. intros r [Hlt Hkey].
  split; [lia|]. intros x. rewrite Hms. intros [Hx| ->%list_elem_of_singleton]%elem_of_app E; [by apply Hkey|lia].
Qed.

(** A successful [queue] appends one pending row and moves the allocator. *)
Lemma queue_appends q m b q' id : queue q m b = (q', Ok id) → status m = Pending →
  mutations q' = mutations q ++ [set_mutation_id id m] ∧ row_id (set_mutation_id id m) = next_mutation_id q
  ∧ next_mutation_id q' = next_mutation_id q + 1 ∧ status (set_mutation_id id m) = Pending.
Proof. intros (-> & _ & _ & _ & ->)%queue_ok_inv Hst. split; [done|]. split; [by apply row_id_to_dec|done]. Qed.

(** After queueing, only the view of the mutation's record is to be brought up
    to date. *)
Lemma queued_store db d d' m db1 db' : store_ok (SqlError := SqlError) db d →
  mutations d' = mutations d ++ [m] → row_id m = next_mutation_id d → next_mutation_id d' = next_mutation_id d + 1 →
  status m = Pending → wire_queue d' →
  (∃ l a, db1 = set_application a (set_local l db) ∧ apply_pending (SqlError := SqlError) (local db !! mutation_key m) [m] = Ok (l !! mutation_key m)
        ∧ ∀ k, k ≠ mutation_key m → l !! k = local db !! k) →
  persist_queue_in json_valid constraint_failed d' db1 = (db', Ok ()) → store_ok (SqlError := SqlError) db' d'.
Proof.
  intros Hok Hms Hid Hnext Hst Hw (l & a & -> & Hview & Hother) Hp. apply (persisted _ _ _ Hp); [apply Hok| |done|].
  - eapply overlays_ok_append; [done..|]. apply Hok.
  - intros k. change (record_view (set_application a (set_local l db)) d' k) with (record_view (SqlError := SqlError) db d' k).
    rewrite (view_append db d d' m k Hms Hst), (so_view _ _ Hok k).
    cbn [local set_local set_application]. destruct (bool_decide_reflect (mutation_key m = k)) as [<-|Hne]; [done|].
    by rewrite Hother by congruence.
Qed.

(** A callback that succeeds only where the store's own update of the view does,
    with the same effect on the store's tables. *)
Definition maintains (own callback : Sql unit) : Prop :=
  ∀ db db', callback db = (db', Ok ()) → ∃ db1 a, own db = (db1, Ok ()) ∧ db' = set_application a db1.

Lemma own_maintains (own : Sql unit) : maintains own own.
Proof. intros db db' E. exists db', (application db'). split; [done|]. by destruct db'. Qed.

Lemma queue_upsert_keeps db d tbl rid v base res callback db' id : store_ok (SqlError := SqlError) db d →
  wire_payload v → (∀ id, maintains (overlay_local_record json_valid constraint_failed (tbl, rid) v) (callback id v)) →
  queue_upsert_in json_valid constraint_failed no_rows tbl rid v base res callback db = (db', Ok id) →
  ∃ d', queue_upsert d tbl rid v base res = (d', Ok id) ∧ store_ok (SqlError := SqlError) db' d'.
Proof.
  intros Hok Hwire Hown Hrun. unfold queue_upsert_in, on_queue in Hrun. run_ok Hrun. destruct a1, a2.
  rewrite (store_load db d Hok) in Hrun0. injection Hrun0 as <- <-. injection Hrun as <- <-.
  destruct (queue_upsert d tbl rid v base res) as [d' [id|e]] eqn:Hq; [|done]. injection Hrun1 as <- <-.
  exists d'. split; [done|]. cbn [fst snd] in *.
  apply queue_upsert_inv in Hq as (_ & _ & text & _ & Ht & Hq).
  destruct (queue_appends _ _ _ _ _ Hq eq_refl) as (Hms & Hid & Hnext & Hst).
  eapply queued_store; [exact Hok|exact Hms|exact Hid|exact Hnext|exact Hst| | |exact Hrun3].
  { eapply wire_queued; [exact Hq|by intros ? [= <-]|apply Hok]. }
  cbn [mutation_key table record_id set_mutation_id]. unfold mutation_key. cbn.
  apply Hown in Hrun2 as (db1 & a & Hrun2 & ->).
  unfold overlay_local_record in Hrun2. run_ok Hrun2. injection Hrun as <- <-. rewrite Ht in *.
  unfold apply_overlay. cbn.
  destruct (reconcile _ text view_options) as [merged|] eqn:Hr; [|done].
  apply write_local_ok in Hrun2 as ->. do 2 eexists. split; [done|].
  rewrite lookup_insert_eq. split; [done|]. intros k Hne. by rewrite lookup_insert_ne.
Qed.

Lemma queue_delete_keeps db d tbl rid base callback db' id : store_ok (SqlError := SqlError) db d →
  (∀ id, maintains (delete_local_record (tbl, rid)) (callback id)) →
  queue_delete_in json_valid constraint_failed no_rows tbl rid base callback db = (db', Ok id) →
  ∃ d', queue_delete d tbl rid base = (d', Ok id) ∧ store_ok (SqlError := SqlError) db' d'.
Proof.
  intros Hok Hown Hrun. unfold queue_delete_in, on_queue in Hrun. run_ok Hrun. destruct a1, a2.
  rewrite (store_load db d Hok) in Hrun0. injection Hrun0 as <- <-. injection Hrun as <- <-.
  destruct (queue_delete d tbl rid base) as [d' [id|e]] eqn:Hq; [|done]. injection Hrun1 as <- <-.
  exists d'. split; [done|]. cbn [fst snd] in *. apply queue_delete_inv in Hq as (_ & _ & Hq).
  destruct (queue_appends _ _ _ _ _ Hq eq_refl) as (Hms & Hid & Hnext & Hst).
  eapply queued_store; [exact Hok|exact Hms|exact Hid|exact Hnext|exact Hst| | |exact Hrun3].
  { eapply wire_queued; [exact Hq|done|apply Hok]. }
  apply Hown in Hrun2 as (db1 & a & Hrun2 & ->). injection Hrun2 as <-. do 2 eexists. split; [done|]. unfold mutation_key. cbn.
  rewrite lookup_delete_eq. split; [done|]. intros k Hne. by rewrite lookup_delete_ne.
Qed.

(** *** Opening *)

Lemma initialize_ok cid p b db db' : initialize json_valid no_rows cid p b db = (db', Ok ()) →
  ∃ initial text q t,
    with_limits cid p b = Ok initial ∧ queue_to_text initial = Some text
    ∧ parse_i64 (default "1" (schema db)) = Some SCHEMA_VERSION
    ∧ db' = Build_Tables (Some (default "1" (schema db))) (Some t) (authoritative db) (local db) (overlays db)
              (application db)
    ∧ t = default text (queue_json db) ∧ queue_from_text t = Some q ∧ queue_ok q ∧ client_id q = cid.
Proof.
  unfold initialize. intros Hrun. run_ok Hrun. injection Hrun0 as <- <-. injection Hrun2 as <- <-. destruct a0.
  assert (s0 = Build_Tables (Some (default "1" (schema db))) (queue_json db) (authoritative db) (local db) (overlays db)
                 (application db)) as ->.
  { destruct db as [[v|] j m l o ap]; by injection Hrun1 as <-. }
  clear Hrun1. cbn [schema] in Hrun. destruct (parse_i64 _) as [v|]; [|done].
  destruct (Z.eqb_spec v SCHEMA_VERSION) as [Hv|]; [|done]. rewrite Hv in *. clear Hv v. cbn [negb] in Hrun.
  destruct (with_limits cid p b) as [initial|e]; [|done]. destruct (queue_to_text initial) as [text|] eqn:Ht; [|done].
  run_ok Hrun. injection Hrun0 as <- <-. destruct a0. apply load_ok in Hrun2 as [-> (t & Hj & Hq & Hok)].
  destruct (bool_decide_reflect (client_id a1 = cid)) as [Hc|]; [|done]. injection Hrun as <-.
  exists initial, text, a1, t. do 3 (split; [done|]).
  destruct db as [v j m l o ap]. cbn [queue_json default is_some negb orb schema] in *.
  destruct j as [j|]; [|destruct (json_valid text)]; injection Hrun1 as <-; cbn in Hj; simplify_eq; done.
Qed.

Lemma initialize_fresh a cid p b db' : p ≤ u64_max → b ≤ u64_max →
  initialize json_valid no_rows cid p b (empty_tables a) = (db', Ok ()) →
  ∃ q, with_limits cid p b = Ok q ∧ store_ok (SqlError := SqlError) db' q ∧ application db' = a.
Proof.
  intros Hp Hb (initial & text & q & t & Hi & Ht & _ & -> & -> & Hq & Hok & _)%initialize_ok.
  cbn in Hq. pose proof (with_limits_ok _ _ _ _ Hi) as Hoki. pose proof (wire_with_limits _ _ _ _ Hi Hp Hb) as Hw.
  pose proof (queue_round_trip _ _ Hoki Hw Ht) as Hrt. rewrite Hrt in Hq. injection Hq as <-.
  exists initial. split; [done|]. split; [|done]. split; [done|by eauto|done|by repeat constructor| |done].
  intros k. unfold record_view. cbn. unfold pending_at, pending. unfold with_limits in Hi.
  repeat case_match; simplify_eq. by cbn.
Qed.

(** Opening an initialised store changes nothing, and succeeds for its own
    client only. *)
Lemma initialize_again db d cid p b db' : store_ok (SqlError := SqlError) db d →
  initialize json_valid no_rows cid p b db = (db', Ok ()) → db' = db ∧ client_id d = cid.
Proof.
  intros [Hs (t & Hj & Ht) _ _ _ _] (initial & text & q & t' & _ & _ & _ & -> & -> & Hq & _ & Hc)%initialize_ok.
  destruct db as [v j m l o ap]. cbn in *. subst. cbn in Hq. rewrite Ht in Hq. by injection Hq as <-.
Qed.
End Lemmas.

(** ** The store as the driver's transactional store *)

Section Driver.
Context `{MergeEngine} `{SerdeJson} `{QueueCodec} {App SqlError : Type}.
Context (json_valid : string → bool) (constraint_failed no_rows : SqlError).
Context (faults : nat → option (Fault SqlError)).

#[export] Instance sqlite_store : AtomicProtocolSyncStore (Connection App) (stop (SqliteStoreError SqlError)) :=
  {| st_persist_queue := persist_queue json_valid constraint_failed no_rows faults;
     st_persist_acknowledgement := persist_acknowledgement json_valid constraint_failed no_rows faults;
     st_apply_changes_and_persist := apply_changes_and_persist json_valid constraint_failed no_rows faults;
     st_replace_authoritative_and_persist :=
       replace_authoritative_and_persist json_valid constraint_failed no_rows faults |}.

Context `{!SqliteLaws}.

Lemma no_news_refl q k : no_news q q k.
Proof. intros m Hm _ Hst. by exists m. Qed.

Lemma no_news_checkpoint c q d k : no_news q d k → no_news (assign_checkpoint c q) d k.
Proof. done. Qed.

(** A connection holds the queue its tables are consistent with. *)
Definition sqlite_holds (c : Connection App) (q : ProtocolQueue) : Prop := store_ok (SqlError := SqlError) (tables c) q.

(** The operations of the transactional store, committed or not. *)
Lemma sqlite_call prior q op (c c' : Connection App) q' r :
  sqlite_holds c prior → store_call prior q op → op q c = (c', q', r) →
  match r with
  | Ok _ => sqlite_holds c' q' ∧ queue_ck q ≤ queue_ck q'
  | Err _ => sqlite_holds c' prior
  end.
Proof.
  unfold sqlite_holds. intros Hok Hcall E. pose proof (so_valid _ _ Hok) as Hq. pose proof (so_wire _ _ Hok) as Hw.
  assert (∀ f : ProtocolQueue → Sql (App := App) (SqlError := SqlError) unit,
    transaction faults (q ←? merge_durable no_rows; on_tables (f q)) q c = (c', q', r) →
    match r with
    | Ok _ => mergeable q prior ∧ q' = merged q prior
              ∧ (q ←? merge_durable no_rows; on_tables (f q)) (tables c, q) = ((tables c', q'), Ok ())
    | Err _ => tables c' = tables c
    end) as Htx.
  { intros f Ef. pose proof (transaction_cases faults (q ←? merge_durable no_rows; on_tables (f q)) q c) as Ht.
    rewrite Ef in Ht. destruct r as [[]|e]; [|done].
    by destruct (merge_then _ _ _ _ _ _ _ Hok Ht) as (Hm & Hq' & _). }
  destruct Hcall as [|q request response n Ha|ck changes Hc Hck|ck records Hc Hck]; apply Htx in E;
    (destruct r as [[]|e]; [destruct E as (Hm & -> & E)|by rewrite E]);
    (split; [|unfold queue_ck; rewrite merged_checkpoint; lia]).
  - eapply persist_queue_keeps; [done|exact Hok|exact Hw|intros; apply no_news_refl|exact E].
  - eapply ack_keeps; [done|exact Hok|exact Hq|exact Hw|intros; apply no_news_refl|exact Ha|exact E].
  - eapply changes_keeps; [done|exact Hok| | |exact E]; [by destruct Hw|intros; apply no_news_checkpoint, no_news_refl].
  - eapply snapshot_keeps; [done|exact Hok| |exact E]. by destruct Hw.
Qed.

#[export] Instance sqlite_atomic_laws : AtomicStoreLaws (Connection App) (stop (SqliteStoreError SqlError)) sqlite_holds.
Proof. split; [intros st q; apply so_valid|]. intros prior q op st st' q' r. apply sqlite_call. Qed.
End Driver.

(** ** Reachable databases *)

Section Steps.
Context `{MergeEngine} `{SerdeJson} `{QueueCodec} {App SqlError : Type}.
Context (json_valid : string → bool) (constraint_failed no_rows : SqlError).
Implicit Types (db : Tables App) (faults : nat → option (Fault SqlError)).

(** A queue in memory that confirms nothing the database still holds as
    pending: it was loaded some time ago and only its checkpoint moved. *)
Definition stale_clone db (q : ProtocolQueue) : Prop :=
  wire_queue q ∧ ∀ t d, queue_json db = Some t → queue_from_text t = Some d → ∀ k, no_news q d k.

Definition on db (n : nat) : Connection App := {| tables := db; begun := n |}.

(** The operations of any number of processes on one database: each runs one
    transaction, which may fail anywhere.  Payloads are ones that serde_json reads
    back; the callbacks of [queue_upsert_with] and [queue_delete_with] bring the
    local view up to date as the store does in [queue_upsert_record] and
    [queue_delete_record], and may write the application's tables; the queues that
    are persisted are stale clones, or answered from one. *)
Inductive store_step db : Tables App → Prop :=
| step_open faults n cid max_pending max_bytes c r :
    sql_transaction faults (initialize json_valid no_rows cid max_pending max_bytes) (on db n) = (c, r) →
    store_step db (tables c)
| step_upsert faults n tbl rid v base resurrect callback c r :
    wire_payload v → (∀ id, maintains (overlay_local_record json_valid constraint_failed (tbl, rid) v) (callback id v)) →
    queue_upsert_with json_valid constraint_failed no_rows faults tbl rid v base resurrect callback (on db n) = (c, r) →
    store_step db (tables c)
| step_delete faults n tbl rid base callback c r :
    (∀ id, maintains (delete_local_record (tbl, rid)) (callback id)) →
    queue_delete_with json_valid constraint_failed no_rows faults tbl rid base callback (on db n) = (c, r) →
    store_step db (tables c)
| step_queue faults n q c q' r :
    stale_clone db q →
    persist_queue json_valid constraint_failed no_rows faults q (on db n) = (c, q', r) → store_step db (tables c)
| step_acknowledgement faults n q0 q request response m c q' r :
    stale_clone db q0 → queue_ok q0 → acknowledge q0 response request = (q, Ok m) →
    persist_acknowledgement json_valid constraint_failed no_rows faults q request response (on db n) = (c, q', r) →
    store_step db (tables c)
| step_changes faults n q changes c q' r :
    stale_clone db q →
    apply_changes_and_persist json_valid constraint_failed no_rows faults changes q (on db n) = (c, q', r) →
    store_step db (tables c)
| step_snapshot faults n q records c q' r :
    wire_queue q →
    replace_authoritative_and_persist json_valid constraint_failed no_rows faults records q (on db n) = (c, q', r) →
    store_step db (tables c).

(** The store's own callbacks are such callbacks. *)
Lemma step_upsert_record db faults n tbl rid v base resurrect c r : wire_payload v →
  queue_upsert_record json_valid constraint_failed no_rows faults tbl rid v base resurrect (on db n) = (c, r) →
  store_step db (tables c).
Proof. intros Hv E. eapply step_upsert; [exact Hv| |exact E]. intros id. apply own_maintains. Qed.

Lemma step_delete_record db faults n tbl rid base c r :
  queue_delete_record json_valid constraint_failed no_rows faults tbl rid base (on db n) = (c, r) →
  store_step db (tables c).
Proof. intros E. eapply step_delete; [|exact E]. intros id. apply own_maintains. Qed.

(** A stored queue that cannot be read back stays: nothing is queued or persisted
    any more. *)
Lemma unreadable_queue_stays db t faults n : queue_json db = Some t → queue_from_text t = None →
  (∀ tbl rid v base resurrect callback,
     let '(c, r) := queue_upsert_with json_valid constraint_failed no_rows faults tbl rid v base resurrect callback (on db n) in
     tables c = db ∧ is_err r = true) ∧
  (∀ tbl rid base callback,
     let '(c, r) := queue_delete_with json_valid constraint_failed no_rows faults tbl rid base callback (on db n) in
     tables c = db ∧ is_err r = true) ∧
  (∀ q (f : ProtocolQueue → @Sql App SqlError unit), let '(c, _, r) := transaction faults (q ←? merge_durable no_rows; on_tables (f q)) q (on db n) in
     tables c = db ∧ is_err r = true).
Proof.
  intros Hj Ht. assert (load_queue_from (SqlError := SqlError) no_rows db = (db, Err (Raised Json))) as Hload.
  { unfold load_queue_from, bind, gets. by rewrite Hj, Ht. }
  assert (∀ A (body : ProtocolQueue → @Sql App SqlError A),
    let '(c, r) := sql_transaction faults (q ←? load_queue_from no_rows; body q) (on db n) in tables c = db ∧ is_err r = true) as Hsql.
  { intros A body. pose proof (sql_transaction_cases faults (q ←? load_queue_from no_rows; body q) (on db n)) as H3.
    destruct (sql_transaction _ _ _) as [c [a|e]]; [|done]. unfold bind in H3. cbn [tables on] in H3. by rewrite Hload in H3. }
  split; [intros; apply Hsql|]. split; [intros; apply Hsql|]. intros q f.
  pose proof (transaction_cases faults (q ←? merge_durable no_rows; on_tables (f q)) q (on db n)) as H3.
  destruct (transaction _ _ _ _) as [[c q'] [a|e]]; [|done]. unfold merge_durable, on_tables, bind in H3.
  cbn [tables on fst snd] in H3. by rewrite Hload in H3.
Qed.

Context `{!SqliteLaws}.

Lemma stale_clone_store db q d k : store_ok (SqlError := SqlError) db d → stale_clone db q → no_news q d k.
Proof. intros [_ (t & Hj & Ht) _ _ _ _] [_ Hc]. by eapply Hc. Qed.

Lemma client_id_merged q d : mergeable q d → client_id (merged q d) = client_id d.
Proof. intros Hm. rewrite <- (mg_client _ _ Hm). unfold merged. by destruct (_ <? _). Qed.

(** A transaction that merges in the durable queue, whatever its fate. *)
Lemma merging_step faults (f : ProtocolQueue → Sql (App := App) (SqlError := SqlError) unit) q db d n c q' r :
  store_ok (SqlError := SqlError) db d →
  transaction faults (q ←? merge_durable no_rows; on_tables (f q)) q (on db n) = (c, q', r) →
  ((q ←? merge_durable no_rows; on_tables (f q)) (db, q) = ((tables c, q'), Ok ()) → store_ok (SqlError := SqlError) (tables c) q') →
  ∃ d', store_ok (SqlError := SqlError) (tables c) d' ∧ client_id d' = client_id d.
Proof.
  intros Hok E Hkeep. pose proof (transaction_cases faults (q ←? merge_durable no_rows; on_tables (f q)) q (on db n)) as Ht.
  rewrite E in Ht. destruct r as [[]|e]; [|exists d; by rewrite Ht].
  cbn [tables on] in Ht. destruct (merge_then _ _ _ _ _ _ _ Hok Ht) as (Hm & Hq' & _).
  exists q'. split; [by apply Hkeep|]. rewrite Hq'. by apply client_id_merged.
Qed.

Lemma queue_client q m b q' r : queue q m b = (q', r) → client_id q' = client_id q.
Proof.
  destruct r as [id|e]; intros Hq; [by apply queue_ok_inv in Hq as (_ & _ & _ & _ & ->)|].
  by apply queue_err_inv in Hq as [-> _].
Qed.

Lemma store_step_keeps db db' d : store_ok (SqlError := SqlError) db d → store_step db db' →
  ∃ d', store_ok (SqlError := SqlError) db' d' ∧ client_id d' = client_id d.
Proof.
  intros Hok Hs. destruct Hs as [faults n cid p b c r E|faults n tbl rid v base res callback c r Hv Hown E
    |faults n tbl rid base callback c r Hown E|faults n q c q' r [Hw Hc] E|faults n q0 q request response m c q' r [Hw Hc] Hq0 Ha E
    |faults n q changes c q' r [Hw Hc] E|faults n q records c q' r Hw E].
  - pose proof (sql_transaction_cases faults (initialize json_valid no_rows cid p b) (on db n)) as Ht. rewrite E in Ht.
    destruct r as [[]|e]; [|exists d; by rewrite Ht]. exists d.
    by destruct (initialize_again _ _ _ _ _ _ _ _ Hok Ht) as [-> _].
  - pose proof (sql_transaction_cases faults (queue_upsert_in json_valid constraint_failed no_rows tbl rid v base res
      callback) (on db n)) as Ht.
    unfold queue_upsert_with in E. rewrite E in Ht. destruct r as [id|e]; [|exists d; by rewrite Ht].
    destruct (queue_upsert_keeps _ _ _ _ _ _ _ _ _ _ _ _ _ Hok Hv Hown Ht) as (d' & Hq & Hok'). exists d'. split; [done|].
    apply queue_upsert_inv in Hq as (_ & _ & text & _ & _ & Hq). by eapply queue_client.
  - pose proof (sql_transaction_cases faults (queue_delete_in json_valid constraint_failed no_rows tbl rid base
      callback) (on db n)) as Ht.
    unfold queue_delete_with in E. rewrite E in Ht. destruct r as [id|e]; [|exists d; by rewrite Ht].
    destruct (queue_delete_keeps _ _ _ _ _ _ _ _ _ _ _ Hok Hown Ht) as (d' & Hq & Hok'). exists d'. split; [done|].
    apply queue_delete_inv in Hq as (_ & _ & Hq). by eapply queue_client.
  - eapply merging_step; [exact Hok|exact E|]. intros Hrun.
    eapply persist_queue_keeps; [done|exact Hok|exact Hw|intros; by eapply stale_clone_store|exact Hrun].
  - eapply merging_step; [exact Hok|exact E|]. intros Hrun.
    eapply ack_keeps; [done|exact Hok|exact Hq0|exact Hw|intros; by eapply stale_clone_store|exact Ha|exact Hrun].
  - eapply merging_step; [exact Hok|exact E|]. intros Hrun.
    eapply changes_keeps; [done|exact Hok|exact Hw|intros; by eapply stale_clone_store|exact Hrun].
  - eapply merging_step; [exact Hok|exact E|]. intros Hrun.
    eapply snapshot_keeps; [done|exact Hok|exact Hw|exact Hrun].
Qed.

Lemma store_steps_keep db db' : rtc store_step db db' → ∀ d, store_ok (SqlError := SqlError) db d →
  ∃ d', store_ok (SqlError := SqlError) db' d' ∧ client_id d' = client_id d.
Proof.
  induction 1 as [|db db1 db2 Hs _ IH]; intros d Hok; [by exists d|].
  destruct (store_step_keeps _ _ _ Hok Hs) as (d1 & Hok1 & <-). by apply IH.
Qed.
End Steps.

(** ** A concrete encoding of queues, for the closed examples *)

Definition option_json {A} (f : A → json) (o : option A) : json :=
  match o with Some a => JArray [f a] | None => JNull end.
Definition json_option {A} (f : json → option A) (v : json) : option (option A) :=
  match v with
  | JNull => Some None
  | JArray [v] => Some <$> f v
  | _ => None
  end.
Definition json_N (v : json) : option N := match v with JNumber (NPosInt n) => Some n | _ => None end.

Definition mutation_json (m : ProtocolMutation) : json :=
  JArray [JString (mutation_id m); JBool (operation m == Upsert); JString (table m); JString (record_id m);
          option_json id (payload m); option_json JString (base_revision m); JBool (resurrect m);
          JBool (is_pending m)].
Definition json_mutation (v : json) : option ProtocolMutation :=
  match v with
  | JArray [JString i; JBool up; JString t; JString r; p; b; JBool res; JBool pend] =>
      p ← json_option Some p; b ← json_option as_str b;
      Some {| mutation_id := i; operation := if up then Upsert else Delete; table := t; record_id := r;
              payload := p; base_revision := b; resurrect := res; status := if pend then Pending else Confirmed |}
  | _ => None
  end.

Definition json_entry (v : json) : option (string * string) :=
  match v with JArray [JString k; JString p] => Some (k, p) | _ => None end.

Definition queue_value (q : ProtocolQueue) : json :=
  JArray [JString (client_id q); JNumber (NPosInt (next_mutation_id q)); JString (checkpoint q);
          JArray (List.map mutation_json (mutations q)); JNumber (NPosInt (max_pending_mutations q));
          JNumber (NPosInt (max_queued_payload_bytes q));
          JArray (List.map (λ e, JArray [JString e.1; JString e.2]) (consistency_policies q))].
Definition value_queue (v : json) : option ProtocolQueue :=
  match v with
  | JArray [JString c; JNumber (NPosInt n); JString ck; JArray ms; JNumber (NPosInt mp); JNumber (NPosInt mb);
            JArray ps] =>
      ms ← mapM json_mutation ms; ps ← mapM json_entry ps;
      Some {| client_id := c; next_mutation_id := n; checkpoint := ck; mutations := ms;
              max_pending_mutations := mp; max_queued_payload_bytes := mb; consistency_policies := ps |}
  | _ => None
  end.

Lemma json_mutation_json m : json_mutation (mutation_json m) = Some m.
Proof. by destruct m as [i [] t r [p|] [b|] res []]. Qed.

Lemma mapM_map {A B} (f : A → B) (g : B → option A) l : (∀ a, g (f a) = Some a) → mapM g (List.map f l) = Some l.
Proof. intros Hg. induction l as [|a l IH]; [done|]. cbn. by rewrite Hg, IH. Qed.

Lemma value_queue_value q : value_queue (queue_value q) = Some q.
Proof.
  destruct q as [c n ck ms mp mb ps]. cbn. rewrite (mapM_map _ _ _ json_mutation_json).
  cbn. rewrite mapM_map; [done|]. by intros [k p].
Qed.

Definition reference_queue_codec : QueueCodec :=
  {| queue_to_text q := to_text (SerdeJson := reference_codec) (queue_value q);
     queue_from_text t := v ← from_text (SerdeJson := reference_codec) t; value_queue v |}.

Definition any_text (t : string) : bool := true.

Lemma reference_sqlite_laws : @SqliteLaws reference_codec reference_queue_codec.
Proof.
  split; [intros q; apply (to_text_total (SerdeJsonLaws := reference_codec_laws))|].
  intros q t _ _ Ht. unfold queue_from_text, queue_to_text, reference_queue_codec in *.
  rewrite (reference_codec_round_trip _ _ Ht). apply value_queue_value.
Qed.

#[local] Existing Instance reference_codec.
#[local] Existing Instance reference_queue_codec.
#[local] Existing Instance reference_sqlite_laws.
#[local] Existing Instance trace_engine.

Definition no_faults (n : nat) : option (Fault unit) := None.

Definition demo_open : Connection unit * result unit (stop (SqliteStoreError unit)) :=
  open_store any_text () no_faults "c1" (empty_tables ()).
Definition demo_upsert : Connection unit * result string (stop (SqliteStoreError unit)) :=
  queue_upsert_record any_text () () no_faults "t" "a" (JObject []) None false demo_open.1.
Definition demo_load (c : Connection unit) : option ProtocolQueue :=
  ok (load_queue (SqlError := unit) () (tables c)).2.

Example demo_local :
  demo_upsert.2 = Ok "1" ∧ local (tables demo_upsert.1) !! ("t", "a") = Some ("{}*" +:+ default "" (to_text (JObject []))).
Proof. by vm_compute. Qed.

Definition demo_push : option PushRequest := q ← demo_load demo_upsert.1; ok (push_request q 100).
Definition demo_request : PushRequest :=
  default {| req_protocol_version := 1; req_client_id := ""; req_mutations := [] |} demo_push.
Definition demo_response : PushResponse :=
  {| resp_protocol_version := 1; resp_client_id := "c1"; resp_last_mutation_id := "1"; resp_checkpoint := "4";
     resp_results := [{| res_mutation_id := "1"; res_status := Applied; res_original_status := None;
                         res_checkpoint := Some "4"; res_revision := Some "5"; res_code := None;
                         res_message := None |}] |}.
Definition demo_before : ProtocolQueue := default example_queue (demo_load demo_upsert.1).
Definition demo_after : ProtocolQueue := (acknowledge demo_before demo_response demo_request).1.
Definition demo_acknowledged : Connection unit * ProtocolQueue * result unit (stop (SqliteStoreError unit)) :=
  persist_acknowledgement any_text () () no_faults demo_after demo_request demo_response demo_upsert.1.

(** Acknowledged, no longer pending, not yet pulled: the write is still in the view. *)
Example demo_overlay :
  demo_acknowledged.2 = Ok () ∧ pending demo_acknowledged.1.2 = []
  ∧ List.map fst (overlays (tables demo_acknowledged.1.1)) = [1%Z]
  ∧ local (tables demo_acknowledged.1.1) !! ("t", "a") = local (tables demo_upsert.1) !! ("t", "a").
Proof. by vm_compute. Qed.

(** A server that accepts the demo mutation and has nothing to send. *)
#[local] Instance demo_server : ProtocolTransport unit string := {
  tr_push request t := (t, Ok demo_response);
  tr_pull ck limit t := (t, Ok (Changes {| pull_protocol_version := 1; pull_checkpoint := ck;
                                          pull_has_more := false; pull_changes := [] |}));
  tr_snapshot reset t := (t, Err {| tf_source := "none"; tf_retryable := false; tf_retry_after := None |})
}.
Definition demo_aenv : aenv unit (Connection unit) :=
  {| a_queue := demo_before; a_transport := (); a_store := demo_upsert.1; a_result := empty_result "0" |}.
Definition demo_cycled : aenv unit (Connection unit) :=
  (sync_cycle_atomic (AtomicProtocolSyncStore0 := sqlite_store any_text () () no_faults) default_sync_options demo_aenv).1.

Lemma demo_payload : wire_payload (JObject []).
Proof. split; [by repeat constructor|]. split; [done|]. cbn. lia. Qed.

Lemma demo_store_ok : store_ok (SqlError := unit) (tables demo_upsert.1) demo_before.
Proof.
  assert (sql_transaction no_faults (initialize any_text () "c1" DEFAULT_MAX_PENDING_MUTATIONS
            DEFAULT_MAX_QUEUED_PAYLOAD_BYTES) {| tables := empty_tables (); begun := 0 |} = (demo_open.1, Ok ()))
    as Ho by (vm_compute; reflexivity).
  pose proof (sql_transaction_cases no_faults (initialize any_text () "c1" DEFAULT_MAX_PENDING_MUTATIONS
    DEFAULT_MAX_QUEUED_PAYLOAD_BYTES) {| tables := empty_tables (); begun := 0 |}) as Ht. rewrite Ho in Ht.
  assert (DEFAULT_MAX_PENDING_MUTATIONS ≤ u64_max) as Hmp by discriminate.
  assert (DEFAULT_MAX_QUEUED_PAYLOAD_BYTES ≤ u64_max) as Hmb by discriminate.
  destruct (initialize_fresh _ _ _ _ _ _ _ Hmp Hmb Ht) as (q0 & _ & Hok & _).
  assert (queue_upsert_in any_text () () "t" "a" (JObject []) None false
    (λ _ p, overlay_local_record any_text () ("t", "a") p) (tables demo_open.1) = (tables demo_upsert.1, Ok "1"))
    as Hu by (vm_compute; reflexivity).
  destruct (queue_upsert_keeps _ _ _ _ _ _ _ _ _ _ _ _ _ Hok demo_payload (λ _, own_maintains _) Hu) as (d & _ & Hd).
  destruct (so_queue _ _ Hd) as (t & Hj & Hq).
  assert (queue_json (tables demo_upsert.1) ≫= queue_from_text = Some demo_before) as E by (vm_compute; reflexivity).
  rewrite Hj in E. cbn in E. change (queue_from_text t = Some demo_before) in E. rewrite Hq in E. apply (inj Some) in E. rewrite <- E. exact Hd.
Qed.

(** ** Properties *)

(** C4: the store stays consistent.  From a database first opened by a client,
    whatever transactions any number of processes run, each failing at any
    statement or committing (opening, queueing with payloads that serde_json reads
    back and callbacks that keep the local view, persisting queues that confirm
    nothing the database still holds as pending), the stored queue is well-formed,
    readable and the client's, every overlay is on its own mutation's record, and
    the local view of every record is its authoritative row under the accepted
    overlays under the pending mutations. *)
Theorem store_stays_consistent `{MergeEngine} `{SerdeJson} `{QueueCodec} {App SqlError} json_valid
    (constraint_failed no_rows : SqlError) `{!SqliteLaws} faults cid max_pending max_bytes (a : App) c db :
  max_pending ≤ u64_max → max_bytes ≤ u64_max →
  open_with_limits json_valid no_rows faults cid max_pending max_bytes (empty_tables a) = (c, Ok ()) →
  rtc (store_step json_valid constraint_failed no_rows) (tables c) db →
  ∃ q, store_ok (SqlError := SqlError) db q ∧ client_id q = cid.
Proof.
  intros Hp Hb Ho Hs. pose proof (sql_transaction_cases faults (initialize json_valid no_rows cid max_pending max_bytes)
    {| tables := empty_tables a; begun := 0 |}) as Ht.
  unfold open_with_limits in Ho. rewrite Ho in Ht.
  destruct (initialize_fresh _ _ _ _ _ _ _ Hp Hb Ht) as (q0 & Hq0 & Hok & _).
  destruct (store_steps_keep _ _ _ _ _ Hs q0 Hok) as (q & Hq & Hc). exists q. split; [done|]. rewrite Hc.
  unfold with_limits in Hq0. by repeat case_match; simplify_eq/=.
Qed.

Lemma store_stays_consistent_witness :
  ∃ q, store_ok (SqlError := unit) (tables demo_upsert.1) q ∧ client_id q = "c1".
Proof.
  apply (store_stays_consistent (App := unit) any_text () () no_faults "c1"
    DEFAULT_MAX_PENDING_MUTATIONS DEFAULT_MAX_QUEUED_PAYLOAD_BYTES () demo_open.1 (tables demo_upsert.1)).
  - discriminate.
  - discriminate.
  - vm_compute; reflexivity.
  - apply rtc_once.
    apply (step_upsert_record any_text () () _ no_faults 1 "t" "a" (JObject []) None false demo_upsert.1 demo_upsert.2 demo_payload).
    vm_compute; reflexivity.
Defined.

(** C11: a synchronization cycle on a SQLite store that holds the queue in
    memory, whose payloads serde_json reads back, leaves a store that holds the
    queue in memory, consistent record views included, however the server answers,
    wherever transactions fail and however the cycle ends; the checkpoint never
    moves back. *)
Theorem sync_cycle_on_sqlite `{MergeEngine} `{SerdeJson} `{QueueCodec} {T ET App SqlError}
    `{!ProtocolTransport T ET} json_valid (constraint_failed no_rows : SqlError) `{!SqliteLaws}
    faults o (s : aenv T (Connection App)) :
  store_ok (SqlError := SqlError) (tables (a_store s)) (a_queue s) →
  let s' := (sync_cycle_atomic (AtomicProtocolSyncStore0 := sqlite_store json_valid constraint_failed no_rows faults) o s).1 in
  store_ok (SqlError := SqlError) (tables (a_store s')) (a_queue s') ∧ queue_ck (a_queue s) ≤ queue_ck (a_queue s').
Proof.
  intros Hs. pose proof (sync_cycle_atomic_always
    (AtomicProtocolSyncStore0 := sqlite_store json_valid constraint_failed no_rows faults) sqlite_holds o s Hs) as Ha.
  cbn zeta. by destruct (sync_cycle_atomic _ _) as [s' r].
Qed.

Lemma sync_cycle_on_sqlite_witness :
  store_ok (SqlError := unit) (tables (a_store demo_cycled)) (a_queue demo_cycled)
  ∧ pending (a_queue demo_cycled) = [].
Proof.
  split; [|vm_compute; reflexivity].
  exact (proj1 (sync_cycle_on_sqlite any_text () () no_faults default_sync_options demo_aenv demo_store_ok)).
Defined.

(** Acknowledging on disk.  A committed acknowledgement stores the merged
    queue, leaves the authoritative rows and the application's tables alone,
    keeps every other overlay until the queue has pulled past it, and leaves an
    overlay with the sent content for every accepted mutation unless the queue
    already has; a failed one changes no table. *)
Theorem persist_acknowledgement_correct `{MergeEngine} `{SerdeJson} `{QueueCodec} {App SqlError} json_valid
    (constraint_failed no_rows : SqlError) `{!SqliteLaws} faults (c c' : Connection App) d q0 q q' request response n r :
  store_ok (SqlError := SqlError) (tables c) d → queue_ok q0 → wire_queue q0 → (∀ k, no_news q0 d k) →
  acknowledge q0 response request = (q, Ok n) →
  persist_acknowledgement json_valid constraint_failed no_rows faults q request response c = (c', q', r) →
  match r with
  | Err _ => tables c' = tables c
  | Ok _ =>
      q' = merged q d ∧ store_ok (SqlError := SqlError) (tables c') q'
      ∧ authoritative (tables c') = authoritative (tables c) ∧ application (tables c') = application (tables c)
      ∧ (∀ id o, (id, o) ∈ overlays (tables c) →
           (∀ sent, sent ∈ req_mutations request → id ≠ Z.of_N (row_id sent)) →
           (id, o) ∈ overlays (tables c') ∨ covered q' o)
      ∧ ∀ sent r, (sent, r) ∈ combine (req_mutations request) (resp_results response) → was_accepted r = true →
          ∃ o, overlay_of (SqlError := SqlError) sent r o
               ∧ ((Z.of_N (row_id sent), o) ∈ overlays (tables c') ∨ covered q' o)
  end.
Proof.
  intros Hok Hq0 Hw Hno Ha E. pose proof (transaction_cases faults (q ←? merge_durable no_rows;
    on_tables (acknowledgement_in json_valid constraint_failed request response q)) q c) as Ht.
  unfold persist_acknowledgement in E. rewrite E in Ht. destruct r as [[]|e]; [|done].
  by eapply ack_keeps.
Qed.

Lemma persist_acknowledgement_correct_witness :
  store_ok (SqlError := unit) (tables demo_acknowledged.1.1) demo_acknowledged.1.2
  ∧ authoritative (tables demo_acknowledged.1.1) = authoritative (tables demo_upsert.1).
Proof.
  pose proof (persist_acknowledgement_correct any_text () () no_faults demo_upsert.1 demo_acknowledged.1.1
    demo_before demo_before demo_after demo_acknowledged.1.2 demo_request demo_response 1 (Ok ())
    demo_store_ok (so_valid _ _ demo_store_ok) (so_wire _ _ demo_store_ok) (λ k, no_news_refl demo_before k)
    ltac:(vm_compute; reflexivity) ltac:(vm_compute; reflexivity)) as (_ & Hok & Hauth & _).
  split; [exact Hok|exact Hauth].
Defined.

(** C39: opening an existing database never changes it.  It succeeds for the
    client whose queue it holds and refuses any other client, unusable limits
    and another schema version with the matching error. *)
Theorem open_existing_correct `{MergeEngine} `{SerdeJson} `{QueueCodec} {App SqlError} json_valid (no_rows : SqlError)
    `{!SqliteLaws} faults cid max_pending max_bytes (db : Tables App) c r :
  faults 0%nat = None → open_with_limits json_valid no_rows faults cid max_pending max_bytes db = (c, r) →
  (∀ d, store_ok (SqlError := SqlError) db d →
     tables c = db ∧
     r = match with_limits cid max_pending max_bytes with
         | Err e => Err (Raised (Protocol e))
         | Ok _ => if client_id d == cid then Ok () else Err (Raised (ClientMismatch cid (client_id d)))
         end)
  ∧ (∀ v, schema db = Some v → parse_i64 v ≠ Some SCHEMA_VERSION →
     tables c = db ∧ r = Err (Raised (UnsupportedSchema (default (-1)%Z (parse_i64 v))))).
Proof.
  intros Hf. unfold open_with_limits, sql_transaction, transaction, on_tables. cbn [begun tables fst snd]. rewrite Hf.
  destruct (initialize json_valid no_rows cid max_pending max_bytes db) as [db' r'] eqn:Hi. intros E.
  assert (∀ e, r' = Err e → tables c = db ∧ r = Err e) as Herr by (by intros e ->; injection E as <- <-).
  split.
  - intros d Hok. destruct r' as [[]|e].
    + destruct (initialize_again _ _ _ _ _ _ _ _ Hok Hi) as [-> Hc]. injection E as <- <-. split; [done|].
      apply initialize_ok in Hi as (initial & text & q & t & -> & _).
      by rewrite bool_decide_true.
    + destruct (Herr e eq_refl) as [-> ->]. split; [done|]. clear E Herr.
      destruct Hok as [Hs (t & Hj & Ht) Hq%validate_iff _ _ _]. revert Hi. unfold initialize, bind, gets. cbn [id].
      rewrite Hs. cbn [ret]. rewrite Hs. change (parse_i64 "1") with (Some SCHEMA_VERSION). cbn.
      destruct (with_limits cid max_pending max_bytes) as [initial|e']; [|by intros [= _ <-]].
      destruct (queue_text_total initial) as [text Htext]. rewrite Htext. cbn. rewrite Hj. cbn.
      unfold load_queue_from, bind, gets. rewrite Hj, Ht, Hq. cbn.
      destruct (bool_decide_reflect (client_id d = cid)); by intros [= _ <-].
  - intros v Hv Hne. apply Herr. revert Hi. unfold initialize, bind, gets. cbn [id].
    rewrite Hv. cbn [ret]. rewrite Hv. destruct (parse_i64 v) as [z|]; [|by intros [= _ <-]].
    destruct (Z.eqb_spec z SCHEMA_VERSION) as [->|]; [done|]. by intros [= _ <-].
Qed.

Lemma open_existing_correct_witness :
  (open_store any_text () no_faults "c2" (tables demo_upsert.1)).2 = Err (Raised (ClientMismatch "c2" "c1")).
Proof.
  exact (proj2 (proj1 (open_existing_correct any_text () no_faults "c2" DEFAULT_MAX_PENDING_MUTATIONS
    DEFAULT_MAX_QUEUED_PAYLOAD_BYTES (tables demo_upsert.1)
    (open_store any_text () no_faults "c2" (tables demo_upsert.1)).1 _ eq_refl (surjective_pairing _))
    demo_before demo_store_ok)).
Defined.
