(* ===== verification/Connectivity.v ===== *)
(** * Connectivity: the connectivity watcher and post-save signals

    Models [clients/rust-connectivity/src/lib.rs] without its browser adapter.
    Each lock is taken and released inside one step of the model, so an
    interleaving of threads is an interleaving of these steps; a method is the
    sequence of its steps.  Callbacks are observed through the log of their
    invocations: a panic in one is caught and changes nothing else. *)

From S2P Require Import Prelude.

Inductive ConnState := Unknown | Offline | Link | Internet.
#[export] Instance ConnState_eq_dec : EqDecision ConnState.
Proof. solve_decision. Defined.

Inductive Mode := Automatic | OfflineMode.
#[export] Instance Mode_eq_dec : EqDecision Mode.
Proof. solve_decision. Defined.

Inductive Source := SInitial | SManual | SPlatform | SProbe | SForcedOffline.
#[export] Instance Source_eq_dec : EqDecision Source.
Proof. solve_decision. Defined.

Record ConnSnapshot := {
  cs_state : ConnState;
  cs_mode : Mode;
  cs_source : Source;
  changed_at_ms : N;
  verified_at_ms : option N
}.
#[export] Instance ConnSnapshot_eq_dec : EqDecision ConnSnapshot.
Proof. solve_decision. Defined.

Definition has_verified_internet (s : ConnSnapshot) : bool :=
  (cs_mode s == Automatic) && (cs_state s == Internet).

Inductive SaveOperation := SaveUpsert | SaveDelete.
#[export] Instance SaveOperation_eq_dec : EqDecision SaveOperation.
Proof. solve_decision. Defined.

Record SaveMetadata := { sm_table_name : string; sm_record_id : string; sm_operation : SaveOperation }.

Record LocalSaveEvent := {
  ev_queue_id : string;
  ev_table_name : string;
  ev_record_id : string;
  ev_operation : SaveOperation;
  ev_saved_at_ms : N;
  ev_connectivity : ConnSnapshot
}.
#[export] Instance LocalSaveEvent_eq_dec : EqDecision LocalSaveEvent.
Proof. solve_decision. Defined.

(** Who listens to the watcher: an application, or the save signals' bridge
    that turns a verified connection into a wake hint. *)
Inductive Listener := AppListener | SignalsBridge.

(** The invocations of callbacks, in order. *)
Inductive Delivery :=
| ToListener (id : N) (next previous : ConnSnapshot)
| ToSave (id : N) (event : LocalSaveEvent)
| ToOnlineSave (id : N) (event : LocalSaveEvent)
| WakeHint.
#[export] Instance Delivery_eq_dec : EqDecision Delivery.
Proof. solve_decision. Defined.

Inductive SaveListenerKind := AllSaves | OnlineSaves.

(** The watcher's state, the save signals' state and the log.  The listener
    maps are in ascending order of their keys. *)
Record World := {
  current : ConnSnapshot;
  automatic : ConnSnapshot;
  listeners : list (N * Listener);
  next_listener_id : N;
  save_listeners : list N;
  online_listeners : list N;
  wake_hint : bool;
  next_save_id : N;
  log : list Delivery
}.

Definition set_current (s : ConnSnapshot) (w : World) : World :=
  {| current := s; automatic := automatic w; listeners := listeners w;
     next_listener_id := next_listener_id w; save_listeners := save_listeners w;
     online_listeners := online_listeners w; wake_hint := wake_hint w;
     next_save_id := next_save_id w; log := log w |}.
Definition set_automatic (s : ConnSnapshot) (w : World) : World :=
  {| current := current w; automatic := s; listeners := listeners w;
     next_listener_id := next_listener_id w; save_listeners := save_listeners w;
     online_listeners := online_listeners w; wake_hint := wake_hint w;
     next_save_id := next_save_id w; log := log w |}.
Definition set_listeners (l : list (N * Listener)) (next : N) (w : World) : World :=
  {| current := current w; automatic := automatic w; listeners := l;
     next_listener_id := next; save_listeners := save_listeners w;
     online_listeners := online_listeners w; wake_hint := wake_hint w;
     next_save_id := next_save_id w; log := log w |}.
Definition set_savers (all online : list N) (next : N) (w : World) : World :=
  {| current := current w; automatic := automatic w; listeners := listeners w;
     next_listener_id := next_listener_id w; save_listeners := all;
     online_listeners := online; wake_hint := wake_hint w; next_save_id := next; log := log w |}.
Definition set_wake_hint (b : bool) (w : World) : World :=
  {| current := current w; automatic := automatic w; listeners := listeners w;
     next_listener_id := next_listener_id w; save_listeners := save_listeners w;
     online_listeners := online_listeners w; wake_hint := b;
     next_save_id := next_save_id w; log := log w |}.
Definition add_log (ds : list Delivery) (w : World) : World :=
  {| current := current w; automatic := automatic w; listeners := listeners w;
     next_listener_id := next_listener_id w; save_listeners := save_listeners w;
     online_listeners := online_listeners w; wake_hint := wake_hint w;
     next_save_id := next_save_id w; log := log w ++ ds |}.

(** [BTreeMap::insert] and [remove] by numeric key. *)
Fixpoint keyed_insert {V} (k : N) (v : V) (l : list (N * V)) : list (N * V) :=
  match l with
  | [] => [(k, v)]
  | (k', v') :: l' =>
      if k <? k' then (k, v) :: l else if k =? k' then (k, v) :: l' else (k', v') :: keyed_insert k v l'
  end.

Fixpoint id_insert (k : N) (l : list N) : list N :=
  match l with
  | [] => [k]
  | k' :: l' => if k <? k' then k :: l else if k =? k' then l else k' :: id_insert k l'
  end.

(** [AtomicUsize::fetch_add] wraps around (64-bit hosts). *)
Definition fetch_add (n : N) : N := (n + 1) mod 18446744073709551616.

(** ** The watcher *)

(** [ConnectivityWatcher::new], and no save signals yet. *)
Definition new_watcher (initial : ConnState) (now : N) : World :=
  let snapshot := {| cs_state := initial; cs_mode := Automatic; cs_source := SInitial; changed_at_ms := now;
                     verified_at_ms := if initial == Internet then Some now else None |} in
  {| current := snapshot; automatic := snapshot; listeners := []; next_listener_id := 1;
     save_listeners := []; online_listeners := []; wake_hint := false; next_save_id := 1; log := [] |}.

Definition snapshot (w : World) : ConnSnapshot := current w.

Definition invoke_wake (w : World) : World := if wake_hint w then add_log [WakeHint] w else w.

Definition invoke_connectivity (l : N * Listener) (next previous : ConnSnapshot) (w : World) : World :=
  match l with
  | (id, AppListener) => add_log [ToListener id next previous] w
  | (_, SignalsBridge) =>
      if has_verified_internet next && negb (has_verified_internet previous) then invoke_wake w else w
  end.

Definition subscribe (emit_current : bool) (listener : Listener) (w : World) : World * N :=
  let id := next_listener_id w in
  let w := set_listeners (keyed_insert id listener (listeners w)) (fetch_add id) w in
  (if emit_current then invoke_connectivity (id, listener) (snapshot w) (snapshot w) w else w, id).

(** Dropping a [ConnectivitySubscription]. *)
Definition unsubscribe (id : N) (w : World) : World :=
  set_listeners (List.filter (λ l, negb (l.1 =? id)) (listeners w)) (next_listener_id w) w.

(** The locked part of [publish_at]: the observation and whether it shows. *)
Definition record_observation (state : ConnState) (source : Source) (observed_at_ms : N) (w : World)
  : World * (ConnSnapshot * bool) :=
  let changed := if cs_state (automatic w) == state then changed_at_ms (automatic w) else observed_at_ms in
  let auto := {| cs_state := state; cs_mode := Automatic; cs_source := source; changed_at_ms := changed;
                 verified_at_ms := if state == Internet then Some observed_at_ms else None |} in
  (set_automatic auto w, (auto, cs_mode (current w) == Automatic)).

(** The locked part of [transition]: what it replaced, set and whether that is a change. *)
Definition replace_current (candidate : ConnSnapshot) (w : World)
  : World * (ConnSnapshot * ConnSnapshot * bool) :=
  let previous := current w in
  let changed := negb (cs_state previous == cs_state candidate) || negb (cs_mode previous == cs_mode candidate) in
  let next := {| cs_state := cs_state candidate; cs_mode := cs_mode candidate; cs_source := cs_source candidate;
                 changed_at_ms := if changed then changed_at_ms candidate else changed_at_ms previous;
                 verified_at_ms := verified_at_ms candidate |} in
  (set_current next w, (previous, next, changed)).

(** The listeners are read once; each is then invoked in turn. *)
Definition notify_listeners (next previous : ConnSnapshot) (w : World) : World :=
  fold_left (λ w l, invoke_connectivity l next previous w) (listeners w) w.

Definition transition (candidate : ConnSnapshot) (w : World) : World * ConnSnapshot :=
  let '(w, (previous, next, changed)) := replace_current candidate w in
  (if changed then notify_listeners next previous w else w, next).

Definition publish_at (state : ConnState) (source : Source) (observed_at_ms : N) (w : World)
  : World * ConnSnapshot :=
  let '(w, (auto, expose)) := record_observation state source observed_at_ms w in
  if expose then transition auto w else (w, snapshot w).

Definition publish (state : ConnState) (source : Source) (now : N) : World → World * ConnSnapshot :=
  publish_at state source now.

Definition publish_verified_internet (now : N) : World → World * ConnSnapshot := publish Internet SProbe now.

Definition forced_offline (now : N) : ConnSnapshot :=
  {| cs_state := Offline; cs_mode := OfflineMode; cs_source := SForcedOffline; changed_at_ms := now;
     verified_at_ms := None |}.

Definition with_changed_at (now : N) (s : ConnSnapshot) : ConnSnapshot :=
  {| cs_state := cs_state s; cs_mode := cs_mode s; cs_source := cs_source s; changed_at_ms := now;
     verified_at_ms := verified_at_ms s |}.

Definition set_total_offline (enabled : bool) (now : N) (w : World) : World * ConnSnapshot :=
  let cur := snapshot w in
  if Bool.eqb enabled (cs_mode cur == OfflineMode) then (w, cur)
  else if enabled then transition (forced_offline now) w
  else transition (with_changed_at now (automatic w)) w.

(** One turn of the probe thread; [None] is a probe that panicked. *)
Definition probe_turn (probed : option ConnState) (now : N) (w : World) : World :=
  if cs_mode (snapshot w) == Automatic then
    let state := default Unknown probed in
    (publish state (if state == Internet then SProbe else SPlatform) now w).1
  else w.

Inductive ProbeError := ZeroInterval | SpawnFailed.

(** What [spawn_probe] checks before the thread is spawned. *)
Definition check_interval (interval_ns : N) : result unit ProbeError :=
  if interval_ns =? 0 then Err ZeroInterval else Ok ().

Definition SLICE : N := 100000000.

(** [sleep_until_stopped]: the slices slept; [stopped n] is the n-th reading of
    the flag.  Each slice shortens what remains, so the fuel is its count. *)
Fixpoint sleep_slices (fuel : nat) (remaining : N) (stopped : nat → bool) (n : nat) : list N :=
  match fuel with
  | O => []
  | S fuel =>
      if negb (remaining =? 0) && negb (stopped n) then
        let sleep_for := N.min remaining SLICE in
        sleep_for :: sleep_slices fuel (remaining - sleep_for) stopped (S n)
      else []
  end.

Definition sleep_until_stopped (interval : N) (stopped : nat → bool) : list N :=
  sleep_slices (S (N.to_nat (interval / SLICE + 1))) interval stopped 0.

(** ** The save signals *)

(** [SaveSignals::new] bridges the watcher to the wake hint. *)
Definition new_signals (w : World) : World := (subscribe false SignalsBridge w).1.

Definition clear_wake_hint : World → World := set_wake_hint false.

Definition add_listener (kind : SaveListenerKind) (w : World) : World * N :=
  let id := next_save_id w in
  (match kind with
   | AllSaves => set_savers (id_insert id (save_listeners w)) (online_listeners w) (fetch_add id) w
   | OnlineSaves => set_savers (save_listeners w) (id_insert id (online_listeners w)) (fetch_add id) w
   end, id).

(** Dropping a [SaveSubscription]. *)
Definition drop_listener (kind : SaveListenerKind) (id : N) (w : World) : World :=
  let without := List.filter (λ k, negb (k =? id)) in
  match kind with
  | AllSaves => set_savers (without (save_listeners w)) (online_listeners w) (next_save_id w) w
  | OnlineSaves => set_savers (save_listeners w) (without (online_listeners w)) (next_save_id w) w
  end.

Definition notify_after_durable_save (queue_id : string) (metadata : SaveMetadata) (now : N) (w : World)
  : World * LocalSaveEvent :=
  let connectivity := snapshot w in
  let event := {| ev_queue_id := queue_id; ev_table_name := sm_table_name metadata;
                  ev_record_id := sm_record_id metadata; ev_operation := sm_operation metadata;
                  ev_saved_at_ms := now; ev_connectivity := connectivity |} in
  let w := add_log (List.map (λ id, ToSave id event) (save_listeners w)) w in
  let w := if has_verified_internet connectivity
           then add_log (List.map (λ id, ToOnlineSave id event) (online_listeners w)) w else w in
  let w := if (cs_mode connectivity == Automatic) && negb (cs_state connectivity == Offline)
           then invoke_wake w else w in
  (w, event).

(** [after_durable_save_sync], and the asynchronous one; the save itself acts
    elsewhere and is its result here. *)
Definition after_durable_save {T E} (metadata : SaveMetadata) (saved : result T E) (queue_id : T → string)
    (now : N) (w : World) : World * result T E :=
  match saved with
  | Err e => (w, Err e)
  | Ok value => ((notify_after_durable_save (queue_id value) metadata now w).1, Ok value)
  end.

(** ** Specification *)

(** The watcher's calls. *)
Inductive WatcherCall :=
| CallPublish (state : ConnState) (source : Source) (now : N)
| CallSetOffline (enabled : bool) (now : N)
| CallProbe (probed : option ConnState) (now : N).

Definition watcher_step (c : WatcherCall) (w : World) : World :=
  match c with
  | CallPublish state source now => (publish state source now w).1
  | CallSetOffline enabled now => (set_total_offline enabled now w).1
  | CallProbe probed now => probe_turn probed now w
  end.

(** What an application means by those calls: whether it forced itself offline
    and the latest observation, which is kept while it is. *)
Record Intent := { forced : bool; observed : ConnState }.

Definition intent_step (c : WatcherCall) (i : Intent) : Intent :=
  match c with
  | CallPublish state _ _ => {| forced := forced i; observed := state |}
  | CallSetOffline enabled _ => {| forced := enabled; observed := observed i |}
  | CallProbe probed _ => if forced i then i else {| forced := false; observed := default Unknown probed |}
  end.

Definition intent_view (i : Intent) : ConnState * Mode :=
  if forced i then (Offline, OfflineMode) else (observed i, Automatic).

Definition view (s : ConnSnapshot) : ConnState * Mode := (cs_state s, cs_mode s).

(** A verification time is shown exactly for a verified connection. *)
Definition honest (s : ConnSnapshot) : Prop :=
  is_some (verified_at_ms s) = has_verified_internet s.

(** The log entries of one notification. *)
Definition delivered (next previous : ConnSnapshot) (w : World) (l : N * Listener) : list Delivery :=
  match l with
  | (id, AppListener) => [ToListener id next previous]
  | (_, SignalsBridge) =>
      if has_verified_internet next && negb (has_verified_internet previous) && wake_hint w then [WakeHint] else []
  end.

(** *** Interleavings *)

(** What is left of a call another thread is making. *)
Inductive Pending :=
| PPublish (state : ConnState) (source : Source) (now : N)
| PSetOffline (enabled : bool) (now : N)
| PRelease (now : N)
| PTransition (candidate : ConnSnapshot)
| PNotify (next previous : ConnSnapshot).

Definition pending_step (p : Pending) (w : World) : World * option Pending :=
  match p with
  | PPublish state source now =>
      let '(w, (auto, expose)) := record_observation state source now w in
      (w, if expose then Some (PTransition auto) else None)
  | PSetOffline enabled now =>
      (w, if Bool.eqb enabled (cs_mode (snapshot w) == OfflineMode) then None
          else if enabled then Some (PTransition (forced_offline now)) else Some (PRelease now))
  | PRelease now => (w, Some (PTransition (with_changed_at now (automatic w))))
  | PTransition candidate =>
      let '(w, (previous, next, changed)) := replace_current candidate w in
      (w, if changed then Some (PNotify next previous) else None)
  | PNotify next previous => (notify_listeners next previous w, None)
  end.

(** The scheduler picks the thread that takes the next step. *)
Fixpoint interleave (schedule : list nat) (threads : list (option Pending)) (w : World)
  : World * list (option Pending) :=
  match schedule with
  | [] => (w, threads)
  | i :: schedule =>
      match threads !! i with
      | Some (Some p) =>
          let '(w, p') := pending_step p w in interleave schedule (<[i := p']> threads) w
      | _ => interleave schedule threads w
      end
  end.

(** One thread running alone is the method. *)
Fixpoint run_alone (fuel : nat) (p : option Pending) (w : World) : World * option Pending :=
  match fuel, p with
  | S fuel, Some p => let '(w, p') := pending_step p w in run_alone fuel p' w
  | _, _ => (w, p)
  end.

(** ** Lemmas *)

(** Evaluates the comparisons of closed constants. *)
Ltac decide_closed :=
  repeat match goal with
  | |- context [bool_decide (?a = ?b)] =>
      let v := eval vm_compute in (bool_decide (a = b)) in
      lazymatch v with true => idtac | false => idtac end;
      change (bool_decide (a = b)) with v
  end.

Lemma add_log_nil w : add_log [] w = w.
Proof. unfold add_log. rewrite app_nil_r. by destruct w. Qed.

Lemma invoke_log l next previous w : invoke_connectivity l next previous w = add_log (delivered next previous w l) w.
Proof.
  destruct l as [id []]; [done|]. unfold invoke_connectivity, delivered, invoke_wake.
  destruct (_ && negb _), (wake_hint w); try done; by rewrite add_log_nil.
Qed.

Lemma add_log_app ds ds' w : add_log ds' (add_log ds w) = add_log (ds ++ ds') w.
Proof. unfold add_log. cbn. by rewrite app_assoc. Qed.

Lemma notify_log next previous w :
  notify_listeners next previous w = add_log (flat_map (delivered next previous w) (listeners w)) w.
Proof.
  unfold notify_listeners. enough (∀ ls ds,
    fold_left (λ w l, invoke_connectivity l next previous w) ls (add_log ds w)
    = add_log (ds ++ flat_map (delivered next previous w) ls) w) as Hls.
  { specialize (Hls (listeners w) []). by rewrite add_log_nil in Hls. }
  induction ls as [|l ls IH]; intros ds; cbn [fold_left flat_map]; [by rewrite app_nil_r|].
  rewrite invoke_log, add_log_app. change (delivered next previous (add_log ds w) l) with (delivered next previous w l).
  by rewrite IH, app_assoc.
Qed.

Lemma transition_spec candidate w :
  transition candidate w =
    let next := {| cs_state := cs_state candidate; cs_mode := cs_mode candidate; cs_source := cs_source candidate;
                   changed_at_ms := if view (current w) == view candidate then changed_at_ms (current w)
                                    else changed_at_ms candidate;
                   verified_at_ms := verified_at_ms candidate |} in
    (add_log (if view (current w) == view candidate then []
              else flat_map (delivered next (current w) w) (listeners w)) (set_current next w), next).
Proof.
  unfold transition, replace_current. cbv zeta. unfold view.
  assert (Hv : negb (cs_state (current w) == cs_state candidate) || negb (cs_mode (current w) == cs_mode candidate)
               = negb ((cs_state (current w), cs_mode (current w)) == (cs_state candidate, cs_mode candidate))).
  { rewrite <- negb_andb. f_equal. apply eq_true_iff_eq. rewrite andb_true_iff, !bool_decide_eq_true.
    split; [by intros [-> ->]|by intros [= -> ->]]. }
  rewrite Hv. destruct ((cs_state (current w), cs_mode (current w)) == (cs_state candidate, cs_mode candidate));
    cbn [negb]; [by rewrite add_log_nil|]. by rewrite notify_log.
Qed.

Lemma transition_view candidate w : view (current (transition candidate w).1) = view candidate
  ∧ automatic (transition candidate w).1 = automatic w ∧ listeners (transition candidate w).1 = listeners w
  ∧ verified_at_ms (current (transition candidate w).1) = verified_at_ms candidate.
Proof. by rewrite transition_spec. Qed.

(** The watcher's state against what the application means. *)
Definition meets (w : World) (i : Intent) : Prop :=
  view (current w) = intent_view i ∧ view (automatic w) = (observed i, Automatic)
  ∧ honest (current w) ∧ honest (automatic w).

Lemma honest_view s s' : view s = view s' → verified_at_ms s = verified_at_ms s' → honest s → honest s'.
Proof. unfold honest, has_verified_internet. intros [= -> ->] ->. done. Qed.

Lemma honest_published state source changed now :
  honest {| cs_state := state; cs_mode := Automatic; cs_source := source; changed_at_ms := changed;
            verified_at_ms := if state == Internet then Some now else None |}.
Proof. by destruct state. Qed.

Lemma transition_meets candidate w i : view candidate = intent_view i → honest candidate →
  view (automatic w) = (observed i, Automatic) → honest (automatic w) → meets (transition candidate w).1 i.
Proof.
  intros Hv Hh Ha Hha. destruct (transition_view candidate w) as (Hv' & Ha' & _ & Hver).
  unfold meets. rewrite Ha', Hv'. split_and!; try done. by eapply (honest_view candidate).
Qed.

Lemma publish_meets state source now w i : meets w i →
  meets (publish state source now w).1 {| forced := forced i; observed := state |}.
Proof.
  intros (Hc & Ha & Hhc & Hha). unfold publish, publish_at, record_observation.
  set (auto := {| cs_state := state |}). cbn [automatic set_automatic].
  assert (Hmode : (cs_mode (current w) == Automatic) = negb (forced i)).
  { unfold view, intent_view in Hc. destruct (forced i); injection Hc as _ ->; done. }
  rewrite Hmode. destruct (forced i) eqn:Hf; cbn [negb fst].
  - unfold meets. cbn [current automatic set_automatic]. split_and!; try done.
    + rewrite Hc. unfold intent_view. by rewrite Hf.
    + apply honest_published.
  - apply transition_meets; try done; apply honest_published.
Qed.

Lemma set_offline_meets enabled now w i : meets w i →
  meets (set_total_offline enabled now w).1 {| forced := enabled; observed := observed i |}.
Proof.
  intros (Hc & Ha & Hhc & Hha). unfold set_total_offline, snapshot.
  assert (Hmode : (cs_mode (current w) == OfflineMode) = forced i).
  { unfold view, intent_view in Hc. destruct (forced i); injection Hc as _ ->; done. }
  rewrite Hmode. destruct (Bool.eqb enabled (forced i)) eqn:He.
  - apply eqb_prop in He as ->. unfold meets. cbn. split_and!; try done.
  - destruct enabled.
    + by apply transition_meets.
    + by apply transition_meets.
Qed.

Lemma watcher_step_meets c w i : meets w i → meets (watcher_step c w) (intent_step c i).
Proof.
  intros Hm. destruct c as [state source now|enabled now|probed now]; cbn [watcher_step intent_step].
  - by apply publish_meets.
  - by apply set_offline_meets.
  - unfold probe_turn, snapshot. pose proof Hm as (Hc & _).
    unfold view, intent_view in Hc. destruct (forced i) eqn:Hf; injection Hc as _ ->; cbn; [done|].
    pose proof (publish_meets (default Unknown probed)
      (if default Unknown probed == Internet then SProbe else SPlatform) now w i Hm) as Hp. by rewrite Hf in Hp.
Qed.

Lemma watcher_run_meets cs : ∀ w i, meets w i →
  meets (fold_left (λ w c, watcher_step c w) cs w) (fold_left (λ i c, intent_step c i) cs i).
Proof. induction cs as [|c cs IH]; intros w i Hm; [done|]. cbn. by apply IH, watcher_step_meets. Qed.

(** The locked steps of a call, taken in a row, are the method. *)
Lemma alone_publish state source now w :
  run_alone 3 (Some (PPublish state source now)) w = ((publish state source now w).1, None).
Proof.
  cbn [run_alone pending_step]. unfold publish, publish_at.
  destruct (record_observation state source now w) as [w1 [auto []]]; [|done].
  cbn [run_alone pending_step]. unfold transition. destruct (replace_current auto w1) as [w2 [[prev next] []]]; done.
Qed.

Lemma alone_set_offline enabled now w :
  run_alone 4 (Some (PSetOffline enabled now)) w = ((set_total_offline enabled now w).1, None).
Proof.
  cbn [run_alone pending_step]. unfold set_total_offline. destruct (Bool.eqb _ _); [done|].
  unfold transition. destruct enabled; cbn [run_alone pending_step].
  - destruct (replace_current _ w) as [w2 [[prev next] []]]; done.
  - destruct (replace_current _ w) as [w2 [[prev next] []]]; done.
Qed.

(** *** Sleeping *)

Lemma sleep_slices_ok fuel : ∀ remaining stopped n,
  Forall (λ d, 0 < d ∧ d ≤ SLICE) (sleep_slices fuel remaining stopped n)
  ∧ foldr N.add 0 (sleep_slices fuel remaining stopped n) ≤ remaining.
Proof.
  induction fuel as [|fuel IH]; intros remaining stopped n; cbn [sleep_slices]; [split; [constructor|cbn; lia]|].
  destruct (N.eqb_spec remaining 0) as [->|Hr]; cbn [negb andb]; [split; [constructor|cbn; lia]|].
  destruct (stopped n); cbn [negb]; [split; [constructor|cbn; lia]|].
  destruct (IH (remaining - N.min remaining SLICE) stopped (S n)) as [Hall Hsum].
  split; [constructor; [unfold SLICE; lia|done]|]. cbn [foldr]. lia.
Qed.

(** ** Closed examples *)

(** One listener, subscribed first. *)
Definition demo_world : World := (subscribe false AppListener (new_signals (new_watcher Link 0))).1.

Example demo_deliveries :
  let w := set_wake_hint true demo_world in
  let w := (publish Link SPlatform 5 w).1 in
  let w := (publish_verified_internet 7 w).1 in
  let w := (set_total_offline true 8 w).1 in
  let w := (publish Link SPlatform 9 w).1 in
  let w := (set_total_offline false 10 w).1 in
  (List.map (λ d, match d with ToListener id n p => Some (id, view n, view p) | _ => None end) (log w), snapshot w)
  = ([None; Some (2, (Internet, Automatic), (Link, Automatic)); Some (2, (Offline, OfflineMode), (Internet, Automatic));
      Some (2, (Link, Automatic), (Offline, OfflineMode))],
     {| cs_state := Link; cs_mode := Automatic; cs_source := SPlatform; changed_at_ms := 10; verified_at_ms := None |}).
Proof. vm_compute. reflexivity. Qed.

(** ** Properties *)

(** Called from one thread the watcher does what the application means: in
    any sequence of observations, probes and overrides it shows total offline
    exactly while that is forced and the latest observation otherwise, even one
    made while it was forced, and it shows a verification time exactly for a
    verified connection. *)
Theorem watcher_refines_intent initial now cs :
  let w := fold_left (λ w c, watcher_step c w) cs (new_watcher initial now) in
  let i := fold_left (λ i c, intent_step c i) cs {| forced := false; observed := initial |} in
  view (snapshot w) = intent_view i ∧ honest (snapshot w)
  ∧ (forced i = true → has_verified_internet (snapshot w) = false).
Proof.
  cbv zeta. assert (Hm : meets (new_watcher initial now) {| forced := false; observed := initial |})
    by (unfold meets; split_and!; try done; apply honest_published).
  destruct (watcher_run_meets cs _ _ Hm) as (Hv & _ & Hh & _). split; [exact Hv|]. split; [exact Hh|].
  intros Hf. unfold has_verified_internet, snapshot. unfold view, intent_view in Hv. rewrite Hf in Hv.
  by injection Hv as -> ->.
Qed.

(** A transition tells every listener once, in order of subscription,
    exactly when the state or the mode changes, with the snapshot it set and
    the one it replaced; the bridge to the save signals hints a wake exactly
    when the connection becomes verified; an unchanged view keeps its time. *)
Theorem transition_notifies candidate w :
  let '(w', next) := transition candidate w in
  current w' = next ∧ view next = view candidate
  ∧ log w' = log w ++ (if view (current w) == view candidate then []
                       else flat_map (delivered next (current w) w) (listeners w))
  ∧ changed_at_ms next = (if view (current w) == view candidate then changed_at_ms (current w)
                          else changed_at_ms candidate).
Proof. by rewrite transition_spec. Qed.

(** The override is not authoritative across threads.  [publish_at] decides
    under the lock that an observation shows, releases it, and only then
    replaces the current snapshot; an override that runs in between returns
    total offline and is then overwritten, although each of the two calls made
    alone ends in the mode it should. *)
Theorem forced_offline_can_be_lost :
  let threads := [Some (PPublish Internet SProbe 1); Some (PSetOffline true 2)] in
  let w0 := new_watcher Link 0 in
  let '(w1, threads1) := interleave [0; 1; 1; 1]%nat threads w0 in
  let '(w2, threads2) := interleave [0; 0]%nat threads1 w1 in
  threads1 !! 1%nat = Some None ∧ view (snapshot w1) = (Offline, OfflineMode)
  ∧ threads2 = [None; None] ∧ has_verified_internet (snapshot w2) = true
  ∧ view (snapshot (run_alone 4 (Some (PSetOffline true 2)) (run_alone 3 (Some (PPublish Internet SProbe 1)) w0).1).1)
    = (Offline, OfflineMode)
  ∧ view (snapshot (run_alone 3 (Some (PPublish Internet SProbe 1)) (run_alone 4 (Some (PSetOffline true 2)) w0).1).1)
    = (Offline, OfflineMode).
Proof. vm_compute. repeat split. Qed.

(** A save is announced only after it succeeded and as what it was: every
    save listener once in order with its metadata and the connectivity of that
    moment, the online listeners too exactly when that is verified, then a
    wake hint unless the connection is or was forced offline; a failed save
    announces nothing. *)
Theorem after_durable_save_correct {T E} metadata (saved : result T E) queue_id now w :
  let '(w', r) := after_durable_save metadata saved queue_id now w in
  r = saved ∧ current w' = current w ∧
  match saved with
  | Err _ => w' = w
  | Ok value =>
      let event := {| ev_queue_id := queue_id value; ev_table_name := sm_table_name metadata;
                      ev_record_id := sm_record_id metadata; ev_operation := sm_operation metadata;
                      ev_saved_at_ms := now; ev_connectivity := current w |} in
      log w' = log w ++ List.map (λ id, ToSave id event) (save_listeners w)
                 ++ (if has_verified_internet (current w)
                     then List.map (λ id, ToOnlineSave id event) (online_listeners w) else [])
                 ++ (if (view (current w) == (Link, Automatic)) || (view (current w) == (Internet, Automatic))
                        || (view (current w) == (Unknown, Automatic))
                     then if wake_hint w then [WakeHint] else [] else [])
  end.
Proof.
  destruct saved as [value|e]; cbn; [|done]. unfold notify_after_durable_save, snapshot. cbn [fst].
  destruct (current w) as [st md src ch ve] eqn:Hc. unfold has_verified_internet, view, invoke_wake.
  cbn [cs_state cs_mode].
  destruct st, md; decide_closed; cbn; destruct (wake_hint w); cbn; rewrite ?app_nil_r, ?Hc;
    (split; [done|]); (split; [done|]); by rewrite <- ?app_assoc.
Qed.

(** The probe's sleep never exceeds its interval and polls the stop flag at
    least every 100 ms. *)
Theorem sleep_until_stopped_bounded interval stopped :
  Forall (λ d, 0 < d ∧ d ≤ SLICE) (sleep_until_stopped interval stopped)
  ∧ foldr N.add 0 (sleep_until_stopped interval stopped) ≤ interval.
Proof. apply sleep_slices_ok. Qed.
