(* ===== verification/Transport.v ===== *)
(** * Transport: request correlation shared by the realtime transports

    Models [clients/rust/src/transport.rs]: frames, the map of in-flight
    requests, the routing of server frames, request ids, and the request and
    dial lifecycle.  Channels are inboxes: a waiter's sender lives in the map and
    is used once.  Sockets, the jitter sample and serde's derived encodings are
    parameters. *)

From S2P Require Import Prelude Text Decimal Btree Json JsonCodec State Clock Protocol ProtocolSync.

Definition DEFAULT_REQUEST_TIMEOUT : N := 20000000000.
Definition DEFAULT_RECONNECT_BASE : N := 500000000.
Definition DEFAULT_RECONNECT_MAX : N := 30000000000.
Definition DEFAULT_CONNECT_TIMEOUT : N := 10000000000.

Record SyncTransportError := { te_code : string; te_message : string }.
#[export] Instance SyncTransportError_eq_dec : EqDecision SyncTransportError.
Proof. solve_decision. Defined.

Definition SyncTransportFailure : Type := TransportFailure SyncTransportError.

Definition retryable_failure (code message : string) : SyncTransportFailure :=
  {| tf_source := {| te_code := code; te_message := message |}; tf_retryable := true; tf_retry_after := None |}.
Definition permanent_failure (code message : string) : SyncTransportFailure :=
  {| tf_source := {| te_code := code; te_message := message |}; tf_retryable := false; tf_retry_after := None |}.

Record FrameCodes := {
  fc_kind : string;
  fc_error : string;
  fc_closed : string;
  fc_timeout : string;
  fc_send_failed : string;
  fc_dial_failed : string;
  fc_invalid_response : string;
  fc_disposed : string
}.

Definition Frame : Type := bmap json.
Definition FrameOutcome : Type := result Frame SyncTransportFailure.

(** ** In-flight requests *)

(** A waiter is the index of its inbox; its sender is its entry in the map. *)
Record PendingMap := { waiters : gmap string nat; inboxes : list (option FrameOutcome) }.
Definition no_pending : PendingMap := {| waiters := ∅; inboxes := [] |}.

Definition register (request_id : string) (p : PendingMap) : PendingMap * nat :=
  ({| waiters := <[request_id := length (inboxes p)]> (waiters p); inboxes := inboxes p ++ [None] |},
   length (inboxes p)).

Definition forget (request_id : string) (p : PendingMap) : PendingMap :=
  {| waiters := delete request_id (waiters p); inboxes := inboxes p |}.

Definition complete (request_id : string) (outcome : FrameOutcome) (p : PendingMap) : PendingMap :=
  match waiters p !! request_id with
  | Some i => {| waiters := delete request_id (waiters p); inboxes := <[i := Some outcome]> (inboxes p) |}
  | None => p
  end.

Definition fail_all (failure : SyncTransportFailure) (p : PendingMap) : PendingMap :=
  {| waiters := ∅;
     inboxes := map_fold (λ _ i l, <[i := Some (Err failure)]> l) (inboxes p) (waiters p) |}.

Definition str_field (k : string) (f : Frame) : option string :=
  match bt_get k f with Some v => as_str v | None => None end.

Section Dispatch.
Context `{SerdeJson}.

(** [dispatch_frame]; the watermarks handed to the [changed] handler are
    returned (a panic of the handler is caught). *)
Definition dispatch_frame (text : string) (p : PendingMap) (on_changed : bool) (codes : FrameCodes)
  : PendingMap * list N :=
  match from_text text with
  | Some (JObject frame) =>
      if negb (match bt_get "v" frame with Some v => as_u64 v | None => None end == Some 1) then (p, [])
      else
        match str_field "type" frame with
        | Some ty =>
            if ty == "changed" then
              match match bt_get "watermark" frame with Some v => as_u64 v | None => None end with
              | Some watermark => (p, if on_changed then [watermark] else [])
              | None => (p, [])
              end
            else if ty == "error" then
              match str_field "requestId" frame with
              | None => (p, [])
              | Some request_id =>
                  let failure :=
                    {| tf_source := {| te_code := default (fc_error codes) (str_field "code" frame);
                                       te_message := default "sync transport error" (str_field "message" frame) |};
                       tf_retryable := negb (match bt_get "retryable" frame with Some v => as_bool v | None => None end
                                             == Some false);
                       tf_retry_after := None |} in
                  (complete request_id (Err failure) p, [])
              end
            else if (ty == "push-result") || (ty == "pull-result") || (ty == "snapshot-result") then
              match str_field "requestId" frame with
              | None => (p, [])
              | Some request_id => (complete request_id (Ok frame) p, [])
              end
            else (p, [])
        | None => (p, [])
        end
  | _ => (p, [])
  end.
End Dispatch.

(** ** Request ids *)

Record RequestIds := { ri_seed : string; ri_next : N }.

Definition new_ids (entropy : list ascii) : RequestIds := {| ri_seed := random_node_id entropy; ri_next := 0 |}.

(** [fetch_add(1) + 1]: it panics on overflow (overflow checks on). *)
Definition allocate (r : RequestIds) : option (RequestIds * string) :=
  match checked_add_u64 (ri_next r) 1 with
  | None => None
  | Some n => Some ({| ri_seed := ri_seed r; ri_next := n |}, ri_seed r +:+ "-" +:+ to_dec n)
  end.

(** ** The connection core *)

(** A live connection: its waiters, whether it is usable and what was sent. *)
Record Link := { lk_pending : PendingMap; lk_alive : bool; lk_sent : list string; lk_closed : bool }.
Definition new_link : Link := {| lk_pending := no_pending; lk_alive := true; lk_sent := []; lk_closed := false |}.

Inductive RequestError :=
| Dial (f : SyncTransportFailure)
| Other (f : SyncTransportFailure).

Definition into_failure (e : RequestError) : SyncTransportFailure := match e with Dial f | Other f => f end.

(** [links] are the connections ever dialed; the slot names the current one. *)
Record Core := {
  codes : FrameCodes;
  ids : RequestIds;
  links : list Link;
  connection : option nat;
  consecutive_dial_failures : N;
  disposed : bool
}.

Definition new_core (codes : FrameCodes) (entropy : list ascii) : Core :=
  {| codes := codes; ids := new_ids entropy; links := []; connection := None;
     consecutive_dial_failures := 0; disposed := false |}.

Definition set_link (i : nat) (f : Link → Link) (c : Core) : Core :=
  {| codes := codes c; ids := ids c; links := alter f i (links c); connection := connection c;
     consecutive_dial_failures := consecutive_dial_failures c; disposed := disposed c |}.
Definition set_ids (r : RequestIds) (c : Core) : Core :=
  {| codes := codes c; ids := r; links := links c; connection := connection c;
     consecutive_dial_failures := consecutive_dial_failures c; disposed := disposed c |}.

Definition on_pending (f : PendingMap → PendingMap) (l : Link) : Link :=
  {| lk_pending := f (lk_pending l); lk_alive := lk_alive l; lk_sent := lk_sent l; lk_closed := lk_closed l |}.
Definition add_sent (text : string) (l : Link) : Link :=
  {| lk_pending := lk_pending l; lk_alive := lk_alive l; lk_sent := lk_sent l ++ [text]; lk_closed := lk_closed l |}.

Section Requests.
Context `{SerdeJson}.
(** [compute_protocol_retry_delay] of a failure count with the jitter sample. *)
Context (retry_delay : N → option N).

Definition dial_failure (codes : FrameCodes) (reason : string) (consecutive : N) : SyncTransportFailure :=
  {| tf_source := {| te_code := fc_dial_failed codes; te_message := fc_kind codes +:+ " dial failed: " +:+ reason |};
     tf_retryable := true;
     tf_retry_after := retry_delay (N.max 1 (N.min consecutive 20)) |}.

(** [connect]; [dialed] is what dialing gives when it is attempted. *)
Definition connect (dialed : result unit string) (c : Core) : Core * result nat SyncTransportFailure :=
  let reusable :=
    match connection c with
    | Some i => match links c !! i with Some l => if lk_alive l then Some i else None | None => None end
    | None => None
    end in
  match reusable with
  | Some i => (c, Ok i)
  | None =>
      match dialed with
      | Ok _ =>
          ({| codes := codes c; ids := ids c; links := links c ++ [new_link];
              connection := Some (length (links c)); consecutive_dial_failures := 0; disposed := disposed c |},
           Ok (length (links c)))
      | Err reason =>
          let previous := consecutive_dial_failures c in
          ({| codes := codes c; ids := ids c; links := links c; connection := None;
              consecutive_dial_failures := (previous + 1) mod (u32_max + 1); disposed := disposed c |},
           Err (dial_failure (codes c) reason (N.min u32_max (previous + 1))))
      end
  end.

Definition envelope (frame_type request_id : string) (body : Frame) : Frame :=
  bt_insert "requestId" (JString request_id)
    (bt_insert "type" (JString frame_type) (bt_insert "v" (JNumber (NPosInt 1)) body)).

(** A request after its disposal check, up to waiting for its answer: its link,
    waiter and id.  [sent] is what [send_frame] gives; [None] is a panic. *)
Definition start_request (dialed sent : result unit string) (frame_type : string) (body : Frame) (c : Core)
  : option (Core * result (nat * nat * string) RequestError) :=
  match connect dialed c with
  | (c, Err failure) => Some (c, Err (Dial failure))
  | (c, Ok link) =>
      match allocate (ids c) with
      | None => None
      | Some (r, request_id) =>
          match to_text (JObject (envelope frame_type request_id body)) with
          | None => None
          | Some text =>
              let c := set_ids r c in
              let waiter := match links c !! link with Some l => length (inboxes (lk_pending l)) | None => 0%nat end in
              let c := set_link link (on_pending (λ p, (register request_id p).1)) c in
              match sent with
              | Err reason =>
                  Some (set_link link (on_pending (forget request_id)) c,
                        Err (Other (retryable_failure (fc_send_failed (codes c)) reason)))
              | Ok _ => Some (set_link link (add_sent text) c, Ok (link, waiter, request_id))
              end
          end
      end
  end.

Definition begin_request (dialed sent : result unit string) (frame_type : string) (body : Frame) (c : Core)
  : option (Core * result (nat * nat * string) RequestError) :=
  if disposed c then Some (c, Err (Other (permanent_failure (fc_disposed (codes c)) "transport disposed")))
  else start_request dialed sent frame_type body c.

(** [recv_timeout] returning: the outcome if there is one, else the timeout
    while the sender is still in the map, else a closed channel. *)
Definition settle (codes : FrameCodes) (frame_type request_id : string) (waiter : nat) (p : PendingMap)
  : PendingMap * FrameOutcome :=
  match inboxes p !! waiter with
  | Some (Some outcome) => (p, outcome)
  | _ =>
      if waiters p !! request_id == Some waiter then
        (forget request_id p,
         Err (retryable_failure (fc_timeout codes) (fc_kind codes +:+ " " +:+ frame_type +:+ " timed out")))
      else (p, Err (retryable_failure (fc_closed codes) (fc_kind codes +:+ " closed")))
  end.

Definition settle_request (frame_type : string) (link waiter : nat) (request_id : string) (c : Core)
  : Core * result Frame RequestError :=
  match links c !! link with
  | None => (c, Err (Other (retryable_failure (fc_closed (codes c)) (fc_kind (codes c) +:+ " closed"))))
  | Some l =>
      let '(p, outcome) := settle (codes c) frame_type request_id waiter (lk_pending l) in
      (set_link link (on_pending (λ _, p)) c, map_err Other outcome)
  end.

(** The reader's end of a connection: a frame, or the socket closing. *)
Definition receive_frame (text : string) (on_changed : bool) (link : nat) (c : Core) : Core * list N :=
  match links c !! link with
  | None => (c, [])
  | Some l =>
      let '(p, hints) := dispatch_frame text (lk_pending l) on_changed (codes c) in
      (set_link link (on_pending (λ _, p)) c, hints)
  end.

Definition shut_link (failure : SyncTransportFailure) (close : bool) (l : Link) : Link :=
  {| lk_pending := fail_all failure (lk_pending l); lk_alive := false; lk_sent := lk_sent l;
     lk_closed := lk_closed l || close |}.

Definition dispose (c : Core) : Core :=
  let c1 := {| codes := codes c; ids := ids c; links := links c; connection := None;
               consecutive_dial_failures := consecutive_dial_failures c; disposed := true |} in
  match connection c with
  | Some i => set_link i (shut_link (permanent_failure (fc_disposed (codes c)) "transport disposed") true) c1
  | None => c1
  end.
End Requests.

Definition pull_body (checkpoint : string) (limit : N) : Frame :=
  bt_insert "limit" (JNumber (NPosInt limit)) (bt_insert "checkpoint" (JString checkpoint) []).

(** ** Typed responses *)

(** [serde_json::from_value] of the response types: the error is its text. *)
Class WireDecode := {
  decode_push_response : json → result PushResponse string;
  decode_pull_response : json → result PullResponse string;
  decode_reset_required : json → result ResetRequired string;
  decode_snapshot_response : json → result SnapshotResponse string
}.

Section Decode.
Context `{WireDecode}.

Definition invalid_response (codes : FrameCodes) (what error : string) : SyncTransportFailure :=
  permanent_failure (fc_invalid_response codes) ("invalid " +:+ what +:+ " response: " +:+ error).

Definition decode_push (frame : Frame) (codes : FrameCodes) : result PushResponse SyncTransportFailure :=
  map_err (invalid_response codes "push") (decode_push_response (JObject frame)).

Definition decode_pull (frame : Frame) (codes : FrameCodes) : result PullResult SyncTransportFailure :=
  if str_field "error" frame == Some "RESET_REQUIRED" then
    match decode_reset_required (JObject frame) with
    | Ok reset => Ok (Reset reset)
    | Err e => Err (invalid_response codes "pull reset" e)
    end
  else
    match decode_pull_response (JObject frame) with
    | Ok page => Ok (Changes page)
    | Err e => Err (invalid_response codes "pull" e)
    end.

Definition decode_snapshot (frame : Frame) (codes : FrameCodes) : result SnapshotResponse SyncTransportFailure :=
  map_err (invalid_response codes "snapshot") (decode_snapshot_response (JObject frame)).
End Decode.

(** ** Specification *)

(** What happens to one connection's waiters, in order; a settled request is
    forgotten or leaves the map alone. *)
Inductive PendingEvent :=
| ERegister (request_id : string)
| EForget (request_id : string)
| EFrame (text : string)
| EFailAll (failure : SyncTransportFailure).

Section TraceSpec.
Context `{SerdeJson}.
Context (codes : FrameCodes) (on_changed : bool).

Definition pending_event (e : PendingEvent) (p : PendingMap) : PendingMap :=
  match e with
  | ERegister request_id => (register request_id p).1
  | EForget request_id => forget request_id p
  | EFrame text => (dispatch_frame text p on_changed codes).1
  | EFailAll failure => fail_all failure p
  end.

Definition pending_run (es : list PendingEvent) (p : PendingMap) : PendingMap :=
  fold_left (λ p e, pending_event e p) es p.

(** The frames the wire contract has for a request, and what they answer. *)
Definition frame_answer (text : string) : option (string * FrameOutcome) :=
  match from_text text with
  | Some (JObject frame) =>
      if negb (match bt_get "v" frame with Some v => as_u64 v | None => None end == Some 1) then None
      else
        match str_field "type" frame, str_field "requestId" frame with
        | Some ty, Some request_id =>
            if ty == "error" then
              Some (request_id,
                    Err {| tf_source := {| te_code := default (fc_error codes) (str_field "code" frame);
                                           te_message := default "sync transport error" (str_field "message" frame) |};
                           tf_retryable := negb (match bt_get "retryable" frame with
                                                 | Some v => as_bool v | None => None end == Some false);
                           tf_retry_after := None |})
            else if (ty == "push-result") || (ty == "pull-result") || (ty == "snapshot-result")
            then Some (request_id, Ok frame)
            else None
        | _, _ => None
        end
  | _ => None
  end.
End TraceSpec.

Definition registered (es : list PendingEvent) : list string :=
  omap (λ e, match e with ERegister request_id => Some request_id | _ => None end) es.

(** Events that do not concern the request. *)
Definition unrelated `{SerdeJson} (codes : FrameCodes) (request_id : string) (e : PendingEvent) : Prop :=
  match e with
  | ERegister r | EForget r => r ≠ request_id
  | EFrame text => match frame_answer codes text with Some (r, _) => r ≠ request_id | None => True end
  | EFailAll _ => False
  end.

(** What happens to a transport: requests begin and end, frames arrive,
    connections fail, it is disposed.  The ids issued to waiting requests are
    recorded. *)
Inductive CoreOp :=
| OBegin (dialed sent : result unit string) (frame_type : string) (body : Frame)
| OSettle (frame_type : string) (link waiter : nat) (request_id : string)
| OReceive (text : string) (on_changed : bool) (link : nat)
| OLost (failure : SyncTransportFailure) (link : nat)
| ODispose.

Section CoreSpec.
Context `{SerdeJson} (retry_delay : N → option N).

Definition core_step (op : CoreOp) (c : Core) : option (Core * list string) :=
  match op with
  | OBegin dialed sent frame_type body =>
      match begin_request retry_delay dialed sent frame_type body c with
      | Some (c, Ok (_, _, request_id)) => Some (c, [request_id])
      | Some (c, Err _) => Some (c, [])
      | None => None
      end
  | OSettle frame_type link waiter request_id => Some ((settle_request frame_type link waiter request_id c).1, [])
  | OReceive text on_changed link => Some ((receive_frame text on_changed link c).1, [])
  | OLost failure link => Some (set_link link (shut_link failure false) c, [])
  | ODispose => Some (dispose c, [])
  end.

Fixpoint core_run (ops : list CoreOp) (c : Core) : option (Core * list string) :=
  match ops with
  | [] => Some (c, [])
  | op :: ops =>
      match core_step op c with
      | Some (c, issued) =>
          match core_run ops c with Some (c, more) => Some (c, issued ++ more) | None => None end
      | None => None
      end
  end.
End CoreSpec.

Definition waits_for (c : Core) (request_id : string) : Prop :=
  ∃ link l, links c !! link = Some l ∧ is_Some (waiters (lk_pending l) !! request_id).

(** ** Lemmas *)

Section TraceLemmas.
Context `{SerdeJson}.
Context (codes : FrameCodes) (on_changed : bool).

(** Dispatching is completing what the frame answers. *)
Lemma dispatch_complete text p :
  (dispatch_frame text p on_changed codes).1 =
    match frame_answer codes text with Some (r, o) => complete r o p | None => p end.
Proof.
  unfold dispatch_frame, frame_answer. destruct (from_text text) as [[| | | | |frame]|]; try done.
  destruct (negb _); [done|]. destruct (str_field "type" frame) as [ty|]; [|done].
  destruct (bool_decide_reflect (ty = "changed")) as [->|Hc].
  - replace ("changed" == "error") with false by reflexivity. cbn.
    destruct (match bt_get "watermark" frame with Some v => as_u64 v | None => None end);
      by destruct (str_field "requestId" frame).
  - destruct (ty == "error"); [by destruct (str_field "requestId" frame)|].
    destruct (_ || _); by destruct (str_field "requestId" frame).
Qed.

Lemma fail_all_spec f p :
  (∀ id i, waiters p !! id = Some i → (i < length (inboxes p))%nat → inboxes (fail_all f p) !! i = Some (Some (Err f)))
  ∧ (∀ i, (∀ id, waiters p !! id ≠ Some i) → inboxes (fail_all f p) !! i = inboxes p !! i)
  ∧ length (inboxes (fail_all f p)) = length (inboxes p).
Proof.
  unfold fail_all. cbn [inboxes].
  apply (map_fold_weak_ind (λ l m,
    (∀ id i, m !! id = Some i → (i < length (inboxes p))%nat → l !! i = Some (Some (Err f)))
    ∧ (∀ i, (∀ id, m !! id ≠ Some i) → l !! i = inboxes p !! i) ∧ length l = length (inboxes p))).
  - split; [intros id i; by rewrite lookup_empty|]. by split.
  - intros id i m l Hm (Hin & Hout & Hlen). split; [|split].
    + intros id' i' Hi' Hlt. destruct (decide (i' = i)) as [->|Hne].
      * rewrite <- Hlen in Hlt. exact (list_lookup_insert_eq l i _ Hlt).
      * rewrite list_lookup_insert_ne by done. apply (Hin id'); [|done].
        destruct (decide (id' = id)) as [->|Hid]; [rewrite lookup_insert_eq in Hi'; congruence|].
        by rewrite lookup_insert_ne in Hi'.
    + intros i' Hno. assert (i' ≠ i) by (intros ->; apply (Hno id), lookup_insert_eq).
      rewrite list_lookup_insert_ne by done. apply Hout. intros id' Hid'.
      destruct (decide (id' = id)) as [->|Hid]; [congruence|]. apply (Hno id'). by rewrite lookup_insert_ne.
    + by rewrite length_insert.
Qed.

(** Every waiter in the map has an empty inbox, registered under its id. *)
Definition waiting (p : PendingMap) (ids : list string) : Prop :=
  length (inboxes p) = length ids ∧
  ∀ id i, waiters p !! id = Some i → ids !! i = Some id ∧ inboxes p !! i = Some None.

Lemma waiting_lt p ids id i : waiting p ids → waiters p !! id = Some i → (i < length (inboxes p))%nat.
Proof. intros [_ Hw] Hi. destruct (Hw _ _ Hi) as [_ Hn]. by apply lookup_lt_Some in Hn. Qed.

Lemma complete_waiting r o p ids : waiting p ids → waiting (complete r o p) ids.
Proof.
  intros [Hlen Hw]. unfold complete. destruct (waiters p !! r) as [i|] eqn:Hr; [|done].
  split; cbn [waiters inboxes]; [by rewrite length_insert|]. intros id j Hj.
  destruct (decide (id = r)) as [->|Hid]; [by rewrite lookup_delete_eq in Hj|].
  rewrite lookup_delete_ne in Hj by done. destruct (Hw _ _ Hj) as [Hids Hin]. split; [done|].
  destruct (Hw _ _ Hr) as [Hidr _]. rewrite list_lookup_insert_ne; [done|]. intros ->. congruence.
Qed.

Lemma event_waiting e p ids : waiting p ids →
  waiting (pending_event codes on_changed e p) (ids ++ registered [e]).
Proof.
  intros Hw. destruct e as [r|r|text|f]; cbn [pending_event registered omap list_omap]; rewrite ?app_nil_r.
  - destruct Hw as [Hlen Hw]. split; cbn; [rewrite !length_app; cbn; lia|]. intros id i.
    destruct (decide (id = r)) as [->|Hid].
    + rewrite lookup_insert_eq. intros [= <-]. rewrite Hlen, lookup_app_r, Nat.sub_diag by lia. split; [done|].
      rewrite <- Hlen, lookup_app_r, Nat.sub_diag by lia. done.
    + rewrite lookup_insert_ne by done. intros Hi. destruct (Hw _ _ Hi) as [H1 H2].
      split; by apply lookup_app_l_Some.
  - destruct Hw as [Hlen Hw]. split; [done|]. cbn. intros id i Hi. apply Hw.
    destruct (decide (id = r)) as [->|Hid]; [by rewrite lookup_delete_eq in Hi|by rewrite lookup_delete_ne in Hi].
  - rewrite dispatch_complete. destruct (frame_answer codes text) as [[r o]|]; [by apply complete_waiting|done].
  - destruct (fail_all_spec f p) as (_ & _ & Hlen). destruct Hw as [Hl _].
    split; [by rewrite Hlen|]. intros id i. cbn. by rewrite lookup_empty.
Qed.

Lemma registered_cons e es : registered (e :: es) = registered [e] ++ registered es.
Proof. by destruct e. Qed.

Lemma run_waiting es : ∀ p ids, waiting p ids →
  waiting (pending_run codes on_changed es p) (ids ++ registered es).
Proof.
  induction es as [|e es IH]; intros p ids Hw; [by rewrite app_nil_r|].
  rewrite registered_cons, app_assoc. cbn. by apply IH, event_waiting.
Qed.

(** One event fills an inbox only with the answer it carries, for its own id. *)
Lemma event_inbox e p ids i : waiting p ids →
  inboxes (pending_event codes on_changed e p) !! i = inboxes p !! i
  ∨ (∃ r, e = ERegister r ∧ i = length ids ∧ inboxes (pending_event codes on_changed e p) !! i = Some None)
  ∨ ∃ id o, ids !! i = Some id ∧ inboxes p !! i = Some None
      ∧ inboxes (pending_event codes on_changed e p) !! i = Some (Some o)
      ∧ ((∃ text, e = EFrame text ∧ frame_answer codes text = Some (id, o)) ∨ (∃ f, e = EFailAll f ∧ o = Err f)).
Proof.
  intros Hw. destruct e as [r|r|text|f]; cbn [pending_event].
  - cbn. destruct Hw as [Hlen _]. destruct (decide (i = length ids)) as [->|Hne].
    + right. left. exists r. by rewrite <- Hlen, lookup_app_r, Nat.sub_diag by lia.
    + left. destruct (decide (i < length (inboxes p))%nat) as [Hlt|Hge].
      * by apply lookup_app_l.
      * rewrite lookup_app_r by lia. rewrite (lookup_ge_None_2 (inboxes p)) by lia.
        apply lookup_ge_None_2. cbn. lia.
  - by left.
  - rewrite dispatch_complete. destruct (frame_answer codes text) as [[r o]|] eqn:Hf; [|by left].
    unfold complete. destruct (waiters p !! r) as [j|] eqn:Hr; [|by left]. cbn [inboxes].
    destruct (decide (i = j)) as [->|Hne]; [|left; by rewrite list_lookup_insert_ne].
    right. right. exists r, o. destruct (proj2 Hw _ _ Hr) as [Hid Hn]. split; [done|]. split; [done|].
    split; [apply list_lookup_insert_eq; by eapply waiting_lt|]. left. eauto.
  - destruct (fail_all_spec f p) as (Hin & Hout & _).
    destruct (decide (map_Exists (λ _ j, j = i) (waiters p))) as [(id & j & Hid & ->)|Hno].
    + right. right. exists id, (Err f). destruct (proj2 Hw _ _ Hid) as [Hids Hn]. split; [done|]. split; [done|].
      split; [by apply (Hin id); [|eapply waiting_lt]|]. right. eauto.
    + left. apply Hout. intros id Hid. apply Hno. exists id, i. done.
Qed.

Lemma pending_run_app es1 es2 p :
  pending_run codes on_changed (es1 ++ es2) p
  = pending_run codes on_changed es2 (pending_run codes on_changed es1 p).
Proof. apply fold_left_app. Qed.

Lemma no_pending_waiting : waiting no_pending [].
Proof. split; [done|]. intros id i. cbn. by rewrite lookup_empty. Qed.

Lemma start_waiting es : waiting (pending_run codes on_changed es no_pending) (registered es).
Proof. apply (run_waiting es _ [] no_pending_waiting). Qed.

(** A filled inbox is never written again. *)
Lemma run_inbox_stable es : ∀ p ids i o, waiting p ids → inboxes p !! i = Some (Some o) →
  inboxes (pending_run codes on_changed es p) !! i = Some (Some o).
Proof.
  induction es as [|e es IH]; intros p ids i o Hw Hi; [done|]. cbn.
  apply (IH _ (ids ++ registered [e])); [by apply event_waiting|].
  destruct (event_inbox e p ids i Hw) as [->|[(r & _ & -> & _)|(id & o' & _ & Hn & _)]]; [done| |congruence].
  apply lookup_lt_Some in Hi. destruct Hw as [Hlen _]. rewrite Hlen in Hi. lia.
Qed.

(** Events about other requests leave a waiter where it is. *)
Lemma event_unrelated e p ids id i : waiting p ids → waiters p !! id = Some i → unrelated codes id e →
  waiters (pending_event codes on_changed e p) !! id = Some i.
Proof.
  intros Hw Hi Hu. destruct e as [r|r|text|f]; cbn in *; [by rewrite lookup_insert_ne|by rewrite lookup_delete_ne| |done].
  rewrite dispatch_complete. destruct (frame_answer codes text) as [[r o]|]; [|done].
  unfold complete. destruct (waiters p !! r); [|done]. cbn. by rewrite lookup_delete_ne.
Qed.

Lemma run_unrelated es : ∀ p ids id i, waiting p ids → waiters p !! id = Some i → Forall (unrelated codes id) es →
  waiters (pending_run codes on_changed es p) !! id = Some i.
Proof.
  induction es as [|e es IH]; intros p ids id i Hw Hi Hu; [done|]. inversion_clear Hu. cbn.
  apply (IH _ (ids ++ registered [e])); [by apply event_waiting| |done]. by eapply event_unrelated.
Qed.

Lemma complete_inbox id o p ids i : waiting p ids → waiters p !! id = Some i →
  inboxes (complete id o p) !! i = Some (Some o).
Proof.
  intros Hw Hi. unfold complete. rewrite Hi. apply list_lookup_insert_eq. by eapply waiting_lt.
Qed.
End TraceLemmas.

Section CoreLemmas.
Context `{SerdeJson} (retry_delay : N → option N).

Lemma links_set_link i f c j : links (set_link i f c) !! j = if decide (i = j) then f <$> links c !! j else links c !! j.
Proof. cbn. case_decide; [subst; apply list_lookup_alter_eq|by apply list_lookup_alter_ne]. Qed.

(** A successful [connect] leaves a live current link; nothing it keeps changes. *)
Lemma connect_ok dialed c c' link : connect retry_delay dialed c = (c', Ok link) →
  connection c' = Some link ∧ (∃ l, links c' !! link = Some l ∧ lk_alive l = true)
  ∧ codes c' = codes c ∧ ids c' = ids c ∧ disposed c' = disposed c
  ∧ (c' = c ∨ ∃ u, dialed = Ok u ∧ link = length (links c) ∧ links c' = links c ++ [new_link]).
Proof.
  unfold connect. destruct (connection c) as [i|] eqn:Hc; [destruct (links c !! i) as [l|] eqn:Hl;
    [destruct (lk_alive l) eqn:Ha|]|]; destruct dialed as [u|]; intros [= <- <-]; cbn;
    try (split; [done|]; split; [by eauto|]; by auto); (split; [done|]; split;
      [exists new_link; by rewrite lookup_app_r, Nat.sub_diag by lia|]); do 3 (split; [done|]); right; by exists u.
Qed.

Lemma connect_err dialed c c' failure : connect retry_delay dialed c = (c', Err failure) →
  links c' = links c ∧ codes c' = codes c ∧ connection c' = None ∧ disposed c' = disposed c.
Proof.
  unfold connect. destruct (connection c) as [i|]; [destruct (links c !! i) as [l|]; [destruct (lk_alive l)|]|];
    destruct dialed; by intros [= <- <-].
Qed.

(** What a request has done once it waits. *)
Lemma start_request_ok dialed sent frame_type body c c' link waiter request_id :
  start_request retry_delay dialed sent frame_type body c = Some (c', Ok (link, waiter, request_id)) →
  ∃ l text,
    to_text (JObject (envelope frame_type request_id body)) = Some text
    ∧ lk_alive l = true ∧ waiter = length (inboxes (lk_pending l))
    ∧ links c' !! link = Some (add_sent text (on_pending (λ p, (register request_id p).1) l))
    ∧ connection c' = Some link ∧ codes c' = codes c ∧ disposed c' = disposed c.
Proof.
  unfold start_request. destruct (connect retry_delay dialed c) as [c1 [i|]] eqn:Hconn; [|done].
  destruct (connect_ok _ _ _ _ Hconn) as (Hc & (l & Hl & Ha) & Hcodes & Hids & Hd & _).
  destruct (allocate (ids c1)) as [[r rid]|]; [|done].
  destruct (to_text _) as [text|] eqn:Ht; [|done]. destruct sent; intros [= <- <- <- <-].
  exists l, text. cbn. rewrite Hl. split; [done|]. split; [done|]. split; [done|].
  rewrite !list_lookup_alter_eq, Hl. done.
Qed.

Lemma settle_request_at frame_type link waiter request_id c l : links c !! link = Some l →
  (settle_request frame_type link waiter request_id c).2
  = map_err Other (settle (codes c) frame_type request_id waiter (lk_pending l)).2.
Proof. intros Hl. unfold settle_request. rewrite Hl. by destruct (settle _ _ _ _ _). Qed.

Lemma settle_filled codes frame_type request_id waiter p o : inboxes p !! waiter = Some (Some o) →
  (settle codes frame_type request_id waiter p).2 = o.
Proof. intros Hi. unfold settle. by rewrite Hi. Qed.

Lemma receive_frame_link text on_changed link c l : links c !! link = Some l →
  links (receive_frame text on_changed link c).1 !! link
  = Some (on_pending (λ p, (dispatch_frame text p on_changed (codes c)).1) l)
  ∧ codes (receive_frame text on_changed link c).1 = codes c.
Proof.
  intros Hl. unfold receive_frame. rewrite Hl.
  destruct (dispatch_frame text (lk_pending l) on_changed (codes c)) as [p hints] eqn:Hd.
  split; [|done]. cbn [fst]. rewrite links_set_link, decide_True, Hl by done. cbn. unfold on_pending. by rewrite Hd.
Qed.

Lemma dispose_link c link l : connection c = Some link → links c !! link = Some l →
  links (dispose c) !! link
  = Some (shut_link (permanent_failure (fc_disposed (codes c)) "transport disposed") true l)
  ∧ codes (dispose c) = codes c.
Proof.
  intros Hc Hl. unfold dispose. rewrite Hc. split; [|done]. rewrite links_set_link, decide_True by done.
  cbn [links]. by rewrite Hl.
Qed.

(** Ids waited for afterwards were waited for before. *)
Definition fewer_waiters (c c' : Core) : Prop := ids c' = ids c ∧ ∀ id, waits_for c' id → waits_for c id.

Lemma set_link_fewer link f c :
  (∀ l, waiters (lk_pending (f l)) ⊆ waiters (lk_pending l)) → fewer_waiters c (set_link link f c).
Proof.
  intros Hf. split; [done|]. intros id (j & l & Hl & [i Hi]). rewrite links_set_link in Hl. case_decide; subst.
  - destruct (links c !! j) as [l0|] eqn:Hl0; simplify_eq/=. exists j, l0. split; [done|].
    exists i. by eapply lookup_weaken.
  - exists j, l. eauto.
Qed.

Lemma complete_fewer r o p : waiters (complete r o p) ⊆ waiters p.
Proof. unfold complete. destruct (waiters p !! r); [apply delete_subseteq|done]. Qed.

Lemma settle_fewer codes frame_type r w p : waiters (settle codes frame_type r w p).1 ⊆ waiters p.
Proof.
  unfold settle. destruct (inboxes p !! w) as [[o|]|]; [done| |]; case_match; cbn; try done; apply delete_subseteq.
Qed.

Lemma shut_link_fewer failure close l : waiters (lk_pending (shut_link failure close l)) ⊆ waiters (lk_pending l).
Proof. apply map_empty_subseteq. Qed.

Lemma core_step_fewer op c c' issued : core_step retry_delay op c = Some (c', issued) →
  match op with OBegin _ _ _ _ => True | _ => issued = [] ∧ fewer_waiters c c' end.
Proof.
  destruct op as [|ty link w id|text oc link|failure link|]; [done|..]; cbn; intros [= <- <-]; (split; [done|]).
  - unfold settle_request. destruct (links c !! link) as [l|] eqn:Hl; [|by split].
    pose proof (settle_fewer (codes c) ty id w (lk_pending l)) as Hle.
    destruct (settle _ _ _ _ _) as [p o]. cbn in *. split; [done|].
    intros id' (j & l' & Hl' & [i Hi]). rewrite links_set_link in Hl'. case_decide; simplify_eq/=.
    + rewrite Hl in Hl'. injection Hl' as <-. exists j, l. split; [done|]. exists i. by eapply lookup_weaken.
    + exists j, l'. eauto.
  - unfold receive_frame. destruct (links c !! link) as [l|] eqn:Hl; [|by split].
    pose proof (dispatch_complete (codes c) oc text (lk_pending l)) as Hp.
    destruct (dispatch_frame _ _ _ _) as [p hints]. cbn in *. subst p. split; [done|].
    intros id' (j & l' & Hl' & [i Hi]). rewrite links_set_link in Hl'. case_decide; simplify_eq/=.
    + rewrite Hl in Hl'. injection Hl' as <-. exists j, l. split; [done|]. exists i. cbn in Hi.
      destruct (frame_answer (codes c) text) as [[r o]|]; [|done]. eapply lookup_weaken; [exact Hi|apply complete_fewer].
    + exists j, l'. eauto.
  - apply set_link_fewer, shut_link_fewer.
  - unfold dispose. destruct (connection c) as [i|]; [|done].
    apply (set_link_fewer i _ {| disposed := true |}), shut_link_fewer.
Qed.

Lemma connect_fewer dialed c : fewer_waiters c (connect retry_delay dialed c).1.
Proof.
  destruct (connect retry_delay dialed c) as [c' [link|failure]] eqn:Hc; cbn.
  - destruct (connect_ok _ _ _ _ Hc) as (_ & _ & _ & Hids & _ & [->|(u & _ & _ & Hl)]); [done|].
    split; [done|]. intros id (j & l & Hj & [i Hi]). rewrite Hl in Hj.
    apply lookup_app_Some in Hj as [Hj|[_ Hj]]; [by exists j, l; eauto|].
    apply list_lookup_singleton_Some in Hj as [_ <-]. cbn in Hi. by rewrite lookup_empty in Hi.
  - destruct (connect_err _ _ _ _ Hc) as (Hl & _). split; [by revert Hc; unfold connect; repeat case_match; intros [= <-]|].
    intros id (j & l & Hj & Hi). exists j, l. by rewrite <- Hl.
Qed.

(** The ids of a transport: issued ones are numbered up to the counter, pairwise
    distinct, and only issued ones are waited for. *)
Definition issued_ok (c : Core) (issued : list string) : Prop :=
  NoDup issued
  ∧ (∀ id, id ∈ issued → ∃ n, n ≤ ri_next (ids c) ∧ id = ri_seed (ids c) +:+ "-" +:+ to_dec n)
  ∧ ∀ id, waits_for c id → id ∈ issued.

Lemma issued_ok_fewer c c' issued : issued_ok c issued → fewer_waiters c c' → issued_ok c' issued.
Proof. intros (Hnd & Hn & Hw) [Hids Hle]. split; [done|]. rewrite Hids. split; [done|]. intros id Hid. by apply Hw, Hle. Qed.

Lemma register_waits link request_id c id :
  waits_for (set_link link (on_pending (λ p, (register request_id p).1)) c) id → id = request_id ∨ waits_for c id.
Proof.
  intros (j & l & Hl & [i Hi]). rewrite links_set_link in Hl. case_decide; simplify_eq/=.
  - destruct (links c !! j) as [l0|] eqn:Hl0; simplify_eq/=. destruct (decide (id = request_id)) as [->|Hne]; [by left|].
    rewrite lookup_insert_ne in Hi by done. right. exists j, l0. eauto.
  - right. exists j, l. eauto.
Qed.

Lemma forget_waits link request_id c id : waits_for (set_link link (on_pending (forget request_id)) c) id → waits_for c id.
Proof. apply set_link_fewer. intros l. apply delete_subseteq. Qed.

Lemma issue_ok c r request_id issued c' :
  issued_ok c issued → allocate (ids c) = Some (r, request_id) → ids c' = r →
  (∀ id, waits_for c' id → id = request_id ∨ waits_for c id) →
  issued_ok c' (issued ++ [request_id]).
Proof.
  unfold allocate, checked_add_u64. intros (Hnd & Hn & Hw) Ha Hids Hle.
  destruct (N.leb_spec (ri_next (ids c) + 1) u64_max); [|done]. injection Ha as <- <-.
  split; [|split].
  - apply NoDup_app. split; [done|]. split; [|apply NoDup_singleton]. intros id Hid ->%list_elem_of_singleton.
    destruct (Hn _ Hid) as (n & Hle' & E). do 2 apply (inj (String.append _)) in E. apply (inj to_dec) in E. lia.
  - rewrite Hids. cbn. intros id [Hid| ->%list_elem_of_singleton]%elem_of_app.
    + destruct (Hn _ Hid) as (n & Hle' & ->). exists n. split; [lia|done].
    + exists (ri_next (ids c) + 1). split; [lia|done].
  - intros id [->|Hid]%Hle; apply elem_of_app; [right; by apply list_elem_of_singleton|left; by apply Hw].
Qed.

(** A request that could not be sent leaves no waiter. *)
Lemma unsent_fewer link request_id c :
  fewer_waiters c (set_link link (on_pending (forget request_id))
                     (set_link link (on_pending (λ p, (register request_id p).1)) c)).
Proof.
  unfold set_link. cbn. rewrite list_alter_alter_eq.
  apply (set_link_fewer link (on_pending (forget request_id) ∘ on_pending (λ p, (register request_id p).1))).
  intros l. cbn. rewrite delete_insert_eq. apply delete_subseteq.
Qed.

Lemma allocate_ok c r request_id issued : issued_ok c issued → allocate (ids c) = Some (r, request_id) →
  issued_ok (set_ids r c) issued.
Proof.
  unfold allocate, checked_add_u64. intros (Hnd & Hn & Hw) Ha.
  destruct (N.leb_spec (ri_next (ids c) + 1) u64_max); [|done]. injection Ha as <- <-.
  split; [done|]. split; [|done]. intros id Hid. destruct (Hn _ Hid) as (n & Hle & ->). cbn. exists n. split; [lia|done].
Qed.

Lemma begin_issued dialed sent frame_type body c c' res issued :
  issued_ok c issued → begin_request retry_delay dialed sent frame_type body c = Some (c', res) →
  issued_ok c' (issued ++ match res with Ok (_, _, request_id) => [request_id] | Err _ => [] end).
Proof.
  intros Hok. unfold begin_request. destruct (disposed c); [intros [= <- <-]; by rewrite app_nil_r|].
  unfold start_request. pose proof (issued_ok_fewer _ _ _ Hok (connect_fewer dialed c)) as Hok1.
  destruct (connect retry_delay dialed c) as [c1 [link|failure]]; cbn [fst] in Hok1;
    [|intros [= <- <-]; by rewrite app_nil_r].
  destruct (allocate (ids c1)) as [[r rid]|] eqn:Ha; [|done]. destruct (to_text _) as [text|]; [|done].
  destruct sent; intros [= <- <-].
  - eapply (issue_ok c1); [done|done|done|]. intros id Hid.
    apply (set_link_fewer link (add_sent text)) in Hid; [|done]. by apply register_waits in Hid.
  - rewrite app_nil_r. eapply issued_ok_fewer; [by eapply allocate_ok|]. apply unsent_fewer.
Qed.

Lemma core_run_issued ops : ∀ c c' before issued,
  issued_ok c before → core_run retry_delay ops c = Some (c', issued) → issued_ok c' (before ++ issued).
Proof.
  induction ops as [|op ops IH]; intros c c' before issued Hok; cbn; [intros [= <- <-]; by rewrite app_nil_r|].
  destruct (core_step retry_delay op c) as [[c1 new]|] eqn:Hs; [|done].
  destruct (core_run retry_delay ops c1) as [[c2 more]|] eqn:Hr; [|done]. intros [= <- <-].
  rewrite app_assoc. eapply (IH c1); [|done]. destruct op as [dialed sent ty body| | | |];
    [|(destruct (core_step_fewer _ _ _ _ Hs) as [-> Hle]; rewrite app_nil_r; by eapply issued_ok_fewer)..].
  cbn in Hs. destruct (begin_request _ _ _ _ _ _) as [[c3 res]|] eqn:Hb; [|done].
  pose proof (begin_issued _ _ _ _ _ _ _ _ Hok Hb) as Hok'.
  destruct res as [[[link w] rid]|]; simplify_eq; done.
Qed.
End CoreLemmas.

(** ** Closed examples *)

Definition ws_codes : FrameCodes :=
  {| fc_kind := "websocket"; fc_error := "WS_ERROR"; fc_closed := "WS_CLOSED"; fc_timeout := "WS_TIMEOUT";
     fc_send_failed := "WS_SEND_FAILED"; fc_dial_failed := "WS_DIAL_FAILED";
     fc_invalid_response := "WS_INVALID_RESPONSE"; fc_disposed := "WS_DISPOSED" |}.

#[local] Existing Instance reference_codec.

Definition demo_text (frame : Frame) : string := default "" (to_text (JObject frame)).
Definition demo_core : Core := new_core ws_codes [].
Definition demo_answer (request_id : string) : string := demo_text (envelope "push-result" request_id []).

Example demo_frame_answer :
  frame_answer ws_codes (demo_answer "a-1") = Some ("a-1", Ok (envelope "push-result" "a-1" [])).
Proof. by vm_compute. Qed.

Example demo_begin :
  match begin_request (λ _, None) (Ok ()) (Ok ()) "push" [] demo_core with
  | Some (c, Ok (link, waiter, request_id)) =>
      link = 0%nat ∧ waiter = 0%nat ∧
      (settle_request "push" link waiter request_id (receive_frame (demo_answer request_id) true link c).1).2
      = Ok (envelope "push-result" request_id [])
  | _ => False
  end.
Proof. by vm_compute. Qed.

(** ** Properties *)

(** Over any registrations, withdrawals, frames and failures of a
    connection, an inbox that holds an outcome was registered before the
    outcome came, was empty until then, was filled either by a frame that
    answers its own request id or by the connection failing, and keeps that
    outcome whatever happens later. *)
Theorem responses_correlated `{SerdeJson} codes on_changed es i o
  (Hi : inboxes (pending_run codes on_changed es no_pending) !! i = Some (Some o)) :
  ∃ es1 e es2 id,
    es = es1 ++ e :: es2
    ∧ registered es1 !! i = Some id
    ∧ inboxes (pending_run codes on_changed es1 no_pending) !! i = Some None
    ∧ ((∃ text, e = EFrame text ∧ frame_answer codes text = Some (id, o)) ∨ (∃ f, e = EFailAll f ∧ o = Err f))
    ∧ ∀ es3, inboxes (pending_run codes on_changed (es1 ++ e :: es3) no_pending) !! i = Some (Some o).
Proof.
  revert Hi. induction es as [|e es IH] using rev_ind; [done|]. intros Hi.
  rewrite pending_run_app in Hi. cbn in Hi.
  pose proof (start_waiting codes on_changed es) as Hw.
  destruct (event_inbox codes on_changed e _ _ i Hw) as [Hsame|[(r & _ & _ & Hn)|(id & o' & Hid & Hn & Ho & Hwhy)]].
  - rewrite Hsame in Hi. destruct (IH Hi) as (es1 & e' & es2 & id & -> & H1 & H2 & H3 & H4).
    exists es1, e', (es2 ++ [e]), id. split; [by rewrite <- app_assoc|]. done.
  - rewrite Hn in Hi. done.
  - rewrite Ho in Hi. injection Hi as ->. exists es, e, [], id. do 4 (split; [done|]).
    intros es3. rewrite pending_run_app. cbn. by eapply run_inbox_stable; [apply event_waiting|].
Qed.

(** C17: a registered request gets its own answer.  While only other requests'
    events happen its wait times out, and the timeout withdraws it; after a
    frame that answers its id the wait returns exactly that answer, whatever
    comes before the wait ends. *)
Theorem request_gets_its_response `{SerdeJson} codes on_changed frame_type es0 es1 es2 request_id text o
  (Hun : Forall (unrelated codes request_id) es1) (Htext : frame_answer codes text = Some (request_id, o)) :
  let waiter := length (registered es0) in
  let before := pending_run codes on_changed (es0 ++ ERegister request_id :: es1) no_pending in
  let after := pending_run codes on_changed (es0 ++ ERegister request_id :: es1 ++ EFrame text :: es2) no_pending in
  (settle codes frame_type request_id waiter after).2 = o
  ∧ settle codes frame_type request_id waiter before
    = (forget request_id before,
       Err (retryable_failure (fc_timeout codes) (fc_kind codes +:+ " " +:+ frame_type +:+ " timed out"))).
Proof.
  intros waiter before after.
  pose proof (start_waiting codes on_changed es0) as Hw0.
  pose proof (event_waiting codes on_changed (ERegister request_id) _ _ Hw0) as Hw1.
  assert (waiters (pending_event codes on_changed (ERegister request_id)
                     (pending_run codes on_changed es0 no_pending)) !! request_id = Some waiter) as Hreg.
  { cbn. rewrite lookup_insert_eq. by rewrite (proj1 Hw0). }
  pose proof (run_waiting codes on_changed es1 _ _ Hw1) as Hw2.
  pose proof (run_unrelated codes on_changed es1 _ _ _ _ Hw1 Hreg Hun) as Hwait.
  assert (before = pending_run codes on_changed es1 (pending_event codes on_changed (ERegister request_id)
                     (pending_run codes on_changed es0 no_pending))) as Hbefore.
  { unfold before. by rewrite pending_run_app. }
  rewrite <- Hbefore in Hw2, Hwait. split.
  - assert (inboxes after !! waiter = Some (Some o)) as Hin; [|unfold settle; by rewrite Hin].
    assert (after = pending_run codes on_changed (EFrame text :: es2) before) as ->.
    { unfold after, before. by rewrite <- pending_run_app, <- app_assoc. }
    cbn.
    eapply run_inbox_stable; [by apply (event_waiting codes on_changed (EFrame text))|]. cbn.
    rewrite dispatch_complete, Htext. by eapply complete_inbox.
  - unfold settle. rewrite (proj2 (proj2 Hw2 _ _ Hwait)). by rewrite Hwait, bool_decide_true.
Qed.

(** A request that waits has written its frame on a live link and gets
    exactly what happens to it: the frame that answers its id, the disposal
    failure when the transport is disposed, else the timeout. *)
Theorem request_outcome `{SerdeJson} retry_delay dialed sent frame_type body c c' link waiter request_id
  (Hreq : begin_request retry_delay dialed sent frame_type body c = Some (c', Ok (link, waiter, request_id))) :
  disposed c = false
  ∧ (∃ l text, links c' !! link = Some l ∧ lk_alive l = true ∧ last (lk_sent l) = Some text
       ∧ to_text (JObject (envelope frame_type request_id body)) = Some text)
  ∧ (∀ text o on_changed, frame_answer (codes c) text = Some (request_id, o) →
       (settle_request frame_type link waiter request_id (receive_frame text on_changed link c').1).2
       = map_err Other o)
  ∧ (settle_request frame_type link waiter request_id (dispose c')).2
    = Err (Other (permanent_failure (fc_disposed (codes c)) "transport disposed"))
  ∧ (settle_request frame_type link waiter request_id c').2
    = Err (Other (retryable_failure (fc_timeout (codes c))
                    (fc_kind (codes c) +:+ " " +:+ frame_type +:+ " timed out")))
  ∧ ∀ dialed sent frame_type body,
      begin_request retry_delay dialed sent frame_type body (dispose c')
      = Some (dispose c', Err (Other (permanent_failure (fc_disposed (codes c)) "transport disposed"))).
Proof.
  unfold begin_request in Hreq. destruct (disposed c) eqn:Hd; [done|].
  destruct (start_request_ok _ _ _ _ _ _ _ _ _ _ Hreq)
    as (l & text & Ht & Ha & -> & Hl & Hconn & Hcodes & Hdisp).
  set (l' := add_sent text (on_pending (λ p, (register request_id p).1) l)) in Hl.
  set (w := length (inboxes (lk_pending l))).
  assert (waiters (lk_pending l') !! request_id = Some w) as Hreg by apply lookup_insert_eq.
  assert (inboxes (lk_pending l') !! w = Some None) as Hin.
  { cbn. by rewrite lookup_app_r, Nat.sub_diag by (unfold w; lia). }
  assert (w < length (inboxes (lk_pending l')))%nat as Hlt by by apply lookup_lt_Some in Hin.
  split; [done|]. split; [exists l', text; split; [done|]; split; [done|]; split; [apply last_snoc|done]|].
  split; [|split; [|split]].
  - intros frame o oc Hf. destruct (receive_frame_link frame oc link c' _ Hl) as [Hl2 _].
    rewrite (settle_request_at _ _ _ _ _ _ Hl2). f_equal. apply settle_filled.
    cbn [on_pending lk_pending]. rewrite dispatch_complete, Hcodes, Hf. unfold complete. rewrite Hreg.
    by apply list_lookup_insert_eq.
  - destruct (dispose_link c' link _ Hconn Hl) as [Hl2 _].
    rewrite (settle_request_at _ _ _ _ _ _ Hl2). rewrite Hcodes.
    destruct (fail_all_spec (permanent_failure (fc_disposed (codes c)) "transport disposed") (lk_pending l'))
      as (Hall & _ & _). erewrite settle_filled; [|by apply (Hall _ _ Hreg Hlt)]. done.
  - rewrite (settle_request_at _ _ _ _ _ _ Hl). unfold settle.
    by rewrite Hin, Hreg, bool_decide_true, Hcodes by done.
  - intros. unfold begin_request, dispose. rewrite Hconn. cbn. by rewrite Hcodes.
Qed.

(** Over any operations of a fresh transport, the ids given to requests are
    pairwise distinct and every id in a waiter map was given to a request, so
    registering a request never displaces another one's waiter. *)
Theorem request_ids_distinct `{SerdeJson} retry_delay codes entropy ops c issued
  (Hrun : core_run retry_delay ops (new_core codes entropy) = Some (c, issued)) :
  NoDup issued
  ∧ (∀ request_id, waits_for c request_id → request_id ∈ issued)
  ∧ (∀ r request_id, allocate (ids c) = Some (r, request_id) → ¬ waits_for c request_id).
Proof.
  destruct (core_run_issued retry_delay ops (new_core codes entropy) c [] issued) as (Hnd & Hn & Hw); [|done|].
  - split; [apply NoDup_nil_2|]. split; [by intros ? ?%elem_of_nil|]. intros id (j & l & Hl & _). done.
  - split; [done|]. split; [done|]. intros r rid Ha Hwait. destruct (Hn _ (Hw _ Hwait)) as (n & Hle & E).
    unfold allocate, checked_add_u64 in Ha. destruct (N.leb_spec (ri_next (ids c) + 1) u64_max); [|done].
    injection Ha as _ <-. do 2 apply (inj (String.append _)) in E. apply (inj to_dec) in E. lia.
Qed.

(** A request that had passed its disposal check when [dispose] ran dials a
    new connection that the disposed transport keeps: alive, current, never
    closed, with a waiter that disposal did not fail. *)
Theorem dispose_misses_started_request `{SerdeJson} retry_delay frame_type body c c' link waiter request_id
  (Hreq : start_request retry_delay (Ok ()) (Ok ()) frame_type body (dispose c)
          = Some (c', Ok (link, waiter, request_id))) :
  disposed c' = true ∧ connection c' = Some link
  ∧ ∃ l, links c' !! link = Some l ∧ lk_alive l = true ∧ lk_closed l = false
      ∧ waiters (lk_pending l) !! request_id = Some waiter ∧ inboxes (lk_pending l) !! waiter = Some None.
Proof.
  assert (connection (dispose c) = None) as Hnone by (unfold dispose; by destruct (connection c)).
  assert (disposed (dispose c) = true) as Hdisp by (unfold dispose; by destruct (connection c)).
  revert Hreq. unfold start_request, connect. rewrite Hnone. cbn -[allocate dispose].
  destruct (allocate _) as [[r rid]|]; [|done]. destruct (to_text _) as [text|]; [|done].
  rewrite lookup_app_r, Nat.sub_diag by lia. intros [= <- <- <- <-]. cbn. split; [done|]. split; [done|].
  eexists. rewrite !list_lookup_alter_eq, lookup_app_r, Nat.sub_diag by lia. cbn. split; [done|].
  do 2 (split; [done|]). split; [apply lookup_insert_eq|done].
Qed.

(** ** Witnesses *)

Definition demo_events : list PendingEvent :=
  [ERegister "a-1"; ERegister "a-2"; EFrame (demo_answer "a-2"); EFrame (demo_answer "a-9"); EFrame (demo_answer "a-1")].

Lemma responses_correlated_witness : ∃ es1 e es2 id,
  demo_events = es1 ++ e :: es2 ∧ registered es1 !! 0%nat = Some id
  ∧ inboxes (pending_run ws_codes true es1 no_pending) !! 0%nat = Some None
  ∧ ((∃ text, e = EFrame text ∧ frame_answer ws_codes text = Some (id, Ok (envelope "push-result" "a-1" [])))
     ∨ (∃ f, e = EFailAll f ∧ Ok (envelope "push-result" "a-1" []) = Err f))
  ∧ ∀ es3, inboxes (pending_run ws_codes true (es1 ++ e :: es3) no_pending) !! 0%nat
           = Some (Some (Ok (envelope "push-result" "a-1" []))).
Proof.
  apply (responses_correlated ws_codes true demo_events 0 (Ok (envelope "push-result" "a-1" []))).
  vm_compute; reflexivity.
Defined.

Lemma request_gets_its_response_witness :
  let es1 := [ERegister "a-2"; EFrame (demo_answer "a-2")] in
  (settle ws_codes "push" "a-1" 0
     (pending_run ws_codes true ([] ++ ERegister "a-1" :: es1 ++ EFrame (demo_answer "a-1") :: []) no_pending)).2
  = Ok (envelope "push-result" "a-1" [])
  ∧ (settle ws_codes "push" "a-1" 0 (pending_run ws_codes true ([] ++ ERegister "a-1" :: es1) no_pending)).2
    = Err (retryable_failure "WS_TIMEOUT" "websocket push timed out").
Proof.
  destruct (request_gets_its_response ws_codes true "push" [] [ERegister "a-2"; EFrame (demo_answer "a-2")] []
              "a-1" (demo_answer "a-1") (Ok (envelope "push-result" "a-1" []))) as [H1 H2].
  - apply Forall_cons_2; [vm_compute; discriminate|]. apply Forall_cons_2; [vm_compute; discriminate|apply Forall_nil_2].
  - vm_compute; reflexivity.
  - split; [exact H1|]. exact (f_equal snd H2).
Defined.

Definition demo_started : option (Core * result (nat * nat * string) RequestError) :=
  begin_request (λ _, None) (Ok ()) (Ok ()) "push" [] demo_core.
Definition demo_waiting : Core := match demo_started with Some (c, _) => c | None => demo_core end.
Definition demo_id : string := match demo_started with Some (_, Ok (_, _, id)) => id | _ => "" end.

Lemma request_outcome_witness :
  (settle_request "push" 0 0 demo_id (dispose demo_waiting)).2
  = Err (Other (permanent_failure "WS_DISPOSED" "transport disposed")).
Proof.
  refine (proj1 (proj2 (proj2 (proj2
    (request_outcome (λ _, None) (Ok ()) (Ok ()) "push" [] demo_core demo_waiting 0 0 demo_id _))))).
  vm_compute; reflexivity.
Defined.

Lemma request_ids_distinct_witness : NoDup [demo_id].
Proof.
  refine (proj1 (request_ids_distinct (λ _, None) ws_codes [] [OBegin (Ok ()) (Ok ()) "push" []; ODispose]
    (dispose demo_waiting) [demo_id] _)).
  vm_compute; reflexivity.
Defined.

Definition demo_raced : option (Core * result (nat * nat * string) RequestError) :=
  start_request (λ _, None) (Ok ()) (Ok ()) "push" [] (dispose demo_core).

Lemma dispose_misses_started_request_witness :
  disposed (match demo_raced with Some (c, _) => c | None => demo_core end) = true.
Proof.
  refine (proj1 (dispose_misses_started_request (λ _, None) "push" [] demo_core
    (match demo_raced with Some (c, _) => c | None => demo_core end) 0 0
    (match demo_raced with Some (_, Ok (_, _, id)) => id | _ => "" end) _)).
  vm_compute; reflexivity.
Defined.
