(* ===== verification/Lifecycle.v ===== *)
(** * Lifecycle: the desktop sync lifecycle and its generation fence

    Models the lifecycle machine and the capability resolution of
    [clients/desktop-rust/src/lib.rs] and the generation-fenced adapter
    [clients/desktop-rust/fenced-lifecycle/src/lib.rs], which delegates every
    phase transition to it. *)

From S2P Require Import Prelude.

(** ** Host capabilities *)

Module Capability.
Inductive Runtime := Node | Electron | Flutter | RustNative | WasmWebView.
#[export] Instance Runtime_eq_dec : EqDecision Runtime.
Proof. solve_decision. Defined.

Inductive ExecutionClass := PersistentNativeRunner | ServiceWorkerEvents | ForegroundOnly.
#[export] Instance ExecutionClass_eq_dec : EqDecision ExecutionClass.
Proof. solve_decision. Defined.

Inductive TcpCapability := Native | HostBridge | Unsupported.

Record CapabilityInput := {
  in_runtime : Runtime;
  service_worker_available : bool;
  native_host_bridge_available : bool;
  persistent_native_runner_available : bool;
  tcp_available : bool
}.

Record SyncCapability := {
  cap_runtime : Runtime;
  execution_class : ExecutionClass;
  http : bool;
  websocket_lives_for_host_process : bool;
  tcp : TcpCapability;
  survives_window_closure : bool;
  survives_host_termination : bool;
  exact_intervals_guaranteed : bool
}.

Inductive CapabilityError := WasmPersistentRunnerNeedsNativeBridge.

Definition resolve_desktop_sync_capability (input : CapabilityInput)
  : result SyncCapability CapabilityError :=
  if (in_runtime input == WasmWebView) && persistent_native_runner_available input
     && negb (native_host_bridge_available input)
  then Err WasmPersistentRunnerNeedsNativeBridge
  else
    let class :=
      if persistent_native_runner_available input then PersistentNativeRunner
      else if service_worker_available input then ServiceWorkerEvents
      else ForegroundOnly in
    let tcp :=
      if negb (tcp_available input) then Unsupported
      else if in_runtime input == WasmWebView then
        if native_host_bridge_available input then HostBridge else Unsupported
      else Native in
    Ok {| cap_runtime := in_runtime input; execution_class := class; http := true;
          websocket_lives_for_host_process := class == PersistentNativeRunner;
          tcp := tcp;
          survives_window_closure := (class == PersistentNativeRunner) || service_worker_available input;
          survives_host_termination := class == PersistentNativeRunner;
          exact_intervals_guaranteed := false |}.
End Capability.

(** ** The lifecycle machine *)

Inductive Phase := Idle | Acquiring | Running | Releasing | Closed.
#[export] Instance Phase_eq_dec : EqDecision Phase.
Proof. solve_decision. Defined.

Inductive Event :=
| Wake | Join | BeginAcquire | AcquireGranted | AcquireDeferred | Cancel
| CycleSettled | ReleaseSettled | Close | ProcessAbort.
#[export] Instance Event_eq_dec : EqDecision Event.
Proof. solve_decision. Defined.

Record Snapshot := {
  phase : Phase;
  wake_pending : bool;
  close_requested : bool;
  cancel_requested : bool;
  permit_held : bool
}.
#[export] Instance Snapshot_eq_dec : EqDecision Snapshot.
Proof. solve_decision. Defined.

Definition INITIAL : Snapshot :=
  {| phase := Idle; wake_pending := false; close_requested := false;
     cancel_requested := false; permit_held := false |}.

Definition is_valid (s : Snapshot) : bool :=
  let active_permit := match phase s with Running | Releasing => true | _ => false end in
  if negb (Bool.eqb (permit_held s) active_permit) then false
  else if phase s == Closed then
    close_requested s && negb (wake_pending s) && negb (cancel_requested s) && negb (permit_held s)
  else if close_requested s && wake_pending s then false
  else negb (cancel_requested s) || (phase s == Running).

Definition in_flight (p : Phase) : bool :=
  match p with Acquiring | Running | Releasing => true | _ => false end.

(** The [match] of [transition]; [None] is its [return None]. *)
Definition next_state (s : Snapshot) (e : Event) : option Snapshot :=
  match e with
  | Wake =>
      if (phase s == Closed) || close_requested s then None
      else Some {| phase := phase s; wake_pending := true; close_requested := close_requested s;
                   cancel_requested := cancel_requested s; permit_held := permit_held s |}
  | Join => if in_flight (phase s) then Some s else None
  | BeginAcquire =>
      if negb (phase s == Idle) || negb (wake_pending s) || close_requested s then None
      else Some {| phase := Acquiring; wake_pending := false; close_requested := close_requested s;
                   cancel_requested := cancel_requested s; permit_held := permit_held s |}
  | AcquireGranted =>
      if negb (phase s == Acquiring) then None
      else Some {| phase := if close_requested s then Releasing else Running;
                   wake_pending := wake_pending s; close_requested := close_requested s;
                   cancel_requested := false; permit_held := true |}
  | AcquireDeferred =>
      if negb (phase s == Acquiring) then None
      else Some {| phase := if close_requested s then Closed else Idle;
                   wake_pending := if close_requested s then false else wake_pending s;
                   close_requested := close_requested s;
                   cancel_requested := false; permit_held := false |}
  | Cancel =>
      if negb (phase s == Running) then None
      else Some {| phase := phase s; wake_pending := wake_pending s;
                   close_requested := close_requested s;
                   cancel_requested := true; permit_held := permit_held s |}
  | CycleSettled =>
      if negb (phase s == Running) || negb (permit_held s) then None
      else Some {| phase := Releasing; wake_pending := wake_pending s;
                   close_requested := close_requested s;
                   cancel_requested := false; permit_held := permit_held s |}
  | ReleaseSettled =>
      if negb (phase s == Releasing) || negb (permit_held s) then None
      else Some {| phase := if close_requested s then Closed else Idle;
                   wake_pending := if close_requested s then false else wake_pending s;
                   close_requested := close_requested s;
                   cancel_requested := false; permit_held := false |}
  | Close =>
      if phase s == Closed then None
      else if phase s == Idle then
        Some {| phase := Closed; wake_pending := false; close_requested := true;
                cancel_requested := false; permit_held := permit_held s |}
      else
        Some {| phase := phase s; wake_pending := false; close_requested := true;
                cancel_requested := phase s == Running; permit_held := permit_held s |}
  | ProcessAbort =>
      if negb (in_flight (phase s)) then None
      else Some {| phase := if close_requested s then Closed else Idle;
                   wake_pending := false; close_requested := close_requested s;
                   cancel_requested := false; permit_held := false |}
  end.

Definition transition (s : Snapshot) (e : Event) : option Snapshot :=
  if negb (is_valid s) then None
  else match next_state s e with
       | Some next => if is_valid next then Some next else None
       | None => None
       end.

Record TransitionError := { te_before : Snapshot; te_event : Event }.

(** [SyncLifecycleMachine::apply]; the outer [None] is its [assert!]. *)
Definition apply (s : Snapshot) (e : Event) : option (Snapshot * result Snapshot TransitionError) :=
  match transition s e with
  | None => Some (s, Err {| te_before := s; te_event := e |})
  | Some next => if is_valid next then Some (next, Ok next) else None
  end.

(** ** The generation fence *)

Module Fenced.
Inductive Disposition := Applied | Rejected | Stale.
#[export] Instance Disposition_eq_dec : EqDecision Disposition.
Proof. solve_decision. Defined.

Record Command := { event : Event; cmd_generation : option N }.

Record FencedSnapshot := { lifecycle : Snapshot; generation : N }.

Definition initial : FencedSnapshot := {| lifecycle := INITIAL; generation := 0 |}.

Definition fenced_is_valid (s : FencedSnapshot) : bool := is_valid (lifecycle s).

Definition may_run_sync_work (s : FencedSnapshot) : bool :=
  (phase (lifecycle s) == Running) && permit_held (lifecycle s)
  && negb (cancel_requested (lifecycle s)) && negb (close_requested (lifecycle s)).

Definition accepts_wake (s : FencedSnapshot) : bool :=
  negb (phase (lifecycle s) == Closed) && negb (close_requested (lifecycle s)).

Record Transition := {
  disposition : Disposition;
  tr_before : FencedSnapshot;
  tr_after : FencedSnapshot;
  tr_command : Command
}.

Definition applied (t : Transition) : bool := disposition t == Applied.

Definition requires_generation (e : Event) : bool :=
  match e with
  | AcquireGranted | AcquireDeferred | CycleSettled | ReleaseSettled | ProcessAbort => true
  | _ => false
  end.

Definition validate_generation (s : FencedSnapshot) (c : Command) : result unit Disposition :=
  if negb (requires_generation (event c)) then Ok ()
  else match cmd_generation c with
       | None => Err Rejected
       | Some g => if negb (g =? generation s) then Err Stale else Ok ()
       end.

Definition advance_generation (s : FencedSnapshot) (e : Event) : option N :=
  if e == BeginAcquire then checked_add_u64 (generation s) 1 else Some (generation s).

Definition unchanged (s : FencedSnapshot) (c : Command) (d : Disposition) : Transition :=
  {| disposition := d; tr_before := s; tr_after := s; tr_command := c |}.

Definition reduce (s : FencedSnapshot) (c : Command) : Transition :=
  if negb (fenced_is_valid s) then unchanged s c Rejected
  else match validate_generation s c with
       | Err d => unchanged s c d
       | Ok _ =>
           match transition (lifecycle s) (event c) with
           | None => unchanged s c Rejected
           | Some next_lifecycle =>
               match advance_generation s (event c) with
               | None => unchanged s c Rejected
               | Some g =>
                   let after := {| lifecycle := next_lifecycle; generation := g |} in
                   if negb (fenced_is_valid after) then unchanged s c Rejected
                   else {| disposition := Applied; tr_before := s; tr_after := after;
                           tr_command := c |}
               end
           end
       end.

Definition dispatch (s : FencedSnapshot) (c : Command) : FencedSnapshot * Transition :=
  let decision := reduce s c in
  (if applied decision then tr_after decision else s, decision).
End Fenced.

(** ** Specification *)

(** How far a closing machine is from being closed. *)
Definition close_distance (p : Phase) : N :=
  match p with Closed => 0 | Releasing => 1 | Idle => 1 | Acquiring | Running => 2 end.

(** Events that end a flight, and the ones that make no progress. *)
Definition ends_flight (e : Event) : bool :=
  match e with AcquireDeferred | ReleaseSettled | ProcessAbort => true | _ => false end.
Definition idles (e : Event) : bool :=
  match e with Wake | Join | Cancel | Close => true | _ => false end.

Definition b2n (b : bool) : N := if b then 1 else 0.

(** Events accepted in a row. *)
Fixpoint accepted (s : Snapshot) (es : list Event) : option Snapshot :=
  match es with
  | [] => Some s
  | e :: es' =>
      match apply s e with
      | Some (s', Ok _) => accepted s' es'
      | _ => None
      end
  end.

Definition progress_count (es : list Event) : N := N.of_nat (length (filter (λ e, negb (idles e) = true) es)).

(** What is left to settle before a closing machine is closed. *)
Definition settlement (p : Phase) : list Event :=
  match p with
  | Closed => [] | Idle => [Close] | Acquiring => [AcquireDeferred]
  | Running => [CycleSettled; ReleaseSettled] | Releasing => [ReleaseSettled]
  end.

(** How a whole trace of the fenced machine is counted. *)
Fixpoint dispatch_all (s : Fenced.FencedSnapshot) (cs : list Fenced.Command)
  : Fenced.FencedSnapshot * list Fenced.Transition :=
  match cs with
  | [] => (s, [])
  | c :: cs' =>
      let '(s1, t) := Fenced.dispatch s c in
      let '(s2, ts) := dispatch_all s1 cs' in
      (s2, t :: ts)
  end.

Definition count_applied (f : Fenced.Command → bool) (ts : list Fenced.Transition) : N :=
  N.of_nat (length (filter (λ t, Fenced.applied t && f (Fenced.tr_command t) = true) ts)).

Definition begins (c : Fenced.Command) : bool := Fenced.event c == BeginAcquire.
Definition ends (g : N) (c : Fenced.Command) : bool :=
  ends_flight (Fenced.event c) && (Fenced.cmd_generation c == Some g).

Definition flying (s : Fenced.FencedSnapshot) (g : N) : bool :=
  (Fenced.generation s =? g) && in_flight (phase (Fenced.lifecycle s)).

(** ** Lemmas: one step, by cases on the finite state *)

Lemma next_valid s e n : is_valid s = true → next_state s e = Some n → is_valid n = true.
Proof.
  destruct s as [p wake close cancel permit]. destruct e, p, wake, close, cancel, permit;
    vm_compute; intros Hv [= <-] || intros Hv [=]; try discriminate; reflexivity.
Qed.

Lemma transition_next s e : is_valid s = true → transition s e = next_state s e.
Proof.
  intros Hs. unfold transition. rewrite Hs. cbn [negb].
  destruct (next_state s e) as [n|] eqn:E; [|done]. by rewrite (next_valid _ _ _ Hs E).
Qed.

Lemma next_flight s e n : is_valid s = true → next_state s e = Some n →
  b2n (e == BeginAcquire) + b2n (in_flight (phase s)) = b2n (ends_flight e) + b2n (in_flight (phase n)).
Proof.
  destruct s as [p wake close cancel permit]. destruct e, p, wake, close, cancel, permit;
    vm_compute; intros Hv [= <-] || intros Hv [=]; try discriminate; reflexivity.
Qed.

Lemma next_permit s e n : is_valid s = true → next_state s e = Some n →
  b2n (e == AcquireGranted) + b2n (permit_held s) =
  b2n ((e == ReleaseSettled) || (e == ProcessAbort) && permit_held s) + b2n (permit_held n).
Proof.
  destruct s as [p wake close cancel permit]. destruct e, p, wake, close, cancel, permit;
    vm_compute; intros Hv [= <-] || intros Hv [=]; try discriminate; reflexivity.
Qed.

Lemma next_closing s e n : is_valid s = true → close_requested s = true → next_state s e = Some n →
  close_requested n = true ∧ wake_pending n = false ∧
  (phase n = Running → phase s = Running) ∧
  close_distance (phase n) + b2n (negb (idles e)) <= close_distance (phase s).
Proof.
  destruct s as [p wake close cancel permit]. destruct e, p, wake, close, cancel, permit;
    vm_compute; intros Hv Hc [= <-] || intros Hv Hc [=]; try discriminate;
    repeat split; intros; first [reflexivity | discriminate].
Qed.

Lemma next_closed s e : is_valid s = true → phase s = Closed → next_state s e = None.
Proof.
  destruct s as [p wake close cancel permit]. destruct e, p, wake, close, cancel, permit;
    vm_compute; intros; first [reflexivity | discriminate].
Qed.

Lemma apply_valid s e : is_valid s = true →
  apply s e = match next_state s e with
              | Some n => Some (n, Ok n)
              | None => Some (s, Err {| te_before := s; te_event := e |})
              end.
Proof.
  intros Hs. unfold apply. rewrite (transition_next _ _ Hs).
  destruct (next_state s e) as [n|] eqn:E; [|done]. by rewrite (next_valid _ _ _ Hs E).
Qed.

Lemma accepted_cons s e es t : is_valid s = true → accepted s (e :: es) = Some t →
  ∃ n, next_state s e = Some n ∧ is_valid n = true ∧ accepted n es = Some t.
Proof.
  intros Hs. cbn [accepted]. rewrite (apply_valid _ _ Hs).
  destruct (next_state s e) as [n|] eqn:E; [|done]. intros H.
  exists n. split; [done|]. split; [exact (next_valid _ _ _ Hs E)|exact H].
Qed.

(** ** Lemmas: traces of a closing machine *)

Lemma accepted_closing es : ∀ s t, is_valid s = true → close_requested s = true →
  accepted s es = Some t →
  is_valid t = true ∧ close_requested t = true ∧ (phase t = Running → phase s = Running) ∧
  progress_count es + close_distance (phase t) <= close_distance (phase s).
Proof.
  induction es as [|e es IH]; intros s t Hs Hc.
  - intros [= <-]. unfold progress_count. cbn. repeat split; auto.
  - intros (n & Hn & Hv & Ht)%(accepted_cons _ _ _ _ Hs).
    destruct (next_closing _ _ _ Hs Hc Hn) as (Hcn & _ & Hrun & Hd).
    destruct (IH _ _ Hv Hcn Ht) as (Hvt & Hct & Hrt & Hle).
    repeat split; [done..|auto|]. unfold progress_count in *. rewrite filter_cons.
    destruct (idles e); cbn [negb] in *; case_decide; try done; cbn [length b2n] in *; lia.
Qed.

Lemma settlement_closes s : is_valid s = true → close_requested s = true →
  ∃ t, accepted s (settlement (phase s)) = Some t ∧ phase t = Closed.
Proof.
  destruct s as [p wake close cancel permit]. destruct p, wake, close, cancel, permit;
    vm_compute; intros; try discriminate; eexists; split; reflexivity.
Qed.

(** ** Lemmas: the generation fence *)

Lemma ends_need_generation e : ends_flight e = true → Fenced.requires_generation e = true.
Proof. by destruct e. Qed.

Lemma reduce_spec s c : Fenced.fenced_is_valid s = true →
  match Fenced.disposition (Fenced.reduce s c) with
  | Fenced.Applied =>
      ∃ n, next_state (Fenced.lifecycle s) (Fenced.event c) = Some n ∧ is_valid n = true
        ∧ Fenced.reduce s c =
            {| Fenced.disposition := Fenced.Applied; Fenced.tr_before := s;
               Fenced.tr_after := {| Fenced.lifecycle := n;
                 Fenced.generation := Fenced.generation s + b2n (begins c) |};
               Fenced.tr_command := c |}
        ∧ (begins c = true → Fenced.generation s < u64_max)
        ∧ (Fenced.requires_generation (Fenced.event c) = true →
           Fenced.cmd_generation c = Some (Fenced.generation s))
  | Fenced.Stale =>
      Fenced.reduce s c = Fenced.unchanged s c Fenced.Stale
      ∧ Fenced.requires_generation (Fenced.event c) = true
      ∧ ∃ g, Fenced.cmd_generation c = Some g ∧ g ≠ Fenced.generation s
  | Fenced.Rejected =>
      Fenced.reduce s c = Fenced.unchanged s c Fenced.Rejected
      ∧ (Fenced.requires_generation (Fenced.event c) = true ∧ Fenced.cmd_generation c = None
         ∨ next_state (Fenced.lifecycle s) (Fenced.event c) = None
         ∨ begins c = true ∧ u64_max <= Fenced.generation s)
  end.
Proof.
  intros Hs. unfold Fenced.reduce. rewrite Hs. cbn [negb].
  unfold Fenced.validate_generation.
  destruct (Fenced.requires_generation (Fenced.event c)) eqn:Hr; cbn [negb];
    [destruct (Fenced.cmd_generation c) as [g|] eqn:Hg;
      [destruct (N.eqb_spec g (Fenced.generation s)) as [->|Hne]; cbn [negb]|]|];
    try (cbn; eauto 10; fail).
  all: rewrite (transition_next _ _ Hs).
  all: destruct (next_state (Fenced.lifecycle s) (Fenced.event c)) as [n|] eqn:Hn; [|cbn; eauto 10].
  all: pose proof (next_valid _ _ _ Hs Hn) as Hv.
  all: unfold Fenced.advance_generation, begins, checked_add_u64.
  all: destruct (Fenced.event c == BeginAcquire) eqn:Hb;
    [destruct (N.leb_spec (Fenced.generation s + 1) u64_max); [|cbn; split; [done|right; right; split; [done|lia]]]|].
  all: unfold Fenced.fenced_is_valid; cbn [Fenced.lifecycle]; rewrite Hv; cbn [negb Fenced.disposition b2n].
  all: rewrite ?N.add_0_r; exists n; repeat split; first [done | intros; discriminate | intros; lia].
Qed.

(** ** Lemmas: traces of the fenced machine *)

Lemma some_eqb (a b : N) : (Some a == Some b) = (a =? b).
Proof. apply eq_true_iff_eq. rewrite bool_decide_eq_true, N.eqb_eq. split; [by intros [= ->]|by intros ->]. Qed.

Lemma dispatch_step s c s' t : Fenced.fenced_is_valid s = true → Fenced.dispatch s c = (s', t) →
  Fenced.fenced_is_valid s' = true ∧ Fenced.tr_command t = c ∧
  (if Fenced.applied t
   then next_state (Fenced.lifecycle s) (Fenced.event c) = Some (Fenced.lifecycle s')
        ∧ Fenced.generation s' = Fenced.generation s + b2n (begins c)
        ∧ (begins c = true → Fenced.generation s < u64_max)
        ∧ (Fenced.requires_generation (Fenced.event c) = true →
           Fenced.cmd_generation c = Some (Fenced.generation s))
   else s' = s).
Proof.
  intros Hs. unfold Fenced.dispatch, Fenced.applied. intros [= <- <-].
  pose proof (reduce_spec s c Hs) as H.
  destruct (Fenced.disposition (Fenced.reduce s c)) eqn:Hd.
  - destruct H as (n & Hn & Hv & -> & Hb & Hg). cbn [Fenced.disposition Fenced.tr_after Fenced.tr_command].
    exact (conj Hv (conj eq_refl (conj Hn (conj eq_refl (conj Hb Hg))))).
  - destruct H as [-> _]. by cbn.
  - destruct H as [-> _]. by cbn.
Qed.

Lemma count_applied_cons f t ts :
  count_applied f (t :: ts) = b2n (Fenced.applied t && f (Fenced.tr_command t)) + count_applied f ts.
Proof.
  unfold count_applied. rewrite filter_cons. case_decide as H.
  - rewrite H. cbn [length b2n]. lia.
  - apply not_true_is_false in H. rewrite H. cbn [b2n]. lia.
Qed.

Lemma step_flight s c s' t g : Fenced.fenced_is_valid s = true → Fenced.dispatch s c = (s', t) →
  b2n (Fenced.applied t && ends g c) + b2n (flying s' g) + b2n (g <=? Fenced.generation s)
  = b2n (flying s g) + b2n (g <=? Fenced.generation s').
Proof.
  intros Hs Hd. destruct (dispatch_step _ _ _ _ Hs Hd) as (_ & _ & H).
  destruct (Fenced.applied t); [|rewrite H; cbn [b2n andb]; lia].
  destruct H as (Hn & Hg & _ & Hr). pose proof (next_flight _ _ _ Hs Hn) as Hf.
  assert (He : ends_flight (Fenced.event c) = true → Fenced.cmd_generation c = Some (Fenced.generation s))
    by (intros H; apply Hr, ends_need_generation, H).
  unfold flying, ends, begins in *. rewrite Hg.
  assert (Hx : (Fenced.event c == BeginAcquire) = true → ends_flight (Fenced.event c) = false)
    by (destruct (Fenced.event c); vm_compute; done).
  destruct (Fenced.event c == BeginAcquire), (ends_flight (Fenced.event c)); try (by specialize (Hx eq_refl)).
  all: try rewrite (He eq_refl), some_eqb.
  all: destruct (in_flight (phase (Fenced.lifecycle s))), (in_flight (phase (Fenced.lifecycle s')));
    cbn [b2n] in Hf; try lia; cbn [andb b2n].
  all: rewrite ?N.add_0_r, ?andb_false_r, ?andb_true_r.
  all: destruct (N.eqb_spec (Fenced.generation s) g), (N.leb_spec g (Fenced.generation s)); cbn [b2n]; try lia;
    destruct (N.eqb_spec (Fenced.generation s + 1) g), (N.leb_spec g (Fenced.generation s + 1)); cbn [b2n]; lia.
Qed.

Lemma trace_flight cs g : ∀ s s' ts, Fenced.fenced_is_valid s = true →
  dispatch_all s cs = (s', ts) →
  Fenced.fenced_is_valid s' = true ∧
  count_applied begins ts + Fenced.generation s = Fenced.generation s' ∧
  (Fenced.generation s <= u64_max → Fenced.generation s' <= u64_max) ∧
  count_applied (ends g) ts + b2n (flying s' g) + b2n (g <=? Fenced.generation s)
  = b2n (flying s g) + b2n (g <=? Fenced.generation s').
Proof.
  induction cs as [|c cs IH]; intros s s' ts Hs.
  - intros [= <- <-]. unfold count_applied. cbn. repeat split; auto.
  - cbn [dispatch_all]. destruct (Fenced.dispatch s c) as [s1 t] eqn:Hd.
    destruct (dispatch_all s1 cs) as [s2 ts2] eqn:Hds. intros [= <- <-].
    destruct (dispatch_step _ _ _ _ Hs Hd) as (Hs1 & Hc & Hstep).
    pose proof (step_flight _ _ _ _ g Hs Hd) as Hf.
    destruct (IH _ _ _ Hs1 Hds) as (Hv & Hg & Hle & Hcount).
    rewrite !count_applied_cons, Hc. split; [done|].
    destruct (Fenced.applied t); cbn [andb b2n] in *.
    + destruct Hstep as (_ & Hgen & Hmax & _). rewrite Hgen in *.
      destruct (begins c); cbn [b2n] in *; [specialize (Hmax eq_refl)|]; repeat split; lia.
    + subst s1. repeat split; lia.
Qed.

(** ** Closed examples *)

(** The state a machine closing in the middle of a flight is in. *)
Definition closing_running : Snapshot :=
  {| phase := Running; wake_pending := false; close_requested := true;
     cancel_requested := true; permit_held := true |}.

Definition demo_commands : list Fenced.Command :=
  [ {| Fenced.event := Wake; Fenced.cmd_generation := None |};
    {| Fenced.event := BeginAcquire; Fenced.cmd_generation := None |};
    {| Fenced.event := AcquireDeferred; Fenced.cmd_generation := Some 1 |};
    {| Fenced.event := AcquireDeferred; Fenced.cmd_generation := Some 1 |};
    {| Fenced.event := Wake; Fenced.cmd_generation := None |};
    {| Fenced.event := BeginAcquire; Fenced.cmd_generation := None |};
    {| Fenced.event := AcquireGranted; Fenced.cmd_generation := Some 1 |};
    {| Fenced.event := AcquireGranted; Fenced.cmd_generation := Some 2 |} ].

Example demo_trace :
  let '(s, ts) := dispatch_all Fenced.initial demo_commands in
  (Fenced.generation s, phase (Fenced.lifecycle s), Fenced.may_run_sync_work s,
   map Fenced.disposition ts)
  = (2, Running, true,
     [Fenced.Applied; Fenced.Applied; Fenced.Applied; Fenced.Rejected; Fenced.Applied;
      Fenced.Applied; Fenced.Stale; Fenced.Applied]).
Proof. vm_compute. reflexivity. Qed.

(** ** Properties *)

(** Applying an event to a valid snapshot never panics; the event is
    accepted exactly when the transition table has a row for it, the new
    snapshot is valid, an undefined transition is an error that leaves the
    state alone, and a closed machine accepts nothing. *)
Theorem apply_correct s e : is_valid s = true →
  ∃ s' r, apply s e = Some (s', r) ∧ is_valid s' = true ∧
    match r with
    | Ok n => n = s' ∧ next_state s e = Some s' ∧ phase s ≠ Closed
    | Err err => s' = s ∧ next_state s e = None ∧ te_before err = s ∧ te_event err = e
    end.
Proof.
  intros Hs. rewrite (apply_valid _ _ Hs). destruct (next_state s e) as [n|] eqn:Hn.
  - exists n, (Ok n). split_and!; try done; [exact (next_valid _ _ _ Hs Hn)|].
    intros Hp. by rewrite (next_closed _ _ Hs Hp) in Hn.
  - eexists s, (Err _). split_and!; done.
Qed.

Lemma apply_correct_witness :
  is_valid closing_running = true ∧
  ∃ s' r, apply closing_running ReleaseSettled = Some (s', r) ∧ is_valid s' = true ∧
    match r with
    | Ok n => n = s' ∧ next_state closing_running ReleaseSettled = Some s' ∧ phase closing_running ≠ Closed
    | Err err => s' = closing_running ∧ next_state closing_running ReleaseSettled = None
        ∧ te_before err = closing_running ∧ te_event err = ReleaseSettled
    end.
Proof. split; [reflexivity|]. apply (apply_correct closing_running ReleaseSettled). reflexivity. Defined.

(** Once a close is requested the lifecycle drains: no accepted events
    bring it back to running, at most two of them make progress towards
    [Closed], whatever else is interleaved, and from wherever they leave it
    the settlements of its phase are accepted and close it. *)
Theorem closing_drains s es t : is_valid s = true → close_requested s = true →
  accepted s es = Some t →
  (phase t = Running → phase s = Running) ∧
  progress_count es + close_distance (phase t) <= 2 ∧
  ∃ u, accepted t (settlement (phase t)) = Some u ∧ phase u = Closed.
Proof.
  intros Hs Hc Ht. destruct (accepted_closing _ _ _ Hs Hc Ht) as (Hv & Hct & Hr & Hd).
  split; [done|]. split; [|exact (settlement_closes _ Hv Hct)].
  assert (close_distance (phase s) <= 2) by (destruct (phase s); cbn; lia). lia.
Qed.

Lemma closing_drains_witness :
  let es := [Cancel; Join; CycleSettled; Close] in
  let t := {| phase := Releasing; wake_pending := false; close_requested := true;
              cancel_requested := false; permit_held := true |} in
  accepted closing_running es = Some t ∧
  (phase t = Running → phase closing_running = Running) ∧
  progress_count es + close_distance (phase t) <= 2 ∧
  ∃ u, accepted t (settlement (phase t)) = Some u ∧ phase u = Closed.
Proof.
  cbv zeta. split; [vm_compute; reflexivity|].
  apply (closing_drains closing_running [Cancel; Join; CycleSettled; Close]); vm_compute; reflexivity.
Defined.

(** The fenced adapter refines the lifecycle: an applied command is a
    step of the machine underneath and carried the current generation if it
    settles anything; a stale one carried another generation and changes
    nothing; a rejected one changes nothing and has a reason. *)
Theorem dispatch_refines s c : Fenced.fenced_is_valid s = true →
  let '(s', t) := Fenced.dispatch s c in
  match Fenced.disposition t with
  | Fenced.Applied =>
      apply (Fenced.lifecycle s) (Fenced.event c) = Some (Fenced.lifecycle s', Ok (Fenced.lifecycle s'))
      ∧ Fenced.generation s' = Fenced.generation s + b2n (begins c)
      ∧ (Fenced.requires_generation (Fenced.event c) = true →
         Fenced.cmd_generation c = Some (Fenced.generation s))
  | Fenced.Stale => s' = s ∧ Fenced.requires_generation (Fenced.event c) = true
      ∧ ∃ g, Fenced.cmd_generation c = Some g ∧ g ≠ Fenced.generation s
  | Fenced.Rejected => s' = s ∧
      (Fenced.requires_generation (Fenced.event c) = true ∧ Fenced.cmd_generation c = None
       ∨ next_state (Fenced.lifecycle s) (Fenced.event c) = None
       ∨ begins c = true ∧ u64_max <= Fenced.generation s)
  end.
Proof.
  intros Hs. pose proof (reduce_spec s c Hs) as H. unfold Fenced.dispatch, Fenced.applied.
  destruct (Fenced.disposition (Fenced.reduce s c)).
  - destruct H as (n & Hn & _ & Hr & _ & Hg). rewrite Hr. cbn [Fenced.tr_after Fenced.lifecycle].
    rewrite (apply_valid _ _ Hs), Hn. split; [done|]. split; [done|exact Hg].
  - destruct H as [_ H]. split; [done|exact H].
  - destruct H as [_ H]. split; [done|exact H].
Qed.

Lemma dispatch_refines_witness :
  let c := {| Fenced.event := AcquireDeferred; Fenced.cmd_generation := Some 3 |} in
  let '(s', t) := Fenced.dispatch Fenced.initial c in
  match Fenced.disposition t with
  | Fenced.Applied =>
      apply (Fenced.lifecycle Fenced.initial) (Fenced.event c) = Some (Fenced.lifecycle s', Ok (Fenced.lifecycle s'))
      ∧ Fenced.generation s' = Fenced.generation Fenced.initial + b2n (begins c)
      ∧ (Fenced.requires_generation (Fenced.event c) = true →
         Fenced.cmd_generation c = Some (Fenced.generation Fenced.initial))
  | Fenced.Stale => s' = Fenced.initial ∧ Fenced.requires_generation (Fenced.event c) = true
      ∧ ∃ g, Fenced.cmd_generation c = Some g ∧ g ≠ Fenced.generation Fenced.initial
  | Fenced.Rejected => s' = Fenced.initial ∧
      (Fenced.requires_generation (Fenced.event c) = true ∧ Fenced.cmd_generation c = None
       ∨ next_state (Fenced.lifecycle Fenced.initial) (Fenced.event c) = None
       ∨ begins c = true ∧ u64_max <= Fenced.generation Fenced.initial)
  end.
Proof.
  exact (dispatch_refines Fenced.initial
    {| Fenced.event := AcquireDeferred; Fenced.cmd_generation := Some 3 |} eq_refl).
Defined.

(** Over any commands whatsoever, from the initial state: the generation
    counts the acquisitions that began, and of each generation's flight at
    most one ending is ever applied: exactly one for a past generation, none
    while the current one is in flight, none for a generation not begun. *)
Theorem each_flight_ends_once cs g :
  let '(s, ts) := dispatch_all Fenced.initial cs in
  Fenced.fenced_is_valid s = true ∧
  Fenced.generation s <= u64_max ∧
  count_applied begins ts = Fenced.generation s ∧
  count_applied (ends g) ts =
    if (0 <? g) && (g <=? Fenced.generation s) && negb (flying s g) then 1 else 0.
Proof.
  destruct (dispatch_all Fenced.initial cs) as [s ts] eqn:Hd.
  destruct (trace_flight cs g Fenced.initial s ts eq_refl Hd) as (Hv & Hg & Hle & Hc).
  change (Fenced.generation Fenced.initial) with 0 in *.
  replace (flying Fenced.initial g) with false in Hc by (symmetry; apply andb_false_r).
  split; [done|]. split; [apply Hle; vm_compute; discriminate|]. split; [lia|].
  destruct (N.ltb_spec 0 g), (N.leb_spec g 0), (N.leb_spec g (Fenced.generation s)), (flying s g);
    cbn [andb negb b2n] in *; lia.
Qed.
