(* ===== verification/QuintLifecycle.v ===== *)
(** * QuintLifecycle: the executable specification of the desktop lifecycle

    [src/formal/mobile_desktop_lifecycle.qnt], the Quint model that the lifecycle's
    conformance traces are drawn from: the state, every action with its guards,
    the invariant [lifecycle_safety] and the temporal claims.

    [machine_is_the_model]: the production machine of [Lifecycle] takes exactly the
    steps of the model.  [lifecycle_progress] proves the temporal claims of the
    specification on infinite behaviours, for which it only states the fairness
    they need. *)

From S2P Require Import Prelude Temporal Lifecycle.

Module QuintLife.

Inductive Phase := Idle | Acquiring | Running | Releasing | Closed.
#[global] Instance Phase_eq_dec : EqDecision Phase.
Proof. solve_decision. Defined.

Record State := {
  phase : Phase;
  wake_pending : bool;
  close_requested : bool;
  cancel_requested : bool;
  permit_held : bool;
  saw_close_during_acquire : bool;
  saw_trailing_wake : bool;
  saw_cancellation : bool
}.
#[global] Instance State_eq_dec : EqDecision State.
Proof. solve_decision. Defined.

Definition init : State :=
  {| phase := Idle; wake_pending := false; close_requested := false; cancel_requested := false; permit_held := false;
     saw_close_during_acquire := false; saw_trailing_wake := false; saw_cancellation := false |}.

(** [all { guards, s' = next }] *)
Definition all_of (guards : bool) (next : State) : option State := if guards then Some next else None.

(** The guard of [join] and [process_abort]. *)
Definition in_flight (s : State) : bool := (phase s == Acquiring) || (phase s == Running) || (phase s == Releasing).

Definition wake (s : State) : option State :=
  all_of (negb (phase s == Closed) && negb (close_requested s))
    {| phase := phase s; wake_pending := true; close_requested := close_requested s;
       cancel_requested := cancel_requested s; permit_held := permit_held s;
       saw_close_during_acquire := saw_close_during_acquire s;
       saw_trailing_wake := saw_trailing_wake s || (phase s == Running); saw_cancellation := saw_cancellation s |}.

Definition join (s : State) : option State := all_of (in_flight s) s.

Definition begin_acquire (s : State) : option State :=
  all_of ((phase s == Idle) && wake_pending s && negb (close_requested s))
    {| phase := Acquiring; wake_pending := false; close_requested := close_requested s;
       cancel_requested := cancel_requested s; permit_held := permit_held s;
       saw_close_during_acquire := saw_close_during_acquire s; saw_trailing_wake := saw_trailing_wake s;
       saw_cancellation := saw_cancellation s |}.

Definition acquire_granted (s : State) : option State :=
  all_of (phase s == Acquiring)
    {| phase := if close_requested s then Releasing else Running; wake_pending := wake_pending s;
       close_requested := close_requested s; cancel_requested := false; permit_held := true;
       saw_close_during_acquire := saw_close_during_acquire s; saw_trailing_wake := saw_trailing_wake s;
       saw_cancellation := saw_cancellation s |}.

Definition acquire_deferred (s : State) : option State :=
  all_of (phase s == Acquiring)
    {| phase := if close_requested s then Closed else Idle;
       wake_pending := if close_requested s then false else wake_pending s;
       close_requested := close_requested s; cancel_requested := false; permit_held := false;
       saw_close_during_acquire := saw_close_during_acquire s; saw_trailing_wake := saw_trailing_wake s;
       saw_cancellation := saw_cancellation s |}.

Definition cancel (s : State) : option State :=
  all_of (phase s == Running)
    {| phase := phase s; wake_pending := wake_pending s; close_requested := close_requested s;
       cancel_requested := true; permit_held := permit_held s;
       saw_close_during_acquire := saw_close_during_acquire s; saw_trailing_wake := saw_trailing_wake s;
       saw_cancellation := true |}.

Definition cycle_settled (s : State) : option State :=
  all_of ((phase s == Running) && permit_held s)
    {| phase := Releasing; wake_pending := wake_pending s; close_requested := close_requested s;
       cancel_requested := false; permit_held := permit_held s;
       saw_close_during_acquire := saw_close_during_acquire s; saw_trailing_wake := saw_trailing_wake s;
       saw_cancellation := saw_cancellation s |}.

Definition release_settled (s : State) : option State :=
  all_of ((phase s == Releasing) && permit_held s)
    {| phase := if close_requested s then Closed else Idle;
       wake_pending := if close_requested s then false else wake_pending s;
       close_requested := close_requested s; cancel_requested := false; permit_held := false;
       saw_close_during_acquire := saw_close_during_acquire s; saw_trailing_wake := saw_trailing_wake s;
       saw_cancellation := saw_cancellation s |}.

Definition request_close (s : State) : option State :=
  all_of (negb (phase s == Closed))
    {| phase := if phase s == Idle then Closed else phase s; wake_pending := false; close_requested := true;
       cancel_requested := phase s == Running; permit_held := permit_held s;
       saw_close_during_acquire := saw_close_during_acquire s || (phase s == Acquiring);
       saw_trailing_wake := saw_trailing_wake s; saw_cancellation := saw_cancellation s || (phase s == Running) |}.

Definition process_abort (s : State) : option State :=
  all_of (in_flight s)
    {| phase := if close_requested s then Closed else Idle; wake_pending := false;
       close_requested := close_requested s; cancel_requested := false; permit_held := false;
       saw_close_during_acquire := saw_close_during_acquire s; saw_trailing_wake := saw_trailing_wake s;
       saw_cancellation := saw_cancellation s |}.

Inductive Action :=
| WakeAction | JoinAction | BeginAcquire | AcquireGranted | AcquireDeferred | CancelAction | CycleSettled
| ReleaseSettled | RequestClose | ProcessAbort | IdleAction.
#[global] Instance Action_eq_dec : EqDecision Action.
Proof. solve_decision. Defined.

Definition attempt (a : Action) (s : State) : option State :=
  match a with
  | WakeAction => wake s
  | JoinAction => join s
  | BeginAcquire => begin_acquire s
  | AcquireGranted => acquire_granted s
  | AcquireDeferred => acquire_deferred s
  | CancelAction => cancel s
  | CycleSettled => cycle_settled s
  | ReleaseSettled => release_settled s
  | RequestClose => request_close s
  | ProcessAbort => process_abort s
  | IdleAction => Some s
  end.

(** [step]: any of the actions. *)
Definition step (s s' : State) : Prop := ∃ a, attempt a s = Some s'.

(** The states of a run, each with the action that led to it. *)
Inductive run : State → list (Action * State) → Prop :=
| run_stop s : run s []
| run_step s a s' rest : attempt a s = Some s' → run s' rest → run s ((a, s') :: rest).

(** ** The invariant *)

Definition permit_matches_phase (s : State) : bool :=
  Bool.eqb (permit_held s) ((phase s == Running) || (phase s == Releasing)).

Definition closed_is_terminal (s : State) : bool :=
  negb (phase s == Closed)
  || (close_requested s && negb (wake_pending s) && negb (cancel_requested s) && negb (permit_held s)).

Definition closing_rejects_wakes (s : State) : bool := negb (close_requested s) || negb (wake_pending s).

Definition cancellation_is_controlled (s : State) : bool := negb (cancel_requested s) || (phase s == Running).

Definition lifecycle_safety (s : State) : bool :=
  permit_matches_phase s && closed_is_terminal s && closing_rejects_wakes s && cancellation_is_controlled s.

(** ** The temporal claims *)

Definition performs (a : Action) (s s' : State) : Prop := attempt a s = Some s'.

Definition settle_acquire (a : Action) : Prop := a = AcquireGranted ∨ a = AcquireDeferred.

Definition lifecycle_progress_is_fair (σ : nat → State) : Prop :=
  strong_fair performs settle_acquire σ ∧ strong_fair performs (eq CycleSettled) σ ∧ strong_fair performs (eq ReleaseSettled) σ.
End QuintLife.

(** ** The production machine *)

Module Life := QuintLife.

Definition phase_of (p : Life.Phase) : Phase :=
  match p with
  | Life.Idle => Idle | Life.Acquiring => Acquiring | Life.Running => Running | Life.Releasing => Releasing
  | Life.Closed => Closed
  end.

(** The production state that a model state stands for. *)
Definition concrete (s : Life.State) : Snapshot :=
  {| phase := phase_of (Life.phase s); wake_pending := Life.wake_pending s; close_requested := Life.close_requested s;
     cancel_requested := Life.cancel_requested s; permit_held := Life.permit_held s |}.

(** The event of an action; [idle] has none. *)
Definition event_of (a : Life.Action) : option Event :=
  match a with
  | Life.WakeAction => Some Wake | Life.JoinAction => Some Join | Life.BeginAcquire => Some BeginAcquire
  | Life.AcquireGranted => Some AcquireGranted | Life.AcquireDeferred => Some AcquireDeferred
  | Life.CancelAction => Some Cancel | Life.CycleSettled => Some CycleSettled | Life.ReleaseSettled => Some ReleaseSettled
  | Life.RequestClose => Some Close | Life.ProcessAbort => Some ProcessAbort | Life.IdleAction => None
  end.

(** ** Lemmas: the model and the machine *)

Lemma safety_is_validity s : Life.lifecycle_safety s = is_valid (concrete s).
Proof. destruct s as [p w c k h s1 s2 s3]. by destruct p, w, c, k, h. Qed.

Lemma attempt_concrete a e s : event_of a = Some e → Life.lifecycle_safety s = true →
  option_map concrete (Life.attempt a s) = next_state (concrete s) e.
Proof.
  destruct s as [p w c k h s1 s2 s3]. intros He.
  destruct a; injection He as <- || discriminate He; destruct p, w, c, k, h; vm_compute; (reflexivity || discriminate).
Qed.

Lemma life_step_safe s s' : Life.lifecycle_safety s = true → Life.step s s' → Life.lifecycle_safety s' = true.
Proof.
  intros Hs [a H]. destruct (event_of a) as [e|] eqn:Ea; [|destruct a; try done; by injection H as <-].
  pose proof (attempt_concrete a e s Ea Hs) as Hn. rewrite H in Hn. cbn in Hn. symmetry in Hn.
  rewrite safety_is_validity in *. exact (next_valid _ _ _ Hs Hn).
Qed.

Lemma apply_concrete a e s : event_of a = Some e → Life.lifecycle_safety s = true →
  apply (concrete s) e = Some (match Life.attempt a s with
                               | Some s' => (concrete s', Ok (concrete s'))
                               | None => (concrete s, Err {| te_before := concrete s; te_event := e |})
                               end).
Proof.
  intros Ea Hs. pose proof (attempt_concrete a e s Ea Hs) as Hn. unfold apply.
  rewrite transition_next by by rewrite <- safety_is_validity. rewrite <- Hn.
  destruct (Life.attempt a s) as [s'|] eqn:E; cbn; [|done].
  rewrite <- safety_is_validity, (life_step_safe s s') by (done || by exists a). done.
Qed.

Lemma life_run_safe s t : Life.run s t → Life.lifecycle_safety s = true → Forall (λ x, Life.lifecycle_safety x.2 = true) t.
Proof.
  induction 1 as [|s a s' rest H _ IH]; intros Hs; constructor; [|apply IH]; apply (life_step_safe s); (done || by exists a).
Qed.

(** ** Lemmas: behaviours *)

Lemma behaviour_safe σ : behaviour Life.performs Life.init σ → ∀ i, Life.lifecycle_safety (σ i) = true.
Proof.
  intros Hb. apply (behaviour_invariant _ (λ s, Life.lifecycle_safety s = true) _ _ Hb); [done|].
  intros a s s' Ha Hs. apply (life_step_safe s); [done|by exists a].
Qed.

(** A phase from which a fair action always leads away is left. *)
Lemma phase_is_left σ p A : behaviour Life.performs Life.init σ → strong_fair Life.performs A σ →
  (∀ s, Life.lifecycle_safety s = true → Life.phase s = p → ∃ a s', A a ∧ Life.attempt a s = Some s') →
  (∀ a s s', Life.phase s = p → A a → Life.attempt a s = Some s' → Life.phase s' ≠ p) →
  leads_to σ (λ s, Life.phase s = p) (λ s, Life.phase s ≠ p).
Proof.
  intros Hb Hfair Hen Hleave. apply (fair_ends Life.performs A σ (λ s, Life.phase s = p) Hfair).
  - intros i Hp. destruct (Hen (σ i)) as (a & s' & HA & Ha); [by apply behaviour_safe|done|].
    exists s'. split; [|by exists a]. intros ->. by apply (Hleave a (σ i) (σ i)).
  - intros i s' Hp (_ & a & HA & Ha). by apply (Hleave a (σ i)).
Qed.

Lemma acquiring_is_left σ : behaviour Life.performs Life.init σ → Life.lifecycle_progress_is_fair σ →
  leads_to σ (λ s, Life.phase s = Life.Acquiring) (λ s, Life.phase s ≠ Life.Acquiring).
Proof.
  intros Hb (Hf & _ & _). apply (phase_is_left σ _ _ Hb Hf).
  - intros s _ Hp. exists Life.AcquireGranted. eexists. split; [by left|]. cbn. unfold Life.acquire_granted, Life.all_of. by rewrite Hp.
  - intros a s s' Hp [-> | ->] Hs; cbn in Hs; unfold Life.acquire_granted, Life.acquire_deferred, Life.all_of in Hs;
      rewrite Hp in Hs; injection Hs as <-; cbn; by destruct (Life.close_requested s).
Qed.

Lemma permit_of s : Life.lifecycle_safety s = true →
  Life.permit_held s = ((Life.phase s == Life.Running) || (Life.phase s == Life.Releasing)).
Proof. destruct s as [p w c k h s1 s2 s3]. by destruct p, w, c, k, h. Qed.

Lemma running_is_left σ : behaviour Life.performs Life.init σ → Life.lifecycle_progress_is_fair σ →
  leads_to σ (λ s, Life.phase s = Life.Running) (λ s, Life.phase s ≠ Life.Running).
Proof.
  intros Hb (_ & Hf & _). apply (phase_is_left σ _ _ Hb Hf).
  - intros s Hsafe Hp. exists Life.CycleSettled. eexists. split; [done|]. cbn. unfold Life.cycle_settled, Life.all_of.
    by rewrite permit_of, Hp.
  - intros a s s' Hp <- Hs. cbn in Hs. unfold Life.cycle_settled, Life.all_of in Hs. destruct (_ && _); [|done]. by injection Hs as <-.
Qed.

Lemma releasing_is_left σ : behaviour Life.performs Life.init σ → Life.lifecycle_progress_is_fair σ →
  leads_to σ (λ s, Life.phase s = Life.Releasing) (λ s, Life.phase s ≠ Life.Releasing).
Proof.
  intros Hb (_ & _ & Hf). apply (phase_is_left σ _ _ Hb Hf).
  - intros s Hsafe Hp. exists Life.ReleaseSettled. eexists. split; [done|]. cbn. unfold Life.release_settled, Life.all_of.
    by rewrite permit_of, Hp.
  - intros a s s' Hp <- Hs. cbn in Hs. unfold Life.release_settled, Life.all_of in Hs. destruct (_ && _); [|done].
    injection Hs as <-. cbn. by destruct (Life.close_requested s).
Qed.

(** A closing machine is never idle again, and only moves towards being closed. *)
Definition closing_rank (p : Life.Phase) : nat :=
  match p with Life.Closed => 0 | Life.Releasing => 1 | Life.Running => 2 | Life.Acquiring => 3 | Life.Idle => 4 end.

Lemma closing_step s s' : Life.step s s' → Life.close_requested s = true → Life.phase s ≠ Life.Idle →
  Life.close_requested s' = true ∧ Life.phase s' ≠ Life.Idle ∧
  (closing_rank (Life.phase s') ≤ closing_rank (Life.phase s))%nat.
Proof.
  intros [a Ha] Hc Hp. destruct s as [p w c k h s1 s2 s3]. cbn in Hc, Hp. subst c.
  destruct a, p, h; cbn in Ha; try done; injection Ha as <-; cbn; split_and!; done || lia.
Qed.

Lemma closing_entered s s' : Life.step s s' → (Life.close_requested s = true → Life.phase s ≠ Life.Idle) →
  Life.close_requested s' = true → Life.phase s' ≠ Life.Idle.
Proof.
  intros Hstep Hs Hc. destruct (Life.close_requested s) eqn:E; [by apply (closing_step s s' Hstep E (Hs eq_refl))|].
  destruct Hstep as [a Ha]. destruct s as [p w c k h s1 s2 s3]. cbn in E. subst c. clear Hs.
  destruct a, p, w, h; cbn in Ha; try done; injection Ha as <-; done.
Qed.

Lemma closing_not_idle σ i : behaviour Life.performs Life.init σ → Life.close_requested (σ i) = true → Life.phase (σ i) ≠ Life.Idle.
Proof.
  intros [H0 Hstep]. induction i as [|i IH]; [by rewrite H0|]. apply (closing_entered (σ i)); [exact (Hstep i)|exact IH].
Qed.

Lemma closing_later σ i j : behaviour Life.performs Life.init σ → Life.close_requested (σ i) = true → (i ≤ j)%nat →
  Life.close_requested (σ j) = true ∧ (closing_rank (Life.phase (σ j)) ≤ closing_rank (Life.phase (σ i)))%nat.
Proof.
  intros Hb Hc. induction 1 as [|j Hj [IH1 IH2]]; [by split|].
  destruct (closing_step (σ j) (σ (S j))) as (H1 & H2 & H3); [exact (proj2 Hb j)|done|by apply closing_not_idle|]. split; [done|lia].
Qed.

Lemma closing_closes σ : behaviour Life.performs Life.init σ → Life.lifecycle_progress_is_fair σ →
  leads_to σ (λ s, Life.close_requested s = true) (λ s, Life.phase s = Life.Closed).
Proof.
  intros Hb Hf i. remember (closing_rank (Life.phase (σ i))) as r eqn:Hr. revert i Hr.
  induction (lt_wf r) as [r _ IH]. intros i Hr Hc.
  assert (∀ j, (i ≤ j)%nat → Life.phase (σ j) ≠ Life.phase (σ i) → ∃ j, (i ≤ j)%nat ∧ Life.phase (σ j) = Life.Closed) as Hlater.
  { intros j Hj Hne. destruct (closing_later σ i j Hb Hc Hj) as [Hcj Hle].
    destruct (IH (closing_rank (Life.phase (σ j)))) with (i := j) as (k & Hk & Hclosed); [|done|done|exists k; split; [lia|done]].
    subst r. assert (closing_rank (Life.phase (σ j)) ≠ closing_rank (Life.phase (σ i))); [|lia].
    intros E. apply Hne. by destruct (Life.phase (σ j)), (Life.phase (σ i)). }
  pose proof (closing_not_idle σ i Hb Hc). destruct (Life.phase (σ i)) eqn:Ep; [done| | | |by exists i].
  - destruct (acquiring_is_left σ Hb Hf i Ep) as (j & Hj & Hne). by apply (Hlater j).
  - destruct (running_is_left σ Hb Hf i Ep) as (j & Hj & Hne). by apply (Hlater j).
  - destruct (releasing_is_left σ Hb Hf i Ep) as (j & Hj & Hne). by apply (Hlater j).
Qed.

(** ** Properties *)

(** C23: the production lifecycle machine and the executable specification take the
    same steps: in every reachable state of the model the invariant holds, and for
    each action the machine applies the event exactly if the action is enabled,
    ends in the state of the model, and otherwise refuses and keeps its own; its
    assertion never fails. *)
Theorem machine_is_the_model (t : list (Life.Action * Life.State)) (s : Life.State)
  (runs : Life.run Life.init t) (reached : s ∈ Life.init :: List.map snd t) :
  Life.lifecycle_safety s = true ∧
  ∀ a e, event_of a = Some e →
    apply (concrete s) e = Some (match Life.attempt a s with
                                 | Some s' => (concrete s', Ok (concrete s'))
                                 | None => (concrete s, Err {| te_before := concrete s; te_event := e |})
                                 end).
Proof.
  assert (Life.lifecycle_safety s = true) as Hs.
  { apply elem_of_cons in reached as [->|Hin]; [done|]. apply In_elem, List.in_map_iff in Hin as (x & <- & Hx%In_elem).
    pose proof (life_run_safe _ _ runs eq_refl) as H. rewrite Forall_forall in H. by apply H. }
  split; [done|]. intros a e Ha. by apply apply_concrete.
Qed.

(** C24: the temporal claims of the specification hold: in every infinite
    behaviour that settles acquisitions, cycles and releases fairly, whatever
    wakes, joins, cancellations and aborts happen in between, an acquisition
    eventually settles, a running cycle eventually ends, and once closing is
    requested the lifecycle eventually closes. *)
Theorem lifecycle_progress (σ : nat → Life.State) (model : behaviour Life.performs Life.init σ) (fair : Life.lifecycle_progress_is_fair σ) :
  leads_to σ (λ s, Life.phase s = Life.Acquiring) (λ s, Life.phase s ≠ Life.Acquiring) ∧
  leads_to σ (λ s, Life.phase s = Life.Running) (λ s, Life.phase s ≠ Life.Running) ∧
  leads_to σ (λ s, Life.close_requested s = true) (λ s, Life.phase s = Life.Closed).
Proof. split; [by apply acquiring_is_left|]. split; [by apply running_is_left|by apply closing_closes]. Qed.

(** ** Witnesses *)

Fixpoint life_run_of (s : Life.State) (moves : list Life.Action) : option (list (Life.Action * Life.State)) :=
  match moves with
  | [] => Some []
  | a :: moves =>
      match Life.attempt a s with
      | Some s' => match life_run_of s' moves with Some rest => Some ((a, s') :: rest) | None => None end
      | None => None
      end
  end.

Lemma life_run_of_run moves : ∀ s t, life_run_of s moves = Some t → Life.run s t.
Proof.
  induction moves as [|a moves IH]; intros s t; cbn; [intros [= <-]; constructor|].
  destruct (Life.attempt a s) as [s'|] eqn:E; [|done]. destruct (life_run_of s' moves) as [rest|] eqn:E2; [|done].
  intros [= <-]. econstructor; [exact E|]. by apply IH.
Qed.

(** A run that takes every action, and closes in flight. *)
Definition demo_life_moves : list Life.Action :=
  [Life.IdleAction; Life.WakeAction; Life.BeginAcquire; Life.JoinAction; Life.AcquireDeferred; Life.WakeAction;
   Life.BeginAcquire; Life.AcquireGranted; Life.WakeAction; Life.CancelAction; Life.CycleSettled; Life.ReleaseSettled;
   Life.BeginAcquire; Life.AcquireGranted; Life.ProcessAbort; Life.WakeAction; Life.BeginAcquire; Life.RequestClose;
   Life.AcquireGranted; Life.ReleaseSettled].

Definition demo_life_run : list (Life.Action * Life.State) := default [] (life_run_of Life.init demo_life_moves).

Lemma demo_life_run_valid : Life.run Life.init demo_life_run ∧ length demo_life_run = 20%nat.
Proof.
  assert (is_some (life_run_of Life.init demo_life_moves) = true) as H by (vm_compute; reflexivity).
  split; [|vm_compute; reflexivity]. apply (life_run_of_run demo_life_moves). unfold demo_life_run. by destruct (life_run_of _ _).
Qed.

Definition demo_closed : Life.State := default Life.init (last (List.map snd demo_life_run)).

(** The last state of [demo_life_run]: a wake is refused. *)
Lemma machine_is_the_model_witness :
  apply (concrete demo_closed) Wake = Some (concrete demo_closed, Err {| te_before := concrete demo_closed; te_event := Wake |}).
Proof.
  exact (proj2 (machine_is_the_model demo_life_run demo_closed (proj1 demo_life_run_valid)
    ltac:(apply (bool_decide_unpack _); vm_compute; exact I)) Life.WakeAction Wake eq_refl).
Defined.

(** The run as an infinite behaviour: once closed, it idles for ever. *)
Definition demo_life_states : list Life.State := List.map snd demo_life_run.

Lemma life_chain s t : Life.run s t → chain Life.performs s (List.map snd t).
Proof. induction 1 as [|s a s' rest H _ IH]; cbn; [done|]. split; [by exists a|done]. Qed.

Lemma demo_life_behaves : behaviour Life.performs Life.init (staying Life.init demo_life_states).
Proof. apply staying_behaviour; [apply life_chain, demo_life_run_valid|]. by exists Life.IdleAction. Qed.

Lemma demo_life_fair (A : Life.Action → Prop) :
  (∀ a, A a → Life.attempt a (final Life.init demo_life_states) = None) →
  strong_fair Life.performs A (staying Life.init demo_life_states).
Proof. intros HA. apply staying_fair. intros s' (_ & a & Ha & H). unfold Life.performs in H. by rewrite HA in H. Qed.

(** The close that is requested while acquiring, at the 18th step, is carried out. *)
Lemma lifecycle_progress_witness : ∃ j, (18 ≤ j)%nat ∧ Life.phase (staying Life.init demo_life_states j) = Life.Closed.
Proof.
  apply (proj2 (proj2 (lifecycle_progress (staying Life.init demo_life_states) demo_life_behaves
    ltac:(split; [|split]; apply demo_life_fair; intros a; unfold Life.settle_acquire; intuition (subst; reflexivity)))) 18%nat eq_refl).
Defined.
