(* ===== verification/Lease.v ===== *)
(** * Lease: the durable cross-process lease of the desktop runner

    Models the [DesktopLeaseStore] trait of [clients/desktop-rust/src/lib.rs]
    with the contract its documentation states, and the in-memory store that
    implements it.  The SQLite coordinator is the other implementation. *)

From S2P Require Import Prelude Text Decimal State.

Record LeaseRequest := {
  rq_key : string;
  rq_owner_id : string;
  rq_token : string;
  rq_now_ms : N;
  rq_expires_at_ms : N
}.

Record LeaseGrant := {
  gr_key : string;
  gr_owner_id : string;
  gr_token : string;
  gr_fence : string;
  gr_expires_at_ms : N
}.
#[export] Instance LeaseGrant_eq_dec : EqDecision LeaseGrant.
Proof. solve_decision. Defined.

(** The trait: a host-supplied store may fail and may unwind. *)
Class LeaseStore (S E : Type) := {
  try_acquire : LeaseRequest → M S (stop E) (option LeaseGrant);
  release : LeaseGrant → M S (stop E) unit
}.

(** ** [InMemoryDesktopLeaseStore] *)

Module InMemory.
Definition u128_max : N := 340282366920938463463374607431768211455.

Record Store := { leases : gmap string LeaseGrant; fences : gmap string N }.

Definition default_store : Store := {| leases := ∅; fences := ∅ |}.

Definition saturating_add_u128 (a b : N) : N := N.min u128_max (a + b).

(** Both methods are infallible: the error type is empty. *)
Definition mem_try_acquire (request : LeaseRequest) : M Store (stop Empty_set) (option LeaseGrant) :=
  λ s,
    if is_some_and (leases s !! rq_key request) (λ current, rq_now_ms request <? gr_expires_at_ms current)
    then (s, Ok None)
    else
      let fence := saturating_add_u128 (default 0 (fences s !! rq_key request)) 1 in
      let grant := {| gr_key := rq_key request; gr_owner_id := rq_owner_id request;
                      gr_token := rq_token request; gr_fence := to_dec fence;
                      gr_expires_at_ms := rq_expires_at_ms request |} in
      ({| leases := <[rq_key request := grant]> (leases s);
          fences := <[rq_key request := fence]> (fences s) |}, Ok (Some grant)).

Definition mem_release (grant : LeaseGrant) : M Store (stop Empty_set) unit :=
  λ s,
    if is_some_and (leases s !! gr_key grant)
         (λ current, (gr_token current == gr_token grant) && (gr_fence current == gr_fence grant))
    then ({| leases := delete (gr_key grant) (leases s); fences := fences s |}, Ok ())
    else (s, Ok ()).

#[export] Instance mem_store : LeaseStore Store Empty_set :=
  {| try_acquire := mem_try_acquire; release := mem_release |}.
End InMemory.

(** ** Specification: what the trait's documentation promises *)

(** What an observer sees of a store: the last fence of each key and the token
    and fence of the lease that is stored for it, if any. *)
Class LeaseStoreLaws (S E : Type) `{LeaseStore S E} := {
  (** What the store keeps of its own data. *)
  store_ok : S → Prop;
  fence_of : S → string → N;
  holder : S → string → option (string * string);
  fence_limit : N;
  (** The stored lease of the request's key has not expired. *)
  live : LeaseRequest → S → bool;
  law_limit : ∀ s k, store_ok s → fence_of s k ≤ fence_limit;
  law_acquire : ∀ req s, store_ok s →
    let '(s', r) := try_acquire req s in
    store_ok s' ∧
    match r with
    | Ok (Some g) =>
        live req s = false
        ∧ gr_key g = rq_key req ∧ gr_owner_id g = rq_owner_id req ∧ gr_token g = rq_token req
        ∧ gr_fence g = to_dec (fence_of s' (rq_key req))
        ∧ fence_of s' (rq_key req) = N.min fence_limit (fence_of s (rq_key req) + 1)
        ∧ holder s' (rq_key req) = Some (gr_token g, gr_fence g)
        ∧ (∀ k, k ≠ rq_key req → holder s' k = holder s k ∧ fence_of s' k = fence_of s k)
    | _ => ∀ k, holder s' k = holder s k ∧ fence_of s' k = fence_of s k
    end;
  law_release : ∀ g s, store_ok s →
    let '(s', r) := release g s in
    store_ok s'
    ∧ (∀ k, fence_of s' k = fence_of s k)
    ∧ (∀ k, holder s' k = holder s k
         ∨ k = gr_key g ∧ holder s k = Some (gr_token g, gr_fence g) ∧ holder s' k = None)
    ∧ (r = Ok () → holder s' (gr_key g) ≠ Some (gr_token g, gr_fence g))
}.

(** The calls any number of processes make, in the order they reach the store. *)
Inductive LeaseCall :=
| CallAcquire (request : LeaseRequest)
| CallRelease (grant : LeaseGrant).

Definition call_key (c : LeaseCall) : string :=
  match c with CallAcquire req => rq_key req | CallRelease g => gr_key g end.

Section Calls.
Context {S E : Type} `{LeaseStore S E}.

Definition call_step (c : LeaseCall) (s : S) : S * list LeaseGrant :=
  match c with
  | CallAcquire req =>
      match try_acquire req s with
      | (s', Ok (Some g)) => (s', [g])
      | (s', _) => (s', [])
      end
  | CallRelease g => ((release g s).1, [])
  end.

(** The grants a sequence of calls hands out, in order. *)
Fixpoint call_all (cs : list LeaseCall) (s : S) : S * list LeaseGrant :=
  match cs with
  | [] => (s, [])
  | c :: cs' =>
      let '(s1, gs) := call_step c s in
      let '(s2, gs') := call_all cs' s1 in
      (s2, gs ++ gs')
  end.
End Calls.

Definition fences_for (k : string) (gs : list LeaseGrant) : list N :=
  List.map (λ g, decimal_of (gr_fence g)) (List.filter (λ g, gr_key g == k) gs).

(** ** Lemmas: the in-memory store keeps the contract *)

Module InMemoryLaws.
Import InMemory.

Definition mem_fence_of (s : Store) (k : string) : N := default 0 (fences s !! k).
Definition mem_holder (s : Store) (k : string) : option (string * string) :=
  (λ g, (gr_token g, gr_fence g)) <$> leases s !! k.
Definition mem_live (req : LeaseRequest) (s : Store) : bool :=
  is_some_and (leases s !! rq_key req) (λ current, rq_now_ms req <? gr_expires_at_ms current).

Definition mem_ok (s : Store) : Prop := ∀ k, mem_fence_of s k ≤ u128_max.

Lemma mem_acquire_law req s : mem_ok s →
  let '(s', r) := mem_try_acquire req s in
  mem_ok s' ∧
  match r with
  | Ok (Some g) =>
      mem_live req s = false
      ∧ gr_key g = rq_key req ∧ gr_owner_id g = rq_owner_id req ∧ gr_token g = rq_token req
      ∧ gr_fence g = to_dec (mem_fence_of s' (rq_key req))
      ∧ mem_fence_of s' (rq_key req) = N.min u128_max (mem_fence_of s (rq_key req) + 1)
      ∧ mem_holder s' (rq_key req) = Some (gr_token g, gr_fence g)
      ∧ (∀ k, k ≠ rq_key req → mem_holder s' k = mem_holder s k ∧ mem_fence_of s' k = mem_fence_of s k)
  | _ => ∀ k, mem_holder s' k = mem_holder s k ∧ mem_fence_of s' k = mem_fence_of s k
  end.
Proof.
  intros Hok. unfold mem_try_acquire.
  destruct (is_some_and _ _) eqn:Hl; [done|]. split.
  - intros k. specialize (Hok k). unfold mem_fence_of, saturating_add_u128 in *. cbn [fences].
    destruct (decide (k = rq_key req)) as [->|Hk].
    + rewrite lookup_insert_eq. cbn. lia.
    + by rewrite lookup_insert_ne by done.
  - unfold mem_fence_of, mem_holder, saturating_add_u128. cbn [leases fences].
    rewrite !lookup_insert_eq. cbn [default fmap option_fmap option_map gr_key gr_owner_id gr_token gr_fence].
    do 7 (split; [done|]). intros k Hk. by rewrite !lookup_insert_ne by done.
Qed.

Lemma mem_release_law g s : mem_ok s →
  let '(s', r) := mem_release g s in
  mem_ok s'
  ∧ (∀ k, mem_fence_of s' k = mem_fence_of s k)
  ∧ (∀ k, mem_holder s' k = mem_holder s k
       ∨ k = gr_key g ∧ mem_holder s k = Some (gr_token g, gr_fence g) ∧ mem_holder s' k = None)
  ∧ (r = Ok () → mem_holder s' (gr_key g) ≠ Some (gr_token g, gr_fence g)).
Proof.
  intros Hok. unfold mem_release.
  destruct (leases s !! gr_key g) as [c|] eqn:Hc; cbn [is_some_and].
  - destruct (_ && _) eqn:Hm.
    + bsimp. unfold mem_holder, mem_fence_of. cbn [leases fences]. split; [exact Hok|]. split; [done|]. split.
      * intros k. destruct (decide (k = gr_key g)) as [->|Hk].
        -- right. rewrite Hc, lookup_delete_eq. cbn. by split_and!; [done|congruence|].
        -- left. by rewrite lookup_delete_ne by done.
      * rewrite lookup_delete_eq. done.
    + unfold mem_holder. split; [done|]. split; [done|]. split; [by left|]. rewrite Hc. cbn.
      intros _ [= Ht Hf]. rewrite Ht, Hf in Hm. by rewrite !bool_decide_true in Hm.
  - unfold mem_holder. split; [done|]. split; [done|]. split; [by left|]. by rewrite Hc.
Qed.

#[export] Instance mem_laws : LeaseStoreLaws Store Empty_set :=
  {| store_ok := mem_ok; fence_of := mem_fence_of; holder := mem_holder; fence_limit := u128_max;
     live := mem_live; law_limit := λ s k Hok, Hok k; law_acquire := mem_acquire_law; law_release := mem_release_law |}.
End InMemoryLaws.

(** ** Lemmas: sequences of calls on a lawful store *)

Section Laws.
Context {S E : Type} `{LeaseStoreLaws S E}.

Lemma fences_for_app k gs gs' : fences_for k (gs ++ gs') = fences_for k gs ++ fences_for k gs'.
Proof. unfold fences_for. by rewrite List.filter_app, List.map_app. Qed.

(** One call: at most one grant for a key, whose fence is the next one. *)
Lemma call_step_fences c s k : store_ok (E := E) s →
  let '(s', gs) := call_step c s in
  store_ok (E := E) s' ∧
  ((fence_of s' k = fence_of s k ∧ fences_for k gs = [])
   ∨ (fence_of s' k = N.min fence_limit (fence_of s k + 1) ∧ fences_for k gs = [fence_of s' k])).
Proof.
  intros Hok. destruct c as [req|g]; cbn [call_step].
  - pose proof (law_acquire req s Hok) as Ha. destruct (try_acquire req s) as [s' [[g|]|e]];
      destruct Ha as [Hok' Ha]; (split; [done|]).
    + destruct Ha as (_ & Hk & _ & _ & Hf & Hn & _ & Ho).
      destruct (decide (k = rq_key req)) as [->|Hne].
      * right. split; [done|]. unfold fences_for. cbn. rewrite bool_decide_true by done. cbn.
        by rewrite Hf, decimal_of_to_dec.
      * left. split; [by apply Ho|]. unfold fences_for. cbn. by rewrite bool_decide_false by congruence.
    + left. split; [by apply Ha|done].
    + left. split; [by apply Ha|done].
  - pose proof (law_release g s Hok) as Hr. destruct (release g s) as [s' r].
    split; [apply Hr|]. left. split; [apply Hr|done].
Qed.

Lemma call_all_fences cs k : ∀ s, store_ok (E := E) s →
  let '(s', gs) := call_all cs s in
  store_ok (E := E) s' ∧ fence_of s k ≤ fence_of s' k ∧
  (fence_of s' k < fence_limit →
     StronglySorted N.lt (fences_for k gs) ∧
     Forall (λ f, fence_of s k < f ∧ f ≤ fence_of s' k) (fences_for k gs)).
Proof.
  induction cs as [|c cs IH]; intros s Hok; cbn [call_all].
  - split; [done|]. split; [lia|]. intros _. split; constructor.
  - pose proof (call_step_fences c s k Hok) as Hs. pose proof (law_limit s k Hok) as Hlim.
    destruct (call_step c s) as [s1 gs1]. destruct Hs as [Hok1 Hs].
    specialize (IH s1 Hok1). destruct (call_all cs s1) as [s2 gs2]. destruct IH as (Hok2 & Hle & IH).
    rewrite fences_for_app. split; [done|].
    destruct Hs as [[Hs ->]|[Hs ->]]; (split; [lia|]); intros Hlt; destruct (IH Hlt) as (Hsort & Hall); cbn [app].
    + rewrite <- Hs. by split.
    + split; constructor; [done| |lia|]; (eapply Forall_impl; [exact Hall|]); cbn; lia.
Qed.
(** Each call raises a fence by one at most. *)
Lemma call_all_bound cs k : ∀ s, store_ok (E := E) s →
  store_ok (E := E) (call_all cs s).1 ∧ fence_of (call_all cs s).1 k ≤ fence_of s k + N.of_nat (length cs).
Proof.
  induction cs as [|c cs IH]; intros s Hok; cbn [call_all length]; [split; [done|]; cbn; lia|].
  pose proof (call_step_fences c s k Hok) as Hs. destruct (call_step c s) as [s1 gs1]. destruct Hs as [Hok1 Hs].
  specialize (IH s1 Hok1). destruct (call_all cs s1) as [s2 gs2]. cbn [fst] in *. destruct IH as [Hok2 IH].
  split; [done|]. destruct Hs as [[Hs _]|[Hs _]]; lia.
Qed.
End Laws.

(** ** Lemmas: leases of the in-memory store *)

Section MemoryLeases.
Import InMemory InMemoryLaws.

(** A grant as it was asked for. *)
Definition granted (req : LeaseRequest) (g : LeaseGrant) : Prop :=
  gr_key g = rq_key req ∧ gr_owner_id g = rq_owner_id req ∧ gr_token g = rq_token req
  ∧ gr_expires_at_ms g = rq_expires_at_ms req.

Lemma mem_acquire_granted req s s' g : mem_try_acquire req s = (s', Ok (Some g)) →
  granted req g ∧ leases s' !! rq_key req = Some g ∧ gr_fence g = to_dec (mem_fence_of s' (rq_key req))
  ∧ mem_fence_of s' (rq_key req) = N.min u128_max (mem_fence_of s (rq_key req) + 1)
  ∧ ∀ held, leases s !! rq_key req = Some held → gr_expires_at_ms held ≤ rq_now_ms req.
Proof.
  unfold mem_try_acquire. destruct (is_some_and _ _) eqn:Hl; [done|]. intros [= <- <-].
  unfold granted, mem_fence_of. cbn [leases fences gr_key gr_owner_id gr_token gr_fence gr_expires_at_ms].
  rewrite !lookup_insert_eq. do 4 (split; [done|]). intros held Hheld. rewrite Hheld in Hl. cbn in Hl. bsimp. lia.
Qed.

(** A stored lease stays through calls unless one of them gives it up or finds
    it expired. *)
Lemma mem_kept cs k g : ∀ s, leases s !! k = Some g →
  leases (call_all (E := Empty_set) cs s).1 !! k = Some g
  ∨ (∃ g', CallRelease g' ∈ cs ∧ gr_key g' = k ∧ gr_token g' = gr_token g ∧ gr_fence g' = gr_fence g)
  ∨ (∃ r, CallAcquire r ∈ cs ∧ rq_key r = k ∧ gr_expires_at_ms g ≤ rq_now_ms r).
Proof.
  induction cs as [|c cs IH]; intros s Hs; [by left|]. cbn [call_all].
  assert (leases (call_step (E := Empty_set) c s).1 !! k = Some g
    ∨ (∃ g', c = CallRelease g' ∧ gr_key g' = k ∧ gr_token g' = gr_token g ∧ gr_fence g' = gr_fence g)
    ∨ (∃ r, c = CallAcquire r ∧ rq_key r = k ∧ gr_expires_at_ms g ≤ rq_now_ms r)) as Hc.
  { destruct c as [r|g']; cbn [call_step try_acquire release mem_store].
    - destruct (decide (rq_key r = k)) as [<-|Hk]; unfold mem_try_acquire; destruct (is_some_and _ _) eqn:Hl;
        cbn [fst leases]; [by left| |by left|].
      + right. right. exists r. rewrite Hs in Hl. cbn in Hl. bsimp. done.
      + left. by rewrite lookup_insert_ne.
    - unfold mem_release. destruct (is_some_and _ _) eqn:Hl; cbn [fst leases]; [|by left].
      destruct (decide (gr_key g' = k)) as [<-|Hk].
      + right. left. exists g'. rewrite Hs in Hl. cbn in Hl. bsimp. done.
      + left. by rewrite lookup_delete_ne. }
  destruct (call_step c s) as [s1 gs1]. cbn [fst] in Hc. destruct (call_all cs s1) as [s2 gs2] eqn:E. cbn [fst].
  destruct Hc as [Hc|[(g' & -> & Hg)|(r & -> & Hr)]].
  - specialize (IH s1 Hc). rewrite E in IH. cbn [fst] in IH. set_solver.
  - right. left. exists g'. split; [set_solver|done].
  - right. right. exists r. split; [set_solver|done].
Qed.
End MemoryLeases.

(** ** Closed examples *)

Import InMemory InMemoryLaws.

Definition demo_request (owner token : string) (now ttl : N) : LeaseRequest :=
  {| rq_key := "queue"; rq_owner_id := owner; rq_token := token; rq_now_ms := now;
     rq_expires_at_ms := now + ttl |}.

Definition demo_grant (owner token fence : string) (expires : N) : LeaseGrant :=
  {| gr_key := "queue"; gr_owner_id := owner; gr_token := token; gr_fence := fence;
     gr_expires_at_ms := expires |}.

(** A takes the lease, B is refused until it expires, A's late release is
    ignored, B's own one is not. *)
Definition demo_later : list LeaseCall :=
  [ CallAcquire (demo_request "B" "b1" 500 1000);
    CallAcquire (demo_request "B" "b2" 1000 1000);
    CallRelease (demo_grant "A" "a1" "1" 1000);
    CallAcquire (demo_request "A" "a2" 1500 1000);
    CallRelease (demo_grant "B" "b2" "2" 2000) ].
Definition demo_first : LeaseRequest := demo_request "A" "a1" 0 1000.
Definition demo_last : LeaseRequest := demo_request "A" "a3" 1501 1000.
Definition demo_calls : list LeaseCall :=
  CallAcquire demo_first :: demo_later ++ [CallAcquire demo_last].

Example demo_calls_grants :
  List.map (λ g, (gr_token g, gr_fence g)) (call_all (E := Empty_set) demo_calls InMemory.default_store).2
  = [("a1", "1"); ("b2", "2"); ("a3", "3")].
Proof. vm_compute. reflexivity. Qed.

Lemma default_store_ok : store_ok (E := Empty_set) default_store.
Proof. intros k. unfold mem_fence_of, default_store. cbn [fences]. rewrite lookup_empty. discriminate. Qed.

(** ** Properties *)

(** C21: fencing in the in-memory store.  Take any history of acquisitions and
    releases from the empty store, by any processes and with any clocks, and two
    acquisitions of one key in it that are granted.  The grants are those asked
    for, the later one's fence is strictly greater, and the earlier one was not
    overtaken while it was held: between the two a release named its key, token
    and fence, or an acquisition of the key came, by its own clock, at or after
    the earlier grant's expiry, if only the later one itself.  The history is
    shorter than the range of the 128-bit fences, where they saturate. *)
Theorem fences_strictly_increase (cs1 cs2 : list LeaseCall) (r1 r2 : LeaseRequest) (s1 s2 : Store) (g1 g2 : LeaseGrant) :
  mem_try_acquire r1 (call_all (E := Empty_set) cs1 default_store).1 = (s1, Ok (Some g1)) →
  mem_try_acquire r2 (call_all (E := Empty_set) cs2 s1).1 = (s2, Ok (Some g2)) →
  rq_key r1 = rq_key r2 → N.of_nat (length cs1 + length cs2) + 2 ≤ u128_max →
  granted r1 g1 ∧ granted r2 g2 ∧ decimal_of (gr_fence g1) < decimal_of (gr_fence g2) ∧
  ((∃ g, CallRelease g ∈ cs2 ∧ gr_key g = gr_key g1 ∧ gr_token g = gr_token g1 ∧ gr_fence g = gr_fence g1)
   ∨ (∃ r, CallAcquire r ∈ cs2 ++ [CallAcquire r2] ∧ rq_key r = gr_key g1 ∧ gr_expires_at_ms g1 ≤ rq_now_ms r)).
Proof.
  intros H1 H2 Hk Hlen.
  pose proof (call_all_bound (E := Empty_set) cs1 (rq_key r1) _ default_store_ok) as [Hok0 Hb0].
  set (s0 := (call_all cs1 default_store).1) in *.
  destruct (mem_acquire_granted _ _ _ _ H1) as (Hg1 & Hl1 & Hf1 & Hn1 & _).
  pose proof (mem_acquire_law r1 s0 Hok0) as Hok1. rewrite H1 in Hok1. destruct Hok1 as [Hok1 _].
  pose proof (call_all_bound (E := Empty_set) cs2 (rq_key r1) s1 Hok1) as [Hok2 Hb2].
  pose proof (call_all_fences (E := Empty_set) cs2 (rq_key r1) s1 Hok1) as Hmono.
  pose proof (mem_kept cs2 (rq_key r1) g1 s1 Hl1) as Hkept.
  destruct (call_all cs2 s1) as [s2' gs]. cbn [fst] in *. destruct Hmono as (_ & Hmono & _).
  destruct (mem_acquire_granted _ _ _ _ H2) as (Hg2 & _ & Hf2 & Hn2 & Hexp).
  split; [done|]. split; [done|]. rewrite Hf1, Hf2, <- Hk, !decimal_of_to_dec. rewrite <- Hk in Hn2, Hexp.
  cbn [fence_of mem_laws] in *. assert (mem_fence_of default_store (rq_key r1) = 0) as E0 by done.
  split; [lia|]. destruct Hg1 as (-> & _). rewrite Hf1 in Hkept.
  destruct Hkept as [Hkept|[(g & Hin & Hg)|(r & Hin & Hr)]].
  - right. exists r2. rewrite <- Hk. split; [set_solver|]. split; [done|]. by apply Hexp.
  - left. by exists g.
  - right. exists r. split; [set_solver|done].
Qed.

Definition demo_taken : Store := (mem_try_acquire demo_first default_store).1.

(** A's first lease expires before B takes it, and B's is given up before A's
    second one. *)
Lemma fences_strictly_increase_witness :
  (mem_try_acquire demo_first default_store).2 = Ok (Some (demo_grant "A" "a1" "1" 1000)) ∧
  (mem_try_acquire demo_last (call_all (E := Empty_set) demo_later demo_taken).1).2
  = Ok (Some (demo_grant "A" "a3" "3" 2501)) ∧
  decimal_of "1" < decimal_of "3" ∧
  ∃ r, CallAcquire r ∈ demo_later ∧ rq_key r = "queue" ∧ 1000 ≤ rq_now_ms r.
Proof.
  split; [vm_compute; reflexivity|]. split; [vm_compute; reflexivity|].
  destruct (fences_strictly_increase [] demo_later demo_first demo_last demo_taken
    (mem_try_acquire demo_last (call_all (E := Empty_set) demo_later demo_taken).1).1
    (demo_grant "A" "a1" "1" 1000) (demo_grant "A" "a3" "3" 2501)) as (_ & _ & Hlt & _).
  - vm_compute. reflexivity.
  - vm_compute. reflexivity.
  - reflexivity.
  - vm_compute. discriminate.
  - split; [exact Hlt|]. exists (demo_request "B" "b2" 1000 1000). split; [set_solver|]. split; [reflexivity|]. vm_compute. discriminate.
Defined.

(** On every store that keeps the contract a lease is only ever lost by a
    release that names its own key, token and fence, or to an acquisition of
    its key that finds it expired; while it is live an acquisition grants
    nothing; and a successful release by its owner does give it up. *)
Theorem lease_only_lost {S E} `{LeaseStoreLaws S E} (c : LeaseCall) (s : S) k t f :
  store_ok (E := E) s → holder s k = Some (t, f) →
  match c with
  | CallAcquire req =>
      (holder (call_step c s).1 k ≠ Some (t, f) → rq_key req = k ∧ live req s = false)
      ∧ (live req s = true → holder (call_step c s).1 k = Some (t, f) ∧ (call_step c s).2 = [])
  | CallRelease g =>
      (holder (call_step c s).1 k ≠ Some (t, f) → gr_key g = k ∧ gr_token g = t ∧ gr_fence g = f)
      ∧ (gr_key g = k → gr_token g = t → gr_fence g = f → (release g s).2 = Ok () →
         holder (call_step c s).1 k ≠ Some (t, f))
  end.
Proof.
  intros Hok Hh. destruct c as [req|g]; cbn [call_step].
  - pose proof (law_acquire req s Hok) as Ha. destruct (try_acquire req s) as [s' [[g|]|e]]; cbn;
      destruct Ha as [_ Ha].
    + destruct Ha as (Hl & _ & _ & _ & _ & _ & _ & Ho). split; [|by rewrite Hl].
      intros Hne. split; [|done]. destruct (decide (k = rq_key req)) as [->|Hk]; [done|].
      destruct (Ho k Hk) as [Hs _]. congruence.
    + split; [|split; [|done]]; destruct (Ha k) as [Hs _]; congruence.
    + split; [|split; [|done]]; destruct (Ha k) as [Hs _]; congruence.
  - pose proof (law_release g s Hok) as Hr. destruct (release g s) as [s' r]. cbn.
    destruct Hr as (_ & _ & Hhold & Hown). split.
    + intros Hne. destruct (Hhold k) as [Hs|(-> & Hs & _)]; [congruence|].
      rewrite Hh in Hs. injection Hs as -> ->. done.
    + intros <- <- <- Hr. by apply Hown.
Qed.

Lemma lease_only_lost_witness :
  let s := (call_all (E := Empty_set) (firstn 1 demo_calls) InMemory.default_store).1 in
  let g := demo_grant "A" "a1" "1" 1000 in
  holder (E := Empty_set) s "queue" = Some ("a1", "1")
  ∧ (holder (E := Empty_set) (call_step (E := Empty_set) (CallRelease g) s).1 "queue" ≠ Some ("a1", "1") →
     gr_key g = "queue" ∧ gr_token g = "a1" ∧ gr_fence g = "1")
  ∧ (gr_key g = "queue" → gr_token g = "a1" → gr_fence g = "1" → (release (E := Empty_set) g s).2 = Ok () →
     holder (E := Empty_set) (call_step (E := Empty_set) (CallRelease g) s).1 "queue" ≠ Some ("a1", "1")).
Proof.
  cbv zeta. split; [vm_compute; reflexivity|].
  apply (lease_only_lost (E := Empty_set) (CallRelease (demo_grant "A" "a1" "1" 1000))
           (call_all (E := Empty_set) (firstn 1 demo_calls) InMemory.default_store).1 "queue" "a1" "1").
  - apply (call_all_fences (E := Empty_set) (firstn 1 demo_calls) "queue" default_store default_store_ok).
  - vm_compute. reflexivity.
Defined.
