(* ===== verification/Runner.v ===== *)
(** * Runner: the bounded, durably fenced desktop cycle runner

    Models [DesktopSyncRunner] of [clients/desktop-rust/src/lib.rs]: the
    in-process flag, the lifecycle and store mutexes with their poisoning, the
    guard dropped on every way out, and unwinding from the store or the cycle. *)

From S2P Require Import Prelude Text Decimal State Lifecycle Lease.

Inductive WakeReason :=
| ProcessStart | LocalMutation | RemoteChange | Connectivity | Resume | AppUpdate | Manual.
#[export] Instance WakeReason_eq_dec : EqDecision WakeReason.
Proof. solve_decision. Defined.

(** The derived order: the declaration order. *)
Definition reason_index (r : WakeReason) : N :=
  match r with
  | ProcessStart => 0 | LocalMutation => 1 | RemoteChange => 2 | Connectivity => 3
  | Resume => 4 | AppUpdate => 5 | Manual => 6
  end.

(** [Vec::dedup]: drops an element equal to the one kept before it. *)
Fixpoint dedup (l : list WakeReason) : list WakeReason :=
  match l with
  | [] => []
  | x :: l' => match dedup l' with
               | [] => [x]
               | y :: l'' => if x == y then y :: l'' else x :: y :: l''
               end
  end.

Definition normalize_reasons (reasons : list WakeReason) : list WakeReason :=
  let reasons := dedup (sort_by (λ a b, reason_index a ?= reason_index b) reasons) in
  match reasons with [] => [Manual] | _ => reasons end.

Record SyncContext := {
  cx_reasons : list WakeReason;
  cx_owner_id : string;
  cx_lease_key : string;
  cx_fence : string;
  cx_deadline_ms : N
}.

Inductive BusyReason := InProcess | DurableLease.

Inductive ReleaseError (SE : Type) :=
| ReleaseStore (e : SE)
| ReleaseStorePoisoned.
Arguments ReleaseStore {SE} e.
Arguments ReleaseStorePoisoned {SE}.

Inductive Outcome (R CE SE : Type) :=
| Busy (reason : BusyReason) (reasons : list WakeReason)
| Completed (value : R) (reasons : list WakeReason) (fence : string)
    (release_error : option (ReleaseError SE))
| Failed (error : CE) (reasons : list WakeReason) (fence : string)
    (release_error : option (ReleaseError SE)).
Arguments Busy {R CE SE} reason reasons.
Arguments Completed {R CE SE} value reasons fence release_error.
Arguments Failed {R CE SE} error reasons fence release_error.

Inductive RunnerError (SE : Type) :=
| InvalidConfiguration (message : string)
| ELifecycle (e : TransitionError)
| LifecyclePoisoned
| EStore (e : SE)
| StorePoisoned.
Arguments InvalidConfiguration {SE} message.
Arguments ELifecycle {SE} e.
Arguments LifecyclePoisoned {SE}.
Arguments EStore {SE} e.
Arguments StorePoisoned {SE}.

(** A [std::sync::Mutex]: poisoned when a holder of its lock unwinds. *)
Record Mutex (A : Type) := { contents : A; poisoned : bool }.
Arguments contents {A} m.
Arguments poisoned {A} m.
Arguments Build_Mutex {A} contents poisoned.

Record Runner := {
  lease_key : string;
  owner_id : string;
  cycle_budget_ms : N;
  lease_ttl_ms : N
}.

(** The mutable fields of the runner; the store is shared with other owners. *)
Record World (S : Type) := {
  in_process : bool;
  lifecycle : Mutex Snapshot;
  store : Mutex S
}.
Arguments in_process {S} w.
Arguments lifecycle {S} w.
Arguments store {S} w.
Arguments Build_World {S} in_process lifecycle store.

Definition bytes_1_to_512 (s : string) : bool := negb (is_empty s || (512 <? len s)).

Definition new (key owner : string) (budget ttl : N) : result Runner (RunnerError Empty_set) :=
  if negb (bytes_1_to_512 key) then Err (InvalidConfiguration "lease_key must be 1 through 512 bytes")
  else if negb (bytes_1_to_512 owner) then Err (InvalidConfiguration "owner_id must be 1 through 512 bytes")
  else if negb ((1000 <=? budget) && (budget <=? 600000))
  then Err (InvalidConfiguration "cycle_budget_ms must be from 1000 through 600000")
  else if (ttl <? saturating_add_u64 budget 1000) || (900000 <? ttl)
  then Err (InvalidConfiguration "lease_ttl_ms must cover cycle_budget_ms plus 1000 and be at most 900000")
  else Ok {| lease_key := key; owner_id := owner; cycle_budget_ms := budget; lease_ttl_ms := ttl |}.

Definition fresh_world {S} (s : Mutex S) : World S :=
  Build_World false (Build_Mutex INITIAL false) s.

Section Run.
Context {S SE : Type} `{LeaseStore S SE}.
Context {R CE : Type}.
Implicit Types (w : World S).

Definition lifecycle_snapshot w : Snapshot := contents (lifecycle w).

(** [lock], [apply], unlock; [apply]'s [assert!] would poison the mutex. *)
Definition apply_lifecycle (e : Event) : M (World S) (stop (RunnerError SE)) unit :=
  λ w,
    if poisoned (lifecycle w) then (w, Err (Raised LifecyclePoisoned))
    else match apply (contents (lifecycle w)) e with
         | None => (Build_World (in_process w) (Build_Mutex (contents (lifecycle w)) true) (store w), Err Unwound)
         | Some (s, r) =>
             (Build_World (in_process w) (Build_Mutex s false) (store w),
              match r with Ok _ => Ok () | Err te => Err (Raised (ELifecycle te)) end)
         end.

(** A call on the store under its mutex; [None] is the poisoned lock. *)
Definition locked {A} (f : M S (stop SE) A) : M (Mutex S) (stop (option SE)) A :=
  λ m,
    if poisoned m then (m, Err (Raised None))
    else match f (contents m) with
         | (s, Ok a) => (Build_Mutex s false, Ok a)
         | (s, Err (Raised e)) => (Build_Mutex s false, Err (Raised (Some e)))
         | (s, Err Unwound) => (Build_Mutex s true, Err Unwound)
         end.

Definition on_store {A E} (f : M (Mutex S) E A) : M (World S) E A :=
  λ w, let '(m, r) := f (store w) in (Build_World (in_process w) (lifecycle w) m, r).

(** Handling an error, and [catch_unwind]. *)
Definition attempt {W A E E'} (m : M W (stop E) A) : M W (stop E') (result A E) :=
  λ x, match m x with
       | (x', Ok a) => (x', Ok (Ok a))
       | (x', Err (Raised e)) => (x', Ok (Err e))
       | (x', Err Unwound) => (x', Err Unwound)
       end.

Definition catch_unwind {W A E E'} (m : M W (stop E) A) : M W (stop E') (result A (stop E)) :=
  λ x, let '(x', r) := m x in (x', Ok r).

Definition release_failure (r : result unit (option SE)) : option (ReleaseError SE) :=
  match r with
  | Ok _ => None
  | Err (Some e) => Some (ReleaseStore e)
  | Err None => Some ReleaseStorePoisoned
  end.

Definition acquire_failure (e : option SE) : RunnerError SE :=
  match e with Some e => EStore e | None => StorePoisoned end.

(** What the cycle's result becomes; an unwinding one resumes. *)
Definition settle_cycle (cycle_result : result R (stop CE)) (reasons : list WakeReason)
    (fence : string) (release_error : option (ReleaseError SE))
  : M (World S) (stop (RunnerError SE)) (Outcome R CE SE) :=
  match cycle_result with
  | Ok value => ret (Completed value reasons fence release_error)
  | Err (Raised error) => ret (Failed error reasons fence release_error)
  | Err Unwound => fail Unwound
  end.

Definition lease_request (r : Runner) (token : string) (now_ms : N) : LeaseRequest :=
  {| rq_key := lease_key r; rq_owner_id := owner_id r; rq_token := token; rq_now_ms := now_ms;
     rq_expires_at_ms := saturating_add_u64 now_ms (lease_ttl_ms r) |}.

Definition cycle_context (r : Runner) (reasons : list WakeReason) (now_ms : N) (grant : LeaseGrant)
  : SyncContext :=
  {| cx_reasons := reasons; cx_owner_id := owner_id r; cx_lease_key := lease_key r;
     cx_fence := gr_fence grant; cx_deadline_ms := saturating_add_u64 now_ms (cycle_budget_ms r) |}.

(** [run_once] after the in-process flag was taken, up to the guard's drop. *)
Definition run_guarded (r : Runner) (reasons : list WakeReason) (now_ms : N) (token : string)
    (cycle : SyncContext → M (Mutex S) (stop CE) R)
  : M (World S) (stop (RunnerError SE)) (Outcome R CE SE) :=
  if negb (bytes_1_to_512 token)
  then fail (Raised (InvalidConfiguration "lease token must be 1 through 512 bytes"))
  else
    apply_lifecycle Wake ;;?
    apply_lifecycle BeginAcquire ;;?
    acquired ←? attempt (on_store (locked (try_acquire (lease_request r token now_ms))));
    match acquired with
    | Err e => apply_lifecycle AcquireDeferred ;;? fail (Raised (acquire_failure e))
    | Ok None => apply_lifecycle AcquireDeferred ;;? ret (Busy DurableLease reasons)
    | Ok (Some grant) =>
        apply_lifecycle AcquireGranted ;;?
        cycle_result ←? catch_unwind (on_store (cycle (cycle_context r reasons now_ms grant)));
        apply_lifecycle CycleSettled ;;?
        released ←? attempt (on_store (locked (release grant)));
        apply_lifecycle ReleaseSettled ;;?
        settle_cycle cycle_result reasons (gr_fence grant) (release_failure released)
    end.

(** [InProcessGuard::drop]; it recovers a poisoned lock without clearing it. *)
Definition drop_guard w : World S :=
  let s := contents (lifecycle w) in
  let s' := if in_flight (phase s)
            then match apply s ProcessAbort with Some (s', _) => s' | None => s end
            else s in
  Build_World false (Build_Mutex s' (poisoned (lifecycle w))) (store w).

Definition run_once (r : Runner) (reasons : list WakeReason) (now_ms : N) (token : string)
    (cycle : SyncContext → M (Mutex S) (stop CE) R)
  : M (World S) (stop (RunnerError SE)) (Outcome R CE SE) :=
  λ w,
    let reasons := normalize_reasons reasons in
    if in_process w then (w, Ok (Busy InProcess reasons))
    else
      let '(w', res) := run_guarded r reasons now_ms token cycle
                          (Build_World true (lifecycle w) (store w)) in
      (drop_guard w', res).
End Run.

(** ** Specification: what one run does to the shared store *)

(** No flag and no lifecycle: acquire, run the cycle under the grant, release. *)
Definition spec_run {S SE R CE} `{LeaseStore S SE} (r : Runner) (reasons : list WakeReason) (now_ms : N)
    (token : string) (cycle : SyncContext → M (Mutex S) (stop CE) R) (m : Mutex S)
  : Mutex S * result (Outcome R CE SE) (stop (RunnerError SE)) :=
  if negb (bytes_1_to_512 token)
  then (m, Err (Raised (InvalidConfiguration "lease token must be 1 through 512 bytes")))
  else
    match locked (try_acquire (lease_request r token now_ms)) m with
    | (m1, Err Unwound) => (m1, Err Unwound)
    | (m1, Err (Raised e)) => (m1, Err (Raised (acquire_failure e)))
    | (m1, Ok None) => (m1, Ok (Busy DurableLease reasons))
    | (m1, Ok (Some grant)) =>
        let '(m2, value) := cycle (cycle_context r reasons now_ms grant) m1 in
        match locked (release grant) m2 with
        | (m3, Err Unwound) => (m3, Err Unwound)
        | (m3, released) =>
            let failure := match released with
                           | Err (Raised (Some e)) => Some (ReleaseStore e)
                           | Err _ => Some ReleaseStorePoisoned
                           | Ok _ => None
                           end in
            (m3, match value with
                 | Ok v => Ok (Completed v reasons (gr_fence grant) failure)
                 | Err (Raised e) => Ok (Failed e reasons (gr_fence grant) failure)
                 | Err Unwound => Err Unwound
                 end)
        end
    end.

(** When the cycle is run: by the owner of a live, freshly fenced lease. *)
Definition owned_context {S SE} `{LeaseStoreLaws S SE} (r : Runner) (reasons : list WakeReason) (now_ms : N)
    (token : string) (s : S) (ctx : SyncContext) (m : Mutex S) : Prop :=
  poisoned m = false
  ∧ live (E := SE) (lease_request r token now_ms) s = false
  ∧ holder (E := SE) (contents m) (lease_key r) = Some (token, cx_fence ctx)
  ∧ cx_fence ctx = to_dec (fence_of (E := SE) (contents m) (lease_key r))
  ∧ fence_of (E := SE) (contents m) (lease_key r)
    = N.min (fence_limit (E := SE) (S := S)) (fence_of (E := SE) s (lease_key r) + 1)
  ∧ cx_reasons ctx ≠ [] ∧ cx_owner_id ctx = owner_id r ∧ cx_lease_key ctx = lease_key r
  ∧ cx_deadline_ms ctx = saturating_add_u64 now_ms (cycle_budget_ms r)
  ∧ (∀ x, x ∈ cx_reasons ctx ↔ x ∈ reasons ∨ reasons = [] ∧ x = Manual).

Definition reason_lt (a b : WakeReason) : Prop := reason_index a < reason_index b.

(** ** Lemmas *)

Section Proofs.
Context {S SE : Type} `{LeaseStore S SE}.
Context {R CE : Type}.

(** The states the lifecycle goes through in a run. *)
Definition at_phase (p : Phase) (wake permit : bool) : Mutex Snapshot :=
  Build_Mutex {| phase := p; wake_pending := wake; close_requested := false;
                 cancel_requested := false; permit_held := permit |} false.

Lemma lifecycle_step e p wake permit p' wake' permit' b (m : Mutex S) :
  next_state (contents (at_phase p wake permit)) e = Some (contents (at_phase p' wake' permit')) →
  is_valid (contents (at_phase p wake permit)) = true →
  apply_lifecycle (SE := SE) e (Build_World b (at_phase p wake permit) m)
  = (Build_World b (at_phase p' wake' permit') m, Ok ()).
Proof.
  intros Hn Hv. unfold apply_lifecycle. cbn [lifecycle poisoned at_phase].
  rewrite (apply_valid _ _ Hv), Hn. reflexivity.
Qed.

Definition rest (m : Mutex S) : World S := Build_World false (at_phase Idle false false) m.

Lemma run_once_spec (r : Runner) reasons now token (cycle : SyncContext → M (Mutex S) (stop CE) R) m :
  run_once (SE := SE) r reasons now token cycle (rest m)
  = let '(m', res) := spec_run r (normalize_reasons reasons) now token cycle m in (rest m', res).
Proof.
  unfold run_once, spec_run. cbn [in_process rest lifecycle store].
  unfold run_guarded. destruct (bytes_1_to_512 token); cbn [negb]; [|reflexivity].
  unfold bind at 1. rewrite (lifecycle_step Wake Idle false false Idle true false) by reflexivity.
  unfold bind at 1. rewrite (lifecycle_step BeginAcquire Idle true false Acquiring false false) by reflexivity.
  unfold bind at 1, attempt, on_store. cbn [store in_process lifecycle].
  destruct (locked (try_acquire _) m) as [m1 [[grant|]|[e|]]]; cbn [fst snd].
  - unfold bind at 1. rewrite (lifecycle_step AcquireGranted Acquiring false false Running false true) by reflexivity.
    unfold bind at 1, catch_unwind. cbn [store in_process lifecycle].
    destruct (cycle _ m1) as [m2 value].
    unfold bind at 1. rewrite (lifecycle_step CycleSettled Running false true Releasing false true) by reflexivity.
    unfold bind at 1. cbn [store in_process lifecycle].
    destruct (locked (release grant) m2) as [m3 [[]|[[e|]|]]]; [| | |reflexivity];
      unfold bind at 1; rewrite (lifecycle_step ReleaseSettled Releasing false true Idle false false) by reflexivity;
      destruct value as [v|[e'|]]; reflexivity.
  - unfold bind at 1. by rewrite (lifecycle_step AcquireDeferred Acquiring false false Idle false false) by reflexivity.
  - unfold bind at 1. by rewrite (lifecycle_step AcquireDeferred Acquiring false false Idle false false) by reflexivity.
  - reflexivity.
Qed.

(** ** Lemmas: the reasons *)

Lemma dedup_elem x l : x ∈ dedup l ↔ x ∈ l.
Proof.
  induction l as [|y l IH]; [done|]. cbn. rewrite elem_of_cons, <- IH.
  destruct (dedup l) as [|z l']; [by rewrite elem_of_cons|].
  destruct (bool_decide_reflect (y = z)); subst; rewrite !elem_of_cons; naive_solver.
Qed.

Lemma dedup_sorted l : StronglySorted (λ a b, (reason_index a ?= reason_index b) ≠ Gt) l →
  StronglySorted reason_lt (dedup l).
Proof.
  induction 1 as [|x l Hs IH Hall]; [constructor|]. cbn.
  destruct (dedup l) as [|y l'] eqn:Hd; [repeat constructor|].
  destruct (bool_decide_reflect (x = y)) as [->|Hne]; [done|].
  assert (Hy : y ∈ l) by (apply dedup_elem; rewrite Hd; apply elem_of_cons; auto).
  rewrite Forall_forall in Hall. pose proof (Hall _ Hy) as Hxy.
  assert (Hlt : reason_lt x y) by (destruct x, y; vm_compute in Hxy |- *; done).
  constructor; [done|]. constructor; [done|].
  apply StronglySorted_inv in IH as [_ IH]. eapply Forall_impl; [exact IH|].
  unfold reason_lt in *. lia.
Qed.

Lemma normalize_reasons_spec l :
  normalize_reasons l ≠ [] ∧ StronglySorted reason_lt (normalize_reasons l) ∧
  (∀ x, x ∈ normalize_reasons l ↔ x ∈ l ∨ l = [] ∧ x = Manual).
Proof.
  unfold normalize_reasons. set (s := sort_by _ l).
  assert (Hp : s ≡ₚ l) by apply sort_by_perm.
  assert (Hs : StronglySorted reason_lt (dedup s)).
  { apply dedup_sorted, sort_by_sorted; intros; [apply N.compare_antisym|].
    rewrite N.compare_le_iff in *. by etrans. }
  assert (He : ∀ x, x ∈ dedup s ↔ x ∈ l) by (intros x; by rewrite dedup_elem, Hp).
  destruct (dedup s) as [|y l'] eqn:Hd.
  - assert (l = []) as ->.
    { destruct l as [|z l]; [done|]. destruct (He z) as [_ Hz]. by destruct (not_elem_of_nil z (Hz (list_elem_of_here _ _))). }
    split; [done|]. split; [repeat constructor|]. intros x. rewrite list_elem_of_singleton. set_solver.
  - split; [done|]. split; [done|]. intros x. rewrite He. split; [by left|].
    intros [Hx|[-> ->]]; [done|]. destruct (He y) as [Hy _]. specialize (Hy (list_elem_of_here _ _)). set_solver.
Qed.
End Proofs.

Section OwnedProofs.
Context {S SE : Type} `{LeaseStoreLaws S SE}.
Context {R CE : Type}.

Lemma acquired_context r reasons now token (m m1 : Mutex S) grant : store_ok (E := SE) (contents m) →
  locked (SE := SE) (try_acquire (lease_request r token now)) m = (m1, Ok (Some grant)) →
  store_ok (E := SE) (contents m1) ∧ gr_key grant = lease_key r ∧ gr_token grant = token ∧
  owned_context (SE := SE) r reasons now token (contents m)
    (cycle_context r (normalize_reasons reasons) now grant) m1.
Proof.
  intros Hok. unfold locked. destruct (poisoned m); [done|].
  pose proof (law_acquire (lease_request r token now) (contents m) Hok) as Ha.
  destruct (try_acquire _ (contents m)) as [s1 [[g|]|[e|]]]; intros [= <- <-].
  destruct Ha as (Hok' & Hl & Hk & Ho & Ht & Hf & Hn & Hh & _). cbn in Hk, Ho, Ht, Hf, Hn, Hh.
  split; [done|]. split; [done|]. split; [done|].
  destruct (normalize_reasons_spec reasons) as (Hne & _ & He).
  unfold owned_context. cbn. rewrite Ht in Hh. split_and!; done.
Qed.

Lemma release_gives_up (grant : LeaseGrant) (m m' : Mutex S) : store_ok (E := SE) (contents m) →
  locked (SE := SE) (release grant) m = (m', Ok ()) →
  holder (E := SE) (contents m') (gr_key grant) ≠ Some (gr_token grant, gr_fence grant).
Proof.
  intros Hok. unfold locked. destruct (poisoned m); [done|].
  pose proof (law_release grant (contents m) Hok) as Hr.
  destruct (release grant (contents m)) as [s1 [[]|[e|]]]; intros [= <-].
  by apply Hr.
Qed.
End OwnedProofs.

(** ** Closed examples *)

Import InMemory InMemoryLaws.

Definition demo_runner : Runner :=
  {| lease_key := "queue"; owner_id := "desktop"; cycle_budget_ms := 30000; lease_ttl_ms := 60000 |}.

Definition demo_cycle (ctx : SyncContext) : M (Mutex Store) (stop string) N :=
  λ m, (m, if cx_fence ctx == "1" then Ok 7 else if cx_fence ctx == "2" then Err (Raised "offline") else Err Unwound).

Definition demo_run (now : N) : M (World Store) (stop (RunnerError Empty_set)) (Outcome N string Empty_set) :=
  run_once demo_runner [Manual; Resume; Manual] now "t" demo_cycle.

(** A run that completes, one that fails, one that unwinds: the runner is at
    rest after each of them. *)
Example demo_runs :
  let w0 := fresh_world (Build_Mutex default_store false) in
  let '(w1, r1) := demo_run 0 w0 in
  let '(w2, r2) := demo_run 1 w1 in
  let '(w3, r3) := demo_run 2 w2 in
  (r1, r2, r3) = (Ok (Completed 7 [Resume; Manual] "1" None), Ok (Failed "offline" [Resume; Manual] "2" None),
                  Err Unwound)
  ∧ in_process w3 = false ∧ lifecycle_snapshot w3 = INITIAL ∧ leases (contents (store w3)) = ∅.
Proof. vm_compute. repeat split. Qed.

(** ** Properties *)

(** C22: a run of a runner at rest is exactly acquiring the lease, running the
    cycle under its grant and releasing that same grant, on every path: a bad
    token, a store that fails, refuses or unwinds, a poisoned store, a cycle
    that fails or unwinds.  The lifecycle never refuses a step and the runner
    is at rest again afterwards, so the next run can start; a call made while
    one is in flight reports it and touches nothing. *)
Theorem run_once_refines {S SE R CE} `{LeaseStore S SE} (r : Runner) reasons now token
    (cycle : SyncContext → M (Mutex S) (stop CE) R) (m : Mutex S) (l : Mutex Snapshot) :
  run_once (SE := SE) r reasons now token cycle (fresh_world m)
  = (let '(m', res) := spec_run r (normalize_reasons reasons) now token cycle m in (fresh_world m', res))
  ∧ run_once (SE := SE) r reasons now token cycle (Build_World true l m)
    = (Build_World true l m, Ok (Busy InProcess (normalize_reasons reasons))).
Proof. split; [exact (run_once_spec r reasons now token cycle m)|done]. Qed.

(** On a store that keeps the contract the cycle is only ever run by the
    owner of a fresh lease: two cycles that agree on every context whose fence
    is the store's latest and held under the run's own token, with the run's
    deadline and reasons, give the same run.  A run that reports no release
    error does not leave its lease behind. *)
Theorem cycle_only_under_lease {S SE R CE} `{LeaseStoreLaws S SE} (r : Runner) reasons now token
    (cycle cycle' : SyncContext → M (Mutex S) (stop CE) R) (m : Mutex S) :
  store_ok (E := SE) (contents m) →
  (∀ ctx m', store_ok (E := SE) (contents m') → store_ok (E := SE) (contents (cycle ctx m').1)) →
  (∀ ctx m', owned_context (SE := SE) r reasons now token (contents m) ctx m' → cycle ctx m' = cycle' ctx m') →
  run_once (SE := SE) r reasons now token cycle (fresh_world m)
  = run_once (SE := SE) r reasons now token cycle' (fresh_world m)
  ∧ match run_once (SE := SE) r reasons now token cycle (fresh_world m) with
    | (w', Ok (Completed _ _ fence None)) | (w', Ok (Failed _ _ fence None)) =>
        holder (E := SE) (contents (store w')) (lease_key r) ≠ Some (token, fence)
    | _ => True
    end.
Proof.
  intros Hok Hkeep Hagree. change (fresh_world m) with (rest m). rewrite !run_once_spec.
  unfold spec_run. destruct (negb _); [done|].
  destruct (locked (try_acquire _) m) as [m1 [[grant|]|[e|]]] eqn:Hl; try done.
  destruct (acquired_context r reasons now token m m1 grant Hok Hl) as (Hok1 & Hk & Ht & Hctx).
  pose proof (Hkeep (cycle_context r (normalize_reasons reasons) now grant) m1 Hok1) as Hok2.
  rewrite (Hagree _ _ Hctx) in Hok2 |- *. split; [done|].
  destruct (cycle' _ m1) as [m2 value].
  destruct (locked (release grant) m2) as [m3 [[]|[[e|]|]]] eqn:Hr; try (by destruct value as [v|[e'|]]).
  pose proof (release_gives_up grant m2 m3 Hok2 Hr) as Hown. rewrite Hk, Ht in Hown.
  by destruct value as [v|[e'|]].
Qed.

(** The witness compares the cycle with one that refuses any other fence. *)
Definition guarded_cycle (ctx : SyncContext) : M (Mutex Store) (stop string) N :=
  if cx_fence ctx == "1" then demo_cycle ctx else fail (Raised "not the owner").

Lemma cycle_only_under_lease_witness :
  let m := Build_Mutex default_store false in
  run_once (SE := Empty_set) demo_runner [Manual] 0 "t" demo_cycle (fresh_world m)
  = run_once (SE := Empty_set) demo_runner [Manual] 0 "t" guarded_cycle (fresh_world m)
  ∧ match run_once (SE := Empty_set) demo_runner [Manual] 0 "t" demo_cycle (fresh_world m) with
    | (w', Ok (Completed _ _ fence None)) | (w', Ok (Failed _ _ fence None)) =>
        holder (E := Empty_set) (contents (store w')) (lease_key demo_runner) ≠ Some ("t", fence)
    | _ => True
    end.
Proof.
  cbv zeta.
  apply (cycle_only_under_lease (SE := Empty_set) demo_runner [Manual] 0 "t" demo_cycle guarded_cycle
           (Build_Mutex default_store false)).
  - exact default_store_ok.
  - intros ctx m' Hok. exact Hok.
  - intros ctx m' (_ & _ & _ & Hf & Hn & _). unfold guarded_cycle. rewrite Hf, Hn. reflexivity.
Defined.
