(* ===== verification/Session.v ===== *)
(** * Session: authenticated login and logout ordering

    Models [clients/desktop-rust/src/session_lifecycle.rs].  The application's
    callbacks (the durable sync, the telemetry flush, clearing credentials) act
    on a world of their own and may fail or stop the call: a panic, or a future
    dropped at its [await] in the asynchronous variants, which have the same
    bodies and are modelled by the same definitions. *)

From S2P Require Import Prelude Text State.

Inductive SyncReason := Login | Logout.
#[export] Instance SyncReason_eq_dec : EqDecision SyncReason.
Proof. solve_decision. Defined.

Definition MAX_PORTABLE_SESSION_INTEGER : N := 9007199254740991.

Definition trim_is_empty (s : string) : bool := is_empty (trim s).

Record SessionIdentity := { subject : string; tenant : string; auth_epoch : N }.
#[export] Instance SessionIdentity_eq_dec : EqDecision SessionIdentity.
Proof. solve_decision. Defined.

Definition identity_new (subject tenant : string) (auth_epoch : N) : result SessionIdentity string :=
  if trim_is_empty subject || (512 <? len subject) then Err "subject must be 1 through 512 bytes"
  else if trim_is_empty tenant || (512 <? len tenant) then Err "tenant must be 1 through 512 bytes"
  else if MAX_PORTABLE_SESSION_INTEGER <? auth_epoch then Err "auth_epoch exceeds the portable integer domain"
  else Ok {| subject := subject; tenant := tenant; auth_epoch := auth_epoch |}.

Record Receipt := {
  pending_before : N;
  acknowledged : N;
  admitted_during_drain : N;
  pending_after : N;
  checkpoint_committed : bool;
  admission_fenced : bool
}.
#[export] Instance Receipt_eq_dec : EqDecision Receipt.
Proof. solve_decision. Defined.

Definition checked_sub_u64 (a b : N) : option N := if b <=? a then Some (a - b) else None.

Definition receipt_new (before acked admitted after : N) (checkpoint fenced : bool) : result Receipt string :=
  if existsb (λ v, MAX_PORTABLE_SESSION_INTEGER <? v) [before; acked; admitted; after]
  then Err "durable sync counters exceed the portable integer domain"
  else
    let expected_pending :=
      match checked_sub_u64 before acked with
      | Some v => checked_add_u64 v admitted
      | None => None
      end in
    if negb (expected_pending == Some after)
    then Err "durable sync receipt violates queue conservation: pending_after must equal pending_before - acknowledged + admitted_during_drain"
    else Ok {| pending_before := before; acknowledged := acked; admitted_during_drain := admitted;
               pending_after := after; checkpoint_committed := checkpoint; admission_fenced := fenced |}.

Definition durably_drained (r : Receipt) : bool :=
  (pending_after r =? 0) && (acknowledged r =? pending_before r) && (admitted_during_drain r =? 0)
  && checkpoint_committed r && admission_fenced r.

Record LoginReport (SE : Type) := {
  li_session : SessionIdentity;
  li_sync_triggered : bool;
  li_receipt : option Receipt;
  li_sync_error : option SE
}.
Arguments li_session {SE} _.
Arguments li_sync_triggered {SE} _.
Arguments li_receipt {SE} _.
Arguments li_sync_error {SE} _.
Arguments Build_LoginReport {SE} _ _ _ _.

Definition sync_succeeded {SE} (r : LoginReport SE) : bool :=
  li_sync_triggered r && negb (is_some (li_sync_error r)).

Record LogoutReport (SE TE CE : Type) := {
  lo_had_session : bool;
  lo_credentials_cleared : bool;
  lo_receipt : option Receipt;
  lo_sync_error : option SE;
  lo_telemetry_error : option TE;
  lo_credential_error : option CE
}.
Arguments lo_had_session {SE TE CE} _.
Arguments lo_credentials_cleared {SE TE CE} _.
Arguments lo_receipt {SE TE CE} _.
Arguments lo_sync_error {SE TE CE} _.
Arguments lo_telemetry_error {SE TE CE} _.
Arguments lo_credential_error {SE TE CE} _.
Arguments Build_LogoutReport {SE TE CE} _ _ _ _ _ _.

Definition data_durably_drained {SE TE CE} (r : LogoutReport SE TE CE) : bool :=
  negb (lo_had_session r)
  || (negb (is_some (lo_sync_error r)) && is_some_and (lo_receipt r) durably_drained).

Definition telemetry_flushed {SE TE CE} (r : LogoutReport SE TE CE) : bool :=
  negb (is_some (lo_telemetry_error r)).

Definition complete {SE TE CE} (r : LogoutReport SE TE CE) : bool :=
  data_durably_drained r && telemetry_flushed r && lo_credentials_cleared r.

(** [AuthenticatedSessionLifecycle] next to the world its callbacks act on. *)
Record Host (W : Type) := { session : option SessionIdentity; world : W }.
Arguments session {W} _.
Arguments world {W} _.
Arguments Build_Host {W} _ _.

Definition err {A E} (r : result A E) : option E := match r with Err e => Some e | Ok _ => None end.

Section Ops.
Context {W SE TE CE : Type}.

Definition set_session (s : option SessionIdentity) : M (Host W) (stop string) unit :=
  modify (λ h, Build_Host s (world h)).

(** Calling a callback: its error is a value, its unwinding stops the caller. *)
Definition call {A E} (f : M W (stop E) A) : M (Host W) (stop string) (result A E) :=
  λ h, match f (world h) with
       | (w, Ok a) => (Build_Host (session h) w, Ok (Ok a))
       | (w, Err (Raised e)) => (Build_Host (session h) w, Ok (Err e))
       | (w, Err Unwound) => (Build_Host (session h) w, Err Unwound)
       end.

Definition on_login (next : SessionIdentity) (sync : SyncReason → M W (stop SE) Receipt)
  : M (Host W) (stop string) (LoginReport SE) :=
  current ←? gets session;
  match current with
  | Some current =>
      if negb (current == next)
      then fail (Raised "logout must complete before a tenant, subject, or auth-epoch switch")
      else ret (Build_LoginReport current false None None)
  | None =>
      set_session (Some next) ;;?
      r ←? call (sync Login);
      ret (Build_LoginReport next true (ok r) (err r))
  end.

Definition on_logout (sync : SyncReason → M W (stop SE) Receipt) (force_flush_telemetry : M W (stop TE) unit)
    (clear_credentials : option SessionIdentity → M W (stop CE) unit)
  : M (Host W) (stop string) (LogoutReport SE TE CE) :=
  current ←? gets session;
  set_session None ;;?
  synced ←? (match current with
             | Some _ => r ←? call (sync Logout); ret (ok r, err r)
             | None => ret (None, None)
             end);
  telemetry ←? call force_flush_telemetry;
  cleared ←? call (clear_credentials current);
  ret (Build_LogoutReport (is_some current) (is_ok cleared) synced.1 synced.2 (err telemetry) (err cleared)).
End Ops.

(** ** Specification: the order of effects across a host's life *)

(** What the callbacks are observed to do. *)
Inductive Effect :=
| Synced (reason : SyncReason)
| Flushed
| Cleared (who : option SessionIdentity).
#[export] Instance Effect_eq_dec : EqDecision Effect.
Proof. solve_decision. Defined.

(** A call of the host, with what each callback of it answers. *)
Inductive HostCall (SE TE CE : Type) :=
| CallLogin (next : SessionIdentity) (sync : result Receipt (stop SE))
| CallLogout (sync : result Receipt (stop SE)) (flush : result unit (stop TE)) (clear : result unit (stop CE)).
Arguments CallLogin {SE TE CE} _ _.
Arguments CallLogout {SE TE CE} _ _ _.

(** A callback that logs its effect, then answers. *)
Definition logged {A E} (e : Effect) (answer : result A (stop E)) : M (list Effect) (stop E) A :=
  λ log, (log ++ [e], answer).

Section Trace.
Context {SE TE CE : Type}.

Definition host_step (c : HostCall SE TE CE) (h : Host (list Effect)) : Host (list Effect) :=
  match c with
  | CallLogin next sync => (on_login next (λ r, logged (Synced r) sync) h).1
  | CallLogout sync flush clear =>
      (on_logout (λ r, logged (Synced r) sync) (logged Flushed flush) (λ who, logged (Cleared who) clear) h).1
  end.

Definition host_run (cs : list (HostCall SE TE CE)) : Host (list Effect) :=
  fold_left (λ h c, host_step c h) cs (Build_Host None []).
End Trace.

(** Where a host is in the order of effects: signed out or in, or in the middle
    of a logout that was stopped after its sync, after its flush. *)
Inductive Stage := SignedOut | SignedIn | Drained | Flushing.

Definition stage_next (s : Stage) (e : Effect) : option Stage :=
  match s, e with
  | (SignedOut | Drained | Flushing), Synced Login => Some SignedIn
  | SignedIn, Synced Logout => Some Drained
  | (SignedOut | Drained | Flushing), Flushed => Some Flushing
  | Flushing, Cleared _ => Some SignedOut
  | _, _ => None
  end.

Fixpoint stages (s : Stage) (es : list Effect) : option Stage :=
  match es with
  | [] => Some s
  | e :: es' => match stage_next s e with Some s' => stages s' es' | None => None end
  end.

(** ** Lemmas *)

Lemma stages_app s es es' : stages s (es ++ es') = match stages s es with Some s' => stages s' es' | None => None end.
Proof.
  revert s. induction es as [|e es IH]; intros s; [done|]. cbn.
  destruct (stage_next s e); [apply IH|done].
Qed.

(** The stage a log leads to, next to the session that is left. *)
Definition staged (h : Host (list Effect)) (s : Stage) : Prop :=
  stages SignedOut (world h) = Some s ∧ (is_some (session h) = true ↔ s = SignedIn).

Lemma login_step {SE} next (sync : result Receipt (stop SE)) h s : staged h s →
  ∃ s', staged (on_login next (λ r, logged (Synced r) sync) h).1 s'.
Proof.
  intros [Hs Hin]. unfold on_login, bind, gets. destruct h as [[cur|] log]; cbn in *.
  - destruct (negb (cur == next)); by exists s.
  - exists SignedIn. unfold staged, call, logged, set_session, modify, ret. cbn.
    assert (Hne : s ≠ SignedIn) by (intros Hx; by apply Hin in Hx).
    destruct sync as [r|[e|]]; cbn; rewrite stages_app, Hs; (split; [by destruct s|done]).
Qed.

Lemma logout_step {SE TE CE} (sync : result Receipt (stop SE)) (flush : result unit (stop TE))
    (clear : result unit (stop CE)) h s : staged h s →
  ∃ s', staged (on_logout (λ r, logged (Synced r) sync) (logged Flushed flush)
                  (λ who, logged (Cleared who) clear) h).1 s'.
Proof.
  intros [Hs Hin]. unfold on_logout, bind, gets, staged, call, logged, set_session, modify, ret.
  destruct h as [[cur|] log]; cbn in *.
  - assert (s = SignedIn) as -> by (by apply Hin).
    destruct sync as [r|[e|]], flush as [[]|[f|]], clear as [[]|[c|]]; cbn;
      rewrite <- ?app_assoc, stages_app, Hs; cbn; eexists; (split; [reflexivity|done]).
  - assert (Hne : s ≠ SignedIn) by (intros Hx; by apply Hin in Hx).
    destruct flush as [[]|[f|]], clear as [[]|[c|]]; cbn; rewrite <- ?app_assoc, stages_app, Hs;
      destruct s; try done; cbn; eexists; (split; [reflexivity|done]).
Qed.

(** ** Closed examples *)

Definition alice : SessionIdentity := {| subject := "alice"; tenant := "t"; auth_epoch := 1 |}.
Definition bob : SessionIdentity := {| subject := "bob"; tenant := "t"; auth_epoch := 1 |}.
Definition drained : Receipt :=
  {| pending_before := 3; acknowledged := 3; admitted_during_drain := 0; pending_after := 0;
     checkpoint_committed := true; admission_fenced := true |}.

Example identity_whitespace :
  (identity_new (of_bytes (List.map ascii_of_N [226; 128; 131; 32; 194; 160])) "t" 0,
   is_ok (identity_new "a" "t" 9007199254740991), is_ok (identity_new "a" "t" 9007199254740992))
  = (Err "subject must be 1 through 512 bytes", true, false).
Proof. vm_compute. reflexivity. Qed.

Example demo_session :
  let run := host_run (SE := string) (TE := string) (CE := string)
    [ CallLogin alice (Ok drained); CallLogin bob (Ok drained);
      CallLogout (Err (Raised "offline")) (Ok ()) (Ok ()); CallLogin bob (Err Unwound);
      CallLogout (Ok drained) (Err Unwound) (Ok ()) ] in
  (session run, world run)
  = (None, [Synced Login; Synced Logout; Flushed; Cleared (Some alice); Synced Login; Synced Logout; Flushed]).
Proof. vm_compute. reflexivity. Qed.

(** ** Properties *)

(** A receipt is accepted exactly when its counters are portable integers
    that conserve the queue, and an accepted receipt is durably drained
    exactly when nothing is pending or was admitted, the checkpoint is
    committed and admission is fenced. *)
Theorem receipt_new_correct before acked admitted after checkpoint fenced :
  match receipt_new before acked admitted after checkpoint fenced with
  | Ok r =>
      pending_before r = acknowledged r + pending_after r - admitted_during_drain r
      ∧ acknowledged r ≤ pending_before r
      ∧ (durably_drained r = true ↔
         after = 0 ∧ admitted = 0 ∧ checkpoint = true ∧ fenced = true)
  | Err _ => ¬ (before ≤ MAX_PORTABLE_SESSION_INTEGER ∧ acked ≤ MAX_PORTABLE_SESSION_INTEGER
                ∧ admitted ≤ MAX_PORTABLE_SESSION_INTEGER ∧ after ≤ MAX_PORTABLE_SESSION_INTEGER
                ∧ acked ≤ before ∧ before + admitted = acked + after)
  end.
Proof.
  unfold receipt_new. cbn [existsb]. rewrite orb_false_r.
  destruct (_ || _) eqn:Hb; [bsimp; unfold MAX_PORTABLE_SESSION_INTEGER in *; lia|]. bsimp.
  unfold checked_sub_u64, checked_add_u64, MAX_PORTABLE_SESSION_INTEGER, u64_max in *.
  destruct (N.leb_spec acked before); [|cbn; intros (?&?&?&?&?&?); lia].
  destruct (N.leb_spec (before - acked + admitted) 18446744073709551615); [|cbn; lia].
  destruct (bool_decide_reflect (Some (before - acked + admitted) = Some after)) as [[= <-]|Hne]; cbn.
  - split; [lia|]. split; [lia|]. unfold durably_drained. cbn.
    rewrite !andb_true_iff, !N.eqb_eq. split; [intros; repeat split; naive_solver lia|].
    intros (? & ? & ? & ?). repeat split; try done; lia.
  - intros (? & ? & ? & ? & ? & ?). apply Hne. f_equal. lia.
Qed.

(** Whatever calls a host makes and however its callbacks answer, fail or
    stop them, the effects stay in order: an identity's logout sync only runs
    while it is signed in, credentials are only cleared right after a telemetry
    flush that follows the logout sync, and no login sync runs between another
    login and its logout. *)
Theorem session_effects_ordered {SE TE CE} (cs : list (HostCall SE TE CE)) :
  ∃ s, stages SignedOut (world (host_run cs)) = Some s
       ∧ (is_some (session (host_run cs)) = true ↔ s = SignedIn).
Proof.
  assert (Hrun : ∀ h s, staged h s → ∃ s', staged (fold_left (λ h c, host_step c h) cs h) s').
  { induction cs as [|c cs IH]; intros h s Hs; [exists s; exact Hs|].
    cbn [fold_left]. destruct c as [next sync|sync flush clear].
    - destruct (login_step next sync h s Hs) as [s' Hs']. exact (IH _ _ Hs').
    - destruct (logout_step sync flush clear h s Hs) as [s' Hs']. exact (IH _ _ Hs'). }
  apply (Hrun (Build_Host None []) SignedOut). split; [done|split; discriminate].
Qed.

(** A logout whose callbacks return clears the session and the
    credentials of whoever was signed in, whatever failed before, and reports
    completion exactly when the flush and the clearing succeeded and there was
    no session or its sync delivered a durably drained receipt. *)
Theorem logout_complete_iff {SE TE CE} cur log (sync : result Receipt SE) (flush : result unit TE)
    (clear : result unit CE) :
  let '(h, r) := on_logout (λ r, logged (Synced r) (map_err Raised sync)) (logged Flushed (map_err Raised flush))
                   (λ who, logged (Cleared who) (map_err Raised clear)) (Build_Host cur log) in
  h = Build_Host None (log ++ (match cur with Some _ => [Synced Logout] | None => [] end) ++ [Flushed; Cleared cur])
  ∧ ∃ report, r = Ok report
    ∧ (complete report = true ↔
       flush = Ok () ∧ clear = Ok () ∧ (cur = None ∨ ∃ receipt, sync = Ok receipt ∧ durably_drained receipt = true)).
Proof.
  unfold on_logout, bind, gets, call, logged, set_session, modify, ret, map_err.
  destruct cur as [who|], sync as [receipt|e], flush as [[]|f], clear as [[]|c]; cbn;
    rewrite <- ?app_assoc; (split; [reflexivity|]); eexists; (split; [reflexivity|]);
    unfold complete, data_durably_drained, telemetry_flushed; cbn;
    rewrite ?andb_true_r, ?andb_false_r; naive_solver.
Qed.
