(* ===== verification/DesktopSqlite.v ===== *)
(** * DesktopSqlite: the SQLite coordinator of the desktop runner

    Models [clients/desktop-rust/src/sqlite.rs].  The coordination table is a
    finite map of rows with the table's CHECK constraints; an Immediate
    transaction runs to its commit or leaves the store as it was.  SQLite itself
    is not in the repository: its clock is a parameter, and a reading that fails
    stands for any failing statement of that transaction, all of which roll
    back.  The application's own tables are a parameter as well. *)

From S2P Require Import Prelude Text Decimal State Lease Runner.

#[local] Open Scope Z_scope.

Definition z_i64_max : Z := 9223372036854775807.

Definition MIN_TTL_MS : N := 1000.
Definition MAX_TTL_MS : N := 15 * 60000.
Definition MAX_BUSY_TIMEOUT_MS : N := 60000.

Record CoordinatorOptions := { busy_timeout_ms : N; initialize_pragmas : bool }.
Definition default_options : CoordinatorOptions := {| busy_timeout_ms := 5000; initialize_pragmas := true |}.

Inductive DesktopError (SqlError : Type) :=
| Sqlite (e : SqlError)
| InvalidConfig (message : string)
| MissingCoordinationRow
| GenerationExhausted (name : string)
| StaleFence.
Arguments Sqlite {SqlError} e.
Arguments InvalidConfig {SqlError} message.
Arguments MissingCoordinationRow {SqlError}.
Arguments GenerationExhausted {SqlError} name.
Arguments StaleFence {SqlError}.

Record AcquireRequest := {
  aq_key : string;
  aq_owner_id : string;
  aq_token : string;
  aq_lease_ttl_ms : N
}.

Record SqliteGrant := {
  sg_key : string;
  sg_owner_id : string;
  sg_token : string;
  sg_fence : string;
  sg_acquired_at_ms : N;
  sg_expires_at_ms : N;
  sg_wake_generation : string;
  sg_handled_generation : string
}.

Definition desktop_grant (g : SqliteGrant) : LeaseGrant :=
  {| gr_key := sg_key g; gr_owner_id := sg_owner_id g; gr_token := sg_token g;
     gr_fence := sg_fence g; gr_expires_at_ms := sg_expires_at_ms g |}.

Record WakeReceipt := {
  wr_generation : string;
  wr_handled_generation : string;
  wr_dirty : bool;
  wr_retry_after_ms : N
}.

Record BusyInfo := {
  bi_retry_after_ms : N;
  bi_wake_generation : string;
  bi_handled_generation : string
}.

Inductive AcquireResult :=
| ABusy (info : BusyInfo)
| Acquired (grant : SqliteGrant).

Record Completion := {
  cm_released : bool;
  cm_current_wake_generation : string;
  cm_handled_generation : string
}.

Record CoordinatorState := {
  cs_key : string;
  cs_fence : string;
  cs_expires_at_ms : N;
  cs_wake_generation : string;
  cs_handled_generation : string;
  cs_dirty : bool;
  cs_owned : bool;
  cs_retry_after_ms : N
}.

(** A row of the table: [CoordinationRow] and the column it does not read. *)
Record Row := {
  owner_token : option string;
  fence : Z;
  expires_at_ms : Z;
  wake_generation : Z;
  handled_generation : Z;
  updated_at_ms : Z
}.

(** The CHECK constraints of the table. *)
Definition row_checks (r : Row) : bool :=
  (0 <=? fence r) && (0 <=? expires_at_ms r) && (0 <=? wake_generation r)
  && ((0 <=? handled_generation r) && (handled_generation r <=? wake_generation r))
  && (0 <=? updated_at_ms r).

(** What the UPDATE statements set. *)
Definition set_woken (now_ms : Z) (r : Row) : Row :=
  {| owner_token := owner_token r; fence := fence r; expires_at_ms := expires_at_ms r;
     wake_generation := wake_generation r + 1; handled_generation := handled_generation r;
     updated_at_ms := now_ms |}.

Definition set_acquired (token : string) (expires now_ms : Z) (r : Row) : Row :=
  {| owner_token := Some token; fence := fence r + 1; expires_at_ms := expires;
     wake_generation := wake_generation r; handled_generation := handled_generation r;
     updated_at_ms := now_ms |}.

Definition set_renewed (expires now_ms : Z) (r : Row) : Row :=
  {| owner_token := owner_token r; fence := fence r; expires_at_ms := expires;
     wake_generation := wake_generation r; handled_generation := handled_generation r;
     updated_at_ms := now_ms |}.

Definition set_completed (next_handled : Z) (released : bool) (now_ms : Z) (r : Row) : Row :=
  {| owner_token := if released then None else owner_token r; fence := fence r;
     expires_at_ms := if released then 0 else expires_at_ms r;
     wake_generation := wake_generation r; handled_generation := next_handled;
     updated_at_ms := now_ms |}.

Definition set_released (now_ms : Z) (r : Row) : Row :=
  {| owner_token := None; fence := fence r; expires_at_ms := 0;
     wake_generation := wake_generation r; handled_generation := handled_generation r;
     updated_at_ms := now_ms |}.

(** ** Values *)

Section Values.
Context {SqlError : Type}.

Definition validate_identifier (name value : string) : result unit (DesktopError SqlError) :=
  if negb (bytes_1_to_512 value) then Err (InvalidConfig (name +:+ " must be 1 through 512 bytes"))
  else Ok ().

Definition validate_ttl (ttl_ms : N) : result unit (DesktopError SqlError) :=
  if negb ((MIN_TTL_MS <=? ttl_ms) && (ttl_ms <=? MAX_TTL_MS))%N
  then Err (InvalidConfig "lease_ttl_ms must be from 1000 through 900000")
  else Ok ().

Definition parse_decimal (name value : string) : result Z (DesktopError SqlError) :=
  if is_empty value || negb (all_bytes is_ascii_digit value)
     || ((1 <? len value)%N && starts_with "0" value)
  then Err (InvalidConfig (name +:+ " must be a non-negative canonical decimal integer"))
  else match parse_i64 value with
       | Some z => Ok z
       | None => Err (InvalidConfig (name +:+ " exceeds SQLite's signed 64-bit range"))
       end.

Definition validate_grant (g : LeaseGrant) : result unit (DesktopError SqlError) :=
  let? _ := validate_identifier "lease key" (gr_key g) in
  let? _ := validate_identifier "owner token" (gr_token g) in
  let? _ := parse_decimal "fence" (gr_fence g) in
  Ok ().

Definition validate_sqlite_grant (g : SqliteGrant) : result unit (DesktopError SqlError) :=
  let? _ := validate_identifier "lease key" (sg_key g) in
  let? _ := validate_identifier "owner id" (sg_owner_id g) in
  let? _ := validate_identifier "owner token" (sg_token g) in
  let? _ := parse_decimal "fence" (sg_fence g) in
  let? _ := parse_decimal "wake generation" (sg_wake_generation g) in
  let? _ := parse_decimal "handled generation" (sg_handled_generation g) in
  Ok ().

Definition non_negative_i64 (value : Z) (name : string) : result N (DesktopError SqlError) :=
  if value <? 0 then Err (InvalidConfig ("SQLite returned a negative " +:+ name)) else Ok (Z.to_N value).

Definition saturating_sub_i64 (a b : Z) : Z := Z.max (- z_i64_max - 1) (Z.min z_i64_max (a - b)).

Definition non_negative_difference (later earlier : Z) : result N (DesktopError SqlError) :=
  non_negative_i64 (Z.max (saturating_sub_i64 later earlier) 0) "retry interval".

Definition retry_after_ms (row : Row) (now_ms : Z) : result N (DesktopError SqlError) :=
  match owner_token row with
  | None => Ok 0%N
  | Some _ => non_negative_difference (expires_at_ms row) now_ms
  end.

Definition i64_to_string (z : Z) : string :=
  if z <? 0 then "-" +:+ to_dec (Z.to_N (- z)) else to_dec (Z.to_N z).

Definition i64_try_from (name : string) (n : N) : result Z (DesktopError SqlError) :=
  if Z.of_N n <=? z_i64_max then Ok (Z.of_N n) else Err (InvalidConfig (name +:+ " is too large")).

Definition expiry (now_ms ttl_ms : Z) : result Z (DesktopError SqlError) :=
  if now_ms + ttl_ms <=? z_i64_max then Ok (now_ms + ttl_ms)
  else Err (InvalidConfig "lease expiry overflowed").
End Values.

(** ** Transactions on the coordination table *)

(** The database: the coordination rows and the application's own tables. *)
Record Db (App : Type) := { rows : gmap string Row; app : App }.
Arguments rows {App} _.
Arguments app {App} _.
Arguments Build_Db {App} _ _.

(** [ticks] counts the readings of the store clock. *)
Record Store (App : Type) := { db : Db App; ticks : nat }.
Arguments db {App} _.
Arguments ticks {App} _.
Arguments Build_Store {App} _ _.

Section Coordinator.
Context {SqlError App : Type}.
Context (clock : nat → result Z SqlError) (constraint_failed : SqlError).

Let Er := DesktopError SqlError.
Let St := Store App.

Definition store_now_ms : M St Er Z :=
  λ s,
    (Build_Store (db s) (S (ticks s)),
     match clock (ticks s) with
     | Err e => Err (Sqlite e)
     | Ok now => if now <? 0 then Err (InvalidConfig "SQLite returned a negative store clock") else Ok now
     end).

(** An Immediate transaction: an error drops it, which rolls it back. *)
Definition transaction {A} (body : M St Er A) : M St Er A :=
  λ s, match body s with
       | (s', Ok a) => (s', Ok a)
       | (s', Err e) => (Build_Store (db s) (ticks s'), Err e)
       end.

Definition set_rows (f : gmap string Row → gmap string Row) : M St Er unit :=
  modify (λ s, Build_Store (Build_Db (f (rows (db s))) (app (db s))) (ticks s)).

Definition empty_row (now_ms : Z) : Row :=
  {| owner_token := None; fence := 0; expires_at_ms := 0; wake_generation := 0;
     handled_generation := 0; updated_at_ms := now_ms |}.

(** INSERT ... ON CONFLICT DO NOTHING *)
Definition ensure_row (key : string) (now_ms : Z) : M St Er unit :=
  set_rows (λ m, match m !! key with Some _ => m | None => <[key := empty_row now_ms]> m end).

Definition read_row (key : string) : M St Er Row :=
  λ s, (s, ok_or (rows (db s) !! key) MissingCoordinationRow).

(** UPDATE of the key's row under a condition: the number of rows changed; the
    table's constraints refuse a row that does not satisfy them. *)
Definition update_row (key : string) (cond : Row → bool) (f : Row → Row) : M St Er N :=
  λ s, match rows (db s) !! key with
       | Some r =>
           if cond r then
             if row_checks (f r)
             then (Build_Store (Build_Db (<[key := f r]> (rows (db s))) (app (db s))) (ticks s), Ok 1%N)
             else (s, Err (Sqlite constraint_failed))
           else (s, Ok 0%N)
       | None => (s, Ok 0%N)
       end.

Definition read_owned_unexpired_row (g : LeaseGrant) (fence_ : Z) (now_ms : Z) : M St Er Row :=
  row ←? read_row (gr_key g);
  if negb (owner_token row == Some (gr_token g)) || negb (fence row =? fence_) || (expires_at_ms row <=? now_ms)
  then fail StaleFence
  else ret row.

Definition signal_wake (key : string) : M St Er WakeReceipt :=
  lift (validate_identifier "lease key" key) ;;?
  transaction (
    now_ms ←? store_now_ms;
    ensure_row key now_ms ;;?
    before ←? read_row key;
    (if wake_generation before =? z_i64_max then fail (GenerationExhausted "wake generation") else ret ()) ;;?
    update_row key (λ _, true) (set_woken now_ms) ;;?
    row ←? read_row key;
    retry ←? lift (retry_after_ms row now_ms);
    ret {| wr_generation := i64_to_string (wake_generation row);
           wr_handled_generation := i64_to_string (handled_generation row);
           wr_dirty := negb (wake_generation row =? handled_generation row);
           wr_retry_after_ms := retry |}).

Definition acquire (request : AcquireRequest) : M St Er AcquireResult :=
  lift (validate_identifier "lease key" (aq_key request)) ;;?
  lift (validate_identifier "owner id" (aq_owner_id request)) ;;?
  lift (validate_identifier "owner token" (aq_token request)) ;;?
  lift (validate_ttl (aq_lease_ttl_ms request)) ;;?
  transaction (
    now_ms ←? store_now_ms;
    ensure_row (aq_key request) now_ms ;;?
    current ←? read_row (aq_key request);
    if is_some (owner_token current) && (now_ms <? expires_at_ms current) then
      retry ←? lift (non_negative_difference (expires_at_ms current) now_ms);
      ret (ABusy {| bi_retry_after_ms := retry;
                    bi_wake_generation := i64_to_string (wake_generation current);
                    bi_handled_generation := i64_to_string (handled_generation current) |})
    else
      (if fence current =? z_i64_max then fail (GenerationExhausted "lease fence") else ret ()) ;;?
      ttl_ms ←? lift (i64_try_from "lease_ttl_ms" (aq_lease_ttl_ms request));
      expires ←? lift (expiry now_ms ttl_ms);
      update_row (aq_key request) (λ _, true) (set_acquired (aq_token request) expires now_ms) ;;?
      granted ←? read_row (aq_key request);
      acquired_at ←? lift (non_negative_i64 now_ms "store clock");
      expires_at ←? lift (non_negative_i64 (expires_at_ms granted) "lease expiry");
      ret (Acquired {| sg_key := aq_key request; sg_owner_id := aq_owner_id request;
                       sg_token := aq_token request; sg_fence := i64_to_string (fence granted);
                       sg_acquired_at_ms := acquired_at; sg_expires_at_ms := expires_at;
                       sg_wake_generation := i64_to_string (wake_generation granted);
                       sg_handled_generation := i64_to_string (handled_generation granted) |})).

(** The condition of the UPDATEs that only the current owner may make. *)
Definition owned_by (token : string) (fence_ : Z) (now_ms : Z) (r : Row) : bool :=
  (owner_token r == Some token) && (fence r =? fence_) && (now_ms <? expires_at_ms r).

Definition renew (grant : SqliteGrant) (lease_ttl_ms : N) : M St Er (option SqliteGrant) :=
  lift (validate_sqlite_grant grant) ;;?
  lift (validate_ttl lease_ttl_ms) ;;?
  fence_ ←? lift (parse_decimal "fence" (sg_fence grant));
  ttl_ms ←? lift (i64_try_from "lease_ttl_ms" lease_ttl_ms);
  transaction (
    now_ms ←? store_now_ms;
    expires ←? lift (expiry now_ms ttl_ms);
    changed ←? update_row (sg_key grant) (owned_by (sg_token grant) fence_ now_ms) (set_renewed expires now_ms);
    if negb (changed =? 1)%N then ret None
    else
      row ←? read_row (sg_key grant);
      expires_at ←? lift (non_negative_i64 (expires_at_ms row) "lease expiry");
      ret (Some {| sg_key := sg_key grant; sg_owner_id := sg_owner_id grant; sg_token := sg_token grant;
                   sg_fence := sg_fence grant; sg_acquired_at_ms := sg_acquired_at_ms grant;
                   sg_expires_at_ms := expires_at;
                   sg_wake_generation := i64_to_string (wake_generation row);
                   sg_handled_generation := i64_to_string (handled_generation row) |})).

Definition complete_lease (grant : SqliteGrant) (observed_wake_generation : string) : M St Er Completion :=
  lift (validate_sqlite_grant grant) ;;?
  observed ←? lift (parse_decimal "observed wake generation" observed_wake_generation);
  fence_ ←? lift (parse_decimal "fence" (sg_fence grant));
  transaction (
    now_ms ←? store_now_ms;
    row ←? read_owned_unexpired_row (desktop_grant grant) fence_ now_ms;
    (if wake_generation row <? observed
     then fail (InvalidConfig "observed wake generation is ahead of durable state") else ret ()) ;;?
    let next_handled := Z.max observed (handled_generation row) in
    let released := observed =? wake_generation row in
    changed ←? update_row (sg_key grant) (owned_by (sg_token grant) fence_ now_ms)
      (set_completed next_handled released now_ms);
    if negb (changed =? 1)%N then fail StaleFence
    else ret {| cm_released := released;
                cm_current_wake_generation := i64_to_string (wake_generation row);
                cm_handled_generation := i64_to_string next_handled |}).

Definition release_lease (grant : LeaseGrant) : M St Er unit :=
  lift (validate_grant grant) ;;?
  fence_ ←? lift (parse_decimal "fence" (gr_fence grant));
  transaction (
    now_ms ←? store_now_ms;
    update_row (gr_key grant) (λ r, (owner_token r == Some (gr_token grant)) && (fence r =? fence_))
      (set_released now_ms) ;;?
    ret ()).

(** The callback may write anything in the same transaction. *)
Definition with_fenced_write {T} (grant : LeaseGrant) (write : M St Er T) : M St Er T :=
  lift (validate_grant grant) ;;?
  fence_ ←? lift (parse_decimal "fence" (gr_fence grant));
  transaction (
    before_ms ←? store_now_ms;
    read_owned_unexpired_row grant fence_ before_ms ;;?
    result ←? write;
    after_ms ←? store_now_ms;
    read_owned_unexpired_row grant fence_ after_ms ;;?
    ret result).

Definition assert_current_fence (grant : LeaseGrant) : M St Er unit :=
  lift (validate_grant grant) ;;?
  fence_ ←? lift (parse_decimal "fence" (gr_fence grant));
  transaction (
    now_ms ←? store_now_ms;
    read_owned_unexpired_row grant fence_ now_ms ;;?
    ret ()).

Definition read_state (key : string) : M St Er CoordinatorState :=
  lift (validate_identifier "lease key" key) ;;?
  transaction (
    now_ms ←? store_now_ms;
    ensure_row key now_ms ;;?
    row ←? read_row key;
    expires_at ←? lift (non_negative_i64 (expires_at_ms row) "lease expiry");
    retry ←? lift (retry_after_ms row now_ms);
    ret {| cs_key := key; cs_fence := i64_to_string (fence row); cs_expires_at_ms := expires_at;
           cs_wake_generation := i64_to_string (wake_generation row);
           cs_handled_generation := i64_to_string (handled_generation row);
           cs_dirty := negb (wake_generation row =? handled_generation row);
           cs_owned := is_some (owner_token row) && (now_ms <? expires_at_ms row);
           cs_retry_after_ms := retry |}).

(** The public [store_now_ms]. *)
Definition coordinator_now_ms : M St Er N :=
  now ←? store_now_ms; lift (non_negative_i64 now "store clock").

(** The coordinator as a [DesktopLeaseStore]; it never unwinds. *)
Definition raised {A} (m : M St Er A) : M St (stop Er) A :=
  λ s, let '(s', r) := m s in (s', map_err Raised r).

Definition sqlite_try_acquire (request : LeaseRequest) : M St Er (option LeaseGrant) :=
  (if (rq_now_ms request <=? rq_expires_at_ms request)%N then ret ()
   else fail (InvalidConfig "expires_at_ms must be after now_ms")) ;;?
  r ←? acquire {| aq_key := rq_key request; aq_owner_id := rq_owner_id request; aq_token := rq_token request;
                  aq_lease_ttl_ms := rq_expires_at_ms request - rq_now_ms request |};
  match r with
  | ABusy _ => ret None
  | Acquired grant => ret (Some (desktop_grant grant))
  end.

#[export] Instance sqlite_store : LeaseStore St Er :=
  {| try_acquire := λ request, raised (sqlite_try_acquire request);
     release := λ grant, raised (release_lease grant) |}.
End Coordinator.

(** [open] up to its I/O: the configuration it accepts. *)
Definition open_check {SqlError} (path : string) (options : CoordinatorOptions) : result unit (DesktopError SqlError) :=
  if is_empty path then Err (InvalidConfig "SQLite path must not be empty")
  else if (MAX_BUSY_TIMEOUT_MS <? busy_timeout_ms options)%N
  then Err (InvalidConfig "busy_timeout_ms must be from 0 through 60000")
  else Ok ().

(** ** The coordinated runner *)

Record CycleContext := {
  cc_reasons : list WakeReason;
  cc_owner_id : string;
  cc_lease_key : string;
  cc_fence : string;
  cc_wake_generation : string;
  cc_deadline_ms : N;
  cc_grant : SqliteGrant
}.

Record CompletedCycle (R : Type) := {
  cd_value : R;
  cd_reasons : list WakeReason;
  cd_fence : string;
  cd_wake_generation : string;
  cd_handled_generation : string
}.
Arguments cd_value {R} _.
Arguments cd_reasons {R} _.
Arguments cd_fence {R} _.
Arguments cd_wake_generation {R} _.
Arguments cd_handled_generation {R} _.
Arguments Build_CompletedCycle {R} _ _ _ _ _.

Record CycleFailure (CE SqlError : Type) := {
  cf_error : CE;
  cf_release_error : option (DesktopError SqlError);
  cf_reasons : list WakeReason;
  cf_fence : string;
  cf_wake_generation : string
}.
Arguments Build_CycleFailure {CE SqlError} _ _ _ _ _.
Arguments cf_error {CE SqlError} _.
Arguments cf_release_error {CE SqlError} _.

Inductive RunError (CE SqlError : Type) :=
| ECoordinator (e : DesktopError SqlError)
| EBusy (reasons : list WakeReason) (retry_after_ms : N) (wake_generation handled_generation : string)
| ECycle (failure : CycleFailure CE SqlError).
Arguments ECoordinator {CE SqlError} e.
Arguments EBusy {CE SqlError} reasons retry_after_ms wake_generation handled_generation.
Arguments ECycle {CE SqlError} failure.

Record CoordinatedRunner := {
  rn_lease_key : string;
  rn_owner_id : string;
  rn_cycle_budget_ms : N;
  rn_lease_ttl_ms : N;
  rn_busy_retry_cap_ms : N;
  rn_busy_wait_budget_ms : N
}.

Definition runner_new {SqlError} (key owner : string) (budget ttl retry_cap wait_budget : N)
  : result CoordinatedRunner (DesktopError SqlError) :=
  let? _ := validate_identifier "lease key" key in
  let? _ := validate_identifier "owner id" owner in
  if negb ((1000 <=? budget) && (budget <=? 600000))%N
  then Err (InvalidConfig "cycle_budget_ms must be from 1000 through 600000")
  else
    let? _ := validate_ttl ttl in
    if (ttl <? saturating_add_u64 budget 1000)%N
    then Err (InvalidConfig "lease_ttl_ms must cover cycle_budget_ms plus 1000")
    else if (retry_cap =? 0)%N || (ttl <? retry_cap)%N
    then Err (InvalidConfig "busy_retry_cap_ms must be from 1 through lease_ttl_ms")
    else if (wait_budget <? retry_cap)%N || (MAX_TTL_MS * 2 <? wait_budget)%N
    then Err (InvalidConfig "busy_wait_budget_ms must cover busy_retry_cap_ms and be at most 1800000")
    else Ok {| rn_lease_key := key; rn_owner_id := owner; rn_cycle_budget_ms := budget;
               rn_lease_ttl_ms := ttl; rn_busy_retry_cap_ms := retry_cap;
               rn_busy_wait_budget_ms := wait_budget |}.

(** The runner's world: the shared store, how many of its calls reached it, the
    delays it slept and the host's own state. *)
Record RunWorld (App H : Type) := {
  coordinator : Store App;
  calls : nat;
  slept : list N;
  host : H
}.
Arguments coordinator {App H} _.
Arguments calls {App H} _.
Arguments slept {App H} _.
Arguments host {App H} _.
Arguments Build_RunWorld {App H} _ _ _ _.

Section CoordinatedRun.
Context {SqlError App H R CE : Type}.
Context (clock : nat → result Z SqlError) (constraint_failed : SqlError).
(** What the other processes commit before the runner's n-th call. *)
Context (others : nat → Store App → Store App).
(** [busy_started.elapsed()] after the n-th attempt, in milliseconds. *)
Context (elapsed : nat → N).
Context (token_factory : H → H * string).
Context (cycle : CycleContext → M (Store App * H) CE R).

Let W := RunWorld App H.
Let RE := RunError CE SqlError.

(** A loop that runs out of fuel stops with [None]. *)
Definition op {A} (f : M (Store App) (DesktopError SqlError) A) : M W (option RE) A :=
  λ w, let '(s, r) := f (others (calls w) (coordinator w)) in
       (Build_RunWorld s (S (calls w)) (slept w) (host w),
        map_err (λ e, Some (ECoordinator e)) r).

Definition next_token : M W (option RE) string :=
  λ w, let '(h, token) := token_factory (host w) in
       (Build_RunWorld (coordinator w) (calls w) (slept w) h, Ok token).

Definition run_cycle (ctx : CycleContext) : M W (option RE) (result R CE) :=
  λ w, let '((s, h), r) := cycle ctx (coordinator w, host w) in
       (Build_RunWorld s (calls w) (slept w) h, Ok r).

(** [op], when the caller keeps the error. *)
Definition op_result {A} (f : M (Store App) (DesktopError SqlError) A)
  : M W (option RE) (result A (DesktopError SqlError)) :=
  λ w, let '(s, r) := f (others (calls w) (coordinator w)) in
       (Build_RunWorld s (S (calls w)) (slept w) (host w), Ok r).

Fixpoint acquire_loop (fuel attempt : nat) (r : CoordinatedRunner) (reasons : list WakeReason)
  : M W (option RE) SqliteGrant :=
  match fuel with
  | O => fail None
  | S fuel =>
      token ←? next_token;
      a ←? op (acquire clock constraint_failed
                 {| aq_key := rn_lease_key r; aq_owner_id := rn_owner_id r; aq_token := token;
                    aq_lease_ttl_ms := rn_lease_ttl_ms r |});
      match a with
      | Acquired grant => ret grant
      | ABusy busy =>
          let elapsed_ms := N.min u64_max (elapsed attempt) in
          if (rn_busy_wait_budget_ms r <=? elapsed_ms)%N
          then fail (Some (EBusy reasons (bi_retry_after_ms busy) (bi_wake_generation busy)
                             (bi_handled_generation busy)))
          else
            let remaining_budget := (rn_busy_wait_budget_ms r - elapsed_ms)%N in
            let delay_ms := N.min (N.min (rn_busy_retry_cap_ms r) (N.max (bi_retry_after_ms busy) 1))
                              (N.max remaining_budget 1) in
            modify (λ w, Build_RunWorld (coordinator w) (calls w) (slept w ++ [delay_ms]) (host w)) ;;?
            acquire_loop fuel (S attempt) r reasons
      end
  end.

Definition with_generations (g : SqliteGrant) (wake handled : string) : SqliteGrant :=
  {| sg_key := sg_key g; sg_owner_id := sg_owner_id g; sg_token := sg_token g; sg_fence := sg_fence g;
     sg_acquired_at_ms := sg_acquired_at_ms g; sg_expires_at_ms := sg_expires_at_ms g;
     sg_wake_generation := wake; sg_handled_generation := handled |}.

Fixpoint cycle_loop (fuel : nat) (r : CoordinatedRunner) (reasons : list WakeReason) (grant : SqliteGrant)
    (completed : list (CompletedCycle R)) : M W (option RE) (list (CompletedCycle R)) :=
  match fuel with
  | O => fail None
  | S fuel =>
      now ←? op (coordinator_now_ms clock);
      let ctx := {| cc_reasons := reasons; cc_owner_id := rn_owner_id r; cc_lease_key := rn_lease_key r;
                    cc_fence := sg_fence grant; cc_wake_generation := sg_wake_generation grant;
                    cc_deadline_ms := saturating_add_u64 now (rn_cycle_budget_ms r);
                    cc_grant := grant |} in
      value ←? run_cycle ctx;
      match value with
      | Err error =>
          released ←? op_result (release_lease clock constraint_failed (desktop_grant grant));
          fail (Some (ECycle (Build_CycleFailure error
                  (match released with Err e => Some e | Ok _ => None end)
                  reasons (sg_fence grant) (sg_wake_generation grant))))
      | Ok value =>
          completion ←? op (complete_lease clock constraint_failed grant (sg_wake_generation grant));
          let completed := completed ++ [Build_CompletedCycle value reasons (sg_fence grant)
                                           (sg_wake_generation grant) (cm_handled_generation completion)] in
          if cm_released completion then ret completed
          else
            renewed ←? op (renew clock constraint_failed grant (rn_lease_ttl_ms r));
            match renewed with
            | None => fail (Some (ECoordinator StaleFence))
            | Some grant =>
                cycle_loop fuel r reasons
                  (with_generations grant (cm_current_wake_generation completion) (cm_handled_generation completion))
                  completed
            end
      end
  end.

Definition wake_and_run (fuel : nat) (r : CoordinatedRunner) (reason : WakeReason)
  : M W (option RE) (list (CompletedCycle R)) :=
  op (signal_wake clock constraint_failed (rn_lease_key r)) ;;?
  grant ←? acquire_loop fuel 0 r [reason];
  cycle_loop fuel r [reason] grant [].
End CoordinatedRun.

(** ** Specification *)

Definition row_ok (r : Row) : Prop :=
  row_checks r = true ∧ fence r ≤ z_i64_max ∧ wake_generation r ≤ z_i64_max.

Definition rows_ok (m : gmap string Row) : Prop := map_Forall (λ _ r, row_ok r) m.

(** What only ever grows in a row. *)
Definition row_le (r r' : Row) : Prop :=
  fence r ≤ fence r' ∧ wake_generation r ≤ wake_generation r' ∧ handled_generation r ≤ handled_generation r'.

(** No row disappears and nothing in it goes back. *)
Definition rows_le (m m' : gmap string Row) : Prop :=
  ∀ k r, m !! k = Some r → ∃ r', m' !! k = Some r' ∧ row_le r r'.

(** The row a transaction finds for a key: its own or a fresh one. *)
Definition row_at {App} (s : Store App) (key : string) (now_ms : Z) : Row :=
  default (empty_row now_ms) (rows (db s) !! key).

(** The calls of any number of coordinators on one database. *)
Inductive CoordinatorCall :=
| CSignal (key : string)
| CAcquire (request : AcquireRequest)
| CRenew (grant : SqliteGrant) (ttl_ms : N)
| CComplete (grant : SqliteGrant) (observed : string)
| CRelease (grant : LeaseGrant)
| CAssert (grant : LeaseGrant)
| CRead (key : string).

Section CallSpec.
Context {SqlError App : Type}.
Context (clock : nat → result Z SqlError) (constraint_failed : SqlError).

Definition coordinator_step (c : CoordinatorCall) (s : Store App) : Store App :=
  match c with
  | CSignal key => (signal_wake clock constraint_failed key s).1
  | CAcquire request => (acquire clock constraint_failed request s).1
  | CRenew grant ttl_ms => (renew clock constraint_failed grant ttl_ms s).1
  | CComplete grant observed => (complete_lease clock constraint_failed grant observed s).1
  | CRelease grant => (release_lease clock constraint_failed grant s).1
  | CAssert grant => (assert_current_fence clock grant s).1
  | CRead key => (read_state clock key s).1
  end.
End CallSpec.

(** ** Lemmas: values *)

Lemma rows_le_refl m : rows_le m m.
Proof. intros k r Hr. exists r. split; [done|]. unfold row_le. lia. Qed.

Lemma rows_le_trans m1 m2 m3 : rows_le m1 m2 → rows_le m2 m3 → rows_le m1 m3.
Proof.
  intros H1 H2 k r Hr. destruct (H1 k r Hr) as (r2 & Hr2 & Hle2). destruct (H2 k r2 Hr2) as (r3 & Hr3 & Hle3).
  exists r3. split; [done|]. unfold row_le in *. lia.
Qed.

(** A row that is written over the one found only has to be checked itself. *)
Lemma rows_ok_insert m k r : rows_ok m → row_ok r → rows_ok (<[k := r]> m).
Proof. intros Hm Hr. by apply map_Forall_insert_2. Qed.

Lemma rows_le_insert m k r : (∀ r0, m !! k = Some r0 → row_le r0 r) → rows_le m (<[k := r]> m).
Proof.
  intros Hle k' r' Hr'. destruct (decide (k' = k)) as [->|Hne].
  - exists r. rewrite lookup_insert_eq. eauto.
  - exists r'. rewrite lookup_insert_ne by done. split; [done|]. unfold row_le. lia.
Qed.

Lemma empty_row_ok now : 0 ≤ now → row_ok (empty_row now).
Proof.
  intros H. unfold row_ok, row_checks, z_i64_max. cbn [empty_row fence expires_at_ms wake_generation
    handled_generation updated_at_ms]. rewrite !andb_true_iff, !Z.leb_le. lia.
Qed.

Lemma i64_to_string_nonneg z : 0 ≤ z → i64_to_string z = to_dec (Z.to_N z).
Proof. intros H. unfold i64_to_string. destruct (Z.ltb_spec z 0); [lia|done]. Qed.

Section ValueLemmas.
Context {SqlError : Type}.

Lemma parse_decimal_ok name s z : parse_decimal (SqlError := SqlError) name s = Ok z ↔
  0 ≤ z ≤ z_i64_max ∧ s = i64_to_string z.
Proof.
  unfold parse_decimal.
  replace (is_empty s || negb (all_bytes is_ascii_digit s) || ((1 <? len s)%N && starts_with "0" s))
    with (negb (canonical_decimal s))
    by (unfold canonical_decimal; rewrite negb_involutive; destruct (is_empty s), (all_bytes is_ascii_digit s), ((1 <? len s)%N && starts_with "0" s); done).
  destruct (canonical_decimal s) eqn:Hc; cbn [negb].
  - rewrite (parse_i64_canonical s Hc). unfold z_i64_max. change 9223372036854775807 with (Z.of_N i64_max).
    destruct (N.leb_spec (decimal_of s) i64_max) as [Hle|Hgt].
    + split.
      * intros [= <-]. split; [lia|]. rewrite i64_to_string_nonneg, N2Z.id by lia. by rewrite to_dec_decimal_of.
      * intros [Hz ->]. rewrite i64_to_string_nonneg, decimal_of_to_dec by lia. f_equal. lia.
    + split; [done|]. intros [Hz ->]. rewrite i64_to_string_nonneg, decimal_of_to_dec in Hgt by lia. lia.
  - split; [done|]. intros [Hz ->]. by rewrite i64_to_string_nonneg, canonical_to_dec in Hc by lia.
Qed.

Lemma i64_to_string_inj a b : 0 ≤ a → 0 ≤ b → i64_to_string a = i64_to_string b → a = b.
Proof.
  intros Ha Hb. rewrite !i64_to_string_nonneg by done. intros H%(f_equal decimal_of).
  rewrite !decimal_of_to_dec in H. lia.
Qed.
End ValueLemmas.

(** ** Lemmas: transactions *)

Section StepLemmas.
Context {SqlError App : Type}.
Context (clock : nat → result Z SqlError) (constraint_failed : SqlError).
Implicit Types s : Store App.

Lemma store_now_ok s s' now : store_now_ms clock s = (s', Ok now) →
  s' = Build_Store (db s) (S (ticks s)) ∧ clock (ticks s) = Ok now ∧ 0 ≤ now.
Proof.
  unfold store_now_ms. destruct (clock (ticks s)) as [z|e]; [|done].
  destruct (Z.ltb_spec z 0); [done|]. by intros [= <- <-].
Qed.

Lemma transaction_err {A} (body : M (Store App) (DesktopError SqlError) A) s s' e :
  transaction body s = (s', Err e) → db s' = db s.
Proof. unfold transaction. destruct (body s) as [s1 [a|e']]; [done|]. by intros [= <- <-]. Qed.

Lemma transaction_ok {A} (body : M (Store App) (DesktopError SqlError) A) s s' a :
  transaction body s = (s', Ok a) → body s = (s', Ok a).
Proof. unfold transaction. by destruct (body s) as [s1 [a'|e']]. Qed.

(** A validated transaction that fails leaves the database alone. *)
Lemma lift_transaction_err {A B} (r : result A (DesktopError SqlError)) (k : A → M (Store App) _ B) s s' e :
  (∀ a, k a s = (s', Err e) → db s' = db s) →
  bind (lift r) k s = (s', Err e) → db s' = db s.
Proof. intros Hk. unfold bind, lift. destruct r as [a|e']; [apply Hk|by intros [= <- _]]. Qed.

Lemma lift_ok {A} (r : result A (DesktopError SqlError)) s s' a :
  lift r s = (s', Ok a) → s' = s ∧ r = Ok a.
Proof. unfold lift. by intros [= -> ->]. Qed.

(** A store with the same application data, another row and another tick. *)
Definition with_row key (r : Row) (n : nat) s : Store App :=
  Build_Store (Build_Db (<[key := r]> (rows (db s))) (app (db s))) n.

Lemma ensure_read key now s s1 s2 r u :
  ensure_row (SqlError := SqlError) key now s = (s1, Ok u) →
  read_row (SqlError := SqlError) key s1 = (s2, Ok r) →
  s2 = s1 ∧ r = row_at s key now ∧ s1 = with_row key r (ticks s) s.
Proof.
  unfold ensure_row, read_row, set_rows, modify, row_at, with_row, ok_or. intros [= <- _]. cbn.
  destruct (rows (db s) !! key) as [r0|] eqn:Hr.
  - rewrite Hr. intros [= <- <-]. cbn. rewrite insert_id by done. done.
  - rewrite lookup_insert_eq. intros [= <- <-]. done.
Qed.

Lemma read_row_ok key s s' r : read_row (SqlError := SqlError) key s = (s', Ok r) →
  s' = s ∧ rows (db s) !! key = Some r.
Proof. unfold read_row, ok_or. by destruct (rows (db s) !! key); intros [= -> ->]. Qed.

Lemma update_row_ok key cond f s s' n : update_row constraint_failed key cond f s = (s', Ok n) →
  match rows (db s) !! key with
  | Some r => if cond r then row_checks (f r) = true ∧ n = 1%N ∧ s' = with_row key (f r) (ticks s) s
              else n = 0%N ∧ s' = s
  | None => n = 0%N ∧ s' = s
  end.
Proof.
  unfold update_row. destruct (rows (db s) !! key) as [r|]; [|by intros [= <- <-]].
  destruct (cond r); [|by intros [= <- <-]].
  destruct (row_checks (f r)); [by intros [= <- <-]|done].
Qed.

(** Updating the row that was just found or inserted. *)
Lemma update_with_row key r t f s s' n :
  update_row constraint_failed key (λ _, true) f (with_row key r t s) = (s', Ok n) →
  row_checks (f r) = true ∧ s' = with_row key (f r) t s.
Proof.
  intros H%update_row_ok. unfold with_row in *. cbn in H. rewrite lookup_insert_eq in H.
  destruct H as (Hc & _ & ->). split; [done|]. by rewrite insert_insert_eq.
Qed.

Lemma with_row_id key r t s : rows (db s) !! key = Some r → db (with_row key r t s) = db s.
Proof. intros Hr. unfold with_row. cbn. rewrite insert_id by done. by destruct (db s). Qed.

Lemma row_at_owned key now s : is_some (owner_token (row_at s key now)) = true →
  rows (db s) !! key = Some (row_at s key now).
Proof. unfold row_at. by destruct (rows (db s) !! key). Qed.

Lemma non_negative_ok z name n : non_negative_i64 (SqlError := SqlError) z name = Ok n → 0 ≤ z ∧ n = Z.to_N z.
Proof. unfold non_negative_i64. destruct (Z.ltb_spec z 0); [done|]. by intros [= <-]. Qed.

Lemma read_with_row key r t s s' r' :
  read_row (SqlError := SqlError) key (with_row key r t s) = (s', Ok r') →
  s' = with_row key r t s ∧ r' = r.
Proof. intros [-> H]%read_row_ok. unfold with_row in H. cbn in H. rewrite lookup_insert_eq in H. by injection H. Qed.

Lemma guard_ok (b : bool) e s s' u :
  (if b then fail e else ret () : M (Store App) (DesktopError SqlError) unit) s = (s', Ok u) → s' = s ∧ b = false.
Proof. destruct b; [done|]. by intros [= <- _]. Qed.

Lemma owned_row_ok g f now s s' r :
  read_owned_unexpired_row (SqlError := SqlError) g f now s = (s', Ok r) →
  s' = s ∧ rows (db s) !! gr_key g = Some r ∧ owner_token r = Some (gr_token g) ∧ fence r = f ∧
  now < expires_at_ms r.
Proof.
  unfold read_owned_unexpired_row. intros H. run_ok H. apply read_row_ok in Hrun as [-> Hr].
  destruct (_ || _) eqn:Hc; [done|]. injection H as <- <-. bsimp. done.
Qed.
End StepLemmas.

(** ** Lemmas: what each operation does to the database *)

Ltac op_err :=
  repeat (apply lift_transaction_err; intros ?);
  apply transaction_err.

(** Takes apart a successful, validated transaction. *)
Ltac open_lifts H :=
  repeat (let H1 := fresh "Hval" in
          apply bind_ok in H as (? & ? & H1 & H); apply lift_ok in H1 as [-> H1]).

Section OpLemmas.
Context {SqlError App : Type}.
Context (clock : nat → result Z SqlError) (constraint_failed : SqlError).
Implicit Types s : Store App.

Lemma signal_wake_err key s s' e : signal_wake clock constraint_failed key s = (s', Err e) → db s' = db s.
Proof. unfold signal_wake. op_err. Qed.

Lemma acquire_err req s s' e : acquire clock constraint_failed req s = (s', Err e) → db s' = db s.
Proof. unfold acquire. op_err. Qed.

Lemma renew_err g ttl s s' e : renew clock constraint_failed g ttl s = (s', Err e) → db s' = db s.
Proof. unfold renew. op_err. Qed.

Lemma complete_err g o s s' e : complete_lease clock constraint_failed g o s = (s', Err e) → db s' = db s.
Proof. unfold complete_lease. op_err. Qed.

Lemma release_err g s s' e : release_lease clock constraint_failed g s = (s', Err e) → db s' = db s.
Proof. unfold release_lease. op_err. Qed.

Lemma assert_err g s s' e : assert_current_fence clock g s = (s', Err e) → db s' = db s.
Proof. unfold assert_current_fence. op_err. Qed.

Lemma read_state_err key s s' e : read_state clock key s = (s', Err e) → db s' = db s.
Proof. unfold read_state. op_err. Qed.

Lemma signal_wake_ok key s s' w : signal_wake clock constraint_failed key s = (s', Ok w) →
  ∃ now, let r := row_at s key now in
    clock (ticks s) = Ok now ∧ 0 ≤ now ∧ wake_generation r ≠ z_i64_max ∧ row_checks (set_woken now r) = true ∧
    s' = with_row key (set_woken now r) (S (ticks s)) s ∧
    wr_generation w = i64_to_string (wake_generation r + 1) ∧
    wr_handled_generation w = i64_to_string (handled_generation r) ∧
    wr_dirty w = negb (wake_generation r + 1 =? handled_generation r).
Proof.
  unfold signal_wake. intros H. open_lifts H. apply transaction_ok in H.
  run_ok H. apply store_now_ok in Hrun as (-> & Hc & Hnow).
  destruct (ensure_read _ _ _ _ _ _ _ Hrun0 Hrun1) as (-> & -> & ->). clear Hrun0 Hrun1.
  apply guard_ok in Hrun2 as [-> Hg]. apply update_with_row in Hrun3 as [Hchk ->].
  apply read_with_row in Hrun4 as [-> ->]. apply lift_ok in Hrun5 as [-> _]. injection H as <- <-.
  exists a. bsimp. done.
Qed.

Lemma acquire_ok req s s' a : acquire clock constraint_failed req s = (s', Ok a) →
  ∃ now, let r := row_at s (aq_key req) now in
    clock (ticks s) = Ok now ∧ 0 ≤ now ∧ ticks s' = S (ticks s) ∧
    match a with
    | ABusy info =>
        is_some (owner_token r) = true ∧ now < expires_at_ms r ∧ db s' = db s ∧
        bi_wake_generation info = i64_to_string (wake_generation r) ∧
        bi_handled_generation info = i64_to_string (handled_generation r)
    | Acquired g =>
        let r' := set_acquired (aq_token req) (now + Z.of_N (aq_lease_ttl_ms req)) now r in
        (is_some (owner_token r) = true → expires_at_ms r ≤ now) ∧ fence r ≠ z_i64_max ∧
        row_checks r' = true ∧ s' = with_row (aq_key req) r' (S (ticks s)) s ∧
        sg_key g = aq_key req ∧ sg_owner_id g = aq_owner_id req ∧ sg_token g = aq_token req ∧
        sg_fence g = i64_to_string (fence r + 1) ∧
        sg_wake_generation g = i64_to_string (wake_generation r) ∧
        sg_handled_generation g = i64_to_string (handled_generation r) ∧
        sg_expires_at_ms g = Z.to_N (now + Z.of_N (aq_lease_ttl_ms req))
    end.
Proof.
  unfold acquire. intros H. open_lifts H. apply transaction_ok in H.
  run_ok H. apply store_now_ok in Hrun as (-> & Hc & Hnow).
  destruct (ensure_read _ _ _ _ _ _ _ Hrun0 Hrun1) as (-> & -> & ->). clear Hrun0 Hrun1.
  destruct (_ && _) eqn:Hbusy.
  - run_ok H. apply lift_ok in Hrun as [-> _]. injection H as <- <-. bsimp.
    exists a0. split_and!; try done.
    apply (with_row_id _ _ _ (Build_Store (db s) (S (ticks s)))). by apply row_at_owned.
  - run_ok H. apply guard_ok in Hrun as [-> Hg].
    apply lift_ok in Hrun0 as [-> Httl]. apply lift_ok in Hrun1 as [-> Hexp].
    apply update_with_row in Hrun2 as [Hchk ->]. apply read_with_row in Hrun3 as [-> ->].
    apply lift_ok in Hrun4 as [-> _]. apply lift_ok in Hrun5 as [-> Hx]. injection H as <- <-.
    unfold i64_try_from in Httl. destruct (Z.of_N _ <=? _); [|done]. injection Httl as <-.
    unfold expiry in Hexp. destruct (_ <=? _); [|done]. injection Hexp as <-.
    apply non_negative_ok in Hx as [_ ->].
    exists a0. cbn zeta. bsimp. split_and!; try done.
    intros Ho. destruct Hbusy as [Hb|Hb]; [|done]. unfold row_at in *. cbn [db] in *. congruence.
Qed.

Lemma renew_ok g ttl s s' o : renew clock constraint_failed g ttl s = (s', Ok o) →
  ∃ now, clock (ticks s) = Ok now ∧ 0 ≤ now ∧ ticks s' = S (ticks s) ∧
  match o with
  | None => db s' = db s
  | Some g' =>
      ∃ r, let r' := set_renewed (now + Z.of_N ttl) now r in
        rows (db s) !! sg_key g = Some r ∧ owner_token r = Some (sg_token g) ∧
        i64_to_string (fence r) = sg_fence g ∧ now < expires_at_ms r ∧
        row_checks r' = true ∧ s' = with_row (sg_key g) r' (S (ticks s)) s ∧
        sg_key g' = sg_key g ∧ sg_token g' = sg_token g ∧ sg_fence g' = sg_fence g ∧ sg_owner_id g' = sg_owner_id g
  end.
Proof.
  unfold renew. intros H. open_lifts H. apply transaction_ok in H. run_ok H.
  apply store_now_ok in Hrun as (-> & Hc & Hnow). apply lift_ok in Hrun0 as [-> Hexp].
  unfold i64_try_from in Hval2. destruct (Z.of_N _ <=? _); [|done]. injection Hval2 as <-.
  unfold expiry in Hexp. destruct (_ <=? _); [|done]. injection Hexp as <-.
  apply parse_decimal_ok in Hval1 as [Hf Hfs]. apply update_row_ok in Hrun1. cbn [db ticks] in Hrun1.
  destruct (rows (db s) !! sg_key g) as [r|] eqn:Hr;
    [destruct (owned_by _ _ _ r) eqn:How|]; [destruct Hrun1 as (Hchk & -> & ->)|destruct Hrun1 as [-> ->]..].
  - change (negb (1 =? 1)%N) with false in H. cbv iota in H. run_ok H.
    apply read_with_row in Hrun as [-> ->]. apply lift_ok in Hrun0 as [-> _].
    injection H as <- <-. unfold owned_by in How. bsimp. exists a. do 3 (split; [done|]).
    exists r. cbn zeta. split_and!; try done. congruence.
  - injection H as <- <-. exists a. by split_and!.
  - injection H as <- <-. exists a. by split_and!.
Qed.

Lemma complete_ok g o s s' c : complete_lease clock constraint_failed g o s = (s', Ok c) →
  ∃ now observed r, let r' := set_completed (Z.max observed (handled_generation r))
                                (observed =? wake_generation r) now r in
    clock (ticks s) = Ok now ∧ 0 ≤ now ∧ 0 ≤ observed ≤ z_i64_max ∧ o = i64_to_string observed ∧
    rows (db s) !! sg_key g = Some r ∧ owner_token r = Some (sg_token g) ∧
    i64_to_string (fence r) = sg_fence g ∧ now < expires_at_ms r ∧ observed ≤ wake_generation r ∧
    row_checks r' = true ∧ s' = with_row (sg_key g) r' (S (ticks s)) s ∧
    cm_released c = (observed =? wake_generation r) ∧
    cm_current_wake_generation c = i64_to_string (wake_generation r) ∧
    cm_handled_generation c = i64_to_string (Z.max observed (handled_generation r)).
Proof.
  unfold complete_lease. intros H. open_lifts H. apply transaction_ok in H. run_ok H.
  apply store_now_ok in Hrun as (-> & Hc & Hnow).
  apply owned_row_ok in Hrun0 as (-> & Hr & Ho & Hf & He). cbn [db ticks desktop_grant gr_key gr_token] in *.
  apply guard_ok in Hrun1 as [-> Hg]. 
  apply update_row_ok in Hrun2. cbn [db ticks] in Hrun2. rewrite Hr in Hrun2.
  apply parse_decimal_ok in Hval0 as [Hob ->]. apply parse_decimal_ok in Hval1 as [_ Hfs].
  destruct (owned_by _ _ _ a0) eqn:How; [|destruct Hrun2 as [-> ->]; done].
  destruct Hrun2 as (Hchk & -> & ->). injection H as <- <-. bsimp.
  exists a, x1, a0. cbn zeta. rewrite Hf. split_and!; try done; lia.
Qed.

Lemma release_ok g s s' u : release_lease clock constraint_failed g s = (s', Ok u) →
  ∃ now, clock (ticks s) = Ok now ∧ 0 ≤ now ∧ ticks s' = S (ticks s) ∧
  ((∃ r, rows (db s) !! gr_key g = Some r ∧ owner_token r = Some (gr_token g) ∧
      i64_to_string (fence r) = gr_fence g ∧ row_checks (set_released now r) = true ∧
      s' = with_row (gr_key g) (set_released now r) (S (ticks s)) s)
   ∨ db s' = db s ∧ ∀ r, rows (db s) !! gr_key g = Some r → owner_token r = Some (gr_token g) →
       0 ≤ fence r → i64_to_string (fence r) ≠ gr_fence g).
Proof.
  unfold release_lease. intros H. open_lifts H. apply transaction_ok in H. run_ok H.
  apply store_now_ok in Hrun as (-> & Hc & Hnow). injection H as <- _.
  apply parse_decimal_ok in Hval0 as [Hf Hfs]. apply update_row_ok in Hrun0. cbn [db ticks] in Hrun0.
  exists a. do 2 (split; [done|]).
  destruct (rows (db s) !! gr_key g) as [r|] eqn:Hr; [destruct (_ && _) eqn:Hg|].
  - destruct Hrun0 as (Hchk & -> & ->). bsimp. split; [done|]. left. exists r. split_and!; try done. congruence.
  - destruct Hrun0 as [-> ->]. split; [done|]. right. split; [done|].
    intros r' [= <-] Ho Hpos Hfr. rewrite Hfs in Hfr. apply i64_to_string_inj in Hfr; [|lia..].
    rewrite Ho, Hfr in Hg. bsimp. by destruct Hg.
  - destruct Hrun0 as [-> ->]. split; [done|]. right. by split.
Qed.

Lemma assert_ok g s s' u : assert_current_fence clock g s = (s', Ok u) → db s' = db s.
Proof.
  unfold assert_current_fence. intros H. open_lifts H. apply transaction_ok in H. run_ok H.
  apply store_now_ok in Hrun as (-> & _). apply owned_row_ok in Hrun0 as (-> & _). by injection H as <- _.
Qed.

Lemma read_state_ok key s s' st : read_state clock key s = (s', Ok st) →
  ∃ now, 0 ≤ now ∧ s' = with_row key (row_at s key now) (S (ticks s)) s.
Proof.
  unfold read_state. intros H. open_lifts H. apply transaction_ok in H. run_ok H.
  apply store_now_ok in Hrun as (-> & _ & Hnow).
  destruct (ensure_read _ _ _ _ _ _ _ Hrun0 Hrun1) as (-> & -> & ->).
  apply lift_ok in Hrun2 as [-> _]. apply lift_ok in Hrun3 as [-> _]. injection H as <- _. by exists a.
Qed.
End OpLemmas.

(** ** Lemmas: the invariant of the table *)

Section InvariantLemmas.
Context {SqlError App : Type}.
Context (clock : nat → result Z SqlError) (constraint_failed : SqlError).
Implicit Types s : Store App.

Lemma row_at_ok key now s : rows_ok (rows (db s)) → 0 ≤ now → row_ok (row_at s key now).
Proof.
  intros Hok Hnow. unfold row_at. destruct (rows (db s) !! key) as [r|] eqn:Hr; cbn; [|by apply empty_row_ok].
  exact (Hok _ _ Hr).
Qed.

Lemma with_row_keeps key now r' t s : rows_ok (rows (db s)) → row_ok r' → row_le (row_at s key now) r' →
  rows_ok (rows (db (with_row key r' t s))) ∧ rows_le (rows (db s)) (rows (db (with_row key r' t s))).
Proof.
  intros Hok Hr Hle. unfold with_row. cbn. split; [by apply rows_ok_insert|].
  apply rows_le_insert. intros r0 Hr0. unfold row_at in Hle. by rewrite Hr0 in Hle.
Qed.

Lemma db_same s s' : rows_ok (rows (db s)) → db s' = db s →
  rows_ok (rows (db s')) ∧ rows_le (rows (db s)) (rows (db s')).
Proof. intros Hok ->. split; [done|apply rows_le_refl]. Qed.

Lemma row_at_found key now s r : rows (db s) !! key = Some r → row_at s key now = r.
Proof. unfold row_at. by intros ->. Qed.

Lemma step_keeps c s : rows_ok (rows (db s)) →
  rows_ok (rows (db (coordinator_step clock constraint_failed c s)))
  ∧ rows_le (rows (db s)) (rows (db (coordinator_step clock constraint_failed c s))).
Proof.
  intros Hok. destruct c as [key|req|g ttl|g o|g|g|key]; cbn [coordinator_step].
  - destruct (signal_wake _ _ key s) as [s' [w|e]] eqn:H; [|by apply signal_wake_err, db_same in H].
    apply signal_wake_ok in H as (now & _ & Hnow & Hmax & Hchk & -> & _).
    destruct (row_at_ok key now s Hok Hnow) as (_ & Hf & Hw).
    apply (with_row_keeps key now); [done| |]; unfold row_ok, row_le; cbn; [split_and!; [done|lia|lia]|lia].
  - destruct (acquire _ _ req s) as [s' [[info|g]|e]] eqn:H; [..|by apply acquire_err, db_same in H];
      apply acquire_ok in H as (now & _ & Hnow & _ & H).
    + destruct H as (_ & _ & Hs & _). by apply db_same.
    + destruct H as (_ & Hmax & Hchk & -> & _). destruct (row_at_ok (aq_key req) now s Hok Hnow) as (_ & Hf & Hw).
      apply (with_row_keeps _ now); [done| |]; unfold row_ok, row_le; cbn; [split_and!; [done|lia|lia]|lia].
  - destruct (renew _ _ g ttl s) as [s' [[g'|]|e]] eqn:H; [..|by apply renew_err, db_same in H];
      apply renew_ok in H as (now & _ & Hnow & _ & H); [|by apply db_same].
    destruct H as (r & Hr & _ & _ & _ & Hchk & -> & _). destruct (Hok _ _ Hr) as (_ & Hf & Hw).
    apply (with_row_keeps _ now); [done|unfold row_ok; by cbn|]. rewrite (row_at_found _ _ _ _ Hr). unfold row_le. cbn. lia.
  - destruct (complete_lease _ _ g o s) as [s' [c|e]] eqn:H; [|by apply complete_err, db_same in H].
    apply complete_ok in H as (now & ob & r & _ & Hnow & _ & _ & Hr & _ & _ & _ & _ & Hchk & -> & _).
    destruct (Hok _ _ Hr) as (_ & Hf & Hw).
    apply (with_row_keeps _ now); [done|unfold row_ok; by cbn|]. rewrite (row_at_found _ _ _ _ Hr). unfold row_le. cbn. lia.
  - destruct (release_lease _ _ g s) as [s' [u|e]] eqn:H; [|by apply release_err, db_same in H].
    apply release_ok in H as (now & _ & Hnow & _ & [(r & Hr & _ & _ & Hchk & ->)|[Hs _]]); [|by apply db_same].
    destruct (Hok _ _ Hr) as (_ & Hf & Hw).
    apply (with_row_keeps _ now); [done|unfold row_ok; by cbn|]. rewrite (row_at_found _ _ _ _ Hr). unfold row_le. cbn. lia.
  - destruct (assert_current_fence _ g s) as [s' [u|e]] eqn:H;
      [apply assert_ok in H|apply assert_err in H]; by apply db_same.
  - destruct (read_state _ key s) as [s' [st|e]] eqn:H; [|by apply read_state_err, db_same in H].
    apply read_state_ok in H as (now & Hnow & ->).
    apply (with_row_keeps _ now); [done|by apply row_at_ok|]. unfold row_le. lia.
Qed.

Lemma steps_keep cs : ∀ s, rows_ok (rows (db s)) →
  let s' := fold_left (λ s c, coordinator_step clock constraint_failed c s) cs s in
  rows_ok (rows (db s')) ∧ rows_le (rows (db s)) (rows (db s')).
Proof.
  induction cs as [|c cs IH]; intros s Hok; cbn [fold_left]; [split; [done|apply rows_le_refl]|].
  destruct (step_keeps c s Hok) as [Hok1 Hle1]. destruct (IH _ Hok1) as [Hok2 Hle2].
  split; [done|]. by eapply rows_le_trans.
Qed.

(** ** The coordinator keeps the lease contract *)

Definition sql_fence_of s (key : string) : N :=
  match rows (db s) !! key with Some r => Z.to_N (fence r) | None => 0%N end.

Definition sql_holder s (key : string) : option (string * string) :=
  match rows (db s) !! key with
  | Some r => match owner_token r with Some t => Some (t, i64_to_string (fence r)) | None => None end
  | None => None
  end.

(** The stored lease is live by the store's clock, not by the request's. *)
Definition sql_live (req : LeaseRequest) s : bool :=
  match clock (ticks s), rows (db s) !! rq_key req with
  | Ok now, Some r => is_some (owner_token r) && (now <? expires_at_ms r)
  | _, _ => false
  end.

Definition sql_ok s : Prop := rows_ok (rows (db s)).

Lemma sql_view_same s s' : db s' = db s → ∀ k, sql_holder s' k = sql_holder s k ∧ sql_fence_of s' k = sql_fence_of s k.
Proof. intros H k. unfold sql_holder, sql_fence_of. by rewrite H. Qed.

Lemma sql_limit s k : sql_ok s → (sql_fence_of s k ≤ i64_max)%N.
Proof.
  intros Hok. unfold sql_fence_of. destruct (rows (db s) !! k) as [r|] eqn:Hr; [|done].
  destruct (Hok _ _ Hr) as (_ & Hf & _). unfold z_i64_max in Hf. unfold i64_max. lia.
Qed.

Lemma sql_view_other key r t s k : k ≠ key →
  sql_holder (with_row key r t s) k = sql_holder s k ∧ sql_fence_of (with_row key r t s) k = sql_fence_of s k.
Proof. intros Hk. unfold sql_holder, sql_fence_of, with_row. cbn. by rewrite lookup_insert_ne. Qed.

Lemma row_fence_nonneg r : row_ok r → 0 ≤ fence r.
Proof. intros [Hc _]. unfold row_checks in Hc. rewrite !andb_true_iff, !Z.leb_le in Hc. lia. Qed.

Lemma sql_fence_row_at s key now : sql_fence_of s key = Z.to_N (fence (row_at s key now)).
Proof. unfold sql_fence_of, row_at. by destruct (rows (db s) !! key). Qed.
End InvariantLemmas.

Section LawLemmas.
Context {SqlError App : Type}.
Context (clock : nat → result Z SqlError) (constraint_failed : SqlError).
Implicit Types s : Store App.

Lemma sql_acquire_law req s : sql_ok s →
  let '(s', r) := raised (sqlite_try_acquire clock constraint_failed req) s in
  sql_ok s' ∧
  match r with
  | Ok (Some g) =>
      sql_live clock req s = false
      ∧ gr_key g = rq_key req ∧ gr_owner_id g = rq_owner_id req ∧ gr_token g = rq_token req
      ∧ gr_fence g = to_dec (sql_fence_of s' (rq_key req))
      ∧ sql_fence_of s' (rq_key req) = N.min i64_max (sql_fence_of s (rq_key req) + 1)
      ∧ sql_holder s' (rq_key req) = Some (gr_token g, gr_fence g)
      ∧ (∀ k, k ≠ rq_key req → sql_holder s' k = sql_holder s k ∧ sql_fence_of s' k = sql_fence_of s k)
  | _ => ∀ k, sql_holder s' k = sql_holder s k ∧ sql_fence_of s' k = sql_fence_of s k
  end.
Proof.
  intros Hok. unfold raised, sqlite_try_acquire, bind at 1.
  destruct (rq_now_ms req <=? rq_expires_at_ms req)%N; [cbn [ret]|cbn; split; [done|by intros k]].
  set (areq := {| aq_key := rq_key req; aq_owner_id := _ |}). unfold bind.
  pose proof (step_keeps clock constraint_failed (CAcquire areq) s Hok) as [Hok' _]. cbn [coordinator_step] in Hok'.
  destruct (acquire clock constraint_failed areq s) as [s' [[info|g]|e]] eqn:H; cbn [ret map_err fst] in *; (split; [exact Hok'|]).
  - apply acquire_ok in H as (now & _ & _ & _ & _ & _ & Hs & _). by apply sql_view_same.
  - apply acquire_ok in H as (now & Hc & Hnow & _ & Hfree & Hmax & _ & Hs & Hk & Ho & Ht & Hf & _).
    subst areq. cbn [aq_key aq_owner_id aq_token] in *.
    destruct (row_at_ok (rq_key req) now s Hok Hnow) as (Hchk & Hle & _).
    pose proof (row_fence_nonneg _ (row_at_ok (rq_key req) now s Hok Hnow)) as Hpos.
    assert (Hfence : sql_fence_of s' (rq_key req) = Z.to_N (fence (row_at s (rq_key req) now) + 1))
      by (rewrite Hs; unfold sql_fence_of, with_row; cbn; by rewrite lookup_insert_eq).
    rewrite Hfence. cbn [desktop_grant gr_key gr_owner_id gr_token gr_fence].
    rewrite Hf, i64_to_string_nonneg by lia. split_and!; try done.
    + unfold sql_live. rewrite Hc. cbn [rq_key]. destruct (rows (db s) !! rq_key req) as [r|] eqn:Hr; [|done].
      rewrite (row_at_found _ _ _ _ Hr) in Hfree. destruct (is_some (owner_token r)); [|done].
      cbn. apply Z.ltb_ge. by apply Hfree.
    + rewrite (sql_fence_row_at s (rq_key req) now). unfold z_i64_max in *. unfold i64_max. lia.
    + rewrite Hs. unfold sql_holder, with_row. cbn. rewrite lookup_insert_eq. cbn.
      rewrite i64_to_string_nonneg by lia. by rewrite Ht.
    + intros k Hk'. rewrite Hs. by apply sql_view_other.
  - apply acquire_err in H. by apply sql_view_same.
Qed.

Lemma sql_release_law g s : sql_ok s →
  let '(s', r) := raised (release_lease clock constraint_failed g) s in
  sql_ok s'
  ∧ (∀ k, sql_fence_of s' k = sql_fence_of s k)
  ∧ (∀ k, sql_holder s' k = sql_holder s k
       ∨ k = gr_key g ∧ sql_holder s k = Some (gr_token g, gr_fence g) ∧ sql_holder s' k = None)
  ∧ (r = Ok () → sql_holder s' (gr_key g) ≠ Some (gr_token g, gr_fence g)).
Proof.
  intros Hok. unfold raised.
  pose proof (step_keeps clock constraint_failed (CRelease g) s Hok) as [Hok' _]. cbn [coordinator_step] in Hok'.
  destruct (release_lease clock constraint_failed g s) as [s' [u|e]] eqn:H; cbn [map_err fst] in *; (split; [exact Hok'|]).
  - apply release_ok in H as (now & _ & _ & _ & [(r & Hr & Ho & Hf & _ & ->)|[Hs Hno]]).
    + split; [|split].
      * intros k. unfold sql_fence_of, with_row. cbn. destruct (decide (k = gr_key g)) as [->|Hk];
          [by rewrite lookup_insert_eq, Hr|by rewrite lookup_insert_ne by done].
      * intros k. destruct (decide (k = gr_key g)) as [->|Hk]; [right|left; by apply sql_view_other].
        unfold sql_holder, with_row. cbn. rewrite lookup_insert_eq, Hr, Ho. cbn. by rewrite Hf.
      * intros _. unfold sql_holder, with_row. cbn. by rewrite lookup_insert_eq.
    + split; [intros k; by apply sql_view_same|]. split; [intros k; left; by apply sql_view_same|].
      intros _. unfold sql_holder. rewrite Hs. destruct (rows (db s) !! gr_key g) as [r|] eqn:Hr; [|done].
      destruct (owner_token r) as [t|] eqn:Ho; [|done]. intros [= -> Hf].
      exact (Hno r eq_refl Ho (row_fence_nonneg _ (Hok _ _ Hr)) Hf).
  - apply release_err in H. split; [intros k; by apply sql_view_same|].
    split; [intros k; left; by apply sql_view_same|done].
Qed.

#[export] Instance sqlite_laws : LeaseStoreLaws (Store App) (DesktopError SqlError) (H := sqlite_store clock constraint_failed).
Proof.
  refine {| store_ok := sql_ok; fence_of := sql_fence_of; holder := sql_holder; fence_limit := i64_max;
            live := sql_live clock; law_limit := sql_limit |}.
  - intros req s Hok. exact (sql_acquire_law req s Hok).
  - intros g s Hok. exact (sql_release_law g s Hok).
Defined.
End LawLemmas.

(** ** Lemmas: wakes and the runner *)

Definition handled_of {App} (s : Store App) (key : string) : Z :=
  match rows (db s) !! key with Some r => handled_generation r | None => 0 end.

Definition wake_of {App} (s : Store App) (key : string) : Z :=
  match rows (db s) !! key with Some r => wake_generation r | None => 0 end.

(** A completion for a key that observed at least a generation. *)
Definition completes (key : string) (generation : Z) (c : CoordinatorCall) : Prop :=
  match c with
  | CComplete g o => sg_key g = key ∧ ∃ observed, o = i64_to_string observed ∧ generation ≤ observed
  | _ => False
  end.

Section WakeLemmas.
Context {SqlError App : Type}.
Context (clock : nat → result Z SqlError) (constraint_failed : SqlError).
Implicit Types s : Store App.

Lemma handled_with_row key key' r t s : handled_of (with_row key r t s) key' =
  if decide (key' = key) then handled_generation r else handled_of s key'.
Proof.
  unfold handled_of, with_row. cbn. destruct (decide (key' = key)) as [->|H];
    [by rewrite lookup_insert_eq|by rewrite lookup_insert_ne].
Qed.

Lemma wake_with_row key key' r t s : wake_of (with_row key r t s) key' =
  if decide (key' = key) then wake_generation r else wake_of s key'.
Proof.
  unfold wake_of, with_row. cbn. destruct (decide (key' = key)) as [->|H];
    [by rewrite lookup_insert_eq|by rewrite lookup_insert_ne].
Qed.

Lemma handled_row_at key now s : handled_generation (row_at s key now) = handled_of s key.
Proof. unfold handled_of, row_at. by destruct (rows (db s) !! key). Qed.

Lemma wake_row_at key now s : wake_generation (row_at s key now) = wake_of s key.
Proof. unfold wake_of, row_at. by destruct (rows (db s) !! key). Qed.

Lemma handled_db s s' key : db s' = db s → handled_of s' key = handled_of s key.
Proof. unfold handled_of. by intros ->. Qed.

Lemma wake_db s s' key : db s' = db s → wake_of s' key = wake_of s key.
Proof. unfold wake_of. by intros ->. Qed.

(** Only a completion marks wakes as handled, and only up to what it observed. *)
Lemma step_handled c s key n : handled_of s key < n →
  n ≤ handled_of (coordinator_step clock constraint_failed c s) key → completes key n c.
Proof.
  intros Hlt Hge.
  assert (Hsame : ∀ s', db s' = db s → n ≤ handled_of s' key → completes key n c)
    by (intros s' Hs'; rewrite (handled_db _ _ _ Hs'); lia).
  assert (Hrow : ∀ k r t, handled_generation r = handled_of s k →
            n ≤ handled_of (with_row k r t s) key → completes key n c)
    by (intros k r t Hr; rewrite handled_with_row; case_decide; subst; lia).
  destruct c as [k|req|g ttl|g o|g|g|k]; cbn [coordinator_step] in Hge.
  - destruct (signal_wake _ _ k s) as [s' [w|e]] eqn:H; [|by eapply Hsame, Hge; apply signal_wake_err in H].
    apply signal_wake_ok in H as (now & _ & _ & _ & _ & -> & _). eapply Hrow, Hge. apply handled_row_at.
  - destruct (acquire _ _ req s) as [s' [[info|g]|e]] eqn:H; [..|by eapply Hsame, Hge; apply acquire_err in H];
      apply acquire_ok in H as (now & _ & _ & _ & H).
    + eapply Hsame, Hge. apply H.
    + destruct H as (_ & _ & _ & -> & _). eapply Hrow, Hge. apply handled_row_at.
  - destruct (renew _ _ g ttl s) as [s' [[g'|]|e]] eqn:H; [..|by eapply Hsame, Hge; apply renew_err in H];
      apply renew_ok in H as (now & _ & _ & _ & H); [|by eapply Hsame, Hge].
    destruct H as (r & Hr & _ & _ & _ & _ & -> & _). eapply Hrow, Hge. cbn. unfold handled_of. by rewrite Hr.
  - destruct (complete_lease _ _ g o s) as [s' [c|e]] eqn:H; [|by eapply Hsame, Hge; apply complete_err in H].
    apply complete_ok in H as (now & ob & r & _ & _ & _ & -> & Hr & _ & _ & _ & _ & _ & -> & _).
    cbn [fst] in Hge. rewrite handled_with_row in Hge. cbn in Hge. case_decide as Hk; [|lia]. subst key.
    split; [done|]. exists ob. split; [done|]. unfold handled_of in Hlt. rewrite Hr in Hlt. lia.
  - destruct (release_lease _ _ g s) as [s' [u|e]] eqn:H; [|by eapply Hsame, Hge; apply release_err in H].
    apply release_ok in H as (now & _ & _ & _ & [(r & Hr & _ & _ & _ & ->)|[Hs _]]); [|by eapply Hsame, Hge].
    eapply Hrow, Hge. cbn. unfold handled_of. by rewrite Hr.
  - destruct (assert_current_fence _ g s) as [s' [u|e]] eqn:H; eapply Hsame, Hge;
      [by apply assert_ok in H|by apply assert_err in H].
  - destruct (read_state _ k s) as [s' [st|e]] eqn:H; [|by eapply Hsame, Hge; apply read_state_err in H].
    apply read_state_ok in H as (now & _ & ->). eapply Hrow, Hge. apply handled_row_at.
Qed.

Lemma steps_handled cs key n : ∀ s, handled_of s key < n →
  n ≤ handled_of (fold_left (λ s c, coordinator_step clock constraint_failed c s) cs s) key →
  Exists (completes key n) cs.
Proof.
  induction cs as [|c cs IH]; intros s Hlt Hge; cbn [fold_left] in Hge; [lia|].
  destruct (Z.lt_ge_cases (handled_of (coordinator_step clock constraint_failed c s) key) n) as [Hl|Hg].
  - right. by apply (IH _ Hl).
  - left. by apply (step_handled c s).
Qed.

Lemma fenced_write_spec {T} g (write : M (Store App) (DesktopError SqlError) T) s :
  match with_fenced_write clock g write s with
  | (s', Err _) => db s' = db s
  | (s', Ok v) =>
      ∃ s1 now now' r r', write (Build_Store (db s) (S (ticks s))) = (s1, Ok v) ∧ db s' = db s1
        ∧ clock (ticks s) = Ok now ∧ clock (ticks s1) = Ok now'
        ∧ rows (db s) !! gr_key g = Some r ∧ rows (db s1) !! gr_key g = Some r'
        ∧ owner_token r = Some (gr_token g) ∧ owner_token r' = Some (gr_token g)
        ∧ i64_to_string (fence r) = gr_fence g ∧ i64_to_string (fence r') = gr_fence g
        ∧ now < expires_at_ms r ∧ now' < expires_at_ms r'
  end.
Proof.
  destruct (with_fenced_write clock g write s) as [s' [v|e]] eqn:H; unfold with_fenced_write in H.
  - open_lifts H. apply transaction_ok in H. run_ok H.
    apply parse_decimal_ok in Hval0 as [_ Hfs].
    apply store_now_ok in Hrun as (-> & Hc & _).
    apply owned_row_ok in Hrun0 as (-> & Hr & Ho & Hf & He).
    apply store_now_ok in Hrun2 as (-> & Hc' & _).
    apply owned_row_ok in Hrun3 as (-> & Hr' & Ho' & Hf' & He'). injection H as <- <-.
    cbn [db ticks] in *. eexists _, _, _, _, _. split; [exact Hrun1|].
    split_and!; try done; congruence.
  - revert H. op_err.
Qed.
End WakeLemmas.

Section RunLemmas.
Context {SqlError App H R CE : Type}.
Context (clock : nat → result Z SqlError) (constraint_failed : SqlError).
Context (others : nat → Store App → Store App) (elapsed : nat → N).
Context (token_factory : H → H * string) (cycle : CycleContext → M (Store App * H) CE R).
Implicit Types w : RunWorld App H.

Abbreviation acq := (acquire_loop (CE := CE) clock constraint_failed others elapsed token_factory).
Abbreviation cyc := (cycle_loop clock constraint_failed others cycle).

Lemma op_ok {A} (f : M (Store App) (DesktopError SqlError) A) w w' a :
  op (CE := CE) others f w = (w', Ok a) → f (others (calls w) (coordinator w)) = (coordinator w', Ok a).
Proof. unfold op. destruct (f _) as [s [a'|e]]; [by intros [= <- <-]|done]. Qed.

Lemma acquire_loop_ok fuel : ∀ attempt r reasons w w' g, acq fuel attempt r reasons w = (w', Ok g) →
  ∃ lo, 0 ≤ lo ∧ sg_wake_generation g = i64_to_string lo ∧ sg_key g = rn_lease_key r.
Proof.
  induction fuel as [|fuel IH]; intros attempt r reasons w w' g; cbn [acquire_loop]; [done|].
  intros Ha. apply bind_ok in Ha as (w1 & token & _ & Ha). apply bind_ok in Ha as (w2 & a & Hop & Ha).
  destruct a as [busy|g'].
  - destruct (_ <=? _)%N; [done|]. apply bind_ok in Ha as (w3 & u & _ & Ha). by apply IH in Ha.
  - injection Ha as _ <-. apply op_ok, acquire_ok in Hop as (now & _ & _ & _ & _ & _ & Hchk & _ & Hk & _ & _ & _ & Hw & _).
    exists (wake_generation (row_at (others (calls w1) (coordinator w1)) (rn_lease_key r) now)).
    unfold row_checks in Hchk. rewrite !andb_true_iff, !Z.leb_le in Hchk. cbn in Hchk, Hk, Hw.
    split_and!; [lia|done|done].
Qed.

Lemma cycle_loop_ok fuel : ∀ r reasons grant completed w w' cs lo,
  0 ≤ lo → sg_wake_generation grant = i64_to_string lo →
  cyc fuel r reasons grant completed w = (w', Ok cs) →
  ∃ new ws row, cs = completed ++ new
    ∧ Forall2 (λ c z, cd_wake_generation c = i64_to_string z ∧ cd_fence c = sg_fence grant ∧ cd_reasons c = reasons) new ws
    ∧ StronglySorted Z.lt ws ∧ Forall (Z.le lo) ws
    ∧ rows (db (coordinator w')) !! sg_key grant = Some row
    ∧ owner_token row = None ∧ i64_to_string (fence row) = sg_fence grant
    ∧ last ws = Some (wake_generation row) ∧ handled_generation row = wake_generation row.
Proof.
  induction fuel as [|fuel IH]; intros r reasons grant completed w w' cs lo Hlo Hw; cbn [cycle_loop]; [done|].
  intros Hc. apply bind_ok in Hc as (w1 & now & _ & Hc). apply bind_ok in Hc as (w2 & value & _ & Hc).
  destruct value as [value|error]; [|by apply bind_ok in Hc as (? & ? & _ & Hc)].
  apply bind_ok in Hc as (w3 & cm & Hop & Hc).
  apply op_ok, complete_ok in Hop as (now' & ob & row & _ & _ & Hob & Heq & Hr & Ho & Hf & _ & Hle & Hchk & Hs & Hrel & Hcur & _).
  rewrite Hw in Heq. apply i64_to_string_inj in Heq as <-; [|lia..].
  destruct (cm_released cm).
  - injection Hc as <- <-. eexists [_], [lo], _. rewrite Hs. unfold with_row. cbn [db rows].
    rewrite lookup_insert_eq. split; [done|]. symmetry in Hrel. apply Z.eqb_eq in Hrel.
    unfold row_checks in Hchk. rewrite !andb_true_iff, !Z.leb_le in Hchk. cbn in Hchk.
    split; [by repeat constructor|]. split; [by repeat constructor|].
    split; [constructor; [lia|constructor]|]. split; [done|]. cbn. rewrite Hrel, Z.eqb_refl.
    split_and!; try done. lia.
  - apply bind_ok in Hc as (w4 & renewed & Hop & Hc). destruct renewed as [g'|]; [|done].
    apply op_ok, renew_ok in Hop as (now2 & _ & _ & _ & r2 & _ & _ & _ & _ & _ & _ & Hk & _ & Hf2 & _).
    symmetry in Hrel. apply Z.eqb_neq in Hrel.
    apply (IH _ _ _ _ _ _ _ (wake_generation row)) in Hc; [|lia|exact Hcur].
    destruct Hc as (new & ws & row' & -> & Hall & Hsort & Hlow & Hrow & Hown & Hfr & Hlast & Hh).
    cbn [with_generations sg_key sg_fence] in *. rewrite Hk in Hrow. rewrite Hf2 in *.
    eexists (_ :: new), (lo :: ws), row'. rewrite <- app_assoc. split; [done|].
    split; [by constructor|]. split.
    + constructor; [done|]. eapply Forall_impl; [exact Hlow|]. cbn. lia.
    + split; [constructor; [lia|]; eapply Forall_impl; [exact Hlow|]; cbn; lia|].
      split_and!; try done. by destruct ws.
Qed.
End RunLemmas.

(** ** Lemmas: the runner's loops end *)

Section TerminationLemmas.
Context {SqlError App : Type}.
Context (clock : nat → result Z SqlError) (constraint_failed : SqlError).
Implicit Types s : Store App.

(** Only a signal moves a wake generation. *)
Lemma acquire_wake req s key : wake_of (acquire clock constraint_failed req s).1 key = wake_of s key.
Proof.
  destruct (acquire _ _ req s) as [s' [[info|g]|e]] eqn:H; cbn [fst];
    [| |by apply wake_db; apply acquire_err in H]; apply acquire_ok in H as (now & _ & _ & _ & H).
  - by apply wake_db, H.
  - destruct H as (_ & _ & _ & -> & _). rewrite wake_with_row. cbn. case_decide; [|done]. subst. apply wake_row_at.
Qed.

Lemma now_wake s key : wake_of (coordinator_now_ms clock s).1 key = wake_of s key.
Proof.
  apply wake_db. unfold coordinator_now_ms, bind, store_now_ms, lift.
  destruct (clock (ticks s)) as [z|e]; [|done]. by destruct (z <? 0).
Qed.

Lemma found_wake key key' r r' t s : rows (db s) !! key = Some r → wake_generation r' = wake_generation r →
  wake_of (with_row key r' t s) key' = wake_of s key'.
Proof.
  intros Hr Hw. rewrite wake_with_row. case_decide; [|done]. subst. unfold wake_of. by rewrite Hr.
Qed.

Lemma renew_wake g ttl s key : wake_of (renew clock constraint_failed g ttl s).1 key = wake_of s key.
Proof.
  destruct (renew _ _ g ttl s) as [s' [[g'|]|e]] eqn:H; cbn [fst]; [| |by apply wake_db; apply renew_err in H];
    apply renew_ok in H as (now & _ & _ & _ & H); [|by apply wake_db].
  destruct H as (r & Hr & _ & _ & _ & _ & -> & _). by apply (found_wake _ _ r).
Qed.

Lemma complete_wake g o s key : wake_of (complete_lease clock constraint_failed g o s).1 key = wake_of s key.
Proof.
  destruct (complete_lease _ _ g o s) as [s' [c|e]] eqn:H; cbn [fst]; [|by apply wake_db; apply complete_err in H].
  apply complete_ok in H as (now & ob & r & _ & _ & _ & _ & Hr & _ & _ & _ & _ & _ & -> & _).
  by apply (found_wake _ _ r).
Qed.

Lemma signal_wake_le key s G : wake_of s key + 1 ≤ G →
  wake_of (signal_wake clock constraint_failed key s).1 key ≤ G.
Proof.
  intros HG.
  destruct (signal_wake _ _ key s) as [s' [w|e]] eqn:H; cbn [fst].
  - apply signal_wake_ok in H as (now & _ & _ & _ & _ & -> & _).
    rewrite wake_with_row, decide_True by done. cbn. by rewrite wake_row_at.
  - apply signal_wake_err in H. rewrite (wake_db _ _ _ H). lia.
Qed.
End TerminationLemmas.

Section RunTermination.
Context {SqlError App H R CE : Type}.
Context (clock : nat → result Z SqlError) (constraint_failed : SqlError).
Context (others : nat → Store App → Store App) (elapsed : nat → N).
Context (token_factory : H → H * string) (cycle : CycleContext → M (Store App * H) CE R).
Context (key : string) (G : Z).
Context (Hothers : ∀ n s, wake_of s key ≤ G → wake_of (others n s) key ≤ G).
Context (Hcycle : ∀ ctx s h, wake_of s key ≤ G → wake_of (cycle ctx (s, h)).1.1 key ≤ G).
Implicit Types w : RunWorld App H.

Definition quiet w : Prop := wake_of (coordinator w) key ≤ G.

Lemma op_quiet {A} (f : M (Store App) (DesktopError SqlError) A) w :
  (∀ s, wake_of (f s).1 key = wake_of s key) → quiet w → quiet (op (CE := CE) others f w).1.
Proof.
  unfold quiet, op. intros Hf Hq. specialize (Hf (others (calls w) (coordinator w))).
  destruct (f _) as [s r]. cbn in *. rewrite Hf. by apply Hothers.
Qed.

Lemma op_no_fuel {A} (f : M (Store App) (DesktopError SqlError) A) w : (op (CE := CE) others f w).2 ≠ Err None.
Proof. unfold op. by destruct (f _) as [s [a|e]]. Qed.

Lemma bind_no_fuel {A B} (m : M (RunWorld App H) (option (RunError CE SqlError)) A)
    (k : A → M (RunWorld App H) (option (RunError CE SqlError)) B) w :
  (m w).2 ≠ Err None → (∀ w1 a, m w = (w1, Ok a) → (k a w1).2 ≠ Err None) → (bind m k w).2 ≠ Err None.
Proof. unfold bind. destruct (m w) as [w1 [a|e]]; cbn; [|congruence]. intros _ Hk. by apply Hk. Qed.

Lemma acquire_loop_ends fuel : ∀ attempt r reasons w,
  quiet w → (∃ n, attempt ≤ n < attempt + fuel ∧ (rn_busy_wait_budget_ms r <= N.min u64_max (elapsed n))%N)%nat →
  let '(w', res) := acquire_loop (CE := CE) clock constraint_failed others elapsed token_factory fuel attempt r reasons w in
  quiet w' ∧ res ≠ Err None.
Proof.
  induction fuel as [|fuel IH]; intros attempt r reasons w Hq (n & Hn & Hel); [lia|].
  cbn [acquire_loop]. unfold next_token, bind at 1. destruct (token_factory (host w)) as [h token].
  set (w1 := Build_RunWorld _ _ _ h). assert (Hq1 : quiet w1) by done.
  set (areq := {| aq_key := rn_lease_key r; aq_owner_id := rn_owner_id r; aq_token := token; aq_lease_ttl_ms := rn_lease_ttl_ms r |}).
  pose proof (op_quiet (acquire clock constraint_failed areq) w1 (λ s, acquire_wake clock constraint_failed areq s key) Hq1) as Hq2.
  pose proof (op_no_fuel (acquire clock constraint_failed areq) w1) as Hnf.
  unfold bind at 1. destruct (op others (acquire clock constraint_failed areq) w1) as [w2 [[busy|grant]|e]]; cbn [fst snd] in *.
  - destruct (rn_busy_wait_budget_ms r <=? N.min u64_max (elapsed attempt))%N eqn:Hb; [done|]. bsimp.
    apply IH; [done|]. exists n. split; [|done].
    destruct (decide (n = attempt)) as [->|Hne]; [lia|]. lia.
  - done.
  - split; [done|]. congruence.
Qed.

Lemma cycle_loop_ends fuel : ∀ r reasons grant completed w lo,
  quiet w → sg_key grant = key → 0 ≤ lo → sg_wake_generation grant = i64_to_string lo → (Z.to_nat (G - lo) < fuel)%nat →
  (cycle_loop clock constraint_failed others cycle fuel r reasons grant completed w).2 ≠ Err None.
Proof.
  induction fuel as [|fuel IH]; intros r reasons grant completed w lo Hq Hkey Hlo Hw Hfuel; [lia|].
  cbn [cycle_loop]. apply bind_no_fuel; [apply op_no_fuel|]. intros w1 now H1.
  pose proof (op_quiet (coordinator_now_ms clock) w (λ s, now_wake clock s key) Hq) as Hq1.
  rewrite H1 in Hq1. cbn [fst] in Hq1. clear H1. unfold bind at 1, run_cycle.
  match goal with |- context [cycle ?c _] => pose proof (Hcycle c (coordinator w1) (host w1) Hq1) as Hqc end.
  destruct (cycle _ _) as [[s2 h2] [value|error]]; cbn [fst] in Hqc.
  - apply bind_no_fuel; [apply op_no_fuel|]. intros w3 cm Hop.
    match type of Hop with op _ ?f ?w2 = _ =>
      pose proof (op_quiet f w2 (λ s, complete_wake clock constraint_failed grant _ s key) Hqc) as Hq3 end.
    rewrite Hop in Hq3. cbn [fst] in Hq3.
    apply op_ok, complete_ok in Hop as (now' & ob & row & _ & _ & Hob & Heq & Hr & _ & _ & _ & Hle & _ & Hs & Hrel & Hcur & _).
    rewrite Hw in Heq. apply i64_to_string_inj in Heq as <-; [|lia..].
    destruct (cm_released cm); [done|]. symmetry in Hrel. apply Z.eqb_neq in Hrel.
    apply bind_no_fuel; [apply op_no_fuel|]. intros w4 [g'|] Hop; [|done].
    pose proof (op_quiet (renew clock constraint_failed grant (rn_lease_ttl_ms r)) w3 (λ s, renew_wake clock constraint_failed grant _ s key) Hq3) as Hq4.
    rewrite Hop in Hq4. apply op_ok, renew_ok in Hop as (_ & _ & _ & _ & _ & _ & _ & _ & _ & _ & _ & Hk & _).
    assert (Hrow : wake_generation row ≤ G).
    { unfold quiet in Hq3. rewrite Hs, wake_with_row, decide_True in Hq3 by done. exact Hq3. }
    apply (IH _ _ _ _ _ (wake_generation row)); [done|by cbn; rewrite Hk|lia|exact Hcur|lia].
  - apply bind_no_fuel; [unfold op_result; by destruct (release_lease _ _ _ _)|]. intros; cbn; congruence.
Qed.
End RunTermination.

(** ** Closed examples *)

(** A clock that ticks every 100 ms, and an application without data. *)
Definition demo_clock (n : nat) : result Z string := Ok (1000 + 100 * Z.of_nat n).
Definition demo_db : Store unit := Build_Store (Build_Db ∅ ()) 0.

Definition demo_coordinated : CoordinatedRunner :=
  {| rn_lease_key := "queue"; rn_owner_id := "desktop"; rn_cycle_budget_ms := 1000; rn_lease_ttl_ms := 5000;
     rn_busy_retry_cap_ms := 250; rn_busy_wait_budget_ms := 1000 |}.

Definition demo_tokens (n : N) : N * string := ((n + 1)%N, "token-" +:+ to_dec n).

(** The first cycle is interrupted by a local wake, the second one is not. *)
Definition demo_sync (ctx : CycleContext) : M (Store unit * N) string string :=
  λ '(s, h), if cc_wake_generation ctx == "1"
             then ((signal_wake demo_clock "constraint" "queue" s).1, h, Ok "first")
             else (s, h, Ok "again").

Definition demo_world : RunWorld unit N := Build_RunWorld demo_db 0 [] 0%N.

Example demo_wake_and_run :
  let '(w, res) := wake_and_run demo_clock "constraint" (λ _ s, s) (λ _, 0%N) demo_tokens demo_sync
                     5 demo_coordinated Manual demo_world in
  (List.map (λ c, (cd_value c, cd_fence c, cd_wake_generation c, cd_handled_generation c))
     (default [] (ok res)),
   wake_of (coordinator w) "queue", handled_of (coordinator w) "queue", sql_holder (coordinator w) "queue")
  = ([("first", "1", "1", "1"); ("again", "1", "2", "2")], 2, 2, None).
Proof. vm_compute. reflexivity. Qed.

Definition demo_held : Store unit :=
  (coordinator_step demo_clock "constraint"
     (CAcquire {| aq_key := "queue"; aq_owner_id := "o"; aq_token := "t"; aq_lease_ttl_ms := 5000 |}) demo_db).

(** Another owner finds it busy; a stale fence writes nothing. *)
Example demo_busy_and_stale :
  (sql_holder demo_held "queue",
   (acquire demo_clock "constraint"
      {| aq_key := "queue"; aq_owner_id := "p"; aq_token := "u"; aq_lease_ttl_ms := 5000 |} demo_held).2,
   (with_fenced_write demo_clock
      {| gr_key := "queue"; gr_owner_id := "o"; gr_token := "t"; gr_fence := "2"; gr_expires_at_ms := 0 |}
      (ret 5) demo_held).2)
  = (Some ("t", "1"),
     Ok (ABusy {| bi_retry_after_ms := 4900; bi_wake_generation := "0"; bi_handled_generation := "0" |}),
     Err StaleFence).
Proof. vm_compute. reflexivity. Qed.

(** ** Properties *)

(** From an empty table, whatever calls any coordinators make and whatever
    the clock reads, every row satisfies the table's constraints and stays in
    SQLite's integers, rows never disappear, and no fence, wake generation or
    handled generation ever goes back. *)
Theorem coordinator_invariant {SqlError App} (clock : nat → result Z SqlError) constraint_failed (a : App) cs cs' :
  let run cs s := fold_left (λ s c, coordinator_step clock constraint_failed c s) cs s in
  let s := run cs (Build_Store (Build_Db ∅ a) 0) in
  rows_ok (rows (db (run cs' s))) ∧ rows_le (rows (db s)) (rows (db (run cs' s))).
Proof.
  cbv zeta. apply steps_keep. apply steps_keep. cbn. apply map_Forall_empty.
Qed.

(** C25: a signalled wake is not lost: its receipt names a generation that is
    still to be handled, and if any calls later leave the row with that
    generation handled, one of them is a completion of that key which observed
    it or a newer one. *)
Theorem wakes_not_lost {SqlError App} (clock : nat → result Z SqlError) constraint_failed
    (s s' : Store App) key receipt cs :
  rows_ok (rows (db s)) → signal_wake clock constraint_failed key s = (s', Ok receipt) →
  wr_generation receipt = i64_to_string (wake_of s' key) ∧ wr_dirty receipt = true
  ∧ handled_of s' key < wake_of s' key ∧
  (wake_of s' key ≤ handled_of (fold_left (λ s c, coordinator_step clock constraint_failed c s) cs s') key →
   Exists (completes key (wake_of s' key)) cs).
Proof.
  intros Hok H. apply signal_wake_ok in H as (now & _ & Hnow & _ & _ & -> & Hg & _ & Hd).
  destruct (row_at_ok key now s Hok Hnow) as (Hchk & _ & _).
  unfold row_checks in Hchk. rewrite !andb_true_iff, !Z.leb_le in Hchk.
  rewrite wake_with_row, handled_with_row, !decide_True by done. cbn.
  assert (Hlt : handled_generation (row_at s key now) < wake_generation (row_at s key now) + 1) by lia.
  split; [done|]. split; [rewrite Hd; bsimp; lia|]. split; [done|].
  intros Hge. refine (steps_handled clock constraint_failed cs key _ _ _ Hge).
  by rewrite handled_with_row, decide_True.
Qed.

Lemma wakes_not_lost_witness :
  let s' := (signal_wake demo_clock "constraint" "queue" demo_db).1 in
  let grant := {| sg_key := "queue"; sg_owner_id := "o"; sg_token := "t"; sg_fence := "1"; sg_acquired_at_ms := 0;
                  sg_expires_at_ms := 0; sg_wake_generation := "1"; sg_handled_generation := "0" |} in
  let cs := [CAcquire {| aq_key := "queue"; aq_owner_id := "o"; aq_token := "t"; aq_lease_ttl_ms := 5000 |};
             CComplete grant "1"] in
  wake_of s' "queue" ≤ handled_of (fold_left (λ s c, coordinator_step demo_clock "constraint" c s) cs s') "queue" ∧
  Exists (completes "queue" (wake_of s' "queue")) cs.
Proof.
  cbv zeta.
  destruct (wakes_not_lost demo_clock "constraint" demo_db
    (signal_wake demo_clock "constraint" "queue" demo_db).1 "queue"
    {| wr_generation := "1"; wr_handled_generation := "0"; wr_dirty := true; wr_retry_after_ms := 0 |}
    [CAcquire {| aq_key := "queue"; aq_owner_id := "o"; aq_token := "t"; aq_lease_ttl_ms := 5000 |};
     CComplete {| sg_key := "queue"; sg_owner_id := "o"; sg_token := "t"; sg_fence := "1"; sg_acquired_at_ms := 0;
                  sg_expires_at_ms := 0; sg_wake_generation := "1"; sg_handled_generation := "0" |} "1"])
    as (_ & _ & _ & H).
  - apply map_Forall_empty.
  - vm_compute. reflexivity.
  - split; [vm_compute; discriminate|]. apply H. vm_compute. discriminate.
Defined.

(** A fenced write is all or nothing.  It commits what its callback wrote
    exactly when it returns the callback's result, and then the grant's token
    and fence owned an unexpired row both before the callback and, by a new
    reading of the clock, after it; on any error the database is unchanged. *)
Theorem fenced_write_correct {SqlError App T} (clock : nat → result Z SqlError) g
    (write : M (Store App) (DesktopError SqlError) T) (s : Store App) :
  match with_fenced_write clock g write s with
  | (s', Err _) => db s' = db s
  | (s', Ok v) =>
      ∃ s1 now now' r r', write (Build_Store (db s) (S (ticks s))) = (s1, Ok v) ∧ db s' = db s1
        ∧ clock (ticks s) = Ok now ∧ clock (ticks s1) = Ok now'
        ∧ rows (db s) !! gr_key g = Some r ∧ rows (db s1) !! gr_key g = Some r'
        ∧ owner_token r = Some (gr_token g) ∧ owner_token r' = Some (gr_token g)
        ∧ i64_to_string (fence r) = gr_fence g ∧ i64_to_string (fence r') = gr_fence g
        ∧ now < expires_at_ms r ∧ now' < expires_at_ms r'
  end.
Proof. apply fenced_write_spec. Qed.

(** Whatever the other processes, the clock and the cycles do, a run that
    returns ran at least one cycle, all under one fence and for strictly newer
    wakes, and at its last commit the lease was given up under that fence with
    every wake of the key handled. *)
Theorem wake_and_run_correct {SqlError App H R CE} (clock : nat → result Z SqlError) constraint_failed
    others elapsed token_factory (cycle : CycleContext → M (Store App * H) CE R) fuel r reason w w' completed :
  wake_and_run clock constraint_failed others elapsed token_factory cycle fuel r reason w = (w', Ok completed) →
  ∃ ws row, completed ≠ []
    ∧ Forall2 (λ c z, cd_wake_generation c = i64_to_string z ∧ cd_fence c = i64_to_string (fence row)
                      ∧ cd_reasons c = [reason]) completed ws
    ∧ StronglySorted Z.lt ws
    ∧ rows (db (coordinator w')) !! rn_lease_key r = Some row
    ∧ owner_token row = None ∧ last ws = Some (wake_generation row)
    ∧ handled_generation row = wake_generation row.
Proof.
  intros Hrun. apply bind_ok in Hrun as (w1 & receipt & _ & Hrun). apply bind_ok in Hrun as (w2 & grant & Ha & Hc).
  apply acquire_loop_ok in Ha as (lo & Hlo & Hw & Hk).
  apply (cycle_loop_ok _ _ _ _ _ _ _ _ _ _ _ _ _ Hlo Hw) in Hc
    as (new & ws & row & -> & Hall & Hsort & _ & Hrow & Hown & Hf & Hlast & Hh).
  exists ws, row. rewrite Hk in Hrow. rewrite <- Hf in Hall. cbn. split_and!; try done.
  intros ->. apply Forall2_nil_inv_l in Hall as ->. done.
Qed.

Lemma wake_and_run_correct_witness :
  let run := wake_and_run demo_clock "constraint" (λ _ s, s) (λ _, 0%N) demo_tokens demo_sync
               5 demo_coordinated Manual demo_world in
  ∃ completed ws row, run.2 = Ok completed ∧ completed ≠ []
    ∧ Forall2 (λ c z, cd_wake_generation c = i64_to_string z ∧ cd_fence c = i64_to_string (fence row)
                      ∧ cd_reasons c = [Manual]) completed ws
    ∧ StronglySorted Z.lt ws
    ∧ rows (db (coordinator run.1)) !! "queue" = Some row
    ∧ owner_token row = None ∧ last ws = Some (wake_generation row)
    ∧ handled_generation row = wake_generation row.
Proof.
  cbv zeta. eexists [_; _].
  destruct (wake_and_run_correct demo_clock "constraint" (λ _ s, s) (λ _, 0%N) demo_tokens demo_sync
              5 demo_coordinated Manual demo_world
              (wake_and_run demo_clock "constraint" (λ _ s, s) (λ _, 0%N) demo_tokens demo_sync
                 5 demo_coordinated Manual demo_world).1
              [Build_CompletedCycle "first" [Manual] "1" "1" "1"; Build_CompletedCycle "again" [Manual] "1" "2" "2"])
    as (ws & row & Hx).
  - vm_compute. reflexivity.
  - exists ws, row. split; [vm_compute; reflexivity|]. exact Hx.
Defined.

(** The runner's loops end.  If the time waited reaches the busy budget
    within the attempts the fuel allows, and nobody signals the key beyond
    generation [G] once this run has, then fuel above [G] is never used up:
    the run returns its cycles or one of its errors. *)
Theorem wake_and_run_terminates {SqlError App H R CE} (clock : nat → result Z SqlError) constraint_failed
    (others : nat → Store App → Store App) elapsed (token_factory : H → H * string)
    (cycle : CycleContext → M (Store App * H) CE R) fuel r reason (w : RunWorld App H) G :
  (∀ n s, wake_of s (rn_lease_key r) ≤ G → wake_of (others n s) (rn_lease_key r) ≤ G) →
  (∀ ctx s h, wake_of s (rn_lease_key r) ≤ G → wake_of (cycle ctx (s, h)).1.1 (rn_lease_key r) ≤ G) →
  wake_of (others (calls w) (coordinator w)) (rn_lease_key r) + 1 ≤ G →
  (∃ n, (n < fuel)%nat ∧ (rn_busy_wait_budget_ms r <= N.min u64_max (elapsed n))%N) →
  (Z.to_nat G < fuel)%nat →
  (wake_and_run clock constraint_failed others elapsed token_factory cycle fuel r reason w).2 ≠ Err None.
Proof.
  intros Hothers Hcycle HG (n & Hn & Hel) Hfuel. unfold wake_and_run.
  apply bind_no_fuel; [apply op_no_fuel|]. intros w1 receipt Hop. apply op_ok in Hop.
  assert (Hq1 : quiet (rn_lease_key r) G w1).
  { unfold quiet. pose proof (signal_wake_le clock constraint_failed (rn_lease_key r) _ G HG) as Hs.
    by rewrite Hop in Hs. }
  assert (Hend : (∃ n, 0 ≤ n < 0 + fuel ∧ (rn_busy_wait_budget_ms r <= N.min u64_max (elapsed n))%N)%nat)
    by (exists n; split; [lia|done]).
  pose proof (acquire_loop_ends (CE := CE) clock constraint_failed others elapsed token_factory
    (rn_lease_key r) G Hothers fuel 0 r [reason] w1 Hq1 Hend) as Ha.
  apply bind_no_fuel; [destruct (acquire_loop _ _ _ _ _ _ _ _ _ _) as [w2 res]; apply Ha|].
  intros w2 grant Hrun. rewrite Hrun in Ha. destruct Ha as [Hq2 _].
  apply acquire_loop_ok in Hrun as (lo & Hlo & Hw & Hk).
  apply (cycle_loop_ends clock constraint_failed others cycle (rn_lease_key r) G Hothers Hcycle
           fuel r [reason] grant [] w2 lo Hq2 Hk Hlo Hw). lia.
Qed.

(** The witness's cycles leave the store alone. *)
Definition still_sync (ctx : CycleContext) : M (Store unit * N) string string := ret (cc_fence ctx).

Lemma wake_and_run_terminates_witness :
  let run := wake_and_run demo_clock "constraint" (λ _ s, s) (λ n, 400 * N.of_nat n)%N demo_tokens still_sync
               5 demo_coordinated Manual (Build_RunWorld demo_held 0 [] 0%N) in
  run.2 = Err (Some (EBusy [Manual] 4500 "1" "0")) ∧ slept run.1 = [250; 250; 200]%N ∧ run.2 ≠ Err None.
Proof.
  cbv zeta. split; [vm_compute; reflexivity|]. split; [vm_compute; reflexivity|].
  apply (wake_and_run_terminates demo_clock "constraint" (λ _ s, s) (λ n, 400 * N.of_nat n)%N demo_tokens still_sync
           5 demo_coordinated Manual (Build_RunWorld demo_held 0 [] 0%N) 1).
  - intros n s H. exact H.
  - intros ctx s h H. exact H.
  - vm_compute. discriminate.
  - exists 3%nat. split; [lia|vm_compute; discriminate].
  - vm_compute. lia.
Defined.
