(* ===== verification/Resource.v ===== *)
(** * Resource: the model checker's resource profiles

    [src/tools/fmctl/src/resource.rs]: named profiles with defaults and
    maxima, the resolution of a request against a profile (each field is
    inherited, granted, clamped or refused) and the coupled work bounds, whose
    products are computed with overflow checks.  A u64 or u32 field is an [N].

    [resolve_bounds] characterises the accepted requests and their effective
    values; [resolve_error] shows that a refusal names a real violation. *)

From S2P Require Import Prelude Text.

(** ** Data *)

Definition RESOURCE_POLICY_SCHEMA_VERSION : N := 1.
Definition RESOURCE_POLICY_VERSION : string := "fm.resources.v1".

Inductive ResourceProfileName := Local_ | Ci | Service.
Inductive OverageBehavior := Reject | Clamp.

#[export] Instance profile_name_eq_dec : EqDecision ResourceProfileName.
Proof. solve_decision. Defined.
#[export] Instance overage_eq_dec : EqDecision OverageBehavior.
Proof. solve_decision. Defined.

(** The eight limited quantities: values of a profile are [Limits N], a
    request, whose fields may be absent, is [Limits (option N)]. *)
Record Limits (A : Type) := mk_limits {
  timeout_seconds : A;
  max_output_bytes : A;
  simulation_max_samples : A;
  simulation_max_steps : A;
  verification_max_steps : A;
  trace_count : A;
  trace_max_steps : A;
  trace_max_samples : A
}.
Arguments mk_limits {A} _ _ _ _ _ _ _ _.
Arguments timeout_seconds {A} _.
Arguments max_output_bytes {A} _.
Arguments simulation_max_samples {A} _.
Arguments simulation_max_steps {A} _.
Arguments verification_max_steps {A} _.
Arguments trace_count {A} _.
Arguments trace_max_steps {A} _.
Arguments trace_max_samples {A} _.

Definition ResourceValues : Type := Limits N.
Definition ResourceRequest : Type := Limits (option N).

Definition absent : ResourceRequest := mk_limits None None None None None None None None.

Record ResourceCeilings := mk_ceilings {
  scalar : ResourceValues;
  max_simulation_work : N;
  max_trace_work : N
}.

Record ResourceProfile := mk_profile {
  schema_version : N;
  policy_version : string;
  name : ResourceProfileName;
  overage_behavior : OverageBehavior;
  defaults : ResourceValues;
  maximum : ResourceCeilings
}.

Record EffectiveResourceValues := mk_effective {
  effective_scalar : ResourceValues;
  simulation_work : N;
  trace_count_work : N;
  trace_sample_work : N
}.

Record EffectiveResourcePolicy := mk_policy {
  effective_schema_version : N;
  effective_policy_version : string;
  profile : ResourceProfileName;
  effective_overage_behavior : OverageBehavior;
  requested : ResourceRequest;
  policy_defaults : ResourceValues;
  policy_maximum : ResourceCeilings;
  effective : EffectiveResourceValues;
  inherited_fields : list string;
  clamped_fields : list string
}.

Inductive ResourcePolicyError :=
| UnsupportedSchema (actual : N)
| UnsupportedPolicyVersion (actual : string)
| InvalidProfile (profile : ResourceProfileName) (field : string)
| DefaultOverMaximum (profile : ResourceProfileName) (field : string) (default maximum : N)
| ZeroRequest (field : string)
| OverPolicy (profile : ResourceProfileName) (field : string) (requested maximum : N)
| WorkOverflow (field : string)
| WorkOverPolicy (profile : ResourceProfileName) (field : string) (actual maximum : N).

(** ** The built-in profiles *)

Definition local_v1 : ResourceProfile :=
  mk_profile RESOURCE_POLICY_SCHEMA_VERSION RESOURCE_POLICY_VERSION Local_ Reject
    (mk_limits 120 (4 * 1024 * 1024) 10000 40 100 8 30 500)
    (mk_ceilings
      (mk_limits 21600 (64 * 1024 * 1024) 1000000 100000 100000 10000 100000 1000000)
      100000000 100000000).

Definition ci_v1 : ResourceProfile :=
  mk_profile RESOURCE_POLICY_SCHEMA_VERSION RESOURCE_POLICY_VERSION Ci Clamp
    (mk_limits 600 (8 * 1024 * 1024) 500 10000 10000 100 10000 500)
    (mk_ceilings
      (mk_limits 7200 (32 * 1024 * 1024) 1000 25000 25000 1000 25000 1000)
      25000000 25000000).

Definition service_v1 : ResourceProfile :=
  mk_profile RESOURCE_POLICY_SCHEMA_VERSION RESOURCE_POLICY_VERSION Service Clamp
    (mk_limits 300 (2 * 1024 * 1024) 100 5000 5000 50 5000 100)
    (mk_ceilings
      (mk_limits 900 (8 * 1024 * 1024) 500 10000 10000 500 10000 500)
      5000000 5000000).

(** ** Operations *)

Definition resource_fields {A} (values : Limits A) : list (string * A) :=
  [("timeout_seconds", timeout_seconds values);
   ("max_output_bytes", max_output_bytes values);
   ("simulation_max_samples", simulation_max_samples values);
   ("simulation_max_steps", simulation_max_steps values);
   ("verification_max_steps", verification_max_steps values);
   ("trace_count", trace_count values);
   ("trace_max_steps", trace_max_steps values);
   ("trace_max_samples", trace_max_samples values)].

Definition checked_mul_u64 (a b : N) : option N :=
  if a * b <=? u64_max then Some (a * b) else None.

Definition checked_work (profile : ResourceProfileName) (field : string) (left right maximum : N)
    : result N ResourcePolicyError :=
  let? actual := ok_or (checked_mul_u64 left right) (WorkOverflow field) in
  if maximum <? actual then Err (WorkOverPolicy profile field actual maximum) else Ok actual.

(** The loop of [validate] over the zipped defaults and maxima. *)
Fixpoint validate_fields (n : ResourceProfileName) (l : list ((string * N) * (string * N)))
    : result unit ResourcePolicyError :=
  match l with
  | [] => Ok tt
  | ((field, default), (_, maximum)) :: l =>
      if default =? 0 then Err (InvalidProfile n field)
      else if maximum =? 0 then Err (InvalidProfile n field)
      else if maximum <? default then Err (DefaultOverMaximum n field default maximum)
      else validate_fields n l
  end.

Definition validate (self : ResourceProfile) : result unit ResourcePolicyError :=
  if negb (schema_version self =? RESOURCE_POLICY_SCHEMA_VERSION) then
    Err (UnsupportedSchema (schema_version self))
  else if negb (policy_version self == RESOURCE_POLICY_VERSION) then
    Err (UnsupportedPolicyVersion (policy_version self))
  else
    let? _ := validate_fields (name self)
      (zip (resource_fields (defaults self)) (resource_fields (scalar (maximum self)))) in
    if max_simulation_work (maximum self) =? 0 then
      Err (InvalidProfile (name self) "max_simulation_work")
    else if max_trace_work (maximum self) =? 0 then
      Err (InvalidProfile (name self) "max_trace_work")
    else
      let? _ := checked_work (name self) "default simulation work"
        (simulation_max_samples (defaults self)) (simulation_max_steps (defaults self))
        (max_simulation_work (maximum self)) in
      let? _ := checked_work (name self) "default trace count work"
        (trace_count (defaults self)) (trace_max_steps (defaults self))
        (max_trace_work (maximum self)) in
      let? _ := checked_work (name self) "default trace sample work"
        (trace_max_samples (defaults self)) (trace_max_steps (defaults self))
        (max_trace_work (maximum self)) in
      Ok tt.

(** The two vectors [resolve] passes by mutable reference. *)
Record notes := mk_notes { inherited : list string; clamped : list string }.

Definition resolve_field (self : ResourceProfile) (field : string) (requested : option N)
    (default maximum : N) (s : notes) : result (N * notes) ResourcePolicyError :=
  match requested with
  | None => Ok (default, mk_notes (inherited s ++ [field]) (clamped s))
  | Some requested =>
      if requested =? 0 then Err (ZeroRequest field)
      else if requested <=? maximum then Ok (requested, s)
      else
        match overage_behavior self with
        | Reject => Err (OverPolicy (name self) field requested maximum)
        | Clamp => Ok (maximum, mk_notes (inherited s) (clamped s ++ [field]))
        end
  end.

Definition resolve (self : ResourceProfile) (request : ResourceRequest)
    : result EffectiveResourcePolicy ResourcePolicyError :=
  let? _ := validate self in
  let s := mk_notes [] [] in
  let d := defaults self in
  let m := scalar (maximum self) in
  let? (v_timeout, s) := resolve_field self "timeout_seconds"
    (timeout_seconds request) (timeout_seconds d) (timeout_seconds m) s in
  let? (v_output, s) := resolve_field self "max_output_bytes"
    (max_output_bytes request) (max_output_bytes d) (max_output_bytes m) s in
  let? (v_samples, s) := resolve_field self "simulation_max_samples"
    (simulation_max_samples request) (simulation_max_samples d) (simulation_max_samples m) s in
  let? (v_steps, s) := resolve_field self "simulation_max_steps"
    (simulation_max_steps request) (simulation_max_steps d) (simulation_max_steps m) s in
  let? (v_verify, s) := resolve_field self "verification_max_steps"
    (verification_max_steps request) (verification_max_steps d) (verification_max_steps m) s in
  let? (v_count, s) := resolve_field self "trace_count"
    (trace_count request) (trace_count d) (trace_count m) s in
  let? (v_tsteps, s) := resolve_field self "trace_max_steps"
    (trace_max_steps request) (trace_max_steps d) (trace_max_steps m) s in
  let? (v_tsamples, s) := resolve_field self "trace_max_samples"
    (trace_max_samples request) (trace_max_samples d) (trace_max_samples m) s in
  let? simulation_work := checked_work (name self) "simulation_max_samples * simulation_max_steps"
    v_samples v_steps (max_simulation_work (maximum self)) in
  let? trace_count_work := checked_work (name self) "trace_count * trace_max_steps"
    v_count v_tsteps (max_trace_work (maximum self)) in
  let? trace_sample_work := checked_work (name self) "trace_max_samples * trace_max_steps"
    v_tsamples v_tsteps (max_trace_work (maximum self)) in
  Ok (mk_policy (schema_version self) (policy_version self) (name self) (overage_behavior self)
        request (defaults self) (maximum self)
        (mk_effective
          (mk_limits v_timeout v_output v_samples v_steps v_verify v_count v_tsteps v_tsamples)
          simulation_work trace_count_work trace_sample_work)
        (inherited s) (clamped s)).

(** ** Specification *)

(** The value a field ends with. *)
Definition granted (requested : option N) (default maximum : N) : N :=
  match requested with None => default | Some v => N.min v maximum end.

Definition zip_limits {A B C} (f : A → B → C) (a : Limits A) (b : Limits B) : Limits C :=
  mk_limits (f (timeout_seconds a) (timeout_seconds b))
    (f (max_output_bytes a) (max_output_bytes b))
    (f (simulation_max_samples a) (simulation_max_samples b))
    (f (simulation_max_steps a) (simulation_max_steps b))
    (f (verification_max_steps a) (verification_max_steps b))
    (f (trace_count a) (trace_count b))
    (f (trace_max_steps a) (trace_max_steps b))
    (f (trace_max_samples a) (trace_max_samples b)).

Definition effective_values (p : ResourceProfile) (r : ResourceRequest) : ResourceValues :=
  zip_limits (λ req dm, granted req dm.1 dm.2) r
    (zip_limits pair (defaults p) (scalar (maximum p))).

(** Every field of the one is in relation to that field of the other. *)
Definition fieldwise {A B} (P : A → B → Prop) (a : Limits A) (b : Limits B) : Prop :=
  Forall (λ f, P f.1.2 f.2.2) (zip (resource_fields a) (resource_fields b)).

(** A product that neither overflows a u64 nor exceeds its maximum. *)
Definition work_fits (maximum left right : N) : Prop :=
  left * right ≤ u64_max ∧ left * right ≤ maximum.

Definition works_fit (c : ResourceCeilings) (v : ResourceValues) : Prop :=
  work_fits (max_simulation_work c) (simulation_max_samples v) (simulation_max_steps v) ∧
  work_fits (max_trace_work c) (trace_count v) (trace_max_steps v) ∧
  work_fits (max_trace_work c) (trace_max_samples v) (trace_max_steps v).

Definition valid_profile (p : ResourceProfile) : Prop :=
  schema_version p = RESOURCE_POLICY_SCHEMA_VERSION ∧
  policy_version p = RESOURCE_POLICY_VERSION ∧
  fieldwise (λ d m, 0 < d ≤ m) (defaults p) (scalar (maximum p)) ∧
  0 < max_simulation_work (maximum p) ∧ 0 < max_trace_work (maximum p) ∧
  works_fit (maximum p) (defaults p).

(** A field may be asked for when it is positive and, unless the profile
    clamps, within its maximum. *)
Definition may_request (o : OverageBehavior) (requested : option N) (maximum : N) : Prop :=
  match requested with
  | None => True
  | Some v => 0 < v ∧ (o = Reject → v ≤ maximum)
  end.

Definition absent_names (r : ResourceRequest) : list string :=
  flat_map (λ f, match f.2 with None => [f.1] | Some _ => [] end) (resource_fields r).

Definition over_names (r : ResourceRequest) (m : ResourceValues) : list string :=
  flat_map (λ f, match f.1.2 with
                 | Some v => if f.2.2 <? v then [f.1.1] else []
                 | None => []
                 end) (zip (resource_fields r) (resource_fields m)).

(** The policy an accepted request resolves to. *)
Definition policy_of (p : ResourceProfile) (r : ResourceRequest) : EffectiveResourcePolicy :=
  let v := effective_values p r in
  mk_policy RESOURCE_POLICY_SCHEMA_VERSION RESOURCE_POLICY_VERSION (name p) (overage_behavior p)
    r (defaults p) (maximum p)
    (mk_effective v (simulation_max_samples v * simulation_max_steps v)
       (trace_count v * trace_max_steps v) (trace_max_samples v * trace_max_steps v))
    (absent_names r) (over_names r (scalar (maximum p))).

(** The products [resolve] bounds: name, factors and maximum. *)
Definition works_of (c : ResourceCeilings) (ns : string * string * string) (v : ResourceValues)
    : list (string * (N * N * N)) :=
  let '(n1, n2, n3) := ns in
  [(n1, (simulation_max_samples v, simulation_max_steps v, max_simulation_work c));
   (n2, (trace_count v, trace_max_steps v, max_trace_work c));
   (n3, (trace_max_samples v, trace_max_steps v, max_trace_work c))].

Definition bounded_works (p : ResourceProfile) (r : ResourceRequest) : list (string * (N * N * N)) :=
  works_of (maximum p)
    ("default simulation work", "default trace count work", "default trace sample work") (defaults p) ++
  works_of (maximum p)
    ("simulation_max_samples * simulation_max_steps", "trace_count * trace_max_steps",
     "trace_max_samples * trace_max_steps") (effective_values p r).

(** What each error says of the profile and the request. *)
Definition violation (p : ResourceProfile) (r : ResourceRequest) (e : ResourcePolicyError) : Prop :=
  match e with
  | UnsupportedSchema v => v = schema_version p ∧ v ≠ RESOURCE_POLICY_SCHEMA_VERSION
  | UnsupportedPolicyVersion v => v = policy_version p ∧ v ≠ RESOURCE_POLICY_VERSION
  | InvalidProfile n f =>
      n = name p ∧
      ((f, 0) ∈ resource_fields (defaults p) ∨ (f, 0) ∈ resource_fields (scalar (maximum p)) ∨
       (f, 0) ∈ [("max_simulation_work", max_simulation_work (maximum p));
                 ("max_trace_work", max_trace_work (maximum p))])
  | DefaultOverMaximum n f d m =>
      n = name p ∧ (f, d) ∈ resource_fields (defaults p) ∧
      (f, m) ∈ resource_fields (scalar (maximum p)) ∧ m < d
  | ZeroRequest f => (f, Some 0) ∈ resource_fields r
  | OverPolicy n f v m =>
      n = name p ∧ overage_behavior p = Reject ∧ (f, Some v) ∈ resource_fields r ∧
      (f, m) ∈ resource_fields (scalar (maximum p)) ∧ m < v
  | WorkOverflow f =>
      ∃ a b m, (f, (a, b, m)) ∈ bounded_works p r ∧ u64_max < a * b
  | WorkOverPolicy n f w m =>
      n = name p ∧ ∃ a b, (f, (a, b, m)) ∈ bounded_works p r ∧ w = a * b ∧ w ≤ u64_max ∧ m < w
  end.

(** ** Lemmas *)

(** What one step of [resolve] does to the notes. *)
Definition noted (field : string) (requested : option N) (maximum : N) (s : notes) : notes :=
  mk_notes (inherited s ++ match requested with None => [field] | Some _ => [] end)
    (clamped s ++ match requested with
                  | Some v => if maximum <? v then [field] else []
                  | None => []
                  end).

Lemma checked_work_spec n f a b m :
  match checked_work n f a b m with
  | Ok w => work_fits m a b ∧ w = a * b
  | Err e => ¬ work_fits m a b ∧
             ((e = WorkOverflow f ∧ u64_max < a * b) ∨
              (e = WorkOverPolicy n f (a * b) m ∧ a * b ≤ u64_max ∧ m < a * b))
  end.
Proof.
  unfold checked_work, checked_mul_u64, work_fits.
  destruct (N.leb_spec (a * b) u64_max); simpl; [|by split; [lia|left]].
  destruct (N.ltb_spec m (a * b)); simpl; [split; [lia|right]|]; repeat split; lia.
Qed.

Lemma resolve_field_spec p f req d m s :
  match resolve_field p f req d m s with
  | Ok (v, s') => may_request (overage_behavior p) req m ∧ v = granted req d m ∧ s' = noted f req m s
  | Err e => ¬ may_request (overage_behavior p) req m ∧
             ((e = ZeroRequest f ∧ req = Some 0) ∨
              ∃ v, e = OverPolicy (name p) f v m ∧ overage_behavior p = Reject ∧
                   req = Some v ∧ m < v)
  end.
Proof.
  unfold resolve_field, noted, may_request, granted. destruct s as [i c]. destruct req as [v|]; simpl.
  2: by rewrite app_nil_r.
  destruct (N.eqb_spec v 0) as [->|Hv]; [split; [lia|by left]|].
  destruct (N.leb_spec v m) as [Hm|Hm].
  - rewrite (proj2 (N.ltb_ge m v)) by done. rewrite !app_nil_r. repeat split; lia.
  - rewrite (proj2 (N.ltb_lt m v)) by done. rewrite app_nil_r. destruct (overage_behavior p).
    + split; [intros [_ H]; specialize (H eq_refl); lia|]. right. by exists v.
    + repeat split; done || lia.
Qed.

Lemma fieldwise_iff {A B} (P : A → B → Prop) a b : fieldwise P a b ↔
  P (timeout_seconds a) (timeout_seconds b) ∧ P (max_output_bytes a) (max_output_bytes b) ∧
  P (simulation_max_samples a) (simulation_max_samples b) ∧
  P (simulation_max_steps a) (simulation_max_steps b) ∧
  P (verification_max_steps a) (verification_max_steps b) ∧ P (trace_count a) (trace_count b) ∧
  P (trace_max_steps a) (trace_max_steps b) ∧ P (trace_max_samples a) (trace_max_samples b).
Proof.
  unfold fieldwise. simpl. rewrite !Forall_cons, Forall_nil. simpl. tauto.
Qed.

(** Close a membership in a list written out. *)
Ltac listed := simpl; repeat first [apply list_elem_of_here | apply list_elem_of_further].

(** The zipped fields of a profile pair each default with its maximum. *)
Lemma elem_of_fields {A B} (a : Limits A) (b : Limits B) x :
  x ∈ zip (resource_fields a) (resource_fields b) →
  x.1.1 = x.2.1 ∧ (x.1.1, x.1.2) ∈ resource_fields a ∧ (x.1.1, x.2.2) ∈ resource_fields b.
Proof.
  simpl. rewrite !elem_of_cons, elem_of_nil.
  intros [-> | [-> | [-> | [-> | [-> | [-> | [-> | [-> | []]]]]]]]]; split_and?; (done || listed).
Qed.

Lemma validate_fields_spec n l :
  match validate_fields n l with
  | Ok _ => Forall (λ f, 0 < f.1.2 ≤ f.2.2) l
  | Err e => ¬ Forall (λ f, 0 < f.1.2 ≤ f.2.2) l ∧
      ∃ f, f ∈ l ∧ ((e = InvalidProfile n f.1.1 ∧ (f.1.2 = 0 ∨ f.2.2 = 0)) ∨
                    (e = DefaultOverMaximum n f.1.1 f.1.2 f.2.2 ∧ f.2.2 < f.1.2))
  end.
Proof.
  induction l as [|[[f d] [f' m]] l IH]; simpl; [constructor|].
  assert (∀ e, ¬ (0 < d ≤ m) →
    (e = InvalidProfile n f ∧ (d = 0 ∨ m = 0)) ∨ (e = DefaultOverMaximum n f d m ∧ m < d) →
    ¬ Forall (λ f, 0 < f.1.2 ≤ f.2.2) (((f, d), (f', m)) :: l) ∧
    ∃ g, g ∈ ((f, d), (f', m)) :: l ∧
      ((e = InvalidProfile n g.1.1 ∧ (g.1.2 = 0 ∨ g.2.2 = 0)) ∨
       (e = DefaultOverMaximum n g.1.1 g.1.2 g.2.2 ∧ g.2.2 < g.1.2))) as Hhere.
  { intros e Hbad He. split; [by intros [? _]%Forall_cons|].
    exists ((f, d), (f', m)). split; [by apply elem_of_cons; left|done]. }
  destruct (N.eqb_spec d 0); [apply Hhere; [lia|naive_solver]|].
  destruct (N.eqb_spec m 0); [apply Hhere; [lia|naive_solver]|].
  destruct (N.ltb_spec m d); [apply Hhere; [lia|naive_solver]|].
  destruct (validate_fields n l) as [[]|e].
  - constructor; [simpl; lia|done].
  - destruct IH as (Hbad & g & Hg & He). split; [by intros [_ ?]%Forall_cons|].
    exists g. split; [by apply elem_of_cons; right|done].
Qed.

(** Step over one bounded product; a failing one is a violation. *)
Ltac bound_work :=
  match goal with
  | |- context [checked_work ?n ?f ?a ?b ?m] =>
      let Hc := fresh "Hc" in let Hb := fresh "Hb" in let Hn := fresh "Hn" in
      pose proof (checked_work_spec n f a b m) as Hc;
      destruct (checked_work n f a b m);
      [destruct Hc as [Hc ->]
      |destruct Hc as [Hn [[-> Hb]|(-> & Hb)]]; (split; [tauto|]); simpl;
       [exists a, b, m|split; [done|]; exists a, b]; split_and?; (tauto || done || listed)]
  end.

Lemma validate_spec p r :
  match validate p with
  | Ok _ => valid_profile p
  | Err e => ¬ valid_profile p ∧ violation p r e
  end.
Proof.
  unfold validate, valid_profile.
  destruct (N.eqb_spec (schema_version p) RESOURCE_POLICY_SCHEMA_VERSION) as [Hs|]; cbn [negb]; [|naive_solver].
  case_bool_decide as Hv; cbn [negb]; [|naive_solver].
  pose proof (validate_fields_spec (name p)
    (zip (resource_fields (defaults p)) (resource_fields (scalar (maximum p))))) as Hf.
  destruct (validate_fields _ _) as [[]|e].
  2: { destruct Hf as (Hbad & x & Hx & He). split; [by intros (_ & _ & H & _)|].
       apply elem_of_fields in Hx as (_ & H1 & H2).
       destruct He as [[-> [E|E]]|[-> Hlt]]; simpl; [rewrite E in H1|rewrite E in H2|]; tauto. }
  destruct (N.eqb_spec (max_simulation_work (maximum p)) 0) as [E|Hw1].
  { split; [intros H; lia|]. simpl. split; [done|]. do 2 right. rewrite E. listed. }
  destruct (N.eqb_spec (max_trace_work (maximum p)) 0) as [E|Hw2].
  { split; [intros H; lia|]. simpl. split; [done|]. do 2 right. rewrite E. listed. }
  unfold works_fit.
  repeat bound_work.
  split_and?; (done || lia).
Qed.

(** A request is accepted when the profile is valid, every field may be asked
    for, and the products of the values it ends with fit. *)
Definition accepts (p : ResourceProfile) (r : ResourceRequest) : Prop :=
  valid_profile p ∧ fieldwise (may_request (overage_behavior p)) r (scalar (maximum p)) ∧
  works_fit (maximum p) (effective_values p r).

(** Step over one field; a refused one is a violation. *)
Ltac resolve_step :=
  match goal with
  | |- context [resolve_field ?p ?f ?req ?d ?m ?s] =>
      let Hc := fresh "Hc" in let Hn := fresh "Hn" in let He := fresh "He" in let v := fresh "v" in
      pose proof (resolve_field_spec p f req d m s) as Hc;
      destruct (resolve_field p f req d m s) as [[]|];
      [destruct Hc as (Hc & -> & ->)
      |destruct Hc as (Hn & [[-> He]|(v & -> & ? & He & ?)]);
       (split; [unfold accepts; rewrite fieldwise_iff; tauto|]); simpl; rewrite <- He;
       split_and?; (done || listed)]
  end.

Lemma resolve_spec p r :
  match resolve p r with
  | Ok e => accepts p r ∧ e = policy_of p r
  | Err e => ¬ accepts p r ∧ violation p r e
  end.
Proof.
  unfold resolve. pose proof (validate_spec p r) as Hv.
  destruct (validate p) as [[]|e]; [|by destruct Hv; split; [intros (? & _)|]].
  cbv zeta. do 8 resolve_step. unfold accepts, works_fit.
  assert (fieldwise (may_request (overage_behavior p)) r (scalar (maximum p)))
    by (by rewrite fieldwise_iff).
  repeat bound_work.
  split; [tauto|]. destruct Hv as (-> & -> & _).
  unfold policy_of, absent_names, over_names. cbn -[app]. by rewrite <- !app_assoc, !app_nil_r.
Qed.

Lemma granted_range o req d m : may_request o req m → 0 < d ≤ m → 0 < granted req d m ≤ m.
Proof. destruct req as [v|]; simpl; lia. Qed.

Lemma effective_in_range p r : valid_profile p →
  fieldwise (may_request (overage_behavior p)) r (scalar (maximum p)) →
  fieldwise (λ v m, 0 < v ≤ m) (effective_values p r) (scalar (maximum p)).
Proof.
  intros (_ & _ & Hd & _). revert Hd. rewrite !fieldwise_iff. intros Hd Hr.
  split_and!; eapply granted_range; (apply Hr || apply Hd).
Qed.

(** ** Closed examples *)

(** Without a request the built-in profiles give their defaults, every field inherited. *)
Example built_in_profiles :
  List.map (λ p, match resolve p absent with
                 | Ok e => (effective_scalar (effective e) , inherited_fields e, clamped_fields e)
                 | Err _ => (defaults p, [], [])
                 end) [local_v1; ci_v1; service_v1] =
  List.map (λ p, (defaults p, List.map fst (resource_fields (defaults p)), []))
    [local_v1; ci_v1; service_v1].
Proof. vm_compute. reflexivity. Qed.

Example overages :
  (resolve local_v1 (mk_limits (Some 21601) None None None None None None None),
   resolve local_v1 (mk_limits None None None None None (Some 0) None None),
   checked_work Local_ "overflow" u64_max 2 u64_max)
  = (Err (OverPolicy Local_ "timeout_seconds" 21601 21600), Err (ZeroRequest "trace_count"),
     Err (WorkOverflow "overflow")).
Proof. vm_compute. reflexivity. Qed.

(** A service request over two of its maxima. *)
Definition greedy_request : ResourceRequest :=
  mk_limits (Some 901) None None (Some 20000) None (Some 3) None None.

(** ** Properties *)

(** A request resolves exactly when its profile is valid, every field it
    sets is positive (and within its maximum when the profile rejects
    overages) and the coupled work products fit; and then each effective
    field is the default or the smaller of request and maximum, hence
    positive and at most its maximum, the works are the exact products
    without u64 overflow and within their maxima, and the notes name exactly
    the absent and the clamped fields, in field order. *)
Theorem resolve_bounds (p : ResourceProfile) (r : ResourceRequest) :
  (is_ok (resolve p r) = true ↔ accepts p r) ∧
  ∀ e, resolve p r = Ok e →
    e = policy_of p r ∧
    fieldwise (λ v m, 0 < v ≤ m) (effective_scalar (effective e)) (scalar (policy_maximum e)) ∧
    simulation_work (effective e) ≤ N.min u64_max (max_simulation_work (policy_maximum e)) ∧
    trace_count_work (effective e) ≤ N.min u64_max (max_trace_work (policy_maximum e)) ∧
    trace_sample_work (effective e) ≤ N.min u64_max (max_trace_work (policy_maximum e)).
Proof.
  pose proof (resolve_spec p r) as H. destruct (resolve p r) as [e'|e']; simpl.
  2: { split; [split; [done|by intros Ha; destruct H]|done]. }
  destruct H as [Ha ->]. split; [done|]. intros e [= <-]. split; [done|].
  pose proof Ha as (Hv & Hr & Hw). split; [by apply effective_in_range|].
  split_and!; apply N.min_glb; apply Hw.
Qed.

Lemma resolve_bounds_witness :
  resolve service_v1 greedy_request = Ok (policy_of service_v1 greedy_request) ∧
  clamped_fields (policy_of service_v1 greedy_request) = ["timeout_seconds"; "simulation_max_steps"] ∧
  timeout_seconds (effective_scalar (effective (policy_of service_v1 greedy_request))) = 900 ∧
  fieldwise (λ v m, 0 < v ≤ m)
    (effective_scalar (effective (policy_of service_v1 greedy_request)))
    (scalar (maximum service_v1)).
Proof.
  assert (resolve service_v1 greedy_request = Ok (policy_of service_v1 greedy_request)) as E
    by (vm_compute; reflexivity).
  split; [exact E|]. split; [vm_compute; reflexivity|]. split; [vm_compute; reflexivity|].
  exact (proj1 (proj2 (proj2 (resolve_bounds service_v1 greedy_request) _ E))).
Defined.

(** An error of [resolve] is a real violation: it names the field whose
    value, maximum or product breaks the rule it reports, with the values of
    the profile and of the request. *)
Theorem resolve_error (p : ResourceProfile) (r : ResourceRequest) (e : ResourcePolicyError)
    (He : resolve p r = Err e) : violation p r e ∧ ¬ accepts p r.
Proof. pose proof (resolve_spec p r) as H. rewrite He in H. tauto. Qed.

Lemma resolve_error_witness :
  violation local_v1 (mk_limits None None (Some 1000000) (Some 100000) None None None None)
    (WorkOverPolicy Local_ "simulation_max_samples * simulation_max_steps" 100000000000 100000000) ∧
  ¬ accepts local_v1 (mk_limits None None (Some 1000000) (Some 100000) None None None None).
Proof. apply (resolve_error local_v1). vm_compute. reflexivity. Defined.
