(* ===== verification/Itf.v ===== *)
(** * Itf: canonical JSON of the adapter stream protocol

    The first half of [src/tools/fmctl/src/adapter_stream_v1.rs]: the field validators
    and [canonicalize_json], which gives the values of the Informal Trace
    Format (big integers, sets and maps are tagged objects) one form each: sets
    and maps are sorted by the text of their elements and keys, floating-point
    numbers and duplicates are refused.

    [canonical_form] is the main result: two values have the same canonical
    form exactly when they denote the same value.

    The text of a value is [serde_json::to_string], the interface of Json.v;
    [JsonErrorText] is the text its error displays. *)

From S2P Require Import Prelude Text Decimal Btree Json JsonCodec.

(** ** Errors *)

Inductive StreamProtocolError :=
| MessageTooLarge
| JsonError (display : string)
| Invalid (message : string).

Definition protocol_error (message : string) : StreamProtocolError := Invalid message.

Definition invalid {T} (message : string) : result T StreamProtocolError := Err (protocol_error message).

Class JsonErrorText := { json_error_text : json → string }.

(** ** Constants *)

Definition STREAM_ADAPTER_PROTOCOL : string := "fm.adapter.stream.v1".
Definition STREAM_ADAPTER_PROTOCOL_VERSION : N := 1.
Definition MAX_STREAM_MESSAGE_BYTES : N := 1024 * 1024.
Definition MAX_STREAM_GENERATION : N := 9007199254740991.
Definition MAX_REQUEST_ID : N := MAX_STREAM_GENERATION.
Definition MAX_SETTLE_STEPS : N := 1000000.

(** ** Field validators *)

(** [str::strip_prefix]. *)
Fixpoint strip_prefix_bytes (p l : list ascii) : option (list ascii) :=
  match p, l with
  | [], _ => Some l
  | c :: p, d :: l => if d == c then strip_prefix_bytes p l else None
  | _ :: _, [] => None
  end.
Definition strip_prefix (p s : string) : option string :=
  option_map of_bytes (strip_prefix_bytes (bytes p) (bytes s)).

Definition validate_decimal (label value : string) (allow_negative : bool)
    : result unit StreamProtocolError :=
  let digits := default value (strip_prefix "-" value) in
  if starts_with "-" value && negb allow_negative then
    invalid (label +:+ " must be an unsigned canonical decimal string")
  else if is_empty digits || negb (all_bytes is_ascii_digit digits)
       || ((1 <? len digits) && starts_with "0" digits) || (value == "-0") then
    invalid (label +:+ " must be a canonical decimal string")
  else Ok tt.

Definition validate_label (label value : string) (max : N) : result unit StreamProtocolError :=
  if is_empty (trim value) || (max <? len value) || has_control (bytes value) then
    invalid (label +:+ " must be nonempty, at most " +:+ to_dec max
             +:+ " bytes, and contain no control characters")
  else Ok tt.

Definition validate_sha256 (label value : string) : result unit StreamProtocolError :=
  let? digest := ok_or (strip_prefix "sha256:" value)
                   (protocol_error (label +:+ " must use sha256:<hex>")) in
  if negb (len digest =? 64) || negb (all_bytes is_lower_hex digest) then
    invalid (label +:+ " must contain exactly 64 lowercase hexadecimal digits")
  else Ok tt.

Definition validate_generation (value : N) : result unit StreamProtocolError :=
  if MAX_STREAM_GENERATION <? value then
    invalid ("generation must be between 0 and " +:+ to_dec MAX_STREAM_GENERATION)
  else Ok tt.

Definition parse_request_id (value : string) : result N StreamProtocolError :=
  let? _ := validate_decimal "requestId" value false in
  let? parsed := ok_or (parse_u64 value)
                   (protocol_error "requestId exceeds the protocol integer range") in
  if (parsed =? 0) || (MAX_REQUEST_ID <? parsed) then
    invalid ("requestId must be between 1 and " +:+ to_dec MAX_REQUEST_ID)
  else Ok parsed.

Definition validate_envelope (protocol : string) (protocol_version : N) (request_id machine : string)
    : result unit StreamProtocolError :=
  if negb (protocol == STREAM_ADAPTER_PROTOCOL) then
    invalid ("protocol must be exactly " +:+ quoted STREAM_ADAPTER_PROTOCOL)
  else if negb (protocol_version =? STREAM_ADAPTER_PROTOCOL_VERSION) then
    invalid ("protocolVersion must be " +:+ to_dec STREAM_ADAPTER_PROTOCOL_VERSION)
  else
    let? _ := parse_request_id request_id in
    validate_label "machine" machine 256.

(** ** Canonical JSON *)

Definition singleton_object (key : string) (value : json) : json := JObject [(key, value)].

Section Canonicalize.
Context `{SerdeJson, JsonErrorText}.

(** [serde_json::to_string(v)?] *)
Definition to_string (v : json) : result string StreamProtocolError :=
  ok_or (to_text v) (JsonError (json_error_text v)).

(** The loops over arrays, objects, sets and maps, for the function that
    canonicalises one value. *)
Section Loops.
Context (canon : json → result json StreamProtocolError).

Definition collect_array : list json → result (list json) StreamProtocolError :=
  fix go values :=
    match values with
    | [] => Ok []
    | v :: values =>
        let? c := canon v in
        let? cs := go values in
        Ok (c :: cs)
    end.

Definition collect_object : bmap json → bmap json → result (bmap json) StreamProtocolError :=
  fix go object sorted :=
    match object with
    | [] => Ok sorted
    | (key, value) :: object =>
        let? c := canon value in
        go object (bt_insert key c sorted)
    end.

Definition collect_set : list json → bmap json → result (bmap json) StreamProtocolError :=
  fix go values sorted :=
    match values with
    | [] => Ok sorted
    | value :: values =>
        let? canonical := canon value in
        let? key := to_string canonical in
        if bt_contains key sorted then invalid "ITF #set contains duplicate canonical values"
        else go values (bt_insert key canonical sorted)
    end.

Definition collect_map
    : list json → bmap (json * json) → result (bmap (json * json)) StreamProtocolError :=
  fix go entries sorted :=
    match entries with
    | [] => Ok sorted
    | JArray [k; v] :: entries =>
        let? key := canon k in
        let? value := canon v in
        let? encoded_key := to_string key in
        if bt_contains encoded_key sorted then invalid "ITF #map contains duplicate canonical keys"
        else go entries (bt_insert encoded_key (key, value) sorted)
    | _ :: _ => invalid "each ITF #map entry must be a two-element [key, value] array"
    end.

Definition canonicalize_bigint (value : json) : result json StreamProtocolError :=
  let? encoded := ok_or (as_str value) (protocol_error "ITF #bigint must contain a string") in
  let? _ := validate_decimal "ITF #bigint" encoded true in
  Ok (singleton_object "#bigint" (JString encoded)).

Definition canonicalize_set (value : json) : result json StreamProtocolError :=
  match value with
  | JArray values =>
      let? sorted := collect_set values [] in
      Ok (singleton_object "#set" (JArray (bt_values sorted)))
  | _ => invalid "ITF #set must contain an array"
  end.

Definition canonicalize_map (value : json) : result json StreamProtocolError :=
  match value with
  | JArray entries =>
      let? sorted := collect_map entries [] in
      Ok (singleton_object "#map"
            (JArray (List.map (λ kv, JArray [kv.1; kv.2]) (bt_values sorted))))
  | _ => invalid "ITF #map must contain an array"
  end.

Definition canonicalize_plain (object : bmap json) : result json StreamProtocolError :=
  let? sorted := collect_object object [] in
  Ok (JObject (bt_of_list sorted)).

Definition canonicalize_object (object : bmap json) : result json StreamProtocolError :=
  match object with
  | [(key, value)] =>
      if key == "#bigint" then canonicalize_bigint value
      else if key == "#set" then canonicalize_set value
      else if key == "#map" then canonicalize_map value
      else canonicalize_plain object
  | _ => canonicalize_plain object
  end.
End Loops.

Fixpoint canonicalize_json (value : json) : result json StreamProtocolError :=
  match value with
  | JNull | JBool _ | JString _ => Ok value
  | JNumber (NPosInt _) | JNumber (NNegInt _) => Ok value
  | JNumber (NFloat _ _) => invalid "canonical adapter JSON forbids floating-point numbers"
  | JArray values =>
      let? cs := collect_array canonicalize_json values in
      Ok (JArray cs)
  | JObject object => canonicalize_object canonicalize_json object
  end.

Definition canonical_json_bytes (value : json) : result string StreamProtocolError :=
  let? canonical := canonicalize_json value in
  to_string canonical.
End Canonicalize.

(** ** Specification: values that denote the same *)

(** An object that is not one of the three tagged forms. *)
Definition plain_object (m : bmap json) : Prop :=
  match m with [(k, _)] => k ∉ ["#bigint"; "#set"; "#map"] | _ => True end.

Definition set_of (l : list json) : json := singleton_object "#set" (JArray l).
Definition map_of (l : list json) : json := singleton_object "#map" (JArray l).
Definition entry_of (k v : json) : json := JArray [k; v].

(** The least congruence for which the order of a set's elements and of a
    map's entries does not matter. *)
Inductive same_value : json → json → Prop :=
| same_refl v : same_value v v
| same_sym v w : same_value v w → same_value w v
| same_trans u v w : same_value u v → same_value v w → same_value u w
| same_item l1 x y l2 : same_value x y →
    same_value (JArray (l1 ++ x :: l2)) (JArray (l1 ++ y :: l2))
| same_field m1 k x y m2 : plain_object (m1 ++ (k, x) :: m2) → same_value x y →
    same_value (JObject (m1 ++ (k, x) :: m2)) (JObject (m1 ++ (k, y) :: m2))
| same_set l l' : l ≡ₚ l' → same_value (set_of l) (set_of l')
| same_element l1 x y l2 : same_value x y →
    same_value (set_of (l1 ++ x :: l2)) (set_of (l1 ++ y :: l2))
| same_map l l' : l ≡ₚ l' → same_value (map_of l) (map_of l')
| same_key l1 x y v l2 : same_value x y →
    same_value (map_of (l1 ++ entry_of x v :: l2)) (map_of (l1 ++ entry_of y v :: l2))
| same_entry l1 k x y l2 : same_value x y →
    same_value (map_of (l1 ++ entry_of k x :: l2)) (map_of (l1 ++ entry_of k y :: l2)).

(** ** Lemmas: keyed collection *)

Section Keyed.
Context {A B : Type} (R : A → B → Prop) (key : B → string).

(** What a loop that collects into a B-tree map, refusing a key twice, computes. *)
Definition insert_all (bs : list B) (acc : bmap B) : bmap B :=
  fold_left (λ m b, bt_insert (key b) b m) bs acc.

Definition collects (l : list A) (acc m : bmap B) : Prop :=
  ∃ bs, Forall2 R l bs ∧ NoDup (List.map key bs) ∧
        Forall (λ b, bt_contains (key b) acc = false) bs ∧ m = insert_all bs acc.

Lemma contains_insert k k' (b : B) m :
  bt_contains k' (bt_insert k b m) = (k == k') || bt_contains k' m.
Proof. unfold bt_contains. rewrite bt_get_insert. by case_bool_decide. Qed.

Lemma collects_nil acc m : collects [] acc m ↔ m = acc.
Proof.
  split; [by intros (bs & ->%Forall2_nil_inv_l & _ & _ & ->)|].
  intros ->. exists []. repeat constructor.
Qed.

Lemma collects_cons a l acc m : collects (a :: l) acc m ↔
  ∃ b, R a b ∧ bt_contains (key b) acc = false ∧ collects l (bt_insert (key b) b acc) m.
Proof.
  split.
  - intros (bs & HR & Hnd & Hacc & ->). apply Forall2_cons_inv_l in HR as (b & bs' & Hb & HR & ->).
    apply NoDup_cons in Hnd as [Hn Hnd]. apply Forall_cons in Hacc as [Hacc Haccs].
    exists b. split; [done|]. split; [done|]. exists bs'. split; [done|]. split; [done|].
    split; [|done]. apply Forall_forall. intros b' Hb'. rewrite contains_insert.
    rewrite Forall_forall in Haccs. rewrite Haccs by done.
    rewrite bool_decide_eq_false_2; [done|]. intros E. apply Hn. rewrite E.
    by apply list_elem_of_fmap_2.
  - intros (b & Hb & Hacc & bs & HR & Hnd & Haccs & ->). rewrite Forall_forall in Haccs.
    exists (b :: bs). split; [by constructor|].
    assert (∀ b', b' ∈ bs → key b ≠ key b' ∧ bt_contains (key b') acc = false) as Hbs.
    { intros b' Hb'. specialize (Haccs b' Hb'). rewrite contains_insert in Haccs.
      by apply orb_false_iff in Haccs as [?%bool_decide_eq_false ?]. }
    split; [|split; [|done]].
    + constructor; [|done]. intros (b' & E & Hb')%list_elem_of_fmap. by apply (Hbs b' Hb').
    + constructor; [done|]. apply Forall_forall. intros b' Hb'. by apply Hbs.
Qed.

Lemma insert_new_perm (b : B) m : bt_contains (key b) m = false →
  bt_insert (key b) b m ≡ₚ (key b, b) :: m.
Proof.
  induction m as [|[k v] m IH]; simpl; intros Hk; [done|].
  unfold bt_contains in Hk. simpl in Hk. destruct (str_cmp (key b) k) eqn:E; simpl; [|done|].
  - apply str_cmp_eq in E. by rewrite bool_decide_eq_true_2 in Hk.
  - case_bool_decide; [done|]. rewrite IH by done. apply perm_swap.
Qed.

Lemma insert_all_perm bs acc : NoDup (List.map key bs) →
  Forall (λ b, bt_contains (key b) acc = false) bs →
  insert_all bs acc ≡ₚ List.map (λ b, (key b, b)) bs ++ acc.
Proof.
  unfold insert_all. revert acc. induction bs as [|b bs IH]; intros acc Hnd Hacc; simpl; [done|].
  simpl in Hnd. apply NoDup_cons in Hnd as [Hn Hnd]. apply Forall_cons in Hacc as [Hb Hacc].
  rewrite IH; [|done|].
  - rewrite insert_new_perm by done. by rewrite Permutation_middle.
  - apply Forall_forall. intros b' Hb'. rewrite contains_insert.
    rewrite Forall_forall in Hacc. rewrite Hacc by done.
    rewrite bool_decide_eq_false_2; [done|]. intros E. apply Hn. rewrite E.
    by apply list_elem_of_fmap_2.
Qed.

Lemma insert_all_sorted bs acc : bt_sorted acc → bt_sorted (insert_all bs acc).
Proof.
  unfold insert_all. revert acc. induction bs as [|b bs IH]; intros acc Hs; simpl; [done|].
  by apply IH, bt_sorted_insert.
Qed.

Lemma bt_sorted_perm_eq (m m' : bmap B) : bt_sorted m → bt_sorted m' → m ≡ₚ m' → m = m'.
Proof.
  intros Hs Hs' Hp. apply bt_ext; [done..|]. intros k. apply option_eq. intros v.
  split; intros Hg; apply bt_In_get; (done || apply In_elem); apply bt_get_Some_In, In_elem in Hg;
    [by rewrite <- Hp|by rewrite Hp].
Qed.

(** The values collected are the images of the elements, in some order. *)
Lemma collects_values l m : collects l [] m →
  ∃ bs, Forall2 R l bs ∧ bt_values m ≡ₚ bs.
Proof.
  intros (bs & HR & Hnd & Hacc & ->). exists bs. split; [done|]. unfold bt_values.
  rewrite (insert_all_perm bs []) by done. rewrite app_nil_r, List.map_map. by rewrite List.map_id.
Qed.

(** The order of the elements does not matter. *)
Lemma collects_perm l l' m : l ≡ₚ l' → collects l [] m → collects l' [] m.
Proof.
  intros Hp (bs & HR & Hnd & _ & ->).
  destruct (Permutation_Forall2 Hp HR) as (bs' & Hp' & HR').
  assert (List.map key bs ≡ₚ List.map key bs') as Hk by (by apply Permutation_map).
  assert (NoDup (List.map key bs')) as Hnd' by (by rewrite <- Hk).
  exists bs'. split; [done|]. split; [done|]. split; [by apply Forall_true|].
  apply bt_sorted_perm_eq; [apply insert_all_sorted; constructor..|].
  rewrite !insert_all_perm by (done || by apply Forall_true).
  by rewrite !app_nil_r, Hp'.
Qed.

(** Elements with the same images collect alike. *)
Lemma collects_item l1 x y l2 acc m : (∀ b, R x b ↔ R y b) →
  collects (l1 ++ x :: l2) acc m → collects (l1 ++ y :: l2) acc m.
Proof.
  intros Hxy. revert acc. induction l1 as [|a l1 IH]; intros acc; simpl;
    rewrite !collects_cons; intros (b & Hb & Hacc & Hrest); exists b; rewrite <- ?Hxy; auto.
Qed.
End Keyed.

(** ** Lemmas: the loops *)

Section Facts.
Context `{SerdeJsonLaws} `{JsonErrorText}.

Definition text (c : json) : string := default "" (to_text c).

Lemma to_string_ok c : to_string c = Ok (text c).
Proof. unfold to_string, text. by destruct (to_text_total c) as [t ->]. Qed.

Section Loops.
Context (canon : json → result json StreamProtocolError).

Definition gives (v c : json) : Prop := canon v = Ok c.
Definition gives_field (a b : string * json) : Prop := a.1 = b.1 ∧ gives a.2 b.2.
Definition gives_entry (e : json) (p : json * json) : Prop :=
  ∃ k v, e = entry_of k v ∧ gives k p.1 ∧ gives v p.2.

Lemma collect_array_iff l cs : collect_array canon l = Ok cs ↔ Forall2 gives l cs.
Proof.
  revert cs. induction l as [|v l IH]; intros cs; simpl.
  - split; [by intros [= <-]|by intros ->%Forall2_nil_inv_l].
  - unfold gives at 1. split.
    + destruct (canon v) as [c|] eqn:Ec; [|done].
      destruct (collect_array canon l) as [cs'|] eqn:El; [|done].
      intros [= <-]. constructor; [done|by apply IH].
    + intros (c & cs' & Hc & Hl & ->)%Forall2_cons_inv_l. rewrite Hc.
      apply IH in Hl. by rewrite Hl.
Qed.

Lemma collect_object_iff m acc m' : collect_object canon m acc = Ok m' ↔
  ∃ cs, Forall2 gives_field m cs ∧ m' = fold_left (λ m kv, bt_insert kv.1 kv.2 m) cs acc.
Proof.
  revert acc. induction m as [|[k v] m IH]; intros acc; simpl.
  - split; [intros [= ->]; exists []; repeat constructor|].
    by intros (cs & ->%Forall2_nil_inv_l & ->).
  - destruct (canon v) as [c|] eqn:Ec.
    + rewrite IH. split.
      * intros (cs & Hcs & ->). exists ((k, c) :: cs). split; [by constructor|done].
      * intros (cs & Hcs & ->). apply Forall2_cons_inv_l in Hcs as ([k' c'] & cs' & [Hk Hc] & Hcs & ->).
        unfold gives in Hc. cbn in Hk, Hc. subst k'. rewrite Ec in Hc. injection Hc as <-. by exists cs'.
    + split; [done|]. intros (cs & Hcs & _).
      apply Forall2_cons_inv_l in Hcs as ([k' c'] & cs' & [_ Hc] & _).
      unfold gives in Hc. cbn in Hc. congruence.
Qed.

Lemma collect_set_iff l acc m : collect_set canon l acc = Ok m ↔ collects gives text l acc m.
Proof.
  revert acc. induction l as [|v l IH]; intros acc; simpl.
  - rewrite collects_nil. split; congruence.
  - rewrite collects_cons. unfold gives at 1. destruct (canon v) as [c|].
    2: { split; [done|]. by intros (b & [=] & _). }
    rewrite to_string_ok. destruct (bt_contains (text c) acc) eqn:E.
    + split; [done|]. intros (b & [= <-] & Hb & _). congruence.
    + rewrite IH. split; [intros Hm; by exists c|]. by intros (b & [= <-] & _ & Hm).
Qed.

Lemma entry_or_not e : (∃ k v, e = entry_of k v) ∨ ¬ ∃ k v, e = entry_of k v.
Proof.
  destruct e as [| | | |[|k [|v [|w l]]]|]; try by (right; intros (? & ? & [=])).
  left. by exists k, v.
Qed.

Lemma collect_map_iff l acc m :
  collect_map canon l acc = Ok m ↔ collects gives_entry (λ p, text p.1) l acc m.
Proof.
  revert acc. induction l as [|e l IH]; intros acc; simpl.
  { rewrite collects_nil. split; congruence. }
  rewrite collects_cons. unfold gives_entry at 1, gives.
  destruct (entry_or_not e) as [(k & v & ->)|Hno].
  2: { split; [by destruct e as [| | | |[|? [|? [|? ?]]]|]; (done || destruct Hno; eauto)|].
       intros (b & (k & v & -> & _) & _). destruct Hno. eauto. }
  unfold entry_of. destruct (canon k) as [ck|] eqn:Ek.
  2: { split; [done|]. intros (b & (k' & v' & [= <- <-] & Ha & _) & _). congruence. }
  destruct (canon v) as [cv|] eqn:Ev.
  2: { split; [done|]. intros (b & (k' & v' & [= <- <-] & _ & Hb) & _). congruence. }
  rewrite to_string_ok. destruct (bt_contains (text ck) acc) eqn:E.
  - split; [done|]. intros ([a b] & (k' & v' & [= <- <-] & Ha & Hb) & Hc & _). simpl in *. congruence.
  - rewrite IH. split; [intros Hm; exists (ck, cv); naive_solver|].
    intros ([a b] & (k' & v' & [= <- <-] & Ha & Hb) & Hc & Hm). simpl in *. congruence.
Qed.
End Loops.

Abbreviation canon := canonicalize_json.
Abbreviation can := (gives canonicalize_json).

(** ** Lemmas: canonicalisation by form *)

Lemma canon_array l c : can (JArray l) c ↔ ∃ cs, Forall2 can l cs ∧ c = JArray cs.
Proof.
  unfold gives at 1. cbn -[collect_array]. split.
  - destruct (collect_array canon l) as [cs|] eqn:E; [|done]. intros [= <-].
    exists cs. split; [by apply collect_array_iff|done].
  - intros (cs & Hcs & ->). apply collect_array_iff in Hcs. by rewrite Hcs.
Qed.

Lemma canon_set l c : can (set_of l) c ↔
  ∃ m, collects can text l [] m ∧ c = set_of (bt_values m).
Proof.
  unfold gives at 1. cbn -[collect_set]. split.
  - destruct (collect_set canon l []) as [m|] eqn:E; [|done]. intros [= <-].
    exists m. split; [by apply collect_set_iff|done].
  - intros (m & Hm & ->). apply collect_set_iff in Hm. by rewrite Hm.
Qed.

Lemma canon_map l c : can (map_of l) c ↔
  ∃ m, collects (gives_entry canon) (λ p, text p.1) l [] m ∧
       c = map_of (List.map (λ p, entry_of p.1 p.2) (bt_values m)).
Proof.
  unfold gives at 1. cbn -[collect_map]. split.
  - destruct (collect_map canon l []) as [m|] eqn:E; [|done]. intros [= <-].
    exists m. split; [by apply collect_map_iff|done].
  - intros (m & Hm & ->). apply collect_map_iff in Hm. by rewrite Hm.
Qed.

Lemma canon_plain m c : plain_object m → can (JObject m) c ↔
  ∃ cs, Forall2 (gives_field canon) m cs ∧ c = JObject (bt_of_list (bt_of_list cs)).
Proof.
  intros Hp. unfold gives at 1.
  assert (canon (JObject m) = canonicalize_plain canon m) as ->.
  { cbn. unfold canonicalize_object. destruct m as [|[k v] [|? ?]]; [done| |done].
    simpl in Hp. rewrite !elem_of_cons in Hp. rewrite !bool_decide_eq_false_2 by tauto. done. }
  unfold canonicalize_plain. split.
  - destruct (collect_object canon m []) as [m'|] eqn:E; [|done]. intros [= <-].
    apply collect_object_iff in E as (cs & Hcs & ->). by exists cs.
  - intros (cs & Hcs & ->). by rewrite (proj2 (collect_object_iff canon m [] _)) by eauto.
Qed.

Lemma canon_bigint x c : can (JObject [("#bigint", x)]) c → c = JObject [("#bigint", x)].
Proof.
  unfold gives. cbn -[validate_decimal]. unfold canonicalize_bigint.
  destruct x; simpl; try done. destruct (validate_decimal _ _ _); [|done]. by intros [= <-].
Qed.

(** Every object is plain or one of the tagged forms. *)
Lemma object_cases m : plain_object m ∨ ∃ x,
  m = [("#bigint", x)] ∨ m = [("#set", x)] ∨ m = [("#map", x)].
Proof.
  destruct m as [|[k x] [|? ?]]; simpl; try by left.
  destruct (decide (k ∈ ["#bigint"; "#set"; "#map"])) as [Hk|]; [right|by left].
  exists x. rewrite !elem_of_cons, elem_of_nil in Hk. destruct Hk as [-> | [-> | [-> | []]]]; auto.
Qed.

(** ** Lemmas: canonicalisation respects [same_value] *)

Definition agree (v w : json) : Prop := ∀ c, can v c ↔ can w c.

Lemma agree_by (F : json → json) x y :
  (∀ x y c, agree x y → can (F x) c → can (F y) c) → agree x y → agree (F x) (F y).
Proof. intros HF Hxy c. split; apply HF; [done|]. intros d. symmetry. apply Hxy. Qed.

Lemma Forall2_item {A B} (R : A → B → Prop) l1 x y l2 bs : (∀ b, R x b → R y b) →
  Forall2 R (l1 ++ x :: l2) bs → Forall2 R (l1 ++ y :: l2) bs.
Proof.
  intros Hxy (b1 & b2 & Hl & (b & b3 & Hb & Hr & ->)%Forall2_cons_inv_l & ->)%Forall2_app_inv_l.
  apply Forall2_app; [done|]. constructor; auto.
Qed.

Lemma plain_field m1 k x y m2 :
  plain_object (m1 ++ (k, x) :: m2) → plain_object (m1 ++ (k, y) :: m2).
Proof. destruct m1 as [|[? ?] [|? ?]]; destruct m2; done. Qed.

Lemma same_value_agree v w : same_value v w → agree v w.
Proof.
  induction 1 as [v|v w _ IH|u v w _ IH1 _ IH2|l1 x y l2 _ IH|m1 k x y m2 Hp _ IH|l l' Hp
                 |l1 x y l2 _ IH|l l' Hp|l1 x y v l2 _ IH|l1 k x y l2 _ IH].
  - done.
  - intros c. symmetry. apply IH.
  - intros c. by rewrite (IH1 c), (IH2 c).
  - apply (agree_by (λ x, JArray (l1 ++ x :: l2))); [|done]. clear -H0.
    intros x y c Hxy. rewrite !canon_array. intros (cs & Hcs & ->). exists cs. split; [|done].
    revert Hcs. apply Forall2_item. apply Hxy.
  - assert (∀ z, plain_object (m1 ++ (k, z) :: m2)) as Hpz by (intros z; by eapply plain_field).
    apply (agree_by (λ x, JObject (m1 ++ (k, x) :: m2))); [|done]. clear -H0 Hpz.
    intros x y c Hxy. rewrite !canon_plain by done. intros (cs & Hcs & ->). exists cs. split; [|done].
    revert Hcs. apply Forall2_item. intros b [Hk Hb]. split; [done|by apply Hxy].
  - intros c. rewrite !canon_set.
    split; intros (m & Hm & ->); exists m; (split; [|done]); revert Hm; by apply collects_perm.
  - apply (agree_by (λ x, set_of (l1 ++ x :: l2))); [|done]. clear -H0.
    intros x y c Hxy. rewrite !canon_set. intros (m & Hm & ->). exists m. split; [|done].
    revert Hm. apply collects_item, Hxy.
  - intros c. rewrite !canon_map.
    split; intros (m & Hm & ->); exists m; (split; [|done]); revert Hm; by apply collects_perm.
  - apply (agree_by (λ x, map_of (l1 ++ entry_of x v :: l2))); [|done]. clear -H0.
    intros x y c Hxy. rewrite !canon_map. intros (m & Hm & ->). exists m. split; [|done].
    revert Hm. apply collects_item. intros b. unfold gives_entry.
    split; intros (a & d & [= <- <-] & Ha & Hd); do 2 eexists; (split; [done|]); (split; [by apply Hxy|done]).
  - apply (agree_by (λ x, map_of (l1 ++ entry_of k x :: l2))); [|done]. clear -H0.
    intros x y c Hxy. rewrite !canon_map. intros (m & Hm & ->). exists m. split; [|done].
    revert Hm. apply collects_item. intros b. unfold gives_entry.
    split; intros (a & d & [= <- <-] & Ha & Hd); do 2 eexists; (split; [done|]); (split; [done|by apply Hxy]).
Qed.

(** ** Lemmas: a canonical form denotes the same value *)

Fixpoint json_size (v : json) : nat :=
  match v with
  | JArray l => S (foldr (λ x n, json_size x + n)%nat 0%nat l)
  | JObject m => S (foldr (λ kv n, json_size kv.2 + n)%nat 0%nat m)
  | _ => 1
  end.

Lemma item_lt x l : x ∈ l → (json_size x < json_size (JArray l))%nat.
Proof. induction 1; simpl in *; lia. Qed.

Lemma field_lt k x m : (k, x) ∈ m → (json_size x < json_size (JObject m))%nat.
Proof.
  simpl. induction m as [|kv m IH]; [by intros ?%elem_of_nil|].
  rewrite elem_of_cons. intros [<-|Hx]; simpl; [lia|]. specialize (IH Hx). lia.
Qed.

Lemma item_wf x l : x ∈ l → json_wf (JArray l) → json_wf x.
Proof. induction 1 as [x l|x y l _ IH]; intros [Hx Hl]; [done|by apply IH]. Qed.

Lemma field_wf k x m : (k, x) ∈ m → json_wf (JObject m) → json_wf x.
Proof.
  intros Hx [_ Hm]. induction m as [|kv m IH]; [by apply elem_of_nil in Hx|].
  apply elem_of_cons in Hx as [<-|Hx]; destruct Hm as [Hk Hm]; [done|by apply IH].
Qed.

Lemma Forall2_elem {A B} (P Q : A → B → Prop) l k :
  Forall2 P l k → (∀ x y, x ∈ l → P x y → Q x y) → Forall2 Q l k.
Proof.
  induction 1 as [|x y l k Hxy _ IH]; intros HQ; constructor.
  - apply HQ; [apply list_elem_of_here|done].
  - apply IH. intros a b Ha. apply HQ. by apply list_elem_of_further.
Qed.

(** Replacing items one at a time replaces them all. *)
Lemma same_pointwise {A} (F : list A → json) (Q : list A → Prop) (R : A → A → Prop) l l' :
  (∀ l1 x y l2, Q (l1 ++ x :: l2) → R x y →
     same_value (F (l1 ++ x :: l2)) (F (l1 ++ y :: l2)) ∧ Q (l1 ++ y :: l2)) →
  Q l → Forall2 R l l' → same_value (F l) (F l').
Proof.
  intros Hstep HQ HR. change l with ([] ++ l) in HQ |- *. change l' with ([] ++ l').
  revert HQ. generalize (@nil A). induction HR as [|x y l l' Hxy _ IH]; intros pre HQ.
  - constructor.
  - destruct (Hstep pre x y l HQ Hxy) as [Hs HQ']. eapply same_trans; [exact Hs|].
    specialize (IH (pre ++ [y])). rewrite <- !app_assoc in IH. by apply IH.
Qed.

Lemma same_fields m cs : plain_object m →
  Forall2 (λ a b, a.1 = b.1 ∧ same_value a.2 b.2) m cs → same_value (JObject m) (JObject cs).
Proof.
  apply (same_pointwise JObject plain_object). intros m1 [k x] [k' y] m2 Hp [Hk Hs]. cbn in Hk, Hs.
  subst k'. split; [by constructor|]. by eapply plain_field.
Qed.

Lemma same_entries es es' :
  Forall2 (λ e e', ∃ k v k' v', e = entry_of k v ∧ e' = entry_of k' v' ∧
                                same_value k k' ∧ same_value v v') es es' →
  same_value (map_of es) (map_of es').
Proof.
  apply (same_pointwise map_of (λ _, True)); [|done].
  intros l1 x y l2 _ (k & v & k' & v' & -> & -> & Hk & Hv). split; [|done].
  eapply same_trans; [by apply same_key|by apply same_entry].
Qed.

(** Images with the keys of a sorted object, collected again, are those images. *)
Lemma collected_fields m cs : bt_sorted m → Forall2 (gives_field canon) m cs →
  bt_of_list (bt_of_list cs) = cs.
Proof.
  intros Hs Hcs. assert (bt_sorted cs) as Hs'.
  { revert Hs. unfold bt_sorted. induction Hcs as [|a b m cs [Hab _] Hcs IH]; [constructor|].
    intros [Hm Ha]%StronglySorted_inv. constructor; [by apply IH|].
    clear -Hab Ha Hcs. induction Hcs as [|c d m cs [Hcd _] _ IH]; [constructor|].
    apply Forall_cons in Ha as [Hac Ha]. constructor; [|by apply IH].
    unfold entry_lt in *. by rewrite <- Hab, <- Hcd. }
  assert (∀ l : bmap json, bt_sorted l → bt_of_list l = l) as Hid.
  { intros l Hl. apply bt_ext; [apply bt_sorted_of_list|done|]. intros k. by apply bt_of_list_get. }
  rewrite (Hid cs Hs'). by apply Hid.
Qed.

Lemma canonical_same v c : json_wf v → can v c → same_value v c.
Proof.
  revert c. induction v as [v IH] using (induction_ltof1 _ json_size). unfold ltof in IH.
  intros c Hwf Hc. destruct v as [|b|n|s|l|m].
  1, 2, 4: unfold gives in Hc; cbn in Hc; injection Hc as <-; constructor.
  - destruct n; unfold gives in Hc; cbn in Hc; [injection Hc as <-; constructor..|done].
  - apply canon_array in Hc as (cs & Hcs & ->).
    apply (same_pointwise JArray (λ _, True) same_value); [by split; [constructor|]|done|].
    eapply Forall2_elem; [exact Hcs|]. intros x d Hx Hd.
    apply IH; [by apply item_lt|by eapply item_wf|done].
  - destruct (object_cases m) as [Hp|(x & [-> | [-> | ->]])].
    + apply canon_plain in Hc as (cs & Hcs & ->); [|done].
      rewrite (collected_fields m) by (done || apply Hwf). apply same_fields; [done|].
      eapply Forall2_elem; [exact Hcs|]. intros [k x] [k' d] Hx [Hk Hd]. split; [done|].
      apply IH; [by eapply field_lt|by eapply field_wf|done].
    + apply canon_bigint in Hc as ->. constructor.
    + destruct x as [| | | |l|]; try done. apply canon_set in Hc as (m & Hm & ->).
      apply collects_values in Hm as (bs & Hbs & Hp).
      eapply same_trans; [|by apply same_set; symmetry].
      apply (same_pointwise set_of (λ _, True) same_value); [by split; [constructor|]|done|].
      eapply Forall2_elem; [exact Hbs|]. intros x d Hx Hd. destruct Hwf as (_ & Hwf & _).
      apply IH; [|by eapply item_wf|done]. apply item_lt in Hx. simpl in *. lia.
    + destruct x as [| | | |l|]; try done. apply canon_map in Hc as (m & Hm & ->).
      apply collects_values in Hm as (bs & Hbs & Hp).
      eapply same_trans; [|by apply same_map, Permutation_map; symmetry].
      apply same_entries, Forall2_fmap_r. eapply Forall2_elem; [exact Hbs|].
      intros e p He (k & v & -> & Hk & Hv). destruct Hwf as (_ & Hwf & _).
      eapply item_wf in Hwf; [|exact He]. apply item_lt in He. exists k, v, p.1, p.2.
      split; [done|]. split; [done|]. split; (apply IH; [|by apply Hwf|done]); simpl in *; lia.
Qed.

Lemma Forall2_image {A B} (R : A → B → Prop) (Q : B → Prop) l k :
  Forall2 R l k → (∀ x y, x ∈ l → R x y → Q y) → Forall Q k.
Proof.
  induction 1 as [|x y l k Hxy _ IH]; intros HQ; constructor.
  - apply (HQ x); [apply list_elem_of_here|done].
  - apply IH. intros a b Ha. apply HQ. by apply list_elem_of_further.
Qed.

(** A canonical form has no doubles and is nested no deeper than the value. *)
Lemma canonical_readable v : ∀ n c, json_wf v → (nesting v ≤ n)%nat → can v c → readable n c.
Proof.
  induction v as [v IH] using (induction_ltof1 _ json_size). unfold ltof in IH.
  intros n c Hwf Hn Hc. destruct v as [|b|x|s|l|m].
  1, 2, 4: unfold gives in Hc; cbn in Hc; injection Hc as <-; by split.
  - destruct x; unfold gives in Hc; cbn in Hc; [injection Hc as <-; by split..|done].
  - destruct n as [|n]; [cbn in Hn; lia|]. apply canon_array in Hc as (cs & Hcs & ->). apply readable_array.
    apply wf_array in Hwf. apply nesting_array in Hn. rewrite Forall_forall in Hwf, Hn.
    eapply Forall2_image; [exact Hcs|]. intros x d Hx. apply IH; [by apply item_lt|by apply Hwf|by apply Hn].
  - destruct n as [|n]; [cbn in Hn; lia|]. pose proof Hwf as [Hs Hf]%wf_object. pose proof (proj1 (nesting_object _ _) Hn) as Hd.
    destruct (object_cases m) as [Hp|(x & [-> | [-> | ->]])].
    + apply canon_plain in Hc as (cs & Hcs & ->); [|done]. apply readable_object.
      split; [apply bt_sorted_of_list|]. rewrite (collected_fields m) by done. rewrite Forall_forall in Hf, Hd.
      eapply Forall2_image; [exact Hcs|]. intros [k x] [k' d] Hx [_ Hc].
      apply (IH x); [by eapply field_lt|by apply (Hf (k, x))|by apply (Hd (k, x))|done].
    + pose proof Hc as ->%canon_bigint. unfold gives in Hc. cbn -[validate_decimal] in Hc.
      by destruct x.
    + destruct x as [| | | |l|]; try done. apply canon_set in Hc as (m & Hm & ->).
      apply collects_values in Hm as (bs & Hbs & Hp). rewrite Forall_singleton in Hd, Hf. cbn [snd] in Hd, Hf.
      apply readable_object. split; [by repeat constructor|]. apply Forall_singleton.
      destruct n as [|n]; [cbn in Hd; lia|]. apply wf_array in Hf. apply nesting_array in Hd. cbn [snd].
      apply readable_array. rewrite Hp. rewrite Forall_forall in Hf, Hd.
      eapply Forall2_image; [exact Hbs|]. intros x d Hx. apply IH; [|by apply Hf|by apply Hd].
      apply item_lt in Hx. simpl in *. lia.
    + destruct x as [| | | |l|]; try done. apply canon_map in Hc as (m & Hm & ->).
      apply collects_values in Hm as (bs & Hbs & Hp). rewrite Forall_singleton in Hd, Hf. cbn [snd] in Hd, Hf.
      apply readable_object. split; [by repeat constructor|]. apply Forall_singleton.
      destruct n as [|n]; [cbn in Hd; lia|]. apply wf_array in Hf. apply nesting_array in Hd. cbn [snd].
      apply readable_array, Forall_map. rewrite Hp. rewrite Forall_forall in Hf, Hd.
      eapply Forall2_image; [exact Hbs|]. intros e p He (k & v & -> & Hk & Hv).
      pose proof (Hf _ He) as Hwe%wf_array. pose proof (Hd _ He) as Hde. apply item_lt in He.
      destruct n as [|n]; [cbn in Hde; lia|]. apply nesting_array in Hde.
      rewrite !Forall_cons in Hwe, Hde. destruct Hwe as (Hwk & Hwv & _), Hde as (Hdk & Hdv & _).
      apply readable_array. rewrite !Forall_cons. split_and!; [apply (IH k)|apply (IH v)|]; try done; simpl in *; lia.
Qed.

Lemma canonical_agrees v w : same_value v w → ok (canonical_json_bytes v) = ok (canonical_json_bytes w).
Proof.
  intros E%same_value_agree. unfold canonical_json_bytes, agree, gives in *.
  destruct (canon v) as [c|] eqn:Ev; [by rewrite (proj1 (E c) eq_refl)|].
  destruct (canon w) as [d|] eqn:Ew; [|done]. by pose proof (proj2 (E d) eq_refl).
Qed.

Lemma canonical_bytes_ok v s : canonical_json_bytes v = Ok s ↔ ∃ c, can v c ∧ to_text c = Some s.
Proof.
  unfold canonical_json_bytes, gives. destruct (canon v) as [c|].
  - unfold to_string. destruct (to_text_total c) as [t Ht]. rewrite Ht. simpl. split.
    + intros [= <-]. by exists c.
    + intros (d & [= <-] & Hd). congruence.
  - split; [done|]. by intros (c & ? & _).
Qed.
End Facts.

(** ** Lemmas: the validators *)

Lemma validate_decimal_iff label v :
  is_ok (validate_decimal label v false) = canonical_decimal v.
Proof.
  destruct v as [|c v]; [done|]. unfold validate_decimal, strip_prefix, canonical_decimal.
  change (starts_with "-" (String c v)) with (c == "-"%char).
  change (strip_prefix_bytes (bytes "-") (bytes (String c v)))
    with (if c == "-"%char then Some (bytes v) else None).
  case_bool_decide as Hc.
  { subst c. change (starts_with "0" (String "-" v)) with false. by rewrite andb_false_r. }
  cbn [andb option_map default].
  rewrite (bool_decide_eq_false_2 (String c v = "-0")) by congruence.
  by destruct (is_empty _), (all_bytes _ _), ((1 <? _) && _).
Qed.

Lemma parse_request_id_iff v n :
  parse_request_id v = Ok n ↔ v = to_dec n ∧ 1 ≤ n ≤ MAX_REQUEST_ID.
Proof.
  unfold parse_request_id. pose proof (validate_decimal_iff "requestId" v) as Hd.
  destruct (validate_decimal "requestId" v false) as [[]|e].
  2: { split; [done|]. intros [-> _]. by rewrite canonical_to_dec in Hd. }
  rewrite (parse_u64_digits v) by done. destruct (N.leb_spec (decimal_of v) u64_max) as [Hm|Hm]; simpl.
  - destruct (N.eqb_spec (decimal_of v) 0); destruct (N.ltb_spec MAX_REQUEST_ID (decimal_of v)); simpl.
    1-3: split; [done|]; intros [-> ?]; rewrite decimal_of_to_dec in *; lia.
    split; [intros [= <-]; rewrite to_dec_decimal_of by done; split; [done|lia]|].
    intros [-> _]. by rewrite decimal_of_to_dec.
  - split; [done|]. intros [-> Hn]. rewrite decimal_of_to_dec in Hm.
    unfold MAX_REQUEST_ID, MAX_STREAM_GENERATION, u64_max in *. lia.
Qed.

(** ** Closed examples *)

#[local] Existing Instance reference_codec.
Definition plain_errors : JsonErrorText := {| json_error_text _ := "serialization failed" |}.
#[local] Existing Instance plain_errors.

Example validators :
  (validate_decimal "n" "-0" true, validate_decimal "n" "-12" true, parse_request_id "007",
   parse_request_id "9007199254740992", is_ok (validate_label "l" "tab	" 9),
   is_ok (validate_label "l" " ok " 4), is_ok (validate_sha256 "h" "sha256:12"))
  = (Err (Invalid "n must be a canonical decimal string"), Ok tt,
     Err (Invalid "requestId must be a canonical decimal string"),
     Err (Invalid "requestId must be between 1 and 9007199254740991"), false, true, false).
Proof. vm_compute. reflexivity. Qed.

(** A set of maps, in two orders. *)
Definition demo_value (swap : bool) : json :=
  let one := JNumber (NPosInt 1) in
  let big := JObject [("#bigint", JString "-7")] in
  let m := if swap then map_of [entry_of one JNull; entry_of big (JBool true)]
           else map_of [entry_of big (JBool true); entry_of one JNull] in
  JObject [("state", set_of (if swap then [one; m] else [m; one]))].

Example canonical_refusals :
  (canonicalize_json (set_of [JNull; JNull]), canonicalize_json (JArray [JNumber (NFloat 1 (-1))]),
   canonicalize_json (map_of [JNull]))
  = (Err (Invalid "ITF #set contains duplicate canonical values"),
     Err (Invalid "canonical adapter JSON forbids floating-point numbers"),
     Err (Invalid "each ITF #map entry must be a two-element [key, value] array")).
Proof. vm_compute. reflexivity. Qed.

Lemma demo_same : same_value (demo_value true) (demo_value false).
Proof.
  apply (same_field [] _ _ _ []); [simpl; rewrite !elem_of_cons, elem_of_nil; intuition discriminate|].
  eapply same_trans; [apply same_set, perm_swap|].
  apply (same_element [] _ _ [_]), same_map, perm_swap.
Qed.

(** ** Properties *)

(** C37: Canonical bytes identify the denoted value: decoded values that both
    have canonical bytes have the same bytes exactly when they are equal up
    to the order of set elements and map entries, at any depth; equal values
    are accepted or refused together; and the parser reads canonical bytes back,
    to a value whose canonical bytes they are, if the value is nested no deeper
    than the parser's recursion limit allows. *)
Theorem canonical_form `{SerdeJsonLaws} `{JsonErrorText} (v w : json)
    (Hv : json_wf v) (Hw : json_wf w) :
  (∀ s t, canonical_json_bytes v = Ok s → canonical_json_bytes w = Ok t →
     (s = t ↔ same_value v w)) ∧
  (same_value v w → ok (canonical_json_bytes v) = ok (canonical_json_bytes w)) ∧
  (∀ s, canonical_json_bytes v = Ok s → (nesting v ≤ MAX_NESTING)%nat →
     ∃ c, from_text s = Some c ∧ canonical_json_bytes c = Ok s ∧ same_value v c).
Proof.
  split_and!.
  - intros s t (c & Hc & Hs)%canonical_bytes_ok (d & Hd & Ht)%canonical_bytes_ok.
    destruct (canonical_readable v _ c Hv (le_n _) Hc) as [Hwc _].
    destruct (canonical_readable w _ d Hw (le_n _) Hd) as [Hwd _]. split.
    + intros ->. rewrite <- Ht in Hs. apply to_text_inj in Hs as ->; [|done..].
      eapply same_trans; [by apply canonical_same|]. by apply same_sym, canonical_same.
    + intros E%same_value_agree. apply E in Hc. unfold gives in Hc, Hd. congruence.
  - apply canonical_agrees.
  - intros s Hs Hdeep. pose proof Hs as (c & Hc & Ht)%canonical_bytes_ok.
    pose proof (canonical_readable v _ c Hv Hdeep Hc) as Hr. apply canonical_same in Hc; [|done].
    exists c. split; [by apply from_to_text|]. split; [|done].
    apply ok_Some. rewrite <- (canonical_agrees v c Hc). by apply ok_Some.
Qed.

Lemma canonical_form_witness :
  (is_ok (canonical_json_bytes (demo_value true)) = true ∧
   ok (canonical_json_bytes (demo_value true)) = ok (canonical_json_bytes (demo_value false))) ∧
  ∃ s c, canonical_json_bytes (demo_value true) = Ok s ∧ from_text s = Some c ∧ canonical_json_bytes c = Ok s.
Proof.
  assert (∀ b, json_wf (demo_value b)) as Hwf.
  { intros []; simpl; repeat match goal with
      |- _ ∧ _ => split | |- bt_sorted _ => repeat constructor | |- _ ≤ _ => discriminate | |- True => exact I end. }
  destruct (@canonical_form reference_codec reference_codec_laws plain_errors (demo_value true) (demo_value false)
    (Hwf true) (Hwf false)) as (_ & Hagree & Hback).
  assert (is_ok (canonical_json_bytes (demo_value true)) = true) as Hok by (vm_compute; reflexivity).
  split; [exact (conj Hok (Hagree demo_same))|]. destruct (is_ok_Ok _ Hok) as [s E].
  destruct (Hback s E) as (c & Hc & Hs & _); [vm_compute; repeat constructor|].
  exists s, c. exact (conj E (conj Hc Hs)).
Defined.
