(* ===== verification/AdapterStream.v ===== *)
(** * AdapterStream: messages and transcripts of the adapter stream protocol

    The second half of [src/tools/fmctl/src/adapter_stream_v1.rs]: the messages and
    their validation, the line parser, and [StreamTranscriptValidator], the
    state machine that follows a session.

    [transcript_accepted] is the main result: the validator accepts a text
    exactly when its lines are the messages of a well-formed session, which
    [session] describes without the machine's state.

    serde's derived decoders of a message and of a hello result are the
    interface [StreamSerde]; their errors are the texts they display. *)

From S2P Require Import Prelude Text Decimal Btree Json JsonCodec Itf.

(** ** Data *)

Inductive StreamOperationName :=
| NHello | NReset | NApply | NObserve | NSettle | NSnapshot | NRestore | NFault | NClose.

#[export] Instance operation_name_eq_dec : EqDecision StreamOperationName.
Proof. solve_decision. Defined.

Inductive StreamOperation :=
| Hello
| Reset_ (initial_state : json) (seed : option string) (logical_time : json)
| Apply (action : string) (arguments logical_time : json)
| Observe
| Settle (max_steps : N)
| Snapshot
| Restore_ (snapshot : json) (schema_hash : string)
| Fault (fault : string) (arguments : json)
| Close.

Record StreamError := {
  code : string;
  error_message : string;
  retryable : bool;
  data : option json
}.

Inductive StreamOutcome :=
| OutcomeOk (value : json)
| OutcomeError (error : StreamError)
| OutcomeUnsupported (error : StreamError).

Record StreamRequest := {
  rq_protocol : string;
  rq_protocol_version : N;
  rq_request_id : string;
  rq_machine : string;
  rq_generation : N;
  rq_operation : StreamOperation
}.

Record StreamResponse := {
  rs_protocol : string;
  rs_protocol_version : N;
  rs_request_id : string;
  rs_machine : string;
  rs_generation : N;
  rs_operation : StreamOperationName;
  rs_outcome : StreamOutcome
}.

Inductive StreamMessage := Request (r : StreamRequest) | Response (r : StreamResponse).

Record StreamImplementation := { language : string; impl_name : string; version : string }.

Record HelloResult := {
  implementation : StreamImplementation;
  capabilities : list StreamOperationName;
  canonical_state_schema_hash : string
}.

Definition STREAM_CAPABILITY_REGISTRY_V1 : list StreamOperationName :=
  [NReset; NApply; NObserve; NSettle; NSnapshot; NRestore; NFault; NClose].

Definition STREAM_REQUIRED_CAPABILITIES_V1 : list StreamOperationName :=
  [NReset; NApply; NObserve; NClose].

Class StreamSerde := {
  (** [serde_json::from_value::<HelloResult>] *)
  hello_from_value : json → result HelloResult string;
  (** [serde_json::from_slice::<StreamMessage>] *)
  message_from_slice : string → result StreamMessage string
}.

Definition name (self : StreamOperation) : StreamOperationName :=
  match self with
  | Hello => NHello
  | Reset_ _ _ _ => NReset
  | Apply _ _ _ => NApply
  | Observe => NObserve
  | Settle _ => NSettle
  | Snapshot => NSnapshot
  | Restore_ _ _ => NRestore
  | Fault _ _ => NFault
  | Close => NClose
  end.

Definition wire_name (self : StreamOperationName) : string :=
  match self with
  | NHello => "hello"
  | NReset => "reset"
  | NApply => "apply"
  | NObserve => "observe"
  | NSettle => "settle"
  | NSnapshot => "snapshot"
  | NRestore => "restore"
  | NFault => "fault"
  | NClose => "close"
  end.

(** The derived [Debug] of the name. *)
Definition debug_name (self : StreamOperationName) : string :=
  match self with
  | NHello => "Hello"
  | NReset => "Reset"
  | NApply => "Apply"
  | NObserve => "Observe"
  | NSettle => "Settle"
  | NSnapshot => "Snapshot"
  | NRestore => "Restore"
  | NFault => "Fault"
  | NClose => "Close"
  end.

(** [slice.join(sep)]. *)
Fixpoint join (sep : string) (l : list string) : string :=
  match l with
  | [] => ""
  | [s] => s
  | s :: l => s +:+ sep +:+ join sep l
  end.

(** The [Debug] of a list of strings with nothing to escape. *)
Definition debug_list (l : list string) : string := "[" +:+ join ", " (List.map quoted l) +:+ "]".

(** A [BTreeSet] of names used for membership only. *)
Definition mem (n : StreamOperationName) (s : list StreamOperationName) : bool :=
  existsb (λ m, m == n) s.

(** The loop of [canonicalize_capability_set_v1] over the capabilities. *)
Fixpoint collect_capabilities (l seen : list StreamOperationName)
    : result (list StreamOperationName) StreamProtocolError :=
  match l with
  | [] => Ok seen
  | capability :: l =>
      if capability == NHello then invalid "hello capabilities must not advertise hello"
      else if mem capability seen then
        invalid ("hello capabilities contain duplicate " +:+ quoted (wire_name capability))
      else collect_capabilities l (capability :: seen)
  end.

Definition canonicalize_capability_set_v1 (caps : list StreamOperationName)
    : result (list StreamOperationName) StreamProtocolError :=
  let? seen := collect_capabilities caps [] in
  let missing := List.map wire_name
    (List.filter (λ c, negb (mem c seen)) STREAM_REQUIRED_CAPABILITIES_V1) in
  match missing with
  | _ :: _ => invalid ("hello result is missing required capabilities: " +:+ join ", " missing)
  | [] => Ok (List.filter (λ c, mem c seen) STREAM_CAPABILITY_REGISTRY_V1)
  end.

(** ** Validation of a message *)

Section Stream.
Context `{SerdeJson, JsonErrorText, StreamSerde}.

Definition decode_hello_result (value : json) : result HelloResult StreamProtocolError :=
  map_err (λ error, protocol_error
             ("hello success value does not match the capability contract: " +:+ error))
    (hello_from_value value).

Definition validate_error (self : StreamError) : result unit StreamProtocolError :=
  let? _ := validate_label "error code" (code self) 128 in
  let? _ := validate_label "error message" (error_message self) 4096 in
  match data self with
  | Some data => let? _ := canonicalize_json data in Ok tt
  | None => Ok tt
  end.

Definition validate_hello (self : HelloResult) : result unit StreamProtocolError :=
  let? _ := validate_label "implementation language" (language (implementation self)) 128 in
  let? _ := validate_label "implementation name" (impl_name (implementation self)) 256 in
  let? _ := validate_label "implementation version" (version (implementation self)) 256 in
  let? _ := validate_sha256 "canonicalStateSchemaHash" (canonical_state_schema_hash self) in
  let? canonical := canonicalize_capability_set_v1 (capabilities self) in
  if negb (canonical == capabilities self) then
    invalid ("hello capabilities are not in canonical v1 order: got "
             +:+ debug_list (List.map wire_name (capabilities self)) +:+ "; expected "
             +:+ debug_list (List.map wire_name canonical))
  else Ok tt.

Definition validate_operation (operation : StreamOperation) : result unit StreamProtocolError :=
  match operation with
  | Hello | Observe | Snapshot | Close => Ok tt
  | Reset_ initial_state seed logical_time =>
      let? _ := canonicalize_json initial_state in
      let? _ := canonicalize_json logical_time in
      if is_some_and seed (λ value, is_empty (trim value)) then
        invalid "reset seed must be absent or nonempty"
      else Ok tt
  | Apply action arguments logical_time =>
      let? _ := validate_label "action" action 256 in
      let? _ := canonicalize_json arguments in
      let? _ := canonicalize_json logical_time in
      Ok tt
  | Settle max_steps =>
      if (max_steps =? 0) || (MAX_SETTLE_STEPS <? max_steps) then
        invalid ("settle maxSteps must be between 1 and " +:+ to_dec MAX_SETTLE_STEPS)
      else Ok tt
  | Restore_ snapshot schema_hash =>
      let? _ := canonicalize_json snapshot in
      validate_sha256 "restore schemaHash" schema_hash
  | Fault fault arguments =>
      let? _ := validate_label "fault" fault 256 in
      let? _ := canonicalize_json arguments in
      Ok tt
  end.

Definition validate_request (self : StreamRequest) : result unit StreamProtocolError :=
  let? _ := validate_envelope (rq_protocol self) (rq_protocol_version self)
              (rq_request_id self) (rq_machine self) in
  let? _ := validate_generation (rq_generation self) in
  validate_operation (rq_operation self).

Definition validate_outcome (operation : StreamOperationName) (outcome : StreamOutcome)
    : result unit StreamProtocolError :=
  match operation, outcome with
  | NHello, OutcomeOk value =>
      let? hello := decode_hello_result value in
      let? _ := validate_hello hello in
      let? _ := canonicalize_json value in
      Ok tt
  | _, OutcomeOk value => let? _ := canonicalize_json value in Ok tt
  | _, OutcomeError error | _, OutcomeUnsupported error => validate_error error
  end.

Definition validate_response (self : StreamResponse) : result unit StreamProtocolError :=
  let? _ := validate_envelope (rs_protocol self) (rs_protocol_version self)
              (rs_request_id self) (rs_machine self) in
  let? _ := validate_generation (rs_generation self) in
  validate_outcome (rs_operation self) (rs_outcome self).

Definition validate_message (self : StreamMessage) : result unit StreamProtocolError :=
  match self with
  | Request request => validate_request request
  | Response response => validate_response response
  end.

(** ** The line parser *)

Definition parse_stream_message_line (line : string) : result StreamMessage StreamProtocolError :=
  if MAX_STREAM_MESSAGE_BYTES <? len line then Err MessageTooLarge
  else if is_empty line || all_bytes is_ascii_whitespace line then
    invalid "stream adapter line must contain one JSON object"
  else if contains newline line || contains carriage_return line then
    invalid "stream adapter parser accepts one line without a terminator"
  else
    let? message := map_err JsonError (message_from_slice line) in
    let? _ := validate_message message in
    Ok message.

(** ** The transcript validator *)

Inductive SessionPhase := AwaitHello | Ready | Closed.

Record PendingRequest := {
  pd_request_id : string;
  pd_machine : string;
  pd_generation : N;
  pd_operation : StreamOperationName
}.

Record StreamTranscriptValidator := {
  phase : SessionPhase;
  generation : N;
  last_request_id : N;
  pending : option PendingRequest;
  advertised : list StreamOperationName
}.

Definition default_validator : StreamTranscriptValidator := {|
  phase := AwaitHello;
  generation := 0;
  last_request_id := 0;
  pending := None;
  advertised := []
|}.

(** The match on the phase in [accept_request]; [None] is its [unreachable!]. *)
Definition check_phase (self : StreamTranscriptValidator) (request : StreamRequest)
    (operation : StreamOperationName) : option (result unit StreamProtocolError) :=
  match phase self with
  | AwaitHello =>
      Some (if negb (operation == NHello) || negb (rq_generation request =? 0) then
              invalid "the first request must be hello at generation 0"
            else Ok tt)
  | Ready =>
      Some (if operation == NHello then invalid "hello may only occur before the session is ready"
            else
              let? expected_generation :=
                if operation == NReset then
                  if generation self =? MAX_STREAM_GENERATION then
                    invalid "adapter generation cannot advance beyond 2^53-1"
                  else Ok (generation self + 1)
                else Ok (generation self) in
              if negb (rq_generation request =? expected_generation) then
                invalid ("request " +:+ rq_request_id request +:+ " uses generation "
                         +:+ to_dec (rq_generation request) +:+ "; expected "
                         +:+ to_dec expected_generation)
              else Ok tt)
  | Closed => None
  end.

Definition accept_request (self : StreamTranscriptValidator) (request : StreamRequest)
    : option (StreamTranscriptValidator * result unit StreamProtocolError) :=
  match phase self, pending self with
  | Closed, _ => Some (self, invalid "request received after the session closed")
  | _, Some pending =>
      Some (self, invalid ("request " +:+ rq_request_id request
                           +:+ " arrived before response to request " +:+ pd_request_id pending))
  | _, None =>
      match parse_request_id (rq_request_id request) with
      | Err e => Some (self, Err e)
      | Ok request_id =>
          if request_id <=? last_request_id self then
            Some (self, invalid ("request id " +:+ rq_request_id request
                                 +:+ " must be strictly greater than "
                                 +:+ to_dec (last_request_id self)))
          else
            let operation := name (rq_operation request) in
            match check_phase self request operation with
            | None => None
            | Some (Err e) => Some (self, Err e)
            | Some (Ok _) =>
                Some ({| phase := phase self;
                         generation := generation self;
                         last_request_id := request_id;
                         pending := Some {| pd_request_id := rq_request_id request;
                                            pd_machine := rq_machine request;
                                            pd_generation := rq_generation request;
                                            pd_operation := operation |};
                         advertised := advertised self |}, Ok tt)
            end
      end
  end.

(** The match on the outcome in [accept_response]: the next phase, generation
    and capabilities. *)
Definition settle_outcome (self : StreamTranscriptValidator) (pending : PendingRequest)
    (outcome : StreamOutcome)
    : result (SessionPhase * N * list StreamOperationName) StreamProtocolError :=
  let unchanged := (phase self, generation self, advertised self) in
  match pd_operation pending, outcome with
  | NHello, OutcomeOk value =>
      let? hello := decode_hello_result value in
      let? _ := validate_hello hello in
      Ok (Ready, generation self, capabilities hello)
  | NHello, _ => invalid "hello must succeed"
  | NReset, OutcomeOk _ =>
      if generation self =? MAX_STREAM_GENERATION then
        invalid "adapter generation cannot advance beyond 2^53-1"
      else if negb (pd_generation pending =? generation self + 1) then
        invalid ("successful reset response generation " +:+ to_dec (pd_generation pending)
                 +:+ " does not advance " +:+ to_dec (generation self) +:+ " by one")
      else Ok (phase self, pd_generation pending, advertised self)
  | NClose, OutcomeOk _ => Ok (Closed, generation self, advertised self)
  | NClose, _ => invalid "close must succeed"
  | operation, OutcomeOk _ =>
      if negb (mem operation (advertised self)) then
        invalid ("adapter succeeded for unadvertised capability " +:+ debug_name operation)
      else Ok unchanged
  | operation, OutcomeUnsupported _ =>
      if mem operation (advertised self) then
        invalid ("adapter rejected advertised capability " +:+ debug_name operation
                 +:+ " as unsupported")
      else Ok unchanged
  | _, _ => Ok unchanged
  end.

Definition accept_response (self : StreamTranscriptValidator) (response : StreamResponse)
    : StreamTranscriptValidator * result unit StreamProtocolError :=
  match pending self with
  | None => (self, invalid ("response " +:+ rs_request_id response +:+ " has no pending request"))
  | Some pending =>
      if negb (rs_request_id response == pd_request_id pending)
         || negb (rs_machine response == pd_machine pending)
         || negb (rs_generation response =? pd_generation pending)
         || negb (rs_operation response == pd_operation pending) then
        (self, invalid "response does not echo the pending request identity")
      else
        match settle_outcome self pending (rs_outcome response) with
        | Err e => (self, Err e)
        | Ok (next_phase, next_generation, next_capabilities) =>
            ({| phase := next_phase;
                generation := next_generation;
                last_request_id := last_request_id self;
                pending := None;
                advertised := next_capabilities |}, Ok tt)
        end
  end.

Definition accept (self : StreamTranscriptValidator) (message : StreamMessage)
    : option (StreamTranscriptValidator * result unit StreamProtocolError) :=
  match validate_message message with
  | Err e => Some (self, Err e)
  | Ok _ =>
      match message with
      | Request request => accept_request self request
      | Response response => Some (accept_response self response)
      end
  end.

Definition finish (self : StreamTranscriptValidator) : result unit StreamProtocolError :=
  match pending self with
  | Some pending =>
      invalid ("transcript ended before response to request " +:+ pd_request_id pending)
  | None =>
      match phase self with
      | Closed => Ok tt
      | _ => invalid "complete transcript must end with a successful close response"
      end
  end.

(** ** The transcript *)

Definition strip_carriage_return (l : list ascii) : list ascii :=
  match rev l with
  | c :: r => if c == carriage_return then rev r else l
  | [] => l
  end.

(** [str::lines]: a final piece without a newline is a line when nonempty. *)
Definition lines (s : string) : list string :=
  match rev (split_list newline (bytes s)) with
  | [] => []
  | final :: pieces =>
      List.map (λ l, of_bytes (strip_carriage_return l)) (rev pieces)
      ++ match final with [] => [] | _ => [of_bytes final] end
  end.

(** [Display] of the error. *)
Definition error_text (e : StreamProtocolError) : string :=
  match e with
  | MessageTooLarge =>
      "stream adapter message exceeds the " +:+ to_dec MAX_STREAM_MESSAGE_BYTES +:+ "-byte limit"
  | JsonError display => "invalid stream adapter JSON: " +:+ display
  | Invalid message => "invalid stream adapter message: " +:+ message
  end.

Definition at_line {T} (number : N) (error : StreamProtocolError) : result T StreamProtocolError :=
  Err (protocol_error ("transcript line " +:+ to_dec number +:+ ": " +:+ error_text error)).

(** The loop over the numbered lines; [None] is an [unreachable!] reached. *)
Fixpoint validate_lines (number : N) (validator : StreamTranscriptValidator) (l : list string)
    : option (result unit StreamProtocolError) :=
  match l with
  | [] => Some (finish validator)
  | line :: l =>
      if is_empty (trim line) then
        Some (invalid ("transcript line " +:+ to_dec number +:+ " is blank"))
      else
        match parse_stream_message_line line with
        | Err error => Some (at_line number error)
        | Ok message =>
            match accept validator message with
            | None => None
            | Some (_, Err error) => Some (at_line number error)
            | Some (validator, Ok _) => validate_lines (number + 1) validator l
            end
        end
  end.

Definition validate_stream_transcript (source : string) : option (result unit StreamProtocolError) :=
  validate_lines 1 default_validator (lines source).

(** ** Specification: a well-formed session *)

(** A request with its response. *)
Definition Exchange : Type := StreamRequest * StreamResponse.
Implicit Types (x : Exchange) (xs : list Exchange).

Definition operation_of x : StreamOperationName := name (rq_operation x.1).
Definition id_of x : N := decimal_of (rq_request_id x.1).
Definition messages xs : list StreamMessage := flat_map (λ x, [Request x.1; Response x.2]) xs.

Definition succeeds x : bool := match rs_outcome x.2 with OutcomeOk _ => true | _ => false end.
Definition is_reset x : bool := operation_of x == NReset.

(** The generations advanced by the successful resets. *)
Definition resets xs : N := N.of_nat (length (List.filter (λ x, is_reset x && succeeds x) xs)).

(** Both messages are valid and the response echoes the request. *)
Definition answered x : Prop :=
  validate_request x.1 = Ok tt ∧ validate_response x.2 = Ok tt ∧
  rs_request_id x.2 = rq_request_id x.1 ∧ rs_machine x.2 = rq_machine x.1 ∧
  rs_generation x.2 = rq_generation x.1 ∧ rs_operation x.2 = operation_of x.

(** A successful hello that advertises [caps]. *)
Definition greets (caps : list StreamOperationName) x : Prop :=
  operation_of x = NHello ∧
  ∃ value h, rs_outcome x.2 = OutcomeOk value ∧ hello_from_value value = Ok h ∧
             validate_hello h = Ok tt ∧ caps = capabilities h.

(** An exchange in the middle of a session: what succeeds is advertised, a
    reset always may, and what is advertised is not called unsupported. *)
Definition honest (caps : list StreamOperationName) x : Prop :=
  operation_of x ≠ NHello ∧ operation_of x ≠ NClose ∧
  match rs_outcome x.2 with
  | OutcomeOk _ => operation_of x = NReset ∨ operation_of x ∈ caps
  | OutcomeUnsupported _ => operation_of x ∉ caps
  | OutcomeError _ => True
  end.

Definition closes x : Prop := operation_of x = NClose ∧ succeeds x = true.

(** Every request names the generation its predecessors' resets reached, a
    reset the one after it. *)
Definition generations_from (g : N) xs : Prop :=
  ∀ pre x post, xs = pre ++ x :: post →
    rq_generation x.1 = g + resets pre + (if is_reset x then 1 else 0).

Definition session (ms : list StreamMessage) : Prop :=
  ∃ caps greeting body closing,
    let xs := greeting :: body ++ [closing] in
    ms = messages xs ∧
    Forall answered xs ∧
    StronglySorted N.lt (List.map id_of xs) ∧
    generations_from 0 xs ∧
    greets caps greeting ∧ Forall (honest caps) body ∧ closes closing.

(** ** Lemmas: single messages *)

Implicit Types (v : StreamTranscriptValidator).

Lemma accept_request_no_panic v rq : accept_request v rq ≠ None.
Proof.
  unfold accept_request, check_phase. intros E. crack.
Qed.

(** The state after a request is accepted. *)
Definition asked v (rq : StreamRequest) : StreamTranscriptValidator :=
  {| phase := phase v; generation := generation v; last_request_id := decimal_of (rq_request_id rq);
     pending := Some {| pd_request_id := rq_request_id rq; pd_machine := rq_machine rq;
                        pd_generation := rq_generation rq; pd_operation := name (rq_operation rq) |};
     advertised := advertised v |}.

(** When a waiting validator takes a request. *)
Definition may_ask v (rq : StreamRequest) : Prop :=
  last_request_id v < decimal_of (rq_request_id rq) ∧
  match phase v with
  | AwaitHello => name (rq_operation rq) = NHello ∧ rq_generation rq = 0
  | Ready => name (rq_operation rq) ≠ NHello ∧
             rq_generation rq = generation v + (if name (rq_operation rq) == NReset then 1 else 0)
  | Closed => False
  end.

Lemma valid_request_inv rq : validate_request rq = Ok tt →
  parse_request_id (rq_request_id rq) = Ok (decimal_of (rq_request_id rq)) ∧
  rq_generation rq ≤ MAX_STREAM_GENERATION.
Proof.
  unfold validate_request, validate_envelope, validate_generation. intros E.
  case_bool_decide; simpl in E; [|done]. destruct (_ =? _); simpl in E; [|done].
  destruct (parse_request_id (rq_request_id rq)) as [n|] eqn:Ep; simpl in E; [|done].
  destruct (validate_label _ _ _); [|done].
  destruct (N.ltb_spec MAX_STREAM_GENERATION (rq_generation rq)); [done|]. split; [|done].
  apply parse_request_id_iff in Ep as [-> _]. by rewrite decimal_of_to_dec.
Qed.

Lemma accept_request_iff v rq v' : pending v = None → validate_request rq = Ok tt →
  (accept_request v rq = Some (v', Ok tt) ↔ may_ask v rq ∧ v' = asked v rq).
Proof.
  intros Hp Hv. apply valid_request_inv in Hv as [Hid Hg].
  unfold accept_request, may_ask, check_phase, asked. rewrite Hp, Hid.
  destruct (N.leb_spec (decimal_of (rq_request_id rq)) (last_request_id v)) as [Hl|Hl].
  { destruct (phase v); (split; [done|]); intros [[? _] _]; lia. }
  destruct (phase v); [| |split; [done|tauto]].
  - case_bool_decide; simpl; [|split; [done|tauto]].
    destruct (N.eqb_spec (rq_generation rq) 0); simpl; [|split; [done|tauto]].
    split; [by intros [= <-]|by intros [_ ->]].
  - case_bool_decide; simpl; [split; [done|tauto]|].
    case_bool_decide; simpl; [destruct (N.eqb_spec (generation v) MAX_STREAM_GENERATION); simpl|].
    + split; [done|]. intros [(_ & _ & ?) _]. lia.
    + destruct (N.eqb_spec (rq_generation rq) (generation v + 1)); simpl; [|split; [done|tauto]].
      split; [by intros [= <-]|by intros [_ ->]].
    + rewrite N.add_0_r.
      destruct (N.eqb_spec (rq_generation rq) (generation v)); simpl; [|split; [done|tauto]].
      split; [by intros [= <-]|by intros [_ ->]].
Qed.

Lemma accept_request_busy v rq v' p : pending v = Some p → accept_request v rq ≠ Some (v', Ok tt).
Proof. intros Hp. unfold accept_request. rewrite Hp. by destruct (phase v). Qed.

(** The state after the answer to [rq] is accepted. *)
Definition settled (rq : StreamRequest) (s : SessionPhase * N * list StreamOperationName)
    : StreamTranscriptValidator :=
  {| phase := s.1.1; generation := s.1.2; last_request_id := decimal_of (rq_request_id rq);
     pending := None; advertised := s.2 |}.

Definition request_of (rq : StreamRequest) : PendingRequest :=
  {| pd_request_id := rq_request_id rq; pd_machine := rq_machine rq;
     pd_generation := rq_generation rq; pd_operation := name (rq_operation rq) |}.

Lemma accept_response_iff v x v' :
  accept_response (asked v x.1) x.2 = (v', Ok tt) ↔
  (rs_request_id x.2 = rq_request_id x.1 ∧ rs_machine x.2 = rq_machine x.1 ∧
   rs_generation x.2 = rq_generation x.1 ∧ rs_operation x.2 = operation_of x) ∧
  ∃ s, settle_outcome (asked v x.1) (request_of x.1) (rs_outcome x.2) = Ok s ∧ v' = settled x.1 s.
Proof.
  unfold accept_response. cbn [pending asked]. fold (request_of x.1).
  destruct (N.eqb_spec (rs_generation x.2) (pd_generation (request_of x.1)));
    repeat case_bool_decide; simpl in *;
    try (split; [done|]; unfold operation_of; tauto).
  destruct (settle_outcome _ _ _) as [[[q g] c]|err] eqn:E.
  - split; [intros [= <-]; split; [done|]; by exists (q, g, c)|].
    by intros (_ & s & [= <-] & ->).
  - split; [done|]. by intros (_ & s & [=] & _).
Qed.

(** ** Lemmas: exchanges *)

Definition exchanges v x v' : Prop :=
  accept v (Request x.1) = Some (asked v x.1, Ok tt) ∧
  accept (asked v x.1) (Response x.2) = Some (v', Ok tt).

Lemma exchanges_iff v x v' : pending v = None →
  (exchanges v x v' ↔
   answered x ∧ may_ask v x.1 ∧
   ∃ s, settle_outcome (asked v x.1) (request_of x.1) (rs_outcome x.2) = Ok s ∧ v' = settled x.1 s).
Proof.
  intros Hp. unfold exchanges, accept, answered. cbn [validate_message].
  destruct (validate_request x.1) as [[]|e] eqn:Hv; [|split; [intros [? _]; done|intros ((? & _) & _); done]].
  rewrite accept_request_iff by done.
  destruct (validate_response x.2) as [[]|e]; [|split; [intros [_ ?]; done|intros ((_ & ? & _) & _); done]].
  assert (Some (accept_response (asked v x.1) x.2) = Some (v', Ok tt) ↔
    accept_response (asked v x.1) x.2 = (v', Ok tt)) as -> by (split; congruence).
  rewrite accept_response_iff. tauto.
Qed.

Definition ready (g last : N) (caps : list StreamOperationName) : StreamTranscriptValidator :=
  {| phase := Ready; generation := g; last_request_id := last; pending := None; advertised := caps |}.

Definition closed (g last : N) (caps : list StreamOperationName) : StreamTranscriptValidator :=
  {| phase := Closed; generation := g; last_request_id := last; pending := None; advertised := caps |}.

Lemma mem_iff n l : mem n l = true ↔ n ∈ l.
Proof.
  unfold mem. rewrite existsb_exists. setoid_rewrite bool_decide_eq_true. setoid_rewrite In_elem.
  split; [by intros (? & ? & ->)|by exists n].
Qed.

Lemma resets_cons x xs : resets (x :: xs) = (if is_reset x && succeeds x then 1 else 0) + resets xs.
Proof. unfold resets. simpl. destruct (is_reset x && succeeds x); simpl; lia. Qed.

Lemma settle_ready g last caps x s : operation_of x ≠ NHello →
  rq_generation x.1 = g + (if is_reset x then 1 else 0) → rq_generation x.1 ≤ MAX_STREAM_GENERATION →
  settle_outcome (asked (ready g last caps) x.1) (request_of x.1) (rs_outcome x.2) = Ok s ↔
  (closes x ∧ s = (Closed, g, caps)) ∨
  (honest caps x ∧ s = (Ready, g + resets [x], caps)).
Proof.
  rewrite resets_cons. unfold settle_outcome, closes, honest, succeeds, is_reset, operation_of.
  cbn [pd_operation request_of generation asked ready phase advertised pd_generation].
  intros Hh Hg Hm. pose proof (mem_iff (name (rq_operation x.1)) caps) as Hmem.
  change (resets []) with 0. rewrite N.add_0_r.
  rewrite Hg in *. clear Hg.
  destruct (name (rq_operation x.1)), (rs_outcome x.2); try done; cbn in Hm |- *;
    rewrite ?N.add_0_r, ?N.eqb_refl, ?(bool_decide_eq_true_2 (NReset = NReset)) in * by done; cbn;
    try destruct (mem _ caps); try (destruct (N.eqb_spec g MAX_STREAM_GENERATION); [lia|]); cbn;
    (split; [intros E; (discriminate E || injection E as <-)|]); intuition congruence.
Qed.

Lemma valid_generation x : answered x → rq_generation x.1 ≤ MAX_STREAM_GENERATION.
Proof. intros (Hv & _). apply (valid_request_inv _ Hv). Qed.

Lemma exchanges_default x v' : exchanges default_validator x v' ↔
  answered x ∧ 0 < id_of x ∧ rq_generation x.1 = 0 ∧
  ∃ caps, greets caps x ∧ v' = ready 0 (id_of x) caps.
Proof.
  rewrite exchanges_iff by done. unfold may_ask, greets, operation_of, id_of.
  cbn [phase default_validator last_request_id].
  assert (name (rq_operation x.1) = NHello → ∀ s,
    settle_outcome (asked default_validator x.1) (request_of x.1) (rs_outcome x.2) = Ok s ↔
    ∃ value h, rs_outcome x.2 = OutcomeOk value ∧ hello_from_value value = Ok h ∧
      validate_hello h = Ok tt ∧ s = (Ready, 0, capabilities h)) as Hs.
  { intros E s. unfold settle_outcome, decode_hello_result. cbn. rewrite E.
    destruct (rs_outcome x.2) as [value|err|err]; simpl; try (split; [done|]; by intros (? & ? & [=] & _)).
    split.
    - destruct (hello_from_value value) as [h|] eqn:Eh; simpl; [|done].
      destruct (validate_hello h) as [[]|] eqn:Ev; [|done]. intros [= <-]. by exists value, h.
    - intros (value' & h & [= <-] & Hd & Hv & ->). rewrite Hd. simpl. by rewrite Hv. }
  split.
  - intros (Ha & (Hid & Hn & Hg) & s & Hset & ->). apply (Hs Hn) in Hset as (value & h & Ho & Hd & Hv & ->).
    do 3 (split; [done|]). exists (capabilities h). split; [split; [done|]; by exists value, h|done].
  - intros (Ha & Hid & Hg & caps & (Hn & value & h & Ho & Hd & Hv & ->) & ->).
    do 2 (split; [done|]). exists (Ready, 0, capabilities h). split; [|done]. apply Hs; [done|]. by exists value, h.
Qed.

Lemma exchanges_ready g last caps x v' : exchanges (ready g last caps) x v' ↔
  answered x ∧ last < id_of x ∧ rq_generation x.1 = g + (if is_reset x then 1 else 0) ∧
  ((closes x ∧ v' = closed g (id_of x) caps) ∨
   (honest caps x ∧ v' = ready (g + resets [x]) (id_of x) caps)).
Proof.
  rewrite exchanges_iff by done. unfold may_ask, id_of.
  cbn [phase ready last_request_id generation]. split.
  - intros (Ha & (Hid & Hn & Hg) & s & Hset & ->).
    apply settle_ready in Hset; [|done..|by apply valid_generation].
    do 3 (split; [done|]). destruct Hset as [[? ->]|[? ->]]; auto.
  - intros (Ha & Hid & Hg & Hc).
    assert (operation_of x ≠ NHello) as Hn by (destruct Hc as [[[-> _] _]|[[? _] _]]; done).
    do 2 (split; [done|]).
    destruct Hc as [[Hc ->]|[Hc ->]];
      [exists (Closed, g, caps)|exists (Ready, g + resets [x], caps)]; (split; [|done]);
      (apply settle_ready; [done..|by apply valid_generation|]); [by left|by right].
Qed.

(** ** Lemmas: sequences of messages *)

Fixpoint accept_all v (ms : list StreamMessage) : option StreamTranscriptValidator :=
  match ms with
  | [] => Some v
  | m :: ms => match accept v m with Some (v', Ok _) => accept_all v' ms | _ => None end
  end.

(** The messages are accepted and the transcript may end there. *)
Definition completes v ms : Prop := ∃ v', accept_all v ms = Some v' ∧ finish v' = Ok tt.

Lemma finish_iff v : finish v = Ok tt ↔ pending v = None ∧ phase v = Closed.
Proof. unfold finish. destruct (pending v), (phase v); split; (done || by intros []). Qed.

Lemma exchanges_waiting v x v' : pending v = None → exchanges v x v' → pending v' = None.
Proof. intros Hp Hx. by apply exchanges_iff in Hx as (_ & _ & s & _ & ->). Qed.

Lemma completes_cons v ms : pending v = None →
  completes v ms ↔ (ms = [] ∧ phase v = Closed) ∨
    ∃ x ms' v', ms = Request x.1 :: Response x.2 :: ms' ∧ exchanges v x v' ∧ completes v' ms'.
Proof.
  intros Hp. split.
  - intros (v' & Hall & Hfin). destruct ms as [|m ms]; [left|right].
    { injection Hall as <-. by apply finish_iff in Hfin as [_ ?]. }
    simpl in Hall. destruct (accept v m) as [[v1 [[]|]]|] eqn:Em; try done.
    destruct m as [rq|rs].
    2: { unfold accept in Em. destruct (validate_message _); [|done].
         unfold accept_response in Em. by rewrite Hp in Em. }
    assert (v1 = asked v rq) as ->.
    { unfold accept in Em. destruct (validate_message _) as [[]|] eqn:Ev; [|done].
      by apply accept_request_iff in Em as [_ ->]. }
    destruct ms as [|m ms].
    { injection Hall as <-. by apply finish_iff in Hfin as [? _]. }
    simpl in Hall. destruct (accept (asked v rq) m) as [[v2 [[]|]]|] eqn:Em'; try done.
    destruct m as [rq'|rs].
    { unfold accept in Em'. destruct (validate_message _); [|done].
      by apply accept_request_busy with (p := request_of rq) in Em'. }
    exists (rq, rs), ms, v2. split; [done|]. split; [done|]. by exists v'.
  - intros [[-> Hc]|(x & ms' & v' & -> & [H1' H2'] & (v'' & Hall & Hfin))].
    + exists v. split; [done|by apply finish_iff].
    + exists v''. split; [|done]. simpl. by rewrite H1', H2'.
Qed.

Lemma completes_closed g last caps ms : completes (closed g last caps) ms ↔ ms = [].
Proof.
  rewrite completes_cons by done. split; [|intros ->; by left].
  intros [[? _]|(x & ms' & v' & _ & Hx & _)]; [done|].
  apply exchanges_iff in Hx as (_ & [_ []] & _); done.
Qed.

(** What remains of a session whose greeting is over. *)
Definition remains (caps : list StreamOperationName) (g last : N) xs : Prop :=
  ∃ body closing, xs = body ++ [closing] ∧ Forall answered xs ∧
    StronglySorted N.lt (last :: List.map id_of xs) ∧ generations_from g xs ∧
    Forall (honest caps) body ∧ closes closing.

Lemma generations_from_cons g x xs : generations_from g (x :: xs) ↔
  rq_generation x.1 = g + (if is_reset x then 1 else 0) ∧ generations_from (g + resets [x]) xs.
Proof.
  unfold generations_from. split.
  - intros Hg. split; [rewrite (Hg [] x xs) by done; change (resets []) with 0; lia|].
    intros pre y post ->. rewrite (Hg (x :: pre) y post) by done.
    rewrite (resets_cons _ pre), (resets_cons _ []). change (resets []) with 0. lia.
  - intros [Hx Hg] [|y pre] z post; intros [= -> ->]; [change (resets []) with 0; lia|].
    rewrite (Hg pre z post) by done. rewrite (resets_cons _ pre), (resets_cons _ []). change (resets []) with 0. lia.
Qed.

Lemma remains_cons caps g last x xs : remains caps g last (x :: xs) ↔
  answered x ∧ last < id_of x ∧ rq_generation x.1 = g + (if is_reset x then 1 else 0) ∧
  ((closes x ∧ xs = []) ∨ (honest caps x ∧ remains caps (g + resets [x]) (id_of x) xs)).
Proof.
  unfold remains. split.
  - intros (body & closing & E & Ha & Hs & Hg & Hh & Hc).
    apply Forall_cons in Ha as [Hax Ha]. simpl in Hs. rewrite sorted_cons2 in Hs. destruct Hs as [Hid Hs].
    apply generations_from_cons in Hg as [Hgx Hg]. split_and!; [done..|].
    destruct body as [|y body]; injection E as -> ->; [by left|right].
    apply Forall_cons in Hh as [Hhx Hh]. split; [done|]. by exists body, closing.
  - intros (Hax & Hid & Hgx & Hc).
    destruct Hc as [[Hc ->]|[Hh (body & closing & -> & Ha & Hs & Hg & Hhs & Hc)]].
    + exists [], x. split; [done|]. split; [by apply Forall_singleton|].
      split; [simpl; apply sorted_cons2; split; [done|repeat constructor]|].
      split; [|done]. apply generations_from_cons. split; [done|]. intros [|? ?] ? ? [=].
    + exists (x :: body), closing. split; [done|]. split; [by constructor|].
      split; [simpl; by rewrite sorted_cons2|]. split; [by apply generations_from_cons|].
      split; [by constructor|done].
Qed.

Lemma messages_inv xs rq rs ms : messages xs = Request rq :: Response rs :: ms →
  ∃ xs', xs = (rq, rs) :: xs' ∧ ms = messages xs'.
Proof. destruct xs as [|[a b] xs]; simpl; [done|]. intros [= -> -> <-]. by exists xs. Qed.

Lemma completes_ready caps xs : ∀ g last,
  completes (ready g last caps) (messages xs) ↔ remains caps g last xs.
Proof.
  induction xs as [|x xs IH]; intros g last; rewrite completes_cons by done.
  - split.
    + intros [[_ [=]]|(x & ms' & v' & [=] & _)].
    + intros (body & closing & E & _). by destruct body.
  - rewrite remains_cons. split.
    + intros [[[=] _]|(y & ms' & v' & E & Hx & Hc)].
      change (Request x.1 :: Response x.2 :: messages xs = Request y.1 :: Response y.2 :: ms') in E.
      injection E as E1 E2 <-. assert (y = x) as -> by (destruct x, y; simpl in *; congruence).
      apply exchanges_ready in Hx as (Ha & Hid & Hg & Hnext). do 3 (split; [done|]).
      destruct Hnext as [[Hcl ->]|[Hh ->]]; [left|right]; (split; [done|]).
      * apply completes_closed in Hc. by destruct xs as [|[? ?] ?].
      * by apply IH.
    + intros (Ha & Hid & Hg & Hnext). right.
      destruct Hnext as [[Hcl ->]|[Hh Hr]].
      * exists x, [], (closed g (id_of x) caps). split; [done|].
        split; [|by apply completes_closed].
        apply exchanges_ready. do 3 (split; [done|]). by left.
      * exists x, (messages xs), (ready (g + resets [x]) (id_of x) caps). split; [done|].
        split; [|by apply IH].
        apply exchanges_ready. do 3 (split; [done|]). by right.
Qed.

(** Only whole exchanges complete. *)
Lemma completes_messages n : ∀ v ms, (length ms ≤ n)%nat → pending v = None →
  completes v ms → ∃ xs, ms = messages xs.
Proof.
  induction n as [|n IH]; intros v ms Hn Hp Hc;
    (apply completes_cons in Hc; [|done]);
    destruct Hc as [[-> _]|(x & ms' & v' & -> & Hx & Hc)]; try (by exists []);
    simpl in Hn; [lia|].
  destruct (IH v' ms') as [xs ->]; [lia|by eapply exchanges_waiting|done|]. by exists (x :: xs).
Qed.

Lemma completes_default ms : completes default_validator ms ↔ session ms.
Proof.
  split.
  - intros Hc. destruct (completes_messages _ default_validator ms (le_n _)) as [xs ->]; [done..|].
    apply completes_cons in Hc as [[_ [=]]|(x & ms' & v' & E & Hx & Hc)]; [|done].
    apply messages_inv in E as (xs' & -> & ->). rewrite <- surjective_pairing in *.
    apply exchanges_default in Hx as (Ha & Hid & Hg & caps & Hgreet & ->).
    apply completes_ready in Hc as (body & closing & -> & Has & Hs & Hgs & Hh & Hcl).
    exists caps, x, body, closing. cbn zeta. split; [done|]. split; [by constructor|].
    split; [done|]. split; [|done]. apply generations_from_cons.
    assert (is_reset x = false) as Hr.
    { destruct Hgreet as [Hn _]. unfold is_reset. by rewrite Hn. }
    rewrite resets_cons, Hr. split; [lia|done].
  - intros (caps & x & body & closing & -> & Ha & Hs & Hg & Hgreet & Hh & Hcl).
    apply Forall_cons in Ha as [Hax Ha]. apply generations_from_cons in Hg as [Hgx Hg].
    assert (is_reset x = false) as Hr.
    { destruct Hgreet as [Hn _]. unfold is_reset. by rewrite Hn. }
    rewrite resets_cons, Hr in Hg. rewrite Hr in Hgx.
    apply completes_cons; [done|]. right. exists x, (messages (body ++ [closing])), (ready 0 (id_of x) caps).
    split; [done|]. split.
    + apply exchanges_default. split; [done|]. split.
      { destruct Hax as (Hv & _). apply valid_request_inv in Hv as [Hv _].
        apply parse_request_id_iff in Hv as [_ Hv]. unfold id_of. lia. }
      split; [lia|]. by exists caps.
    + apply completes_ready. by exists body, closing.
Qed.

(** ** Lemmas: the text *)

Definition line_of (line : string) (m : StreamMessage) : Prop :=
  is_empty (trim line) = false ∧ parse_stream_message_line line = Ok m.

Lemma accept_no_panic v m : accept v m ≠ None.
Proof.
  unfold accept. destruct (validate_message m); [|done]. destruct m; [apply accept_request_no_panic|done].
Qed.

Lemma validate_lines_no_panic l : ∀ n v, validate_lines n v l ≠ None.
Proof.
  induction l as [|line l IH]; intros n v; simpl; [done|].
  destruct (is_empty (trim line)); [done|]. destruct (parse_stream_message_line line) as [m|]; [|done].
  pose proof (accept_no_panic v m). destruct (accept v m) as [[v' [[]|]]|]; done || apply IH.
Qed.

Lemma validate_lines_iff l : ∀ n v,
  validate_lines n v l = Some (Ok tt) ↔ ∃ ms, Forall2 line_of l ms ∧ completes v ms.
Proof.
  induction l as [|line l IH]; intros n v; simpl.
  - split.
    + intros [= Hf]. exists []. split; [done|]. by exists v.
    + intros (ms & ->%Forall2_nil_inv_l & v' & [= <-] & Hf). by rewrite Hf.
  - split.
    + destruct (is_empty (trim line)) eqn:Et; [done|].
      destruct (parse_stream_message_line line) as [m|] eqn:Ep; [|done].
      destruct (accept v m) as [[v' [[]|]]|] eqn:Ea; [|done..].
      intros (ms & Hms & v'' & Hall & Hf)%IH. exists (m :: ms). split; [by constructor|].
      exists v''. split; [|done]. simpl. by rewrite Ea.
    + intros (ms & Hl & v'' & Hall & Hf). apply Forall2_cons_inv_l in Hl as (m & ms' & [Et Ep] & Hl & ->).
      rewrite Et, Ep. simpl in Hall. destruct (accept v m) as [[v' [[]|]]|]; try done.
      apply IH. exists ms'. split; [done|]. by exists v''.
Qed.

(** ** Lemmas: refused messages *)

(** A host that offers messages one after another and retries after refusals:
    the validator it ends with, and the messages that were accepted. *)
Fixpoint offer v (ms : list StreamMessage) : StreamTranscriptValidator * list StreamMessage :=
  match ms with
  | [] => (v, [])
  | m :: ms =>
      match accept v m with
      | None => (v, [])
      | Some (v', Err _) => offer v' ms
      | Some (v', Ok _) => let '(v'', kept) := offer v' ms in (v'', m :: kept)
      end
  end.

Lemma refusal_keeps v m v' e : accept v m = Some (v', Err e) → v' = v.
Proof.
  unfold accept. destruct (validate_message m); [|by intros [= <- _]]. destruct m.
  - unfold accept_request, check_phase. intros E. crack.
  - unfold accept_response. intros E. crack.
Qed.

Lemma offer_accepts ms : ∀ v v' kept, offer v ms = (v', kept) → accept_all v kept = Some v'.
Proof.
  induction ms as [|m ms IH]; intros v v' kept; simpl; [by intros [= <- <-]|].
  destruct (accept v m) as [[v1 [[]|e]]|] eqn:E; [| |by intros [= <- <-]].
  - destruct (offer v1 ms) as [v2 k] eqn:Ek. intros [= <- <-]. simpl. rewrite E. by apply IH.
  - apply refusal_keeps in E as ->. apply IH.
Qed.
End Stream.

(** ** Closed examples *)

(** A decoder of tags: the fixture [minimal-capabilities.jsonl], a reset in
    between, and a response that does not echo its request. *)
Module Demo.
#[export] Existing Instance reference_codec.
#[export] Existing Instance plain_errors.

Definition all_zero_hash : string := "sha256:" +:+ of_bytes (replicate 64 "0"%char).

Definition demo_hello : HelloResult := {|
  implementation := {| language := "fixture"; impl_name := "minimal-capabilities"; version := "1.0.0" |};
  capabilities := STREAM_REQUIRED_CAPABILITIES_V1;
  canonical_state_schema_hash := all_zero_hash
|}.

Definition ask (id : string) (g : N) (operation : StreamOperation) : StreamMessage :=
  Request {| rq_protocol := STREAM_ADAPTER_PROTOCOL; rq_protocol_version := 1; rq_request_id := id;
             rq_machine := "capabilities"; rq_generation := g; rq_operation := operation |}.

Definition answer (id : string) (g : N) (operation : StreamOperationName) (o : StreamOutcome)
    : StreamMessage :=
  Response {| rs_protocol := STREAM_ADAPTER_PROTOCOL; rs_protocol_version := 1; rs_request_id := id;
              rs_machine := "capabilities"; rs_generation := g; rs_operation := operation;
              rs_outcome := o |}.

#[export] Instance demo_serde : StreamSerde := {|
  hello_from_value v := match v with JString "hello" => Ok demo_hello | _ => Err "no hello" end;
  message_from_slice s :=
    match s with
    | "h?" => Ok (ask "1" 0 Hello)
    | "h!" => Ok (answer "1" 0 NHello (OutcomeOk (JString "hello")))
    | "r?" => Ok (ask "2" 1 (Reset_ JNull None JNull))
    | "r!" => Ok (answer "2" 1 NReset (OutcomeOk JNull))
    | "c?" => Ok (ask "3" 1 Close)
    | "c!" => Ok (answer "3" 1 NClose (OutcomeOk JNull))
    | "x!" => Ok (answer "2" 1 NApply (OutcomeOk JNull))
    | _ => Err "expected value"
    end
|}.

Definition transcript (tags : list string) : string :=
  of_bytes (flat_map (λ t, bytes t ++ [newline]) tags).

(** After a wrong response the right one is still accepted. *)
Example demo_retry :
  let wrong := answer "1" 0 NReset (OutcomeOk JNull) in
  let '(v, kept) := offer default_validator
    [ask "1" 0 Hello; wrong; answer "1" 0 NHello (OutcomeOk (JString "hello")); ask "2" 0 Close; wrong;
     answer "2" 0 NClose (OutcomeOk JNull)] in
  (finish v, length kept) = (Ok tt, 4%nat).
Proof. vm_compute. reflexivity. Qed.

Example demo_transcripts :
  List.map (λ tags, validate_stream_transcript (transcript tags))
    [["h?"; "h!"; "r?"; "r!"; "c?"; "c!"]; ["h?"; "h!"; "r?"; "x!"]; ["h?"; "h!"]; ["r?"]; ["h?"; ""]]
  = [Some (Ok tt);
     Some (Err (Invalid ("transcript line 4: invalid stream adapter message: "
                         +:+ "response does not echo the pending request identity")));
     Some (Err (Invalid "complete transcript must end with a successful close response"));
     Some (Err (Invalid ("transcript line 1: invalid stream adapter message: "
                         +:+ "the first request must be hello at generation 0")));
     Some (Err (Invalid "transcript line 2 is blank"))].
Proof. vm_compute. reflexivity. Qed.
End Demo.

(** ** Properties *)

(** C35: The validator of a transcript never reaches its [unreachable!], and it
    accepts a text exactly when every line is nonblank and parses to a valid
    message and the messages are those of a well-formed session: a greeting
    at generation 0 whose hello result is valid, then exchanges in strict
    request-response alternation with strictly increasing ids, each response
    echoing its request, each request at the generation the successful resets
    before it reached (a reset at the next one), successes only of advertised
    capabilities and no advertised one called unsupported, and at the very
    end a successful close. *)
Theorem transcript_accepted `{SerdeJson, JsonErrorText, StreamSerde} (source : string) :
  validate_stream_transcript source ≠ None ∧
  (validate_stream_transcript source = Some (Ok tt) ↔
   ∃ ms, Forall2 line_of (lines source) ms ∧ session ms).
Proof.
  split; [apply validate_lines_no_panic|]. unfold validate_stream_transcript.
  rewrite validate_lines_iff. by setoid_rewrite completes_default.
Qed.

(** A refused message leaves the validator as it was, so a host may retry:
    after any messages offered in any order, the transcript may end exactly
    when the accepted ones form a well-formed session. *)
Theorem refusals_are_retryable `{SerdeJson, JsonErrorText, StreamSerde} (ms : list StreamMessage) :
  (∀ v m v' e, accept v m = Some (v', Err e) → v' = v) ∧
  let '(v, kept) := offer default_validator ms in
  finish v = Ok tt ↔ session kept.
Proof.
  split; [apply refusal_keeps|]. destruct (offer default_validator ms) as [v kept] eqn:E.
  apply offer_accepts in E. rewrite <- completes_default. split.
  - intros Hf. by exists v.
  - intros (v' & Hv & Hf). congruence.
Qed.
