(* ===== verification/Float64.v ===== *)
(** * Float64: the IEEE 754 doubles the retry delay computes with

    Every finite double is a whole number of units of [2^-1074], so a double is
    a sign and a magnitude in units.  An operation is the exact result rounded
    to the nearest double, ties to even, which is how IEEE 754 defines it.
    [Duration]s are whole numbers of nanoseconds. *)

From S2P Require Import Prelude.

Inductive f64 :=
| NaN
| Infinity (negative : bool)
| Finite (negative : bool) (units : N).

#[export] Instance f64_eq_dec : EqDecision f64.
Proof. solve_decision. Defined.

(** 1.0 *)
Definition one_units : N := 2 ^ 1074.

(** The least magnitude that overflows. *)
Definition infinite_units : N := 2 ^ (1024 + 1074).

(** The whole number nearest to [num / den], ties to even. *)
Definition rne (num den : N) : N :=
  let q := num / den in
  match 2 * (num mod den) ?= den with
  | Lt => q
  | Gt => q + 1
  | Eq => if N.even q then q else q + 1
  end.

(** The significand has 53 bits. *)
Definition significand_bits : N := 53.

(** The double nearest to [num / den] units: the significand is rounded to 53
    bits, subnormals to a whole unit. *)
Definition round (num den : N) : N :=
  let shift := N.log2 (num / den) - (significand_bits - 1) in
  rne num (den * 2 ^ shift) * 2 ^ shift.

Definition representable (u : N) : Prop := ∃ m s, m < 2 ^ significand_bits ∧ u = m * 2 ^ s.

(** ** Conversions and operations of the standard library *)

Definition f64_of_units (negative : bool) (u : N) : f64 :=
  if u <? infinite_units then Finite negative u else Infinity negative.

(** An unsigned integer [as f64], and the operations on such magnitudes. *)
Definition units_of_int (n : N) : N := round (n * one_units) 1.
Definition units_div (a b : N) : N := round (a * one_units) b.
Definition units_add (a b : N) : N := round (a + b) 1.
Definition units_mul (a b : N) : N := round (a * b) one_units.

Definition f64_mul (x y : f64) : f64 :=
  match x, y with
  | NaN, _ | _, NaN => NaN
  | Finite s a, Finite t b => f64_of_units (xorb s t) (units_mul a b)
  | Finite s u, Infinity t | Infinity t, Finite s u => if u =? 0 then NaN else Infinity (xorb s t)
  | Infinity s, Infinity t => Infinity (xorb s t)
  end.

Definition is_finite (x : f64) : bool := match x with Finite _ _ => true | _ => false end.

(** [(0.0..=1.0).contains(&x)]; -0.0 is not below 0.0. *)
Definition in_unit_range (x : f64) : bool :=
  match x with
  | Finite negative u => (negb negative || (u =? 0)) && (u <=? one_units)
  | _ => false
  end.

(** ** Durations *)

Definition Duration : Type := N.
Definition NANOS_PER_SEC : N := 1000000000.
Definition MAX_DURATION : N := u64_max * NANOS_PER_SEC + 999999999.

Definition duration_secs (d : Duration) : N := d / NANOS_PER_SEC.
Definition duration_nanos (d : Duration) : N := d mod NANOS_PER_SEC.

Definition duration_checked_mul (d : Duration) (n : N) : option Duration :=
  if d * n <=? MAX_DURATION then Some (d * n) else None.

(** [Duration::as_secs_f64] *)
Definition as_secs_units (d : Duration) : N :=
  units_add (units_of_int (duration_secs d))
    (units_div (units_of_int (duration_nanos d)) (units_of_int NANOS_PER_SEC)).
Definition as_secs_f64 (d : Duration) : f64 := Finite false (as_secs_units d).

(** [Duration::from_secs_f64]: the nearest nanosecond, ties to even; [None] is
    its panic on NaN, negative and too large values. *)
Definition from_secs_f64 (x : f64) : option Duration :=
  match x with
  | NaN | Infinity _ => None
  | Finite negative u =>
      if negative && negb (u =? 0) then None
      else
        let d := rne (u * NANOS_PER_SEC) one_units in
        if d <=? MAX_DURATION then Some d else None
  end.

(** ** Lemmas: rounding *)

Lemma rne_bounds num den : 0 < den →
  2 * den * rne num den ≤ 2 * num + den ∧ 2 * num ≤ 2 * den * rne num den + den.
Proof.
  intros Hd. unfold rne. pose proof (N.div_mod num den) as Hq. pose proof (N.mod_lt num den) as Hr.
  revert Hq Hr. generalize (num / den) as q, (num mod den) as r. intros q r Hq Hr.
  specialize (Hq ltac:(lia)). specialize (Hr ltac:(lia)).
  destruct (N.compare_spec (2 * r) den); try destruct (N.even q); nia.
Qed.

Lemma rne_unique num den k : 2 * num < 2 * den * k + den → 2 * den * k < 2 * num + den →
  rne num den = k.
Proof.
  intros H1 H2. assert (0 < den) as Hd by lia. pose proof (rne_bounds num den Hd). nia.
Qed.

Lemma rne_exact k den : 0 < den → rne (k * den) den = k.
Proof. intros. apply rne_unique; lia. Qed.

Lemma rne_le a b c d : 0 < b → 0 < d → a * d ≤ c * b → rne a b ≤ rne c d.
Proof.
  intros Hb Hd Hle.
  destruct (N.le_gt_cases (rne a b) (rne c d)) as [|Hgt]; [done|exfalso].
  (* Halfway between the two results lie both quotients, so they are the same tie. *)
  pose proof (rne_bounds a b Hb) as [H1 _]. pose proof (rne_bounds c d Hd) as [_ H2].
  assert (rne a b = rne c d + 1) as E by nia.
  assert (2 * a = 2 * b * rne c d + b) as Ea by nia.
  assert (2 * c = 2 * d * rne c d + d) as Ec by nia.
  set (k := rne c d) in *.
  assert (∀ n m, 0 < m → 2 * n = 2 * m * k + m → rne n m = if N.even k then k else k + 1) as Htie.
  { intros n m Hm En. unfold rne.
    assert (n / m = k) as -> by (symmetry; apply (N.div_unique n m k (n - m * k)); nia).
    assert (n mod m = n - m * k) as ->
      by (symmetry; apply (N.mod_unique n m k (n - m * k)); nia).
    destruct (N.compare_spec (2 * (n - m * k)) m); [done|nia..]. }
  pose proof (Htie a b Hb Ea) as Ta. pose proof (Htie c d Hd Ec) as Tc. fold k in Tc.
  rewrite Ta in E. destruct (N.even k); lia.
Qed.

Definition shift_of (q : N) : N := N.log2 q - (significand_bits - 1).

Lemma pow2_pos s : 0 < 2 ^ s.
Proof. apply N.neq_0_lt_0, N.pow_nonzero. lia. Qed.
#[local] Hint Resolve pow2_pos : core.

Lemma shift_upper q : q < 2 ^ (shift_of q + significand_bits).
Proof.
  unfold shift_of, significand_bits. destruct (N.eq_dec q 0) as [->|Hq]; [apply pow2_pos|].
  apply N.log2_lt_pow2; lia.
Qed.

Lemma shift_lower q : 0 < shift_of q → 2 ^ (shift_of q + (significand_bits - 1)) ≤ q.
Proof.
  unfold shift_of, significand_bits. intros Hs. apply N.log2_le_pow2; [|lia].
  destruct q; [done|lia].
Qed.

Lemma div_below a b q : 0 < b → a / b < q → a < b * q.
Proof. intros Hb Hq. pose proof (N.mul_succ_div_gt a b). nia. Qed.

Lemma div_above a b q : 0 < b → q ≤ a / b → b * q ≤ a.
Proof. intros Hb Hq. pose proof (N.Div0.mul_div_le a b). nia. Qed.

Lemma rne_upper a b k : 0 < b → a ≤ k * b → rne a b ≤ k.
Proof. intros Hb Ha. rewrite <- (rne_exact k b Hb). apply rne_le; nia. Qed.

Lemma rne_lower a b k : 0 < b → k * b ≤ a → k ≤ rne a b.
Proof. intros Hb Ha. rewrite <- (rne_exact k b Hb) at 1. apply rne_le; nia. Qed.

Lemma rne_significand a b : 0 < b →
  rne a (b * 2 ^ shift_of (a / b)) ≤ 2 ^ significand_bits.
Proof.
  intros Hb. pose proof (pow2_pos (shift_of (a / b))). apply rne_upper; [nia|].
  pose proof (div_below a b _ Hb (shift_upper (a / b))) as Ha. rewrite N.pow_add_r in Ha. nia.
Qed.

Lemma round_upper a b : 0 < b → round a b ≤ 2 ^ (shift_of (a / b) + significand_bits).
Proof.
  intros Hb. pose proof (rne_significand a b Hb). unfold round. fold (shift_of (a / b)).
  rewrite N.pow_add_r. nia.
Qed.

Lemma round_lower a b : 0 < b → 0 < shift_of (a / b) →
  2 ^ (shift_of (a / b) + (significand_bits - 1)) ≤ round a b.
Proof.
  intros Hb Hs. unfold round. fold (shift_of (a / b)). pose proof (pow2_pos (shift_of (a / b))).
  assert (2 ^ (significand_bits - 1) ≤ rne a (b * 2 ^ shift_of (a / b))) as Hr.
  { apply rne_lower; [nia|]. pose proof (div_above a b _ Hb (shift_lower (a / b) Hs)) as Ha.
    rewrite N.pow_add_r in Ha. nia. }
  rewrite N.pow_add_r. nia.
Qed.

(** Rounding is monotone. *)
Lemma round_le a b c d : 0 < b → 0 < d → a * d ≤ c * b → round a b ≤ round c d.
Proof.
  intros Hb Hd Hle. assert (a / b ≤ c / d) as Hq.
  { apply N.div_le_lower_bound; [lia|]. pose proof (N.Div0.mul_div_le a b). nia. }
  assert (shift_of (a / b) ≤ shift_of (c / d)) as Hs.
  { unfold shift_of. pose proof (N.log2_le_mono _ _ Hq). lia. }
  apply N.lt_eq_cases in Hs as [Hs|Hs].
  - etransitivity; [by apply round_upper|]. etransitivity; [|apply round_lower; [done|lia]].
    apply N.pow_le_mono_r; [done|]. unfold significand_bits. lia.
  - unfold round. fold (shift_of (a / b)) (shift_of (c / d)). rewrite Hs.
    pose proof (pow2_pos (shift_of (c / d))).
    apply N.mul_le_mono_r, rne_le; nia.
Qed.

(** A double rounds to itself. *)
Lemma round_representable u : representable u → round u 1 = u.
Proof.
  intros (m & s & Hm & ->). unfold round. rewrite N.div_1_r. fold (shift_of (m * 2 ^ s)).
  assert (shift_of (m * 2 ^ s) ≤ s) as Ht.
  { destruct (N.eq_dec m 0) as [->|Hm0]; [unfold shift_of; simpl; lia|].
    unfold shift_of. rewrite N.log2_mul_pow2 by lia. apply N.log2_lt_pow2 in Hm; [|lia].
    unfold significand_bits in *. lia. }
  set (t := shift_of (m * 2 ^ s)) in *. pose proof (pow2_pos t).
  assert (m * 2 ^ s = m * 2 ^ (s - t) * (1 * 2 ^ t)) as E.
  { rewrite N.mul_1_l, <- N.mul_assoc, <- N.pow_add_r. do 2 f_equal. lia. }
  rewrite E at 1. rewrite rne_exact by lia. rewrite E. lia.
Qed.

Lemma representable_round a b : 0 < b → representable (round a b).
Proof.
  intros Hb. pose proof (rne_significand a b Hb) as Hr. unfold round. fold (shift_of (a / b)).
  apply N.lt_eq_cases in Hr as [Hr|Hr]; [by eexists _, _|].
  exists 1, (significand_bits + shift_of (a / b)). split; [done|]. by rewrite Hr, N.pow_add_r, N.mul_1_l.
Qed.

(** The error is at most half a unit of the last place. *)
Lemma round_near a b s : 0 < b → shift_of (a / b) ≤ s →
  2 * b * round a b ≤ 2 * a + b * 2 ^ s ∧ 2 * a ≤ 2 * b * round a b + b * 2 ^ s.
Proof.
  intros Hb Hs. unfold round. fold (shift_of (a / b)).
  pose proof (pow2_pos (shift_of (a / b))) as Hp.
  assert (2 ^ shift_of (a / b) ≤ 2 ^ s) as Hps by (by apply N.pow_le_mono_r).
  pose proof (rne_bounds a (b * 2 ^ shift_of (a / b))) as [H1 H2]; [nia|]. nia.
Qed.

(** ** Lemmas: seconds as doubles *)

Lemma one_units_pos : 0 < one_units.
Proof. apply pow2_pos. Qed.

Lemma units_of_small n : n < 2 ^ 53 → units_of_int n = n * one_units.
Proof. intros Hn. apply round_representable. by exists n, 1074. Qed.

Lemma units_of_int_le n m : n ≤ m → units_of_int n ≤ units_of_int m.
Proof. intros. apply round_le; [lia..|]. pose proof one_units_pos. nia. Qed.

Lemma duration_split d : d = duration_secs d * NANOS_PER_SEC + duration_nanos d ∧
  duration_nanos d < NANOS_PER_SEC.
Proof.
  unfold duration_secs, duration_nanos. split; [|by apply N.mod_lt].
  rewrite N.mul_comm. by apply N.div_mod.
Qed.

(** The fraction of a second, to within [2^-54]. *)
Lemma fraction_units n : n < NANOS_PER_SEC →
  let q := units_div (units_of_int n) (units_of_int NANOS_PER_SEC) in
  q ≤ one_units ∧
  2 * NANOS_PER_SEC * q ≤ 2 * (n * one_units) + NANOS_PER_SEC * 2 ^ 1021 ∧
  2 * (n * one_units) ≤ 2 * NANOS_PER_SEC * q + NANOS_PER_SEC * 2 ^ 1021.
Proof.
  intros Hn q. pose proof one_units_pos as HU.
  assert (q = round (n * one_units) NANOS_PER_SEC) as ->.
  { unfold q, units_div. rewrite !units_of_small by (unfold NANOS_PER_SEC in *; lia).
    apply N.le_antisymm; apply round_le; unfold NANOS_PER_SEC in *; nia. }
  split.
  - transitivity (round one_units 1); [apply round_le; unfold NANOS_PER_SEC in *; nia|].
    by rewrite round_representable by (by exists 1, 1074).
  - assert (shift_of (n * one_units / NANOS_PER_SEC) ≤ 1021) as Hs.
    { unfold shift_of. assert (N.log2 (n * one_units / NANOS_PER_SEC) ≤ 1073) as Hl; [|unfold significand_bits; lia].
      destruct (N.eq_dec (n * one_units / NANOS_PER_SEC) 0) as [->|Hq]; [simpl; lia|].
      apply N.lt_succ_r. change (N.succ 1073) with 1074. apply N.log2_lt_pow2; [by apply N.neq_0_lt_0|].
      apply N.Div0.div_lt_upper_bound. fold one_units. nia. }
    apply (round_near (n * one_units) NANOS_PER_SEC 1021); [done|exact Hs].
Qed.

(** Up to [2^63] seconds the double stays well below the largest duration. *)
Lemma as_secs_upper d : duration_secs d ≤ 2 ^ 63 → as_secs_units d ≤ 3 * 2 ^ 62 * one_units.
Proof.
  intros Hd. destruct (duration_split d) as [_ Hn]. destruct (fraction_units _ Hn) as [Hq _].
  assert (units_of_int (duration_secs d) ≤ 2 ^ 63 * one_units) as HS.
  { etransitivity; [by apply (units_of_int_le _ (2 ^ 63))|]. unfold units_of_int.
    rewrite round_representable; [done|]. exists 1, (63 + 1074). by rewrite N.pow_add_r, N.mul_1_l. }
  transitivity (round (3 * 2 ^ 62 * one_units) 1).
  - apply round_le; [done..|]. rewrite !N.mul_1_r. change (2 ^ 63) with (2 * 2 ^ 62) in HS.
    assert (1 ≤ 2 ^ 62) by done. nia.
  - rewrite round_representable; [done|]. exists 3, (62 + 1074). by rewrite N.pow_add_r, N.mul_assoc.
Qed.

(** Below [2^22] seconds (48 days) the double names the nanosecond it came from. *)
Lemma as_secs_exact d : duration_secs d < 2 ^ 22 → rne (as_secs_units d * NANOS_PER_SEC) one_units = d.
Proof.
  intros Hd. destruct (duration_split d) as [Ed Hn]. destruct (fraction_units _ Hn) as (Hq & H1 & H2).
  unfold as_secs_units, units_add.
  rewrite (units_of_small (duration_secs d)) by (etransitivity; [exact Hd|done]).
  set (S := duration_secs d) in *. set (n := duration_nanos d) in *.
  set (q := units_div _ _) in *. pose proof one_units_pos as HU.
  assert (shift_of ((S * one_units + q) / 1) ≤ 1044) as Hs.
  { rewrite N.div_1_r. unfold shift_of. assert (N.log2 (S * one_units + q) ≤ 1096) as Hl.
    - change 1096 with (N.log2 (2 ^ 1096)). apply N.log2_le_mono.
      change (2 ^ 1096) with (2 ^ (22 + 1074)). rewrite N.pow_add_r. fold one_units. nia.
    - unfold significand_bits. lia. }
  pose proof (round_near (S * one_units + q) 1 1044 N.lt_0_1 Hs) as [H3 H4].
  set (t := round (S * one_units + q) 1) in *.
  assert (2 ^ 1044 = 2 ^ 1021 * 2 ^ 23) as E1 by done. rewrite E1 in H3, H4.
  assert (one_units = 2 ^ 1021 * 2 ^ 53) as E2 by done.
  pose proof (pow2_pos 1021) as Hh. rewrite E2 in *. revert Hh H1 H2 H3 H4.
  generalize (2 ^ 1021) as h. intros h Hh H1 H2 H3 H4.
  change (2 ^ 23) with 8388608 in *. change (2 ^ 53) with 9007199254740992 in *.
  unfold NANOS_PER_SEC in *. rewrite Ed. apply rne_unique; lia.
Qed.
