(* ===== verification/RetryDelay.v ===== *)
(** * RetryDelay: full-jitter exponential backoff

    [compute_protocol_retry_delay] of [clients/rust/src/protocol_sync.rs] over the
    doubles of Float64.v.  A u32 failure count is an [N], the two [Duration]s
    are nanoseconds, and [None] is the panic of [Duration::from_secs_f64]. *)

From S2P Require Import Prelude Protocol Float64.

Definition compute_protocol_retry_delay (consecutive_failure : N) (base maximum : Duration)
    (sample : f64) (retry_after : Duration) : option (result Duration ProtocolError) :=
  if (consecutive_failure =? 0) || (base =? 0) || (maximum <? base)
     || negb (is_finite sample) || negb (in_unit_range sample)
  then Some (Err InvalidLimit)
  else
    let exponent := N.min (consecutive_failure - 1) 30 in
    let ceiling :=
      N.min (default maximum (duration_checked_mul base (N.shiftl 1 exponent))) maximum in
    match from_secs_f64 (f64_mul (as_secs_f64 ceiling) sample) with
    | None => None
    | Some jittered => Some (Ok (N.max jittered retry_after))
    end.

(** ** Specification *)

(** The doubling delay of the n-th consecutive failure, up to the maximum. *)
Definition retry_ceiling (consecutive_failure : N) (base maximum : Duration) : Duration :=
  N.min (base * 2 ^ N.min (consecutive_failure - 1) 30) maximum.

Definition usable (consecutive_failure : N) (base maximum : Duration) (sample : f64) : Prop :=
  0 < consecutive_failure ∧ 0 < base ≤ maximum ∧ in_unit_range sample = true.

Definition one : f64 := Finite false one_units.
Definition zero : f64 := Finite false 0.

(** ** Lemmas *)

Lemma guard_iff failure base maximum sample :
  (failure =? 0) || (base =? 0) || (maximum <? base)
    || negb (is_finite sample) || negb (in_unit_range sample) = false ↔
  usable failure base maximum sample.
Proof.
  unfold usable. rewrite !orb_false_iff, !negb_false_iff, !N.eqb_neq, N.ltb_ge.
  assert (in_unit_range sample = true → is_finite sample = true) by (by destruct sample).
  split; [intros ((((? & ?) & ?) & ?) & ?)|intros (? & [? ?] & ?)]; repeat split; (done || lia || auto).
Qed.

Lemma ceiling_eq failure base maximum : maximum ≤ MAX_DURATION →
  N.min (default maximum (duration_checked_mul base (N.shiftl 1 (N.min (failure - 1) 30)))) maximum
  = retry_ceiling failure base maximum.
Proof.
  intros Hm. unfold retry_ceiling, duration_checked_mul. rewrite N.shiftl_1_l.
  destruct (N.leb_spec (base * 2 ^ N.min (failure - 1) 30) MAX_DURATION); simpl; lia.
Qed.

Lemma as_secs_representable d : representable (as_secs_units d).
Proof. by apply representable_round. Qed.

(** Scaling a double by a sample does not exceed it, and by 1.0 keeps it. *)
Lemma units_mul_le t v : representable t → v ≤ one_units → units_mul t v ≤ t.
Proof.
  intros Ht Hv. rewrite <- (round_representable t Ht) at 2.
  apply round_le; [apply one_units_pos|done|nia].
Qed.

Lemma units_mul_one t : representable t → units_mul t one_units = t.
Proof.
  intros Ht. rewrite <- (round_representable t Ht) at 2. pose proof one_units_pos.
  apply N.le_antisymm; apply round_le; (done || nia).
Qed.

(** The jittered duration, when it is not too large. *)
Definition jittered_of (ceiling : Duration) (v : N) : Duration :=
  rne (units_mul (as_secs_units ceiling) v * NANOS_PER_SEC) one_units.

Lemma jitter_ok ceiling sample : duration_secs ceiling ≤ 2 ^ 63 → in_unit_range sample = true →
  ∃ negative v, sample = Finite negative v ∧ v ≤ one_units ∧
    from_secs_f64 (f64_mul (as_secs_f64 ceiling) sample) = Some (jittered_of ceiling v).
Proof.
  intros Hc Hs. destruct sample as [| |negative v]; try done. exists negative, v. split; [done|].
  unfold in_unit_range in Hs. apply andb_true_iff in Hs as [Hneg Hv%N.leb_le]. split; [done|].
  unfold as_secs_f64, f64_mul, f64_of_units. cbn [xorb].
  pose proof (as_secs_upper ceiling Hc) as Ht.
  pose proof (units_mul_le _ v (as_secs_representable ceiling) Hv) as Hu.
  rewrite (proj2 (N.ltb_lt _ _)).
  2: { eapply N.le_lt_trans; [exact (N.le_trans _ _ _ Hu Ht)|]. by vm_compute. }
  unfold from_secs_f64. replace (negative && negb (units_mul (as_secs_units ceiling) v =? 0)) with false.
  2: { destruct negative; [|done]. simpl in Hneg. apply N.eqb_eq in Hneg as ->.
       unfold units_mul. by rewrite N.mul_0_r. }
  cbv zeta. fold (jittered_of ceiling v). rewrite (proj2 (N.leb_le _ _)); [done|].
  transitivity (3 * 2 ^ 62 * NANOS_PER_SEC); [|done].
  apply rne_upper; [apply one_units_pos|]. unfold NANOS_PER_SEC. nia.
Qed.

Lemma jittered_le ceiling v : duration_secs ceiling < 2 ^ 22 → v ≤ one_units →
  jittered_of ceiling v ≤ ceiling.
Proof.
  intros Hc Hv. rewrite <- (as_secs_exact ceiling Hc) at 2. unfold jittered_of.
  pose proof one_units_pos. apply rne_le; [done..|].
  do 2 apply N.mul_le_mono_r. by apply units_mul_le; [apply as_secs_representable|].
Qed.

Lemma jittered_one ceiling : duration_secs ceiling < 2 ^ 22 → jittered_of ceiling one_units = ceiling.
Proof.
  intros Hc. unfold jittered_of. rewrite units_mul_one by apply as_secs_representable.
  by apply as_secs_exact.
Qed.

Lemma jittered_zero ceiling : jittered_of ceiling 0 = 0.
Proof. unfold jittered_of, units_mul. by rewrite N.mul_0_r. Qed.

Lemma secs_le d n : d ≤ n * NANOS_PER_SEC → duration_secs d ≤ n.
Proof. intros Hd. apply N.Div0.div_le_upper_bound. lia. Qed.

Lemma secs_lt d n : d < n * NANOS_PER_SEC → duration_secs d < n.
Proof. intros Hd. apply N.Div0.div_lt_upper_bound. lia. Qed.

Lemma small_maximum m : m ≤ 2 ^ 63 * NANOS_PER_SEC → m ≤ MAX_DURATION.
Proof. intros Hm. eapply N.le_trans; [exact Hm|]. by vm_compute. Qed.

Lemma smaller_maximum m : m < 2 ^ 22 * NANOS_PER_SEC → m ≤ 2 ^ 63 * NANOS_PER_SEC.
Proof. intros Hm. eapply N.le_trans; [apply N.lt_le_incl, Hm|]. by vm_compute. Qed.

(** ** Closed examples *)

Definition millis (n : N) : Duration := n * 1000000.
Definition seconds (n : N) : Duration := n * NANOS_PER_SEC.

(** The repository's own cases. *)
Example retry_cases :
  (compute_protocol_retry_delay 1 (millis 500) (seconds 30) zero 0,
   compute_protocol_retry_delay 4 (millis 500) (seconds 30) one 0,
   compute_protocol_retry_delay 2 (millis 500) (seconds 30) (Finite false (one_units / 4)) (seconds 12),
   compute_protocol_retry_delay 0 (millis 500) (seconds 30) (Finite false (one_units / 2)) 0)
  = (Some (Ok 0), Some (Ok (seconds 4)), Some (Ok (seconds 12)), Some (Err InvalidLimit)).
Proof. vm_compute. reflexivity. Qed.

(** ** Properties *)

(** The retry delay refuses exactly a failure count of zero, an empty base,
    a maximum below the base and a sample that is not a finite number of
    [0, 1].  On usable arguments it cannot panic while the maximum is at most
    [2^63] seconds, and while it is below [2^22] seconds (48 days) the delay
    lies between the floor and the larger of the floor and the doubling
    ceiling, however the doubles round, reaching the ceiling at 1.0 and the
    floor at 0.0.  The largest maximum does panic: the guard does not bound it. *)
Theorem retry_delay_bounded (failure : N) (base maximum : Duration) (sample : f64)
    (floor : Duration) :
  (compute_protocol_retry_delay failure base maximum sample floor = Some (Err InvalidLimit) ↔
   ¬ usable failure base maximum sample) ∧
  (maximum ≤ 2 ^ 63 * NANOS_PER_SEC →
   compute_protocol_retry_delay failure base maximum sample floor ≠ None) ∧
  (maximum < 2 ^ 22 * NANOS_PER_SEC → usable failure base maximum sample →
   ∃ d, compute_protocol_retry_delay failure base maximum sample floor = Some (Ok d) ∧
        floor ≤ d ≤ N.max floor (retry_ceiling failure base maximum) ∧
        (sample = one → d = N.max floor (retry_ceiling failure base maximum)) ∧
        (sample = zero → d = floor)) ∧
  compute_protocol_retry_delay 1 MAX_DURATION MAX_DURATION one 0 = None.
Proof.
  pose proof (guard_iff failure base maximum sample) as Hg.
  unfold compute_protocol_retry_delay at 1 2 3.
  set (guard := (_ || negb (in_unit_range sample))) in *.
  assert (maximum ≤ 2 ^ 63 * NANOS_PER_SEC → usable failure base maximum sample →
    ∃ negative v, sample = Finite negative v ∧ v ≤ one_units ∧
      from_secs_f64 (f64_mul (as_secs_f64 (retry_ceiling failure base maximum)) sample)
      = Some (jittered_of (retry_ceiling failure base maximum) v)) as Hj.
  { intros Hm (_ & _ & Hs). apply jitter_ok; [|done].
    apply secs_le. unfold retry_ceiling. lia. }
  split_and!.
  - destruct guard; [split; [intros _ Hu; by apply Hg in Hu|done]|].
    split; [by clear Hj; destruct (from_secs_f64 _)|].
    intros Hn. exfalso. exact (Hn (proj1 Hg eq_refl)).
  - intros Hm. destruct guard; [done|]. cbv zeta.
    rewrite ceiling_eq by by apply small_maximum.
    destruct (Hj Hm) as (neg & v & _ & _ & ->); [by apply Hg|done].
  - intros Hm Hu. rewrite (proj2 Hg Hu). cbv zeta.
    rewrite ceiling_eq by by apply small_maximum, smaller_maximum.
    destruct (Hj (smaller_maximum _ Hm) Hu) as (neg & v & -> & Hv & ->).
    assert (duration_secs (retry_ceiling failure base maximum) < 2 ^ 22) as Hc.
    { apply secs_lt. unfold retry_ceiling. lia. }
    pose proof (jittered_le _ v Hc Hv). eexists. split; [done|]. split; [lia|]. split.
    + intros [= _ ->]. rewrite jittered_one by done. lia.
    + intros [= _ ->]. rewrite jittered_zero. lia.
  - vm_compute. reflexivity.
Qed.

Lemma retry_delay_bounded_witness :
  ∃ d, compute_protocol_retry_delay 3 (millis 500) (seconds 30) (Finite false (one_units / 3)) (millis 20)
       = Some (Ok d) ∧ millis 20 ≤ d ≤ seconds 2.
Proof.
  destruct (retry_delay_bounded 3 (millis 500) (seconds 30) (Finite false (one_units / 3)) (millis 20))
    as (_ & _ & H & _).
  destruct H as (d & Hd & Hb & _); [vm_compute; reflexivity|repeat split; vm_compute; done|].
  exists d. split; [exact Hd|]. exact Hb.
Defined.
