(* ===== verification/Regex.v ===== *)
(** * Regex: the regular expressions the sources document

    The matchers of the ingest schema are written by hand; each documents the
    regular expression it stands for.  This file gives those expressions their
    meaning: an expression over characters, where a character is a UTF-8
    encoded code point, and the inductive relation of matching. *)

From S2P Require Import Prelude Text.

(** ** Characters *)

(** A code point as its UTF-8 bytes. *)
Definition char : Type := list ascii.

(** A byte string cut before every byte that is not a continuation byte. *)
Definition add_byte (a : ascii) (cs : list char) : list char :=
  match cs with
  | (b :: c) :: cs' => if is_continuation_byte b then (a :: b :: c) :: cs' else [a] :: cs
  | _ => [a] :: cs
  end.

Definition chars_of (l : list ascii) : list char := foldr add_byte [] l.
Definition chars (s : string) : list char := chars_of (bytes s).

(** What UTF-8 guarantees of a character: a lone ASCII byte, or a lead byte
    with continuation bytes. *)
Definition char_ok (c : char) : bool :=
  match c with
  | [a] => in_range 0 127 a
  | a :: l => in_range 192 255 a && forallb is_continuation_byte l
  | [] => false
  end.

(** A weak form of validity, all that the lemmas need; every Rust [str] has it. *)
Definition utf8_cut (s : string) : Prop := Forall (λ c, char_ok c = true) (chars s).

(** ** Expressions *)

Inductive regex :=
| Empty
| Chars (p : char → bool)
| Seq (r1 r2 : regex)
| Alt (r1 r2 : regex)
| Repeat (r : regex) (least : nat) (most : option nat).

(** A character class of ASCII bytes. *)
Definition ascii_class (p : ascii → bool) : regex :=
  Chars (λ c, match c with [a] => in_range 0 127 a && p a | _ => false end).
Definition literal_char (a : ascii) : regex := ascii_class (λ b, b == a).
(** [[^a]] *)
Definition but_char (a : ascii) : regex := Chars (λ c, negb (c == [a])).

Definition times (r : regex) (n : nat) : regex := Repeat r n (Some n).
Definition star (r : regex) : regex := Repeat r 0 None.
Definition plus (r : regex) : regex := Repeat r 1 None.
Definition optional (r : regex) : regex := Repeat r 0 (Some 1%nat).

(** The concatenation of matches of one language. *)
Inductive iterated (L : list char → Prop) : nat → list char → Prop :=
| iterated_0 : iterated L 0 []
| iterated_S n l1 l2 : L l1 → iterated L n l2 → iterated L (S n) (l1 ++ l2).

Fixpoint matches (r : regex) (l : list char) : Prop :=
  match r with
  | Empty => l = []
  | Chars p => ∃ c, l = [c] ∧ p c = true
  | Seq r1 r2 => ∃ l1 l2, l = l1 ++ l2 ∧ matches r1 l1 ∧ matches r2 l2
  | Alt r1 r2 => matches r1 l ∨ matches r2 l
  | Repeat r least most =>
      ∃ n, (least ≤ n)%nat ∧ match most with Some m => (n ≤ m)%nat | None => True end ∧
           iterated (matches r) n l
  end.

(** An anchored expression [^r$] accepts a string. *)
Definition accepts (r : regex) (s : string) : Prop := matches r (chars s).

(** ** Lemmas: characters *)

Lemma add_byte_concat a cs : concat (add_byte a cs) = a :: concat cs.
Proof. destruct cs as [|[|b c] cs]; simpl; [done..|]. by destruct (is_continuation_byte b). Qed.

Lemma concat_chars l : concat (chars_of l) = l.
Proof. induction l as [|a l IH]; [done|]. unfold chars_of in *. simpl. by rewrite add_byte_concat, IH. Qed.

(** ** Lemmas: repetition of a class *)

Lemma iterated_class p n l :
  iterated (matches (Chars p)) n l ↔ length l = n ∧ forallb p l = true.
Proof.
  split.
  - induction 1 as [|n l1 l2 (c & -> & Hc) _ [IHl IHp]]; simpl; [done|].
    by rewrite IHl, Hc, IHp.
  - intros [<- Hp]. induction l as [|c l IH]; simpl in *; [constructor|].
    apply andb_true_iff in Hp as [Hc Hp]. apply (iterated_S _ (length l) [c] l); [by exists c|by apply IH].
Qed.

Lemma matches_class_repeat p least most l :
  matches (Repeat (Chars p) least most) l ↔
  (least ≤ length l)%nat ∧ match most with Some m => (length l ≤ m)%nat | None => True end ∧
  forallb p l = true.
Proof.
  simpl. setoid_rewrite iterated_class. split; [intros (n & ? & ? & <- & ?)|intros (? & ? & ?)]; eauto.
Qed.

Lemma matches_seq_class p r l :
  matches (Seq (Chars p) r) l ↔ ∃ c l', l = c :: l' ∧ p c = true ∧ matches r l'.
Proof.
  simpl. split.
  - intros (? & l2 & -> & (c & -> & Hc) & Hr). by exists c, l2.
  - intros (c & l' & -> & Hc & Hr). exists [c], l'. split; [done|]. split; [by exists c|done].
Qed.

(** ** Lemmas: byte strings cut into characters *)

Definition cut (l : list ascii) : Prop := Forall (λ c, char_ok c = true) (chars_of l).

Lemma ascii_not_continuation a : in_range 0 127 a = true → is_continuation_byte a = false.
Proof.
  rewrite in_range_spec. intros Ha. apply not_true_iff_false.
  unfold is_continuation_byte. rewrite in_range_spec. lia.
Qed.

Lemma chars_of_cons a l : chars_of (a :: l) = add_byte a (chars_of l).
Proof. done. Qed.

(** Dropping the first character leaves the others. *)
Lemma chars_drop l : ∀ c cs, chars_of l = c :: cs →
  l = c ++ drop (length c) l ∧ chars_of (drop (length c) l) = cs.
Proof.
  induction l as [|a l IH]; intros c cs E; [done|]. rewrite chars_of_cons in E.
  destruct (chars_of l) as [|[|b d] cs'] eqn:El; simpl in E;
    try (injection E as <- <-; simpl; by rewrite drop_0).
  destruct (is_continuation_byte b) eqn:Eb; injection E as <- <-; [|simpl; by rewrite drop_0].
  destruct (IH (b :: d) cs' eq_refl) as [H1 H2]. simpl in *. by rewrite <- H1.
Qed.

(** The first character of a cut string: a lone ASCII byte, or no ASCII byte. *)
Lemma cut_cons a l : cut (a :: l) →
  (in_range 0 127 a = true ∧ chars_of (a :: l) = [a] :: chars_of l ∧ cut l) ∨
  (in_range 0 127 a = false ∧ ∃ c, chars_of (a :: l) = (a :: c) :: chars_of (drop (length c) l) ∧
     c ≠ [] ∧ l = c ++ drop (length c) l ∧ cut (drop (length c) l)).
Proof.
  unfold cut. rewrite chars_of_cons. intros Hc.
  destruct (chars_of l) as [|[|b c] cs] eqn:El; simpl in Hc |- *.
  - left. by apply Forall_cons in Hc as [Ha _].
  - exfalso. by apply Forall_cons in Hc as [_ [? _]%Forall_cons].
  - destruct (is_continuation_byte b) eqn:Eb; apply Forall_cons in Hc as [Ha Hc]; [right|by left].
    split.
    + apply andb_true_iff in Ha as [Ha _]. rewrite in_range_spec in Ha. apply not_true_iff_false. rewrite in_range_spec. lia.
    + destruct (chars_drop l (b :: c) cs El) as [H1 H2]. exists (b :: c). by rewrite H2.
Qed.

Lemma cut_tail a l : cut (a :: l) → in_range 0 127 a = true → cut l.
Proof. intros [(_ & _ & ?)|(Ha & _)]%cut_cons; congruence. Qed.

Lemma chars_cons a l : cut (a :: l) → in_range 0 127 a = true → chars_of (a :: l) = [a] :: chars_of l.
Proof. intros [(_ & ? & _)|(Ha & _)]%cut_cons; congruence. Qed.

(** A class of ASCII bytes takes one byte. *)
Lemma matches_ascii p r l : cut l →
  matches (Seq (ascii_class p) r) (chars_of l) ↔
  ∃ a l', l = a :: l' ∧ (in_range 0 127 a && p a) = true ∧ matches r (chars_of l').
Proof.
  intros Hl. unfold ascii_class. rewrite matches_seq_class. split.
  - intros (c & cs & E & Hc & Hr). destruct l as [|a l]; [done|].
    apply cut_cons in Hl as [(Ha & E' & _)|(Ha & c' & E' & Hn & _)]; rewrite E' in E; injection E as <- <-.
    + by exists a, l.
    + by destruct c'.
  - intros (a & l' & -> & Ha & Hr). exists [a], (chars_of l'). split; [|done].
    apply chars_cons; [done|]. by apply andb_true_iff in Ha as [? _].
Qed.

(** A string of a class of ASCII bytes. *)
Lemma forallb_ascii p l : cut l → (∀ a, p a = true → in_range 0 127 a = true) →
  forallb (λ c, match c with [a] => in_range 0 127 a && p a | _ => false end) (chars_of l) = forallb p l.
Proof.
  intros Hl Hp. induction l as [|a l IH]; [done|].
  pose proof Hl as [(Ha & -> & Hl')|(Ha & c & -> & Hn & _)]%cut_cons.
  - simpl. by rewrite Ha, IH.
  - destruct c as [|b c]; [done|]. simpl. destruct (p a) eqn:E; [|done]. apply Hp in E. congruence.
Qed.

Lemma length_ascii l : cut l → forallb (in_range 0 127) l = true → length (chars_of l) = length l.
Proof.
  intros Hl. induction l as [|a l IH]; [done|]. cbn [forallb].
  intros [Ha Hp]%andb_true_iff. rewrite chars_cons by done. cbn [length]. rewrite IH; [done| |done]. by eapply cut_tail.
Qed.

Lemma matches_ascii_repeat p least most l : cut l → (∀ a, p a = true → in_range 0 127 a = true) →
  matches (Repeat (ascii_class p) least most) (chars_of l) ↔
  (least ≤ length l)%nat ∧ match most with Some m => (length l ≤ m)%nat | None => True end ∧
  forallb p l = true.
Proof.
  intros Hl Hp. unfold ascii_class. rewrite matches_class_repeat, forallb_ascii by done.
  assert (forallb p l = true → length (chars_of l) = length l) as E.
  { intros Hf. apply length_ascii; [done|]. rewrite forallb_Forall in *.
    eapply Forall_impl; [exact Hf|]. apply Hp. }
  destruct (forallb p l); [rewrite E by done; done|]. split; by intros (_ & _ & [=]).
Qed.

(** A fixed number of repetitions, one at a time. *)
Lemma matches_times_S r n r' l :
  matches (Seq (times r (S n)) r') l ↔ matches (Seq r (Seq (times r n) r')) l.
Proof.
  simpl. split.
  - intros (l1 & l2 & -> & (k & Hk1 & Hk2 & Hi) & Hr). assert (k = S n) as -> by lia.
    inversion Hi as [|? m1 m2 Hm Hms]; subst. exists m1, (m2 ++ l2). rewrite app_assoc.
    split; [done|]. split; [done|]. exists m2, l2. split; [done|]. split; [|done]. by exists n.
  - intros (m1 & ? & -> & Hm & m2 & l2 & -> & (k & Hk1 & Hk2 & Hi) & Hr). assert (k = n) as -> by lia.
    exists (m1 ++ m2), l2. rewrite app_assoc. split; [done|]. split; [|done]. exists (S n).
    split; [done|]. split; [done|]. by constructor.
Qed.

Lemma matches_times_0 r r' l : matches (Seq (times r 0) r') l ↔ matches r' l.
Proof.
  simpl. split.
  - intros (l1 & l2 & -> & (k & Hk1 & Hk2 & Hi) & Hr). assert (k = 0%nat) as -> by lia.
    by inversion Hi; subst.
  - intros Hr. exists [], l. split; [done|]. split; [|done]. exists 0%nat. repeat split; [lia..|constructor].
Qed.

Lemma matches_times p n r l : cut l → (∀ a, p a = true → in_range 0 127 a = true) →
  matches (Seq (times (ascii_class p) n) r) (chars_of l) ↔
  ∃ l1 l2, l = l1 ++ l2 ∧ length l1 = n ∧ forallb p l1 = true ∧ cut l2 ∧ matches r (chars_of l2).
Proof.
  intros Hl Hp. revert l Hl. induction n as [|n IH]; intros l Hl.
  - rewrite matches_times_0. split.
    + intros Hr. by exists [], l.
    + by intros ([|? ?] & l2 & -> & [=] & _ & _ & Hr).
  - rewrite matches_times_S, matches_ascii by done. split.
    + intros (a & l' & -> & Ha & Hr). apply andb_true_iff in Ha as [Ha Hpa].
      pose proof (cut_tail _ _ Hl Ha) as Hl'. apply IH in Hr as (l1 & l2 & -> & <- & Hf & Hc & Hr); [|done].
      exists (a :: l1), l2. simpl. by rewrite Hpa.
    + intros ([|a l1] & l2 & -> & E & Hf & Hc & Hr); [done|]. simpl in Hf.
      apply andb_true_iff in Hf as [Hpa Hf]. exists a, (l1 ++ l2). split; [done|].
      rewrite Hpa, (Hp a Hpa). split; [done|]. apply IH; [by eapply cut_tail; [|apply Hp]|].
      exists l1, l2. injection E as E. done.
Qed.

Lemma matches_seq_assoc r1 r2 r3 l : matches (Seq (Seq r1 r2) r3) l ↔ matches (Seq r1 (Seq r2 r3)) l.
Proof.
  simpl. split.
  - intros (? & l3 & -> & (l1 & l2 & -> & H1 & H2) & H3). exists l1, (l2 ++ l3). rewrite app_assoc. eauto 10.
  - intros (l1 & ? & -> & H1 & l2 & l3 & -> & H2 & H3). exists (l1 ++ l2), l3. rewrite app_assoc. eauto 10.
Qed.

Lemma matches_seq_repeat r least most next l :
  matches (Seq (Repeat r least (Some most)) next) l ↔
  ∃ n, (least ≤ n ≤ most)%nat ∧ matches (Seq (times r n) next) l.
Proof.
  simpl. split.
  - intros (l1 & l2 & -> & (n & Ha & Hb & Hi) & Hr). exists n. split; [lia|].
    exists l1, l2. split; [done|]. split; [|done]. by exists n.
  - intros (n & [Ha Hb] & l1 & l2 & -> & (k & Hk1 & Hk2 & Hi) & Hr). assert (k = n) as -> by lia.
    exists l1, l2. split; [done|]. split; [|done]. by exists n.
Qed.

Lemma matches_optional r next l :
  matches (Seq (optional r) next) l ↔ matches next l ∨ matches (Seq r next) l.
Proof.
  unfold optional. rewrite matches_seq_repeat. split.
  - intros (n & Hn & Hm). destruct n as [|[|n]]; [left; by apply matches_times_0 in Hm|right|lia].
    apply matches_times_S in Hm. destruct Hm as (l1 & l2 & -> & H1 & H2%matches_times_0).
    by exists l1, l2.
  - intros [Hm|(l1 & l2 & -> & H1 & H2)]; [exists 0%nat|exists 1%nat]; (split; [lia|]).
    + exact (proj2 (matches_times_0 r next l) Hm).
    + apply matches_times_S. exists l1, l2. split; [done|]. split; [done|].
      exact (proj2 (matches_times_0 r next l2) H2).
Qed.

(** ** Lemmas: counting and excluding characters *)

Lemma length_chars a l : length (chars_of (a :: l)) =
  S (length (List.filter (λ b, negb (is_continuation_byte b)) l)).
Proof.
  revert a. induction l as [|b l IH]; intros a; [done|]. rewrite chars_of_cons.
  specialize (IH b). pose proof (concat_chars (b :: l)) as Ec.
  destruct (chars_of (b :: l)) as [|[|b' c] cs] eqn:E; [done| |].
  - exfalso. clear -E. rewrite chars_of_cons in E.
    destruct (chars_of l) as [|[|d c] cs']; simpl in E; [done..|]. by destruct (is_continuation_byte d).
  - simpl in Ec. injection Ec as -> _. simpl. destruct (is_continuation_byte b); simpl in *; lia.
Qed.

(** [chars().count()] counts the bytes that do not continue a character. *)
Lemma chars_count_length s : utf8_cut s → chars_count s = N.of_nat (length (chars s)).
Proof.
  unfold chars_count, utf8_cut, chars. destruct (bytes s) as [|a l]; [done|]. intros Hc.
  rewrite length_chars. simpl. assert (is_continuation_byte a = false) as ->; [|done].
  change (cut (a :: l)) in Hc. pose proof Hc as [(Ha & _)|(_ & c & E & Hn & _)]%cut_cons.
  - by apply ascii_not_continuation.
  - unfold cut in Hc. rewrite E in Hc. apply Forall_cons in Hc as [Ha _]. destruct c as [|b c]; [done|].
    apply andb_true_iff in Ha as [Ha _]. rewrite in_range_spec in Ha. apply not_true_iff_false.
    unfold is_continuation_byte. rewrite in_range_spec. lia.
Qed.

(** A character is an ASCII byte exactly when that byte occurs. *)
Lemma but_char_bytes a l : in_range 0 127 a = true → cut l →
  forallb (λ c, negb (c == [a])) (chars_of l) = negb (existsb (λ d, d == a) l).
Proof.
  intros Ha. unfold cut. rewrite <- (concat_chars l) at 3. generalize (chars_of l) as cs.
  induction 1 as [|c cs Hc _ IH]; [done|]. simpl. rewrite existsb_app, negb_orb, IH. f_equal.
  destruct c as [|d [|e c]]; [done| |].
  - simpl. rewrite orb_false_r. f_equal. do 2 case_bool_decide; congruence.
  - rewrite bool_decide_eq_false_2 by congruence. apply andb_true_iff in Hc as [Hd Hc].
    rewrite in_range_spec in Ha, Hd. symmetry. apply negb_true_iff, not_true_iff_false.
    rewrite existsb_exists. intros (x & Hx & ->%bool_decide_eq_true).
    destruct Hx as [-> |Hx]; [lia|]. rewrite forallb_forall in Hc. specialize (Hc a Hx).
    unfold is_continuation_byte in Hc. rewrite in_range_spec in Hc. lia.
Qed.
