(* ===== verification/Schema.v ===== *)
(** * Schema: the ingest envelope and its validation

    [clients/rust/src/schema.rs]: the recognisers of identifiers, decimals and
    timestamps, the canonical validator, which reports every issue, and the
    veto-only providers run beside it.

    [recognisers_match] shows that each hand-written recogniser accepts the
    language of the regular expression it documents; [envelope_accepted]
    characterises the accepted envelopes.  A provider is foreign code: its name
    and its decision, either of which may panic ([None]). *)

From S2P Require Import Prelude Text Decimal Btree Json Regex.

(** ** Recognisers *)

Definition MAX_SAFE_TIMESTAMP_INTEGER : N := 9007199254740991.

Definition ident_start (c : char) : bool :=
  match c with [a] => in_range 0 127 a && (is_ascii_alphabetic a || (a == "_"%char)) | _ => false end.
Definition ident_part (c : char) : bool :=
  match c with [a] => in_range 0 127 a && (is_ascii_alphanumeric a || (a == "_"%char)) | _ => false end.

Definition is_identifier (value : string) : bool :=
  match chars value with
  | c :: rest => ident_start c && (length rest <=? 62)%nat && forallb ident_part rest
  | [] => false
  end.

Definition is_digits (value : string) : bool :=
  (1 <=? len value) && (len value <=? 20) && all_bytes is_ascii_digit value.

Definition is_decimal_string (value : string) : bool :=
  match bytes value with
  | [] => false
  | [a] => if a == "0"%char then true else is_ascii_digit a
  | a :: l => if a == "0"%char then false else forallb is_ascii_digit (a :: l)
  end.

Definition is_native_hlc (value : string) : bool :=
  match split "-"%char value with
  | [millis; counter; node] =>
      (len millis =? 13) && all_bytes is_ascii_digit millis
      && (len counter =? 4) && all_bytes is_lower_hex counter
      && ((1 <=? chars_count node) && (chars_count node <=? 128))
  | _ => false
  end.

(** The inner functions of [is_iso8601]. *)
Definition digits (l : list ascii) (count : nat) : option (list ascii) :=
  if (count <=? length l)%nat && forallb is_ascii_digit (take count l) then Some (drop count l)
  else None.

Definition literal (l : list ascii) (expected : ascii) : option (list ascii) :=
  match l with
  | a :: l => if a == expected then Some l else None
  | [] => None
  end.

(** [iter().take_while(p).count()] *)
Fixpoint count_while (p : ascii → bool) (l : list ascii) : nat :=
  match l with
  | a :: l => if p a then S (count_while p l) else O
  | [] => O
  end.

(** The optional fraction of a second. *)
Definition fraction (l : list ascii) : option (list ascii) :=
  match l with
  | a :: l' =>
      if a == "."%char then
        let count := count_while is_ascii_digit l' in
        if ((1 <=? count) && (count <=? 9))%nat then Some (drop count l') else None
      else Some l
  | [] => Some l
  end.

Definition parse_head (l : list ascii) : option (list ascii) :=
  l ← digits l 4; l ← literal l "-"%char; l ← digits l 2; l ← literal l "-"%char;
  l ← digits l 2; l ← literal l "T"%char; l ← digits l 2; l ← literal l ":"%char;
  l ← digits l 2; l ← literal l ":"%char; l ← digits l 2; l ← fraction l; literal l "Z"%char.

Definition is_suffix_byte (a : ascii) : bool :=
  is_ascii_alphanumeric a || (a == "."%char) || (a == "_"%char) || (a == "~"%char) || (a == "-"%char).

Definition is_iso8601 (value : string) : bool :=
  match parse_head (bytes value) with
  | None => false
  | Some [] => true
  | Some (a :: suffix) =>
      (a == "-"%char) && match suffix with [] => false | _ => forallb is_suffix_byte suffix end
  end.

(** A finite double [m * 2^e] that is a whole number of [0, MAX]. *)
Definition is_safe_float (m e : Z) : bool :=
  (0 <=? m)%Z &&
  if (0 <=? e)%Z then (m * 2 ^ e <=? Z.of_N MAX_SAFE_TIMESTAMP_INTEGER)%Z
  else ((m mod 2 ^ (- e) =? 0) && (m <=? Z.of_N MAX_SAFE_TIMESTAMP_INTEGER * 2 ^ (- e)))%Z.

(** A negative integer is negative as a double too. *)
Definition is_safe_integer (n : number) : bool :=
  match n with
  | NPosInt k => k <=? MAX_SAFE_TIMESTAMP_INTEGER
  | NNegInt z => (0 <=? z)%Z && (z <=? Z.of_N MAX_SAFE_TIMESTAMP_INTEGER)%Z
  | NFloat m e => is_safe_float m e
  end.

Definition is_timestamp (value : json) : bool :=
  match value with
  | JNumber n => is_safe_integer n
  | JString text => is_digits text || is_native_hlc text || is_iso8601 text
  | _ => false
  end.

(** ** The documented expressions *)

Definition digit : regex := ascii_class is_ascii_digit.

(** [^[A-Za-z_][A-Za-z0-9_]{0,62}$] *)
Definition identifier_regex : regex :=
  Seq (ascii_class (λ a, is_ascii_alphabetic a || (a == "_"%char)))
    (Repeat (ascii_class (λ a, is_ascii_alphanumeric a || (a == "_"%char))) 0 (Some 62%nat)).

(** [^[0-9]{1,20}$] *)
Definition digits_regex : regex := Repeat digit 1 (Some 20%nat).

(** [^(?:0|[1-9][0-9]* )$] *)
Definition decimal_regex : regex :=
  Alt (literal_char "0"%char) (Seq (ascii_class (in_range 49 57)) (star digit)).

(** [^[0-9]{13}-[0-9a-f]{4}-[^-]{1,128}$] *)
Definition hlc_regex : regex :=
  Seq (times digit 13) (Seq (literal_char "-"%char)
    (Seq (times (ascii_class is_lower_hex) 4) (Seq (literal_char "-"%char)
      (Repeat (but_char "-"%char) 1 (Some 128%nat))))).

(** [^\d{4}-\d{2}-\d{2}T\d{2}:\d{2}:\d{2}(\.\d{1,9})?Z(-[0-9A-Za-z._~-]+)*$] *)
Definition iso8601_regex : regex :=
  Seq (times digit 4) (Seq (literal_char "-"%char)
  (Seq (times digit 2) (Seq (literal_char "-"%char)
  (Seq (times digit 2) (Seq (literal_char "T"%char)
  (Seq (times digit 2) (Seq (literal_char ":"%char)
  (Seq (times digit 2) (Seq (literal_char ":"%char)
  (Seq (times digit 2)
  (Seq (optional (Seq (literal_char "."%char) (Repeat digit 1 (Some 9%nat))))
  (Seq (literal_char "Z"%char)
    (star (Seq (literal_char "-"%char) (plus (ascii_class is_suffix_byte)))))))))))))))).

(** ** The envelope *)

Inductive Operation := Upsert | Delete.
#[export] Instance operation_eq_dec : EqDecision Operation.
Proof. solve_decision. Defined.

Record IngestRecord := {
  table : string;
  record_id : string;
  operation : Operation;
  base_revision : option string;
  payload : bmap json
}.

Record IngestEnvelope := { source : option string; records : list IngestRecord }.

Record IngestValidationError := { issues : list string }.

Definition ENVELOPE_KEYS : list string := ["formatVersion"; "source"; "records"].
Definition RECORD_KEYS : list string :=
  ["table"; "recordId"; "operation"; "baseRevision"; "payload"].

(** The issues of the keys outside a list. *)
Definition unrecognized (path : string) (known : list string) (object : bmap json) : list string :=
  omap (λ key, if existsb (λ k, k == key) known then None
               else Some (path +:+ "." +:+ key +:+ ": unrecognized key")) (bt_keys object).

(** Each field of a record: the value read and the issues raised. *)
Definition read_table (path : string) (object : bmap json) : string * list string :=
  match bt_get "table" object with
  | Some (JString text) =>
      if is_identifier text then (text, []) else ("", [path +:+ ".table: not a SQL-safe identifier"])
  | Some _ => ("", [path +:+ ".table: not a SQL-safe identifier"])
  | None => ("", [path +:+ ".table: required"])
  end.

Definition read_record_id (path : string) (object : bmap json) : string * list string :=
  match bt_get "recordId" object with
  | Some (JString text) =>
      if (1 <=? chars_count text) && (chars_count text <=? 512) then (text, [])
      else ("", [path +:+ ".recordId: must be 1..512 characters"])
  | Some _ => ("", [path +:+ ".recordId: must be 1..512 characters"])
  | None => ("", [path +:+ ".recordId: required"])
  end.

Definition read_operation (path : string) (object : bmap json) : Operation * list string :=
  let bad := path +:+ ".operation: must be " +:+ quoted "upsert" +:+ " or " +:+ quoted "delete" in
  match bt_get "operation" object with
  | None => (Upsert, [])
  | Some (JString text) =>
      if text == "upsert" then (Upsert, [])
      else if text == "delete" then (Delete, []) else (Upsert, [bad])
  | Some _ => (Upsert, [bad])
  end.

Definition read_base_revision (path : string) (object : bmap json) : option string * list string :=
  match bt_get "baseRevision" object with
  | None => (None, [])
  | Some (JString text) =>
      if is_decimal_string text then (Some text, [])
      else (None, [path +:+ ".baseRevision: must be a decimal string"])
  | Some _ => (None, [path +:+ ".baseRevision: must be a decimal string"])
  end.

Definition read_payload (path : string) (object : bmap json) : bmap json * list string :=
  match bt_get "payload" object with
  | Some (JObject map) => (map, [])
  | Some _ => ([], [path +:+ ".payload: must be an object"])
  | None => ([], [path +:+ ".payload: required"])
  end.

(** The checks of a payload that is an object. *)
Definition payload_issues (path : string) (operation : Operation) (payload : bmap json) : list string :=
  match operation with
  | Delete =>
      match payload with
      | [] => []
      | _ => [path +:+ ".payload: a delete record must carry an empty payload"]
      end
  | Upsert =>
      match bt_get "updatedAt" payload with
      | Some timestamp =>
          if is_timestamp timestamp then [] else [path +:+ ".payload.updatedAt: invalid timestamp"]
      | None => [path +:+ ".payload.updatedAt: required timestamp is missing"]
      end
      ++ omap (λ key, match bt_get key payload with
                      | Some timestamp =>
                          if is_timestamp timestamp then None
                          else Some (path +:+ ".payload." +:+ key +:+ ": invalid timestamp")
                      | None => None
                      end) ["createdAt"; "syncedAt"]
  end.

Definition validate_record (value : json) (index : N) : result IngestRecord (list string) :=
  let path := "records." +:+ to_dec index in
  match value with
  | JObject object =>
      let '(table, i1) := read_table path object in
      let '(record_id, i2) := read_record_id path object in
      let '(operation, i3) := read_operation path object in
      let '(base_revision, i4) := read_base_revision path object in
      let '(payload, i5) := read_payload path object in
      let i6 := if is_some_and (bt_get "payload" object) is_object
                then payload_issues path operation payload else [] in
      match unrecognized path RECORD_KEYS object ++ i1 ++ i2 ++ i3 ++ i4 ++ i5 ++ i6 with
      | [] => Ok {| table := table; record_id := record_id; operation := operation;
                    base_revision := base_revision; payload := payload |}
      | issues => Err issues
      end
  | _ => Err [path +:+ ": expected an object"]
  end.

(** The loop over the records. *)
Fixpoint validate_records (items : list json) (index : N) : list IngestRecord * list string :=
  match items with
  | [] => ([], [])
  | item :: items =>
      let '(records, issues) := validate_records items (index + 1) in
      match validate_record item index with
      | Ok record => (record :: records, issues)
      | Err record_issues => (records, record_issues ++ issues)
      end
  end.

Definition read_format_version (root : bmap json) : list string :=
  match bt_get "formatVersion" root with
  | Some (JNumber number) =>
      if as_u64_num number == Some 1 then [] else ["<root>.formatVersion: must be 1"]
  | Some _ => ["<root>.formatVersion: must be 1"]
  | None => ["<root>.formatVersion: required"]
  end.

Definition read_source (root : bmap json) : option string * list string :=
  let bad := "<root>.source: must be a string of at most 200 characters" in
  match bt_get "source" root with
  | None => (None, [])
  | Some (JString text) => if chars_count text <=? 200 then (Some text, []) else (None, [bad])
  | Some _ => (None, [bad])
  end.

Definition read_records (root : bmap json) : list IngestRecord * list string :=
  match bt_get "records" root with
  | Some (JArray items) =>
      let '(records, issues) := validate_records items 0 in
      (records, match items with
                | [] => ["<root>.records: must contain at least one record"]
                | _ => []
                end ++ issues)
  | Some _ => ([], ["<root>.records: must be an array"])
  | None => ([], ["<root>.records: required"])
  end.

Definition validate_envelope (value : json) : result IngestEnvelope IngestValidationError :=
  match value with
  | JObject root =>
      let '(source, i2) := read_source root in
      let '(records, i3) := read_records root in
      match unrecognized "<root>" ENVELOPE_KEYS root ++ read_format_version root ++ i2 ++ i3 with
      | [] => Ok {| source := source; records := records |}
      | issues => Err {| issues := issues |}
      end
  | _ => Err {| issues := ["<root>: expected an object"] |}
  end.

(** ** Providers *)

Record EnvelopeValidationProvider := {
  name : option string;
  validate : json → option (result unit (list string))
}.

Definition provider_name (provider : EnvelopeValidationProvider) : string :=
  default "<panicked-provider-name>" (name provider).

Definition run_provider (provider : EnvelopeValidationProvider) (value : json)
    : string * result unit (list string) :=
  (provider_name provider,
   match validate provider value with
   | Some (Ok _) => Ok tt
   | Some (Err []) => Err ["validation rejected the envelope"]
   | Some (Err issues) => Err issues
   | None => Err ["provider panicked"]
   end).

Definition provider_issues (value : json) (provider : EnvelopeValidationProvider) : list string :=
  let '(name, result) := run_provider provider value in
  match result with
  | Ok _ => []
  | Err issues => List.map (λ entry, "provider[" +:+ name +:+ "]: " +:+ entry) issues
  end.

Definition validate_envelope_with (value : json) (providers : list EnvelopeValidationProvider)
    : result IngestEnvelope IngestValidationError :=
  let canonical := validate_envelope value in
  match match canonical with Ok _ => [] | Err error => issues error end
        ++ flat_map (provider_issues value) providers with
  | [] => canonical
  | issues => Err {| issues := issues |}
  end.

(** The text of a parser's error. *)
Class JsonParseText := { parse_error_text : string → string }.

Definition parse_envelope_with `{SerdeJson, JsonParseText} (text : string)
    (providers : list EnvelopeValidationProvider) : result IngestEnvelope IngestValidationError :=
  match from_text text with
  | None => Err {| issues := ["<root>: invalid JSON: " +:+ parse_error_text text] |}
  | Some value => validate_envelope_with value providers
  end.

Definition parse_envelope `{SerdeJson, JsonParseText} (text : string)
    : result IngestEnvelope IngestValidationError := parse_envelope_with text [].

Record ProviderAuditResult := {
  provider : string;
  canonical_accepted : bool;
  provider_accepted : bool;
  drift : bool;
  audit_issues : list string
}.

Definition audit_provider (value : json) (p : EnvelopeValidationProvider) : ProviderAuditResult :=
  let canonical_accepted := is_ok (validate_envelope value) in
  let '(name, result) := run_provider p value in
  let provider_accepted := is_ok result in
  {| provider := name;
     canonical_accepted := canonical_accepted;
     provider_accepted := provider_accepted;
     drift := negb (eqb canonical_accepted provider_accepted);
     audit_issues := match result with Ok _ => [] | Err issues => issues end |}.

(** ** Lemmas: the recognisers *)

Ltac ascii_tac :=
  intros ?; unfold is_lower_hex, is_suffix_byte, is_ascii_alphanumeric, is_ascii_digit,
    is_ascii_alphabetic, is_ascii_uppercase, is_ascii_lowercase;
  rewrite ?orb_true_iff, ?bool_decide_eq_true, ?in_range_spec;
  intros Ha; repeat destruct Ha as [Ha|Ha]; (lia || (subst; by vm_compute)).

Lemma digit_ascii : ∀ a, is_ascii_digit a = true → in_range 0 127 a = true.
Proof. ascii_tac. Qed.
Lemma hex_ascii : ∀ a, is_lower_hex a = true → in_range 0 127 a = true.
Proof. ascii_tac. Qed.
Lemma suffix_ascii : ∀ a, is_suffix_byte a = true → in_range 0 127 a = true.
Proof. ascii_tac. Qed.

Lemma is_identifier_iff v : accepts identifier_regex v ↔ is_identifier v = true.
Proof.
  unfold accepts, identifier_regex, is_identifier, ascii_class. rewrite matches_seq_class.
  setoid_rewrite matches_class_repeat. split.
  - intros (c & cs & -> & Hc & _ & Hl & Hf). rewrite !andb_true_iff. repeat split; try done.
    by apply Nat.leb_le.
  - destruct (chars v) as [|c cs]; [done|]. rewrite !andb_true_iff. intros [[Hc Hl] Hf].
    exists c, cs. repeat split; try done; [lia|by apply Nat.leb_le].
Qed.

Lemma is_digits_iff v : utf8_cut v → accepts digits_regex v ↔ is_digits v = true.
Proof.
  intros Hv. unfold accepts, digits_regex, chars, is_digits, all_bytes, len, digit.
  rewrite matches_ascii_repeat by (done || apply digit_ascii).
  rewrite <- length_bytes, !andb_true_iff, !N.leb_le.
  split; [intros (? & ? & ->)|intros ((? & ?) & ->)]; repeat split; lia.
Qed.

Lemma chars_one l a : chars_of l = [[a]] → l = [a].
Proof. intros E. rewrite <- (concat_chars l), E. done. Qed.

Lemma is_decimal_string_iff v : utf8_cut v → accepts decimal_regex v ↔ is_decimal_string v = true.
Proof.
  unfold accepts, utf8_cut, decimal_regex, is_decimal_string, chars, star, digit.
  generalize (bytes v) as l. intros l Hl.
  assert (matches (literal_char "0"%char) (chars_of l) ↔ l = ["0"%char]) as Hz.
  { split; [|by intros ->; exists ["0"%char]]. intros (c & E & Hc). simpl in Hc.
    destruct c as [|a [|? ?]]; try done. apply chars_one in E as ->.
    by apply andb_true_iff in Hc as [_ ->%bool_decide_eq_true]. }
  change (matches (literal_char "0"%char) (chars_of l) ∨
    matches (Seq (ascii_class (in_range 49 57)) (Repeat (ascii_class is_ascii_digit) 0 None)) (chars_of l)
    ↔ match l with
      | [] => false
      | [a] => if a == "0"%char then true else is_ascii_digit a
      | a :: l => if a == "0"%char then false else forallb is_ascii_digit (a :: l)
      end = true).
  rewrite Hz, matches_ascii by done.
  assert (∀ a, is_ascii_digit a = true → a ≠ "0"%char → in_range 49 57 a = true) as Hnz.
  { intros a Ha Hne. unfold is_ascii_digit in Ha. rewrite in_range_spec in *.
    assert (byte_val a ≠ 48) by (by intros E; apply Hne, byte_val_inj). lia. }
  assert (∀ a, in_range 49 57 a = true → is_ascii_digit a = true ∧ a ≠ "0"%char) as Hd.
  { intros a Ha. unfold is_ascii_digit. rewrite in_range_spec in *. split; [lia|]. intros ->.
    vm_compute in Ha. by destruct Ha. }
  split.
  - intros [-> |(a & l' & -> & Ha & Hr)]; [done|]. apply andb_true_iff in Ha as [Ha7 Ha].
    apply matches_ascii_repeat in Hr as (_ & _ & Hr); [|by eapply cut_tail|apply digit_ascii].
    destruct (Hd a Ha) as [Hda Hne]. rewrite (bool_decide_eq_false_2 _ Hne).
    destruct l'; [done|]. cbn [forallb] in *. by rewrite Hda, Hr.
  - destruct l as [|a l]; [done|]. intros Hm.
    assert ((a :: l = ["0"%char]) ∨ (a ≠ "0"%char ∧ forallb is_ascii_digit (a :: l) = true)) as [?|[Hne Hf]].
    { destruct l as [|b l]; case_bool_decide as E; subst; [by left| |done|by right].
      right. simpl. by rewrite Hm. }
    + by left.
    + right. simpl in Hf. apply andb_true_iff in Hf as [Ha Hf]. exists a, l. split; [done|].
      rewrite (digit_ascii a Ha), (Hnz a Ha Hne). split; [done|].
      apply matches_ascii_repeat; [by eapply cut_tail; [|apply digit_ascii]|apply digit_ascii|].
      repeat split; [lia|done].
Qed.

(** What a step of the timestamp parsers reads off the front. *)
Definition reads (r : regex) (f : list ascii → option (list ascii)) : Prop :=
  (∀ l l', cut l → f l = Some l' → cut l') ∧
  ∀ next l, cut l →
    matches (Seq r next) (chars_of l) ↔ ∃ l', f l = Some l' ∧ matches next (chars_of l').

(** Reading one thing and then the rest. *)
Lemma reads_then r f (h : list ascii → option (list ascii)) R (Q : list ascii → Prop) l :
  reads r f → cut l →
  (∀ l', cut l' → matches R (chars_of l') ↔ ∃ l'', h l' = Some l'' ∧ Q l'') →
  matches (Seq r R) (chars_of l) ↔ ∃ l'', (f l ≫= h) = Some l'' ∧ Q l''.
Proof.
  intros [Hcut Hr] Hl HR. rewrite (Hr R l Hl). split.
  - intros (l' & Hf & Hm). rewrite Hf. apply HR; [by eapply Hcut|done].
  - intros (l'' & Hfh & Hq). destruct (f l) as [l'|] eqn:Ef; [|done]. exists l'. split; [done|].
    apply HR; [by eapply Hcut|]. by exists l''.
Qed.

Lemma literal_Some l a l' : literal l a = Some l' ↔ l = a :: l'.
Proof.
  destruct l as [|b l]; simpl; [done|]. case_bool_decide as E; [subst|]; split; congruence.
Qed.

Lemma digits_Some l n l2 : digits l n = Some l2 ↔
  ∃ l1, l = l1 ++ l2 ∧ length l1 = n ∧ forallb is_ascii_digit l1 = true.
Proof.
  unfold digits. split.
  - destruct (Nat.leb_spec n (length l)); simpl; [|done].
    destruct (forallb is_ascii_digit (take n l)) eqn:Ef; [|done]. intros [= <-].
    exists (take n l). rewrite take_drop, length_take. repeat split; [lia|done].
  - intros (l1 & -> & <- & Hf). rewrite length_app, take_app_length, Hf, drop_app_length.
    by rewrite (proj2 (Nat.leb_le _ _)) by lia.
Qed.

Lemma literal_reads a : in_range 0 127 a = true → reads (literal_char a) (λ l, literal l a).
Proof.
  intros Ha. split.
  - intros l l' Hl ->%literal_Some. by eapply cut_tail.
  - intros next l Hl. unfold literal_char. rewrite matches_ascii by done. split.
    + intros (b & l' & -> & Hb & Hm). apply andb_true_iff in Hb as [_ ->%bool_decide_eq_true].
      exists l'. split; [by apply literal_Some|done].
    + intros (l' & ->%literal_Some & Hm). exists a, l'. by rewrite Ha, bool_decide_eq_true_2.
Qed.

Lemma cut_app l1 l2 : cut (l1 ++ l2) → forallb (in_range 0 127) l1 = true → cut l2.
Proof.
  induction l1 as [|a l1 IH]; [done|]. simpl. intros Hc [Ha Hf]%andb_true_iff.
  apply IH; [by eapply cut_tail|done].
Qed.

Lemma digits_all_ascii l : forallb is_ascii_digit l = true → forallb (in_range 0 127) l = true.
Proof. rewrite !forallb_Forall. intros Hf. eapply Forall_impl; [exact Hf|]. apply digit_ascii. Qed.

Lemma digits_reads n : reads (times digit n) (λ l, digits l n).
Proof.
  split.
  - intros l l' Hl (l1 & -> & _ & Hf)%digits_Some. eapply cut_app; [done|by apply digits_all_ascii].
  - intros next l Hl. unfold digit. rewrite matches_times by (done || apply digit_ascii). split.
    + intros (l1 & l2 & -> & Hn & Hf & Hc & Hm). exists l2. split; [|done]. apply digits_Some. by exists l1.
    + intros (l2 & (l1 & -> & Hn & Hf)%digits_Some & Hm). exists l1, l2. repeat split; try done.
      eapply cut_app; [done|by apply digits_all_ascii].
Qed.

Lemma count_while_app p l1 l2 : forallb p l1 = true →
  match l2 with [] => True | a :: _ => p a = false end → count_while p (l1 ++ l2) = length l1.
Proof.
  intros Hf H2. induction l1 as [|a l1 IH]; simpl in *.
  - destruct l2; simpl; [done|]. by rewrite H2.
  - apply andb_true_iff in Hf as [-> Hf]. by rewrite IH.
Qed.

Lemma count_while_split p l : forallb p (take (count_while p l) l) = true ∧
  length (take (count_while p l) l) = count_while p l.
Proof. induction l as [|a l [IH1 IH2]]; simpl; [done|]. destruct (p a) eqn:E; simpl; [|done]. by rewrite E, IH1, IH2. Qed.

(** The optional fraction, up to the [Z] that must follow. *)
Lemma fraction_reads next l : cut l →
  matches (Seq (optional (Seq (literal_char "."%char) (Repeat digit 1 (Some 9%nat))))
             (Seq (literal_char "Z"%char) next)) (chars_of l) ↔
  ∃ l', (l ← fraction l; literal l "Z"%char) = Some l' ∧ matches next (chars_of l').
Proof.
  intros Hl. rewrite matches_optional, matches_seq_assoc.
  pose proof (literal_reads "Z"%char eq_refl) as [_ HZ]. pose proof (literal_reads "."%char eq_refl) as [Hcut Hdot].
  rewrite (HZ next l Hl), (Hdot _ l Hl). split.
  - intros [(l' & ->%literal_Some & Hm)|(l1 & ->%literal_Some & Hm)]; [by exists l'|].
    apply matches_seq_repeat in Hm as (n & Hn & Hm).
    assert (cut l1) as Hl1 by (by eapply cut_tail). apply digits_reads in Hm as (l2 & Hd & Hm); [|done].
    apply digits_Some in Hd as (ds & -> & Hlen & Hf).
    apply HZ in Hm as (l' & ->%literal_Some & Hm);
      [|eapply cut_app; [exact Hl1|by apply digits_all_ascii]].
    exists l'. split; [|done]. cbn -[Nat.leb count_while literal].
    rewrite count_while_app, Hlen by done.
    rewrite (proj2 (Nat.leb_le 1 n)), (proj2 (Nat.leb_le n 9)) by lia. cbn -[literal].
    rewrite <- Hlen, drop_app_length. by apply literal_Some.
  - intros (l' & Hf & Hm). destruct l as [|a l]; [done|]. cbn -[Nat.leb count_while literal] in Hf. case_bool_decide as Ea.
    + right. subst a. exists l. split; [done|]. set (c := count_while is_ascii_digit l) in *.
      destruct ((1 <=? c) && (c <=? 9))%nat eqn:Hc; [|done]. apply andb_true_iff in Hc as [H1 H2].
      apply Nat.leb_le in H1, H2. apply matches_seq_repeat. exists c. split; [lia|].
      assert (cut l) as Hl' by (by eapply cut_tail). simpl in Hf. apply literal_Some in Hf.
      destruct (count_while_split is_ascii_digit l) as [Hd Hlen]. fold c in Hd, Hlen.
      apply digits_reads; [done|]. exists (drop c l). split.
      { apply digits_Some. exists (take c l). by rewrite take_drop. }
      apply HZ; [|exists l'; by rewrite Hf].
      eapply cut_app; [by rewrite take_drop|by apply digits_all_ascii].
    + left. by exists l'.
Qed.

(** The class of a suffix character. *)
Definition suffix_char (c : char) : bool :=
  match c with [a] => in_range 0 127 a && is_suffix_byte a | _ => false end.

Lemma one_suffix cs : matches (Seq (literal_char "-"%char) (plus (ascii_class is_suffix_byte))) cs ↔
  ∃ t, cs = ["-"%char] :: t ∧ t ≠ [] ∧ forallb suffix_char t = true.
Proof.
  unfold literal_char, ascii_class, plus. rewrite matches_seq_class. setoid_rewrite matches_class_repeat. split.
  - intros (c & t & -> & Hc & Hn & _ & Hf). exists t. split; [|split; [destruct t; simpl in Hn; [lia|done]|done]].
    destruct c as [|a [|? ?]]; try done. by apply andb_true_iff in Hc as [_ ->%bool_decide_eq_true].
  - intros (t & -> & Hn & Hf). exists ["-"%char], t. repeat split; try done.
    destruct t as [|? ?]; [by destruct Hn|simpl; lia].
Qed.

Lemma star_suffix_chars cs :
  matches (star (Seq (literal_char "-"%char) (plus (ascii_class is_suffix_byte)))) cs ↔
  cs = [] ∨ ∃ t, cs = ["-"%char] :: t ∧ t ≠ [] ∧ forallb suffix_char t = true.
Proof.
  split.
  - intros (n & _ & _ & Hi). induction Hi as [|n l1 l2 (t & -> & Hn & Hf)%one_suffix _ IH]; [by left|right].
    exists (t ++ l2). split; [done|]. split; [by destruct t|]. rewrite forallb_app, Hf. simpl.
    destruct IH as [-> |(t' & -> & _ & Hf')]; [done|]. simpl. by rewrite Hf'.
  - intros [-> |Ht].
    + exists 0%nat. repeat split; [lia|constructor].
    + exists 1%nat. repeat split; [lia|]. rewrite <- (app_nil_r cs). constructor; [by apply one_suffix|constructor].
Qed.

Lemma star_suffix l : cut l →
  matches (star (Seq (literal_char "-"%char) (plus (ascii_class is_suffix_byte)))) (chars_of l) ↔
  match l with
  | [] => true
  | a :: suffix => (a == "-"%char) && match suffix with [] => false | _ => forallb is_suffix_byte suffix end
  end = true.
Proof.
  intros Hl. rewrite star_suffix_chars. destruct l as [|a l]; [by split; [|left]|].
  assert (cut l → forallb suffix_char (chars_of l) = forallb is_suffix_byte l) as Hf
    by (intros Hc; apply (forallb_ascii is_suffix_byte l Hc), suffix_ascii).
  rewrite andb_true_iff, bool_decide_eq_true. split.
  - intros [E|(t & E & Hn & Ht)]; [pose proof (concat_chars (a :: l)) as Ec; by rewrite E in Ec|].
    pose proof (chars_drop _ _ _ E) as [El Et]. simpl in El, Et. injection El as ->.
    rewrite drop_0 in Et. subst t. split; [done|]. destruct l as [|b l]; [done|].
    rewrite <- Hf; [done|]. by eapply cut_tail.
  - intros [-> Hs]. right. exists (chars_of l).
    assert (cut l) as Hc by (by eapply cut_tail).
    split; [by apply chars_cons|]. destruct l as [|b l]; [done|]. split; [|by rewrite Hf].
    intros E. pose proof (concat_chars (b :: l)) as Ec. by rewrite E in Ec.
Qed.

Lemma digits_cut l n l' : cut l → digits l n = Some l' → cut l'.
Proof. apply digits_reads. Qed.

Lemma literal_cut l a l' : in_range 0 127 a = true → cut l → literal l a = Some l' → cut l'.
Proof. intros Ha. by apply literal_reads. Qed.

Lemma fraction_cut l l' : cut l → fraction l = Some l' → cut l'.
Proof.
  intros Hl. destruct l as [|a l]; simpl; [by intros [= <-]|]. case_bool_decide as Ea; [|by intros [= <-]].
  destruct (_ && _); [|done]. intros [= <-]. subst a.
  eapply (cut_app (take (count_while is_ascii_digit l) l)).
  - rewrite take_drop. by eapply cut_tail.
  - apply digits_all_ascii, count_while_split.
Qed.

Lemma parse_head_cut l l' : cut l → parse_head l = Some l' → cut l'.
Proof.
  unfold parse_head. intros Hl E.
  repeat match goal with
  | E : (_ ≫= _) = Some _ |- _ => apply bind_Some in E as (? & ? & E)
  end.
  repeat match goal with
  | Hc : cut ?k, E : digits ?k _ = Some _ |- _ => apply digits_cut in E; [|exact Hc]
  | Hc : cut ?k, E : literal ?k _ = Some _ |- _ => apply literal_cut in E; [|done|exact Hc]
  | Hc : cut ?k, E : fraction ?k = Some _ |- _ => apply fraction_cut in E; [|exact Hc]
  end; done.
Qed.

Lemma is_iso8601_iff v : utf8_cut v → accepts iso8601_regex v ↔ is_iso8601 v = true.
Proof.
  intros Hv. unfold accepts, iso8601_regex, chars.
  transitivity (∃ l', parse_head (bytes v) = Some l' ∧
    matches (star (Seq (literal_char "-"%char) (plus (ascii_class is_suffix_byte)))) (chars_of l')).
  - unfold parse_head.
    set (Q l' := matches (star (Seq (literal_char "-"%char) (plus (ascii_class is_suffix_byte)))) (chars_of l')).
    change (utf8_cut v) with (cut (bytes v)) in Hv. revert Hv. generalize (bytes v) as l. intros l Hv.
    do 11 (first
      [refine (reads_then _ (λ l, digits l _) _ _ Q _ (digits_reads _) Hv _)
      |refine (reads_then _ (λ l, literal l _) _ _ Q _ (literal_reads _ _) Hv _); [reflexivity|]];
      clear l Hv; intros l Hv).
    by apply fraction_reads.
  - unfold is_iso8601. split.
    + intros (l' & E & Hm). rewrite E. apply star_suffix in Hm; [|by eapply parse_head_cut].
      by destruct l'.
    + destruct (parse_head (bytes v)) as [l'|] eqn:E; [|done]. intros Hs. exists l'. split; [done|].
      apply star_suffix; [by eapply parse_head_cut|]. by destruct l'.
Qed.

Lemma is_native_hlc_iff v : utf8_cut v → accepts hlc_regex v ↔ is_native_hlc v = true.
Proof.
  intros Hv. unfold accepts, hlc_regex, chars, is_native_hlc, split.
  change (utf8_cut v) with (cut (bytes v)) in Hv. revert Hv. generalize (bytes v) as l. intros l Hl.
  assert (∀ m k n, existsb (λ d, d == "-"%char) m = false → existsb (λ d, d == "-"%char) k = false →
    existsb (λ d, d == "-"%char) n = false →
    split_list "-"%char (m ++ "-"%char :: k ++ "-"%char :: n) = [m; k; n]) as Hsplit.
  { intros m k n Hm Hk Hn. by rewrite !split_list_sep, split_list_last. }
  assert (∀ p m, forallb p m = true → p "-"%char = false → existsb (λ d, d == "-"%char) m = false) as Hno.
  { intros p m Hf Hp. apply not_true_iff_false. rewrite existsb_exists. intros (x & Hx & ->%bool_decide_eq_true).
    rewrite forallb_forall in Hf. specialize (Hf _ Hx). congruence. }
  unfold digit. rewrite matches_times by (done || apply digit_ascii). split.
  - intros (m & l2 & -> & Hm & Hmd & Hc2 & Hr).
    apply literal_reads in Hr as (l3 & ->%literal_Some & Hr); [|done..].
    apply cut_tail in Hc2; [|done]. apply matches_times in Hr; [|done|apply hex_ascii].
    destruct Hr as (k & l4 & -> & Hk & Hkd & Hc4 & Hr).
    apply literal_reads in Hr as (n & ->%literal_Some & Hr); [|done..].
    apply cut_tail in Hc4; [|done]. unfold but_char in Hr. apply matches_class_repeat in Hr as (H1 & H2 & Hn).
    rewrite but_char_bytes in Hn by done. apply negb_true_iff in Hn.
    rewrite Hsplit; [|by eapply Hno|by eapply Hno|done]. simpl.
    unfold all_bytes, len. rewrite <- !length_bytes, !bytes_of_bytes, Hm, Hk, Hmd, Hkd.
    rewrite chars_count_length by (unfold utf8_cut, chars; by rewrite bytes_of_bytes).
    unfold chars. rewrite bytes_of_bytes. simpl. rewrite andb_true_iff, !N.leb_le. lia.
  - destruct (split_list_inv "-"%char l) as (m & ps & -> & Hm & [[-> ->]|(l2 & -> & <-)]); [done|].
    destruct (split_list_inv "-"%char l2) as (k & ps & -> & Hk & [[-> ->]|(n & -> & <-)]); [done|].
    destruct (split_list_inv "-"%char n) as (n' & ps & -> & Hn & [[-> ->]|(l4 & -> & <-)]); cbn [List.map].
    2: { by destruct (split_list_inv "-"%char l4) as (? & ? & -> & _). }
    unfold all_bytes, len. rewrite <- !length_bytes, !bytes_of_bytes, !andb_true_iff, !N.eqb_eq.
    intros ((((Hml & Hmd) & Hkl) & Hkd) & H1%N.leb_le & H2%N.leb_le).
    assert (cut (k ++ "-"%char :: n')) as Hc.
    { apply (cut_tail "-"%char); [|done]. eapply cut_app; [exact Hl|]. by apply digits_all_ascii. }
    assert (cut n') as Hcn.
    { apply (cut_tail "-"%char); [|done]. eapply cut_app; [exact Hc|].
      rewrite forallb_Forall in *. eapply Forall_impl; [exact Hkd|]. apply hex_ascii. }
    rewrite chars_count_length in H1, H2 by (unfold utf8_cut, chars; by rewrite bytes_of_bytes).
    unfold chars in H1, H2. rewrite bytes_of_bytes in H1, H2.
    exists m, ("-"%char :: k ++ "-"%char :: n'). split; [done|]. split; [lia|]. split; [done|].
    split; [eapply cut_app; [exact Hl|by apply digits_all_ascii]|].
    apply (literal_reads "-"%char eq_refl); [eapply cut_app; [exact Hl|by apply digits_all_ascii]|].
    eexists. split; [by apply literal_Some|]. apply matches_times; [done|apply hex_ascii|].
    exists k, ("-"%char :: n'). split; [done|]. split; [lia|]. split; [done|].
    assert (cut ("-"%char :: n')) as Hcd.
    { eapply cut_app; [exact Hc|]. rewrite forallb_Forall in *. eapply Forall_impl; [exact Hkd|]. apply hex_ascii. }
    split; [done|]. apply (literal_reads "-"%char eq_refl); [done|]. eexists. split; [by apply literal_Some|].
    unfold but_char. apply matches_class_repeat. split; [lia|]. split; [lia|].
    rewrite but_char_bytes by done. by rewrite Hn.
Qed.

(** ** Specification: conforming envelopes *)

Definition operation_name (op : Operation) : string :=
  match op with Upsert => "upsert" | Delete => "delete" end.

Definition only_keys (known : list string) (object : bmap json) : Prop :=
  Forall (λ k, k ∈ known) (bt_keys object).

(** An optional field that, when present, must read as the value. *)
Definition optional_field {A} (key : string) (object : bmap json) (P : string → bool)
    (absent : A) (present : string → A) (value : A) : Prop :=
  match bt_get key object with
  | None => value = absent
  | Some v => ∃ t, v = JString t ∧ P t = true ∧ value = present t
  end.

Definition payload_conforms (op : Operation) (payload : bmap json) : Prop :=
  match op with
  | Delete => payload = []
  | Upsert =>
      (∃ t, bt_get "updatedAt" payload = Some t ∧ is_timestamp t = true) ∧
      ∀ key t, key ∈ ["createdAt"; "syncedAt"] → bt_get key payload = Some t → is_timestamp t = true
  end.

Definition record_conforms (v : json) (r : IngestRecord) : Prop :=
  ∃ o, v = JObject o ∧ only_keys RECORD_KEYS o ∧
    bt_get "table" o = Some (JString (table r)) ∧ is_identifier (table r) = true ∧
    bt_get "recordId" o = Some (JString (record_id r)) ∧ 1 ≤ chars_count (record_id r) ≤ 512 ∧
    optional_field "operation" o (λ t, existsb (λ op, operation_name op == t) [Upsert; Delete])
      Upsert (λ t, if t == "upsert" then Upsert else Delete) (operation r) ∧
    optional_field "baseRevision" o is_decimal_string None Some (base_revision r) ∧
    bt_get "payload" o = Some (JObject (payload r)) ∧ payload_conforms (operation r) (payload r).

Definition envelope_conforms (v : json) (e : IngestEnvelope) : Prop :=
  ∃ root n items, v = JObject root ∧ only_keys ENVELOPE_KEYS root ∧
    bt_get "formatVersion" root = Some (JNumber n) ∧ as_u64_num n = Some 1 ∧
    optional_field "source" root (λ t, chars_count t <=? 200) None Some (source e) ∧
    bt_get "records" root = Some (JArray items) ∧ items ≠ [] ∧ Forall2 record_conforms items (records e).

Definition approves (v : json) (p : EnvelopeValidationProvider) : Prop := validate p v = Some (Ok tt).

(** ** Lemmas: the validator *)

Lemma unrecognized_nil path known o : unrecognized path known o = [] ↔ only_keys known o.
Proof.
  unfold unrecognized, only_keys. induction (bt_keys o) as [|k ks IH]; simpl; [by split|].
  rewrite Forall_cons. destruct (existsb (λ q, q == k) known) eqn:E.
  - rewrite IH. apply existsb_exists in E as (q & Hq & ->%bool_decide_eq_true). rewrite In_elem in Hq. tauto.
  - split; [done|]. intros [Hk _]. apply not_true_iff_false in E. destruct E.
    apply existsb_exists. exists k. rewrite In_elem. by rewrite bool_decide_eq_true_2.
Qed.

Lemma app_nil {A} (l1 l2 : list A) : l1 ++ l2 = [] ↔ l1 = [] ∧ l2 = [].
Proof. destruct l1; simpl; [tauto|by split; [|intros [? _]]]. Qed.

Lemma omap_nil {A B} (f : A → option B) l : omap f l = [] ↔ ∀ x, x ∈ l → f x = None.
Proof.
  induction l as [|x l IH]; simpl; [split; [intros _ x Hx; by apply elem_of_nil in Hx|done]|].
  destruct (f x) eqn:E.
  - split; [done|]. intros Hf. specialize (Hf x (list_elem_of_here _ _)). congruence.
  - rewrite IH. split; [by intros Hf y [->|Hy]%elem_of_cons; auto|].
    intros Hf y Hy. apply Hf. by apply list_elem_of_further.
Qed.

Lemma read_table_iff path o t : read_table path o = (t, []) ↔
  bt_get "table" o = Some (JString t) ∧ is_identifier t = true.
Proof.
  unfold read_table. destruct (bt_get "table" o) as [[]|]; try (split; [done|by intros [[=] _]]).
  destruct (is_identifier s) eqn:E; split; try done; [by intros [= <-]|by intros [[= ->] _]|].
  intros [[= ->] ?]. congruence.
Qed.

Lemma read_record_id_iff path o t : read_record_id path o = (t, []) ↔
  bt_get "recordId" o = Some (JString t) ∧ 1 ≤ chars_count t ≤ 512.
Proof.
  unfold read_record_id. destruct (bt_get "recordId" o) as [[]|]; try (split; [done|by intros [[=] _]]).
  destruct (N.leb_spec 1 (chars_count s)); destruct (N.leb_spec (chars_count s) 512); simpl;
    split; try done; try (intros [[= ->] ?]; lia); [by intros [= <-]|by intros [[= ->] _]].
Qed.

Lemma read_operation_iff path o op : read_operation path o = (op, []) ↔
  optional_field "operation" o (λ t, existsb (λ op, operation_name op == t) [Upsert; Delete])
    Upsert (λ t, if t == "upsert" then Upsert else Delete) op.
Proof.
  unfold read_operation, optional_field.
  destruct (bt_get "operation" o) as [[]|]; try (split; [done|by intros (? & [=] & _)]).
  2: { split; [by intros [= <-]|by intros ->]. }
  simpl. destruct (decide (s = "upsert")) as [->|H1]; [|destruct (decide (s = "delete")) as [->|H2]].
  - split; [intros [= <-]; by exists "upsert"|by intros (t & [= <-] & _ & ->)].
  - split; [intros [= <-]; by exists "delete"|by intros (t & [= <-] & _ & ->)].
  - rewrite !bool_decide_eq_false_2 by done. split; [done|]. intros (t & [= <-] & Ht & _).
    by rewrite !bool_decide_eq_false_2 in Ht by done.
Qed.

Lemma read_base_revision_iff path o b : read_base_revision path o = (b, []) ↔
  optional_field "baseRevision" o is_decimal_string None Some b.
Proof.
  unfold read_base_revision, optional_field.
  destruct (bt_get "baseRevision" o) as [[]|]; try (split; [done|by intros (? & [=] & _)]).
  2: { split; [by intros [= <-]|by intros ->]. }
  destruct (is_decimal_string s) eqn:E.
  - split; [intros [= <-]; by exists s|by intros (t & [= <-] & _ & ->)].
  - split; [done|]. intros (t & [= <-] & Ht & _). congruence.
Qed.

Lemma read_payload_iff path o m : read_payload path o = (m, []) ↔ bt_get "payload" o = Some (JObject m).
Proof.
  unfold read_payload. destruct (bt_get "payload" o) as [[]|]; try by split.
  split; [by intros [= <-]|by intros [= ->]].
Qed.

Lemma payload_issues_nil path op m : payload_issues path op m = [] ↔ payload_conforms op m.
Proof.
  unfold payload_issues, payload_conforms. destruct op; [|by destruct m].
  rewrite app_nil, omap_nil. split; intros [Hu Hk]; split.
  - destruct (bt_get "updatedAt" m) as [t|]; [|done]. exists t. by destruct (is_timestamp t).
  - intros key t Hkey Ht. specialize (Hk key Hkey). rewrite Ht in Hk. by destruct (is_timestamp t).
  - destruct Hu as (t & -> & Ht). by rewrite Ht.
  - intros key Hkey. destruct (bt_get key m) as [t|] eqn:Et; [|done]. by rewrite (Hk key t).
Qed.

Lemma validate_record_iff v index r : validate_record v index = Ok r ↔ record_conforms v r.
Proof.
  unfold record_conforms. destruct v as [| | | | |o]; simpl; try (split; [done|by intros (? & [=] & _)]).
  set (path := "records." +:+ to_dec index).
  pose proof (read_table_iff path o) as H1. pose proof (read_record_id_iff path o) as H2.
  pose proof (read_operation_iff path o) as H3. pose proof (read_base_revision_iff path o) as H4.
  pose proof (read_payload_iff path o) as H5. pose proof (unrecognized_nil path RECORD_KEYS o) as H0.
  destruct (read_table path o) as [t i1], (read_record_id path o) as [id i2],
    (read_operation path o) as [op i3], (read_base_revision path o) as [b i4],
    (read_payload path o) as [m i5].
  set (i6 := if is_some_and _ _ then _ else _).
  assert (i5 = [] → (i6 = [] ↔ payload_conforms op m)) as H6.
  { intros ->. unfold i6. rewrite (proj1 (H5 m) eq_refl). simpl. apply payload_issues_nil. }
  split.
  - intros E. destruct (_ ++ _) as [|issue l] eqn:Ei; [|done]. injection E as <-.
    rewrite !app_nil in Ei. destruct Ei as (Hk & -> & -> & -> & -> & -> & Hi6).
    exists o. simpl. split; [done|]. split; [by apply H0|].
    destruct (proj1 (H1 t) eq_refl), (proj1 (H2 id) eq_refl). do 4 (split; [done|]).
    split; [by apply H3|]. split; [by apply H4|]. split; [by apply H5|]. by apply H6.
  - intros (o' & [= <-] & Hk & Ht & Hti & Hid & Hidl & Hop & Hb & Hm & Hp).
    assert ((t, i1) = (table r, [])) as [= -> ->] by (by apply H1).
    assert ((id, i2) = (record_id r, [])) as [= -> ->] by (by apply H2).
    assert ((op, i3) = (operation r, [])) as [= -> ->] by (by apply H3).
    assert ((b, i4) = (base_revision r, [])) as [= -> ->] by (by apply H4).
    assert ((m, i5) = (payload r, [])) as [= -> ->] by (by apply H5).
    apply H0 in Hk as ->. rewrite (proj2 (H6 eq_refl) Hp). by destruct r.
Qed.

Lemma validate_records_iff items : ∀ index rs,
  validate_records items index = (rs, []) ↔ Forall2 record_conforms items rs.
Proof.
  induction items as [|v items IH]; intros index rs; simpl.
  - split; [by intros [= <-]|by intros ->%Forall2_nil_inv_l].
  - destruct (validate_records items (index + 1)) as [rs' is'] eqn:Er.
    destruct (validate_record v index) as [r|issues] eqn:Ev.
    + split.
      * intros [= <- ->]. constructor; [by eapply validate_record_iff|]. by eapply IH.
      * intros (r' & rs2 & Hr & Hrs & ->)%Forall2_cons_inv_l.
        apply (validate_record_iff v index) in Hr. apply (IH (index + 1)) in Hrs. congruence.
    + split.
      * intros [= _ Ei]. apply app_nil in Ei as [-> _]. exfalso. revert Ev. unfold validate_record.
        destruct v; try done. repeat case_match; congruence.
      * intros (r' & rs2 & Hr & _)%Forall2_cons_inv_l.
        apply (validate_record_iff v index) in Hr. congruence.
Qed.

Lemma read_format_version_nil root : read_format_version root = [] ↔
  ∃ n, bt_get "formatVersion" root = Some (JNumber n) ∧ as_u64_num n = Some 1.
Proof.
  unfold read_format_version. destruct (bt_get "formatVersion" root) as [[]|]; try (split; [done|by intros (? & [=] & _)]).
  case_bool_decide; split; try done; [by exists n|by intros (? & [= <-] & ?)].
Qed.

Lemma read_source_iff root s : read_source root = (s, []) ↔
  optional_field "source" root (λ t, chars_count t <=? 200) None Some s.
Proof.
  unfold read_source, optional_field.
  destruct (bt_get "source" root) as [[]|]; try (split; [done|by intros (? & [=] & _)]).
  2: { split; [by intros [= <-]|by intros ->]. }
  destruct (chars_count s0 <=? 200) eqn:E.
  - split; [intros [= <-]; by exists s0|by intros (t & [= <-] & _ & ->)].
  - split; [done|]. intros (t & [= <-] & Ht & _). congruence.
Qed.

Lemma read_records_iff root rs : read_records root = (rs, []) ↔
  ∃ items, bt_get "records" root = Some (JArray items) ∧ items ≠ [] ∧ Forall2 record_conforms items rs.
Proof.
  unfold read_records. destruct (bt_get "records" root) as [[]|]; try (split; [done|by intros (? & [=] & _)]).
  pose proof (validate_records_iff l 0) as Hr. destruct (validate_records l 0) as [rs' is']. split.
  - intros [= -> [Hn ->]%app_nil]. exists l. split; [done|]. split; [by destruct l|by apply Hr].
  - intros (items & [= <-] & Hn & Hf). apply Hr in Hf as [= -> ->]. by destruct l.
Qed.

Lemma validate_envelope_iff v e : validate_envelope v = Ok e ↔ envelope_conforms v e.
Proof.
  unfold envelope_conforms. destruct v as [| | | | |root]; simpl; try (split; [done|by intros (? & ? & ? & [=] & _)]).
  pose proof (unrecognized_nil "<root>" ENVELOPE_KEYS root) as H0.
  pose proof (read_format_version_nil root) as H1. pose proof (read_source_iff root) as H2.
  pose proof (read_records_iff root) as H3.
  destruct (read_source root) as [s i2], (read_records root) as [rs i3]. split.
  - intros E. destruct (_ ++ _) as [|issue l] eqn:Ei; [|done]. injection E as <-.
    rewrite !app_nil in Ei. destruct Ei as (Hk & Hf & -> & ->).
    apply H1 in Hf as (n & Hn & Hn1). destruct (proj1 (H3 rs) eq_refl) as (items & Hi & Hne & Hrs).
    exists root, n, items. split; [done|]. split; [by apply H0|]. do 2 (split; [done|]).
    split; [by apply H2|]. by split.
  - intros (root' & n & items & [= <-] & Hk & Hn & Hn1 & Hs & Hi & Hne & Hrs).
    assert ((s, i2) = (source e, [])) as [= -> ->] by (by apply H2).
    assert ((rs, i3) = (records e, [])) as [= -> ->] by (apply H3; by exists items).
    apply H0 in Hk as ->. rewrite (proj2 H1) by eauto. by destruct e.
Qed.

Lemma validate_envelope_issues v err : validate_envelope v = Err err → issues err ≠ [].
Proof.
  unfold validate_envelope. destruct v; try by intros [= <-]. repeat case_match; try done; by intros [= <-].
Qed.

Lemma provider_issues_nil v p : provider_issues v p = [] ↔ approves v p.
Proof.
  unfold provider_issues, run_provider, approves. destruct (validate p v) as [[[]|[|i l]]|]; by split.
Qed.

Lemma validate_envelope_with_iff v ps e : validate_envelope_with v ps = Ok e ↔
  validate_envelope v = Ok e ∧ Forall (approves v) ps.
Proof.
  assert (Forall (approves v) ps ↔ flat_map (provider_issues v) ps = []) as ->.
  { rewrite flat_map_nil. apply Forall_iff. intros p. symmetry. apply provider_issues_nil. }
  unfold validate_envelope_with. destruct (validate_envelope v) as [e'|err] eqn:E; simpl.
  - destruct (flat_map _ _); naive_solver.
  - apply validate_envelope_issues in E. destruct (issues err); [done|]. simpl. naive_solver.
Qed.

Lemma validate_envelope_with_issues v ps err : validate_envelope_with v ps = Err err → issues err ≠ [].
Proof.
  unfold validate_envelope_with. destruct (validate_envelope v) as [e'|err'] eqn:E; simpl.
  - destruct (flat_map _ _); [done|by intros [= <-]].
  - apply validate_envelope_issues in E. destruct (issues err') eqn:Ei; [done|]. simpl. by intros [= <-].
Qed.

Lemma forallb_utf8_cut s : forallb char_ok (chars s) = true → utf8_cut s.
Proof. apply forallb_Forall. Qed.

(** ** Closed examples *)

Example recognisers :
  (is_identifier "docs_1", is_identifier "1docs", is_digits "0012", is_decimal_string "012",
   is_native_hlc "1700000000000-00ff-node", is_native_hlc "1700000000000-00FF-node",
   is_iso8601 "2024-01-02T03:04:05Z", is_iso8601 "2024-01-02T03:04:05.123456789Z-0001-node.a",
   is_iso8601 "2024-01-02T03:04:05.1234567890Z", is_safe_integer (NFloat 3 (-1)),
   is_safe_integer (NFloat 1 53))
  = (true, false, true, false, true, false, true, true, false, false, false).
Proof. vm_compute. reflexivity. Qed.

Definition demo_envelope : json :=
  JObject [("formatVersion", JNumber (NPosInt 1));
           ("records", JArray [JObject [("payload", JObject [("updatedAt", JNumber (NPosInt 7))]);
                                        ("recordId", JString "r1"); ("table", JString "docs")]])].

Definition demo_record : IngestRecord :=
  {| table := "docs"; record_id := "r1"; operation := Upsert; base_revision := None;
     payload := [("updatedAt", JNumber (NPosInt 7))] |}.

(** A provider that vetoes everything, one that panics, and one that approves. *)
Definition veto : EnvelopeValidationProvider := {| name := Some "veto"; validate _ := Some (Err []) |}.
Definition panics : EnvelopeValidationProvider := {| name := None; validate _ := None |}.
Definition approver : EnvelopeValidationProvider := {| name := Some "ok"; validate _ := Some (Ok tt) |}.

Example envelopes :
  (validate_envelope_with demo_envelope [approver],
   validate_envelope_with demo_envelope [veto; approver; panics],
   validate_envelope (JObject [("extra", JNull); ("records", JArray [JNull])]))
  = (Ok {| source := None; records := [demo_record] |},
     Err {| issues := ["provider[veto]: validation rejected the envelope";
                       "provider[<panicked-provider-name>]: provider panicked"] |},
     Err {| issues := ["<root>.extra: unrecognized key"; "<root>.formatVersion: required";
                       "records.0: expected an object"] |}).
Proof. vm_compute. reflexivity. Qed.

(** ** Properties *)

(** Each hand-written recogniser accepts exactly the strings of the
    regular expression that documents it. *)
Theorem recognisers_match (v : string) (Hv : utf8_cut v) :
  (is_identifier v = true ↔ accepts identifier_regex v) ∧
  (is_digits v = true ↔ accepts digits_regex v) ∧
  (is_decimal_string v = true ↔ accepts decimal_regex v) ∧
  (is_native_hlc v = true ↔ accepts hlc_regex v) ∧
  (is_iso8601 v = true ↔ accepts iso8601_regex v).
Proof.
  rewrite is_identifier_iff, is_digits_iff, is_decimal_string_iff, is_native_hlc_iff, is_iso8601_iff by done.
  done.
Qed.

Lemma recognisers_match_witness :
  accepts iso8601_regex "2024-01-02T03:04:05.5Z-0001-node" ∧
  accepts hlc_regex "1700000000000-00ff-node".
Proof.
  split.
  - apply (recognisers_match "2024-01-02T03:04:05.5Z-0001-node"); [|vm_compute; reflexivity].
    apply forallb_utf8_cut. vm_compute. reflexivity.
  - apply (recognisers_match "1700000000000-00ff-node"); [|vm_compute; reflexivity].
    apply forallb_utf8_cut. vm_compute. reflexivity.
Defined.

(** An envelope text is accepted exactly when it parses to a value that
    conforms to the schema and every provider approves that value, and what
    is returned is the conforming reading: providers can veto and nothing
    else.  A refusal always carries an issue. *)
Theorem envelope_accepted `{SerdeJson, JsonParseText} (text : string)
    (providers : list EnvelopeValidationProvider) :
  (∀ e, parse_envelope_with text providers = Ok e ↔
     ∃ v, from_text text = Some v ∧ envelope_conforms v e ∧ Forall (approves v) providers) ∧
  (∀ err, parse_envelope_with text providers = Err err → issues err ≠ []) ∧
  ∀ v p, drift (audit_provider v p) = false ↔ ((∃ e, envelope_conforms v e) ↔ approves v p).
Proof.
  unfold parse_envelope_with. split; [|split].
  - intros e. destruct (from_text text) as [v|].
    + rewrite validate_envelope_with_iff, validate_envelope_iff. naive_solver.
    + naive_solver.
  - intros err. destruct (from_text text) as [v|]; [apply validate_envelope_with_issues|by intros [= <-]].
  - intros v p. unfold audit_provider, approves, run_provider. simpl. rewrite negb_false_iff, eqb_true_iff.
    setoid_rewrite <- validate_envelope_iff.
    destruct (validate_envelope v) as [e|err], (validate p v) as [[[]|[|]]|]; simpl; naive_solver.
Qed.
