(* ===== verification/JsonSchema.v ===== *)
(** * JsonSchema: the JSON Schema keywords the published schemas use

    [schema/] publishes JSON Schemas for what the clients exchange.  A schema is
    the list of its keywords; a value conforms when every keyword holds, and a
    keyword says nothing of values of other types (draft 2020-12). *)

From S2P Require Import Prelude Text Btree Json Regex.

Inductive json_type := TString | TInteger | TBoolean | TObject.

#[warnings="-register-all"]
Inductive schema :=
| OfType (t : json_type)
| Const (v : json)
| Enum (vs : list json)
| Minimum (n : Z)
| Maximum (n : Z)
| MaxLength (n : N)
| Pattern (r : regex)
| Required (ks : list string)
| Properties (ps : list (string * schema))
(** [additionalProperties: false] beside properties of these names *)
| NoAdditional (ks : list string)
| Not (s : schema)
| AllOf (l : list schema)
| IfThen (i t : schema).

(** The number [m * 2^e] against an integer, and whether it is one. *)
Definition scaled_le (m e b : Z) : Prop :=
  if (0 <=? e)%Z then (m * 2 ^ e ≤ b)%Z else (m ≤ b * 2 ^ (- e))%Z.
Definition scaled_ge (m e b : Z) : Prop :=
  if (0 <=? e)%Z then (b ≤ m * 2 ^ e)%Z else (b * 2 ^ (- e) ≤ m)%Z.
Definition integral (n : number) : Prop :=
  match n with
  | NPosInt _ | NNegInt _ => True
  | NFloat m e => (0 ≤ e)%Z ∨ (m mod 2 ^ (- e) = 0)%Z
  end.

Definition number_le (n : number) (b : Z) : Prop :=
  match n with NPosInt k => (Z.of_N k ≤ b)%Z | NNegInt z => (z ≤ b)%Z | NFloat m e => scaled_le m e b end.
Definition number_ge (n : number) (b : Z) : Prop :=
  match n with NPosInt k => (b ≤ Z.of_N k)%Z | NNegInt z => (b ≤ z)%Z | NFloat m e => scaled_ge m e b end.

Definition has_type (t : json_type) (v : json) : Prop :=
  match t, v with
  | TString, JString _ | TBoolean, JBool _ | TObject, JObject _ => True
  | TInteger, JNumber n => integral n
  | _, _ => False
  end.

Fixpoint conforms (s : schema) (v : json) {struct s} : Prop :=
  match s with
  | OfType t => has_type t v
  | Const c => v = c
  | Enum vs => v ∈ vs
  | Minimum b => match v with JNumber n => number_ge n b | _ => True end
  | Maximum b => match v with JNumber n => number_le n b | _ => True end
  | MaxLength n => match v with JString t => chars_count t ≤ n | _ => True end
  | Pattern r => match v with JString t => accepts r t | _ => True end
  | Required ks => match v with JObject m => Forall (λ k, is_Some (bt_get k m)) ks | _ => True end
  | Properties ps =>
      match v with
      | JObject m =>
          (fix go ps := match ps with
            | [] => True
            | (k, s) :: ps => match bt_get k m with Some x => conforms s x | None => True end ∧ go ps
            end) ps
      | _ => True
      end
  | NoAdditional ks => match v with JObject m => Forall (λ k, k ∈ ks) (bt_keys m) | _ => True end
  | Not s => ¬ conforms s v
  | AllOf l => (fix go l := match l with [] => True | s :: l => conforms s v ∧ go l end) l
  | IfThen i t => conforms i v → conforms t v
  end.

(** [properties] with [additionalProperties: false] and [required] *)
Definition closed_object (required : list string) (ps : list (string * schema)) : schema :=
  AllOf [OfType TObject; NoAdditional (List.map fst ps); Required required; Properties ps].

(** ** Lemmas *)

Lemma conforms_all l v : Forall (λ s, conforms s v) l → conforms (AllOf l) v.
Proof. induction 1 as [|s l Hs _ IH]; [done|]. by split. Qed.
