(* ===== verification/Observability.v ===== *)
(** * Observability: the telemetry record and its fail-open delivery

    [clients/rust/src/observability.rs] and [clients/rust/src/telemetry.rs]: the
    guards of the record's fields, the record, and its delivery to the
    application's sink.  A u8, u32 or usize field is an [N].

    [telemetry_record_conforms] types the record by the JSON Schema the
    repository publishes for it; [telemetry_delivery] shows what a sink can see
    and that it cannot disturb its caller; [canonical_timestamp_correct] relates
    the timestamp guard to the calendar. *)

From S2P Require Import Prelude Text Decimal Btree Json Regex JsonSchema Protocol ProtocolSync.

Definition OPTO_SYNC_TELEMETRY_SCHEMA : string := "opto-sync.telemetry/v1".
Definition MAXIMUM_SAFE_INTEGER : N := 9007199254740991.

Inductive ProtocolSyncTelemetryRuntime := TypeScript | Dart | Rust.
Definition runtime_as_str (r : ProtocolSyncTelemetryRuntime) : string :=
  match r with TypeScript => "typescript" | Dart => "dart" | Rust => "rust" end.

Inductive ProtocolSyncTelemetryKind := StateChanged | CycleCompleted | CycleFailed.
#[export] Instance kind_eq_dec : EqDecision ProtocolSyncTelemetryKind.
Proof. solve_decision. Defined.

Definition event_name (k : ProtocolSyncTelemetryKind) : string :=
  match k with
  | StateChanged => "opto.sync.state.changed"
  | CycleCompleted => "opto.sync.cycle.completed"
  | CycleFailed => "opto.sync.cycle.failed"
  end.
Definition kind_body (k : ProtocolSyncTelemetryKind) : string :=
  match k with
  | StateChanged => "opto-sync state changed"
  | CycleCompleted => "opto-sync sync cycle completed"
  | CycleFailed => "opto-sync sync cycle failed"
  end.

Inductive ProtocolSyncTelemetryStatus := Stopped | Idle | Syncing | Offline | Backoff | Error.
#[export] Instance status_eq_dec : EqDecision ProtocolSyncTelemetryStatus.
Proof. solve_decision. Defined.

Definition status_as_str (s : ProtocolSyncTelemetryStatus) : string :=
  match s with
  | Stopped => "stopped" | Idle => "idle" | Syncing => "syncing"
  | Offline => "offline" | Backoff => "backoff" | Error => "error"
  end.

Record OresOpenTelemetryLogRecord := {
  body : string;
  severity_text : string;
  severity_number : N;
  timestamp : string;
  attributes : bmap json;
  trace_id : option string;
  span_id : option string;
  trace_flags : option N;
  trace_state : option string
}.

Record ProtocolSyncTelemetryInput := {
  in_runtime : ProtocolSyncTelemetryRuntime;
  in_kind : ProtocolSyncTelemetryKind;
  in_status : ProtocolSyncTelemetryStatus;
  in_consecutive_failures : N;
  in_timestamp : string;
  in_next_retry_at : option string;
  in_cycle : option ProtocolSyncCycleResult;
  in_error_code : option string;
  in_request_id : option string;
  in_trace_id : option string;
  in_span_id : option string;
  in_trace_flags : option N;
  in_trace_state : option string
}.

Inductive ProtocolSyncTelemetryError :=
| MissingCycleResult
| MissingErrorCode
| InvalidErrorCode
| InvalidRequestId
| InvalidTimestamp
| InvalidTraceId
| InvalidSpanId
| TraceStateTooLong
| CountOutOfRange (name : string).

(** ** Guards *)

(** The bytes of [value[start..end]]. *)
Definition slice (l : list ascii) (start finish : nat) : list ascii := take (finish - start) (drop start l).

Definition u16_max : N := 65535.

(** [str::parse::<u16>] *)
Definition parse_u16 (s : string) : option N :=
  match parse_u64 s with Some n => if n <=? u16_max then Some n else None | None => None end.

Definition byte_at (l : list ascii) (i : nat) (c : ascii) : bool := (l !! i) == Some c.

Definition DIGIT_FIELDS : list (nat * nat) :=
  [(0, 4); (5, 7); (8, 10); (11, 13); (14, 16); (17, 19); (20, 23)]%nat.

Definition days_in_month (leap_year : bool) (month : N) : option N :=
  if existsb (N.eqb month) [1; 3; 5; 7; 8; 10; 12] then Some 31
  else if existsb (N.eqb month) [4; 6; 9; 11] then Some 30
  else if month =? 2 then Some (if leap_year then 29 else 28)
  else None.

Definition canonical_timestamp (value : string) : bool :=
  let l := bytes value in
  if negb (length l =? 24)%nat || negb (byte_at l 4 "-") || negb (byte_at l 7 "-")
     || negb (byte_at l 10 "T") || negb (byte_at l 13 ":") || negb (byte_at l 16 ":")
     || negb (byte_at l 19 ".") || negb (byte_at l 23 "Z")
  then false
  else if negb (forallb (λ f, forallb is_ascii_digit (slice l f.1 f.2)) DIGIT_FIELDS) then false
  else
    let number start finish := default u16_max (parse_u16 (of_bytes (slice l start finish))) in
    let year := number 0%nat 4%nat in
    let month := number 5%nat 7%nat in
    let day := number 8%nat 10%nat in
    let leap_year := (year mod 4 =? 0) && (negb (year mod 100 =? 0) || (year mod 400 =? 0)) in
    match days_in_month leap_year month with
    | None => false
    | Some days =>
        ((1 <=? day) && (day <=? days))
        && (number 11%nat 13%nat <=? 23) && (number 14%nat 16%nat <=? 59) && (number 17%nat 19%nat <=? 59)
    end.

Definition one_of_bytes (s : string) (c : ascii) : bool := existsb (λ d, d == c) (bytes s).

Definition valid_error_code (value : string) : bool :=
  match bytes value with
  | [] => false
  | first :: rest =>
      (length (first :: rest) <=? 128)%nat && is_ascii_uppercase first
      && forallb (λ b, is_ascii_uppercase b || is_ascii_digit b || one_of_bytes "_.-" b) rest
  end.

Definition valid_request_id (value : string) : bool :=
  (8 <=? len value) && (len value <=? 128)
  && all_bytes (λ b, is_ascii_alphanumeric b || one_of_bytes "._:-" b) value.

Definition valid_hex_id (value : string) (length : N) : bool :=
  (len value =? length) && all_bytes is_lower_hex value
  && existsb (λ b, negb (b == "0"%char)) (bytes value).

(** ** The record *)

Definition insert_count (key name : string) (value : N) (attributes : bmap json)
  : result (bmap json) ProtocolSyncTelemetryError :=
  if MAXIMUM_SAFE_INTEGER <? value then Err (CountOutOfRange name)
  else Ok (bt_insert key (JNumber (NPosInt value)) attributes).

Definition check_input (input : ProtocolSyncTelemetryInput) : result unit ProtocolSyncTelemetryError :=
  if 2147483647 <? in_consecutive_failures input then Err (CountOutOfRange "consecutive_failures")
  else if negb (canonical_timestamp (in_timestamp input))
          || is_some_and (in_next_retry_at input) (λ v, negb (canonical_timestamp v))
  then Err InvalidTimestamp
  else if (in_kind input == CycleCompleted) && negb (is_some (in_cycle input)) then Err MissingCycleResult
  else if (in_kind input == CycleFailed) && negb (is_some (in_error_code input)) then Err MissingErrorCode
  else if is_some_and (in_error_code input) (λ v, negb (valid_error_code v)) then Err InvalidErrorCode
  else if is_some_and (in_request_id input) (λ v, negb (valid_request_id v)) then Err InvalidRequestId
  else if is_some_and (in_trace_id input) (λ v, negb (valid_hex_id v 32)) then Err InvalidTraceId
  else if is_some_and (in_span_id input) (λ v, negb (valid_hex_id v 16)) then Err InvalidSpanId
  else if is_some_and (in_trace_state input) (λ v, 512 <? chars_count v) then Err TraceStateTooLong
  else Ok ().

Definition insert_str (key : string) (value : option string) (attributes : bmap json) : bmap json :=
  match value with Some v => bt_insert key (JString v) attributes | None => attributes end.

Definition base_attributes (input : ProtocolSyncTelemetryInput) : bmap json :=
  bt_of_list
    [("service.name", JString "opto-sync");
     ("event.name", JString (event_name (in_kind input)));
     ("opto.sync.schema", JString OPTO_SYNC_TELEMETRY_SCHEMA);
     ("opto.sync.runtime", JString (runtime_as_str (in_runtime input)));
     ("opto.sync.status", JString (status_as_str (in_status input)));
     ("opto.sync.consecutive_failures", JNumber (NPosInt (in_consecutive_failures input)))].

Definition cycle_attributes (cycle : ProtocolSyncCycleResult) (m : bmap json)
  : result (bmap json) ProtocolSyncTelemetryError :=
  let? m := insert_count "opto.sync.pushed_mutations" "cycle.pushed_mutations"
              (cy_pushed_mutations cycle) m in
  let? m := insert_count "opto.sync.acknowledged_mutations" "cycle.acknowledged_mutations"
              (cy_acknowledged_mutations cycle) m in
  let? m := insert_count "opto.sync.pulled_changes" "cycle.pulled_changes" (cy_pulled_changes cycle) m in
  let? m := insert_count "opto.sync.installed_snapshots" "cycle.installed_snapshots"
              (cy_installed_snapshots cycle) m in
  Ok (bt_insert "opto.sync.has_more_pending" (JBool (cy_has_more_pending cycle)) m).

Definition severity (input : ProtocolSyncTelemetryInput) : string * N :=
  if in_kind input == CycleFailed then ("ERROR", 17)
  else if in_kind input == CycleCompleted then ("INFO", 9)
  else if in_status input == Error then ("ERROR", 17)
  else if (in_status input == Backoff) || (in_status input == Offline) then ("WARN", 13)
  else ("INFO", 9).

Definition create_protocol_sync_telemetry_record (input : ProtocolSyncTelemetryInput)
  : result OresOpenTelemetryLogRecord ProtocolSyncTelemetryError :=
  let? _ := check_input input in
  let m := base_attributes input in
  let m := insert_str "opto.sync.next_retry_at" (in_next_retry_at input) m in
  let m := insert_str "error.code" (in_error_code input) m in
  let m := insert_str "request.id" (in_request_id input) m in
  let? m :=
    match in_cycle input with
    | Some cycle => if in_kind input == CycleCompleted then cycle_attributes cycle m else Ok m
    | None => Ok m
    end in
  let '(severity_text, severity_number) := severity input in
  Ok {| body := kind_body (in_kind input);
        severity_text := severity_text;
        severity_number := severity_number;
        timestamp := in_timestamp input;
        attributes := m;
        trace_id := in_trace_id input;
        span_id := in_span_id input;
        trace_flags := in_trace_flags input;
        trace_state := in_trace_state input |}.

(** ** Delivery *)

(** The application's sink acts on a world of its own; [None] is its panic. *)
Class TelemetrySink (W : Type) := {
  sink_emit : OresOpenTelemetryLogRecord → W → W * option (result unit string)
}.

(** The source's [sink] is optional; its call is under [catch_unwind]. *)
Definition emit_protocol_sync_telemetry {W} (sink : option (TelemetrySink W))
    (input : ProtocolSyncTelemetryInput) (w : W) : W :=
  match sink with
  | None => w
  | Some sink =>
      match create_protocol_sync_telemetry_record input with
      | Err _ => w
      | Ok record => (sink_emit record w).1
      end
  end.

(** ** The published schema ([schema/opto-sync-telemetry.schema.json]) *)

Definition digit : regex := ascii_class is_ascii_digit.
Definition digits_between (lo hi : ascii) : regex := ascii_class (in_range (byte_val lo) (byte_val hi)).

(** [0[1-9]|1[0-2]], [0[1-9]|[12][0-9]|3[01]] and [[01][0-9]|2[0-3]] *)
Definition month_regex : regex :=
  Alt (Seq (literal_char "0") (digits_between "1" "9")) (Seq (literal_char "1") (digits_between "0" "2")).
Definition day_regex : regex :=
  Alt (Seq (literal_char "0") (digits_between "1" "9"))
    (Alt (Seq (digits_between "1" "2") digit) (Seq (literal_char "3") (digits_between "0" "1"))).
Definition hour_regex : regex :=
  Alt (Seq (digits_between "0" "1") digit) (Seq (literal_char "2") (digits_between "0" "3")).
Definition sixty_regex : regex := Seq (digits_between "0" "5") digit.

Definition rfc3339_regex : regex :=
  Seq (times digit 4) (Seq (literal_char "-") (Seq month_regex (Seq (literal_char "-")
  (Seq day_regex (Seq (literal_char "T") (Seq hour_regex (Seq (literal_char ":")
  (Seq sixty_regex (Seq (literal_char ":") (Seq sixty_regex (Seq (literal_char ".")
  (Seq (times digit 3) (literal_char "Z"))))))))))))).

Definition rfc3339Utc : schema := AllOf [OfType TString; Pattern rfc3339_regex; MaxLength 24].
Definition hex_regex (n : nat) : regex := times (ascii_class is_lower_hex) n.
Definition w3cTraceId : schema :=
  AllOf [OfType TString; Pattern (hex_regex 32); Not (Const (JString "00000000000000000000000000000000"))].
Definition w3cSpanId : schema :=
  AllOf [OfType TString; Pattern (hex_regex 16); Not (Const (JString "0000000000000000"))].
Definition count_schema : schema := AllOf [OfType TInteger; Minimum 0; Maximum 9007199254740991].
Definition error_code_schema : schema :=
  AllOf [OfType TString;
         Pattern (Seq (ascii_class is_ascii_uppercase)
           (Repeat (ascii_class (λ b, is_ascii_uppercase b || is_ascii_digit b || one_of_bytes "_.-" b))
              0 (Some 127%nat)))].
Definition request_id_schema : schema :=
  AllOf [OfType TString;
         Pattern (Repeat (ascii_class (λ b, is_ascii_alphanumeric b || one_of_bytes "._:-" b)) 8 (Some 128%nat))].

Definition strings (l : list string) : list json := List.map JString l.

Definition attributes_schema : schema :=
  closed_object
    ["service.name"; "event.name"; "opto.sync.schema"; "opto.sync.runtime"; "opto.sync.status";
     "opto.sync.consecutive_failures"]
    [("service.name", Const (JString "opto-sync"));
     ("event.name", AllOf [OfType TString; Enum (strings
        ["opto.sync.state.changed"; "opto.sync.cycle.completed"; "opto.sync.cycle.failed"])]);
     ("opto.sync.schema", Const (JString "opto-sync.telemetry/v1"));
     ("opto.sync.runtime", AllOf [OfType TString; Enum (strings ["typescript"; "dart"; "rust"])]);
     ("opto.sync.status", AllOf [OfType TString; Enum (strings
        ["stopped"; "idle"; "syncing"; "offline"; "backoff"; "error"])]);
     ("opto.sync.consecutive_failures", AllOf [OfType TInteger; Minimum 0; Maximum 2147483647]);
     ("opto.sync.next_retry_at", rfc3339Utc);
     ("opto.sync.pushed_mutations", count_schema);
     ("opto.sync.acknowledged_mutations", count_schema);
     ("opto.sync.pulled_changes", count_schema);
     ("opto.sync.installed_snapshots", count_schema);
     ("opto.sync.has_more_pending", OfType TBoolean);
     ("error.code", error_code_schema);
     ("request.id", request_id_schema)].

(** The attributes have the key, and its value is as the schema says. *)
Definition attribute_is (key : string) (s : schema) : schema :=
  Properties [("attributes", AllOf [OfType TObject; Properties [(key, s)]; Required [key]])].
Definition severity_is (text : string) (number : N) : schema :=
  Properties [("severityText", Const (JString text)); ("severityNumber", Const (JNumber (NPosInt number)))].
Definition body_is (text : string) : schema := Properties [("body", Const (JString text))].

Definition telemetry_schema : schema :=
  AllOf
    [closed_object ["body"; "severityText"; "severityNumber"; "timestamp"; "attributes"]
       [("body", AllOf [OfType TString; Enum (strings
           ["opto-sync state changed"; "opto-sync sync cycle completed"; "opto-sync sync cycle failed"])]);
        ("severityText", AllOf [OfType TString; Enum (strings ["INFO"; "WARN"; "ERROR"])]);
        ("severityNumber", AllOf [OfType TInteger; Enum
           [JNumber (NPosInt 9); JNumber (NPosInt 13); JNumber (NPosInt 17)]]);
        ("timestamp", rfc3339Utc);
        ("attributes", attributes_schema);
        ("traceId", w3cTraceId);
        ("spanId", w3cSpanId);
        ("traceFlags", AllOf [OfType TInteger; Minimum 0; Maximum 255]);
        ("traceState", AllOf [OfType TString; MaxLength 512])];
     IfThen (attribute_is "event.name" (Const (JString "opto.sync.cycle.completed")))
       (AllOf [body_is "opto-sync sync cycle completed"; severity_is "INFO" 9;
               attribute_is "opto.sync.pushed_mutations" count_schema;
               attribute_is "opto.sync.acknowledged_mutations" count_schema;
               attribute_is "opto.sync.pulled_changes" count_schema;
               attribute_is "opto.sync.installed_snapshots" count_schema;
               attribute_is "opto.sync.has_more_pending" (OfType TBoolean)]);
     IfThen (attribute_is "event.name" (Const (JString "opto.sync.cycle.failed")))
       (AllOf [body_is "opto-sync sync cycle failed"; severity_is "ERROR" 17;
               attribute_is "error.code" error_code_schema]);
     IfThen (attribute_is "event.name" (Const (JString "opto.sync.state.changed")))
       (AllOf [body_is "opto-sync state changed";
          IfThen (attribute_is "opto.sync.status" (Const (JString "error"))) (severity_is "ERROR" 17);
          IfThen (attribute_is "opto.sync.status" (Enum (strings ["offline"; "backoff"]))) (severity_is "WARN" 13);
          IfThen (attribute_is "opto.sync.status" (Enum (strings ["stopped"; "idle"; "syncing"])))
            (severity_is "INFO" 9)])].

(** The JSON object serde's attributes on the struct describe: camel-cased
    names, absent options left out. *)
Definition record_json (r : OresOpenTelemetryLogRecord) : json :=
  JObject
    (insert_str "traceState" (trace_state r)
    (match trace_flags r with Some n => bt_insert "traceFlags" (JNumber (NPosInt n)) | None => λ m, m end
    (insert_str "spanId" (span_id r)
    (insert_str "traceId" (trace_id r)
    (bt_of_list
       [("body", JString (body r)); ("severityText", JString (severity_text r));
        ("severityNumber", JNumber (NPosInt (severity_number r)));
        ("timestamp", JString (timestamp r)); ("attributes", JObject (attributes r))]))))).

(** ** The calendar *)

Record utc := { year : N; month : N; day : N; hour : N; minute : N; second : N; milli : N }.

(** Leap days up to the end of a year, as the Gregorian calendar counts them. *)
Definition leap_days (y : Z) : Z := (y / 4 - y / 100 + y / 400)%Z.
Definition year_days (y : N) : Z := (365 + leap_days (Z.of_N y) - leap_days (Z.of_N y - 1))%Z.

(** Days before each month in a common year; February ends a day later in a
    year of 366 days. *)
Definition days_before (y : N) (m : N) : Z :=
  (nth (N.to_nat m) [0; 0; 31; 59; 90; 120; 151; 181; 212; 243; 273; 304; 334; 365] 0
   + (if (2 <? m)%N then year_days y - 365 else 0))%Z.

Definition valid_utc (t : utc) : Prop :=
  year t < 10000 ∧ 1 ≤ month t ≤ 12 ∧
  1 ≤ day t ∧ (Z.of_N (day t) ≤ days_before (year t) (month t + 1) - days_before (year t) (month t))%Z ∧
  hour t < 24 ∧ minute t < 60 ∧ second t < 60 ∧ milli t < 1000.

Definition digits_of (w : nat) (n : N) : string := pad_left "0" w (to_dec n).

Definition utc_text (t : utc) : string :=
  digits_of 4 (year t) +:+ "-" +:+ digits_of 2 (month t) +:+ "-" +:+ digits_of 2 (day t) +:+ "T"
  +:+ digits_of 2 (hour t) +:+ ":" +:+ digits_of 2 (minute t) +:+ ":" +:+ digits_of 2 (second t) +:+ "."
  +:+ digits_of 3 (milli t) +:+ "Z".

(** ** Lemmas: fixed-width fields *)

Definition field_val (l : list ascii) : N := from_radix 10 digit_val l.

Definition digit_field (w : nat) (l : list ascii) : Prop :=
  length l = w ∧ forallb is_ascii_digit l = true.

Lemma digit_field_bound w l : digit_field w l → field_val l < 10 ^ N.of_nat w.
Proof. intros [<- Hl]. apply (from_radix_bound 10 digit_val) with (p := is_ascii_digit); [lia|apply digit_val_lt|done]. Qed.

Lemma digit_field_eq w l1 l2 : digit_field w l1 → digit_field w l2 → field_val l1 = field_val l2 → l1 = l2.
Proof.
  intros [<- H1] [E H2] Hv. apply bytes_cmp_eq. rewrite decimal_cmp by done. by apply N.compare_eq_iff.
Qed.

Lemma digits_of_field w n : (1 ≤ w)%nat → n < 10 ^ N.of_nat w →
  digit_field w (bytes (digits_of w n)) ∧ field_val (bytes (digits_of w n)) = n.
Proof. intros Hw Hn. destruct (pad_decimal_spec w n Hw Hn) as (? & ? & ?). done. Qed.

Lemma digits_of_val w l : (1 ≤ w)%nat → digit_field w l → bytes (digits_of w (field_val l)) = l.
Proof.
  intros Hw Hl. destruct (digits_of_field w (field_val l) Hw) as [Hd Hv]; [by apply digit_field_bound|].
  by eapply digit_field_eq.
Qed.

Lemma parse_u16_field w l : (1 ≤ w ≤ 4)%nat → digit_field w l → parse_u16 (of_bytes l) = Some (field_val l).
Proof.
  intros Hw Hl. pose proof (digit_field_bound w l Hl) as Hb. destruct Hl as [Hn Hd].
  assert (10 ^ N.of_nat w ≤ 10 ^ 4) by (apply N.pow_le_mono_r; lia).
  assert (10 ^ 4 = 10000) as E by reflexivity.
  unfold parse_u16, parse_u64. rewrite bytes_of_bytes. destruct l as [|a l]; [simpl in Hn; lia|].
  assert (a ≠ "+"%char) by (intros ->; done).
  assert (match a :: l with "+"%char :: r => r | l' => l' end = a :: l) as ->.
  { destruct a as [[] [] [] [] [] [] [] []]; done. }
  cbv zeta. rewrite Hd. fold (field_val (a :: l)).
  rewrite (proj2 (N.leb_le (field_val (a :: l)) u64_max)) by (unfold u64_max; lia).
  cbv beta iota delta [andb]. by rewrite (proj2 (N.leb_le (field_val (a :: l)) u16_max)) by (unfold u16_max; lia).
Qed.

(** ** Lemmas: the calendar *)

Definition is_leap (y : N) : bool := (y mod 4 =? 0) && (negb (y mod 100 =? 0) || (y mod 400 =? 0)).

Lemma div_step (y k : Z) : (0 < k → y / k - (y - 1) / k = if y mod k =? 0 then 1 else 0)%Z.
Proof.
  intros Hk. destruct (Z.eqb_spec (y mod k) 0) as [E|E].
  - replace (y - 1)%Z with ((y / k - 1) * k + (k - 1))%Z by (pose proof (Z.div_mod y k); lia).
    rewrite Z.div_add_l, (Z.div_small (k - 1)) by lia. lia.
  - replace (y - 1)%Z with (y / k * k + (y mod k - 1))%Z by (pose proof (Z.div_mod y k); lia).
    pose proof (Z.mod_pos_bound y k Hk). rewrite Z.div_add_l, (Z.div_small (y mod k - 1)) by lia. lia.
Qed.

Lemma year_days_leap y : year_days y = if is_leap y then 366%Z else 365%Z.
Proof.
  unfold year_days, leap_days, is_leap.
  pose proof (div_step (Z.of_N y) 4) as H4. pose proof (div_step (Z.of_N y) 100) as H100.
  pose proof (div_step (Z.of_N y) 400) as H400.
  assert (∀ k, (0 < k)%N → (Z.of_N y mod Z.of_N k =? 0)%Z = (y mod k =? 0)%N) as E.
  { intros k Hk. rewrite <- N2Z.inj_mod. destruct (N.eqb_spec (y mod k) 0) as [->|]; [done|]. by apply Z.eqb_neq; lia. }
  rewrite (E 4%N ltac:(lia) : (Z.of_N y mod 4 =? 0)%Z = _) in H4.
  rewrite (E 100%N ltac:(lia) : (Z.of_N y mod 100 =? 0)%Z = _) in H100.
  rewrite (E 400%N ltac:(lia) : (Z.of_N y mod 400 =? 0)%Z = _) in H400.
  assert (y mod 400 = 0 → y mod 100 = 0)%N as D1.
  { rewrite !N.Lcm0.mod_divide. intros ?. by apply (N.divide_trans _ 400); [exists 4|]. }
  assert (y mod 100 = 0 → y mod 4 = 0)%N as D2.
  { rewrite !N.Lcm0.mod_divide. intros ?. by apply (N.divide_trans _ 100); [exists 25|]. }
  destruct (N.eqb_spec (y mod 4) 0), (N.eqb_spec (y mod 100) 0), (N.eqb_spec (y mod 400) 0); simpl; lia.
Qed.

Lemma month_cases (P : N → Prop) : Forall P [1; 2; 3; 4; 5; 6; 7; 8; 9; 10; 11; 12] → ∀ m, 1 ≤ m ≤ 12 → P m.
Proof.
  intros H m Hm. rewrite Forall_forall in H. apply H. rewrite <- In_elem. simpl. lia.
Qed.

Lemma days_in_month_spec y m days : days_in_month (is_leap y) m = Some days ↔
  1 ≤ m ≤ 12 ∧ Z.of_N days = (days_before y (m + 1) - days_before y m)%Z.
Proof.
  assert (1 ≤ m ≤ 12 ∨ days_in_month (is_leap y) m = None ∧ ¬ (1 ≤ m ≤ 12)) as [Hm|[-> Hm]].
  { destruct (decide (1 ≤ m ≤ 12)); [by left|right]. split; [|done]. unfold days_in_month.
    simpl. repeat (rewrite (proj2 (N.eqb_neq m _)) by lia). done. }
  2: { split; [done|]. by intros [? _]. }
  unfold days_before. rewrite year_days_leap. revert m Hm. apply month_cases.
  destruct (is_leap y);
    do 12 (apply Forall_cons_2;
      [split; [intros [= <-]; split; [lia|reflexivity]
              |intros [_ E]; rewrite <- (N2Z.id days), E; reflexivity]|]);
    apply Forall_nil_2.
Qed.

(** ** Lemmas: timestamps *)

(** The seven fields of a timestamp, as digits. *)
Definition fields_text (y mo d h mi se ms : list ascii) : list ascii :=
  y ++ "-"%char :: mo ++ "-"%char :: d ++ "T"%char :: h ++ ":"%char :: mi ++ ":"%char :: se
  ++ "."%char :: ms ++ ["Z"%char].

Definition fields_ok (y mo d h mi se ms : list ascii) : Prop :=
  digit_field 4 y ∧ digit_field 2 mo ∧ digit_field 2 d ∧ digit_field 2 h ∧ digit_field 2 mi ∧
  digit_field 2 se ∧ digit_field 3 ms.

Definition utc_of (y mo d h mi se ms : list ascii) : utc :=
  {| year := field_val y; month := field_val mo; day := field_val d; hour := field_val h;
     minute := field_val mi; second := field_val se; milli := field_val ms |}.

Definition in_day (y mo d h mi se : N) : bool :=
  match days_in_month (is_leap y) mo with
  | None => false
  | Some days => ((1 <=? d) && (d <=? days)) && (h <=? 23) && (mi <=? 59) && (se <=? 59)
  end.

Lemma byte_at_spec l i c : byte_at l i c = true ↔ l !! i = Some c.
Proof. unfold byte_at. by rewrite bool_decide_eq_true. Qed.

Lemma canonical_fields y mo d h mi se ms : fields_ok y mo d h mi se ms →
  canonical_timestamp (of_bytes (fields_text y mo d h mi se ms)) =
  in_day (field_val y) (field_val mo) (field_val d) (field_val h) (field_val mi) (field_val se).
Proof.
  intros (Hy & Hmo & Hd & Hh & Hmi & Hse & Hms). unfold canonical_timestamp. rewrite bytes_of_bytes.
  assert (∀ w l, digit_field w l → length l = w ∧ forallb is_ascii_digit l = true) as F by (by intros ?? []).
  pose proof (F _ _ Hy) as [Ly Fy]. pose proof (F _ _ Hmo) as [Lmo Fmo]. pose proof (F _ _ Hd) as [Ld Fd].
  pose proof (F _ _ Hh) as [Lh Fh]. pose proof (F _ _ Hmi) as [Lmi Fmi]. pose proof (F _ _ Hse) as [Lse Fse].
  pose proof (F _ _ Hms) as [Lms Fms].
  repeat match goal with
  | H : length ?l = S _ |- _ => destruct l as [|? l]; [discriminate H|injection H as H]
  | H : length ?l = O |- _ => destruct l; [clear H|discriminate H]
  end.
  unfold fields_text, byte_at, slice, DIGIT_FIELDS. cbn [app length lookup list_lookup forallb fst snd].
  change (bool_decide (Some ?a = Some ?a)) with true.
  repeat rewrite bool_decide_true by done. cbn [take drop Nat.sub Nat.eqb negb orb].
  cbn [forallb] in *. rewrite Fy, Fmo, Fd, Fh, Fmi, Fse, Fms. cbn [andb negb].
  rewrite (parse_u16_field 4 _ ltac:(lia) Hy).
  rewrite !(parse_u16_field 2) by (lia || assumption). reflexivity.
Qed.

Lemma canonical_inv s : canonical_timestamp s = true →
  ∃ y mo d h mi se ms, fields_ok y mo d h mi se ms ∧ s = of_bytes (fields_text y mo d h mi se ms).
Proof.
  unfold canonical_timestamp. intros H.
  destruct (negb (length (bytes s) =? 24)%nat || _ || _ || _ || _ || _ || _ || _) eqn:E; [done|].
  rewrite !orb_false_iff, !negb_false_iff, Nat.eqb_eq, !byte_at_spec in E.
  destruct (negb (forallb _ DIGIT_FIELDS)) eqn:F; [done|]. apply negb_false_iff in F. clear H.
  destruct E as (((((((L & B4) & B7) & B10) & B13) & B16) & B19) & B23).
  rewrite <- (of_bytes_bytes s). revert L B4 B7 B10 B13 B16 B19 B23 F. generalize (bytes s) as l. intros l L.
  repeat match goal with
  | H : length ?l = S _ |- _ => destruct l as [|? l]; [discriminate H|injection H as H]
  | H : length ?l = O |- _ => destruct l; [clear H|discriminate H]
  end.
  cbn [lookup list_lookup]. intros [= ->] [= ->] [= ->] [= ->] [= ->] [= ->] [= ->].
  unfold DIGIT_FIELDS, slice. cbn [forallb fst snd take drop Nat.sub]. rewrite !andb_true_r, !andb_true_iff.
  intros F. destruct_and! F.
  match goal with |- ∃ _ _ _ _ _ _ _, _ ∧ of_bytes
     [?a1; ?a2; ?a3; ?a4; _; ?b1; ?b2; _; ?c1; ?c2; _; ?d1; ?d2; _; ?e1; ?e2; _; ?f1; ?f2; _; ?g1; ?g2; ?g3; _] = _ =>
    exists [a1; a2; a3; a4], [b1; b2], [c1; c2], [d1; d2], [e1; e2], [f1; f2], [g1; g2; g3] end.
  split; [|done]. unfold fields_ok, digit_field. cbn [length forallb]. rewrite !andb_true_iff. tauto.
Qed.

Lemma utc_text_bytes t : bytes (utc_text t) =
  fields_text (bytes (digits_of 4 (year t))) (bytes (digits_of 2 (month t))) (bytes (digits_of 2 (day t)))
    (bytes (digits_of 2 (hour t))) (bytes (digits_of 2 (minute t))) (bytes (digits_of 2 (second t)))
    (bytes (digits_of 3 (milli t))).
Proof. unfold utc_text, fields_text. rewrite !bytes_app. reflexivity. Qed.

Lemma in_day_spec y mo d h mi se : in_day y mo d h mi se = true ↔
  1 ≤ mo ≤ 12 ∧ 1 ≤ d ∧ (Z.of_N d ≤ days_before y (mo + 1) - days_before y mo)%Z ∧ h < 24 ∧ mi < 60 ∧ se < 60.
Proof.
  unfold in_day. destruct (days_in_month (is_leap y) mo) as [days|] eqn:E.
  - apply days_in_month_spec in E as [Hm <-]. rewrite !andb_true_iff, !N.leb_le. lia.
  - split; [done|]. intros (Hm & Hd & Hl & _).
    assert (days_in_month (is_leap y) mo = Some (Z.to_N (days_before y (mo + 1) - days_before y mo))); [|congruence].
    apply days_in_month_spec. split; [done|]. lia.
Qed.

Lemma canonical_utc s : canonical_timestamp s = true ↔ ∃ t, valid_utc t ∧ s = utc_text t.
Proof.
  split.
  - intros H. destruct (canonical_inv s H) as (y & mo & d & h & mi & se & ms & Hf & ->).
    rewrite (canonical_fields _ _ _ _ _ _ _ Hf) in H. apply in_day_spec in H as (Hm & Hd & Hl & Hh & Hmi & Hse).
    destruct Hf as (Fy & Fmo & Fd & Fh & Fmi & Fse & Fms). exists (utc_of y mo d h mi se ms). split.
    + pose proof (digit_field_bound 4 y Fy). pose proof (digit_field_bound 3 ms Fms).
      unfold valid_utc. simpl. done.
    + apply bytes_inj. rewrite bytes_of_bytes, utc_text_bytes. simpl.
      by rewrite !(digits_of_val 2), (digits_of_val 4), (digits_of_val 3) by (lia || done).
  - intros (t & (Hy & Hm & Hd & Hl & Hh & Hmi & Hse & Hms) & ->).
    assert (days_before (year t) (month t + 1) - days_before (year t) (month t) ≤ 31)%Z as H31.
    { assert (is_Some (days_in_month (is_leap (year t)) (month t))) as [days E].
      { revert Hm. generalize (month t). apply month_cases. do 12 (apply Forall_cons_2; [eexists; reflexivity|]).
        apply Forall_nil_2. }
      pose proof E as [_ <-]%days_in_month_spec. unfold days_in_month in E.
      repeat case_match; simplify_eq; lia. }
    destruct (digits_of_field 4 (year t)) as [Fy Ey]; [lia|done|].
    destruct (digits_of_field 2 (month t)) as [Fm Em]; [lia|simpl; lia|].
    destruct (digits_of_field 2 (day t)) as [Fd Ed]; [lia|simpl; lia|].
    destruct (digits_of_field 2 (hour t)) as [Fh Eh]; [lia|simpl; lia|].
    destruct (digits_of_field 2 (minute t)) as [Fmi Emi]; [lia|simpl; lia|].
    destruct (digits_of_field 2 (second t)) as [Fse Ese]; [lia|simpl; lia|].
    destruct (digits_of_field 3 (milli t)) as [Fms Ems]; [lia|done|].
    rewrite <- (of_bytes_bytes (utc_text t)), utc_text_bytes, canonical_fields by done.
    rewrite Ey, Em, Ed, Eh, Emi, Ese. by apply in_day_spec.
Qed.

(** ** Lemmas: the published expressions *)

Lemma chars_ascii l : forallb (in_range 0 127) l = true → chars_of l = List.map (λ a, [a]) l.
Proof.
  induction l as [|a l IH]; [done|]. cbn [forallb List.map]. intros [Ha Hl]%andb_true_iff.
  rewrite chars_of_cons, IH by done. destruct l as [|b l]; [done|]. simpl.
  cbn [forallb] in Hl. apply andb_true_iff in Hl as [Hb _]. by rewrite (ascii_not_continuation b Hb).
Qed.

Lemma accepts_class a p r l : in_range 0 127 a && p a = true →
  matches r (List.map (λ a, [a]) l) → matches (Seq (ascii_class p) r) (List.map (λ a, [a]) (a :: l)).
Proof. intros Ha Hr. exists [[a]], (List.map (λ a, [a]) l). split; [done|]. split; [by exists [a]|done]. Qed.

Lemma accepts_last a p : in_range 0 127 a && p a = true → matches (ascii_class p) (List.map (λ a, [a]) [a]).
Proof. intros Ha. by exists [a]. Qed.

Lemma accepts_alt_l r1 r2 r l : matches (Seq r1 r) l → matches (Seq (Alt r1 r2) r) l.
Proof. intros (l1 & l2 & -> & H1 & H2). exists l1, l2. split; [done|]. split; [by left|done]. Qed.

Lemma accepts_alt_r r1 r2 r l : matches (Seq r2 r) l → matches (Seq (Alt r1 r2) r) l.
Proof. intros (l1 & l2 & -> & H1 & H2). exists l1, l2. split; [done|]. split; [by right|done]. Qed.

Lemma digit_in_ascii a : is_ascii_digit a = true → in_range 0 127 a && is_ascii_digit a = true.
Proof. unfold is_ascii_digit. rewrite andb_true_iff, !in_range_spec. lia. Qed.

Lemma accepts_digits w r l1 l2 : digit_field w l1 → matches r (List.map (λ a, [a]) l2) →
  matches (Seq (times digit w) r) (List.map (λ a, [a]) (l1 ++ l2)).
Proof.
  intros [<- Hd] Hr. induction l1 as [|a l1 IH].
  - by apply matches_times_0.
  - cbn [forallb] in Hd. apply andb_true_iff in Hd as [Ha Hd]. apply matches_times_S.
    apply (accepts_class a _ _ (l1 ++ l2)); [by apply digit_in_ascii|by apply IH].
Qed.

Lemma field_val_2 a b : field_val [a; b] = digit_val a * 10 + digit_val b.
Proof. unfold field_val, from_radix. simpl. lia. Qed.

Lemma digit_val_range a lo hi : is_ascii_digit a = true →
  lo ≤ digit_val a ≤ hi → in_range 0 127 a && in_range (48 + lo) (48 + hi) a = true.
Proof. unfold is_ascii_digit, digit_val. rewrite andb_true_iff, !in_range_spec. lia. Qed.

Lemma digit_val_eq a n : is_ascii_digit a = true → digit_val a = n → a = ascii_of_N (48 + n).
Proof.
  unfold is_ascii_digit, digit_val. rewrite in_range_spec. intros Ha Hn. apply byte_val_inj.
  rewrite byte_val_ascii; lia.
Qed.

(** Two digits by the value they write: the first is [t] and the second in a
    range, or the first is in a range and the second any digit. *)
Lemma accepts_tens t lo hi a b r l : digit_field 2 [a; b] →
  t * 10 + lo ≤ field_val [a; b] ≤ t * 10 + hi → hi < 10 → matches r (List.map (λ a, [a]) l) →
  matches (Seq (Seq (literal_char (ascii_of_N (48 + t))) (ascii_class (in_range (48 + lo) (48 + hi)))) r)
    (List.map (λ a, [a]) ([a; b] ++ l)).
Proof.
  intros [_ H] Hv Hhi Hr. cbn [forallb] in H. rewrite !andb_true_iff in H. destruct H as (Ha & Hb & _).
  rewrite field_val_2 in Hv. pose proof (digit_val_lt b Hb). apply matches_seq_assoc.
  apply (accepts_class a _ _ ([b] ++ l)).
  - rewrite (bool_decide_eq_true_2 (a = ascii_of_N (48 + t))) by (apply digit_val_eq; (done || lia)).
    by apply digit_in_ascii, andb_true_iff in Ha as [-> _].
  - apply (accepts_class b _ _ l); [|done]. apply digit_val_range; [done|lia].
Qed.

Lemma accepts_units lo hi a b r l : digit_field 2 [a; b] →
  lo * 10 ≤ field_val [a; b] < hi * 10 + 10 → matches r (List.map (λ a, [a]) l) →
  matches (Seq (Seq (ascii_class (in_range (48 + lo) (48 + hi))) digit) r) (List.map (λ a, [a]) ([a; b] ++ l)).
Proof.
  intros [_ H] Hv Hr. cbn [forallb] in H. rewrite !andb_true_iff in H. destruct H as (Ha & Hb & _).
  rewrite field_val_2 in Hv. pose proof (digit_val_lt b Hb). apply matches_seq_assoc.
  apply (accepts_class a _ _ ([b] ++ l)).
  - apply digit_val_range; [done|lia].
  - apply (accepts_class b _ _ l); [by apply digit_in_ascii|done].
Qed.

Lemma two_digits l : digit_field 2 l → ∃ a b, l = [a; b].
Proof. intros [H _]. destruct l as [|a [|b [|]]]; try discriminate H. by exists a, b. Qed.

Lemma accepts_month l1 r l : digit_field 2 l1 → 1 ≤ field_val l1 ≤ 12 → matches r (List.map (λ a, [a]) l) →
  matches (Seq month_regex r) (List.map (λ a, [a]) (l1 ++ l)).
Proof.
  intros Hf Hv Hr. destruct (two_digits _ Hf) as (a & b & ->). destruct (decide (field_val [a; b] < 10)).
  - apply accepts_alt_l, (accepts_tens 0 1 9); (done || lia).
  - apply accepts_alt_r, (accepts_tens 1 0 2); (done || lia).
Qed.

Lemma accepts_day l1 r l : digit_field 2 l1 → 1 ≤ field_val l1 ≤ 31 → matches r (List.map (λ a, [a]) l) →
  matches (Seq day_regex r) (List.map (λ a, [a]) (l1 ++ l)).
Proof.
  intros Hf Hv Hr. destruct (two_digits _ Hf) as (a & b & ->). destruct (decide (field_val [a; b] < 10)).
  { apply accepts_alt_l, (accepts_tens 0 1 9); (done || lia). }
  apply accepts_alt_r. destruct (decide (field_val [a; b] < 30)).
  - apply accepts_alt_l, (accepts_units 1 2); (done || lia).
  - apply accepts_alt_r, (accepts_tens 3 0 1); (done || lia).
Qed.

Lemma accepts_hour l1 r l : digit_field 2 l1 → field_val l1 < 24 → matches r (List.map (λ a, [a]) l) →
  matches (Seq hour_regex r) (List.map (λ a, [a]) (l1 ++ l)).
Proof.
  intros Hf Hv Hr. destruct (two_digits _ Hf) as (a & b & ->). destruct (decide (field_val [a; b] < 20)).
  - apply accepts_alt_l, (accepts_units 0 1); (done || lia).
  - apply accepts_alt_r, (accepts_tens 2 0 3); (done || lia).
Qed.

Lemma accepts_sixty l1 r l : digit_field 2 l1 → field_val l1 < 60 → matches r (List.map (λ a, [a]) l) →
  matches (Seq sixty_regex r) (List.map (λ a, [a]) (l1 ++ l)).
Proof.
  intros Hf Hv Hr. destruct (two_digits _ Hf) as (a & b & ->). apply (accepts_units 0 5); (done || lia).
Qed.

Lemma timestamp_accepted s : canonical_timestamp s = true → conforms rfc3339Utc (JString s).
Proof.
  intros H. destruct (canonical_inv s H) as (y & mo & d & h & mi & se & ms & Hf & ->).
  rewrite (canonical_fields _ _ _ _ _ _ _ Hf) in H. unfold in_day in H.
  destruct (days_in_month _ _) as [days|] eqn:E; [|done].
  rewrite !andb_true_iff, !N.leb_le in H. destruct H as ((((Hd1 & Hd2) & Hh) & Hmi) & Hse).
  assert (days ≤ 31) as Hdays by (unfold days_in_month in E; repeat case_match; simplify_eq; lia).
  apply days_in_month_spec in E as [Hmo _]. pose proof Hf as (Fy & Fmo & Fd & Fh & Fmi & Fse & Fms).
  assert (∀ w l, digit_field w l → forallb (in_range 0 127) l = true) as Ascii.
  { intros w l [_ Hl]. rewrite forallb_Forall in *. eapply Forall_impl; [exact Hl|]. intros a.
    unfold is_ascii_digit. rewrite !in_range_spec. lia. }
  assert (forallb (in_range 0 127) (fields_text y mo d h mi se ms) = true) as Hall.
  { unfold fields_text. repeat (rewrite forallb_app || cbn [forallb]).
    rewrite (Ascii _ _ Fy), (Ascii _ _ Fmo), (Ascii _ _ Fd), (Ascii _ _ Fh), (Ascii _ _ Fmi),
      (Ascii _ _ Fse), (Ascii _ _ Fms). done. }
  split; [done|]. split; [|split; [|done]].
  - simpl conforms. unfold accepts, chars. rewrite bytes_of_bytes, chars_ascii by done.
    unfold fields_text, rfc3339_regex.
    apply accepts_digits; [done|]. apply accepts_class; [done|].
    apply accepts_month; [done..|]. apply accepts_class; [done|].
    apply accepts_day; [done|lia|]. apply accepts_class; [done|].
    apply accepts_hour; [done|lia|]. apply accepts_class; [done|].
    apply accepts_sixty; [done|lia|]. apply accepts_class; [done|].
    apply accepts_sixty; [done|lia|]. apply accepts_class; [done|].
    apply accepts_digits; [done|]. by apply accepts_last.
  - simpl. unfold chars_count. rewrite bytes_of_bytes.
    assert (length (fields_text y mo d h mi se ms) = 24%nat) as L.
    { unfold fields_text. repeat (rewrite length_app || cbn [length]).
      destruct Fy as [-> _], Fmo as [-> _], Fd as [-> _], Fh as [-> _], Fmi as [-> _], Fse as [-> _], Fms as [-> _].
      done. }
    pose proof (filter_length_le (λ c, negb (is_continuation_byte c)) (fields_text y mo d h mi se ms)). lia.
Qed.

Lemma forallb_impl {A} (p q : A → bool) l : (∀ x, p x = true → q x = true) → forallb p l = true → forallb q l = true.
Proof. rewrite !forallb_Forall. intros H Hl. eapply Forall_impl; [exact Hl|exact H]. Qed.

(** A string of a class of ASCII bytes, its first byte aside. *)
Lemma accepts_repeat p least most l : (∀ a, p a = true → in_range 0 127 a = true) →
  forallb p l = true → (least ≤ length l)%nat → match most with Some m => (length l ≤ m)%nat | None => True end →
  matches (Repeat (ascii_class p) least most) (List.map (λ a, [a]) l).
Proof.
  intros Hp Hl H1 H2. unfold ascii_class. apply matches_class_repeat.
  rewrite length_map. split; [done|]. split; [done|].
  clear H1 H2. induction l as [|a l IH]; [done|]. cbn [forallb List.map] in *.
  apply andb_true_iff in Hl as [Ha Hl]. by rewrite (Hp a Ha), Ha, (IH Hl).
Qed.

Lemma accepts_ascii r s : forallb (in_range 0 127) (bytes s) = true →
  matches r (List.map (λ a, [a]) (bytes s)) → accepts r s.
Proof. intros Hs Hr. unfold accepts, chars. by rewrite chars_ascii. Qed.

Lemma upper_ascii b : is_ascii_uppercase b = true → in_range 0 127 b = true.
Proof. unfold is_ascii_uppercase. rewrite !in_range_spec. lia. Qed.
Lemma is_digit_ascii b : is_ascii_digit b = true → in_range 0 127 b = true.
Proof. unfold is_ascii_digit. rewrite !in_range_spec. lia. Qed.
Lemma one_of_ascii s b : forallb (in_range 0 127) (bytes s) = true → one_of_bytes s b = true → in_range 0 127 b = true.
Proof.
  intros Hs [d [Hd ->%bool_decide_eq_true]]%existsb_exists. rewrite forallb_forall in Hs. by apply Hs.
Qed.
Lemma alnum_ascii b : is_ascii_alphanumeric b = true → in_range 0 127 b = true.
Proof.
  unfold is_ascii_alphanumeric, is_ascii_alphabetic, is_ascii_uppercase, is_ascii_lowercase, is_ascii_digit.
  rewrite !orb_true_iff, !in_range_spec. lia.
Qed.
Lemma hex_in_ascii b : is_lower_hex b = true → in_range 0 127 b = true.
Proof. unfold is_lower_hex, is_ascii_digit. rewrite orb_true_iff, !in_range_spec. lia. Qed.

Lemma error_code_accepted s : valid_error_code s = true → conforms error_code_schema (JString s).
Proof.
  unfold valid_error_code. intros H. split; [done|]. split; [|done]. simpl conforms.
  destruct (bytes s) as [|a l] eqn:E; [done|].
  rewrite !andb_true_iff, Nat.leb_le in H. destruct H as ((Hn & Ha) & Hl).
  assert (∀ b, is_ascii_uppercase b || is_ascii_digit b || one_of_bytes "_.-" b = true → in_range 0 127 b = true) as A.
  { intros b. rewrite !orb_true_iff. intros [[Hb|Hb]|Hb]; [by apply upper_ascii|by apply is_digit_ascii|].
    by apply (one_of_ascii "_.-"). }
  apply accepts_ascii; rewrite E.
  - cbn [forallb]. rewrite (upper_ascii a Ha). by apply (forallb_impl _ _ l A).
  - apply accepts_class; [by rewrite Ha, (upper_ascii a Ha)|].
    apply accepts_repeat; [done|done|lia|simpl in Hn; lia].
Qed.

Lemma request_id_accepted s : valid_request_id s = true → conforms request_id_schema (JString s).
Proof.
  unfold valid_request_id, all_bytes, len. rewrite !andb_true_iff, !N.leb_le, <- length_bytes.
  intros ((H1 & H2) & Hl). split; [done|]. split; [|done]. simpl conforms.
  assert (∀ b, is_ascii_alphanumeric b || one_of_bytes "._:-" b = true → in_range 0 127 b = true) as A.
  { intros b. rewrite orb_true_iff. intros [Hb|Hb]; [by apply alnum_ascii|by apply (one_of_ascii "._:-")]. }
  apply accepts_ascii; [by apply (forallb_impl _ _ _ A)|]. apply accepts_repeat; [done|done|lia|lia].
Qed.

Lemma hex_accepted n s : valid_hex_id s (N.of_nat n) = true →
  conforms (Pattern (hex_regex n)) (JString s) ∧ existsb (λ b, negb (b == "0"%char)) (bytes s) = true.
Proof.
  unfold valid_hex_id, all_bytes, len. rewrite !andb_true_iff, N.eqb_eq, <- length_bytes.
  intros ((H1 & Hl) & Hz). split; [|done]. simpl conforms.
  apply accepts_ascii; [by apply (forallb_impl _ _ _ hex_in_ascii)|].
  apply accepts_repeat; [apply hex_in_ascii|done|lia|lia].
Qed.

Lemma trace_id_accepted s : valid_hex_id s 32 = true → conforms w3cTraceId (JString s).
Proof. intros [Hp Hz]%(hex_accepted 32). repeat split; [done|]. intros [= ->]. discriminate Hz. Qed.

Lemma span_id_accepted s : valid_hex_id s 16 = true → conforms w3cSpanId (JString s).
Proof. intros [Hp Hz]%(hex_accepted 16). repeat split; [done|]. intros [= ->]. discriminate Hz. Qed.

(** ** Lemmas: the record *)

(** What the guards ask of an input. *)
Definition for_some {A} (o : option A) (P : A → Prop) : Prop := match o with Some a => P a | None => True end.

Definition counts_fit (c : ProtocolSyncCycleResult) : Prop :=
  cy_pushed_mutations c ≤ MAXIMUM_SAFE_INTEGER ∧ cy_acknowledged_mutations c ≤ MAXIMUM_SAFE_INTEGER ∧
  cy_pulled_changes c ≤ MAXIMUM_SAFE_INTEGER ∧ cy_installed_snapshots c ≤ MAXIMUM_SAFE_INTEGER.

Definition checked (i : ProtocolSyncTelemetryInput) : Prop :=
  in_consecutive_failures i ≤ 2147483647 ∧
  canonical_timestamp (in_timestamp i) = true ∧
  for_some (in_next_retry_at i) (λ v, canonical_timestamp v = true) ∧
  (in_kind i = CycleCompleted → is_Some (in_cycle i)) ∧
  (in_kind i = CycleFailed → is_Some (in_error_code i)) ∧
  for_some (in_error_code i) (λ v, valid_error_code v = true) ∧
  for_some (in_request_id i) (λ v, valid_request_id v = true) ∧
  for_some (in_trace_id i) (λ v, valid_hex_id v 32 = true) ∧
  for_some (in_span_id i) (λ v, valid_hex_id v 16 = true) ∧
  for_some (in_trace_state i) (λ v, chars_count v ≤ 512).

Definition acceptable (i : ProtocolSyncTelemetryInput) : Prop :=
  checked i ∧ (in_kind i = CycleCompleted → for_some (in_cycle i) counts_fit).

Lemma is_some_and_negb {A} (o : option A) p :
  is_some_and o (λ v, negb (p v)) = false ↔ for_some o (λ v, p v = true).
Proof. destruct o; simpl; [by rewrite negb_false_iff|done]. Qed.

Lemma kind_guard (a b : ProtocolSyncTelemetryKind) {A} (o : option A) :
  (a == b) && negb (is_some o) = false ↔ (a = b → is_Some o).
Proof.
  rewrite andb_false_iff, bool_decide_eq_false, negb_false_iff. destruct o; simpl.
  - split; [by eauto|by right].
  - split; [by intros [?|[=]] ?|]. intros H. left. intros E. by apply H in E as [? ?].
Qed.

Lemma check_input_ok i : check_input i = Ok () ↔ checked i.
Proof.
  unfold check_input, checked. rewrite <- !is_some_and_negb, <- !kind_guard.
  assert (is_some_and (in_trace_state i) (λ v, 512 <? chars_count v) = false ↔
          for_some (in_trace_state i) (λ v, chars_count v ≤ 512)) as <-.
  { destruct (in_trace_state i); simpl; [by rewrite N.ltb_ge|done]. }
  rewrite <- N.ltb_ge, <- negb_false_iff.
  assert (∀ (b : bool) (e : ProtocolSyncTelemetryError) r P, (r = Ok () ↔ P) →
    (if b then Err e else r) = Ok () ↔ b = false ∧ P) as step by (intros [] ? ? ?; naive_solver).
  rewrite (step _ _ _ _ (step _ _ _ _ (step _ _ _ _ (step _ _ _ _ (step _ _ _ _ (step _ _ _ _
    (step _ _ _ _ (step _ _ _ _ (step _ _ _ _ (iff_refl _)))))))))).
  rewrite orb_false_iff. tauto.
Qed.

Lemma bt_get_insert_str k k' o m :
  bt_get k' (insert_str k o m) =
  if k == k' then match o with Some v => Some (JString v) | None => bt_get k' m end else bt_get k' m.
Proof. destruct o; simpl; [apply bt_get_insert|by destruct (k == k')]. Qed.

Lemma Forall_insert_str (P : string * json → Prop) k o m :
  (∀ v, P (k, JString v)) → Forall P m → Forall P (insert_str k o m).
Proof. intros Hk Hm. destruct o; simpl; [by apply Forall_bt_insert|done]. Qed.

(** The attributes of a record, by key. *)
Definition cycle_value (i : ProtocolSyncTelemetryInput) (f : ProtocolSyncCycleResult → json) : option json :=
  match in_cycle i with
  | Some c => if in_kind i == CycleCompleted then Some (f c) else None
  | None => None
  end.
Definition attribute_table (i : ProtocolSyncTelemetryInput) : list (string * option json) :=
  let count f := cycle_value i (λ c, JNumber (NPosInt (f c))) in
  [("service.name", Some (JString "opto-sync"));
   ("event.name", Some (JString (event_name (in_kind i))));
   ("opto.sync.schema", Some (JString OPTO_SYNC_TELEMETRY_SCHEMA));
   ("opto.sync.runtime", Some (JString (runtime_as_str (in_runtime i))));
   ("opto.sync.status", Some (JString (status_as_str (in_status i))));
   ("opto.sync.consecutive_failures", Some (JNumber (NPosInt (in_consecutive_failures i))));
   ("opto.sync.next_retry_at", JString <$> in_next_retry_at i);
   ("opto.sync.pushed_mutations", count cy_pushed_mutations);
   ("opto.sync.acknowledged_mutations", count cy_acknowledged_mutations);
   ("opto.sync.pulled_changes", count cy_pulled_changes);
   ("opto.sync.installed_snapshots", count cy_installed_snapshots);
   ("opto.sync.has_more_pending", cycle_value i (λ c, JBool (cy_has_more_pending c)));
   ("error.code", JString <$> in_error_code i);
   ("request.id", JString <$> in_request_id i)].
Definition attribute_keys : list string :=
  ["service.name"; "event.name"; "opto.sync.schema"; "opto.sync.runtime"; "opto.sync.status";
   "opto.sync.consecutive_failures"; "opto.sync.next_retry_at"; "opto.sync.pushed_mutations";
   "opto.sync.acknowledged_mutations"; "opto.sync.pulled_changes"; "opto.sync.installed_snapshots";
   "opto.sync.has_more_pending"; "error.code"; "request.id"].

Definition optional_attributes (i : ProtocolSyncTelemetryInput) : bmap json :=
  insert_str "request.id" (in_request_id i)
    (insert_str "error.code" (in_error_code i)
      (insert_str "opto.sync.next_retry_at" (in_next_retry_at i) (base_attributes i))).

Ltac lookups := repeat first
  [rewrite bt_get_insert_eq | rewrite bt_get_insert_ne by done
  |rewrite bt_get_insert_str; lazymatch goal with |- context [bool_decide (?a = ?b)] =>
     first [rewrite (bool_decide_eq_false_2 (a = b)) by done | rewrite (bool_decide_eq_true_2 (a = b)) by done] end].

Lemma cycle_attributes_ok c m m' : cycle_attributes c m = Ok m' ↔ counts_fit c ∧
  m' = bt_insert "opto.sync.has_more_pending" (JBool (cy_has_more_pending c))
         (bt_insert "opto.sync.installed_snapshots" (JNumber (NPosInt (cy_installed_snapshots c)))
         (bt_insert "opto.sync.pulled_changes" (JNumber (NPosInt (cy_pulled_changes c)))
         (bt_insert "opto.sync.acknowledged_mutations" (JNumber (NPosInt (cy_acknowledged_mutations c)))
         (bt_insert "opto.sync.pushed_mutations" (JNumber (NPosInt (cy_pushed_mutations c))) m)))).
Proof.
  unfold cycle_attributes, insert_count, counts_fit.
  destruct (N.ltb_spec MAXIMUM_SAFE_INTEGER (cy_pushed_mutations c)); [naive_solver lia|].
  destruct (N.ltb_spec MAXIMUM_SAFE_INTEGER (cy_acknowledged_mutations c)); [naive_solver lia|].
  destruct (N.ltb_spec MAXIMUM_SAFE_INTEGER (cy_pulled_changes c)); [naive_solver lia|].
  destruct (N.ltb_spec MAXIMUM_SAFE_INTEGER (cy_installed_snapshots c)); [naive_solver lia|].
  naive_solver.
Qed.

Definition with_cycle (c : ProtocolSyncCycleResult) (m : bmap json) : bmap json :=
  bt_insert "opto.sync.has_more_pending" (JBool (cy_has_more_pending c))
    (bt_insert "opto.sync.installed_snapshots" (JNumber (NPosInt (cy_installed_snapshots c)))
    (bt_insert "opto.sync.pulled_changes" (JNumber (NPosInt (cy_pulled_changes c)))
    (bt_insert "opto.sync.acknowledged_mutations" (JNumber (NPosInt (cy_acknowledged_mutations c)))
    (bt_insert "opto.sync.pushed_mutations" (JNumber (NPosInt (cy_pushed_mutations c))) m)))).

Definition record_attributes (i : ProtocolSyncTelemetryInput) : bmap json :=
  match in_cycle i with
  | Some c => if in_kind i == CycleCompleted then with_cycle c (optional_attributes i) else optional_attributes i
  | None => optional_attributes i
  end.

Definition record_of (i : ProtocolSyncTelemetryInput) : OresOpenTelemetryLogRecord :=
  {| body := kind_body (in_kind i); severity_text := (severity i).1; severity_number := (severity i).2;
     timestamp := in_timestamp i; attributes := record_attributes i; trace_id := in_trace_id i;
     span_id := in_span_id i; trace_flags := in_trace_flags i; trace_state := in_trace_state i |}.

Lemma create_ok i r :
  create_protocol_sync_telemetry_record i = Ok r ↔ acceptable i ∧ r = record_of i.
Proof.
  unfold create_protocol_sync_telemetry_record, acceptable, record_of, record_attributes.
  rewrite <- check_input_ok. destruct (check_input i) as [[]|e]; [|naive_solver].
  fold (optional_attributes i). destruct (in_cycle i) as [c|].
  - case_bool_decide as Ek.
    + destruct (cycle_attributes c (optional_attributes i)) as [m|e] eqn:E.
      * apply cycle_attributes_ok in E as [Hc ->]. destruct (severity i). naive_solver.
      * split; [done|]. intros [[_ Hc] _]. assert (cycle_attributes c (optional_attributes i) = Ok (with_cycle c (optional_attributes i))); [|congruence].
        apply cycle_attributes_ok. by split; [apply Hc|].
    + destruct (severity i). naive_solver.
  - destruct (severity i). naive_solver.
Qed.

Lemma base_attributes_keys i : Forall (λ kv, kv.1 ∈ take 6 attribute_keys) (base_attributes i).
Proof. repeat (apply Forall_cons_2; [by apply (bool_decide_unpack _); vm_compute|]). apply Forall_nil_2. Qed.

Lemma record_attributes_table i : Forall (λ ko, bt_get ko.1 (record_attributes i) = ko.2) (attribute_table i).
Proof.
  unfold attribute_table, record_attributes, cycle_value, with_cycle, optional_attributes.
  repeat (apply Forall_cons_2; [cbn [fst snd]|]); [..|apply Forall_nil_2];
    (destruct (in_cycle i) as [c|]; [case_bool_decide|]); lookups;
    destruct (in_next_retry_at i), (in_error_code i), (in_request_id i); reflexivity.
Qed.

Lemma record_attributes_keys i : Forall (λ k, k ∈ attribute_keys) (bt_keys (record_attributes i)).
Proof.
  assert (Forall (λ kv, kv.1 ∈ attribute_keys) (record_attributes i)) as H.
  2: { unfold bt_keys. by apply Forall_map. }
  assert (Forall (λ kv, kv.1 ∈ attribute_keys) (optional_attributes i)) as Ho.
  { unfold optional_attributes. repeat (apply Forall_insert_str; [intros v; by apply (bool_decide_unpack _); vm_compute|]).
    eapply Forall_impl; [apply base_attributes_keys|]. intros kv [n Hn]%list_elem_of_lookup.
    apply lookup_take_Some in Hn as [Hn _]. by eapply list_elem_of_lookup_2. }
  unfold record_attributes, with_cycle. destruct (in_cycle i); [case_bool_decide|]; [|done|done].
  repeat (apply Forall_bt_insert; [by apply (bool_decide_unpack _); vm_compute|]). done.
Qed.

(** ** Lemmas: conformance *)

Lemma table_get i k o : (k, o) ∈ attribute_table i → bt_get k (record_attributes i) = o.
Proof. intros H. pose proof (record_attributes_table i) as T. rewrite Forall_forall in T. by apply T in H. Qed.

Ltac in_table := unfold attribute_table; repeat (apply list_elem_of_here || apply list_elem_of_further).

Lemma count_accepted n : n ≤ MAXIMUM_SAFE_INTEGER → conforms count_schema (JNumber (NPosInt n)).
Proof. unfold MAXIMUM_SAFE_INTEGER. intros H. repeat split; simpl; lia. Qed.

Lemma conforms_optional_str s o : for_some o (λ v, conforms s (JString v)) →
  match JString <$> o with Some x => conforms s x | None => True end.
Proof. by destruct o. Qed.

Lemma for_some_impl {A} (o : option A) (P Q : A → Prop) : (∀ a, P a → Q a) → for_some o P → for_some o Q.
Proof. destruct o; simpl; auto. Qed.

Lemma conforms_cycle_value i s f : (∀ c, counts_fit c → conforms s (f c)) → acceptable i →
  match cycle_value i f with Some x => conforms s x | None => True end.
Proof.
  intros Hs [_ Hc]. unfold cycle_value. destruct (in_cycle i) as [c|]; [|done]. case_bool_decide; [|done].
  by apply Hs, Hc.
Qed.

Lemma attributes_conform i : acceptable i → conforms attributes_schema (JObject (record_attributes i)).
Proof.
  intros H. pose proof H as [(Hf & Ht & Hr & Hc1 & Hc2 & He & Hq & _) _].
  split; [done|]. split; [apply record_attributes_keys|]. split; [|split; [|done]].
  - simpl. repeat (apply Forall_cons_2; [eexists; apply table_get; in_table|]). apply Forall_nil_2.
  - cbn [conforms].
    repeat match goal with |- match bt_get ?k _ with _ => _ end ∧ _ =>
      split; [erewrite (table_get i k) by in_table|] end; try done;
    repeat match goal with
    | |- match JString <$> _ with _ => _ end => apply (conforms_optional_str (AllOf _))
    end.
    all: try (apply (conforms_cycle_value i count_schema);
              [intros c (? & ? & ? & ?); by apply count_accepted|done]).
    + split; [done|]. split; [|done]. unfold strings. destruct (in_kind i); simpl; set_solver.
    + split; [done|]. split; [|done]. unfold strings. destruct (in_runtime i); simpl; set_solver.
    + split; [done|]. split; [|done]. unfold strings. destruct (in_status i); simpl; set_solver.
    + repeat split; simpl; lia.
    + eapply for_some_impl; [|exact Hr]. apply timestamp_accepted.
    + by apply (conforms_cycle_value i (OfType TBoolean)).
    + eapply for_some_impl; [|exact He]. apply error_code_accepted.
    + eapply for_some_impl; [|exact Hq]. apply request_id_accepted.
Qed.

Definition u8_max : N := 255.

(** The object of a record, by key. *)
Lemma record_json_get r : ∃ m, record_json r = JObject m ∧
  Forall (λ k, k ∈ ["body"; "severityText"; "severityNumber"; "timestamp"; "attributes";
                    "traceId"; "spanId"; "traceFlags"; "traceState"]) (bt_keys m) ∧
  bt_get "body" m = Some (JString (body r)) ∧ bt_get "severityText" m = Some (JString (severity_text r)) ∧
  bt_get "severityNumber" m = Some (JNumber (NPosInt (severity_number r))) ∧
  bt_get "timestamp" m = Some (JString (timestamp r)) ∧
  bt_get "attributes" m = Some (JObject (attributes r)) ∧
  bt_get "traceId" m = JString <$> trace_id r ∧ bt_get "spanId" m = JString <$> span_id r ∧
  bt_get "traceFlags" m = (λ n, JNumber (NPosInt n)) <$> trace_flags r ∧
  bt_get "traceState" m = JString <$> trace_state r.
Proof.
  unfold record_json. eexists. split; [reflexivity|]. split.
  - unfold bt_keys. apply Forall_map.
    assert (∀ k, k ∈ ["body"; "severityText"; "severityNumber"; "timestamp"; "attributes";
                      "traceId"; "spanId"; "traceFlags"; "traceState"] ↔ bool_decide (k ∈
              ["body"; "severityText"; "severityNumber"; "timestamp"; "attributes";
                      "traceId"; "spanId"; "traceFlags"; "traceState"]) = true) as E
      by (intros k; by rewrite bool_decide_eq_true).
    eapply Forall_impl; [|intros kv; apply (E kv.1)].
    apply Forall_insert_str; [done|]. destruct (trace_flags r); [apply Forall_bt_insert; [done|]|];
      (apply Forall_insert_str; [done|]); (apply Forall_insert_str; [done|]); repeat constructor.
  - destruct (trace_flags r); repeat split; lookups; destruct (trace_id r), (span_id r), (trace_state r); reflexivity.
Qed.

Lemma fields_conform i : acceptable i → for_some (in_trace_flags i) (λ n, n ≤ u8_max) →
  match telemetry_schema with AllOf (s :: _) => conforms s (record_json (record_of i)) | _ => False end.
Proof.
  intros H Hflags. pose proof H as [(_ & Ht & _ & _ & _ & _ & _ & Hti & Hsi & Hts) _].
  destruct (record_json_get (record_of i)) as (m & -> & Hk & Hb & Hst & Hsn & Htm & Ha & Hid & Hsp & Hfl & Hs).
  split; [done|]. split; [exact Hk|]. split; [|split; [|done]].
  - simpl. repeat (apply Forall_cons_2; [eexists; eassumption|]). apply Forall_nil_2.
  - cbn [conforms]. rewrite Hb, Hst, Hsn, Htm, Ha, Hid, Hsp, Hfl, Hs. cbn [record_of body severity_text
      severity_number timestamp attributes trace_id span_id trace_flags trace_state].
    assert (severity i ∈ [("INFO", 9); ("WARN", 13); ("ERROR", 17)]) as Hsev.
    { unfold severity. repeat case_match; set_solver. }
    split; [|split; [|split; [|split; [|split; [|split; [|split; [|split; [|split; [|done]]]]]]]]].
    + split; [done|]. split; [|done]. unfold strings. destruct (in_kind i); simpl; set_solver.
    + split; [done|]. split; [|done]. unfold strings.
      apply In_elem in Hsev as [<-|[<-|[<-|[]]]]; simpl; set_solver.
    + split; [done|]. split; [|done]. apply In_elem in Hsev as [<-|[<-|[<-|[]]]]; simpl; set_solver.
    + by apply timestamp_accepted.
    + apply (attributes_conform i H).
    + apply (conforms_optional_str w3cTraceId). eapply for_some_impl; [|exact Hti]. apply trace_id_accepted.
    + apply (conforms_optional_str w3cSpanId). eapply for_some_impl; [|exact Hsi]. apply span_id_accepted.
    + destruct (in_trace_flags i); [|done]. unfold u8_max in Hflags. repeat split; simpl in *; lia.
    + apply (conforms_optional_str (AllOf [OfType TString; MaxLength 512])).
      eapply for_some_impl; [|exact Hts]. intros v Hv. by split; [|split].
Qed.

(** An attribute of a record conforms exactly when its value in the table does. *)
Lemma attribute_is_iff i k o s : (k, o) ∈ attribute_table i →
  conforms (attribute_is k s) (record_json (record_of i)) ↔ match o with Some x => conforms s x | None => False end.
Proof.
  intros Hk. apply table_get in Hk. destruct (record_json_get (record_of i)) as (m & -> & _ & _ & _ & _ & _ & Ha & _).
  unfold attribute_is. cbn [conforms]. rewrite Ha. cbn [record_of attributes]. rewrite Hk.
  destruct o as [x|]; split.
  - tauto.
  - intros Hs. split; [|done]. split; [done|]. split; [by split|]. split; [|done]. simpl.
    apply Forall_cons_2; [by eexists|apply Forall_nil_2].
  - intros [(_ & _ & Hr & _) _]. simpl in Hr. apply Forall_cons in Hr as [[y Hy] _]. congruence.
  - done.
Qed.

Lemma body_is_iff i text : conforms (body_is text) (record_json (record_of i)) ↔ kind_body (in_kind i) = text.
Proof.
  destruct (record_json_get (record_of i)) as (m & -> & _ & Hb & _). unfold body_is. cbn [conforms]. rewrite Hb.
  cbn [record_of body]. naive_solver.
Qed.

Lemma severity_is_iff i text n : conforms (severity_is text n) (record_json (record_of i)) ↔ severity i = (text, n).
Proof.
  destruct (record_json_get (record_of i)) as (m & -> & _ & _ & Hst & Hsn & _). unfold severity_is. cbn [conforms].
  rewrite Hst, Hsn. cbn [record_of severity_text severity_number]. destruct (severity i). naive_solver.
Qed.

Ltac attribute k := rewrite (attribute_is_iff _ k) by in_table.

Lemma completed_conform i : acceptable i → in_kind i = CycleCompleted →
  conforms (AllOf [body_is "opto-sync sync cycle completed"; severity_is "INFO" 9;
               attribute_is "opto.sync.pushed_mutations" count_schema;
               attribute_is "opto.sync.acknowledged_mutations" count_schema;
               attribute_is "opto.sync.pulled_changes" count_schema;
               attribute_is "opto.sync.installed_snapshots" count_schema;
               attribute_is "opto.sync.has_more_pending" (OfType TBoolean)]) (record_json (record_of i)).
Proof.
  intros [(_ & _ & _ & Hc & _) Hcounts] E. destruct (Hc E) as [c Ec]. specialize (Hcounts E).
  rewrite Ec in Hcounts. destruct Hcounts as (H1 & H2 & H3 & H4).
  assert (∀ f, cycle_value i f = Some (f c)) as Hv by (intros f; unfold cycle_value; by rewrite Ec, E).
  apply conforms_all. repeat apply Forall_cons_2; [..|apply Forall_nil_2].
  - by rewrite body_is_iff, E.
  - rewrite severity_is_iff. unfold severity. by rewrite E.
  - attribute "opto.sync.pushed_mutations". rewrite Hv. by apply count_accepted.
  - attribute "opto.sync.acknowledged_mutations". rewrite Hv. by apply count_accepted.
  - attribute "opto.sync.pulled_changes". rewrite Hv. by apply count_accepted.
  - attribute "opto.sync.installed_snapshots". rewrite Hv. by apply count_accepted.
  - attribute "opto.sync.has_more_pending". by rewrite Hv.
Qed.

Lemma failed_conform i : acceptable i → in_kind i = CycleFailed →
  conforms (AllOf [body_is "opto-sync sync cycle failed"; severity_is "ERROR" 17;
               attribute_is "error.code" error_code_schema]) (record_json (record_of i)).
Proof.
  intros [(_ & _ & _ & _ & Hc & He & _) _] E. destruct (Hc E) as [code Ec]. rewrite Ec in He.
  apply conforms_all. repeat apply Forall_cons_2; [..|apply Forall_nil_2].
  - by rewrite body_is_iff, E.
  - rewrite severity_is_iff. unfold severity. by rewrite E.
  - attribute "error.code". rewrite Ec. by apply error_code_accepted.
Qed.

Lemma changed_conform i : acceptable i → in_kind i = StateChanged →
  conforms (AllOf [body_is "opto-sync state changed";
      IfThen (attribute_is "opto.sync.status" (Const (JString "error"))) (severity_is "ERROR" 17);
      IfThen (attribute_is "opto.sync.status" (Enum (strings ["offline"; "backoff"]))) (severity_is "WARN" 13);
      IfThen (attribute_is "opto.sync.status" (Enum (strings ["stopped"; "idle"; "syncing"])))
        (severity_is "INFO" 9)]) (record_json (record_of i)).
Proof.
  intros _ E. apply conforms_all. repeat apply Forall_cons_2; [..|apply Forall_nil_2].
  - by rewrite body_is_iff, E.
  - change (conforms (attribute_is "opto.sync.status" (Const (JString "error"))) (record_json (record_of i)) →
            conforms (severity_is "ERROR" 17) (record_json (record_of i))).
    attribute "opto.sync.status". rewrite severity_is_iff. unfold severity. rewrite E.
    destruct (in_status i); simpl; (done || discriminate).
  - change (conforms (attribute_is "opto.sync.status" (Enum (strings ["offline"; "backoff"]))) (record_json (record_of i)) →
            conforms (severity_is "WARN" 13) (record_json (record_of i))).
    attribute "opto.sync.status". rewrite severity_is_iff. unfold severity, strings. rewrite E.
    destruct (in_status i); simpl; (done || set_solver).
  - change (conforms (attribute_is "opto.sync.status" (Enum (strings ["stopped"; "idle"; "syncing"]))) (record_json (record_of i)) →
            conforms (severity_is "INFO" 9) (record_json (record_of i))).
    attribute "opto.sync.status". rewrite severity_is_iff. unfold severity, strings. rewrite E.
    destruct (in_status i); simpl; (done || set_solver).
Qed.

Lemma record_conforms i : acceptable i → for_some (in_trace_flags i) (λ n, n ≤ u8_max) →
  conforms telemetry_schema (record_json (record_of i)).
Proof.
  intros H Hflags. apply conforms_all. repeat apply Forall_cons_2; [..|apply Forall_nil_2].
  - by apply fields_conform.
  - intros Hk. apply completed_conform; [done|]. revert Hk. attribute "event.name". by destruct (in_kind i).
  - intros Hk. apply failed_conform; [done|]. revert Hk. attribute "event.name". by destruct (in_kind i).
  - intros Hk. apply changed_conform; [done|]. revert Hk. attribute "event.name". by destruct (in_kind i).
Qed.

(** An input without what no record may show: the checkpoint, and the result of
    a cycle that did not complete. *)
Definition redact (i : ProtocolSyncTelemetryInput) : ProtocolSyncTelemetryInput :=
  {| in_runtime := in_runtime i; in_kind := in_kind i; in_status := in_status i;
     in_consecutive_failures := in_consecutive_failures i; in_timestamp := in_timestamp i;
     in_next_retry_at := in_next_retry_at i;
     in_cycle :=
       if in_kind i == CycleCompleted
       then (λ c, {| cy_pushed_mutations := cy_pushed_mutations c;
                     cy_acknowledged_mutations := cy_acknowledged_mutations c;
                     cy_pulled_changes := cy_pulled_changes c;
                     cy_installed_snapshots := cy_installed_snapshots c;
                     cy_checkpoint := EmptyString;
                     cy_has_more_pending := cy_has_more_pending c |}) <$> in_cycle i
       else None;
     in_error_code := in_error_code i; in_request_id := in_request_id i; in_trace_id := in_trace_id i;
     in_span_id := in_span_id i; in_trace_flags := in_trace_flags i; in_trace_state := in_trace_state i |}.

Lemma record_of_redact i : record_of (redact i) = record_of i.
Proof.
  unfold record_of, record_attributes, severity, redact. cbn [in_kind in_status in_cycle in_timestamp in_trace_id
    in_span_id in_trace_flags in_trace_state].
  destruct (bool_decide (in_kind i = CycleCompleted)); by destruct (in_cycle i).
Qed.

Lemma acceptable_redact i : acceptable (redact i) ↔ acceptable i.
Proof.
  unfold acceptable, checked, redact. cbn [in_kind in_status in_cycle in_timestamp in_trace_id in_error_code
    in_request_id in_next_retry_at in_consecutive_failures in_span_id in_trace_flags in_trace_state].
  case_bool_decide as E; [|naive_solver].
  destruct (in_cycle i) as [c|]; simpl; [|done].
  assert (∀ A (a b : A), is_Some (Some a) ↔ is_Some (Some b)) as S by (intros; split; intros _; by eexists).
  by rewrite (S _ _ c).
Qed.

(** ** Theorems *)

(** C34: a telemetry record is well typed: every record the builder makes
    conforms to the JSON Schema the repository publishes for telemetry, and the
    builder refuses an input exactly when one of its fields is not acceptable. *)
Theorem telemetry_record_conforms (i : ProtocolSyncTelemetryInput)
    (Hflags : for_some (in_trace_flags i) (λ n, n ≤ u8_max)) :
  match create_protocol_sync_telemetry_record i with
  | Ok record => acceptable i ∧ conforms telemetry_schema (record_json record)
  | Err _ => ¬ acceptable i
  end.
Proof.
  destruct (create_protocol_sync_telemetry_record i) as [r|e] eqn:E.
  - apply create_ok in E as [Hi ->]. split; [done|by apply record_conforms].
  - intros Hi. assert (create_protocol_sync_telemetry_record i = Ok (record_of i)) by (by apply create_ok).
    congruence.
Qed.

Definition example_input : ProtocolSyncTelemetryInput :=
  {| in_runtime := TypeScript; in_kind := CycleCompleted; in_status := Idle; in_consecutive_failures := 0;
     in_timestamp := "2026-08-11T17:53:28.151Z"; in_next_retry_at := None;
     in_cycle := Some (add_pulled 2 (add_pushed 3 3 (empty_result "private-high-cardinality-value")));
     in_error_code := None; in_request_id := Some "sync-cycle-42"; in_trace_id := None; in_span_id := None;
     in_trace_flags := Some 1; in_trace_state := None |}.

Lemma telemetry_record_conforms_witness :
  is_ok (create_protocol_sync_telemetry_record example_input) = true ∧
  match create_protocol_sync_telemetry_record example_input with
  | Ok record => acceptable example_input ∧ conforms telemetry_schema (record_json record)
  | Err _ => ¬ acceptable example_input
  end.
Proof.
  split; [vm_compute; reflexivity|]. apply (telemetry_record_conforms example_input).
  vm_compute. discriminate.
Defined.

(** What a sink sees, and that delivery is fail-open: the sink runs at most
    once, exactly on acceptable inputs, on a record whose attributes are among
    the published names; what it does beyond its own world (an error or a panic)
    changes nothing; and its effect does not depend on the checkpoint, nor on
    the result of a cycle that did not complete. *)
Theorem telemetry_delivery {W} (sink : option (TelemetrySink W)) (i : ProtocolSyncTelemetryInput) (w : W) :
  emit_protocol_sync_telemetry sink (redact i) w = emit_protocol_sync_telemetry sink i w ∧
  Forall (λ k, k ∈ attribute_keys) (bt_keys (attributes (record_of i))) ∧
  (acceptable i → emit_protocol_sync_telemetry sink i w =
     match sink with Some s => (sink_emit (TelemetrySink := s) (record_of i) w).1 | None => w end) ∧
  (¬ acceptable i → emit_protocol_sync_telemetry sink i w = w).
Proof.
  assert (∀ i, (acceptable i → emit_protocol_sync_telemetry sink i w =
     match sink with Some s => (sink_emit (TelemetrySink := s) (record_of i) w).1 | None => w end) ∧
     (¬ acceptable i → emit_protocol_sync_telemetry sink i w = w)) as H.
  { clear i. intros i. unfold emit_protocol_sync_telemetry. destruct sink as [s|]; [|done].
    destruct (create_protocol_sync_telemetry_record i) as [r|e] eqn:E.
    - apply create_ok in E as [Hi ->]. done.
    - split; [|done]. intros Hi.
      assert (create_protocol_sync_telemetry_record i = Ok (record_of i)) by (by apply create_ok). congruence. }
  split; [|split; [apply record_attributes_keys|apply H]].
  destruct (create_protocol_sync_telemetry_record i) as [r|e] eqn:E.
  - apply create_ok in E as [Hi _]. rewrite (proj1 (H i) Hi).
    rewrite <- (record_of_redact i). apply H. by apply acceptable_redact.
  - assert (¬ acceptable i) as Hi.
    { intros Hi. assert (create_protocol_sync_telemetry_record i = Ok (record_of i)) by (by apply create_ok). congruence. }
    rewrite (proj2 (H i) Hi). apply H. by rewrite acceptable_redact.
Qed.

(** The timestamp guard accepts exactly the texts of the instants of the
    Gregorian calendar, years 0000 to 9999, to the millisecond. *)
Theorem canonical_timestamp_correct (s : string) :
  canonical_timestamp s = true ↔ ∃ t, valid_utc t ∧ s = utc_text t.
Proof. apply canonical_utc. Qed.
