(* ===== verification/Dial.v ===== *)
(** * Dial: where the WebSocket transport sends its bearer token

    The dialing half of [clients/rust/src/transport/ws.rs]: the host of a
    cleartext URL, the hosts a token may reach in cleartext, and the target URL
    with the token as a percent-encoded query parameter.  Opening the socket is
    tungstenite's and not modelled here.

    A string is its UTF-8 bytes.  The delimiters are ASCII, so cutting at them
    is the same on bytes and on characters. *)

From S2P Require Import Prelude Text Decimal.

(** ** Hosts *)

Definition u8_max : N := 255.
(** [str::parse::<u8>] *)
Definition parse_u8 (l : list ascii) : option N :=
  match parse_u64 (of_bytes l) with Some n => if n <=? u8_max then Some n else None | None => None end.

Definition private_octets (a b : N) : bool :=
  (a =? 127) || (a =? 10) || ((a =? 172) && ((16 <=? b) && (b <=? 31)))
  || ((a =? 192) && (b =? 168)) || ((a =? 169) && (b =? 254)).

(** The four octets, when every dot-separated part is one and they are four. *)
Definition ipv4_octets (host : list ascii) : option (N * N * N * N) :=
  match List.map parse_u8 (split_list "." host) with
  | [Some a; Some b; Some c; Some d] => Some (a, b, c, d)
  | _ => None
  end.

Definition internal_host_allowed (host : list ascii) : bool :=
  let host := to_ascii_lowercase host in
  let host := trim_matches (λ c, (c == "["%char) || (c == "]"%char)) host in
  if (match host with [] => true | _ => false end) || (host == bytes "localhost") || has_suffix ".localhost" host
  then true
  else if (host == bytes "::1") || has_prefix "fc" host || has_prefix "fd" host || has_prefix "fe8" host
  then true
  else
    match ipv4_octets host with
    | Some (a, b, _, _) => private_octets a b
    | None =>
        negb (existsb (is_byte ".") host) || has_suffix ".svc.cluster.local" host || has_suffix ".internal" host
    end.

(** [url.get(..n)] with [eq_ignore_ascii_case]; the scheme is ASCII, so a prefix
    that equals it ends at a character. *)
Definition strip_scheme (scheme : string) (url : list ascii) : option (list ascii) :=
  let n := length (bytes scheme) in
  if (n <=? length url)%nat && (to_ascii_lowercase (take n url) == to_ascii_lowercase (bytes scheme))
  then Some (drop n url) else None.

Definition cleartext_host (url : list ascii) : option (list ascii) :=
  let rest :=
    match strip_scheme "ws://" url with Some r => Some r | None => strip_scheme "http://" url end in
  match rest with
  | None => None
  | Some rest =>
      let authority := before (λ c, is_byte "/" c || is_byte "?" c || is_byte "#" c) rest in
      let host_port := after_last (is_byte "@") authority in
      match strip_prefix ["["%char] host_port with
      | Some v6 => Some (before (is_byte "]") v6)
      | None => Some (before (is_byte ":") host_port)
      end
  end.

(** ** The target *)

Definition unreserved (a : ascii) : bool :=
  is_ascii_alphanumeric a || (a == "-"%char) || (a == "."%char) || (a == "_"%char) || (a == "~"%char).

(** [{:02X}] *)
Definition hex_upper (d : N) : ascii := if d <? 10 then digit_char d else ascii_of_N (55 + d).
Definition encode_byte (a : ascii) : list ascii :=
  if unreserved a then [a] else ["%"%char; hex_upper (byte_val a / 16); hex_upper (byte_val a mod 16)].
Definition encode_query_component (value : list ascii) : list ascii := flat_map encode_byte value.

Record WsConfig := { url : list ascii; auth : option (option (list ascii)) }.

(** The refusal's text names the host. *)
Inductive DialRefusal := CleartextToPublicHost (host : list ascii).

(** [dial] up to connecting; [auth] is the configured provider's answer. *)
Definition dial_target (config : WsConfig) : result (list ascii) DialRefusal :=
  match auth config with
  | Some (Some (a :: token)) =>
      let? _ :=
        match cleartext_host (url config) with
        | Some host => if negb (internal_host_allowed host) then Err (CleartextToPublicHost host) else Ok ()
        | None => Ok ()
        end in
      Ok (url config ++ (if existsb (is_byte "?") (url config) then ["&"%char] else ["?"%char])
          ++ bytes "token=" ++ encode_query_component (a :: token))
  | _ => Ok (url config)
  end.

(** ** Specification *)

(** A percent-decoder; form decoders also read [+] as a space. *)
Definition hex_digit (a : ascii) : option N :=
  if is_ascii_digit a then Some (byte_val a - 48)
  else if in_range 65 70 a then Some (byte_val a - 55)
  else if in_range 97 102 a then Some (byte_val a - 87)
  else None.

Fixpoint decode (plus_as_space : bool) (l : list ascii) : list ascii :=
  match l with
  | [] => []
  | a :: l1 =>
      if a == "%"%char then
        match l1 with
        | h :: k :: l2 =>
            match hex_digit h, hex_digit k with
            | Some h, Some k => ascii_of_N (h * 16 + k) :: decode plus_as_space l2
            | _, _ => a :: decode plus_as_space l1
            end
        | _ => a :: decode plus_as_space l1
        end
      else if plus_as_space && (a == "+"%char) then " "%char :: decode plus_as_space l1
      else a :: decode plus_as_space l1
  end.

(** The query of a URL: after the first [?], before the fragment; its
    parameters, decoded. *)
Definition query (l : list ascii) : option (list ascii) :=
  match split_bytes "?" (before (is_byte "#") l) with Some (_, q) => Some q | None => None end.

Definition parameter (plus : bool) (l : list ascii) : list ascii * list ascii :=
  match split_bytes "=" l with
  | Some (k, v) => (decode plus k, decode plus v)
  | None => (decode plus l, [])
  end.

Definition query_params (plus : bool) (l : list ascii) : list (list ascii * list ascii) :=
  match query l with Some q => List.map (parameter plus) (split_list "&" q) | None => [] end.

(** IPv4 addresses as 32-bit numbers, and the blocks the policy is about. *)
Definition ipv4 (a b c d : N) : N := ((a * 256 + b) * 256 + c) * 256 + d.
Definition in_block (base bits addr : N) : bool := N.shiftr addr (32 - bits) =? N.shiftr base (32 - bits).
Definition internal_ipv4 (addr : N) : bool :=
  in_block (ipv4 127 0 0 0) 8 addr || in_block (ipv4 10 0 0 0) 8 addr || in_block (ipv4 172 16 0 0) 12 addr
  || in_block (ipv4 192 168 0 0) 16 addr || in_block (ipv4 169 254 0 0) 16 addr.

Definition dotted (a b c d : N) : list ascii :=
  bytes (to_dec a) ++ "."%char :: bytes (to_dec b) ++ "."%char :: bytes (to_dec c) ++ "."%char :: bytes (to_dec d).

(** ** Lemmas: encoding *)

Lemma byte_val_hex_upper d : d < 16 → byte_val (hex_upper d) = if d <? 10 then 48 + d else 55 + d.
Proof.
  intros Hd. unfold hex_upper. destruct (N.ltb_spec d 10); [by apply byte_val_digit_char|].
  apply byte_val_ascii. lia.
Qed.

Lemma hex_digit_upper d : d < 16 → hex_digit (hex_upper d) = Some d.
Proof.
  intros Hd. unfold hex_digit, is_ascii_digit, in_range. rewrite byte_val_hex_upper by done.
  destruct (N.ltb_spec d 10).
  - rewrite (proj2 (N.leb_le 48 (48 + d))), (proj2 (N.leb_le (48 + d) 57)) by lia. cbn [andb]. f_equal. lia.
  - rewrite (proj2 (N.leb_gt (55 + d) 57)) by lia. rewrite andb_false_r.
    rewrite (proj2 (N.leb_le 65 (55 + d))), (proj2 (N.leb_le (55 + d) 70)) by lia. cbn [andb]. f_equal. lia.
Qed.

(** The bytes of an encoded value. *)
Definition plain_byte (a : ascii) : bool := unreserved a || (a == "%"%char).

Lemma hex_upper_unreserved d : d < 16 → unreserved (hex_upper d) = true.
Proof.
  intros Hd. unfold unreserved, is_ascii_alphanumeric, is_ascii_alphabetic, is_ascii_uppercase, is_ascii_digit, in_range.
  rewrite byte_val_hex_upper by done. destruct (N.ltb_spec d 10).
  - rewrite (proj2 (N.leb_le 48 (48 + d))), (proj2 (N.leb_le (48 + d) 57)) by lia. by rewrite !orb_true_r.
  - by rewrite (proj2 (N.leb_le 65 (55 + d))), (proj2 (N.leb_le (55 + d) 90)) by lia.
Qed.

Lemma encode_plain l : forallb plain_byte (encode_query_component l) = true.
Proof.
  induction l as [|a l IH]; [done|]. unfold encode_query_component in *. cbn [flat_map]. rewrite forallb_app, IH, andb_true_r.
  unfold encode_byte. pose proof (byte_val_lt a). destruct (unreserved a) eqn:E.
  - unfold plain_byte. cbn [forallb]. by rewrite E.
  - unfold plain_byte. cbn [forallb].
    rewrite !hex_upper_unreserved; [by rewrite orb_true_r|by apply N.mod_lt|by apply N.Div0.div_lt_upper_bound].
Qed.

Lemma plain_not a l : plain_byte a = false → forallb plain_byte l = true → existsb (λ d, d == a) l = false.
Proof.
  intros Ha Hl. apply not_true_iff_false. intros (d & Hd & ->%bool_decide_eq_true)%existsb_exists.
  rewrite forallb_forall in Hl. apply Hl in Hd. congruence.
Qed.

Lemma decode_cons plus a l : a ≠ "%"%char → a ≠ "+"%char → decode plus (a :: l) = a :: decode plus l.
Proof.
  intros H1 H2. simpl. rewrite bool_decide_false by done. rewrite (bool_decide_false (a = "+"%char)) by done.
  by rewrite andb_false_r.
Qed.

Lemma decode_hex plus h k l n m : hex_digit h = Some n → hex_digit k = Some m →
  decode plus ("%"%char :: h :: k :: l) = ascii_of_N (n * 16 + m) :: decode plus l.
Proof. intros Hh Hk. simpl. by rewrite Hh, Hk. Qed.

Lemma decode_encode plus l rest : decode plus (encode_query_component l ++ rest) = l ++ decode plus rest.
Proof.
  induction l as [|a l IH]; [done|].
  change (encode_query_component (a :: l)) with (encode_byte a ++ encode_query_component l). rewrite <- app_assoc.
  unfold encode_byte. pose proof (byte_val_lt a). destruct (unreserved a) eqn:E; cbn [app].
  - rewrite decode_cons, IH; [done|by intros ->|by intros ->].
  - rewrite (decode_hex plus _ _ _ (byte_val a / 16) (byte_val a mod 16)), IH;
      [|apply hex_digit_upper; by apply N.Div0.div_lt_upper_bound|apply hex_digit_upper; by apply N.mod_lt].
    f_equal. unfold byte_val in *. rewrite (N.mul_comm (N_of_ascii a / 16)), <- N.div_mod by done. apply ascii_N_embedding.
Qed.

(** ** Lemmas: the query *)

Lemma split_bytes_app_Some c l a b r : split_bytes c l = Some (a, b) → split_bytes c (l ++ r) = Some (a, b ++ r).
Proof.
  intros [-> Ha]%split_bytes_Some. rewrite <- app_assoc. simpl. by apply split_bytes_app.
Qed.

Lemma split_bytes_None c l : existsb (is_byte c) l = false ↔ split_bytes c l = None.
Proof.
  split.
  - intros H. destruct (split_bytes c l) as [[a b]|] eqn:E; [|done]. apply split_bytes_Some in E as [-> _].
    rewrite existsb_app in H. simpl in H. unfold is_byte in H. rewrite bool_decide_true in H by done.
    by rewrite orb_true_r in H.
  - intros H. apply not_true_iff_false. intros (d & Hd & ->%is_byte_spec)%existsb_exists.
    apply In_elem, list_elem_of_split_l in Hd as (l1 & l2 & -> & Hn).
    rewrite split_bytes_app in H; [done|]. apply not_true_iff_false.
    intros (x & Hx & ->%bool_decide_eq_true)%existsb_exists. by apply Hn, In_elem.
Qed.

Definition token_parameter (token : list ascii) : list ascii := bytes "token=" ++ encode_query_component token.

Lemma parameter_token plus token : parameter plus (token_parameter token) = (bytes "token", token).
Proof.
  unfold parameter, token_parameter. change (bytes "token=") with (bytes "token" ++ ["="%char]).
  rewrite <- app_assoc. simpl app at 2. rewrite split_bytes_app by done.
  pose proof (decode_encode plus token [] : _ = token ++ []) as E. rewrite !app_nil_r in E. rewrite E.
  by destruct plus.
Qed.

Lemma token_parameter_not c token : c ≠ "="%char → plain_byte c = false →
  existsb (is_byte c) (token_parameter token) = false.
Proof.
  intros Hc Hp. change (existsb (λ d, d == c) (token_parameter token) = false).
  unfold token_parameter. rewrite existsb_app, (plain_not c (encode_query_component token)) by (done || apply encode_plain).
  rewrite orb_false_r. change (bytes "token=") with (bytes "token" ++ ["="%char]). rewrite existsb_app.
  rewrite (plain_not c (bytes "token")) by done. cbn [existsb]. by rewrite bool_decide_false.
Qed.

Lemma query_token plus l token : existsb (is_byte "#") l = false →
  query_params plus (l ++ (if existsb (is_byte "?") l then ["&"%char] else ["?"%char]) ++ token_parameter token)
  = query_params plus l ++ [(bytes "token", token)].
Proof.
  intros Hl. unfold query_params, query. rewrite (before_none _ l Hl).
  rewrite before_none.
  2: { rewrite !existsb_app, Hl, (token_parameter_not "#") by done. by destruct (existsb (is_byte "?") l). }
  destruct (existsb (is_byte "?") l) eqn:E.
  - destruct (split_bytes "?" l) as [[a q]|] eqn:Eq; [|by apply split_bytes_None in Eq; congruence].
    rewrite (split_bytes_app_Some _ _ _ _ _ Eq). simpl app at 1. rewrite split_list_app, map_app.
    rewrite (split_list_last _ (token_parameter token)) by (by apply token_parameter_not).
    simpl. by rewrite parameter_token.
  - pose proof E as ->%split_bytes_None. simpl app at 1.
    rewrite split_bytes_app by done. rewrite (split_list_last _ (token_parameter token)) by (by apply token_parameter_not).
    simpl. by rewrite parameter_token.
Qed.

(** ** Lemmas: IPv4 hosts *)

Lemma shiftr_div a b c d k : N.shiftr (ipv4 a b c d) k = ipv4 a b c d / 2 ^ k.
Proof. apply N.shiftr_div_pow2. Qed.

Lemma ipv4_blocks a b c d : a ≤ u8_max → b ≤ u8_max → c ≤ u8_max → d ≤ u8_max →
  internal_ipv4 (ipv4 a b c d) = private_octets a b.
Proof.
  unfold u8_max. intros Ha Hb Hc Hd.
  assert (ipv4 a b c d / 2 ^ 24 = a) as E24.
  { unfold ipv4. symmetry. apply (N.div_unique _ _ _ ((b * 256 + c) * 256 + d)); simpl; lia. }
  assert (ipv4 a b c d / 2 ^ 16 = a * 256 + b) as E16.
  { unfold ipv4. symmetry. apply (N.div_unique _ _ _ (c * 256 + d)); simpl; lia. }
  assert (ipv4 a b c d / 2 ^ 20 = a * 16 + b / 16) as E20.
  { unfold ipv4. symmetry. apply (N.div_unique _ _ _ ((b mod 16 * 256 + c) * 256 + d));
      change (2 ^ 20) with 1048576; pose proof (N.div_mod b 16 ltac:(lia)); pose proof (N.mod_lt b 16 ltac:(lia)); lia. }
  unfold internal_ipv4, in_block, private_octets. rewrite !N.shiftr_div_pow2.
  change (32 - 8) with 24. change (32 - 12) with 20. change (32 - 16) with 16. rewrite E24, E16, E20.
  change (ipv4 127 0 0 0 / 2 ^ 24) with 127. change (ipv4 10 0 0 0 / 2 ^ 24) with 10.
  change (ipv4 172 16 0 0 / 2 ^ 20) with 2753. change (ipv4 192 168 0 0 / 2 ^ 16) with 49320.
  change (ipv4 169 254 0 0 / 2 ^ 16) with 43518.
  pose proof (N.div_mod b 16 ltac:(lia)). pose proof (N.mod_lt b 16 ltac:(lia)).
  clear E24 E16 E20. apply bool_eq_iff. rewrite !orb_true_iff, !andb_true_iff, !N.eqb_eq, !N.leb_le.
  generalize dependent (b / 16). generalize dependent (b mod 16). intros r q Hq Hr. split; intros H; lia.
Qed.

Lemma parse_u8_dec n : n ≤ u8_max → parse_u8 (bytes (to_dec n)) = Some n.
Proof.
  unfold u8_max. intros Hn. unfold parse_u8. rewrite of_bytes_bytes, parse_u64_digits by apply canonical_to_dec.
  rewrite decimal_of_to_dec. rewrite (proj2 (N.leb_le n u64_max)) by (unfold u64_max; lia).
  by rewrite (proj2 (N.leb_le n u8_max)) by (unfold u8_max; lia).
Qed.

Lemma dotted_octets a b c d : a ≤ u8_max → b ≤ u8_max → c ≤ u8_max → d ≤ u8_max →
  ipv4_octets (dotted a b c d) = Some (a, b, c, d).
Proof.
  intros Ha Hb Hc Hd. unfold ipv4_octets, dotted. rewrite !split_list_sep by by apply dec_not.
  rewrite split_list_last by by apply dec_not. simpl. by rewrite !parse_u8_dec.
Qed.

(** Digits and dots, a digit first and last. *)
Definition digit_or_dot (x : ascii) : bool := is_ascii_digit x || (x == "."%char).

Lemma dotted_shape a b c d : forallb digit_or_dot (dotted a b c d) = true ∧
  (∃ x l, dotted a b c d = x :: l ∧ is_ascii_digit x = true) ∧
  (∃ x l, rev (dotted a b c d) = x :: l ∧ is_ascii_digit x = true).
Proof.
  assert (∀ n, forallb digit_or_dot (bytes (to_dec n)) = true) as D.
  { intros n. pose proof (dec_digits n) as H. rewrite forallb_Forall in *. eapply Forall_impl; [exact H|].
    intros x Hx. unfold digit_or_dot. cbv beta in Hx. by rewrite Hx. }
  split; [|split].
  - unfold dotted. repeat (rewrite forallb_app || cbn [forallb]). by rewrite !D.
  - destruct (dec_nonempty a) as (x & l & E & Hx). unfold dotted. rewrite E. by eexists x, _.
  - destruct (dec_nonempty d) as (y & l' & E & _). pose proof (dec_digits d) as Hd.
    assert (∃ x l, rev (bytes (to_dec d)) = x :: l ∧ is_ascii_digit x = true) as (x & l & Ex & Hx).
    { destruct (rev (bytes (to_dec d))) as [|x l] eqn:Er.
      - apply (f_equal (@rev _)) in Er. rewrite rev_involutive, E in Er. done.
      - exists x, l. split; [done|]. rewrite forallb_forall in Hd. apply Hd. apply in_rev. rewrite Er. by left. }
    exists x, (l ++ rev (bytes (to_dec a) ++ "."%char :: bytes (to_dec b) ++ "."%char :: bytes (to_dec c) ++ ["."%char])).
    split; [|done]. unfold dotted.
    replace (bytes (to_dec a) ++ "."%char :: bytes (to_dec b) ++ "."%char :: bytes (to_dec c) ++ "."%char :: bytes (to_dec d))
      with ((bytes (to_dec a) ++ "."%char :: bytes (to_dec b) ++ "."%char :: bytes (to_dec c) ++ ["."%char]) ++ bytes (to_dec d)).
    + rewrite rev_app_distr, Ex. done.
    + rewrite <- !app_assoc. simpl. rewrite <- !app_assoc. simpl. by rewrite <- !app_assoc.
Qed.

Lemma trim_ends p l x l1 y l2 : l = x :: l1 → rev l = y :: l2 → p x = false → p y = false → trim_matches p l = l.
Proof.
  intros -> Er Hx Hy. unfold trim_matches. simpl trim_start at 2. rewrite Hx, Er. simpl. rewrite Hy, <- Er.
  apply rev_involutive.
Qed.

Lemma digit_ne q x : is_ascii_digit q = false → is_ascii_digit x = true → q ≠ x.
Proof. intros Hq Hx ->. congruence. Qed.

Lemma internal_host_ipv4 a b c d : a ≤ u8_max → b ≤ u8_max → c ≤ u8_max → d ≤ u8_max →
  internal_host_allowed (dotted a b c d) = private_octets a b.
Proof.
  intros Ha Hb Hc Hd. pose proof (dotted_octets a b c d Ha Hb Hc Hd) as Ho.
  destruct (dotted_shape a b c d) as (Hall & (x & l & E & Hx) & (y & l' & Er & Hy)).
  revert Ho Hall E Er. generalize (dotted a b c d) as h. intros h Ho Hall -> Er.
  unfold internal_host_allowed. rewrite lowercase_id.
  2: { rewrite forallb_Forall in *. eapply Forall_impl; [exact Hall|]. intros z. unfold digit_or_dot.
       rewrite orb_true_iff, negb_true_iff. unfold is_ascii_digit, is_ascii_uppercase, in_range.
       intros [Hz|Hz]; [|apply bool_decide_eq_true in Hz as ->; done].
       apply andb_true_iff in Hz as [_ Hz]. apply N.leb_le in Hz.
       rewrite (proj2 (N.leb_gt 65 (byte_val z))); [done|lia]. }
  assert (∀ w, is_ascii_digit w = true → (w == "["%char) || (w == "]"%char) = false) as Hb'.
  { intros w Hw. rewrite !bool_decide_false; [done|..]; by intros ->. }
  rewrite (trim_ends _ _ x l y l') by auto.
  rewrite Ho.
  rewrite (bool_decide_false (x :: l = bytes "localhost")) by (intros [= -> _]; done).
  rewrite (bool_decide_false (x :: l = bytes "::1")) by (intros [= -> _]; done).
  unfold has_suffix, has_prefix. rewrite Er. simpl rev.
  change (rev (bytes ".localhost")) with ("t"%char :: rev (bytes ".localhos")).
  rewrite (prefix_head _ _ y) by (by apply digit_ne).
  change (bytes "fc") with ("f"%char :: bytes "c"). change (bytes "fd") with ("f"%char :: bytes "d").
  change (bytes "fe8") with ("f"%char :: bytes "e8").
  rewrite !(prefix_head _ "f" x) by (by apply digit_ne). done.
Qed.

(** ** Lemmas: the host of a URL *)

Definition url_delimiter (c : ascii) : bool := is_byte "/" c || is_byte "?" c || is_byte "#" c.

Lemma strip_scheme_ws rest : strip_scheme "ws://" (bytes "ws://" ++ rest) = Some rest.
Proof. reflexivity. Qed.

(** Bytes of host names and of IPv4 literals. *)
Definition host_byte (x : ascii) : bool := is_ascii_alphanumeric x || (x == "-"%char) || (x == "."%char).

Lemma host_byte_not c x : host_byte c = false → host_byte x = true → is_byte c x = false.
Proof. intros Hc Hx. apply not_true_iff_false. intros ->%is_byte_spec. congruence. Qed.

Lemma cleartext_host_name host path : forallb host_byte host = true →
  cleartext_host (bytes "ws://" ++ host ++ "/"%char :: path) = Some host.
Proof.
  intros Hh. unfold cleartext_host. rewrite strip_scheme_ws.
  assert (∀ c, host_byte c = false → existsb (is_byte c) host = false) as N.
  { intros c Hc. apply (existsb_false_impl _ _ _ Hh). intros x. by apply host_byte_not. }
  rewrite before_sep; [| |done].
  2: { apply (existsb_false_impl _ _ _ Hh). intros x Hx. by rewrite !(host_byte_not _ x) by done. }
  rewrite after_last_none by by apply N.
  assert (strip_prefix ["["%char] host = None) as ->.
  { destruct host as [|x host]; [done|]. apply prefix_head. intros <-. by cbn [forallb] in Hh. }
  by rewrite before_none by by apply N.
Qed.

(** Bytes of IPv6 literals without an embedded IPv4 one. *)
Definition ipv6_byte (x : ascii) : bool := is_ascii_alphanumeric x || (x == ":"%char).

Lemma ipv6_byte_not c x : ipv6_byte c = false → ipv6_byte x = true → is_byte c x = false.
Proof. intros Hc Hx. apply not_true_iff_false. intros ->%is_byte_spec. congruence. Qed.

Lemma cleartext_host_ipv6 host path : forallb ipv6_byte host = true →
  cleartext_host (bytes "ws://[" ++ host ++ bytes "]/" ++ path) = Some host.
Proof.
  intros Hh. change (bytes "ws://[" ++ host ++ bytes "]/" ++ path) with
    (bytes "ws://" ++ "["%char :: host ++ "]"%char :: "/"%char :: path).
  unfold cleartext_host. rewrite strip_scheme_ws.
  assert (∀ c, ipv6_byte c = false → existsb (is_byte c) host = false) as N.
  { intros c Hc. apply (existsb_false_impl _ _ _ Hh). intros x. by apply ipv6_byte_not. }
  replace ("["%char :: host ++ "]"%char :: "/"%char :: path) with (("["%char :: host ++ ["]"%char]) ++ "/"%char :: path)
    by (simpl; by rewrite <- app_assoc).
  rewrite before_sep; [| |done].
  2: { cbn [existsb]. rewrite existsb_app. rewrite (existsb_false_impl _ _ _ Hh); [done|].
       intros x Hx. by rewrite !(ipv6_byte_not _ x) by done. }
  rewrite after_last_none.
  2: { cbn [existsb]. by rewrite existsb_app, N. }
  cbn [strip_prefix]. rewrite bool_decide_true by done. cbn [strip_prefix].
  by rewrite before_sep by (done || by apply N).
Qed.

Lemma byte_val_lower x : byte_val (to_ascii_lowercase_byte x) =
  if is_ascii_uppercase x then byte_val x + 32 else byte_val x.
Proof.
  unfold to_ascii_lowercase_byte. destruct (is_ascii_uppercase x) eqn:E; [|done].
  unfold is_ascii_uppercase in E. rewrite in_range_spec in E. apply byte_val_ascii. lia.
Qed.

(** Lower-casing neither makes nor removes a byte that is not a letter. *)
Lemma lower_other c x : is_ascii_alphabetic c = false → is_byte c (to_ascii_lowercase_byte x) = is_byte c x.
Proof.
  intros Hc. apply bool_eq_iff. rewrite !is_byte_spec. split.
  - intros E. pose proof (byte_val_lower x) as V. rewrite E in V.
    destruct (is_ascii_uppercase x) eqn:U; [|symmetry; by apply byte_val_inj].
    unfold is_ascii_alphabetic, is_ascii_uppercase, is_ascii_lowercase in *.
    apply orb_false_iff in Hc as [_ Hc]. rewrite in_range_spec in U.
    assert (in_range 97 122 c = true) by (apply in_range_spec; lia). congruence.
  - intros ->. unfold to_ascii_lowercase_byte. unfold is_ascii_alphabetic in Hc. apply orb_false_iff in Hc as [-> _]. done.
Qed.

Lemma lower_none c l : is_ascii_alphabetic c = false → existsb (is_byte c) (to_ascii_lowercase l) = existsb (is_byte c) l.
Proof.
  intros Hc. unfold to_ascii_lowercase. induction l as [|x l IH]; [done|]. cbn [List.map existsb].
  by rewrite lower_other, IH.
Qed.

Definition bracket (c : ascii) : bool := (c == "["%char) || (c == "]"%char).

Lemma trim_matches_none p l : existsb p l = false → trim_matches p l = l.
Proof.
  intros H. assert (∀ k, existsb p k = false → trim_start p k = k) as T.
  { intros [|x k]; [done|]. simpl. by intros [-> _]%orb_false_iff. }
  unfold trim_matches. rewrite (T l H), T; [apply rev_involutive|]. apply not_true_iff_false.
  intros (x & Hx%in_rev & Hp)%existsb_exists. assert (existsb p l = true) by (apply existsb_exists; eauto). congruence.
Qed.

Lemma trim_brackets l : existsb bracket l = false → trim_matches bracket (to_ascii_lowercase l) = to_ascii_lowercase l.
Proof.
  intros H. apply trim_matches_none.
  assert (∀ k, existsb bracket k = existsb (is_byte "[") k || existsb (is_byte "]") k) as E.
  { induction k as [|x k IH]; [done|]. cbn [existsb]. rewrite IH. unfold bracket, is_byte.
    destruct (x == "["%char), (x == "]"%char), (existsb (λ b, b == "["%char) k); reflexivity. }
  by rewrite E, !lower_none, <- E by done.
Qed.

(** A host that begins with [fc] is taken for an IPv6 address, and one without
    a dot for an in-cluster name. *)
Lemma internal_host_fc l : existsb bracket l = false → internal_host_allowed (bytes "fc" ++ l) = true.
Proof.
  intros H. unfold internal_host_allowed.
  change (trim_matches _ ?k) with (trim_matches bracket k).
  rewrite trim_brackets by done. destruct (_ || _ || has_suffix _ _); [done|].
  assert (has_prefix "fc" (to_ascii_lowercase (bytes "fc" ++ l)) = true) as ->; [done|].
  by rewrite orb_true_r.
Qed.

Lemma internal_host_no_dot l : existsb bracket l = false → existsb (is_byte ".") l = false →
  internal_host_allowed l = true.
Proof.
  intros Hb Hd. unfold internal_host_allowed.
  change (trim_matches _ ?k) with (trim_matches bracket k). rewrite trim_brackets by done.
  destruct (_ || _ || has_suffix _ _); [done|]. destruct (_ || _ || _ || has_prefix _ _); [done|].
  unfold ipv4_octets. rewrite split_list_last by by rewrite <- (lower_none "." l) in Hd.
  cbn [List.map]. rewrite lower_none, Hd by done. by destruct (parse_u8 _).
Qed.

Lemma dial_target_token config a token target : auth config = Some (Some (a :: token)) →
  dial_target config = Ok target ↔
  (∀ host, cleartext_host (url config) = Some host → internal_host_allowed host = true) ∧
  target = url config ++ (if existsb (is_byte "?") (url config) then ["&"%char] else ["?"%char])
           ++ token_parameter (a :: token).
Proof.
  intros Ha. unfold dial_target. rewrite Ha. fold (token_parameter (a :: token)).
  destruct (cleartext_host (url config)) as [host|]; [|naive_solver].
  destruct (internal_host_allowed host) eqn:E; simpl; split.
  - intros [= <-]. split; [|done]. by intros ? [= <-].
  - by intros [_ ->].
  - done.
  - intros [H _]. specialize (H host eq_refl). congruence.
Qed.

(** ** Theorems *)

(** What the transport dials with a token.  The server reads the token back
    from the query exactly as the provider gave it, whatever its bytes, after
    the URL's own parameters (decoding [+] as a space or not); the rest of the
    URL is kept; and on a cleartext hop the host is one the policy allows. *)
Theorem dialed_token (config : WsConfig) (token target : list ascii) (plus : bool)
    (Hauth : auth config = Some (Some token)) (Htoken : token ≠ [])
    (Hfragment : existsb (is_byte "#") (url config) = false) (Hdial : dial_target config = Ok target) :
  query_params plus target = query_params plus (url config) ++ [(bytes "token", token)] ∧
  before (is_byte "?") target = before (is_byte "?") (url config) ∧
  (∀ host, cleartext_host (url config) = Some host → internal_host_allowed host = true).
Proof.
  destruct token as [|a token]; [done|]. apply (dial_target_token _ _ _ _ Hauth) in Hdial as [Hpolicy ->].
  split; [by apply query_token|]. split; [|done].
  destruct (existsb (is_byte "?") (url config)) eqn:E.
  - apply existsb_exists in E as (x & Hx & ->%is_byte_spec).
    apply In_elem, list_elem_of_split_l in Hx as (l1 & l2 & -> & Hn).
    assert (existsb (is_byte "?") l1 = false) as H1.
    { apply not_true_iff_false. intros (y & Hy & ->%is_byte_spec)%existsb_exists. by apply Hn, In_elem. }
    rewrite <- app_assoc. cbn [app]. by rewrite !before_sep.
  - rewrite (before_none _ (url config)) by done. cbn [app]. by apply before_sep.
Qed.

Lemma dialed_token_witness :
  query_params true (bytes "ws://localhost/sync/ws?v=1&token=a%20b%2B%26c") =
    [(bytes "v", bytes "1"); (bytes "token", bytes "a b+&c")] ∧
  query_params true (bytes "ws://localhost/sync/ws?v=1&token=a%20b%2B%26c") =
    query_params true (bytes "ws://localhost/sync/ws?v=1") ++ [(bytes "token", bytes "a b+&c")].
Proof.
  split; [vm_compute; reflexivity|].
  apply (dialed_token {| url := bytes "ws://localhost/sync/ws?v=1"; auth := Some (Some (bytes "a b+&c")) |}
           (bytes "a b+&c")); vm_compute; (reflexivity || discriminate).
Defined.

(** Over every IPv4 address, a token goes in cleartext exactly to the
    loopback, private and link-local blocks 127/8, 10/8, 172.16/12, 192.168/16
    and 169.254/16; to any other address the dial is refused. *)
Theorem cleartext_ipv4_policy (a b c d : N) (path token : list ascii)
    (Ha : a ≤ u8_max) (Hb : b ≤ u8_max) (Hc : c ≤ u8_max) (Hd : d ≤ u8_max) (Htoken : token ≠ []) :
  is_ok (dial_target {| url := bytes "ws://" ++ dotted a b c d ++ "/"%char :: path; auth := Some (Some token) |})
  = internal_ipv4 (ipv4 a b c d).
Proof.
  destruct token as [|t token]; [done|]. rewrite ipv4_blocks, <- (internal_host_ipv4 a b c d) by done.
  assert (forallb host_byte (dotted a b c d) = true) as Hh.
  { destruct (dotted_shape a b c d) as [H _]. rewrite forallb_Forall in *. eapply Forall_impl; [exact H|].
    intros x. unfold digit_or_dot, host_byte, is_ascii_alphanumeric. rewrite !orb_true_iff. tauto. }
  unfold dial_target. cbn [auth url]. rewrite cleartext_host_name by done.
  by destruct (internal_host_allowed (dotted a b c d)).
Qed.

Lemma cleartext_ipv4_policy_witness :
  internal_ipv4 (ipv4 8 8 8 8) = false ∧
  is_ok (dial_target {| url := bytes "ws://" ++ dotted 8 8 8 8 ++ "/"%char :: bytes "sync/ws";
                        auth := Some (Some (bytes "session")) |})
  = internal_ipv4 (ipv4 8 8 8 8).
Proof.
  split; [vm_compute; reflexivity|].
  apply cleartext_ipv4_policy; vm_compute; (reflexivity || discriminate).
Defined.

(** The policy takes some public hosts for internal ones: the token goes in
    cleartext to every host name that begins with [fc], and to every IPv6
    address, global ones included. *)
Theorem public_hosts_get_the_token (name address path token : list ascii)
    (Hname : forallb host_byte name = true) (Haddress : forallb ipv6_byte address = true) :
  is_ok (dial_target {| url := bytes "ws://" ++ (bytes "fc" ++ name) ++ "/"%char :: path; auth := Some (Some token) |}) = true ∧
  is_ok (dial_target {| url := bytes "ws://[" ++ address ++ bytes "]/" ++ path; auth := Some (Some token) |}) = true.
Proof.
  unfold dial_target. cbn [auth url]. destruct token as [|t token]; [done|]. split.
  - rewrite cleartext_host_name by (rewrite forallb_app; by rewrite Hname). rewrite internal_host_fc; [done|].
    apply (existsb_false_impl _ _ _ Hname). intros x Hx. apply orb_false_iff.
    split; apply bool_decide_eq_false; by intros ->.
  - rewrite cleartext_host_ipv6 by done. rewrite internal_host_no_dot; [done|..].
    + apply (existsb_false_impl _ _ _ Haddress). intros x Hx. apply orb_false_iff.
      split; apply bool_decide_eq_false; by intros ->.
    + apply (existsb_false_impl _ _ _ Haddress). intros x. by apply ipv6_byte_not.
Qed.

Lemma public_hosts_get_the_token_witness :
  is_ok (dial_target {| url := bytes "ws://fcustomer.example.com/sync/ws"; auth := Some (Some (bytes "session")) |}) = true ∧
  is_ok (dial_target {| url := bytes "ws://[2001:4860:4860::8888]/sync/ws"; auth := Some (Some (bytes "session")) |}) = true.
Proof.
  apply (public_hosts_get_the_token (bytes "ustomer.example.com") (bytes "2001:4860:4860::8888")
           (bytes "sync/ws") (bytes "session")); vm_compute; reflexivity.
Defined.
