(* ===== verification/Socket.v ===== *)
(** * Socket: the TCP and WebSocket connections under the realtime transports

    [clients/rust/src/transport/tcp.rs] and the connection thread, the typed
    requests and the fallback of [clients/rust/src/transport/ws.rs] and
    [transport.rs].  A socket is the bytes or messages that arrive on it and the
    outcome of each write; a connection thread is the sequence of its effects
    on the waiters ([PendingEvent]), which other threads' effects interleave.

    [ndjson_roundtrip] is the framing of TCP, whatever pieces the bytes arrive
    in; [connection_answers_all] shows that no request is left waiting when a
    connection thread ends, and [ws_thread_in_order] that the WebSocket thread
    keeps both directions in order. *)

From S2P Require Import Prelude Text Decimal Btree Json JsonCodec State Clock Protocol ProtocolSync Transport.

Definition TCP_CODES : FrameCodes :=
  {| fc_kind := "tcp"; fc_error := "TCP_ERROR"; fc_closed := "TCP_CLOSED"; fc_timeout := "TCP_TIMEOUT";
     fc_send_failed := "TCP_SEND_FAILED"; fc_dial_failed := "TCP_DIAL_FAILED";
     fc_invalid_response := "TCP_INVALID_RESPONSE"; fc_disposed := "TCP_DISPOSED" |}.
Definition WS_CODES : FrameCodes :=
  {| fc_kind := "websocket"; fc_error := "WS_ERROR"; fc_closed := "WS_CLOSED"; fc_timeout := "WS_TIMEOUT";
     fc_send_failed := "WS_SEND_FAILED"; fc_dial_failed := "WS_DIAL_FAILED";
     fc_invalid_response := "WS_INVALID_RESPONSE"; fc_disposed := "WS_DISPOSED" |}.

(** ** The TCP reader *)

Inductive StreamEnd := Eof | Lost (error : string).

(** What the reader's [BufReader] holds, the pieces still to arrive, and how the
    stream ends. *)
Record Stream := { buffered : list ascii; arriving : list (list ascii); ends : StreamEnd }.

(** [read_until(b'\n')]: through the newline, or to the end of the stream. *)
Fixpoint read_until (acc buffer : list ascii) (pieces : list (list ascii)) (finish : StreamEnd)
  : Stream * result (list ascii) string :=
  match split_bytes newline buffer with
  | Some (line, rest) =>
      ({| buffered := rest; arriving := pieces; ends := finish |}, Ok (acc ++ line ++ [newline]))
  | None =>
      match pieces with
      | piece :: pieces => read_until (acc ++ buffer) piece pieces finish
      | [] =>
          ({| buffered := []; arriving := []; ends := finish |},
           match finish with Eof => Ok (acc ++ buffer) | Lost e => Err e end)
      end
  end.

(** [read_line]: the bytes are validated once the line is complete. *)
Definition read_line (s : Stream) : Stream * result (list ascii) string :=
  match read_until [] (buffered s) (arriving s) (ends s) with
  | (s, Ok line) => (s, if utf8 line then Ok line else Err "stream did not contain valid UTF-8")
  | (s, Err e) => (s, Err e)
  end.

(** [trim_end_matches(['\r', '\n'])] *)
Fixpoint trim_start_of (p : ascii → bool) (l : list ascii) : list ascii :=
  match l with a :: l' => if p a then trim_start_of p l' else l | [] => [] end.
Definition trim_line_end (l : list ascii) : list ascii :=
  rev (trim_start_of (λ c, (c == carriage_return) || (c == newline)) (rev l)).

(** The reader thread's loop: the frames it dispatches and the message it ends
    with; [None] is fuel running out. *)
Fixpoint reader_frames (fuel : nat) (s : Stream) : option (list string * string) :=
  match fuel with
  | O => None
  | S fuel =>
      match read_line s with
      | (s, Err e) => Some ([], "tcp connection lost: " +:+ e)
      | (s, Ok []) => Some ([], "tcp connection closed")
      | (s, Ok line) =>
          let frame := of_bytes (trim_line_end line) in
          match reader_frames fuel s with
          | Some (frames, message) =>
              Some (if is_empty (trim frame) then (frames, message) else (frame :: frames, message))
          | None => None
          end
      end
  end.

Definition stream_bytes (s : Stream) : list ascii := buffered s ++ concat (arriving s).

(** The whole thread: every line takes at least a byte, so this is fuel enough. *)
Definition reader_run (s : Stream) : option (list PendingEvent) :=
  match reader_frames (S (length (stream_bytes s))) s with
  | Some (frames, message) =>
      Some (List.map EFrame frames ++ [EFailAll (retryable_failure (fc_closed TCP_CODES) message)])
  | None => None
  end.

(** ** The TCP writer *)

Definition tcp_line (text : string) : list ascii := bytes text ++ [newline].

(** [send_frame]; [written] is what writing and flushing the line gives. *)
Definition tcp_send_frame (written : result unit string) (text : string) (l : Link) : Link * result unit string :=
  match written with
  | Ok _ => (add_sent (of_bytes (tcp_line text)) l, Ok ())
  | Err error =>
      (shut_link (retryable_failure (fc_closed TCP_CODES) ("tcp connection lost: " +:+ error)) true l,
       Err ("tcp send failed: " +:+ error))
  end.

(** [dial]'s loop over the resolved addresses: the first connection, or the last
    error. *)
Fixpoint connect_first {A} (attempts : list (result A string)) (last_error : string) : result A string :=
  match attempts with
  | [] => Err last_error
  | Ok connected :: _ => Ok connected
  | Err error :: attempts => connect_first attempts error
  end.
Definition tcp_connect {A} (address : string) (attempts : list (result A string)) : result A string :=
  connect_first attempts (address +:+ " resolved to no addresses").

(** The per-frame token, under the keys the envelope writes over it. *)
Definition with_token (auth : option (option string)) (body : Frame) : Frame :=
  match auth with
  | Some (Some token) => if is_empty token then body else bt_insert "token" (JString token) body
  | _ => body
  end.

(** ** The WebSocket thread *)

Inductive OutboundQueue := QueueEmpty | QueueDisconnected.

(** What [socket.read()] gives; idle is a read that timed out. *)
Inductive WsRead :=
| WsText (text : string)
| WsClose
| WsOther
| WsIdle
| WsFailed (error : string).

(** What one turn of the loop meets: the shutdown flag, the frames queued and
    the outcome of sending each, the state the queue is then in, and the read. *)
Record WsTurn := {
  wt_shutdown : bool;
  wt_outbound : list (string * result unit string);
  wt_queue : OutboundQueue;
  wt_read : WsRead
}.

(** Flushing the queue: what was sent, and why the loop ends if it does ([None]
    inside is an orderly end). *)
Fixpoint flush_outbound (outbound : list (string * result unit string)) (queue : OutboundQueue)
  : list string * option (option string) :=
  match outbound with
  | [] => ([], match queue with QueueEmpty => None | QueueDisconnected => Some None end)
  | (text, Ok _) :: outbound => let '(sent, stop) := flush_outbound outbound queue in (text :: sent, stop)
  | (_, Err error) :: _ => ([], Some (Some ("websocket send failed: " +:+ error)))
  end.

Definition ws_read (read : WsRead) : list string * option (option string) :=
  match read with
  | WsText text => ([text], None)
  | WsClose => ([], Some (Some "websocket closed by server"))
  | WsOther | WsIdle => ([], None)
  | WsFailed error => ([], Some (Some ("websocket closed: " +:+ error)))
  end.

(** One turn: the frames sent, the frames dispatched, and the end. *)
Definition ws_turn (turn : WsTurn) : list string * list string * option (option string) :=
  if wt_shutdown turn then ([], [], Some None)
  else
    match flush_outbound (wt_outbound turn) (wt_queue turn) with
    | (sent, Some stop) => (sent, [], Some stop)
    | (sent, None) => let '(frames, stop) := ws_read (wt_read turn) in (sent, frames, stop)
    end.

Fixpoint ws_loop (turns : list WsTurn) : list string * list string * option (option string) :=
  match turns with
  | [] => ([], [], None)
  | turn :: turns =>
      match ws_turn turn with
      | (sent, frames, Some stop) => (sent, frames, Some stop)
      | (sent, frames, None) =>
          let '(sent', frames', stop) := ws_loop turns in (sent ++ sent', frames ++ frames', stop)
      end
  end.

(** The thread once its loop has ended; [None] while it runs. *)
Definition ws_run (turns : list WsTurn) : option (list PendingEvent) :=
  match ws_loop turns with
  | (_, frames, Some close_reason) =>
      Some (List.map EFrame frames
            ++ [EFailAll (retryable_failure (fc_closed WS_CODES)
                            (default "websocket transport shut down" close_reason))])
  | (_, _, None) => None
  end.

(** [send_frame]: the queue is closed once the thread is gone. *)
Definition ws_send_frame (open : bool) (text : string) (l : Link) : Link * result unit string :=
  if open then (add_sent text l, Ok ()) else (l, Err "websocket connection is closed").

(** ** Typed requests and the fallback *)

Section Fallback.
Context {F FE : Type} `{ProtocolTransport F FE} `{WireDecode}.
(** The fallback error's [Display]. *)
Context (display : FE → string) (codes : FrameCodes).

Definition map_fallback_failure (failure : TransportFailure FE) : SyncTransportFailure :=
  {| tf_source := {| te_code := "FALLBACK"; te_message := display (tf_source _ failure) |};
     tf_retryable := tf_retryable _ failure; tf_retry_after := tf_retry_after _ failure |}.

(** A call of the erased fallback, on its state. *)
Definition erased {A} (call : F → F * result A (TransportFailure FE)) (fallback : F)
  : option F * result A SyncTransportFailure :=
  let '(fallback, r) := call fallback in (Some fallback, map_err map_fallback_failure r).

(** [raw] is what the request over the socket gave. *)
Definition socket_push (raw : result Frame RequestError) (request : PushRequest) (fallback : option F)
  : option F * result PushResponse SyncTransportFailure :=
  match raw with
  | Ok frame => (fallback, decode_push frame codes)
  | Err (Dial failure) =>
      match fallback with
      | Some fallback => erased (tr_push request) fallback
      | None => (None, Err failure)
      end
  | Err other => (fallback, Err (into_failure other))
  end.

Definition socket_pull (raw : result Frame RequestError) (checkpoint : string) (limit : N) (fallback : option F)
  : option F * result PullResult SyncTransportFailure :=
  match raw with
  | Ok frame => (fallback, decode_pull frame codes)
  | Err (Dial failure) =>
      match fallback with
      | Some fallback => erased (tr_pull checkpoint limit) fallback
      | None => (None, Err failure)
      end
  | Err other => (fallback, Err (into_failure other))
  end.

(** The request is made only without a fallback. *)
Definition socket_snapshot (raw : unit → result Frame RequestError) (reset : ResetRequired) (fallback : option F)
  : option F * result SnapshotResponse SyncTransportFailure :=
  match fallback with
  | Some fallback => erased (tr_snapshot reset) fallback
  | None =>
      match raw () with
      | Ok frame => (None, decode_snapshot frame codes)
      | Err error => (None, Err (into_failure error))
      end
  end.
End Fallback.

(** ** Specification *)

(** A frame a line carries back unchanged. *)
Definition line_safe (text : string) : Prop :=
  utf8 (bytes text) = true ∧ contains newline text = false ∧
  (∀ l, bytes text ≠ l ++ [carriage_return]) ∧ is_empty (trim text) = false.

Definition wire (texts : list string) : list ascii := flat_map tcp_line texts.

(** The effects of a connection thread from its start to its end. *)
Inductive connection_thread (codes : FrameCodes) : list PendingEvent → Prop :=
| tcp_thread s es : codes = TCP_CODES → reader_run s = Some es → connection_thread codes es
| ws_thread turns es : codes = WS_CODES → ws_run turns = Some es → connection_thread codes es.

Definition forgotten (es : list PendingEvent) : list string :=
  omap (λ e, match e with EForget request_id => Some request_id | _ => None end) es.

(** The first answer to a request in a trace. *)
Fixpoint first_answer `{SerdeJson} (codes : FrameCodes) (request_id : string) (es : list PendingEvent)
  : option FrameOutcome :=
  match es with
  | [] => None
  | EFrame text :: es =>
      match frame_answer codes text with
      | Some (r, o) => if r == request_id then Some o else first_answer codes request_id es
      | None => first_answer codes request_id es
      end
  | _ :: es => first_answer codes request_id es
  end.

(** What came first for a waiting request: an answer, or a failure of the
    connection. *)
Fixpoint first_outcome `{SerdeJson} (codes : FrameCodes) (request_id : string) (es : list PendingEvent)
  : option FrameOutcome :=
  match es with
  | [] => None
  | EFrame text :: es =>
      match frame_answer codes text with
      | Some (r, o) => if r == request_id then Some o else first_outcome codes request_id es
      | None => first_outcome codes request_id es
      end
  | EFailAll failure :: _ => Some (Err failure)
  | _ :: es => first_outcome codes request_id es
  end.

(** ** Lemmas: reading lines *)

Lemma split_bytes_None_app c l1 l2 : split_bytes c l1 = None →
  split_bytes c (l1 ++ l2) = match split_bytes c l2 with Some (a, b) => Some (l1 ++ a, b) | None => None end.
Proof.
  induction l1 as [|x l1 IH]; simpl; [by destruct (split_bytes c l2) as [[]|]|].
  destruct (x == c); [done|]. destruct (split_bytes c l1) as [[]|]; [done|]. intros _. rewrite IH by done.
  by destruct (split_bytes c l2) as [[]|].
Qed.

Lemma split_bytes_app_l c l1 l2 a b : split_bytes c l1 = Some (a, b) → split_bytes c (l1 ++ l2) = Some (a, b ++ l2).
Proof. intros [-> Ha]%split_bytes_Some. rewrite <- app_assoc. simpl. by apply split_bytes_app. Qed.

(** Reading to a newline is a cut of the bytes, whatever pieces they come in. *)
Lemma read_until_spec finish : ∀ pieces acc buffer,
  let '(s, r) := read_until acc buffer pieces finish in
  ends s = finish ∧
  match split_bytes newline (buffer ++ concat pieces) with
  | Some (line, rest) => stream_bytes s = rest ∧ r = Ok (acc ++ line ++ [newline])
  | None => stream_bytes s = [] ∧ r = match finish with Eof => Ok (acc ++ buffer ++ concat pieces) | Lost e => Err e end
  end.
Proof.
  induction pieces as [|piece pieces IH]; intros acc buffer; cbn [read_until].
  - simpl. rewrite app_nil_r. destruct (split_bytes newline buffer) as [[line rest]|]; [|done].
    unfold stream_bytes. simpl. by rewrite app_nil_r.
  - destruct (split_bytes newline buffer) as [[line rest]|] eqn:E.
    + rewrite (split_bytes_app_l _ _ _ _ _ E). done.
    + specialize (IH (acc ++ buffer) piece). destruct (read_until _ piece pieces finish) as [s r].
      destruct IH as [He IH]. split; [done|]. cbn [concat]. rewrite (split_bytes_None_app _ _ _ E).
      destruct (split_bytes newline (piece ++ concat pieces)) as [[line rest]|]; destruct IH as [Hs ->];
        (split; [done|]); [by rewrite <- !app_assoc|by rewrite <- app_assoc].
Qed.

(** The same on a whole stream, as a function of its bytes. *)
Definition next_line (l : list ascii) (finish : StreamEnd) : list ascii * result (list ascii) string :=
  match split_bytes newline l with
  | Some (line, rest) =>
      (rest, if utf8 (line ++ [newline]) then Ok (line ++ [newline]) else Err "stream did not contain valid UTF-8")
  | None =>
      ([], match finish with
           | Eof => if utf8 l then Ok l else Err "stream did not contain valid UTF-8"
           | Lost e => Err e
           end)
  end.

Lemma read_line_spec s : let '(s', r) := read_line s in
  ends s' = ends s ∧ (stream_bytes s', r) = next_line (stream_bytes s) (ends s).
Proof.
  unfold read_line, next_line. pose proof (read_until_spec (ends s) (arriving s) [] (buffered s)) as H.
  destruct (read_until [] (buffered s) (arriving s) (ends s)) as [s' r]. destruct H as [He H].
  change (buffered s ++ concat (arriving s)) with (stream_bytes s) in H. rewrite app_nil_l in H.
  destruct (split_bytes newline (stream_bytes s)) as [[line rest]|].
  - destruct H as [<- ->]. by destruct (utf8 _).
  - destruct H as [Hs ->]. destruct (ends s); cbn [app] in *; by rewrite Hs.
Qed.

Lemma next_line_shorter l finish l' x line : next_line l finish = (l', Ok (x :: line)) → (length l' < length l)%nat.
Proof.
  unfold next_line. destruct (split_bytes newline l) as [[a rest]|] eqn:E.
  - apply split_bytes_Some in E as [-> _]. destruct (utf8 _); intros [= <- _]. rewrite length_app. simpl. lia.
  - destruct finish; [|by intros [= <-]]. destruct (utf8 l); intros [= <- ->]. simpl. lia.
Qed.

(** The frames of a stream, as a function of its bytes. *)
Fixpoint frames_of (fuel : nat) (l : list ascii) (finish : StreamEnd) : option (list string * string) :=
  match fuel with
  | O => None
  | S fuel =>
      match next_line l finish with
      | (_, Err e) => Some ([], "tcp connection lost: " +:+ e)
      | (_, Ok []) => Some ([], "tcp connection closed")
      | (l, Ok line) =>
          let frame := of_bytes (trim_line_end line) in
          match frames_of fuel l finish with
          | Some (frames, message) => Some (if is_empty (trim frame) then (frames, message) else (frame :: frames, message))
          | None => None
          end
      end
  end.

Lemma reader_frames_of fuel : ∀ s, reader_frames fuel s = frames_of fuel (stream_bytes s) (ends s).
Proof.
  induction fuel as [|fuel IH]; intros s; [done|]. cbn [reader_frames frames_of].
  pose proof (read_line_spec s) as H. destruct (read_line s) as [s' r]. destruct H as [He <-].
  destruct r as [[|x line]|e]; [done| |done]. by rewrite IH, He.
Qed.

Lemma frames_of_total fuel : ∀ l finish, (length l < fuel)%nat → is_Some (frames_of fuel l finish).
Proof.
  induction fuel as [|fuel IH]; intros l finish Hl; [lia|]. cbn [frames_of].
  destruct (next_line l finish) as [l' [[|x line]|e]] eqn:E; [by eexists| |by eexists].
  apply next_line_shorter in E. destruct (IH l' finish ltac:(lia)) as [[frames message] ->]. by eexists.
Qed.

Lemma frames_of_fuel fuel fuel' : ∀ l finish r, frames_of fuel l finish = Some r → (fuel ≤ fuel')%nat →
  frames_of fuel' l finish = Some r.
Proof.
  revert fuel'. induction fuel as [|fuel IH]; intros fuel' l finish r H Hf; [done|].
  destruct fuel' as [|fuel']; [lia|]. cbn [frames_of] in *.
  destruct (next_line l finish) as [l' [[|x line]|e]]; [done| |done].
  destruct (frames_of fuel l' finish) as [p|] eqn:E; [|done]. by rewrite (IH fuel' _ _ _ E) by lia.
Qed.

(** ** Lemmas: the round trip *)

Lemma contains_bytes c s : contains c s = existsb (λ d, d == c) (bytes s).
Proof. done. Qed.

Lemma trim_line_end_line l : existsb (λ d, d == newline) l = false → (∀ k, l ≠ k ++ [carriage_return]) →
  trim_line_end (l ++ [newline]) = l.
Proof.
  intros Hn Hc. unfold trim_line_end. rewrite rev_app_distr. cbn [rev app trim_start_of].
  rewrite (bool_decide_eq_true_2 (newline = newline)) by done. rewrite orb_true_r.
  destruct (rev l) as [|x k] eqn:E.
  - apply (f_equal (@rev _)) in E. by rewrite rev_involutive in E.
  - assert (l = rev k ++ [x]) as -> by (rewrite <- (rev_involutive l), E; done).
    rewrite existsb_app in Hn. apply orb_false_iff in Hn as [_ Hx]. cbn [existsb] in Hx.
    cbn [trim_start_of]. rewrite (bool_decide_eq_false_2 (x = carriage_return)).
    + apply orb_false_iff in Hx as [-> _]. cbn [orb]. by rewrite <- E, rev_involutive.
    + intros ->. by apply (Hc (rev k)).
Qed.

Lemma next_line_wire text rest finish : line_safe text →
  next_line (tcp_line text ++ rest) finish = (rest, Ok (tcp_line text)).
Proof.
  intros (Hu & Hn & _). unfold next_line, tcp_line. rewrite <- app_assoc. cbn [app].
  rewrite split_bytes_app by done. by rewrite (utf8_app _ [newline] Hu).
Qed.

Definition end_message (finish : StreamEnd) : string :=
  match finish with Eof => "tcp connection closed" | Lost error => "tcp connection lost: " +:+ error end.

Lemma frames_of_wire finish texts : ∀ fuel, (length texts < fuel)%nat → Forall line_safe texts →
  frames_of fuel (wire texts) finish = Some (texts, end_message finish).
Proof.
  induction texts as [|text texts IH]; intros fuel Hf Ht; (destruct fuel as [|fuel]; [simpl in Hf; lia|]);
    [by destruct finish|].
  apply Forall_cons in Ht as [H Ht]. cbn [frames_of wire flat_map]. fold (wire texts). rewrite next_line_wire by done.
  destruct H as (Hu & Hn & Hc & Hb). assert (∃ x l, tcp_line text = x :: l) as (x & l & E).
  { unfold tcp_line. destruct (bytes text); by eexists _, _. }
  rewrite E. cbv beta iota. rewrite <- E, (IH fuel) by (done || simpl in Hf; lia). unfold tcp_line.
  rewrite trim_line_end_line, of_bytes_bytes by done. by rewrite Hb.
Qed.

Lemma length_wire texts : (length texts ≤ length (wire texts))%nat.
Proof.
  induction texts as [|text texts IH]; [done|]. cbn [wire flat_map]. fold (wire texts). unfold tcp_line.
  rewrite !length_app. simpl. lia.
Qed.

(** ** Lemmas: answers *)

Section Answers.
Context `{SerdeJson}.
Context (codes : FrameCodes) (on_changed : bool).

Lemma registered_app es1 es2 : registered (es1 ++ es2) = registered es1 ++ registered es2.
Proof. apply omap_app. Qed.

Lemma forgotten_app es1 es2 : forgotten (es1 ++ es2) = forgotten es1 ++ forgotten es2.
Proof. apply omap_app. Qed.

(** While a request waits, its first answer fills its inbox; without one it
    still waits. *)
Lemma waiting_answer es : ∀ p ids id i, waiting p ids → waiters p !! id = Some i →
  id ∉ registered es → id ∉ forgotten es → Forall (λ e, match e with EFailAll _ => False | _ => True end) es →
  match first_answer codes id es with
  | Some o => inboxes (pending_run codes on_changed es p) !! i = Some (Some o)
  | None => waiters (pending_run codes on_changed es p) !! id = Some i
  end.
Proof.
  induction es as [|e es IH]; intros p ids id i Hw Hi Hr Hf Hn; [done|].
  apply Forall_cons in Hn as [He Hn]. pose proof (event_waiting codes on_changed e p ids Hw) as Hw'.
  assert (registered (e :: es) = registered [e] ++ registered es) as E1 by apply (registered_app [e] es).
  assert (forgotten (e :: es) = forgotten [e] ++ forgotten es) as E2 by apply (forgotten_app [e] es).
  rewrite E1, not_elem_of_app in Hr. rewrite E2, not_elem_of_app in Hf. destruct Hr as [Hr1 Hr], Hf as [Hf1 Hf].
  assert (unrelated codes id e → first_answer codes id (e :: es) = first_answer codes id es →
    match first_answer codes id (e :: es) with
    | Some o => inboxes (pending_run codes on_changed (e :: es) p) !! i = Some (Some o)
    | None => waiters (pending_run codes on_changed (e :: es) p) !! id = Some i
    end) as Hskip.
  { intros Hu ->. cbn [pending_run fold_left]. apply (IH _ _ id i Hw'); [|done..].
    by eapply (event_unrelated _ _ e p ids). }
  destruct e as [r|r|text|f]; [| | |done].
  - apply Hskip; [|done]. cbn. set_solver.
  - apply Hskip; [|done]. cbn. set_solver.
  - destruct (frame_answer codes text) as [[r o]|] eqn:Ha.
    + destruct (decide (r = id)) as [->|Hne].
      * cbn [first_answer]. rewrite Ha, bool_decide_true by done.
        apply (run_inbox_stable codes on_changed es _ _ _ _ Hw'). cbn [pending_event].
        rewrite dispatch_complete, Ha. by eapply complete_inbox.
      * apply Hskip; [cbn; by rewrite Ha|]. cbn [first_answer]. by rewrite Ha, bool_decide_false.
    + apply Hskip; [cbn; by rewrite Ha|]. cbn [first_answer]. by rewrite Ha.
Qed.

(** A request registered before the connection fails has its first answer, or
    the failure. *)
Lemma answered_or_failed es0 id es f es' : id ∉ registered es0 → id ∉ registered es → id ∉ forgotten es →
  Forall (λ e, match e with EFailAll _ => False | _ => True end) es →
  inboxes (pending_run codes on_changed (es0 ++ ERegister id :: es ++ EFailAll f :: es') no_pending) !! length (registered es0)
  = Some (Some (default (Err f) (first_answer codes id es))).
Proof.
  intros H0 Hr Hf Hn. rewrite pending_run_app. pose proof (start_waiting codes on_changed es0) as Hw.
  set (p0 := pending_run codes on_changed es0 no_pending) in *. cbn [pending_run fold_left pending_event].
  change (fold_left _ ?l ?p) with (pending_run codes on_changed l p). rewrite pending_run_app.
  pose proof (event_waiting codes on_changed (ERegister id) p0 _ Hw) as Hw1. cbn [pending_event] in Hw1.
  set (p1 := (register id p0).1) in *.
  assert (waiters p1 !! id = Some (length (registered es0))) as Hi.
  { unfold p1, register. cbn. rewrite lookup_insert_eq. by destruct Hw as [-> _]. }
  pose proof (waiting_answer es p1 _ id _ Hw1 Hi Hr Hf Hn) as Ha.
  pose proof (run_waiting codes on_changed es p1 _ Hw1) as Hw2. set (p2 := pending_run codes on_changed es p1) in *.
  pose proof (event_waiting codes on_changed (EFailAll f) p2 _ Hw2) as Hw3.
  change (pending_run codes on_changed (EFailAll f :: es') p2) with (pending_run codes on_changed es' (pending_event codes on_changed (EFailAll f) p2)).
  apply (run_inbox_stable codes on_changed es' _ _ _ _ Hw3). cbn [pending_event].
  destruct (fail_all_spec f p2) as (Hin & Hout & _). destruct (first_answer codes id es) as [o|].
  - cbn [default]. rewrite Hout; [done|]. intros id' Hid'. destruct (proj2 Hw2 _ _ Hid') as [_ Hno]. congruence.
  - apply (Hin id); [done|]. by eapply waiting_lt.
Qed.
End Answers.

Lemma thread_ends codes es : connection_thread codes es →
  ∃ frames message, es = List.map EFrame frames ++ [EFailAll (retryable_failure (fc_closed codes) message)].
Proof.
  intros [s es' -> Hs|turns es' -> Ht].
  - unfold reader_run in Hs. destruct (reader_frames _ s) as [[frames message]|]; [|done]. simplify_eq. eauto.
  - unfold ws_run in Ht. destruct (ws_loop turns) as [[sent frames] [stop|]]; [|done]. simplify_eq. eauto.
Qed.

(** A trace is cut at its first failure. *)
Lemma first_failure es f : EFailAll f ∈ es →
  ∃ es1 f' es2, es = es1 ++ EFailAll f' :: es2 ∧ Forall (λ e, match e with EFailAll _ => False | _ => True end) es1.
Proof.
  induction es as [|e es IH]; [by intros ?%elem_of_nil|]. intros Hin.
  assert ((∃ g, e = EFailAll g) ∨ match e with EFailAll _ => False | _ => True end) as [[g ->]|He]
    by (destruct e; eauto).
  - by exists [], g, es.
  - apply elem_of_cons in Hin as [<-|Hin]; [done|]. destruct (IH Hin) as (es1 & f' & es2 & -> & Hn).
    exists (e :: es1), f', es2. split; [done|]. by apply Forall_cons_2.
Qed.

Lemma first_outcome_cut `{SerdeJson} codes id es1 f es2 :
  Forall (λ e, match e with EFailAll _ => False | _ => True end) es1 →
  first_outcome codes id (es1 ++ EFailAll f :: es2) = Some (default (Err f) (first_answer codes id es1)).
Proof.
  induction 1 as [|e es1 He _ IH]; [done|]. cbn [app first_outcome first_answer].
  destruct e; [done|done| |done]. destruct (frame_answer codes text) as [[r o]|]; [|done]. by destruct (r == id).
Qed.

(** ** Theorems *)

(** C19: framing over TCP.  The lines a peer writes for a list of frames, cut
    anywhere, are read back as those frames, in order, up to the end of the
    stream; and the reader comes to the end of every stream, with effects that
    depend on its bytes and not on the pieces they arrive in. *)
Theorem ndjson_roundtrip (texts : list string) (Hsafe : Forall line_safe texts) :
  (∀ s, stream_bytes s = wire texts →
     reader_run s = Some (List.map EFrame texts
                          ++ [EFailAll (retryable_failure (fc_closed TCP_CODES) (end_message (ends s)))])) ∧
  (∀ s, is_Some (reader_run s)) ∧
  (∀ s t, stream_bytes s = stream_bytes t → ends s = ends t → reader_run s = reader_run t).
Proof.
  split; [|split].
  - intros s Hs. unfold reader_run. rewrite reader_frames_of, Hs, frames_of_wire; [done| |done].
    pose proof (length_wire texts). lia.
  - intros s. unfold reader_run. rewrite reader_frames_of.
    destruct (frames_of_total (S (length (stream_bytes s))) (stream_bytes s) (ends s) ltac:(lia)) as [[? ?] ->].
    by eexists.
  - intros s t Hb He. unfold reader_run. by rewrite !reader_frames_of, Hb, He.
Qed.

Definition demo_stream : Stream :=
  {| buffered := bytes "{";
     arriving := [bytes "1}" ++ [newline]; bytes "{2"; bytes "}" ++ [newline]]; ends := Eof |}.

Lemma ndjson_roundtrip_witness :
  stream_bytes demo_stream = wire ["{1}"; "{2}"] ∧
  reader_run demo_stream =
    Some (List.map EFrame ["{1}"; "{2}"]
          ++ [EFailAll (retryable_failure (fc_closed TCP_CODES) "tcp connection closed")]).
Proof.
  assert (Forall line_safe ["{1}"; "{2}"]) as Hsafe.
  { assert (∀ a b : ascii, b ≠ carriage_return → ∀ k l : list ascii, k ++ [b] ≠ l ++ [carriage_return]) as N
      by (intros _ b Hb k l [_ E]%app_inj_tail; done).
    repeat (apply Forall_cons_2; [split; [vm_compute; reflexivity|split; [vm_compute; reflexivity|
      split; [apply (N "}"%char "}"%char ltac:(discriminate) (_ :: _ :: []))|vm_compute; reflexivity]]]|]).
    apply Forall_nil_2. }
  split; [vm_compute; reflexivity|].
  apply (proj1 (ndjson_roundtrip ["{1}"; "{2}"] Hsafe) demo_stream). vm_compute. reflexivity.
Defined.

(** C18: no request is left waiting when a connection ends.  The effects of a
    connection thread (the TCP reader or the WebSocket loop), from its start to
    its end, lie anywhere among those of other threads: requests, frames, and
    failures of all waiters by a disposal or by a write that failed.  A request
    that was registered before the thread came to its end, under an id of its
    own and still held by its caller, has an outcome: whichever came first after
    its registration, a response to it, or a failure of the connection, the last
    of which is the retryable one of the thread's own end. *)
Theorem connection_answers_all `{SerdeJson} (codes : FrameCodes) (on_changed : bool)
    (ran left before rest : list PendingEvent) (id : string)
    (Hthread : connection_thread codes (ran ++ left)) (Hleft : left ≠ [])
    (Hran : ran `sublist_of` before) (Hrest : left `sublist_of` rest)
    (Hfresh : id ∉ registered before ++ registered rest) (Hheld : id ∉ forgotten rest) :
  ∃ message outcome,
    EFailAll (retryable_failure (fc_closed codes) message) ∈ rest ∧
    first_outcome codes id rest = Some outcome ∧
    inboxes (pending_run codes on_changed (before ++ ERegister id :: rest) no_pending) !! length (registered before)
    = Some (Some outcome).
Proof.
  apply not_elem_of_app in Hfresh as [Hf1 Hf2].
  destruct (thread_ends _ _ Hthread) as (frames & message & E). exists message.
  set (f := retryable_failure (fc_closed codes) message) in *.
  assert (EFailAll f ∈ rest) as Hin.
  { destruct (exists_last Hleft) as (left' & e & ->). rewrite app_assoc in E.
    apply app_inj_tail in E as [_ ->]. eapply elem_of_sublist; [|exact Hrest].
    apply elem_of_app. right. by apply list_elem_of_singleton. }
  destruct (first_failure _ _ Hin) as (es1 & f' & es2 & -> & Hn). eexists. split; [exact Hin|].
  split; [by apply first_outcome_cut|].
  rewrite registered_app, not_elem_of_app in Hf2. rewrite forgotten_app, not_elem_of_app in Hheld.
  apply answered_or_failed; tauto.
Qed.

(** The frames a turn has queued and the one it reads. *)
Definition queued (turn : WsTurn) : list string := List.map fst (wt_outbound turn).
Definition arrived (turn : WsTurn) : list string := match wt_read turn with WsText text => [text] | _ => [] end.

(** A turn the loop goes on after. *)
Definition quiet (turn : WsTurn) : Prop :=
  wt_shutdown turn = false ∧ Forall (λ f, is_ok f.2 = true) (wt_outbound turn) ∧ wt_queue turn = QueueEmpty ∧
  match wt_read turn with WsText _ | WsOther | WsIdle => True | _ => False end.

Lemma flush_spec outbound queue : let '(sent, stop) := flush_outbound outbound queue in
  sent `prefix_of` List.map fst outbound ∧
  (stop = None ↔ Forall (λ f, is_ok f.2 = true) outbound ∧ queue = QueueEmpty) ∧
  (stop = None → sent = List.map fst outbound).
Proof.
  induction outbound as [|[text [u|error]] outbound IH]; cbn [flush_outbound].
  - destruct queue; (split; [done|]); split; naive_solver.
  - destruct (flush_outbound outbound queue) as [sent stop]. destruct IH as (Hp & Hs & He).
    split; [by apply prefix_cons|]. split.
    + rewrite Hs, Forall_cons. naive_solver.
    + intros E. cbn [List.map fst]. by rewrite He.
  - split; [apply prefix_nil|]. split; [|done]. rewrite Forall_cons. split; [done|]. by intros [[[=] _] _].
Qed.

(** The WebSocket loop keeps both directions in order: up to the turn that
    ends it, every queued frame is sent and every text message dispatched, in
    order; the last turn sends a prefix of its queue and dispatches nothing. *)
Theorem ws_thread_in_order (turns : list WsTurn) :
  let '(sent, frames, stop) := ws_loop turns in
  match stop with
  | None => Forall quiet turns ∧ sent = flat_map queued turns ∧ frames = flat_map arrived turns
  | Some _ => ∃ earlier last rest tail, turns = earlier ++ last :: rest ∧ Forall quiet earlier ∧ ¬ quiet last ∧
      tail `prefix_of` queued last ∧ sent = flat_map queued earlier ++ tail ∧ frames = flat_map arrived earlier
  end.
Proof.
  assert (∀ turn, match ws_turn turn with
    | (sent, frames, None) => quiet turn ∧ sent = queued turn ∧ frames = arrived turn
    | (sent, frames, Some _) => ¬ quiet turn ∧ sent `prefix_of` queued turn ∧ frames = []
    end) as Hturn.
  { intros turn. unfold ws_turn, quiet, queued, arrived.
    destruct (wt_shutdown turn); [split; [naive_solver|split; [apply prefix_nil|done]]|].
    pose proof (flush_spec (wt_outbound turn) (wt_queue turn)) as H.
    destruct (flush_outbound _ _) as [sent [stop|]]; destruct H as (Hp & Hs & He).
    - split; [|done]. intros (_ & H1 & H2 & _). by discriminate (proj2 Hs (conj H1 H2)).
    - destruct (proj1 Hs eq_refl) as [H1 H2]. destruct (wt_read turn); cbn [ws_read]; naive_solver. }
  induction turns as [|turn turns IH]; cbn [ws_loop]; [done|].
  specialize (Hturn turn). destruct (ws_turn turn) as [[sent frames] [stop|]].
  - destruct Hturn as (Hq & Hp & ->). exists [], turn, turns, sent. done.
  - destruct Hturn as (Hq & -> & ->). destruct (ws_loop turns) as [[sent frames] [stop|]].
    + destruct IH as (d & l & r & t & -> & H1 & H2 & H3 & -> & ->). exists (turn :: d), l, r, t.
      split; [done|]. split; [by apply Forall_cons_2|]. cbn [flat_map]. by rewrite app_assoc.
    + destruct IH as (H1 & -> & ->). split; [by apply Forall_cons_2|]. done.
Qed.

Definition demo_turns : list WsTurn :=
  [{| wt_shutdown := false; wt_outbound := [("{}", Ok ())]; wt_queue := QueueEmpty;
      wt_read := WsText (demo_answer "a-1") |};
   {| wt_shutdown := false; wt_outbound := []; wt_queue := QueueEmpty; wt_read := WsClose |}].

Definition demo_end : list PendingEvent := [EFailAll (retryable_failure "WS_CLOSED" "websocket closed by server")].
Definition demo_effects : list PendingEvent := EFrame (demo_answer "a-1") :: demo_end.

Definition demo_disposal : SyncTransportFailure := permanent_failure "WS_DISPOSED" "transport disposed".

#[local] Existing Instance reference_codec.

(** Three requests: the first is answered, the second is failed by a disposal
    that comes before the thread's end, the third by that end. *)
Lemma connection_answers_all_witness :
  (∃ outcome, outcome = Ok (envelope "push-result" "a-1" []) ∧
    inboxes (pending_run WS_CODES true ([] ++ ERegister "a-1" :: ERegister "a-2" :: demo_effects) no_pending) !! 0%nat
    = Some (Some outcome)) ∧
  (∃ outcome, outcome = Err demo_disposal ∧
    inboxes (pending_run WS_CODES true ([ERegister "a-1"] ++ ERegister "a-2" ::
      EFrame (demo_answer "a-1") :: EFailAll demo_disposal :: demo_end) no_pending) !! 1%nat
    = Some (Some outcome)) ∧
  ∃ outcome, outcome = Err (retryable_failure "WS_CLOSED" "websocket closed by server") ∧
    inboxes (pending_run WS_CODES true ([EFrame (demo_answer "a-1"); EFailAll demo_disposal] ++ ERegister "a-3" ::
      demo_end) no_pending) !! 0%nat
    = Some (Some outcome).
Proof.
  assert (connection_thread WS_CODES demo_effects) as Ht by (apply (ws_thread WS_CODES demo_turns); reflexivity).
  split; [|split].
  - destruct (connection_answers_all WS_CODES true [] demo_effects [] (ERegister "a-2" :: demo_effects) "a-1")
      as (message & outcome & _ & Ho & H); [exact Ht|discriminate|apply sublist_nil_l| | | |].
    + by apply sublist_cons.
    + vm_compute. set_solver.
    + vm_compute. set_solver.
    + exists outcome. split; [|exact H]. vm_compute in Ho. injection Ho as <-. vm_compute. reflexivity.
  - destruct (connection_answers_all WS_CODES true [] demo_effects [ERegister "a-1"]
        (EFrame (demo_answer "a-1") :: EFailAll demo_disposal :: demo_end) "a-2")
      as (message & outcome & _ & Ho & H); [exact Ht|discriminate|apply sublist_nil_l| | | |].
    + apply sublist_skip. by apply sublist_cons.
    + vm_compute. set_solver.
    + vm_compute. set_solver.
    + exists outcome. split; [|exact H]. vm_compute in Ho. injection Ho as <-. vm_compute. reflexivity.
  - destruct (connection_answers_all WS_CODES true [EFrame (demo_answer "a-1")] demo_end
        [EFrame (demo_answer "a-1"); EFailAll demo_disposal] demo_end "a-3")
      as (message & outcome & _ & Ho & H); [exact Ht|discriminate| | | | |].
    + apply sublist_skip, sublist_nil_l.
    + done.
    + vm_compute. set_solver.
    + vm_compute. set_solver.
    + exists outcome. split; [|exact H]. vm_compute in Ho. injection Ho as <-. vm_compute. reflexivity.
Defined.
