(* ===== verification/BundleId.v ===== *)
(** * BundleId: names of report bundles and of their publication state

    [tools/fmctl/src/report_publish.rs] and [report_publish_leased.rs] name the
    entries of a bundle root after the bundle: the final directory is the bundle
    id itself, and the reservation, the lease and the staging directory carry it
    behind a prefix.  [execution_report.rs] derives the id of an execution from
    what its report files say.

    This file models the id validator, the names and their parser, and the
    derived id.  Validation accepts exactly the ids of its documented grammar
    that Windows does not reserve; every derived id is accepted, whatever the
    operation is called; and the parser recovers the id from a staging name, so
    that cleanup correlates staging directories with the right lease. *)

From S2P Require Import Prelude Text Decimal.

(** ** Validation *)

Definition MAX_REPORT_BUNDLE_ID_BYTES : N := 128.

Inductive BundleIdError := InvalidBundleId | ReservedDeviceName.

#[export] Instance BundleIdError_eq_dec : EqDecision BundleIdError.
Proof. solve_decision. Defined.

Definition is_lower_ascii_alphanumeric (byte : ascii) : bool :=
  is_ascii_lowercase byte || is_ascii_digit byte.

Definition is_windows_device_basename (value : list ascii) : bool :=
  if eq_ignore_ascii_case value (bytes "con") || eq_ignore_ascii_case value (bytes "prn")
     || eq_ignore_ascii_case value (bytes "aux") || eq_ignore_ascii_case value (bytes "nul")
     || eq_ignore_ascii_case value (bytes "clock$")
  then true
  else
    match value with
    | [b0; b1; b2; b3] =>
        if negb (in_range 49 57 b3) then false
        else eq_ignore_ascii_case [b0; b1; b2] (bytes "com")
             || eq_ignore_ascii_case [b0; b1; b2] (bytes "lpt")
    | _ => false
    end.

Definition bundle_id_byte (byte : ascii) : bool :=
  is_lower_ascii_alphanumeric byte || is_byte "-" byte || is_byte "_" byte.

Definition validate_report_bundle_id (bundle_id : list ascii) : result unit BundleIdError :=
  match bundle_id, last bundle_id with
  | first :: _, Some last =>
      if MAX_REPORT_BUNDLE_ID_BYTES <? N.of_nat (length bundle_id) then Err InvalidBundleId
      else if is_windows_device_basename (before (is_byte ".") bundle_id) then Err ReservedDeviceName
      else if negb (is_lower_ascii_alphanumeric first) || negb (is_lower_ascii_alphanumeric last)
              || negb (forallb bundle_id_byte bundle_id)
      then Err InvalidBundleId
      else Ok ()
  | _, _ => Err InvalidBundleId
  end.

(** ** Names in a bundle root *)

Definition LEASE_PREFIX : string := ".fm-report-lease-".
Definition RESERVATION_PREFIX : string := ".fm-report-reservation-".
Definition STAGING_PREFIX : string := ".fm-report-staging-".

(** The name [StagingDirectory::create] gives. *)
Definition staging_name (bundle_id : list ascii) (process_id sequence : N) : list ascii :=
  bytes STAGING_PREFIX ++ bundle_id ++ "-"%char :: bytes (to_dec process_id) ++ "-"%char :: bytes (to_dec sequence).

Definition staging_bundle_id (name : list ascii) : option (list ascii) :=
  match strip_prefix (bytes STAGING_PREFIX) name with
  | None => None
  | Some value =>
      match rsplit_bytes "-" value with
      | None => None
      | Some (value, sequence) =>
          match parse_u64 (of_bytes sequence), rsplit_bytes "-" value with
          | Some _, Some (bundle_id, process_id) =>
              match parse_u32 (of_bytes process_id), validate_report_bundle_id bundle_id with
              | Some _, Ok _ => Some bundle_id
              | _, _ => None
              end
          | _, _ => None
          end
      end
  end.

(** ** The id of an execution *)

(** The loop over the operation's bytes, which stops at 48. *)
Fixpoint operation_bytes (value operation : list ascii) : list ascii :=
  match operation with
  | [] => value
  | byte :: operation =>
      let byte := to_ascii_lowercase_byte byte in
      let value :=
        if is_ascii_alphanumeric byte then value ++ [byte]
        else
          match last value with
          | Some last => if negb (is_byte "-" last) then value ++ ["-"%char] else value
          | None => value
          end in
      if 48 <=? N.of_nat (length value) then value else operation_bytes value operation
  end.

Definition operation_component (operation : list ascii) : list ascii :=
  match rev (trim_start (is_byte "-") (rev (operation_bytes [] operation))) with
  | [] => bytes "operation"
  | value => value
  end.

(** [{byte:02x}] *)
Definition hex_byte (byte : ascii) : list ascii := fixed_digits 16 hex_char 2 (byte_val byte) [].

(** [u64::to_be_bytes] *)
Definition be_bytes (n : N) : list ascii := fixed_digits 256 ascii_of_N 8 n [].

(** What the digest is fed: each payload behind its length. *)
Definition framed (payloads : list (list ascii)) : list ascii :=
  flat_map (λ payload, be_bytes (N.min u64_max (N.of_nat (length payload))) ++ payload) payloads.

Section Derived.
(** The SHA-256 of the [sha2] crate. *)
Context (sha256 : list ascii → list ascii).

(** The payloads are the five report files of the execution, in order. *)
Definition deterministic_bundle_id (operation : list ascii) (payloads : list (list ascii)) : list ascii :=
  operation_component operation ++ "-"%char :: flat_map hex_byte (sha256 (framed payloads)).
End Derived.

(** ** Specification *)

(** The names Windows reserves, of those in lower case and without a dot. *)
Definition reserved (l : list ascii) : Prop :=
  l ∈ List.map bytes ["con"; "prn"; "aux"; "nul"] ∨
  ∃ d, 1 ≤ d ≤ 9 ∧ (l = bytes "com" ++ [digit_char d] ∨ l = bytes "lpt" ++ [digit_char d]).

(** One portable path component: lower-case letters and digits at both ends,
    also [-] and [_] between them. *)
Definition portable (l : list ascii) : Prop :=
  ∃ first middle, is_lower_ascii_alphanumeric first = true ∧
    (l = [first] ∧ middle = [] ∨
     ∃ last, is_lower_ascii_alphanumeric last = true ∧ l = first :: middle ++ [last]) ∧
    forallb bundle_id_byte middle = true.

Definition canonical_bundle_id (l : list ascii) : Prop :=
  (length l ≤ 128)%nat ∧ portable l ∧ ¬ reserved l.

(** ** Lemmas: validation *)

Lemma alphanumeric_bundle_byte b : is_lower_ascii_alphanumeric b = true → bundle_id_byte b = true.
Proof. unfold bundle_id_byte. by intros ->. Qed.

Lemma bundle_byte_val b : bundle_id_byte b = true →
  97 ≤ byte_val b ≤ 122 ∨ 48 ≤ byte_val b ≤ 57 ∨ byte_val b = 45 ∨ byte_val b = 95.
Proof.
  unfold bundle_id_byte, is_lower_ascii_alphanumeric, is_ascii_lowercase, is_ascii_digit.
  rewrite !orb_true_iff, !in_range_spec, !is_byte_spec.
  intros [[[H|H]|H]|H]; [lia|lia|subst..]; vm_compute; tauto.
Qed.

Lemma bundle_byte_not c b : bundle_id_byte c = false → bundle_id_byte b = true → is_byte c b = false.
Proof. intros Hc Hb. apply not_true_iff_false. intros ->%is_byte_spec. congruence. Qed.

Lemma portable_bytes l : portable l ↔
  ∃ first lst, head l = Some first ∧ last l = Some lst ∧ is_lower_ascii_alphanumeric first = true ∧
    is_lower_ascii_alphanumeric lst = true ∧ forallb bundle_id_byte l = true.
Proof.
  split.
  - intros (a & m & Ha & [[-> ->]|(z & Hz & ->)] & Hm).
    + exists a, a. simpl. by rewrite alphanumeric_bundle_byte.
    + exists a, z. split; [done|]. split; [exact (last_snoc z (a :: m))|]. split; [done|]. split; [done|].
      cbn [forallb]. rewrite forallb_app, Hm. cbn [forallb]. by rewrite !alphanumeric_bundle_byte.
  - intros (a & z & Hh & Hl & Ha & Hz & Hb). destruct l as [|a' l]; [done|]. injection Hh as ->.
    destruct l as [|z' l] using rev_ind; [by exists a, []; auto|].
    pose proof (last_snoc z' (a :: l)) as Hl'. cbn [app] in Hl'. rewrite Hl' in Hl. injection Hl as ->. exists a, l. split; [done|].
    cbn [forallb] in Hb. rewrite forallb_app in Hb. split; [right; eauto|]. bsimp. tauto.
Qed.

(** On bytes of the grammar case folding and the cut at a dot do nothing. *)
Lemma bundle_lowercase l : forallb bundle_id_byte l = true → to_ascii_lowercase l = l.
Proof.
  intros Hl. apply lowercase_id. rewrite forallb_Forall in *. eapply Forall_impl; [exact Hl|].
  intros b Hb%bundle_byte_val. apply negb_true_iff, not_true_iff_false.
  unfold is_ascii_uppercase. rewrite in_range_spec. lia.
Qed.

Lemma bundle_no_dot l : forallb bundle_id_byte l = true → before (is_byte ".") l = l.
Proof.
  intros Hl. apply before_none. eapply existsb_false_impl; [exact Hl|].
  intros b. by apply bundle_byte_not.
Qed.

Lemma bundle_eq_ignore l w : forallb bundle_id_byte l = true → to_ascii_lowercase w = w →
  eq_ignore_ascii_case l w = true ↔ l = w.
Proof.
  intros Hl Hw. unfold eq_ignore_ascii_case. rewrite bool_decide_eq_true. by rewrite bundle_lowercase, Hw.
Qed.

Lemma digit_1_9 b : in_range 49 57 b = true ↔ ∃ d, 1 ≤ d ≤ 9 ∧ b = digit_char d.
Proof.
  rewrite in_range_spec. split.
  - intros H. exists (byte_val b - 48). split; [lia|]. apply byte_val_inj. rewrite byte_val_digit_char by lia. lia.
  - intros (d & Hd & ->). rewrite byte_val_digit_char by lia. lia.
Qed.

Lemma windows_device_reserved l : forallb bundle_id_byte l = true →
  is_windows_device_basename l = true ↔ reserved l.
Proof.
  intros Hl. unfold is_windows_device_basename, reserved.
  assert (eq_ignore_ascii_case l (bytes "clock$") = false) as ->.
  { apply not_true_iff_false. rewrite bundle_eq_ignore by done. by intros ->. }
  match goal with |- context [if ?c then _ else _] => assert (c = true ↔ l ∈ List.map bytes ["con"; "prn"; "aux"; "nul"]) as Hc end.
  { rewrite orb_false_r, !orb_true_iff, !bundle_eq_ignore by done. cbn [List.map]. rewrite !elem_of_cons, elem_of_nil. tauto. }
  match goal with |- context [if ?c then _ else _] => destruct c end; [split; [intros _; left; by apply Hc|done]|].
  transitivity (∃ d, 1 ≤ d ≤ 9 ∧ (l = bytes "com" ++ [digit_char d] ∨ l = bytes "lpt" ++ [digit_char d])).
  2: { split; [by right|intros [H|H]; [|done]]. by apply Hc in H. }
  destruct l as [|b0 [|b1 [|b2 [|b3 [|? ?]]]]];
    try (split; [done|intros (? & _ & [?|?]); done]).
  change (b0 :: b1 :: b2 :: [b3]) with ([b0; b1; b2] ++ [b3]) in Hl. rewrite forallb_app in Hl.
  apply andb_true_iff in Hl as [Hl _].
  destruct (in_range 49 57 b3) eqn:E; cbn [negb].
  - apply digit_1_9 in E as (d & Hd & ->). rewrite orb_true_iff, !bundle_eq_ignore by done.
    split; [intros [[= -> -> ->]|[= -> -> ->]]; eauto|].
    intros (d' & _ & [[= -> -> -> _]|[= -> -> -> _]]); auto.
  - split; [done|]. intros (d & Hd & H). exfalso. apply not_true_iff_false in E. apply E, digit_1_9.
    exists d. split; [done|]. destruct H as [[= _ _ _ ?]|[= _ _ _ ?]]; done.
Qed.

Lemma validate_ok l : validate_report_bundle_id l = Ok () ↔
  (length l ≤ 128)%nat ∧ portable l ∧ ¬ reserved l.
Proof.
  rewrite portable_bytes. unfold validate_report_bundle_id, MAX_REPORT_BUNDLE_ID_BYTES.
  destruct l as [|a l]; [split; [done|intros (_ & (? & ? & ? & _) & _); done]|].
  destruct (last (a :: l)) as [z|] eqn:Hz; [|by apply last_None in Hz].
  destruct (forallb bundle_id_byte (a :: l)) eqn:Hb.
  2: { rewrite !orb_true_r. split; [crack|naive_solver]. }
  rewrite bundle_no_dot by done. pose proof (windows_device_reserved _ Hb) as Hr.
  destruct (is_windows_device_basename (a :: l)); [split; [crack|tauto]|].
  rewrite orb_false_r. cbn [head].
  destruct (N.ltb_spec 128 (N.of_nat (length (a :: l)))); [split; [done|lia]|].
  destruct (is_lower_ascii_alphanumeric a) eqn:Ea; [|split; [done|naive_solver congruence]].
  destruct (is_lower_ascii_alphanumeric z) eqn:Ez; [|split; [done|naive_solver congruence]].
  split; [|done]. intros _. split; [lia|]. split; [exists a, z; done|]. intros H'%Hr. done.
Qed.

(** ** Lemmas: names *)

Lemma staging_name_bundle_id l pid seq : validate_report_bundle_id l = Ok () →
  pid ≤ u32_max → seq ≤ u64_max → staging_bundle_id (staging_name l pid seq) = Some l.
Proof.
  intros Hl Hp Hs. unfold staging_bundle_id, staging_name. rewrite strip_prefix_app.
  replace (l ++ "-"%char :: bytes (to_dec pid) ++ "-"%char :: bytes (to_dec seq))
    with ((l ++ "-"%char :: bytes (to_dec pid)) ++ "-"%char :: bytes (to_dec seq)) by (by rewrite <- app_assoc).
  rewrite rsplit_bytes_app by by apply dec_not. rewrite of_bytes_bytes, parse_u64_to_dec by done.
  rewrite rsplit_bytes_app by by apply dec_not. by rewrite of_bytes_bytes, parse_u32_to_dec, Hl.
Qed.

(** ** Lemmas: derived ids *)

Lemma lower_alphanumeric b : is_ascii_alphanumeric (to_ascii_lowercase_byte b) = true →
  is_lower_ascii_alphanumeric (to_ascii_lowercase_byte b) = true.
Proof.
  unfold is_ascii_alphanumeric, is_ascii_alphabetic, is_lower_ascii_alphanumeric, to_ascii_lowercase_byte.
  unfold is_ascii_uppercase, is_ascii_lowercase, is_ascii_digit. destruct (in_range 65 90 b) eqn:E.
  - apply in_range_spec in E. intros _. apply orb_true_iff. left. apply in_range_spec. rewrite byte_val_ascii by lia. lia.
  - rewrite E. done.
Qed.

(** What the loop over the operation keeps: a non-empty value starts with a
    letter or a digit and has bytes of the grammar, at most 48 of them. *)
Definition component_value (value : list ascii) : Prop :=
  forallb bundle_id_byte value = true ∧ (length value ≤ 48)%nat ∧
  (∀ first, head value = Some first → is_lower_ascii_alphanumeric first = true).

Lemma component_snoc value b : component_value value → (length value < 48)%nat →
  bundle_id_byte b = true → (value = [] → is_lower_ascii_alphanumeric b = true) →
  component_value (value ++ [b]).
Proof.
  intros (Hb & _ & Hh) Hl Hbb Hn. split; [|split].
  - rewrite forallb_app, Hb. cbn [forallb]. by rewrite Hbb.
  - rewrite length_app. simpl. lia.
  - destruct value as [|a value]; simpl in *; [intros f [= <-]; auto|auto].
Qed.

Lemma operation_bytes_spec operation : ∀ value, component_value value → (length value < 48)%nat →
  component_value (operation_bytes value operation).
Proof.
  induction operation as [|b operation IH]; intros value Hv Hl; [done|]. cbn [operation_bytes].
  set (b' := to_ascii_lowercase_byte b).
  set (value' := if is_ascii_alphanumeric b' then _ else _).
  assert (component_value value') as Hv'.
  { unfold value'. destruct (is_ascii_alphanumeric b') eqn:Eb.
    - apply lower_alphanumeric in Eb. apply component_snoc; auto using alphanumeric_bundle_byte.
    - destruct (last value) as [z|] eqn:Hz; [|done]. destruct (negb (is_byte "-" z)); [|done].
      apply component_snoc; try done. intros ->. done. }
  destruct (N.leb_spec 48 (N.of_nat (length value'))); [done|]. apply IH; [done|lia].
Qed.

Lemma operation_component_value operation :
  component_value (operation_component operation) ∧ operation_component operation ≠ [].
Proof.
  assert (component_value (operation_bytes [] operation)) as H.
  { apply operation_bytes_spec; [|simpl; lia]. split; [done|]. split; [simpl; lia|done]. }
  unfold operation_component. revert H. generalize (operation_bytes [] operation) as v. intros v H.
  assert (∃ k, v = rev (trim_start (is_byte "-") (rev v)) ++ k) as (k & Hk).
  { assert (∀ l, ∃ k, l = k ++ trim_start (is_byte "-") l) as Ht.
    { induction l as [|a l [k IH]]; [by exists []|]. simpl. destruct (is_byte "-" a); [|by exists []].
      exists (a :: k). simpl. by rewrite <- IH. }
    destruct (Ht (rev v)) as (k & Hk). exists (rev k). by rewrite <- rev_app_distr, <- Hk, rev_involutive. }
  destruct (rev (trim_start (is_byte "-") (rev v))) as [|a l]; [|split; [|done]].
  { split; [|done]. split; [done|]. split; [simpl; lia|]. by intros f [= <-]. }
  rewrite Hk in H. destruct H as (Hb & Hl & Hh). rewrite forallb_app in Hb. rewrite length_app in Hl.
  apply andb_true_iff in Hb as [Hb _]. split; [done|]. split; [lia|]. intros f [= <-]. by apply Hh.
Qed.

Lemma hex_byte_spec b : length (hex_byte b) = 2%nat ∧ forallb is_lower_hex (hex_byte b) = true ∧
  from_radix 16 hex_val (hex_byte b) = byte_val b.
Proof.
  unfold hex_byte. pose proof (byte_val_lt b).
  destruct (fixed_digits_spec 16 hex_val is_lower_hex hex_char ltac:(lia) hex_char_spec 2 (byte_val b) [])
    as (ds & -> & ? & ? & ?); [simpl; lia|]. by rewrite app_nil_r.
Qed.

Lemma lower_hex_alphanumeric b : is_lower_hex b = true → is_lower_ascii_alphanumeric b = true.
Proof.
  unfold is_lower_hex, is_lower_ascii_alphanumeric, is_ascii_lowercase, is_ascii_digit.
  rewrite !orb_true_iff, !in_range_spec. lia.
Qed.

Lemma hex_bytes_alphanumeric l : forallb is_lower_ascii_alphanumeric (flat_map hex_byte l) = true.
Proof.
  induction l as [|b l IH]; [done|]. cbn [flat_map]. rewrite forallb_app, IH, andb_true_r.
  destruct (hex_byte_spec b) as (_ & H & _). rewrite forallb_Forall in *.
  eapply Forall_impl; [exact H|]. intros x. apply lower_hex_alphanumeric.
Qed.

Lemma hex_bytes_length l : length (flat_map hex_byte l) = (2 * length l)%nat.
Proof.
  induction l as [|b l IH]; [done|]. cbn [flat_map]. rewrite length_app, IH.
  destruct (hex_byte_spec b) as [-> _]. simpl. lia.
Qed.

Lemma reserved_short l : reserved l → (length l ≤ 4)%nat.
Proof.
  intros [H|(d & _ & [->| ->])]; [|done..].
  cbn [List.map] in H. rewrite !elem_of_cons, elem_of_nil in H. destruct_or?; subst; simpl; lia || done.
Qed.

(** Length-prefixed framing is unambiguous. *)
Lemma be_bytes_spec n : n ≤ u64_max → length (be_bytes n) = 8%nat ∧ from_radix 256 byte_val (be_bytes n) = n.
Proof.
  intros Hn. unfold be_bytes. destruct (fixed_digits_spec 256 byte_val (λ _, true) ascii_of_N ltac:(lia)
    (λ d Hd, conj eq_refl (byte_val_ascii d Hd)) 8 n []) as (ds & -> & ? & _ & ?); [|by rewrite app_nil_r].
  unfold u64_max in Hn. change (256 ^ N.of_nat 8) with 18446744073709551616. lia.
Qed.

Lemma framed_inj ps qs : Forall (λ p, N.of_nat (length p) ≤ u64_max) ps →
  Forall (λ p, N.of_nat (length p) ≤ u64_max) qs → framed ps = framed qs → ps = qs.
Proof.
  intros Hps. revert qs. induction Hps as [|p ps Hp Hps IH]; intros qs Hqs E.
  - destruct qs as [|q qs]; [done|]. apply Forall_cons in Hqs as [Hq _].
    apply (f_equal length) in E. cbn [framed flat_map] in E. rewrite !length_app in E.
    destruct (be_bytes_spec (N.min u64_max (N.of_nat (length q)))) as [Hl _]; [lia|]. simpl in E. lia.
  - destruct Hqs as [|q qs Hq Hqs].
    + apply (f_equal length) in E. cbn [framed flat_map] in E. rewrite !length_app in E.
      destruct (be_bytes_spec (N.min u64_max (N.of_nat (length p)))) as [Hl _]; [lia|]. simpl in E. lia.
    + cbn [framed flat_map] in E. rewrite <- !app_assoc, !N.min_r in E by done.
      destruct (be_bytes_spec _ Hp) as [Hlp Hvp], (be_bytes_spec _ Hq) as [Hlq Hvq].
      apply app_inj_1 in E as [En E]; [|congruence]. rewrite En, Hvq in Hvp.
      apply app_inj_1 in E as [-> E]; [|lia]. f_equal. by apply IH.
Qed.

Lemma hex_bytes_inj l k : length l = length k → flat_map hex_byte l = flat_map hex_byte k → l = k.
Proof.
  revert k. induction l as [|a l IH]; intros [|b k] Hl E; try done. cbn [flat_map] in E.
  destruct (hex_byte_spec a) as (Ha & _ & Va), (hex_byte_spec b) as (Hb & _ & Vb).
  apply app_inj_1 in E as [E1 E2]; [|congruence]. rewrite E1, Vb in Va. apply byte_val_inj in Va as ->.
  f_equal. apply IH; [|done]. simpl in Hl. lia.
Qed.

(** ** Properties *)

(** The validator accepts exactly the ids of the documented grammar: one to
    128 lower-case letters, digits, [-] and [_], a letter or digit at both
    ends, none of the names Windows reserves.  Hence an accepted id is a plain
    file name, never hidden and never a path. *)
Theorem bundle_id_grammar (bundle_id : list ascii) :
  validate_report_bundle_id bundle_id = Ok () ↔ canonical_bundle_id bundle_id.
Proof. apply validate_ok. Qed.

(** Whatever an operation is called and its report files say, the id
    derived for its execution is one the publisher accepts; and, as far as
    SHA-256 is injective on their framing, executions of which any report file
    differs get different ids. *)
Theorem derived_bundle_id (sha256 : list ascii → list ascii)
  (digest_size : ∀ l, length (sha256 l) = 32%nat) (operation : list ascii) (payloads : list (list ascii)) :
  validate_report_bundle_id (deterministic_bundle_id sha256 operation payloads) = Ok () ∧
  ∀ payloads',
    Forall (λ p, N.of_nat (length p) ≤ u64_max) payloads → Forall (λ p, N.of_nat (length p) ≤ u64_max) payloads' →
    (sha256 (framed payloads) = sha256 (framed payloads') → framed payloads = framed payloads') →
    deterministic_bundle_id sha256 operation payloads = deterministic_bundle_id sha256 operation payloads' →
    payloads = payloads'.
Proof.
  unfold deterministic_bundle_id. destruct (operation_component_value operation) as [(Hb & Hl & Hh) Hne].
  destruct (operation_component operation) as [|a component] eqn:Ec; [done|]. rewrite <- Ec in *. split.
  - apply validate_ok. pose proof (hex_bytes_alphanumeric (sha256 (framed payloads))) as Hx.
    pose proof (hex_bytes_length (sha256 (framed payloads))) as Hn. rewrite digest_size in Hn.
    split; [rewrite length_app; simpl; lia|]. split; [|intros H%reserved_short; rewrite length_app in H; simpl in H; lia].
    destruct (flat_map hex_byte (sha256 (framed payloads))) as [|z hex] using rev_ind; [done|].
    rewrite forallb_app in Hx. cbn [forallb] in Hx. rewrite andb_true_r in Hx. apply andb_true_iff in Hx as [Hx Hz].
    apply portable_bytes. exists a, z. split; [by rewrite Ec|]. split.
    { change ("-"%char :: hex ++ [z]) with (("-"%char :: hex) ++ [z]). by rewrite app_assoc, last_snoc. }
    split; [apply Hh; by rewrite Ec|]. split; [done|]. rewrite forallb_app, Hb. cbn [forallb]. rewrite forallb_app.
    cbn [forallb]. rewrite (alphanumeric_bundle_byte z) by done. rewrite !andb_true_r. cbn [andb].
    apply andb_true_iff. split; [done|]. rewrite forallb_Forall in *. eapply Forall_impl; [exact Hx|].
    apply alphanumeric_bundle_byte.
  - intros payloads' Hp Hp' Hinj E. apply app_inj_1 in E as [_ E]; [|done]. injection E as E.
    apply hex_bytes_inj in E; [|by rewrite !digest_size]. by apply framed_inj, Hinj.
Qed.

Definition toy_digest (l : list ascii) : list ascii := take 32 (l ++ replicate 32 zero).

Lemma toy_digest_size l : length (toy_digest l) = 32%nat.
Proof. unfold toy_digest. rewrite length_take, length_app, length_replicate. lia. Qed.

Lemma derived_bundle_id_witness :
  let operation := bytes "-- Verify: TLC --" in
  operation_component operation = bytes "verify-tlc" ∧
  validate_report_bundle_id (deterministic_bundle_id toy_digest operation [bytes "{}"; []]) = Ok () ∧
  deterministic_bundle_id toy_digest operation [bytes "{}"; []]
    ≠ deterministic_bundle_id toy_digest operation [bytes "{"; bytes "}"].
Proof.
  destruct (derived_bundle_id toy_digest toy_digest_size (bytes "-- Verify: TLC --") [bytes "{}"; []]) as [Hok Hinj].
  split; [reflexivity|]. split; [exact Hok|]. intros E.
  assert ([bytes "{}"; []] = [bytes "{"; bytes "}"]) as F; [|discriminate F].
  apply Hinj; [repeat constructor; vm_compute; discriminate..| |exact E].
  intros F. vm_compute in F. discriminate F.
Defined.

Example bundle_id_examples :
  List.map (λ s, validate_report_bundle_id (bytes s)) ["a"; "check_7f20"; "con"; "con.json"; "com0"; "LPT9"; "verify-"; ""] =
  [Ok (); Ok (); Err ReservedDeviceName; Err ReservedDeviceName; Ok (); Err ReservedDeviceName;
   Err InvalidBundleId; Err InvalidBundleId].
Proof. reflexivity. Qed.
