(* ===== verification/Publication.v ===== *)
(** * Publication: report bundles under file locks

    [tools/fmctl/src/report_publish.rs] writes the five files of a report bundle
    into a staging directory and renames it to the bundle id;
    [report_publish_leased.rs] wraps this in a lease per bundle id, an OS lock on
    a file, and cleans up what dead publishers left.  Publishers and cleaners
    are processes that share nothing but the bundle root, so the model is a
    transition system: a root directory, processes with program counters, and
    one transition per system call, in any order.  Any call may fail and any
    process may die between two calls; a lock is held by exactly the processes
    whose program counters say so, which is how the kernel releases it.

    Directories and lock files have identities of their own: [remove_dir_all]
    keeps the directory it opened while its name may be rebound, and a lock is
    on the file opened, not on its path.

    The invariant is stratified: what holds in every run, and what holds in the
    runs where a lease is only ever taken on the file that is at its path and
    stays there ([orderly]).  [BundleLease::drop] unlocks before it removes the
    path and without the root guard, so not every run is orderly. *)

From S2P Require Import Prelude Text Decimal BundleId.

Abbreviation bundle := (list ascii).

(** ** The bundle root *)

(** A report file is created empty and then written. *)
Inductive Content := Partial | Written.

#[export] Instance Content_eq_dec : EqDecision Content.
Proof. solve_decision. Defined.

Abbreviation Files := (gmap string Content).

Record Root := {
  leases : gmap bundle N;        (** the file at a bundle's lease path *)
  reservations : gset bundle;
  stagings : gmap bundle N;      (** staging directories by name *)
  finals : gmap bundle N;        (** bundle directories by id *)
  dirs : gmap N Files;       (** what the directories hold *)
  next : N                   (** files and directories are numbered from here *)
}.

Definition set_leases f r := {| leases := f (leases r); reservations := reservations r; stagings := stagings r;
  finals := finals r; dirs := dirs r; next := next r |}.
Definition set_reservations f r := {| leases := leases r; reservations := f (reservations r); stagings := stagings r;
  finals := finals r; dirs := dirs r; next := next r |}.
Definition set_stagings f r := {| leases := leases r; reservations := reservations r; stagings := f (stagings r);
  finals := finals r; dirs := dirs r; next := next r |}.
Definition set_finals f r := {| leases := leases r; reservations := reservations r; stagings := stagings r;
  finals := f (finals r); dirs := dirs r; next := next r |}.
Definition set_dirs f r := {| leases := leases r; reservations := reservations r; stagings := stagings r;
  finals := finals r; dirs := f (dirs r); next := next r |}.
Definition set_next n r := {| leases := leases r; reservations := reservations r; stagings := stagings r;
  finals := finals r; dirs := dirs r; next := n |}.

(** The report files, in the order they are written. *)
Definition REPORT_FILES : list string :=
  ["result.json"; "junit.xml"; "sarif.json"; "artifacts.json"; "provenance.json"].

Definition report_file (k : nat) : string := nth k REPORT_FILES "".

(** ** System calls *)

(** Opening a lease path, which creates a missing file. *)
Definition open_private_lock_file (b : bundle) (r : Root) : Root * N :=
  match leases r !! b with
  | Some file => (r, file)
  | None => (set_leases (insert b (next r)) (set_next (next r + 1) r), next r)
  end.

(** [create_new] on the reservation path. *)
Definition create_reservation (b : bundle) (r : Root) : option Root :=
  if bool_decide (b ∈ reservations r) then None else Some (set_reservations (union {[b]}) r).

Definition remove_reservation (b : bundle) (r : Root) : Root := set_reservations (λ s, s ∖ {[b]}) r.

Definition remove_lease (b : bundle) (r : Root) : Root := set_leases (delete b) r.

(** [mkdir] of a staging directory. *)
Definition create_private_directory (name : bundle) (r : Root) : option Root :=
  match stagings r !! name with
  | Some _ => None
  | None => Some (set_stagings (insert name (next r)) (set_dirs (insert (next r) ∅) (set_next (next r + 1) r)))
  end.

(** [create_new] of a file in a staging directory: the directory is found by its
    name, and the open file stays in it. *)
Definition create_report_file (name : bundle) (file : string) (r : Root) : option (Root * N) :=
  match stagings r !! name with
  | Some d =>
      match dirs r !! d with
      | Some files =>
          match files !! file with
          | None => Some (set_dirs (insert d (<[file := Partial]> files)) r, d)
          | Some _ => None
          end
      | None => None
      end
  | None => None
  end.

(** Writing through the handle: a file that was unlinked meanwhile is lost. *)
Definition write_report_bytes (d : N) (file : string) (r : Root) : Root :=
  set_dirs (alter (alter (λ _, Written) file) d) r.

Definition unlink (d : N) (file : string) (r : Root) : option Root :=
  match dirs r !! d with
  | Some files =>
      match files !! file with
      | Some _ => Some (set_dirs (insert d (delete file files)) r)
      | None => None
      end
  | None => None
  end.

Definition is_empty_dir (d : N) (r : Root) : bool :=
  match dirs r !! d with Some files => bool_decide (files = ∅) | None => true end.

(** [rename] of a directory replaces an empty one. *)
Definition rename (name b : bundle) (r : Root) : option Root :=
  match stagings r !! name with
  | Some d =>
      if match finals r !! b with Some e => is_empty_dir e r | None => true end
      then Some (set_stagings (delete name) (set_finals (insert b d) r))
      else None
  | None => None
  end.

Inductive Rmdir := Removed (r : Root) | Missing | NotEmpty.

Definition rmdir (name : bundle) (r : Root) : Rmdir :=
  match stagings r !! name with
  | Some d => if is_empty_dir d r then Removed (set_stagings (delete name) r) else NotEmpty
  | None => Missing
  end.

(** [reject_existing_or_symlink] on the final directory. *)
Definition exists_final (b : bundle) (r : Root) : bool := is_some (finals r !! b).

(** ** Processes *)

Inductive Refusal := InvalidId | ActivelyPublishing | AlreadyExists | AlreadyReserved | IoError.

Inductive Outcome := Published | Refused (e : Refusal).

(** Where a publisher is inside [report_publish.rs], behind its lease.  The
    [Drop] steps are the destructors that run when an error is returned. *)
Inductive Act :=
| Check1
| Reserve
| Reserving                    (** the reservation file exists, its guard does not yet *)
| Check2
| Stage
| Create (k : nat)             (** the first [k] files are written *)
| Write (k : nat) (d : N)
| Sync
| Check3
| Rename
| SyncRoot                     (** renamed, both guards committed *)
| DropStaging (e : Refusal)
| DroppingStaging (e : Refusal) (d : N)
| DropReservation (e : Refusal).

Inductive PublisherPc :=
| Start
| Guarded                      (** the root guard is held *)
| Opened (file : N)
| Leased (file : N)
| Running (file : N) (a : Act) (** the root guard is released *)
| Returning (file : N) (o : Outcome)
| Unlocked (o : Outcome)       (** [BundleLease::drop], between unlocking and removing *)
| Returned (o : Outcome).

(** An entry cleanup has found old enough. *)
Inductive Entry :=
| StagingEntry (name : bundle)
| ReservationEntry (b : bundle)
| LeaseEntry (b : bundle).

Record CleanupReport := { staging_directories_removed : N; reservations_removed : N }.

Inductive CleanerPc :=
| CStart
| Scan (r : CleanupReport)                            (** the root guard is held *)
| Probe (r : CleanupReport) (b : bundle) (e : Entry)
| ProbeOpened (r : CleanupReport) (b : bundle) (e : Entry) (file : N)
| Probed (r : CleanupReport) (b : bundle) (e : Entry) (file : N)  (** the probe got the lock *)
| Remove (r : CleanupReport) (e : Entry)
| Removing (r : CleanupReport) (name : bundle) (d : N)
| Cleaned (o : option CleanupReport).

Inductive Process :=
| Publisher (b : bundle) (process_id sequence : N) (pc : PublisherPc)
| Cleaner (pc : CleanerPc).

(** The locks a process holds. *)
Definition holds_guard (x : Process) : bool :=
  match x with
  | Publisher _ _ _ (Guarded | Opened _ | Leased _) => true
  | Publisher _ _ _ _ => false
  | Cleaner (CStart | Cleaned _) => false
  | Cleaner _ => true
  end.

Definition locked_file (x : Process) : option N :=
  match x with
  | Publisher _ _ _ (Leased file | Running file _ | Returning file _) => Some file
  | Cleaner (Probed _ _ _ file) => Some file
  | _ => None
  end.

(** *** Publishing *)

(** What a step finds of the other processes. *)
Record Locks := { guard_free : bool; lock_free : N → bool }.

Section Publish.
Context (b : bundle) (staging : bundle).

Definition act_go (a : Act) (r : Root) : option (Root * (Act + Outcome)) :=
  match a with
  | Check1 =>
      if exists_final b r then Some (r, inr (Refused AlreadyExists)) else Some (r, inl Reserve)
  | Reserve =>
      match create_reservation b r with
      | None => Some (r, inr (Refused AlreadyReserved))
      | Some r => Some (r, inl Reserving)
      end
  | Reserving => Some (r, inl Check2)
  | Check2 =>
      if exists_final b r then Some (r, inl (DropReservation AlreadyExists)) else Some (r, inl Stage)
  | Stage =>
      match create_private_directory staging r with
      | None => Some (r, inl (DropReservation IoError))
      | Some r => Some (r, inl (Create 0))
      end
  | Create k =>
      match create_report_file staging (report_file k) r with
      | None => Some (r, inl (DropStaging IoError))
      | Some (r, d) => Some (r, inl (Write k d))
      end
  | Write k d =>
      Some (write_report_bytes d (report_file k) r,
            inl (if (S k <? length REPORT_FILES)%nat then Create (S k) else Sync))
  | Sync =>
      if is_some (stagings r !! staging) then Some (r, inl Check3) else Some (r, inl (DropStaging IoError))
  | Check3 =>
      if exists_final b r then Some (r, inl (DropStaging AlreadyExists)) else Some (r, inl Rename)
  | Rename =>
      match rename staging b r with
      | None => Some (r, inl (DropStaging IoError))
      | Some r => Some (r, inl SyncRoot)
      end
  | SyncRoot => Some (r, inr Published)
  | DropStaging e =>
      match stagings r !! staging with
      | Some d => Some (r, inl (DroppingStaging e d))
      | None => Some (r, inl (DropReservation e))
      end
  | DroppingStaging e d =>
      match rmdir staging r with
      | Removed r => Some (r, inl (DropReservation e))
      | _ => Some (r, inl (DropReservation e))
      end
  | DropReservation e => Some (remove_reservation b r, inr (Refused e))
  end.

(** The same points when the call or the caller's hook fails. *)
Definition act_fail (a : Act) : Act + Outcome :=
  match a with
  | Check1 | Reserve | Reserving => inr (Refused IoError)
  | Check2 | Stage => inl (DropReservation IoError)
  | Create _ | Write _ _ | Sync | Check3 | Rename => inl (DropStaging IoError)
  | SyncRoot => inr (Refused IoError)
  | DropStaging e | DroppingStaging e _ => inl (DropReservation e)
  | DropReservation e => inr (Refused e)
  end.

Definition resume (file : N) (n : Act + Outcome) : PublisherPc :=
  match n with inl a => Running file a | inr o => Returning file o end.

Definition publisher_go (l : Locks) (pc : PublisherPc) (r : Root) : option (Root * PublisherPc) :=
  match pc with
  | Start =>
      match validate_report_bundle_id b with
      | Err _ => Some (r, Returned (Refused InvalidId))
      | Ok _ => if guard_free l then Some (r, Guarded) else None
      end
  | Guarded => let '(r, file) := open_private_lock_file b r in Some (r, Opened file)
  | Opened file =>
      if lock_free l file then Some (r, Leased file) else Some (r, Returned (Refused ActivelyPublishing))
  | Leased file => Some (r, Running file Check1)
  | Running file a =>
      match act_go a r with Some (r, n) => Some (r, resume file n) | None => None end
  | Returning _ o => Some (r, Unlocked o)
  | Unlocked o => Some (remove_lease b r, Returned o)
  | Returned _ => None
  end.

Definition publisher_fail (pc : PublisherPc) : option PublisherPc :=
  match pc with
  | Start | Guarded | Opened _ => Some (Returned (Refused IoError))
  | Running file a => Some (resume file (act_fail a))
  | Unlocked o => Some (Returned o)
  | Leased _ | Returning _ _ | Returned _ => None
  end.

(** [remove_dir_all] removes the files of the directory it opened one by one. *)
Definition publisher_unlink (file : string) (pc : PublisherPc) (r : Root) : option Root :=
  match pc with
  | Running _ (DroppingStaging _ d) => unlink d file r
  | _ => None
  end.
End Publish.

(** *** Cleaning *)

Definition count_staging (r : CleanupReport) : CleanupReport :=
  {| staging_directories_removed := staging_directories_removed r + 1;
     reservations_removed := reservations_removed r |}.
Definition count_reservation (r : CleanupReport) : CleanupReport :=
  {| staging_directories_removed := staging_directories_removed r;
     reservations_removed := reservations_removed r + 1 |}.

(** The loop body on an entry of the directory, up to its probe.  Entries that
    are too young, symbolic links, of another kind or with another name are
    passed over, which is no step. *)
Definition pick (report : CleanupReport) (e : Entry) (r : Root) : option CleanerPc :=
  match e with
  | StagingEntry name =>
      if is_some (stagings r !! name) && is_some (strip_prefix (bytes STAGING_PREFIX) name) then
        match staging_bundle_id name with
        | Some b => Some (Probe report b e)
        | None => Some (Remove report e)
        end
      else None
  | ReservationEntry b =>
      if bool_decide (b ∈ reservations r) then
        if exists_final b r then Some (Scan report) else Some (Probe report b e)
      else None
  | LeaseEntry b => if is_some (leases r !! b) then Some (Probe report b e) else None
  end.

Definition cleaner_go (l : Locks) (pc : CleanerPc) (r : Root) : option (Root * CleanerPc) :=
  match pc with
  | CStart =>
      if guard_free l
      then Some (r, Scan {| staging_directories_removed := 0; reservations_removed := 0 |}) else None
  | Scan report => Some (r, Cleaned (Some report))
  | Probe report b e =>
      match leases r !! b, e with
      | Some file, _ => Some (r, ProbeOpened report b e file)
      | None, LeaseEntry _ => Some (r, Scan report)
      | None, _ => Some (r, Remove report e)
      end
  | ProbeOpened report b e file =>
      if lock_free l file then Some (r, Probed report b e file) else Some (r, Scan report)
  | Probed report b e file => Some (r, Remove report e)
  | Remove report (StagingEntry name) =>
      match stagings r !! name with
      | Some d => Some (r, Removing report name d)
      | None => Some (r, Scan report)
      end
  | Remove report (ReservationEntry b) =>
      Some (remove_reservation b r,
            Scan (if bool_decide (b ∈ reservations r) then count_reservation report else report))
  | Remove report (LeaseEntry b) => Some (remove_lease b r, Scan report)
  | Removing report name d =>
      match rmdir name r with
      | Removed r => Some (r, Scan (count_staging report))
      | Missing => Some (r, Scan report)
      | NotEmpty => Some (r, Cleaned None)
      end
  | Cleaned _ => None
  end.

Definition cleaner_unlink (file : string) (pc : CleanerPc) (r : Root) : option Root :=
  match pc with
  | Removing _ _ d => unlink d file r
  | _ => None
  end.

(** ** The system *)

Inductive Kind :=
| Go
| Fail                     (** the call fails *)
| Unlink (file : string)   (** a running [remove_dir_all] removes a file *)
| Pick (e : Entry).        (** a scan takes up an entry *)

Definition move (l : Locks) (x : Process) (k : Kind) (r : Root) : option (Root * Process) :=
  match x, k with
  | Publisher b pid seq pc, Go =>
      match publisher_go b (staging_name b pid seq) l pc r with
      | Some (r, pc) => Some (r, Publisher b pid seq pc)
      | None => None
      end
  | Publisher b pid seq pc, Fail =>
      match publisher_fail pc with
      | Some pc => Some (r, Publisher b pid seq pc)
      | None => None
      end
  | Publisher b pid seq pc, Unlink file =>
      match publisher_unlink file pc r with Some r => Some (r, x) | None => None end
  | Publisher _ _ _ _, Pick _ => None
  | Cleaner pc, Go =>
      match cleaner_go l pc r with Some (r, pc) => Some (r, Cleaner pc) | None => None end
  | Cleaner (Cleaned _), Fail => None
  | Cleaner _, Fail => Some (r, Cleaner (Cleaned None))
  | Cleaner pc, Unlink file =>
      match cleaner_unlink file pc r with Some r => Some (r, x) | None => None end
  | Cleaner (Scan report), Pick e =>
      match pick report e r with Some pc => Some (r, Cleaner pc) | None => None end
  | Cleaner _, Pick _ => None
  end.

Record State := { root : Root; procs : gmap nat Process }.

Definition nobody (s : State) (p : Process → bool) : bool :=
  forallb (λ x, negb (p x.2)) (map_to_list (procs s)).

Definition locks (s : State) : Locks :=
  {| guard_free := nobody s holds_guard;
     lock_free := λ file, nobody s (λ x, locked_file x == Some file) |}.

Inductive Event :=
| Publish (p : nat) (b : bundle) (process_id sequence : N)
| Clean (p : nat)
| Move (p : nat) (k : Kind)
| Crash (p : nat).

Definition spawn (p : nat) (x : Process) (s : State) : option State :=
  match procs s !! p with
  | Some _ => None
  | None => Some {| root := root s; procs := <[p := x]> (procs s) |}
  end.

(** Process ids are [u32] and the staging sequence is a [u64]. *)
Definition step (s : State) (e : Event) : option State :=
  match e with
  | Publish p b pid seq =>
      if (pid <=? u32_max) && (seq <=? u64_max) then spawn p (Publisher b pid seq Start) s else None
  | Clean p => spawn p (Cleaner CStart) s
  | Move p k =>
      match procs s !! p with
      | Some x =>
          match move (locks s) x k (root s) with
          | Some (r, x) => Some {| root := r; procs := <[p := x]> (procs s) |}
          | None => None
          end
      | None => None
      end
  | Crash p => Some {| root := root s; procs := delete p (procs s) |}
  end.

Fixpoint run (s : State) (es : list Event) : option State :=
  match es with
  | [] => Some s
  | e :: es => match step s e with Some s => run s es | None => None end
  end.

(** ** Orderly runs *)

(** Between unlocking a lease file and removing its path. *)
Definition unlinking (b : bundle) (x : Process) : bool :=
  match x with Publisher b' _ _ (Unlocked _) => b' == b | _ => false end.

(** A lease is taken on the file that is at its path, while no earlier holder has
    still to remove that path. *)
Definition orderly_event (s : State) (e : Event) : bool :=
  match e with
  | Move p Go =>
      match procs s !! p with
      | Some (Publisher b _ _ (Opened file)) =>
          negb (lock_free (locks s) file)
          || (leases (root s) !! b == Some file) && nobody s (unlinking b)
      | _ => true
      end
  | _ => true
  end.

Fixpoint orderly (s : State) (es : list Event) : bool :=
  match es with
  | [] => true
  | e :: es => orderly_event s e && match step s e with Some s => orderly s es | None => true end
  end.

(** ** Examples *)

Definition empty_root : Root :=
  {| leases := ∅; reservations := ∅; stagings := ∅; finals := ∅; dirs := ∅; next := 0 |}.
Definition fresh : State := {| root := empty_root; procs := ∅ |}.

Definition go (p n : nat) : list Event := replicate n (Move p Go).
