(* ===== verification/PublicationSafety.v ===== *)
(** * PublicationSafety: what concurrent publishers and cleaners can rely on

    The proofs about the transition system of Publication: locks exclude each
    other in every run; in orderly runs the lease of a bundle protects its
    staging directory and its reservation from every other process, final
    bundles are complete and never change, and one publisher wins.  The argument
    is by rely and guarantee: [interference] says what a move of one process can
    do to the files of a lease holder, which is nothing.

    The runs at the end show what the guarantees need: a publisher that is
    removing the path of a lease it has released breaks its successor, and a
    publisher that finishes while it is being probed loses its reservation. *)

From S2P Require Import Prelude Text Decimal BundleId Publication.

(** ** Steps *)

Definition initial (x : Process) : Prop :=
  match x with
  | Publisher _ pid seq Start => pid ≤ u32_max ∧ seq ≤ u64_max
  | Cleaner CStart => True
  | _ => False
  end.

Inductive stepped (s : State) (e : Event) : State → Prop :=
| stepped_spawn p x : procs s !! p = None → initial x →
    stepped s e {| root := root s; procs := <[p := x]> (procs s) |}
| stepped_crash p : stepped s e {| root := root s; procs := delete p (procs s) |}
| stepped_move p k x r x' : e = Move p k → procs s !! p = Some x →
    move (locks s) x k (root s) = Some (r, x') →
    stepped s e {| root := r; procs := <[p := x']> (procs s) |}.

Lemma step_stepped s e s' : step s e = Some s' → stepped s e s'.
Proof.
  destruct e as [p b pid seq|p|p k|p]; simpl.
  - destruct (_ && _) eqn:E; [|done]. apply andb_true_iff in E as [Hp Hs]. bsimp.
    unfold spawn. destruct (procs s !! p) eqn:Hl; [done|]. intros [= <-]. by apply stepped_spawn.
  - unfold spawn. destruct (procs s !! p) eqn:Hl; [done|]. intros [= <-]. by apply stepped_spawn.
  - destruct (procs s !! p) as [x|] eqn:Hx; [|done]. destruct (move _ _ _ _) as [[r x']|] eqn:Hm; [|done].
    intros [= <-]. by eapply stepped_move.
  - intros [= <-]. apply stepped_crash.
Qed.

Lemma nobody_true s f : nobody s f = true ↔ ∀ p x, procs s !! p = Some x → f x = false.
Proof.
  unfold nobody. rewrite forallb_Forall, Forall_forall. split.
  - intros H p x Hx%elem_of_map_to_list. apply H in Hx. by apply negb_true_iff in Hx.
  - intros H [p x] Hx%elem_of_map_to_list. apply negb_true_iff. eauto.
Qed.

Lemma guard_free_true s : guard_free (locks s) = true ↔ ∀ p x, procs s !! p = Some x → holds_guard x = false.
Proof. apply nobody_true. Qed.

Lemma lock_free_true s file : lock_free (locks s) file = true ↔
  ∀ p x, procs s !! p = Some x → locked_file x ≠ Some file.
Proof.
  simpl. rewrite nobody_true. split; intros H p x Hx; specialize (H p x Hx).
  - by apply bool_decide_eq_false in H.
  - by apply bool_decide_eq_false.
Qed.

(** ** Views of a process *)

(** The lease a publisher holds. *)
Definition holder (x : Process) : option (bundle * N) :=
  match x with
  | Publisher b _ _ (Leased file | Running file _ | Returning file _) => Some (b, file)
  | _ => None
  end.

(** The lock file a process has just opened under the root guard. *)
Definition opened (x : Process) : option (bundle * N) :=
  match x with
  | Publisher b _ _ (Opened file) => Some (b, file)
  | Cleaner (ProbeOpened _ b _ file) => Some (b, file)
  | _ => None
  end.

Definition entry_id (e : Entry) : option bundle :=
  match e with StagingEntry name => staging_bundle_id name | ReservationEntry b | LeaseEntry b => Some b end.

(** The bundle whose state a process is about to remove without its lease. *)
Definition clears (x : Process) : option bundle :=
  match x with
  | Publisher b _ _ (Unlocked _) => Some b
  | Cleaner (Probed _ b _ _) => Some b
  | Cleaner (Remove _ e) => entry_id e
  | Cleaner (Removing _ name _) => staging_bundle_id name
  | _ => None
  end.

(** The entry a cleaner handles belongs to the bundle it probes. *)
Definition entry_ok (x : Process) : Prop :=
  match x with
  | Cleaner (Probe _ b e | ProbeOpened _ b e _ | Probed _ b e _) => entry_id e = Some b
  | _ => True
  end.

(** A publisher that got past its first check has a valid id. *)
Definition publisher_ok (x : Process) : Prop :=
  match x with
  | Publisher b pid seq pc => pid ≤ u32_max ∧ seq ≤ u64_max ∧
      match pc with Start | Returned _ => True | _ => validate_report_bundle_id b = Ok () end
  | Cleaner _ => True
  end.

Definition published (b : bundle) (x : Process) : Prop :=
  match x with
  | Publisher b' _ _ (Running _ SyncRoot | Returning _ Published | Unlocked Published | Returned Published) => b' = b
  | _ => False
  end.

(** ** Invariants *)

(** The files written after [k] steps. *)
Definition written (k : nat) : Files := list_to_map (List.map (λ f, (f, Written)) (take k REPORT_FILES)).

Definition complete : Files := written (length REPORT_FILES).

Record root_ok (r : Root) : Prop := {
  stagings_bound : ∀ n d, stagings r !! n = Some d → d < next r ∧ is_Some (dirs r !! d);
  finals_bound : ∀ b d, finals r !! b = Some d → d < next r;
  stagings_inj : ∀ n n' d, stagings r !! n = Some d → stagings r !! n' = Some d → n = n';
  stagings_finals : ∀ n b d, stagings r !! n = Some d → finals r !! b = Some d → False;
  finals_complete : ∀ b d, finals r !! b = Some d → dirs r !! d = Some complete
}.

(** What a lease holder finds of its own files at each point. *)
Definition in_progress (r : Root) (b : bundle) : Prop := finals r !! b = None ∧ b ∈ reservations r.

Definition staged (r : Root) (b name : bundle) (files : Files) (d : N) : Prop :=
  in_progress r b ∧ stagings r !! name = Some d ∧ dirs r !! d = Some files.

Definition expects (r : Root) (b name : bundle) (a : Act) : Prop :=
  match a with
  | Check1 | DropStaging _ | DropReservation _ => True
  | Reserve => finals r !! b = None
  | Reserving | Check2 | Stage => in_progress r b
  | Create k => (k < 5)%nat ∧ ∃ d, staged r b name (written k) d
  | Write k d => (k < 5)%nat ∧ staged r b name (<[report_file k := Partial]> (written k)) d
  | Sync | Check3 | Rename => ∃ d, staged r b name complete d
  | SyncRoot => is_Some (finals r !! b)
  | DroppingStaging _ d => stagings r !! name = Some d
  end.

Definition process_expects (r : Root) (x : Process) : Prop :=
  match x with
  | Publisher b pid seq (Running _ a) => expects r b (staging_name b pid seq) a
  | Cleaner (Removing _ name d) => stagings r !! name = Some d
  | _ => True
  end.

(** What holds in every run. *)
Record locked_ok (s : State) : Prop := {
  guard_exclusive : ∀ p q x y, procs s !! p = Some x → procs s !! q = Some y →
    holds_guard x = true → holds_guard y = true → p = q;
  lock_exclusive : ∀ p q x y file, procs s !! p = Some x → procs s !! q = Some y →
    locked_file x = Some file → locked_file y = Some file → p = q;
  opened_current : ∀ p x b file, procs s !! p = Some x → opened x = Some (b, file) →
    leases (root s) !! b = Some file ∨ leases (root s) !! b = None;
  entries_ok : ∀ p x, procs s !! p = Some x → entry_ok x;
  publishers_ok : ∀ p x, procs s !! p = Some x → publisher_ok x
}.

(** What holds in the orderly ones. *)
Record lease_ok (s : State) : Prop := {
  lease_current : ∀ p x b file, procs s !! p = Some x → holder x = Some (b, file) → leases (root s) !! b = Some file;
  lease_protects : ∀ p q x y b file, procs s !! p = Some x → procs s !! q = Some y →
    holder x = Some (b, file) → clears y = Some b → False;
  files_expected : ∀ p x, procs s !! p = Some x → process_expects (root s) x;
  published_final : ∀ p x b, procs s !! p = Some x → published b x → is_Some (finals (root s) !! b);
  published_once : ∀ p q x y b, procs s !! p = Some x → procs s !! q = Some y → published b x → published b y → p = q;
  root_good : root_ok (root s)
}.

(** ** Moves as rules

    The transitions of [move], those of one kind together. *)

Section Rules.
Context (b st : bundle).

Inductive act_moved (r : Root) : Act → Root → Act + Outcome → Prop :=
| am_refuse a e : act_moved r a r (inr (Refused e))
| am_drop_reservation a e : act_moved r a r (inl (DropReservation e))
| am_drop_staging a e : act_moved r a r (inl (DropStaging e))
| am_check1 : finals r !! b = None → act_moved r Check1 r (inl Reserve)
| am_reserve r' : create_reservation b r = Some r' → act_moved r Reserve r' (inl Reserving)
| am_reserving : act_moved r Reserving r (inl Check2)
| am_check2 : act_moved r Check2 r (inl Stage)
| am_stage r' : create_private_directory st r = Some r' → act_moved r Stage r' (inl (Create 0))
| am_create k r' d : create_report_file st (report_file k) r = Some (r', d) →
    act_moved r (Create k) r' (inl (Write k d))
| am_write k d : (S k < 5)%nat → act_moved r (Write k d) (write_report_bytes d (report_file k) r) (inl (Create (S k)))
| am_written k d : (5 ≤ S k)%nat → act_moved r (Write k d) (write_report_bytes d (report_file k) r) (inl Sync)
| am_sync : act_moved r Sync r (inl Check3)
| am_check3 : act_moved r Check3 r (inl Rename)
| am_rename r' : rename st b r = Some r' → act_moved r Rename r' (inl SyncRoot)
| am_done : act_moved r SyncRoot r (inr Published)
| am_open_dir e d : stagings r !! st = Some d → act_moved r (DropStaging e) r (inl (DroppingStaging e d))
| am_unlink e d file r' : unlink d file r = Some r' → act_moved r (DroppingStaging e d) r' (inl (DroppingStaging e d))
| am_rmdir e d r' : rmdir st r = Removed r' → act_moved r (DroppingStaging e d) r' (inl (DropReservation e))
| am_unreserve e : act_moved r (DropReservation e) (remove_reservation b r) (inr (Refused e)).

Lemma act_go_moved a r r' n : act_go b st a r = Some (r', n) → act_moved r a r' n.
Proof.
  assert (∀ o, is_some o = false → (o : option N) = None) as Hn by by intros [].
  destruct a; simpl; unfold exists_final; intros H; crack; try (econstructor; solve [eauto]).
  - apply am_write. apply Nat.ltb_lt. by destruct k as [|[|[|[|]]]].
  - apply am_written. by destruct k as [|[|[|[|]]]]; try discriminate; lia.
Qed.

Lemma act_fail_moved a r : act_moved r a r (act_fail a).
Proof. destruct a; constructor. Qed.
End Rules.

Section CleanerRules.
Context (l : Locks).

Inductive cleaner_moved (r : Root) : CleanerPc → Root → CleanerPc → Prop :=
| cm_start report : guard_free l = true → cleaner_moved r CStart r (Scan report)
| cm_end pc o : cleaner_moved r pc r (Cleaned o)
| cm_back pc report : holds_guard (Cleaner pc) = true → cleaner_moved r pc r (Scan report)
| cm_pick report b e : entry_id e = Some b → cleaner_moved r (Scan report) r (Probe report b e)
| cm_legacy report name : staging_bundle_id name = None →
    cleaner_moved r (Scan report) r (Remove report (StagingEntry name))
| cm_open report b e file : leases r !! b = Some file →
    cleaner_moved r (Probe report b e) r (ProbeOpened report b e file)
| cm_missing report b e : leases r !! b = None → cleaner_moved r (Probe report b e) r (Remove report e)
| cm_lock report b e file : lock_free l file = true →
    cleaner_moved r (ProbeOpened report b e file) r (Probed report b e file)
| cm_release report b e file : cleaner_moved r (Probed report b e file) r (Remove report e)
| cm_open_dir report name d : stagings r !! name = Some d →
    cleaner_moved r (Remove report (StagingEntry name)) r (Removing report name d)
| cm_reservation report report' b :
    cleaner_moved r (Remove report (ReservationEntry b)) (remove_reservation b r) (Scan report')
| cm_lease report b : cleaner_moved r (Remove report (LeaseEntry b)) (remove_lease b r) (Scan report)
| cm_unlink report name d file r' : unlink d file r = Some r' →
    cleaner_moved r (Removing report name d) r' (Removing report name d)
| cm_rmdir report report' name d r' : rmdir name r = Removed r' →
    cleaner_moved r (Removing report name d) r' (Scan report').

Lemma cleaner_go_moved pc r r' pc' : cleaner_go l pc r = Some (r', pc') → cleaner_moved r pc r' pc'.
Proof. destruct pc; simpl; intros H; crack; econstructor; solve [eauto]. Qed.

Lemma pick_moved report e r pc : pick report e r = Some pc → cleaner_moved r (Scan report) r pc.
Proof. destruct e; simpl; intros H; crack; constructor; done. Qed.
End CleanerRules.

Inductive moved (l : Locks) (r : Root) : Process → Root → Process → Prop :=
| m_refused b pid seq pc e :
    moved l r (Publisher b pid seq pc) r (Publisher b pid seq (Returned (Refused e)))
| m_skip b pid seq o :
    moved l r (Publisher b pid seq (Unlocked o)) r (Publisher b pid seq (Returned o))
| m_start b pid seq : validate_report_bundle_id b = Ok () → guard_free l = true →
    moved l r (Publisher b pid seq Start) r (Publisher b pid seq Guarded)
| m_open b pid seq r' file : open_private_lock_file b r = (r', file) →
    moved l r (Publisher b pid seq Guarded) r' (Publisher b pid seq (Opened file))
| m_lock b pid seq file : lock_free l file = true →
    moved l r (Publisher b pid seq (Opened file)) r (Publisher b pid seq (Leased file))
| m_leased b pid seq file :
    moved l r (Publisher b pid seq (Leased file)) r (Publisher b pid seq (Running file Check1))
| m_act b pid seq file a r' n : act_moved b (staging_name b pid seq) r a r' n →
    moved l r (Publisher b pid seq (Running file a)) r' (Publisher b pid seq (resume file n))
| m_unlock b pid seq file o :
    moved l r (Publisher b pid seq (Returning file o)) r (Publisher b pid seq (Unlocked o))
| m_remove b pid seq o :
    moved l r (Publisher b pid seq (Unlocked o)) (remove_lease b r) (Publisher b pid seq (Returned o))
| m_clean pc r' pc' : cleaner_moved l r pc r' pc' → moved l r (Cleaner pc) r' (Cleaner pc').

Lemma move_moved l x k r r' x' : move l x k r = Some (r', x') → moved l r x r' x'.
Proof.
  destruct x as [b pid seq pc|pc]; destruct k; cbn [move]; intros H.
  - destruct (publisher_go _ _ _ _ _) as [[r1 pc1]|] eqn:E; [|done]. injection H as <- <-.
    destruct pc; simpl in E; [destruct (validate_report_bundle_id b) as [[]|] eqn:?|..];
      try (crack; econstructor; by eauto).
    destruct (act_go _ _ _ _) as [[r2 n]|] eqn:Ea; [|done]. injection E as <- <-.
    apply m_act. by apply act_go_moved.
  - destruct pc; simpl in H; simplify_eq/=; try (econstructor; by eauto). apply m_act, act_fail_moved.
  - destruct (publisher_unlink _ _ _) as [r1|] eqn:E; [|done]. injection H as <- <-.
    destruct pc as [| | | |file' a| | |]; try discriminate E. destruct a; try discriminate E. simpl in E.
    apply (m_act _ _ _ _ _ _ _ _ (inl (DroppingStaging _ _))). by econstructor.
  - discriminate H.
  - assert (∃ pc', cleaner_go l pc r = Some (r', pc') ∧ x' = Cleaner pc') as (pc' & E & ->).
    { destruct (cleaner_go l pc r) as [[r1 pc1]|]; destruct pc; simplify_eq; eauto. }
    apply m_clean. by apply cleaner_go_moved.
  - destruct pc; simplify_eq; apply m_clean; constructor.
  - assert (∃ r1, cleaner_unlink file pc r = Some r1 ∧ r' = r1 ∧ x' = Cleaner pc) as (r1 & E & -> & ->).
    { destruct (cleaner_unlink file pc r) as [r1|]; destruct pc; naive_solver. }
    destruct pc; try done. simpl in E. apply m_clean. by econstructor.
  - destruct pc; try done. destruct (pick _ _ _) as [pc1|] eqn:E; [|done]. injection H as <- <-.
    apply m_clean. by eapply pick_moved.
Qed.

(** ** System calls, inverted *)

Lemma create_reservation_Some b r r' : create_reservation b r = Some r' →
  (b ∉ reservations r) ∧ r' = set_reservations (union {[b]}) r.
Proof. unfold create_reservation. case_bool_decide; naive_solver. Qed.

Lemma create_private_directory_Some n r r' : create_private_directory n r = Some r' →
  stagings r !! n = None ∧
  r' = set_stagings (insert n (next r)) (set_dirs (insert (next r) ∅) (set_next (next r + 1) r)).
Proof. unfold create_private_directory. destruct (_ !! _); naive_solver. Qed.

Lemma create_report_file_Some n f r r' d : create_report_file n f r = Some (r', d) →
  ∃ files, stagings r !! n = Some d ∧ dirs r !! d = Some files ∧ files !! f = None ∧
    r' = set_dirs (insert d (<[f := Partial]> files)) r.
Proof.
  unfold create_report_file. destruct (stagings r !! n) as [d'|] eqn:?; [|done].
  destruct (dirs r !! d') as [files|] eqn:?; [|done]. destruct (files !! f) eqn:?; naive_solver.
Qed.

Lemma unlink_Some d f r r' : unlink d f r = Some r' →
  ∃ files, dirs r !! d = Some files ∧ r' = set_dirs (insert d (delete f files)) r.
Proof.
  unfold unlink. destruct (dirs r !! d) as [files|]; [|done]. destruct (files !! f); naive_solver.
Qed.

Lemma rename_Some n b r r' : rename n b r = Some r' →
  ∃ d, stagings r !! n = Some d ∧ r' = set_stagings (delete n) (set_finals (insert b d) r) ∧
    (∀ e, finals r !! b = Some e → is_empty_dir e r = true).
Proof.
  unfold rename. destruct (stagings r !! n) as [d|]; [|done].
  destruct (finals r !! b) as [e|]; [destruct (is_empty_dir e r) eqn:?|]; naive_solver.
Qed.

Lemma rmdir_Removed n r r' : rmdir n r = Removed r' →
  ∃ d, stagings r !! n = Some d ∧ r' = set_stagings (delete n) r.
Proof. unfold rmdir. destruct (stagings r !! n) as [d|]; [destruct (is_empty_dir d r)|]; naive_solver. Qed.

Lemma open_lock_cases b r r' file : open_private_lock_file b r = (r', file) →
  leases r !! b = Some file ∧ r' = r ∨
  leases r !! b = None ∧ file = next r ∧ r' = set_leases (insert b file) (set_next (next r + 1) r).
Proof. unfold open_private_lock_file. destruct (leases r !! b) eqn:?; naive_solver. Qed.

(** Replace every system call in the context by what it did. *)
Ltac calls :=
  repeat match goal with
  | H : create_reservation _ _ = Some _ |- _ => apply create_reservation_Some in H as [? ->]
  | H : create_private_directory _ _ = Some _ |- _ => apply create_private_directory_Some in H as [? ->]
  | H : create_report_file _ _ _ = Some _ |- _ => apply create_report_file_Some in H as (? & ? & ? & ? & ->)
  | H : unlink _ _ _ = Some _ |- _ => apply unlink_Some in H as (? & ? & ->)
  | H : rename _ _ _ = Some _ |- _ => apply rename_Some in H as (? & ? & -> & ?)
  | H : rmdir _ _ = Removed _ |- _ => apply rmdir_Removed in H as (? & ? & ->)
  | H : open_private_lock_file _ _ = _ |- _ => apply open_lock_cases in H as [[? ->]|(? & ? & ->)]
  end.

(** ** Locks *)

Section Moved.
Context (l : Locks) (r r' : Root) (x x' : Process).
Context (Hm : moved l r x r' x').

Lemma moved_guard : holds_guard x' = true → holds_guard x = true ∨ guard_free l = true.
Proof.
  destruct Hm as [| | | | | |? ? ? ? ? ? n| | |? ? ? Hc]; simpl; try done; auto; [by destruct n|].
  destruct Hc; simpl; try done; auto.
Qed.

Lemma moved_locked file : locked_file x' = Some file → locked_file x = Some file ∨ lock_free l file = true.
Proof.
  destruct Hm as [| | | | | |? ? ? ? ? ? n| | |? ? ? Hc]; simpl; try done; auto; try (intros [= <-]; auto; fail);
    [destruct n; auto|].
  destruct Hc; simpl; try done; auto. intros [= <-]; auto.
Qed.

Lemma moved_entry : entry_ok x → entry_ok x'.
Proof. destruct Hm as [| | | | | | | | |? ? ? Hc]; simpl; auto. destruct Hc; simpl; auto. Qed.

Lemma moved_publisher : publisher_ok x → publisher_ok x'.
Proof.
  destruct Hm as [| | | | | |? ? ? ? ? ? n| | |? ? ? Hc]; simpl; try tauto. by destruct n.
Qed.

Lemma moved_leases b : leases r' !! b = leases r !! b ∨ leases r' !! b = None ∨ holds_guard x = true.
Proof.
  destruct Hm as [| | | | | |? ? ? ? ? ? ? Ha| | |? ? ? Hc]; simpl; auto.
  - destruct Ha; calls; simpl; auto.
  - match goal with |- context [delete ?b' _] => destruct (decide (b = b')) as [->|] end;
      [rewrite lookup_delete_eq|rewrite lookup_delete_ne]; auto.
  - destruct Hc; calls; simpl; auto.
Qed.

Lemma moved_opened b file : opened x' = Some (b, file) → opened x = Some (b, file) ∧ r' = r ∨ leases r' !! b = Some file.
Proof.
  destruct Hm as [| | |? ? ? ? ? Ho| | |? ? ? ? ? ? n| | |? ? ? Hc]; simpl; try done.
  - calls; intros [= -> ->]; simpl; rewrite ?lookup_insert_eq; subst; auto.
  - by destruct n.
  - destruct Hc; simpl; try done; calls. intros [= -> ->]. auto.
Qed.
End Moved.

Section Exclusive.
Context (f : Process → Prop) (m : gmap nat Process).

Definition exclusive (m : gmap nat Process) : Prop :=
  ∀ p q x y, m !! p = Some x → m !! q = Some y → f x → f y → p = q.

Lemma exclusive_insert p x' : exclusive m →
  (f x' → (∃ x, m !! p = Some x ∧ f x) ∨ ∀ q y, m !! q = Some y → ¬ f y) → exclusive (<[p := x']> m).
Proof.
  intros Hex Hx' q1 q2 y1 y2 H1 H2 F1 F2.
  apply lookup_insert_Some in H1 as [[<- <-]|[N1 H1]], H2 as [[<- <-]|[N2 H2]]; [done|..].
  - destruct (Hx' F1) as [(x & Hx & Fx)|Hno]; [by eapply Hex|by destruct (Hno _ _ H2)].
  - destruct (Hx' F2) as [(x & Hx & Fx)|Hno]; [by eapply Hex|by destruct (Hno _ _ H1)].
  - by eapply Hex.
Qed.

Lemma exclusive_delete p : exclusive m → exclusive (delete p m).
Proof. intros Hex q1 q2 y1 y2 [_ H1]%lookup_delete_Some [_ H2]%lookup_delete_Some. by eapply Hex. Qed.
End Exclusive.

(** Every process of an updated system is an old one or the updated one. *)
Lemma forall_insert (P : nat → Process → Prop) (m : gmap nat Process) p x' :
  (∀ q y, q ≠ p → m !! q = Some y → P q y) → P p x' → ∀ q y, <[p := x']> m !! q = Some y → P q y.
Proof. intros Ho Hp q y [[<- <-]|[? ?]]%lookup_insert_Some; auto. Qed.

Lemma initial_views x : initial x → holds_guard x = false ∧ locked_file x = None ∧ opened x = None ∧
  holder x = None ∧ clears x = None ∧ entry_ok x ∧ publisher_ok x ∧ (∀ b, ¬ published b x) ∧
  ∀ r, process_expects r x.
Proof. destruct x as [? ? ? []|[]]; try done; simpl; intros; split_and!; try done; tauto. Qed.

Lemma opened_guard x b file : opened x = Some (b, file) → holds_guard x = true.
Proof. by destruct x as [? ? ? []|[]]. Qed.

Lemma locked_ok_init r : locked_ok {| root := r; procs := ∅ |}.
Proof. split; intros *; simpl; by rewrite lookup_empty. Qed.

Lemma stepped_locked s e s' : locked_ok s → stepped s e s' → locked_ok s'.
Proof.
  intros [Hg Hl Ho He Hp] Hs. destruct Hs as [p x Hx Hi|p|p k x r x' -> Hx Hm%move_moved].
  - destruct (initial_views x Hi) as (Vg & Vl & Vo & _ & _ & Ve & Vp & _). split; simpl.
    + apply (exclusive_insert (λ x, holds_guard x = true)); [done|congruence].
    + intros p' q' y z file. apply (exclusive_insert (λ x, locked_file x = Some file)); [intros ?; eauto|congruence].
    + intros q y b file. revert q y. apply (forall_insert (λ _ y, _ → _)); [eauto|congruence].
    + apply (forall_insert (λ _ y, _)); eauto.
    + apply (forall_insert (λ _ y, _)); eauto.
  - split; simpl; intros *; rewrite ?lookup_delete_Some; try naive_solver.
  - split; simpl.
    + apply (exclusive_insert (λ x, holds_guard x = true)); [done|]. intros [?|Hf]%(moved_guard _ _ _ _ _ Hm); [eauto|].
      right. intros q y Hy. rewrite guard_free_true in Hf. rewrite (Hf _ _ Hy). done.
    + intros p' q' y z file. apply (exclusive_insert (λ x, locked_file x = Some file)); [intros ?; eauto|].
      intros [?|Hf]%(moved_locked _ _ _ _ _ Hm); [eauto|]. rewrite lock_free_true in Hf. auto.
    + intros q y b file. revert q y. apply (forall_insert (λ _ y, _ → _)).
      * intros q y Hq Hy Hyo. destruct (moved_leases _ _ _ _ _ Hm b) as [->|[?|Hgx]]; [eauto|auto|].
        destruct Hq. eapply Hg; eauto using opened_guard.
      * intros [[Hxo ->]|?]%(moved_opened _ _ _ _ _ Hm); eauto.
    + apply (forall_insert (λ _ y, _)); [eauto|]. eapply moved_entry; eauto.
    + apply (forall_insert (λ _ y, _)); [eauto|]. eapply moved_publisher; eauto.
Qed.

(** ** The root under moves *)

Lemma written_next k : (k < 5)%nat →
  alter (λ _, Written) (report_file k) (<[report_file k := Partial]> (written k)) = written (S k).
Proof. intros Hk. do 5 (destruct k as [|k]; [reflexivity|]). lia. Qed.

Lemma alter_at {A} (g : A → A) (m : gmap N A) d a : m !! d = Some a → alter g d m = <[d := g a]> m.
Proof.
  intros H. apply map_eq. intros e. destruct (decide (d = e)) as [<-|];
    [by rewrite lookup_alter_eq, lookup_insert_eq, H|by rewrite lookup_alter_ne, lookup_insert_ne].
Qed.

Section RootOps.
Context (r : Root) (Hr : root_ok r).

Lemma root_ok_same r' : stagings r' = stagings r → finals r' = finals r → dirs r' = dirs r → next r ≤ next r' → root_ok r'.
Proof.
  intros Es Ef Ed Hn. destruct Hr as [Hs Hf Hi Hx Hc]. split; rewrite ?Es, ?Ef, ?Ed; eauto.
  - intros n d H. destruct (Hs _ _ H) as [? ?]. split; [lia|done].
  - intros b d H. specialize (Hf _ _ H). lia.
Qed.

Lemma root_ok_files n d files : stagings r !! n = Some d → root_ok (set_dirs (insert d files) r).
Proof.
  intros Hd. destruct Hr as [Hs Hf Hi Hx Hc]. split; simpl; eauto.
  - intros n' d' H. destruct (Hs _ _ H) as [? ?]. split; [done|].
    destruct (decide (d = d')) as [->|]; [rewrite lookup_insert_eq; eauto|by rewrite lookup_insert_ne].
  - intros b d' H. rewrite lookup_insert_ne; [eauto|]. intros ->. eauto.
Qed.

Lemma root_ok_mkdir n : root_ok (set_stagings (insert n (next r))
  (set_dirs (insert (next r) ∅) (set_next (next r + 1) r))).
Proof.
  destruct Hr as [Hs Hf Hi Hx Hc]. split; simpl.
  - intros n' d [[<- <-]|[? H]]%lookup_insert_Some; [split; [lia|rewrite lookup_insert_eq; eauto]|].
    destruct (Hs _ _ H) as [? ?]. split; [lia|]. rewrite lookup_insert_ne by lia. done.
  - intros b d H. specialize (Hf _ _ H). lia.
  - intros n1 n2 d [[<- <-]|[? H1]]%lookup_insert_Some [[<- E]|[? H2]]%lookup_insert_Some; eauto; [..|subst].
    + destruct (Hs _ _ H2). lia.
    + destruct (Hs _ _ H1). lia.
  - intros n' b d [[<- <-]|[? H]]%lookup_insert_Some Hb; [specialize (Hf _ _ Hb); lia|eauto].
  - intros b d H. specialize (Hf _ _ H). rewrite lookup_insert_ne by lia. eauto.
Qed.

Lemma root_ok_rmdir n : root_ok (set_stagings (delete n) r).
Proof.
  destruct Hr as [Hs Hf Hi Hx Hc]. split; simpl; eauto.
  - intros n' d [_ H]%lookup_delete_Some. eauto.
  - intros n1 n2 d [_ H1]%lookup_delete_Some [_ H2]%lookup_delete_Some. eauto.
  - intros n' b d [_ H]%lookup_delete_Some. eauto.
Qed.

Lemma root_ok_rename n b d : stagings r !! n = Some d → dirs r !! d = Some complete →
  root_ok (set_stagings (delete n) (set_finals (insert b d) r)).
Proof.
  intros Hn Hd. destruct Hr as [Hs Hf Hi Hx Hc]. split; simpl.
  - intros n' d' [_ H]%lookup_delete_Some. eauto.
  - intros b' d' [[<- <-]|[? H]]%lookup_insert_Some; [by destruct (Hs _ _ Hn)|eauto].
  - intros n1 n2 d' [_ H1]%lookup_delete_Some [_ H2]%lookup_delete_Some. eauto.
  - intros n' b' d' [N H]%lookup_delete_Some [[<- <-]|[? H']]%lookup_insert_Some; [|eauto].
    destruct N. eauto.
  - intros b' d' [[<- <-]|[? H]]%lookup_insert_Some; eauto.
Qed.
End RootOps.

Lemma write_at d file r files : dirs r !! d = Some files →
  write_report_bytes d file r = set_dirs (insert d (alter (λ _, Written) file files)) r.
Proof. intros H. unfold write_report_bytes, set_dirs. by rewrite (alter_at _ _ _ _ H). Qed.

Lemma moved_root l r r' x x' : moved l r x r' x' → root_ok r → process_expects r x → root_ok r'.
Proof.
  intros Hm Hr Hx.
  destruct Hm as [| | |? ? ? ? ? Ho| | |? ? ? ? ? ? n Ha| | |? ? ? Hc]; try done.
  - calls; [done|]. eapply root_ok_same; simpl; eauto; lia.
  - simpl in Hx. destruct Ha; calls; try done; simpl in Hx;
      try (eapply root_ok_same; simpl; eauto; lia); eauto using root_ok_files, root_ok_mkdir, root_ok_rmdir.
    1,2: destruct Hx as (_ & _ & Hd & Hf); erewrite write_at by done; eauto using root_ok_files.
    destruct Hx as (d & _ & Hd & Hf). simplify_eq. eauto using root_ok_rename.
  - eapply root_ok_same; simpl; eauto; lia.
  - destruct Hc; calls; try done; try (eapply root_ok_same; simpl; eauto; lia);
      eauto using root_ok_files, root_ok_rmdir.
Qed.

Lemma moved_finals l r r' x x' b : moved l r x r' x' → is_Some (finals r !! b) → is_Some (finals r' !! b).
Proof.
  destruct 1 as [| | |? ? ? ? ? Ho| | |? ? ? ? ? ? n Ha| | |? ? ? Hc]; try done; [by calls|..].
  - destruct Ha; calls; try done. intros Hb. simpl. rewrite lookup_insert_is_Some'. auto.
  - by destruct Hc; calls.
Qed.

Lemma moved_published l r r' x x' b : moved l r x r' x' → published b x' →
  published b x ∨ ∃ pid seq file, x = Publisher b pid seq (Running file Rename) ∧ is_Some (finals r' !! b).
Proof.
  destruct 1 as [| | |? ? ? ? ? Ho| | |? ? ? ? ? ? n Ha| | |? ? ? Hc]; simpl; try done; auto.
  destruct Ha; simpl; auto; try done. calls. simpl. intros ->. right. rewrite lookup_insert_eq. eauto 6.
Qed.

(** ** Interference *)

(** What the files of a lease holder keep while other processes move. *)
Record untouched (b name : bundle) (r r' : Root) : Prop := {
  same_lease : leases r' !! b = leases r !! b;
  same_reservation : b ∈ reservations r' ↔ b ∈ reservations r;
  same_final : finals r' !! b = finals r !! b;
  same_staging : stagings r' !! name = stagings r !! name;
  same_files : ∀ d, stagings r !! name = Some d → dirs r' !! d = dirs r !! d
}.

Lemma untouched_refl b name r : untouched b name r r.
Proof. by split. Qed.

Section Untouched.
Context (b name : bundle) (r : Root).
Abbreviation keeps := (untouched b name r).

Lemma keeps_reserve b' : b ≠ b' → keeps (set_reservations (union {[b']}) r).
Proof. intros Hb. split; simpl; try done. set_solver. Qed.

Lemma keeps_unreserve b' : b ≠ b' → keeps (remove_reservation b' r).
Proof. intros Hb. split; simpl; try done. set_solver. Qed.

Lemma keeps_lease b' n file : b ≠ b' → keeps (set_leases (insert b' file) (set_next n r)).
Proof. intros Hb. split; simpl; try done. by rewrite lookup_insert_ne. Qed.

Lemma keeps_remove_lease b' : b ≠ b' → keeps (remove_lease b' r).
Proof. intros Hb. split; simpl; try done. by rewrite lookup_delete_ne. Qed.

Lemma keeps_mkdir name' n files : root_ok r → name ≠ name' →
  keeps (set_stagings (insert name' (next r)) (set_dirs (insert (next r) files) (set_next n r))).
Proof.
  intros Hr Hn. split; simpl; try done; [by rewrite lookup_insert_ne|]. intros d Hd.
  rewrite lookup_insert_ne; [done|]. destruct (stagings_bound _ Hr _ _ Hd). lia.
Qed.

Lemma keeps_files d files : stagings r !! name ≠ Some d → keeps (set_dirs (insert d files) r).
Proof. intros Hd. split; simpl; try done. intros e He. rewrite lookup_insert_ne; [done|congruence]. Qed.

Lemma keeps_rename name' b' d : name ≠ name' → b ≠ b' → keeps (set_stagings (delete name') (set_finals (insert b' d) r)).
Proof. intros Hn Hb. split; simpl; try done; [by rewrite lookup_insert_ne|by rewrite lookup_delete_ne]. Qed.

Lemma keeps_rmdir name' : name ≠ name' → keeps (set_stagings (delete name') r).
Proof. intros Hn. split; simpl; try done. by rewrite lookup_delete_ne. Qed.
End Untouched.

Lemma untouched_expects b name r r' a : untouched b name r r' → expects r b name a → expects r' b name a.
Proof.
  intros [_ Hr Hf Hs Hd].
  assert (in_progress r b → in_progress r' b) as Hp by (unfold in_progress; rewrite Hf, Hr; done).
  assert (∀ files d, staged r b name files d → staged r' b name files d) as Hst.
  { intros files d (H1 & H2 & H3). split; [auto|]. rewrite Hs, (Hd _ H2). done. }
  destruct a; simpl; rewrite ?Hf, ?Hs; auto; naive_solver.
Qed.

Section Frame.
Context (s : State) (Hk : locked_ok s) (Hl : lease_ok s).
Context (p q : nat) (x y y' : Process) (r' : Root).
Context (Hp : procs s !! p = Some x) (Hq : procs s !! q = Some y) (Hpq : p ≠ q).
Context (Hm : moved (locks s) (root s) y r' y').

Lemma holders_differ b file b' file' : holder x = Some (b, file) → holder y = Some (b', file') → b ≠ b'.
Proof.
  intros Hx Hy <-. destruct Hpq.
  pose proof (lease_current s Hl _ _ _ _ Hp Hx) as E1. pose proof (lease_current s Hl _ _ _ _ Hq Hy) as E2.
  assert (file' = file) as -> by congruence.
  assert (∀ z, holder z = Some (b, file) → locked_file z = Some file) as Hlf.
  { intros [? ? ? []|] [=]; simpl; by subst. }
  eapply lock_exclusive; eauto.
Qed.

(** Nothing another process does touches the files of a lease holder. *)
Lemma frame b pid seq pc file : x = Publisher b pid seq pc → holder x = Some (b, file) →
  untouched b (staging_name b pid seq) (root s) r'.
Proof.
  intros Ex Hx. pose proof (publishers_ok s Hk _ _ Hp) as Pok. pose proof (publishers_ok s Hk _ _ Hq) as Qok.
  pose proof (files_expected s Hl _ _ Hq) as Hy. pose proof (root_good s Hl) as Hr.
  pose proof (lease_current s Hl _ _ _ _ Hp Hx) as Hlx.
  assert (clears y ≠ Some b) as Hc by (intros ?; eapply (lease_protects s Hl p q); eauto).
  assert (staging_bundle_id (staging_name b pid seq) = Some b) as Hid.
  { subst x. destruct Pok as (? & ? & Hpc). apply staging_name_bundle_id; [|done..]. by destruct pc. }
  assert (∀ b' file', holder y = Some (b', file') → b ≠ b') as Hdiff by (intros b' file'; by apply (holders_differ b file)).
  set (name := staging_name b pid seq) in *.
  destruct Hm as [| | |b' ? ? ? ? Ho| | |b' pid' seq' file' a ? ? Ha| |b' ? ? ?|? ? ? Hcl]; try apply untouched_refl.
  - calls; [apply untouched_refl|]. apply keeps_lease. congruence.
  - assert (b ≠ b') as Hb by by eapply Hdiff.
    assert (staging_bundle_id (staging_name b' pid' seq') = Some b') as Hid'.
    { destruct Qok as (? & ? & ?). by apply staging_name_bundle_id. }
    assert (name ≠ staging_name b' pid' seq') as Hn by congruence.
    set (name' := staging_name b' pid' seq') in *.
    assert (∀ d, stagings (root s) !! name' = Some d → stagings (root s) !! name ≠ Some d) as Hd
      by (intros d H1 H2; apply Hn; by eapply (stagings_inj _ Hr)).
    destruct Ha; calls; simpl in Hy;
      eauto using untouched_refl, keeps_reserve, keeps_mkdir, keeps_files, keeps_rename, keeps_rmdir, keeps_unreserve.
    all: destruct Hy as (_ & _ & Hs & Hf); erewrite write_at by done; eauto using keeps_files.
  - apply keeps_remove_lease. simpl in Hc. congruence.
  - destruct Hcl; calls; simpl in Hc, Hy; try apply untouched_refl.
    + apply keeps_unreserve. congruence.
    + apply keeps_remove_lease. congruence.
    + apply keeps_files. intros E. apply Hc. by rewrite (stagings_inj _ Hr _ _ _ Hy E).
    + apply keeps_rmdir. intros <-. congruence.
Qed.

(** Nor the directory a cleaner is removing. *)
Lemma frame_removing report name d : x = Cleaner (Removing report name d) →
  stagings (root s) !! name = Some d → stagings r' !! name = Some d.
Proof.
  intros -> Hn. pose proof (publishers_ok s Hk _ _ Hq) as Qok.
  assert (holds_guard y = true → False) as Hng by (intros ?; by destruct Hpq; eapply (guard_exclusive s Hk); eauto).
  destruct Hm as [| | |b' ? ? ? ? Ho| | |b' pid' seq' file' a ? ? Ha| |b' ? ? ?|? ? ? Hcl]; try done.
  - assert (name ≠ staging_name b' pid' seq') as Hne.
    { intros ->. eapply (lease_protects s Hl q p); [exact Hq|exact Hp|reflexivity|]. simpl.
      destruct Qok as (? & ? & ?). by apply staging_name_bundle_id. }
    destruct Ha; calls; simpl; rewrite ?lookup_insert_ne, ?lookup_delete_ne; done.
  - destruct Hcl; try done; by destruct Hng.
Qed.
End Frame.

(** ** Orderly steps keep the lease invariant *)

Lemma moved_expects l r r' x x' : moved l r x r' x' → root_ok r → process_expects r x → process_expects r' x'.
Proof.
  intros Hm Hr Hx. destruct Hm as [| | | | | |b pid seq file a ? n Ha| | |? ? ? Hc]; try done.
  - destruct Ha; simpl in Hx |- *; try done; calls; simpl.
    + split; [exact Hx|simpl; set_solver].
    + split; [lia|]. exists (next r). split; [exact Hx|]. simpl. by rewrite !lookup_insert_eq.
    + destruct Hx as (Hk & e & Hp & He & Hf). simplify_eq. split; [done|]. split; [exact Hp|]. simpl.
      split; [done|]. by rewrite lookup_insert_eq.
    + destruct Hx as (Hk & Hp & Hd & Hf). split; [done|]. erewrite write_at by done. exists d.
      split; [exact Hp|]. split; [done|]. simpl. by rewrite lookup_insert_eq, written_next.
    + destruct Hx as (Hk & Hp & Hd & Hf). erewrite write_at by done. exists d. split; [exact Hp|]. split; [done|].
      simpl. rewrite lookup_insert_eq, written_next by done. by replace k with 4%nat by lia.
    + rewrite lookup_insert_eq. eauto.
    + done.
  - destruct Hc; try done; by calls.
Qed.

Lemma moved_clears l r r' x x' b : moved l r x r' x' → entry_ok x → clears x' = Some b →
  clears x = Some b ∨ (∃ file, holder x = Some (b, file)) ∨ leases r !! b = None ∨
  ∃ file, opened x = Some (b, file) ∧ lock_free l file = true.
Proof.
  intros Hm He Hc. destruct Hm as [| | | | | |? ? ? ? ? ? n| | |? ? ? Hcl]; simpl in Hc; simplify_eq; eauto.
  - by destruct n.
  - destruct Hcl; simpl in *; simplify_eq; eauto 6; congruence.
Qed.

Lemma moved_holder l r r' x x' b file : moved l r x r' x' → holder x' = Some (b, file) →
  leases r' = leases r ∧ (holder x = Some (b, file) ∨ opened x = Some (b, file) ∧ lock_free l file = true).
Proof.
  intros Hm Hh. destruct Hm as [| | | | | |? ? ? ? ? ? n Ha| | |? ? ? Hcl]; simpl in Hh; simplify_eq; eauto.
  assert (∀ b pid seq f, holder (Publisher b pid seq (resume f n)) = Some (b, f)) as E by by destruct n.
  change (holder (Publisher b0 pid seq (resume file0 n)) = Some (b, file)) in Hh. rewrite E in Hh. simplify_eq.
  split; [|auto]. by destruct Ha; calls.
Qed.

Lemma holder_inv x b file : holder x = Some (b, file) → ∃ pid seq pc, x = Publisher b pid seq pc.
Proof. destruct x as [? ? ? []|]; intros [=]; subst; eauto. Qed.

Lemma clears_inv y b : clears y = Some b → unlinking b y = true ∨ holds_guard y = true.
Proof.
  destruct y as [? ? ? []|[]]; simpl; try done; auto. intros [= ->]. left. by apply bool_decide_eq_true.
Qed.

Lemma views_disjoint x b file : holder x = Some (b, file) → clears x = Some b → False.
Proof. by destruct x as [? ? ? []|]. Qed.

Lemma lock_orderly s p k x r x' b file : procs s !! p = Some x → move (locks s) x k (root s) = Some (r, x') →
  orderly_event s (Move p k) = true → holder x = None → holder x' = Some (b, file) →
  leases (root s) !! b = Some file ∧ ∀ q y, procs s !! q = Some y → unlinking b y = false.
Proof.
  intros Hx Hm Ho Hn Hh. destruct x as [b' pid seq pc|pc].
  2: { apply move_moved in Hm. inversion Hm; subst. done. }
  assert (pc = Opened file ∧ b' = b ∧ k = Go) as (-> & -> & ->).
  { destruct k; simpl in Hm.
    - destruct pc; simpl in Hm; try done; crack.
    - destruct pc; simpl in Hm; try done; crack.
    - destruct pc; simpl in Hm; try done; crack.
    - done. }
  simpl in Hm, Ho. rewrite Hx in Ho.
  destruct (nobody s (λ x, locked_file x == Some file)); [|by simplify_eq]. simpl in Ho.
  apply andb_true_iff in Ho as [Hf Hu]. apply bool_decide_eq_true in Hf. rewrite nobody_true in Hu. done.
Qed.

(** A move of one process keeps the lease invariant. *)
Section Step.
Context (s : State) (Hk : locked_ok s) (Hl : lease_ok s).
Context (p : nat) (x x' : Process) (r : Root) (Hx : procs s !! p = Some x).
Context (Hm : moved (locks s) (root s) x r x').
Context (Ho : ∀ b file, holder x = None → holder x' = Some (b, file) →
  leases (root s) !! b = Some file ∧ ∀ q y, procs s !! q = Some y → unlinking b y = false).

Lemma step_lease_current q y b file : <[p := x']> (procs s) !! q = Some y → holder y = Some (b, file) → leases r !! b = Some file.
Proof.
  revert q y. apply (forall_insert (λ _ y, _ → _)).
  - intros q y Hq Hy Hh. destruct (holder_inv _ _ _ Hh) as (pid & seq & pc & Ey).
    rewrite (same_lease _ _ _ _ (frame s Hk Hl q p y x x' r Hy Hx Hq Hm b pid seq pc file Ey Hh)).
    by eapply lease_current.
  - intros Hh. destruct (moved_holder _ _ _ _ _ _ _ Hm Hh) as [-> [H|[H _]]]; [by eapply lease_current|].
    apply Ho; [|done]. by destruct x as [? ? ? []|[]].
Qed.

Lemma step_lease_protects q1 q2 y z b file : <[p := x']> (procs s) !! q1 = Some y → <[p := x']> (procs s) !! q2 = Some z →
  holder y = Some (b, file) → clears z = Some b → False.
Proof.
  intros H1 H2 Hy Hz. apply lookup_insert_Some in H1 as [[<- <-]|[N1 H1]], H2 as [[<- <-]|[N2 H2]].
  - by eapply views_disjoint.
  - destruct (moved_holder _ _ _ _ _ _ _ Hm Hy) as [_ [H|[H _]]]; [exact (lease_protects s Hl p q2 x z b file Hx H2 H Hz)|].
    assert (holder x = None) as Hn by by destruct x as [? ? ? []|[]].
    destruct (Ho _ _ Hn Hy) as [_ Hu]. destruct (clears_inv _ _ Hz) as [H'|Hg]; [by rewrite (Hu _ _ H2) in H'|].
    destruct N2. eapply (guard_exclusive s Hk); eauto using opened_guard.
  - assert (q1 ≠ p) as N1' by done. destruct (moved_clears _ _ _ _ _ _ Hm (entries_ok s Hk _ _ Hx) Hz) as [H|[[f H]|[H|(f & H & Hf)]]].
    + exact (lease_protects s Hl q1 p y x b file H1 Hx Hy H).
    + exact (holders_differ s Hk Hl q1 p y x H1 Hx N1' b file b f Hy H eq_refl).
    + pose proof (lease_current s Hl _ _ _ _ H1 Hy). congruence.
    + pose proof (lease_current s Hl _ _ _ _ H1 Hy) as E. rewrite lock_free_true in Hf.
      destruct (opened_current s Hk _ _ _ _ Hx H) as [E'|E']; [|congruence]. simplify_eq.
      apply (Hf _ _ H1). by destruct y as [? ? ? []|]; simplify_eq/=.
  - exact (lease_protects s Hl q1 q2 y z b file H1 H2 Hy Hz).
Qed.

Lemma step_files_expected q y : <[p := x']> (procs s) !! q = Some y → process_expects r y.
Proof.
  revert q y. apply (forall_insert (λ _ y, _)).
  - intros q y Hq Hy. pose proof (files_expected s Hl _ _ Hy) as He.
    destruct y as [b pid seq pc|pc]; [destruct pc as [| | | |file a| | |]|destruct pc as [| | | | | |rep name d|]]; try done.
    + eapply untouched_expects, He. by eapply (frame s Hk Hl q p).
    + by eapply (frame_removing s Hk Hl q p).
  - eapply moved_expects; [done|apply Hl|]. by eapply files_expected.
Qed.

Lemma step_published_final q y b : <[p := x']> (procs s) !! q = Some y → published b y → is_Some (finals r !! b).
Proof.
  revert q y. apply (forall_insert (λ _ y, _ → _)).
  - intros q y _ Hy Hb. eapply moved_finals; [done|]. by eapply (published_final s Hl).
  - intros [H|(? & ? & ? & _ & H)]%(moved_published _ _ _ _ _ _ Hm); [|done].
    eapply moved_finals; [done|]. by eapply (published_final s Hl).
Qed.

Lemma step_published_once b : exclusive (published b) (<[p := x']> (procs s)).
Proof.
  apply exclusive_insert; [intros p1 p2 y z; by apply (published_once s Hl)|].
  intros [H|(pid & seq & file & -> & _)]%(moved_published _ _ _ _ _ _ Hm); [eauto|].
  right. intros q y Hy Hb. destruct (files_expected s Hl _ _ Hx) as (d & (Hf & _) & _).
  destruct (published_final s Hl _ _ _ Hy Hb). congruence.
Qed.

Lemma step_lease_ok : lease_ok {| root := r; procs := <[p := x']> (procs s) |}.
Proof.
  split; simpl; eauto using step_lease_current, step_lease_protects, step_files_expected, step_published_final.
  - intros p1 p2 y z b. apply step_published_once.
  - eapply moved_root; [done|apply Hl|]. by eapply files_expected.
Qed.
End Step.

Lemma stepped_lease s e s' : locked_ok s → lease_ok s → orderly_event s e = true → step s e = Some s' → lease_ok s'.
Proof.
  intros Hk Hl Ho [p x Hx Hi|p|p k x r x' -> Hx Hm]%step_stepped.
  - destruct (initial_views x Hi) as (_ & _ & _ & Vh & Vc & _ & _ & Vp & Ve).
    assert (∀ q y (P : Process → Prop), (∀ q y, procs s !! q = Some y → P y) → P x →
      <[p := x]> (procs s) !! q = Some y → P y) as Hins.
    { intros q y P H1 H2. revert q y. by apply (forall_insert (λ _, P)); eauto. }
    split; simpl.
    + intros q y b file Hy. revert y Hy. intros y Hy. apply (Hins q y (λ y, holder y = Some (b, file) → _)); [|congruence|done].
      intros. by eapply lease_current.
    + intros q1 q2 y z b file [[<- <-]|[N1 H1]]%lookup_insert_Some [[<- <-]|[N2 H2]]%lookup_insert_Some; try congruence.
      by eapply lease_protects.
    + intros q y. apply Hins; [|done]. apply files_expected, Hl.
    + intros q y b Hy Hb. revert Hb. apply (Hins q y (λ y, published b y → _)); [|by intros ?%Vp|done].
      intros. by eapply published_final.
    + intros q1 q2 y z b. apply (exclusive_insert (published b)); [intros p1 p2 y' z'; by apply (published_once s Hl)|by intros ?%Vp].
    + apply Hl.
  - destruct Hl as [H1 H2 H3 H4 H5 H6]. split; simpl; intros *; rewrite ?lookup_delete_Some; naive_solver.
  - apply step_lease_ok with (x := x); try done; [by eapply move_moved|]. intros b file. by eapply lock_orderly.
Qed.

(** ** Runs *)

Lemma moved_final_stays l r r' x x' b d : moved l r x r' x' → process_expects r x →
  finals r !! b = Some d → finals r' !! b = Some d.
Proof.
  intros Hm Hx Hb. destruct Hm as [| | |? ? ? ? ? Ho| | |b' ? ? ? ? ? n Ha| | |? ? ? Hc]; try done; [by calls|..].
  - destruct Ha; calls; try done. simpl in *. destruct Hx as (e & (Hf & _) & _).
    rewrite lookup_insert_ne; [done|congruence].
  - by destruct Hc; calls.
Qed.

Lemma step_final_stays s e s' b d : lease_ok s → step s e = Some s' →
  finals (root s) !! b = Some d → finals (root s') !! b = Some d.
Proof.
  intros Hl [p x Hx Hi|p|p k x r x' -> Hx Hm%move_moved]%step_stepped Hb; [done..|].
  eapply moved_final_stays; [done| |done]. by eapply files_expected.
Qed.

(** A state all the invariants hold of. *)
Definition sound (s : State) : Prop := locked_ok s ∧ lease_ok s.

Lemma sound_init r : root_ok r → sound {| root := r; procs := ∅ |}.
Proof. intros Hr. split; [apply locked_ok_init|]. split; simpl; try done; intros *; by rewrite lookup_empty. Qed.

Lemma sound_step s e s' : sound s → orderly_event s e = true → step s e = Some s' → sound s'.
Proof. intros [Hk Hl] Ho Hs. split; [by eapply stepped_locked, step_stepped|by eapply stepped_lease]. Qed.

Lemma sound_run es : ∀ s s', sound s → orderly s es = true → run s es = Some s' →
  sound s' ∧ ∀ b d, finals (root s) !! b = Some d → finals (root s') !! b = Some d.
Proof.
  induction es as [|e es IH]; intros s s' Hs Ho Hr; simpl in *; [by simplify_eq|].
  apply andb_true_iff in Ho as [He Ho]. destruct (step s e) as [s1|] eqn:E; [|done].
  destruct (IH s1 s') as [H1 H2]; [by eapply sound_step|done|done|]. split; [done|].
  intros b d Hb. eapply H2, step_final_stays; [apply Hs|done|done].
Qed.

Lemma run_app es1 es2 s : run s (es1 ++ es2) = match run s es1 with Some s' => run s' es2 | None => None end.
Proof. revert s. induction es1 as [|e es1 IH]; intros s; simpl; [done|]. by destruct (step s e). Qed.

Lemma orderly_app es1 es2 s s' : run s es1 = Some s' →
  orderly s (es1 ++ es2) = orderly s es1 && orderly s' es2.
Proof.
  revert s. induction es1 as [|e es1 IH]; intros s; simpl; [by intros [= ->]|].
  destruct (step s e); [|done]. intros H. by rewrite (IH _ H), andb_assoc.
Qed.

(** ** Progress *)

Lemma written_absent k : (k < 5)%nat → written k !! report_file k = None.
Proof. intros Hk. do 5 (destruct k as [|k]; [reflexivity|]). lia. Qed.

(** The points between a publisher's reservation and its rename where nothing
    but its own failing calls can stop it; [mkdir] may meet a directory a dead
    process with the same numbers left. *)
Definition protected (a : Act) : bool :=
  match a with
  | Reserving | Check2 | Create _ | Write _ _ | Sync | Check3 | Rename | SyncRoot => true
  | _ => false
  end.

Definition refused (n : Act + Outcome) : bool :=
  match n with inl (DropStaging _ | DropReservation _) | inr (Refused _) => true | _ => false end.

Lemma protected_go r b name a : expects r b name a → protected a = true →
  ∃ r' n, act_go b name a r = Some (r', n) ∧ refused n = false.
Proof.
  unfold act_go, exists_final. destruct a; simpl; try done; intros H _; eauto.
  - destruct H as [-> _]. eauto.
  - destruct H as (Hk & d & _ & Hd & Hf). unfold create_report_file. rewrite Hd, Hf, written_absent by done. eauto.
  - eexists _, _. split; [done|]. by destruct k as [|[|[|[|]]]].
  - destruct H as (d & _ & -> & _). eauto.
  - destruct H as (d & [-> _] & _). eauto.
  - destruct H as (d & [Hn _] & Hd & _). unfold rename. rewrite Hd, Hn. eauto.
Qed.

(** The publisher's own steps from here to the end. *)
Definition remaining (a : Act) : nat :=
  match a with
  | Create k => 4 + 2 * (5 - k)
  | Write k _ => 3 + 2 * (5 - k)
  | Sync => 4 | Check3 => 3 | Rename => 2 | SyncRoot => 1
  | _ => 0
  end.

Lemma act_go_remaining r b name a r' n : expects r b name a → (0 < remaining a)%nat →
  act_go b name a r = Some (r', n) → refused n = false →
  match n with inl a' => remaining a = S (remaining a') ∧ (0 < remaining a')%nat | inr o => o = Published ∧ remaining a = 1%nat end.
Proof.
  destruct a; simpl; try lia; intros H _ Hg Hn; crack; lia || done || idtac.
  match goal with E : (S _ <? 5)%nat = false |- _ => apply Nat.ltb_ge in E end. lia.
Qed.

Lemma move_orderly s p b pid seq pc : procs s !! p = Some (Publisher b pid seq pc) →
  match pc with Opened _ => False | _ => True end → orderly_event s (Move p Go) = true.
Proof. intros Hp Hpc. simpl. rewrite Hp. by destruct pc. Qed.

Lemma run_returning s p b pid seq file o : sound s → procs s !! p = Some (Publisher b pid seq (Returning file o)) →
  ∃ s', run s (go p 2) = Some s' ∧ sound s' ∧ procs s' !! p = Some (Publisher b pid seq (Returned o)).
Proof.
  intros Hs Hp. set (s1 := {| root := root s; procs := <[p := Publisher b pid seq (Unlocked o)]> (procs s) |}).
  assert (step s (Move p Go) = Some s1) as E1 by (simpl; by rewrite Hp).
  assert (procs s1 !! p = Some (Publisher b pid seq (Unlocked o))) as Hp1 by apply lookup_insert_eq.
  assert (sound s1) as Hs1 by (eapply sound_step; [done|eapply move_orderly|]; done).
  set (s2 := {| root := remove_lease b (root s1); procs := <[p := Publisher b pid seq (Returned o)]> (procs s1) |}).
  assert (step s1 (Move p Go) = Some s2) as E2 by (unfold step; by rewrite Hp1).
  exists s2. change (go p 2) with [Move p Go; Move p Go]. cbn [run]. rewrite E1, E2.
  split; [done|]. split; [|apply lookup_insert_eq]. eapply sound_step; [done|eapply move_orderly|]; done.
Qed.

Lemma run_holder s p b pid seq file a : sound s →
  procs s !! p = Some (Publisher b pid seq (Running file a)) → (0 < remaining a)%nat →
  ∃ s', run s (go p (remaining a + 2)) = Some s' ∧ sound s' ∧
    procs s' !! p = Some (Publisher b pid seq (Returned Published)).
Proof.
  remember (remaining a) as n eqn:En. revert s a En.
  induction n as [|n IH]; intros s a En Hs Hp Hn; [lia|].
  pose proof (files_expected s (proj2 Hs) _ _ Hp) as He.
  assert (protected a = true) as Ha by (destruct a; simpl in *; done || lia).
  destruct (protected_go _ _ _ _ He Ha) as (r' & m & Hg & Hr).
  pose proof (act_go_remaining _ _ _ _ _ _ He ltac:(lia) Hg Hr) as Hrem.
  set (s1 := {| root := r'; procs := <[p := Publisher b pid seq (resume file m)]> (procs s) |}).
  assert (step s (Move p Go) = Some s1) as Hstep by (simpl; by rewrite Hp; simpl; rewrite Hg).
  assert (procs s1 !! p = Some (Publisher b pid seq (resume file m))) as Hp1 by apply lookup_insert_eq.
  assert (sound s1) as Hs1 by (eapply sound_step; [done|eapply move_orderly|]; done).
  change (go p (S n + 2)) with (Move p Go :: go p (n + 2)). cbn [run]. rewrite Hstep.
  destruct m as [a'|o].
  - apply (IH s1 a'); [lia|done|done|lia].
  - destruct Hrem as [-> H1]. assert (n = 0%nat) as -> by lia. by apply (run_returning s1 p b pid seq file).
Qed.

(** ** Recovery *)

Section Recovery.
Context (s : State) (c : nat) (Hc : procs s !! c = None).

(** The state when only the new cleaner [c] has moved. *)
Definition cleaning (r : Root) (pc : CleanerPc) : State :=
  {| root := r; procs := <[c := Cleaner pc]> (procs s) |}.

Definition own_event (e : Event) : Prop := e = Clean c ∨ ∃ k, e = Move c k.

Definition cleans (s1 s2 : State) : Prop := ∃ es, Forall own_event es ∧ run s1 es = Some s2.

#[global] Instance cleans_preorder : PreOrder cleans.
Proof.
  split; [intros t; by exists []|]. intros s1 s2 s3 (es1 & F1 & E1) (es2 & F2 & E2). exists (es1 ++ es2).
  split; [by apply Forall_app|]. by rewrite run_app, E1.
Qed.

Lemma cleans_move r pc r' pc' k : move (locks (cleaning r pc)) (Cleaner pc) k r = Some (r', Cleaner pc') →
  cleans (cleaning r pc) (cleaning r' pc').
Proof.
  intros Hm. exists [Move c k]. split; [constructor; [right; eauto|done]|].
  unfold cleaning in *. simpl. rewrite lookup_insert_eq, Hm, insert_insert_eq. done.
Qed.

Lemma cleaning_lock_free r pc file : locked_file (Cleaner pc) = None →
  lock_free (locks s) file = true → lock_free (locks (cleaning r pc)) file = true.
Proof.
  rewrite !lock_free_true. intros Hpc Hf. apply (forall_insert (λ _ x, locked_file x ≠ Some file)); [eauto|congruence].
Qed.

Lemma cleans_start : guard_free (locks s) = true → ∃ report, cleans s (cleaning (root s) (Scan report)).
Proof.
  intros Hg. eexists. transitivity (cleaning (root s) CStart).
  - exists [Clean c]. split; [constructor; [by left|done]|]. simpl. unfold spawn. by rewrite Hc.
  - apply (cleans_move _ _ _ _ Go). simpl.
    assert (nobody (cleaning (root s) CStart) holds_guard = true) as ->; [|done].
    apply nobody_true, (forall_insert (λ _ x, holds_guard x = false)); [|done]. rewrite guard_free_true in Hg. eauto.
Qed.

(** A probe of a bundle nobody publishes leads to the removal. *)
Lemma cleans_probe r report b e : (∀ b', e ≠ LeaseEntry b') →
  (∀ file, leases r !! b = Some file → lock_free (locks s) file = true) →
  cleans (cleaning r (Probe report b e)) (cleaning r (Remove report e)).
Proof.
  intros He Hf. destruct (leases r !! b) as [file|] eqn:El.
  - transitivity (cleaning r (ProbeOpened report b e file)).
    { apply (cleans_move _ _ _ _ Go). simpl. by rewrite El. }
    transitivity (cleaning r (Probed report b e file)).
    { apply (cleans_move _ _ _ _ Go).
      pose proof (cleaning_lock_free r (ProbeOpened report b e file) file eq_refl (Hf _ eq_refl)) as E.
      simpl in E |- *. by rewrite E. }
    by apply (cleans_move _ _ _ _ Go).
  - apply (cleans_move _ _ _ _ Go). simpl. rewrite El. by destruct e; [| |destruct (He _ eq_refl)].
Qed.

Lemma cleans_reservation r report b : finals r !! b = None →
  (∀ file, leases r !! b = Some file → lock_free (locks s) file = true) →
  ∃ report', cleans (cleaning r (Scan report)) (cleaning (remove_reservation b r) (Scan report')).
Proof.
  intros Hb Hf. destruct (decide (b ∈ reservations r)) as [Hin|Hin].
  - eexists. etransitivity; [|etransitivity].
    + apply (cleans_move _ _ r (Probe report b (ReservationEntry b)) (Pick (ReservationEntry b))).
      simpl. rewrite bool_decide_true by done. unfold exists_final. by rewrite Hb.
    + by apply cleans_probe.
    + by apply (cleans_move _ _ _ _ Go).
  - exists report. replace (remove_reservation b r) with r; [done|]. destruct r. unfold remove_reservation, set_reservations.
    simpl in *. f_equal. set_solver.
Qed.

(** Unlinking one file after another empties the directory. *)
Lemma cleans_unlink report name d : ∀ n files r, stagings r !! name = Some d → dirs r !! d = Some files → size files = n →
  cleans (cleaning r (Removing report name d)) (cleaning (set_dirs (insert d ∅) r) (Removing report name d)).
Proof.
  induction n as [|n IH]; intros files r Hn Hd Hs.
  - apply map_size_empty_inv in Hs as ->. replace (set_dirs (insert d ∅) r) with r; [done|].
    destruct r. unfold set_dirs. simpl in *. by rewrite insert_id.
  - destruct (map_choose files) as (file & content & Hfile); [by intros ->|].
    transitivity (cleaning (set_dirs (insert d (delete file files)) r) (Removing report name d)).
    + apply (cleans_move _ _ _ _ (Unlink file)). simpl. unfold unlink. by rewrite Hd, Hfile.
    + replace (set_dirs (insert d ∅) r) with (set_dirs (insert d ∅) (set_dirs (insert d (delete file files)) r))
        by (unfold set_dirs; simpl; by rewrite insert_insert_eq).
      eapply IH; [done|by apply lookup_insert_eq|]. rewrite (map_size_delete_Some (M := gmap string)) by done. lia.
Qed.

Lemma cleans_staging r report name b : is_Some (strip_prefix (bytes STAGING_PREFIX) name) → staging_bundle_id name = Some b →
  (∀ n d, stagings r !! n = Some d → is_Some (dirs r !! d)) →
  (∀ file, leases r !! b = Some file → lock_free (locks s) file = true) →
  ∃ report' r', cleans (cleaning r (Scan report)) (cleaning r' (Scan report')) ∧ stagings r' = delete name (stagings r) ∧
    reservations r' = reservations r ∧ leases r' = leases r ∧ finals r' = finals r.
Proof.
  intros [rest Hp] Hid Hdirs Hf. destruct (stagings r !! name) as [d|] eqn:Hn.
  2: { exists report, r. rewrite delete_id by done. done. }
  destruct (Hdirs _ _ Hn) as [files Hd].
  eexists _, (set_stagings (delete name) (set_dirs (insert d ∅) r)). split; [|done].
  etransitivity; [|etransitivity; [|etransitivity; [|etransitivity]]].
  - apply (cleans_move _ _ r (Probe report b (StagingEntry name)) (Pick (StagingEntry name))).
    cbn [move pick]. by rewrite Hn, Hp, Hid.
  - by apply cleans_probe.
  - apply (cleans_move _ _ r (Removing report name d) Go). simpl. by rewrite Hn.
  - by eapply cleans_unlink.
  - apply (cleans_move _ _ _ _ Go). simpl. unfold rmdir. simpl. rewrite Hn. unfold is_empty_dir. simpl.
    by rewrite lookup_insert_eq, bool_decide_true.
Qed.
End Recovery.

Lemma empty_root_ok : root_ok empty_root.
Proof. split; simpl; intros *; by rewrite lookup_empty. Qed.

(** ** Properties *)

(** C30: in an orderly run of any publishers and cleaners, every call failing or
    succeeding and every process dying anywhere, a bundle directory holds the
    five complete report files from the moment it exists, and is the same
    directory ever after; what a publisher reports as published is there, and no
    two publishers have published the same bundle. *)
Theorem bundles_complete_and_immutable (r : Root) (es1 es2 : list Event) (s1 s2 : State)
  (root_sound : root_ok r)
  (before : run {| root := r; procs := ∅ |} es1 = Some s1) (after : run s1 es2 = Some s2)
  (in_order : orderly {| root := r; procs := ∅ |} (es1 ++ es2) = true) :
  (∀ b d, finals (root s1) !! b = Some d →
     finals (root s2) !! b = Some d ∧ dirs (root s1) !! d = Some complete ∧ dirs (root s2) !! d = Some complete) ∧
  (∀ p x b, procs s2 !! p = Some x → published b x → is_Some (finals (root s2) !! b)) ∧
  (∀ p q x y b, procs s2 !! p = Some x → procs s2 !! q = Some y → published b x → published b y → p = q).
Proof.
  rewrite (orderly_app _ _ _ _ before) in in_order. apply andb_true_iff in in_order as [Ho1 Ho2].
  destruct (sound_run es1 _ _ (sound_init _ root_sound) Ho1 before) as [[Hk1 Hl1] _].
  destruct (sound_run es2 _ _ (conj Hk1 Hl1) Ho2 after) as [[Hk2 Hl2] Hstay].
  split; [|split; [apply Hl2|apply Hl2]]. intros b d Hb. split; [by apply Hstay|].
  split; [by eapply (finals_complete _ (root_good _ Hl1))|by eapply (finals_complete _ (root_good _ Hl2)), Hstay].
Qed.

(** In an orderly run a publisher that holds its lease holds the lock of the
    file at its lease path, and finds its reservation, its staging directory with
    exactly the files it has written, and no final directory, whatever the other
    publishers and the cleaners do; so between its reservation and its rename no
    call of it is refused on their account. *)
Theorem lease_protects_publisher (r : Root) (es : list Event) (s : State) (p : nat) (b : bundle) (pid seq file : N) (a : Act)
  (root_sound : root_ok r)
  (reached : run {| root := r; procs := ∅ |} es = Some s) (in_order : orderly {| root := r; procs := ∅ |} es = true)
  (publishing : procs s !! p = Some (Publisher b pid seq (Running file a))) :
  leases (root s) !! b = Some file ∧
  (∀ q y, procs s !! q = Some y → locked_file y = Some file → q = p) ∧
  (∀ q y, procs s !! q = Some y → clears y ≠ Some b) ∧
  expects (root s) b (staging_name b pid seq) a ∧
  (protected a = true → ∃ r' n, act_go b (staging_name b pid seq) a (root s) = Some (r', n) ∧ refused n = false).
Proof.
  destruct (sound_run es _ _ (sound_init _ root_sound) in_order reached) as [[Hk Hl] _].
  pose proof (files_expected _ Hl _ _ publishing) as He. split; [by eapply (lease_current _ Hl)|].
  split; [intros q y Hq Hy; exact (lock_exclusive _ Hk q p y _ file Hq publishing Hy eq_refl)|].
  split; [intros q y Hq Hy; exact (lease_protects _ Hl p q _ y b file publishing Hq eq_refl Hy)|]. split; [exact He|]. by apply protected_go.
Qed.

(** A publisher that has its staging directory, in any state an orderly run
    reaches, needs only its own steps to publish: if its calls succeed it ends
    with the bundle published and complete. *)
Theorem publisher_finishes (r : Root) (es : list Event) (s : State) (p : nat) (b : bundle) (pid seq file : N) (a : Act)
  (root_sound : root_ok r)
  (reached : run {| root := r; procs := ∅ |} es = Some s) (in_order : orderly {| root := r; procs := ∅ |} es = true)
  (publishing : procs s !! p = Some (Publisher b pid seq (Running file a))) (staged_already : (0 < remaining a)%nat) :
  ∃ s' d, run s (go p (remaining a + 2)) = Some s' ∧
    procs s' !! p = Some (Publisher b pid seq (Returned Published)) ∧
    finals (root s') !! b = Some d ∧ dirs (root s') !! d = Some complete.
Proof.
  destruct (sound_run es _ _ (sound_init _ root_sound) in_order reached) as [Hs _].
  destruct (run_holder _ _ _ _ _ _ _ Hs publishing staged_already) as (s' & Hrun & [_ Hl] & Hp).
  destruct (published_final _ Hl _ _ b Hp eq_refl) as [d Hd]. exists s', d. repeat (split; [done|]).
  by apply (finals_complete _ (root_good _ Hl) b).
Qed.

(** What a dead or failed publisher of an unfinished bundle left behind can be
    removed: once no process holds the root guard or the bundle's lease, a new
    cleaner has a run that leaves neither the reservation nor the staging
    directory, and no other entry changed. *)
Theorem abandoned_state_recovered (r : Root) (es : list Event) (s : State) (c : nat) (b : bundle) (pid seq : N)
  (root_sound : root_ok r)
  (reached : run {| root := r; procs := ∅ |} es = Some s) (in_order : orderly {| root := r; procs := ∅ |} es = true)
  (fresh_cleaner : procs s !! c = None) (nobody_cleans : guard_free (locks s) = true)
  (nobody_publishes : ∀ file, leases (root s) !! b = Some file → lock_free (locks s) file = true)
  (valid : validate_report_bundle_id b = Ok ()) (numbers : pid ≤ u32_max ∧ seq ≤ u64_max)
  (unfinished : finals (root s) !! b = None) :
  ∃ s', cleans c s s' ∧
    reservations (root s') = reservations (root s) ∖ {[b]} ∧
    stagings (root s') = delete (staging_name b pid seq) (stagings (root s)) ∧
    finals (root s') = finals (root s) ∧ leases (root s') = leases (root s).
Proof.
  destruct (sound_run es _ _ (sound_init _ root_sound) in_order reached) as [[_ Hl] _].
  destruct (cleans_start s c fresh_cleaner nobody_cleans) as [rep1 H1].
  destruct (cleans_reservation s c fresh_cleaner (root s) rep1 b unfinished nobody_publishes) as [rep2 H2].
  destruct (cleans_staging s c (remove_reservation b (root s)) rep2 (staging_name b pid seq) b) as (rep3 & r' & H3 & Es & Er & El & Ef).
  - unfold staging_name. rewrite strip_prefix_app. eauto.
  - destruct numbers; by apply staging_name_bundle_id.
  - intros n d Hn. by destruct (stagings_bound _ (root_good _ Hl) _ _ Hn).
  - exact nobody_publishes.
  - exists (cleaning s c r' (Scan rep3)). split; [etransitivity; [exact H1|etransitivity; [exact H2|exact H3]]|].
    simpl. by rewrite Es, Er, El, Ef.
Qed.

(** ** What the guarantees need *)

Definition demo_id : bundle := bytes "verify-1".

(** A publisher fails after its first file; another publishes while the first is
    between unlocking its lease and removing the path. *)
Definition retried : list Event :=
  [Publish 0 demo_id 7 1] ++ go 0 11 ++ [Move 0 Fail] ++ go 0 1 ++ [Move 0 (Unlink "result.json")] ++ go 0 3
  ++ [Publish 1 demo_id 8 1] ++ go 1 4 ++ go 0 1 ++ go 1 15.

(** A cleaner opens the second publisher's staging directory, removes one file,
    and the publisher renames the rest. *)
Definition lease_race : list Event :=
  retried ++ [Clean 2] ++ go 2 1 ++ [Move 2 (Pick (StagingEntry (staging_name demo_id 8 1)))] ++ go 2 2
  ++ [Move 2 (Unlink "result.json")] ++ go 1 6.

(** A cleaner sees no bundle, its publisher finishes, and the probe finds the
    lease free. *)
Definition probe_race : list Event :=
  [Publish 0 demo_id 7 1] ++ go 0 21 ++ [Clean 1] ++ go 1 1 ++ [Move 1 (Pick (ReservationEntry demo_id))]
  ++ go 0 4 ++ go 1 2.

Definition final_files (s : State) (b : bundle) : option Files :=
  match finals (root s) !! b with Some d => dirs (root s) !! d | None => None end.

(** The state a run from an empty root ends in. *)
Definition reached_by (es : list Event) : State := default fresh (run fresh es).

Lemma run_reached_by es : is_some (run fresh es) = true → run fresh es = Some (reached_by es).
Proof. unfold reached_by. by destruct (run fresh es). Qed.

(** What the documents promise of every run fails in some.  A run exists in
    which a publisher reports a bundle as published and the bundle lacks a
    report file, because the lease it held was unlinked under it by its
    predecessor and cleanup took it for abandoned; and an orderly run exists in
    which cleanup removes the reservation of a bundle that is published. *)
Theorem cleanup_races :
  (∃ es s files, run fresh es = Some s ∧
    procs s !! 1%nat = Some (Publisher demo_id 8 1 (Returned Published)) ∧
    final_files s demo_id = Some files ∧ files !! "result.json" = None) ∧
  (∃ es s, run fresh es = Some s ∧ orderly fresh es = true ∧
    procs s !! 0%nat = Some (Publisher demo_id 7 1 (Returned Published)) ∧
    final_files s demo_id = Some complete ∧ demo_id ∉ reservations (root s)).
Proof.
  split.
  - exists lease_race, (reached_by lease_race), (delete "result.json" complete).
    split; [apply run_reached_by|repeat split]; vm_compute; reflexivity.
  - exists probe_race, (reached_by probe_race). split; [apply run_reached_by; vm_compute; reflexivity|].
    split; [vm_compute; reflexivity|]. split; [vm_compute; reflexivity|]. split; [vm_compute; reflexivity|].
    apply (bool_decide_eq_false_1 (demo_id ∈ reservations (root (reached_by probe_race)))). vm_compute. reflexivity.
Qed.

(** *** Witnesses *)

(** Two publishers of one bundle and one of another, and a cleaner. *)
Definition demo_start : list Event :=
  [Publish 0 demo_id 7 1; Publish 1 demo_id 8 1; Publish 2 (bytes "check-2") 9 4; Clean 3] ++ go 0 13
  ++ go 1 3 ++ go 2 12 ++ go 3 1 ++ [Move 3 (Pick (StagingEntry (staging_name demo_id 7 1)))] ++ go 3 2
  ++ [Move 2 Fail] ++ [Crash 2].

Lemma bundles_complete_and_immutable_witness :
  finals (root (reached_by (demo_start ++ go 0 12))) !! demo_id = Some 1 ∧
  dirs (root (reached_by ((demo_start ++ go 0 12) ++ go 3 1))) !! 1 = Some complete.
Proof.
  split; [reflexivity|].
  refine (proj2 (proj2 (proj1 (bundles_complete_and_immutable empty_root (demo_start ++ go 0 12) (go 3 1)
    (reached_by (demo_start ++ go 0 12)) (reached_by ((demo_start ++ go 0 12) ++ go 3 1))
    empty_root_ok _ _ _) demo_id 1 _))); vm_compute; reflexivity.
Defined.

Lemma demo_publishes : run fresh demo_start = Some (reached_by demo_start) ∧ orderly fresh demo_start = true ∧
  procs (reached_by demo_start) !! 0%nat = Some (Publisher demo_id 7 1 (Running 0 (Create 2))).
Proof. split; [apply run_reached_by; vm_compute; reflexivity|]. split; vm_compute; reflexivity. Qed.

Lemma lease_protects_publisher_witness :
  expects (root (reached_by demo_start)) demo_id (staging_name demo_id 7 1) (Create 2) ∧
  leases (root (reached_by demo_start)) !! demo_id = Some 0.
Proof.
  destruct demo_publishes as (Hrun & Ho & Hp).
  destruct (lease_protects_publisher empty_root demo_start _ 0 demo_id 7 1 0 (Create 2)
    empty_root_ok Hrun Ho Hp) as (Hf & _ & _ & He & _).
  split; [exact He|exact Hf].
Defined.

Lemma publisher_finishes_witness :
  ∃ s' d, run (reached_by demo_start) (go 0 12) = Some s' ∧
    procs s' !! 0%nat = Some (Publisher demo_id 7 1 (Returned Published)) ∧
    finals (root s') !! demo_id = Some d ∧ dirs (root s') !! d = Some complete.
Proof.
  destruct demo_publishes as (Hrun & Ho & Hp).
  exact (publisher_finishes empty_root demo_start _ 0 demo_id 7 1 0 (Create 2)
    empty_root_ok Hrun Ho Hp (Nat.lt_0_succ _)).
Defined.

(** The cleaner has stopped and publisher 2 has died with its files. *)
Definition demo_crash : list Event := demo_start ++ [Move 3 Fail].

Lemma crash_runs : run fresh demo_crash = Some (reached_by demo_crash) ∧ orderly fresh demo_crash = true ∧
  procs (reached_by demo_crash) !! 5%nat = None ∧ guard_free (locks (reached_by demo_crash)) = true ∧
  leases (root (reached_by demo_crash)) !! bytes "check-2" = Some 2 ∧ lock_free (locks (reached_by demo_crash)) 2 = true ∧
  finals (root (reached_by demo_crash)) !! bytes "check-2" = None ∧
  bool_decide (bytes "check-2" ∈ reservations (root (reached_by demo_crash))) = true.
Proof. split; [apply run_reached_by; vm_compute; reflexivity|]. repeat (split; [vm_compute; reflexivity|]). vm_compute; reflexivity. Qed.

Lemma abandoned_state_recovered_witness :
  let s := reached_by demo_crash in
  bytes "check-2" ∈ reservations (root s) ∧
  ∃ s', cleans 5 s s' ∧ reservations (root s') = reservations (root s) ∖ {[bytes "check-2"]}.
Proof.
  destruct crash_runs as (Hrun & Ho & Hc & Hg & Hl & Hf & Hn & Hr%bool_decide_eq_true). split; [exact Hr|].
  destruct (abandoned_state_recovered empty_root demo_crash _ 5 (bytes "check-2") 9 4 empty_root_ok Hrun Ho Hc Hg)
    as (s' & Hs & Hres & _).
  - intros file Hfile. rewrite Hl in Hfile. injection Hfile as <-. exact Hf.
  - reflexivity.
  - split; discriminate.
  - exact Hn.
  - exists s'. split; [exact Hs|exact Hres].
Defined.
