(* ===== verification/Path.v ===== *)
(** * Path: Rust's [std::path] on Unix

    A path is its text; what it names is its list of components.  [Path]'s
    equality, order, [starts_with], [parent] and [ancestors] see the components
    only, [join] works on the text, and the lemma [components_join] connects the
    two: a relative path lands beneath the directory it is joined to.  A path
    computed from components is written with single separators, which the
    operating system resolves to the same file.  Windows prefixes have no
    component here. *)

From S2P Require Import Prelude Text.

Abbreviation Path := string.

Inductive Component := RootDir | CurDir | ParentDir | Normal (name : string).

#[export] Instance Component_eq_dec : EqDecision Component.
Proof. solve_decision. Defined.

Definition is_absolute (p : Path) : bool := starts_with "/" p.

(** A piece between separators: empty pieces and [.] are skipped. *)
Definition body_component (part : list ascii) : option Component :=
  if part == [] then None
  else if part == ["."%char] then None
  else if part == ["."%char; "."%char] then Some ParentDir
  else Some (Normal (of_bytes part)).

Definition body (l : list ascii) : list Component := omap body_component (split_list "/" l).

(** A leading [.] of a relative path is a component. *)
Definition front (p : Path) : list Component :=
  if is_absolute p then [RootDir]
  else match split_list "/" (bytes p) with
       | piece :: _ => if piece == ["."%char] then [CurDir] else []
       | [] => []
       end.

Definition components (p : Path) : list Component := front p ++ body (bytes p).

(** [push]: an absolute path replaces the whole. *)
Definition join (p q : Path) : Path :=
  if is_absolute q then q
  else match last (bytes p) with
       | None => q
       | Some c => if c == "/"%char then p +:+ q else p +:+ "/" +:+ q
       end.

Fixpoint strip_components (base l : list Component) : option (list Component) :=
  match base, l with
  | [], _ => Some l
  | c :: base, d :: l => if c == d then strip_components base l else None
  | _ :: _, [] => None
  end.

Definition path_starts_with (p base : Path) : bool :=
  is_some (strip_components (components base) (components p)).

Definition path_eq (p q : Path) : bool := components p == components q.

Definition component_text (c : Component) : list ascii :=
  match c with
  | RootDir => []
  | CurDir => ["."%char]
  | ParentDir => ["."%char; "."%char]
  | Normal name => bytes name
  end.

Fixpoint concat_components (cs : list Component) : list ascii :=
  match cs with
  | [] => []
  | [c] => component_text c
  | c :: cs => component_text c ++ "/"%char :: concat_components cs
  end.

Definition of_components (cs : list Component) : Path :=
  of_bytes match cs with
           | RootDir :: cs => "/"%char :: concat_components cs
           | _ => concat_components cs
           end.

Definition parent (p : Path) : option Path :=
  match rev (components p) with
  | [] | RootDir :: _ => None
  | _ :: rest => Some (of_components (rev rest))
  end.

Definition file_name (p : Path) : option string :=
  match last (components p) with Some (Normal name) => Some name | _ => None end.

(** The path and its parents, nearest first. *)
Fixpoint parents (reversed : list Component) : list Path :=
  match reversed with
  | [] | RootDir :: _ => []
  | _ :: rest => of_components (rev rest) :: parents rest
  end.

Definition ancestors (p : Path) : list Path := p :: parents (rev (components p)).

(** *** Order *)

Definition component_cmp (a b : Component) : comparison :=
  match a, b with
  | Normal x, Normal y => str_cmp x y
  | RootDir, RootDir | CurDir, CurDir | ParentDir, ParentDir => Eq
  | RootDir, _ => Lt
  | _, RootDir => Gt
  | CurDir, _ => Lt
  | _, CurDir => Gt
  | ParentDir, _ => Lt
  | _, ParentDir => Gt
  end.

Fixpoint components_cmp (a b : list Component) : comparison :=
  match a, b with
  | [], [] => Eq
  | [], _ :: _ => Lt
  | _ :: _, [] => Gt
  | x :: a, y :: b => match component_cmp x y with Eq => components_cmp a b | o => o end
  end.

Definition path_cmp (p q : Path) : comparison := components_cmp (components p) (components q).

Definition sort_paths (l : list Path) : list Path := sort_by path_cmp l.

(** [Vec::dedup]: of consecutive equal paths the first stays. *)
Fixpoint dedup (l : list Path) : list Path :=
  match l with
  | [] => []
  | p :: l =>
      match dedup l with
      | [] => [p]
      | q :: l => if path_eq p q then p :: l else p :: q :: l
      end
  end.

(** ** Lemmas: components *)

Lemma body_app l1 l2 : body (l1 ++ "/"%char :: l2) = body l1 ++ body l2.
Proof. unfold body. by rewrite split_list_app, omap_app. Qed.

Lemma body_nil : body [] = [].
Proof. done. Qed.

Lemma body_components_body l c : c ∈ body l → c ≠ RootDir ∧ c ≠ CurDir.
Proof.
  unfold body. rewrite list_elem_of_omap. intros (part & _ & H). revert H.
  unfold body_component. repeat case_bool_decide; intros [= <-]; done.
Qed.

Lemma starts_with_bytes c p : starts_with c p = match bytes p with d :: _ => d == c | [] => false end.
Proof. by destruct p. Qed.

Lemma join_relative p q : is_absolute q = false → p ≠ "" →
  ∃ l, bytes (join p q) = l ++ "/"%char :: bytes q ∧ body l = body (bytes p) ∧ (is_absolute p = true → is_absolute (join p q) = true).
Proof.
  intros Hq Hp. unfold join. rewrite Hq.
  destruct (last (bytes p)) as [c|] eqn:Hl.
  2: { apply last_None in Hl. destruct Hp. by apply bytes_inj. }
  assert (∃ a k, bytes p = a :: k) as (a & k & Ea) by (destruct (bytes p); [done|eauto]).
  case_bool_decide as Hc; [subst c|].
  - apply last_Some in Hl as [l El]. exists l. rewrite bytes_app, El. split; [by rewrite <- app_assoc|]. split.
    + by rewrite body_app, body_nil, app_nil_r.
    + unfold is_absolute. rewrite !starts_with_bytes, bytes_app, Ea. done.
  - exists (bytes p). rewrite !bytes_app. split; [done|]. split; [done|].
    unfold is_absolute. rewrite !starts_with_bytes, bytes_app, Ea. done.
Qed.

(** A relative path joined to an absolute directory lands beneath it. *)
Lemma components_join p q : is_absolute p = true → is_absolute q = false →
  components (join p q) = components p ++ body (bytes q).
Proof.
  intros Hp Hq. destruct (join_relative p q Hq) as (l & E & Hb & Ha); [by intros ->|].
  unfold components, front. rewrite Hp, (Ha Hp), E, body_app, Hb. by rewrite app_assoc.
Qed.

Lemma strip_components_app base l : strip_components base (base ++ l) = Some l.
Proof. induction base as [|c base IH]; simpl; [done|]. by rewrite bool_decide_eq_true_2. Qed.

Lemma strip_components_Some base l r : strip_components base l = Some r ↔ l = base ++ r.
Proof.
  split; [|intros ->; apply strip_components_app].
  revert l. induction base as [|c base IH]; intros [|d l]; simpl; try congruence.
  case_bool_decide; [|done]. subst. intros H. by rewrite (IH _ H).
Qed.

Lemma path_starts_with_iff p base : path_starts_with p base = true ↔ ∃ r, components p = components base ++ r.
Proof.
  unfold path_starts_with. destruct (strip_components _ _) as [r|] eqn:E; simpl.
  - apply strip_components_Some in E. split; eauto.
  - split; [done|]. intros [r Hr%strip_components_Some]. congruence.
Qed.

Lemma path_starts_with_refl p : path_starts_with p p = true.
Proof. apply path_starts_with_iff. exists []. by rewrite app_nil_r. Qed.

Lemma path_starts_with_trans p q r : path_starts_with p q = true → path_starts_with q r = true → path_starts_with p r = true.
Proof. rewrite !path_starts_with_iff. intros [x ->] [y ->]. exists (y ++ x). by rewrite app_assoc. Qed.

Lemma join_under p q : is_absolute p = true → is_absolute q = false → path_starts_with (join p q) p = true.
Proof. intros Hp Hq. apply path_starts_with_iff. rewrite components_join by done. eauto. Qed.

Lemma absolute_components p : is_absolute p = true ↔ head (components p) = Some RootDir.
Proof.
  unfold components, front. destruct (is_absolute p) eqn:E; [done|]. split; [done|].
  destruct (split_list_inv "/" (bytes p)) as (pc & ps & Es & _). rewrite Es.
  case_bool_decide; [done|]. destruct (body (bytes p)) as [|c b] eqn:Eb; [done|].
  intros [= ->]. assert (RootDir ∈ body (bytes p)) as [? _]%body_components_body by (rewrite Eb; set_solver). done.
Qed.

Lemma under_absolute p base : path_starts_with p base = true → is_absolute base = true → is_absolute p = true.
Proof.
  rewrite path_starts_with_iff, !absolute_components. intros [r ->] H. destruct (components base); [done|exact H].
Qed.

(** ** Lemmas: paths written from components *)

(** A component that names an entry, as the body of a path has them. *)
Definition entry (c : Component) : Prop := body_component (component_text c) = Some c ∧
  existsb (λ d, d == "/"%char) (component_text c) = false.

Lemma body_entries l : Forall entry (body l).
Proof.
  assert (Forall (λ part, existsb (λ d, d == "/"%char) part = false) (split_list "/" l)) as H.
  { induction l as [|x l IH]; simpl; [by repeat constructor|]. case_bool_decide as Hx; [by constructor|].
    destruct (split_list "/" l).
    { constructor; [simpl; by rewrite bool_decide_eq_false_2|constructor]. }
    inversion_clear IH. constructor; [|done]. simpl. by rewrite bool_decide_eq_false_2. }
  unfold body. apply Forall_forall. intros c (part & Hp & Hc)%list_elem_of_omap.
  rewrite Forall_forall in H. specialize (H _ Hp). unfold entry.
  assert (component_text c = part) as ->; [|done]. revert Hc. unfold body_component.
  repeat case_bool_decide; intros [= <-]; [by subst|simpl; apply bytes_of_bytes].
Qed.

Lemma concat_entries cs : Forall entry cs → body (concat_components cs) = cs.
Proof.
  induction 1 as [|c cs [Hc Hs] Hcs IH]; [done|]. cbn [concat_components]. destruct cs as [|c' cs].
  - unfold body. rewrite split_list_last by done. simpl. by rewrite Hc.
  - rewrite body_app, IH. unfold body. rewrite split_list_last by done. simpl. by rewrite Hc.
Qed.

(** The component lists paths have. *)
Definition proper (cs : list Component) : Prop :=
  Forall entry cs ∨ ∃ c rest, cs = c :: rest ∧ (c = RootDir ∨ c = CurDir) ∧ Forall entry rest.

Lemma components_proper p : proper (components p).
Proof.
  unfold components, front. pose proof (body_entries (bytes p)) as Hb.
  destruct (is_absolute p); [right; exists RootDir; eexists; by auto|].
  destruct (split_list "/" (bytes p)); [by left|]. case_bool_decide; [right; exists CurDir; eexists; by auto|by left].
Qed.

Lemma concat_head cs c rest : cs = c :: rest → Forall entry cs →
  ∃ a l, concat_components cs = a :: l ∧ a ≠ "/"%char.
Proof.
  intros -> [[Hc Hs] _]%Forall_cons. assert (∃ a l, component_text c = a :: l ∧ a ≠ "/"%char) as (a & l & E & Ha).
  { destruct (component_text c) as [|a l]; [done|]. exists a, l. split; [done|].
    simpl in Hs. apply orb_false_iff in Hs as [Hs%bool_decide_eq_false _]. done. }
  simpl. rewrite E. destruct rest; simpl; eauto.
Qed.

Lemma concat_split c rest : Forall entry (c :: rest) → ∃ ps, split_list "/" (concat_components (c :: rest)) = component_text c :: ps.
Proof.
  intros [[_ Hs] _]%Forall_cons. cbn [concat_components]. destruct rest as [|c' rest].
  - rewrite split_list_last by done. eauto.
  - rewrite split_list_sep by done. eauto.
Qed.

Lemma entry_not_dot c : entry c → component_text c ≠ ["."%char].
Proof. intros [H _] E. rewrite E in H. done. Qed.

Lemma of_components_root rest : of_components (RootDir :: rest) = of_bytes ("/"%char :: concat_components rest).
Proof. done. Qed.

Lemma entry_not_root c : entry c → c ≠ RootDir.
Proof. by intros [H _] ->. Qed.

Lemma components_of_components cs : proper cs → components (of_components cs) = cs.
Proof.
  intros [H|(c & rest & -> & [-> | ->] & H)].
  - destruct cs as [|c rest]; [done|].
    assert (of_components (c :: rest) = of_bytes (concat_components (c :: rest))) as ->.
    { apply Forall_cons in H as [H%entry_not_root _]. by destruct c. }
    destruct (concat_head _ _ _ eq_refl H) as (a & l & E & Ha). destruct (concat_split _ _ H) as [ps Es].
    unfold components, front, is_absolute. rewrite starts_with_bytes, bytes_of_bytes, E, bool_decide_eq_false_2 by done.
    rewrite <- E, Es, concat_entries by done. apply Forall_cons in H as [H%entry_not_dot _].
    by rewrite bool_decide_eq_false_2.
  - rewrite of_components_root. unfold components, front, is_absolute.
    rewrite starts_with_bytes, bytes_of_bytes, bool_decide_eq_true_2 by done.
    change ("/"%char :: concat_components rest) with ([] ++ "/"%char :: concat_components rest).
    by rewrite body_app, concat_entries.
  - unfold of_components, components, front, is_absolute. rewrite starts_with_bytes, bytes_of_bytes.
    destruct rest as [|c rest]; [done|]. pose proof (concat_entries _ H) as Hk.
    change (concat_components (CurDir :: c :: rest)) with (["."%char] ++ "/"%char :: concat_components (c :: rest)).
    revert Hk. generalize (concat_components (c :: rest)) as k. intros k Hk.
    rewrite body_app, split_list_sep, Hk by done. done.
Qed.

Lemma proper_prefix a b : proper (a ++ b) → proper a.
Proof.
  intros [H|(c & rest & E & Hc & H)]; [left; by apply Forall_app in H as [? _]|].
  destruct a as [|x a]; [by left; constructor|]. injection E as -> <-. right. exists c, a.
  by apply Forall_app in H as [? _].
Qed.

Lemma components_parents rest l : proper (rev l ++ rest) → Forall (λ q, ∃ r, rev l = components q ++ r) (parents l).
Proof.
  revert rest. induction l as [|c l IH]; intros rest H; [constructor|]. simpl in H.
  assert (proper (rev l)) as Hp by (rewrite <- app_assoc in H; by eapply proper_prefix).
  assert (Forall (λ q, ∃ r, rev (c :: l) = components q ++ r) (of_components (rev l) :: parents l)) as Hall.
  { constructor; [exists [c]; by rewrite components_of_components|].
    eapply Forall_impl; [apply (IH (c :: rest)); by rewrite <- app_assoc in H|].
    intros q [r Hr]. exists (r ++ [c]). simpl. by rewrite Hr, <- app_assoc. }
  destruct c; [constructor|exact Hall..].
Qed.

(** Every ancestor is a directory the path lies beneath. *)
Lemma ancestors_above p q : q ∈ ancestors p → path_starts_with p q = true.
Proof.
  unfold ancestors. rewrite elem_of_cons. intros [-> |Hq]; [apply path_starts_with_refl|].
  pose proof (components_parents [] (rev (components p))) as H. rewrite rev_involutive, app_nil_r in H.
  specialize (H (components_proper p)). rewrite Forall_forall in H. destruct (H _ Hq) as [r Hr].
  apply path_starts_with_iff. eauto.
Qed.

(** Walking up with [parent] visits the ancestors. *)
Lemma ancestors_parent p : ancestors p = p :: match parent p with Some q => ancestors q | None => [] end.
Proof.
  unfold ancestors, parent. f_equal. destruct (rev (components p)) as [|c l] eqn:E; [done|].
  assert (components p = rev l ++ [c]) as Ep by (by rewrite <- (rev_involutive (components p)), E).
  assert (proper (rev l)) as Hp by (eapply proper_prefix; rewrite <- Ep; apply components_proper).
  destruct c; simpl; [done|by rewrite components_of_components, rev_involutive..].
Qed.

(** ** Lemmas: order, sorting and removing repetitions *)

Lemma component_cmp_eq a b : component_cmp a b = Eq ↔ a = b.
Proof. destruct a, b; simpl; try (split; congruence). rewrite str_cmp_eq. split; congruence. Qed.

Lemma component_cmp_antisym a b : component_cmp b a = CompOpp (component_cmp a b).
Proof. destruct a, b; simpl; try done. apply str_cmp_antisym. Qed.

Lemma component_cmp_trans o a b c : component_cmp a b = o → component_cmp b c = o → component_cmp a c = o.
Proof. destruct a, b, c; simpl; try congruence. apply str_cmp_trans. Qed.

Lemma components_cmp_eq a b : components_cmp a b = Eq ↔ a = b.
Proof.
  revert b. induction a as [|x a IH]; intros [|y b]; simpl; try done.
  destruct (component_cmp x y) eqn:E.
  - apply component_cmp_eq in E as ->. rewrite IH. split; congruence.
  - split; [done|]. intros [= -> _]. by rewrite (proj2 (component_cmp_eq y y)) in E.
  - split; [done|]. intros [= -> _]. by rewrite (proj2 (component_cmp_eq y y)) in E.
Qed.

Lemma components_cmp_antisym a b : components_cmp b a = CompOpp (components_cmp a b).
Proof.
  revert b. induction a as [|x a IH]; intros [|y b]; simpl; try done.
  rewrite (component_cmp_antisym x). by destruct (component_cmp x y); simpl.
Qed.

Lemma components_cmp_trans o a b c : components_cmp a b = o → components_cmp b c = o → components_cmp a c = o.
Proof.
  revert b c. induction a as [|x a IH]; intros [|y b] [|z c]; simpl; intros H1 H2; try congruence.
  destruct (component_cmp x y) eqn:E1; [apply component_cmp_eq in E1 as ->|..].
  - destruct (component_cmp y z); [by eapply IH|done..].
  - destruct (component_cmp y z) eqn:E2; [apply component_cmp_eq in E2 as ->; by rewrite E1| |congruence].
    by rewrite (component_cmp_trans _ _ _ _ E1 E2).
  - destruct (component_cmp y z) eqn:E2; [apply component_cmp_eq in E2 as ->; by rewrite E1|congruence|].
    by rewrite (component_cmp_trans _ _ _ _ E1 E2).
Qed.

Lemma path_le_trans p q r : path_cmp p q ≠ Gt → path_cmp q r ≠ Gt → path_cmp p r ≠ Gt.
Proof.
  unfold path_cmp. intros H1 H2.
  destruct (components_cmp (components p) (components q)) eqn:E1; [|clear H1|done].
  { apply components_cmp_eq in E1 as ->. done. }
  destruct (components_cmp (components q) (components r)) eqn:E2; [|clear H2|done].
  { apply components_cmp_eq in E2 as <-. by rewrite E1. }
  by rewrite (components_cmp_trans _ _ _ _ E1 E2).
Qed.

Lemma sort_paths_sorted l : StronglySorted (λ p q, path_cmp p q ≠ Gt) (sort_paths l).
Proof. apply sort_by_sorted; [intros; apply components_cmp_antisym|exact path_le_trans]. Qed.

Lemma sort_paths_perm l : sort_paths l ≡ₚ l.
Proof. apply sort_by_perm. Qed.

Lemma dedup_incl l p : p ∈ dedup l → p ∈ l.
Proof.
  revert p. induction l as [|q l IH]; intros p; simpl; [done|]. revert IH. destruct (dedup l) as [|r k]; intros IH.
  - by rewrite list_elem_of_singleton, elem_of_cons; left.
  - destruct (path_eq q r); rewrite !elem_of_cons; intros H; setoid_rewrite elem_of_cons in IH; naive_solver.
Qed.

Lemma dedup_covers l p : p ∈ l → ∃ q, q ∈ dedup l ∧ components q = components p.
Proof.
  induction l as [|r l IH]; [by intros ?%elem_of_nil|]. rewrite elem_of_cons. intros [-> |Hp].
  - simpl. destruct (dedup l) as [|r' k]; [set_solver|]. destruct (path_eq r r'); set_solver.
  - destruct (IH Hp) as (q & Hq & E). simpl. destruct (dedup l) as [|r' k]; [by apply elem_of_nil in Hq|].
    destruct (path_eq r r') eqn:Er; [|set_solver]. apply bool_decide_eq_true in Er.
    apply elem_of_cons in Hq as [-> |Hq]; [exists r; split; [apply elem_of_cons; by left|congruence]|]. exists q. rewrite elem_of_cons. auto.
Qed.

Lemma dedup_NoDup l : StronglySorted (λ p q, path_cmp p q ≠ Gt) l → NoDup (List.map components (dedup l)).
Proof.
  intros Hl. assert (StronglySorted (λ p q, path_cmp p q = Lt) (dedup l)) as H.
  { induction Hl as [|p l Hl IH Hall]; [constructor|]. rewrite Forall_forall in Hall. simpl.
    destruct (dedup l) as [|q k] eqn:E; [repeat constructor|].
    assert (∀ x, x ∈ dedup l → path_cmp p x ≠ Gt) as Hle by (intros x Hx%dedup_incl; auto). rewrite E in Hle.
    apply StronglySorted_inv in IH as [Hk Hq]. unfold path_eq. case_bool_decide as Hpq.
    - constructor; [done|]. eapply Forall_impl; [exact Hq|]. intros x. unfold path_cmp. by rewrite Hpq.
    - assert (path_cmp p q = Lt) as Hlt.
      { specialize (Hle q). destruct (path_cmp p q) eqn:Ec; [|done|exfalso; apply Hle; [apply elem_of_cons; by left|done]].
        by apply components_cmp_eq in Ec. }
      constructor; [by constructor|]. constructor; [done|]. eapply Forall_impl; [exact Hq|].
      intros x Hx. by eapply components_cmp_trans. }
  induction H as [|p k Hk IH Hall]; simpl; constructor; [|done]. rewrite list_elem_of_fmap.
  intros (x & Hx & Hin). rewrite Forall_forall in Hall. specialize (Hall _ Hin). unfold path_cmp in Hall.
  rewrite Hx in Hall. by rewrite (proj2 (components_cmp_eq _ _) eq_refl) in Hall.
Qed.

Example path_examples :
  (components "/ws/./formal//fm.toml", components "./a/..", join "/ws/" "a/b", parent "/ws/a", parent "/",
   path_starts_with "/ws2/a" "/ws", ancestors "/ws/a")
  = ([RootDir; Normal "ws"; Normal "formal"; Normal "fm.toml"], [CurDir; Normal "a"; ParentDir], "/ws/a/b",
     Some "/ws", None, false, ["/ws/a"; "/ws"; "/"]).
Proof. vm_compute. reflexivity. Qed.
