(* ===== verification/Manifest.v ===== *)
(** * Manifest: the project manifest of the model-checking tool

    [src/tools/fmctl/src/manifest.rs], the data and [validate_manifest_shape]: a
    manifest is untrusted input, and everything a command line is built from is
    checked for its grammar, its size and the work it asks for.  The validator
    collects every violation in field order; each [format!] is a constructor of
    [ShapeError] with what it prints.

    [validate_manifest_shape] reports nothing exactly for the manifests that
    [well_formed] describes: identifiers of the modelling language without
    repetitions, labels that can be printed, relative paths without [..], and
    amounts of work whose products neither overflow nor exceed their limits. *)

From S2P Require Import Prelude Text Btree Path.

Definition MANIFEST_SCHEMA_VERSION : N := 1.
Definition MAX_MANIFEST_BYTES : N := 1024 * 1024.
Definition MAX_INVARIANTS : N := 256.
Definition MAX_WITNESSES : N := 256.
Definition MAX_TEMPORAL_PROPERTIES : N := 256.
Definition MAX_ADAPTERS : N := 32.
Definition MAX_REQUIRED_ACTIONS : N := 256.
Definition MAX_OBSERVABLE_FIELDS : N := 256.
Definition MAX_COMMAND_ARGUMENTS : N := 64.
Definition MAX_ENVIRONMENT_ENTRIES : N := 64.
Definition MAX_LABEL_BYTES : N := 128.
Definition MAX_IDENTIFIER_BYTES : N := 128.
Definition MAX_TOOLCHAIN_TOKEN_BYTES : N := 256.
Definition MAX_COMMAND_ARGUMENT_BYTES : N := 4096.
Definition MAX_ENVIRONMENT_KEY_BYTES : N := 128.
Definition MAX_ENVIRONMENT_VALUE_BYTES : N := 4096.
Definition MAX_TIMEOUT_SECONDS : N := 21600.
Definition MAX_OUTPUT_BYTES : N := 64 * 1024 * 1024.
Definition MAX_SIMULATION_SAMPLES : N := 1000000.
Definition MAX_SIMULATION_STEPS : N := 100000.
Definition MAX_SIMULATION_WORK : N := 100000000.
Definition MAX_VERIFICATION_STEPS : N := 100000.
Definition MAX_TRACE_COUNT : N := 10000.
Definition MAX_TRACE_STEPS : N := 100000.
Definition MAX_TRACE_SAMPLES : N := 1000000.
Definition MAX_TRACE_WORK : N := 100000000.

(** ** Data *)

Inductive SpecLanguage := Quint.

Record ToolchainConfig := {
  tc_quint : string;
  tc_java : string;
  tc_node : option string;
  tc_rust : option string;
  tc_npx : string
}.

Record ExecutionConfig := {
  ex_timeout_seconds : N;
  ex_max_output_bytes : N;
  ex_artifacts_dir : Path
}.

Record SimulationConfig := { sim_backend : string; sim_max_samples : N; sim_max_steps : N }.

Record VerificationConfig := {
  ver_backend : string;
  ver_exhaustive_finite_model : bool;
  ver_max_steps : option N
}.

Record TraceConfig := {
  tr_format : string;
  tr_model_based_testing_metadata : bool;
  tr_backend : option string;
  tr_seed : option string;
  tr_count : N;
  tr_max_steps : N;
  tr_max_samples : option N;
  tr_required_actions : list string
}.

Inductive AdapterStatus := Planned | Active | Disabled.

#[export] Instance AdapterStatus_eq_dec : EqDecision AdapterStatus.
Proof. solve_decision. Defined.

Record AdapterConfig := {
  ad_strategy : string;
  ad_target : option Path;
  ad_implementation : option string;
  ad_observable_state : list string;
  ad_issue : option string;
  ad_status : AdapterStatus;
  ad_command : list string;
  ad_working_directory : option Path;
  ad_environment : bmap string
}.

Record Manifest := {
  schema_version : N;
  project : string;
  model : string;
  language : SpecLanguage;
  spec : Path;
  main : string;
  init : string;
  step : string;
  invariants : list string;
  witnesses : list string;
  temporal_properties : list string;
  toolchain : ToolchainConfig;
  execution : ExecutionConfig;
  simulation : option SimulationConfig;
  verification : option VerificationConfig;
  traces : option TraceConfig;
  adapters : bmap AdapterConfig
}.

(** ** Errors *)

Inductive PathError := EmptyPath | AbsolutePath | EscapingPath.

Inductive ShapeError :=
| UnsupportedSchema (actual : N)
| NoInvariants
| TooMany (label : string) (maximum actual : N)
| TemporalWithoutVerification
| NotPinned (field value : string)
| NotOneToken (field value : string)
| NotPositive (field : string)
| AtLeast (field : string) (minimum : N)
| AtMost (field : string) (maximum : N)
| BadPath (label : string) (e : PathError)
| BadChoice (field value : string)
| TlcNotExhaustive
| ApalacheExhaustive
| ApalacheUnbounded
| StepsOnlyForApalache
| WorkAtMost (label : string) (maximum actual : N)
| WorkOverflows (label : string)
| EmptyText (label : string)
| TooLong (label : string) (maximum : N)
| ControlCharacters (label : string)
| NotAnIdentifier (label value : string)
| Duplicate (label value : string)
| ActiveWithoutCommand (name : string)
| BadArgument (name : string) (index : N)
| BadEnvironmentEntry (name key : string).

(** ** Validators: each returns the errors it appends *)

Definition when (c : bool) (e : ShapeError) : list ShapeError := if c then [e] else [].

Definition count {A} (l : list A) : N := N.of_nat (length l).

Definition validate_work_product (label : string) (left right maximum : N) : list ShapeError :=
  if left * right <=? u64_max then
    if left * right <=? maximum then [] else [WorkAtMost label maximum (left * right)]
  else [WorkOverflows label].

Definition validate_collection_limit (label : string) (actual maximum : N) : list ShapeError :=
  when (maximum <? actual) (TooMany label maximum actual).

Definition validate_label (label value : string) : list ShapeError :=
  let trimmed := trim value in
  if is_empty trimmed then [EmptyText label]
  else if MAX_LABEL_BYTES <? len trimmed then [TooLong label MAX_LABEL_BYTES]
  else when (has_control (bytes trimmed)) (ControlCharacters label).

Definition validate_identifier (label value : string) : list ShapeError :=
  if MAX_IDENTIFIER_BYTES <? len value then [TooLong label MAX_IDENTIFIER_BYTES]
  else match bytes value with
       | [] => [EmptyText label]
       | first :: chars =>
           when (negb (is_ascii_alphabetic first || is_byte "_" first)
                 || negb (forallb (λ character, is_ascii_alphanumeric character || is_byte "_" character) chars))
             (NotAnIdentifier label value)
       end.

(** The loop that inserts every value into a set. *)
Fixpoint duplicates (label : string) (seen : gset string) (values : list string) (check : string → list ShapeError)
    : list ShapeError :=
  match values with
  | [] => []
  | value :: values =>
      check value
      ++ when (bool_decide (value ∈ seen)) (Duplicate label value)
      ++ duplicates label ({[value]} ∪ seen) values check
  end.

Definition validate_unique_identifiers (label : string) (values : list string) : list ShapeError :=
  duplicates label ∅ values (validate_identifier label).

Definition is_safe_version (version : string) : bool :=
  negb (is_empty version) && (len version <=? MAX_TOOLCHAIN_TOKEN_BYTES)
  && all_bytes (λ character, is_ascii_alphanumeric character || contains character ".+-_") version.

(** [char::is_whitespace] of some character. *)
Fixpoint has_whitespace (l : list ascii) : bool :=
  match l with
  | [] => false
  | a :: l' => is_some (strip_front l) || has_whitespace l'
  end.

Definition nul : ascii := ascii_of_N 0.

Definition is_safe_program (program : string) : bool :=
  negb (is_empty program) && (len program <=? MAX_COMMAND_ARGUMENT_BYTES)
  && negb (contains nul program) && negb (has_whitespace (bytes program)).

Definition validate_relative_path (path : Path) : result unit PathError :=
  if is_empty path then Err EmptyPath
  else if is_absolute path then Err AbsolutePath
  else if existsb (λ c, match c with ParentDir | RootDir => true | _ => false end) (components path)
  then Err EscapingPath
  else Ok ().

Definition validate_path (label : string) (path : Path) : list ShapeError :=
  match validate_relative_path path with Ok _ => [] | Err e => [BadPath label e] end.

Definition on {A} (o : option A) (f : A → list ShapeError) : list ShapeError :=
  match o with Some a => f a | None => [] end.

Definition one_of (choices : list string) (value : string) : bool := existsb (λ c, value == c) choices.

Definition validate_toolchain (t : ToolchainConfig) : list ShapeError :=
  when (negb (is_safe_version (tc_quint t))) (NotPinned "toolchain.quint" (tc_quint t))
  ++ validate_label "toolchain.java" (tc_java t)
  ++ on (tc_node t) (λ node, when (negb (is_safe_version node)) (NotPinned "toolchain.node" node))
  ++ on (tc_rust t) (λ rust, when (negb (is_safe_version rust)) (NotPinned "toolchain.rust" rust))
  ++ when (negb (is_safe_program (tc_npx t))) (NotOneToken "toolchain.npx" (tc_npx t)).

(** [> 0] and at most a maximum. *)
Definition validate_range (field : string) (value maximum : N) : list ShapeError :=
  if value =? 0 then [NotPositive field] else when (maximum <? value) (AtMost field maximum).

Definition validate_execution (e : ExecutionConfig) : list ShapeError :=
  validate_range "execution.timeout_seconds" (ex_timeout_seconds e) MAX_TIMEOUT_SECONDS
  ++ (if ex_max_output_bytes e <? 1024 then [AtLeast "execution.max_output_bytes" 1024]
      else when (MAX_OUTPUT_BYTES <? ex_max_output_bytes e) (AtMost "execution.max_output_bytes" MAX_OUTPUT_BYTES))
  ++ validate_path "execution.artifacts_dir" (ex_artifacts_dir e).

Definition validate_simulation (s : SimulationConfig) : list ShapeError :=
  when (negb (one_of ["typescript"; "rust"] (sim_backend s))) (BadChoice "simulation.backend" (sim_backend s))
  ++ validate_range "simulation.max_samples" (sim_max_samples s) MAX_SIMULATION_SAMPLES
  ++ validate_range "simulation.max_steps" (sim_max_steps s) MAX_SIMULATION_STEPS
  ++ validate_work_product "simulation.max_samples * simulation.max_steps"
       (sim_max_samples s) (sim_max_steps s) MAX_SIMULATION_WORK.

Definition validate_verification (v : VerificationConfig) : list ShapeError :=
  when (negb (one_of ["tlc"; "apalache"] (ver_backend v))) (BadChoice "verification.backend" (ver_backend v))
  ++ when ((ver_backend v == "tlc") && negb (ver_exhaustive_finite_model v)) TlcNotExhaustive
  ++ when ((ver_backend v == "apalache") && ver_exhaustive_finite_model v) ApalacheExhaustive
  ++ when ((ver_backend v == "apalache") && negb (is_some (ver_max_steps v))) ApalacheUnbounded
  ++ when ((ver_backend v == "tlc") && is_some (ver_max_steps v)) StepsOnlyForApalache
  ++ when (ver_max_steps v == Some 0) (NotPositive "verification.max_steps")
  ++ when (is_some_and (ver_max_steps v) (λ steps, MAX_VERIFICATION_STEPS <? steps))
       (AtMost "verification.max_steps" MAX_VERIFICATION_STEPS).

Definition validate_traces (t : TraceConfig) : list ShapeError :=
  validate_collection_limit "traces.required_actions" (count (tr_required_actions t)) MAX_REQUIRED_ACTIONS
  ++ when (negb (tr_format t == "itf")) (BadChoice "traces.format" (tr_format t))
  ++ on (tr_backend t) (λ backend,
       when (negb (one_of ["typescript"; "rust"] backend)) (BadChoice "traces.backend" backend))
  ++ on (tr_seed t) (λ seed, when (negb (is_safe_version seed)) (NotOneToken "traces.seed" seed))
  ++ validate_range "traces.count" (tr_count t) MAX_TRACE_COUNT
  ++ validate_range "traces.max_steps" (tr_max_steps t) MAX_TRACE_STEPS
  ++ when (tr_max_samples t == Some 0) (NotPositive "traces.max_samples")
  ++ when (is_some_and (tr_max_samples t) (λ samples, MAX_TRACE_SAMPLES <? samples))
       (AtMost "traces.max_samples" MAX_TRACE_SAMPLES)
  ++ validate_work_product "traces.count * traces.max_steps" (tr_count t) (tr_max_steps t) MAX_TRACE_WORK
  ++ on (tr_max_samples t) (λ samples,
       validate_work_product "traces.max_samples * traces.max_steps" samples (tr_max_steps t) MAX_TRACE_WORK)
  ++ validate_unique_identifiers "traces.required_actions" (tr_required_actions t).

(** [adapter '{name}' {what}] *)
Definition adapter_label (name what : string) : string := "adapter '" +:+ name +:+ "' " +:+ what.

Definition validate_observable_state (name : string) (fields : list string) : list ShapeError :=
  let label := adapter_label name "observable_state" in
  duplicates label ∅ fields (validate_label label).

Fixpoint validate_command (name : string) (index : N) (command : list string) : list ShapeError :=
  match command with
  | [] => []
  | part :: command =>
      when (is_empty part || contains nul part) (BadArgument name index)
      ++ when (MAX_COMMAND_ARGUMENT_BYTES <? len part) (TooLong (adapter_label name "command argument") MAX_COMMAND_ARGUMENT_BYTES)
      ++ validate_command name (index + 1) command
  end.

Definition validate_environment_entry (name : string) (entry : string * string) : list ShapeError :=
  let '(key, value) := entry in
  when (is_empty key || contains "=" key || contains nul key || contains nul value) (BadEnvironmentEntry name key)
  ++ when (MAX_ENVIRONMENT_KEY_BYTES <? len key) (TooLong (adapter_label name "environment key") MAX_ENVIRONMENT_KEY_BYTES)
  ++ when (MAX_ENVIRONMENT_VALUE_BYTES <? len value)
       (TooLong (adapter_label name "environment value") MAX_ENVIRONMENT_VALUE_BYTES).

Definition validate_adapter (entry : string * AdapterConfig) : list ShapeError :=
  let '(name, adapter) := entry in
  validate_identifier "adapter name" name
  ++ validate_label (adapter_label name "strategy") (ad_strategy adapter)
  ++ validate_collection_limit (adapter_label name "observable_state") (count (ad_observable_state adapter)) MAX_OBSERVABLE_FIELDS
  ++ validate_collection_limit (adapter_label name "command") (count (ad_command adapter)) MAX_COMMAND_ARGUMENTS
  ++ validate_collection_limit (adapter_label name "environment") (count (ad_environment adapter)) MAX_ENVIRONMENT_ENTRIES
  ++ on (ad_target adapter) (validate_path (adapter_label name "target"))
  ++ on (ad_working_directory adapter) (validate_path (adapter_label name "working_directory"))
  ++ on (ad_implementation adapter) (validate_label (adapter_label name "implementation"))
  ++ on (ad_issue adapter) (validate_label (adapter_label name "issue"))
  ++ validate_observable_state name (ad_observable_state adapter)
  ++ when ((ad_status adapter == Active) && (count (ad_command adapter) =? 0)) (ActiveWithoutCommand name)
  ++ validate_command name 0 (ad_command adapter)
  ++ flat_map (validate_environment_entry name) (ad_environment adapter).

Definition validate_manifest_shape (m : Manifest) : list ShapeError :=
  when (negb (schema_version m =? MANIFEST_SCHEMA_VERSION)) (UnsupportedSchema (schema_version m))
  ++ validate_label "project" (project m)
  ++ validate_label "model" (model m)
  ++ validate_identifier "main" (main m)
  ++ validate_identifier "init" (init m)
  ++ validate_identifier "step" (step m)
  ++ when (count (invariants m) =? 0) NoInvariants
  ++ validate_collection_limit "invariants" (count (invariants m)) MAX_INVARIANTS
  ++ validate_collection_limit "witnesses" (count (witnesses m)) MAX_WITNESSES
  ++ validate_collection_limit "temporal_properties" (count (temporal_properties m)) MAX_TEMPORAL_PROPERTIES
  ++ validate_collection_limit "adapters" (count (adapters m)) MAX_ADAPTERS
  ++ validate_unique_identifiers "invariants" (invariants m)
  ++ validate_unique_identifiers "witnesses" (witnesses m)
  ++ validate_unique_identifiers "temporal_properties" (temporal_properties m)
  ++ when (negb (count (temporal_properties m) =? 0) && negb (is_some (verification m))) TemporalWithoutVerification
  ++ validate_toolchain (toolchain m)
  ++ validate_execution (execution m)
  ++ on (simulation m) validate_simulation
  ++ on (verification m) validate_verification
  ++ on (traces m) validate_traces
  ++ flat_map validate_adapter (adapters m).

(** ** Specification *)

(** An identifier of the modelling language. *)
Definition identifier (s : string) : Prop :=
  len s ≤ 128 ∧ ∃ first rest, bytes s = first :: rest ∧
    (is_ascii_alphabetic first = true ∨ first = "_"%char) ∧
    Forall (λ c, is_ascii_alphanumeric c = true ∨ c = "_"%char) rest.

(** A text that is not blank and, trimmed, short and without control characters. *)
Definition label (s : string) : Prop :=
  trim s ≠ "" ∧ len (trim s) ≤ 128 ∧ has_control (bytes (trim s)) = false.

(** A version or a seed. *)
Definition token (s : string) : Prop :=
  s ≠ "" ∧ len s ≤ 256 ∧ Forall (λ c, is_ascii_alphanumeric c = true ∨ c ∈ bytes ".+-_") (bytes s).

(** The name of an executable. *)
Definition executable (s : string) : Prop :=
  s ≠ "" ∧ len s ≤ 4096 ∧ (nul ∉ bytes s) ∧ has_whitespace (bytes s) = false.

(** A path that stays where it is joined. *)
Definition local_path (p : Path) : Prop := p ≠ "" ∧ is_absolute p = false ∧ ParentDir ∉ components p.

Definition names (maximum : N) (l : list string) : Prop :=
  N.of_nat (length l) ≤ maximum ∧ NoDup l ∧ Forall identifier l.

Definition if_some {A} (o : option A) (P : A → Prop) : Prop := ∀ a, o = Some a → P a.

Record toolchain_ok (t : ToolchainConfig) : Prop := {
  quint_ok : token (tc_quint t);
  java_ok : label (tc_java t);
  node_ok : if_some (tc_node t) token;
  rust_ok : if_some (tc_rust t) token;
  npx_ok : executable (tc_npx t)
}.

Record execution_ok (e : ExecutionConfig) : Prop := {
  timeout_ok : 1 ≤ ex_timeout_seconds e ≤ 21600;
  output_ok : 1024 ≤ ex_max_output_bytes e ≤ 67108864;
  artifacts_ok : local_path (ex_artifacts_dir e)
}.

Record simulation_ok (s : SimulationConfig) : Prop := {
  sim_backend_ok : sim_backend s ∈ ["typescript"; "rust"];
  sim_samples_ok : 1 ≤ sim_max_samples s ≤ 1000000;
  sim_steps_ok : 1 ≤ sim_max_steps s ≤ 100000;
  sim_work_ok : sim_max_samples s * sim_max_steps s ≤ 100000000
}.

(** A backend is exhaustive and unbounded, or bounded and not exhaustive. *)
Definition verification_ok (v : VerificationConfig) : Prop :=
  ver_backend v = "tlc" ∧ ver_exhaustive_finite_model v = true ∧ ver_max_steps v = None ∨
  ver_backend v = "apalache" ∧ ver_exhaustive_finite_model v = false ∧
    ∃ steps, ver_max_steps v = Some steps ∧ 1 ≤ steps ≤ 100000.

Record traces_ok (t : TraceConfig) : Prop := {
  tr_format_ok : tr_format t = "itf";
  tr_backend_ok : if_some (tr_backend t) (λ backend, backend ∈ ["typescript"; "rust"]);
  tr_seed_ok : if_some (tr_seed t) token;
  tr_count_ok : 1 ≤ tr_count t ≤ 10000;
  tr_steps_ok : 1 ≤ tr_max_steps t ≤ 100000;
  tr_work_ok : tr_count t * tr_max_steps t ≤ 100000000;
  tr_samples_ok : if_some (tr_max_samples t) (λ samples,
    1 ≤ samples ≤ 1000000 ∧ samples * tr_max_steps t ≤ 100000000);
  tr_actions_ok : names 256 (tr_required_actions t)
}.

Record adapter_ok (entry : string * AdapterConfig) : Prop := {
  ad_name_ok : identifier entry.1;
  ad_strategy_ok : label (ad_strategy entry.2);
  ad_target_ok : if_some (ad_target entry.2) local_path;
  ad_directory_ok : if_some (ad_working_directory entry.2) local_path;
  ad_implementation_ok : if_some (ad_implementation entry.2) label;
  ad_issue_ok : if_some (ad_issue entry.2) label;
  ad_observable_ok : (length (ad_observable_state entry.2) ≤ 256)%nat ∧
    NoDup (ad_observable_state entry.2) ∧ Forall label (ad_observable_state entry.2);
  ad_active_ok : ad_status entry.2 = Active → ad_command entry.2 ≠ [];
  ad_command_ok : (length (ad_command entry.2) ≤ 64)%nat ∧
    Forall (λ part, part ≠ "" ∧ (nul ∉ bytes part) ∧ len part ≤ 4096) (ad_command entry.2);
  ad_environment_ok : (length (ad_environment entry.2) ≤ 64)%nat ∧
    Forall (λ '(key, value), key ≠ "" ∧ ("="%char ∉ bytes key) ∧ (nul ∉ bytes key) ∧ len key ≤ 128 ∧
                             (nul ∉ bytes value) ∧ len value ≤ 4096) (ad_environment entry.2)
}.

Record well_formed (m : Manifest) : Prop := {
  schema_ok : schema_version m = 1;
  project_ok : label (project m);
  model_ok : label (model m);
  machine_ok : identifier (main m) ∧ identifier (init m) ∧ identifier (step m);
  invariants_ok : invariants m ≠ [] ∧ names 256 (invariants m);
  witnesses_ok : names 256 (witnesses m);
  temporal_ok : names 256 (temporal_properties m) ∧ (temporal_properties m ≠ [] → is_Some (verification m));
  toolchain_good : toolchain_ok (toolchain m);
  execution_good : execution_ok (execution m);
  simulation_good : if_some (simulation m) simulation_ok;
  verification_good : if_some (verification m) verification_ok;
  traces_good : if_some (traces m) traces_ok;
  adapters_good : (length (adapters m) ≤ 32)%nat ∧ Forall adapter_ok (adapters m)
}.

(** ** Lemmas *)

Lemma when_nil c e : when c e = [] ↔ c = false.
Proof. by destruct c. Qed.

Lemma on_nil {A} (o : option A) f : on o f = [] ↔ if_some o (λ a, f a = []).
Proof. unfold if_some. destruct o; simpl; naive_solver. Qed.

Lemma if_some_iff {A} (o : option A) (P Q : A → Prop) : (∀ a, P a ↔ Q a) → if_some o P ↔ if_some o Q.
Proof. unfold if_some. naive_solver. Qed.

Lemma count_le {A} (l : list A) n : count l ≤ n ↔ (length l ≤ N.to_nat n)%nat.
Proof. unfold count. lia. Qed.

Lemma count_zero {A} (l : list A) : count l = 0 ↔ l = [].
Proof. unfold count. destruct l; simpl; [done|]. split; [lia|done]. Qed.

Lemma contains_elem c s : contains c s = true ↔ c ∈ bytes s.
Proof.
  unfold contains. rewrite existsb_exists. setoid_rewrite In_elem. split.
  - intros (d & Hd & Hc%bool_decide_eq_true). by subst.
  - intros H. exists c. by rewrite bool_decide_eq_true_2.
Qed.

Lemma contains_not_elem c s : contains c s = false ↔ c ∉ bytes s.
Proof. rewrite <- contains_elem. by destruct (contains c s). Qed.

Lemma work_nil name left right maximum : maximum ≤ u64_max →
  validate_work_product name left right maximum = [] ↔ left * right ≤ maximum.
Proof.
  intros Hm. unfold validate_work_product. destruct (N.leb_spec (left * right) u64_max).
  - destruct (N.leb_spec (left * right) maximum); [done|]. split; [done|lia].
  - split; [done|lia].
Qed.

Lemma range_nil field value maximum : validate_range field value maximum = [] ↔ 1 ≤ value ≤ maximum.
Proof.
  unfold validate_range. destruct (N.eqb_spec value 0); [split; [done|lia]|].
  rewrite when_nil, N.ltb_ge. lia.
Qed.

Lemma label_nil name value : validate_label name value = [] ↔ label value.
Proof.
  unfold validate_label, label, MAX_LABEL_BYTES. rewrite <- is_empty_false.
  destruct (is_empty (trim value)); [split; [done|]; by intros [? _]|].
  destruct (N.ltb_spec 128 (len (trim value))); [split; [done|lia]|]. rewrite when_nil. naive_solver.
Qed.

Lemma identifier_nil name value : validate_identifier name value = [] ↔ identifier value.
Proof.
  unfold validate_identifier, identifier, MAX_IDENTIFIER_BYTES.
  destruct (N.ltb_spec 128 (len value)); [split; [done|lia]|].
  destruct (bytes value) as [|first chars]; [split; [done|naive_solver]|].
  rewrite when_nil, orb_false_iff, !negb_false_iff, orb_true_iff, is_byte_spec, forallb_Forall.
  split.
  - intros [Hf Hc]. split; [done|]. exists first, chars. split; [done|]. split; [done|].
    eapply Forall_impl; [exact Hc|]. intros c. by rewrite orb_true_iff, is_byte_spec.
  - intros (_ & f & cs & [= <- <-] & Hf & Hc). split; [done|].
    eapply Forall_impl; [exact Hc|]. intros c. by rewrite orb_true_iff, is_byte_spec.
Qed.

Lemma duplicates_nil name check values : ∀ seen,
  duplicates name seen values check = [] ↔
  NoDup values ∧ (∀ v, v ∈ values → v ∉ seen) ∧ Forall (λ v, check v = []) values.
Proof.
  induction values as [|v values IH]; intros seen; simpl.
  { split; [|done]. intros _. split; [constructor|]. split; [|constructor]. by intros ? ?%elem_of_nil. }
  rewrite !app_nil, when_nil, IH, NoDup_cons, Forall_cons, bool_decide_eq_false.
  setoid_rewrite elem_of_cons. set_solver.
Qed.

Lemma unique_nil name values maximum :
  validate_collection_limit name (count values) maximum = [] ∧ validate_unique_identifiers name values = [] ↔
  names maximum values.
Proof.
  unfold validate_collection_limit, validate_unique_identifiers, names.
  rewrite when_nil, N.ltb_ge, duplicates_nil. setoid_rewrite identifier_nil. unfold count. set_solver.
Qed.

Lemma version_ok version : is_safe_version version = true ↔ token version.
Proof.
  unfold is_safe_version, token, MAX_TOOLCHAIN_TOKEN_BYTES, all_bytes.
  rewrite !andb_true_iff, negb_true_iff, is_empty_false, N.leb_le, forallb_Forall.
  rewrite (Forall_iff _ (bytes version) (λ c, is_ascii_alphanumeric c = true ∨ c ∈ bytes ".+-_")); [tauto|].
  intros c. by rewrite orb_true_iff, contains_elem.
Qed.

Lemma program_ok s : is_safe_program s = true ↔ executable s.
Proof.
  unfold is_safe_program, executable, MAX_COMMAND_ARGUMENT_BYTES.
  rewrite !andb_true_iff, !negb_true_iff, is_empty_false, N.leb_le, contains_not_elem. tauto.
Qed.

Lemma path_ok p : validate_relative_path p = Ok () ↔ local_path p.
Proof.
  unfold validate_relative_path, local_path. rewrite <- is_empty_false.
  destruct (is_empty p); [split; [done|]; by intros [? _]|].
  destruct (is_absolute p) eqn:Ha; [split; [done|]; by intros (_ & ? & _)|].
  match goal with |- context [existsb ?f _] => destruct (existsb f (components p)) eqn:E end.
  - split; [done|]. intros (_ & _ & H). apply existsb_exists in E as (c & Hc%In_elem & E). destruct c; try done.
    destruct (absolute_components p) as [_ Habs]. exfalso.
    assert (is_absolute p = true); [|congruence]. apply Habs. clear -Hc Ha.
    unfold components, front in *. rewrite Ha in *. apply elem_of_app in Hc as [Hc|Hc].
    + destruct (split_list "/" (bytes p)); [by apply elem_of_nil in Hc|].
      case_bool_decide; [apply list_elem_of_singleton in Hc; done|by apply elem_of_nil in Hc].
    + by apply body_components_body in Hc as [? _].
  - split; [|done]. intros _. split; [done|]. split; [done|]. intros Hp%In_elem.
    apply not_true_iff_false in E. apply E, existsb_exists. by exists ParentDir.
Qed.

Lemma path_nil name p : validate_path name p = [] ↔ local_path p.
Proof.
  rewrite <- path_ok. unfold validate_path. destruct (validate_relative_path p) as [[]|]; split; congruence.
Qed.

Lemma one_of_elem choices value : one_of choices value = true ↔ value ∈ choices.
Proof.
  unfold one_of. rewrite existsb_exists. setoid_rewrite In_elem. setoid_rewrite bool_decide_eq_true.
  split; [by intros (? & ? & ->)|eauto].
Qed.

Ltac nils := rewrite ?app_nil, ?when_nil, ?on_nil, ?negb_false_iff.

Lemma toolchain_nil t : validate_toolchain t = [] ↔ toolchain_ok t.
Proof.
  unfold validate_toolchain. nils. rewrite version_ok, program_ok, label_nil.
  rewrite (if_some_iff (tc_node t) _ token), (if_some_iff (tc_rust t) _ token) by (intros; nils; apply version_ok).
  split; [intros (? & ? & ? & ? & ?); by constructor|by intros []].
Qed.

Lemma execution_nil e : validate_execution e = [] ↔ execution_ok e.
Proof.
  unfold validate_execution, MAX_TIMEOUT_SECONDS, MAX_OUTPUT_BYTES. nils. rewrite range_nil, path_nil.
  assert ((if ex_max_output_bytes e <? 1024 then [AtLeast "execution.max_output_bytes" 1024]
           else when (64 * 1024 * 1024 <? ex_max_output_bytes e) (AtMost "execution.max_output_bytes" (64 * 1024 * 1024))) = []
          ↔ 1024 ≤ ex_max_output_bytes e ≤ 67108864) as ->.
  { destruct (N.ltb_spec (ex_max_output_bytes e) 1024); [split; [done|lia]|]. rewrite when_nil, N.ltb_ge. lia. }
  split; [intros (? & ? & ?); by constructor|by intros []].
Qed.

Lemma simulation_nil s : validate_simulation s = [] ↔ simulation_ok s.
Proof.
  unfold validate_simulation, MAX_SIMULATION_SAMPLES, MAX_SIMULATION_STEPS, MAX_SIMULATION_WORK.
  nils. rewrite one_of_elem, !range_nil, work_nil by (unfold u64_max; lia).
  split; [intros (? & ? & ? & ?); by constructor|by intros []].
Qed.

Lemma verification_nil v : validate_verification v = [] ↔ verification_ok v.
Proof.
  unfold validate_verification, verification_ok, MAX_VERIFICATION_STEPS. nils. rewrite one_of_elem, !elem_of_cons, elem_of_nil.
  destruct v as [backend exhaustive steps]. cbn [ver_backend ver_exhaustive_finite_model ver_max_steps].
  rewrite !andb_false_iff, !bool_decide_eq_false, negb_false_iff. split.
  - intros (Hb & H1 & H2 & H3 & H4 & H5 & H6). destruct Hb as [-> |[-> |[]]]; [left|right].
    + destruct steps; [naive_solver|]. naive_solver.
    + destruct steps as [n|]; [|naive_solver]. simpl in *. rewrite N.ltb_ge in H6. split; [done|].
      split; [naive_solver|]. exists n. split; [done|]. assert (n ≠ 0) by congruence. lia.
  - intros [(-> & -> & ->)|(-> & -> & n & -> & Hn)]; simpl; [naive_solver|].
    rewrite N.ltb_ge. repeat split; try (right; done); try (left; done); try naive_solver lia.
Qed.

Lemma traces_nil t : validate_traces t = [] ↔ traces_ok t.
Proof.
  unfold validate_traces, MAX_TRACE_COUNT, MAX_TRACE_STEPS, MAX_TRACE_SAMPLES, MAX_TRACE_WORK. nils.
  rewrite bool_decide_eq_true, !range_nil, work_nil by (unfold u64_max; lia).
  rewrite (if_some_iff _ _ (λ backend, backend ∈ ["typescript"; "rust"])) by (intros; nils; apply one_of_elem).
  rewrite (if_some_iff (tr_seed t) _ token) by (intros; nils; apply version_ok).
  rewrite (if_some_iff (tr_max_samples t) _ (λ samples, samples * tr_max_steps t ≤ 100000000))
    by (intros; apply work_nil; unfold u64_max; lia).
  assert (if_some (tr_max_samples t) (λ samples, 1 ≤ samples ≤ 1000000 ∧ samples * tr_max_steps t ≤ 100000000) ↔
    (tr_max_samples t == Some 0) = false ∧ is_some_and (tr_max_samples t) (λ samples, 1000000 <? samples) = false ∧
    if_some (tr_max_samples t) (λ samples, samples * tr_max_steps t ≤ 100000000)) as Hs.
  { rewrite bool_decide_eq_false. unfold if_some. destruct (tr_max_samples t) as [n|]; simpl; [|naive_solver].
    rewrite N.ltb_ge. split.
    - intros H. destruct (H n eq_refl). repeat split; [intros [= ->]; lia|lia|by intros ? [= <-]].
    - intros (H1 & H2 & H3) ? [= <-]. assert (n ≠ 0) by congruence. split; [lia|auto]. }
  pose proof (unique_nil "traces.required_actions" (tr_required_actions t) MAX_REQUIRED_ACTIONS) as Hu.
  split.
  - intros (? & ? & ? & ? & ? & ? & ? & ? & ? & ? & ?). constructor; tauto.
  - intros []. tauto.
Qed.

Lemma command_nil name command : ∀ index, validate_command name index command = [] ↔
  Forall (λ part, part ≠ "" ∧ (nul ∉ bytes part) ∧ len part ≤ 4096) command.
Proof.
  induction command as [|part command IH]; intros index; simpl; [done|].
  nils. rewrite IH, Forall_cons, orb_false_iff, is_empty_false, contains_not_elem, N.ltb_ge.
  unfold MAX_COMMAND_ARGUMENT_BYTES. tauto.
Qed.

Lemma environment_nil name entry : validate_environment_entry name entry = [] ↔
  (λ '(key, value), key ≠ "" ∧ ("="%char ∉ bytes key) ∧ (nul ∉ bytes key) ∧ len key ≤ 128 ∧
                    (nul ∉ bytes value) ∧ len value ≤ 4096) entry.
Proof.
  destruct entry as [key value]. unfold validate_environment_entry, MAX_ENVIRONMENT_KEY_BYTES, MAX_ENVIRONMENT_VALUE_BYTES.
  nils. rewrite !orb_false_iff, is_empty_false, !contains_not_elem, !N.ltb_ge. tauto.
Qed.

Lemma adapter_nil entry : validate_adapter entry = [] ↔ adapter_ok entry.
Proof.
  destruct entry as [name a].
  unfold validate_adapter, validate_collection_limit, validate_observable_state. nils.
  rewrite !N.ltb_ge, !count_le, identifier_nil, label_nil, duplicates_nil, command_nil, flat_map_nil.
  rewrite (if_some_iff (ad_target a) _ local_path), (if_some_iff (ad_working_directory a) _ local_path)
    by (intros; apply path_nil).
  rewrite (if_some_iff (ad_implementation a) _ label), (if_some_iff (ad_issue a) _ label) by (intros; apply label_nil).
  rewrite (Forall_iff _ (ad_observable_state a) label) by (intros; apply label_nil).
  rewrite (Forall_iff _ (ad_environment a) _) by (intros; apply environment_nil).
  rewrite andb_false_iff, bool_decide_eq_false, N.eqb_neq, count_zero.
  assert (ad_status a ≠ Active ∨ ad_command a ≠ [] ↔ (ad_status a = Active → ad_command a ≠ [])) as ->.
  { destruct (decide (ad_status a = Active)); naive_solver. }
  split.
  - intros (? & ? & ? & ? & ? & ? & ? & ? & ? & (? & _ & ?) & ? & ? & ?). by constructor.
  - intros [? ? ? ? ? ? (? & ? & ?) ? [? ?] [? ?]]. do 9 (split; [done|]).
    split; [|done]. split; [done|]. split; [|done]. by intros v _ ?%elem_of_empty.
Qed.

Lemma shape_nil m : validate_manifest_shape m = [] ↔ well_formed m.
Proof.
  unfold validate_manifest_shape. nils.
  rewrite !label_nil, !identifier_nil, toolchain_nil, execution_nil, flat_map_nil, N.eqb_eq, N.eqb_neq, count_zero.
  rewrite (if_some_iff _ _ simulation_ok) by apply simulation_nil.
  rewrite (if_some_iff _ _ verification_ok) by apply verification_nil.
  rewrite (if_some_iff _ _ traces_ok) by apply traces_nil.
  rewrite (Forall_iff _ (adapters m) adapter_ok) by apply adapter_nil.
  pose proof (unique_nil "invariants" (invariants m) MAX_INVARIANTS) as H1.
  pose proof (unique_nil "witnesses" (witnesses m) MAX_WITNESSES) as H2.
  pose proof (unique_nil "temporal_properties" (temporal_properties m) MAX_TEMPORAL_PROPERTIES) as H3.
  assert (validate_collection_limit "adapters" (count (adapters m)) MAX_ADAPTERS = [] ↔ (length (adapters m) ≤ 32)%nat) as ->
    by (unfold validate_collection_limit; rewrite when_nil, N.ltb_ge; apply count_le).
  assert (negb (count (temporal_properties m) =? 0) && negb (is_some (verification m)) = false ↔
          (temporal_properties m ≠ [] → is_Some (verification m))) as ->.
  { rewrite andb_false_iff, !negb_false_iff, N.eqb_eq, count_zero. destruct (verification m); simpl; [naive_solver|].
    split; [intros [-> |?]; done|]. intros H. left. destruct (temporal_properties m); [done|]. destruct H; done. }
  split.
  - intros (? & ? & ? & ? & ? & ? & ? & ? & ? & ? & ? & ? & ? & ? & ? & ? & ? & ? & ? & ? & ?). constructor; tauto.
  - intros []. tauto.
Qed.

(** ** Properties *)

(** The checks report nothing exactly on the manifests that the schema calls
    well formed: versions, labels, identifiers without repetition, collections
    within their limits, relative paths without parents, work products below
    their ceilings and adapters consistent with their status. *)
Theorem manifest_shape_correct (m : Manifest) : validate_manifest_shape m = [] ↔ well_formed m.
Proof. apply shape_nil. Qed.
