(* ===== verification/Workspace.v ===== *)
(** * Workspace: loading a manifest and keeping paths inside the workspace

    [src/tools/fmctl/src/manifest.rs], [LoadedManifest] and the functions that
    touch the file system, and the errors of [error.rs].  The file system is a
    class: what [canonicalize], [exists], [metadata] and opening a file answer.
    [load] reads no more than the size limit and one byte, parses TOML (a
    parameter) and refuses a manifest with any violation; what it accepts is
    characterised by [load_correct].  A path is resolved only if its nearest
    existing ancestor, with symbolic links resolved, lies in the workspace. *)

From S2P Require Import Prelude Text Resource Btree Path Manifest.

(** ** Errors *)

(** What is wrong, and with what. *)
Inductive Invalid :=
| Shape (e : ShapeError)
| SpecEscapes (p : Path)
| SpecUnreadable (p : Path)
| NotRegular (label : string) (p : Path)
| TooLarge (label : string) (maximum : N) (p : Path)
| Grew (label : string) (maximum : N) (p : Path)
| NotUtf8 (label : string) (p : Path)
| RelativePath (label : string) (e : PathError)
| NoExistingAncestor (label : string)
| EscapesThrough (label : string) (ancestor : Path)
| Escapes (label : string) (p : Path)
| TraceOutsideArtifacts (artifacts_dir : Path)
| TraceOutputNotUtf8
| SequencePlaceholder
| BadTraceFile (maximum : N) (p : Path)
| RepeatedTrace (p : Path)
| NoTraces
| NoParent (p : Path)
| ParentEscapes (p : Path)
| NoFileName (p : Path)
| PatternOmitted
| PatternNotUtf8
| PatternWithoutPlaceholder
| NonFileTrace (p : Path)
| TraceFileCount (actual expected : N)
| TraceNotRegular (p : Path)
| TraceSize (size : N) (p : Path)
| NoStates (p : Path)
| NoModelAction (index : N) (p : Path)
| MissingActions (actions : list string)
| LimitMismatch (field : string) (actual expected : N)
| ResourcePolicy (e : ResourcePolicyError).

(** What is wrong with an adapter's answer. *)
Inductive ProtocolIssue :=
| NoResponse
| NotOneObject
| WrongProtocol (actual : string)
| ImplementationRequired
| WrongImplementation (adapter language : string)
| TooManyTraces
| NoRequestedTraces
| WrongTotal (reported expected : N)
| PassedExceedsTotal (passed total : N)
| InconsistentSuccess
| FailureWithoutMismatch
| FailureWithAllPassed
| UnrequestedTrace (p : Path)
| EmptyMismatchMessage
| EmptyMismatchAction
| RequestOmitted
| OutputLimit (maximum : N) (stdout stderr : bool).

(** The I/O errors' sources and the texts are left out. *)
Inductive FmError :=
| Io (path : Path)
| ManifestSyntax (path : Path)
| Validation (errors : list Invalid)
| OperationNotConfigured (operation : string) (manifest : Path)
| UnknownAdapter (adapter : string)
| AdapterCommandMissing (adapter : string)
| AdapterProtocol (issue : ProtocolIssue)
| JsonError
| Spawn (program : string)
| Wait (program : string)
| Terminate (program : string)
| WriteStdin (program : string)
| Output (program stream : string)
| OutputWorkerPanicked
| ReportPublication (source : FmError)
| InvalidRpc (message : string).

Definition exit_code (e : FmError) : N :=
  match e with
  | ManifestSyntax _ | Validation _ | InvalidRpc _ => 2
  | OperationNotConfigured _ _ | UnknownAdapter _ | AdapterCommandMissing _ | AdapterProtocol _ => 3
  | Spawn _ | Wait _ | Terminate _ | WriteStdin _ | Output _ _ | OutputWorkerPanicked => 4
  | Io _ | JsonError => 5
  | ReportPublication _ => 6
  end.

Definition refuse {A} (e : Invalid) : result A FmError := Err (Validation [e]).

(** ** The file system *)

Record Metadata := { is_file : bool; file_len : N }.

(** An open file: what its metadata says, and the bytes it has when it is read. *)
Record OpenFile := { open_metadata : option Metadata; open_content : option (list ascii) }.

Class FileSystem := {
  canonicalize : Path → option Path;
  path_exists : Path → bool;
  metadata : Path → option Metadata;
  open_file : Path → option OpenFile
}.

(** ** Operations *)

Record LoadedManifest := {
  lm_workspace : Path;
  lm_manifest_path : Path;
  lm_spec_path : Path;
  lm_manifest : Manifest
}.

Record ValidationReport := {
  vr_valid : bool;
  vr_schema_version : N;
  vr_project : string;
  vr_model : string;
  vr_language : SpecLanguage;
  vr_workspace : Path;
  vr_manifest : Path;
  vr_spec : Path;
  vr_invariants : list string;
  vr_witnesses : list string;
  vr_temporal_properties : list string;
  vr_adapters : bmap AdapterStatus;
  vr_warnings : list string
}.

Definition report (self : LoadedManifest) : ValidationReport :=
  let m := lm_manifest self in
  {| vr_valid := true;
     vr_schema_version := schema_version m;
     vr_project := project m;
     vr_model := model m;
     vr_language := language m;
     vr_workspace := lm_workspace self;
     vr_manifest := lm_manifest_path self;
     vr_spec := lm_spec_path self;
     vr_invariants := invariants m;
     vr_witnesses := witnesses m;
     vr_temporal_properties := temporal_properties m;
     vr_adapters := List.map (λ '(name, adapter), (name, ad_status adapter)) (adapters m);
     vr_warnings := flat_map (λ '(name, adapter),
       if ad_status adapter == Planned then ["adapter '" +:+ name +:+ "' is planned but not executable"] else [])
       (adapters m) |}.

Section Operations.
Context `{fs : FileSystem}.
(** The [toml] crate with the derived decoder of [Manifest]. *)
Context (toml_from_str : string → option Manifest).

Definition validate_bounded_file_size (label : string) (path : Path) (reported_bytes actual_bytes maximum : N)
    : result unit FmError :=
  if maximum <? reported_bytes then refuse (TooLarge label maximum path)
  else if maximum <? actual_bytes then refuse (Grew label maximum path)
  else Ok ().

Definition read_bounded_utf8_file (path : Path) (maximum : N) (label : string) : result string FmError :=
  let? file := ok_or (open_file path) (Io path) in
  let? metadata := ok_or (open_metadata file) (Io path) in
  if negb (is_file metadata) then refuse (NotRegular label path)
  else
    let reported_bytes := N.min (file_len metadata) u64_max in
    let? _ := validate_bounded_file_size label path reported_bytes reported_bytes maximum in
    let read_limit := saturating_add_u64 (N.min maximum u64_max) 1 in
    let? content := ok_or (open_content file) (Io path) in
    let source := take (N.to_nat read_limit) content in
    let? _ := validate_bounded_file_size label path reported_bytes (N.of_nat (length source)) maximum in
    if utf8 source then Ok (of_bytes source) else refuse (NotUtf8 label path).

Definition canonicalize_existing_under_workspace (workspace path : Path) (label : string) : result Path FmError :=
  let candidate := if is_absolute path then path else join workspace path in
  let? canonical := ok_or (canonicalize candidate) (Io candidate) in
  if negb (path_starts_with canonical workspace) then refuse (Escapes label canonical) else Ok canonical.

(** The loop that walks up with [parent] is the search through [ancestors]. *)
Definition resolve_workspace_descendant (workspace path : Path) (label : string) : result Path FmError :=
  let? _ := map_err (λ e, Validation [RelativePath label e]) (validate_relative_path path) in
  let candidate := join workspace path in
  let? existing := ok_or (List.find path_exists (ancestors candidate)) (Validation [NoExistingAncestor label]) in
  let? canonical_ancestor := ok_or (canonicalize existing) (Io existing) in
  if negb (path_starts_with canonical_ancestor workspace) then refuse (EscapesThrough label existing)
  else if path_exists candidate then
    let? canonical := ok_or (canonicalize candidate) (Io candidate) in
    if negb (path_starts_with canonical workspace) then refuse (Escapes label canonical) else Ok candidate
  else Ok candidate.

Definition resolve_output_path (self : LoadedManifest) (path : Path) : result Path FmError :=
  let? _ := map_err (λ e, Validation [RelativePath "output" e]) (validate_relative_path path) in
  resolve_workspace_descendant (lm_workspace self) path "output".

Definition or_else {A} (o p : option A) : option A := match o with Some _ => o | None => p end.

Definition resolve_adapter_working_directory (self : LoadedManifest) (adapter : AdapterConfig) : result Path FmError :=
  let path := default "." (or_else (ad_working_directory adapter) (ad_target adapter)) in
  let? _ := map_err (λ e, Validation [RelativePath "adapter working_directory" e]) (validate_relative_path path) in
  let candidate := join (lm_workspace self) path in
  let? canonical := ok_or (canonicalize candidate) (Io candidate) in
  if negb (path_starts_with canonical (lm_workspace self))
  then refuse (Escapes "adapter working directory" canonical) else Ok canonical.

Fixpoint resolve_targets (workspace : Path) (adapters : bmap AdapterConfig) : result unit FmError :=
  match adapters with
  | [] => Ok ()
  | (name, adapter) :: adapters =>
      let? _ := match ad_target adapter with
                | Some target =>
                    let? _ := resolve_workspace_descendant workspace target (adapter_label name "target") in Ok ()
                | None => Ok ()
                end in
      resolve_targets workspace adapters
  end.

Definition load (workspace manifest_path : Path) : result LoadedManifest FmError :=
  let? workspace := ok_or (canonicalize workspace) (Io workspace) in
  let? manifest_path := canonicalize_existing_under_workspace workspace manifest_path "manifest" in
  let? source := read_bounded_utf8_file manifest_path MAX_MANIFEST_BYTES "manifest" in
  let? manifest := ok_or (toml_from_str source) (ManifestSyntax manifest_path) in
  let errors := List.map Shape (validate_manifest_shape manifest ++ validate_path "spec" (spec manifest)) in
  let candidate := join workspace (spec manifest) in
  let '(spec_path, errors) :=
    match canonicalize candidate with
    | Some path =>
        if path_starts_with path workspace then (path, errors) else (candidate, errors ++ [SpecEscapes path])
    | None => (candidate, errors ++ [SpecUnreadable candidate])
    end in
  match errors with
  | _ :: _ => Err (Validation errors)
  | [] =>
      let loaded := {| lm_workspace := workspace; lm_manifest_path := manifest_path;
                       lm_spec_path := spec_path; lm_manifest := manifest |} in
      let? _ := resolve_output_path loaded (ex_artifacts_dir (execution manifest)) in
      let? _ := resolve_targets workspace (adapters manifest) in
      Ok loaded
  end.

(** ** Specification *)

(** The canonical file of a path lies in the workspace. *)
Definition inside (workspace p : Path) : Prop := ∃ c, canonicalize p = Some c ∧ path_starts_with c workspace = true.

(** A relative path whose nearest existing ancestor is in the workspace. *)
Definition confined (workspace path : Path) : Prop :=
  local_path path ∧
  ∃ existing, List.find path_exists (ancestors (join workspace path)) = Some existing ∧ inside workspace existing.

(** The manifest file: regular, within the limit, UTF-8. *)
Definition manifest_file (p : Path) (source : string) : Prop :=
  ∃ file m, open_file p = Some file ∧ open_metadata file = Some m ∧ is_file m = true ∧
    file_len m ≤ MAX_MANIFEST_BYTES ∧ open_content file = Some (bytes source) ∧
    len source ≤ MAX_MANIFEST_BYTES ∧ utf8 (bytes source) = true.

Record loaded_from (workspace manifest_path : Path) (l : LoadedManifest) : Prop := {
  from_workspace : canonicalize workspace = Some (lm_workspace l);
  from_manifest : canonicalize (if is_absolute manifest_path then manifest_path else join (lm_workspace l) manifest_path)
    = Some (lm_manifest_path l) ∧ path_starts_with (lm_manifest_path l) (lm_workspace l) = true;
  from_source : ∃ source, manifest_file (lm_manifest_path l) source ∧ toml_from_str source = Some (lm_manifest l);
  from_shape : well_formed (lm_manifest l);
  from_spec : local_path (spec (lm_manifest l)) ∧
    canonicalize (join (lm_workspace l) (spec (lm_manifest l))) = Some (lm_spec_path l) ∧
    path_starts_with (lm_spec_path l) (lm_workspace l) = true;
  from_artifacts : confined (lm_workspace l) (ex_artifacts_dir (execution (lm_manifest l)));
  from_targets : Forall (λ '(_, adapter), if_some (ad_target adapter) (confined (lm_workspace l))) (adapters (lm_manifest l))
}.

(** ** Lemmas *)

Lemma res_bind_ok {A B E} (r : result A E) (f : A → result B E) b :
  (let? a := r in f a) = Ok b ↔ ∃ a, r = Ok a ∧ f a = Ok b.
Proof. destruct r; [|naive_solver]. split; [eauto|]. by intros (? & [= <-] & ?). Qed.

Lemma ok_or_ok {A E} (o : option A) (e : E) a : ok_or o e = Ok a ↔ o = Some a.
Proof. destruct o; simpl; split; congruence. Qed.

Lemma map_err_ok {A E F} (f : E → F) (r : result A E) a : map_err f r = Ok a ↔ r = Ok a.
Proof. destruct r; simpl; split; congruence. Qed.

Lemma refuse_ok {A} (c : bool) (e : Invalid) (k : result A FmError) a :
  (if negb c then refuse e else k) = Ok a ↔ c = true ∧ k = Ok a.
Proof. destruct c; simpl; [tauto|]. split; [done|]. by intros []. Qed.

Lemma find_exists p q : List.find path_exists (p :: q) = Some p ↔ path_exists p = true.
Proof.
  simpl. destruct (path_exists p) eqn:E; [done|]. split; [|done]. intros Hf%List.find_some. destruct Hf. congruence.
Qed.

Lemma resolve_ok workspace path name p :
  resolve_workspace_descendant workspace path name = Ok p ↔ p = join workspace path ∧ confined workspace path.
Proof.
  unfold resolve_workspace_descendant, confined, inside.
  rewrite res_bind_ok. setoid_rewrite map_err_ok. setoid_rewrite res_bind_ok. setoid_rewrite ok_or_ok. setoid_rewrite res_bind_ok.
  setoid_rewrite ok_or_ok. setoid_rewrite refuse_ok.
  assert (∀ existing c, List.find path_exists (ancestors (join workspace path)) = Some existing →
    canonicalize existing = Some c → path_starts_with c workspace = true →
    (if path_exists (join workspace path)
     then let? canonical := ok_or (canonicalize (join workspace path)) (Io (join workspace path)) in
          if negb (path_starts_with canonical workspace) then refuse (Escapes name canonical) else Ok (join workspace path)
     else Ok (join workspace path)) = Ok (A := Path) (E := FmError) (join workspace path)) as Hk.
  { intros existing c Hf Hc Hu. destruct (path_exists (join workspace path)) eqn:E; [|done].
    apply (find_exists _ (parents (rev (components (join workspace path))))) in E.
    unfold ancestors in Hf. rewrite Hf in E. injection E as ->. rewrite Hc. cbn [ok_or]. by rewrite Hu. }
  rewrite <- path_ok. split.
  - intros ([] & Hp & existing & Hf & c & Hc & Hu & Hk'). rewrite (Hk _ _ Hf Hc Hu) in Hk'. injection Hk' as <-. eauto 10.
  - intros (-> & Hp & existing & Hf & c & Hc & Hu). exists (). split; [done|]. eauto 10.
Qed.

Lemma read_ok p source : read_bounded_utf8_file p MAX_MANIFEST_BYTES "manifest" = Ok source ↔ manifest_file p source.
Proof.
  unfold read_bounded_utf8_file, manifest_file, validate_bounded_file_size. rewrite res_bind_ok. setoid_rewrite res_bind_ok.
  setoid_rewrite ok_or_ok. setoid_rewrite refuse_ok.
  assert (∀ n, n ≤ MAX_MANIFEST_BYTES ↔ N.min n u64_max ≤ MAX_MANIFEST_BYTES) as Hmin
    by (intros n; unfold u64_max, MAX_MANIFEST_BYTES; lia).
  set (limit := N.to_nat _). assert (limit = S (N.to_nat MAX_MANIFEST_BYTES)) as El
    by (subst limit; unfold saturating_add_u64, MAX_MANIFEST_BYTES, u64_max; lia). clearbody limit.
  split.
  - intros (file & Hf & m & Hm & Hreg & H). exists file, m. rewrite Hmin.
    destruct (N.ltb_spec MAX_MANIFEST_BYTES (N.min (file_len m) u64_max)); [done|].
    destruct (open_content file) as [content|]; [|done]. cbn [ok_or] in H.
    destruct (N.ltb_spec MAX_MANIFEST_BYTES (N.of_nat (length (take limit content)))) as [|Hl]; [done|].
    rewrite length_take in Hl. rewrite take_ge in H by lia.
    destruct (utf8 content) eqn:Hu; [|done]. injection H as <-. unfold len. rewrite <- length_bytes, bytes_of_bytes. repeat (split; [done|]). split; [lia|done].
  - intros (file & m & Hf & Hm & Hreg & Hlen & Hc & Hs & Hu). exists file. split; [done|]. exists m. split; [done|].
    split; [done|]. rewrite Hmin in Hlen.
    destruct (N.ltb_spec MAX_MANIFEST_BYTES (N.min (file_len m) u64_max)); [lia|]. rewrite Hc. cbn [ok_or].
    unfold len in Hs. rewrite <- length_bytes in Hs. rewrite take_ge by lia.
    destruct (N.ltb_spec MAX_MANIFEST_BYTES (N.of_nat (length (bytes source)))); [lia|]. by rewrite Hu, of_bytes_bytes.
Qed.

Lemma targets_ok workspace l :
  resolve_targets workspace l = Ok () ↔ Forall (λ '(_, adapter), if_some (ad_target adapter) (confined workspace)) l.
Proof.
  induction l as [|[name a] l IH]; cbn [resolve_targets]; [done|]. rewrite res_bind_ok, Forall_cons, <- IH. unfold if_some.
  destruct (ad_target a) as [t|]; [|split; [by intros ([] & _ & ?)|intros [_ ?]; by exists ()]].
  pose proof (resolve_ok workspace t (adapter_label name "target")) as Hr.
  destruct (resolve_workspace_descendant _ _ _) as [p|e].
  - destruct (Hr p) as [Hp _]. destruct (Hp eq_refl) as [_ Hc]. split; [|intros [_ ?]; by exists ()].
    intros ([] & _ & ?). split; [by intros ? [= <-]|done].
  - split; [by intros ([] & ? & _)|]. intros [Hc _]. destruct (Hr (join workspace t)) as [_ He]. by specialize (He (conj eq_refl (Hc t eq_refl))).
Qed.

Lemma output_ok l path p : resolve_output_path l path = Ok p ↔ p = join (lm_workspace l) path ∧ confined (lm_workspace l) path.
Proof.
  unfold resolve_output_path. rewrite res_bind_ok. split.
  - intros ([] & _ & Hr). by apply resolve_ok in Hr.
  - intros Hc. exists (). rewrite map_err_ok, path_ok. split; [apply Hc|by apply resolve_ok].
Qed.

(** C28: loading succeeds exactly with the manifests that are well formed, read in
    full from a regular UTF-8 file of at most 1 MiB in the workspace, and whose
    specification, artifacts directory and adapter targets lie in the workspace
    when symbolic links are resolved; it returns what the file says. *)
Theorem load_correct (workspace manifest_path : Path) (l : LoadedManifest) :
  load workspace manifest_path = Ok l ↔ loaded_from workspace manifest_path l.
Proof.
  unfold load. rewrite res_bind_ok. setoid_rewrite ok_or_ok. split.
  - intros (ws & Hws & H). apply res_bind_ok in H as (mp & Hmp & H). apply res_bind_ok in H as (source & Hs%read_ok & H).
    apply res_bind_ok in H as (m & Hm%ok_or_ok & H). apply res_bind_ok in Hmp as (c & Hc%ok_or_ok & [Hu [= <-]]%refuse_ok).
    destruct (canonicalize (join ws (spec m))) as [p|] eqn:Hp; [destruct (path_starts_with p ws) eqn:Hpu|];
      try (destruct (List.map Shape _); done).
    destruct (validate_manifest_shape m ++ validate_path "spec" (spec m)) eqn:E; [|done].
    apply app_nil in E as [Hshape%shape_nil Hspec%path_nil]. cbn [List.map] in H.
    apply res_bind_ok in H as (q & [_ Ha]%output_ok & H). apply res_bind_ok in H as ([] & Ht%targets_ok & [= <-]).
    constructor; simpl; eauto.
  - intros [Hws [Hmp Hmu] (source & Hs & Hm) Hshape (Hspec & Hp & Hpu) Ha Ht]. destruct l as [ws mp p m]. simpl in *.
    exists ws. split; [done|]. unfold canonicalize_existing_under_workspace. rewrite Hmp. cbn [ok_or]. rewrite Hmu. cbn [negb].
    apply read_ok in Hs. rewrite Hs, Hm. cbn [ok_or]. rewrite Hp, Hpu.
    rewrite (proj2 (shape_nil m) Hshape), (proj2 (path_nil _ _) Hspec). cbn [app List.map].
    rewrite (proj2 (output_ok {| lm_workspace := ws; lm_manifest_path := mp; lm_spec_path := p; lm_manifest := m |} _ _)
      (conj eq_refl Ha)). by rewrite (proj2 (targets_ok _ _) Ht).
Qed.
End Operations.
