(* ===== verification/Plan.v ===== *)
(** * Plan: from a loaded manifest to a command

    [src/tools/fmctl/src/plan.rs]: the resources a manifest asks for are resolved
    against the local profile, and an operation becomes a program with its
    arguments, working directory, environment and output files.  The ambient
    environment and the JSON text of a replay request are parameters; the file
    system is the class of Workspace.

    The local profile grants every validated manifest what it asks for, with one
    exception ([valid_manifest_resolves]); a plan's files lie in the workspace
    ([plan_confined]), and its environment has only names from the list and from
    the adapter ([plan_environment_sanitised]). *)

From S2P Require Import Prelude Text Decimal Resource Btree Path Manifest Workspace.

(** ** Data *)

Inductive Operation :=
| Check
| Simulate
| Verify
| Trace (output : option Path)
| Replay (adapter : string) (traces : list Path).

Definition operation_name (op : Operation) : string :=
  match op with
  | Check => "check"
  | Simulate => "simulate"
  | Verify => "verify"
  | Trace _ => "trace"
  | Replay _ _ => "replay"
  end.

Record CommandArtifacts := {
  ca_stdout : Path;
  ca_stderr : Path;
  ca_result : Path;
  ca_trace_pattern : option Path
}.

Record CommandPlan := {
  cp_schema_version : N;
  cp_project : string;
  cp_model : string;
  cp_operation : string;
  cp_program : string;
  cp_args : list string;
  cp_workspace : Path;
  cp_cwd : Path;
  cp_environment : gmap string string;
  cp_stdin : option string;
  cp_timeout_seconds : N;
  cp_max_output_bytes : N;
  cp_resource_policy : EffectiveResourcePolicy;
  cp_create_directories : list Path;
  cp_artifacts : CommandArtifacts
}.

Record ReplayRequest := {
  rq_protocol : string;
  rq_project : string;
  rq_model : string;
  rq_adapter : string;
  rq_specification : Path;
  rq_traces : list Path
}.

#[export] Instance replay_request_eq_dec : EqDecision ReplayRequest.
Proof. solve_decision. Defined.

(** ** Resources *)

Definition local_request (m : Manifest) : ResourceRequest :=
  mk_limits
    (Some (ex_timeout_seconds (execution m)))
    (Some (N.min (ex_max_output_bytes (execution m)) u64_max))
    (option_map sim_max_samples (simulation m))
    (option_map sim_max_steps (simulation m))
    (match verification m with Some v => ver_max_steps v | None => None end)
    (option_map tr_count (traces m))
    (option_map tr_max_steps (traces m))
    (option_map (λ t, default 500 (or_else (tr_max_samples t) (option_map sim_max_samples (simulation m)))) (traces m)).

Definition resolve_local_resource_policy (m : Manifest) : result EffectiveResourcePolicy FmError :=
  map_err (λ e, Validation [ResourcePolicy e]) (resolve local_v1 (local_request m)).

(** ** Arguments *)

Definition push_machine_arguments (m : Manifest) : list string :=
  ["--main=" +:+ main m; "--init=" +:+ init m; "--step=" +:+ step m].

Definition push_named_values (flag : string) (values : list string) : list string :=
  match values with [] => [] | _ => flag :: values end.

Definition push_temporal_properties (values : list string) : list string :=
  match values with [] => [] | _ => ["--temporal=" +:+ String.concat "," values] end.

(** Every character outside the portable set becomes one [-]. *)
Definition file_component (value : string) : string :=
  of_bytes (flat_map (λ a,
    if is_ascii_alphanumeric a || is_byte "-" a || is_byte "_" a || is_byte "." a then [a]
    else if is_continuation_byte a then [] else ["-"%char]) (bytes value)).

(** [matches(p).count()]: occurrences that do not overlap. *)
Fixpoint count_matches (fuel : nat) (p l : list ascii) : N :=
  match fuel, l with
  | S fuel, _ :: l' =>
      match strip_prefix p l with
      | Some rest => 1 + count_matches fuel p rest
      | None => count_matches fuel p l'
      end
  | _, _ => 0
  end.

Definition matches (p s : string) : N := count_matches (length (bytes s)) (bytes p) (bytes s).

Definition amount (flag : string) (n : N) : string := flag +:+ to_dec n.

Definition quint_prefix (m : Manifest) : list string :=
  ["--yes"; "--package=@informalsystems/quint@" +:+ tc_quint (toolchain m); "quint"].

Definition check_args (m : Manifest) : list string := ["typecheck"; spec m].

Definition simulate_args (m : Manifest) (s : SimulationConfig) (v : ResourceValues) : list string :=
  ["run"; spec m] ++ push_machine_arguments m
  ++ ["--backend=" +:+ sim_backend s;
      amount "--max-samples=" (simulation_max_samples v);
      amount "--max-steps=" (simulation_max_steps v)]
  ++ push_named_values "--invariants" (invariants m)
  ++ push_named_values "--witnesses" (witnesses m).

Definition verify_args (m : Manifest) (c : VerificationConfig) (v : ResourceValues) : list string :=
  ["verify"; spec m] ++ push_machine_arguments m
  ++ ["--backend=" +:+ ver_backend c]
  ++ push_named_values "--invariants" (invariants m)
  ++ push_temporal_properties (temporal_properties m)
  ++ (if is_some (ver_max_steps c) then [amount "--max-steps=" (verification_max_steps v)] else []).

Definition trace_args (m : Manifest) (t : TraceConfig) (v : ResourceValues) (relative_pattern : Path) : list string :=
  ["run"; spec m] ++ push_machine_arguments m
  ++ match or_else (tr_backend t) (option_map sim_backend (simulation m)) with
     | Some backend => ["--backend=" +:+ backend]
     | None => []
     end
  ++ match tr_seed t with Some seed => ["--seed=" +:+ seed] | None => [] end
  ++ [amount "--max-samples=" (trace_max_samples v);
      amount "--max-steps=" (trace_max_steps v);
      amount "--n-traces=" (trace_count v)]
  ++ (if tr_model_based_testing_metadata t then ["--mbt"] else [])
  ++ ["--out-itf=" +:+ relative_pattern].

(** ** Environment *)

Definition AMBIENT : list string :=
  ["PATH"; "JAVA_HOME"; "SSL_CERT_FILE"; "SSL_CERT_DIR"; "LANG"; "LC_ALL"; "CI"].

Definition AMBIENT_NIX : list string :=
  ["CC"; "CXX"; "SDKROOT"; "MACOSX_DEPLOYMENT_TARGET"; "PKG_CONFIG_PATH"; "LIBRARY_PATH"; "NIX_CC"; "NIX_BINTOOLS";
   "NIX_APPLE_SDK_VERSION"; "NIX_CFLAGS_COMPILE"; "NIX_LDFLAGS"; "NIX_DONT_SET_RPATH"; "NIX_ENFORCE_NO_NATIVE";
   "NIX_IGNORE_LD_THROUGH_GCC"].

Definition AMBIENT_PREFIXES : list string :=
  ["NIX_CC_WRAPPER_TARGET_"; "NIX_BINTOOLS_WRAPPER_TARGET_"; "NIX_PKG_CONFIG_WRAPPER_TARGET_"].

Definition copy_environment_variable (ambient environment : gmap string string) (name : string) : gmap string string :=
  match ambient !! name with Some value => <[name := value]> environment | None => environment end.

Definition copy_environment_variables_with_prefix (ambient environment : gmap string string) (prefix : string)
    : gmap string string :=
  fold_left (λ environment '(name, value),
    if has_prefix prefix (bytes name) then <[name := value]> environment else environment)
    (map_to_list ambient) environment.

Definition extend (environment : gmap string string) (entries : bmap string) : gmap string string :=
  fold_left (λ environment '(name, value), <[name := value]> environment) entries environment.

(** The directories of a run beneath the artifacts directory. *)
Record Runtime := { artifact_root : Path; runtime_root : Path; runtime_home : Path; runtime_tmp : Path;
  cargo_home : Path; npm_cache : Path }.

Definition runtime (output : Path) : Runtime :=
  let artifact_root := join output "fmctl" in
  let runtime_root := join artifact_root "runtime" in
  {| artifact_root := artifact_root; runtime_root := runtime_root;
     runtime_home := join runtime_root "home"; runtime_tmp := join runtime_root "tmp";
     cargo_home := join runtime_root "cargo-home"; npm_cache := join runtime_root "npm-cache" |}.

Definition insert_some (name : string) (value : option string) (environment : gmap string string) : gmap string string :=
  match value with Some value => <[name := value]> environment | None => environment end.

Definition sanitized_environment (ambient : gmap string string) (m : Manifest) (r : Runtime) (environment : bmap string)
    : gmap string string :=
  let e := fold_left (copy_environment_variable ambient) (AMBIENT ++ AMBIENT_NIX) ∅ in
  let e := fold_left (copy_environment_variables_with_prefix ambient) AMBIENT_PREFIXES e in
  let rustup_home := or_else (ambient !! "RUSTUP_HOME") (option_map (λ home, join home ".rustup") (ambient !! "HOME")) in
  let e := insert_some "RUSTUP_HOME" rustup_home e in
  let e := insert_some "RUSTUP_TOOLCHAIN" (tc_rust (toolchain m)) e in
  let e := <["HOME" := runtime_home r]> e in
  let e := <["TMPDIR" := runtime_tmp r]> e in
  let e := <["CARGO_HOME" := cargo_home r]> e in
  let e := <["NPM_CONFIG_CACHE" := npm_cache r]> e in
  let e := <["NPM_CONFIG_USERCONFIG" := join (runtime_root r) "npmrc"]> e in
  extend e environment.

(** ** Plans *)

Section Plans.
Context `{fs : FileSystem}.
(** [std::env::vars]. *)
Context (ambient : gmap string string).
(** [serde_json::to_string] of a request. *)
Context (encode_request : ReplayRequest → option string).

Definition finalize_plan (loaded : LoadedManifest) (op : Operation) (policy : EffectiveResourcePolicy)
    (program : string) (args : list string) (cwd : Path) (environment : bmap string) (stdin : option string)
    (create_directories : list Path) (trace_pattern : option Path) : result CommandPlan FmError :=
  let m := lm_manifest loaded in
  let? output := resolve_output_path loaded (ex_artifacts_dir (execution m)) in
  let r := runtime output in
  let create_directories := dedup (sort_paths (create_directories
    ++ [artifact_root r; runtime_home r; runtime_tmp r; cargo_home r; npm_cache r])) in
  let artifact_name :=
    match op with
    | Replay adapter _ => operation_name op +:+ "-" +:+ file_component adapter
    | _ => operation_name op
    end in
  let v := effective_scalar (effective policy) in
  Ok {| cp_schema_version := 1;
        cp_project := project m;
        cp_model := model m;
        cp_operation := operation_name op;
        cp_program := program;
        cp_args := args;
        cp_workspace := lm_workspace loaded;
        cp_cwd := cwd;
        cp_environment := sanitized_environment ambient m r environment;
        cp_stdin := stdin;
        cp_timeout_seconds := timeout_seconds v;
        cp_max_output_bytes := max_output_bytes v;
        cp_resource_policy := policy;
        cp_create_directories := create_directories;
        cp_artifacts := {| ca_stdout := join (artifact_root r) (artifact_name +:+ ".stdout.log");
                           ca_stderr := join (artifact_root r) (artifact_name +:+ ".stderr.log");
                           ca_result := join (artifact_root r) (artifact_name +:+ ".result.json");
                           ca_trace_pattern := trace_pattern |} |}.

Definition trace_pattern (m : Manifest) (output : option Path) : Path :=
  match output with
  | Some output => output
  | None => join (ex_artifacts_dir (execution m))
              (file_component (project m) +:+ "-" +:+ file_component (model m) +:+ "-{seq}.itf.json")
  end.

(** The checks of a trace's output, and where it is written. *)
Definition resolve_trace_pattern (loaded : LoadedManifest) (relative_pattern : Path) : result Path FmError :=
  let m := lm_manifest loaded in
  let? _ := map_err (λ e, Validation [RelativePath "trace output" e]) (validate_relative_path relative_pattern) in
  if negb (path_starts_with relative_pattern (ex_artifacts_dir (execution m)))
  then refuse (TraceOutsideArtifacts (ex_artifacts_dir (execution m)))
  else if negb (utf8 (bytes relative_pattern)) then refuse TraceOutputNotUtf8
  else if negb (matches "{seq}" relative_pattern =? 1) then refuse SequencePlaceholder
  else resolve_output_path loaded relative_pattern.

Definition build_quint_plan (loaded : LoadedManifest) (op : Operation) (policy : EffectiveResourcePolicy)
    : result CommandPlan FmError :=
  let m := lm_manifest loaded in
  let v := effective_scalar (effective policy) in
  let finish args directories pattern :=
    finalize_plan loaded op policy (tc_npx (toolchain m)) (quint_prefix m ++ args) (lm_workspace loaded) []
      None directories pattern in
  match op with
  | Check => finish (check_args m) [] None
  | Simulate =>
      let? s := ok_or (simulation m) (OperationNotConfigured "simulate" (lm_manifest_path loaded)) in
      finish (simulate_args m s v) [] None
  | Verify =>
      let? c := ok_or (verification m) (OperationNotConfigured "verify" (lm_manifest_path loaded)) in
      finish (verify_args m c v) [] None
  | Trace output =>
      let? t := ok_or (traces m) (OperationNotConfigured "trace" (lm_manifest_path loaded)) in
      let relative_pattern := trace_pattern m output in
      let? absolute_pattern := resolve_trace_pattern loaded relative_pattern in
      finish (trace_args m t v relative_pattern)
        (match parent absolute_pattern with Some parent => [parent] | None => [] end) (Some absolute_pattern)
  | Replay _ _ => Err (OperationNotConfigured "replay" (lm_manifest_path loaded))
  end.

(** The loop over the traces of a replay. *)
Fixpoint canonical_traces (workspace : Path) (max_trace_bytes : N) (seen traces : list Path)
    : result (list Path) FmError :=
  match traces with
  | [] => Ok []
  | trace :: traces =>
      let? _ := map_err (λ e, Validation [RelativePath "replay trace" e]) (validate_relative_path trace) in
      let candidate := join workspace trace in
      let? canonical := ok_or (canonicalize candidate) (Io candidate) in
      if negb (path_starts_with canonical workspace) then refuse (Escapes "replay trace" canonical)
      else
        let? m := ok_or (metadata canonical) (Io canonical) in
        if negb (is_file m) || (file_len m =? 0) || (max_trace_bytes <? file_len m)
        then refuse (BadTraceFile max_trace_bytes canonical)
        else if existsb (path_eq canonical) seen then refuse (RepeatedTrace canonical)
        else
          let? rest := canonical_traces workspace max_trace_bytes (canonical :: seen) traces in
          Ok (canonical :: rest)
  end.

Definition ADAPTER_PROTOCOL : string := "fmctl.adapter.v1".

(** The request, with the traces in order. *)
Definition replay_request (loaded : LoadedManifest) (adapter_name : string) (files : list Path) : ReplayRequest :=
  {| rq_protocol := ADAPTER_PROTOCOL;
     rq_project := project (lm_manifest loaded);
     rq_model := model (lm_manifest loaded);
     rq_adapter := adapter_name;
     rq_specification := lm_spec_path loaded;
     rq_traces := sort_paths files |}.

Definition build_replay_plan (loaded : LoadedManifest) (adapter_name : string) (traces : list Path)
    (policy : EffectiveResourcePolicy) : result CommandPlan FmError :=
  let m := lm_manifest loaded in
  let? adapter := ok_or (bt_get adapter_name (adapters m)) (UnknownAdapter adapter_name) in
  match ad_status adapter, ad_command adapter with
  | Active, program :: args =>
      let? canonical := canonical_traces (lm_workspace loaded)
                          (max_output_bytes (effective_scalar (effective policy))) [] traces in
      match canonical with
      | [] => refuse NoTraces
      | _ =>
          let? text := ok_or (encode_request (replay_request loaded adapter_name canonical)) JsonError in
          let stdin := text +:+ of_bytes [ascii_of_N 10] in
          let? cwd := resolve_adapter_working_directory loaded adapter in
          let environment := bt_insert "FMCTL_ADAPTER_PROTOCOL" ADAPTER_PROTOCOL (ad_environment adapter) in
          finalize_plan loaded (Replay adapter_name traces) policy program args cwd environment (Some stdin) [] None
      end
  | _, _ => Err (AdapterCommandMissing adapter_name)
  end.

Definition build_plan (loaded : LoadedManifest) (op : Operation) : result CommandPlan FmError :=
  let? policy := resolve_local_resource_policy (lm_manifest loaded) in
  match op with
  | Replay adapter traces => build_replay_plan loaded adapter traces policy
  | _ => build_quint_plan loaded op policy
  end.
End Plans.

(** ** Specification: resources *)

(** What a manifest asks for; what it leaves out is the local profile's default. *)
Definition asked (m : Manifest) : ResourceValues :=
  mk_limits (ex_timeout_seconds (execution m)) (ex_max_output_bytes (execution m))
    (default 10000 (option_map sim_max_samples (simulation m)))
    (default 40 (option_map sim_max_steps (simulation m)))
    (default 100 (match verification m with Some v => ver_max_steps v | None => None end))
    (default 8 (option_map tr_count (traces m)))
    (default 30 (option_map tr_max_steps (traces m)))
    (default 500 (option_map (λ t, default 500 (or_else (tr_max_samples t) (option_map sim_max_samples (simulation m))))
                    (traces m))).

(** The samples and steps of traces whose number of samples is the simulation's,
    a product the validator of the manifest does not look at. *)
Definition inherited_trace_work (m : Manifest) : option (N * N) :=
  match traces m, simulation m with
  | Some t, Some s => match tr_max_samples t with None => Some (sim_max_samples s, tr_max_steps t) | Some _ => None end
  | _, _ => None
  end.

(** ** Lemmas: resources *)

Lemma fields_named {A B} (a : Limits A) (b : Limits B) f x :
  (f, x) ∈ resource_fields a → ∃ y, (f, y) ∈ resource_fields b.
Proof.
  intros Hx%(list_elem_of_fmap_2 fst). change (fst <$> resource_fields a) with (fst <$> resource_fields b) in Hx.
  apply list_elem_of_fmap in Hx as ([f' y] & E & Hy). simpl in E. subst. eauto.
Qed.

(** Fields of two records are paired by their names. *)
Lemma fieldwise_fields {A B} (P : A → B → Prop) a b f x y : fieldwise P a b →
  (f, x) ∈ resource_fields a → (f, y) ∈ resource_fields b → P x y.
Proof.
  intros Hf (i & Hx)%list_elem_of_lookup (j & Hy)%list_elem_of_lookup.
  assert (i = j) as <-.
  { assert (NoDup (List.map fst (resource_fields a))) as Hn by (simpl; repeat constructor; set_solver).
    eapply NoDup_lookup; [exact Hn| |].
    - change (List.map fst (resource_fields a)) with (fst <$> resource_fields a). by rewrite list_lookup_fmap, Hx.
    - change (List.map fst (resource_fields a)) with (List.map fst (resource_fields b)).
      change (List.map fst (resource_fields b)) with (fst <$> resource_fields b). by rewrite list_lookup_fmap, Hy. }
  unfold fieldwise in Hf. rewrite Forall_lookup in Hf. apply (Hf i ((f, x), (f, y))). by rewrite lookup_zip_with, Hx, Hy.
Qed.

Lemma local_valid : valid_profile local_v1.
Proof.
  pose proof (validate_spec local_v1 absent) as H. assert (validate local_v1 = Ok ()) as E by reflexivity. by rewrite E in H.
Qed.

Section Resources.
Context (m : Manifest) (Hm : well_formed m).

Lemma simulation_asked : 
  1 ≤ simulation_max_samples (asked m) ≤ 1000000 ∧ 1 ≤ simulation_max_steps (asked m) ≤ 100000 ∧
  simulation_max_samples (asked m) * simulation_max_steps (asked m) ≤ 100000000.
Proof.
  pose proof (simulation_good _ Hm) as H. cbn. unfold if_some in H. destruct (simulation m) as [s|]; cbn; [|lia].
  by destruct (H s eq_refl).
Qed.

Lemma verification_asked : 1 ≤ verification_max_steps (asked m) ≤ 100000.
Proof.
  pose proof (verification_good _ Hm) as H. cbn. unfold if_some in H. destruct (verification m) as [v|]; cbn; [|lia].
  destruct (H v eq_refl) as [(_ & _ & ->)|(_ & _ & n & -> & Hn)]; cbn; lia.
Qed.

Lemma traces_asked :
  1 ≤ trace_count (asked m) ≤ 10000 ∧ 1 ≤ trace_max_steps (asked m) ≤ 100000 ∧ 1 ≤ trace_max_samples (asked m) ≤ 1000000 ∧
  trace_count (asked m) * trace_max_steps (asked m) ≤ 100000000 ∧
  match inherited_trace_work m with
  | Some (samples, steps) => trace_max_samples (asked m) = samples ∧ trace_max_steps (asked m) = steps
  | None => trace_max_samples (asked m) * trace_max_steps (asked m) ≤ 100000000
  end.
Proof.
  pose proof (traces_good _ Hm) as H. pose proof simulation_asked as Hs. unfold inherited_trace_work. cbn in *. unfold if_some in H.
  destruct (traces m) as [t|]; cbn; [|lia]. destruct (H t eq_refl) as [_ _ _ Hc Hst Hw Hsa _]. unfold if_some in Hsa.
  destruct (tr_max_samples t) as [n|]; cbn.
  - specialize (Hsa n eq_refl). destruct (simulation m); cbn; lia.
  - destruct (simulation m) as [s|]; cbn in *; [lia|]. assert (500 * tr_max_steps t ≤ 500 * 100000) by nia. lia.
Qed.

(** Nothing a validated manifest asks for is clamped or refused field by field. *)
Lemma local_granted : effective_values local_v1 (local_request m) = asked m ∧
  fieldwise (may_request Reject) (local_request m) (scalar (maximum local_v1)) ∧
  over_names (local_request m) (scalar (maximum local_v1)) = [].
Proof.
  destruct (execution_good _ Hm) as [Ht Ho _]. pose proof simulation_asked as Hs.
  pose proof verification_asked as Hv. pose proof traces_asked as Htr. rewrite fieldwise_iff.
  revert Hs Hv Htr. unfold asked, local_request, effective_values, zip_limits, over_names, inherited_trace_work. cbn.
  rewrite (N.min_l (ex_max_output_bytes _)) by (unfold u64_max; lia). intros Hs Hv Htr.
  assert (∀ n k, n ≤ k → (k <? n) = false) as Hlt by (intros; by apply N.ltb_ge).
  rewrite (Hlt (ex_timeout_seconds _)), (Hlt (ex_max_output_bytes _)) by lia.
  rewrite (N.min_l (ex_timeout_seconds _)), (N.min_l (ex_max_output_bytes _)) by lia.
  destruct (simulation m) as [s|], (match verification m with Some v => ver_max_steps v | None => None end) as [n|],
    (traces m) as [t|]; cbn in *; rewrite ?N.min_l, ?Hlt by lia; repeat split; (done || lia).
Qed.

Lemma local_accepts : accepts local_v1 (local_request m) ↔
  ∀ samples steps, inherited_trace_work m = Some (samples, steps) → samples * steps ≤ 100000000.
Proof.
  destruct local_granted as (He & Hf & _). unfold accepts, works_fit, work_fits. rewrite He. cbn [maximum local_v1 max_simulation_work max_trace_work].
  pose proof simulation_asked as Hs. pose proof traces_asked as Ht. pose proof local_valid. cbn [overage_behavior local_v1] in *.
  destruct (inherited_trace_work m) as [[a b]|].
  - destruct Ht as (? & ? & ? & ? & Ha & Hb). rewrite Ha, Hb in *. split.
    + intros (_ & _ & _ & _ & ?) ? ? [= <- <-]. lia.
    + intros H'. specialize (H' _ _ eq_refl). unfold u64_max. do 2 (split; [done|]). lia.
  - split; [done|]. intros _. unfold u64_max. do 2 (split; [done|]). lia.
Qed.

Lemma local_default f d k : (f, d) ∈ resource_fields (defaults local_v1) →
  (f, k) ∈ resource_fields (scalar (maximum local_v1)) → 0 < d ≤ k.
Proof. apply (fieldwise_fields (λ d k, 0 < d ≤ k)), local_valid. Qed.

(** The refusal, when the inherited product is too large. *)
Lemma local_violation e : ¬ accepts local_v1 (local_request m) → violation local_v1 (local_request m) e →
  ∃ samples steps, inherited_trace_work m = Some (samples, steps) ∧ 100000000 < samples * steps ∧
    e = WorkOverPolicy Local_ "trace_max_samples * trace_max_steps" (samples * steps) 100000000.
Proof.
  intros Hn Hv. destruct local_granted as (He & Hf & _). pose proof simulation_asked as Hs. pose proof traces_asked as Ht.
  rewrite local_accepts in Hn. destruct (inherited_trace_work m) as [[a b]|]; [|by destruct Hn].
  exists a, b. split; [done|]. destruct (N.leb_spec (a * b) 100000000) as [Hle|Hlt]; [destruct Hn; by intros ? ? [= <- <-]|].
  split; [done|]. destruct Ht as (? & ? & ? & Hc & Ha & Hb). rewrite <- Ha, <- Hb in *. clear Ha Hb a b Hn.
  unfold violation, bounded_works in Hv. rewrite He in Hv. clear He. set (v := asked m) in *. clearbody v.
  assert (trace_max_samples v * trace_max_steps v ≤ 1000000 * 100000) by nia.
  pose proof (λ f r k, fieldwise_fields (may_request Reject) _ _ f r k Hf) as Hreq.
  destruct e as [| | | |f|n f r k|f|n f w k].
  - by destruct Hv.
  - by destruct Hv.
  - exfalso. destruct Hv as (_ & [Hd|[Hk|Hw]]).
    + destruct (fields_named _ (scalar (maximum local_v1)) _ _ Hd) as [k Hk]. pose proof (local_default _ _ _ Hd Hk). lia.
    + destruct (fields_named _ (defaults local_v1) _ _ Hk) as [d Hd]. pose proof (local_default _ _ _ Hd Hk). lia.
    + cbn in Hw. repeat (apply elem_of_cons in Hw as [[=]|Hw]). by apply elem_of_nil in Hw.
  - destruct Hv as (_ & Hd & Hk & Hlt'). pose proof (local_default _ _ _ Hd Hk). lia.
  - assert (∃ k, (f, k) ∈ resource_fields (scalar (maximum local_v1))) as [k Hk].
    { by eapply fields_named. }
    destruct (Hreq _ _ _ Hv Hk). lia.
  - destruct Hv as (_ & _ & Hr & Hk & Hlt'). destruct (Hreq _ _ _ Hr Hk) as [_ Hle]. specialize (Hle eq_refl). lia.
  - destruct Hv as (a & b & k & Hin & Ho). unfold u64_max in Ho. cbn [works_of app maximum local_v1 defaults] in Hin.
    exfalso. repeat (apply elem_of_cons in Hin as [[= _ -> -> ->]|Hin]; [lia|]). by apply elem_of_nil in Hin.
  - destruct Hv as (-> & a & b & Hin & -> & _ & Hlt').
    cbn [works_of app maximum local_v1 defaults max_simulation_work max_trace_work] in Hin.
    repeat (apply elem_of_cons in Hin as [[= -> -> -> ->]|Hin]; [first [done|exfalso; cbn in Hlt'; lia]|]). by apply elem_of_nil in Hin.
Qed.
End Resources.

(** ** Lemmas: the placeholder *)

Lemma count_matches_elem c p l fuel : count_matches fuel (c :: p) l ≠ 0 → c ∈ l.
Proof.
  revert l. induction fuel as [|fuel IH]; intros [|a l]; try done. cbn [count_matches].
  destruct (strip_prefix (c :: p) (a :: l)) eqn:Es.
  - apply strip_prefix_Some in Es. injection Es as -> _. intros _. by apply elem_of_cons; left.
  - intros ?%IH. by apply elem_of_cons; right.
Qed.

Lemma body_nonempty c l : c ∈ l → c ≠ "/"%char → c ≠ "."%char → body l ≠ [].
Proof.
  intros Hc Hs Hd Hb. assert (∃ part, part ∈ split_list "/" l ∧ c ∈ part) as (part & Hp & Hcp).
  { clear Hb Hd. induction l as [|a l IH]; [by apply elem_of_nil in Hc|]. simpl.
    destruct (split_list_inv "/" l) as (p0 & ps & E & _). rewrite E in *. case_bool_decide as Ea.
    - apply elem_of_cons in Hc as [-> |Hc]; [done|]. destruct (IH Hc) as (part & ? & ?). exists part. split; [by apply elem_of_cons; right|done].
    - apply elem_of_cons in Hc as [-> |Hc]; [exists (a :: p0); split; by apply elem_of_cons; left|].
      destruct (IH Hc) as (part & [-> |Hin]%elem_of_cons & ?).
      + exists (a :: p0). split; [by apply elem_of_cons; left|by apply elem_of_cons; right].
      + exists part. split; [by apply elem_of_cons; right|done]. }
  assert (∃ k, body_component part = Some k) as [k Hk].
  { unfold body_component. repeat case_bool_decide; subst; eauto; set_solver. }
  assert (k ∈ body l) as Hin by (unfold body; apply list_elem_of_omap; eauto). rewrite Hb in Hin. by apply elem_of_nil in Hin.
Qed.

(** ** Lemmas: plans *)

Section PlanLemmas.
Context `{fs : FileSystem} (ambient : gmap string string) (encode_request : ReplayRequest → option string).
Context (loaded : LoadedManifest).
Let ws := lm_workspace loaded.
Let m := lm_manifest loaded.

(** *** Environment *)

Lemma copied name e n v : copy_environment_variable ambient e name !! n = Some v →
  n = name ∧ ambient !! n = Some v ∨ e !! n = Some v.
Proof.
  unfold copy_environment_variable. destruct (ambient !! name) eqn:E; [|by right].
  destruct (decide (n = name)) as [-> |]; [rewrite lookup_insert_eq; intros [= <-]; by left|].
  rewrite lookup_insert_ne by done. by right.
Qed.

Lemma copied_all names : ∀ e n v, fold_left (copy_environment_variable ambient) names e !! n = Some v →
  n ∈ names ∧ ambient !! n = Some v ∨ e !! n = Some v.
Proof.
  induction names as [|name names IH]; intros e n v; [by right|]. simpl.
  intros [[??]|[[-> ?]|?]%copied]%IH; rewrite elem_of_cons; auto.
Qed.

Lemma prefixed prefix e n v : copy_environment_variables_with_prefix ambient e prefix !! n = Some v →
  has_prefix prefix (bytes n) = true ∧ ambient !! n = Some v ∨ e !! n = Some v.
Proof.
  unfold copy_environment_variables_with_prefix.
  assert (∀ (l : list (string * string)) (e : gmap string string), (∀ n v, (n, v) ∈ l → ambient !! n = Some v) →
    fold_left (λ environment '(name, value),
      if has_prefix prefix (bytes name) then <[name := value]> environment else environment) l e !! n = Some v →
    has_prefix prefix (bytes n) = true ∧ ambient !! n = Some v ∨ e !! n = Some v) as H.
  { induction l as [|[name value] l IH]; intros e' Hl; [by right|]. simpl. intros He.
    apply IH in He; [|intros ? ? ?; apply Hl; by apply elem_of_cons; right]. destruct He as [?|He]; [by left|].
    destruct (has_prefix prefix (bytes name)) eqn:Ep; [|by right].
    destruct (decide (n = name)) as [-> |]; [|rewrite lookup_insert_ne in He by done; by right].
    left. split; [done|]. rewrite lookup_insert_eq in He. injection He as <-. apply Hl. by apply elem_of_cons; left. }
  apply H. by intros ? ? ?%elem_of_map_to_list.
Qed.

Lemma prefixed_all prefixes : ∀ e n v, fold_left (copy_environment_variables_with_prefix ambient) prefixes e !! n = Some v →
  (∃ p, p ∈ prefixes ∧ has_prefix p (bytes n) = true) ∧ ambient !! n = Some v ∨ e !! n = Some v.
Proof.
  induction prefixes as [|p prefixes IH]; intros e n v; [by right|]. simpl.
  intros [[(q & ? & ?) ?]|[[? ?]|?]%prefixed]%IH; [left|left|by right]; (split; [|done]); eexists; rewrite elem_of_cons; eauto.
Qed.

Lemma extended entries : ∀ e n v, extend e entries !! n = Some v → (n, v) ∈ entries ∨ (n ∉ bt_keys entries) ∧ e !! n = Some v.
Proof.
  unfold extend. induction entries as [|[name value] entries IH]; intros e n v; simpl.
  { intros He. right. split; [apply not_elem_of_nil|done]. }
  intros [?|[Hn He]]%IH; [left; by apply elem_of_cons; right|].
  destruct (decide (n = name)) as [-> |]; [rewrite lookup_insert_eq in He; injection He as <-; left; by apply elem_of_cons; left|].
  rewrite lookup_insert_ne in He by done. right. split; [|done]. by rewrite elem_of_cons; intros [?|?].
Qed.

Lemma insert_some_lookup name value e n v : insert_some name value e !! n = Some v →
  n = name ∧ value = Some v ∨ e !! n = Some v.
Proof.
  unfold insert_some. destruct value as [w|]; [|by right].
  destruct (decide (n = name)) as [-> |]; [rewrite lookup_insert_eq; intros [= <-]; by left|].
  rewrite lookup_insert_ne by done. by right.
Qed.

(** *** Paths *)

Definition output : Path := join ws (ex_artifacts_dir (execution m)).

Context (Hws : is_absolute ws = true).

Lemma under_join p base q : path_starts_with p base = true → is_absolute base = true → is_absolute q = false →
  path_starts_with (join p q) base = true.
Proof.
  intros Hp Hb Hq. eapply path_starts_with_trans; [|exact Hp]. apply join_under; [by eapply under_absolute|done].
Qed.

Lemma output_under : confined ws (ex_artifacts_dir (execution m)) → path_starts_with output ws = true ∧ is_absolute output = true.
Proof.
  intros [(_ & Ha & _) _]. assert (path_starts_with output ws = true) as H by by apply join_under.
  split; [done|by eapply under_absolute].
Qed.

Lemma runtime_under : is_absolute output = true →
  Forall (λ p, path_starts_with p output = true)
    [artifact_root (runtime output); runtime_root (runtime output); runtime_home (runtime output);
     runtime_tmp (runtime output); cargo_home (runtime output); npm_cache (runtime output)].
Proof.
  intros Ho. assert (path_starts_with (artifact_root (runtime output)) output = true) as Ha by by apply join_under.
  assert (path_starts_with (runtime_root (runtime output)) output = true) as Hr by by apply under_join.
  repeat constructor; try done; by apply under_join.
Qed.

Lemma front_dot p : is_absolute p = false → front p = [] ∨ front p = [CurDir].
Proof. intros Hp. unfold front. rewrite Hp. destruct (split_list _ _); [by left|]. case_bool_decide; auto. Qed.

(** A relative path beneath another stays so when both are joined. *)
Lemma join_mono p q base : is_absolute base = true → local_path q → is_absolute p = false → path_starts_with p q = true →
  path_starts_with (join base p) (join base q) = true.
Proof.
  intros Hb (Hq & Hqa & _) Hp Hpq. apply path_starts_with_iff in Hpq as [r Hr]. apply path_starts_with_iff.
  rewrite !components_join by done. unfold components in Hr.
  assert (∀ c l, c ∈ body l → c ≠ CurDir) as Hbody by (intros c l Hc; by apply body_components_body in Hc as [_ ?]).
  destruct (front_dot p Hp) as [Ep|Ep], (front_dot q Hqa) as [Eq|Eq]; rewrite Ep, Eq in Hr; simpl in Hr.
  - exists r. by rewrite Hr, app_assoc.
  - destruct (Hbody CurDir (bytes p)); [|done]. rewrite Hr. by apply elem_of_cons; left.
  - destruct (body (bytes q)) as [|c k] eqn:Ek.
    + exists (body (bytes p)). by rewrite app_nil_r.
    + injection Hr as <- _. destruct (Hbody CurDir (bytes q)); [|done]. rewrite Ek. by apply elem_of_cons; left.
  - injection Hr as Hr. exists r. by rewrite Hr, app_assoc.
Qed.

Lemma parent_under p base : path_starts_with p base = true → is_absolute base = true → components p ≠ components base →
  ∀ q, parent p = Some q → path_starts_with q base = true.
Proof.
  intros [r Hr]%path_starts_with_iff Hb Hne q. unfold parent. rewrite Hr, rev_app_distr.
  destruct r as [|c r] using rev_ind; [by rewrite app_nil_r in Hr|]. rewrite rev_app_distr. cbn [rev app].
  intros Hq. assert (q = of_components (components base ++ r)) as ->.
  { destruct c; [done|..]; injection Hq as <-; by rewrite <- rev_app_distr, rev_involutive. }
  apply path_starts_with_iff. exists r. apply components_of_components.
  eapply (proper_prefix _ [c]). rewrite <- app_assoc, <- Hr. apply components_proper.
Qed.

(** *** Replayed traces *)

(** The canonical file of a trace: regular, in the workspace, within the limit. *)
Definition replayable (limit : N) (trace c : Path) : Prop :=
  local_path trace ∧ canonicalize (join ws trace) = Some c ∧ path_starts_with c ws = true ∧
  ∃ data, metadata c = Some data ∧ is_file data = true ∧ 1 ≤ file_len data ≤ limit.

Lemma canonical_traces_ok limit traces : ∀ seen cs, canonical_traces ws limit seen traces = Ok cs →
  Forall2 (replayable limit) traces cs ∧ NoDup (List.map components cs) ∧
  Forall (λ c, components c ∉ List.map components seen) cs.
Proof.
  induction traces as [|trace traces IH]; intros seen cs H; [injection H as <-; repeat constructor|].
  cbn [canonical_traces] in H. apply res_bind_ok in H as ([] & Hp%map_err_ok%path_ok & H).
  apply res_bind_ok in H as (c & Hc%ok_or_ok & H). apply refuse_ok in H as [Hu H].
  apply res_bind_ok in H as (data & Hd%ok_or_ok & H).
  destruct (negb (is_file data) || (file_len data =? 0) || (limit <? file_len data)) eqn:E; [done|].
  destruct (existsb (path_eq c) seen) eqn:Es; [done|]. apply res_bind_ok in H as (rest & Hrest & [= <-]).
  apply IH in Hrest as (Hf & Hn & Hs). bsimp. rewrite Forall_forall in Hs.
  split; [constructor; [|done]|split].
  - split; [done|]. split; [done|]. split; [done|]. exists data. repeat split; try done; lia.
  - simpl. constructor; [|done]. intros (c' & Ec & Hc')%list_elem_of_fmap. apply (Hs c' Hc'). simpl. rewrite <- Ec. by apply elem_of_cons; left.
  - constructor.
    + intros (d & Ed & Hd')%list_elem_of_fmap. apply not_true_iff_false in Es. apply Es, existsb_exists.
      exists d. split; [by apply In_elem|]. by apply bool_decide_eq_true.
    + apply Forall_forall. intros c' Hc' Hin. apply (Hs c' Hc'). simpl. by apply elem_of_cons; right.
Qed.

(** *** Building plans *)

Lemma trace_pattern_ok rel p : resolve_trace_pattern loaded rel = Ok p →
  p = join ws rel ∧ confined ws rel ∧ matches "{seq}" rel = 1 ∧ path_starts_with rel (ex_artifacts_dir (execution m)) = true.
Proof.
  unfold resolve_trace_pattern. intros H. apply res_bind_ok in H as ([] & _ & H). apply refuse_ok in H as [Hs H].
  apply refuse_ok in H as [_ H]. apply refuse_ok in H as [Hc%N.eqb_eq [Hp Hr]%output_ok]. done.
Qed.

(** What the directories of a plan are checked for. *)
Definition pattern_ok (directories : list Path) (pattern : option Path) : Prop :=
  match pattern with
  | None => directories = []
  | Some p => (∃ rel, p = join ws rel ∧ confined ws rel ∧ matches "{seq}" rel = 1 ∧
                 path_starts_with rel (ex_artifacts_dir (execution m)) = true) ∧
              directories = match parent p with Some d => [d] | None => [] end
  end.

Definition environment_of (op : Operation) (environment : bmap string) : Prop :=
  match op with
  | Replay name _ => ∃ adapter, bt_get name (adapters m) = Some adapter ∧
      environment = bt_insert "FMCTL_ADAPTER_PROTOCOL" ADAPTER_PROTOCOL (ad_environment adapter)
  | _ => environment = []
  end.

(** Every plan is finished from checked parts. *)
Lemma build_plan_finalized op plan : build_plan ambient encode_request loaded op = Ok plan →
  ∃ policy program args cwd environment stdin directories pattern,
    resolve_local_resource_policy m = Ok policy ∧
    finalize_plan ambient loaded op policy program args cwd environment stdin directories pattern = Ok plan ∧
    path_starts_with cwd ws = true ∧ environment_of op environment ∧ pattern_ok directories pattern.
Proof.
  unfold build_plan. intros H. apply res_bind_ok in H as (policy & Hp & H). fold m in Hp.
  destruct op as [| | |out|name traces]; unfold build_quint_plan in H; cbv zeta in H.
  - exists policy. repeat eexists; [done|exact H|apply path_starts_with_refl|done..].
  - apply res_bind_ok in H as (s & _ & H). exists policy. repeat eexists; [done|exact H|apply path_starts_with_refl|done..].
  - apply res_bind_ok in H as (s & _ & H). exists policy. repeat eexists; [done|exact H|apply path_starts_with_refl|done..].
  - apply res_bind_ok in H as (t & _ & H). apply res_bind_ok in H as (p & Hr%trace_pattern_ok & H).
    exists policy. do 7 eexists. split; [done|]. split; [exact H|]. split; [apply path_starts_with_refl|]. split; [done|].
    split; [eauto|done].
  - unfold build_replay_plan in H. apply res_bind_ok in H as (adapter & Ha%ok_or_ok & H).
    destruct (ad_status adapter); try done. destruct (ad_command adapter) as [|program args]; [done|].
    apply res_bind_ok in H as (cs & _ & H). destruct cs; [done|]. apply res_bind_ok in H as (text & _ & H).
    apply res_bind_ok in H as (cwd & Hcwd & H). exists policy. do 7 eexists. split; [done|]. split; [exact H|].
    split; [|split; [by exists adapter|done]].
    unfold resolve_adapter_working_directory in Hcwd. apply res_bind_ok in Hcwd as ([] & _ & Hcwd).
    apply res_bind_ok in Hcwd as (c & _ & Hcwd). by apply refuse_ok in Hcwd as [? [= <-]].
Qed.

End PlanLemmas.

(** The plan of a replay. *)
Lemma replay_plan_ok `{fs : FileSystem} (ambient : gmap string string)
  (encode_request : ReplayRequest → option string) (loaded : LoadedManifest) (name : string) (paths : list Path)
  (plan : CommandPlan) (planned : build_plan ambient encode_request loaded (Replay name paths) = Ok plan) :
  ∃ config files text,
    bt_get name (adapters (lm_manifest loaded)) = Some config ∧ ad_status config = Active ∧
    ad_command config = cp_program plan :: cp_args plan ∧
    paths ≠ [] ∧ Forall2 (replayable loaded (cp_max_output_bytes plan)) paths files ∧
    NoDup (List.map components files) ∧
    StronglySorted (λ p q, path_cmp p q ≠ Gt) (sort_paths files) ∧ sort_paths files ≡ₚ files ∧
    encode_request (replay_request loaded name files) = Some text ∧
    cp_stdin plan = Some (text +:+ of_bytes [ascii_of_N 10]) ∧
    canonicalize (join (lm_workspace loaded)
      (default "." (or_else (ad_working_directory config) (ad_target config)))) = Some (cp_cwd plan).
Proof.
  unfold build_plan, build_replay_plan in planned. apply res_bind_ok in planned as (policy & _ & H).
  apply res_bind_ok in H as (config & Hc%ok_or_ok & H). destruct (ad_status config) eqn:Hs; try done.
  destruct (ad_command config) as [|program args] eqn:Ha; [done|]. apply res_bind_ok in H as (files & Hf & H).
  destruct files as [|f files]; [done|]. apply res_bind_ok in H as (text & Ht%ok_or_ok & H).
  apply res_bind_ok in H as (cwd & Hcwd & H). unfold finalize_plan in H. apply res_bind_ok in H as (out & _ & [= <-]). cbn.
  destruct (canonical_traces_ok loaded _ _ _ _ Hf) as (Hfiles & Hn & _).
  exists config, (f :: files), text. split; [done|]. split; [done|]. split; [done|].
  split; [by intros ->; inversion Hfiles|]. split; [done|]. split; [done|].
  split; [apply sort_paths_sorted|]. split; [apply sort_paths_perm|]. split; [done|]. split; [done|].
  unfold resolve_adapter_working_directory in Hcwd. apply res_bind_ok in Hcwd as ([] & _ & Hcwd).
  apply res_bind_ok in Hcwd as (c & Hcan%ok_or_ok & Hcwd). by apply refuse_ok in Hcwd as [_ [= <-]].
Qed.

(** ** Properties *)

(** C38: the local profile grants a validated manifest exactly what it asks for,
    nothing clamped, with one exception: traces without samples of their own
    take the simulation's, and the product of these with the traces' steps,
    which the manifest's validator does not look at, may exceed the profile;
    then, and only then, no operation of the manifest can be planned. *)
Theorem valid_manifest_resolves (m : Manifest) (valid : validate_manifest_shape m = []) :
  match resolve_local_resource_policy m with
  | Ok p => effective_scalar (effective p) = asked m ∧ clamped_fields p = [] ∧
      (∀ samples steps, inherited_trace_work m = Some (samples, steps) → samples * steps ≤ 100000000)
  | Err e => ∃ samples steps, inherited_trace_work m = Some (samples, steps) ∧ 100000000 < samples * steps ∧
      e = Validation [ResourcePolicy
            (WorkOverPolicy Local_ "trace_max_samples * trace_max_steps" (samples * steps) 100000000)]
  end.
Proof.
  apply shape_nil in valid. unfold resolve_local_resource_policy. pose proof (resolve_spec local_v1 (local_request m)) as H.
  destruct (local_granted m valid) as (He & _ & Hc). destruct (resolve local_v1 (local_request m)) as [p|e]; cbn [map_err].
  - destruct H as [Ha ->]. cbn [policy_of effective effective_scalar clamped_fields]. split; [done|]. split; [done|].
    by apply local_accepts.
  - destruct H as [Hn Hv]. destruct (local_violation m valid e Hn Hv) as (samples & steps & Hi & Hl & ->). eauto.
Qed.


(** The names a command's environment may take from the ambient one. *)
Definition ambient_name (name : string) : Prop :=
  name ∈ AMBIENT ∨ name ∈ AMBIENT_NIX ∨ ∃ p, p ∈ AMBIENT_PREFIXES ∧ has_prefix p (bytes name) = true.

(** A variable of a plan's environment is one the adapter declares, one of the
    listed names with its ambient value, a toolchain setting, or a directory in
    the workspace; in particular nothing else of the ambient environment is
    passed on. *)
Theorem plan_environment_sanitised `{fs : FileSystem} (ambient : gmap string string)
  (encode_request : ReplayRequest → option string) (loaded : LoadedManifest) (op : Operation) (plan : CommandPlan)
  (name value : string) (absolute : is_absolute (lm_workspace loaded) = true)
  (planned : build_plan ambient encode_request loaded op = Ok plan)
  (bound : cp_environment plan !! name = Some value) :
  (∃ adapter config traces, op = Replay adapter traces ∧ bt_get adapter (adapters (lm_manifest loaded)) = Some config ∧
     (name, value) ∈ bt_insert "FMCTL_ADAPTER_PROTOCOL" ADAPTER_PROTOCOL (ad_environment config)) ∨
  ambient_name name ∧ ambient !! name = Some value ∨
  name = "RUSTUP_HOME" ∧ (ambient !! "RUSTUP_HOME" = Some value ∨
                          ∃ home, ambient !! "HOME" = Some home ∧ value = join home ".rustup") ∨
  name = "RUSTUP_TOOLCHAIN" ∧ tc_rust (toolchain (lm_manifest loaded)) = Some value ∨
  name ∈ ["HOME"; "TMPDIR"; "CARGO_HOME"; "NPM_CONFIG_CACHE"; "NPM_CONFIG_USERCONFIG"] ∧
    path_starts_with value (lm_workspace loaded) = true.
Proof.
  destruct (build_plan_finalized _ _ _ _ _ planned)
    as (policy & program & args & cwd & env & stdin & dirs & pattern & _ & Hf & _ & He & _).
  unfold finalize_plan in Hf. apply res_bind_ok in Hf as (out & [-> Hc]%output_ok & [= <-]). cbn in bound.
  destruct (output_under loaded absolute Hc) as [Hu Ha].
  change (join (lm_workspace loaded) (ex_artifacts_dir (execution (lm_manifest loaded)))) with (output loaded) in bound.
  pose proof (runtime_under loaded Ha) as Hr. rewrite !Forall_cons in Hr. destruct Hr as (_ & Hrr & Hh & Ht & Hcg & Hn & _).
  assert (path_starts_with (join (runtime_root (runtime (output loaded))) "npmrc") (output loaded) = true) as Hrc
    by by apply under_join.
  revert bound. unfold sanitized_environment. cbv zeta. intros [Hin|[_ bound]]%extended.
  { left. destruct op; simpl in He; [by subst; apply elem_of_nil in Hin..|]. destruct He as (config & Hg & ->). eauto 8. }
  right. repeat match type of bound with
    | <[?k := ?v]> _ !! _ = _ => destruct (decide (name = k)) as [-> |];
        [rewrite lookup_insert_eq in bound; injection bound as <-; do 3 right;
         split; [set_solver|by eapply path_starts_with_trans; [|exact Hu]]|rewrite lookup_insert_ne in bound by done]
    end.
  apply insert_some_lookup in bound as [[-> Hv]|bound]; [by do 2 right; left|].
  apply insert_some_lookup in bound as [[-> Hv]|bound].
  { right. left. split; [done|]. destruct (ambient !! "RUSTUP_HOME"); [by left|]. simpl in Hv.
    destruct (ambient !! "HOME") as [home|]; [|done]. injection Hv as <-. right. eauto. }
  left. unfold ambient_name.
  apply prefixed_all in bound as [[Hp Hv]|bound]; [by split; [right; right|]|].
  apply copied_all in bound as [[Hin Hv]|bound]; [|by rewrite lookup_empty in bound].
  apply elem_of_app in Hin. split; [tauto|done].
Qed.

(** A replay plan runs the command of an active adapter in a directory of the
    workspace, and its standard input is one line, the request for exactly the
    given traces: their canonical files, each once and in order, all regular
    files in the workspace that are not empty and within the output limit. *)
Theorem replay_request_correct `{fs : FileSystem} (ambient : gmap string string)
  (encode_request : ReplayRequest → option string) (loaded : LoadedManifest) (name : string) (paths : list Path)
  (plan : CommandPlan) (planned : build_plan ambient encode_request loaded (Replay name paths) = Ok plan) :
  ∃ config files text,
    bt_get name (adapters (lm_manifest loaded)) = Some config ∧ ad_status config = Active ∧
    ad_command config = cp_program plan :: cp_args plan ∧
    paths ≠ [] ∧ Forall2 (replayable loaded (cp_max_output_bytes plan)) paths files ∧
    NoDup (List.map components files) ∧
    StronglySorted (λ p q, path_cmp p q ≠ Gt) (sort_paths files) ∧ sort_paths files ≡ₚ files ∧
    encode_request (replay_request loaded name files) = Some text ∧
    cp_stdin plan = Some (text +:+ of_bytes [ascii_of_N 10]) ∧
    canonicalize (join (lm_workspace loaded)
      (default "." (or_else (ad_working_directory config) (ad_target config)))) = Some (cp_cwd plan).
Proof. by apply replay_plan_ok in planned. Qed.

(** *** Witnesses *)

(** The manifest of this repository, with two of its adapters. *)
Definition demo_manifest : Manifest :=
  {| schema_version := 1; project := "opto-sync-clients"; model := "protocol-v1"; language := Quint;
     spec := "formal/opto_sync_protocol.qnt"; main := "opto_sync_protocol"; init := "init"; step := "step";
     invariants := ["protocol_safety"];
     witnesses := ["ambiguous_commit_reached"; "duplicate_retry_reached"; "reset_crash_reached"];
     temporal_properties := ["queued_work_eventually_settles"; "replica_eventually_catches_up"];
     toolchain := {| tc_quint := "0.32.0"; tc_java := ">=17"; tc_node := Some "22"; tc_rust := Some "1.88.0"; tc_npx := "npx" |};
     execution := {| ex_timeout_seconds := 1200; ex_max_output_bytes := 8388608; ex_artifacts_dir := ".formal-artifacts" |};
     simulation := Some {| sim_backend := "typescript"; sim_max_samples := 10000; sim_max_steps := 40 |};
     verification := Some {| ver_backend := "tlc"; ver_exhaustive_finite_model := true; ver_max_steps := None |};
     traces := Some {| tr_format := "itf"; tr_model_based_testing_metadata := true; tr_backend := Some "rust";
       tr_seed := Some "0x4b27def6cf7f060b"; tr_count := 16; tr_max_steps := 40; tr_max_samples := Some 16;
       tr_required_actions := ["init"; "idle"; "enqueue"; "crash_during_reset"] |};
     adapters :=
       [("go", {| ad_strategy := "itf-json-driver"; ad_target := None; ad_implementation := None; ad_observable_state := [];
                  ad_issue := None; ad_status := Planned; ad_command := []; ad_working_directory := None; ad_environment := [] |});
        ("rust", {| ad_strategy := "itf-json-driver"; ad_target := Some "formal/rust-itf-replay"; ad_implementation := None;
                    ad_observable_state := ["checkpoint"; "response"]; ad_issue := Some "DEN-573"; ad_status := Active;
                    ad_command := ["cargo"; "run"; "--locked"]; ad_working_directory := Some ".";
                    ad_environment := [("RUST_LOG", "info")] |})] |}.

(** Its traces without samples of their own, under a large simulation. *)
Definition inheriting_manifest : Manifest :=
  {| schema_version := 1; project := "p"; model := "m"; language := Quint; spec := "a.qnt"; main := "a"; init := "init";
     step := "step"; invariants := ["safe"]; witnesses := []; temporal_properties := [];
     toolchain := toolchain demo_manifest; execution := execution demo_manifest;
     simulation := Some {| sim_backend := "rust"; sim_max_samples := 1000000; sim_max_steps := 100 |};
     verification := None;
     traces := Some {| tr_format := "itf"; tr_model_based_testing_metadata := false; tr_backend := None; tr_seed := None;
       tr_count := 1; tr_max_steps := 101; tr_max_samples := None; tr_required_actions := [] |};
     adapters := [] |}.

(** A workspace without symbolic links. *)
Definition demo_files : list (Path * bool) :=
  [("/", false); ("/ws", false); ("/ws/formal", false); ("/ws/formal/fm.toml", true);
   ("/ws/formal/opto_sync_protocol.qnt", true); ("/ws/formal/rust-itf-replay", false); ("/ws/t", false);
   ("/ws/t/0.itf.json", true); ("/ws/t/1.itf.json", true);
   ("/ws/.formal-artifacts", false); ("/ws/.formal-artifacts/fmctl", false)].

Definition demo_find (p : Path) : option (Path * bool) := List.find (λ f, path_eq p f.1) demo_files.

#[export] Instance demo_fs : FileSystem := {
  canonicalize p := option_map fst (demo_find p);
  path_exists p := is_some (demo_find p);
  metadata p := option_map (λ f, {| is_file := f.2; file_len := 64 |}) (demo_find p);
  open_file p := option_map (λ f, {| open_metadata := Some {| is_file := f.2; file_len := 64 |};
                                     open_content := Some (bytes "project = x") |}) (demo_find p)
}.

Definition demo_loaded : LoadedManifest :=
  {| lm_workspace := "/ws"; lm_manifest_path := "/ws/formal/fm.toml";
     lm_spec_path := "/ws/formal/opto_sync_protocol.qnt"; lm_manifest := demo_manifest |}.

Definition demo_ambient : gmap string string :=
  {[ "PATH" := "/bin"; "HOME" := "/home/u"; "AWS_SECRET_ACCESS_KEY" := "secret" ]}.

Definition demo_encode (r : ReplayRequest) : option string := Some (rq_protocol r +:+ " " +:+ rq_adapter r).

Example demo_loads : load (λ _, Some demo_manifest) "/ws" "formal/fm.toml" = Ok demo_loaded.
Proof. vm_compute. reflexivity. Qed.

Definition plan_of (op : Operation) : option CommandPlan := ok (build_plan demo_ambient demo_encode demo_loaded op).

Example demo_simulation :
  option_map (λ p, (cp_program p :: cp_args p, cp_environment p !! "AWS_SECRET_ACCESS_KEY", cp_environment p !! "HOME"))
    (plan_of Simulate)
  = Some (["npx"; "--yes"; "--package=@informalsystems/quint@0.32.0"; "quint"; "run"; "formal/opto_sync_protocol.qnt";
           "--main=opto_sync_protocol"; "--init=init"; "--step=step"; "--backend=typescript"; "--max-samples=10000";
           "--max-steps=40"; "--invariants"; "protocol_safety"; "--witnesses"; "ambiguous_commit_reached";
           "duplicate_retry_reached"; "reset_crash_reached"],
          None, Some "/ws/.formal-artifacts/fmctl/runtime/home").
Proof. vm_compute. reflexivity. Qed.

Lemma valid_manifest_resolves_witness :
  (∃ p, resolve_local_resource_policy demo_manifest = Ok p ∧ effective_scalar (effective p) = asked demo_manifest) ∧
  validate_manifest_shape inheriting_manifest = [] ∧
  is_err (resolve_local_resource_policy inheriting_manifest) = true ∧ 100000000 < 1000000 * 101.
Proof.
  pose proof (valid_manifest_resolves demo_manifest) as H. specialize (H ltac:(vm_compute; reflexivity)).
  split; [|split; [vm_compute; reflexivity|split; [vm_compute; reflexivity|reflexivity]]].
  destruct (resolve_local_resource_policy demo_manifest) as [p|e] eqn:E; [|vm_compute in E; discriminate].
  exists p. split; [reflexivity|apply H].
Defined.

Definition planned_ok (op : Operation) (p : CommandPlan) : Prop :=
  build_plan demo_ambient demo_encode demo_loaded op = Ok p.

Lemma planned_of op p : plan_of op = Some p → planned_ok op p.
Proof. apply ok_Some. Qed.

Definition demo_trace : Operation := Trace None.
Definition demo_replay : Operation := Replay "rust" ["t/1.itf.json"; "t/0.itf.json"].
Definition demo_plan (op : Operation) : CommandPlan :=
  default {| cp_schema_version := 0; cp_project := ""; cp_model := ""; cp_operation := ""; cp_program := ""; cp_args := [];
             cp_workspace := ""; cp_cwd := ""; cp_environment := ∅; cp_stdin := None; cp_timeout_seconds := 0;
             cp_max_output_bytes := 0; cp_resource_policy := policy_of local_v1 absent; cp_create_directories := [];
             cp_artifacts := {| ca_stdout := ""; ca_stderr := ""; ca_result := ""; ca_trace_pattern := None |} |} (plan_of op).

Lemma demo_planned op : is_some (plan_of op) = true → planned_ok op (demo_plan op).
Proof. intros H. apply planned_of. unfold demo_plan. by destruct (plan_of op). Qed.


Lemma plan_environment_sanitised_witness :
  cp_environment (demo_plan demo_replay) !! "PATH" = Some "/bin" ∧ (ambient_name "PATH" ∧ demo_ambient !! "PATH" = Some "/bin").
Proof.
  assert (cp_environment (demo_plan demo_replay) !! "PATH" = Some "/bin") as Hb by (vm_compute; reflexivity).
  split; [exact Hb|].
  destruct (plan_environment_sanitised demo_ambient demo_encode demo_loaded demo_replay (demo_plan demo_replay) "PATH" "/bin")
    as [(a & c & t & [= <- <-] & Hc & Hin)|[H|[[H _]|[[H _]|[H _]]]]];
    [reflexivity|apply demo_planned; vm_compute; reflexivity|exact Hb| |exact H|discriminate|discriminate|].
  - vm_compute in Hc. injection Hc as <-. exfalso. revert Hin. apply (bool_decide_eq_false_1 _). vm_compute. reflexivity.
  - exfalso. revert H. apply (bool_decide_eq_false_1 _). vm_compute. reflexivity.
Defined.

Lemma replay_request_correct_witness :
  (cp_program (demo_plan demo_replay) :: cp_args (demo_plan demo_replay) = ["cargo"; "run"; "--locked"]) ∧
  ∃ files, Forall2 (replayable demo_loaded 8388608) ["t/1.itf.json"; "t/0.itf.json"] files ∧ sort_paths files ≡ₚ files.
Proof.
  split; [vm_compute; reflexivity|].
  destruct (replay_request_correct demo_ambient demo_encode demo_loaded "rust" ["t/1.itf.json"; "t/0.itf.json"] (demo_plan demo_replay))
    as (config & files & text & _ & _ & _ & _ & Hf & _ & _ & Hp & _); [apply demo_planned; vm_compute; reflexivity|].
  exists files. split; [|exact Hp]. assert (cp_max_output_bytes (demo_plan demo_replay) = 8388608) as <- by (vm_compute; reflexivity).
  exact Hf.
Defined.
