(* ===== verification/Replay.v ===== *)
(** * Replay: the answer of an adapter to a replay request

    [src/tools/fmctl/src/adapter.rs]: an adapter answers on its standard output
    with one JSON object, which is trusted only if it is consistent with itself
    and with the request.  The JSON decoder of the response is a parameter.

    [replay_response_accepted] characterises the accepted answers; none of them
    claims success without having passed every requested trace. *)

From S2P Require Import Prelude Text Json Path Workspace Plan.

Record AdapterImplementation := { im_language : string; im_name : string; im_version : string }.

Record AdapterMismatch := {
  mm_trace : Path;
  mm_step : option N;
  mm_action : option string;
  mm_message : string;
  mm_expected : json;
  mm_actual : json
}.

Record AdapterReplayResponse := {
  rr_protocol : string;
  rr_success : bool;
  rr_traces_total : N;
  rr_traces_passed : N;
  rr_mismatches : list AdapterMismatch;
  rr_implementation : AdapterImplementation
}.

Definition protocol_error {A} (i : ProtocolIssue) : result A FmError := Err (AdapterProtocol i).

(** [contains] of a [BTreeSet<&Path>], which compares components. *)
Definition requested_path (requested : list Path) (p : Path) : bool := existsb (path_eq p) requested.

Fixpoint validate_mismatches (requested : list Path) (mismatches : list AdapterMismatch) : result unit FmError :=
  match mismatches with
  | [] => Ok ()
  | mismatch :: mismatches =>
      if negb (requested_path requested (mm_trace mismatch)) then protocol_error (UnrequestedTrace (mm_trace mismatch))
      else if is_empty (trim (mm_message mismatch)) then protocol_error EmptyMismatchMessage
      else if is_some_and (mm_action mismatch) (λ action, is_empty (trim action)) then protocol_error EmptyMismatchAction
      else validate_mismatches requested mismatches
  end.

Definition validate_replay_response (response : AdapterReplayResponse) (request : ReplayRequest) : result unit FmError :=
  let implementation := rr_implementation response in
  let total := rr_traces_total response in
  let passed := rr_traces_passed response in
  let expected_total := N.of_nat (length (rq_traces request)) in
  if negb (rr_protocol response == ADAPTER_PROTOCOL) then protocol_error (WrongProtocol (rr_protocol response))
  else if is_empty (trim (im_language implementation)) || is_empty (trim (im_name implementation))
          || is_empty (trim (im_version implementation))
  then protocol_error ImplementationRequired
  else if negb (im_language implementation == rq_adapter request)
  then protocol_error (WrongImplementation (rq_adapter request) (im_language implementation))
  else if u64_max <? expected_total then protocol_error TooManyTraces
  else if expected_total =? 0 then protocol_error NoRequestedTraces
  else if negb (total =? expected_total) then protocol_error (WrongTotal total expected_total)
  else if total <? passed then protocol_error (PassedExceedsTotal passed total)
  else if rr_success response && (negb (passed =? total) || negb (length (rr_mismatches response) =? 0)%nat)
  then protocol_error InconsistentSuccess
  else if negb (rr_success response) && (length (rr_mismatches response) =? 0)%nat then protocol_error FailureWithoutMismatch
  else if negb (rr_success response) && (passed =? total) then protocol_error FailureWithAllPassed
  else validate_mismatches (rq_traces request) (rr_mismatches response).

Section Parse.
(** [serde_json::from_str] with the derived decoder. *)
Context (from_str : string → option AdapterReplayResponse).

Definition parse_replay_response (stdout : string) (request : ReplayRequest) : result AdapterReplayResponse FmError :=
  let trimmed := trim stdout in
  if is_empty trimmed then protocol_error NoResponse
  else
    let? response := ok_or (from_str trimmed) (AdapterProtocol NotOneObject) in
    let? _ := validate_replay_response response request in
    Ok response.
End Parse.

(** ** Specification *)

Definition blank (s : string) : Prop := trim s = "".

(** A mismatch names a requested trace and says something. *)
Definition reported (request : ReplayRequest) (mismatch : AdapterMismatch) : Prop :=
  (∃ p, p ∈ rq_traces request ∧ components p = components (mm_trace mismatch)) ∧
  ¬ blank (mm_message mismatch) ∧ (∀ action, mm_action mismatch = Some action → ¬ blank action).

(** The answer of the requested adapter about all requested traces: all passed,
    or some did not and a mismatch is reported. *)
Record consistent (response : AdapterReplayResponse) (request : ReplayRequest) : Prop := {
  same_protocol : rr_protocol response = ADAPTER_PROTOCOL;
  same_adapter : im_language (rr_implementation response) = rq_adapter request ∧ ¬ blank (rq_adapter request);
  identified : ¬ blank (im_name (rr_implementation response)) ∧ ¬ blank (im_version (rr_implementation response));
  all_traces : rr_traces_total response = N.of_nat (length (rq_traces request)) ∧ 1 ≤ rr_traces_total response ≤ u64_max;
  verdict : if rr_success response
            then rr_traces_passed response = rr_traces_total response ∧ rr_mismatches response = []
            else rr_traces_passed response < rr_traces_total response ∧ rr_mismatches response ≠ [];
  reports : Forall (reported request) (rr_mismatches response)
}.

(** ** Lemmas *)

Lemma requested_path_spec l p : requested_path l p = true ↔ ∃ q, q ∈ l ∧ components q = components p.
Proof.
  unfold requested_path. rewrite existsb_exists. setoid_rewrite In_elem. unfold path_eq. setoid_rewrite bool_decide_eq_true.
  naive_solver.
Qed.

Lemma trim_empty s : is_empty (trim s) = false ↔ ¬ blank s.
Proof. apply is_empty_false. Qed.

Lemma mismatches_ok request l : validate_mismatches (rq_traces request) l = Ok () ↔ Forall (reported request) l.
Proof.
  induction l as [|x l IH]; cbn [validate_mismatches]; [done|]. rewrite Forall_cons, <- IH. unfold reported.
  rewrite <- requested_path_spec, <- trim_empty.
  destruct (requested_path (rq_traces request) (mm_trace x)); cbn [negb]; [|split; [done|naive_solver]].
  destruct (is_empty (trim (mm_message x))); [split; [done|naive_solver]|].
  destruct (mm_action x) as [a|]; simpl.
  - destruct (is_empty (trim a)) eqn:E.
    + split; [done|]. intros [(_ & _ & H) _]. exfalso. apply (H a eq_refl). by apply is_empty_true.
    + apply trim_empty in E. split; [|naive_solver]. intros ->. split; [|done]. do 2 (split; [done|]). by intros ? [= <-].
  - split; [|naive_solver]. intros ->. done.
Qed.

(** The accepted answers. *)
Lemma parse_ok (from_str : string → option AdapterReplayResponse) (stdout : string)
  (request : ReplayRequest) (response : AdapterReplayResponse) :
  parse_replay_response from_str stdout request = Ok response ↔
  ¬ blank stdout ∧ from_str (trim stdout) = Some response ∧ consistent response request.
Proof.
  assert (validate_replay_response response request = Ok () ↔ consistent response request) as Hv.
  { unfold validate_replay_response.
    case_bool_decide as Hp; cbn [negb]; [|split; [done|by intros []]].
    destruct (is_empty (trim (im_language _))) eqn:E1; [split; [done|]|cbn [orb]].
    { intros [_ [<- H] _ _ _ _]. by apply is_empty_true in E1. }
    destruct (is_empty (trim (im_name _))) eqn:E2; [split; [done|]|cbn [orb]].
    { intros [_ _ [H _] _ _ _]. by apply is_empty_true in E2. }
    destruct (is_empty (trim (im_version _))) eqn:E3; [split; [done|]|].
    { intros [_ _ [_ H] _ _ _]. by apply is_empty_true in E3. }
    apply trim_empty in E1, E2, E3. case_bool_decide as Ha; cbn [negb]; [|split; [done|by intros [_ [? _] _ _ _ _]]].
    destruct (N.ltb_spec u64_max (N.of_nat (length (rq_traces request)))); [split; [done|intros [_ _ _ [? ?] _ _]; lia]|].
    destruct (N.eqb_spec (N.of_nat (length (rq_traces request))) 0); [split; [done|intros [_ _ _ [? ?] _ _]; lia]|].
    destruct (N.eqb_spec (rr_traces_total response) (N.of_nat (length (rq_traces request)))) as [Ht|];
      cbn [negb]; [|split; [done|by intros [_ _ _ [? ?] _ _]]].
    assert ((length (rr_mismatches response) =? 0)%nat = bool_decide (rr_mismatches response = [])) as ->
      by (destruct (rr_mismatches response); [done|by rewrite bool_decide_eq_false_2]).
    destruct (N.ltb_spec (rr_traces_total response) (rr_traces_passed response)).
    { split; [done|]. intros [_ _ _ _ Hd _]. destruct (rr_success response); lia. }
    assert ((if rr_success response
            then rr_traces_passed response = rr_traces_total response ∧ rr_mismatches response = []
            else rr_traces_passed response < rr_traces_total response ∧ rr_mismatches response ≠ []) →
      validate_mismatches (rq_traces request) (rr_mismatches response) = Ok () → consistent response request) as Hk.
    { intros Hd Hm%mismatches_ok. constructor; try done; [by rewrite <- Ha|lia]. }
    destruct (N.eqb_spec (rr_traces_passed response) (rr_traces_total response)), (rr_success response) eqn:Es;
      cbn [negb andb orb]; try case_bool_decide as Em; cbn [negb];
      first [split; [done|intros [_ _ _ _ Hd _]; rewrite Es in Hd; destruct Hd; first [done|lia]]
            |split; [apply Hk; split; first [done|lia]|intros [_ _ _ _ _ ?]; by apply mismatches_ok]]. }
  unfold parse_replay_response. destruct (is_empty (trim stdout)) eqn:E.
  { apply is_empty_true in E. split; [done|]. by intros [[] _]. }
  apply trim_empty in E. rewrite res_bind_ok. setoid_rewrite ok_or_ok. split.
  - intros (r & Hr & H). apply res_bind_ok in H as ([] & H & [= <-]). by apply Hv in H.
  - intros (_ & Hr & Hc%Hv). exists response. by rewrite Hc.
Qed.

(** ** Properties *)

(** A response is accepted exactly if it is the requested adapter's, about
    exactly the requested traces, of which there is one, and its verdict agrees
    with its numbers and its mismatches: success means that every requested trace
    passed and nothing mismatched, failure that some trace did not pass and a
    requested one is named. *)
Theorem replay_response_accepted (from_str : string → option AdapterReplayResponse) (stdout : string)
  (request : ReplayRequest) (response : AdapterReplayResponse) :
  parse_replay_response from_str stdout request = Ok response ↔
  ¬ blank stdout ∧ from_str (trim stdout) = Some response ∧ consistent response request.
Proof. apply parse_ok. Qed.
