(* ===== verification/QueueReplay.v ===== *)
(** * QueueReplay: the conformance driver of the mutation queue

    [src/formal/rust-itf-replay/src/main.rs]: an adapter of the model-checking
    tool that drives the production [ProtocolQueue] along traces of the Quint
    model of [QuintProtocol], and compares the observable state after every
    action.  Integers of a trace are [u64]s in decimal.  Reading a file, the
    derived decoders and the derived encoder of the queue are parameters.

    [every_run_replays]: the driver accepts the encoding of every run of the
    model, so the queue refines the model on all runs, not only on the sampled
    ones.  [adapter_answers_are_accepted]: what the driver answers is accepted by
    the tool that asked. *)

From S2P Require Import Prelude Text Decimal Btree Json JsonCodec Path Workspace Plan Replay.
From S2P Require Import QuintProtocol Protocol.

Definition CLIENT_ID : string := "formal-client".

Definition REQUIRED_ACTIONS : list string :=
  ["init"; "idle"; "compact"; "enqueue"; "send"; "apply_new"; "reject_new"; "reply_duplicate";
   "inject_mismatched_response"; "lose_committed_response"; "lose_uncommitted_request";
   "discard_malformed_response"; "acknowledge"; "pull"; "begin_reset"; "crash_during_reset"; "finish_reset"].

(** ** Errors: a constructor per message *)

Inductive Issue :=
| MissingField (name : string)
| BigintNotAString
| InvalidBigint
| NotBoolean (name : string)
| NotASet (name : string)
| NotTagged (name : string)
| PickRequired (action : string)
| NotOneMutation
| InvalidRequestId
| InvalidNextId
| AllocatedOther (actual : string) (expected : N)
| RequestInFlight
| ResponseAlreadyPresent
| SentOther (expected : N)
| RequestChanged (id : N)
| WithoutRequest (action : string)
| PickDiffers (action : string)
| NoDurableOutcome
| UnexpectedError
| QueueMutated
| NoRejectedResponse
| ResponseInvalid
| WithoutResponse
| ChangedRows (changed : N)
| ResetActive
| NoActiveReset (action : string)
| ReplacementSkipped
| UnsupportedAction (action : string)
| InvalidQueueId
| NextIdNotUnsigned
| Differs (what : string)
| NoResult
| OfQueue (e : ProtocolError)
| OfSnapshot
| CannotSerialize
| CannotRead
| NotATrace
| NoStates
| NoInit
| NoPaths
| MissingActions (missing : list string)
| InContext (index : N) (action : string) (e : Issue)
| BadRequest (what : string).

(** A panic of [expect_err], or an error. *)
Inductive Failure := Panicked | Failed (e : Issue).

Definition AnyResult (A : Type) : Type := result A Failure.

Definition invalid {A} (e : Issue) : AnyResult A := Err (Failed e).

Definition ensure (condition : bool) (e : Issue) : AnyResult unit := if condition then Ok () else invalid e.

(** [?] on an error of the queue. *)
Definition lift {A} (r : result A ProtocolError) : AnyResult A := map_err (λ e, Failed (OfQueue e)) r.

(** [expect_err] *)
Definition expect_err {A E} (r : result A E) : AnyResult E := match r with Err e => Ok e | Ok _ => Err Panicked end.

(** ** Traces *)

Record ItfState := { itf_action : string; nondet_picks : json; itf_s : json }.
Record ItfTrace := { itf_states : list ItfState }.

(** [Value::get] *)
Definition get (value : json) (name : string) : option json :=
  match value with JObject m => bt_get name m | _ => None end.

Definition field (value : json) (name : string) : AnyResult json :=
  ok_or (get value name) (Failed (MissingField name)).

Definition tagged_bigint (value : json) : AnyResult N :=
  let? v := field value "#bigint" in
  let? text := ok_or (as_str v) (Failed BigintNotAString) in
  ok_or (parse_u64 text) (Failed InvalidBigint).

Definition state_u64 (state : ItfState) (name : string) : AnyResult N :=
  let? v := field (itf_s state) name in tagged_bigint v.

Definition state_bool (state : ItfState) (name : string) : AnyResult bool :=
  let? v := field (itf_s state) name in ok_or (as_bool v) (Failed (NotBoolean name)).

Definition as_array (v : json) : option (list json) := match v with JArray l => Some l | _ => None end.

(** [map(f).collect] into a set. *)
Fixpoint collect {A} (f : A → AnyResult N) (l : list A) : AnyResult (gset N) :=
  match l with
  | [] => Ok ∅
  | x :: l => let? n := f x in let? ns := collect f l in Ok ({[n]} ∪ ns)
  end.

Definition state_set (state : ItfState) (name : string) : AnyResult (gset N) :=
  let? v := field (itf_s state) name in
  let? set := field v "#set" in
  let? entries := ok_or (as_array set) (Failed (NotASet name)) in
  collect tagged_bigint entries.

Definition state_tag (state : ItfState) (name : string) : AnyResult string :=
  let? v := field (itf_s state) name in
  let? tag := field v "tag" in
  ok_or (as_str tag) (Failed (NotTagged name)).

Definition picked_id (state : ItfState) : AnyResult N :=
  let? pick := field (nondet_picks state) "id" in
  let? tag := field pick "tag" in
  let? _ := ensure (as_str tag == Some "Some") (PickRequired (itf_action state)) in
  let? value := field pick "value" in
  tagged_bigint value.

(** ** The adapter *)

#[export] Instance PushRequest_eq_dec : EqDecision PushRequest.
Proof. solve_decision. Defined.

Record Adapter := {
  queue_of : ProtocolQueue;
  request : option PushRequest;
  sent_requests : gmap N PushRequest;
  response : option PushResponse;
  response_valid : bool;
  replacing_snapshot : bool
}.

Definition new_adapter : AnyResult Adapter :=
  let? queue := lift (Protocol.new CLIENT_ID) in
  Ok {| queue_of := queue; request := None; sent_requests := ∅; response := None; response_valid := false;
        replacing_snapshot := false |}.

(** Field assignments. *)
Definition with_queue (q : ProtocolQueue) (a : Adapter) : Adapter :=
  {| queue_of := q; request := request a; sent_requests := sent_requests a; response := response a;
     response_valid := response_valid a; replacing_snapshot := replacing_snapshot a |}.
Definition with_request (r : PushRequest) (sent : gmap N PushRequest) (a : Adapter) : Adapter :=
  {| queue_of := queue_of a; request := Some r; sent_requests := sent; response := response a;
     response_valid := response_valid a; replacing_snapshot := replacing_snapshot a |}.
Definition with_response (r : PushResponse) (valid : bool) (a : Adapter) : Adapter :=
  {| queue_of := queue_of a; request := request a; sent_requests := sent_requests a; response := Some r;
     response_valid := valid; replacing_snapshot := replacing_snapshot a |}.
Definition cleared (a : Adapter) : Adapter :=
  {| queue_of := queue_of a; request := None; sent_requests := sent_requests a; response := None;
     response_valid := false; replacing_snapshot := replacing_snapshot a |}.
Definition with_replacing (b : bool) (a : Adapter) : Adapter :=
  {| queue_of := queue_of a; request := request a; sent_requests := sent_requests a; response := response a;
     response_valid := response_valid a; replacing_snapshot := b |}.

Definition response_from_state (state : ItfState) (status : ResultStatus) (original : option ResultStatus)
    : AnyResult PushResponse :=
  let? id := state_u64 state "response_mutation_id" in
  let? checkpoint := state_u64 state "response_checkpoint" in
  let has_applied_effect := (status == Applied) || (original == Some Applied) in
  let? watermark := state_u64 state "response_watermark" in
  Ok {| resp_protocol_version := 1;
        resp_client_id := CLIENT_ID;
        resp_last_mutation_id := to_dec watermark;
        resp_checkpoint := to_dec checkpoint;
        resp_results :=
          [{| res_mutation_id := to_dec id;
              res_status := status;
              res_original_status := original;
              res_checkpoint := Some (to_dec checkpoint);
              res_revision := if has_applied_effect then Some (to_dec id) else None;
              res_code := None;
              res_message := None |}] |}.

Definition request_mutation_id (request : PushRequest) : AnyResult N :=
  match req_mutations request with
  | [m] => ok_or (parse_u64 (mutation_id m)) (Failed InvalidRequestId)
  | _ => invalid NotOneMutation
  end.

(** [record-{id}], and the record that is queued. *)
Definition record_name (id : N) : string := "record-" +:+ to_dec id.
Definition record_value (id : N) : json :=
  JObject [("id", JString (record_name id)); ("value", JNumber (NPosInt id))].

(** ** Actions *)

Definition on_enqueue `{SerdeJson} (a : Adapter) (state : ItfState) : AnyResult Adapter :=
  let? next := state_u64 state "next_id" in
  if next =? 0 then invalid InvalidNextId
  else
    let expected_id := next - 1 in
    let '(q, r) := queue_upsert (queue_of a) "docs" (record_name expected_id) (record_value expected_id) None false in
    let? actual_id := lift r in
    let? _ := ensure (actual_id == to_dec expected_id) (AllocatedOther actual_id expected_id) in
    Ok (with_queue q a).

Definition on_send (a : Adapter) (state : ItfState) : AnyResult Adapter :=
  let? _ := ensure (negb (is_some (request a))) RequestInFlight in
  let? _ := ensure (negb (is_some (response a))) ResponseAlreadyPresent in
  let? expected_id := picked_id state in
  let? r := lift (push_request (queue_of a) 1) in
  let? sent := request_mutation_id r in
  let? _ := ensure (sent =? expected_id) (SentOther expected_id) in
  match sent_requests a !! expected_id with
  | Some previous =>
      let? _ := ensure (previous == r) (RequestChanged expected_id) in
      Ok (with_request r (sent_requests a) a)
  | None => Ok (with_request r (<[expected_id := r]> (sent_requests a)) a)
  end.

(** The request in flight is the one picked. *)
Definition picked_request (a : Adapter) (state : ItfState) : AnyResult unit :=
  let? r := ok_or (request a) (Failed (WithoutRequest (itf_action state))) in
  let? id := request_mutation_id r in
  let? picked := picked_id state in
  ensure (id =? picked) (PickDiffers (itf_action state)).

Definition on_new_outcome (status : ResultStatus) (a : Adapter) (state : ItfState) : AnyResult Adapter :=
  let? _ := ensure (negb (is_some (response a))) ResponseAlreadyPresent in
  let? _ := picked_request a state in
  let? r := response_from_state state status None in
  Ok (with_response r true a).

Definition on_reply_duplicate (a : Adapter) (state : ItfState) : AnyResult Adapter :=
  let? _ := ensure (negb (is_some (response a))) ResponseAlreadyPresent in
  let? id := picked_id state in
  let? r := ok_or (request a) (Failed (WithoutRequest (itf_action state))) in
  let? sent := request_mutation_id r in
  let? _ := ensure (sent =? id) (PickDiffers (itf_action state)) in
  let? applied := state_set state "applied" in
  let? original :=
    if Quint.has id applied then Ok Applied
    else
      let? rejected := state_set state "rejected" in
      if Quint.has id rejected then Ok Rejected else invalid NoDurableOutcome in
  let? r := response_from_state state Duplicate (Some original) in
  Ok (with_response r true a).

Definition on_inject_mismatched (a : Adapter) (state : ItfState) : AnyResult Adapter :=
  let? _ := ensure (negb (is_some (response a))) ResponseAlreadyPresent in
  let? resp := response_from_state state Applied None in
  let? req := ok_or (request a) (Failed (WithoutRequest (itf_action state))) in
  let '(q, r) := acknowledge (queue_of a) resp req in
  let? error := expect_err r in
  let? _ := ensure (error == InvalidAcknowledgement) UnexpectedError in
  let? _ := ensure (q == queue_of a) QueueMutated in
  Ok (with_response resp false (with_queue q a)).

Definition on_discard_malformed (a : Adapter) : AnyResult Adapter :=
  let? _ := ensure (is_some (response a) && negb (response_valid a)) NoRejectedResponse in
  Ok (cleared a).

Definition on_acknowledge (a : Adapter) (state : ItfState) : AnyResult Adapter :=
  let? _ := ensure (response_valid a) ResponseInvalid in
  let? resp := ok_or (response a) (Failed WithoutResponse) in
  let? req := ok_or (request a) (Failed (WithoutRequest (itf_action state))) in
  let? sent := request_mutation_id req in
  let? picked := picked_id state in
  let? _ := ensure (sent =? picked) (PickDiffers (itf_action state)) in
  let '(q, r) := acknowledge (queue_of a) resp req in
  let? changed := lift r in
  let? _ := ensure (changed =? 1) (ChangedRows changed) in
  Ok (cleared (with_queue q a)).

Definition on_pull (a : Adapter) (state : ItfState) : AnyResult Adapter :=
  let? c := state_u64 state "local_checkpoint" in
  let '(q, r) := set_checkpoint (queue_of a) (to_dec c) in
  let? _ := lift r in
  Ok (with_queue q a).

Definition on_begin_reset (a : Adapter) : AnyResult Adapter :=
  let? _ := ensure (negb (replacing_snapshot a)) ResetActive in
  Ok (with_replacing true a).

Definition snapshot_of (checkpoint : N) : SnapshotResponse :=
  {| snap_protocol_version := 1; snap_checkpoint := to_dec checkpoint; snap_records := [] |}.

(** The callback of a crash: [Err("simulated snapshot replacement crash")]. *)
Definition crashing (records : list SnapshotRecord) (called : bool) : bool * result unit unit := (called, Err ()).

Definition on_crash_during_reset (a : Adapter) (state : ItfState) : AnyResult Adapter :=
  let? _ := ensure (replacing_snapshot a) (NoActiveReset (itf_action state)) in
  let? c := state_u64 state "server_checkpoint" in
  let '(q, _, r) := install_snapshot (queue_of a) (snapshot_of c) crashing false in
  let? error := expect_err r in
  let? _ := ensure (match error with SnapshotReplace _ => true | SnapshotProtocol _ => false end) UnexpectedError in
  let? _ := ensure (q == queue_of a) QueueMutated in
  Ok (with_replacing false (with_queue q a)).

(** The callback that records that it was called. *)
Definition recording (records : list SnapshotRecord) (called : bool) : bool * result unit unit := (true, Ok ()).

Definition on_finish_reset (a : Adapter) (state : ItfState) : AnyResult Adapter :=
  let? _ := ensure (replacing_snapshot a) (NoActiveReset (itf_action state)) in
  let? c := state_u64 state "server_checkpoint" in
  let '(q, called, r) := install_snapshot (queue_of a) (snapshot_of c) recording false in
  let? _ := map_err (λ _, Failed OfSnapshot) r in
  let? _ := ensure called ReplacementSkipped in
  Ok (with_replacing false (with_queue q a)).

(** The adapter is dropped on an error, so an error carries none. *)
Definition apply_action `{SerdeJson} (a : Adapter) (state : ItfState) : AnyResult Adapter :=
  let action := itf_action state in
  if action == "init" then new_adapter
  else if (action == "idle") || (action == "compact") then Ok a
  else if action == "enqueue" then on_enqueue a state
  else if action == "send" then on_send a state
  else if action == "apply_new" then on_new_outcome Applied a state
  else if action == "reject_new" then on_new_outcome Rejected a state
  else if action == "reply_duplicate" then on_reply_duplicate a state
  else if action == "inject_mismatched_response" then on_inject_mismatched a state
  else if (action == "lose_committed_response") || (action == "lose_uncommitted_request") then Ok (cleared a)
  else if action == "discard_malformed_response" then on_discard_malformed a
  else if action == "acknowledge" then on_acknowledge a state
  else if action == "pull" then on_pull a state
  else if action == "begin_reset" then on_begin_reset a
  else if action == "crash_during_reset" then on_crash_during_reset a state
  else if action == "finish_reset" then on_finish_reset a state
  else invalid (UnsupportedAction action).

(** ** The observable state *)

Section Replay.
Context `{SerdeJson}.
(** [serde_json::to_value] of the queue, with its derived encoder. *)
Context (to_value : ProtocolQueue → option json).

Definition parse_mutation_id (m : ProtocolMutation) : AnyResult N :=
  ok_or (parse_u64 (mutation_id m)) (Failed InvalidQueueId).

(** The range [from..to], collected. *)
Definition range_list (from to : N) : list N :=
  List.map (λ i, from + N.of_nat i) (seq 0 (N.to_nat (to - from))).
Definition range (from to : N) : gset N := list_to_set (range_list from to).

Definition check_in_flight (a : Adapter) (in_flight : N) : AnyResult unit :=
  match request a with
  | None => if in_flight =? 0 then Ok () else invalid (Differs "in flight")
  | Some r =>
      if 0 <? in_flight then
        let? id := request_mutation_id r in ensure (id =? in_flight) (Differs "in flight")
      else invalid (Differs "in flight")
  end.

Definition check_response (a : Adapter) (state : ItfState) : AnyResult unit :=
  match response a with
  | Some resp =>
      let? result := ok_or (head (resp_results resp)) (Failed NoResult) in
      let? watermark := state_u64 state "response_watermark" in
      let? _ := ensure (resp_last_mutation_id resp == to_dec watermark) (Differs "response watermark") in
      let? checkpoint := state_u64 state "response_checkpoint" in
      let? _ := ensure (resp_checkpoint resp == to_dec checkpoint) (Differs "response checkpoint") in
      let? id := state_u64 state "response_mutation_id" in
      let? _ := ensure (res_mutation_id result == to_dec id) (Differs "response mutation id") in
      let? valid := state_bool state "response_valid_for_in_flight" in
      ensure (Bool.eqb (response_valid a) valid) (Differs "response validity")
  | None => ensure (negb (response_valid a)) (Differs "response validity")
  end.

Definition check_queue (a : Adapter) (state : ItfState) : AnyResult unit :=
  let queue := queue_of a in
  let? _ := lift (validate queue) in
  let? queue_json := ok_or (to_value queue) (Failed CannotSerialize) in
  let? next := field queue_json "nextMutationId" in
  let? actual_next_id := ok_or (as_u64 next) (Failed NextIdNotUnsigned) in
  let? expected_next_id := state_u64 state "next_id" in
  let? _ := ensure (actual_next_id =? expected_next_id) (Differs "next id") in
  let? expected_checkpoint := state_u64 state "local_checkpoint" in
  let? _ := ensure (checkpoint queue == to_dec expected_checkpoint) (Differs "checkpoint") in
  let? actual_pending := collect parse_mutation_id (pending queue) in
  let? actual_confirmed := collect parse_mutation_id (List.filter is_confirmed (all queue)) in
  let? expected_pending := state_set state "pending" in
  let? expected_confirmed := state_set state "acknowledged" in
  let? _ := ensure (actual_pending == expected_pending) (Differs "pending") in
  let? _ := ensure (actual_confirmed == expected_confirmed) (Differs "confirmed") in
  let? actual_all := collect parse_mutation_id (all queue) in
  ensure (actual_all == range 1 expected_next_id) (Differs "allocated ids").

Definition assert_projection (a : Adapter) (state : ItfState) : AnyResult unit :=
  let? _ := check_queue a state in
  let? in_flight := state_u64 state "in_flight" in
  let? _ := check_in_flight a in_flight in
  let? response_present := state_bool state "response_present" in
  let? _ := ensure (Bool.eqb (is_some (response a)) response_present) (Differs "response presence") in
  let? _ := check_response a state in
  let? phase := state_tag state "reset_phase" in
  ensure (Bool.eqb (replacing_snapshot a) (phase == "Replacing")) (Differs "reset phase").

(** ** Replaying traces *)

(** [fs::read], and [serde_json::from_slice] with the derived decoder. *)
Context (read_file : Path → option (list ascii)).
Context (trace_from_slice : list ascii → option ItfTrace).

Record ReplaySummary := { summary_states : N; summary_actions : gset string }.

Definition in_context {A} (index : N) (action : string) (r : AnyResult A) : AnyResult A :=
  map_err (λ e, match e with Failed e => Failed (InContext index action e) | Panicked => Panicked end) r.

(** The loop over the states. *)
Fixpoint replay_states (index : N) (a : Adapter) (actions : gset string) (states : list ItfState)
    : AnyResult (gset string) :=
  match states with
  | [] => Ok actions
  | state :: states =>
      let actions := {[itf_action state]} ∪ actions in
      let? a := in_context index (itf_action state) (apply_action a state) in
      let? _ := assert_projection a state in
      replay_states (index + 1) a actions states
  end.

Definition replay (path : Path) : AnyResult ReplaySummary :=
  let? bytes := ok_or (read_file path) (Failed CannotRead) in
  let? trace := ok_or (trace_from_slice bytes) (Failed NotATrace) in
  let states := itf_states trace in
  let? _ := ensure (negb (count states =? 0)) NoStates in
  let? _ := ensure (is_some_and (head states) (λ state, itf_action state == "init")) NoInit in
  let? a := new_adapter in
  let? actions := replay_states 0 a ∅ states in
  Ok {| summary_states := count states; summary_actions := actions |}.

(** The text of an error, and the crate's version. *)
Context (to_string : Issue → string).
Context (version : string).

(** What the loop over the paths accumulates. *)
Record Progress := { actions_seen : gset string; passed : N; mismatches : list AdapterMismatch }.

Fixpoint replay_each (protocol_mode : bool) (paths : list Path) (p : Progress) : AnyResult Progress :=
  match paths with
  | [] => Ok p
  | path :: paths =>
      match replay path with
      | Ok summary =>
          replay_each protocol_mode paths
            {| actions_seen := summary_actions summary ∪ actions_seen p; passed := passed p + 1;
               mismatches := mismatches p |}
      | Err (Failed error) =>
          if protocol_mode then
            replay_each protocol_mode paths
              {| actions_seen := actions_seen p; passed := passed p;
                 mismatches := mismatches p ++
                   [{| mm_trace := path; mm_step := None; mm_action := None; mm_message := to_string error;
                       mm_expected := JNull; mm_actual := JNull |}] |}
          else Err (Failed error)
      | Err Panicked => Err Panicked
      end
  end.

Definition strings (l : list string) : json := JArray (List.map JString l).

(** The trace suite as a whole must take every action. *)
Definition require_actions (protocol_mode : bool) (paths : list Path) (p : Progress) : AnyResult Progress :=
  let missing := List.filter (λ action, negb (bool_decide (action ∈ actions_seen p))) REQUIRED_ACTIONS in
  match missing with
  | [] => Ok p
  | first :: _ =>
      if protocol_mode then
        Ok {| actions_seen := actions_seen p; passed := passed p - 1;
              mismatches := mismatches p ++
                [{| mm_trace := default "" (head paths); mm_step := None; mm_action := Some first;
                    mm_message := to_string (MissingActions missing); mm_expected := strings REQUIRED_ACTIONS;
                    mm_actual := strings (sort_by str_cmp (elements (actions_seen p))) |}] |}
      else invalid (MissingActions missing)
  end.

Definition replay_paths (paths : list Path) (protocol_mode : bool) : AnyResult AdapterReplayResponse :=
  let? _ := ensure (negb (count paths =? 0)) NoPaths in
  let? p := replay_each protocol_mode paths {| actions_seen := ∅; passed := 0; mismatches := [] |} in
  let? p := require_actions protocol_mode paths p in
  let total := count paths in
  Ok {| rr_protocol := "fmctl.adapter.v1";
        rr_success := (count (mismatches p) =? 0) && (passed p =? total);
        rr_traces_total := total;
        rr_traces_passed := passed p;
        rr_mismatches := mismatches p;
        rr_implementation :=
          {| im_language := "rust"; im_name := "opto-sync ProtocolQueue"; im_version := version |} |}.

(** [main] with paths on its command line: they are sorted, and the first error ends it. *)
Definition main_paths (paths : list Path) : AnyResult AdapterReplayResponse := replay_paths (sort_paths paths) false.

(** [Path::is_file], [serde_json::from_str] of the request and [to_writer] of the response. *)
Context (is_file : Path → bool).
Context (request_from_str : string → option ReplayRequest).
Context (response_to_string : AdapterReplayResponse → option string).

(** What is written on the standard output for what is read from the standard input. *)
Definition run_protocol (input : string) : AnyResult string :=
  let? request := ok_or (request_from_str input) (Failed (BadRequest "not a request")) in
  let? _ := ensure (rq_protocol request == "fmctl.adapter.v1") (BadRequest "protocol") in
  let? _ := ensure (rq_adapter request == "rust") (BadRequest "adapter") in
  let? _ := ensure (negb (is_empty (trim (rq_project request)))) (BadRequest "project") in
  let? _ := ensure (negb (is_empty (trim (rq_model request)))) (BadRequest "model") in
  let? _ := ensure (is_file (rq_specification request)) (BadRequest "specification") in
  let? _ := ensure (negb (count (rq_traces request) =? 0)) (BadRequest "traces") in
  let? response := replay_paths (rq_traces request) true in
  ok_or (response_to_string response) (Failed CannotSerialize).
End Replay.

(** ** Specification: encoded runs

    What the decoders read off a state of a trace is a state of the model, with
    the action that led to it and the identity picked for it. *)

Definition action_name (a : Quint.Action) : string :=
  match a with
  | Quint.IdleAction => "idle"
  | Quint.Compact => "compact"
  | Quint.Enqueue => "enqueue"
  | Quint.Send => "send"
  | Quint.ApplyNew => "apply_new"
  | Quint.RejectNew => "reject_new"
  | Quint.ReplyDuplicate => "reply_duplicate"
  | Quint.InjectMismatchedResponse => "inject_mismatched_response"
  | Quint.LoseCommittedResponse => "lose_committed_response"
  | Quint.LoseUncommittedRequest => "lose_uncommitted_request"
  | Quint.DiscardMalformedResponse => "discard_malformed_response"
  | Quint.Acknowledge => "acknowledge"
  | Quint.Pull => "pull"
  | Quint.BeginReset => "begin_reset"
  | Quint.CrashDuringReset => "crash_during_reset"
  | Quint.FinishReset => "finish_reset"
  end.

Record encodes (st : ItfState) (s : Quint.State) : Prop := {
  enc_next_id : state_u64 st "next_id" = Ok (Quint.next_id s);
  enc_pending : state_set st "pending" = Ok (Quint.pending s);
  enc_in_flight : state_u64 st "in_flight" = Ok (Quint.in_flight s);
  enc_applied : state_set st "applied" = Ok (Quint.applied s);
  enc_rejected : state_set st "rejected" = Ok (Quint.rejected s);
  enc_server_checkpoint : state_u64 st "server_checkpoint" = Ok (Quint.server_checkpoint s);
  enc_present : state_bool st "response_present" = Ok (Quint.response_present s);
  enc_mutation_id : state_u64 st "response_mutation_id" = Ok (Quint.response_mutation_id s);
  enc_watermark : state_u64 st "response_watermark" = Ok (Quint.response_watermark s);
  enc_checkpoint : state_u64 st "response_checkpoint" = Ok (Quint.response_checkpoint s);
  enc_valid : state_bool st "response_valid_for_in_flight" = Ok (Quint.response_valid_for_in_flight s);
  enc_acknowledged : state_set st "acknowledged" = Ok (Quint.acknowledged s);
  enc_local_checkpoint : state_u64 st "local_checkpoint" = Ok (Quint.local_checkpoint s);
  enc_phase : state_tag st "reset_phase"
    = Ok (match Quint.reset_phase s with Quint.Idle => "Idle" | Quint.Replacing => "Replacing" end)
}.

(** A state of the trace after a step of the run. *)
Definition encodes_step (st : ItfState) (x : Quint.Action * N * Quint.State) : Prop :=
  itf_action st = action_name x.1.1 ∧ picked_id st = Ok x.1.2 ∧ encodes st x.2.

(** A trace of a run from the initial state. *)
Definition encodes_run (states : list ItfState) (t : list (Quint.Action * N * Quint.State)) : Prop :=
  match states with
  | [] => False
  | st :: states => itf_action st = "init" ∧ encodes st Quint.init ∧ Forall2 encodes_step states t
  end.

(** The records that are queued can be printed, within the payload limit. *)
Definition records_print `{SerdeJson} : Prop :=
  ∀ id, id ∈ Quint.IDS → ∃ text, to_text (record_value id) = Some text ∧ len text ≤ DEFAULT_MAX_QUEUED_PAYLOAD_BYTES.

(** The derived encoder writes the allocator as [nextMutationId]. *)
Definition encodes_next_id (to_value : ProtocolQueue → option json) : Prop :=
  ∀ q, ∃ v, to_value q = Some v ∧ get v "nextMutationId" = Some (JNumber (NPosInt (next_mutation_id q))).

(** ** The simulation relation *)

(** A row of the queue, and the request that sends it. *)
Definition row (queued : gset N) (id : N) : ProtocolMutation :=
  {| mutation_id := to_dec id; operation := Upsert; table := "docs"; record_id := record_name id;
     payload := Some (record_value id); base_revision := None; resurrect := false;
     status := if Quint.has id queued then Pending else Confirmed |}.

Definition request_for (id : N) : PushRequest :=
  {| req_protocol_version := 1; req_client_id := CLIENT_ID; req_mutations := [row {[id]} id] |}.

(** The response for a result: a duplicate names the outcome it repeats. *)
Definition response_for (id watermark checkpoint : N) (status : ResultStatus) (original : option ResultStatus)
    : PushResponse :=
  {| resp_protocol_version := 1; resp_client_id := CLIENT_ID; resp_last_mutation_id := to_dec watermark;
     resp_checkpoint := to_dec checkpoint;
     resp_results :=
       [{| res_mutation_id := to_dec id; res_status := status; res_original_status := original;
           res_checkpoint := Some (to_dec checkpoint);
           res_revision := if (status == Applied) || (original == Some Applied) then Some (to_dec id) else None;
           res_code := None; res_message := None |}] |}.

Definition answers (s : Quint.State) (r : PushResponse) : Prop :=
  ∃ status original, original ≠ Some Duplicate ∧ (status = Duplicate ↔ is_Some original) ∧
    r = response_for (Quint.response_mutation_id s) (Quint.response_watermark s) (Quint.response_checkpoint s)
          status original.

Record simulates `{SerdeJson} (s : Quint.State) (a : Adapter) : Prop := {
  sim_queue : queue_ok (queue_of a);
  sim_client : client_id (queue_of a) = CLIENT_ID;
  sim_pending : max_pending_mutations (queue_of a) = DEFAULT_MAX_PENDING_MUTATIONS;
  sim_bytes : max_queued_payload_bytes (queue_of a) = DEFAULT_MAX_QUEUED_PAYLOAD_BYTES;
  sim_next : next_mutation_id (queue_of a) = Quint.next_id s;
  sim_checkpoint : checkpoint (queue_of a) = to_dec (Quint.local_checkpoint s);
  sim_rows : mutations (queue_of a) = List.map (row (Quint.pending s)) (range_list 1 (Quint.next_id s));
  sim_request : request a = if Quint.in_flight s =? Quint.NO_ID then None else Some (request_for (Quint.in_flight s));
  sim_sent : ∀ id r, sent_requests a !! id = Some r → r = request_for id;
  sim_response : if Quint.response_present s then ∃ r, response a = Some r ∧ answers s r else response a = None;
  sim_valid : response_valid a = Quint.response_valid_for_in_flight s;
  sim_replacing : replacing_snapshot a = Quint.is_replacing s
}.

(** ** Lemmas: rows *)

Lemma elem_of_range_list from to x : x ∈ range_list from to ↔ from ≤ x < to.
Proof.
  unfold range_list. rewrite list_elem_of_fmap. setoid_rewrite elem_of_seq. split; [intros (i & -> & Hi); lia|].
  intros Hx. exists (N.to_nat (x - from)). split; lia.
Qed.

Lemma range_list_snoc n : 1 ≤ n → range_list 1 (n + 1) = range_list 1 n ++ [n].
Proof.
  intros Hn. unfold range_list. replace (N.to_nat (n + 1 - 1)) with (N.to_nat (n - 1) + 1)%nat by lia.
  rewrite seq_app, List.map_app. cbn [seq List.map]. do 2 f_equal. lia.
Qed.

Lemma range_list_sorted from to : StronglySorted N.lt (range_list from to).
Proof.
  unfold range_list. generalize (N.to_nat (to - from)) as k. intros k. generalize 0%nat as i.
  induction k as [|k IH]; intros i; simpl; constructor; [apply IH|]. apply Forall_map, Forall_forall.
  intros x Hx%elem_of_seq. lia.
Qed.

Lemma elem_of_range from to x : x ∈ range from to ↔ from ≤ x < to.
Proof. unfold range. rewrite elem_of_list_to_set. apply elem_of_range_list. Qed.

Lemma row_id_row queued id : row_id (row queued id) = id.
Proof. apply decimal_of_to_dec. Qed.

Lemma row_ext p q id : Quint.has id p = Quint.has id q → row p id = row q id.
Proof. unfold row. by intros ->. Qed.

Lemma row_queued queued id : id ∈ queued → row queued id = row {[id]} id.
Proof. intros Hid. apply row_ext. unfold Quint.has. rewrite !bool_decide_eq_true_2; [done|set_solver|done]. Qed.

Lemma is_pending_row queued id : is_pending (row queued id) = Quint.has id queued.
Proof. unfold is_pending, row. simpl. by destruct (Quint.has id queued). Qed.

Lemma is_confirmed_row queued id : is_confirmed (row queued id) = negb (Quint.has id queued).
Proof. unfold is_confirmed, row. simpl. by destruct (Quint.has id queued). Qed.

Lemma rows_pending queued l :
  List.filter is_pending (List.map (row queued) l) = List.map (row queued) (List.filter (λ id, Quint.has id queued) l).
Proof.
  induction l as [|x l IH]; [done|]. cbn [List.map List.filter]. rewrite IH, is_pending_row.
  by destruct (Quint.has x queued).
Qed.

Lemma rows_confirmed queued l :
  List.filter is_confirmed (List.map (row queued) l)
  = List.map (row queued) (List.filter (λ id, negb (Quint.has id queued)) l).
Proof.
  induction l as [|x l IH]; [done|]. cbn [List.map List.filter]. rewrite IH, is_confirmed_row.
  by destruct (Quint.has x queued).
Qed.

(** The first of an ordered list that passes a test. *)
Lemma filter_first (p : N → bool) l id : StronglySorted N.lt l → id ∈ l → p id = true →
  (∀ x, p x = true → id ≤ x) → ∃ rest, List.filter p l = id :: rest.
Proof.
  induction l as [|x l IH]; [by intros _ ?%not_elem_of_nil|]. intros [Hs Hf]%StronglySorted_inv Hin Hp Hle.
  cbn [List.filter]. destruct (p x) eqn:E.
  - exists (List.filter p l). f_equal. apply Hle in E. apply elem_of_cons in Hin as [->|Hin]; [done|].
    rewrite Forall_forall in Hf. specialize (Hf _ Hin). lia.
  - apply elem_of_cons in Hin as [->|Hin]; [congruence|]. by apply IH.
Qed.

Lemma rows_confirm queued id l : (∀ x, x ∈ queued → id ≤ x) →
  List.map (confirm_upto id) (List.map (row queued) l) = List.map (row (filter (λ x, x ≠ id) queued)) l.
Proof.
  intros Hle. rewrite List.map_map. apply List.map_ext. intros x. unfold confirm_upto. rewrite row_id_row, is_pending_row.
  destruct (decide (x ∈ queued)) as [Hx|Hx].
  - rewrite (proj2 (Quint.has_true x queued) Hx). specialize (Hle x Hx). destruct (N.leb_spec x id); simpl.
    + assert (x = id) as -> by lia. unfold row, set_status. simpl. f_equal.
      unfold Quint.has. rewrite bool_decide_eq_false_2; [done|]. rewrite elem_of_filter. naive_solver.
    + apply row_ext. unfold Quint.has. apply bool_decide_ext. rewrite elem_of_filter. naive_solver lia.
  - rewrite (proj2 (Quint.has_false x queued) Hx), andb_false_r. apply row_ext. unfold Quint.has.
    apply bool_decide_ext. rewrite elem_of_filter. naive_solver.
Qed.

Lemma rows_enqueue queued n : 1 ≤ n →
  List.map (row queued) (range_list 1 n) ++ [row {[n]} n] = List.map (row (queued ∪ {[n]})) (range_list 1 (n + 1)).
Proof.
  intros Hn. rewrite range_list_snoc, List.map_app by done. f_equal.
  - apply List.map_ext_in. intros x Hx%In_elem%elem_of_range_list. apply row_ext. unfold Quint.has.
    apply bool_decide_ext. rewrite elem_of_union, elem_of_singleton. split; [by left|]. intros [?| ->]; [done|lia].
  - cbn [List.map]. f_equal. apply row_ext. unfold Quint.has. rewrite !bool_decide_eq_true_2; [done|set_solver|set_solver].
Qed.

(** Parsing the ids of rows back. *)
Lemma collect_ids queued l : Forall (λ id, id ≤ u64_max) l →
  collect parse_mutation_id (List.map (row queued) l) = Ok (list_to_set l).
Proof.
  induction 1 as [|x l Hx _ IH]; [done|]. cbn [List.map collect list_to_set]. unfold parse_mutation_id at 1. cbn [mutation_id row].
  rewrite parse_u64_to_dec by done. cbn [ok_or]. by rewrite IH.
Qed.

(** ** Lemmas: the projection *)

Lemma state_bool_eqb b : Bool.eqb b b = true.
Proof. apply Bool.eqb_reflx. Qed.

Lemma ensure_true c e : c = true → ensure c e = Ok ().
Proof. by intros ->. Qed.

Lemma safe_small s : Quint.protocol_safety s →
  1 ≤ Quint.next_id s ≤ 4 ∧ Quint.in_flight s ≤ 3 ∧ Quint.server_checkpoint s ≤ 3 ∧ Quint.local_checkpoint s ≤ 3.
Proof.
  intros [(Hn & Hw & Hf & _) _ _ _ _ _ (_ & Hc & Hl & _) _ _ _]. unfold Quint.MAX_ID in *. lia.
Qed.

Lemma range_small n : n ≤ 4 → Forall (λ id, id ≤ u64_max) (range_list 1 n).
Proof. intros Hn. apply Forall_forall. intros x Hx%elem_of_range_list. unfold u64_max. lia. Qed.

Lemma filter_small n (p : N → bool) : n ≤ 4 → Forall (λ id, id ≤ u64_max) (List.filter p (range_list 1 n)).
Proof. intros Hn. by apply Forall_filter_bool, range_small. Qed.

Section Projection.
Context `{SerdeJson} (to_value : ProtocolQueue → option json) (encoded : encodes_next_id to_value).

Lemma safe_pending s x : Quint.protocol_safety s →
  x ∈ Quint.pending s ↔ Quint.has x (Quint.pending s) = true ∧ x ∈ range_list 1 (Quint.next_id s).
Proof.
  intros [(_ & _ & _ & Hp & _) _ _ _ _ _ _ _ _ _]. rewrite Quint.has_true, elem_of_range_list. split; [|tauto].
  intros Hx. split; [done|]. destruct (Hp _ Hx) as [Hi ?]. apply Quint.elem_of_IDS in Hi. lia.
Qed.

Lemma safe_confirmed s x : Quint.protocol_safety s →
  x ∈ Quint.acknowledged s ↔ negb (Quint.has x (Quint.pending s)) = true ∧ x ∈ range_list 1 (Quint.next_id s).
Proof.
  intros [((_ & Hn) & _ & _ & _ & Ha) Hpart _ _ _ _ _ _ _ _]. rewrite negb_true_iff, Quint.has_false, elem_of_range_list.
  split.
  - intros Hx. destruct (Ha _ Hx) as [Hi Hlt]. specialize (Hpart x Hi). apply Quint.elem_of_IDS in Hi.
    split; [|lia]. naive_solver lia.
  - intros [Hx [Hlo Hhi]]. assert (x ∈ Quint.IDS) as Hi by (apply Quint.elem_of_IDS; lia). specialize (Hpart x Hi). naive_solver lia.
Qed.

Lemma list_to_set_filter (p : N → bool) l (X : gset N) :
  (∀ x, x ∈ X ↔ p x = true ∧ x ∈ l) → list_to_set (List.filter p l) = X.
Proof.
  intros HX. apply set_eq. intros x. rewrite elem_of_list_to_set, HX, <- In_elem, List.filter_In, In_elem. tauto.
Qed.

Lemma check_queue_ok s a st : simulates s a → Quint.protocol_safety s → encodes st s → check_queue to_value a st = Ok ().
Proof.
  intros Hsim Hs Henc. destruct (safe_small s Hs) as (Hn & _). unfold check_queue.
  rewrite (proj2 (validate_iff _) (sim_queue _ _ Hsim)). cbn [lift map_err].
  destruct (encoded (queue_of a)) as (v & -> & Hv). cbn [ok_or]. unfold field. rewrite Hv. cbn [ok_or as_u64 as_u64_num].
  rewrite (enc_next_id _ _ Henc), (sim_next _ _ Hsim). rewrite ensure_true by apply N.eqb_refl.
  rewrite (enc_local_checkpoint _ _ Henc), (sim_checkpoint _ _ Hsim). rewrite ensure_true by by apply bool_decide_eq_true.
  unfold pending, all. rewrite (sim_rows _ _ Hsim), rows_pending, rows_confirmed.
  rewrite !collect_ids by (apply filter_small || apply range_small; lia).
  rewrite (enc_pending _ _ Henc), (enc_acknowledged _ _ Henc).
  rewrite !ensure_true; [done|apply bool_decide_eq_true..]; [done|..]; apply list_to_set_filter; intros x;
    [by apply safe_confirmed|by apply safe_pending].
Qed.

Lemma request_for_id id : id ≤ u64_max → request_mutation_id (request_for id) = Ok id.
Proof. intros Hid. unfold request_mutation_id. simpl. by rewrite parse_u64_to_dec. Qed.

Lemma assert_projection_ok s a st : simulates s a → Quint.protocol_safety s → encodes st s →
  assert_projection to_value a st = Ok ().
Proof.
  intros Hsim Hs Henc. unfold assert_projection. rewrite (check_queue_ok s) by done.
  destruct (safe_small s Hs) as (_ & Hf & _).
  rewrite (enc_in_flight _ _ Henc). unfold check_in_flight. rewrite (sim_request _ _ Hsim). unfold Quint.NO_ID.
  assert (match (if Quint.in_flight s =? 0 then None else Some (request_for (Quint.in_flight s))) with
          | None => if Quint.in_flight s =? 0 then Ok () else invalid (Differs "in flight")
          | Some r => if 0 <? Quint.in_flight s
                      then let? id := request_mutation_id r in ensure (id =? Quint.in_flight s) (Differs "in flight")
                      else invalid (Differs "in flight")
          end = Ok ()) as ->.
  { destruct (N.eqb_spec (Quint.in_flight s) 0) as [E|E]; [done|].
    rewrite (proj2 (N.ltb_lt _ _)), request_for_id by (unfold u64_max; lia). apply ensure_true, N.eqb_refl. }
  rewrite (enc_present _ _ Henc). pose proof (sim_response _ _ Hsim) as Hr. unfold check_response.
  rewrite (sim_valid _ _ Hsim), (enc_phase _ _ Henc), (sim_replacing _ _ Hsim).
  assert (ensure (Bool.eqb (Quint.is_replacing s)
    (match Quint.reset_phase s with Quint.Idle => "Idle" | Quint.Replacing => "Replacing" end == "Replacing"))
    (Differs "reset phase") = Ok ()) as Hphase by (unfold Quint.is_replacing; by destruct (Quint.reset_phase s)).
  destruct (Quint.response_present s) eqn:Hp.
  - destruct Hr as (r & -> & status & original & _ & _ & ->). cbn [is_some]. rewrite ensure_true by done.
    cbn [response_for resp_results head ok_or resp_last_mutation_id resp_checkpoint res_mutation_id].
    rewrite (enc_watermark _ _ Henc), (enc_checkpoint _ _ Henc), (enc_mutation_id _ _ Henc), (enc_valid _ _ Henc).
    rewrite !ensure_true by first [by apply bool_decide_eq_true|apply state_bool_eqb]. exact Hphase.
  - rewrite Hr. cbn [is_some]. rewrite ensure_true by done.
    destruct Hs as [_ _ _ _ _ _ _ _ _ Hb]. unfold Quint.response_is_bounded in Hb. rewrite Hp in Hb.
    destruct Hb as (_ & _ & _ & ->). exact Hphase.
Qed.
End Projection.

(** ** Lemmas: the actions *)

Lemma to_dec_ok n : n ≤ u64_max → decimal_ok (to_dec n).
Proof. intros Hn. by exists n. Qed.

Section Actions.
Context `{SerdeJson}.
Context (prints : records_print).

Lemma new_simulates : ∃ a, new_adapter = Ok a ∧ simulates Quint.init a.
Proof.
  unfold new_adapter. destruct (Protocol.new CLIENT_ID) as [q|e] eqn:E; [|vm_compute in E; discriminate].
  eexists. split; [reflexivity|]. injection E as <-. constructor; simpl; try done.
  by apply validate_iff.
Qed.

(** The rows that are pending, and the oldest of them. *)
Lemma sim_oldest s a id : simulates s a → Quint.protocol_safety s → Quint.is_oldest_pending s id = true →
  take 1 (pending (queue_of a)) = [row {[id]} id].
Proof.
  intros Hsim Hs [Hid Hle]%Quint.oldest_spec. unfold pending. rewrite (sim_rows _ _ Hsim), rows_pending.
  destruct (filter_first (λ x, Quint.has x (Quint.pending s)) (range_list 1 (Quint.next_id s)) id) as [rest ->].
  - apply range_list_sorted.
  - by apply safe_pending.
  - by apply Quint.has_true.
  - intros x Hx%Quint.has_true. auto.
  - cbn. by rewrite row_queued.
Qed.

Lemma sim_in_flight s a : simulates s a → Quint.in_flight s ≠ Quint.NO_ID → request a = Some (request_for (Quint.in_flight s)).
Proof. intros Hsim Hf. rewrite (sim_request _ _ Hsim). by rewrite (proj2 (N.eqb_neq _ _) Hf). Qed.

Lemma sim_silent s a : simulates s a → Quint.response_present s = false → response a = None.
Proof. intros Hsim Hp. pose proof (sim_response _ _ Hsim) as Hr. by rewrite Hp in Hr. Qed.

Lemma response_encoded st s status original : encodes st s →
  response_from_state st status original
  = Ok (response_for (Quint.response_mutation_id s) (Quint.response_watermark s) (Quint.response_checkpoint s) status original).
Proof.
  intros Henc. unfold response_from_state.
  by rewrite (enc_mutation_id _ _ Henc), (enc_checkpoint _ _ Henc), (enc_watermark _ _ Henc).
Qed.

(** A response to the oldest pending row is accepted and confirms that row. *)
Lemma acknowledge_row s a status original checkpoint :
  simulates s a → Quint.protocol_safety s → Quint.is_oldest_pending s (Quint.in_flight s) = true →
  original ≠ Some Duplicate → (status = Duplicate ↔ is_Some original) → checkpoint ≤ u64_max →
  let id := Quint.in_flight s in
  acknowledge (queue_of a) (response_for id id checkpoint status original) (request_for id)
  = (set_mutations (List.map (row (filter (λ x, x ≠ id) (Quint.pending s))) (range_list 1 (Quint.next_id s))) (queue_of a), Ok 1).
Proof.
  intros Hsim Hs Hold Hno Hdup Hc id. pose proof Hold as [Hin Hle]%Quint.oldest_spec.
  destruct (safe_small s Hs) as (_ & Hf & _).
  assert (1 ≤ id) as Hid by (apply (safe_pending _ _ Hs) in Hin as [_ Hin]; apply elem_of_range_list in Hin; unfold id; lia).
  assert (id ≤ u64_max) as Hidu by (unfold id, u64_max; lia).
  assert (acknowledges (queue_of a) (response_for id id checkpoint status original) (request_for id)) as Hack.
  { constructor; simpl.
    - by rewrite (sim_client _ _ Hsim).
    - done.
    - unfold count. simpl. lia.
    - symmetry. by apply (sim_oldest s).
    - by eexists.
    - by apply to_dec_ok.
    - constructor; [|constructor]. unfold result_ok. simpl. split; [done|]. split; [by intros ? [= <-]; apply to_dec_ok|].
      split; [|done]. destruct (_ || _); [|done]. intros v [= <-]. exists id. split; [lia|done]. }
  destruct (acknowledge_accepts _ _ _ (sim_queue _ _ Hsim) Hack) as (m & Hm & -> & _). cbn in Hm. injection Hm as <-.
  rewrite (sim_rows _ _ Hsim), row_id_row, rows_confirm by done. done.
Qed.

(** A response to another mutation is refused, and the queue is kept. *)
Lemma acknowledge_other q id other checkpoint status original : client_id q = CLIENT_ID → other ≠ id →
  acknowledge q (response_for other other checkpoint status original) (request_for id) = (q, Err InvalidAcknowledgement).
Proof.
  intros Hc Hne. unfold acknowledge. cbn [request_for response_for req_client_id resp_client_id]. rewrite Hc.
  rewrite bool_decide_eq_true_2 by done. cbn [negb orb].
  assert (bad_acknowledgement q (response_for other other checkpoint status original) (request_for id) = true) as ->; [|done].
  unfold bad_acknowledgement. cbn [request_for response_for req_mutations resp_last_mutation_id last mutation_id row].
  rewrite (bool_decide_eq_false_2 (to_dec other = to_dec id)).
  - cbn [negb]. by rewrite !orb_true_r.
  - intros E. apply Hne. by rewrite <- (decimal_of_to_dec other), E, decimal_of_to_dec.
Qed.

(** One lemma per action: an enabled step of the model is matched. *)
Context (st : ItfState) (id : N) (s s' : Quint.State) (a : Adapter).
Context (sim : simulates s a) (safe : Quint.protocol_safety s) (enc : encodes st s').
Context (picked : picked_id st = Ok id) (id_ok : id ∈ Quint.IDS).

Lemma id_small : 1 ≤ id ≤ 3.
Proof. by apply Quint.elem_of_IDS in id_ok. Qed.

Lemma enqueue_matched : Quint.enqueue s = Some s' → ∃ a', on_enqueue a st = Ok a' ∧ simulates s' a'.
Proof.
  intros Hstep. destruct (safe_small s safe) as (Hn & _). pose proof (enc_next_id _ _ enc) as He.
  Quint.guards Hstep. unfold Quint.MAX_ID in *. set (n := Quint.next_id s) in *.
  unfold on_enqueue. rewrite He. cbn [Quint.next_id Quint.with_client]. fold n.
  rewrite (proj2 (N.eqb_neq _ _)) by lia. replace (n + 1 - 1) with n by lia.
  assert (n ∈ Quint.IDS) as Hin by (apply Quint.elem_of_IDS; unfold Quint.MAX_ID; lia).
  destruct (prints n Hin) as (text & Htext & Hlen).
  destruct (queue_upsert (queue_of a) "docs" (record_name n) (record_value n) None false) as [q r] eqn:E.
  pose proof (queue_upsert_preserves (queue_of a) "docs" (record_name n) (record_value n) None false) as Hok.
  rewrite E in Hok. specialize (Hok ltac:(by intros ? ?) (sim_queue _ _ sim)). cbn [fst] in Hok.
  unfold queue_upsert in E. assert (valid_record_id (record_name n) = true) as Hrid
    by (assert (n = 1 ∨ n = 2 ∨ n = 3) as [->|[->| ->]] by lia; reflexivity).
  rewrite Hrid in E. cbn [negb orb valid_scope_id] in E. change (valid_scope_id "docs") with true in E. cbn [negb orb] in E.
  change (is_object (record_value n)) with true in E. cbn [negb] in E. rewrite Htext in E. unfold queue in E.
  rewrite (sim_bytes _ _ sim), (proj2 (N.ltb_ge _ _) Hlen) in E.
  assert (count (pending (queue_of a)) < DEFAULT_MAX_PENDING_MUTATIONS) as Hcount.
  { unfold pending. rewrite (sim_rows _ _ sim), rows_pending. unfold count. rewrite List.length_map. fold n.
    assert (length (List.filter (λ x, Quint.has x (Quint.pending s)) (range_list 1 n)) ≤ length (range_list 1 n))%nat
      by apply List.filter_length_le.
    unfold range_list in *. rewrite List.length_map, List.length_seq in *. unfold DEFAULT_MAX_PENDING_MUTATIONS. lia. }
  rewrite (sim_pending _ _ sim), (proj2 (N.leb_gt _ _) Hcount), (sim_next _ _ sim) in E. fold n in E.
  assert (can_allocate_mutation_id n = true) as Hal by (unfold can_allocate_mutation_id, MAX_I64; rewrite andb_true_iff, !N.leb_le; lia).
  assert (checked_add_u64 n 1 = Some (n + 1)) as Hadd
    by (unfold checked_add_u64; rewrite (proj2 (N.leb_le _ _)); [done|unfold u64_max; lia]).
  rewrite Hal, Hadd in E. cbn [negb] in E. injection E as <- <-. cbn [lift map_err].
  rewrite ensure_true by by apply bool_decide_eq_true. eexists. split; [reflexivity|].
  destruct sim as [Hq Hc Hp Hb Hnx Hcp Hrows Hreq Hsent Hresp Hval Hrep]. constructor; cbn; try done.
  rewrite Hrows. fold n. rewrite <- rows_enqueue by lia. do 2 f_equal. unfold set_mutation_id, row. cbn. f_equal.
  unfold Quint.has. rewrite bool_decide_eq_true_2; [done|set_solver].
Qed.

(** The fields of the relation, for a step that keeps most of them. *)
Ltac keep := destruct sim as [? ? ? ? ? ? ? ? ? ? ? ?]; constructor; cbn; try done.

Lemma send_matched : Quint.send id s = Some s' → ∃ a', on_send a st = Ok a' ∧ simulates s' a'.
Proof.
  intros Hstep. Quint.guards Hstep. pose proof id_small as Hid. unfold on_send.
  match goal with Hf : Quint.in_flight s = _, Hr : Quint.response_present s = false |- _ =>
    rewrite (sim_silent _ _ sim Hr); pose proof (sim_request _ _ sim) as Hreq; rewrite Hf in Hreq end.
  rewrite Hreq. cbn [is_some negb N.eqb ensure Quint.NO_ID]. rewrite picked.
  assert (Quint.is_oldest_pending s id = true) as Hold by (apply Quint.oldest_spec; auto).
  unfold push_request. cbn [valid_push_limit andb negb lift map_err N.leb].
  change (negb (valid_push_limit 1)) with false. cbn [lift map_err].
  change (N.to_nat 1) with 1%nat. rewrite (sim_oldest s _ id) by done. rewrite (sim_client _ _ sim).
  change ({| req_protocol_version := 1; req_client_id := CLIENT_ID; req_mutations := [row {[id]} id] |}) with (request_for id).
  rewrite request_for_id by (unfold u64_max; lia). rewrite ensure_true by apply N.eqb_refl.
  assert (∀ sent : gmap N PushRequest, (∀ i r, sent !! i = Some r → r = request_for i) →
    simulates (Quint.with_in_flight id s) (with_request (request_for id) sent a)) as Hk.
  { intros sent Hsent'. keep. rewrite (proj2 (N.eqb_neq id Quint.NO_ID)); [done|]. unfold Quint.NO_ID. lia. }
  destruct (sent_requests a !! id) as [previous|] eqn:Ep.
  - rewrite (sim_sent _ _ sim _ _ Ep), ensure_true by by apply bool_decide_eq_true. eexists. split; [reflexivity|].
    apply Hk, (sim_sent _ _ sim).
  - eexists. split; [reflexivity|]. apply Hk. intros i r. destruct (decide (i = id)) as [->|Hne].
    + rewrite lookup_insert_eq. by intros [= <-].
    + rewrite lookup_insert_ne by done. apply (sim_sent _ _ sim).
Qed.

(** The request in flight is for the picked identity. *)
Lemma picked_in_flight : Quint.in_flight s = id → request a = Some (request_for id) ∧ request_mutation_id (request_for id) = Ok id.
Proof.
  intros Hf. pose proof id_small. split.
  - rewrite (sim_in_flight s); [by rewrite Hf|done|]. unfold Quint.NO_ID. lia.
  - apply request_for_id. unfold u64_max. lia.
Qed.

Lemma picked_request_ok : Quint.in_flight s = id → picked_request a st = Ok ().
Proof.
  intros Hf. destruct (picked_in_flight Hf) as [Hr Hm]. unfold picked_request. rewrite Hr. cbn [ok_or].
  rewrite Hm, picked. apply ensure_true, N.eqb_refl.
Qed.

(** Any step that puts a valid response to the request in flight. *)
Lemma respond_simulates status original w c next :
  original ≠ Some Duplicate → (status = Duplicate ↔ is_Some original) →
  simulates next a → simulates (Quint.with_response true id w c true next)
                       (with_response (response_for id w c status original) true a).
Proof.
  intros Hno Hdup [Hq Hc Hp Hb Hnx Hcp Hrows Hreq Hsent Hresp Hval Hrep]. constructor; cbn; try done.
  eexists. split; [reflexivity|]. by exists status, original.
Qed.

Lemma outcome_matched status next : (status = Applied ∨ status = Rejected) →
  s' = Quint.with_response true id id (Quint.server_checkpoint s + 1) true next → simulates next a →
  Quint.in_flight s = id → Quint.response_present s = false →
  ∃ a', on_new_outcome status a st = Ok a' ∧ simulates s' a'.
Proof.
  intros Hstatus -> Hnext Hf Hr. unfold on_new_outcome. rewrite (sim_silent _ _ sim Hr). cbn [is_some negb ensure].
  rewrite (picked_request_ok Hf), (response_encoded _ _ _ _ enc). eexists. split; [reflexivity|].
  apply respond_simulates; [done| |done]. split; [|by intros [? [=]]]. destruct Hstatus as [-> | ->]; done.
Qed.

Lemma apply_matched : Quint.apply_new id s = Some s' → ∃ a', on_new_outcome Applied a st = Ok a' ∧ simulates s' a'.
Proof.
  unfold Quint.apply_new, Quint.is_idle. intros [Hg Hnext]%Quint.all_of_Some. bsimp.
  eapply outcome_matched; [by left|exact Hnext|keep|done..].
Qed.

Lemma reject_matched : Quint.reject_new id s = Some s' → ∃ a', on_new_outcome Rejected a st = Ok a' ∧ simulates s' a'.
Proof.
  unfold Quint.reject_new, Quint.is_idle. intros [Hg Hnext]%Quint.all_of_Some. bsimp.
  eapply outcome_matched; [by right|exact Hnext|keep|done..].
Qed.

Lemma duplicate_matched : Quint.reply_duplicate id s = Some s' → ∃ a', on_reply_duplicate a st = Ok a' ∧ simulates s' a'.
Proof.
  intros Hstep. Quint.guards Hstep.
  match goal with Hf : Quint.in_flight s = id, Hr : Quint.response_present s = false, Hl : id ∈ Quint.ledger s |- _ =>
    destruct (picked_in_flight Hf) as [Hreq Hm]; pose proof (sim_silent _ _ sim Hr) as Hsil; rename Hl into Hledger end.
  unfold on_reply_duplicate. rewrite Hsil, Hreq. cbn [is_some negb ensure ok_or]. rewrite picked, Hm.
  rewrite ensure_true by apply N.eqb_refl. rewrite (enc_applied _ _ enc), (enc_rejected _ _ enc). cbn [Quint.applied Quint.rejected
    Quint.with_seen Quint.with_response].
  assert (∃ original, (if Quint.has id (Quint.applied s) then Ok Applied
    else if Quint.has id (Quint.rejected s) then Ok Rejected else invalid NoDurableOutcome) = Ok original ∧
    original ≠ Duplicate) as (original & -> & Hno).
  { destruct (Quint.safe_outcomes _ safe) as (_ & _ & Hl & _). destruct (Quint.has id (Quint.applied s)) eqn:E1; [by exists Applied|].
    destruct (Quint.has id (Quint.rejected s)) eqn:E2; [by exists Rejected|]. apply Quint.has_false in E1, E2. destruct (Hl _ Hledger); done. }
  rewrite (response_encoded _ _ _ _ enc). eexists. split; [reflexivity|]. cbn.
  assert (simulates (Quint.with_seen (Quint.saw_lost_response s) true (Quint.saw_reset_crash s) s) a) as Hnext by keep.
  pose proof (respond_simulates Duplicate (Some original) id (Quint.server_checkpoint s) _ ltac:(congruence) ltac:(by split) Hnext) as H'.
  destruct H' as [? ? ? ? ? ? ? ? ? ? ? ?]. by constructor.
Qed.

Lemma inject_matched : Quint.inject_mismatched_response id s = Some s' →
  ∃ a', on_inject_mismatched a st = Ok a' ∧ simulates s' a'.
Proof.
  intros Hstep. Quint.guards Hstep.
  match goal with Hf : Quint.in_flight s ≠ _, Hr : Quint.response_present s = false, Hne : id ≠ _ |- _ =>
    pose proof (sim_in_flight _ _ sim Hf) as Hreq; pose proof (sim_silent _ _ sim Hr) as Hsil; rename Hne into Hother end.
  unfold on_inject_mismatched. rewrite Hsil, Hreq. cbn [is_some negb ensure ok_or]. rewrite (response_encoded _ _ _ _ enc). cbn.
  rewrite acknowledge_other by (done || by rewrite (sim_client _ _ sim)). cbn [expect_err].
  rewrite !ensure_true by by apply bool_decide_eq_true. eexists. split; [reflexivity|]. keep.
  eexists. split; [reflexivity|]. by exists Applied, None.
Qed.

Lemma clear_matched next : Quint.in_flight next = Quint.NO_ID → Quint.response_present next = false →
  Quint.response_valid_for_in_flight next = false → Quint.pending next = Quint.pending s → Quint.next_id next = Quint.next_id s →
  Quint.local_checkpoint next = Quint.local_checkpoint s → Quint.reset_phase next = Quint.reset_phase s →
  simulates next (cleared a).
Proof.
  intros Hf Hr Hv Hpend Hn Hl Hph. destruct sim as [Hq Hc Hp Hb Hnx Hcp Hrows Hreq Hsent Hresp Hval Hrep].
  unfold Quint.is_replacing in Hrep. constructor; cbn; rewrite ?Hf, ?Hr, ?Hv, ?Hpend, ?Hn, ?Hl; try done.
  unfold Quint.is_replacing. by rewrite Hph.
Qed.

Lemma acknowledge_matched : Quint.oldest_in_flight s → Quint.acknowledge id s = Some s' →
  ∃ a', on_acknowledge a st = Ok a' ∧ simulates s' a'.
Proof.
  intros Hoif Hstep. Quint.guards Hstep. pose proof id_small as Hid.
  match goal with Hf : Quint.in_flight s = id, Hp : Quint.response_present s = true,
    Hv : Quint.response_valid_for_in_flight s = true, Hi : Quint.response_mutation_id s = id, Hw : Quint.response_watermark s = id |- _ =>
    destruct (picked_in_flight Hf) as [Hreq Hm]; pose proof (sim_response _ _ sim) as Hr; rewrite Hp in Hr;
    destruct Hr as (r & Hresp & status & original & Hno & Hdup & ->); pose proof (sim_valid _ _ sim) as Hval;
    rewrite Hv in Hval; rewrite Hi, Hw in *; rename Hf into Hflight, Hp into Hpresent end.
  assert (Quint.response_checkpoint s ≤ u64_max) as Hc.
  { pose proof (Quint.safe_response _ safe) as Hb. unfold Quint.response_is_bounded in Hb. rewrite Hpresent in Hb.
    destruct (safe_small s safe) as (_ & _ & ? & _). unfold u64_max. lia. }
  assert (Quint.is_oldest_pending s (Quint.in_flight s) = true) as Hold by (apply Hoif; unfold Quint.NO_ID; lia).
  unfold on_acknowledge. rewrite Hval, Hresp, Hreq. cbn [ensure ok_or]. rewrite Hm, picked, ensure_true by apply N.eqb_refl.
  pose proof (acknowledge_row s a status original _ sim safe Hold Hno Hdup Hc) as Hack. cbv zeta in Hack. rewrite Hflight in Hack.
  pose proof (acknowledge_preserves (queue_of a) (response_for id id (Quint.response_checkpoint s) status original) (request_for id)
    (sim_queue _ _ sim)) as Hq'. rewrite Hack in *. cbn [lift map_err]. rewrite ensure_true by done.
  eexists. split; [reflexivity|]. keep.
Qed.

(** Assigning a checkpoint of the model to the queue. *)
Lemma assign_matched c : c ≤ 3 → queue_ok (assign_checkpoint (to_dec c) (queue_of a)).
Proof. intros Hc. apply assign_checkpoint_ok; [apply sim|]. apply to_dec_ok. unfold u64_max. lia. Qed.

Lemma pull_matched : Quint.pull s = Some s' → ∃ a', on_pull a st = Ok a' ∧ simulates s' a'.
Proof.
  intros Hstep. Quint.guards Hstep. destruct (safe_small s safe) as (_ & _ & Hc & _). pose proof (assign_matched _ Hc) as Hq'.
  unfold on_pull. rewrite (enc_local_checkpoint _ _ enc). unfold set_checkpoint. cbn [Quint.local_checkpoint Quint.with_replica].
  rewrite parse_decimal_to_dec by (unfold u64_max; lia). cbn. eexists. split; [reflexivity|]. keep.
Qed.

Lemma begin_matched : Quint.begin_reset s = Some s' → ∃ a', on_begin_reset a = Ok a' ∧ simulates s' a'.
Proof.
  intros Hstep. Quint.guards Hstep. unfold on_begin_reset. rewrite (sim_replacing _ _ sim). unfold Quint.is_replacing.
  match goal with Hph : Quint.reset_phase s = Quint.Idle |- _ => rewrite Hph end.
  rewrite ensure_true by done. eexists. split; [reflexivity|]. keep.
Qed.

(** Installing an empty snapshot runs the callback. *)
Lemma install_empty {E} q c (f : list SnapshotRecord → bool → bool * result unit E) w : c ≤ u64_max →
  install_snapshot q (snapshot_of c) f w
  = match f [] w with
    | (w', Err e) => (q, w', Err (SnapshotReplace e))
    | (w', Ok _) => (assign_checkpoint (to_dec c) q, w', Ok ())
    end.
Proof.
  intros Hc. unfold install_snapshot. cbn [snap_checkpoint snap_records snap_protocol_version snapshot_of].
  by rewrite parse_decimal_to_dec.
Qed.

Lemma crash_matched : Quint.crash_during_reset s = Some s' → ∃ a', on_crash_during_reset a st = Ok a' ∧ simulates s' a'.
Proof.
  intros Hstep. Quint.guards Hstep. destruct (safe_small s safe) as (_ & _ & Hc & _).
  unfold on_crash_during_reset. rewrite (sim_replacing _ _ sim). unfold Quint.is_replacing.
  rewrite ensure_true by by apply bool_decide_eq_true. rewrite (enc_server_checkpoint _ _ enc).
  cbn [Quint.server_checkpoint Quint.with_replica Quint.with_seen].
  rewrite install_empty by (unfold u64_max; lia). cbn. rewrite ensure_true by by apply bool_decide_eq_true.
  eexists. split; [reflexivity|]. keep.
Qed.

Lemma finish_matched : Quint.finish_reset s = Some s' → ∃ a', on_finish_reset a st = Ok a' ∧ simulates s' a'.
Proof.
  intros Hstep. Quint.guards Hstep. destruct (safe_small s safe) as (_ & _ & Hc & _). pose proof (assign_matched _ Hc) as Hq'.
  unfold on_finish_reset. rewrite (sim_replacing _ _ sim). unfold Quint.is_replacing.
  rewrite ensure_true by by apply bool_decide_eq_true. rewrite (enc_server_checkpoint _ _ enc).
  cbn [Quint.server_checkpoint Quint.with_replica Quint.with_seen].
  rewrite install_empty by (unfold u64_max; lia). cbn. eexists. split; [reflexivity|]. keep.
Qed.

(** An enabled step of the model is matched by the action of its name. *)
Lemma step_matched act : Quint.oldest_in_flight s → itf_action st = action_name act → Quint.attempt act id s = Some s' →
  ∃ a', apply_action a st = Ok a' ∧ simulates s' a'.
Proof.
  intros Hold Hname Hstep. unfold apply_action. rewrite Hname.
  destruct act; cbn [Quint.attempt] in Hstep; simpl;
    first [by apply enqueue_matched|by apply send_matched|by apply apply_matched|by apply reject_matched
          |by apply duplicate_matched|by apply inject_matched|by apply acknowledge_matched|by apply pull_matched
          |by apply begin_matched|by apply crash_matched|by apply finish_matched|idtac].
  - injection Hstep as <-. by exists a.
  - Quint.guards Hstep. exists a. split; [done|]. keep.
  - Quint.guards Hstep. eexists. split; [reflexivity|]. by apply clear_matched.
  - Quint.guards Hstep. eexists. split; [reflexivity|]. apply clear_matched; try done.
    pose proof (Quint.safe_response _ safe) as Hb. unfold Quint.response_is_bounded in Hb.
    match goal with Hr : Quint.response_present s = false |- _ => rewrite Hr in Hb end. cbn. tauto.
  - Quint.guards Hstep. unfold on_discard_malformed. pose proof (sim_response _ _ sim) as Hr. rewrite (sim_valid _ _ sim).
    match goal with Hp : Quint.response_present s = true, Hv : Quint.response_valid_for_in_flight s = false |- _ =>
      rewrite Hp in Hr; rewrite Hv end.
    destruct Hr as (r & -> & _). cbn. eexists. split; [reflexivity|]. by apply clear_matched.
Qed.
End Actions.

(** ** Lemmas: whole traces *)

Section Runs.
Context `{SerdeJson} (to_value : ProtocolQueue → option json).
Context (prints : records_print) (encoded : encodes_next_id to_value).

Lemma states_replay t : ∀ states s a index actions, Quint.run s t → Forall2 encodes_step states t →
  simulates s a → Quint.protocol_safety s → Quint.oldest_in_flight s →
  replay_states to_value index a actions states = Ok (list_to_set (rev (List.map itf_action states)) ∪ actions).
Proof.
  induction t as [|[[act id] s'] t IH]; intros states s a index actions Hrun Henc Hsim Hs Hold.
  { apply Forall2_nil_inv_r in Henc as ->. cbn. f_equal. set_solver. }
  apply Forall2_cons_inv_r in Henc as (st & rest & (Hname & Hpick & Henc) & Hrest & ->).
  inversion Hrun as [|? ? ? ? ? Hstep Hrun']; subst. destruct (Hstep) as [s act id s' Hid Hatt]. cbn [fst snd] in *.
  destruct (step_matched prints st id s s' a Hsim Hs Henc Hpick Hid act Hold Hname Hatt) as (a' & Ha & Hsim').
  assert (Quint.protocol_safety s') as Hs' by by eapply Quint.step_safe.
  cbn [replay_states]. rewrite Ha. cbn [in_context map_err].
  rewrite (assert_projection_ok to_value encoded s') by done.
  rewrite (IH rest s') by (first [done|by eapply Quint.step_oldest]). f_equal. cbn [List.map rev].
  rewrite list_to_set_app_L. cbn. set_solver.
Qed.

Lemma run_replays read_file trace_from_slice path bytes states t : Quint.run Quint.init t → encodes_run states t →
  read_file path = Some bytes → trace_from_slice bytes = Some {| itf_states := states |} →
  replay to_value read_file trace_from_slice path
  = Ok {| summary_states := count states; summary_actions := list_to_set (List.map itf_action states) |}.
Proof.
  intros Hrun Henc Hread Hparse. unfold replay. rewrite Hread. cbn [ok_or]. rewrite Hparse. cbn [ok_or itf_states].
  destruct states as [|st states]; [done|]. destruct Henc as (Hname & Henc & Hrest).
  assert ((count (st :: states) =? 0) = false) as -> by (apply N.eqb_neq; unfold count; simpl; lia). cbn [negb ensure head is_some_and].
  rewrite ensure_true by by apply bool_decide_eq_true. destruct new_simulates as (a & Ha & Hsim). rewrite Ha. cbn [replay_states].
  assert (apply_action a st = Ok a) as -> by (unfold apply_action; by rewrite Hname).
  cbn [in_context map_err]. rewrite (assert_projection_ok to_value encoded Quint.init); [|done|apply Quint.init_safe|done].
  rewrite (states_replay t states Quint.init) by (first [done|apply Quint.init_safe|by intros []]). do 2 f_equal. cbn [List.map].
  apply set_eq. intros x. rewrite elem_of_union, !elem_of_list_to_set. rewrite <- In_elem, <- List.in_rev, In_elem. set_solver.
Qed.
End Runs.

(** The mismatch of a trace that does not replay. *)
Definition reported_trace (to_string : Issue → string) (paths : list Path) (m : AdapterMismatch) : Prop :=
  mm_trace m ∈ paths ∧ (∃ e, mm_message m = to_string e) ∧ mm_action m = None.

(** Every path passes or is reported, and the actions seen are those of traces
    that replayed. *)
Lemma replay_each_spec `{SerdeJson} to_value read_file from_slice to_string (paths all : list Path) : ∀ p p',
  replay_each to_value read_file from_slice to_string true paths p = Ok p' → (∀ x, x ∈ paths → x ∈ all) →
  ∃ more, mismatches p' = mismatches p ++ more ∧ Forall (reported_trace to_string all) more ∧
    passed p' + count more = passed p + count paths ∧
    (more = [] → ∀ x, x ∈ paths → ∃ summary, replay to_value read_file from_slice x = Ok summary) ∧
    (∀ action, action ∈ actions_seen p' → action ∈ actions_seen p ∨ ∃ x summary, x ∈ all ∧
       replay to_value read_file from_slice x = Ok summary ∧ action ∈ summary_actions summary).
Proof.
  unfold count. induction paths as [|path paths IH]; intros p p' Hp Hin; cbn [replay_each] in Hp.
  { injection Hp as <-. exists []. rewrite app_nil_r. split_and!; [done..| |by left]. intros _ x. by rewrite elem_of_nil. }
  destruct (replay _ _ _ path) as [summary|[|e]] eqn:E; [|done|].
  - apply IH in Hp as (more & H1 & H2 & H3 & H4 & H5); [|set_solver]. exists more. cbn in *. split_and!; [done|done|lia| |].
    + intros Hm x [->|Hx]%elem_of_cons; [by exists summary|by apply H4].
    + intros action Ha. destruct (H5 _ Ha) as [[?|?]%elem_of_union|?]; [|by left|by right].
      right. exists path, summary. set_solver.
  - apply IH in Hp as (more & H1 & H2 & H3 & _ & H5); [|set_solver]. eexists. cbn in *. split; [by rewrite H1, <- app_assoc|].
    split_and!; [|simpl; lia|done|done]. constructor; [|done]. split; [set_solver|]. split; [by exists e|done].
Qed.

Lemma require_actions_spec to_string paths p p' : require_actions to_string true paths p = Ok p' →
  p' = p ∧ (∀ action, action ∈ REQUIRED_ACTIONS → action ∈ actions_seen p) ∨
  passed p' = passed p - 1 ∧ ∃ m e first, mismatches p' = mismatches p ++ [m] ∧ mm_trace m = default "" (head paths) ∧
    mm_message m = to_string e ∧ mm_action m = Some first ∧ first ∈ REQUIRED_ACTIONS.
Proof.
  unfold require_actions. destruct (List.filter _ REQUIRED_ACTIONS) as [|first missing] eqn:E.
  - intros [= <-]. left. split; [done|]. intros action Hin. destruct (decide (action ∈ actions_seen p)) as [?|Hno]; [done|].
    exfalso. assert (action ∈ List.filter (λ action, negb (bool_decide (action ∈ actions_seen p))) REQUIRED_ACTIONS) as H.
    { apply In_elem, List.filter_In. split; [by apply In_elem|]. by rewrite bool_decide_eq_false_2. }
    rewrite E in H. by apply not_elem_of_nil in H.
  - intros [= <-]. right. split; [done|]. eexists _, _, first. do 4 (split; [reflexivity|]).
    assert (first ∈ List.filter (λ action, negb (bool_decide (action ∈ actions_seen p))) REQUIRED_ACTIONS) as H
      by (rewrite E; apply elem_of_cons; by left).
    by apply In_elem, List.filter_In in H as [H%In_elem _].
Qed.

Lemma required_not_blank action : action ∈ REQUIRED_ACTIONS → ¬ blank action.
Proof.
  intros Hin. assert (forallb (λ a, negb (is_empty (trim a))) REQUIRED_ACTIONS = true) as H by (vm_compute; reflexivity).
  rewrite forallb_forall in H. specialize (H action (proj2 (In_elem _ _) Hin)). apply negb_true_iff in H.
  unfold blank. by apply is_empty_false.
Qed.

(** ** Properties *)

(** C3: the production queue refines the Quint model on every run: along any run
    of the model from its initial state, of any length, the driver that
    performs each action on a [ProtocolQueue] and compares allocator,
    checkpoint, pending and confirmed rows, request, response and reset phase
    finds no difference, refuses every injected response, resends identical
    requests and reports exactly the actions of the trace. *)
Theorem every_run_replays `{SerdeJson} (to_value : ProtocolQueue → option json)
  (prints : records_print) (encoded : encodes_next_id to_value)
  (read_file : Path → option (list ascii)) (trace_from_slice : list ascii → option ItfTrace)
  (path : Path) (bytes : list ascii) (states : list ItfState) (t : list (Quint.Action * N * Quint.State))
  (runs : Quint.run Quint.init t) (trace : encodes_run states t)
  (readable : read_file path = Some bytes) (parses : trace_from_slice bytes = Some {| itf_states := states |}) :
  replay to_value read_file trace_from_slice path
  = Ok {| summary_states := count states; summary_actions := list_to_set (List.map itf_action states) |}.
Proof. eapply run_replays; eauto. Qed.

(** C36: the composition with the tool that asks: what the driver answers to a
    request that names its language is accepted by the tool's parser, whatever
    the traces contain, and it claims success only if every requested trace
    replayed and the traces took every action of the model. *)
Theorem adapter_answers_are_accepted `{SerdeJson} (to_value : ProtocolQueue → option json)
  (read_file : Path → option (list ascii)) (trace_from_slice : list ascii → option ItfTrace)
  (to_string : Issue → string) (version : string) (from_str : string → option AdapterReplayResponse)
  (request : ReplayRequest) (response : AdapterReplayResponse) (text : string)
  (says : ∀ e, ¬ blank (to_string e)) (versioned : ¬ blank version)
  (asked : rq_adapter request = "rust") (bounded : count (rq_traces request) ≤ u64_max)
  (answered : replay_paths to_value read_file trace_from_slice to_string version (rq_traces request) true = Ok response)
  (written : ¬ blank text) (decoded : from_str (trim text) = Some response) :
  parse_replay_response from_str text request = Ok response ∧
  (rr_success response = true →
   (∀ path, path ∈ rq_traces request → ∃ summary, replay to_value read_file trace_from_slice path = Ok summary) ∧
   ∀ action, action ∈ REQUIRED_ACTIONS → ∃ path summary, path ∈ rq_traces request ∧
     replay to_value read_file trace_from_slice path = Ok summary ∧ action ∈ summary_actions summary).
Proof.
  rewrite parse_ok. unfold replay_paths in answered. destruct (ensure (negb (count (rq_traces request) =? 0)) NoPaths) as [[]|] eqn:En; [|done].
  assert (count (rq_traces request) ≠ 0) as Hne by (intros E; rewrite E in En; discriminate En).
  destruct (replay_each _ _ _ _ _ _ _) as [p1|] eqn:Hp1; [|done].
  destruct (require_actions _ _ _ _) as [p2|] eqn:Hp2; [|done]. injection answered as <-.
  apply (replay_each_spec _ _ _ _ _ (rq_traces request)) in Hp1 as (more & H1 & H2 & H3 & H4 & H5); [|done].
  cbn [mismatches passed app actions_seen] in *. apply require_actions_spec in Hp2. unfold count in *.
  assert (Forall (reported request) (mismatches p1)) as Hrep.
  { rewrite H1. eapply Forall_impl; [exact H2|]. intros m (Hin & (e & He) & Ha). unfold reported. rewrite He, Ha.
    split; [by eexists|]. by split. }
  destruct Hp2 as [[-> Hall]|(Hpass & m & e & first & Hm & Htrace & Hmsg & Hact & Hfirst)].
  - split; [split; [done|split; [done|]]|].
    + constructor; cbn; try done; [by rewrite asked; split; [|vm_compute]|lia|].
      rewrite H1 in *. destruct more; cbn in *.
      * assert (passed p1 = N.of_nat (length (rq_traces request))) as -> by lia.
        rewrite !N.eqb_refl. cbn [andb]. by split.
      * split; [lia|done].
    + cbn. rewrite andb_true_iff, !N.eqb_eq. intros [Hz _]. rewrite H1 in Hz. destruct more; [|done]. split; [by apply H4|].
      intros action Ha%Hall. destruct (H5 _ Ha) as [?%elem_of_empty|Hx]; [done|exact Hx].
  - assert (N.of_nat (length (mismatches p2)) ≠ 0) as Hnz by (rewrite Hm, length_app; simpl; lia).
    split; [split; [done|split; [done|]]|cbn; by rewrite (proj2 (N.eqb_neq _ _) Hnz)].
    constructor; cbn; try done; [by rewrite asked; split; [|vm_compute]|lia| |].
    + rewrite (proj2 (N.eqb_neq _ _) Hnz). cbn [andb]. split; [rewrite Hpass; lia|]. intros E. by rewrite E in Hnz.
    + rewrite Hm. apply Forall_app. split; [done|]. constructor; [|done]. unfold reported. rewrite Htrace, Hmsg, Hact.
      split; [|split; [done|by intros ? [= <-]; apply required_not_blank]].
      destruct (rq_traces request) as [|x l]; [done|]. exists x. split; [apply elem_of_cons; by left|done].
Qed.

(** ** Witnesses: the format of a trace *)

Definition bigint (n : N) : json := JObject [("#bigint", JString (to_dec n))].
Definition itf_set (x : gset N) : json := JObject [("#set", JArray (List.map bigint (elements x)))].
Definition itf_tag (tag : string) : json := JObject [("tag", JString tag); ("value", JObject [])].

(** A state as the traces write it, with the fields the driver reads. *)
Definition itf_state (action : string) (pick : N) (s : Quint.State) : ItfState :=
  {| itf_action := action;
     nondet_picks := JObject [("id", JObject [("tag", JString "Some"); ("value", bigint pick)])];
     itf_s := JObject
       [("acknowledged", itf_set (Quint.acknowledged s)); ("applied", itf_set (Quint.applied s));
        ("in_flight", bigint (Quint.in_flight s)); ("local_checkpoint", bigint (Quint.local_checkpoint s));
        ("next_id", bigint (Quint.next_id s)); ("pending", itf_set (Quint.pending s));
        ("rejected", itf_set (Quint.rejected s));
        ("reset_phase", itf_tag (match Quint.reset_phase s with Quint.Idle => "Idle" | Quint.Replacing => "Replacing" end));
        ("response_checkpoint", bigint (Quint.response_checkpoint s));
        ("response_mutation_id", bigint (Quint.response_mutation_id s));
        ("response_present", JBool (Quint.response_present s));
        ("response_valid_for_in_flight", JBool (Quint.response_valid_for_in_flight s));
        ("response_watermark", bigint (Quint.response_watermark s));
        ("server_checkpoint", bigint (Quint.server_checkpoint s))] |}.

Lemma bigint_read n : n ≤ 4 → tagged_bigint (bigint n) = Ok n.
Proof.
  intros Hn. change (ok_or (parse_u64 (to_dec n)) (Failed InvalidBigint) = Ok n).
  rewrite parse_u64_to_dec; [done|]. unfold u64_max. lia.
Qed.

Lemma itf_set_read x : (∀ n, n ∈ x → n ≤ 4) → collect tagged_bigint (List.map bigint (elements x)) = Ok x.
Proof.
  intros Hx. assert (∀ l, Forall (λ n, n ≤ 4) l → collect tagged_bigint (List.map bigint l) = Ok (list_to_set l)) as Hl.
  { induction 1 as [|n l Hn _ IH]; [done|]. cbn [List.map collect]. by rewrite bigint_read, IH. }
  rewrite Hl; [by rewrite list_to_set_elements_L|]. apply Forall_forall. intros n Hn%elem_of_elements. auto.
Qed.

Lemma safe_encodes action pick s : Quint.protocol_safety s → encodes (itf_state action pick s) s.
Proof.
  intros Hs. destruct (safe_small s Hs) as (Hn & Hf & Hsc & Hlc).
  assert (Quint.response_mutation_id s ≤ 4 ∧ Quint.response_watermark s ≤ 4 ∧ Quint.response_checkpoint s ≤ 4) as (Hr1 & Hr2 & Hr3).
  { pose proof (Quint.safe_response _ Hs) as Hb. unfold Quint.response_is_bounded, Quint.NO_ID, Quint.MAX_ID in Hb.
    destruct (Quint.response_present s).
    - rewrite Quint.elem_of_IDS in Hb. unfold Quint.MAX_ID in Hb. lia.
    - lia. }
  assert (∀ x : gset N, (∀ n, n ∈ x → n ∈ Quint.IDS) → ∀ n, n ∈ x → n ≤ 4) as Hids.
  { intros x Hx n Hin%Hx%Quint.elem_of_IDS. unfold Quint.MAX_ID in Hin. lia. }
  destruct Hs as [(_ & _ & _ & Hp & Ha) _ Hl (Hap & Hre & _) _ _ _ _ _ _].
  assert (∀ n, n ∈ Quint.ledger s → n ∈ Quint.IDS) as Hled by (rewrite Hl; intros n; rewrite elem_of_filter; tauto).
  constructor; first [reflexivity|by apply bigint_read; lia|by apply itf_set_read, Hids; naive_solver].
Qed.

Lemma run_encodes t : Quint.run Quint.init t →
  encodes_run (itf_state "init" 0 Quint.init :: List.map (λ x, itf_state (action_name x.1.1) x.1.2 x.2) t) t.
Proof.
  intros Hrun. split; [done|]. split; [apply safe_encodes, Quint.init_safe|].
  pose proof (Quint.run_safe _ _ Hrun Quint.init_safe) as Hsafe.
  assert (Forall (λ x, x.1.2 ≤ 4) t) as Hids.
  { clear Hsafe. induction Hrun as [|s a id s' rest [? ? ? ? Hid _] _ IH]; constructor; [|done]. cbn.
    apply Quint.elem_of_IDS in Hid. unfold Quint.MAX_ID in Hid. lia. }
  clear Hrun. induction Hsafe as [|[[a id] s] t Hs _ IH]; constructor.
  - split; [done|]. split; [|by apply safe_encodes]. apply Forall_cons in Hids as [Hid _]. cbn in *.
    by apply bigint_read.
  - apply IH. by apply Forall_cons in Hids as [_ Hids].
Qed.

Definition demo_states : list ItfState :=
  itf_state "init" 0 Quint.init :: List.map (λ x, itf_state (action_name x.1.1) x.1.2 x.2) demo_run.

(** An encoder of the queue that writes the one field that is read. *)
Definition demo_value (q : ProtocolQueue) : option json :=
  Some (JObject [("nextMutationId", JNumber (NPosInt (next_mutation_id q)))]).

Lemma demo_prints : @records_print reference_codec.
Proof.
  intros id Hid. apply Quint.elem_of_IDS in Hid. unfold Quint.MAX_ID in Hid.
  assert (id = 1 ∨ id = 2 ∨ id = 3) as [->|[->| ->]] by lia; (eexists; split; [reflexivity|vm_compute; congruence]).
Qed.

Definition demo_read (path : Path) : option (list ascii) := if path == "run.itf.json" then Some [] else None.
Definition demo_parse (bytes : list ascii) : option ItfTrace := Some {| itf_states := demo_states |}.

(** The run of [demo_moves]: 24 states that take every action of the model. *)
Lemma every_run_replays_witness :
  replay (H := reference_codec) demo_value demo_read demo_parse "run.itf.json"
  = Ok {| summary_states := 24; summary_actions := list_to_set REQUIRED_ACTIONS |}.
Proof.
  rewrite (every_run_replays (H := reference_codec) demo_value demo_prints ltac:(by eexists) demo_read demo_parse
    "run.itf.json" [] demo_states demo_run (proj1 demo_run_runs) (run_encodes _ (proj1 demo_run_runs)) eq_refl eq_refl).
  assert (count demo_states = 24) as -> by (vm_compute; reflexivity).
  assert (bool_decide (list_to_set (List.map itf_action demo_states) =@{gset string} list_to_set REQUIRED_ACTIONS) = true)
    as ->%bool_decide_eq_true by (vm_compute; reflexivity). reflexivity.
Defined.

Definition demo_request (traces : list Path) : ReplayRequest :=
  {| rq_protocol := "fmctl.adapter.v1"; rq_project := "opto-sync-clients"; rq_model := "protocol-v1"; rq_adapter := "rust";
     rq_specification := "formal/opto_sync_protocol.qnt"; rq_traces := traces |}.

Definition demo_answer (traces : list Path) : AnyResult AdapterReplayResponse :=
  replay_paths (H := reference_codec) demo_value demo_read demo_parse (λ _, "replay failed") "0.0.0" traces true.

(** One trace that replays, and one that cannot be read: the answer reports the second. *)
Lemma adapter_answers_are_accepted_witness :
  ∃ response, demo_answer ["run.itf.json"; "lost.itf.json"] = Ok response ∧
    rr_success response = false ∧ rr_traces_passed response = 1 ∧
    parse_replay_response (λ _, Some response) "{}" (demo_request ["run.itf.json"; "lost.itf.json"]) = Ok response.
Proof.
  assert (match demo_answer ["run.itf.json"; "lost.itf.json"] with
          | Ok r => negb (rr_success r) && (rr_traces_passed r =? 1) | Err _ => false end = true) as Hv by (vm_compute; reflexivity).
  destruct (demo_answer ["run.itf.json"; "lost.itf.json"]) as [response|] eqn:E; [|discriminate Hv].
  apply andb_true_iff in Hv as [H1%negb_true_iff H2%N.eqb_eq].
  exists response. split; [reflexivity|]. split; [exact H1|]. split; [exact H2|].
  apply (adapter_answers_are_accepted (H := reference_codec) demo_value demo_read demo_parse (λ _, "replay failed") "0.0.0"
    (λ _, Some response) (demo_request ["run.itf.json"; "lost.itf.json"]) response "{}"); try done.
Defined.
