(* ===== verification/QueueExample.v ===== *)
(** * QueueExample: the example driver of the mutation queue

    [src/clients/rust/examples/quint_itf_replay.rs], an earlier form of the
    driver of [QueueReplay].  It keeps no requests to compare retries with, takes
    a crash during a reset for granted, compares serialized queues, and accepts a
    trace with any first action; its other handlers and checks have the text of
    the driver's.  [example_is_weaker]: whatever the driver accepts, the example
    accepts, on every trace. *)

From S2P Require Import Prelude Text Decimal Btree Json JsonCodec Path Workspace Plan Replay.
From S2P Require Import QuintProtocol Protocol QueueReplay.

Module Example.

Record Adapter := {
  queue_of : ProtocolQueue;
  request : option PushRequest;
  response : option PushResponse;
  response_valid : bool;
  replacing_snapshot : bool
}.

Definition new_adapter : AnyResult Adapter :=
  let? queue := lift (Protocol.new CLIENT_ID) in
  Ok {| queue_of := queue; request := None; response := None; response_valid := false; replacing_snapshot := false |}.

(** Field assignments. *)
Definition with_queue (q : ProtocolQueue) (a : Adapter) : Adapter :=
  {| queue_of := q; request := request a; response := response a; response_valid := response_valid a;
     replacing_snapshot := replacing_snapshot a |}.
Definition with_request (r : PushRequest) (a : Adapter) : Adapter :=
  {| queue_of := queue_of a; request := Some r; response := response a; response_valid := response_valid a;
     replacing_snapshot := replacing_snapshot a |}.
Definition with_response (r : PushResponse) (valid : bool) (a : Adapter) : Adapter :=
  {| queue_of := queue_of a; request := request a; response := Some r; response_valid := valid;
     replacing_snapshot := replacing_snapshot a |}.
Definition cleared (a : Adapter) : Adapter :=
  {| queue_of := queue_of a; request := None; response := None; response_valid := false;
     replacing_snapshot := replacing_snapshot a |}.
Definition with_replacing (b : bool) (a : Adapter) : Adapter :=
  {| queue_of := queue_of a; request := request a; response := response a; response_valid := response_valid a;
     replacing_snapshot := b |}.

(** ** Actions *)

Section Actions.
Context `{SerdeJson}.
Context (to_value : ProtocolQueue → option json).

Definition on_enqueue (a : Adapter) (state : ItfState) : AnyResult Adapter :=
  let? next := state_u64 state "next_id" in
  if next =? 0 then invalid InvalidNextId
  else
    let expected_id := next - 1 in
    let '(q, r) := queue_upsert (queue_of a) "docs" (record_name expected_id) (record_value expected_id) None false in
    let? actual_id := lift r in
    let? _ := ensure (actual_id == to_dec expected_id) (AllocatedOther actual_id expected_id) in
    Ok (with_queue q a).

Definition on_send (a : Adapter) (state : ItfState) : AnyResult Adapter :=
  let? _ := ensure (negb (is_some (request a))) RequestInFlight in
  let? _ := ensure (negb (is_some (response a))) ResponseAlreadyPresent in
  let? expected_id := picked_id state in
  let? r := lift (push_request (queue_of a) 1) in
  let? sent := request_mutation_id r in
  let? _ := ensure (sent =? expected_id) (SentOther expected_id) in
  Ok (with_request r a).

Definition picked_request (a : Adapter) (state : ItfState) : AnyResult unit :=
  let? r := ok_or (request a) (Failed (WithoutRequest (itf_action state))) in
  let? id := request_mutation_id r in
  let? picked := picked_id state in
  ensure (id =? picked) (PickDiffers (itf_action state)).

Definition on_new_outcome (status : ResultStatus) (a : Adapter) (state : ItfState) : AnyResult Adapter :=
  let? _ := ensure (negb (is_some (response a))) ResponseAlreadyPresent in
  let? _ := picked_request a state in
  let? r := response_from_state state status None in
  Ok (with_response r true a).

Definition on_reply_duplicate (a : Adapter) (state : ItfState) : AnyResult Adapter :=
  let? _ := ensure (negb (is_some (response a))) ResponseAlreadyPresent in
  let? id := picked_id state in
  let? r := ok_or (request a) (Failed (WithoutRequest (itf_action state))) in
  let? sent := request_mutation_id r in
  let? _ := ensure (sent =? id) (PickDiffers (itf_action state)) in
  let? applied := state_set state "applied" in
  let? original :=
    if Quint.has id applied then Ok Applied
    else
      let? rejected := state_set state "rejected" in
      if Quint.has id rejected then Ok Rejected else invalid NoDurableOutcome in
  let? r := response_from_state state Duplicate (Some original) in
  Ok (with_response r true a).

(** The queue is compared with itself through its serialization. *)
Definition on_inject_mismatched (a : Adapter) (state : ItfState) : AnyResult Adapter :=
  let? _ := ensure (negb (is_some (response a))) ResponseAlreadyPresent in
  let? resp := response_from_state state Applied None in
  let? req := ok_or (request a) (Failed (WithoutRequest (itf_action state))) in
  let? before := ok_or (to_value (queue_of a)) (Failed CannotSerialize) in
  let '(q, r) := acknowledge (queue_of a) resp req in
  let? error := expect_err r in
  let? _ := ensure (error == InvalidAcknowledgement) UnexpectedError in
  let? after := ok_or (to_value q) (Failed CannotSerialize) in
  let? _ := ensure (after == before) QueueMutated in
  Ok (with_response resp false (with_queue q a)).

Definition on_discard_malformed (a : Adapter) : AnyResult Adapter :=
  let? _ := ensure (is_some (response a) && negb (response_valid a)) NoRejectedResponse in
  Ok (cleared a).

Definition on_acknowledge (a : Adapter) (state : ItfState) : AnyResult Adapter :=
  let? _ := ensure (response_valid a) ResponseInvalid in
  let? resp := ok_or (response a) (Failed WithoutResponse) in
  let? req := ok_or (request a) (Failed (WithoutRequest (itf_action state))) in
  let? sent := request_mutation_id req in
  let? picked := picked_id state in
  let? _ := ensure (sent =? picked) (PickDiffers (itf_action state)) in
  let '(q, r) := acknowledge (queue_of a) resp req in
  let? changed := lift r in
  let? _ := ensure (changed =? 1) (ChangedRows changed) in
  Ok (cleared (with_queue q a)).

Definition on_pull (a : Adapter) (state : ItfState) : AnyResult Adapter :=
  let? c := state_u64 state "local_checkpoint" in
  let '(q, r) := set_checkpoint (queue_of a) (to_dec c) in
  let? _ := lift r in
  Ok (with_queue q a).

Definition on_begin_reset (a : Adapter) : AnyResult Adapter :=
  let? _ := ensure (negb (replacing_snapshot a)) ResetActive in
  Ok (with_replacing true a).

(** No snapshot is installed. *)
Definition on_crash_during_reset (a : Adapter) (state : ItfState) : AnyResult Adapter :=
  let? _ := ensure (replacing_snapshot a) (NoActiveReset (itf_action state)) in
  Ok (with_replacing false a).

Definition accepting (records : list SnapshotRecord) (w : unit) : unit * result unit unit := (w, Ok ()).

Definition on_finish_reset (a : Adapter) (state : ItfState) : AnyResult Adapter :=
  let? _ := ensure (replacing_snapshot a) (NoActiveReset (itf_action state)) in
  let? c := state_u64 state "server_checkpoint" in
  let '(q, _, r) := install_snapshot (queue_of a) (snapshot_of c) accepting () in
  let? _ := map_err (λ _, Failed OfSnapshot) r in
  Ok (with_replacing false (with_queue q a)).

Definition apply_action (a : Adapter) (state : ItfState) : AnyResult Adapter :=
  let action := itf_action state in
  if action == "init" then new_adapter
  else if (action == "idle") || (action == "compact") then Ok a
  else if action == "enqueue" then on_enqueue a state
  else if action == "send" then on_send a state
  else if action == "apply_new" then on_new_outcome Applied a state
  else if action == "reject_new" then on_new_outcome Rejected a state
  else if action == "reply_duplicate" then on_reply_duplicate a state
  else if action == "inject_mismatched_response" then on_inject_mismatched a state
  else if (action == "lose_committed_response") || (action == "lose_uncommitted_request") then Ok (cleared a)
  else if action == "discard_malformed_response" then on_discard_malformed a
  else if action == "acknowledge" then on_acknowledge a state
  else if action == "pull" then on_pull a state
  else if action == "begin_reset" then on_begin_reset a
  else if action == "crash_during_reset" then on_crash_during_reset a state
  else if action == "finish_reset" then on_finish_reset a state
  else invalid (UnsupportedAction action).

(** ** The observable state *)

Definition check_queue (queue : ProtocolQueue) (state : ItfState) : AnyResult unit :=
  let? _ := lift (validate queue) in
  let? queue_json := ok_or (to_value queue) (Failed CannotSerialize) in
  let? next := field queue_json "nextMutationId" in
  let? actual_next_id := ok_or (as_u64 next) (Failed NextIdNotUnsigned) in
  let? expected_next_id := state_u64 state "next_id" in
  let? _ := ensure (actual_next_id =? expected_next_id) (Differs "next id") in
  let? expected_checkpoint := state_u64 state "local_checkpoint" in
  let? _ := ensure (checkpoint queue == to_dec expected_checkpoint) (Differs "checkpoint") in
  let? actual_pending := collect parse_mutation_id (pending queue) in
  let? actual_confirmed := collect parse_mutation_id (List.filter is_confirmed (all queue)) in
  let? expected_pending := state_set state "pending" in
  let? expected_confirmed := state_set state "acknowledged" in
  let? _ := ensure (actual_pending == expected_pending) (Differs "pending") in
  let? _ := ensure (actual_confirmed == expected_confirmed) (Differs "confirmed") in
  let? actual_all := collect parse_mutation_id (all queue) in
  ensure (actual_all == range 1 expected_next_id) (Differs "allocated ids").

Definition check_in_flight (a : Adapter) (in_flight : N) : AnyResult unit :=
  match request a with
  | None => if in_flight =? 0 then Ok () else invalid (Differs "in flight")
  | Some r =>
      if 0 <? in_flight then
        let? id := request_mutation_id r in ensure (id =? in_flight) (Differs "in flight")
      else invalid (Differs "in flight")
  end.

Definition check_response (a : Adapter) (state : ItfState) : AnyResult unit :=
  match response a with
  | Some resp =>
      let? result := ok_or (head (resp_results resp)) (Failed NoResult) in
      let? watermark := state_u64 state "response_watermark" in
      let? _ := ensure (resp_last_mutation_id resp == to_dec watermark) (Differs "response watermark") in
      let? checkpoint := state_u64 state "response_checkpoint" in
      let? _ := ensure (resp_checkpoint resp == to_dec checkpoint) (Differs "response checkpoint") in
      let? id := state_u64 state "response_mutation_id" in
      let? _ := ensure (res_mutation_id result == to_dec id) (Differs "response mutation id") in
      let? valid := state_bool state "response_valid_for_in_flight" in
      ensure (Bool.eqb (response_valid a) valid) (Differs "response validity")
  | None => ensure (negb (response_valid a)) (Differs "response validity")
  end.

Definition assert_projection (a : Adapter) (state : ItfState) : AnyResult unit :=
  let? _ := check_queue (queue_of a) state in
  let? in_flight := state_u64 state "in_flight" in
  let? _ := check_in_flight a in_flight in
  let? response_present := state_bool state "response_present" in
  let? _ := ensure (Bool.eqb (is_some (response a)) response_present) (Differs "response presence") in
  let? _ := check_response a state in
  let? phase := state_tag state "reset_phase" in
  ensure (Bool.eqb (replacing_snapshot a) (phase == "Replacing")) (Differs "reset phase").

(** ** Replaying traces *)

Context (read_file : Path → option (list ascii)).
Context (trace_from_slice : list ascii → option ItfTrace).

Fixpoint replay_states (index : N) (a : Adapter) (states : list ItfState) : AnyResult unit :=
  match states with
  | [] => Ok ()
  | state :: states =>
      let? a := in_context index (itf_action state) (apply_action a state) in
      let? _ := assert_projection a state in
      replay_states (index + 1) a states
  end.

Definition replay (path : Path) : AnyResult N :=
  let? bytes := ok_or (read_file path) (Failed CannotRead) in
  let? trace := ok_or (trace_from_slice bytes) (Failed NotATrace) in
  let? _ := ensure (negb (count (itf_states trace) =? 0)) NoStates in
  let? a := new_adapter in
  let? _ := replay_states 0 a (itf_states trace) in
  Ok (count (itf_states trace)).

Fixpoint replay_all (states : N) (paths : list Path) : AnyResult N :=
  match paths with
  | [] => Ok states
  | path :: paths => let? count := replay path in replay_all (states + count) paths
  end.

(** [main]; the result is the number of states it prints. *)
Definition main (paths : list Path) : AnyResult N :=
  let? _ := ensure (negb (count paths =? 0)) NoPaths in
  replay_all 0 (sort_paths paths).
End Actions.
End Example.

(** ** Lemmas *)

(** The driver's adapter without the requests it remembers. *)
Definition forget (a : Adapter) : Example.Adapter :=
  {| Example.queue_of := queue_of a; Example.request := request a; Example.response := response a;
     Example.response_valid := response_valid a; Example.replacing_snapshot := replacing_snapshot a |}.

(** [follow H] decides each test of the driver's handler [H], which is a test of the example's too. *)
Ltac follow H :=
  cbn [forget Example.queue_of Example.request Example.response Example.response_valid Example.replacing_snapshot] in *;
  repeat (match type of H with
          | context [match ?x with _ => _ end] => destruct x eqn:?; try discriminate H
          end; cbn [ok_or map_err lift] in *).

Section Weaker.
Context `{SerdeJson} (to_value : ProtocolQueue → option json) (total : ∀ q, is_Some (to_value q)).

Lemma inject_weaker a st a' : on_inject_mismatched a st = Ok a' →
  Example.on_inject_mismatched to_value (forget a) st = Ok (forget a').
Proof.
  unfold on_inject_mismatched, Example.on_inject_mismatched. destruct (total (queue_of a)) as [v Hv]. intros Ha.
  follow Ha. injection Ha as <-. rewrite Hv. cbn [ok_or].
  match goal with E : acknowledge _ _ _ = (?q, _), Hq : ensure (?q == _) _ = Ok _ |- _ =>
    unfold ensure in Hq; destruct (q == queue_of a) eqn:Eq; [|discriminate Hq]; apply bool_decide_eq_true in Eq as -> end.
  rewrite Hv. cbn [ok_or]. by rewrite ensure_true by by apply bool_decide_eq_true.
Qed.

Lemma crash_weaker a st a' : on_crash_during_reset a st = Ok a' →
  Example.on_crash_during_reset (forget a) st = Ok (forget a').
Proof.
  unfold on_crash_during_reset, Example.on_crash_during_reset. intros Ha. follow Ha. injection Ha as <-.
  match goal with Hq : ensure (?q == _) _ = Ok _ |- _ =>
    unfold ensure in Hq; destruct (q == queue_of a) eqn:Eq; [|discriminate Hq]; apply bool_decide_eq_true in Eq as -> end.
  done.
Qed.

Lemma finish_weaker a st a' : on_finish_reset a st = Ok a' → Example.on_finish_reset (forget a) st = Ok (forget a').
Proof.
  unfold on_finish_reset, Example.on_finish_reset, install_snapshot, recording, Example.accepting. intros Ha.
  cbn [forget Example.replacing_snapshot Example.queue_of]. destruct (ensure _ _); [|done].
  destruct (state_u64 st _); [|done]. destruct (_ || _); follow Ha; by simplify_eq/=.
Qed.

(** The other handlers test and do the same. *)
Lemma action_weaker a st a' : apply_action a st = Ok a' → Example.apply_action to_value (forget a) st = Ok (forget a').
Proof.
  unfold apply_action, Example.apply_action.
  repeat (case_match; [first [apply inject_weaker|apply crash_weaker|apply finish_weaker|idtac]|]); try done; intros Ha;
    unfold new_adapter, on_enqueue, on_send, on_new_outcome, picked_request, on_reply_duplicate, on_discard_malformed,
      on_acknowledge, on_pull, on_begin_reset in Ha;
    unfold Example.new_adapter, Example.on_enqueue, Example.on_send, Example.on_new_outcome, Example.picked_request,
      Example.on_reply_duplicate, Example.on_discard_malformed, Example.on_acknowledge, Example.on_pull,
      Example.on_begin_reset; follow Ha; by simplify_eq/=.
Qed.

Lemma states_weaker states : ∀ index a actions actions', replay_states to_value index a actions states = Ok actions' →
  Example.replay_states to_value index (forget a) states = Ok ().
Proof.
  induction states as [|st states IH]; intros index a actions actions'; cbn [replay_states Example.replay_states]; [done|].
  destruct (apply_action a st) as [a'|e] eqn:Ha; [|done]. rewrite (action_weaker _ _ _ Ha). cbn [in_context map_err].
  change (Example.assert_projection to_value (forget a') st) with (assert_projection to_value a' st).
  destruct (assert_projection to_value a' st); [|done]. apply IH.
Qed.

Lemma replay_weaker read_file trace_from_slice path summary :
  replay to_value read_file trace_from_slice path = Ok summary →
  Example.replay to_value read_file trace_from_slice path = Ok (summary_states summary).
Proof.
  unfold replay, Example.replay. destruct (ok_or (read_file path) _) as [bytes|]; [|done].
  destruct (ok_or (trace_from_slice bytes) _) as [trace|]; [|done]. destruct (ensure (negb _) NoStates); [|done].
  destruct (ensure _ NoInit); [|done]. destruct new_adapter as [adapter|] eqn:En; [|done].
  assert (Example.new_adapter = Ok (forget adapter)) as ->.
  { unfold Example.new_adapter. unfold new_adapter in En. destruct (lift (Protocol.new CLIENT_ID)); [|done]. by injection En as <-. }
  destruct (replay_states _ _ _ _ _) as [actions|] eqn:E; [|done]. intros [= <-]. by rewrite (states_weaker _ _ _ _ _ E).
Qed.
End Weaker.

(** ** Properties *)

(** The two drivers agree on what they accept: on any trace at all, what the
    conformance driver replays without an error the example driver replays too,
    with the same number of states, so the example program ends successfully on a
    suite of such traces and counts their states. *)
Theorem example_is_weaker `{SerdeJson} (to_value : ProtocolQueue → option json) (total : ∀ q, is_Some (to_value q))
  (read_file : Path → option (list ascii)) (trace_from_slice : list ascii → option ItfTrace)
  (paths : list Path) (nonempty : paths ≠ [])
  (replayed : ∀ path, path ∈ paths → ∃ summary, replay to_value read_file trace_from_slice path = Ok summary) :
  ∃ states, Example.main to_value read_file trace_from_slice paths = Ok states ∧
    ∀ path summary, path ∈ paths → replay to_value read_file trace_from_slice path = Ok summary →
      Example.replay to_value read_file trace_from_slice path = Ok (summary_states summary) ∧ summary_states summary ≤ states.
Proof.
  assert (∀ l n, (∀ path, path ∈ l → ∃ summary, replay to_value read_file trace_from_slice path = Ok summary) →
    ∃ states, Example.replay_all to_value read_file trace_from_slice n l = Ok states ∧ n ≤ states ∧
      ∀ path summary, path ∈ l → replay to_value read_file trace_from_slice path = Ok summary →
        summary_states summary ≤ states) as Hall.
  { induction l as [|path l IH]; intros n Hl; cbn [Example.replay_all].
    { exists n. split; [done|]. split; [done|]. by intros ? ? ?%not_elem_of_nil. }
    destruct (Hl path) as [summary Hs]; [by left|]. rewrite (replay_weaker to_value total _ _ _ _ Hs).
    destruct (IH (n + summary_states summary)) as (states & H1 & H2 & H3); [intros p Hp; apply Hl; by right|].
    exists states. split; [done|]. split; [lia|]. intros p s [->|Hp]%elem_of_cons Hr; [|by eapply H3].
    rewrite Hs in Hr. injection Hr as <-. lia. }
  assert (∀ x, x ∈ sort_paths paths ↔ x ∈ paths) as Hsort by (intros x; unfold sort_paths; by rewrite sort_by_perm).
  destruct (Hall (sort_paths paths) 0) as (states & H1 & _ & H3); [intros p Hp%Hsort; auto|].
  exists states. unfold Example.main. destruct paths as [|p paths]; [done|].
  rewrite ensure_true by (apply negb_true_iff, N.eqb_neq; unfold count; simpl; lia). split; [done|].
  intros path summary Hp Hr. split; [by apply replay_weaker|]. eapply H3; [by apply Hsort|done].
Qed.

Lemma example_is_weaker_witness :
  ∃ states, Example.main (H := reference_codec) demo_value demo_read demo_parse ["run.itf.json"; "run.itf.json"] = Ok states
    ∧ 24 ≤ states.
Proof.
  assert (∀ path, path ∈ ["run.itf.json"; "run.itf.json"] → ∃ summary, summary_states summary = 24 ∧
    replay (H := reference_codec) demo_value demo_read demo_parse path = Ok summary) as Hr.
  { intros path Hp. assert (path = "run.itf.json") as -> by set_solver. eexists. split; [|apply (run_replays
      (H := reference_codec) demo_value demo_prints ltac:(by eexists) demo_read demo_parse "run.itf.json" [] demo_states demo_run (proj1 demo_run_runs)
      (run_encodes _ (proj1 demo_run_runs)) eq_refl eq_refl)]. vm_compute. reflexivity. }
  assert ("run.itf.json" ∈ ["run.itf.json"; "run.itf.json"]) as Hin by (apply elem_of_cons; by left).
  destruct (example_is_weaker (H := reference_codec) demo_value ltac:(by eexists) demo_read demo_parse
    ["run.itf.json"; "run.itf.json"] ltac:(done)) as (states & Hm & Hle).
  - intros path Hp. destruct (Hr path Hp) as (summary & _ & E). by exists summary.
  - exists states. split; [done|]. destruct (Hr "run.itf.json" Hin) as (summary & <- & E).
    exact (proj2 (Hle _ _ Hin E)).
Defined.
