(* ===== verification/SchedulerReplay.v ===== *)
(** * SchedulerReplay: the conformance driver of the scheduler

    [src/clients/rust/examples/scheduler_itf_replay.rs]: drives the production
    scheduler along traces of the Quint model of [QuintScheduler] and compares
    their projections; where a trace settles a cycle, it also runs the sync
    driver over a scripted transport that ends a cycle that way.  The answer is a
    record with the fields of the [json!] object.

    [every_scheduler_run_replays]: on the encoding of every run of the model the
    projections agree at every state. *)

From S2P Require Import Prelude Text Decimal Btree Json JsonCodec Path Workspace Plan Replay.
From S2P Require Import QuintScheduler Scheduler Protocol ProtocolSync.

Module SchedulerDriver.

Definition ACTION_FIELD : string := "mbt::actionTaken".

Definition REQUIRED_ACTIONS : list string :=
  ["init"; "idle"; "start"; "stop"; "hint"; "go_offline"; "go_online"; "timer_fire"; "timer_join"; "stale_timer_fire";
   "page_more"; "begin_reset"; "finish_reset"; "cycle_success"; "cycle_success_more"; "cycle_retryable_failure";
   "cycle_permanent_failure"; "malformed_response"; "stale_cycle_success"; "stale_cycle_failure"].

Definition REQUIRED_SCENARIOS : list string :=
  ["stop_during_cycle"; "trailing_wake"; "offline_during_cycle"; "online_recovery"; "retryable_failure";
   "permanent_failure"; "reset_ordering"; "malformed_response"; "paging_rerun"; "stale_cycle"; "stale_timer"].

Inductive Issue :=
| NotAnObject (label : string)
| MissingField (name : string)
| TagNotAString (label : string)
| UnknownPhase (tag : string)
| UnknownReset (tag : string)
| NotBoolean (name : string)
| BigintNotAString (name : string)
| InvalidBigint (name : string)
| DriverFailed (what : string)
| UnknownAction (action : string)
| NotReadable
| NotJson
| NoStates
| InvalidLength
| ActionNotAString
| FirstNotInit
| Rejected
| BadRequest (what : string).

(** A panic, or an error. *)
Inductive Failure := Panicked | Failed (e : Issue).

Definition IoResult (A : Type) : Type := result A Failure.

Definition invalid {A} (e : Issue) : IoResult A := Err (Failed e).

(** ** Projections *)

Definition object (value : json) (label : string) : IoResult (bmap json) :=
  ok_or (as_object value) (Failed (NotAnObject label)).

Definition field (value : bmap json) (name : string) : IoResult json :=
  ok_or (bt_get name value) (Failed (MissingField name)).

Definition tag (value : json) (label : string) : IoResult string :=
  let? encoded := object value label in
  let? v := field encoded "tag" in
  ok_or (as_str v) (Failed (TagNotAString label)).

Definition boolean (state : bmap json) (name : string) : IoResult bool :=
  let? v := field state name in ok_or (as_bool v) (Failed (NotBoolean name)).

Definition integer (state : bmap json) (name : string) : IoResult Z :=
  let? v := field state name in
  let? encoded := object v name in
  let? b := field encoded "#bigint" in
  let? text := ok_or (as_str b) (Failed (BigintNotAString name)) in
  ok_or (parse_i64 text) (Failed (InvalidBigint name)).

(** An [i64] as a JSON number. *)
Definition of_i64 (z : Z) : json :=
  if (z <? 0)%Z then JNumber (NNegInt z) else JNumber (NPosInt (Z.to_N z)).

(** The [json!] object of a projection, its keys in order. *)
Definition projection (phase : string) (online timer_pending cycle_pending network_active wake_pending : bool)
    (consecutive_failures : json) (reset_phase : string) (pages_seen : json) : json :=
  JObject [("consecutiveFailures", consecutive_failures); ("cyclePending", JBool cycle_pending);
           ("networkActive", JBool network_active); ("online", JBool online); ("pagesSeen", pages_seen);
           ("phase", JString phase); ("resetPhase", JString reset_phase); ("timerPending", JBool timer_pending);
           ("wakePending", JBool wake_pending)].

Definition phase_text (tag : string) : IoResult string :=
  if tag == "Stopped" then Ok "stopped"
  else if tag == "Idle" then Ok "idle"
  else if tag == "Syncing" then Ok "syncing"
  else if tag == "Offline" then Ok "offline"
  else if tag == "Backoff" then Ok "backoff"
  else if tag == "Error" then Ok "error"
  else invalid (UnknownPhase tag).

Definition reset_text (tag : string) : IoResult string :=
  if tag == "NoReset" then Ok "none"
  else if tag == "SnapshotRequested" then Ok "requested"
  else if tag == "SnapshotInstalled" then Ok "installed"
  else invalid (UnknownReset tag).

Definition model_projection (raw_state : json) : IoResult json :=
  let? raw := object raw_state "ITF state" in
  let? s := field raw "s" in
  let? state := object s "ITF scheduler state" in
  let? phase_value := field state "phase" in
  let? phase_tag := tag phase_value "phase" in
  let? phase := phase_text phase_tag in
  let? reset_value := field state "reset_phase" in
  let? reset_tag := tag reset_value "reset phase" in
  let? reset_phase := reset_text reset_tag in
  let? online := boolean state "online" in
  let? timer_pending := boolean state "timer_pending" in
  let? cycle_pending := boolean state "cycle_pending" in
  let? network_active := boolean state "network_active" in
  let? wake_pending := boolean state "wake_pending" in
  let? consecutive_failures := integer state "consecutive_failures" in
  let? pages_seen := integer state "pages_seen" in
  Ok (projection phase online timer_pending cycle_pending network_active wake_pending
        (of_i64 consecutive_failures) reset_phase (of_i64 pages_seen)).

Definition implementation_projection (state : SchedulerState) : json :=
  projection
    (match phase state with
     | Stopped => "stopped" | Idle => "idle" | Syncing => "syncing" | Offline => "offline" | Backoff => "backoff" | Error => "error"
     end)
    (online state) (timer_pending state) (cycle_pending state) (network_active state) (wake_pending state)
    (JNumber (NPosInt (consecutive_failures state)))
    (match reset_phase state with NoReset => "none" | SnapshotRequested => "requested" | SnapshotInstalled => "installed" end)
    (JNumber (NPosInt (pages_seen state))).

(** ** Scripted cycles *)

Inductive DriverScenario := Success | SuccessMore | Retryable | Permanent | Malformed | Paging | ResetScenario.

(** What a call fails with: the text of the script, or a panic of the script's [expect]. *)
Inductive ScriptError := Said (text : string) | Unwinds.

Record DriverTransport := {
  pulls : list (result PullResult (TransportFailure ScriptError));
  snapshot : option SnapshotResponse
}.

Definition unwind {A} : result A (TransportFailure ScriptError) :=
  Err {| tf_source := Unwinds; tf_retryable := false; tf_retry_after := None |}.

Definition applied_result (m : ProtocolMutation) : MutationResult :=
  {| res_mutation_id := mutation_id m; res_status := Applied; res_original_status := None; res_checkpoint := None;
     res_revision := Some "1"; res_code := None; res_message := None |}.

#[export] Instance driver_transport : ProtocolTransport DriverTransport ScriptError := {
  tr_push request t :=
    match last (req_mutations request) with
    | None => (t, unwind)
    | Some m =>
        (t, Ok {| resp_protocol_version := 1; resp_client_id := req_client_id request; resp_last_mutation_id := mutation_id m;
                  resp_checkpoint := "0"; resp_results := List.map applied_result (req_mutations request) |})
    end;
  tr_pull _ _ t :=
    match pulls t with
    | [] => (t, unwind)
    | answer :: rest => ({| pulls := rest; snapshot := snapshot t |}, answer)
    end;
  tr_snapshot _ t :=
    match snapshot t with
    | None => (t, unwind)
    | Some s => ({| pulls := pulls t; snapshot := None |}, Ok s)
    end
}.

(** [NoopCallbacks] and [NoopPersistence]; their error type is empty. *)
Inductive NoopCallbacks := noop_callbacks.
Inductive NoopPersistence := noop_persistence.

#[export] Instance noop_callbacks_instance : ProtocolSyncCallbacks NoopCallbacks Empty_set := {
  cb_apply_changes _ c := (c, Ok ());
  cb_replace_authoritative _ c := (c, Ok ())
}.

#[export] Instance noop_persistence_instance : ProtocolQueuePersistence NoopPersistence Empty_set := {
  ps_persist _ p := (p, Ok ())
}.

Definition page (checkpoint : string) (has_more : bool) : result PullResult (TransportFailure ScriptError) :=
  Ok (Changes {| pull_protocol_version := 1; pull_checkpoint := checkpoint; pull_has_more := has_more; pull_changes := [] |}).

Definition failing (text : string) (retryable : bool) : result PullResult (TransportFailure ScriptError) :=
  Err {| tf_source := Said text; tf_retryable := retryable; tf_retry_after := None |}.

(** The pulls and the snapshot of a scenario. *)
Definition script (scenario : DriverScenario) : DriverTransport :=
  match scenario with
  | Success | SuccessMore => {| pulls := [page "0" false; page "0" false]; snapshot := None |}
  | Retryable => {| pulls := [failing "retry" true]; snapshot := None |}
  | Permanent => {| pulls := [failing "stop" false]; snapshot := None |}
  | Malformed => {| pulls := [page "not-a-checkpoint" false]; snapshot := None |}
  | Paging => {| pulls := [page "1" true; page "1" false; page "1" false]; snapshot := None |}
  | ResetScenario =>
      {| pulls := [Ok (Reset {| rr_protocol_version := 1; rr_error := "RESET_REQUIRED"; rr_snapshot_url := None |});
                   page "10" false; page "10" false];
         snapshot := Some {| snap_protocol_version := 1; snap_checkpoint := "10";
                             snap_records := [{| snap_table := "docs"; snap_record_id := "snapshot";
                                                 snap_record := JObject [("snapshot", JBool true)]; snap_revision := "1" |}] |} |}
  end.

Definition driver_options : ProtocolSyncOptions :=
  {| push_limit := 1; pull_limit := pull_limit default_sync_options; max_push_batches_per_cycle := 1;
     max_pull_pages_per_phase := max_pull_pages_per_phase default_sync_options |}.

(** [map_err(|error| invalid(error.to_string()))] *)
Definition of_queue {A} (r : result A ProtocolError) : IoResult A := map_err (λ _, Failed (DriverFailed "queue")) r.

Definition numbered (n : N) : json := JObject [("id", JNumber (NPosInt n))].

Definition scenario_queue `{SerdeJson} (scenario : DriverScenario) : IoResult ProtocolQueue :=
  let? q := of_queue (Protocol.new "formal-rust") in
  match scenario with
  | SuccessMore =>
      let '(q, r) := queue_upsert q "docs" "one" (numbered 1) None false in
      let? _ := of_queue r in
      let '(q, r) := queue_upsert q "docs" "two" (numbered 2) None false in
      let? _ := of_queue r in
      Ok q
  | _ => Ok q
  end.

(** What a scenario expects of the cycle's result. *)
Definition expected_outcome (scenario : DriverScenario)
    (r : result ProtocolSyncCycleResult (ProtocolSyncError ScriptError Empty_set Empty_set)) : IoResult unit :=
  match scenario, r with
  | _, Err (SyncTransport {| tf_source := Unwinds |}) => Err Panicked
  | Success, Ok cycle => if cy_has_more_pending cycle then invalid (DriverFailed "retained pending work") else Ok ()
  | SuccessMore, Ok cycle => if cy_has_more_pending cycle then Ok () else invalid (DriverFailed "no trailing work")
  | Paging, Ok _ => Ok ()
  | ResetScenario, Ok cycle =>
      if negb (cy_installed_snapshots cycle =? 1) || negb (cy_checkpoint cycle == "10")
      then invalid (DriverFailed "reset not installed") else Ok ()
  | Retryable, Err (SyncTransport e) => if tf_retryable ScriptError e then Ok () else invalid (DriverFailed "retryable")
  | Permanent, Err (SyncTransport e) => if tf_retryable ScriptError e then invalid (DriverFailed "permanent") else Ok ()
  | Malformed, Err (SyncInvalidResponse _) => Ok ()
  | _, _ => invalid (DriverFailed "cycle")
  end.

Definition exercise_driver `{SerdeJson} (scenario : DriverScenario) : IoResult unit :=
  let? queue := scenario_queue scenario in
  let? options := of_queue (validate_options driver_options) in
  expected_outcome scenario
    (sync_cycle options {| e_queue := queue; e_transport := script scenario; e_callbacks := noop_callbacks;
                           e_persistence := noop_persistence; e_result := empty_result "0" |}).2.

Definition event_for (action : string) : IoResult Event :=
  if action == "idle" then Ok IdleEvent
  else if action == "start" then Ok Start
  else if action == "stop" then Ok Stop
  else if action == "hint" then Ok Hint
  else if action == "go_offline" then Ok GoOffline
  else if action == "go_online" then Ok GoOnline
  else if action == "timer_fire" then Ok TimerFire
  else if action == "timer_join" then Ok TimerJoin
  else if action == "stale_timer_fire" then Ok StaleTimerFire
  else if action == "page_more" then Ok PageMore
  else if action == "begin_reset" then Ok BeginReset
  else if action == "finish_reset" then Ok FinishReset
  else if action == "cycle_success" then Ok CycleSuccess
  else if action == "cycle_success_more" then Ok CycleSuccessMore
  else if action == "cycle_retryable_failure" then Ok CycleRetryableFailure
  else if action == "cycle_permanent_failure" then Ok CyclePermanentFailure
  else if action == "malformed_response" then Ok MalformedResponse
  else if action == "stale_cycle_success" then Ok StaleCycleSuccess
  else if action == "stale_cycle_failure" then Ok StaleCycleFailure
  else invalid (UnknownAction action).

Definition scenario_for (action : string) (scheduler : SchedulerState) : option DriverScenario :=
  if action == "cycle_success_more" then Some SuccessMore
  else if (action == "cycle_retryable_failure") || (action == "stale_cycle_failure") then Some Retryable
  else if action == "cycle_permanent_failure" then Some Permanent
  else if action == "malformed_response" then Some Malformed
  else if action == "stale_cycle_success" then Some Success
  else if action == "cycle_success" then
    if reset_phase scheduler == SnapshotInstalled then Some ResetScenario
    else if 0 <? pages_seen scheduler then Some Paging
    else Some Success
  else None.

Definition exercise_outcome `{SerdeJson} (action : string) (scheduler : SchedulerState) : IoResult unit :=
  match scenario_for action scheduler with Some scenario => exercise_driver scenario | None => Ok () end.

Definition record_scenario (action : string) (previous : json) (scenarios : gset string) : gset string :=
  let cycle_pending :=
    match previous with JObject m => bt_get "cyclePending" m == Some (JBool true) | _ => false end in
  if (action == "stop") && cycle_pending then {["stop_during_cycle"]} ∪ scenarios
  else if ((action == "hint") || (action == "timer_join")) && cycle_pending then {["trailing_wake"]} ∪ scenarios
  else if (action == "go_offline") && cycle_pending then {["offline_during_cycle"]} ∪ scenarios
  else if action == "go_online" then {["online_recovery"]} ∪ scenarios
  else if action == "cycle_retryable_failure" then {["retryable_failure"]} ∪ scenarios
  else if action == "cycle_permanent_failure" then {["permanent_failure"]} ∪ scenarios
  else if action == "finish_reset" then {["reset_ordering"]} ∪ scenarios
  else if action == "malformed_response" then {["malformed_response"]} ∪ scenarios
  else if action == "cycle_success_more" then {["paging_rerun"]} ∪ scenarios
  else if (action == "stale_cycle_success") || (action == "stale_cycle_failure") then {["stale_cycle"]} ∪ scenarios
  else if action == "stale_timer_fire" then {["stale_timer"]} ∪ scenarios
  else scenarios.

(** ** Replaying traces *)

Section Replay.
Context `{SerdeJson}.
(** [fs::read_to_string], and [serde_json::from_str] of a value. *)
Context (read_to_string : string → option string).
Context (value_from_str : string → option json).

(** What the [&mut] sets of a suite hold; errors keep what was inserted before them. *)
Record Coverage := { actions_seen : gset string; scenarios_seen : gset string }.

Record Difference := { df_step : N; df_action : string; df_expected : json; df_actual : json }.

Definition strings (l : list string) : json := JArray (List.map JString l).

Definition one_of_actions (action : string) : bool := existsb (λ a, a == action) REQUIRED_ACTIONS.

(** One state: the action is performed and the projections are compared. *)
Definition perform (step : N) (action : string) (previous : option json) (scheduler : SchedulerState) (c : Coverage)
    : Coverage * IoResult SchedulerState :=
  if step =? 0 then (c, if action == "init" then Ok scheduler else invalid FirstNotInit)
  else
    match model_projection (default JNull previous) with
    | Err e => (c, Err e)
    | Ok before =>
        let c := {| actions_seen := actions_seen c; scenarios_seen := record_scenario action before (scenarios_seen c) |} in
        (c, let? _ := exercise_outcome action scheduler in
            let? event := event_for action in
            match apply scheduler event with
            | (scheduler, Ok _) => Ok scheduler
            | (_, Err _) => invalid Rejected
            end)
    end.

Fixpoint replay_states (step : N) (previous : option json) (scheduler : SchedulerState) (c : Coverage) (states : list json)
    : Coverage * IoResult (option Difference) :=
  match states with
  | [] => (c, Ok None)
  | raw_state :: states =>
      match (let? raw := object raw_state "ITF state" in
             let? v := field raw ACTION_FIELD in
             ok_or (as_str v) (Failed ActionNotAString)) with
      | Err e => (c, Err e)
      | Ok action =>
          if negb (one_of_actions action) then (c, invalid (UnknownAction action))
          else
            let c := {| actions_seen := {[action]} ∪ actions_seen c; scenarios_seen := scenarios_seen c |} in
            match perform step action previous scheduler c with
            | (c, Err e) => (c, Err e)
            | (c, Ok scheduler) =>
                match model_projection raw_state with
                | Err e => (c, Err e)
                | Ok expected =>
                    let actual := implementation_projection scheduler in
                    if expected == actual then replay_states (step + 1) (Some raw_state) scheduler c states
                    else (c, Ok (Some {| df_step := step; df_action := action; df_expected := expected; df_actual := actual |}))
                end
            end
      end
  end.

Definition trace_states (path : string) : IoResult (list json) :=
  let? text := ok_or (read_to_string path) (Failed NotReadable) in
  let? trace := ok_or (value_from_str text) (Failed NotJson) in
  let? m := object trace "ITF trace" in
  let? states := ok_or (match bt_get "states" m with Some (JArray l) => Some l | _ => None end) (Failed NoStates) in
  if (count states =? 0) || (100000 <? count states) then invalid InvalidLength else Ok states.

Definition replay_trace (path : string) (c : Coverage) : Coverage * IoResult (option Difference) :=
  match trace_states path with
  | Err e => (c, Err e)
  | Ok states => replay_states 0 None initial c states
  end.

(** ** Requests and answers *)

(** [Path::is_file]. *)
Context (is_file : string → bool).

Definition text_at (m : bmap json) (name : string) : option string :=
  match bt_get name m with Some v => as_str v | None => None end.

Fixpoint trace_paths (traces : list json) : IoResult (list string) :=
  match traces with
  | [] => Ok []
  | trace :: traces =>
      let? path := ok_or (as_str trace) (Failed (BadRequest "trace path")) in
      if negb (is_file path) then invalid (BadRequest "trace")
      else let? paths := trace_paths traces in Ok (path :: paths)
  end.

Definition validate_request (value : json) : IoResult (list string) :=
  let? request := object value "adapter request" in
  if negb (text_at request "protocol" == Some "fmctl.adapter.v1") || negb (text_at request "adapter" == Some "rust")
     || negb (text_at request "project" == Some "opto-sync-clients")
     || negb (text_at request "model" == Some "protocol-sync-scheduler-v1")
  then invalid (BadRequest "identity")
  else
    let? specification := ok_or (text_at request "specification") (Failed (BadRequest "specification")) in
    if negb (is_file specification) then invalid (BadRequest "specification")
    else
      let? traces := ok_or (match bt_get "traces" request with Some (JArray l) => Some l | _ => None end)
                       (Failed (BadRequest "traces")) in
      trace_paths traces.

(** The text of an error, and the crate's version. *)
Context (to_string : Issue → string).
Context (missing_message : list string → list string → string).
Context (version : string).

Record Progress := { coverage : Coverage; mismatches : list AdapterMismatch; passed : N }.

(** [None] is a panic. *)
Fixpoint replay_each (paths : list string) (p : Progress) : option Progress :=
  match paths with
  | [] => Some p
  | path :: paths =>
      match replay_trace path (coverage p) with
      | (c, Ok None) => replay_each paths {| coverage := c; mismatches := mismatches p; passed := passed p + 1 |}
      | (c, Ok (Some d)) =>
          replay_each paths
            {| coverage := c; passed := passed p;
               mismatches := mismatches p ++
                 [{| mm_trace := path; mm_step := Some (df_step d); mm_action := Some (df_action d);
                     mm_message := "production Rust scheduler/driver projection does not refine Quint";
                     mm_expected := df_expected d; mm_actual := df_actual d |}] |}
      | (c, Err (Failed e)) =>
          replay_each paths
            {| coverage := c; passed := passed p;
               mismatches := mismatches p ++
                 [{| mm_trace := path; mm_step := None; mm_action := None; mm_message := to_string e;
                     mm_expected := JObject []; mm_actual := JObject [] |}] |}
      | (_, Err Panicked) => None
      end
  end.

Definition sorted_strings (s : gset string) : json := strings (sort_by str_cmp (elements s)).

(** The suite as a whole must cover every action and scenario. *)
Definition require_coverage (paths : list string) (p : Progress) : Progress :=
  let missing := List.filter (λ a, negb (bool_decide (a ∈ actions_seen (coverage p)))) REQUIRED_ACTIONS in
  let missing_scenarios := List.filter (λ s, negb (bool_decide (s ∈ scenarios_seen (coverage p)))) REQUIRED_SCENARIOS in
  match missing, missing_scenarios with
  | [], [] => p
  | _, _ =>
      {| coverage := coverage p;
         mismatches := mismatches p ++
           [{| mm_trace := default "" (head paths); mm_step := None; mm_action := None;
               mm_message := missing_message missing missing_scenarios;
               mm_expected := JObject [("actions", strings REQUIRED_ACTIONS); ("scenarios", strings REQUIRED_SCENARIOS)];
               mm_actual := JObject [("actions", sorted_strings (actions_seen (coverage p)));
                                     ("scenarios", sorted_strings (scenarios_seen (coverage p)))] |}];
         passed := if passed p =? count paths then passed p - 1 else passed p |}
  end.

(** The paths are strings, and sorted as such.  Without a path the mismatch of
    [require_coverage] has no trace; the tool never asks for none. *)
Definition replay_paths (paths : list string) : option AdapterReplayResponse :=
  let paths := sort_by str_cmp paths in
  match replay_each paths {| coverage := {| actions_seen := ∅; scenarios_seen := ∅ |}; mismatches := []; passed := 0 |} with
  | None => None
  | Some p =>
      let p := require_coverage paths p in
      Some {| rr_protocol := "fmctl.adapter.v1";
              rr_success := count (mismatches p) =? 0;
              rr_traces_total := count paths;
              rr_traces_passed := passed p;
              rr_mismatches := mismatches p;
              rr_implementation :=
                {| im_language := "rust"; im_name := "opto-sync-client ProtocolSyncScheduler + ProtocolSyncDriver";
                   im_version := version |} |}
  end.
End Replay.
End SchedulerDriver.

(** ** Specification: encoded runs *)

Module Q := QuintSched.
Import SchedulerDriver.

Definition action_name (a : Q.Action) : string :=
  match a with
  | Q.Start => "start" | Q.Stop => "stop" | Q.Hint => "hint" | Q.GoOffline => "go_offline" | Q.GoOnline => "go_online"
  | Q.TimerFire => "timer_fire" | Q.TimerJoin => "timer_join" | Q.StaleTimerFire => "stale_timer_fire"
  | Q.PageMore => "page_more" | Q.BeginReset => "begin_reset" | Q.FinishReset => "finish_reset"
  | Q.CycleSuccess => "cycle_success" | Q.CycleSuccessMore => "cycle_success_more"
  | Q.CycleRetryableFailure => "cycle_retryable_failure" | Q.CyclePermanentFailure => "cycle_permanent_failure"
  | Q.MalformedResponse => "malformed_response" | Q.StaleCycleSuccess => "stale_cycle_success"
  | Q.StaleCycleFailure => "stale_cycle_failure" | Q.IdleAction => "idle"
  end.

(** The production state that a model state stands for. *)
Definition phase_of (p : Q.Phase) : Phase :=
  match p with
  | Q.Stopped => Stopped | Q.Idle => Idle | Q.Syncing => Syncing | Q.Offline => Offline | Q.Backoff => Backoff | Q.Error => Error
  end.

Definition reset_of (p : Q.ResetPhase) : ResetPhase :=
  match p with
  | Q.NoReset => NoReset | Q.SnapshotRequested => SnapshotRequested | Q.SnapshotInstalled => SnapshotInstalled
  end.

Definition concrete (s : Q.State) : SchedulerState :=
  {| phase := phase_of (Q.phase s); online := Q.online s; generation := Q.generation s;
     timer_pending := Q.timer_pending s; timer_generation := Q.timer_generation s;
     stale_timer_pending := Q.stale_timer_pending s; cycle_pending := Q.cycle_pending s;
     cycle_generation := Q.cycle_generation s; network_active := Q.network_active s; wake_pending := Q.wake_pending s;
     consecutive_failures := Q.consecutive_failures s; reset_phase := reset_of (Q.reset_phase s);
     pages_seen := Q.pages_seen s |}.

(** A raw state of a trace: the action, and fields that are read as the model state's. *)
Definition encodes_state (raw : json) (action : string) (s : Q.State) : Prop :=
  (∃ m, as_object raw = Some m ∧ bt_get ACTION_FIELD m = Some (JString action)) ∧
  model_projection raw = Ok (implementation_projection (concrete s)).

Definition encodes_run (states : list json) (t : list (Q.Action * Q.State)) : Prop :=
  match states with
  | [] => False
  | raw :: states => encodes_state raw "init" Q.init ∧ Forall2 (λ raw x, encodes_state raw (action_name x.1) x.2) states t
  end.

Definition records_print `{SerdeJson} : Prop :=
  ∀ n, 1 ≤ n ≤ 2 → ∃ text, to_text (numbered n) = Some text ∧ len text ≤ DEFAULT_MAX_QUEUED_PAYLOAD_BYTES.

(** ** Lemmas *)

Definition event_of (a : Q.Action) : Event :=
  match a with
  | Q.Start => Start | Q.Stop => Stop | Q.Hint => Hint | Q.GoOffline => GoOffline | Q.GoOnline => GoOnline
  | Q.TimerFire => TimerFire | Q.TimerJoin => TimerJoin | Q.StaleTimerFire => StaleTimerFire
  | Q.PageMore => PageMore | Q.BeginReset => BeginReset | Q.FinishReset => FinishReset
  | Q.CycleSuccess => CycleSuccess | Q.CycleSuccessMore => CycleSuccessMore
  | Q.CycleRetryableFailure => CycleRetryableFailure | Q.CyclePermanentFailure => CyclePermanentFailure
  | Q.MalformedResponse => MalformedResponse | Q.StaleCycleSuccess => StaleCycleSuccess
  | Q.StaleCycleFailure => StaleCycleFailure | Q.IdleAction => IdleEvent
  end.

Lemma scheduler_event_named a : event_for (action_name a) = Ok (event_of a).
Proof. by destruct a. Qed.

Lemma action_required a : one_of_actions (action_name a) = true.
Proof. by destruct a. Qed.

Lemma all_of_holds c n s : Q.all_of c n = Some s ↔ c = true ∧ s = n.
Proof. unfold Q.all_of. destruct c; naive_solver. Qed.

Lemma phase_eqb p q : (phase_of p == phase_of q) = (p == q).
Proof. by destruct p, q. Qed.

Lemma reset_eqb p q : (reset_of p == reset_of q) = (p == q).
Proof. by destruct p, q. Qed.

(** The production machine's guard of a running cycle is the model's. *)
Lemma current_concrete s : current_cycle_enabled (concrete s) = Q.current_cycle s.
Proof. unfold current_cycle_enabled, Q.current_cycle, concrete. cbn. by rewrite <- (phase_eqb (Q.phase s) Q.Syncing). Qed.

Lemma timer_concrete s : current_timer_enabled (concrete s)
  = negb (Q.phase s == Q.Stopped) && Q.online s && Q.timer_pending s && (Q.timer_generation s =? Q.generation s).
Proof. unfold current_timer_enabled, concrete. cbn. by rewrite <- (phase_eqb (Q.phase s) Q.Stopped). Qed.

Lemma small_generation g : g < Q.max_generation → checked_add_u64 g 1 = Some (g + 1).
Proof. unfold Q.max_generation, checked_add_u64, u64_max. intros Hg. by rewrite (proj2 (N.leb_le _ _)) by lia. Qed.

Lemma failures_bounded c : N.min (saturating_add_u8 c 1) MAX_CONSECUTIVE_FAILURES
  = if c <? Q.max_failures then c + 1 else Q.max_failures.
Proof. unfold saturating_add_u8, MAX_CONSECUTIVE_FAILURES, Q.max_failures, u8_max. destruct (N.ltb_spec c 31); lia. Qed.

(** Every step of the model is the step of the production machine. *)
Lemma step_concrete a s s' : Q.attempt a s = Some s' → enabled_next (event_of a) (concrete s) = Some (concrete s').
Proof.
  intros H.
  destruct a; cbn [Q.attempt event_of enabled_next] in *; [..|injection H as <-; done];
    unfold Q.start, Q.stop, Q.hint, Q.go_offline, Q.go_online, Q.timer_fire, Q.timer_join, Q.stale_timer_fire, Q.page_more,
      Q.begin_reset, Q.finish_reset, Q.cycle_success, Q.cycle_success_more, Q.cycle_retryable_failure,
      Q.cycle_permanent_failure, Q.malformed_response, Q.stale_cycle_success, Q.stale_cycle_failure in H;
    apply all_of_holds in H as [H ->].
  all: unfold on_start, on_stop, on_hint, on_go_offline, on_go_online, on_timer_fire, on_timer_join, on_stale_timer_fire,
      on_page_more, on_begin_reset, on_finish_reset, on_cycle_success, on_retryable_failure, on_permanent_failure, on_stale_cycle,
      settle_enabled, settle_success, MAX_PAGES_PER_REFINEMENT_TRACE, Q.max_pages in *; rewrite ?current_concrete, ?timer_concrete, ?failures_bounded.
  all: unfold concrete, Q.current_cycle in *; cbn [phase online generation timer_pending timer_generation stale_timer_pending
      cycle_pending cycle_generation network_active wake_pending consecutive_failures reset_phase pages_seen]; bsimp.
  all: try match goal with E : Q.phase ?x = _ |- _ => rewrite E end.
  all: repeat match goal with E : ?x = true |- _ => rewrite E | E : ?x = false |- _ => rewrite E end.
  all: repeat match goal with
       | E : Q.timer_generation _ = _ |- _ => rewrite E
       | E : Q.cycle_generation _ = _ |- _ => rewrite E
       | E : Q.cycle_generation _ ≠ _ |- _ => rewrite (proj2 (N.eqb_neq _ _) E)
       | E : Q.pages_seen _ < _ |- _ => rewrite (proj2 (N.leb_gt _ _) E)
       | E : Q.generation _ < _ |- _ => rewrite (small_generation _ E); clear E
       end; rewrite ?N.eqb_refl.
  all: cbn; repeat match goal with
            | |- context [Q.phase ?x] => destruct (Q.phase x); try congruence
            | |- context [Q.reset_phase ?x] => destruct (Q.reset_phase x); try congruence
            | |- context [Q.online ?x] => destruct (Q.online x)
            | |- context [Q.cycle_pending ?x] => destruct (Q.cycle_pending x)
            end; cbn; rewrite ?andb_false_r, ?andb_true_r, ?orb_false_r; try done.
Qed.

Lemma concrete_init : concrete Q.init = initial.
Proof. reflexivity. Qed.

Section Runs.
Context `{SerdeJson} (prints : records_print).

(** The queue of the scripted cycles, before and after its two records. *)
Definition record_mutation (rid : string) (n : N) : ProtocolMutation :=
  {| mutation_id := ""; operation := Upsert; table := "docs"; record_id := rid; payload := Some (numbered n);
     base_revision := None; resurrect := false; status := Pending |}.

Definition fresh_queue : ProtocolQueue :=
  {| client_id := "formal-rust"; next_mutation_id := 1; checkpoint := "0"; mutations := []; max_pending_mutations := 10000;
     max_queued_payload_bytes := DEFAULT_MAX_QUEUED_PAYLOAD_BYTES; consistency_policies := [] |}.

Definition one_queue : ProtocolQueue := (queue fresh_queue (record_mutation "one" 1) 0).1.
Definition docs_queue : ProtocolQueue := (queue one_queue (record_mutation "two" 2) 0).1.

Lemma upsert_numbered q rid n : max_queued_payload_bytes q = DEFAULT_MAX_QUEUED_PAYLOAD_BYTES → valid_record_id rid = true →
  1 ≤ n ≤ 2 → queue_upsert q "docs" rid (numbered n) None false = queue q (record_mutation rid n) 0.
Proof.
  intros Hmax Hrid Hn. destruct (prints n Hn) as (text & Ht & Hlen). unfold queue_upsert. rewrite Hrid.
  change (valid_scope_id "docs") with true. change (is_object (numbered n)) with true. cbn [negb orb]. rewrite Ht.
  unfold queue. rewrite Hmax, (proj2 (N.ltb_ge _ _) Hlen). done.
Qed.

Lemma records_queued : scenario_queue SuccessMore = Ok docs_queue.
Proof.
  unfold scenario_queue. assert (Protocol.new "formal-rust" = Ok fresh_queue) as -> by (vm_compute; reflexivity).
  cbn [of_queue map_err]. rewrite upsert_numbered by (reflexivity || lia).
  assert (queue fresh_queue (record_mutation "one" 1) 0 = (one_queue, Ok "1")) as -> by (vm_compute; reflexivity).
  cbn [of_queue map_err]. rewrite upsert_numbered by (reflexivity || lia).
  assert (queue one_queue (record_mutation "two" 2) 0 = (docs_queue, Ok "2")) as -> by (vm_compute; reflexivity).
  done.
Qed.

(** The scripted cycles end as expected. *)
Lemma driver_exercised scenario : exercise_driver scenario = Ok ().
Proof.
  destruct scenario; [|unfold exercise_driver; rewrite records_queued|..]; vm_compute; reflexivity.
Qed.

Lemma outcome_exercised action scheduler : exercise_outcome action scheduler = Ok ().
Proof. unfold exercise_outcome. destruct (scenario_for action scheduler); [apply driver_exercised|done]. Qed.

Lemma steps_replay t : ∀ states s step previous c, Q.run s t →
  Forall2 (λ raw x, encodes_state raw (action_name x.1) x.2) states t → inv (concrete s) →
  model_projection previous = Ok (implementation_projection (concrete s)) → step ≠ 0 →
  ∃ scenarios, replay_states step (Some previous) (concrete s) c states
  = ({| actions_seen := list_to_set (rev (List.map (λ x, action_name x.1) t)) ∪ actions_seen c; scenarios_seen := scenarios |}, Ok None).
Proof.
  induction t as [|[a s'] t IH]; intros states s step previous c Hrun Henc Hinv Hprev Hstep.
  { apply Forall2_nil_inv_r in Henc as ->. exists (scenarios_seen c). cbn. rewrite union_empty_l_L. by destruct c. }
  apply Forall2_cons_inv_r in Henc as (raw & rest & ((m & Hm & Ha) & Hproj) & Hrest & ->).
  inversion Hrun as [|? ? ? ? Hatt Hrun']; subst. cbn [fst snd] in *.
  pose proof (step_concrete _ _ _ Hatt) as Hen. cbn [replay_states]. unfold object at 1. rewrite Hm. cbn [ok_or].
  unfold field at 1. rewrite Ha. cbn [ok_or as_str]. rewrite action_required. cbn [negb]. unfold perform.
  rewrite (proj2 (N.eqb_neq _ _) Hstep). change (default JNull (Some previous)) with previous. rewrite Hprev, outcome_exercised, scheduler_event_named, (apply_inv _ _ Hinv), Hen.
  rewrite Hproj, bool_decide_eq_true_2 by done.
  match goal with |- context [replay_states _ _ _ ?c' _] =>
    destruct (IH rest s' (step + 1) raw c' Hrun' Hrest (step_inv _ _ _ Hinv Hen) Hproj ltac:(lia)) as [scenarios ->] end.
  exists scenarios. do 2 f_equal. cbn [actions_seen List.map rev]. rewrite list_to_set_app_L. cbn. set_solver.
Qed.

Lemma init_replays states t c : Q.run Q.init t → encodes_run states t →
  ∃ scenarios, replay_states 0 None initial c states
  = ({| actions_seen := list_to_set ("init" :: List.map (λ x, action_name x.1) t) ∪ actions_seen c; scenarios_seen := scenarios |}, Ok None).
Proof.
  intros Hrun Henc. destruct states as [|raw states]; [done|]. destruct Henc as (((m & Hm & Ha) & Hproj) & Hrest).
  cbn [replay_states]. unfold object at 1. rewrite Hm. cbn [ok_or]. unfold field at 1. rewrite Ha. cbn [ok_or as_str].
  change (negb (one_of_actions "init")) with false. unfold perform. cbn [N.eqb].
  rewrite (bool_decide_eq_true_2 ("init" = "init")) by done.
  rewrite Hproj, concrete_init, bool_decide_eq_true_2 by done. rewrite <- concrete_init.
  match goal with |- context [replay_states _ _ _ ?c' _] =>
    destruct (steps_replay t states Q.init (0 + 1) raw c' Hrun Hrest inv_initial Hproj ltac:(lia)) as [scenarios ->] end.
  exists scenarios. do 2 f_equal. cbn [actions_seen List.map list_to_set]. apply set_eq. intros x.
  rewrite !elem_of_union, !elem_of_list_to_set, <- In_elem, <- List.in_rev, In_elem. tauto.
Qed.
End Runs.

(** ** Properties *)

(** C15: the production scheduler refines the Quint model on every run: along any
    encoded run of the model from its initial state the driver, which performs
    each action on the scheduler and runs the sync driver where a cycle
    settles, accepts every event and finds the same projection at every state;
    it records exactly the actions of the trace. *)
Theorem every_scheduler_run_replays `{SerdeJson} (prints : records_print) (read_to_string : string → option string)
  (value_from_str : string → option json) (path text : string) (m : bmap json) (states : list json)
  (t : list (Q.Action * Q.State)) (c : Coverage)
  (readable : read_to_string path = Some text) (parses : value_from_str text = Some (JObject m))
  (trace : bt_get "states" m = Some (JArray states)) (short : count states ≤ 100000)
  (runs : Q.run Q.init t) (encoded : encodes_run states t) :
  ∃ scenarios, replay_trace read_to_string value_from_str path c
  = ({| actions_seen := list_to_set ("init" :: List.map (λ x, action_name x.1) t) ∪ actions_seen c;
        scenarios_seen := scenarios |}, Ok None).
Proof.
  unfold replay_trace, trace_states. rewrite readable. cbn [ok_or]. rewrite parses. cbn [ok_or object as_object]. rewrite trace. cbn [ok_or].
  assert ((count states =? 0) || (100000 <? count states) = false) as ->.
  { destruct states; [done|]. apply orb_false_iff. split; [apply N.eqb_neq; unfold count; simpl; lia|by apply N.ltb_ge]. }
  by apply init_replays.
Qed.

(** ** Witnesses: the format of a trace *)

Definition bigint (n : N) : json := JObject [("#bigint", JString (to_dec n))].
Definition itf_tag (tag : string) : json := JObject [("tag", JString tag); ("value", JObject [])].

Definition phase_tag (p : Q.Phase) : string :=
  match p with
  | Q.Stopped => "Stopped" | Q.Idle => "Idle" | Q.Syncing => "Syncing"
  | Q.Offline => "Offline" | Q.Backoff => "Backoff" | Q.Error => "Error"
  end.
Definition reset_tag (p : Q.ResetPhase) : string :=
  match p with
  | Q.NoReset => "NoReset" | Q.SnapshotRequested => "SnapshotRequested" | Q.SnapshotInstalled => "SnapshotInstalled"
  end.

(** A state as the traces write it, with the fields the driver reads. *)
Definition itf_fields (s : Q.State) : bmap json :=
  [("consecutive_failures", bigint (Q.consecutive_failures s)); ("cycle_pending", JBool (Q.cycle_pending s));
   ("network_active", JBool (Q.network_active s)); ("online", JBool (Q.online s));
   ("pages_seen", bigint (Q.pages_seen s));
   ("phase", itf_tag (phase_tag (Q.phase s))); ("reset_phase", itf_tag (reset_tag (Q.reset_phase s)));
   ("timer_pending", JBool (Q.timer_pending s)); ("wake_pending", JBool (Q.wake_pending s))].

Definition itf_state (action : string) (s : Q.State) : json :=
  JObject [(ACTION_FIELD, JString action); ("s", JObject (itf_fields s))].

Lemma state_encodes action s : Q.consecutive_failures s ≤ i64_max → Q.pages_seen s ≤ i64_max →
  encodes_state (itf_state action s) action s.
Proof.
  intros Hf Hp. split; [by eexists|].
  assert (∀ n name m, n ≤ i64_max → bt_get name m = Some (bigint n) → integer m name = Ok (Z.of_N n)) as Hint.
  { intros n name m Hn Hm. unfold integer, field. rewrite Hm. cbn [ok_or object as_object bigint].
    change (ok_or (parse_i64 (to_dec n)) (Failed (InvalidBigint name)) = Ok (Z.of_N n)).
    by rewrite parse_i64_canonical, decimal_of_to_dec, (proj2 (N.leb_le _ _) Hn) by apply canonical_to_dec. }
  assert (∀ n, of_i64 (Z.of_N n) = JNumber (NPosInt n)) as Hof.
  { intros n. unfold of_i64. rewrite (proj2 (Z.ltb_ge _ _)) by lia. by rewrite N2Z.id. }
  transitivity (let? phase := phase_text (phase_tag (Q.phase s)) in
                let? reset := reset_text (reset_tag (Q.reset_phase s)) in
                let? failures := integer (itf_fields s) "consecutive_failures" in
                let? pages := integer (itf_fields s) "pages_seen" in
                Ok (projection phase (Q.online s) (Q.timer_pending s) (Q.cycle_pending s) (Q.network_active s)
                      (Q.wake_pending s) (of_i64 failures) reset (of_i64 pages))); [reflexivity|].
  assert (∀ p, phase_text (phase_tag p) = Ok (match phase_of p with
    | Stopped => "stopped" | Idle => "idle" | Syncing => "syncing" | Offline => "offline" | Backoff => "backoff" | Error => "error"
    end)) as -> by (by intros []).
  assert (∀ p, reset_text (reset_tag p) = Ok (match reset_of p with
    | NoReset => "none" | SnapshotRequested => "requested" | SnapshotInstalled => "installed"
    end)) as -> by (by intros []).
  rewrite (Hint (Q.consecutive_failures s)) by done. rewrite (Hint (Q.pages_seen s)) by done. by rewrite !Hof.
Qed.

Lemma pages_step a s s' : Q.attempt a s = Some s' → Q.pages_seen s ≤ Q.max_pages → Q.pages_seen s' ≤ Q.max_pages.
Proof.
  intros H Hp. destruct a; cbn [Q.attempt] in H; [..|by injection H as <-].
  all: apply all_of_holds in H as [Hg ->]; cbn; bsimp; unfold Q.max_pages in *; lia.
Qed.

Lemma run_pages s t : Q.run s t → Q.pages_seen s ≤ Q.max_pages → Forall (λ x, Q.pages_seen x.2 ≤ Q.max_pages) t.
Proof. induction 1 as [|s a s' rest H _ IH]; intros Hs; constructor; [|apply IH]; by apply (pages_step _ _ _ H). Qed.

(** The states that the traces write are encodings of their run. *)
Definition written_states (t : list (Q.Action * Q.State)) : list json :=
  itf_state "init" Q.init :: List.map (λ x, itf_state (action_name x.1) x.2) t.

Lemma trace_encodes t : Q.run Q.init t → encodes_run (written_states t) t.
Proof.
  intros Hrun. split; [by apply state_encodes|].
  pose proof (Q.run_scheduler_safe _ _ Hrun Q.init_scheduler_safe) as Hsafe.
  assert (Q.pages_seen Q.init ≤ Q.max_pages) as Hp by done.
  apply (run_pages _ _ Hrun) in Hp. clear Hrun.
  induction t as [|x t IH]; constructor.
  - apply Forall_cons in Hsafe as [Hs _]. apply Forall_cons in Hp as [Hp _].
    pose proof (Q.failure_count_is_bounded _ Hs). unfold Q.max_failures, Q.max_pages in *.
    apply state_encodes; unfold i64_max; lia.
  - apply IH; [by apply Forall_cons in Hsafe as [_ ?]|by apply Forall_cons in Hp as [_ ?]].
Qed.

Definition demo_trace : json := JObject [("states", JArray (written_states Q.demo_run))].

Lemma demo_records_print : @records_print reference_codec.
Proof. intros n Hn. assert (n = 1 ∨ n = 2) as [-> | ->] by lia; (eexists; split; [reflexivity|vm_compute; congruence]). Qed.

(** The run of [Q.demo_moves], 29 events that settle cycles in every way. *)
Lemma every_scheduler_run_replays_witness :
  ∃ scenarios,
    replay_trace (H := reference_codec) (λ _, Some "") (λ _, Some demo_trace) "run.itf.json"
      {| actions_seen := ∅; scenarios_seen := ∅ |}
    = ({| actions_seen := list_to_set ("init" :: List.map (λ x, action_name x.1) Q.demo_run) ∪ ∅;
          scenarios_seen := scenarios |}, Ok None).
Proof.
  apply (every_scheduler_run_replays (H := reference_codec) demo_records_print (λ _, Some "") (λ _, Some demo_trace)
    "run.itf.json" "" [("states", JArray (written_states Q.demo_run))] (written_states Q.demo_run)); try reflexivity.
  - vm_compute. congruence.
  - apply Q.demo_run_valid.
  - apply trace_encodes, Q.demo_run_valid.
Defined.
