(* ===== verification/LifecycleReplay.v ===== *)
(** * LifecycleReplay: the conformance driver of the desktop lifecycle

    [src/clients/desktop-rust/examples/lifecycle_itf_replay.rs]: an adapter of the
    model-checking tool that drives the production lifecycle machine of
    [Lifecycle] along traces of the Quint model of [QuintLifecycle] and compares
    their projections.  File metadata, reading and the derived decoder are
    parameters.

    [every_lifecycle_run_replays]: the driver accepts the encoding of every run of
    the model.  [lifecycle_answers_are_accepted]: what it answers is accepted by
    the tool that asked, and success means that all traces replayed and covered
    the model. *)

From S2P Require Import Prelude Text Btree Json Path Manifest Workspace Plan Replay.
From S2P Require Import Lifecycle QuintLifecycle.

Module LifecycleDriver.

Definition MAX_TRACE_BYTES : N := 1048576.
Definition MAX_TRACE_STATES : N := 100000.

Definition REQUIRED_ACTIONS : list string :=
  ["init"; "idle"; "wake"; "join"; "begin_acquire"; "acquire_granted"; "acquire_deferred"; "cancel"; "cycle_settled";
   "release_settled"; "request_close"; "process_abort"].

Definition REQUIRED_SCENARIOS : list string :=
  ["close_during_acquire"; "close_while_running"; "wake_while_running"; "grant_after_close"; "defer_after_close";
   "release_after_close"; "process_abort_with_permit"].

(** Errors: a constructor per message. *)
Inductive Issue :=
| MissingField (name : string)
| PhaseNotAString
| UnknownPhase (tag : string)
| NotBoolean (name : string)
| Unreadable
| NotAFile
| TooManyBytes
| GrewBeyond
| NotATrace
| NoStates
| TooManyStates
| NoAction (step : N)
| UnknownAction (step : N) (action : string)
| FirstNotInit
| NoEvent (action : string)
| Refused (e : TransitionError)
| NoPaths
| MissingActions (missing : list string)
| MissingScenarios (missing : list string)
| BadRequest (what : string).

(** A failed assertion of the machine, or an error. *)
Inductive Failure := Panicked | Failed (e : Issue).

Definition AnyResult (A : Type) : Type := result A Failure.

Definition ensure (condition : bool) (e : Issue) : AnyResult unit := if condition then Ok () else Err (Failed e).

(** ** Projections *)

Record ItfState := { itf_action : string; itf_s : json }.

(** [Value::get] *)
Definition get (value : json) (name : string) : option json :=
  match value with JObject m => bt_get name m | _ => None end.

Definition field (value : json) (name : string) : AnyResult json :=
  ok_or (get value name) (Failed (MissingField name)).

(** The [json!] object of a projection, its keys in order. *)
Definition projection (phase : string) (wake_pending close_requested cancel_requested permit_held : bool) : json :=
  JObject [("cancelRequested", JBool cancel_requested); ("closeRequested", JBool close_requested);
           ("permitHeld", JBool permit_held); ("phase", JString phase); ("wakePending", JBool wake_pending)].

Definition boolean (state : ItfState) (name : string) : AnyResult bool :=
  let? v := field (itf_s state) name in ok_or (as_bool v) (Failed (NotBoolean name)).

Definition phase_text (tag : string) : AnyResult string :=
  if tag == "Idle" then Ok "idle"
  else if tag == "Acquiring" then Ok "acquiring"
  else if tag == "Running" then Ok "running"
  else if tag == "Releasing" then Ok "releasing"
  else if tag == "Closed" then Ok "closed"
  else Err (Failed (UnknownPhase tag)).

Definition model_projection (state : ItfState) : AnyResult json :=
  let? v := field (itf_s state) "phase" in
  let? t := field v "tag" in
  let? tag := ok_or (as_str t) (Failed PhaseNotAString) in
  let? phase := phase_text tag in
  let? wake := boolean state "wake_pending" in
  let? close := boolean state "close_requested" in
  let? cancel := boolean state "cancel_requested" in
  let? permit := boolean state "permit_held" in
  Ok (projection phase wake close cancel permit).

Definition implementation_projection (state : Snapshot) : json :=
  projection
    (match phase state with
     | Idle => "idle" | Acquiring => "acquiring" | Running => "running" | Releasing => "releasing" | Closed => "closed"
     end)
    (wake_pending state) (close_requested state) (cancel_requested state) (permit_held state).

Definition event_for (action : string) : option Event :=
  if action == "wake" then Some Wake
  else if action == "join" then Some Join
  else if action == "begin_acquire" then Some BeginAcquire
  else if action == "acquire_granted" then Some AcquireGranted
  else if action == "acquire_deferred" then Some AcquireDeferred
  else if action == "cancel" then Some Cancel
  else if action == "cycle_settled" then Some CycleSettled
  else if action == "release_settled" then Some ReleaseSettled
  else if action == "request_close" then Some Close
  else if action == "process_abort" then Some ProcessAbort
  else None.

Definition scenario_of (action : string) (previous : Snapshot) : option string :=
  if (action == "request_close") && (phase previous == Acquiring) then Some "close_during_acquire"
  else if (action == "request_close") && (phase previous == Running) then Some "close_while_running"
  else if (action == "wake") && (phase previous == Running) then Some "wake_while_running"
  else if (action == "acquire_granted") && close_requested previous then Some "grant_after_close"
  else if (action == "acquire_deferred") && close_requested previous then Some "defer_after_close"
  else if (action == "release_settled") && close_requested previous then Some "release_after_close"
  else if (action == "process_abort") && permit_held previous then Some "process_abort_with_permit"
  else None.

Definition record_scenario (action : string) (previous : Snapshot) (scenarios : gset string) : gset string :=
  match scenario_of action previous with Some s => {[s]} ∪ scenarios | None => scenarios end.

(** ** Replaying traces *)

Section Replay.
(** [fs::metadata], whether it is a file and its length; [fs::read]; the derived decoder. *)
Context (metadata : Path → option (bool * N)).
Context (read_file : Path → option (list ascii)).
Context (trace_from_slice : list ascii → option (list ItfState)).

Definition read_trace (path : Path) : AnyResult (list ItfState) :=
  let? m := ok_or (metadata path) (Failed Unreadable) in
  let? _ := ensure m.1 NotAFile in
  let? _ := ensure (m.2 <=? MAX_TRACE_BYTES) TooManyBytes in
  let? bytes := ok_or (read_file path) (Failed Unreadable) in
  let? _ := ensure (count bytes <=? MAX_TRACE_BYTES) GrewBeyond in
  ok_or (trace_from_slice bytes) (Failed NotATrace).

(** What the [&mut] sets of a suite hold; errors keep what was inserted before them. *)
Record Coverage := { coverage : gset string; scenarios : gset string }.

Definition saw_action (action : string) (c : Coverage) : Coverage :=
  {| coverage := {[action]} ∪ coverage c; scenarios := scenarios c |}.

Definition valid_action (step : N) (action : string) : AnyResult unit :=
  let? _ := ensure (negb (is_empty action)) (NoAction step) in
  ensure (existsb (λ a, a == action) REQUIRED_ACTIONS) (UnknownAction step action).

(** The action of a state, performed on the machine. *)
Definition perform (step : N) (action : string) (machine : Snapshot) (c : Coverage) : Coverage * AnyResult Snapshot :=
  if step =? 0 then (c, if action == "init" then Ok machine else Err (Failed FirstNotInit))
  else if action == "idle" then (c, Ok machine)
  else
    let c := {| coverage := coverage c; scenarios := record_scenario action machine (scenarios c) |} in
    (c, match event_for action with
        | None => Err (Failed (NoEvent action))
        | Some event =>
            match apply machine event with
            | None => Err Panicked
            | Some (machine, Ok _) => Ok machine
            | Some (_, Err e) => Err (Failed (Refused e))
            end
        end).

Fixpoint replay_states (path : Path) (step : N) (machine : Snapshot) (c : Coverage) (states : list ItfState)
    : Coverage * AnyResult (option AdapterMismatch) :=
  match states with
  | [] => (c, Ok None)
  | state :: states =>
      match valid_action step (itf_action state) with
      | Err e => (c, Err e)
      | Ok _ =>
          match perform step (itf_action state) machine (saw_action (itf_action state) c) with
          | (c, Err e) => (c, Err e)
          | (c, Ok machine) =>
              match model_projection state with
              | Err e => (c, Err e)
              | Ok expected =>
                  let actual := implementation_projection machine in
                  if actual == expected then replay_states path (step + 1) machine c states
                  else
                    (c, Ok (Some {| mm_trace := path; mm_step := Some step; mm_action := Some (itf_action state);
                                    mm_message := "production Rust lifecycle state does not refine Quint";
                                    mm_expected := expected; mm_actual := actual |}))
              end
          end
      end
  end.

Definition replay_trace (path : Path) (c : Coverage) : Coverage * AnyResult (option AdapterMismatch) :=
  match (let? states := read_trace path in
         let? _ := ensure (negb (count states =? 0)) NoStates in
         let? _ := ensure (count states <=? MAX_TRACE_STATES) TooManyStates in
         Ok states) with
  | Err e => (c, Err e)
  | Ok states => replay_states path 0 INITIAL c states
  end.

(** ** Requests and answers *)

(** The text of an error, and the crate's version. *)
Context (to_string : Issue → string).
Context (version : string).

Record Progress := { covered : Coverage; mismatches : list AdapterMismatch; passed : N }.

(** [None] is a panic. *)
Fixpoint replay_each (paths : list Path) (p : Progress) : option Progress :=
  match paths with
  | [] => Some p
  | path :: paths =>
      match replay_trace path (covered p) with
      | (c, Ok None) => replay_each paths {| covered := c; mismatches := mismatches p; passed := passed p + 1 |}
      | (c, Ok (Some mismatch)) =>
          replay_each paths {| covered := c; mismatches := mismatches p ++ [mismatch]; passed := passed p |}
      | (c, Err (Failed e)) =>
          replay_each paths
            {| covered := c; passed := passed p;
               mismatches := mismatches p ++
                 [{| mm_trace := path; mm_step := None; mm_action := None; mm_message := to_string e;
                     mm_expected := JObject []; mm_actual := JObject [] |}] |}
      | (_, Err Panicked) => None
      end
  end.

Definition strings (l : list string) : json := JArray (List.map JString l).

Definition sorted_strings (s : gset string) : json := strings (sort_by str_cmp (elements s)).

Definition missing_of (required : list string) (s : gset string) : list string :=
  List.filter (λ a, negb (bool_decide (a ∈ s))) required.

(** The suite as a whole must cover every action and scenario. *)
Definition require_coverage (paths : list Path) (required : list string) (issue : list string → Issue)
    (s : gset string) (p : Progress) : Progress :=
  match missing_of required s with
  | [] => p
  | missing =>
      {| covered := covered p;
         mismatches := mismatches p ++
           [{| mm_trace := default "" (head paths); mm_step := None; mm_action := None;
               mm_message := to_string (issue missing); mm_expected := strings required;
               mm_actual := sorted_strings s |}];
         passed := N.min (passed p) (count paths - 1) |}
  end.

Definition require_all (paths : list Path) (p : Progress) : Progress :=
  let p := require_coverage paths REQUIRED_ACTIONS MissingActions (coverage (covered p)) p in
  require_coverage paths REQUIRED_SCENARIOS MissingScenarios (scenarios (covered p)) p.

Definition response_of (paths : list Path) (p : Progress) : AdapterReplayResponse :=
  {| rr_protocol := "fmctl.adapter.v1";
     rr_success := count (mismatches p) =? 0;
     rr_traces_total := count paths;
     rr_traces_passed := passed p;
     rr_mismatches := mismatches p;
     rr_implementation :=
       {| im_language := "rust"; im_name := "opto-sync-desktop SyncLifecycleMachine"; im_version := version |} |}.

(** The outer [None] is a panic. *)
Definition replay_paths (paths : list Path) : option (AnyResult AdapterReplayResponse) :=
  match ensure (negb (count paths =? 0)) NoPaths with
  | Err e => Some (Err e)
  | Ok _ =>
      let paths := sort_paths paths in
      match replay_each paths {| covered := {| coverage := ∅; scenarios := ∅ |}; mismatches := []; passed := 0 |} with
      | None => None
      | Some p => Some (Ok (response_of paths (require_all paths p)))
      end
  end.

(** [Path::is_file] *)
Context (is_file : Path → bool).

Definition validate_request (request : ReplayRequest) : AnyResult unit :=
  let? _ := ensure (rq_protocol request == "fmctl.adapter.v1") (BadRequest "protocol") in
  let? _ := ensure (rq_adapter request == "rust") (BadRequest "adapter") in
  let? _ := ensure (rq_project request == "opto-sync-clients") (BadRequest "project") in
  let? _ := ensure (rq_model request == "mobile-desktop-lifecycle-v1") (BadRequest "model") in
  let? _ := ensure (is_file (rq_specification request)) (BadRequest "specification") in
  ensure (negb (count (rq_traces request) =? 0)) (BadRequest "traces").

(** [main] with a request on the standard input, after decoding it. *)
Definition answer (request : ReplayRequest) : option (AnyResult AdapterReplayResponse) :=
  match validate_request request with
  | Err e => Some (Err e)
  | Ok _ => replay_paths (rq_traces request)
  end.
End Replay.
End LifecycleDriver.

(** ** Specification: encoded runs *)

Import LifecycleDriver.

Definition action_name (a : Life.Action) : string :=
  match a with
  | Life.WakeAction => "wake" | Life.JoinAction => "join" | Life.BeginAcquire => "begin_acquire"
  | Life.AcquireGranted => "acquire_granted" | Life.AcquireDeferred => "acquire_deferred" | Life.CancelAction => "cancel"
  | Life.CycleSettled => "cycle_settled" | Life.ReleaseSettled => "release_settled" | Life.RequestClose => "request_close"
  | Life.ProcessAbort => "process_abort" | Life.IdleAction => "idle"
  end.

(** A state of a trace: the action, and fields that are read as the model state's. *)
Definition encodes_state (st : ItfState) (action : string) (s : Life.State) : Prop :=
  itf_action st = action ∧ model_projection st = Ok (implementation_projection (concrete s)).

Definition encodes_run (states : list ItfState) (t : list (Life.Action * Life.State)) : Prop :=
  match states with
  | [] => False
  | st :: states => encodes_state st "init" Life.init ∧ Forall2 (λ st x, encodes_state st (action_name x.1) x.2) states t
  end.

(** The scenarios of a run. *)
Fixpoint run_scenarios (s : Life.State) (t : list (Life.Action * Life.State)) (acc : gset string) : gset string :=
  match t with
  | [] => acc
  | (a, s') :: t => run_scenarios s' t (if a == Life.IdleAction then acc else record_scenario (action_name a) (concrete s) acc)
  end.

(** ** Lemmas: runs *)

Lemma event_named a : event_for (action_name a) = event_of a.
Proof. by destruct a. Qed.

Lemma action_valid step a : valid_action step (action_name a) = Ok ().
Proof. by destruct a. Qed.

Lemma idle_named a : (action_name a == "idle") = (a == Life.IdleAction).
Proof. by destruct a. Qed.

(** A step of the model is performed by the machine. *)
Lemma perform_ok step a s s' c : step ≠ 0 → Life.lifecycle_safety s = true → Life.attempt a s = Some s' →
  perform step (action_name a) (concrete s) c
  = ({| coverage := coverage c;
        scenarios := if a == Life.IdleAction then scenarios c else record_scenario (action_name a) (concrete s) (scenarios c) |},
     Ok (concrete s')).
Proof.
  intros Hstep Hs Ha. unfold perform. rewrite (proj2 (N.eqb_neq _ _) Hstep), idle_named, event_named.
  case_bool_decide as Hi; [subst a; by injection Ha as <-; destruct c|].
  destruct (event_of a) as [e|] eqn:E; [|by destruct a]. by rewrite (apply_concrete a e s E Hs), Ha.
Qed.

Lemma run_states_replay path t : ∀ states s step c, Life.run s t →
  Forall2 (λ st x, encodes_state st (action_name x.1) x.2) states t → Life.lifecycle_safety s = true → step ≠ 0 →
  replay_states path step (concrete s) c states
  = ({| coverage := list_to_set (List.map itf_action states) ∪ coverage c;
        scenarios := run_scenarios s t (scenarios c) |}, Ok None).
Proof.
  induction t as [|[a s'] t IH]; intros states s step c Hrun Henc Hs Hstep.
  { apply Forall2_nil_inv_r in Henc as ->. cbn. rewrite union_empty_l_L. by destruct c. }
  apply Forall2_cons_inv_r in Henc as (st & rest & [Hname Hproj] & Hrest & ->). cbn [fst snd] in *.
  inversion Hrun as [|? ? ? ? Ha Hrun']; subst. cbn [replay_states]. rewrite Hname, action_valid.
  rewrite (perform_ok step a s s') by done. rewrite Hproj, bool_decide_eq_true_2 by done.
  rewrite (IH rest s' (step + 1)) by (done || lia || (apply (life_step_safe s); [done|by exists a])).
  do 2 f_equal. cbn [saw_action coverage scenarios List.map]. rewrite Hname. cbn. set_solver.
Qed.

(** ** Lemmas: answers *)

Lemma not_blank s : is_empty (trim s) = false → ¬ blank s.
Proof. apply is_empty_false. Qed.

(** A mismatch that the tool accepts. *)
Definition acceptable (paths : list Path) (m : AdapterMismatch) : Prop :=
  mm_trace m ∈ paths ∧ ¬ blank (mm_message m) ∧ ∀ action, mm_action m = Some action → ¬ blank action.

Lemma valid_action_not_blank step action : valid_action step action = Ok () → ¬ blank action.
Proof.
  unfold valid_action, ensure. destruct (negb (is_empty action)); [|done]. destruct (existsb _ _) eqn:E; [|done]. intros _.
  assert (forallb (λ a, negb (is_empty (trim a))) REQUIRED_ACTIONS = true) as H by (vm_compute; reflexivity).
  rewrite forallb_forall in H. apply existsb_exists in E as (x & Hx & ->%bool_decide_eq_true). specialize (H action Hx).
  apply negb_true_iff in H. unfold blank. by apply is_empty_false.
Qed.

Lemma mismatch_acceptable path paths states : ∀ step machine c c' m,
  replay_states path step machine c states = (c', Ok (Some m)) → path ∈ paths → acceptable paths m.
Proof.
  induction states as [|st states IH]; intros step machine c c' m; cbn [replay_states]; [done|].
  destruct (valid_action step (itf_action st)) as [[]|] eqn:Ev; [|done].
  destruct (perform _ _ _ _) as [c1 [machine1|]]; [|done]. destruct (model_projection st) as [expected|]; [|done].
  case_bool_decide; [by apply IH|]. intros [= _ <-] Hin. split_and!; [done|apply not_blank; vm_compute; reflexivity|].
  intros action [= <-]. by eapply valid_action_not_blank.
Qed.

Lemma replay_each_answers metadata read_file from_slice to_string (says : ∀ e, ¬ blank (to_string e)) paths all :
  ∀ p p', replay_each metadata read_file from_slice to_string paths p = Some p' → (∀ x, x ∈ paths → x ∈ all) →
  ∃ more, mismatches p' = mismatches p ++ more ∧ Forall (acceptable all) more ∧
    passed p' + count more = passed p + count paths ∧
    (more = [] → ∀ x, x ∈ paths → ∃ c c', replay_trace metadata read_file from_slice x c = (c', Ok None)).
Proof.
  unfold count. induction paths as [|path paths IH]; intros p p' Hp Hin; cbn [replay_each] in Hp.
  { injection Hp as <-. exists []. rewrite app_nil_r. split_and!; [done..|]. intros _ x. by rewrite elem_of_nil. }
  destruct (replay_trace _ _ _ path (covered p)) as [c [[m|]|[|e]]] eqn:E; [| |done|].
  - apply IH in Hp as (more & H1 & H2 & H3 & _); [|set_solver]. cbn in *. eexists. split; [by rewrite H1, <- app_assoc|].
    split_and!; [|simpl; lia|done]. constructor; [|done]. unfold replay_trace in E. destruct (let? _ := _ in _) as [states|]; [|done].
    eapply mismatch_acceptable; [exact E|set_solver].
  - apply IH in Hp as (more & H1 & H2 & H3 & H4); [|set_solver]. exists more. cbn in *. split_and!; [done|done|lia|].
    intros Hm x [->|Hx]%elem_of_cons; [by exists (covered p), c|by apply H4].
  - apply IH in Hp as (more & H1 & H2 & H3 & _); [|set_solver]. cbn in *. eexists. split; [by rewrite H1, <- app_assoc|].
    split_and!; [|simpl; lia|done]. constructor; [|done]. split_and!; [set_solver|apply says|done].
Qed.

Lemma missing_none required s : missing_of required s = [] → ∀ a, a ∈ required → a ∈ s.
Proof.
  intros H a Ha. destruct (decide (a ∈ s)) as [?|Hno]; [done|]. exfalso.
  assert (a ∈ missing_of required s) as Hm.
  { apply In_elem, List.filter_In. split; [by apply In_elem|]. by rewrite bool_decide_eq_false_2. }
  rewrite H in Hm. by apply not_elem_of_nil in Hm.
Qed.

(** What a whole answer keeps: its mismatches can be accepted, and it counts
    every path as passed exactly if there are none. *)
Record answer_ok (paths : list Path) (p : Progress) : Prop := {
  ok_mismatches : Forall (acceptable paths) (mismatches p);
  ok_count : if count (mismatches p) =? 0 then passed p = count paths else passed p < count paths
}.

Lemma counted_ok paths p more : Forall (acceptable paths) more → mismatches p = more →
  passed p + count more = count paths → answer_ok paths p.
Proof.
  intros H <- Hc. constructor; [done|]. unfold count in *. destruct (N.eqb_spec (N.of_nat (length (mismatches p))) 0); lia.
Qed.

Lemma require_coverage_ok to_string paths required issue s p : (∀ e, ¬ blank (to_string e)) → paths ≠ [] →
  answer_ok paths p → answer_ok paths (require_coverage to_string paths required issue s p).
Proof.
  intros says Hne [Hm Hc]. unfold require_coverage. destruct (missing_of required s) as [|a missing]; [done|].
  destruct paths as [|path paths]; [done|]. constructor; cbn [mismatches passed].
  - apply Forall_app. split; [done|]. constructor; [|done]. split_and!; [apply elem_of_cons; by left|apply says|done].
  - unfold count in *. rewrite (proj2 (N.eqb_neq _ _)) by (rewrite length_app; simpl; lia). simpl in *.
    destruct (N.of_nat (length (mismatches p)) =? 0); lia.
Qed.

Lemma require_coverage_complete to_string paths required issue s p :
  mismatches (require_coverage to_string paths required issue s p) = [] →
  require_coverage to_string paths required issue s p = p ∧ ∀ a, a ∈ required → a ∈ s.
Proof.
  unfold require_coverage. destruct (missing_of required s) as [|x missing] eqn:E; [|cbn; by intros []%app_eq_nil].
  intros _. split; [done|]. by apply missing_none.
Qed.

Lemma require_all_ok to_string paths p : (∀ e, ¬ blank (to_string e)) → paths ≠ [] →
  answer_ok paths p → answer_ok paths (require_all to_string paths p).
Proof. intros says Hne Hp. by apply require_coverage_ok, require_coverage_ok. Qed.

Lemma require_all_complete to_string paths p : mismatches (require_all to_string paths p) = [] → mismatches p = [].
Proof.
  unfold require_all. intros H. destruct (require_coverage_complete _ _ _ _ _ _ H) as [E _]. rewrite E in H.
  destruct (require_coverage_complete _ _ _ _ _ _ H) as [E' _]. by rewrite E' in H.
Qed.

(** The answer about paths that were all counted is consistent with the request. *)
Lemma response_consistent version request p : ¬ blank version → rq_adapter request = "rust" →
  count (rq_traces request) ≤ u64_max → rq_traces request ≠ [] → answer_ok (sort_paths (rq_traces request)) p →
  consistent (response_of version (sort_paths (rq_traces request)) p) request.
Proof.
  intros versioned Hrust bounded Hne [Hm Hc]. pose proof (sort_paths_perm (rq_traces request)) as Hperm.
  assert (count (sort_paths (rq_traces request)) = count (rq_traces request)) as Hcount by (unfold count; by rewrite Hperm).
  constructor; cbn [response_of rr_protocol rr_success rr_traces_total rr_traces_passed rr_mismatches rr_implementation im_language
                    im_name im_version].
  - reflexivity.
  - rewrite Hrust. split; [reflexivity|apply not_blank; vm_compute; reflexivity].
  - split; [apply not_blank; vm_compute; reflexivity|exact versioned].
  - rewrite Hcount. destruct (rq_traces request); [done|]. unfold count in *. split; [done|]. simpl in *. lia.
  - unfold count in *. destruct (N.eqb_spec (N.of_nat (length (mismatches p))) 0) as [Hz|Hz].
    + split; [done|]. by destruct (mismatches p).
    + split; [done|]. intros E. by rewrite E in Hz.
  - eapply Forall_impl; [exact Hm|]. intros m (Hin & Hmsg & Hact). split; [|by split].
    exists (mm_trace m). split; [by rewrite <- Hperm|done].
Qed.

(** ** Properties *)

(** The production lifecycle machine refines the Quint model on every run: along
    any encoded run of the model from its initial state the driver accepts every
    event, finds the same projection at every state, and records exactly the
    actions of the trace and the scenarios the run goes through. *)
Theorem every_lifecycle_run_replays (metadata : Path → option (bool * N)) (read_file : Path → option (list ascii))
  (trace_from_slice : list ascii → option (list ItfState)) (path : Path) (size : N) (bytes : list ascii)
  (states : list ItfState) (t : list (Life.Action * Life.State)) (c : Coverage)
  (regular : metadata path = Some (true, size)) (small : size ≤ MAX_TRACE_BYTES)
  (readable : read_file path = Some bytes) (whole : count bytes ≤ MAX_TRACE_BYTES)
  (parses : trace_from_slice bytes = Some states) (short : count states ≤ MAX_TRACE_STATES)
  (runs : Life.run Life.init t) (encoded : encodes_run states t) :
  replay_trace metadata read_file trace_from_slice path c
  = ({| coverage := list_to_set (List.map itf_action states) ∪ coverage c;
        scenarios := run_scenarios Life.init t (scenarios c) |}, Ok None).
Proof.
  unfold replay_trace, read_trace. rewrite regular. cbn [ok_or fst snd]. unfold ensure.
  rewrite (proj2 (N.leb_le _ _) small), readable. cbn [ok_or]. rewrite (proj2 (N.leb_le _ _) whole), parses. cbn [ok_or].
  rewrite (proj2 (N.leb_le _ _) short). destruct states as [|st states]; [done|]. destruct encoded as [[Hname Hproj] Hrest].
  assert ((count (st :: states) =? 0) = false) as -> by (apply N.eqb_neq; unfold count; simpl; lia). cbn [negb replay_states].
  rewrite Hname. change (valid_action 0 "init") with (@Ok unit Failure ()). cbn iota.
  change (perform 0 "init" INITIAL (saw_action "init" c)) with (saw_action "init" c, @Ok Snapshot Failure (concrete Life.init)). cbn iota.
  rewrite Hproj, bool_decide_eq_true_2 by done. rewrite (run_states_replay path t states Life.init) by done.
  do 2 f_equal. cbn [saw_action coverage scenarios List.map]. rewrite Hname. cbn. set_solver.
Qed.

(** The composition with the tool that asks: whatever the traces contain, the
    driver's answer to a request is accepted by the tool's parser; it claims
    success only if every requested trace replayed without a difference. *)
Theorem lifecycle_answers_are_accepted (metadata : Path → option (bool * N)) (read_file : Path → option (list ascii))
  (trace_from_slice : list ascii → option (list ItfState)) (to_string : Issue → string) (version : string)
  (is_file : Path → bool) (from_str : string → option AdapterReplayResponse) (request : ReplayRequest)
  (response : AdapterReplayResponse) (text : string)
  (says : ∀ e, ¬ blank (to_string e)) (versioned : ¬ blank version) (bounded : count (rq_traces request) ≤ u64_max)
  (answered : answer metadata read_file trace_from_slice to_string version is_file request = Some (Ok response))
  (written : ¬ blank text) (decoded : from_str (trim text) = Some response) :
  parse_replay_response from_str text request = Ok response ∧
  (rr_success response = true → ∀ path, path ∈ rq_traces request →
   ∃ c c', replay_trace metadata read_file trace_from_slice path c = (c', Ok None)).
Proof.
  rewrite parse_ok. unfold answer in answered. destruct (validate_request is_file request) as [[]|] eqn:Ev; [|done].
  assert (rq_adapter request = "rust") as Hrust.
  { unfold validate_request, ensure in Ev. destruct (rq_protocol request == _); [|done].
    by destruct (bool_decide_reflect (rq_adapter request = "rust")). }
  unfold replay_paths in answered. destruct (count (rq_traces request) =? 0) eqn:E0; [done|]. cbn [negb ensure] in answered.
  apply N.eqb_neq in E0. assert (rq_traces request ≠ []) as Hne by (intros E; by rewrite E in E0).
  assert (sort_paths (rq_traces request) ≠ []) as Hne' by
    (intros E; apply Hne, Permutation_nil_r; by rewrite <- E, sort_paths_perm).
  destruct (replay_each _ _ _ _ _ _) as [p|] eqn:Ep; [|done]. apply (f_equal (λ x, default (Err Panicked) x)) in answered.
  cbn [default from_option id] in answered. injection answered as <-.
  apply (replay_each_answers _ _ _ _ says _ (sort_paths (rq_traces request))) in Ep as (more & H1 & H2 & H3 & H4); [|done].
  cbn [mismatches passed app] in H1, H3.
  assert (answer_ok (sort_paths (rq_traces request)) p) as Hok by (apply (counted_ok _ p more); [done|by rewrite H1|lia]).
  split; [split; [done|split; [done|]]|].
  - apply response_consistent; [done..|]. by apply require_all_ok.
  - cbn [response_of rr_success]. intros Hz%N.eqb_eq path Hin. apply H4; [|by rewrite sort_paths_perm].
    rewrite <- H1. apply (require_all_complete to_string (sort_paths (rq_traces request))).
    apply length_zero_iff_nil. unfold count in Hz. lia.
Qed.

(** ** Witnesses *)

Definition itf_tag (tag : string) : json := JObject [("tag", JString tag); ("value", JObject [])].

(** A state as the traces write it, with the fields the driver reads. *)
Definition itf_state (action : string) (s : Life.State) : ItfState :=
  {| itf_action := action;
     itf_s := JObject
       [("cancel_requested", JBool (Life.cancel_requested s)); ("close_requested", JBool (Life.close_requested s));
        ("permit_held", JBool (Life.permit_held s));
        ("phase", itf_tag (match Life.phase s with
                           | Life.Idle => "Idle" | Life.Acquiring => "Acquiring" | Life.Running => "Running"
                           | Life.Releasing => "Releasing" | Life.Closed => "Closed"
                           end));
        ("wake_pending", JBool (Life.wake_pending s))] |}.

Lemma written_encodes action s : encodes_state (itf_state action s) action s.
Proof. split; [done|]. destruct s as [p w c k h s1 s2 s3]. by destruct p, w, c, k, h. Qed.

Definition written_run (t : list (Life.Action * Life.State)) : list ItfState :=
  itf_state "init" Life.init :: List.map (λ x, itf_state (action_name x.1) x.2) t.

Lemma written_run_encodes t : encodes_run (written_run t) t.
Proof. split; [apply written_encodes|]. induction t; constructor; [apply written_encodes|done]. Qed.

(** The run of [demo_life_moves], which takes every action of the model. *)
Lemma every_lifecycle_run_replays_witness :
  replay_trace (λ _, Some (true, 2)) (λ _, Some []) (λ _, Some (written_run demo_life_run)) "run.itf.json"
    {| coverage := ∅; scenarios := ∅ |}
  = ({| coverage := list_to_set REQUIRED_ACTIONS;
        scenarios := {["close_during_acquire"; "grant_after_close"; "process_abort_with_permit"; "release_after_close";
                       "wake_while_running"]} |}, Ok None).
Proof.
  rewrite (every_lifecycle_run_replays (λ _, Some (true, 2)) (λ _, Some []) (λ _, Some (written_run demo_life_run)) "run.itf.json"
    2 [] (written_run demo_life_run) demo_life_run {| coverage := ∅; scenarios := ∅ |} eq_refl
    ltac:(vm_compute; congruence) eq_refl ltac:(vm_compute; congruence) eq_refl ltac:(vm_compute; congruence)
    (proj1 demo_life_run_valid) (written_run_encodes _)).
  assert (∀ x y : gset string, bool_decide (x = y) = true → x = y) as H by (intros x y; apply bool_decide_eq_true).
  do 2 f_equal; apply H; vm_compute; reflexivity.
Defined.

Definition demo_request : ReplayRequest :=
  {| rq_protocol := "fmctl.adapter.v1"; rq_project := "opto-sync-clients"; rq_model := "mobile-desktop-lifecycle-v1";
     rq_adapter := "rust"; rq_specification := "formal/mobile_desktop_lifecycle.qnt"; rq_traces := ["run.itf.json"] |}.

Abbreviation demo_answer := (answer (λ _, Some (true, 2)) (λ _, Some []) (λ _, Some (written_run demo_life_run))
  (λ _, "replay failed") "0.0.0" (λ _, true) demo_request).

(** The one trace replays, but does not go through every scenario. *)
Lemma lifecycle_answers_are_accepted_witness :
  ∃ response, demo_answer = Some (Ok response) ∧ rr_success response = false ∧
    parse_replay_response (λ _, Some response) "{}" demo_request = Ok response.
Proof.
  assert (match demo_answer with Some (Ok r) => negb (rr_success r) | _ => false end = true) as Hv by (vm_compute; reflexivity).
  destruct demo_answer as [[response|]|] eqn:E; [|discriminate Hv|discriminate Hv]. apply negb_true_iff in Hv.
  exists response. split; [reflexivity|]. split; [exact Hv|].
  refine (proj1 (lifecycle_answers_are_accepted (λ _, Some (true, 2)) (λ _, Some []) (λ _, Some (written_run demo_life_run))
    (λ _, "replay failed") "0.0.0" (λ _, true) (λ _, Some response) demo_request response "{}" _ _ _ _ _ _));
    [intros _; apply not_blank; vm_compute; reflexivity|apply not_blank; vm_compute; reflexivity|vm_compute; congruence
    |exact E|apply not_blank; vm_compute; reflexivity|reflexivity].
Defined.
