(* ===== verification/Capture.v ===== *)
(** * Capture: the shared budget of captured output

    [src/tools/fmctl/src/runner.rs]: the standard output and the standard error of
    a command are read by two threads, which reserve the bytes they keep from one
    atomic counter ([reserve_output_bytes], a compare-and-swap loop) and drain the
    rest ([capture_stream]).

    The model is a transition system of any number of readers.  A relaxed load,
    or a failed exchange, may observe any value the counter has had; as the
    counter only grows, this is any value up to the present one.  An exchange may
    fail spuriously.  In every interleaving the readers keep at most the limit
    together, each keeps a prefix of its stream, nothing is dropped while there is
    room, and the loop always has a next step ([capture_shares_limit]). *)

From S2P Require Import Prelude Text.

(** ** State *)

Inductive Pc :=
| Reading
| Loading (chunk : list ascii)                  (** before the first load *)
| Swapping (chunk : list ascii) (current : N)   (** before the exchange *)
| Finished
| Failed.

Record Worker := {
  pc : Pc;
  source : list (list ascii);   (** what the following reads return *)
  kept : list ascii;
  truncated : bool
}.

Record State := { captured_bytes : N; workers : list Worker }.

Definition set_pc (pc' : Pc) (w : Worker) : Worker :=
  {| pc := pc'; source := source w; kept := kept w; truncated := truncated w |}.

(** ** Operations *)

(** Without contention: the granted bytes and the new counter. *)
Definition reserve_output_bytes (counter limit requested : N) : N * N :=
  if limit <=? counter then (0, counter)
  else let granted := N.min requested (limit - counter) in (granted, counter + granted).

Section Steps.
Context (limit : N).

(** The loop body of [capture_stream] after a reservation. *)
Definition reserved (chunk : list ascii) (n : N) (w : Worker) : Worker :=
  {| pc := Reading; source := source w; kept := kept w ++ take (N.to_nat n) chunk;
     truncated := truncated w || (n <? N.of_nat (length chunk)) |}.

(** The head of the compare-and-swap loop. *)
Definition loop_head (chunk : list ascii) (current : N) (w : Worker) : Worker :=
  if limit <=? current then reserved chunk 0 w else set_pc (Swapping chunk current) w.

Inductive Event :=
| Read (i : nat)
| ReadError (i : nat)
| Load (i : nat) (observed : N)
| Swap (i : nat)                     (** the exchange succeeds *)
| SwapFails (i : nat) (observed : N).

Definition with_worker (i : nat) (s : State) (f : Worker → option (N * Worker)) : option State :=
  match workers s !! i with
  | Some w =>
      match f w with
      | Some (counter, w) => Some {| captured_bytes := counter; workers := <[i := w]> (workers s) |}
      | None => None
      end
  | None => None
  end.

Definition step (s : State) (e : Event) : option State :=
  let counter := captured_bytes s in
  match e with
  | Read i => with_worker i s (λ w,
      match pc w, source w with
      | Reading, [] | Reading, [] :: _ => Some (counter, set_pc Finished w)
      | Reading, chunk :: rest =>
          Some (counter, {| pc := Loading chunk; source := rest; kept := kept w; truncated := truncated w |})
      | _, _ => None
      end)
  | ReadError i => with_worker i s (λ w,
      match pc w with Reading => Some (counter, set_pc Failed w) | _ => None end)
  | Load i observed => with_worker i s (λ w,
      match pc w with
      | Loading chunk => if observed <=? counter then Some (counter, loop_head chunk observed w) else None
      | _ => None
      end)
  | Swap i => with_worker i s (λ w,
      match pc w with
      | Swapping chunk current =>
          if current =? counter then
            let granted := N.min (N.of_nat (length chunk)) (limit - current) in
            Some (current + granted, reserved chunk granted w)
          else None
      | _ => None
      end)
  | SwapFails i observed => with_worker i s (λ w,
      match pc w with
      | Swapping chunk current => if observed <=? counter then Some (counter, loop_head chunk observed w) else None
      | _ => None
      end)
  end.

Fixpoint run (s : State) (es : list Event) : option State :=
  match es with
  | [] => Some s
  | e :: es => match step s e with Some s => run s es | None => None end
  end.
End Steps.

Definition start (inputs : list (list (list ascii))) : State :=
  {| captured_bytes := 0;
     workers := List.map (λ chunks, {| pc := Reading; source := chunks; kept := []; truncated := false |}) inputs |}.

(** ** Specification *)

(** What a worker has in hand. *)
Definition in_hand (w : Worker) : list ascii :=
  match pc w with Loading chunk | Swapping chunk _ => chunk | _ => [] end.

(** [w] reads the stream [input]: it has kept a prefix, lost bytes only when it
    says so, and has the rest to come. *)
Definition reads (input : list ascii) (w : Worker) : Prop :=
  ∃ lost, input = kept w ++ lost ++ in_hand w ++ concat (source w) ∧
    (truncated w = false ↔ lost = []).

Definition total (l : list Worker) : N := fold_right (λ w n, N.of_nat (length (kept w)) + n) 0 l.

Record capturing (limit : N) (inputs : list (list (list ascii))) (s : State) : Prop := {
  shared : total (workers s) = captured_bytes s;
  within : captured_bytes s ≤ limit;
  observed_below : ∀ w, w ∈ workers s → match pc w with Swapping _ current => current < limit | _ => True end;
  full_when_truncated : ∀ w, w ∈ workers s → truncated w = true → captured_bytes s = limit;
  streams : Forall2 (λ chunks w, reads (concat chunks) w) inputs (workers s);
  chunks_left : ∀ w, w ∈ workers s → Forall (λ c, c ≠ []) (source w);
  finished_empty : ∀ w, w ∈ workers s → pc w = Finished → source w = []
}.

(** ** Lemmas *)

Lemma total_insert l i w w' : l !! i = Some w →
  total (<[i := w']> l) + N.of_nat (length (kept w)) = total l + N.of_nat (length (kept w')).
Proof.
  revert i. induction l as [|v l IH]; intros [|i]; simpl; try done.
  - intros [= ->]. lia.
  - intros H%IH. lia.
Qed.

Lemma elem_insert {A} (l : list A) i x y : y ∈ <[i := x]> l → y = x ∨ y ∈ l.
Proof.
  revert i. induction l as [|z l IH]; intros [|i]; simpl; rewrite ?elem_of_cons; try tauto.
  intros [?|?%IH]; tauto.
Qed.

Section Invariant.
Context (limit : N) (inputs : list (list (list ascii))).

(** One worker moves: what it has to preserve. *)
Lemma capturing_move s i w counter w' : capturing limit inputs s → workers s !! i = Some w →
  captured_bytes s ≤ counter → counter ≤ limit →
  counter + N.of_nat (length (kept w)) = captured_bytes s + N.of_nat (length (kept w')) →
  match pc w' with Swapping _ current => current < limit | _ => True end →
  (truncated w' = true → counter = limit) →
  (∀ input, reads input w → reads input w') →
  Forall (λ c, c ≠ []) (source w') → (pc w' = Finished → source w' = []) →
  capturing limit inputs {| captured_bytes := counter; workers := <[i := w']> (workers s) |}.
Proof.
  intros [Hs Hw Ho Hf Hr Hc He] Hi Hle Hlim Hsum Hp Ht Hreads Hchunks Hfin. split; simpl.
  - pose proof (total_insert (workers s) i w w' Hi). lia.
  - done.
  - by intros v [-> |Hv]%elem_insert; [|apply Ho].
  - intros v [-> |Hv]%elem_insert Hv'; [by apply Ht|]. pose proof (Hf v Hv Hv'). lia.
  - destruct (Forall2_lookup_r _ _ _ _ _ Hr Hi) as (chunks & Hi' & Hri).
    rewrite <- (list_insert_id inputs i chunks Hi'). apply Forall2_insert; [done|by apply Hreads].
  - by intros v [-> |Hv]%elem_insert; [|apply Hc].
  - by intros v [-> |Hv]%elem_insert; [|apply He].
Qed.

(** Bytes in hand that are kept or lost. *)
Lemma reads_reserved input w chunk n : in_hand w = chunk → n ≤ N.of_nat (length chunk) →
  (truncated w = true → n = 0) →
  reads input w → reads input (reserved chunk n w).
Proof.
  intros Hh Hn Ht (lost & -> & Hl). rewrite Hh. unfold reads, reserved, in_hand. cbn.
  destruct (truncated w) eqn:Et; cbn.
  - rewrite (Ht eq_refl). cbn. exists (lost ++ chunk). rewrite app_nil_r, <- !app_assoc. split; [done|].
    rewrite app_nil. split; [done|]. intros [H _]. by apply Hl in H.
  - rewrite (proj1 Hl eq_refl). exists (drop (N.to_nat n) chunk). cbn. rewrite <- !app_assoc. split.
    + by rewrite (app_assoc (take _ _)), take_drop.
    + rewrite N.ltb_ge. split; [intros ?; apply drop_ge; lia|]. intros H%(f_equal length).
      rewrite length_drop in H. simpl in H. lia.
Qed.

Lemma reads_pc input w pc' : (match pc' with Loading chunk | Swapping chunk _ => chunk | _ => [] end) = in_hand w →
  reads input w → reads input (set_pc pc' w).
Proof. intros H (lost & -> & Hl). exists lost. unfold in_hand at 2. cbn. by rewrite H. Qed.

Lemma capturing_reserved s i w chunk n : capturing limit inputs s → workers s !! i = Some w → in_hand w = chunk →
  n = N.min (N.of_nat (length chunk)) (limit - captured_bytes s) →
  capturing limit inputs {| captured_bytes := captured_bytes s + n; workers := <[i := reserved chunk n w]> (workers s) |}.
Proof.
  intros Hs Hi Hh ->. pose proof (within _ _ _ Hs) as Hw. assert (w ∈ workers s) as Hin by by eapply list_elem_of_lookup_2.
  assert (truncated w = true → captured_bytes s = limit) as Hfull by exact (full_when_truncated _ _ _ Hs w Hin).
  eapply capturing_move; [done|done|lia|lia| |done| | | |done].
  - cbn. rewrite length_app, length_take. lia.
  - cbn. rewrite orb_true_iff, N.ltb_lt. intros [Ht%Hfull|?]; lia.
  - intros input. apply reads_reserved; [done|lia|]. intros Ht%Hfull. lia.
  - exact (chunks_left _ _ _ Hs w Hin).
Qed.

Lemma capturing_head s i w chunk observed : capturing limit inputs s → workers s !! i = Some w → in_hand w = chunk →
  observed ≤ captured_bytes s →
  capturing limit inputs {| captured_bytes := captured_bytes s; workers := <[i := loop_head limit chunk observed w]> (workers s) |}.
Proof.
  intros Hs Hi Hh Hle. pose proof (within _ _ _ Hs) as Hw. unfold loop_head. destruct (N.leb_spec limit observed).
  - rewrite <- (N.add_0_r (captured_bytes s)). apply (capturing_reserved s i w chunk 0); try done. lia.
  - assert (w ∈ workers s) as Hin by by eapply list_elem_of_lookup_2.
    eapply capturing_move; [done|done|lia|lia|cbn; lia|done|exact (full_when_truncated _ _ _ Hs w Hin)| | |done].
    + intros input. by apply reads_pc.
    + exact (chunks_left _ _ _ Hs w Hin).
Qed.

Lemma step_capturing s e s' : capturing limit inputs s → step limit s e = Some s' → capturing limit inputs s'.
Proof.
  intros Hs. pose proof (within _ _ _ Hs) as Hw. unfold step.
  destruct e as [i|i|i o|i|i o]; unfold with_worker; destruct (workers s !! i) as [w|] eqn:Hi; try done;
    assert (w ∈ workers s) as Hin by (by eapply list_elem_of_lookup_2);
    pose proof (chunks_left _ _ _ Hs w Hin) as Hch; pose proof (full_when_truncated _ _ _ Hs w Hin) as Hfull.
  - destruct (pc w) eqn:Hp; try done. destruct (source w) as [|[|a c] rest] eqn:Hsrc.
    + intros [= <-]. eapply capturing_move; [done|done|lia|lia|cbn; lia|done|done| |by rewrite <- Hsrc in *|done].
      intros input. apply reads_pc. unfold in_hand. by rewrite Hp.
    + by apply Forall_cons in Hch as [? _].
    + intros [= <-]. eapply capturing_move; [done|done|lia|lia|cbn; lia|done|done| |by apply Forall_cons in Hch as [_ ?]|done].
      intros input (lost & -> & Hl). exists lost. unfold in_hand. cbn. by rewrite Hp, Hsrc.
  - destruct (pc w) eqn:Hp; try done. intros [= <-].
    eapply capturing_move; [done|done|lia|lia|cbn; lia|done|done| |done|done].
    intros input. apply reads_pc. unfold in_hand. by rewrite Hp.
  - destruct (pc w) eqn:Hp; try done. destruct (N.leb_spec o (captured_bytes s)); [|done]. intros [= <-].
    apply capturing_head; try done. unfold in_hand. by rewrite Hp.
  - destruct (pc w) as [| |chunk current| |] eqn:Hp; try done. destruct (N.eqb_spec current (captured_bytes s)) as [-> |]; [|done].
    intros [= <-]. apply capturing_reserved; try done. unfold in_hand. by rewrite Hp.
  - destruct (pc w) eqn:Hp; try done. destruct (N.leb_spec o (captured_bytes s)); [|done]. intros [= <-].
    apply capturing_head; try done. unfold in_hand. by rewrite Hp.
Qed.

Lemma start_capturing : Forall (Forall (λ c, c ≠ [])) inputs → capturing limit inputs (start inputs).
Proof.
  intros Hc. assert (∀ w, w ∈ workers (start inputs) → pc w = Reading ∧ truncated w = false ∧ Forall (λ c, c ≠ []) (source w)) as Hw.
  { intros w (chunks & -> & Hin)%list_elem_of_fmap. rewrite Forall_forall in Hc. repeat split. by apply Hc. }
  split; simpl.
  - clear. induction inputs; simpl; lia.
  - lia.
  - intros w (Hp & _)%Hw. by rewrite Hp.
  - intros w (_ & Ht & _)%Hw. congruence.
  - clear. induction inputs as [|chunks l IH]; simpl; constructor; [by exists []|done].
  - by intros w (_ & _ & ?)%Hw.
  - intros w (Hp & _)%Hw. congruence.
Qed.

Lemma run_capturing es : ∀ s s', capturing limit inputs s → run limit s es = Some s' → capturing limit inputs s'.
Proof.
  induction es as [|e es IH]; simpl; intros s s' Hs; [by intros [= <-]|].
  destruct (step limit s e) as [s1|] eqn:E; [|done]. apply IH. by eapply step_capturing.
Qed.
End Invariant.

(** The bytes the streams carry. *)
Definition offered (inputs : list (list (list ascii))) : N :=
  fold_right (λ chunks n, N.of_nat (length (concat chunks)) + n) 0 inputs.

Lemma kept_below inputs l : Forall2 (λ chunks w, reads (concat chunks) w) inputs l →
  total l ≤ offered inputs ∧
  (Forall (λ w, truncated w = false ∧ in_hand w = [] ∧ source w = []) l → total l = offered inputs).
Proof.
  induction 1 as [|chunks w inputs l (lost & E & Hl) _ [IH1 IH2]]; simpl; [done|].
  apply (f_equal length) in E. rewrite !length_app in E. split; [lia|].
  intros [(Ht & Hh & Hs) Hall]%Forall_cons. rewrite IH2 by done.
  rewrite (proj1 Hl Ht), Hh, Hs in E. simpl in E. lia.
Qed.

(** The steps of one reader. *)
Definition own (i : nat) (e : Event) : Prop :=
  match e with Read j | ReadError j | Load j _ | Swap j | SwapFails j _ => j = i end.

Lemma drain limit chunks : ∀ s i w, workers s !! i = Some w → source w = chunks → pc w = Reading →
  captured_bytes s ≤ limit → Forall (λ c, c ≠ []) chunks →
  ∃ es s' w', Forall (own i) es ∧ run limit s es = Some s' ∧ workers s' !! i = Some w' ∧ pc w' = Finished.
Proof.
  induction chunks as [|c chunks IH]; intros s i w Hi Hsrc Hp Hle Hc.
  - exists [Read i]. do 2 eexists. split; [by repeat constructor|]. simpl. unfold with_worker. rewrite Hi, Hp, Hsrc.
    split; [done|]. simpl. rewrite list_lookup_insert_eq by (by eapply lookup_lt_Some). done.
  - apply Forall_cons in Hc as [Hne Hc]. pose proof (lookup_lt_Some _ _ _ Hi) as Hlt.
    assert (∃ es s1 w1, Forall (own i) es ∧ run limit s es = Some s1 ∧ workers s1 !! i = Some w1 ∧
      source w1 = chunks ∧ pc w1 = Reading ∧ captured_bytes s1 ≤ limit) as (es1 & s1 & w1 & Ho1 & Hr1 & Hi1 & Hs1 & Hp1 & Hl1).
    { destruct c as [|a c]; [done|].
      destruct (N.leb_spec limit (captured_bytes s)) as [Hfull|Hroom].
      - exists [Read i; Load i (captured_bytes s)]. do 2 eexists. split; [by repeat constructor|]. simpl. unfold with_worker at 1.
        rewrite Hi, Hp, Hsrc. simpl. unfold with_worker. simpl. rewrite list_lookup_insert_eq by done. simpl.
        rewrite N.leb_refl. unfold loop_head. rewrite (proj2 (N.leb_le _ _) Hfull). split; [done|].
        cbn. rewrite list_lookup_insert_eq by (by rewrite length_insert). cbn. by split_and!.
      - exists [Read i; Load i (captured_bytes s); Swap i]. do 2 eexists. split; [by repeat constructor|]. simpl. unfold with_worker at 1.
        rewrite Hi, Hp, Hsrc. simpl. unfold with_worker at 1. simpl. rewrite list_lookup_insert_eq by done. simpl.
        rewrite N.leb_refl. unfold loop_head. rewrite (proj2 (N.leb_gt _ _) Hroom). unfold with_worker. cbn.
        rewrite list_lookup_insert_eq by (by rewrite length_insert). cbn. rewrite N.eqb_refl. split; [done|].
        cbn. rewrite list_lookup_insert_eq by (by rewrite !length_insert). cbn. split_and!; try done. lia. }
    destruct (IH s1 i w1 Hi1 Hs1 Hp1 Hl1 Hc) as (es2 & s2 & w2 & Ho2 & Hr2 & Hi2 & Hp2).
    exists (es1 ++ es2), s2, w2. split; [by apply Forall_app|]. split; [|done].
    clear -Hr1 Hr2. revert s Hr1. induction es1 as [|e es1 IH]; simpl; intros s; [by intros [= ->]|].
    destruct (step limit s e); [apply IH|done].
Qed.

(** What a reader has kept of its stream. *)
Lemma capturing_stream limit inputs s i chunks w : capturing limit inputs s →
  inputs !! i = Some chunks → workers s !! i = Some w →
  kept w `prefix_of` concat chunks ∧
  (truncated w = true → total (workers s) = limit ∧ kept w ≠ concat chunks) ∧
  (pc w = Finished → truncated w = false → kept w = concat chunks).
Proof.
  intros [Hs Hw _ Hf Hr Hc He] Hi Hwi. assert (w ∈ workers s) as Hin by by eapply list_elem_of_lookup_2.
  destruct (Forall2_lookup_lr _ _ _ _ _ _ Hr Hi Hwi) as (lost & E & Hl).
  split; [by exists (lost ++ in_hand w ++ concat (source w))|].
  split; [intros Ht; split; [by rewrite Hs; apply (Hf w)|]|].
  - intros Ek. rewrite <- Ek in E. apply (f_equal length) in E. rewrite !length_app in E.
    destruct lost as [|a lost]; [by rewrite (proj2 Hl eq_refl) in Ht|]. simpl in E. lia.
  - intros Hp Ht. rewrite E, (proj1 Hl Ht). unfold in_hand. rewrite Hp, (He w Hin Hp). by rewrite !app_nil_r.
Qed.

(** ** Properties *)

(** In every interleaving of the readers, with stale loads and exchanges that
    fail, they keep at most the limit together; each keeps a prefix of its
    stream, the whole stream if it finishes without reporting a truncation, and
    reports one only if the budget is used up and it dropped bytes.  When all
    have finished the budget or the output is used up; and a reader can always
    finish by its own steps. *)
Theorem capture_shares_limit (limit : N) (inputs : list (list (list ascii))) (es : list Event) (s : State)
  (nonempty : Forall (Forall (λ c, c ≠ [])) inputs) (reached : run limit (start inputs) es = Some s) :
  total (workers s) ≤ limit ∧
  (∀ i chunks w, inputs !! i = Some chunks → workers s !! i = Some w →
     kept w `prefix_of` concat chunks ∧
     (truncated w = true → total (workers s) = limit ∧ kept w ≠ concat chunks) ∧
     (pc w = Finished → truncated w = false → kept w = concat chunks) ∧
     (pc w = Reading → ∃ es' s' w', Forall (own i) es' ∧ run limit s es' = Some s' ∧
                         workers s' !! i = Some w' ∧ pc w' = Finished)) ∧
  (Forall (λ w, pc w = Finished) (workers s) → total (workers s) = N.min limit (offered inputs)).
Proof.
  pose proof (run_capturing _ _ _ _ _ (start_capturing limit inputs nonempty) reached) as Hcap.
  pose proof Hcap as [Hs Hw _ Hf Hr Hc He]. split; [lia|]. split.
  - intros i chunks w Hi Hwi. destruct (capturing_stream _ _ _ _ _ _ Hcap Hi Hwi) as (? & ? & ?).
    split; [done|]. split; [done|]. split; [done|]. intros Hp. apply (drain limit (source w) s i w); try done.
    apply Hc. by eapply list_elem_of_lookup_2.
  - intros Hall. destruct (kept_below _ _ Hr) as [Hle Heq]. rewrite Forall_forall in Hall.
    destruct (decide (Exists (λ w, truncated w = true) (workers s))) as [Ht|Ht].
    + apply Exists_exists in Ht as (w & Hin & Ht). rewrite Hs. rewrite Hs in Hle. pose proof (Hf w Hin Ht). lia.
    + rewrite <- Heq; [lia|]. apply Forall_forall. intros w Hin. pose proof (Hall w Hin) as Hp.
      split; [|split; [unfold in_hand; by rewrite Hp|by apply He]].
      destruct (truncated w) eqn:Et; [|done]. destruct Ht. apply Exists_exists. eauto.
Qed.

(** Without contention the loop reserves what the function says. *)
Lemma reserve_uncontended limit s i w chunk : workers s !! i = Some w → pc w = Loading chunk →
  let '(granted, counter) := reserve_output_bytes (captured_bytes s) limit (N.of_nat (length chunk)) in
  ∃ es, Forall (own i) es ∧
    run limit s es = Some {| captured_bytes := counter; workers := <[i := reserved chunk granted w]> (workers s) |}.
Proof.
  intros Hi Hp. pose proof (lookup_lt_Some _ _ _ Hi). unfold reserve_output_bytes.
  destruct (N.leb_spec limit (captured_bytes s)) as [Hfull|Hroom].
  - exists [Load i (captured_bytes s)]. split; [by repeat constructor|]. simpl. unfold with_worker. rewrite Hi, Hp, N.leb_refl.
    unfold loop_head. by rewrite (proj2 (N.leb_le _ _) Hfull).
  - exists [Load i (captured_bytes s); Swap i]. split; [by repeat constructor|]. simpl. unfold with_worker at 1.
    rewrite Hi, Hp, N.leb_refl. unfold loop_head. rewrite (proj2 (N.leb_gt _ _) Hroom). unfold with_worker. cbn.
    rewrite list_lookup_insert_eq by done. cbn. rewrite N.eqb_refl. by rewrite list_insert_insert_eq.
Qed.

(** *** Witness *)

(** Two readers race for ten bytes: the second loads before the first has
    exchanged, and its own exchange fails. *)
Definition demo_inputs : list (list (list ascii)) := [[bytes "abcdefg"]; [bytes "123"; bytes "4567"]].
Definition demo_events : list Event :=
  [Read 0; Read 1; Load 1 0; Load 0 0; Swap 0; SwapFails 1 0; SwapFails 1 7; Swap 1; Read 1; Load 1 5; SwapFails 1 10; Read 1; Read 0].
Definition demo_state : State := default (start []) (run 10 (start demo_inputs) demo_events).

Lemma capture_shares_limit_witness :
  List.map (λ w, (of_bytes (kept w), truncated w)) (workers demo_state) = [("abcdefg", false); ("123", true)] ∧
  total (workers demo_state) = N.min 10 (offered demo_inputs).
Proof.
  split; [vm_compute; reflexivity|].
  apply (capture_shares_limit 10 demo_inputs demo_events demo_state).
  - apply (bool_decide_unpack _). vm_compute. reflexivity.
  - vm_compute. reflexivity.
  - vm_compute. repeat constructor.
Defined.
