(* ===== verification/Command.v ===== *)
(** * Command: running a plan and keeping what it printed

    [src/tools/fmctl/src/runner.rs] around the readers of Capture: the checks
    before a child is started, the order of its waiting, termination and
    collection, the atomic writing of artifacts, exit codes and the printing of a
    command line.

    What the operating system answers (whether the child starts, how it ends,
    what the readers got, which write fails) is an argument.  An artifact is
    written whole or not at all ([write_artifact_atomic]); what is captured
    respects the plan's limit, and success is never reported for a child that
    failed or was stopped ([execute_plan_correct]); a printed command line reads
    back as the command ([command_display_roundtrip]). *)

From S2P Require Import Prelude Text Decimal Resource Btree Path Manifest Workspace Plan Replay Capture.

(** ** Text of captured bytes *)

(** The length of the sequence [String::from_utf8_lossy] replaces at an invalid byte. *)
Definition invalid_length (l : list ascii) : nat :=
  match l with
  | a :: b :: l' =>
      let two := (in_range 224 224 a && in_range 160 191 b) || (in_range 237 237 a && in_range 128 159 b)
                 || ((in_range 225 236 a || in_range 238 239 a) && is_continuation_byte b) in
      let four := (in_range 240 240 a && in_range 144 191 b) || (in_range 241 243 a && is_continuation_byte b)
                  || (in_range 244 244 a && in_range 128 143 b) in
      if two then 2%nat
      else if four then match l' with c :: _ => if is_continuation_byte c then 3%nat else 2%nat | [] => 2%nat end
      else 1%nat
  | _ => 1%nat
  end.

(** U+FFFD *)
Definition replacement : list ascii := List.map ascii_of_N [239; 191; 189].

Fixpoint lossy_go (fuel : nat) (l : list ascii) : list ascii :=
  match fuel, l with
  | O, _ | _, [] => []
  | S fuel, _ =>
      match utf8_step l with
      | Some rest => take (length l - length rest) l ++ lossy_go fuel rest
      | None => replacement ++ lossy_go fuel (drop (invalid_length l) l)
      end
  end.

Definition from_utf8_lossy (l : list ascii) : string := of_bytes (lossy_go (length l) l).

(** ** Outcomes *)

(** The texts [failure] is given. *)
Inductive Failure :=
| OutputExceeded (maximum : N) (stdout stderr : bool)
| FailedWith (e : FmError)
| SuccessButExited
| ReportedMismatches (n : N)
| NoProtocolResponse.

Record CommandOutcome := {
  co_schema_version : N;
  co_project : string;
  co_model : string;
  co_operation : string;
  co_program : string;
  co_args : list string;
  co_resource_policy : EffectiveResourcePolicy;
  co_success : bool;
  co_timed_out : bool;
  co_exit_code : option Z;
  co_duration_millis : N;
  co_stdout : string;
  co_stderr : string;
  co_stdout_truncated : bool;
  co_stderr_truncated : bool;
  co_adapter_response : option AdapterReplayResponse;
  co_failure : option Failure;
  co_artifacts : CommandArtifacts
}.

(** [u8::try_from] of the code, unless it is zero. *)
Definition stable_exit_code (self : CommandOutcome) : N :=
  if co_success self then 0
  else if co_timed_out self then 124
  else match co_exit_code self with
       | Some code => if ((0 <? code) && (code <=? 255))%Z then Z.to_N code else 10
       | None => 10
       end.

Definition validate_plan_resource_limits (plan : CommandPlan) : result unit FmError :=
  let v := effective_scalar (effective (cp_resource_policy plan)) in
  if negb (cp_timeout_seconds plan =? timeout_seconds v)
  then refuse (LimitMismatch "timeout" (cp_timeout_seconds plan) (timeout_seconds v))
  else if negb (cp_max_output_bytes plan =? max_output_bytes v)
  then refuse (LimitMismatch "output limit" (cp_max_output_bytes plan) (max_output_bytes v))
  else Ok ().

(** ** Artifacts *)

(** Files by the text of their path. *)
Abbreviation Disk := (gmap Path (list ascii)).

(** Where writing an artifact stops; a crash is a stop. *)
Inductive WriteAnswer :=
| CreateFails
| WriteFails (written : nat)
| SyncFails
| RenameFails
| Completes.

Section Artifacts.
Context `{fs : FileSystem}.

Definition temporary_name (name : string) (process_id sequence : N) : string :=
  "." +:+ name +:+ "." +:+ to_dec process_id +:+ "." +:+ to_dec sequence +:+ ".tmp".

Definition write_artifact (workspace path : Path) (contents : list ascii) (process_id sequence : N)
    (answer : WriteAnswer) (disk : Disk) : Disk * result unit FmError :=
  match parent path with
  | None => (disk, refuse (NoParent path))
  | Some directory =>
      match canonicalize directory with
      | None => (disk, Err (Io directory))
      | Some canonical_parent =>
          if negb (path_starts_with canonical_parent workspace)
          then (disk, refuse (ParentEscapes canonical_parent))
          else
            match file_name path with
            | None => (disk, refuse (NoFileName path))
            | Some name =>
                let temporary := join directory (temporary_name name process_id sequence) in
                match disk !! temporary, answer with
                | Some _, _ | None, CreateFails => (disk, Err (Io temporary))
                | None, WriteFails n => (<[temporary := take n contents]> disk, Err (Io temporary))
                | None, SyncFails => (<[temporary := contents]> disk, Err (Io temporary))
                | None, RenameFails => (<[temporary := contents]> disk, Err (Io path))
                | None, Completes => (<[path := contents]> disk, Ok ())
                end
            end
      end
  end.
End Artifacts.

(** ** Execution *)

(** How the child ended: [code] is absent when a signal ended it. *)
Record ExitStatus := { status_code : option Z }.

Definition status_success (s : ExitStatus) : bool := status_code s == Some 0%Z.

Inductive WaitAnswer :=
| WaitFails
| Exits (status : ExitStatus)
| TimesOut (reaped : option ExitStatus).   (** [wait] after the termination *)

(** What the operating system does for one execution. *)
Record ChildRun := {
  created : Path → bool;              (** [create_dir_all] *)
  spawned : bool;
  waited : WaitAnswer;
  terminated : bool;
  stdin_written : bool;               (** the worker wrote all, in time *)
  readers : Capture.State;            (** standard output and error, when joined *)
  elapsed_millis : N;
  stdout_answer : WriteAnswer;
  stderr_answer : WriteAnswer;
  run_process_id : N;
  run_sequence : N                    (** of the first artifact *)
}.

(** What the channel of a reader gives within the drain time-out. *)
Definition join_capture (program stream : string) (worker : option Worker) : result (list ascii * bool) FmError :=
  match worker with
  | None => Err OutputWorkerPanicked
  | Some w =>
      match pc w with
      | Finished => Ok (kept w, truncated w)
      | _ => Err (Output program stream)
      end
  end.

Section Execution.
Context `{fs : FileSystem}.

(** Waiting for the child; its group is terminated on every path. *)
Definition supervise (program : string) (run : ChildRun) : result (ExitStatus * bool) FmError :=
  match waited run with
  | WaitFails => if terminated run then Err (Wait program) else Err (Terminate program)
  | Exits status => if terminated run then Ok (status, false) else Err (Terminate program)
  | TimesOut reaped =>
      if negb (terminated run) then Err (Terminate program)
      else match reaped with Some status => Ok (status, true) | None => Err (Wait program) end
  end.

Definition outcome_of (plan : CommandPlan) (run : ChildRun) (status : ExitStatus) (timed_out : bool)
    (stdout stderr : list ascii * bool) : CommandOutcome :=
  {| co_schema_version := 1;
     co_project := cp_project plan;
     co_model := cp_model plan;
     co_operation := cp_operation plan;
     co_program := cp_program plan;
     co_args := cp_args plan;
     co_resource_policy := cp_resource_policy plan;
     co_success := status_success status && negb timed_out;
     co_timed_out := timed_out;
     co_exit_code := status_code status;
     co_duration_millis := N.min (elapsed_millis run) u64_max;
     co_stdout := from_utf8_lossy stdout.1;
     co_stderr := from_utf8_lossy stderr.1;
     co_stdout_truncated := stdout.2;
     co_stderr_truncated := stderr.2;
     co_adapter_response := None;
     co_failure := None;
     co_artifacts := cp_artifacts plan |}.

(** After [spawn]: the child is supervised, the readers are joined, and what
    they kept is written. *)
Definition collect (plan : CommandPlan) (run : ChildRun) (disk : Disk) : Disk * result CommandOutcome FmError :=
  let program := cp_program plan in
  match supervise program run with
  | Err e => (disk, Err e)
  | Ok (status, timed_out) =>
      match join_capture program "stdout" (workers (readers run) !! 0%nat) with
      | Err e => (disk, Err e)
      | Ok stdout =>
          match join_capture program "stderr" (workers (readers run) !! 1%nat) with
          | Err e => (disk, Err e)
          | Ok stderr =>
              match write_artifact (cp_workspace plan) (ca_stdout (cp_artifacts plan)) stdout.1
                      (run_process_id run) (run_sequence run) (stdout_answer run) disk with
              | (disk, Err e) => (disk, Err e)
              | (disk, Ok _) =>
                  match write_artifact (cp_workspace plan) (ca_stderr (cp_artifacts plan)) stderr.1
                          (run_process_id run) (run_sequence run + 1) (stderr_answer run) disk with
                  | (disk, Err e) => (disk, Err e)
                  | (disk, Ok _) =>
                      if negb timed_out && is_some (cp_stdin plan) && negb (stdin_written run)
                      then (disk, Err (WriteStdin program))
                      else (disk, Ok (outcome_of plan run status timed_out stdout stderr))
                  end
              end
          end
      end
  end.

Definition execute_plan (plan : CommandPlan) (run : ChildRun) (disk : Disk) : Disk * result CommandOutcome FmError :=
  match validate_plan_resource_limits plan with
  | Err e => (disk, Err e)
  | Ok _ =>
      match List.find (λ d, negb (created run d)) (cp_create_directories plan) with
      | Some directory => (disk, Err (Io directory))
      | None => if spawned run then collect plan run disk else (disk, Err (Spawn (cp_program plan)))
      end
  end.
End Execution.

(** ** Printing a command *)

(** What needs no quotes. *)
Definition plain (character : ascii) : bool := is_ascii_alphanumeric character || contains character "-._/:=@{}".

Definition quote : ascii := "'"%char.

Definition shell_quote (value : list ascii) : list ascii :=
  match value with
  | _ :: _ => if forallb plain value then value
              else quote :: flat_map (λ c, if is_byte quote c then bytes "'\''" else [c]) value ++ [quote]
  | [] => [quote; quote]
  end.

Fixpoint join_words (words : list (list ascii)) : list ascii :=
  match words with
  | [] => []
  | [w] => w
  | w :: words => w ++ " "%char :: join_words words
  end.

Definition command_display (program : string) (args : list string) : string :=
  of_bytes (join_words (List.map (λ w, shell_quote (bytes w)) (program :: args))).

(** *** Specification: the words of a POSIX shell

    Plain characters, single-quoted text and backslash escapes form words, which
    spaces separate.  What else the shell interprets is no word here. *)

Definition add (word : option (list ascii)) (c : ascii) : option (list ascii) := Some (default [] word ++ [c]).

Fixpoint shell_words (quoted : bool) (word : option (list ascii)) (l : list ascii) : option (list (list ascii)) :=
  match l with
  | [] => if quoted then None else Some (match word with Some w => [w] | None => [] end)
  | c :: l' =>
      if quoted then
        if is_byte quote c then shell_words false word l' else shell_words true (add word c) l'
      else if is_byte quote c then shell_words true (Some (default [] word)) l'
      else if is_byte " " c then
        match shell_words false None l' with
        | Some words => Some (match word with Some w => w :: words | None => words end)
        | None => None
        end
      else if is_byte "\" c then
        match l' with
        | d :: l'' => shell_words false (add word d) l''
        | [] => None
        end
      else if plain c then shell_words false (add word c) l'
      else None
  end.

(** ** Lemmas: text *)

Lemma utf8_step_suffix l rest : utf8_step l = Some rest → ∃ c, l = c ++ rest.
Proof.
  unfold utf8_step. destruct l as [|a [|b [|c [|d l]]]]; simpl; [done|..];
    intros H; crack; simplify_eq; first [by exists [a]|by exists [a; b]|by exists [a; b; c]|by exists [a; b; c; d]].
Qed.

(** Valid text is kept as it is. *)
Lemma lossy_valid l : utf8 l = true → from_utf8_lossy l = of_bytes l.
Proof.
  unfold from_utf8_lossy, utf8. intros H. f_equal. revert H. generalize (length l) as n.
  intros n. revert l. induction n as [|n IH]; intros [|a l] H; try done. cbn [utf8_go lossy_go] in *.
  destruct (utf8_step (a :: l)) as [rest|] eqn:E; [|done]. rewrite (IH _ H).
  apply utf8_step_suffix in E as [c ->]. rewrite length_app.
  replace (length c + length rest - length rest)%nat with (length c) by lia. by rewrite take_app_length.
Qed.

Lemma join_words_cons w words : words ≠ [] → join_words (w :: words) = w ++ " "%char :: join_words words.
Proof. by destruct words. Qed.

Lemma plain_safe c : plain c = true → is_byte quote c = false ∧ is_byte " " c = false ∧ is_byte "\" c = false.
Proof.
  intros Hc. repeat split; apply not_true_iff_false; intros ->%is_byte_spec; vm_compute in Hc; discriminate.
Qed.

Lemma words_plain v : ∀ word l, forallb plain v = true →
  shell_words false word (v ++ l) = shell_words false (match v with [] => word | _ => Some (default [] word ++ v) end) l.
Proof.
  induction v as [|c v IH]; intros word l Hv; [done|]. cbn [forallb] in Hv. apply andb_true_iff in Hv as [Hc Hv].
  destruct (plain_safe c Hc) as (H1 & H2 & H3). cbn [app shell_words]. rewrite H1, H2, H3, Hc, (IH _ _ Hv). unfold add. simpl.
  destruct v; [done|]. simpl. by rewrite <- app_assoc.
Qed.

Lemma words_escaped w l : shell_words true (Some w) (bytes "'\''" ++ l) = shell_words true (Some (w ++ [quote])) l.
Proof. reflexivity. Qed.

Lemma words_quoted v : ∀ w l,
  shell_words true (Some w) (flat_map (λ c, if is_byte quote c then bytes "'\''" else [c]) v ++ quote :: l)
  = shell_words false (Some (w ++ v)) l.
Proof.
  induction v as [|c v IH]; intros w l.
  - simpl. by rewrite app_nil_r.
  - cbn [flat_map]. destruct (is_byte quote c) eqn:E.
    + apply is_byte_spec in E as ->. rewrite <- app_assoc, words_escaped, IH. by rewrite <- app_assoc.
    + cbn [app shell_words]. rewrite E. unfold add. cbn [default]. rewrite IH. by rewrite <- app_assoc.
Qed.

Lemma words_shell_quote v l : shell_words false None (shell_quote v ++ l) = shell_words false (Some v) l.
Proof.
  unfold shell_quote. destruct v as [|c v]; [done|]. destruct (forallb plain (c :: v)) eqn:E.
  - by rewrite words_plain.
  - rewrite <- app_comm_cons, <- app_assoc. cbn [shell_words app]. unfold is_byte at 1.
    rewrite bool_decide_eq_true_2 by done. cbn [default]. by rewrite words_quoted.
Qed.

Lemma words_join words : words ≠ [] → shell_words false None (join_words (List.map shell_quote words)) = Some words.
Proof.
  induction words as [|w words IH]; [done|]. intros _. destruct words as [|w' words].
  - simpl. rewrite <- (app_nil_r (shell_quote w)), words_shell_quote. done.
  - cbn [List.map]. rewrite join_words_cons by done. rewrite words_shell_quote. cbn [shell_words].
    change (shell_quote w' :: List.map shell_quote words) with (List.map shell_quote (w' :: words)).
    unfold is_byte at 1. rewrite bool_decide_eq_false_2 by done. unfold is_byte at 1.
    rewrite bool_decide_eq_true_2 by done. by rewrite IH.
Qed.

(** ** Lemmas: artifacts *)

Section ArtifactLemmas.
Context `{fs : FileSystem}.

Lemma join_name p name : is_absolute p = true → entry (Normal name) →
  components (join p name) = components p ++ [Normal name] ∧ is_absolute (join p name) = true.
Proof.
  intros Hp [He Hs]. simpl in *. assert (is_absolute name = false) as Hn.
  { unfold is_absolute. rewrite starts_with_bytes. destruct (bytes name); [done|]. simpl in Hs. by apply orb_false_iff in Hs as [? _]. }
  rewrite components_join by done. unfold body. rewrite split_list_last by done. simpl. rewrite He. split; [done|].
  eapply under_absolute; [by apply join_under|done].
Qed.

Lemma file_name_entry p name : file_name p = Some name → entry (Normal name) ∧
  ∃ d, parent p = Some d ∧ components p = components d ++ [Normal name].
Proof.
  unfold file_name, parent. pose proof (components_proper p) as Hp. intros H.
  destruct (last (components p)) as [[| | |n]|] eqn:E; try done. injection H as ->.
  apply last_Some in E as [l E]. rewrite E in *. rewrite rev_app_distr. cbn [rev app]. split.
  - destruct Hp as [H|(c & rest & Ec & Hc & H)]; [by apply Forall_app in H as [_ [? _]%Forall_cons]|].
    destruct l as [|c' l]; [by injection Ec as <- _; destruct Hc|]. injection Ec as -> <-.
    by apply Forall_app in H as [_ [? _]%Forall_cons].
  - exists (of_components (rev (rev l))). split; [done|].
    rewrite rev_involutive, components_of_components by (by eapply proper_prefix). done.
Qed.

Lemma temporary_entry name pid seq : entry (Normal name) → entry (Normal (temporary_name name pid seq)).
Proof.
  intros [_ Hs]. change (existsb (λ d, d == "/"%char) (bytes name) = false) in Hs.
  assert (∀ n, existsb (λ d, d == "/"%char) (bytes (to_dec n)) = false) as Hd by (intros; by apply dec_not).
  assert (existsb (λ d, d == "/"%char) (bytes (temporary_name name pid seq)) = false) as Ht
    by (unfold temporary_name; by rewrite !bytes_app, !existsb_app, Hs, !Hd).
  split; [|exact Ht]. change (body_component (bytes (temporary_name name pid seq)) = Some (Normal (temporary_name name pid seq))).
  assert (2 < length (bytes (temporary_name name pid seq)))%nat as Hl
    by (unfold temporary_name; rewrite !bytes_app, !length_app; simpl; lia).
  unfold body_component. rewrite !bool_decide_eq_false_2; [by rewrite of_bytes_bytes|..]; intros H; rewrite H in Hl; simpl in Hl; lia.
Qed.

Lemma temporary_other name pid seq : temporary_name name pid seq ≠ name.
Proof.
  intros H%(f_equal (length ∘ bytes)). unfold temporary_name in H. simpl in H. rewrite !bytes_app, !length_app in H. lia.
Qed.

Lemma temporary_path name pid seq p d : file_name p = Some name → parent p = Some d → is_absolute p = true →
  join d (temporary_name name pid seq) ≠ p.
Proof.
  intros Hn Hd Hp E. destruct (file_name_entry _ _ Hn) as (He & d' & Hd' & Hc). rewrite Hd in Hd'. injection Hd' as <-.
  assert (is_absolute d = true) as Ha.
  { apply absolute_components. apply absolute_components in Hp. rewrite Hc in Hp. by destruct (components d). }
  destruct (join_name d _ Ha (temporary_entry name pid seq He)) as [Hj _]. rewrite E, Hc in Hj.
  apply app_inj_2 in Hj as [_ [= Hj]]; [|done]. by apply (temporary_other name pid seq).
Qed.
End ArtifactLemmas.

(** A write that succeeds has replaced the file. *)
Lemma write_artifact_ok `{fs : FileSystem} workspace path contents pid seq answer (disk disk' : Disk) :
  write_artifact workspace path contents pid seq answer disk = (disk', Ok ()) → disk' = <[path := contents]> disk.
Proof.
  unfold write_artifact. destruct (parent path); [|done]. destruct (canonicalize _); [|done].
  destruct (negb _); [done|]. destruct (file_name path); [|done]. destruct (disk !! _); [done|]. by destruct answer; intros [= <-].
Qed.

(** What a stopped or finished write does to the disk. *)
Lemma write_artifact_spec `{fs : FileSystem} (workspace path : Path) (contents : list ascii) (pid seq : N)
  (answer : WriteAnswer) (disk disk' : Disk) (r : result unit FmError) : is_absolute path = true →
  write_artifact workspace path contents pid seq answer disk = (disk', r) →
  disk' !! path = (if is_ok r then Some contents else disk !! path) ∧
  (∀ p old, p ≠ path → disk !! p = Some old → disk' !! p = Some old) ∧
  (disk' ≠ disk → ∃ directory, parent path = Some directory ∧ inside workspace directory).
Proof.
  intros absolute. unfold write_artifact. destruct (parent path) as [d|] eqn:Hd; [|by intros [= <- <-]].
  destruct (canonicalize d) as [c|] eqn:Hc; [|by intros [= <- <-]]. destruct (path_starts_with c workspace) eqn:Hu; [|by intros [= <- <-]]. cbn [negb].
  destruct (file_name path) as [name|] eqn:Hn; [|by intros [= <- <-]].
  pose proof (temporary_path name pid seq path d Hn Hd absolute) as Hne.
  assert (∃ directory, Some d = Some directory ∧ inside workspace directory) as Hin by (exists d; split; [done|by exists c]).
  destruct (disk !! join d (temporary_name name pid seq)) eqn:Ht; [by intros [= <- <-]|].
  assert (∀ x, <[join d (temporary_name name pid seq) := x]> disk !! path = disk !! path ∧
    ∀ p old, p ≠ path → disk !! p = Some old → <[join d (temporary_name name pid seq) := x]> disk !! p = Some old) as Htmp.
  { intros x. split; [by rewrite lookup_insert_ne|]. intros p old _ Hp. rewrite lookup_insert_ne; [done|congruence]. }
  destruct answer; intros [= <- <-]; cbn [is_ok]; [done|split; [apply Htmp|split; [apply Htmp|done]]..|].
  split; [by rewrite lookup_insert_eq|]. split; [|done]. intros p old Hp Ho. by rewrite lookup_insert_ne.
Qed.

(** ** Lemmas: execution *)

Lemma join_capture_ok program stream worker r : join_capture program stream worker = Ok r →
  ∃ w, worker = Some w ∧ pc w = Finished ∧ r = (kept w, truncated w).
Proof. destruct worker as [w|]; [|done]. simpl. destruct (pc w) eqn:E; try done. intros [= <-]. by exists w. Qed.

Lemma supervise_ok program run status timed_out : supervise program run = Ok (status, timed_out) →
  terminated run = true ∧ waited run = (if timed_out then TimesOut (Some status) else Exits status).
Proof.
  unfold supervise. destruct (waited run) as [|st|[st|]]; destruct (terminated run); simpl; try done; by intros [= -> <-].
Qed.

Lemma success_status status : status_success status = true ↔ status = {| status_code := Some 0%Z |}.
Proof. unfold status_success. rewrite bool_decide_eq_true. destruct status; simpl. split; [by intros ->|by intros [= ->]]. Qed.

Lemma limits_ok plan : validate_plan_resource_limits plan = Ok () ↔
  cp_timeout_seconds plan = timeout_seconds (effective_scalar (effective (cp_resource_policy plan))) ∧
  cp_max_output_bytes plan = max_output_bytes (effective_scalar (effective (cp_resource_policy plan))).
Proof.
  unfold validate_plan_resource_limits.
  destruct (N.eqb_spec (cp_timeout_seconds plan) (timeout_seconds (effective_scalar (effective (cp_resource_policy plan)))));
    [|by split; [|intros []]].
  destruct (N.eqb_spec (cp_max_output_bytes plan) (max_output_bytes (effective_scalar (effective (cp_resource_policy plan)))));
    [done|by split; [|intros []]].
Qed.

(** Exit codes stay in a byte, and zero is kept for success. *)
Lemma exit_code_byte o : stable_exit_code o ≤ 255 ∧ (stable_exit_code o = 0 ↔ co_success o = true).
Proof.
  unfold stable_exit_code. destruct (co_success o); [done|]. destruct (co_timed_out o); [done|].
  destruct (co_exit_code o) as [code|]; [|done].
  destruct (Z.ltb_spec 0 code); [|done]. destruct (Z.leb_spec code 255); [|done]. simpl. lia.
Qed.

(** What a reported execution went through. *)
Lemma execute_plan_ok `{fs : FileSystem} plan run disk disk' o : execute_plan plan run disk = (disk', Ok o) →
  validate_plan_resource_limits plan = Ok () ∧
  ∃ status timed_out out err, supervise (cp_program plan) run = Ok (status, timed_out) ∧
    workers (readers run) !! 0%nat = Some out ∧ workers (readers run) !! 1%nat = Some err ∧
    pc out = Finished ∧ pc err = Finished ∧
    disk' = <[ca_stderr (cp_artifacts plan) := kept err]> (<[ca_stdout (cp_artifacts plan) := kept out]> disk) ∧
    o = outcome_of plan run status timed_out (kept out, truncated out) (kept err, truncated err).
Proof.
  unfold execute_plan. destruct (validate_plan_resource_limits plan) as [[]|]; [|done].
  destruct (List.find _ _); [done|]. destruct (spawned run); [|done]. intros H. split; [done|]. revert H.
  unfold collect. destruct (supervise _ _) as [[status timed_out]|] eqn:Hs; [|done].
  destruct (join_capture _ "stdout" _) as [stdout|] eqn:Hout; [|done].
  destruct (join_capture _ "stderr" _) as [stderr|] eqn:Herr; [|done].
  apply join_capture_ok in Hout as (out & Hout & Hfo & ->), Herr as (err & Herr & Hfe & ->).
  destruct (write_artifact _ (ca_stdout _) _ _ _ _ _) as [disk1 [[]|]] eqn:W1; [|done].
  destruct (write_artifact _ (ca_stderr _) _ _ _ _ _) as [disk2 [[]|]] eqn:W2; [|done].
  destruct (negb timed_out && _ && _); [done|]. intros [= <- <-].
  apply write_artifact_ok in W1 as ->, W2 as ->. by exists status, timed_out, out, err.
Qed.

Lemma outcome_success plan run status timed_out stdout stderr :
  supervise (cp_program plan) run = Ok (status, timed_out) →
  co_success (outcome_of plan run status timed_out stdout stderr) = true ↔ waited run = Exits {| status_code := Some 0%Z |}.
Proof.
  intros [_ Hwait]%supervise_ok. rewrite Hwait. simpl. rewrite andb_true_iff, success_status, negb_true_iff.
  destruct timed_out; [by split; [intros []|]|]. split; [by intros [-> _]|by intros [= ->]].
Qed.

(** ** Properties *)

(** C29: an execution that is reported at all had the limits of its resource
    policy, and its process group was terminated.  It is a success exactly if the
    child exited by itself with code 0, and only then does the tool exit with 0.
    The artifacts on disk are prefixes of the two streams, together within the
    limit, whole exactly if no truncation is reported, and the text in the
    report is theirs. *)
Theorem execute_plan_correct `{fs : FileSystem} (plan : CommandPlan) (run : ChildRun) (disk disk' : Disk)
  (o : CommandOutcome) (out err : list (list ascii)) (es : list Event)
  (distinct : ca_stdout (cp_artifacts plan) ≠ ca_stderr (cp_artifacts plan))
  (chunks : Forall (Forall (λ c, c ≠ [])) [out; err])
  (reached : Capture.run (cp_max_output_bytes plan) (start [out; err]) es = Some (readers run))
  (executed : execute_plan plan run disk = (disk', Ok o)) :
  let policy := effective_scalar (effective (cp_resource_policy plan)) in
  (cp_timeout_seconds plan = timeout_seconds policy ∧ cp_max_output_bytes plan = max_output_bytes policy) ∧
  terminated run = true ∧
  (co_success o = true ↔ waited run = Exits {| status_code := Some 0%Z |}) ∧
  (stable_exit_code o = 0 ↔ co_success o = true) ∧ stable_exit_code o ≤ 255 ∧
  ∃ stdout stderr,
    disk' !! ca_stdout (cp_artifacts plan) = Some stdout ∧ disk' !! ca_stderr (cp_artifacts plan) = Some stderr ∧
    stdout `prefix_of` concat out ∧ stderr `prefix_of` concat err ∧
    N.of_nat (length stdout + length stderr) ≤ max_output_bytes policy ∧
    (co_stdout_truncated o = false ↔ stdout = concat out) ∧ (co_stderr_truncated o = false ↔ stderr = concat err) ∧
    co_stdout o = from_utf8_lossy stdout ∧ co_stderr o = from_utf8_lossy stderr.
Proof.
  apply execute_plan_ok in executed as ([Ht Hm]%limits_ok & status & timed_out & wo & we & Hsup & Hwo & Hwe & Hpo & Hpe & -> & ->).
  pose proof (supervise_ok _ _ _ _ Hsup) as [Hterm _].
  pose proof (run_capturing _ _ _ _ _ (start_capturing _ _ chunks) reached) as Hcap.
  destruct (capturing_stream _ _ _ 0 out wo Hcap eq_refl Hwo) as (Hp1 & Ht1 & Hf1).
  destruct (capturing_stream _ _ _ 1 err we Hcap eq_refl Hwe) as (Hp2 & Ht2 & Hf2).
  split; [done|]. split; [done|]. split; [by apply outcome_success|].
  split; [apply exit_code_byte|]. split; [apply exit_code_byte|].
  exists (kept wo), (kept we). split; [by rewrite lookup_insert_ne, lookup_insert_eq|].
  split; [by rewrite lookup_insert_eq|]. split_and!; try done; simpl.
  - destruct Hcap as [Hs Hw _ _ Hr _ _]. rewrite <- Hm. apply Forall2_length in Hr.
    destruct (workers (readers run)) as [|wo' [|we' [|]]]; simplify_eq/=. lia.
  - destruct (truncated wo) eqn:E; [by split; [|intros []%(proj2 (Ht1 eq_refl))]|]. split; [by intros _; apply Hf1|done].
  - destruct (truncated we) eqn:E; [by split; [|intros []%(proj2 (Ht2 eq_refl))]|]. split; [by intros _; apply Hf2|done].
Qed.

(** Writing an artifact, stopped anywhere, leaves the artifact as it was or
    whole, and reports success exactly in the second case; no other file that
    existed is touched, and nothing is written unless the directory of the
    artifact lies in the workspace. *)
Theorem write_artifact_atomic `{fs : FileSystem} (workspace path : Path) (contents : list ascii) (pid seq : N)
  (answer : WriteAnswer) (disk : Disk) (absolute : is_absolute path = true) :
  let '(disk', r) := write_artifact workspace path contents pid seq answer disk in
  disk' !! path = (if is_ok r then Some contents else disk !! path) ∧
  (∀ p old, p ≠ path → disk !! p = Some old → disk' !! p = Some old) ∧
  (disk' ≠ disk → ∃ directory, parent path = Some directory ∧ inside workspace directory).
Proof. destruct (write_artifact _ _ _ _ _ _ _) eqn:E. by eapply write_artifact_spec. Qed.

(** A printed command line, read by the word rules of the shell, is the
    command: no argument is split, merged or lost. *)
Theorem command_display_roundtrip (program : string) (args : list string) :
  shell_words false None (bytes (command_display program args)) = Some (List.map bytes (program :: args)).
Proof.
  unfold command_display. rewrite bytes_of_bytes.
  rewrite <- (List.map_map bytes shell_quote). by apply words_join.
Qed.


(** *** Witnesses *)

(** A directory tree without symbolic links, in which every directory exists. *)
Definition plain_fs : FileSystem :=
  {| canonicalize p := Some p; path_exists _ := true; metadata _ := None; open_file _ := None |}.

Definition old_disk : Disk := {[ "/ws/a/out.log" := bytes "old" ]}.
Definition written (answer : WriteAnswer) : Disk * result unit FmError :=
  write_artifact (fs := plain_fs) "/ws" "/ws/a/out.log" (bytes "new") 7 0 answer old_disk.

Lemma write_artifact_atomic_witness :
  (written (WriteFails 1)).2 = Err (Io "/ws/a/.out.log.7.0.tmp") ∧
  (written (WriteFails 1)).1 !! "/ws/a/.out.log.7.0.tmp" = Some (bytes "n") ∧
  (written (WriteFails 1)).1 !! "/ws/a/out.log" = Some (bytes "old") ∧
  (written Completes).1 !! "/ws/a/out.log" = Some (bytes "new").
Proof.
  split; [vm_compute; reflexivity|]. split; [vm_compute; reflexivity|].
  pose proof (λ answer, write_artifact_atomic (fs := plain_fs) "/ws" "/ws/a/out.log" (bytes "new") 7 0 answer old_disk
    ltac:(vm_compute; reflexivity)) as H.
  split.
  - specialize (H (WriteFails 1)). assert (is_ok (written (WriteFails 1)).2 = false) as E by (vm_compute; reflexivity). unfold written in *.
    destruct (write_artifact _ _ _ _ _ _ _) as [d r]. destruct H as [H _]. cbn [snd] in E. rewrite E in H. exact H.
  - specialize (H Completes). assert (is_ok (written Completes).2 = true) as E by (vm_compute; reflexivity). unfold written in *.
    destruct (write_artifact _ _ _ _ _ _ _) as [d r]. destruct H as [H _]. cbn [snd] in E. rewrite E in H. exact H.
Defined.

(** A type check that prints two lines and a warning. *)
Definition demo_output : list (list ascii) := [bytes "first "; bytes "second"].
Definition demo_warning : list (list ascii) := [bytes "warning"].
Definition demo_schedule : list Event :=
  [Read 0; Read 1; Load 1 0; Load 0 0; Swap 0; SwapFails 1 6; Swap 1; Read 0; Load 0 13; Swap 0; Read 1; Read 0].

Definition demo_check : CommandPlan := demo_plan Check.

Definition demo_run (code : option Z) : ChildRun :=
  {| created _ := true; spawned := true; waited := Exits {| status_code := code |}; terminated := true; stdin_written := true;
     readers := default (start []) (Capture.run (cp_max_output_bytes demo_check) (start [demo_output; demo_warning]) demo_schedule);
     elapsed_millis := 40; stdout_answer := Completes; stderr_answer := Completes; run_process_id := 9; run_sequence := 0 |}.

Definition demo_outcome (code : option Z) : CommandOutcome :=
  outcome_of demo_check (demo_run code) {| status_code := code |} false (bytes "first second", false) (bytes "warning", false).

Definition demo_disk : Disk :=
  <["/ws/.formal-artifacts/fmctl/check.stderr.log" := bytes "warning"]>
    {[ "/ws/.formal-artifacts/fmctl/check.stdout.log" := bytes "first second" ]}.

Lemma execute_plan_correct_witness :
  execute_plan (fs := plain_fs) demo_check (demo_run (Some 0%Z)) ∅ = (demo_disk, Ok (demo_outcome (Some 0%Z))) ∧
  stable_exit_code (demo_outcome (Some 0%Z)) = 0 ∧ stable_exit_code (demo_outcome (Some 3%Z)) = 3 ∧
  stable_exit_code (demo_outcome None) = 10.
Proof.
  assert (execute_plan (fs := plain_fs) demo_check (demo_run (Some 0%Z)) ∅ = (demo_disk, Ok (demo_outcome (Some 0%Z)))) as Hx
    by (vm_compute; reflexivity).
  split; [exact Hx|]. split; [|split; vm_compute; reflexivity].
  destruct (execute_plan_correct (fs := plain_fs) demo_check (demo_run (Some 0%Z)) ∅ demo_disk (demo_outcome (Some 0%Z))
    demo_output demo_warning demo_schedule) as (_ & _ & Hs & He & _).
  - vm_compute. discriminate.
  - repeat constructor; discriminate.
  - vm_compute. reflexivity.
  - exact Hx.
  - apply He, Hs. reflexivity.
Defined.
