(* ===== verification/Corpus.v ===== *)
(** * Corpus: the trace files of a model

    [src/tools/fmctl/src/lib.rs], [matching_trace_paths],
    [clear_existing_trace_outputs] and [validate_trace_corpus].  The directory of
    the traces is a finite map from the names of its entries; reading it lists
    them in any order.  serde_json's reader is a parameter.

    Clearing removes the traces of the pattern and no other file
    ([clear_traces_correct]).  A corpus is accepted exactly if it has the number
    of traces asked for, all readable, every state with its action, and the
    required actions all taken ([validate_trace_corpus_correct]). *)

From S2P Require Import Prelude Text Json Btree Path Manifest Workspace Plan.

(** ** The directory of the traces *)

Inductive Node :=
| Regular (content : list ascii)
| Symlink
| OtherNode.

(** What [exists] and [read_dir] of the directory answer. *)
Inductive Directory :=
| Missing
| Unreadable
| Entries (nodes : gmap string Node).

(** ** Operations *)

(** [split_once] at a text. *)
Fixpoint split_at (p l : list ascii) : option (list ascii * list ascii) :=
  match strip_prefix p l with
  | Some rest => Some ([], rest)
  | None =>
      match l with
      | [] => None
      | a :: l' => match split_at p l' with Some (x, y) => Some (a :: x, y) | None => None end
      end
  end.

Definition strip_suffix (p l : list ascii) : option (list ascii) :=
  option_map (@rev ascii) (strip_prefix (rev p) (rev l)).

(** The test of [filter_map]. *)
Definition is_trace_name (prefix suffix : list ascii) (name : string) : bool :=
  utf8 (bytes name) &&
  match strip_prefix prefix (bytes name) with
  | Some rest =>
      match strip_suffix suffix rest with
      | Some sequence => negb (length sequence =? 0)%nat && forallb is_ascii_digit sequence
      | None => false
      end
  | None => false
  end.

(** The traces by the names of their files, in the order of their paths. *)
Definition matching_trace_paths (pattern : Path) (d : Directory) : result (list string) FmError :=
  let? directory := ok_or (parent pattern) (Validation [NoParent pattern]) in
  match d with
  | Missing => Ok []
  | _ =>
      let? file_name := ok_or (match file_name pattern with
                               | Some name => if utf8 (bytes name) then Some name else None
                               | None => None
                               end) (Validation [PatternNotUtf8]) in
      let? parts := ok_or (split_at (bytes "{seq}") (bytes file_name)) (Validation [PatternWithoutPlaceholder]) in
      match d with
      | Entries nodes =>
          Ok (sort_by (λ a b, path_cmp (join directory a) (join directory b))
                (List.filter (is_trace_name parts.1 parts.2) (List.map fst (map_to_list nodes))))
      | _ => Err (Io directory)
      end
  end.

Definition nodes_of (d : Directory) : gmap string Node :=
  match d with Entries nodes => nodes | _ => ∅ end.

(** The path of an entry. *)
Definition trace_path (pattern : Path) (name : string) : Path := join (default "" (parent pattern)) name.

Section Clear.
(** Whether [remove_file] succeeds. *)
Context (removable : Path → bool).

Fixpoint remove_traces (pattern : Path) (names : list string) (nodes : gmap string Node)
    : gmap string Node * result unit FmError :=
  match names with
  | [] => (nodes, Ok ())
  | name :: names =>
      match nodes !! name with
      | None => (nodes, Err (Io (trace_path pattern name)))
      | Some OtherNode => (nodes, refuse (NonFileTrace (trace_path pattern name)))
      | Some _ =>
          if removable (trace_path pattern name) then remove_traces pattern names (delete name nodes)
          else (nodes, Err (Io (trace_path pattern name)))
      end
  end.

Definition clear_existing_trace_outputs (plan : CommandPlan) (d : Directory) : Directory * result unit FmError :=
  match ca_trace_pattern (cp_artifacts plan) with
  | None => (d, refuse PatternOmitted)
  | Some pattern =>
      match matching_trace_paths pattern d with
      | Err e => (d, Err e)
      | Ok names =>
          match d with
          | Entries nodes => let '(nodes, r) := remove_traces pattern names nodes in (Entries nodes, r)
          | _ => (d, Ok ())
          end
      end
  end.
End Clear.

Section Validate.
(** [serde_json::from_str] of a value. *)
Context (from_str : string → option json).

(** [trace.get("states")] as a nonempty array. *)
Definition states_of (trace : json) : option (list json) :=
  match trace with
  | JObject m => match bt_get "states" m with Some (JArray (state :: states)) => Some (state :: states) | _ => None end
  | _ => None
  end.

Definition action_of (state : json) : option string :=
  match state with
  | JObject m =>
      match bt_get "mbt::actionTaken" m with
      | Some (JString action) => if is_empty action then None else Some action
      | _ => None
      end
  | _ => None
  end.

Fixpoint state_actions (path : Path) (index : N) (states : list json) (actions : gset string)
    : result (gset string) FmError :=
  match states with
  | [] => Ok actions
  | state :: states =>
      let? action := ok_or (action_of state) (Validation [NoModelAction index path]) in
      state_actions path (index + 1) states ({[ action ]} ∪ actions)
  end.

Definition trace_actions (maximum : N) (path : Path) (node : option Node) (actions : gset string)
    : result (gset string) FmError :=
  match node with
  | None => Err (Io path)
  | Some (Regular content) =>
      let size := N.of_nat (length content) in
      if (size =? 0) || (N.min maximum u64_max <? size) then refuse (TraceSize size path)
      else if negb (utf8 content) then Err (Io path)
      else
        let? trace := ok_or (from_str (of_bytes content)) JsonError in
        let? states := ok_or (states_of trace) (Validation [NoStates path]) in
        state_actions path 0 states actions
  | Some _ => refuse (TraceNotRegular path)
  end.

Fixpoint corpus_actions (maximum : N) (pattern : Path) (nodes : gmap string Node) (names : list string)
    (actions : gset string) : result (gset string) FmError :=
  match names with
  | [] => Ok actions
  | name :: names =>
      let? actions := trace_actions maximum (trace_path pattern name) (nodes !! name) actions in
      corpus_actions maximum pattern nodes names actions
  end.

Definition validate_trace_corpus (loaded : LoadedManifest) (plan : CommandPlan) (d : Directory) : result unit FmError :=
  let m := lm_manifest loaded in
  let? traces := ok_or (traces m) (OperationNotConfigured "trace" (lm_manifest_path loaded)) in
  let? pattern := ok_or (ca_trace_pattern (cp_artifacts plan)) (Validation [PatternOmitted]) in
  let? names := matching_trace_paths pattern d in
  let expected_count := tr_count traces in
  if negb (N.of_nat (length names) =? expected_count)
  then refuse (TraceFileCount (N.of_nat (length names)) expected_count)
  else
    let? actions := corpus_actions (ex_max_output_bytes (execution m)) pattern (nodes_of d) names ∅ in
    match List.filter (λ action, negb (bool_decide (action ∈ actions))) (tr_required_actions traces) with
    | [] => Ok ()
    | missing => refuse (MissingActions missing)
    end.

(** ** Specification *)

(** The name of a trace: the file name of the pattern with digits for [{seq}]. *)
Definition trace_name (pattern : Path) (name : string) : Prop :=
  ∃ file prefix suffix digits, file_name pattern = Some file ∧ utf8 (bytes file) = true ∧
    split_at (bytes "{seq}") (bytes file) = Some (prefix, suffix) ∧
    bytes name = prefix ++ digits ++ suffix ∧ utf8 (bytes name) = true ∧
    digits ≠ [] ∧ Forall (λ a, is_ascii_digit a = true) digits.

(** The pattern of a plan names a file with the placeholder in a directory. *)
Definition good_pattern (pattern : Path) : Prop :=
  is_Some (parent pattern) ∧ ∃ file parts, file_name pattern = Some file ∧ utf8 (bytes file) = true ∧
    split_at (bytes "{seq}") (bytes file) = Some parts.

(** What a file records: the actions of its states. *)
Definition records (maximum : N) (node : Node) (actions : list string) : Prop :=
  ∃ content trace states, node = Regular content ∧ 1 ≤ N.of_nat (length content) ≤ N.min maximum u64_max ∧
    utf8 content = true ∧ from_str (of_bytes content) = Some trace ∧
    states_of trace = Some states ∧ Forall2 (λ state action, action_of state = Some action) states actions.

(** The traces of a directory are as many as asked for, and their actions cover
    what is required.  A directory that is missing has none. *)
Definition covers (t : TraceConfig) (maximum : N) (pattern : Path) (d : Directory) : Prop :=
  is_Some (parent pattern) ∧ (d = Missing ∨ (d ≠ Unreadable ∧ good_pattern pattern)) ∧
  ∃ corpus : list (string * list string),
    NoDup (List.map fst corpus) ∧ N.of_nat (length corpus) = tr_count t ∧
    (∀ name, name ∈ List.map fst corpus ↔ is_Some (nodes_of d !! name) ∧ trace_name pattern name) ∧
    Forall (λ entry, ∃ node, nodes_of d !! entry.1 = Some node ∧ records maximum node entry.2) corpus ∧
    (∀ action, action ∈ tr_required_actions t → ∃ entry, entry ∈ corpus ∧ action ∈ entry.2).
End Validate.

(** ** Lemmas *)

Lemma strip_suffix_Some p l r : strip_suffix p l = Some r ↔ l = r ++ p.
Proof.
  unfold strip_suffix. split.
  - destruct (strip_prefix (rev p) (rev l)) as [x|] eqn:E; [|done]. intros [= <-].
    apply strip_prefix_Some in E. apply (f_equal (@rev ascii)) in E. by rewrite rev_app_distr, !rev_involutive in E.
  - intros ->. rewrite rev_app_distr, strip_prefix_app. simpl. by rewrite rev_involutive.
Qed.

Lemma is_trace_name_spec prefix suffix name : is_trace_name prefix suffix name = true ↔
  ∃ digits, bytes name = prefix ++ digits ++ suffix ∧ utf8 (bytes name) = true ∧
    digits ≠ [] ∧ Forall (λ a, is_ascii_digit a = true) digits.
Proof.
  unfold is_trace_name. rewrite andb_true_iff. split.
  - intros [Hu H]. destruct (strip_prefix prefix (bytes name)) as [rest|] eqn:E1; [|done].
    destruct (strip_suffix suffix rest) as [digits|] eqn:E2; [|done].
    apply strip_prefix_Some in E1. apply strip_suffix_Some in E2. subst rest. exists digits.
    apply andb_true_iff in H as [Hn Hd]. apply forallb_Forall in Hd. repeat split; try done. by intros ->.
  - intros (digits & E & Hu & Hn & Hd). split; [done|]. rewrite E, strip_prefix_app.
    rewrite (proj2 (strip_suffix_Some suffix _ digits) eq_refl). apply forallb_Forall in Hd. rewrite Hd.
    by destruct digits.
Qed.

Lemma trace_name_iff pattern file prefix suffix name :
  file_name pattern = Some file → utf8 (bytes file) = true → split_at (bytes "{seq}") (bytes file) = Some (prefix, suffix) →
  is_trace_name prefix suffix name = true ↔ trace_name pattern name.
Proof.
  intros Hf Hu Hs. rewrite is_trace_name_spec. split.
  - intros (digits & ?). by exists file, prefix, suffix, digits.
  - intros (file' & p & s & digits & Hf' & _ & Hs' & H). simplify_eq. by exists digits.
Qed.

(** What reading the directory gives. *)
Lemma matching_ok pattern d names : matching_trace_paths pattern d = Ok names →
  is_Some (parent pattern) ∧ (d = Missing ∨ (d ≠ Unreadable ∧ good_pattern pattern)) ∧
  NoDup names ∧ (∀ name, name ∈ names ↔ is_Some (nodes_of d !! name) ∧ trace_name pattern name).
Proof.
  unfold matching_trace_paths. intros H. apply res_bind_ok in H as (directory & Hp%ok_or_ok & H). split; [by rewrite Hp|].
  assert (d = Missing ∨ d ≠ Missing) as [->|Hd] by (destruct d; auto).
  { injection H as <-. split; [by left|]. split; [constructor|]. intros name. cbn.
    rewrite lookup_empty. split; [by intros ?%not_elem_of_nil|intros [[? [=]] _]]. }
  assert (∃ file prefix suffix nodes, file_name pattern = Some file ∧ utf8 (bytes file) = true ∧
    split_at (bytes "{seq}") (bytes file) = Some (prefix, suffix) ∧ d = Entries nodes ∧
    names = sort_by (λ a b, path_cmp (join directory a) (join directory b))
              (List.filter (is_trace_name prefix suffix) (List.map fst (map_to_list nodes))))
    as (file & prefix & suffix & nodes & Hf & Hu & Hs & -> & ->).
  { destruct d as [| |nodes]; [done|..];
      apply res_bind_ok in H as (file & Hf%ok_or_ok & H); apply res_bind_ok in H as ([prefix suffix] & Hs%ok_or_ok & H); [done|].
    injection H as <-. exists file, prefix, suffix, nodes. destruct (file_name pattern) as [f|]; [|done].
    destruct (utf8 (bytes f)) eqn:Hu; [|done]. by injection Hf as <-. }
  split; [right; split; [done|]; split; [by rewrite Hp|]; by exists file, (prefix, suffix)|]. split.
  - rewrite sort_by_perm. apply NoDup_ListNoDup, List.NoDup_filter, NoDup_ListNoDup, NoDup_fst_map_to_list.
  - intros name. rewrite sort_by_perm, elem_of_filter_bool, (trace_name_iff pattern file) by done. cbn.
    assert (name ∈ List.map fst (map_to_list nodes) ↔ is_Some (nodes !! name)) as ->; [|done].
    rewrite list_elem_of_fmap. split.
    + intros ([n x] & -> & Hx%elem_of_map_to_list). cbn. by rewrite Hx.
    + intros [x Hx]. exists (name, x). split; [done|]. by apply elem_of_map_to_list.
Qed.

(** A readable directory and a good pattern suffice. *)
Lemma matching_total pattern d : is_Some (parent pattern) → (d = Missing ∨ (d ≠ Unreadable ∧ good_pattern pattern)) →
  ∃ names, matching_trace_paths pattern d = Ok names.
Proof.
  unfold matching_trace_paths. intros [directory ->] [->|[Hd (_ & file & parts & -> & Hu & Hs)]]; [by eexists|].
  cbn [ok_or]. rewrite Hu. cbn [ok_or]. rewrite Hs. cbn [ok_or]. destruct d; [by eexists|done|by eexists].
Qed.

(** An entry that can be removed. *)
Definition removes (removable : Path → bool) (pattern : Path) (nodes : gmap string Node) (name : string) : Prop :=
  ∃ node, nodes !! name = Some node ∧ node ≠ OtherNode ∧ removable (trace_path pattern name) = true.

Lemma remove_traces_keeps removable pattern names : ∀ nodes nodes' r,
  remove_traces removable pattern names nodes = (nodes', r) →
  (∀ n, n ∉ names → nodes' !! n = nodes !! n) ∧ (∀ n, nodes' !! n = None ∨ nodes' !! n = nodes !! n) ∧
  (∀ n, nodes !! n = Some OtherNode → nodes' !! n = Some OtherNode).
Proof.
  induction names as [|name names IH]; intros nodes nodes' r; cbn [remove_traces].
  { intros [= <- _]. auto. }
  assert (∀ node, nodes !! name = Some node → node ≠ OtherNode →
    remove_traces removable pattern names (delete name nodes) = (nodes', r) →
    (∀ n, n ∉ name :: names → nodes' !! n = nodes !! n) ∧ (∀ n, nodes' !! n = None ∨ nodes' !! n = nodes !! n) ∧
    (∀ n, nodes !! n = Some OtherNode → nodes' !! n = Some OtherNode)) as Hstep.
  { intros node Hn Ho H. destruct (IH _ _ _ H) as (H1 & H2 & H3). split; [|split].
    - intros n [Hne Hni]%not_elem_of_cons. rewrite H1 by done. by rewrite lookup_delete_ne.
    - intros n. destruct (decide (n = name)) as [->|Hne].
      + left. destruct (H2 name) as [|E]; [done|]. by rewrite E, lookup_delete_eq.
      + destruct (H2 n) as [|E]; [by left|]. right. by rewrite E, lookup_delete_ne.
    - intros n Hx. apply H3. rewrite lookup_delete_ne; [done|]. intros ->. congruence. }
  destruct (nodes !! name) as [[c| |]|] eqn:En; [..|by intros [= <- _]; auto];
    try (destruct (removable (trace_path pattern name)); [|by intros [= <- _]; auto]); try (by eapply Hstep).
  intros [= <- _]. auto.
Qed.

Lemma remove_traces_ok removable pattern names : ∀ nodes nodes' r, NoDup names →
  remove_traces removable pattern names nodes = (nodes', r) →
  (r = Ok () ↔ Forall (removes removable pattern nodes) names) ∧ (r = Ok () → ∀ n, n ∈ names → nodes' !! n = None).
Proof.
  induction names as [|name names IH]; intros nodes nodes' r Hd; cbn [remove_traces].
  { intros [= <- <-]. split; [done|]. by intros _ n ?%not_elem_of_nil. }
  apply NoDup_cons in Hd as [Hni Hd].
  assert (Forall (removes removable pattern (delete name nodes)) names ↔ Forall (removes removable pattern nodes) names) as Hdel.
  { rewrite !Forall_forall. unfold removes. split; intros H n Hn; specialize (H n Hn);
      (rewrite lookup_delete_ne in H || rewrite lookup_delete_ne; [done|by intros ->]). }
  assert (¬ removes removable pattern nodes name → ∀ e, r = Err e →
    (r = Ok () ↔ Forall (removes removable pattern nodes) (name :: names)) ∧ (r = Ok () → ∀ n, n ∈ name :: names → nodes' !! n = None)) as Hno.
  { intros Hx e ->. split; [|done]. split; [done|]. by intros [? _]%Forall_cons. }
  assert (removes removable pattern nodes name → remove_traces removable pattern names (delete name nodes) = (nodes', r) →
    (r = Ok () ↔ Forall (removes removable pattern nodes) (name :: names)) ∧ (r = Ok () → ∀ n, n ∈ name :: names → nodes' !! n = None)) as Hyes.
  { intros Hx H. destruct (IH _ _ _ Hd H) as [H1 H2]. split; [rewrite Forall_cons, H1, Hdel; naive_solver|].
    intros Hr n [->|Hn]%elem_of_cons; [|by apply (H2 Hr)]. apply remove_traces_keeps in H as (H & _ & _).
    rewrite H by done. apply lookup_delete_eq. }
  destruct (nodes !! name) as [[c| |]|] eqn:En; try (destruct (removable (trace_path pattern name)) eqn:Er).
  all: first [intros H; apply Hyes; [eexists; split; [exact En|split; [done|exact Er]]|exact H]|idtac].
  all: intros [= <- <-]; eapply Hno; [|done]; intros (node & ? & ? & ?); congruence.
Qed.

Section Covering.
Context (from_str : string → option json).

Lemma state_actions_ok path : ∀ states index acc actions,
  state_actions path index states acc = Ok actions ↔
  ∃ l, Forall2 (λ state action, action_of state = Some action) states l ∧ actions = list_to_set l ∪ acc.
Proof.
  induction states as [|state states IH]; intros index acc actions; cbn [state_actions].
  - split; [intros [= <-]; exists []; split; [done|cbn; set_solver]|]. intros (l & ->%Forall2_nil_inv_l & ->). f_equal. cbn. set_solver.
  - rewrite res_bind_ok. setoid_rewrite ok_or_ok. split.
    + intros (a & Ha & H). apply IH in H as (l & Hl & ->). exists (a :: l). split; [by constructor|]. cbn. set_solver.
    + intros (l & (a & l' & Ha & Hl & ->)%Forall2_cons_inv_l & ->). exists a. split; [done|]. apply IH. exists l'.
      split; [done|]. cbn. set_solver.
Qed.

Lemma trace_actions_ok maximum path node acc actions :
  trace_actions from_str maximum path node acc = Ok actions ↔
  ∃ n l, node = Some n ∧ records from_str maximum n l ∧ actions = list_to_set l ∪ acc.
Proof.
  unfold trace_actions, records. destruct node as [[content| |]|]; try (by split; [|naive_solver]).
  destruct (N.eqb_spec (N.of_nat (length content)) 0); cbn [orb].
  { split; [done|]. intros (n' & l & [= <-] & (c & t & s & [= <-] & H & _) & _). lia. }
  destruct (N.ltb_spec (N.min maximum u64_max) (N.of_nat (length content))).
  { split; [done|]. intros (n' & l & [= <-] & (c & t & s & [= <-] & H' & _) & _). lia. }
  destruct (utf8 content) eqn:Hu; cbn [negb].
  2:{ split; [done|]. intros (n' & l & [= <-] & (c & t & s & [= <-] & _ & Hu' & _) & _). congruence. }
  rewrite res_bind_ok. setoid_rewrite res_bind_ok. setoid_rewrite ok_or_ok. setoid_rewrite state_actions_ok. split.
  - intros (t & Ht & s & Hs & l & Hl & ->). exists (Regular content), l. split; [done|]. split; [|done].
    exists content, t, s. split_and!; try done; lia.
  - intros (n' & l & [= <-] & (c & t & s & [= <-] & H' & _ & Ht & Hs & Hl) & ->). by eauto 10.
Qed.

Lemma corpus_actions_ok maximum pattern nodes : ∀ names acc actions,
  corpus_actions from_str maximum pattern nodes names acc = Ok actions ↔
  ∃ corpus, List.map fst corpus = names ∧
    Forall (λ entry, ∃ node, nodes !! entry.1 = Some node ∧ records from_str maximum node entry.2) corpus ∧
    (∀ action, action ∈ actions ↔ action ∈ acc ∨ ∃ entry, entry ∈ corpus ∧ action ∈ entry.2).
Proof.
  induction names as [|name names IH]; intros acc actions; cbn [corpus_actions].
  - split.
    + intros [= <-]. exists []. split; [done|]. split; [done|]. setoid_rewrite elem_of_nil. naive_solver.
    + intros (corpus & E & _ & H). destruct corpus; [|done]. f_equal. apply set_eq. intros x. rewrite H.
      setoid_rewrite elem_of_nil. naive_solver.
  - rewrite res_bind_ok. setoid_rewrite trace_actions_ok. setoid_rewrite IH. split.
    + intros (a & (node & l & Hn & Hr & ->) & corpus & Hc & Hf & Ha). exists ((name, l) :: corpus).
      split; [cbn; by rewrite Hc|]. split; [constructor; [by exists node|done]|]. intros x. rewrite Ha.
      setoid_rewrite elem_of_cons. rewrite elem_of_union, elem_of_list_to_set. naive_solver.
    + intros ([|[n l] corpus] & E & Hf & Ha); [done|]. injection E as -> E. apply Forall_cons in Hf as [(node & Hn & Hr) Hf].
      exists (list_to_set l ∪ acc). split; [by exists node, l|]. exists corpus. split; [done|]. split; [done|].
      intros x. rewrite Ha. setoid_rewrite elem_of_cons. rewrite elem_of_union, elem_of_list_to_set. naive_solver.
Qed.

Lemma no_missing required (actions : gset string) :
  List.filter (λ action, negb (bool_decide (action ∈ actions))) required = [] ↔ ∀ action, action ∈ required → action ∈ actions.
Proof.
  split.
  - intros E action Hin. destruct (decide (action ∈ actions)) as [|Hn]; [done|]. exfalso.
    eapply not_elem_of_nil. rewrite <- E. apply elem_of_filter_bool. split; [exact Hin|]. by rewrite bool_decide_eq_false_2.
  - intros H. apply filter_none, Forall_forall. intros x Hx. by rewrite bool_decide_eq_true_2 by by apply H.
Qed.
End Covering.

(** The accepted corpora. *)
Lemma corpus_ok (from_str : string → option json) (loaded : LoadedManifest) (plan : CommandPlan)
  (d : Directory) :
  validate_trace_corpus from_str loaded plan d = Ok () ↔
  ∃ t pattern, traces (lm_manifest loaded) = Some t ∧ ca_trace_pattern (cp_artifacts plan) = Some pattern ∧
    covers from_str t (ex_max_output_bytes (execution (lm_manifest loaded))) pattern d.
Proof.
  unfold validate_trace_corpus. rewrite res_bind_ok. setoid_rewrite res_bind_ok. setoid_rewrite res_bind_ok. setoid_rewrite ok_or_ok. split.
  - intros (t & Ht & pattern & Hp & names & Hm & H). exists t, pattern. split; [done|]. split; [done|].
    apply matching_ok in Hm as (Hpar & Hdir & Hd & Hn).
    destruct (N.eqb_spec (N.of_nat (length names)) (tr_count t)) as [Hc|]; [|done]. cbn [negb] in H.
    apply res_bind_ok in H as (actions & (corpus & <- & Hf & Ha)%corpus_actions_ok & H).
    destruct (List.filter _ _) eqn:E in H; [|done]. rewrite no_missing in E. split; [done|]. split; [done|].
    exists corpus. rewrite length_map in Hc. split_and!; try done. intros a Hin%E. apply Ha in Hin as [Hin|?]; [|done]. set_solver.
  - intros (t & pattern & Ht & Hp & Hpar & Hdir & corpus & Hd & Hc & Hn & Hf & Hreq). exists t. split; [done|].
    exists pattern. split; [done|]. destruct (matching_total pattern d Hpar Hdir) as [names E]. exists names. split; [done|].
    apply matching_ok in E as (_ & _ & Hd' & Hn').
    assert (List.map fst corpus ≡ₚ names) as Hperm by (apply NoDup_Permutation; [done..|]; intros x; by rewrite Hn, Hn').
    assert (N.of_nat (length names) = tr_count t) as -> by (by rewrite <- Hc, <- Hperm, length_map).
    rewrite N.eqb_refl. cbn [negb]. rewrite res_bind_ok.
    destruct (Permutation_map_inv _ _ (Permutation_sym Hperm)) as (corpus' & -> & Hperm').
    exists (list_to_set (concat (List.map snd corpus'))). split.
    + apply corpus_actions_ok. exists corpus'. split; [done|]. split; [by rewrite <- Hperm'|]. intros a.
      rewrite elem_of_list_to_set, list_elem_of_In, in_concat. setoid_rewrite In_elem. setoid_rewrite list_elem_of_fmap.
      split; [intros (l & (e & -> & He) & Ha); eauto|intros [?|(e & He & Ha)]; [set_solver|eauto]].
    + assert (∀ a, a ∈ tr_required_actions t → a ∈ (list_to_set (concat (List.map snd corpus')) : gset string)) as Hall.
      { intros a (e & He & Ha)%Hreq. rewrite elem_of_list_to_set, list_elem_of_In, in_concat. exists e.2.
        rewrite !In_elem. split; [|done]. apply list_elem_of_fmap. exists e. split; [done|]. by rewrite <- Hperm'. }
      by rewrite (proj2 (no_missing _ _) Hall).
Qed.

(** ** Properties *)

(** Clearing touches nothing but the traces of the pattern and never what is
    no file; it succeeds exactly if every trace is a file or a symbolic link that
    can be removed, and then none is left for the next run to be counted. *)
Theorem clear_traces_correct (removable : Path → bool) (plan : CommandPlan) (pattern : Path) (nodes nodes' : gmap string Node)
  (r : result unit FmError) (planned : ca_trace_pattern (cp_artifacts plan) = Some pattern) (named : good_pattern pattern)
  (cleared : clear_existing_trace_outputs removable plan (Entries nodes) = (Entries nodes', r)) :
  (∀ name, ¬ trace_name pattern name → nodes' !! name = nodes !! name) ∧
  (∀ name, nodes' !! name = None ∨ nodes' !! name = nodes !! name) ∧
  (∀ name, nodes !! name = Some OtherNode → nodes' !! name = Some OtherNode) ∧
  (r = Ok () ↔ ∀ name node, nodes !! name = Some node → trace_name pattern name →
                 node ≠ OtherNode ∧ removable (trace_path pattern name) = true) ∧
  (r = Ok () → ∀ name, trace_name pattern name → nodes' !! name = None).
Proof.
  unfold clear_existing_trace_outputs in cleared. rewrite planned in cleared.
  destruct (matching_total pattern (Entries nodes)) as [names E]; [apply named|by right|]. rewrite E in cleared.
  destruct (remove_traces _ _ _ _) as [x y] eqn:Er. injection cleared as -> ->.
  apply matching_ok in E as (_ & _ & Hd & Hn). cbn [nodes_of] in Hn.
  pose proof (remove_traces_ok _ _ _ _ _ _ Hd Er) as [Hok Hgone].
  destruct (remove_traces_keeps _ _ _ _ _ _ Er) as (Hkeep & Hsub & Hother).
  split; [intros name Ht; apply Hkeep; rewrite Hn; tauto|]. split; [done|]. split; [done|]. split.
  - rewrite Hok, Forall_forall. setoid_rewrite Hn. unfold removes. split.
    + intros H name node Hx Ht. destruct (H name) as (node' & Hx' & ?); [by rewrite Hx|]. by rewrite Hx in Hx'; injection Hx' as <-.
    + intros H name [[node Hx] Ht]. exists node. split; [done|]. by apply H.
  - intros Hr name Ht. destruct (nodes !! name) as [node|] eqn:Hx; [apply Hgone; [done|]; apply Hn; by rewrite Hx|].
    destruct (Hsub name) as [|E]; [done|]. by rewrite E.
Qed.

(** A trace corpus is accepted exactly if the model has traces and the
    directory holds as many files of their pattern as were asked for, each within
    the size limit, UTF-8 and JSON with at least one state, every state carrying
    its action, and all the required actions occur. *)
Theorem validate_trace_corpus_correct (from_str : string → option json) (loaded : LoadedManifest) (plan : CommandPlan)
  (d : Directory) :
  validate_trace_corpus from_str loaded plan d = Ok () ↔
  ∃ t pattern, traces (lm_manifest loaded) = Some t ∧ ca_trace_pattern (cp_artifacts plan) = Some pattern ∧
    covers from_str t (ex_max_output_bytes (execution (lm_manifest loaded))) pattern d.
Proof. apply corpus_ok. Qed.

(** *** Witness *)

Definition demo_nodes : gmap string Node :=
  {[ "opto-sync-clients-protocol-v1-0.itf.json" := Regular (bytes "old");
     "opto-sync-clients-protocol-v1-12.itf.json" := Symlink;
     "opto-sync-clients-protocol-v1-x.itf.json" := Regular (bytes "other");
     "fmctl" := OtherNode ]}.

Definition demo_cleared : Directory * result unit FmError :=
  clear_existing_trace_outputs (λ _, true) (demo_plan demo_trace) (Entries demo_nodes).

Lemma demo_pattern : good_pattern "/ws/.formal-artifacts/opto-sync-clients-protocol-v1-{seq}.itf.json".
Proof.
  split; [by eexists|]. exists "opto-sync-clients-protocol-v1-{seq}.itf.json", (bytes "opto-sync-clients-protocol-v1-", bytes ".itf.json").
  vm_compute. done.
Qed.

Lemma clear_traces_correct_witness :
  (nodes_of demo_cleared.1 !! "fmctl" = Some OtherNode ∧ is_ok demo_cleared.2 = true) ∧
  List.map fst (map_to_list (nodes_of demo_cleared.1)) = ["opto-sync-clients-protocol-v1-x.itf.json"; "fmctl"].
Proof.
  split.
  - destruct demo_cleared as [[| |nodes'] r] eqn:E; [vm_compute in E; discriminate..|].
    destruct (clear_traces_correct (λ _, true) (demo_plan demo_trace)
      "/ws/.formal-artifacts/opto-sync-clients-protocol-v1-{seq}.itf.json" demo_nodes nodes' r) as (_ & _ & Ho & _).
    + vm_compute. reflexivity.
    + exact demo_pattern.
    + exact E.
    + split; [apply Ho; vm_compute; reflexivity|]. apply (f_equal (λ x, is_ok x.2)) in E. rewrite <- E. vm_compute. reflexivity.
  - vm_compute. reflexivity.
Defined.

(** A placeholder in a directory is planned, and its corpus never validates. *)
Example directory_placeholder :
  is_ok (resolve_trace_pattern demo_loaded ".formal-artifacts/{seq}/a.json") = true ∧
  ∀ nodes, is_err (matching_trace_paths "/ws/.formal-artifacts/{seq}/a.json" (Entries nodes)) = true.
Proof. split; [vm_compute; reflexivity|]. intros nodes. reflexivity. Qed.
