(* ===== verification/App.v ===== *)
(** * App: one operation of the tool, from the manifest to the verdict

    [src/tools/fmctl/src/lib.rs], [App::execute_outcome] and [execute], and the
    probes of [doctor]; [execution_report.rs], the report bundle of an execution.
    An operation loads the manifest, builds the plan, clears the old traces, runs
    the command and judges what came back: a truncated output, a corpus that does
    not cover the model and an adapter whose answer is missing, inconsistent or
    negative are failures although the child exited with 0.

    What the child did and what it left in the directory of the traces are
    arguments ([Host]); JSON and TOML are parameters.  A success is reported
    exactly if everything the operation asks for holds
    ([reported_success_correct]); probes are bounded ([probe_bounded]). *)

From S2P Require Import Prelude Text Json Resource Btree Path Manifest Workspace Plan Replay Capture Command Corpus.

(** ** The verdict *)

(** [outcome] with another verdict. *)
Definition with_verdict (o : CommandOutcome) (success : bool) (code : option Z) (failure : option Failure)
    (response : option AdapterReplayResponse) : CommandOutcome :=
  {| co_schema_version := co_schema_version o;
     co_project := co_project o;
     co_model := co_model o;
     co_operation := co_operation o;
     co_program := co_program o;
     co_args := co_args o;
     co_resource_policy := co_resource_policy o;
     co_success := success;
     co_timed_out := co_timed_out o;
     co_exit_code := code;
     co_duration_millis := co_duration_millis o;
     co_stdout := co_stdout o;
     co_stderr := co_stderr o;
     co_stdout_truncated := co_stdout_truncated o;
     co_stderr_truncated := co_stderr_truncated o;
     co_adapter_response := response;
     co_failure := failure;
     co_artifacts := co_artifacts o |}.

Definition fail_outcome (o : CommandOutcome) (message : Failure) (code : N) : CommandOutcome :=
  with_verdict o false
    (if (default 0%Z (co_exit_code o) =? 0)%Z then Some (Z.of_N code) else co_exit_code o)
    (Some message) (co_adapter_response o).

Definition is_trace (op : Operation) : bool := match op with Trace _ => true | _ => false end.
Definition is_replay (op : Operation) : bool := match op with Replay _ _ => true | _ => false end.

(** What the host does for one operation. *)
Record Host := {
  traces_before : Directory;
  removable : Path → bool;
  child : ChildRun;
  traces_after : Directory;
  result_answer : WriteAnswer
}.

Section App.
Context `{fs : FileSystem}.
Context (toml_from_str : string → option Manifest).
Context (ambient : gmap string string).
Context (encode_request : ReplayRequest → option string).
(** serde_json with the derived codecs. *)
Context (decode_request : string → option ReplayRequest).
Context (decode_response : string → option AdapterReplayResponse).
Context (decode_value : string → option json).
Context (encode_outcome : CommandOutcome → option (list ascii)).

(** A verdict, and the error that [execute] returns instead of it. *)
Definition Verdict : Type := CommandOutcome * option FmError.

Definition check_truncation (plan : CommandPlan) (op : Operation) (child_succeeded : bool) (v : Verdict) : Verdict :=
  let '(o, deferred_error) := v in
  if co_stdout_truncated o || co_stderr_truncated o then
    (fail_outcome o (OutputExceeded (cp_max_output_bytes plan) (co_stdout_truncated o) (co_stderr_truncated o)) 10,
     if child_succeeded && is_replay op
     then Some (AdapterProtocol (OutputLimit (cp_max_output_bytes plan) (co_stdout_truncated o) (co_stderr_truncated o)))
     else deferred_error)
  else v.

Definition check_corpus (loaded : LoadedManifest) (plan : CommandPlan) (op : Operation) (traces : Directory)
    (child_succeeded : bool) (v : Verdict) : Verdict :=
  let '(o, deferred_error) := v in
  if child_succeeded && is_trace op then
    match validate_trace_corpus decode_value loaded plan traces with
    | Ok _ => v
    | Err error => (fail_outcome o (FailedWith error) (exit_code error), Some error)
    end
  else v.

Definition replay_answer (plan : CommandPlan) (o : CommandOutcome) : result AdapterReplayResponse FmError :=
  let? request := ok_or (cp_stdin plan) (AdapterProtocol RequestOmitted) in
  let? request := ok_or (decode_request request) JsonError in
  parse_replay_response decode_response (co_stdout o) request.

Definition check_replay (plan : CommandPlan) (op : Operation) (child_succeeded : bool) (v : Verdict) : Verdict :=
  let '(o, deferred_error) := v in
  if is_replay op && negb (co_timed_out o) && negb (co_stdout_truncated o) then
    match replay_answer plan o with
    | Ok response =>
        let o :=
          if rr_success response && negb child_succeeded then fail_outcome o SuccessButExited 10
          else if negb (rr_success response)
          then fail_outcome o (ReportedMismatches (N.of_nat (length (rr_mismatches response)))) 10
          else o in
        (with_verdict o (co_success o) (co_exit_code o) (co_failure o) (Some response), deferred_error)
    | Err error =>
        (fail_outcome o (FailedWith error) (exit_code error),
         if child_succeeded && negb (is_some deferred_error) then Some error else deferred_error)
    end
  else if is_replay op && negb (is_some (co_failure o)) then
    (with_verdict o (co_success o) (co_exit_code o) (Some NoProtocolResponse) (co_adapter_response o), deferred_error)
  else v.

Definition judge (loaded : LoadedManifest) (plan : CommandPlan) (op : Operation) (traces : Directory) (o : CommandOutcome)
    : Verdict :=
  let child_succeeded := co_success o in
  check_replay plan op child_succeeded
    (check_corpus loaded plan op traces child_succeeded (check_truncation plan op child_succeeded (o, None))).

Definition execute_outcome (workspace manifest_path : Path) (op : Operation) (host : Host) (disk : Disk)
    : (Directory * Disk) * result Verdict FmError :=
  match (let? loaded := load toml_from_str workspace manifest_path in
         let? plan := build_plan ambient encode_request loaded op in
         Ok (loaded, plan)) with
  | Err e => (traces_before host, disk, Err e)
  | Ok (loaded, plan) =>
      let '(cleared, r) :=
        if is_trace op then clear_existing_trace_outputs (removable host) plan (traces_before host)
        else (traces_before host, Ok ()) in
      match r with
      | Err e => (cleared, disk, Err e)
      | Ok _ =>
          match execute_plan plan (child host) disk with
          | (disk, Err e) => (traces_after host, disk, Err e)
          | (disk, Ok o) =>
              let '(o, deferred_error) := judge loaded plan op (traces_after host) o in
              match encode_outcome o with
              | None => (traces_after host, disk, Err JsonError)
              | Some text =>
                  match write_artifact (cp_workspace plan) (ca_result (co_artifacts o)) text
                          (run_process_id (child host)) (run_sequence (child host) + 2) (result_answer host) disk with
                  | (disk, Err e) => (traces_after host, disk, Err e)
                  | (disk, Ok _) => (traces_after host, disk, Ok (o, deferred_error))
                  end
              end
          end
      end
  end.

Definition execute (workspace manifest_path : Path) (op : Operation) (host : Host) (disk : Disk)
    : (Directory * Disk) * result CommandOutcome FmError :=
  match execute_outcome workspace manifest_path op host disk with
  | (s, Err e) => (s, Err e)
  | (s, Ok (_, Some error)) => (s, Err error)
  | (s, Ok (o, None)) => (s, Ok o)
  end.

Definition validate (workspace manifest_path : Path) : result ValidationReport FmError :=
  let? loaded := load toml_from_str workspace manifest_path in Ok (report loaded).

Definition plan (workspace manifest_path : Path) (op : Operation) : result CommandPlan FmError :=
  let? loaded := load toml_from_str workspace manifest_path in build_plan ambient encode_request loaded op.

(** *** Probes *)

(** Why a probe has no output, or what it said. *)
Inductive ProbeText :=
| NoArtifactDirectory
| PolicyUnresolved (e : ResourcePolicyError)
| ExecutionFailed (e : FmError)
| Printed (text : string).

Record ToolProbe := {
  tp_name : string;
  tp_command : list string;
  tp_available : bool;
  tp_exit_code : option Z;
  tp_stdout : string;
  tp_stderr : ProbeText
}.

Definition clamp (n low high : N) : N := N.max low (N.min n high).

Definition with_bounds (r : ResourceRequest) (timeout output : N) : ResourceRequest :=
  mk_limits (Some timeout) (Some output) (simulation_max_samples r) (simulation_max_steps r) (verification_max_steps r)
    (trace_count r) (trace_max_steps r) (trace_max_samples r).

(** The plan of a probe, derived from the plan of a check. *)
Definition probe_plan (base_plan : CommandPlan) (name program : string) (args : list string) : result CommandPlan ProbeText :=
  let? artifact_root := ok_or (parent (ca_stdout (cp_artifacts base_plan))) NoArtifactDirectory in
  let probe_timeout := clamp (cp_timeout_seconds base_plan) 1 120 in
  let probe_output := clamp (cp_max_output_bytes base_plan) 1024 (64 * 1024) in
  let? probe_policy := map_err PolicyUnresolved
    (resolve local_v1 (with_bounds (requested (cp_resource_policy base_plan)) probe_timeout probe_output)) in
  let v := effective_scalar (effective probe_policy) in
  Ok {| cp_schema_version := cp_schema_version base_plan;
        cp_project := cp_project base_plan;
        cp_model := cp_model base_plan;
        cp_operation := "doctor-" +:+ name;
        cp_program := program;
        cp_args := args;
        cp_workspace := cp_workspace base_plan;
        cp_cwd := cp_cwd base_plan;
        cp_environment := cp_environment base_plan;
        cp_stdin := None;
        cp_timeout_seconds := timeout_seconds v;
        cp_max_output_bytes := max_output_bytes v;
        cp_resource_policy := probe_policy;
        cp_create_directories := cp_create_directories base_plan;
        cp_artifacts := {| ca_stdout := join artifact_root ("doctor-" +:+ name +:+ ".stdout.log");
                           ca_stderr := join artifact_root ("doctor-" +:+ name +:+ ".stderr.log");
                           ca_result := join artifact_root ("doctor-" +:+ name +:+ ".result.json");
                           ca_trace_pattern := None |} |}.

Definition append_probe_error (stderr message : string) : string :=
  (if is_empty stderr then stderr else stderr +:+ of_bytes [ascii_of_N 10]) +:+ message.

Definition probe_tool (base_plan : CommandPlan) (name program : string) (args : list string) (run : ChildRun) (disk : Disk)
    : Disk * ToolProbe :=
  let failed text := {| tp_name := name; tp_command := program :: args; tp_available := false; tp_exit_code := None;
                        tp_stdout := ""; tp_stderr := text |} in
  match probe_plan base_plan name program args with
  | Err text => (disk, failed text)
  | Ok plan =>
      match execute_plan plan run disk with
      | (disk, Ok output) =>
          let stderr := trim (co_stderr output) in
          let stderr := if co_timed_out output then append_probe_error stderr "probe timed out" else stderr in
          let stderr := if co_stdout_truncated output || co_stderr_truncated output
                        then append_probe_error stderr "probe output exceeded the capture limit" else stderr in
          (disk, {| tp_name := name;
                    tp_command := program :: args;
                    tp_available := co_success output && negb (co_stdout_truncated output) && negb (co_stderr_truncated output);
                    tp_exit_code := co_exit_code output;
                    tp_stdout := trim (co_stdout output);
                    tp_stderr := Printed stderr |})
      | (disk, Err error) => (disk, failed (ExecutionFailed error))
      end
  end.

Record DoctorReport := {
  dr_ready : bool;
  dr_project : string;
  dr_model : string;
  dr_configured_quint : string;
  dr_configured_java : string;
  dr_probes : list ToolProbe
}.

Fixpoint run_probes (base_plan : CommandPlan) (tools : list (string * string * list string)) (runs : list ChildRun) (disk : Disk)
    : Disk * list ToolProbe :=
  match tools, runs with
  | (name, program, args) :: tools, run :: runs =>
      let '(disk, probe) := probe_tool base_plan name program args run disk in
      let '(disk, probes) := run_probes base_plan tools runs disk in
      (disk, probe :: probes)
  | _, _ => (disk, [])
  end.

(** The three tools that are probed. *)
Definition tools (m : Manifest) : list (string * string * list string) :=
  [("npx", tc_npx (toolchain m), ["--version"]);
   ("java", "java", ["-version"]);
   ("quint", tc_npx (toolchain m),
    ["--yes"; "--package=@informalsystems/quint@" +:+ tc_quint (toolchain m); "quint"; "--version"])].

Definition doctor (workspace manifest_path : Path) (npx java quint : ChildRun) (disk : Disk)
    : Disk * result DoctorReport FmError :=
  match (let? loaded := load toml_from_str workspace manifest_path in
         let? base_plan := build_plan ambient encode_request loaded Check in
         Ok (loaded, base_plan)) with
  | Err e => (disk, Err e)
  | Ok (loaded, base_plan) =>
      let m := lm_manifest loaded in
      let '(disk, probes) := run_probes base_plan (tools m) [npx; java; quint] disk in
      (disk, Ok {| dr_ready := forallb tp_available probes;
                   dr_project := project m;
                   dr_model := model m;
                   dr_configured_quint := tc_quint (toolchain m);
                   dr_configured_java := tc_java (toolchain m);
                   dr_probes := probes |})
  end.

(** ** Specification *)

(** What an operation asks for, beyond its child's exit. *)
Definition achieved (loaded : LoadedManifest) (plan : CommandPlan) (op : Operation) (traces : Directory) (o : CommandOutcome)
    : Prop :=
  match op with
  | Trace _ =>
      ∃ t pattern, Manifest.traces (lm_manifest loaded) = Some t ∧ ca_trace_pattern (cp_artifacts plan) = Some pattern ∧
        covers decode_value t (ex_max_output_bytes (execution (lm_manifest loaded))) pattern traces
  | Replay name paths =>
      ∃ request response files text,
        rq_adapter request = name ∧ rq_specification request = lm_spec_path loaded ∧
        Forall2 (replayable loaded (cp_max_output_bytes plan)) paths files ∧ rq_traces request ≡ₚ files ∧
        encode_request request = Some text ∧ cp_stdin plan = Some (text +:+ of_bytes [ascii_of_N 10]) ∧
        ¬ blank (co_stdout o) ∧ decode_response (trim (co_stdout o)) = Some response ∧
        consistent response request ∧ rr_success response = true ∧ co_adapter_response o = Some response
  | _ => True
  end.
End App.

(** ** Lemmas *)

Section Lemmas.
Context `{fs : FileSystem}.
Context (decode_request : string → option ReplayRequest).
Context (decode_response : string → option AdapterReplayResponse).
Context (decode_value : string → option json).
Context (loaded : LoadedManifest) (plan : CommandPlan).

Abbreviation judged := (judge decode_request decode_response decode_value loaded plan).
Abbreviation answered := (replay_answer decode_request decode_response plan).

(** No check turns a failure into a success. *)
Lemma corpus_keeps_failure op traces child v : co_success v.1 = false →
  co_success (check_corpus decode_value loaded plan op traces child v).1 = false.
Proof. destruct v. unfold check_corpus. repeat case_match; done. Qed.

Lemma replay_keeps_failure op child v : co_success v.1 = false →
  co_success (check_replay decode_request decode_response plan op child v).1 = false.
Proof. destruct v. unfold check_replay. repeat case_match; done. Qed.

(** What the verdict depends on. *)
Lemma judge_success op traces o :
  co_success (judged op traces o).1 = true ↔
  co_success o = true ∧ co_stdout_truncated o = false ∧ co_stderr_truncated o = false ∧
  (is_trace op = true → validate_trace_corpus decode_value loaded plan traces = Ok ()) ∧
  (is_replay op = true → co_timed_out o = false →
    ∃ response, answered o = Ok response ∧ rr_success response = true).
Proof.
  unfold judge. destruct (co_success o) eqn:Es.
  2:{ rewrite replay_keeps_failure; [by split; [|intros []]|]. apply corpus_keeps_failure.
      unfold check_truncation. by destruct (_ || _). }
  unfold check_truncation. destruct (co_stdout_truncated o || co_stderr_truncated o) eqn:Etr.
  { rewrite replay_keeps_failure by by apply corpus_keeps_failure. split; [done|]. intros (_ & Eo & Ee & _). by rewrite Eo, Ee in Etr. }
  apply orb_false_iff in Etr as [Eo Ee]. rewrite Eo, Ee. unfold check_corpus. cbn [andb]. destruct (is_trace op) eqn:Et.
  { assert (is_replay op = false) as Er by by destruct op. unfold check_replay. rewrite Er.
    destruct (validate_trace_corpus _ _ _ _) as [[]|]; cbn; [by rewrite Es|].
    split; [done|]. intros (_ & _ & _ & H & _). by specialize (H eq_refl). }
  unfold check_replay. destruct (is_replay op); cbn; [|by rewrite Es]. rewrite Eo. cbn.
  destruct (co_timed_out o); cbn; [destruct (co_failure o); cbn; by rewrite Es|].
  destruct (answered o) as [response|].
  2:{ split; [done|]. intros (_ & _ & _ & _ & H). by destruct (H eq_refl eq_refl) as (? & ? & _). }
  destruct (rr_success response) eqn:Er; cbn.
  - rewrite Es. split; [|done]. intros _. split_and!; try done. intros _ _. by exists response.
  - split; [done|]. intros (_ & _ & _ & _ & H). destruct (H eq_refl eq_refl) as (? & [= <-] & ?). congruence.
Qed.

(** A success keeps what the child's outcome said, and the adapter's answer. *)
Lemma judge_kept op traces o : co_success (judged op traces o).1 = true →
  (judged op traces o).2 = None ∧ co_exit_code (judged op traces o).1 = co_exit_code o ∧
  (is_replay op = true → co_timed_out o = false → ∀ response, answered o = Ok response →
    co_adapter_response (judged op traces o).1 = Some response).
Proof.
  intros H. pose proof H as (Es & Eo & Ee & Ht & Hr)%judge_success. clear H. unfold judge, check_truncation.
  rewrite Eo, Ee. cbn [orb]. unfold check_corpus. rewrite Es. cbn [andb].
  destruct (is_trace op) eqn:Et.
  { rewrite Ht by done. assert (is_replay op = false) as Er by by destruct op. unfold check_replay. by rewrite Er. }
  unfold check_replay. destruct (is_replay op); [|done]. rewrite Eo. cbn [andb negb].
  destruct (co_timed_out o); cbn [andb negb]; [by destruct (co_failure o)|].
  destruct Hr as (response & -> & Hs); [done..|]. rewrite Hs. cbn. split; [done|]. split; [done|]. by intros _ _ ? [= <-].
Qed.

(** The answer to the plan's request. *)
Lemma answered_ok o request text response : cp_stdin plan = Some text → decode_request text = Some request →
  answered o = Ok response ↔
  ¬ blank (co_stdout o) ∧ decode_response (trim (co_stdout o)) = Some response ∧ consistent response request.
Proof. intros Hin Hd. unfold replay_answer. rewrite Hin. cbn [ok_or]. rewrite Hd. cbn [ok_or]. apply parse_ok. Qed.

(** What no verdict changes. *)
Lemma judge_same op traces o : let o' := (judged op traces o).1 in
  co_timed_out o' = co_timed_out o ∧ co_stdout o' = co_stdout o ∧ co_stdout_truncated o' = co_stdout_truncated o ∧
  co_stderr_truncated o' = co_stderr_truncated o ∧ co_artifacts o' = co_artifacts o.
Proof. unfold judge, check_truncation, check_corpus, check_replay. repeat case_match; simplify_eq/=; done. Qed.
End Lemmas.

(** Narrower bounds are granted as they are. *)
Lemma bounds_granted r p timeout output : resolve local_v1 r = Ok p → 1 ≤ timeout ≤ 21600 → 1 ≤ output ≤ 67108864 →
  ∃ q, resolve local_v1 (with_bounds r timeout output) = Ok q ∧
    timeout_seconds (effective_scalar (effective q)) = timeout ∧ max_output_bytes (effective_scalar (effective q)) = output.
Proof.
  intros Hr Ht Ho. pose proof (resolve_spec local_v1 r) as H. rewrite Hr in H. destruct H as [(Hv & Hf & Hw) _].
  assert (accepts local_v1 (with_bounds r timeout output)) as Ha.
  { split; [done|]. split; [|exact Hw]. revert Hf. rewrite !fieldwise_iff. cbn. intros (_ & _ & Hf). split; [lia|]. split; [lia|]. exact Hf. }
  pose proof (resolve_spec local_v1 (with_bounds r timeout output)) as H.
  destruct (resolve local_v1 (with_bounds r timeout output)) as [q|]; [|by destruct H]. destruct H as [_ ->].
  exists (policy_of local_v1 (with_bounds r timeout output)). split; [done|]. cbn. lia.
Qed.

(** ** Properties *)

(** C26: an operation whose verdict is reported was loaded and planned, and its
    result is on disk.  It reports success exactly if the child exited by itself
    with 0, no output was truncated, and what the operation asks for holds: the
    traces cover the model, or the adapter answered the very request of the plan
    consistently that every trace passed.  No error is deferred then, and only
    then does the tool exit with 0. *)
Theorem reported_success_correct `{fs : FileSystem} (toml_from_str : string → option Manifest) (ambient : gmap string string)
  (encode_request : ReplayRequest → option string) (decode_request : string → option ReplayRequest)
  (decode_response : string → option AdapterReplayResponse) (decode_value : string → option json)
  (encode_outcome : CommandOutcome → option (list ascii)) (workspace manifest_path : Path) (op : Operation) (host : Host)
  (disk : Disk) (d' : Directory) (disk' : Disk) (o : CommandOutcome) (deferred : option FmError)
  (round_trip : ∀ r text, encode_request r = Some text → decode_request (text +:+ of_bytes [ascii_of_N 10]) = Some r)
  (executed : execute_outcome toml_from_str ambient encode_request decode_request decode_response decode_value encode_outcome
                workspace manifest_path op host disk = ((d', disk'), Ok (o, deferred))) :
  ∃ loaded plan, load toml_from_str workspace manifest_path = Ok loaded ∧
    build_plan ambient encode_request loaded op = Ok plan ∧
    disk' !! ca_result (cp_artifacts plan) = encode_outcome o ∧
    (co_success o = true ↔
       waited (child host) = Exits {| status_code := Some 0%Z |} ∧
       co_stdout_truncated o = false ∧ co_stderr_truncated o = false ∧
       achieved encode_request decode_response decode_value loaded plan op (traces_after host) o) ∧
    (co_success o = true → deferred = None) ∧ (stable_exit_code o = 0 ↔ co_success o = true).
Proof.
  unfold execute_outcome in executed.
  destruct (load toml_from_str workspace manifest_path) as [loaded|]; [|done].
  destruct (build_plan ambient encode_request loaded op) as [plan|] eqn:Hplan; [|done].
  exists loaded, plan. split; [done|]. split; [done|].
  destruct (if is_trace op then _ else _) as [cleared [[]|]]; [|done].
  destruct (execute_plan plan (child host) disk) as [disk1 [o1|]] eqn:Hex; [|done].
  destruct (judge _ _ _ _ _ _ _ _) as [o2 e2] eqn:Hj. destruct (encode_outcome o2) as [text|] eqn:Henc; [|done].
  destruct (write_artifact _ _ _ _ _ _ _) as [disk2 [[]|]] eqn:Hw; [|done]. injection executed as <- <- <- <-.
  apply write_artifact_ok in Hw as ->.
  apply execute_plan_ok in Hex as (_ & status & timed_out & out & err & Hsup & _ & _ & _ & _ & _ & Ho1).
  assert (Hcs := outcome_success plan (child host) status timed_out (kept out, truncated out) (kept err, truncated err) Hsup).
  rewrite <- Ho1 in Hcs.
  assert (co_artifacts o1 = cp_artifacts plan) as Hart by by rewrite Ho1.
  assert (co_success o1 = true → co_timed_out o1 = false) as Htime by (rewrite Ho1; cbn; intros [_ ?%negb_true_iff]%andb_true_iff; done).
  pose proof (judge_success decode_request decode_response decode_value loaded plan op (traces_after host) o1) as Hok.
  pose proof (judge_kept decode_request decode_response decode_value loaded plan op (traces_after host) o1) as Hkept.
  pose proof (judge_same decode_request decode_response decode_value loaded plan op (traces_after host) o1) as Hsame.
  rewrite Hj in Hok, Hkept, Hsame. cbn [fst snd] in *. destruct Hsame as (_ & Hout & Hto & Hte & Hsa).
  split; [by rewrite <- Hart, <- Hsa, lookup_insert_eq|]. split; [|split; [intros H; apply (Hkept H)|apply exit_code_byte]].
  rewrite <- Hcs, Hto, Hte. clear -round_trip Hplan Hok Hkept Hout Htime. split.
  - intros H2. pose proof H2 as (Hs & Ho & He & Ht & Hr)%Hok. split; [done|]. split; [done|]. split; [done|].
    destruct op as [| | |out|name paths]; try done; cbn [achieved]; [by apply corpus_ok, Ht|].
    destruct (Hr eq_refl (Htime Hs)) as (response & Ha & Hrs). apply Hkept in H2 as (_ & _ & H2).
    specialize (H2 eq_refl (Htime Hs) response Ha).
    apply replay_plan_ok in Hplan as (config & files & text & _ & _ & _ & _ & Hf & _ & _ & Hperm & Henc & Hin & _).
    pose proof (round_trip _ _ Henc) as Hd. apply (answered_ok decode_request decode_response plan o1 _ _ response Hin Hd) in Ha as (Hb & Hresp & Hc).
    rewrite <- Hout in Hb, Hresp. exists (replay_request loaded name files), response, files, text. by split_and!.
  - intros (Hs & Ho & He & Hach). apply Hok. split; [done|]. split; [done|]. split; [done|].
    destruct op as [| | |out|name paths]; try done; cbn [achieved] in Hach; [split; [|done]; intros _; by apply corpus_ok|].
    split; [done|]. intros _ _. destruct Hach as (request & response & files & text & _ & _ & _ & _ & Henc & Hin & Hb & Hresp & Hc & Hrs & _).
    exists response. split; [|done]. apply (answered_ok decode_request decode_response plan o1 _ _ response Hin (round_trip _ _ Henc)).
    by rewrite Hout in *.
Qed.

(** The probe of a tool runs at most two minutes and keeps at most 64 KiB,
    whatever the manifest asks for; otherwise it has the place and the environment
    of the checked plan, no input, and files of its own in the same directory.
    Its policy always resolves, and a tool is available exactly if its command
    exited with 0 in time and all it printed was kept. *)
Theorem probe_bounded `{fs : FileSystem} (base : CommandPlan) (name program : string) (args : list string)
  (run : ChildRun) (disk : Disk) (r : ResourceRequest)
  (policy : resolve local_v1 r = Ok (cp_resource_policy base))
  (planned : is_Some (parent (ca_stdout (cp_artifacts base)))) :
  ∃ plan, probe_plan base name program args = Ok plan ∧
    1 ≤ cp_timeout_seconds plan ≤ 120 ∧ 1024 ≤ cp_max_output_bytes plan ≤ 65536 ∧
    validate_plan_resource_limits plan = Ok () ∧
    cp_program plan :: cp_args plan = program :: args ∧ cp_stdin plan = None ∧ cp_environment plan = cp_environment base ∧
    cp_workspace plan = cp_workspace base ∧ cp_cwd plan = cp_cwd base ∧
    let probe := (probe_tool base name program args run disk).2 in
    (tp_available probe = true ↔ ∃ disk' o, execute_plan plan run disk = (disk', Ok o) ∧
       waited run = Exits {| status_code := Some 0%Z |} ∧ co_stdout_truncated o = false ∧ co_stderr_truncated o = false).
Proof.
  destruct planned as [root Hroot].
  assert (requested (cp_resource_policy base) = r) as Hreq
    by (pose proof (resolve_spec local_v1 r) as H; rewrite policy in H; by destruct H as [_ ->]).
  destruct (bounds_granted r _ (clamp (cp_timeout_seconds base) 1 120) (clamp (cp_max_output_bytes base) 1024 (64 * 1024)) policy)
    as (q & Hq & Ht & Ho); [unfold clamp; lia..|].
  unfold probe_tool, probe_plan. rewrite Hroot. cbn [ok_or]. rewrite Hreq, Hq. cbn [map_err].
  eexists. split; [done|]. cbn [cp_timeout_seconds cp_max_output_bytes]. rewrite Ht, Ho. split; [unfold clamp; lia|].
  split; [unfold clamp; lia|]. split; [by apply limits_ok|]. do 5 (split; [done|]).
  destruct (execute_plan _ run disk) as [disk' [o|e]] eqn:Hex; cbn; [|split; [done|naive_solver]].
  pose proof Hex as (_ & status & timed_out & out & err & Hsup & _ & _ & _ & _ & _ & Heq)%execute_plan_ok.
  rewrite !andb_true_iff, !negb_true_iff. rewrite Heq at 1. rewrite outcome_success by exact Hsup. clear Heq. naive_solver.
Qed.

(** *** Witnesses *)

(** A replay of two traces that the adapter answers. *)
Definition demo_request : ReplayRequest := replay_request demo_loaded "rust" ["/ws/t/1.itf.json"; "/ws/t/0.itf.json"].
Definition encode_demo (r : ReplayRequest) : option string := if r == demo_request then Some "request" else None.
Definition decode_demo (s : string) : option ReplayRequest :=
  if s == "request" +:+ of_bytes [ascii_of_N 10] then Some demo_request else None.

Definition demo_response : AdapterReplayResponse :=
  {| rr_protocol := ADAPTER_PROTOCOL; rr_success := true; rr_traces_total := 2; rr_traces_passed := 2; rr_mismatches := [];
     rr_implementation := {| im_language := "rust"; im_name := "opto_sync"; im_version := "0.1.0" |} |}.

Definition answer_run (chunks : list (list ascii)) (status : WaitAnswer) : ChildRun :=
  {| created _ := true; spawned := true; waited := status; terminated := true; stdin_written := true;
     readers := {| captured_bytes := N.of_nat (length (concat chunks));
                   workers := [{| pc := Finished; source := []; kept := concat chunks; truncated := false |};
                               {| pc := Finished; source := []; kept := []; truncated := false |}] |};
     elapsed_millis := 7; stdout_answer := Completes; stderr_answer := Completes; run_process_id := 9; run_sequence := 0 |}.

Definition demo_host (answer : string) (code : Z) : Host :=
  {| traces_before := Missing; removable _ := true; child := answer_run [bytes answer] (Exits {| status_code := Some code |});
     traces_after := Missing; result_answer := Completes |}.

Definition demo_execution (answer : string) (code : Z) : (Directory * Disk) * result Verdict FmError :=
  execute_outcome (fs := demo_fs) (λ _, Some demo_manifest) demo_ambient encode_demo decode_demo
    (λ s, if s == "ok" then Some demo_response else None) (λ _, None) (λ o, Some (bytes (co_stdout o)))
    "/ws" "formal/fm.toml" demo_replay (demo_host answer code) ∅.

Definition verdict (answer : string) (code : Z) : option (bool * N * bool) :=
  option_map (λ v, (co_success v.1, stable_exit_code v.1, is_some v.2)) (ok (demo_execution answer code).2).

Lemma reported_success_correct_witness :
  (verdict "ok" 0, verdict "ok" 3, verdict "nonsense" 0, verdict "nonsense" 1)
  = (Some (true, 0, false), Some (false, 3, false), Some (false, 3, true), Some (false, 1, false)) ∧
  ∃ o response, (demo_execution "ok" 0).2 = Ok (o, None) ∧ consistent response demo_request ∧ rr_traces_passed response = 2.
Proof.
  split; [vm_compute; reflexivity|].
  assert (is_ok (demo_execution "ok" 0).2 = true) as Hok by (vm_compute; reflexivity).
  destruct (demo_execution "ok" 0) as [[d' disk'] [[o e]|err]] eqn:E; [|discriminate]. clear Hok.
  destruct (reported_success_correct (fs := demo_fs) (λ _, Some demo_manifest) demo_ambient encode_demo decode_demo
    (λ s, if s == "ok" then Some demo_response else None) (λ _, None) (λ o, Some (bytes (co_stdout o)))
    "/ws" "formal/fm.toml" demo_replay (demo_host "ok" 0) ∅ d' disk' o e) as (loaded & plan & Hl & Hp & _ & Hs & Hd & _).
  - intros r text. unfold encode_demo. destruct (decide (r = demo_request)) as [->|H].
    + rewrite bool_decide_eq_true_2 by reflexivity. intros [= <-]. vm_compute. reflexivity.
    + rewrite bool_decide_eq_false_2 by exact H. discriminate.
  - exact E.
  - assert (co_success o = true) as Ho.
    { transitivity (match (demo_execution "ok" 0).2 with Ok v => co_success v.1 | Err _ => false end); [by rewrite E|].
      vm_compute. reflexivity. }
    exists o, demo_response. rewrite (Hd Ho). split; [reflexivity|]. split; [|reflexivity].
    apply Hs in Ho as (_ & _ & _ & request & response & files & text & _ & _ & _ & _ & He & _ & _ & Hr & Hc & _).
    assert (request = demo_request) as <-.
    { unfold encode_demo in He. destruct (bool_decide_reflect (request = demo_request)) as [H|H]; [exact H|discriminate]. }
    destruct (bool_decide (trim (co_stdout o) = "ok")); [injection Hr as <-; exact Hc|discriminate].
Defined.

Lemma probe_bounded_witness :
  let probe := (probe_tool (fs := demo_fs) demo_check "java" "java" ["-version"]
                  (answer_run [] (Exits {| status_code := Some 0%Z |})) ∅).2 in
  tp_available probe = true ∧ tp_stderr probe = Printed "" ∧
  ∃ plan, probe_plan demo_check "java" "java" ["-version"] = Ok plan ∧ cp_timeout_seconds plan ≤ 120.
Proof.
  split; [vm_compute; reflexivity|]. split; [vm_compute; reflexivity|].
  destruct (probe_bounded (fs := demo_fs) demo_check "java" "java" ["-version"]
    (answer_run [] (Exits {| status_code := Some 0%Z |})) ∅ (local_request demo_manifest)) as (plan & Hp & [_ Ht] & _).
  - vm_compute. reflexivity.
  - vm_compute. eexists. reflexivity.
  - exists plan. split; [exact Hp|exact Ht].
Defined.
