(* ===== verification/Init.v ===== *)
(** * Init: the creation of a project

    [src/tools/fmctl/src/lib.rs], [App::init]: the labels are checked, the
    directories of the manifest and of the specification are created segment by
    segment without following symbolic links, a specification that exists is kept,
    the manifest is written, and what was written is loaded.

    The workspace is a [Tree] that the operations extend; how the operating system
    sees it is a class per tree, [symlink_metadata] and the answers of the calls.
    [init_keeps_files]: no file that existed is changed, except a manifest with
    [--force], and new directories lie between the workspace and the two files.
    [init_template_well_formed]: the written manifest passes the shape checks unless
    the machine's name is too long, which [init] does not see. *)

From S2P Require Import Prelude Text Resource Btree Path Manifest Workspace Command.

Record InitRequest := { ir_project : string; ir_model : string; ir_spec : Path; ir_main : string; ir_force : bool }.

Record InitReport := { in_created : bool; in_workspace : Path; in_manifest : Path; in_specification : Path }.

(** The errors of the tool, and a constructor per message of this file. *)
Inductive InitError :=
| OfTool (e : FmError)
| BadLabel (label : string)
| EmptyIdentifier (label : string)
| BadIdentifier (label : string)
| BadRelative (label : string) (e : PathError)
| RefusesToOverwrite (manifest : Path)
| PathWithoutParent (p : Path)
| OutsideWorkspace (p : Path)
| InvalidComponent (p : Path)
| SymlinkedParent (p : Path)
| ParentNotDirectory (p : Path).

(** ** Checks *)

Definition label_character (c : ascii) : bool :=
  is_ascii_alphanumeric c || is_byte "-" c || is_byte "_" c || is_byte "." c.

Definition validate_init_label (label value : string) : result unit InitError :=
  if is_empty value || (128 <? len value) || negb (forallb label_character (bytes value)) then Err (BadLabel label) else Ok ().

Definition validate_init_identifier (label value : string) : result unit InitError :=
  match bytes value with
  | [] => Err (EmptyIdentifier label)
  | first :: characters =>
      if negb (is_ascii_alphabetic first || is_byte "_" first)
         || negb (forallb (λ character, is_ascii_alphanumeric character || is_byte "_" character) characters)
      then Err (BadIdentifier label) else Ok ()
  end.

(** ** Templates: lines, with the double quote as its byte *)

Definition quote : string := String (ascii_of_N 34) EmptyString.
Definition line (s : string) : string := s +:+ String newline EmptyString.
Definition text_line (key value : string) : string := line (key +:+ " = " +:+ quote +:+ value +:+ quote).

Definition manifest_template (request : InitRequest) (spec : Path) (main : string) : string :=
  line "# fmctl manifest schema v1"
  +:+ line "schema_version = 1"
  +:+ text_line "project" (ir_project request)
  +:+ text_line "model" (ir_model request)
  +:+ text_line "language" "quint"
  +:+ text_line "spec" spec
  +:+ text_line "main" main
  +:+ text_line "init" "init"
  +:+ text_line "step" "step"
  +:+ line ("invariants = [" +:+ quote +:+ "safety" +:+ quote +:+ "]")
  +:+ line "witnesses = []"
  +:+ line ""
  +:+ line "[toolchain]"
  +:+ text_line "quint" "0.32.0"
  +:+ text_line "java" ">=17"
  +:+ text_line "npx" "npx"
  +:+ line ""
  +:+ line "[execution]"
  +:+ line "timeout_seconds = 1200"
  +:+ line "max_output_bytes = 8388608"
  +:+ text_line "artifacts_dir" ".formal-artifacts"
  +:+ line ""
  +:+ line "[simulation]"
  +:+ text_line "backend" "typescript"
  +:+ line "max_samples = 10000"
  +:+ line "max_steps = 40"
  +:+ line ""
  +:+ line "[verification]"
  +:+ text_line "backend" "tlc"
  +:+ line "exhaustive_finite_model = true"
  +:+ line ""
  +:+ line "[traces]"
  +:+ text_line "format" "itf"
  +:+ line "model_based_testing_metadata = true"
  +:+ line "count = 8"
  +:+ line "max_steps = 30"
  +:+ line "max_samples = 500".

Definition specification_template (main : string) : string :=
  line ("module " +:+ main +:+ " {")
  +:+ line "  var counter: int"
  +:+ line ""
  +:+ line "  action init = {"
  +:+ line "    counter' = 0"
  +:+ line "  }"
  +:+ line ""
  +:+ line "  action step = {"
  +:+ line "    any {"
  +:+ line "      counter' = counter,"
  +:+ line "      counter' = counter + 1,"
  +:+ line "    }"
  +:+ line "  }"
  +:+ line ""
  +:+ line "  val safety = counter >= 0"
  +:+ line "}".

(** What the template says, read as a manifest. *)
Definition template_manifest (request : InitRequest) (spec : Path) (main : string) : Manifest :=
  {| schema_version := 1; project := ir_project request; model := ir_model request; language := Quint; Manifest.spec := spec;
     Manifest.main := main; Manifest.init := "init"; step := "step"; invariants := ["safety"]; witnesses := []; temporal_properties := [];
     toolchain := {| tc_quint := "0.32.0"; tc_java := ">=17"; tc_node := None; tc_rust := None; tc_npx := "npx" |};
     execution := {| ex_timeout_seconds := 1200; ex_max_output_bytes := 8388608; ex_artifacts_dir := ".formal-artifacts" |};
     simulation := Some {| sim_backend := "typescript"; sim_max_samples := 10000; sim_max_steps := 40 |};
     verification := Some {| ver_backend := "tlc"; ver_exhaustive_finite_model := true; ver_max_steps := None |};
     traces := Some {| tr_format := "itf"; tr_model_based_testing_metadata := true; tr_backend := None; tr_seed := None;
                       tr_count := 8; tr_max_steps := 30; tr_max_samples := Some 500; tr_required_actions := [] |};
     adapters := [] |}.

(** ** The workspace *)

(** What [symlink_metadata] tells of a path. *)
Inductive Entry := Absent | Symlink | Directory | OtherEntry | Unreadable.
#[export] Instance Entry_eq_dec : EqDecision Entry.
Proof. solve_decision. Defined.

(** The directories that were created, and the files that were written. *)
Record Tree := { directories : gset Path; files : Disk }.

Definition add_directory (p : Path) (t : Tree) : Tree := {| directories := {[p]} ∪ directories t; files := files t |}.

Section Operations.
(** How the operating system sees a tree. *)
Context (fs_of : Tree → FileSystem).
Context (symlink_metadata : Tree → Path → Entry).
(** Whether [create_dir] succeeds, and where writing stops. *)
Context (creates : Path → bool).
Context (spec_answer manifest_answer : WriteAnswer).
Context (process_id : N).
(** What the counter of temporary names gives for the two files. *)
Context (spec_sequence manifest_sequence : N).
Context (toml_from_str : string → option Manifest).

Definition path_entry_exists (t : Tree) (p : Path) : result bool InitError :=
  match symlink_metadata t p with
  | Absent => Ok false
  | Unreadable => Err (OfTool (Io p))
  | _ => Ok true
  end.

(** The loop over the components of the relative parent. *)
Fixpoint ensure_segments (path current : Path) (segments : list Component) (t : Tree) : Tree * result unit InitError :=
  match segments with
  | [] => (t, Ok ())
  | Normal segment :: segments =>
      let current := join current segment in
      match symlink_metadata t current with
      | Symlink => (t, Err (SymlinkedParent current))
      | OtherEntry => (t, Err (ParentNotDirectory current))
      | Directory => ensure_segments path current segments t
      | Absent =>
          if creates current then ensure_segments path current segments (add_directory current t)
          else (t, Err (OfTool (Io current)))
      | Unreadable => (t, Err (OfTool (Io current)))
      end
  | _ :: _ => (t, Err (InvalidComponent path))
  end.

Definition ensure_workspace_parent (workspace path : Path) (t : Tree) : Tree * result unit InitError :=
  match parent path with
  | None => (t, Err (PathWithoutParent path))
  | Some parent =>
      match strip_components (components workspace) (components parent) with
      | None => (t, Err (OutsideWorkspace path))
      | Some relative =>
          match ensure_segments path workspace relative t with
          | (t, Err e) => (t, Err e)
          | (t, Ok _) =>
              (t, match canonicalize (FileSystem := fs_of t) parent with
                  | None => Err (OfTool (Io parent))
                  | Some canonical_parent =>
                      if negb (path_starts_with canonical_parent workspace)
                      then Err (OfTool (Validation [ParentEscapes canonical_parent])) else Ok ()
                  end)
          end
      end
  end.

Definition validate_existing_workspace_file (t : Tree) (workspace path : Path) (label : string) : result unit InitError :=
  let? canonical := ok_or (canonicalize (FileSystem := fs_of t) path) (OfTool (Io path)) in
  if negb (path_starts_with canonical workspace) then Err (OfTool (Validation [Escapes label canonical]))
  else
    let? m := ok_or (metadata (FileSystem := fs_of t) canonical) (OfTool (Io canonical)) in
    if negb (is_file m) then Err (OfTool (Validation [NotRegular label canonical])) else Ok ().

Definition write_file (workspace path : Path) (contents : string) (number : N) (answer : WriteAnswer) (t : Tree)
    : Tree * result unit InitError :=
  let '(disk, r) := write_artifact (fs := fs_of t) workspace path (bytes contents) process_id number answer (files t) in
  ({| directories := directories t; files := disk |}, map_err OfTool r).

(** The checks before the workspace is touched: the workspace and the two paths. *)
Definition checked_request (self_workspace self_manifest : Path) (request : InitRequest) (t : Tree)
    : result (Path * Path * Path) InitError :=
  let? _ := validate_init_label "project" (ir_project request) in
  let? _ := validate_init_label "model" (ir_model request) in
  let? _ := validate_init_identifier "main" (ir_main request) in
  let? _ := map_err (BadRelative "manifest") (validate_relative_path self_manifest) in
  let? _ := map_err (BadRelative "spec") (validate_relative_path (ir_spec request)) in
  let? workspace := ok_or (canonicalize (FileSystem := fs_of t) self_workspace) (OfTool (Io self_workspace)) in
  let manifest_path := join workspace self_manifest in
  let? manifest_exists := path_entry_exists t manifest_path in
  if manifest_exists && negb (ir_force request) then Err (RefusesToOverwrite manifest_path)
  else Ok (workspace, manifest_path, join workspace (ir_spec request)).

(** The specification is checked if it exists, and written if not. *)
Definition provide_specification (workspace spec_path : Path) (request : InitRequest) (t : Tree) : Tree * result unit InitError :=
  match path_entry_exists t spec_path with
  | Err e => (t, Err e)
  | Ok true => (t, validate_existing_workspace_file t workspace spec_path "specification")
  | Ok false => write_file workspace spec_path (specification_template (ir_main request)) spec_sequence spec_answer t
  end.

Definition init (self_workspace self_manifest : Path) (request : InitRequest) (t : Tree) : Tree * result InitReport InitError :=
  match checked_request self_workspace self_manifest request t with
  | Err e => (t, Err e)
  | Ok (workspace, manifest_path, spec_path) =>
      match ensure_workspace_parent workspace manifest_path t with
      | (t, Err e) => (t, Err e)
      | (t, Ok _) =>
          match ensure_workspace_parent workspace spec_path t with
          | (t, Err e) => (t, Err e)
          | (t, Ok _) =>
              match provide_specification workspace spec_path request t with
              | (t, Err e) => (t, Err e)
              | (t, Ok _) =>
                  match write_file workspace manifest_path (manifest_template request (ir_spec request) (ir_main request))
                          manifest_sequence manifest_answer t with
                  | (t, Err e) => (t, Err e)
                  | (t, Ok _) =>
                      (t, match load (fs := fs_of t) toml_from_str workspace self_manifest with
                          | Err e => Err (OfTool e)
                          | Ok _ => Ok {| in_created := true; in_workspace := workspace; in_manifest := manifest_path;
                                          in_specification := spec_path |}
                          end)
                  end
              end
          end
      end
  end.

(** ** Lemmas *)

Lemma entry_component c : entry c → ∀ d, c = Normal d → body (bytes d) = [c] ∧ is_absolute d = false.
Proof.
  intros H d ->. split.
  - by apply (concat_entries [Normal d]); constructor.
  - destruct H as [_ Hs]. cbn in Hs. unfold is_absolute. rewrite starts_with_bytes. destruct (bytes d) as [|x l]; [done|].
    simpl in Hs. by apply orb_false_iff in Hs as [Hs _].
Qed.

(** The directories that are created lie on the way, and no file is touched. *)
Lemma ensure_segments_spec path segments : ∀ current t t' r, Forall entry segments → is_absolute current = true →
  ensure_segments path current segments t = (t', r) →
  files t' = files t ∧ directories t ⊆ directories t' ∧
  ∀ d, d ∈ directories t' → d ∈ directories t ∨ ∃ l l', segments = l ++ l' ∧ components d = components current ++ l.
Proof.
  induction segments as [|c segments IH]; intros current t t' r Hs Ha; cbn [ensure_segments].
  { intros [= <- <-]. split; [done|]. split; [done|]. by left. }
  apply Forall_cons in Hs as [Hc Hs]. destruct c as [| | |name]; try (intros [= <- <-]; split; [done|]; split; [done|]; by left).
  destruct (entry_component _ Hc name eq_refl) as [Hb Hn].
  assert (is_absolute (join current name) = true) as Ha' by (apply (under_absolute _ current); [by apply join_under|done]).
  assert (components (join current name) = components current ++ [Normal name]) as Ej by (by rewrite components_join, Hb).
  assert (∀ u, ensure_segments path (join current name) segments u = (t', r) →
    files t' = files u ∧ directories u ⊆ directories t' ∧
    ∀ d, d ∈ directories t' → d ∈ directories u ∨
      ∃ l l', Normal name :: segments = l ++ l' ∧ components d = components current ++ l) as Hrest.
  { intros u Hu. destruct (IH _ _ _ _ Hs Ha' Hu) as (Hf & Hd & H). split; [done|]. split; [done|].
    intros d [?|(l & l' & -> & E)]%H; [by left|]. right. exists (Normal name :: l), l'. split; [done|].
    by rewrite E, Ej, <- app_assoc. }
  destruct (symlink_metadata t (join current name)); try (intros [= <- <-]; split; [done|]; split; [done|]; by left).
  - destruct (creates (join current name)); [|intros [= <- <-]; split; [done|]; split; [done|]; by left].
    intros (Hf & Hd & H)%Hrest. split; [done|]. split; [cbn in Hd; set_solver|]. intros d [Hin|?]%H; [|by right].
    cbn in Hin. apply elem_of_union in Hin as [->%elem_of_singleton|?]; [|by left]. right. exists [Normal name], segments. by split.
  - apply Hrest.
Qed.

(** The way to a path of the workspace. *)
Definition on_the_way (workspace path d : Path) : Prop :=
  path_starts_with d workspace = true ∧ path_starts_with path d = true ∧ ¬ path_eq d path = true.

Lemma parent_components p q : parent p = Some q → ∃ c, components p = components q ++ [c].
Proof.
  unfold parent. destruct (rev (components p)) as [|c l] eqn:E; [done|].
  assert (components p = rev l ++ [c]) as Ep by (by rewrite <- (rev_involutive (components p)), E).
  assert (proper (rev l)) as Hp by (eapply proper_prefix; rewrite <- Ep; apply components_proper).
  intros H. exists c. rewrite Ep. f_equal. destruct c; [done|..]; injection H as <-; by rewrite components_of_components.
Qed.

Lemma ensure_parent_spec workspace path t t' r : is_absolute workspace = true →
  ensure_workspace_parent workspace path t = (t', r) →
  files t' = files t ∧ directories t ⊆ directories t' ∧
  ∀ d, d ∈ directories t' → d ∈ directories t ∨ on_the_way workspace path d.
Proof.
  intros Ha. unfold ensure_workspace_parent.
  destruct (parent path) as [q|] eqn:Hq; [|intros [= <- <-]; split; [done|]; split; [done|]; by left].
  destruct (strip_components _ _) as [relative|] eqn:Hr; [|intros [= <- <-]; split; [done|]; split; [done|]; by left].
  destruct (ensure_segments path workspace relative t) as [u [[]|e]] eqn:Hu; intros [= <- <-].
  all: apply strip_components_Some in Hr; destruct (parent_components _ _ Hq) as [c Hc].
  all: assert (Forall entry relative) as Hent by
    (pose proof (components_proper q) as Hp; rewrite Hr in Hp; apply absolute_components in Ha;
     destruct Hp as [Hp|(x & rest & E & _ & Hp)]; [by apply Forall_app in Hp as [_ ?]|];
     destruct (components workspace); [done|]; injection E as _ <-; by apply Forall_app in Hp as [_ ?]).
  all: apply (ensure_segments_spec path relative) in Hu as (Hf & Hd & H); [|done|done]; split; [done|]; split; [done|].
  all: intros d [?|(l & l' & El & E)]%H; [by left|right]; unfold on_the_way, path_eq; rewrite !path_starts_with_iff, bool_decide_eq_true.
  all: split; [by exists l|]; rewrite Hc, Hr, El, E; split; [exists (l' ++ [c]); by rewrite <- !app_assoc|].
  all: rewrite <- !app_assoc; intros Heq%(f_equal length); rewrite !length_app in Heq; simpl in Heq; lia.
Qed.

Lemma write_file_spec workspace path contents number answer t t' r : is_absolute path = true →
  write_file workspace path contents number answer t = (t', r) →
  directories t' = directories t ∧ files t' !! path = (if is_ok r then Some (bytes contents) else files t !! path) ∧
  ∀ p old, p ≠ path → files t !! p = Some old → files t' !! p = Some old.
Proof.
  intros Ha. unfold write_file. destruct (write_artifact _ _ _ _ _ _ _) as [disk w] eqn:E. intros [= <- <-].
  apply (write_artifact_spec (fs := fs_of t)) in E as (H1 & H2 & _); [|done]. split; [done|]. cbn. split; [|exact H2].
  rewrite H1. by destruct w.
Qed.

(** [symlink_metadata] sees every file, and canonical paths are absolute. *)
Definition operating_system : Prop :=
  (∀ t p c, files t !! p = Some c → symlink_metadata t p ≠ Absent) ∧
  (∀ t p c, canonicalize (FileSystem := fs_of t) p = Some c → is_absolute c = true).


Lemma checked_request_Ok self_workspace self_manifest request t workspace manifest_path spec_path : operating_system →
  checked_request self_workspace self_manifest request t = Ok (workspace, manifest_path, spec_path) →
  is_absolute workspace = true ∧ is_absolute manifest_path = true ∧ is_absolute spec_path = true ∧
  manifest_path = join workspace self_manifest ∧ spec_path = join workspace (ir_spec request) ∧
  (is_Some (files t !! manifest_path) → ir_force request = true).
Proof.
  intros [Hseen Habs]. unfold checked_request.
  destruct (validate_init_label _ _); [|done]. destruct (validate_init_label _ _); [|done].
  destruct (validate_init_identifier _ _); [|done].
  destruct (validate_relative_path self_manifest) as [[]|] eqn:Hm; [|done].
  destruct (validate_relative_path (ir_spec request)) as [[]|] eqn:Hs; [|done]. cbn.
  apply path_ok in Hm as (_ & Hm & _). apply path_ok in Hs as (_ & Hs & _).
  destruct (canonicalize _) as [ws|] eqn:Hc; [|done]. cbn. apply Habs in Hc.
  unfold path_entry_exists. destruct (symlink_metadata t (join ws self_manifest)) eqn:Hx; cbn; destruct (ir_force request); cbn;
    try done; intros [= <- <- <-]; (split; [done|]); (split; [by apply (under_absolute _ ws); [apply join_under|]|]);
    (split; [by apply (under_absolute _ ws); [apply join_under|]|]); (split; [done|]); (split; [done|]); intros [c Hf]; try done.
  by apply Hseen in Hf.
Qed.

Lemma provide_spec workspace spec_path request t t' r : operating_system → is_absolute spec_path = true →
  provide_specification workspace spec_path request t = (t', r) →
  directories t' = directories t ∧
  (∀ p old, files t !! p = Some old → files t' !! p = Some old) ∧
  (r = Ok () → symlink_metadata t spec_path = Absent →
    files t' !! spec_path = Some (bytes (specification_template (ir_main request)))).
Proof.
  intros [Hseen _] Ha. unfold provide_specification, path_entry_exists.
  destruct (symlink_metadata t spec_path) eqn:Hx; try (by intros [= <- <-]).
  intros Hw. apply write_file_spec in Hw as (Hd & Hf & Hk); [|done]. split; [done|]. split.
  - intros p old Hp. apply Hk; [|done]. intros ->. by apply Hseen in Hp.
  - intros -> _. exact Hf.
Qed.

(** [init] destroys nothing.  It refuses before it touches the workspace, or every
    file that existed keeps its content, the manifest under [--force] apart, which
    then holds the template; every new directory lies between the workspace and the
    manifest or the specification.  A report means that the manifest holds the
    template and that [load] accepts it. *)
Theorem init_keeps_files (self_workspace self_manifest : Path) (request : InitRequest) (t : Tree)
    (os : operating_system) :
  let '(t', r) := init self_workspace self_manifest request t in
  match checked_request self_workspace self_manifest request t with
  | Err e => t' = t ∧ r = Err e
  | Ok (workspace, manifest_path, spec_path) =>
      let template := bytes (manifest_template request (ir_spec request) (ir_main request)) in
      (∀ p old, files t !! p = Some old →
        files t' !! p = Some old ∨ p = manifest_path ∧ ir_force request = true ∧ files t' !! p = Some template) ∧
      directories t ⊆ directories t' ∧
      (∀ d, d ∈ directories t' → d ∈ directories t ∨ on_the_way workspace manifest_path d ∨ on_the_way workspace spec_path d) ∧
      (∀ report, r = Ok report → files t' !! manifest_path = Some template ∧
        in_manifest report = manifest_path ∧ in_specification report = spec_path ∧
        ∃ loaded, load (fs := fs_of t') toml_from_str workspace self_manifest = Ok loaded)
  end.
Proof.
  unfold init. destruct (checked_request _ _ _ _) as [[[ws mp] sp]|e] eqn:Hc; [|by split].
  apply checked_request_Ok in Hc as (Hw & Hma & Hsa & -> & -> & Hforce); [|done].
  set (template := bytes _).
  destruct (ensure_workspace_parent ws (join ws self_manifest) t) as [t1 r1] eqn:H1.
  apply ensure_parent_spec in H1 as (F1 & D1 & N1); [|done].
  assert (∀ d, d ∈ directories t1 → d ∈ directories t ∨ on_the_way ws (join ws self_manifest) d
    ∨ on_the_way ws (join ws (ir_spec request)) d) as N1' by naive_solver.
  destruct r1 as [[]|e]; [|split; [rewrite F1; by left|done]].
  destruct (ensure_workspace_parent ws (join ws (ir_spec request)) t1) as [t2 r2] eqn:H2.
  apply ensure_parent_spec in H2 as (F2 & D2 & N2); [|done].
  assert (∀ d, d ∈ directories t2 → d ∈ directories t ∨ on_the_way ws (join ws self_manifest) d
    ∨ on_the_way ws (join ws (ir_spec request)) d) as N2' by naive_solver.
  assert (directories t ⊆ directories t2) as D2' by set_solver.
  destruct r2 as [[]|e]; [|split; [rewrite F2, F1; by left|done]].
  destruct (provide_specification _ _ _ t2) as [t3 r3] eqn:H3. apply provide_spec in H3 as (D3 & F3 & _); [|done..].
  rewrite F2, F1 in F3. rewrite <- D3 in N2', D2'.
  destruct r3 as [[]|e]; [|split; [naive_solver|done]].
  destruct (write_file _ _ _ _ _ t3) as [t4 r4] eqn:H4. apply write_file_spec in H4 as (D4 & F4 & K4); [|done].
  rewrite <- D4 in N2', D2'.
  assert (∀ p old, files t !! p = Some old → files t4 !! p = Some old ∨
    p = join ws self_manifest ∧ ir_force request = true ∧ files t4 !! p = Some template) as F4'.
  { intros p old Hp. destruct (decide (p = join ws self_manifest)) as [->|Hne]; [|left; by eauto].
    rewrite F4. destruct (is_ok r4); [right|left; by auto]. split; [done|]. split; [by apply Hforce|done]. }
  destruct r4 as [[]|e]; [|done].
  split; [done|]. split; [done|]. split; [done|].
  destruct (load _ _ _) as [l|e] eqn:Hl; [|done]. intros report [= <-]. split; [exact F4|]. split; [done|]. split; [done|]. by exists l.
Qed.
End Operations.

(** ** Lemmas: the template *)

(** A label of a request reads the same without white space around it. *)
Lemma label_character_range c : label_character c = true → 45 ≤ byte_val c ∧ byte_val c ≤ 122.
Proof. destruct c as [[] [] [] [] [] [] [] []]; vm_compute; by try split. Qed.

Lemma no_space a l : label_character a = true → Forall (λ c, label_character c = true) l →
  strip_front (a :: l) = None ∧ strip_back (a :: l) = None.
Proof.
  assert (∀ c lo hi, 122 < lo → label_character c = true → in_range lo hi c = false) as Hhigh.
  { intros c lo hi Hlo Hc. apply label_character_range in Hc. apply not_true_iff_false. rewrite in_range_spec. lia. }
  assert (∀ c, label_character c = true → ws1 c = false) as H1.
  { intros c Hc. apply label_character_range in Hc. unfold ws1. rewrite orb_false_iff, <- !not_true_iff_false, !in_range_spec. lia. }
  intros Ha Hl. unfold strip_front, strip_back, ws2, ws3. rewrite (H1 a Ha).
  destruct Hl as [|b l Hb Hl]; [done|]. rewrite !(Hhigh a), !(Hhigh b) by done. cbn.
  destruct Hl as [|c l Hc Hl]; [done|]. by rewrite !(Hhigh c) by done.
Qed.

Lemma has_control_none l : Forall (λ c, label_character c = true) l → has_control l = false.
Proof.
  induction 1 as [|a l Ha Hl IH]; [done|]. cbn [has_control]. rewrite IH. apply label_character_range in Ha.
  assert (∀ lo hi, hi < 45 ∨ 122 < lo → in_range lo hi a = false) as Hr.
  { intros lo hi H. apply not_true_iff_false. rewrite in_range_spec. lia. }
  rewrite !Hr by lia. by destruct l.
Qed.

Lemma label_accepted name value : validate_init_label name value = Ok () → label value.
Proof.
  unfold validate_init_label. destruct (is_empty value || _ || _) eqn:E; [done|]. intros _.
  rewrite !orb_false_iff, negb_false_iff, is_empty_false, N.ltb_ge, forallb_Forall in E. destruct E as [[Hne Hlen] Hall].
  assert (∀ l, Forall (λ c, label_character c = true) l → ∀ n, strip_all strip_front n l = l ∧ strip_all strip_back n l = l) as Hs.
  { intros l Hl [|n]; [done|]. cbn. destruct Hl as [|a l Ha Hl]; [done|]. by destruct (no_space a l Ha Hl) as [-> ->]. }
  assert (trim value = value) as E.
  { unfold trim. rewrite (proj1 (Hs (bytes value) Hall _)), (proj2 (Hs (rev (bytes value)) (Forall_rev Hall) _)).
    by rewrite rev_involutive, of_bytes_bytes. }
  unfold label. rewrite E. split; [done|]. split; [done|]. by apply has_control_none.
Qed.

(** The manifest that is written for an accepted request is well-formed exactly if
    the name of the machine has at most 128 bytes, which [init] does not check. *)
Theorem init_template_well_formed (request : InitRequest) (spec : Path)
    (project_accepted : validate_init_label "project" (ir_project request) = Ok ())
    (model_accepted : validate_init_label "model" (ir_model request) = Ok ())
    (main_accepted : validate_init_identifier "main" (ir_main request) = Ok ()) :
  validate_manifest_shape (template_manifest request spec (ir_main request)) = [] ↔ len (ir_main request) ≤ 128.
Proof.
  apply label_accepted in project_accepted, model_accepted.
  assert (validate_identifier "main" (ir_main request) = [] ↔ len (ir_main request) ≤ 128) as Hid.
  { unfold validate_init_identifier in main_accepted. unfold validate_identifier, MAX_IDENTIFIER_BYTES.
    destruct (N.ltb_spec 128 (len (ir_main request))); [split; [done|lia]|]. destruct (bytes _); [done|].
    by destruct (negb _ || negb _). }
  rewrite <- Hid. unfold validate_manifest_shape. cbn [project model main Manifest.main template_manifest].
  rewrite (proj2 (label_nil "project" _) project_accepted), (proj2 (label_nil "model" _) model_accepted).
  split; [rewrite !app_nil; tauto|]. intros ->. vm_compute. reflexivity.
Qed.

(** *** Witnesses *)

(** A workspace without symbolic links, as the operating system sees it. *)
Definition seen (t : Tree) (p : Path) : Entry :=
  match files t !! p with
  | Some _ => OtherEntry
  | None => if decide (p ∈ directories t) then Directory else Absent
  end.

Definition present (t : Tree) (p : Path) : bool := is_absolute p && negb (seen t p == Absent).

Definition tree_fs (t : Tree) : FileSystem :=
  {| canonicalize p := if present t p then Some p else None;
     path_exists := present t;
     metadata p := option_map (λ c : list ascii, {| is_file := true; file_len := N.of_nat (length c) |}) (files t !! p);
     open_file p := option_map (λ c : list ascii, {| open_metadata := Some {| is_file := true; file_len := N.of_nat (length c) |};
                                       open_content := Some c |}) (files t !! p) |}.

Lemma tree_is_a_system : operating_system tree_fs seen.
Proof.
  split; intros t p c.
  - intros H. unfold seen. by rewrite H.
  - cbn. unfold present. by destruct (is_absolute p) eqn:E; cbn; [destruct (negb _); [intros [= <-]|]|].
Qed.

Definition demo_request (main : string) (force : bool) : InitRequest :=
  {| ir_project := "demo"; ir_model := "protocol.v1"; ir_spec := "formal/model.qnt"; ir_main := main; ir_force := force |}.

(** A parser that knows the template of one request. *)
Definition demo_toml (request : InitRequest) (source : string) : option Manifest :=
  if source == manifest_template request (ir_spec request) (ir_main request)
  then Some (template_manifest request (ir_spec request) (ir_main request)) else None.

Definition old_tree : Tree := {| directories := {["/"; "/ws"; "/ws/formal"]}; files := {[ "/ws/formal/fm.toml" := bytes "old" ]} |}.
Definition empty_tree : Tree := {| directories := {["/"; "/ws"]}; files := {[ "/ws/README" := bytes "read me" ]} |}.

Definition demo_init (request : InitRequest) (t : Tree) : Tree * result InitReport InitError :=
  init tree_fs seen (λ _, true) Completes Completes 7 0 1 (demo_toml request) "/ws" "formal/fm.toml" request t.

(** A project is created in a workspace with one file, which is kept. *)
Lemma init_keeps_files_witness :
  is_ok (demo_init (demo_request "model" false) empty_tree).2 = true ∧
  files (demo_init (demo_request "model" false) empty_tree).1 !! "/ws/README" = Some (bytes "read me") ∧
  bool_decide ("/ws/formal" ∈ directories (demo_init (demo_request "model" false) empty_tree).1) = true ∧
  (demo_init (demo_request "model" false) old_tree).2 = Err (RefusesToOverwrite "/ws/formal/fm.toml").
Proof.
  split; [vm_compute; reflexivity|]. split; [|split; vm_compute; reflexivity].
  pose proof (init_keeps_files tree_fs seen (λ _, true) Completes Completes 7 0 1 (demo_toml (demo_request "model" false))
    "/ws" "formal/fm.toml" (demo_request "model" false) empty_tree tree_is_a_system) as H.
  unfold demo_init. destruct (init _ _ _ _ _ _ _ _ _ _ _ _ _) as [t' r].
  change (checked_request tree_fs seen "/ws" "formal/fm.toml" (demo_request "model" false) empty_tree)
    with (Ok (E := InitError) ("/ws" : Path, "/ws/formal/fm.toml" : Path, "/ws/formal/model.qnt" : Path)) in H.
  destruct H as [H _]. destruct (H "/ws/README" (bytes "read me")) as [?|(E & _)]; [vm_compute; reflexivity|done|discriminate].
Defined.

Definition long_name : string := of_bytes (repeat "m"%char 129).

Lemma init_template_well_formed_witness :
  validate_manifest_shape (template_manifest (demo_request "model" false) "formal/model.qnt" "model") = [] ∧
  validate_manifest_shape (template_manifest (demo_request long_name true) "formal/model.qnt" long_name) ≠ [].
Proof.
  split.
  - apply (init_template_well_formed (demo_request "model" false)); vm_compute; [reflexivity..|discriminate].
  - intros H. apply (init_template_well_formed (demo_request long_name true)) in H; vm_compute in H |- *; [by apply H|reflexivity..].
Defined.

(** With [--force] and a long name the old manifest is lost to one that [load] refuses. *)
Example init_forces_a_broken_manifest :
  let '(t, r) := demo_init (demo_request long_name true) old_tree in
  r = Err (OfTool (Validation [Shape (TooLong "main" 128)])) ∧
  files t !! "/ws/formal/fm.toml" =
    Some (bytes (manifest_template (demo_request long_name true) "formal/model.qnt" long_name)).
Proof. vm_compute. split; reflexivity. Qed.
