(* ===== verification/Rpc.v ===== *)
(** * Rpc: the JSON-RPC server of the tool

    [src/tools/fmctl/src/rpc.rs]: requests are read line by line from a buffered
    reader, each up to a size limit, and answered in order.  A reader is the list
    of buffers that [fill_buf] returns; serde_json's reader is a parameter, and
    the application behind the server is a class.

    How the input is cut into buffers does not matter, and no more than the limit
    is kept of a line ([frames_correct]).  Every request that is not a
    notification gets one response with its own id, in order, until the shutdown
    ([answers_in_order]); only the execution methods execute, and not in a dry
    run ([effects_of_request]). *)

From S2P Require Import Prelude Text Json Btree Path Workspace Plan.

Definition JSON_RPC_VERSION : string := "2.0".
Definition MAX_REQUEST_BYTES : N := 1024 * 1024.

(** ** Messages *)

Record RpcRequest := {
  rpc_jsonrpc : string;
  rpc_id : option json;   (** absent in a notification; an explicit null is present *)
  rpc_method : string;
  rpc_params : json
}.

(** The fields of a derived struct: by name in an object, by position in an array. *)
Inductive Fields :=
| Named (m : bmap json)
| Positional (l : list json).

Definition fields_of (v : json) (width : nat) : option Fields :=
  match v with
  | JObject m => Some (Named m)
  | JArray l => if (length l <=? width)%nat then Some (Positional l) else None
  | _ => None
  end.

Definition field (f : Fields) (name : string) (position : nat) : option json :=
  match f with
  | Named m => bt_get name m
  | Positional l => l !! position
  end.

(** The derived decoder: [id] and [params] have defaults, other names are ignored. *)
Definition request_of_value (v : json) : option RpcRequest :=
  match fields_of v 4 with
  | Some f =>
      match field f "jsonrpc" 0, field f "method" 2 with
      | Some (JString jsonrpc), Some (JString method) =>
          Some {| rpc_jsonrpc := jsonrpc; rpc_id := field f "id" 1; rpc_method := method;
                  rpc_params := default JNull (field f "params" 3) |}
      | _, _ => None
      end
  | None => None
  end.

Inductive RpcMessage :=
| RequestExceeds
| ParseError
| InvalidRequest
| BadRequestId
| BadVersion
| OperationRequired
| AdapterRequired
| UnsupportedOperation (name : string)
| InvalidParams
| MethodNotFound (method : string)
| Failed (error : FmError)
| InternalSerialization.

(** The texts and details of errors are left out. *)
Record RpcFault := { code : Z; message : RpcMessage }.

Definition fault (code : Z) (message : RpcMessage) : RpcFault := {| code := code; message := message |}.

Definition from_fm (error : FmError) : RpcFault := fault (-32000 - Z.of_N (exit_code error)) (Failed error).
Definition from_json : RpcFault := fault (-32603) InternalSerialization.

Record RpcResponse := {
  rs_id : json;
  rs_result : option json;
  rs_error : option RpcFault
}.

Definition success (id result : json) : RpcResponse := {| rs_id := id; rs_result := Some result; rs_error := None |}.
Definition error (id : json) (f : RpcFault) : RpcResponse := {| rs_id := id; rs_result := None; rs_error := Some f |}.

(** ** Parameters of an operation *)

Record OperationParams := {
  pa_operation : option string;
  pa_dry_run : bool;
  pa_output : option Path;
  pa_adapter : option string;
  pa_traces : list Path
}.

Definition default_params : OperationParams :=
  {| pa_operation := None; pa_dry_run := false; pa_output := None; pa_adapter := None; pa_traces := [] |}.

(** A field of an optional text: absent and null are [None]. *)
Definition optional_string (v : option json) : option (option string) :=
  match v with
  | None | Some JNull => Some None
  | Some (JString s) => Some (Some s)
  | Some _ => None
  end.

Fixpoint strings (l : list json) : option (list string) :=
  match l with
  | [] => Some []
  | JString s :: l => option_map (cons s) (strings l)
  | _ :: _ => None
  end.

Definition PARAM_NAMES : list string := ["operation"; "dry_run"; "output"; "adapter"; "traces"].

Definition params_of_value (v : json) : option OperationParams :=
  match fields_of v 5 with
  | Some f =>
      if match f with Named m => forallb (λ k, bool_decide (k ∈ PARAM_NAMES)) (bt_keys m) | Positional _ => true end then
        match optional_string (field f "operation" 0), optional_string (field f "output" 2),
              optional_string (field f "adapter" 3) with
        | Some operation, Some output, Some adapter =>
            match field f "dry_run" 1, field f "traces" 4 with
            | (None | Some (JBool _)) as d, (None | Some (JArray _)) as t =>
                let dry_run := match d with Some (JBool b) => b | _ => false end in
                match strings (match t with Some (JArray l) => l | _ => [] end) with
                | Some traces => Some {| pa_operation := operation; pa_dry_run := dry_run; pa_output := output;
                                         pa_adapter := adapter; pa_traces := traces |}
                | None => None
                end
            | _, _ => None
            end
        | _, _, _ => None
        end
      else None
  | None => None
  end.

Definition parse_params (params : json) : result OperationParams RpcFault :=
  match params with
  | JNull => Ok default_params
  | _ => ok_or (params_of_value params) (fault (-32602) InvalidParams)
  end.

Definition operation_from_name (name : string) (params : OperationParams) : result Operation RpcFault :=
  if name == "check" then Ok Check
  else if name == "simulate" then Ok Simulate
  else if name == "verify" then Ok Verify
  else if name == "trace" then Ok (Trace (pa_output params))
  else if name == "replay" then
    let? adapter := ok_or (pa_adapter params) (fault (-32602) AdapterRequired) in
    Ok (Replay adapter (pa_traces params))
  else Err (fault (-32602) (UnsupportedOperation name)).

(** ** The application behind the server *)

(** Validation and planning read; probing and executing change the state.
    [None] is a value that does not serialize. *)
Class Backend (S : Type) := {
  validate_value : S → result (option json) FmError;
  doctor_value : S → S * result (option json) FmError;
  plan_value : Operation → S → result json FmError;
  execute_value : Operation → S → S * result json FmError
}.

Definition capabilities : json :=
  JObject [("adapter_protocol", JString "fmctl.adapter.v1");
           ("execution", JString "serial");
           ("methods", JArray (List.map JString
             ["fm.capabilities"; "fm.validate"; "fm.doctor"; "fm.plan"; "fm.check"; "fm.simulate"; "fm.verify";
              "fm.trace"; "fm.replay"; "fm.shutdown"]));
           ("report_bundle_schema", JString "fm.report-bundle.v1");
           ("schema_version", JNumber (NPosInt 1));
           ("transport", JString "json-rpc-2.0-stdio")].

Definition kind (name : string) (key : string) (value : json) : json :=
  JObject (bt_insert key value [("kind", JString name)]).

(** [trim_start_matches("fm.")] removes every repetition. *)
Fixpoint trim_start_matches (fuel : nat) (p l : list ascii) : list ascii :=
  match fuel, strip_prefix p l with
  | S fuel, Some rest => trim_start_matches fuel p rest
  | _, _ => l
  end.

Definition EXECUTIONS : list string := ["fm.check"; "fm.simulate"; "fm.verify"; "fm.trace"; "fm.replay"].

Definition operation_name_of (method : string) : string :=
  of_bytes (trim_start_matches (length (bytes method)) (bytes "fm.") (bytes method)).

Section Server.
Context {S : Type} `{Backend S}.

Definition plan_answer (operation : Operation) (s : S) : result json RpcFault :=
  let? plan := map_err from_fm (plan_value operation s) in Ok (kind "plan" "plan" plan).

Definition serialized (r : result (option json) FmError) : result json RpcFault :=
  let? v := map_err from_fm r in ok_or v from_json.

Definition dispatch (method : string) (params : json) (s : S) : S * result json RpcFault :=
  if method == "fm.capabilities" then (s, Ok capabilities)
  else if method == "fm.validate" then (s, serialized (validate_value s))
  else if method == "fm.doctor" then let '(s, r) := doctor_value s in (s, serialized r)
  else if method == "fm.plan" then
    (s, let? params := parse_params params in
        let? name := ok_or (pa_operation params) (fault (-32602) OperationRequired) in
        let? operation := operation_from_name name params in
        plan_answer operation s)
  else if bool_decide (method ∈ EXECUTIONS) then
    match (let? params := parse_params params in
           let? operation := operation_from_name (operation_name_of method) params in
           Ok (params, operation)) with
    | Err e => (s, Err e)
    | Ok (params, operation) =>
        if pa_dry_run params then (s, plan_answer operation s)
        else
          let '(s, r) := execute_value operation s in
          (s, let? execution := map_err from_fm r in Ok (kind "execution" "execution" execution))
    end
  else if method == "fm.shutdown" then (s, Ok (JObject [("shutdown", JBool true)]))
  else (s, Err (fault (-32601) (MethodNotFound method))).
End Server.

(** ** Reading *)

Inductive BoundedLine :=
| Eof
| Line (line : list ascii)
| Oversized.

(** What the following calls of [fill_buf] return; an empty buffer is the end of
    the input, and so is the end of the list unless reading fails there. *)
Record Reader := { buffers : list (list ascii); fails : bool }.

(** What stays in the buffer after the consumed bytes. *)
Definition keep (rest : list ascii) (buffers : list (list ascii)) : list (list ascii) :=
  match rest with [] => buffers | _ => rest :: buffers end.

(** The accumulated line takes what the limit leaves room for. *)
Definition extend_line (line consumed : list ascii) : list ascii * bool :=
  let copied := N.to_nat (N.min (N.of_nat (length consumed)) (MAX_REQUEST_BYTES - N.of_nat (length line))) in
  (line ++ take copied consumed, (copied <? length consumed)%nat).

(** The line at the end of the input. *)
Definition at_end (line : list ascii) (oversized : bool) : BoundedLine :=
  if (length line =? 0)%nat && negb oversized then Eof else if oversized then Oversized else Line line.

Fixpoint read_go (fails : bool) (buffers : list (list ascii)) (line : list ascii) (oversized : bool)
    : list (list ascii) * result BoundedLine FmError :=
  match buffers with
  | [] => ([], if fails then Err (Io "<json-rpc stdin>") else Ok (at_end line oversized))
  | [] :: buffers => (buffers, Ok (at_end line oversized))
  | available :: buffers =>
      match split_bytes newline available with
      | Some (before, rest) =>
          let '(line, oversized) := if oversized then (line, true) else extend_line line (before ++ [newline]) in
          (keep rest buffers, Ok (if oversized then Oversized else Line line))
      | None =>
          let '(line, oversized) := if oversized then (line, true) else extend_line line available in
          read_go fails buffers line oversized
      end
  end.

Definition read_bounded_line (reader : Reader) : Reader * result BoundedLine FmError :=
  let '(rest, r) := read_go (fails reader) (buffers reader) [] false in
  ({| buffers := rest; fails := fails reader |}, r).

(** ** The loop *)

Section Loop.
Context {S : Type} `{Backend S}.
(** [serde_json::from_slice]. *)
Context (from_slice : list ascii → option json).

(** What one line does: a response unless it is blank or a notification, and
    whether the server stops. *)
Definition serve_line (line : BoundedLine) (s : S) : S * option RpcResponse * bool :=
  match line with
  | Eof => (s, None, true)
  | Oversized => (s, Some (error JNull (fault (-32600) RequestExceeds)), false)
  | Line line =>
      if forallb is_ascii_whitespace line then (s, None, false)
      else
        match from_slice line with
        | None => (s, Some (error JNull (fault (-32700) ParseError)), false)
        | Some value =>
            match request_of_value value with
            | None => (s, Some (error JNull (fault (-32600) InvalidRequest)), false)
            | Some request =>
                let id := default JNull (rpc_id request) in
                let notification := negb (is_some (rpc_id request)) in
                let send response := if notification then None else Some response in
                match id with
                | JNull | JString _ | JNumber _ =>
                    if negb (rpc_jsonrpc request == JSON_RPC_VERSION)
                    then (s, send (error id (fault (-32600) BadVersion)), false)
                    else
                      let '(s, r) := dispatch (rpc_method request) (rpc_params request) s in
                      (s, send (match r with Ok result => success id result | Err f => error id f end),
                       rpc_method request == "fm.shutdown")
                | _ => (s, send (error JNull (fault (-32600) BadRequestId)), false)
                end
            end
        end
  end.

(** Where writing a response fails: in its text, or at its newline and the flush. *)
Inductive WriteFault := TextFails | LineEndFails.

(** [writable] responses are written, and the next one fails. *)
Record Output := { written : list RpcResponse; writable : nat; write_fault : WriteFault }.

(** What [serde_json::to_writer] meets, it reports as an error of its own. *)
Definition write_error (f : WriteFault) : FmError :=
  match f with TextFails => JsonError | LineEndFails => Io "<json-rpc stdout>" end.

Definition write_response (response : option RpcResponse) (o : Output) : result Output FmError :=
  match response, writable o with
  | None, _ => Ok o
  | Some response, Datatypes.S n => Ok {| written := written o ++ [response]; writable := n; write_fault := write_fault o |}
  | Some _, O => Err (write_error (write_fault o))
  end.

(** The loop ends by itself before the fuel does, which is one more than the
    bytes of the input: every line but the last has at least its newline. *)
Fixpoint run_go (fuel : nat) (reader : Reader) (s : S) (o : Output) : S * Output * result unit FmError :=
  match fuel with
  | O => (s, o, Ok ())
  | Datatypes.S fuel =>
      match read_bounded_line reader with
      | (_, Err e) => (s, o, Err e)
      | (reader, Ok line) =>
          let '(s, response, stop) := serve_line line s in
          match write_response response o with
          | Err e => (s, o, Err e)
          | Ok o => if stop then (s, o, Ok ()) else run_go fuel reader s o
          end
      end
  end.

Definition run_server (reader : Reader) (s : S) (writable : nat) (fault : WriteFault) : S * Output * result unit FmError :=
  run_go (Datatypes.S (length (concat (buffers reader)))) reader s
    {| written := []; writable := writable; write_fault := fault |}.
End Loop.

(** ** Specification *)

(** The lines of the input: each with its newline counted against the limit, the
    last one without, if there is one and it can be read. *)
Definition bounded (line : list ascii) : BoundedLine :=
  if N.of_nat (length line) <=? MAX_REQUEST_BYTES then Line line else Oversized.

Fixpoint frame_pieces (fails : bool) (pieces : list (list ascii)) : list BoundedLine :=
  match pieces with
  | [] => []
  | [piece] => match piece with [] => [] | _ => if fails then [] else [bounded piece] end
  | piece :: pieces => bounded (piece ++ [newline]) :: frame_pieces fails pieces
  end.

Definition frames (fails : bool) (input : list ascii) : list BoundedLine := frame_pieces fails (split_list newline input).

Section Specification.
Context {S : Type} `{Backend S}.
Context (from_slice : list ascii → option json).

(** The server on frames: answers until a shutdown, a failing write or the end. *)
Fixpoint serve (last : result unit FmError) (lines : list BoundedLine) (s : S) (o : Output) : S * Output * result unit FmError :=
  match lines with
  | [] => (s, o, last)
  | line :: lines =>
      let '(s, response, stop) := serve_line from_slice line s in
      match write_response response o with
      | Err e => (s, o, Err e)
      | Ok o => if stop then (s, o, Ok ()) else serve last lines s o
      end
  end.

(** The request of a line, as JSON-RPC has it. *)
Definition request_in (line : BoundedLine) : option RpcRequest :=
  match line with
  | Line l => match from_slice l with Some v => request_of_value v | None => None end
  | _ => None
  end.

Definition blank_line (line : BoundedLine) : bool :=
  match line with Line l => forallb is_ascii_whitespace l | _ => false end.

Definition valid_id (id : json) : bool :=
  match id with JNull | JString _ | JNumber _ => true | _ => false end.

(** The id of the response a line is due: none for a blank line or a
    notification, null if the id is not known or not valid. *)
Definition due (line : BoundedLine) : option json :=
  if blank_line line then None
  else match request_in line with
       | None => Some JNull
       | Some request => option_map (λ id, if valid_id id then id else JNull) (rpc_id request)
       end.

(** A well-formed call of the shutdown method. *)
Definition shuts_down (line : BoundedLine) : bool :=
  negb (blank_line line) &&
  match request_in line with
  | Some request => valid_id (default JNull (rpc_id request)) && (rpc_jsonrpc request == JSON_RPC_VERSION)
                    && (rpc_method request == "fm.shutdown")
  | None => false
  end.

(** The lines up to the first shutdown. *)
Fixpoint served (lines : list BoundedLine) : list BoundedLine :=
  match lines with
  | [] => []
  | line :: lines => line :: if shuts_down line then [] else served lines
  end.
End Specification.

(** ** Lemmas: reading *)

(** What is kept of the part of a line that has been read. *)
Definition held (part : list ascii) : list ascii * bool :=
  (take (N.to_nat MAX_REQUEST_BYTES) part, MAX_REQUEST_BYTES <? N.of_nat (length part)).

Lemma held_extend part c :
  (if (held part).2 then ((held part).1, true) else extend_line (held part).1 c) = held (part ++ c).
Proof.
  unfold held, extend_line. cbn [fst snd]. generalize MAX_REQUEST_BYTES as M. intros M. rewrite length_app, length_take.
  destruct (N.ltb_spec M (N.of_nat (length part))) as [Hlt|Hle].
  - rewrite take_app_le by lia. f_equal. symmetry. apply N.ltb_lt. lia.
  - rewrite (take_ge part) by lia. rewrite Nat.min_r by lia. rewrite take_app_ge by lia. f_equal.
    + f_equal. destruct (N.leb_spec (N.of_nat (length c)) (M - N.of_nat (length part))).
      * rewrite N.min_l, !take_ge by lia. done.
      * rewrite N.min_r by lia. f_equal. lia.
    + apply bool_eq_iff. rewrite Nat.ltb_lt, N.ltb_lt. lia.
Qed.

Lemma held_bounded part : (if (held part).2 then Oversized else Line (held part).1) = bounded part.
Proof.
  unfold held, bounded. cbn [fst snd]. generalize MAX_REQUEST_BYTES as M. intros M.
  destruct (N.ltb_spec M (N.of_nat (length part))), (N.leb_spec (N.of_nat (length part)) M); try lia; [done|].
  by rewrite take_ge by lia.
Qed.

Lemma held_at_end part : at_end (held part).1 (held part).2 = match part with [] => Eof | _ => bounded part end.
Proof.
  unfold at_end. rewrite held_bounded. destruct part as [|a part]; [done|].
  assert ((length (held (a :: part)).1 =? 0)%nat = false) as ->; [|done].
  apply Nat.eqb_neq. unfold held. cbn [fst]. assert (0 < MAX_REQUEST_BYTES) as HM by done. revert HM.
  generalize MAX_REQUEST_BYTES as M. intros M HM. rewrite length_take. cbn [length]. lia.
Qed.

Lemma split_bytes_join c l1 l2 : split_bytes c l1 = None →
  split_bytes c (l1 ++ l2) = option_map (λ ab, (l1 ++ ab.1, ab.2)) (split_bytes c l2).
Proof.
  induction l1 as [|x l1 IH]; simpl; [by destruct (split_bytes c l2) as [[]|]|].
  case_bool_decide; [done|]. destruct (split_bytes c l1) as [[]|]; [done|]. intros _. rewrite IH by done.
  by destruct (split_bytes c l2) as [[]|].
Qed.

Lemma split_bytes_more c l1 l2 a b : split_bytes c l1 = Some (a, b) → split_bytes c (l1 ++ l2) = Some (a, b ++ l2).
Proof.
  intros [-> Ha]%split_bytes_Some. rewrite <- app_assoc. by apply split_bytes_app.
Qed.

(** One call on any buffers: the line up to the newline, or up to the end. *)
Lemma read_go_spec fails bs : ∀ part, Forall (λ b, b ≠ []) bs →
  match split_bytes newline (concat bs) with
  | Some (a, b) => ∃ rest, read_go fails bs (held part).1 (held part).2 = (rest, Ok (bounded (part ++ a ++ [newline]))) ∧
                    concat rest = b ∧ Forall (λ b, b ≠ []) rest
  | None => read_go fails bs (held part).1 (held part).2
            = ([], if fails then Err (Io "<json-rpc stdin>")
                   else Ok (match part ++ concat bs with [] => Eof | _ => bounded (part ++ concat bs) end))
  end.
Proof.
  induction bs as [|available bs IH]; intros part Hne.
  { cbn [concat split_bytes read_go]. by rewrite app_nil_r, held_at_end. }
  apply Forall_cons in Hne as [Ha Hne]. cbn [concat read_go]. destruct available as [|x available]; [done|].
  destruct (split_bytes newline (x :: available)) as [[a b]|] eqn:E.
  - rewrite (split_bytes_more _ _ _ _ _ E). exists (keep b bs). rewrite held_extend.
    destruct (held (part ++ a ++ [newline])) as [line oversized] eqn:Eh. split; [|split].
    + f_equal. f_equal. rewrite <- held_bounded, Eh. done.
    + by destruct b.
    + destruct b; [done|]. by constructor.
  - rewrite (split_bytes_join _ _ _ E), held_extend.
    destruct (held (part ++ x :: available)) as [line oversized] eqn:Eh.
    specialize (IH (part ++ x :: available) Hne). rewrite Eh in IH. cbn [fst snd] in IH.
    destruct (split_bytes newline (concat bs)) as [[a b]|]; cbn [option_map fst snd].
    + rewrite <- app_assoc in IH. rewrite <- app_assoc. exact IH.
    + rewrite <- app_assoc in IH. exact IH.
Qed.

Lemma frames_split fails input : frames fails input =
  match split_bytes newline input with
  | Some (a, b) => bounded (a ++ [newline]) :: frames fails b
  | None => match input with [] => [] | _ => if fails then [] else [bounded input] end
  end.
Proof.
  unfold frames. destruct (split_bytes newline input) as [[a b]|] eqn:E.
  - apply split_bytes_Some in E as [-> Ha]. rewrite split_list_sep by done.
    destruct (split_list_inv newline b) as (p & ps & -> & _). done.
  - rewrite split_list_last; [done|]. apply not_true_iff_false. intros (x & Hx & Hc%bool_decide_eq_true)%existsb_exists.
    subst x. apply in_split in Hx as (l1 & l2 & ->). clear -E. induction l1 as [|y l1 IH]; simpl in E.
    + done.
    + case_bool_decide; [done|]. destruct (split_bytes newline (l1 ++ newline :: l2)) as [[]|]; [done|]. by apply IH.
Qed.

(** ** Lemmas: serving *)

Section ServeLemmas.
Context {S : Type} `{Backend S}.
Context (from_slice : list ascii → option json).

Abbreviation bs_of reader := (concat (buffers reader)).

Definition last_result (reader : Reader) : result unit FmError :=
  if fails reader then Err (Io "<json-rpc stdin>") else Ok ().

(** Any fuel above the length of the input is enough, for any buffers. *)
Lemma run_go_serve fuel : ∀ reader s o, Forall (λ b, b ≠ []) (buffers reader) → (length (bs_of reader) < fuel)%nat →
  run_go from_slice fuel reader s o
  = serve from_slice (last_result reader) (frames (fails reader) (bs_of reader)) s o.
Proof.
  induction fuel as [|fuel IH]; intros reader s o Hne Hf; [lia|]. cbn [run_go]. unfold read_bounded_line.
  pose proof (read_go_spec (fails reader) (buffers reader) [] Hne) as Hread.
  change (held []) with (@nil ascii, false) in Hread. cbn [fst snd app] in Hread. rewrite frames_split.
  destruct (split_bytes newline (bs_of reader)) as [[a b]|] eqn:E.
  - destruct Hread as (rest & -> & Hb & Hne'). cbn [serve]. destruct (serve_line _ _ s) as [[s' response] stop].
    destruct (write_response response o); [|done]. destruct stop; [done|]. rewrite IH; cbn [buffers fails]; [|done|].
    + unfold last_result. cbn [buffers fails]. by rewrite Hb.
    + apply split_bytes_Some in E as [E _]. rewrite E, length_app in Hf. cbn [length] in Hf. rewrite Hb. lia.
  - rewrite Hread. unfold last_result. destruct (fails reader).
    { by destruct (bs_of reader). }
    destruct (bs_of reader) as [|x l] eqn:El; [done|]. cbn [serve].
    destruct (serve_line _ _ s) as [[s' response] stop]. destruct (write_response response o); [|done]. destruct stop; [done|].
    destruct fuel; [cbn in Hf; lia|]. done.
Qed.

(** A response has a result or an error. *)
Definition well_formed_response (r : RpcResponse) : Prop := is_some (rs_result r) ≠ is_some (rs_error r).

Lemma serve_line_due line s s' response stop : line ≠ Eof → serve_line from_slice line s = (s', response, stop) →
  option_map rs_id response = due from_slice line ∧ stop = shuts_down from_slice line ∧
  (∀ r, response = Some r → well_formed_response r).
Proof.
  intros Hne. unfold serve_line, due, shuts_down, blank_line, request_in. destruct line as [|l|]; [done| |].
  2:{ intros [= <- <- <-]. split; [done|]. split; [done|]. by intros ? [= <-]. }
  destruct (forallb is_ascii_whitespace l); [by intros [= <- <- <-]|]. cbn [negb andb].
  destruct (from_slice l) as [v|]; [|intros [= <- <- <-]; split; [done|]; split; [done|]; by intros ? [= <-]].
  destruct (request_of_value v) as [rq|]; [|intros [= <- <- <-]; split; [done|]; split; [done|]; by intros ? [= <-]].
  destruct (rpc_id rq) as [id|]; cbn [default is_some negb option_map].
  - change (Datatypes.id id) with id. assert (valid_id id = true ∨ valid_id id = false) as [Hv|Hv] by (by destruct (valid_id id); auto).
    + rewrite Hv. assert (∀ (A : Type) (x y : A), match id with JNull | JString _ | JNumber _ => x | _ => y end = x) as Hm
        by (intros; by destruct id).
      rewrite Hm. destruct (rpc_jsonrpc rq == JSON_RPC_VERSION); cbn [negb andb].
      * destruct (dispatch _ _ _) as [s1 r]. intros [= <- <- <-]. destruct r; (split; [done|]; split; [done|]; by intros ? [= <-]).
      * intros [= <- <- <-]. split; [done|]. split; [done|]. by intros ? [= <-].
    + rewrite Hv. assert (∀ (A : Type) (x y : A), match id with JNull | JString _ | JNumber _ => x | _ => y end = y) as Hm
        by (intros; by destruct id).
      rewrite Hm. intros [= <- <- <-]. split; [done|]. split; [done|]. by intros ? [= <-].
  - destruct (rpc_jsonrpc rq == JSON_RPC_VERSION); cbn; [|by intros [= <- <- <-]].
    destruct (dispatch _ _ _) as [s1 r]. by intros [= <- <- <-].
Qed.

Lemma frames_not_eof fails input : Eof ∉ frames fails input.
Proof.
  unfold frames. induction (split_list newline input) as [|p ps IH]; cbn [frame_pieces]; [apply not_elem_of_nil|].
  unfold bounded. destruct ps; [destruct p; [apply not_elem_of_nil|destruct fails; [apply not_elem_of_nil|]]|];
    (apply not_elem_of_cons; split; [by destruct (_ <=? _)|]); [apply not_elem_of_nil|done].
Qed.

(** Answers so far, then those of the lines, until writing fails. *)
Lemma serve_answers (last : result unit FmError) lines : Eof ∉ lines → ∀ s o s' o' r,
  serve from_slice last lines s o = (s', o', r) → Forall well_formed_response (written o) →
  let responses := omap (due from_slice) (served from_slice lines) in
  List.map rs_id (written o') = List.map rs_id (written o) ++ take (writable o) responses ∧
  Forall well_formed_response (written o') ∧
  (is_ok r = true ↔ (length responses ≤ writable o)%nat ∧
                    (existsb (shuts_down from_slice) lines = true ∨ is_ok last = true)).
Proof.
  intros Hne. induction lines as [|line lines IH]; intros s o s' o' r.
  { cbn. intros [= <- <- <-] Ho. rewrite take_nil, app_nil_r. split; [done|]. split; [done|]. split; [by intros; split; [lia|right]|].
    by intros [_ [?|?]]. }
  apply not_elem_of_cons in Hne as [Hl Hne]. cbn [serve served existsb].
  destruct (serve_line from_slice line s) as [[s1 response] stop] eqn:E. intros Hs Ho.
  apply serve_line_due in E as (Hdue & -> & Hwf); [|done].
  destruct (write_response response o) as [o1|e] eqn:Ew.
  - assert (Forall well_formed_response (written o1) ∧ ∃ n, writable o = (n + writable o1)%nat ∧
      (due from_slice line = None ∧ n = 0%nat ∧ written o1 = written o ∨
       ∃ id x, due from_slice line = Some id ∧ n = 1%nat ∧ rs_id x = id ∧ written o1 = written o ++ [x])) as (Ho1 & n & Hn & Hcase).
    { destruct response as [x|]; cbn in Ew, Hdue.
      - destruct (writable o) as [|k] eqn:Ek; [done|]. injection Ew as <-. cbn. split.
        + apply Forall_app. split; [done|]. repeat constructor. by apply Hwf.
        + exists 1%nat. split; [done|]. right. by exists (rs_id x), x.
      - injection Ew as <-. split; [done|]. exists 0%nat. split; [done|]. left. by rewrite <- Hdue. }
    destruct (shuts_down from_slice line) eqn:Esd.
    + injection Hs as <- <- <-. cbn [omap list_omap orb]. split; [|split; [done|]].
      * destruct Hcase as [(Hd & _ & ->)|(id & x & Hd & -> & Hx & ->)].
        -- rewrite Hd. cbn. by rewrite take_nil, app_nil_r.
        -- rewrite Hd, Hn, map_app. cbn. by rewrite Hx, take_nil.
      * cbn [is_ok]. split; [|done]. intros _. split; [|by left].
        destruct Hcase as [(Hd & _ & _)|(id & x & Hd & -> & _)]; [rewrite Hd; cbn; lia|].
        rewrite Hd, Hn. cbn. lia.
    + destruct (IH Hne _ _ _ _ _ Hs Ho1) as (Hids & Hwf' & Hr). cbn [omap list_omap orb]. split; [|split; [done|]].
      * rewrite Hids. destruct Hcase as [(Hd & -> & ->)|(id & x & Hd & -> & Hx & ->)].
        -- rewrite Hd. by rewrite Hn.
        -- rewrite Hd, Hn, map_app. cbn. by rewrite Hx, <- app_assoc.
      * rewrite Hr. destruct Hcase as [(Hd & -> & _)|(id & x & Hd & -> & _)].
        -- rewrite Hd. by rewrite Hn.
        -- rewrite Hd, Hn. cbn. rewrite <- Nat.succ_le_mono. done.
  - injection Hs as <- <- <-. destruct response as [x|]; cbn in Ew; [|done]. destruct (writable o) as [|k] eqn:Ek; [|done].
    cbn in Hdue. cbn [omap list_omap]. rewrite <- Hdue. cbn. rewrite app_nil_r. split; [done|]. split; [done|].
    split; [done|]. intros [? _]. lia.
Qed.
End ServeLemmas.

(** The name of an execution method is that of its operation. *)
Lemma execution_named method params operation : method ∈ EXECUTIONS →
  operation_from_name (operation_name_of method) params = Ok operation → method = "fm." +:+ operation_name operation.
Proof.
  intros Hm. unfold EXECUTIONS in Hm. destruct params as [? ? ? adapter ?].
  repeat (apply elem_of_cons in Hm as [->|Hm]; [vm_compute; try (by intros [= <-]); destruct adapter; by intros [= <-]|]).
  by apply elem_of_nil in Hm.
Qed.

Lemma dispatch_effects {S : Type} `{Backend S} method params (s : S) :
  (dispatch method params s).1 = s ∨
  (method = "fm.doctor" ∧ (dispatch method params s).1 = (doctor_value s).1 ∨
   ∃ p operation, parse_params params = Ok p ∧ pa_dry_run p = false ∧
     method = "fm." +:+ operation_name operation ∧ (dispatch method params s).1 = (execute_value operation s).1).
Proof.
  unfold dispatch. repeat (case_bool_decide; [first [by left|idtac]|]).
  - right. left. by destruct (doctor_value s).
  - destruct (parse_params params) as [p|]; [|by left].
    destruct (operation_from_name (operation_name_of method) p) as [operation|] eqn:E; [|by left].
    destruct (pa_dry_run p) eqn:Ed; [by left|]. right. right. exists p, operation. split; [done|]. split; [done|].
    split; [by eapply execution_named|]. by destruct (execute_value operation s).
  - by left.
Qed.

(** ** Properties *)

(** C31: however the input arrives in buffers, the server does what it does on the
    lines of the input: a line is kept whole if with its newline it is within the
    limit, and is otherwise one oversized line, read to its end; a last line
    without a newline counts, an empty rest is the end.  The loop never runs out
    of fuel. *)
Theorem frames_correct {S : Type} `{Backend S} (from_slice : list ascii → option json) (reader : Reader) (s : S)
  (writable : nat) (fault : WriteFault) (nonempty : Forall (λ b, b ≠ []) (buffers reader)) :
  run_server from_slice reader s writable fault
  = serve from_slice (last_result reader) (frames (fails reader) (concat (buffers reader))) s
      {| written := []; writable := writable; write_fault := fault |}.
Proof. unfold run_server. apply run_go_serve; [done|lia]. Qed.

(** C40: the responses are those that are due for the lines up to the first
    shutdown, in order and with their ids: one for every request that is no
    notification, with the null id for what is no request.  Each has either a
    result or an error, and the server ends well exactly if all could be
    written and the input was read to its end or to a shutdown. *)
Theorem answers_in_order {S : Type} `{Backend S} (from_slice : list ascii → option json) (reader : Reader) (s : S)
  (writable : nat) (fault : WriteFault) (nonempty : Forall (λ b, b ≠ []) (buffers reader)) :
  let lines := frames (fails reader) (concat (buffers reader)) in
  let responses := omap (due from_slice) (served from_slice lines) in
  let '(_, o, r) := run_server from_slice reader s writable fault in
  List.map rs_id (written o) = take writable responses ∧
  Forall (λ x, is_some (rs_result x) ≠ is_some (rs_error x)) (written o) ∧
  (is_ok r = true ↔ (length responses ≤ writable)%nat ∧
                    (existsb (shuts_down from_slice) lines = true ∨ fails reader = false)).
Proof.
  cbv zeta. unfold run_server. rewrite run_go_serve by (done || lia).
  destruct (serve _ _ _ _ _) as [[s' o] r] eqn:E.
  destruct (serve_answers from_slice _ _ (frames_not_eof _ _) _ _ _ _ _ E (List.Forall_nil _)) as (H1 & H2 & H3).
  split; [exact H1|]. split; [exact H2|]. rewrite H3. unfold last_result. destruct (fails reader); cbn; intuition congruence.
Qed.

(** A line changes the state of the application only by a request for
    [fm.doctor], which probes, or for an execution method without [dry_run], which
    executes the operation of that name, once. *)
Theorem effects_of_request {S : Type} `{Backend S} (from_slice : list ascii → option json) (line : BoundedLine) (s : S) :
  let '(s', _, _) := serve_line from_slice line s in
  s' = s ∨
  ∃ request, request_in from_slice line = Some request ∧ rpc_jsonrpc request = JSON_RPC_VERSION ∧
    (rpc_method request = "fm.doctor" ∧ s' = (doctor_value s).1 ∨
     ∃ params operation, parse_params (rpc_params request) = Ok params ∧ pa_dry_run params = false ∧
       rpc_method request = "fm." +:+ operation_name operation ∧ s' = (execute_value operation s).1).
Proof.
  unfold serve_line, request_in. destruct line as [|l|]; [by left| |by left].
  destruct (forallb is_ascii_whitespace l); [by left|]. destruct (from_slice l) as [v|]; [|by left].
  destruct (request_of_value v) as [rq|]; [|by left].
  pose proof (dispatch_effects (rpc_method rq) (rpc_params rq) s) as Hd.
  destruct (default JNull (rpc_id rq)); try (by left);
    (case_bool_decide as Hv; cbn [negb]; [|by left]); destruct (dispatch _ _ _) as [s' r]; cbn [fst] in Hd;
    (destruct Hd as [->|Hd]; [by left|right; by exists rq]).
Qed.

(** A text of the largest size is accepted at the end of the input, and refused as
    exceeding the limit when a newline follows. *)
Example limit_counts_newline (text : list ascii) :
  N.of_nat (length text) = MAX_REQUEST_BYTES → existsb (λ d, d == newline) text = false →
  frames false text = [Line text] ∧ frames false (text ++ [newline]) = [Oversized].
Proof.
  intros Hl Hn. unfold frames. rewrite split_list_last, split_list_sep by done. cbn [frame_pieces split_list].
  unfold bounded. rewrite length_app, Nat2N.inj_add, Hl.
  destruct text; [done|]. split; [by rewrite N.leb_refl|]. done.
Qed.

(** *** Witnesses *)

(** An application that logs what it executes. *)
#[local] Instance log_backend : Backend (list Operation) := {
  validate_value _ := Ok (Some (JBool true));
  doctor_value log := (log, Ok None);
  plan_value _ _ := Ok JNull;
  execute_value operation log := (log ++ [operation], Ok (JString (operation_name operation)))
}.

Definition call (id : option json) (method : string) (params : json) : json :=
  JObject (bt_of_list (match id with Some v => [("id", v)] | None => [] end
                       ++ [("jsonrpc", JString "2.0"); ("method", JString method); ("params", params)])).

Definition demo_calls (line : list ascii) : option json :=
  let id := Some (JNumber (NPosInt 1)) in
  if line == bytes "check" ++ [newline] then Some (call id "fm.check" JNull)
  else if line == bytes "dry" ++ [newline] then Some (call (Some (JString "a")) "fm.check" (JObject [("dry_run", JBool true)]))
  else if line == bytes "notify" ++ [newline] then Some (call None "fm.trace" JNull)
  else if line == bytes "doctor" ++ [newline] then Some (call (Some JNull) "fm.doctor" JNull)
  else if line == bytes "stop" ++ [newline] then Some (call (Some (JBool true)) "fm.shutdown" JNull)
  else if line == bytes "shutdown" ++ [newline] then Some (call None "fm.shutdown" JNull)
  else None.

Definition nl : string := of_bytes [newline].

Definition demo_reader : Reader :=
  {| buffers := List.map bytes ["che"; "ck" +:+ nl +:+ "dry"; nl +:+ nl +:+ "notify" +:+ nl; "doctor" +:+ nl +:+ "what";
                                nl +:+ "stop" +:+ nl +:+ "shutdown" +:+ nl +:+ "check" +:+ nl];
     fails := true |}.

Lemma frames_correct_witness :
  frames true (concat (buffers demo_reader))
  = List.map (λ s, Line (bytes s ++ [newline])) ["check"; "dry"; ""; "notify"; "doctor"; "what"; "stop"; "shutdown"; "check"] ∧
  (run_server demo_calls demo_reader [] 9 TextFails).1.1 = [Check; Trace None].
Proof.
  split; [vm_compute; reflexivity|].
  rewrite (frames_correct demo_calls demo_reader [] 9 TextFails); [vm_compute; reflexivity|].
  repeat constructor; discriminate.
Defined.

Lemma answers_in_order_witness :
  List.map (λ r, (rs_id r, option_map code (rs_error r))) (written (run_server demo_calls demo_reader [] 9 TextFails).1.2)
  = [(JNumber (NPosInt 1), None); (JString "a", None); (JNull, Some (-32603)%Z); (JNull, Some (-32700)%Z); (JNull, Some (-32600)%Z)] ∧
  (run_server demo_calls demo_reader [] 9 TextFails).2 = Ok () ∧
  List.map rs_id (written (run_server demo_calls demo_reader [] 2 LineEndFails).1.2) = [JNumber (NPosInt 1); JString "a"].
Proof.
  split; [vm_compute; reflexivity|]. split; [vm_compute; reflexivity|].
  pose proof (answers_in_order demo_calls demo_reader [] 2 LineEndFails) as H.
  destruct (run_server demo_calls demo_reader [] 2 LineEndFails) as [[s o] r].
  destruct H as [H _]; [repeat constructor; discriminate|]. cbn [fst snd]. rewrite H. vm_compute. reflexivity.
Defined.
