(* ===== verification/Report.v ===== *)
(** * Report: the report files of an execution

    [src/tools/fmctl/src/report.rs], and [render_public_result_json] of
    report_publish.rs: JUnit XML, SARIF, the artifact manifest, the provenance and
    the public result, all rendered from one outcome.  serde_json's writers and
    the derived serialization of three structs are parameters; the resource policy
    is serialized here, since its fields become properties of the JUnit report.

    All files agree about the verdict ([reports_agree]); they and the bundle's id
    depend on the public part of the outcome only, which has the number of the
    arguments and the last components of paths, and leaves out arguments,
    directories, captured output and the adapter's answer ([reports_are_public]);
    and the JUnit properties survive the XML escaping whatever they contain
    ([junit_roundtrip]). *)

From S2P Require Import Prelude Text Decimal Json Resource Btree Path Workspace Plan Replay Capture Command BundleId.

Definition REPORT_BUNDLE_SCHEMA_VERSION : N := 1.
Definition ARTIFACT_MANIFEST_SCHEMA : string := "fm.artifacts.v1".
Definition PROVENANCE_SCHEMA : string := "fm.provenance.v1".

(** ** Data *)

Inductive ReportStatus := Passed | Failed | TimedOut.

Record ArtifactEntry := { ae_kind : string; ae_path : Path }.

Record ArtifactManifest := {
  am_schema : string;
  am_schema_version : N;
  am_project : string;
  am_model : string;
  am_operation : string;
  am_status : ReportStatus;
  am_artifacts : list ArtifactEntry;
  am_resource_policy : EffectiveResourcePolicy
}.

Record CommandIdentity := { ci_program : string; ci_argument_count : N }.

Record ResultEvidence := {
  re_status : ReportStatus;
  re_success : bool;
  re_timed_out : bool;
  re_exit_code : option Z;
  re_duration_millis : N;
  re_stdout_truncated : bool;
  re_stderr_truncated : bool
}.

Record ProvenanceReport := {
  pv_schema : string;
  pv_schema_version : N;
  pv_project : string;
  pv_model : string;
  pv_operation : string;
  pv_command : CommandIdentity;
  pv_result : ResultEvidence;
  pv_input_hashes : bmap string;
  pv_resource_policy : EffectiveResourcePolicy
}.

(** [PublishedResult] of report_publish.rs, whose evidence has no status of its own. *)
Record PublishedResult := {
  pr_schema : string;
  pr_schema_version : N;
  pr_project : string;
  pr_model : string;
  pr_operation : string;
  pr_status : ReportStatus;
  pr_command : CommandIdentity;
  pr_success : bool;
  pr_timed_out : bool;
  pr_exit_code : option Z;
  pr_duration_millis : N;
  pr_stdout_truncated : bool;
  pr_stderr_truncated : bool;
  pr_artifacts : list ArtifactEntry;
  pr_resource_policy : EffectiveResourcePolicy
}.

(** ** What the reports say *)

Definition report_status (o : CommandOutcome) : ReportStatus :=
  if co_success o then Passed else if co_timed_out o then TimedOut else Failed.

Definition status_text (s : ReportStatus) : string :=
  match s with Passed => "passed" | Failed => "failed" | TimedOut => "timed_out" end.

Definition report_artifact_path (p : Path) : Path := default "artifact" (file_name p).

Definition command_name (program : string) : string :=
  match file_name program with Some name => if utf8 (bytes name) then name else "program" | None => "program" end.

Definition artifact_entries (a : CommandArtifacts) : list ArtifactEntry :=
  let entry kind path := {| ae_kind := kind; ae_path := report_artifact_path path |} in
  sort_by (λ l r, str_cmp (ae_kind l) (ae_kind r))
    ([entry "result" (ca_result a); entry "stderr" (ca_stderr a); entry "stdout" (ca_stdout a)]
     ++ match ca_trace_pattern a with Some path => [entry "trace_pattern" path] | None => [] end).

Definition artifact_manifest (o : CommandOutcome) : ArtifactManifest :=
  {| am_schema := ARTIFACT_MANIFEST_SCHEMA;
     am_schema_version := REPORT_BUNDLE_SCHEMA_VERSION;
     am_project := co_project o;
     am_model := co_model o;
     am_operation := co_operation o;
     am_status := report_status o;
     am_artifacts := artifact_entries (co_artifacts o);
     am_resource_policy := co_resource_policy o |}.

Definition command_identity (o : CommandOutcome) : CommandIdentity :=
  {| ci_program := command_name (co_program o); ci_argument_count := N.of_nat (length (co_args o)) |}.

Definition provenance_report (o : CommandOutcome) : ProvenanceReport :=
  {| pv_schema := PROVENANCE_SCHEMA;
     pv_schema_version := REPORT_BUNDLE_SCHEMA_VERSION;
     pv_project := co_project o;
     pv_model := co_model o;
     pv_operation := co_operation o;
     pv_command := command_identity o;
     pv_result := {| re_status := report_status o;
                     re_success := co_success o;
                     re_timed_out := co_timed_out o;
                     re_exit_code := co_exit_code o;
                     re_duration_millis := co_duration_millis o;
                     re_stdout_truncated := co_stdout_truncated o;
                     re_stderr_truncated := co_stderr_truncated o |};
     pv_input_hashes := [];
     pv_resource_policy := co_resource_policy o |}.

Definition published_result (o : CommandOutcome) : PublishedResult :=
  {| pr_schema := "fm.result.v1";
     pr_schema_version := 1;
     pr_project := co_project o;
     pr_model := co_model o;
     pr_operation := co_operation o;
     pr_status := report_status o;
     pr_command := command_identity o;
     pr_success := co_success o;
     pr_timed_out := co_timed_out o;
     pr_exit_code := co_exit_code o;
     pr_duration_millis := co_duration_millis o;
     pr_stdout_truncated := co_stdout_truncated o;
     pr_stderr_truncated := co_stderr_truncated o;
     pr_artifacts := artifact_entries (co_artifacts o);
     pr_resource_policy := co_resource_policy o |}.

(** *** Values *)

Definition integer (n : N) : json := JNumber (NPosInt n).
Definition signed (z : Z) : json := JNumber (if (z <? 0)%Z then NNegInt z else NPosInt (Z.to_N z)).
Definition object (entries : list (string * json)) : json := JObject (bt_of_list entries).

Definition limits_value {A} (f : A → json) (v : Limits A) : json :=
  object (List.map (λ '(name, x), (name, f x)) (resource_fields v)).

Definition optional_integer (n : option N) : json := match n with Some n => integer n | None => JNull end.

(** The derived serialization of the policy. *)
Definition policy_value (p : EffectiveResourcePolicy) : json :=
  object [("schema_version", integer (effective_schema_version p));
          ("policy_version", JString (effective_policy_version p));
          ("profile", JString (match profile p with Local_ => "local" | Ci => "ci" | Service => "service" end));
          ("overage_behavior", JString (match effective_overage_behavior p with Reject => "reject" | Clamp => "clamp" end));
          ("requested", limits_value optional_integer (requested p));
          ("policy_defaults", limits_value integer (policy_defaults p));
          ("policy_maximum", object [("scalar", limits_value integer (scalar (policy_maximum p)));
                                     ("max_simulation_work", integer (max_simulation_work (policy_maximum p)));
                                     ("max_trace_work", integer (max_trace_work (policy_maximum p)))]);
          ("effective", object [("scalar", limits_value integer (effective_scalar (effective p)));
                                ("simulation_work", integer (simulation_work (effective p)));
                                ("trace_count_work", integer (trace_count_work (effective p)));
                                ("trace_sample_work", integer (trace_sample_work (effective p)))]);
          ("inherited_fields", JArray (List.map JString (inherited_fields p)));
          ("clamped_fields", JArray (List.map JString (clamped_fields p)))].

Definition render_sarif (version : string) (o : CommandOutcome) : json :=
  let status := report_status o in
  let identity := [("project", JString (co_project o)); ("model", JString (co_model o));
                   ("operation", JString (co_operation o))] in
  let timed_out := match status with TimedOut => true | _ => false end in
  let results :=
    match status with
    | Passed => []
    | _ => [object [("ruleId", JString (if timed_out then "fmctl.timeout" else "fmctl.command_failed"));
                    ("level", JString "error");
                    ("message", object [("text", JString (if timed_out then "Formal operation timed out."
                                                          else "Formal operation failed."))]);
                    ("properties", object (identity ++ [("status", JString (status_text status))]))]]
    end in
  let invocation :=
    object ([("executionSuccessful", JBool (co_success o));
             ("properties", object [("status", JString (status_text status));
                                    ("timedOut", JBool (co_timed_out o));
                                    ("durationMillis", integer (co_duration_millis o));
                                    ("stdoutTruncated", JBool (co_stdout_truncated o));
                                    ("stderrTruncated", JBool (co_stderr_truncated o))])]
            ++ match co_exit_code o with Some code => [("exitCode", signed code)] | None => [] end) in
  object [("$schema", JString "https://json.schemastore.org/sarif-2.1.0.json");
          ("version", JString "2.1.0");
          ("runs", JArray [object
             [("tool", object [("driver", object [("name", JString "fmctl"); ("version", JString version)])]);
              ("invocations", JArray [invocation]);
              ("properties", object (identity ++ [("resourcePolicy", policy_value (co_resource_policy o))]));
              ("results", JArray results)]])].

(** ** JUnit *)

Definition escape_byte (a : ascii) : list ascii :=
  if is_byte "&" a then bytes "&amp;"
  else if is_byte "<" a then bytes "&lt;"
  else if is_byte ">" a then bytes "&gt;"
  else if is_byte (ascii_of_N 34) a then bytes "&quot;"
  else if is_byte "'" a then bytes "&apos;"
  else [a].

(** The escaped characters are single bytes of UTF-8. *)
Definition xml_attribute (value : string) : list ascii := flat_map escape_byte (bytes value).

Definition seconds_text (duration_millis : N) : string :=
  to_dec (duration_millis / 1000) +:+ "." +:+ pad_left "0" 3 (to_dec (duration_millis mod 1000)).

Definition bool_text (b : bool) : string := if b then "true" else "false".

Definition dec_z (z : Z) : string := if (z <? 0)%Z then "-" +:+ to_dec (Z.to_N (- z)) else to_dec (Z.to_N z).

Section Junit.
Context `{SerdeJson}.
(** serde_json's [Display] of a number that is no integer. *)
Context (float_text : Z → Z → string).

Definition number_text (n : number) : string :=
  match n with NPosInt n => to_dec n | NNegInt z => dec_z z | NFloat m e => float_text m e end.

Fixpoint flatten_json (prefix : string) (value : json) (properties : bmap string) : result (bmap string) FmError :=
  match value with
  | JObject m =>
      (fix entries (m : list (string * json)) (properties : bmap string) : result (bmap string) FmError :=
         match m with
         | [] => Ok properties
         | (key, value) :: m =>
             let? properties := flatten_json (prefix +:+ "." +:+ key) value properties in
             entries m properties
         end) m properties
  | JArray _ => let? text := ok_or (to_text value) JsonError in Ok (bt_insert prefix text properties)
  | JNull => Ok (bt_insert prefix "null" properties)
  | JBool b => Ok (bt_insert prefix (bool_text b) properties)
  | JNumber n => Ok (bt_insert prefix (number_text n) properties)
  | JString s => Ok (bt_insert prefix s properties)
  end.

Definition resource_properties (p : EffectiveResourcePolicy) : result (bmap string) FmError :=
  flatten_json "fm.resource" (policy_value p) [].

Definition junit_properties (o : CommandOutcome) : result (bmap string) FmError :=
  let? properties := resource_properties (co_resource_policy o) in
  Ok (fold_left (λ m '(k, v), bt_insert k v m)
        [("fm.project", co_project o);
         ("fm.model", co_model o);
         ("fm.operation", co_operation o);
         ("fm.status", status_text (report_status o));
         ("fm.result.duration_millis", to_dec (co_duration_millis o));
         ("fm.result.exit_code", match co_exit_code o with Some code => dec_z code | None => "null" end);
         ("fm.result.stdout_truncated", bool_text (co_stdout_truncated o));
         ("fm.result.stderr_truncated", bool_text (co_stderr_truncated o))] properties).

(** Double quotes are written as their byte. *)
Definition dq : ascii := ascii_of_N 34.
Definition attribute (name : string) (value : list ascii) : list ascii := bytes name ++ bytes "=" ++ dq :: value ++ [dq].

Definition property_text (p : string * string) : list ascii :=
  bytes "    <property " ++ attribute "name" (xml_attribute p.1) ++ bytes " " ++ attribute "value" (xml_attribute p.2)
  ++ bytes "/>" ++ [newline].

Definition suite_open (o : CommandOutcome) : list ascii :=
  bytes "<?xml " ++ attribute "version" (bytes "1.0") ++ bytes " " ++ attribute "encoding" (bytes "UTF-8") ++ bytes "?>" ++ [newline]
  ++ bytes "<testsuite " ++ attribute "name" (bytes "fmctl") ++ bytes " " ++ attribute "tests" (bytes "1") ++ bytes " "
  ++ attribute "failures" (bytes (match report_status o with Passed => "0" | _ => "1" end)) ++ bytes " "
  ++ attribute "errors" (bytes "0") ++ bytes " " ++ attribute "skipped" (bytes "0") ++ bytes " "
  ++ attribute "time" (bytes (seconds_text (co_duration_millis o))) ++ bytes ">" ++ [newline]
  ++ bytes "  <properties>" ++ [newline].

Definition case_open (o : CommandOutcome) : list ascii :=
  bytes "  </properties>" ++ [newline]
  ++ bytes "  <testcase " ++ attribute "classname" (bytes "fmctl." ++ xml_attribute (co_model o)) ++ bytes " "
  ++ attribute "name" (xml_attribute (co_operation o)) ++ bytes " "
  ++ attribute "time" (bytes (seconds_text (co_duration_millis o))) ++ bytes ">" ++ [newline].

Definition failure_text (s : ReportStatus) : list ascii :=
  match s with
  | Passed => []
  | Failed => bytes "    <failure " ++ attribute "type" (bytes "command_failure") ++ bytes " "
              ++ attribute "message" (bytes "formal operation failed") ++ bytes "/>" ++ [newline]
  | TimedOut => bytes "    <failure " ++ attribute "type" (bytes "timeout") ++ bytes " "
                ++ attribute "message" (bytes "formal operation timed out") ++ bytes "/>" ++ [newline]
  end.

Definition suite_close : list ascii := bytes "  </testcase>" ++ [newline] ++ bytes "</testsuite>" ++ [newline].

Definition render_junit_xml (o : CommandOutcome) : result (list ascii) FmError :=
  let? properties := junit_properties o in
  Ok (suite_open o ++ flat_map property_text properties ++ case_open o ++ failure_text (report_status o) ++ suite_close).

(** ** The files of a bundle *)

Context (encode_manifest : ArtifactManifest → option (list ascii)).
Context (encode_provenance : ProvenanceReport → option (list ascii)).
Context (encode_result : PublishedResult → option (list ascii)).
Context (encode_value : json → option (list ascii)).
(** [CARGO_PKG_VERSION] *)
Context (version : string).

Definition render_sarif_json (o : CommandOutcome) : result (list ascii) FmError := ok_or (encode_value (render_sarif version o)) JsonError.
Definition render_artifact_manifest_json (o : CommandOutcome) : result (list ascii) FmError :=
  ok_or (encode_manifest (artifact_manifest o)) JsonError.
Definition render_provenance_json (o : CommandOutcome) : result (list ascii) FmError :=
  ok_or (encode_provenance (provenance_report o)) JsonError.
Definition render_public_result_json (o : CommandOutcome) : result (list ascii) FmError :=
  ok_or (encode_result (published_result o)) JsonError.

(** In the order of [REPORT_FILES]. *)
Definition report_files (o : CommandOutcome) : result (list (list ascii)) FmError :=
  let? result := render_public_result_json o in
  let? junit := render_junit_xml o in
  let? sarif := render_sarif_json o in
  let? artifacts := render_artifact_manifest_json o in
  let? provenance := render_provenance_json o in
  Ok [result; junit; sarif; artifacts; provenance].

Definition bundle_id (sha256 : list ascii → list ascii) (o : CommandOutcome) : result (list ascii) FmError :=
  let? files := report_files o in
  Ok (deterministic_bundle_id sha256 (bytes (co_operation o)) files).
End Junit.

(** ** Specification *)

(** What the reports may say of an outcome: of its command the last component of
    the program's path and how many arguments there are, and of its artifacts the
    last components of their paths. *)
Record Public := {
  pb_project : string;
  pb_model : string;
  pb_operation : string;
  pb_program_name : option string;
  pb_argument_count : nat;
  pb_success : bool;
  pb_timed_out : bool;
  pb_exit_code : option Z;
  pb_duration_millis : N;
  pb_stdout_truncated : bool;
  pb_stderr_truncated : bool;
  pb_artifact_names : list (option string);
  pb_trace_pattern_name : option (option string);
  pb_resource_policy : EffectiveResourcePolicy
}.

Definition public (o : CommandOutcome) : Public :=
  let a := co_artifacts o in
  {| pb_project := co_project o; pb_model := co_model o; pb_operation := co_operation o;
     pb_program_name := file_name (co_program o); pb_argument_count := length (co_args o);
     pb_success := co_success o; pb_timed_out := co_timed_out o; pb_exit_code := co_exit_code o;
     pb_duration_millis := co_duration_millis o; pb_stdout_truncated := co_stdout_truncated o;
     pb_stderr_truncated := co_stderr_truncated o;
     pb_artifact_names := List.map file_name [ca_stdout a; ca_stderr a; ca_result a];
     pb_trace_pattern_name := option_map file_name (ca_trace_pattern a);
     pb_resource_policy := co_resource_policy o |}.

(** *** A reader of the JUnit text *)

Definition entity (l : list ascii) : option (ascii * list ascii) :=
  match strip_prefix (bytes "&amp;") l, strip_prefix (bytes "&lt;") l, strip_prefix (bytes "&gt;") l,
        strip_prefix (bytes "&quot;") l, strip_prefix (bytes "&apos;") l with
  | Some l, _, _, _, _ => Some ("&"%char, l)
  | _, Some l, _, _, _ => Some ("<"%char, l)
  | _, _, Some l, _, _ => Some (">"%char, l)
  | _, _, _, Some l, _ => Some (dq, l)
  | _, _, _, _, Some l => Some ("'"%char, l)
  | _, _, _, _, _ => None
  end.

Fixpoint unescape (fuel : nat) (l : list ascii) : list ascii :=
  match fuel, l with
  | S fuel, a :: l' =>
      match entity l with
      | Some (c, rest) => c :: unescape fuel rest
      | None => a :: unescape fuel l'
      end
  | _, _ => []
  end.

(** An attribute, and what follows its closing quote. *)
Definition read_attribute (name : string) (l : list ascii) : option (string * list ascii) :=
  l ← strip_prefix (bytes name ++ bytes "=" ++ [dq]) l;
  '(value, l) ← split_bytes dq l;
  Some (of_bytes (unescape (length value) value), l).

Definition read_property (l : list ascii) : option ((string * string) * list ascii) :=
  l ← strip_prefix (bytes "    <property ") l;
  '(name, l) ← read_attribute "name" l;
  l ← strip_prefix (bytes " ") l;
  '(value, l) ← read_attribute "value" l;
  l ← strip_prefix (bytes "/>" ++ [newline]) l;
  Some ((name, value), l).

Fixpoint read_properties (fuel : nat) (l : list ascii) : list (string * string) * list ascii :=
  match fuel with
  | O => ([], l)
  | S fuel =>
      match read_property l with
      | Some (p, l) => let '(ps, l) := read_properties fuel l in (p :: ps, l)
      | None => ([], l)
      end
  end.

Record JunitReport := {
  jr_failures : string;
  jr_time : string;
  jr_properties : list (string * string);
  jr_classname : string;
  jr_name : string;
  jr_failure : option string
}.

Definition read_junit (l : list ascii) : option JunitReport :=
  l ← strip_prefix (bytes "<?xml " ++ attribute "version" (bytes "1.0") ++ bytes " " ++ attribute "encoding" (bytes "UTF-8")
                    ++ bytes "?>" ++ [newline] ++ bytes "<testsuite " ++ attribute "name" (bytes "fmctl") ++ bytes " "
                    ++ attribute "tests" (bytes "1") ++ bytes " ") l;
  '(failures, l) ← read_attribute "failures" l;
  l ← strip_prefix (bytes " " ++ attribute "errors" (bytes "0") ++ bytes " " ++ attribute "skipped" (bytes "0") ++ bytes " ") l;
  '(time, l) ← read_attribute "time" l;
  l ← strip_prefix (bytes ">" ++ [newline] ++ bytes "  <properties>" ++ [newline]) l;
  let '(properties, l) := read_properties (length l) l in
  l ← strip_prefix (bytes "  </properties>" ++ [newline] ++ bytes "  <testcase ") l;
  '(classname, l) ← read_attribute "classname" l;
  l ← strip_prefix (bytes " ") l;
  '(name, l) ← read_attribute "name" l;
  l ← strip_prefix (bytes " ") l;
  '(_, l) ← read_attribute "time" l;
  l ← strip_prefix (bytes ">" ++ [newline]) l;
  match strip_prefix (bytes "    <failure ") l with
  | Some l => '(type, _) ← read_attribute "type" l;
              Some {| jr_failures := failures; jr_time := time; jr_properties := properties; jr_classname := classname;
                      jr_name := name; jr_failure := Some type |}
  | None => Some {| jr_failures := failures; jr_time := time; jr_properties := properties; jr_classname := classname;
                    jr_name := name; jr_failure := None |}
  end.

(** *** A reader of the SARIF value *)

Definition get (key : string) (v : json) : option json := match v with JObject m => bt_get key m | _ => None end.
Definition items (v : json) : list json := match v with JArray l => l | _ => [] end.

(** The results, and whether the invocation was successful. *)
Definition read_sarif (v : json) : option (list json * json) :=
  runs ← get "runs" v;
  run ← head (items runs);
  results ← get "results" run;
  invocations ← get "invocations" run;
  invocation ← head (items invocations);
  successful ← get "executionSuccessful" invocation;
  Some (items results, successful).

(** ** Lemmas *)

Lemma escape_no_quote v : existsb (λ d, d == dq) (xml_attribute v) = false.
Proof.
  unfold xml_attribute. apply not_true_iff_false. intros (x & (a & _ & Ha)%in_flat_map & Hx%bool_decide_eq_true)%existsb_exists. subst x.
  unfold escape_byte in Ha. repeat (case_match; [vm_compute in Ha; naive_solver|]).
  destruct Ha as [->|[]]. done.
Qed.

Lemma strip_cat p q l : strip_prefix (p ++ q) (p ++ l) = strip_prefix q l.
Proof. induction p as [|a p IH]; simpl; [done|]. by rewrite bool_decide_true. Qed.

Lemma entity_none a l : a ≠ "&"%char → entity (a :: l) = None.
Proof.
  intros Ha. unfold entity.
  rewrite (prefix_head (bytes "amp;") "&"), (prefix_head (bytes "lt;") "&"), (prefix_head (bytes "gt;") "&"),
    (prefix_head (bytes "quot;") "&"), (prefix_head (bytes "apos;") "&") by congruence. done.
Qed.

Lemma unescape_escaped l : ∀ fuel, (length (flat_map escape_byte l) ≤ fuel)%nat → unescape fuel (flat_map escape_byte l) = l.
Proof.
  induction l as [|a l IH]; intros fuel Hf; [by destruct fuel|]. cbn [flat_map] in *. rewrite length_app in Hf.
  assert (∀ e c r, entity (e ++ r) = Some (c, r) → (length e ≠ 0)%nat → (length e + length r ≤ fuel)%nat →
    unescape fuel (e ++ r) = c :: unescape (pred fuel) r) as Hstep.
  { intros e c r He Hn Hl. destruct fuel as [|fuel]; [destruct e; cbn in *; lia|]. destruct e as [|x e]; [done|].
    cbn [app unescape]. change (x :: e ++ r) with ((x :: e) ++ r). by rewrite He. }
  unfold escape_byte at 1. unfold escape_byte at 1 in Hf.
  destruct (is_byte "&" a) eqn:E1; [apply is_byte_spec in E1 as ->|destruct (is_byte "<" a) eqn:E2;
    [apply is_byte_spec in E2 as ->|destruct (is_byte ">" a) eqn:E3; [apply is_byte_spec in E3 as ->|
      destruct (is_byte (ascii_of_N 34) a) eqn:E4; [apply is_byte_spec in E4 as ->|
        destruct (is_byte "'" a) eqn:E5; [apply is_byte_spec in E5 as ->|]]]]].
  1-5: erewrite Hstep; [f_equal; apply IH; cbn in Hf; lia|reflexivity|done|cbn in *; lia].
  destruct fuel as [|fuel]; [cbn in Hf; lia|]. cbn [app unescape].
  rewrite entity_none by (intros ->; by vm_compute in E1). f_equal. apply IH. cbn in Hf. lia.
Qed.

Lemma read_attribute_value name v l : read_attribute name (attribute name (xml_attribute v) ++ l) = Some (v, l).
Proof.
  unfold read_attribute, attribute. rewrite <- !app_assoc. cbn [app]. rewrite <- !app_assoc. rewrite !strip_cat.
  change (dq :: xml_attribute v ++ [dq] ++ l) with ([dq] ++ xml_attribute v ++ dq :: l).
  rewrite strip_prefix_app. cbn. rewrite split_bytes_app by apply escape_no_quote. cbn.
  unfold xml_attribute at 1 2. rewrite unescape_escaped by done. by rewrite of_bytes_bytes.
Qed.

Lemma read_property_text p l : read_property (property_text p ++ l) = Some (p, l).
Proof.
  unfold read_property, property_text. rewrite <- !app_assoc, strip_prefix_app. cbn [mbind option_bind].
  rewrite read_attribute_value. cbn [mbind option_bind]. rewrite strip_prefix_app. cbn [mbind option_bind].
  rewrite read_attribute_value. cbn [mbind option_bind]. rewrite strip_cat, strip_prefix_app. by destruct p.
Qed.

Lemma read_properties_text ps l : read_property l = None → ∀ fuel, (length ps ≤ fuel)%nat →
  read_properties (S fuel) (flat_map property_text ps ++ l) = (ps, l).
Proof.
  intros Hl. induction ps as [|p ps IH]; intros fuel Hf; cbn [flat_map].
  - cbn [app]. by cbn [read_properties]; rewrite Hl.
  - cbn in Hf. destruct fuel as [|fuel]; [lia|]. rewrite <- app_assoc. remember (S fuel) as n. cbn [read_properties].
    rewrite read_property_text. subst n. rewrite IH by lia. done.
Qed.

Lemma property_text_length p : (1 ≤ length (property_text p))%nat.
Proof. unfold property_text. rewrite length_app. cbn. lia. Qed.

Lemma properties_length ps : (length ps ≤ length (flat_map property_text ps))%nat.
Proof. induction ps as [|p ps IH]; cbn; [done|]. rewrite length_app. pose proof (property_text_length p). lia. Qed.

(** Text without special characters is its own escape. *)
Lemma xml_plain v : forallb (λ a, is_ascii_digit a || is_byte "." a) (bytes v) = true → xml_attribute v = bytes v.
Proof.
  unfold xml_attribute. induction (bytes v) as [|a l IH]; [done|]. cbn [forallb flat_map]. intros [Ha Hl]%andb_true_iff.
  rewrite IH by done. unfold escape_byte.
  repeat match goal with |- context [is_byte ?c a] => let E := fresh in destruct (is_byte c a) eqn:E; [apply is_byte_spec in E as ->; by vm_compute in Ha|] end.
  done.
Qed.

Lemma seconds_plain n : forallb (λ a, is_ascii_digit a || is_byte "." a) (bytes (seconds_text n)) = true.
Proof.
  assert (∀ l, forallb is_ascii_digit l = true → forallb (λ a, is_ascii_digit a || is_byte "." a) l = true) as Hd.
  { intros l. rewrite !forallb_Forall. intros Hl. eapply Forall_impl; [exact Hl|]. cbn. by intros a ->. }
  unfold seconds_text. rewrite !bytes_app, !forallb_app, bytes_pad_left, forallb_app, !andb_true_iff.
  split; [apply Hd, dec_digits|]. split; [done|]. split; [|apply Hd, dec_digits]. apply Hd.
  generalize (3 - length (bytes (to_dec (n mod 1000))))%nat as k. by induction k.
Qed.

Lemma xml_attribute_app v w : xml_attribute (v +:+ w) = xml_attribute v ++ xml_attribute w.
Proof. unfold xml_attribute. by rewrite bytes_app, flat_map_app. Qed.

(** What is read after the properties. *)
Lemma read_property_end o l : read_property (case_open o ++ l) = None.
Proof. reflexivity. Qed.

Ltac read_step :=
  repeat (rewrite strip_cat || rewrite strip_prefix_app || rewrite read_attribute_value); cbn [mbind option_bind].

Lemma read_junit_text o ps :
  read_junit (suite_open o ++ flat_map property_text ps ++ case_open o ++ failure_text (report_status o) ++ suite_close)
  = Some {| jr_failures := match report_status o with Passed => "0" | _ => "1" end;
            jr_time := seconds_text (co_duration_millis o);
            jr_properties := ps;
            jr_classname := "fmctl." +:+ co_model o;
            jr_name := co_operation o;
            jr_failure := match report_status o with
                          | Passed => None | Failed => Some "command_failure" | TimedOut => Some "timeout" end |}.
Proof.
  unfold read_junit, suite_open. rewrite <- (xml_plain _ (seconds_plain (co_duration_millis o))).
  replace (bytes (match report_status o with Passed => "0" | _ => "1" end))
    with (xml_attribute (match report_status o with Passed => "0" | _ => "1" end)) by by destruct (report_status o).
  rewrite <- !app_assoc. do 5 read_step.
  set (rest := case_open o ++ failure_text (report_status o) ++ suite_close).
  pose proof (properties_length ps) as Hl. destruct (length (flat_map property_text ps ++ rest)) as [|fuel] eqn:Ef.
  { rewrite length_app in Ef. unfold rest, case_open in Ef. rewrite !length_app in Ef. cbn in Ef. lia. }
  rewrite read_properties_text; [|apply read_property_end|].
  2:{ rewrite length_app in Ef. unfold rest, case_open in Ef. rewrite !length_app in Ef. cbn in Ef. lia. }
  unfold rest, case_open. rewrite <- (xml_plain _ (seconds_plain (co_duration_millis o))).
  change (bytes "fmctl." ++ xml_attribute (co_model o)) with (xml_attribute "fmctl." ++ xml_attribute (co_model o)).
  rewrite <- xml_attribute_app, <- !app_assoc. do 7 read_step.
  destruct (report_status o); [reflexivity| |]; cbn [failure_text];
    rewrite <- !app_assoc; read_step;
    change (bytes "command_failure") with (xml_attribute "command_failure");
    change (bytes "timeout") with (xml_attribute "timeout"); by read_step.
Qed.

(** ** Lemmas: what is left of paths *)

Lemma command_name_of program program' : file_name program = file_name program' →
  command_name program = command_name program'.
Proof. unfold command_name. by intros ->. Qed.

Lemma artifact_entries_of a a' :
  List.map file_name [ca_stdout a; ca_stderr a; ca_result a] = List.map file_name [ca_stdout a'; ca_stderr a'; ca_result a'] →
  option_map file_name (ca_trace_pattern a) = option_map file_name (ca_trace_pattern a') →
  artifact_entries a = artifact_entries a'.
Proof.
  cbn [List.map]. intros [= Ho He Hr] Ht. unfold artifact_entries, report_artifact_path. rewrite Ho, He, Hr.
  destruct (ca_trace_pattern a), (ca_trace_pattern a'); cbn in Ht; try done. by injection Ht as ->.
Qed.

(** ** Properties *)

(** All reports agree with the exit code about the verdict: the artifact
    manifest, the provenance and the public result have the same status, which is
    "passed" exactly if the tool exits with 0, and only then is the SARIF
    invocation successful and without a result. *)
Theorem reports_agree (version : string) (o : CommandOutcome) :
  let status := report_status o in
  (status = Passed ↔ stable_exit_code o = 0) ∧ (status = TimedOut → stable_exit_code o = 124) ∧
  am_status (artifact_manifest o) = status ∧ re_status (pv_result (provenance_report o)) = status ∧
  pr_status (published_result o) = status ∧
  ∃ results, read_sarif (render_sarif version o) = Some (results, JBool (co_success o)) ∧
    (results = [] ↔ status = Passed) ∧ (length results ≤ 1)%nat.
Proof.
  cbv zeta. pose proof (exit_code_byte o) as [_ Hcode]. split; [|split; [|do 3 (split; [done|])]].
  - rewrite Hcode. unfold report_status. destruct (co_success o), (co_timed_out o); done.
  - unfold report_status, stable_exit_code. by destruct (co_success o), (co_timed_out o).
  - unfold render_sarif. destruct (report_status o) eqn:E; (eexists; split; [destruct (co_exit_code o); reflexivity|]);
      (split; [done|cbn; lia]).
Qed.

(** C32: two outcomes with the same public part have the same report files and the
    same bundle id.  Of the command the public part has the last component of the
    program's path and the number of arguments, of each artifact the last
    component of its path; it has neither the arguments themselves, nor any
    directory, nor what was printed, nor the adapter's answer, nor the failure. *)
Theorem reports_are_public `{SerdeJson} (float_text : Z → Z → string) (encode_manifest : ArtifactManifest → option (list ascii))
  (encode_provenance : ProvenanceReport → option (list ascii)) (encode_result : PublishedResult → option (list ascii))
  (encode_value : json → option (list ascii)) (version : string) (sha256 : list ascii → list ascii) (o o' : CommandOutcome)
  (same : public o = public o') :
  let files := report_files float_text encode_manifest encode_provenance encode_result encode_value version in
  let id := bundle_id float_text encode_manifest encode_provenance encode_result encode_value version sha256 in
  files o = files o' ∧ id o = id o'.
Proof.
  cbv zeta. unfold public in same. injection same as Hp Hm Ho Hc Hn Hs Ht He Hd Hto Hte Ha1 Ha2 Ha3 Hpat Hr.
  apply command_name_of in Hc. assert (artifact_entries (co_artifacts o) = artifact_entries (co_artifacts o')) as Ha
    by (apply artifact_entries_of; [cbn; congruence|done]).
  assert (report_status o = report_status o') as Hst by (unfold report_status; by rewrite Hs, Ht).
  assert (report_files float_text encode_manifest encode_provenance encode_result encode_value version o =
          report_files float_text encode_manifest encode_provenance encode_result encode_value version o') as Hf.
  { unfold report_files, render_public_result_json, render_junit_xml, render_sarif_json, render_artifact_manifest_json,
      render_provenance_json, published_result, junit_properties, suite_open, case_open, render_sarif, artifact_manifest,
      provenance_report, command_identity.
    by rewrite Hp, Hm, Ho, Hst, Hs, Ht, He, Hd, Hto, Hte, Ha, Hr, Hc, Hn. }
  split; [exact Hf|]. unfold bundle_id. by rewrite Hf, Ho.
Qed.

(** Reading the JUnit report gives back the properties, whatever characters
    they have, among them the project, the model, the operation and the status;
    one failure is counted and described exactly if the operation did not pass. *)
Theorem junit_roundtrip `{SerdeJson} (float_text : Z → Z → string) (o : CommandOutcome) :
  match render_junit_xml float_text o with
  | Err e => junit_properties float_text o = Err e
  | Ok xml =>
      ∃ properties, junit_properties float_text o = Ok properties ∧
        bt_get "fm.project" properties = Some (co_project o) ∧ bt_get "fm.model" properties = Some (co_model o) ∧
        bt_get "fm.operation" properties = Some (co_operation o) ∧
        bt_get "fm.status" properties = Some (status_text (report_status o)) ∧
        read_junit xml = Some {|
          jr_failures := match report_status o with Passed => "0" | _ => "1" end;
          jr_time := seconds_text (co_duration_millis o);
          jr_properties := properties;
          jr_classname := "fmctl." +:+ co_model o;
          jr_name := co_operation o;
          jr_failure := match report_status o with Passed => None | Failed => Some "command_failure" | TimedOut => Some "timeout" end
        |}
  end.
Proof.
  unfold render_junit_xml. destruct (junit_properties float_text o) as [ps|e] eqn:Hps; [|done]. exists ps. split; [done|].
  unfold junit_properties in Hps. destruct (resource_properties _ _) as [base|]; [|done]. injection Hps as <-. cbn [fold_left].
  do 4 (split; [repeat (rewrite bt_get_insert_eq || rewrite bt_get_insert_ne by done); done|]).
  set (ps := bt_insert _ _ _). clearbody ps. apply read_junit_text.
Qed.

(** *** Witness *)

Definition plain_codec : SerdeJson := {| to_text _ := Some "[]"; from_text _ := None |}.

(** A check with a secret among its arguments and in its output, and one without. *)
Definition check_outcome (secret : string) : CommandOutcome :=
  {| co_schema_version := 1; co_project := "p <1>"; co_model := "m"; co_operation := "check";
     co_program := "/opt/" +:+ secret +:+ "/npx"; co_args := ["--token"; secret];
     co_resource_policy := cp_resource_policy demo_check; co_success := false; co_timed_out := false;
     co_exit_code := Some 3%Z; co_duration_millis := 1040; co_stdout := "using " +:+ secret; co_stderr := "";
     co_stdout_truncated := false; co_stderr_truncated := false; co_adapter_response := None;
     co_failure := Some (FailedWith (Io secret)); co_artifacts := cp_artifacts demo_check |}.

Lemma reports_are_public_witness :
  (let files secret := report_files (H := plain_codec) (λ _ _, "") (λ m, Some (bytes (am_project m))) (λ p, Some (bytes (pv_model p)))
     (λ r, Some (bytes (ci_program (pr_command r)))) (λ _, Some []) "0.1.0" (check_outcome secret) in
   files "hunter2" = files "swordfish") ∧
  (report_status (check_outcome "hunter2"), seconds_text 1040, xml_attribute "p <1>")
  = (Failed, "1.040", bytes "p &lt;1&gt;").
Proof.
  split; [|vm_compute; reflexivity]. cbv zeta.
  apply (reports_are_public (H := plain_codec) (λ _ _, "") (λ m, Some (bytes (am_project m))) (λ p, Some (bytes (pv_model p)))
    (λ r, Some (bytes (ci_program (pr_command r)))) (λ _, Some []) "0.1.0" (λ l, l)).
  vm_compute. reflexivity.
Defined.
